(* ===== verification/_CoqProject ===== *)
-Q . S2P
Prelude.v
Bytes.v
Text.v
Sketch.v
Segment.v
ChunkTree.v
ChunkTreeSpec.v
UlidMint.v
WriteLog.v
WriteLogSpec.v
Codec.v
CodecSpec.v
SegmentCodec.v
SegmentCodecSpec.v
LbaMap.v
LbaMapFacts.v
LbaMapSpec.v
ExtentIndex.v
ExtentIndexSpec.v
Journal.v
MapLayers.v
MapLayersSpec.v
Volume.v
VolumeSpec.v
Promote.v
PromoteSpec.v
EpochSpec.v
SyncGate.v
SyncGateSpec.v
Locate.v
Dmat.v
DmatSpec.v
FileCache.v
ReadPath.v
ReadPathSpec.v
FileCacheSpec.v
SegmentClassify.v
SegmentClassifySpec.v
RewritePlan.v
RewritePlanSpec.v
Materialise.v
MaterialiseSpec.v
LbaRanges.v
LbaRangesSpec.v
Rebuild.v
RebuildSpec.v
FoldApply.v
FoldApplySpec.v
RepackFoldSpec.v
RepackPass.v
RepackPassSpec.v
GcPlan.v
Reap.v
ReapSpec.v
Reclaim.v
ReclaimSpec.v
ReclaimFoldSpec.v
SegmentHead.v
SegmentHeadSpec.v
NameRecord.v
Lifecycle.v
LifecycleSpec.v
GcCycle.v
GcCycleSpec.v
GcSelect.v
GcSelectSpec.v
GcHandoff.v
Crockford.v
Provenance.v
ProvenanceSpec.v
Ancestry.v
AncestrySpec.v
LineageForest.v
LineageForestSpec.v
Fetch.v
FetchFacts.v
FetchSpec.v
FetchLiveSpec.v
FullWarm.v
