(* ===== verification/Prelude.v ===== *)
(** * Elide: a verification library of the volume engine and its coordinator

    Elide serves block devices from content-addressed segments.  A guest write
    is hashed, appended to a write log, and claimed in an LBA map; a promote
    turns the log of an epoch into a signed segment file; repacks, reaps,
    reclaims and the coordinator's GC passes rewrite segments while the guest
    keeps writing; a coordinator uploads them, publishes a HEAD object a reader
    starts from, and moves a volume's name between hosts by conditional puts.
    The library models these parts as executable functions over explicit state
    and proves what makes each of them correct.  Paths below are under
    [elide-core/src/] unless they name another crate.

    ** Parts and files

    A component is a file of definitions, named after the code, and a file
    [...Spec.v] of theorems; a file of definitions is executable throughout.

    - [Prelude], [Bytes], [Text]: machine integers with their wrap-around, the
      [io] error monad, ordered maps, reference counts; little-endian fields,
      fixed-size reads, the classes of the primitives outside the source; the
      line and decimal parsers of the text formats.
    - [LbaMap], [LbaMapFacts], [LbaMapSpec] (lbamap.rs): the map from blocks to
      extents with its refcounts.  The theorems read it through [view], a
      function from a block to the payload block it resolves to; [insert] is a
      range update of it.  [Journal] (journal.rs) holds the window lists.
    - [ExtentIndex], [ExtentIndexSpec] (extentindex.rs): hash to location, the
      thin-delta tier with its source counts, the journal tier.
    - [MapLayers], [MapLayersSpec] (map_layers.rs): base, frozen layers and
      delta.  [layered_view] is the topmost layer's block: reads return it, and
      freezing, absorbing and the promote's two phases preserve it.
    - [WriteLog], [WriteLogSpec] (writelog.rs): records, appends over the
      kernel's answers, both scans.  [UlidMint] (ulid_mint.rs): issued ULIDs
      increase.  [SyncGate], [SyncGateSpec] (sync_gate.rs): one fdatasync round
      for many callers, as a step relation over any number of them.
    - [Segment], [SegmentCodec], [SegmentCodecSpec] (segment.rs): entries, the
      index section, header, signature and body of a segment file.  [Sketch]
      (sketch.rs): the sketch words an entry carries.  [ChunkTree] (chunk_tree.rs),
      [Codec] (volume/compress.rs): chunk tables and the forms of a body.
    - [Volume], [VolumeSpec] (volume/mod.rs, volume/wal.rs): write, trim, the
      no-op skip, the WAL's opening and recovery.  [Promote], [PromoteSpec],
      [EpochSpec] (volume/jobs.rs, actor.rs): staging, forming, applying, the
      journal's capture, the cache flip, the promote of a log that an open finds.
    - [Locate], [Dmat], [FileCache], [ReadPath] with their [Spec]s
      (volume/read.rs, dmat.rs): where a segment's bytes are, the sidecar of
      materialised deltas, the CLOCK cache of descriptors, the guest read.
    - [Rebuild], [RebuildSpec] (rebuild.rs): discovery of a fork's segments in
      a directory other processes change, and the maps rebuilt from them.
    - [SegmentClassify], [RewritePlan], [Materialise] with their [Spec]s
      (segment_classify.rs, rewrite_plan.rs, rewrite_apply.rs): which of an
      input's claims are live, the plan and its text, the plan carried out.
    - [LbaRanges], [FoldApply], [RepackFoldSpec], [RepackPass], [GcPlan], [Reap],
      [Reclaim] with their [Spec]s (volume/mod.rs, volume/repack.rs,
      volume/reap.rs, volume/reclaim.rs, actor.rs): the rewrites.  Each works on
      a clone with the volume released, then lands under its lock; the model is
      a fold and a swap with any guest writes in between.
    - [SegmentHead] (elide-coordinator/src/segment_head.rs), [NameRecord],
      [Lifecycle] (name_record.rs, elide-coordinator/src/{portable, name_store,
      bucket_position, eligibility, lifecycle, force_claim, inbound/mod, fork}.rs;
      of the last two, the claim of a new name and its rollback), [GcCycle]
      (gc_cycle.rs, volume_data.rs, config.rs of the same crate), [GcSelect],
      [GcHandoff] (gc.rs): the HEAD object, the name verbs as programs of
      bucket requests, the tick, the pass that writes plans, the handoffs.
    - [Crockford] (the ULID text of the ulid crate as the tests use it, an
      instance), [Provenance], [ProvenanceSpec] (signing.rs): lineage records,
      manifests, possession proofs and key files, their signing inputs and
      their text.  [Ancestry], [AncestrySpec] (volume/ancestry.rs): the walks up
      a volume's lineage.  [LineageForest], [LineageForestSpec]
      (elide-coordinator/src/{lineage_forest, liveness, daemon}.rs): which
      volumes live on a host and which the daemon's sweep may delete.
    - [Fetch], [FetchFacts], [FetchSpec], [FetchLiveSpec] (elide-fetch/src/lib.rs,
      and the eviction of elide-coordinator/src/tasks.rs): demand fetches, warm
      passes, leases and presence bits, any number of calls interleaved one
      operation at a time over a directory and files that crashes cut back.
      [FullWarm] (elide-fetch/src/full_warm.rs): the plan of a full warm.

    ** How code becomes definitions

    A [u32] or [u64] is a [Z]; each operation of the source wraps explicitly,
    and theorems state the range under which it does not.  Bytes are [list Z], a
    hash its 32 bytes, a ULID its 128-bit value.  Fallible code returns [io] or
    [option]; [BTreeMap] and [HashMap] are [gmap], iterated in key order where
    the source's order shows.  The environment is an input consumed in order:
    the kernel's answers to each write, the clock readings, the listings and
    file contents a walk meets, the bucket's answers.  What a worker does to the
    filesystem or the bucket is a list of operations, in order.  Concurrency is
    either a step relation (sync gate, lifecycle verbs, demand fetch) or the
    explicit two steps of a job with writes in between (promote, folds).  An [Arc] shared
    between readers is its value, since every mutation copies a shared map.

    Code outside the repository is a class, and a theorem names the laws it
    uses: [Blake3] and [Blake3Tree] (hash and chaining values), [Lz4Block],
    [Lz4Codec], [ZstdBulk], [ZstdDict], [ZstdDictEncode] (compressors, inverse
    to their decoders), [Signer], [Verifier] and [Ed25519] (ed25519-dalek),
    [UlidBytes], [UlidParts], [UlidText] (the ulid crate), [UnstableSort] ([sort_unstable_by]:
    some sorted permutation), [Rfc3339] (instants), [NameToml] (toml), and
    [ObjectStore] (a put under a version lands only on that version).  The
    witnesses instantiate each of them by a concrete function.

    ** What the theorems show

    - Guest data: a request updates the device the layered maps denote
      ([request_updates_device]), layered reads return it ([layered_reads_exact]),
      every byte a read hands out hangs under the hash the map names
      ([read_verified]).
    - Crash safety: a scan of any log is sound and settles ([scan_sound]), appends
      round-trip and fail cleanly ([append_scan_roundtrip],
      [append_failure_recovers]), recovery reproduces the live maps
      ([recovery_reproduces_live]) and replaying, forming and applying what it
      recovers succeeds ([recovered_wal_promotes]); a rebuild sees each segment once
      ([discover_exact]) and gives each block its newest claim
      ([rebuild_newest_claim]).
    - Rewrites keep the device: promotes ([promote_preserves]), repacks
      ([repack_fold_preserves], [repack_pass_ordered]), GC plans
      ([plan_fold_exact], [gc_plan_exact]), reaps ([reap_preserves]), reclaims
      ([reclaim_fold_preserves]); their inputs are classified and carried exactly
      ([classify_exact], [materialise_sound]), and the live fold and the rebuild
      agree ([horizon_matches_live_apply]).
    - Formats round-trip and their parsers bound what they read: segments, bodies,
      sidecars, plans, heads ([write_read_roundtrip], [parse_index_section_safe],
      [body_roundtrip], [dmat_roundtrip], [plan_text_roundtrip],
      [head_text_roundtrip]).
    - Counts and caches: [delta_source_counts_exact], [file_cache_refines].
    - Concurrency and progress: a sync call that succeeds is covered by a
      successful round and every call returns ([sync_covers], [requests_return]);
      the write loop ends ([commit_terminates]).
    - The coordinator: a published HEAD names a whole commit ([cut_exact]), edges
      wait for the barrier ([barrier_holds]), handoffs finish in order
      ([handoffs_ordered]), packing keeps its bounds ([select_exact]), and the
      verbs of any number of coordinators refine an atomic lifecycle whose every
      transition is labelled by the verb that takes it, in its coordinator's name
      ([names_refine_lifecycle], [names_well_formed]).
    - Trust: a lineage record or manifest that verifies is one its key signed,
      whatever else that key signs: segment hashes, possession proofs
      ([accepted_is_signed]); a verified walk returns volumes each named by the
      record below it ([ancestors_verified]), and a walk is exactly the chain of
      records ([lineage_walks_exact], [walks_return]); the daemon's sweep leaves
      no kept volume without its ancestors ([sweep_strands_nothing]).
    - The cache: a set presence bit stands for body bytes that verify, across
      crashes, as long as evictions fall between calls ([presence_sound]; it
      fails when they race, [eviction_race_strands_bit]); concurrent fetches
      hold disjoint leases and never deadlock ([fetches_apart_and_live]); a
      full warm asks for exactly the live absent entries ([warm_plan_exact]).
    Some theorems record where the code does less than it means to; the
    manifest's findings name them ([stranded_by_flip], [failed_put_loses_edges],
    [failed_upload_loses_outcomes], [delta_segment_not_packed],
    [eviction_race_strands_bit], [delta_fetches_collide]).

    ** Fuel and bounds

    Loops whose measure is not structural take fuel, and each has a theorem that
    the fuel given suffices: the write loop takes one unit a block of the
    request ([commit_terminates]), the log and sidecar scans one unit a byte,
    the text parsers one a line, a verb of the lifecycle one a request it
    makes, a walk of a lineage one a volume.  Hypotheses on sizes are the formats'
    field widths, a device below 2^64 blocks and reference counts below 2^32.

    ** Not modelled

    Sockets, processes, threads and channels (the actor's mailbox, the IPC
    servers, the S3 and peer protocols, the ublk glue, the command line):
    they move values between the parts above.  Parsing of ext4 images and the
    import built on it call third-party crates.  HMAC tokens wrap a
    primitive that would be a parameter here.  Logging, timing and counters of
    durations are left out wherever they occur.  The manifest's
    components list what of each modelled part is left out. *)

From Stdlib Require Import ZArith Lia.
From stdpp Require Import base gmap sorting list strings fin_maps.

#[export] Set Default Goal Selector "!".

Declare Scope elide_scope.
Delimit Scope elide_scope with elide.
Open Scope Z_scope.

(** ** Machine integers

    A Rust [u64] / [u32] is a [Z] in range; the release build's wrap-around
    is written out in every operation the source performs at that width. *)

Abbreviation U64 := 18446744073709551616 (only parsing).
Abbreviation U32 := 4294967296 (only parsing).

Definition u64_add (a b : Z) : Z := (a + b) mod U64.
Definition u64_sub (a b : Z) : Z := (a - b) mod U64.
Definition u32_add (a b : Z) : Z := (a + b) mod U32.
Definition u32_sub (a b : Z) : Z := (a - b) mod U32.
Definition u32_mul (a b : Z) : Z := (a * b) mod U32.
Definition as_u32 (a : Z) : Z := a mod U32.

(** [div_ceil]. *)
Definition div_ceil (a b : Z) : Z := (a + b - 1) / b.

Lemma u64_add_id a b : 0 ≤ a + b < U64 → u64_add a b = a + b.
Proof. apply Z.mod_small. Qed.
Lemma u64_sub_id a b : 0 ≤ a - b < U64 → u64_sub a b = a - b.
Proof. apply Z.mod_small. Qed.
Lemma u32_add_id a b : 0 ≤ a + b < U32 → u32_add a b = a + b.
Proof. apply Z.mod_small. Qed.
Lemma u32_sub_id a b : 0 ≤ a - b < U32 → u32_sub a b = a - b.
Proof. apply Z.mod_small. Qed.
Lemma u32_mul_id a b : 0 ≤ a * b < U32 → u32_mul a b = a * b.
Proof. apply Z.mod_small. Qed.
Lemma as_u32_id a : 0 ≤ a < U32 → as_u32 a = a.
Proof. apply Z.mod_small. Qed.

(** Replace every machine operation whose exact result is in range. *)
Ltac unwrap :=
  repeat match goal with
    | |- context [u64_add ?a ?b] => rewrite (u64_add_id a b) by lia
    | |- context [u64_sub ?a ?b] => rewrite (u64_sub_id a b) by lia
    | |- context [u32_add ?a ?b] => rewrite (u32_add_id a b) by lia
    | |- context [u32_sub ?a ?b] => rewrite (u32_sub_id a b) by lia
    | |- context [u32_mul ?a ?b] => rewrite (u32_mul_id a b) by lia
    | |- context [as_u32 ?a] => rewrite (as_u32_id a) by lia
    end.
Ltac unwrap_in H :=
  repeat match type of H with
    | context [u64_add ?a ?b] => rewrite (u64_add_id a b) in H by lia
    | context [u64_sub ?a ?b] => rewrite (u64_sub_id a b) in H by lia
    | context [u32_add ?a ?b] => rewrite (u32_add_id a b) in H by lia
    | context [u32_sub ?a ?b] => rewrite (u32_sub_id a b) in H by lia
    | context [u32_mul ?a ?b] => rewrite (u32_mul_id a b) in H by lia
    | context [as_u32 ?a] => rewrite (as_u32_id a) in H by lia
    end.

(** Case split on a refuted conjunction whose right half is itself negated. *)
Ltac split_nand :=
  repeat match goal with
    | H : ¬ (_ ∧ ¬ _) |- _ => apply not_and_l in H as [H|H%dec_stable]
    end.

(** ** Identifiers

    A [blake3::Hash] is its 32 bytes; a [Ulid] is its 128-bit value, whose
    numeric order is the order of the crate's [Ord]. *)

Abbreviation Hash := (list Z) (only parsing).
Abbreviation Ulid := Z (only parsing).

(** The hints of the development: facts of the library's own data that close
    side conditions ([auto with elide]) and the machine operations in range
    ([autorewrite with elide]). *)
Create HintDb elide.
#[export] Hint Rewrite u64_add_id u64_sub_id u32_add_id u32_sub_id u32_mul_id as_u32_id using lia : elide.

(** ** Fallible code *)

Inductive io_error := UnexpectedEof | InvalidData | NotFound | OtherError.

#[export] Instance io_error_eq_dec : EqDecision io_error.
Proof. solve_decision. Defined.

Inductive io (A : Type) := Ok (a : A) | Err (e : io_error).
Arguments Ok {A} a.
Arguments Err {A} e.

#[export] Instance io_ret : MRet io := λ A, Ok.
#[export] Instance io_bind : MBind io :=
  λ A B f r, match r with Ok a => f a | Err e => Err e end.

Definition is_ok {A} (r : io A) : bool := match r with Ok _ => true | Err _ => false end.

Lemma io_bind_Ok {A B} (f : A → io B) (r : io A) b :
  (r ≫= f) = Ok b ↔ ∃ a, r = Ok a ∧ f a = Ok b.
Proof. destruct r; simpl; naive_solver. Qed.

(** ** Lists *)

Lemma filter_all {A} (P : A → Prop) `{!∀ x, Decision (P x)} (l : list A) :
  (∀ x, x ∈ l → P x) → filter P l = l.
Proof.
  induction l as [|x l IH]; intros Hl; [done|]. rewrite filter_cons_True by (apply Hl; left).
  f_equal. apply IH. intros y Hy. apply Hl. by right.
Qed.

Lemma filter_none {A} (P : A → Prop) `{!∀ x, Decision (P x)} (l : list A) :
  (∀ x, x ∈ l → ¬ P x) → filter P l = [].
Proof.
  induction l as [|x l IH]; intros Hl; [done|]. rewrite filter_cons_False by (apply Hl; left).
  apply IH. intros y Hy. apply Hl. by right.
Qed.

Lemma filter_ext_in {A} (P Q : A → Prop) `{!∀ x, Decision (P x)} `{!∀ x, Decision (Q x)}
    (l : list A) :
  (∀ x, x ∈ l → P x ↔ Q x) → filter P l = filter Q l.
Proof.
  induction l as [|x l IH]; intros Hl; [done|]. rewrite !filter_cons.
  pose proof (Hl x (list_elem_of_here _ _)).
  rewrite IH by (intros y Hy; apply Hl; by right). by repeat case_decide; try tauto.
Qed.

(** A property every step keeps, from the start to the end of a left fold. *)
Lemma foldl_inv {A B} (f : A → B → A) (P : A → Prop) (l : list B) a :
  P a → (∀ a x, x ∈ l → P a → P (f a x)) → P (foldl f a l).
Proof.
  intros Ha Hf. revert a Ha. induction l as [|x l IH]; intros a Ha; [done|]. cbn [foldl].
  apply IH; [intros b y Hy; apply Hf; by right|]. apply Hf; [by left|done].
Qed.

(** ** Ordered maps

    An ordered map ([BTreeMap], [imbl::OrdMap]) is a finite map together with
    iteration by ascending key; [om_range], [om_below] and [om_upto] are its
    [range(a..b)], [range(..k).next_back()] and [range(..=k).next_back()]. *)

Section ordered_map.
Context {A : Type}.
Implicit Types (m : gmap Z A) (k : Z) (l : list (Z * A)).

Definition key_le (p q : Z * A) : Prop := p.1 ≤ q.1.
Definition key_lt (p q : Z * A) : Prop := p.1 < q.1.

#[global] Instance key_le_dec p q : Decision (key_le p q).
Proof. unfold key_le. apply _. Defined.
#[global] Instance key_le_trans : Transitive key_le.
Proof. intros x y z; unfold key_le; lia. Qed.
#[global] Instance key_le_total : Total key_le.
Proof. intros x y; unfold key_le; lia. Qed.
#[global] Instance key_lt_trans : Transitive key_lt.
Proof. intros x y z; unfold key_lt; lia. Qed.

Definition om_iter m : list (Z * A) := merge_sort key_le (map_to_list m).
Definition om_range m (a b : Z) : list (Z * A) :=
  filter (λ p, a ≤ p.1 ∧ p.1 < b) (om_iter m).
Definition om_below m k : option (Z * A) := last (filter (λ p, p.1 < k) (om_iter m)).
Definition om_upto m k : option (Z * A) := last (filter (λ p, p.1 ≤ k) (om_iter m)).

Lemma elem_of_om_iter m k a : (k, a) ∈ om_iter m ↔ m !! k = Some a.
Proof. unfold om_iter. by rewrite merge_sort_Permutation, elem_of_map_to_list. Qed.

Lemma NoDup_fst_om_iter m : NoDup (om_iter m).*1.
Proof. unfold om_iter. rewrite merge_sort_Permutation. apply NoDup_fst_map_to_list. Qed.

Lemma sorted_le_lt l : StronglySorted key_le l → NoDup l.*1 → StronglySorted key_lt l.
Proof.
  induction 1 as [|p l Hs IH Hall]; intros Hnd; [constructor|].
  inversion Hnd as [|? ? Hni Hnd']; subst. constructor; [by apply IH|].
  rewrite Forall_forall in Hall |- *. intros q Hq.
  pose proof (Hall q Hq) as Hle. unfold key_le, key_lt in *.
  destruct (decide (p.1 = q.1)) as [Heq|]; [|lia].
  destruct Hni. rewrite Heq. by apply list_elem_of_fmap_2.
Qed.

Lemma om_iter_sorted m : StronglySorted key_lt (om_iter m).
Proof.
  apply sorted_le_lt; [|apply NoDup_fst_om_iter].
  apply StronglySorted_merge_sort; apply _.
Qed.

(** *** The last element below a bound *)

Lemma last_filter_Some (P : Z * A → Prop) `{!∀ p, Decision (P p)} l p :
  StronglySorted key_lt l →
  last (filter P l) = Some p ↔ p ∈ l ∧ P p ∧ ∀ q, q ∈ l → P q → q.1 ≤ p.1.
Proof.
  induction 1 as [|x l Hs IH Hall].
  { simpl. split; [done|]. intros [Hin _]. by apply not_elem_of_nil in Hin. }
  rewrite Forall_forall in Hall. rewrite filter_cons, elem_of_cons.
  destruct (decide (P x)) as [HP|HP].
  - rewrite last_cons. destruct (last (filter P l)) as [y|] eqn:Hy.
    + pose proof (last_Some_elem_of _ _ Hy) as Hyl.
      apply list_elem_of_filter in Hyl as [HPy Hyl]. split.
      * intros [= ->]. destruct (proj1 IH eq_refl) as (? & ? & Hmax).
        split; [by right|]. split; [done|].
        intros q [->|Hq]%elem_of_cons HPq; [|by apply Hmax].
        apply Hall in Hyl. unfold key_lt in Hyl. lia.
      * intros ([->|Hpl] & HPp & Hmax).
        { apply Hall in Hyl as Hlt. unfold key_lt in Hlt.
          assert (y.1 ≤ x.1) by (apply Hmax; [by right|done]). lia. }
        apply IH. split; [done|]. split; [done|].
        intros q Hq HPq. apply Hmax; [by right|done].
    + apply last_None in Hy. split.
      * intros [= <-]. split; [by left|]. split; [done|].
        intros q [->|Hq]%elem_of_cons HPq; [done|].
        assert (q ∈ filter P l) as Hf by (by apply list_elem_of_filter).
        rewrite Hy in Hf. by apply not_elem_of_nil in Hf.
      * intros ([->|Hpl] & HPp & _); [done|].
        assert (p ∈ filter P l) as Hf by (by apply list_elem_of_filter).
        rewrite Hy in Hf. by apply not_elem_of_nil in Hf.
  - rewrite IH by done. split.
    + intros (Hin & HPp & Hmax). split; [by right|]. split; [done|].
      intros q [->|Hq]%elem_of_cons HPq; [done|]. by apply Hmax.
    + intros ([->|Hin] & HPp & Hmax); [done|]. split; [done|]. split; [done|].
      intros q Hq HPq. apply Hmax; [by right|done].
Qed.

Lemma last_filter_None (P : Z * A → Prop) `{!∀ p, Decision (P p)} l :
  last (filter P l) = None ↔ ∀ q, q ∈ l → ¬ P q.
Proof.
  rewrite last_None. split.
  - intros Hf q Hq HP. apply (not_elem_of_nil q). rewrite <-Hf.
    by apply list_elem_of_filter.
  - intros Hall. apply elem_of_nil_inv. intros q [HP Hq]%list_elem_of_filter.
    by eapply Hall.
Qed.

Lemma om_below_Some m k p a :
  om_below m k = Some (p, a) ↔
  m !! p = Some a ∧ p < k ∧ ∀ q b, m !! q = Some b → q < k → q ≤ p.
Proof.
  unfold om_below. rewrite last_filter_Some by apply om_iter_sorted.
  rewrite elem_of_om_iter. simpl. split; intros (? & ? & Hm); split_and!; try done.
  - intros q b Hq. apply (Hm (q, b)). by apply elem_of_om_iter.
  - intros [q b] Hq. apply (Hm q b). by apply elem_of_om_iter.
Qed.

Lemma om_below_None m k : om_below m k = None ↔ ∀ q b, m !! q = Some b → k ≤ q.
Proof.
  unfold om_below. rewrite last_filter_None. split.
  - intros Hm q b Hq. specialize (Hm (q, b)). simpl in Hm.
    apply Z.nlt_ge, Hm. by apply elem_of_om_iter.
  - intros Hm [q b] Hq%elem_of_om_iter. simpl. specialize (Hm q b Hq). lia.
Qed.

Lemma om_upto_Some m k p a :
  om_upto m k = Some (p, a) ↔
  m !! p = Some a ∧ p ≤ k ∧ ∀ q b, m !! q = Some b → q ≤ k → q ≤ p.
Proof.
  unfold om_upto. rewrite last_filter_Some by apply om_iter_sorted.
  rewrite elem_of_om_iter. simpl. split; intros (? & ? & Hm); split_and!; try done.
  - intros q b Hq. apply (Hm (q, b)). by apply elem_of_om_iter.
  - intros [q b] Hq. apply (Hm q b). by apply elem_of_om_iter.
Qed.

Lemma om_upto_None m k : om_upto m k = None ↔ ∀ q b, m !! q = Some b → k < q.
Proof.
  unfold om_upto. rewrite last_filter_None. split.
  - intros Hm q b Hq. specialize (Hm (q, b)). simpl in Hm.
    apply Z.nle_gt, Hm. by apply elem_of_om_iter.
  - intros Hm [q b] Hq%elem_of_om_iter. simpl. specialize (Hm q b Hq). lia.
Qed.

Lemma elem_of_om_range m a b k e :
  (k, e) ∈ om_range m a b ↔ m !! k = Some e ∧ a ≤ k < b.
Proof. unfold om_range. rewrite list_elem_of_filter, elem_of_om_iter. simpl. tauto. Qed.

Lemma sorted_filter (P : Z * A → Prop) `{!∀ p, Decision (P p)} l :
  StronglySorted key_lt l → StronglySorted key_lt (filter P l).
Proof.
  induction 1 as [|x l Hs IH Hall]; [constructor|]. rewrite filter_cons.
  destruct (decide (P x)); [|done]. constructor; [done|].
  rewrite Forall_forall in Hall |- *. intros q [_ Hq]%list_elem_of_filter. by apply Hall.
Qed.

Lemma om_range_sorted m a b : StronglySorted key_lt (om_range m a b).
Proof. apply sorted_filter, om_iter_sorted. Qed.

Lemma sorted_lt_NoDup_fst l : StronglySorted key_lt l → NoDup l.*1.
Proof.
  induction 1 as [|x l Hs IH Hall]; [constructor|]. simpl. constructor; [|done].
  rewrite list_elem_of_fmap. intros (y & Heq & Hy).
  rewrite Forall_forall in Hall. apply Hall in Hy. unfold key_lt in Hy. lia.
Qed.
End ordered_map.

#[export] Hint Resolve om_iter_sorted om_range_sorted NoDup_fst_om_iter sorted_filter sorted_lt_NoDup_fst : elide.

(** ** Reference counts

    A [HashMap<Hash, u32>] of counts whose zero entries are removed eagerly. *)

Definition count_of (n : Z) : option Z := if decide (n = 0) then None else Some n.

Lemma count_of_None n : count_of n = None ↔ n = 0.
Proof. unfold count_of. case_decide; naive_solver. Qed.

Lemma default_count_of n : default 0 (count_of n) = n.
Proof. unfold count_of. case_decide; simpl; lia. Qed.

Section refcounts.
Context `{Countable K}.
Implicit Types (c : gmap K Z) (l : list K) (n : K → Z).

(** [*counts.entry(x).or_insert(0) += 1] over a list. *)
Definition count_up c l : gmap K Z :=
  foldl (λ c x, <[x := u32_add (default 0 (c !! x)) 1]> c) c l.

(** The matching decrement, removing a count that reaches zero. *)
Definition count_down c l : gmap K Z :=
  foldl (λ c x, match c !! x with
                | Some n => if decide (n = 1) then delete x c else <[x := u32_sub n 1]> c
                | None => c
                end) c l.

Definition occs (x : K) l : Z := Z.of_nat (length (filter (λ y, y = x) l)).

Definition counts n c : Prop := ∀ x, c !! x = count_of (n x).

Lemma occs_cons x y l : occs x (y :: l) = (if decide (y = x) then 1 else 0) + occs x l.
Proof. unfold occs. rewrite filter_cons. case_decide; simpl; lia. Qed.

Lemma occs_bound x l : 0 ≤ occs x l ≤ Z.of_nat (length l).
Proof. unfold occs. pose proof (length_filter (λ y, y = x) l). lia. Qed.

Lemma occs_app x l1 l2 : occs x (l1 ++ l2) = occs x l1 + occs x l2.
Proof. unfold occs. rewrite filter_app, length_app. lia. Qed.

Lemma count_up_spec n c l :
  counts n c → (∀ x, 0 ≤ n x ∧ n x + occs x l < U32) →
  counts (λ x, n x + occs x l) (count_up c l).
Proof.
  revert n c. induction l as [|y l IH]; intros n c Hc Hn x; cbn [count_up foldl].
  { rewrite Hc. f_equal. unfold occs. simpl. lia. }
  change (foldl _ ?c0 l) with (count_up c0 l).
  rewrite (IH (λ x, n x + (if decide (y = x) then 1 else 0))).
  - f_equal. rewrite occs_cons. lia.
  - intros z. specialize (Hn y). rewrite occs_cons, decide_True in Hn by done.
    pose proof (occs_bound y l). rewrite lookup_insert, Hc, default_count_of. unwrap.
    case_decide as Hz; [subst z|].
    + unfold count_of. by rewrite decide_False by lia.
    + rewrite Hc. f_equal. lia.
  - intros z. specialize (Hn z). rewrite occs_cons in Hn. case_decide; lia.
Qed.

Lemma count_down_spec n c l :
  counts n c → (∀ x, occs x l ≤ n x < U32) → counts (λ x, n x - occs x l) (count_down c l).
Proof.
  revert n c. induction l as [|y l IH]; intros n c Hc Hn x; cbn [count_down foldl].
  { rewrite Hc. f_equal. unfold occs. simpl. lia. }
  change (foldl _ ?c0 l) with (count_down c0 l).
  rewrite (IH (λ x, n x - (if decide (y = x) then 1 else 0))).
  - f_equal. rewrite occs_cons. lia.
  - intros z. specialize (Hn y). rewrite occs_cons, decide_True in Hn by done.
    pose proof (occs_bound y l). rewrite Hc. unfold count_of at 1.
    rewrite decide_False by lia. case_decide as H1.
    + rewrite lookup_delete, Hc. case_decide as Hz; [subst z|f_equal; lia].
      symmetry. apply count_of_None. lia.
    + unwrap. rewrite lookup_insert, Hc. case_decide as Hz; [subst z|f_equal; lia].
      unfold count_of. by rewrite decide_False by lia.
  - intros z. specialize (Hn z). rewrite occs_cons in Hn. case_decide; lia.
Qed.
End refcounts.

(** ** Sums over a finite map *)

Section map_sum.
Context `{Countable K} {A : Type}.
Implicit Types (f : K → A → Z) (m : gmap K A).

Definition msum f m : Z := map_fold (λ k a z, f k a + z) 0 m.

Lemma msum_empty f : msum f ∅ = 0.
Proof. apply map_fold_empty. Qed.

Lemma msum_insert f m k a : m !! k = None → msum f (<[k := a]> m) = f k a + msum f m.
Proof. intros Hk. unfold msum. rewrite map_fold_insert_L; [done| |done]. intros. lia. Qed.

Lemma msum_delete f m k a : m !! k = Some a → msum f m = f k a + msum f (delete k m).
Proof.
  intros Hk. rewrite <-(insert_delete_id m k a Hk) at 1.
  by rewrite msum_insert by apply lookup_delete_eq.
Qed.

Lemma msum_update f m k a :
  msum f (<[k := a]> m) = msum f m + f k a - default 0 (f k <$> m !! k).
Proof.
  rewrite <-insert_delete_eq, msum_insert by apply lookup_delete_eq.
  destruct (m !! k) as [b|] eqn:Hk; simpl.
  - rewrite (msum_delete f m k b Hk). lia.
  - rewrite delete_id by done. lia.
Qed.

Lemma msum_mono f g m : (∀ k a, f k a ≤ g k a) → msum f m ≤ msum g m.
Proof.
  intros Hfg. induction m as [|k a m Hk IH] using map_ind; [by rewrite !msum_empty|].
  rewrite !msum_insert by done. specialize (Hfg k a). lia.
Qed.

Lemma msum_nonneg f m : (∀ k a, 0 ≤ f k a) → 0 ≤ msum f m.
Proof.
  intros Hf. induction m as [|k a m Hk IH] using map_ind; [by rewrite msum_empty|].
  rewrite msum_insert by done. specialize (Hf k a). lia.
Qed.

Lemma msum_pos f m : (∀ k a, 0 ≤ f k a) → 0 < msum f m → ∃ k a, m !! k = Some a ∧ 0 < f k a.
Proof.
  intros Hf. induction m as [|k a m Hk IH] using map_ind; [by rewrite msum_empty|].
  rewrite msum_insert by done. intros Hp. pose proof (Hf k a).
  destruct (decide (0 < f k a)).
  - exists k, a. by rewrite lookup_insert_eq.
  - destruct IH as (k' & a' & Hk' & ?); [lia|]. exists k', a'.
    by rewrite lookup_insert_ne by congruence.
Qed.

Lemma msum_ge f m k a : (∀ k a, 0 ≤ f k a) → m !! k = Some a → f k a ≤ msum f m.
Proof.
  intros Hf Hk. rewrite (msum_delete f m k a Hk).
  pose proof (msum_nonneg f (delete k m) Hf). lia.
Qed.
End map_sum.
