(* ===== verification/Bytes.v ===== *)
(** * Bytes, cursors and the code the program does not contain

    Little-endian integers, the cursor parser every on-disk format is read
    with, and one class per external library the formats rely on: BLAKE3, the
    ULID codec, Ed25519 and the block codecs, each with the documented
    behaviour the code needs. *)

From stdpp Require Import base gmap list.
From S2P Require Import Prelude.
Open Scope Z_scope.

(** ** Bytes *)

Definition byte_ok (b : Z) : Prop := 0 ≤ b < 256.
Definition bytes_ok (bs : list Z) : Prop := Forall byte_ok bs.

(** A byte string's length at [usize]. *)
Definition blen {A} (bs : list A) : Z := Z.of_nat (length bs).

Lemma blen_app {A} (x y : list A) : blen (x ++ y) = blen x + blen y.
Proof. unfold blen. rewrite length_app. lia. Qed.
Lemma blen_cons {A} (b : A) x : blen (b :: x) = 1 + blen x.
Proof. unfold blen. simpl. lia. Qed.
Lemma blen_nonneg {A} (x : list A) : 0 ≤ blen x.
Proof. unfold blen. lia. Qed.

(** [to_le_bytes] / [from_le_bytes] at a width of [n] bytes. *)
Fixpoint le_bytes (n : nat) (z : Z) : list Z :=
  match n with
  | O => []
  | S n => z mod 256 :: le_bytes n (z / 256)
  end.

Fixpoint from_le (bs : list Z) : Z :=
  match bs with
  | [] => 0
  | b :: bs => b + 256 * from_le bs
  end.

Lemma length_le_bytes n z : length (le_bytes n z) = n.
Proof. revert z. induction n; intros z; simpl; by f_equal. Qed.

Lemma blen_le_bytes n z : blen (le_bytes n z) = Z.of_nat n.
Proof. unfold blen. by rewrite length_le_bytes. Qed.

Lemma le_bytes_ok n z : bytes_ok (le_bytes n z).
Proof.
  revert z. induction n as [|n IH]; intros z; constructor; [|apply IH].
  apply Z.mod_pos_bound. lia.
Qed.

Lemma from_le_bytes n z : 0 ≤ z < 256 ^ Z.of_nat n → from_le (le_bytes n z) = z.
Proof.
  revert z. induction n as [|n IH]; intros z Hz; cbn [le_bytes from_le].
  { change (256 ^ Z.of_nat 0) with 1 in Hz. lia. }
  rewrite Nat2Z.inj_succ, Z.pow_succ_r in Hz by lia.
  rewrite IH.
  - pose proof (Z.div_mod z 256). lia.
  - split; [apply Z.div_pos; lia|]. apply Z.div_lt_upper_bound; lia.
Qed.

Lemma le_bytes_from bs : bytes_ok bs → le_bytes (length bs) (from_le bs) = bs.
Proof.
  induction 1 as [|b bs Hb _ IH]; [done|]. cbn [length le_bytes from_le]. unfold byte_ok in Hb.
  f_equal.
  - rewrite Z.mul_comm, Z.mod_add, Z.mod_small; lia.
  - rewrite Z.mul_comm, Z.div_add, Z.div_small by lia. exact IH.
Qed.

Lemma from_le_bound bs : bytes_ok bs → 0 ≤ from_le bs < 256 ^ blen bs.
Proof.
  induction 1 as [|b bs Hb _ IH]; [done|]. rewrite blen_cons. cbn [from_le].
  unfold byte_ok in Hb. pose proof (blen_nonneg bs).
  replace (256 ^ (1 + blen bs)) with (256 * 256 ^ blen bs) by (rewrite Z.pow_add_r; lia). nia.
Qed.

(** ** Cursor parsers

    A parser reads [data] from the offset [pos] and returns a value and the
    new offset: [data: &[u8], pos: &mut usize] in the source. *)

Definition parser (A : Type) : Type := list Z → Z → io (A * Z).

#[export] Instance parser_ret : MRet parser := λ A a _ pos, Ok (a, pos).
#[export] Instance parser_bind : MBind parser :=
  λ A B f p data pos, match p data pos with
                      | Ok (a, pos) => f a data pos
                      | Err e => Err e
                      end.

Definition fail {A} (e : io_error) : parser A := λ _ _, Err e.
Definition guard_or {A} (b : bool) (e : io_error) (p : parser A) : parser A :=
  if b then p else fail e.

Definition read_fixed (n : nat) : parser (list Z) :=
  λ data pos,
    if decide (blen data < pos + Z.of_nat n) then Err UnexpectedEof
    else Ok (take n (drop (Z.to_nat pos) data), pos + Z.of_nat n).

Definition read_u8 : parser Z :=
  λ data pos, match data !! Z.to_nat pos with
              | Some b => Ok (b, pos + 1)
              | None => Err UnexpectedEof
              end.

Definition read_u32 : parser Z := bs ← read_fixed 4; mret (from_le bs).
Definition read_u64 : parser Z := bs ← read_fixed 8; mret (from_le bs).

Lemma bind_run {A B} (f : A → parser B) (p : parser A) data pos a pos' :
  p data pos = Ok (a, pos') → (p ≫= f) data pos = f a data pos'.
Proof. intros Hp. unfold mbind, parser_bind. by rewrite Hp. Qed.

Lemma bind_Ok {A B} (f : A → parser B) (p : parser A) data pos r :
  (p ≫= f) data pos = Ok r ↔ ∃ a pos', p data pos = Ok (a, pos') ∧ f a data pos' = Ok r.
Proof.
  unfold mbind, parser_bind. destruct (p data pos) as [[a pos']|e]; naive_solver.
Qed.

(** Reading what was written: [x] sits in the data at the cursor. *)
Definition at_pos (data : list Z) (pos : Z) (x : list Z) : Prop :=
  ∃ pre post, data = pre ++ x ++ post ∧ pos = blen pre.

Lemma at_pos_app data pos x y : at_pos data pos (x ++ y) ↔ at_pos data pos x ∧ at_pos data (pos + blen x) y.
Proof.
  split.
  - intros (pre & post & -> & ->). split.
    + exists pre, (y ++ post). by rewrite <-!app_assoc.
    + exists (pre ++ x), post. by rewrite blen_app, <-!app_assoc.
  - intros [(pre & post & -> & ->) (pre' & post' & He & Hp)]. exists pre, post'. split; [|done].
    rewrite <-blen_app in Hp. unfold blen in Hp. rewrite (app_assoc pre) in He.
    destruct (app_inj_1 (pre ++ x) pre' post (y ++ post')) as [_ ->]; [lia|done|].
    by rewrite <-!app_assoc.
Qed.

Lemma at_pos_cons data pos b y : at_pos data pos (b :: y) ↔ at_pos data pos [b] ∧ at_pos data (pos + 1) y.
Proof. change (b :: y) with ([b] ++ y). by rewrite at_pos_app. Qed.

Lemma at_pos_start x y : at_pos (x ++ y) 0 x.
Proof. by exists [], y. Qed.

Lemma read_fixed_at data pos x :
  at_pos data pos x → read_fixed (length x) data pos = Ok (x, pos + blen x).
Proof.
  intros (pre & post & -> & ->). unfold read_fixed. rewrite decide_False.
  - do 2 f_equal. unfold blen. by rewrite Nat2Z.id, drop_app_length, take_app_length.
  - rewrite !blen_app. pose proof (blen_nonneg post). unfold blen in *. lia.
Qed.

Lemma read_fixed_at' n data pos x :
  at_pos data pos x → length x = n → read_fixed n data pos = Ok (x, pos + Z.of_nat n).
Proof. intros Hat <-. by apply read_fixed_at. Qed.

Lemma read_u8_at data pos b : at_pos data pos [b] → read_u8 data pos = Ok (b, pos + 1).
Proof.
  intros (pre & post & -> & ->). unfold read_u8, blen. rewrite Nat2Z.id.
  by rewrite (list_lookup_middle pre post b).
Qed.

Lemma read_u32_at data pos z :
  at_pos data pos (le_bytes 4 z) → 0 ≤ z < U32 → read_u32 data pos = Ok (z, pos + 4).
Proof.
  intros Hat Hz. unfold read_u32. erewrite bind_run by apply (read_fixed_at _ _ _ Hat).
  unfold mret, parser_ret. rewrite from_le_bytes by (change (256 ^ Z.of_nat 4) with U32; lia).
  by rewrite blen_le_bytes.
Qed.

Lemma read_u64_at data pos z :
  at_pos data pos (le_bytes 8 z) → 0 ≤ z < U64 → read_u64 data pos = Ok (z, pos + 8).
Proof.
  intros Hat Hz. unfold read_u64. erewrite bind_run by apply (read_fixed_at _ _ _ Hat).
  unfold mret, parser_ret. rewrite from_le_bytes by (change (256 ^ Z.of_nat 8) with U64; lia).
  by rewrite blen_le_bytes.
Qed.

(** What a successful read says. *)
Lemma read_fixed_Ok n data pos x pos' :
  read_fixed n data pos = Ok (x, pos') → 0 ≤ pos →
  pos' = pos + Z.of_nat n ∧ pos' ≤ blen data ∧ length x = n ∧
  x = take n (drop (Z.to_nat pos) data).
Proof.
  unfold read_fixed. case_decide; [done|]. intros [= <- <-] Hp. split_and!; try done; [lia|].
  rewrite length_take, length_drop. unfold blen in *. lia.
Qed.

Lemma read_u8_Ok data pos b pos' :
  read_u8 data pos = Ok (b, pos') → pos' = pos + 1 ∧ data !! Z.to_nat pos = Some b.
Proof. unfold read_u8. destruct (data !! Z.to_nat pos); naive_solver. Qed.

Lemma read_u32_Ok data pos z pos' : read_u32 data pos = Ok (z, pos') → 0 ≤ pos → pos' = pos + 4 ∧ pos' ≤ blen data.
Proof.
  unfold read_u32. rewrite bind_Ok. intros (bs & p & Hf & [= _ <-]) Hp.
  apply read_fixed_Ok in Hf as (-> & ? & _); [|done]. split; [done|lia].
Qed.

Lemma read_u64_Ok data pos z pos' : read_u64 data pos = Ok (z, pos') → 0 ≤ pos → pos' = pos + 8 ∧ pos' ≤ blen data.
Proof.
  unfold read_u64. rewrite bind_Ok. intros (bs & p & Hf & [= _ <-]) Hp.
  apply read_fixed_Ok in Hf as (-> & ? & _); [|done]. split; [done|lia].
Qed.

Lemma read_u8_bound data pos b pos' : read_u8 data pos = Ok (b, pos') → 0 ≤ pos → pos' = pos + 1 ∧ pos' ≤ blen data.
Proof.
  intros Hr Hp. apply read_u8_Ok in Hr as [-> Hl]. apply lookup_lt_Some in Hl.
  unfold blen. split; [done|lia].
Qed.

(** Take the first of a run of reads off an inverted parser: [inv_reads H] splits
    every bind of [H], keeping the cursor facts of the primitive reads. *)
Ltac inv_read H :=
  let a := fresh "a" in let p := fresh "p" in let Hr := fresh "Hr" in
  apply bind_Ok in H as (a & p & Hr & H);
  first
    [ apply read_fixed_Ok in Hr as (-> & ? & ? & _); [|lia]
    | apply read_u32_Ok in Hr as [-> ?]; [|lia]
    | apply read_u64_Ok in Hr as [-> ?]; [|lia]
    | apply read_u8_bound in Hr as [-> ?]; [|lia]
    | idtac ].

(** A read's bytes are the data at the cursor. *)
Lemma read_fixed_at_inv n data pos x pos' :
  read_fixed n data pos = Ok (x, pos') → 0 ≤ pos →
  at_pos data pos x ∧ length x = n ∧ pos' = pos + Z.of_nat n.
Proof.
  intros Hr Hp. apply read_fixed_Ok in Hr as (-> & Hle & Hl & ->); [|done].
  split; [|done]. exists (take (Z.to_nat pos) data), (drop (Z.to_nat pos + n) data). split.
  - by rewrite <-(drop_drop data), take_drop, take_drop.
  - unfold blen in *. rewrite length_take. lia.
Qed.

Lemma at_pos_bytes_ok data pos x : at_pos data pos x → bytes_ok data → bytes_ok x.
Proof. intros (pre & post & -> & _) Hb. by apply Forall_app in Hb as [_ [? _]%Forall_app]. Qed.

Lemma read_u32_at_inv data pos z pos' :
  read_u32 data pos = Ok (z, pos') → 0 ≤ pos → bytes_ok data →
  at_pos data pos (le_bytes 4 z) ∧ 0 ≤ z < U32 ∧ pos' = pos + 4.
Proof.
  intros Hr Hp Hb. apply bind_Ok in Hr as (x & q & Hx & [= <- <-]).
  apply read_fixed_at_inv in Hx as (Hat & Hl & ->); [|done].
  pose proof (at_pos_bytes_ok _ _ _ Hat Hb) as Hxb. pose proof (from_le_bound x Hxb) as Hbd.
  unfold blen in Hbd. rewrite Hl in Hbd. split; [|done]. rewrite <-Hl. by rewrite le_bytes_from.
Qed.

Lemma read_u64_at_inv data pos z pos' :
  read_u64 data pos = Ok (z, pos') → 0 ≤ pos → bytes_ok data →
  at_pos data pos (le_bytes 8 z) ∧ 0 ≤ z < U64 ∧ pos' = pos + 8.
Proof.
  intros Hr Hp Hb. apply bind_Ok in Hr as (x & q & Hx & [= <- <-]).
  apply read_fixed_at_inv in Hx as (Hat & Hl & ->); [|done].
  pose proof (at_pos_bytes_ok _ _ _ Hat Hb) as Hxb. pose proof (from_le_bound x Hxb) as Hbd.
  unfold blen in Hbd. rewrite Hl in Hbd. split; [|done]. rewrite <-Hl. by rewrite le_bytes_from.
Qed.

Lemma at_pos_whole data x : at_pos data 0 x → blen x = blen data → data = x.
Proof.
  intros (pre & post & -> & Hp) Hl. rewrite !blen_app in Hl.
  destruct pre; [|rewrite blen_cons in Hp; pose proof (blen_nonneg pre); lia].
  destruct post; [by rewrite app_nil_r|]. rewrite blen_cons in Hl. pose proof (blen_nonneg post).
  unfold blen in Hl. simpl in Hl. lia.
Qed.

(** ** Loops over a cursor *)

(** [while *pos < stop { body }].  The fuel is one more than the distance to
    [stop], which is enough for any body that advances the cursor. *)
Fixpoint while_fuel {S} (fuel : nat) (stop : Z) (body : S → parser S) (s : S) : parser S :=
  λ data pos,
    if decide (pos < stop) then
      match fuel with
      | O => Err OtherError
      | Datatypes.S fuel =>
          match body s data pos with
          | Ok (s, pos) => while_fuel fuel stop body s data pos
          | Err e => Err e
          end
      end
    else Ok (s, pos).

Definition while_lt {S} (stop : Z) (body : S → parser S) (s : S) : parser S :=
  λ data pos, while_fuel (Z.to_nat (stop - pos)) stop body s data pos.

Definition advances {S} (body : S → parser S) : Prop :=
  ∀ s data pos s' pos', 0 ≤ pos → body s data pos = Ok (s', pos') → pos < pos'.

Lemma while_fuel_enough {S} (body : S → parser S) stop f1 f2 s data pos :
  advances body → 0 ≤ pos → (Z.to_nat (stop - pos) ≤ f1)%nat → (Z.to_nat (stop - pos) ≤ f2)%nat →
  while_fuel f1 stop body s data pos = while_fuel f2 stop body s data pos.
Proof.
  intros Hadv. revert f2 s pos. induction f1 as [|f1 IH]; intros f2 s pos Hp H1 H2.
  { destruct f2; cbn [while_fuel]; rewrite !decide_False by lia; done. }
  destruct f2 as [|f2]; cbn [while_fuel].
  { by rewrite !decide_False by lia. }
  case_decide as Hlt; [|done]. destruct (body s data pos) as [[s' pos']|e] eqn:Hb; [|done].
  apply Hadv in Hb; [|done]. apply IH; lia.
Qed.

(** The loop equation: the fuel of [while_lt] never runs out. *)
Lemma while_lt_unfold {S} (body : S → parser S) stop s data pos :
  advances body → 0 ≤ pos →
  while_lt stop body s data pos =
  if decide (pos < stop) then
    match body s data pos with
    | Ok (s', pos') => while_lt stop body s' data pos'
    | Err e => Err e
    end
  else Ok (s, pos).
Proof.
  intros Hadv Hp. unfold while_lt. destruct (Z.to_nat (stop - pos)) as [|f] eqn:Hf.
  { cbn [while_fuel]. by rewrite !decide_False by lia. }
  cbn [while_fuel]. case_decide; [|done].
  destruct (body s data pos) as [[s' pos']|e] eqn:Hb; [|done].
  apply Hadv in Hb; [|done]. apply while_fuel_enough; [done|lia..].
Qed.

(** An invariant of a loop that returns. *)
Lemma while_lt_inv {S} (I : S → Z → Prop) (body : S → parser S) stop s data pos s' pos' :
  advances body → 0 ≤ pos →
  (∀ s pos s' pos', I s pos → 0 ≤ pos → body s data pos = Ok (s', pos') → I s' pos') →
  I s pos → while_lt stop body s data pos = Ok (s', pos') → I s' pos' ∧ stop ≤ pos' ∧ pos ≤ pos'.
Proof.
  intros Hadv Hp Hstep. unfold while_lt. generalize (Z.to_nat (stop - pos)). intros f.
  revert s pos Hp. induction f as [|f IH]; intros s pos Hp HI; cbn [while_fuel].
  - case_decide; [done|]. intros [= <- <-]. split_and!; [done|lia..].
  - case_decide; [|intros [= <- <-]; split_and!; [done|lia..]].
    destruct (body s data pos) as [[s1 pos1]|e] eqn:Hb; [|done].
    pose proof (Hadv _ _ _ _ _ Hp Hb) as Hlt. intros Hw.
    destruct (IH s1 pos1) as (? & ? & ?); [lia|by eapply Hstep|done|]. split_and!; [done|lia..].
Qed.

(** Replaying a list of written records: one iteration each. *)
Lemma while_lt_records {S R} (body : S → parser S) (enc : R → list Z) (step : S → R → S)
    (P : S → Prop) stop rs s data pos :
  advances body → 0 ≤ pos → stop = pos + blen (concat (map enc rs)) →
  at_pos data pos (concat (map enc rs)) → P s →
  Forall (λ r, 0 < blen (enc r) ∧
    ∀ s pos, P s → 0 ≤ pos → at_pos data pos (enc r) →
      body s data pos = Ok (step s r, pos + blen (enc r)) ∧ P (step s r)) rs →
  while_lt stop body s data pos = Ok (foldl step s rs, stop).
Proof.
  intros Hadv. revert s pos. induction rs as [|r rs IH]; intros s pos Hp Hstop Hat HP Hrs;
    rewrite while_lt_unfold by done; cbn [map concat foldl] in *.
  - unfold blen in Hstop. simpl in Hstop. rewrite decide_False by lia. do 2 f_equal. lia.
  - apply Forall_cons in Hrs as [[Hpos Hr] Hrs]. apply at_pos_app in Hat as [Hat1 Hat2].
    rewrite blen_app in Hstop. pose proof (blen_nonneg (concat (map enc rs))).
    destruct (Hr s pos HP Hp Hat1) as [Hb HP'].
    rewrite decide_True, Hb by lia. apply IH; [lia|lia|done|done|done].
Qed.

(** [for i in 0..n]. *)
Fixpoint for_range {S} (n : nat) (i : Z) (body : Z → S → parser S) (s : S) : parser S :=
  match n with
  | O => mret s
  | Datatypes.S n => s ← body i s; for_range n (i + 1) body s
  end.

(** The analogous lemma for a counted loop. *)
Lemma for_range_records {S R} (body : Z → S → parser S) (enc : R → list Z) (step : S → R → S)
    rs i s data pos :
  at_pos data pos (concat (map enc rs)) → 0 ≤ pos →
  Forall (λ r, ∀ i s pos, 0 ≤ pos → at_pos data pos (enc r) →
    body i s data pos = Ok (step s r, pos + blen (enc r))) rs →
  for_range (length rs) i body s data pos = Ok (foldl step s rs, pos + blen (concat (map enc rs))).
Proof.
  revert i s pos. induction rs as [|r rs IH]; intros i s pos Hat Hp Hrs;
    cbn [map concat foldl length for_range] in *.
  { unfold mret, parser_ret, blen. simpl. do 2 f_equal. lia. }
  apply Forall_cons in Hrs as [Hr Hrs]. apply at_pos_app in Hat as [Hat1 Hat2].
  erewrite bind_run by (by apply Hr). pose proof (blen_nonneg (enc r)).
  rewrite IH; [|done|lia|done]. rewrite blen_app. do 2 f_equal. lia.
Qed.

(** An invariant of a counted loop that returns. *)
Lemma for_range_inv {S} (I : S → Z → Prop) n i (body : Z → S → parser S) s data pos s' pos' :
  (∀ i s pos s' pos', I s pos → body i s data pos = Ok (s', pos') → I s' pos') →
  I s pos → for_range n i body s data pos = Ok (s', pos') → I s' pos'.
Proof.
  intros Hstep. revert i s pos. induction n as [|n IH]; intros i s pos HI; cbn [for_range].
  - by intros [= <- <-].
  - rewrite bind_Ok. intros (s1 & pos1 & Hb & Hr). eapply IH; [|exact Hr]. by eapply Hstep.
Qed.

(** ** External libraries *)

Class Blake3 := {
  blake3 : list Z → Hash;
  blake3_length : ∀ bs, length (blake3 bs) = 32%nat;
  blake3_bytes : ∀ bs, bytes_ok (blake3 bs)
}.

(** The [ulid] crate's 16-byte form. *)
Class UlidBytes := {
  ulid_to_bytes : Ulid → list Z;
  ulid_from_bytes : list Z → Ulid;
  ulid_bytes_length : ∀ u, length (ulid_to_bytes u) = 16%nat;
  ulid_bytes_roundtrip : ∀ u, 0 ≤ u < 2 ^ 128 → ulid_from_bytes (ulid_to_bytes u) = u
}.

(** [VerifyingKey::verify_strict] for one key. *)
Class Verifier := { verify_strict : list Z → list Z → bool }.

(** A [SegmentSigner]: a signature over a message, 64 bytes. *)
Class Signer := { sign : list Z → list Z; sign_length : ∀ msg, length (sign msg) = 64%nat }.

(** [lz4_flex::decompress_size_prepended]. *)
Class Lz4Block := { decompress_size_prepended : list Z → option (list Z) }.

(** Concrete instances, for evaluating the model. *)
Section instances.

Definition toy_blake3 : Blake3.
Proof.
  refine {| blake3 bs := le_bytes 32 (foldl (λ a b, a + b + 1) 0 bs) |}.
  - intros bs. apply length_le_bytes.
  - intros bs. apply le_bytes_ok.
Defined.

Definition toy_ulid_bytes : UlidBytes.
Proof.
  refine {| ulid_to_bytes u := rev (le_bytes 16 u); ulid_from_bytes bs := from_le (rev bs) |}.
  - intros u. by rewrite length_rev, length_le_bytes.
  - intros u Hu. rewrite rev_involutive. by apply from_le_bytes.
Defined.

Definition toy_signer : Signer.
Proof.
  refine {| sign msg := 1 :: le_bytes 63 (from_le (take 32 msg)) |}.
  intros msg. cbn [length]. by rewrite length_le_bytes.
Defined.

Definition toy_lz4 : Lz4Block := {| decompress_size_prepended bs := Some (concat (map (λ b, [b; b]) bs)) |}.

Definition toy_verifier : Verifier :=
  {| verify_strict msg sig := bool_decide (sig = @sign toy_signer msg) |}.
End instances.
