(* ===== verification/Text.v ===== *)
(** * Text

    What the text formats use of Rust's [str]: splitting on a character, lines,
    trimming, decimal integers, and the text form of a ULID. *)

From Stdlib Require Import Ascii String.
From stdpp Require Import base list strings.
From S2P Require Import Prelude.
Open Scope Z_scope.

(** [Ulid::from_string] and [Ulid]'s [Display]. *)
Class UlidText := {
  ulid_from_string : string → option Ulid;
  ulid_to_string : Ulid → string
}.

Definition U128 : Z := 2 ^ 128.

(** ** Characters *)

Definition TAB : ascii := ascii_of_nat 9.
Definition LF : ascii := ascii_of_nat 10.
Definition CR : ascii := ascii_of_nat 13.

Fixpoint has_char (c : ascii) (s : string) : bool :=
  match s with EmptyString => false | String d s => bool_decide (c = d) || has_char c s end.

Definition byte_of (c : ascii) : Z := Z.of_nat (nat_of_ascii c).
Definition alnum (c : ascii) : bool :=
  let n := byte_of c in
  bool_decide (48 ≤ n ≤ 57) || bool_decide (65 ≤ n ≤ 90) || bool_decide (97 ≤ n ≤ 122).

(** The documented text of a ULID: 26 letters and digits that read back. *)
Class UlidTextLaws (HT : UlidText) := {
  ulid_text_back u : 0 ≤ u < U128 → ulid_from_string (ulid_to_string u) = Some u;
  ulid_text_plain u c : c = TAB ∨ c = LF ∨ c = CR → has_char c (ulid_to_string u) = false;
  ulid_text_nonempty u : ulid_to_string u ≠ EmptyString;
  ulid_text_range s u : ulid_from_string s = Some u → 0 ≤ u < U128
}.

(** The documented text of a ULID: 26 characters of Crockford's base 32, which
    sort as the ULIDs do. *)
Class UlidCharLaws (HT : UlidText) := {
  ulid_text_alnum u c : has_char c (ulid_to_string u) = true → alnum c = true;
  ulid_read_alnum s u c : ulid_from_string s = Some u → has_char c s = true → alnum c = true;
  ulid_text_length u : String.length (ulid_to_string u) = 26%nat;
  ulid_read_length s u : ulid_from_string s = Some u → String.length s = 26%nat;
  ulid_text_order a b : 0 ≤ a < U128 → 0 ≤ b < U128 → String.le (ulid_to_string a) (ulid_to_string b) ↔ a ≤ b
}.

(** ** Splitting *)

(** [str::split]: at least one piece. *)
Fixpoint split_on (sep : ascii) (s : string) : list string :=
  match s with
  | EmptyString => [EmptyString]
  | String c s =>
      if decide (c = sep) then EmptyString :: split_on sep s
      else match split_on sep s with
           | [] => [String c EmptyString]
           | p :: ps => String c p :: ps
           end
  end.

(** [trim_end_matches] over two characters. *)
Fixpoint trim_end (a b : ascii) (s : string) : string :=
  match s with
  | EmptyString => EmptyString
  | String c s =>
      match trim_end a b s with
      | EmptyString => if decide (c = a ∨ c = b) then EmptyString else String c EmptyString
      | t => String c t
      end
  end.

Fixpoint strip_cr (s : string) : string :=
  match s with
  | EmptyString => EmptyString
  | String c EmptyString => if decide (c = CR) then EmptyString else String c EmptyString
  | String c s => String c (strip_cr s)
  end.

(** [BufRead::lines]: a terminated line loses its terminator, the rest of the
    file after the last one is a line when there is any. *)
Fixpoint lines_of (pieces : list string) : list string :=
  match pieces with
  | [] => []
  | [rest] => match rest with EmptyString => [] | _ => [rest] end
  | p :: ps => strip_cr p :: lines_of ps
  end.
Definition lines (s : string) : list string := lines_of (split_on LF s).

(** [str::strip_prefix] and [str::strip_suffix]. *)
Fixpoint strip_prefix (p s : string) : option string :=
  match p, s with
  | EmptyString, _ => Some s
  | String a p, String b s => if decide (a = b) then strip_prefix p s else None
  | String _ _, EmptyString => None
  end.

Fixpoint strip_suffix (p s : string) : option string :=
  if decide (s = p) then Some EmptyString
  else match s with
       | EmptyString => None
       | String c s => String c <$> strip_suffix p s
       end.

(** ** Decimal integers *)

Definition digit (d : Z) : ascii := ascii_of_nat (Z.to_nat (48 + d)).
Definition digit_of (c : ascii) : option Z :=
  let n := Z.of_nat (nat_of_ascii c) in if decide (48 ≤ n ≤ 57) then Some (n - 48) else None.

Fixpoint dec_digits (fuel : nat) (n : Z) (acc : string) : string :=
  match fuel with
  | O => acc
  | S fuel =>
      let acc := String (digit (n mod 10)) acc in
      if decide (n / 10 = 0) then acc else dec_digits fuel (n / 10) acc
  end.

(** [Display] of an unsigned integer of at most twenty digits. *)
Definition dec (n : Z) : string := dec_digits 20 n EmptyString.

(** The digit loop: [checked_mul] then [checked_add]. *)
Fixpoint parse_digits (bound v : Z) (s : string) : option Z :=
  match s with
  | EmptyString => Some v
  | String c s =>
      match digit_of c with
      | None => None
      | Some d => if decide (v * 10 + d < bound) then parse_digits bound (v * 10 + d) s else None
      end
  end.

(** [from_str] of an unsigned integer below [bound]: a leading plus sign is
    allowed, no digits are not. *)
Definition parse_uint (bound : Z) (s : string) : option Z :=
  match s with
  | EmptyString => None
  | String c rest =>
      if decide (c = "+"%char) then
        match rest with EmptyString => None | _ => parse_digits bound 0 rest end
      else parse_digits bound 0 s
  end.

(** ** Lemmas *)

Lemma has_char_app c a b : has_char c (a +:+ b) = has_char c a || has_char c b.
Proof. induction a as [|d a IH]; [done|]. simpl. by rewrite IH, orb_assoc. Qed.

Lemma split_on_none sep s : has_char sep s = false → split_on sep s = [s].
Proof.
  induction s as [|c s IH]; [done|]. simpl. intros [Hc Hs]%orb_false_iff. apply bool_decide_eq_false in Hc.
  rewrite decide_False by done. by rewrite IH.
Qed.

Lemma split_on_sep sep a b : has_char sep a = false → split_on sep (a +:+ String sep b) = a :: split_on sep b.
Proof.
  induction a as [|c a IH]; simpl; [by rewrite decide_True|]. intros [Hc Hs]%orb_false_iff.
  apply bool_decide_eq_false in Hc. rewrite decide_False by done. by rewrite IH.
Qed.

Lemma trim_end_last a b s c :
  c ≠ a → c ≠ b → trim_end a b (s +:+ String c EmptyString) = s +:+ String c EmptyString.
Proof.
  intros Ha Hb. induction s as [|d s IH]; simpl; [by rewrite decide_False by tauto|]. rewrite IH. by destruct s.
Qed.

Lemma strip_cr_last s c : c ≠ CR → strip_cr (s +:+ String c EmptyString) = s +:+ String c EmptyString.
Proof.
  intros Hc. induction s as [|d s IH]; [simpl; by rewrite decide_False|].
  change (strip_cr (String d (s +:+ String c EmptyString)) = String d (s +:+ String c EmptyString)).
  cbn [strip_cr]. rewrite IH. by destruct s.
Qed.

Lemma strip_prefix_app p s : strip_prefix p (p +:+ s) = Some s.
Proof. induction p as [|c p IH]; [done|]. simpl. by rewrite decide_True. Qed.

Lemma strip_prefix_Some p s r : strip_prefix p s = Some r → s = p +:+ r.
Proof.
  revert s. induction p as [|c p IH]; intros s; [by intros [= ->]|]. destruct s as [|d s]; [done|]. simpl.
  case_decide; [subst|done]. intros H%IH. by rewrite H.
Qed.

Lemma digit_of_digit d : 0 ≤ d < 10 → digit_of (digit d) = Some d.
Proof.
  intros Hd. unfold digit_of, digit. rewrite nat_ascii_embedding by lia. rewrite decide_True by lia. f_equal. lia.
Qed.

Lemma parse_dec_digits fuel bound n acc :
  0 ≤ n < bound → n < 10 ^ Z.of_nat fuel → parse_digits bound 0 (dec_digits fuel n acc) = parse_digits bound n acc.
Proof.
  revert n acc. induction fuel as [|fuel IH]; intros n acc Hn Hf.
  { simpl. replace n with 0 by (simpl in Hf; lia). done. }
  pose proof (Z.div_mod n 10 ltac:(lia)) as Hd. pose proof (Z.mod_pos_bound n 10 ltac:(lia)) as Hm.
  rewrite Nat2Z.inj_succ, Z.pow_succ_r in Hf by lia. cbn [dec_digits].
  case_decide as Hz.
  - cbn [parse_digits]. rewrite digit_of_digit by done. rewrite decide_True by lia. f_equal. lia.
  - rewrite IH by (pose proof (Z.div_pos n 10 ltac:(lia) ltac:(lia)); lia).
    cbn [parse_digits]. rewrite digit_of_digit by done. rewrite decide_True by lia. f_equal. lia.
Qed.

Lemma has_char_dec_digits c fuel n acc :
  digit_of c = None → has_char c (dec_digits fuel n acc) = has_char c acc.
Proof.
  intros Hc. revert n acc. induction fuel as [|fuel IH]; intros n acc; [done|].
  pose proof (Z.mod_pos_bound n 10 ltac:(lia)) as Hm. cbn [dec_digits].
  assert (has_char c (String (digit (n mod 10)) acc) = has_char c acc) as Hacc.
  { simpl. rewrite bool_decide_eq_false_2; [done|]. intros ->. by rewrite digit_of_digit in Hc by done. }
  case_decide; [done|]. by rewrite IH.
Qed.

Lemma dec_digits_head fuel n acc :
  ∃ d rest, 0 ≤ d < 10 ∧ dec_digits (S fuel) n acc = String (digit d) rest.
Proof.
  revert n acc. induction fuel as [|fuel IH]; intros n acc.
  - cbn [dec_digits]. exists (n mod 10), acc. split; [by apply Z.mod_pos_bound|]. by case_decide.
  - remember (S fuel) as f eqn:Hf. cbn [dec_digits]. subst f. case_decide; [|apply IH].
    exists (n mod 10), acc. split; [by apply Z.mod_pos_bound|done].
Qed.

(** An integer of the width round-trips through its text. *)
Lemma parse_uint_dec bound n : 0 ≤ n < bound → n < 10 ^ 20 → parse_uint bound (dec n) = Some n.
Proof.
  intros Hn Hd. unfold dec. destruct (dec_digits_head 19 n EmptyString) as (d & rest & Hd' & He).
  pose proof (parse_dec_digits 20 bound n EmptyString Hn ltac:(lia)) as Hp. rewrite He in *. cbn [parse_uint].
  rewrite decide_False; [done|]. intros Heq. pose proof (digit_of_digit d Hd') as Hx. by rewrite Heq in Hx.
Qed.

Lemma dec_no_char c n : digit_of c = None → has_char c (dec n) = false.
Proof. intros Hc. unfold dec. by rewrite has_char_dec_digits. Qed.

Lemma parse_digits_bound bound v s n : 0 ≤ v < bound → parse_digits bound v s = Some n → 0 ≤ n < bound.
Proof.
  revert v. induction s as [|c s IH]; intros v Hv; [by intros [= <-]|]. cbn [parse_digits].
  unfold digit_of. case_decide; [|done]. case_decide; [|done]. apply IH. lia.
Qed.

Lemma parse_uint_bound bound s n : 0 < bound → parse_uint bound s = Some n → 0 ≤ n < bound.
Proof.
  intros Hb. unfold parse_uint. destruct s as [|c rest]; [done|].
  case_decide; [destruct rest; [done|]|]; intros Hp; (eapply parse_digits_bound; [|exact Hp]; lia).
Qed.

(** *** Lines *)

Lemma strip_cr_plain l : has_char CR l = false → strip_cr l = l.
Proof.
  induction l as [|c l IH]; [done|]. simpl. intros [Hr Hl]%orb_false_iff. apply bool_decide_eq_false in Hr.
  rewrite IH by done. destruct l; [|done]. by rewrite decide_False.
Qed.

Definition one_line (l : string) : Prop := has_char LF l = false ∧ has_char CR l = false.

Lemma lines_text ls : Forall one_line ls → lines (foldr (λ l acc, l +:+ String LF acc) EmptyString ls) = ls.
Proof.
  unfold lines. induction 1 as [|l ls [Hf Hr] _ IH]; [done|]. cbn [foldr].
  rewrite split_on_sep by done. destruct (split_on LF (foldr _ _ ls)) as [|p ps] eqn:E; [by destruct ls|].
  cbn [lines_of] in *. by rewrite strip_cr_plain, IH.
Qed.

Lemma not_alnum c s : (∀ d, has_char d s = true → alnum d = true) → alnum c = false → has_char c s = false.
Proof. intros Hs Hc. apply not_true_iff_false. intros H%Hs. congruence. Qed.
