(* ===== verification/Sketch.v ===== *)
(** * Resemblance sketches (elide-core/src/sketch.rs)

    One feature per permutation, each the maximum over content-defined sampled
    window hashes of an extent's plain bytes. *)

From stdpp Require Import base list.
From S2P Require Import Prelude Bytes.
Open Scope Z_scope.

Definition NUM_FEATURES : nat := 8.
Definition SKETCH_LEN : Z := 32.
Definition MIN_SKETCH_BYTES : Z := 32 * 1024.
Definition SAMPLE_MASK : Z := 31.
Definition MIN_SAMPLES : Z := 16.

Definition wrapping_mul (a b : Z) : Z := (a * b) mod U64.

Definition splitmix (seed : Z) : Z :=
  let z := u64_add seed 11400714819323198485 in
  let z := wrapping_mul (Z.lxor z (Z.shiftr z 30)) 13787848793156543929 in
  let z := wrapping_mul (Z.lxor z (Z.shiftr z 27)) 10723151780598845931 in
  Z.lxor z (Z.shiftr z 31).

Definition GEAR (b : Z) : Z := splitmix b.
Definition PERMS : list Z := map (λ i, Z.lor (splitmix (4096 + i)) 1) (seqZ 0 8).

(** One byte of the rolling scan: the features, the sample count and the hash. *)
Definition scan_byte (st : list Z * Z * Z) (b : Z) : list Z * Z * Z :=
  let '(features, samples, h) := st in
  let h := u64_add (Z.shiftl h 1 mod U64) (GEAR b) in
  if decide (Z.land h SAMPLE_MASK = SAMPLE_MASK) then
    (zip_with (λ f perm, let v := wrapping_mul h perm in if decide (f < v) then v else f)
       features PERMS, u64_add samples 1, h)
  else (features, samples, h).

Section sketch.
Context `{Blake3}.

Definition store_features (features : list Z) : list Z :=
  map (λ f, from_le (take 4 (blake3 (le_bytes 8 f)))) features.

Definition compute (data : list Z) : option (list Z) :=
  if decide (blen data < MIN_SKETCH_BYTES) then None
  else
    let '(features, samples, _) := foldl scan_byte (replicate NUM_FEATURES 0, 0, 0) data in
    if decide (samples < MIN_SAMPLES) then None else Some (store_features features).

(** A sketch is [NUM_FEATURES] 32-bit values. *)
Definition sketch_ok (s : list Z) : Prop := length s = NUM_FEATURES ∧ Forall (λ z, 0 ≤ z < U32) s.

Lemma compute_ok data s : compute data = Some s → sketch_ok s.
Proof.
  unfold compute. case_decide; [done|].
  assert (∀ st, length st.1.1 = NUM_FEATURES →
            length (foldl scan_byte st data).1.1 = NUM_FEATURES) as Hlen.
  { induction data as [|b bs IH] in |- *; intros [[fs n] h] Hl; [done|]. cbn [foldl].
    apply IH. unfold scan_byte. case_decide; [|done]. cbn [fst].
    rewrite length_zip_with. simpl in Hl. rewrite Hl. reflexivity. }
  specialize (Hlen (replicate NUM_FEATURES 0, 0, 0) eq_refl).
  destruct (foldl _ _ data) as [[fs n] h]. case_decide; [done|]. intros [= <-].
  split; [by unfold store_features; rewrite length_map|].
  unfold store_features. rewrite Forall_map, Forall_forall. intros f _.
  assert (bytes_ok (take 4 (blake3 (le_bytes 8 f)))) as Hb by apply Forall_take, blake3_bytes.
  pose proof (from_le_bound _ Hb) as Hr.
  assert (blen (take 4 (blake3 (le_bytes 8 f))) = 4) as Hl4.
  { unfold blen. rewrite length_take, blake3_length. done. }
  rewrite Hl4 in Hr. exact Hr.
Qed.
End sketch.
