(* ===== verification/Segment.v ===== *)
(** * Segment data model (elide-core/src/segment.rs, writelog.rs flags)

    The entry kinds, codecs and index entries every other component of the
    volume exchanges, with the source's constructors and predicates. *)

From stdpp Require Import base gmap list.
From S2P Require Import Prelude.
Open Scope Z_scope.

(** ** Codec *)

Inductive Codec := CodecNone | Lz4 | Zstd | ZstdChunked.

#[export] Instance Codec_eq_dec : EqDecision Codec.
Proof. solve_decision. Defined.

Definition codec_to_u8 (c : Codec) : Z :=
  match c with CodecNone => 0 | Lz4 => 1 | Zstd => 2 | ZstdChunked => 3 end.

Definition codec_from_u8 (b : Z) : io Codec :=
  if decide (b = 0) then Ok CodecNone
  else if decide (b = 1) then Ok Lz4
  else if decide (b = 2) then Ok Zstd
  else if decide (b = 3) then Ok ZstdChunked
  else Err OtherError.

(** ** Entry kinds *)

Inductive EntryKind :=
  | Data | DedupRef | Zero | Inline | Delta
  | CanonicalData | CanonicalInline | CanonicalDelta.

#[export] Instance EntryKind_eq_dec : EqDecision EntryKind.
Proof. solve_decision. Defined.

Definition is_canonical_only (k : EntryKind) : bool :=
  match k with CanonicalData | CanonicalInline | CanonicalDelta => true | _ => false end.
Definition is_data (k : EntryKind) : bool :=
  match k with Data | CanonicalData => true | _ => false end.
Definition is_inline (k : EntryKind) : bool :=
  match k with Inline | CanonicalInline => true | _ => false end.
Definition has_body_bytes (k : EntryKind) : bool :=
  match k with Data | Inline | CanonicalData | CanonicalInline => true | _ => false end.
Definition is_delta (k : EntryKind) : bool :=
  match k with Delta | CanonicalDelta => true | _ => false end.
Definition owns_extent_hash (k : EntryKind) : bool :=
  match k with
  | Data | Inline | CanonicalData | CanonicalInline | Delta | CanonicalDelta => true
  | _ => false
  end.

(** ** Delta options and index entries *)

Record DeltaOption := mkDeltaOption {
  source_hash : Hash;
  delta_offset : Z;   (* u64 *)
  delta_length : Z;   (* u32 *)
  delta_hash : list Z (* [u8; 16] *)
}.

Record SegmentEntry := mkSegmentEntry {
  e_hash : Hash;
  e_start_lba : Z;      (* u64 *)
  e_lba_length : Z;     (* u32 *)
  e_codec : Codec;
  e_kind : EntryKind;
  e_stored_offset : Z;  (* u64 *)
  e_stored_length : Z;  (* u32 *)
  e_inline : option (list Z);
  e_delta_options : list DeltaOption;
  e_journal : bool;
  e_sketch : option (list Z);      (* [u32; NUM_FEATURES] *)
  e_stored_hash : option (list Z)  (* [u8; 16] *)
}.

#[export] Instance DeltaOption_eq_dec : EqDecision DeltaOption.
Proof. solve_decision. Defined.
#[export] Instance SegmentEntry_eq_dec : EqDecision SegmentEntry.
Proof. solve_decision. Defined.

Definition INLINE_THRESHOLD : Z := 256.
Definition would_be_inline (stored_length : Z) : bool := bool_decide (stored_length < INLINE_THRESHOLD).

(** A segment entry paired with the body bytes it is written with. *)
Record PendingEntry := mkPendingEntry { pe_entry : SegmentEntry; pe_body : option (list Z) }.

Definition new_data (h : Hash) (start_lba lba_length : Z) (codec : Codec) (data : list Z)
    : PendingEntry :=
  let stored_length := as_u32 (Z.of_nat (length data)) in
  let '(kind, inline, body) :=
    if would_be_inline (Z.of_nat (length data))
    then (Inline, Some data, None) else (Data, None, Some data) in
  mkPendingEntry
    (mkSegmentEntry h start_lba lba_length codec kind 0 stored_length inline [] false None None)
    body.

Definition new_data_no_body (h : Hash) (start_lba lba_length : Z) (codec : Codec)
    (stored_length : Z) : SegmentEntry :=
  let kind := if would_be_inline stored_length then Inline else Data in
  mkSegmentEntry h start_lba lba_length codec kind 0 stored_length None [] false None None.

Definition new_dedup_ref (h : Hash) (start_lba lba_length : Z) : SegmentEntry :=
  mkSegmentEntry h start_lba lba_length CodecNone DedupRef 0 0 None [] false None None.

Definition ZERO_HASH : Hash := replicate 32 0.

Definition new_zero (start_lba lba_length : Z) : SegmentEntry :=
  mkSegmentEntry ZERO_HASH start_lba lba_length CodecNone Zero 0 0 None [] false None None.

Definition new_delta (h : Hash) (start_lba lba_length : Z) (opts : list DeltaOption)
    : SegmentEntry :=
  mkSegmentEntry h start_lba lba_length CodecNone Delta 0 0 None opts false None None.

Definition canonical_kind (k : EntryKind) : EntryKind :=
  match k with
  | Inline | CanonicalInline => CanonicalInline
  | Delta | CanonicalDelta => CanonicalDelta
  | _ => CanonicalData
  end.

Definition into_canonical (e : SegmentEntry) : SegmentEntry :=
  mkSegmentEntry (e_hash e) 0 0 (e_codec e) (canonical_kind (e_kind e))
    (e_stored_offset e) (e_stored_length e) (e_inline e) (e_delta_options e)
    (e_journal e) (e_sketch e) (e_stored_hash e).
