(* ===== verification/ChunkTree.v ===== *)
(** * Chunk trees (elide-core/src/chunk_tree.rs)

    An extent's hash is the root of a BLAKE3 tree over its plaintext.  Slices at
    multiples of a power-of-two chunk are subtrees, so their chaining values
    rebuild the root, and one chunk can be checked without the extent around
    it.  The table at the head of a chunked payload holds those values. *)

From stdpp Require Import base list.
From S2P Require Import Prelude Bytes.
Open Scope Z_scope.

(** ** [blake3::hazmat]

    [chunk_cv off d] is the non-root chaining value of the subtree that [d]
    is at byte offset [off] of its input.  A subtree longer than one 1 KiB
    chunk splits at [left_subtree_len], the largest power of two below its
    length, and its offset must be aligned to a power of two it fits in. *)

Abbreviation CV := (list Z) (only parsing).

Definition subtree_at (off n : Z) : Prop := ∃ k, 0 ≤ k ∧ (2 ^ k | off) ∧ n ≤ 2 ^ k.

Class Blake3Tree `{HB : Blake3} := {
  chunk_cv : Z → list Z → CV;
  merge_subtrees_non_root : CV → CV → CV;
  merge_subtrees_root : CV → CV → Hash;
  left_subtree_len : Z → Z;
  chunk_cv_length : ∀ off d, length (chunk_cv off d) = 32%nat;
  chunk_cv_bytes : ∀ off d, bytes_ok (chunk_cv off d);
  left_subtree_len_spec : ∀ n, 1024 < n →
    ∃ k, 10 ≤ k ∧ left_subtree_len n = 2 ^ k ∧ 2 ^ k < n ≤ 2 * 2 ^ k;
  chunk_cv_split : ∀ off d, 1024 < blen d → subtree_at off (blen d) →
    let l := left_subtree_len (blen d) in
    chunk_cv off d =
    merge_subtrees_non_root (chunk_cv off (take (Z.to_nat l) d))
                            (chunk_cv (off + l) (drop (Z.to_nat l) d));
  blake3_split : ∀ d, 1024 < blen d →
    let l := left_subtree_len (blen d) in
    blake3 d =
    merge_subtrees_root (chunk_cv 0 (take (Z.to_nat l) d)) (chunk_cv l (drop (Z.to_nat l) d))
}.

(** ** Chunk sizes, held as a log2 *)

Definition MIN_LOG2 : Z := 10.
Definition MAX_LOG2 : Z := 28.
Definition WRITE_CHUNK_SIZE : Z := 17.

Definition ChunkSize : Type := Z.

Definition from_log2 (log2 : Z) : io ChunkSize :=
  if decide (MIN_LOG2 ≤ log2 ≤ MAX_LOG2) then Ok log2 else Err OtherError.

Definition cs_bytes (s : ChunkSize) : Z := Z.shiftl 1 s.
Definition count (s : ChunkSize) (plain_len : Z) : Z := div_ceil plain_len (cs_bytes s).

Definition range (s : ChunkSize) (index plain_len : Z) : Z * Z :=
  let start := index * cs_bytes s in (start, Z.min (start + cs_bytes s) plain_len).

Definition covering (s : ChunkSize) (start end_ : Z) : Z * Z :=
  if decide (end_ ≤ start) then (0, 0)
  else (start / cs_bytes s, (end_ - 1) / cs_bytes s + 1).

(** [&d[r]] for a range in bounds. *)
Definition bytes_in (d : list Z) (r : Z * Z) : list Z :=
  take (Z.to_nat (r.2 - r.1)) (drop (Z.to_nat r.1) d).

(** [stored.get(r)]. *)
Definition get_range (d : list Z) (r : Z * Z) : option (list Z) :=
  if decide (r.1 ≤ r.2 ∧ r.2 ≤ blen d) then Some (bytes_in d r) else None.

Section tree.
Context {HB : Blake3} {HT : Blake3Tree}.

Definition cv (s : ChunkSize) (index : Z) (chunk : list Z) : CV := chunk_cv (index * cs_bytes s) chunk.

Definition cvs (s : ChunkSize) (plain : list Z) : list CV :=
  map (λ i, cv s i (bytes_in plain (range s i (blen plain)))) (seqZ 0 (count s (blen plain))).

Definition split (s : ChunkSize) (cs : list CV) (len : Z) : list CV * list CV * Z :=
  let left_len := left_subtree_len len in
  let left_chunks := Nat.min (Z.to_nat (left_len / cs_bytes s)) (length cs) in
  (take left_chunks cs, drop left_chunks cs, left_len).

(** The recursion halves [cs]; [fuel] bounds it.  No caller hands it an empty
    list, on which the source would not return. *)
Fixpoint merge_subtree (fuel : nat) (s : ChunkSize) (cs : list CV) (len : Z) : option CV :=
  match fuel with
  | O => None
  | S fuel =>
      match cs with
      | [only] => Some only
      | _ =>
          let '(left_cvs, right_cvs, left_len) := split s cs len in
          l ← merge_subtree fuel s left_cvs left_len;
          r ← merge_subtree fuel s right_cvs (len - left_len);
          Some (merge_subtrees_non_root l r)
      end
  end.

Definition root_from_cvs (s : ChunkSize) (cs : list CV) (plain_len : Z) : io Hash :=
  if decide (blen cs ≠ count s plain_len) then Err OtherError
  else if decide (blen cs < 2) then Err OtherError
  else
    let '(left_cvs, right_cvs, left_len) := split s cs plain_len in
    match merge_subtree (length cs) s left_cvs left_len,
          merge_subtree (length cs) s right_cvs (plain_len - left_len) with
    | Some l, Some r => Ok (merge_subtrees_root l r)
    | _, _ => Err OtherError
    end.

Definition verify_chunk (s : ChunkSize) (index : Z) (chunk : list Z) (cs : list CV) (plain_len : Z)
    (expected : Hash) : io unit :=
  if decide (Z.to_nat index < length cs)%nat then
    root ← root_from_cvs s (<[Z.to_nat index := cv s index chunk]> cs) plain_len;
    if decide (root ≠ expected) then Err OtherError else Ok ()
  else Err OtherError.
End tree.

(** ** The chunk table *)

Definition TABLE_ENTRY_LEN : Z := 4 + 32.
Definition TABLE_HEADER_LEN : Z := 5.

Record ChunkTable := mkChunkTable {
  size : ChunkSize;
  plain_len : Z;
  stored_lengths : list Z;
  table_cvs : list CV
}.

Definition encoded_len (plain_len : Z) (s : ChunkSize) : Z :=
  TABLE_HEADER_LEN + count s plain_len * TABLE_ENTRY_LEN.

Definition peek_header (stored : list Z) : io (Z * ChunkSize) :=
  match get_range stored (0, TABLE_HEADER_LEN) with
  | None => Err OtherError
  | Some header =>
      s ← from_log2 (default 0 (header !! 4%nat));
      Ok (from_le (take 4 header), s)
  end.

Definition parse (stored : list Z) : io ChunkTable :=
  '(plain_len, s) ← peek_header stored;
  match get_range stored (0, encoded_len plain_len s) with
  | None => Err OtherError
  | Some table =>
      let at_ i := TABLE_HEADER_LEN + i * TABLE_ENTRY_LEN in
      Ok (mkChunkTable s plain_len
            (map (λ i, from_le (bytes_in table (at_ i, at_ i + 4))) (seqZ 0 (count s plain_len)))
            (map (λ i, bytes_in table (at_ i + 4, at_ i + TABLE_ENTRY_LEN)) (seqZ 0 (count s plain_len))))
  end.

Definition encode (t : ChunkTable) : list Z :=
  le_bytes 4 (as_u32 (plain_len t)) ++ [size t] ++
  concat (zip_with (λ len c, le_bytes 4 len ++ c) (stored_lengths t) (table_cvs t)).

Definition chunk_span (t : ChunkTable) (index : Z) : io (Z * Z) :=
  match stored_lengths t !! Z.to_nat index with
  | None => Err OtherError
  | Some len =>
      let start := encoded_len (plain_len t) (size t)
                   + foldr Z.add 0 (take (Z.to_nat index) (stored_lengths t)) in
      Ok (start, start + len)
  end.

(** ** A concrete tree, for evaluating the model

    The sum of the bytes, each plus one, is a tree hash. *)

Lemma le_bytes_mod n z : le_bytes n (z mod 256 ^ Z.of_nat n) = le_bytes n z.
Proof.
  revert z. induction n as [|n IH]; intros z; [done|]. cbn [le_bytes].
  rewrite Nat2Z.inj_succ, Z.pow_succ_r by lia.
  assert (0 < 256 ^ Z.of_nat n) by (apply Z.pow_pos_nonneg; lia).
  rewrite Z.rem_mul_r by lia. f_equal.
  - rewrite (Z.mul_comm 256), Z.mod_add, Z.mod_mod by lia. done.
  - rewrite (Z.mul_comm 256), Z.div_add by lia.
    rewrite (Z.div_small (z mod 256)) by (apply Z.mod_pos_bound; lia). rewrite Z.add_0_l. apply IH.
Qed.

Lemma from_le_mod n z : from_le (le_bytes n z) = z mod 256 ^ Z.of_nat n.
Proof.
  rewrite <-le_bytes_mod. apply from_le_bytes, Z.mod_pos_bound, Z.pow_pos_nonneg; lia.
Qed.

Definition byte_sum (bs : list Z) : Z := foldl (λ a b, a + b + 1) 0 bs.

Lemma byte_sum_split n bs : byte_sum bs = byte_sum (take n bs) + byte_sum (drop n bs).
Proof.
  assert (∀ l a, foldl (λ a b, a + b + 1) a l = a + byte_sum l) as Hs.
  { unfold byte_sum. induction l as [|x l IH]; intros a; cbn [foldl]; [lia|]. rewrite IH, (IH (0 + x + 1)). lia. }
  rewrite <-(take_drop n bs) at 1. unfold byte_sum at 1. by rewrite foldl_app, Hs.
Qed.

Definition toy_merge (a b : list Z) : list Z := le_bytes 32 (from_le a + from_le b).

Lemma toy_merge_sum n bs :
  le_bytes 32 (byte_sum bs) = toy_merge (le_bytes 32 (byte_sum (take n bs))) (le_bytes 32 (byte_sum (drop n bs))).
Proof.
  unfold toy_merge. rewrite !from_le_mod, (byte_sum_split n bs), <-le_bytes_mod.
  rewrite <-(le_bytes_mod 32 (_ + _)). by rewrite <-Zplus_mod.
Qed.

Definition toy_tree : @Blake3Tree toy_blake3.
Proof.
  refine {| chunk_cv _ d := le_bytes 32 (byte_sum d); merge_subtrees_non_root := toy_merge;
            merge_subtrees_root := toy_merge; left_subtree_len n := 2 ^ Z.log2 (n - 1) |}.
  - intros _ d. apply length_le_bytes.
  - intros _ d. apply le_bytes_ok.
  - intros n Hn. exists (Z.log2 (n - 1)). pose proof (Z.log2_spec (n - 1) ltac:(lia)) as [H1 H2].
    rewrite Z.pow_succ_r in H2 by apply Z.log2_nonneg.
    split; [apply (Z.log2_le_mono 1024 (n - 1)); lia|]. split; [done|lia].
  - intros off d _ _. apply toy_merge_sum.
  - intros d _. apply toy_merge_sum.
Defined.
