(* ===== verification/ChunkTreeSpec.v ===== *)
(** * Chunk trees verify against the extent hash

    Chaining values taken at chunk boundaries rebuild the extent's hash; a chunk
    is accepted exactly when the extent with that chunk in place hashes right;
    tables round-trip. *)

From stdpp Require Import base list.
From S2P Require Import Prelude Bytes ChunkTree.
Open Scope Z_scope.

(** ** Powers of two and slices *)

Definition size_ok (s : ChunkSize) : Prop := MIN_LOG2 ≤ s ≤ MAX_LOG2.

Lemma cs_bytes_pow s : size_ok s → cs_bytes s = 2 ^ s.
Proof. intros [Hs _]. unfold MIN_LOG2 in Hs. unfold cs_bytes. rewrite Z.shiftl_mul_pow2 by lia. lia. Qed.

Lemma cs_bytes_bounds s : size_ok s → 1024 ≤ cs_bytes s ≤ 268435456.
Proof.
  intros Hs. rewrite cs_bytes_pow by done. destruct Hs as [H1 H2]. unfold MIN_LOG2, MAX_LOG2 in *.
  change 1024 with (2 ^ 10). change 268435456 with (2 ^ 28). split; apply Z.pow_le_mono_r; lia.
Qed.

Lemma count_bounds s n : size_ok s → 0 < n → (count s n - 1) * cs_bytes s < n ≤ count s n * cs_bytes s.
Proof.
  intros Hs Hn. pose proof (cs_bytes_bounds s Hs). unfold count, div_ceil.
  pose proof (Z.div_mod (n + cs_bytes s - 1) (cs_bytes s) ltac:(lia)).
  pose proof (Z.mod_pos_bound (n + cs_bytes s - 1) (cs_bytes s) ltac:(lia)). nia.
Qed.

Lemma count_nonneg s n : size_ok s → 0 ≤ n → 0 ≤ count s n.
Proof. intros Hs Hn. pose proof (cs_bytes_bounds s Hs). apply Z.div_pos; lia. Qed.

Lemma count_unique s n c : size_ok s → (c - 1) * cs_bytes s < n ≤ c * cs_bytes s → count s n = c.
Proof.
  intros Hs Hc. pose proof (cs_bytes_bounds s Hs). unfold count, div_ceil.
  symmetry. apply (Z.div_unique _ _ _ (n + cs_bytes s - 1 - c * cs_bytes s)); nia.
Qed.

Lemma take_min_length {A} n (l : list A) : take (Nat.min n (length l)) l = take n l.
Proof.
  destruct (decide (n ≤ length l)%nat) as [H|H].
  - by rewrite Nat.min_l.
  - rewrite Nat.min_r by lia. rewrite !take_ge by lia. done.
Qed.

Lemma blen_drop {A} n (l : list A) : blen (drop n l) = Z.max 0 (blen l - Z.of_nat n).
Proof. unfold blen. rewrite length_drop. lia. Qed.
Lemma blen_take {A} n (l : list A) : blen (take n l) = Z.min (Z.of_nat n) (blen l).
Proof. unfold blen. rewrite length_take. lia. Qed.

Section tree.
Context {HB : Blake3} {HT : Blake3Tree}.

(** The chaining values of the chunks of [d], which sits at [off]. *)
Definition cvs_at (s : ChunkSize) (off : Z) (d : list Z) : list CV :=
  map (λ i, chunk_cv (off + i * cs_bytes s)
              (take (Z.to_nat (cs_bytes s)) (drop (Z.to_nat (i * cs_bytes s)) d)))
      (seqZ 0 (count s (blen d))).

Lemma chunk_slice s d i :
  size_ok s → 0 ≤ i → i * cs_bytes s ≤ blen d →
  bytes_in d (range s i (blen d)) = take (Z.to_nat (cs_bytes s)) (drop (Z.to_nat (i * cs_bytes s)) d).
Proof.
  intros Hs Hi Hle. pose proof (cs_bytes_bounds s Hs). unfold bytes_in, range. cbn [fst snd].
  rewrite <-(take_min_length (Z.to_nat (cs_bytes s))). f_equal. rewrite length_drop. unfold blen in *. lia.
Qed.

Lemma cvs_whole s plain : size_ok s → 0 < blen plain → cvs s plain = cvs_at s 0 plain.
Proof.
  intros Hs Hp. unfold cvs, cvs_at. apply map_ext_in. intros i Hi.
  apply list_elem_of_In, elem_of_seqZ in Hi. pose proof (count_bounds s _ Hs Hp). pose proof (cs_bytes_bounds s Hs).
  unfold cv. rewrite chunk_slice by (done || nia). done.
Qed.

Lemma cvs_at_length s off d : size_ok s → blen (cvs_at s off d) = Z.max 0 (count s (blen d)).
Proof. intros Hs. unfold cvs_at, blen at 1. rewrite length_map, length_seqZ. lia. Qed.

Lemma cvs_at_split s off d m :
  size_ok s → 0 < m → m * cs_bytes s < blen d →
  cvs_at s off d =
  cvs_at s off (take (Z.to_nat (m * cs_bytes s)) d) ++
  cvs_at s (off + m * cs_bytes s) (drop (Z.to_nat (m * cs_bytes s)) d).
Proof.
  intros Hs Hm Hl. pose proof (cs_bytes_bounds s Hs) as Hb. unfold cvs_at.
  rewrite blen_take, blen_drop. set (b := cs_bytes s) in *. assert (0 ≤ m * b) as Hmb by nia.
  rewrite Z.min_l, Z.max_r, Z2Nat.id by lia.
  assert (count s (m * b) = m) as Hc1 by (apply count_unique; [done|fold b; nia]).
  assert (count s (blen d - m * b) = count s (blen d) - m) as Hc2.
  { apply count_unique; [done|]. pose proof (count_bounds s (blen d) Hs ltac:(nia)) as Hc. fold b in Hc. fold b. nia. }
  rewrite Hc1, Hc2. pose proof (count_bounds s (blen d) Hs ltac:(nia)) as Hcd. fold b in Hcd.
  replace (seqZ 0 (count s (blen d))) with (seqZ 0 m ++ (Z.add m <$> seqZ 0 (count s (blen d) - m))).
  2: { rewrite fmap_add_seqZ, Z.add_0_r. pose proof (seqZ_app 0 m (count s (blen d) - m)) as Ha.
       rewrite Z.add_0_l in Ha. rewrite <-Ha by nia. f_equal. lia. }
  rewrite map_app. f_equal.
  - apply map_ext_in. intros i Hi. apply list_elem_of_In, elem_of_seqZ in Hi. f_equal.
    rewrite skipn_firstn_comm, take_take. f_equal. nia.
  - rewrite <-list_fmap_compose. apply map_ext_in. intros i Hi. apply list_elem_of_In, elem_of_seqZ in Hi.
    unfold compose. rewrite drop_drop. f_equal; [lia|]. do 2 f_equal. nia.
Qed.

(** The split lands on a chunk boundary. *)
Lemma left_chunks s n :
  size_ok s → cs_bytes s < n →
  ∃ m k, 0 < m ∧ left_subtree_len n = m * cs_bytes s ∧ m * cs_bytes s = 2 ^ k ∧ 0 ≤ k ∧
    m * cs_bytes s < n ≤ 2 * (m * cs_bytes s).
Proof.
  intros Hs Hn. pose proof (cs_bytes_bounds s Hs) as Hb.
  destruct (left_subtree_len_spec n ltac:(lia)) as (k & Hk & Hl & Hk1 & Hk2).
  pose proof (cs_bytes_pow s Hs) as Hp. destruct Hs as [H1 H2]. unfold MIN_LOG2, MAX_LOG2 in *.
  assert (s ≤ k).
  { apply Z.lt_succ_r, (Z.pow_lt_mono_r_iff 2); [lia..|]. rewrite Z.pow_succ_r by lia. lia. }
  exists (2 ^ (k - s)), k. rewrite Hp, <-Z.pow_add_r by lia. replace (k - s + s) with k by lia.
  split_and!; try done; try lia.
Qed.

Lemma subtree_at_children off n m k :
  subtree_at off n → 0 ≤ k → m = 2 ^ k → m < n ≤ 2 * m → subtree_at off m ∧ subtree_at (off + m) (n - m).
Proof.
  intros (k' & Hk' & Hd & Hle) Hk -> Hn.
  assert (k ≤ k') by (apply Z.lt_le_incl, (Z.pow_lt_mono_r_iff 2); lia).
  assert ((2 ^ k | off)) as Hdk.
  { apply (Z.divide_trans _ (2 ^ k')); [|done]. exists (2 ^ (k' - k)). rewrite <-Z.pow_add_r by lia. f_equal. lia. }
  split; exists k; split_and!; try done; try lia.
  apply Z.divide_add_r; [done|apply Z.divide_refl].
Qed.

Lemma merge_subtree_cvs fuel s off d :
  size_ok s → 0 < blen d → subtree_at off (blen d) → blen (cvs_at s off d) ≤ Z.of_nat fuel →
  merge_subtree fuel s (cvs_at s off d) (blen d) = Some (chunk_cv off d).
Proof.
  intros Hs. revert off d. induction fuel as [|fuel IH]; intros off d Hd Hat Hf.
  { rewrite cvs_at_length in Hf by done. pose proof (count_bounds s _ Hs Hd).
    pose proof (cs_bytes_bounds s Hs). nia. }
  pose proof (cs_bytes_bounds s Hs) as Hb. cbn [merge_subtree].
  destruct (decide (blen d ≤ cs_bytes s)) as [Hone|Hmany].
  - assert (count s (blen d) = 1) as Hc by (apply count_unique; [done|lia]).
    unfold cvs_at. rewrite Hc. change (seqZ 0 1) with [0]. cbn [map]. rewrite Z.add_0_r, drop_0.
    rewrite take_ge by (unfold blen in *; lia). done.
  - destruct (left_chunks s (blen d) Hs ltac:(lia)) as (m & k & Hm & Hl & Hmk & Hk & Hmd).
    assert (0 ≤ m * cs_bytes s) as Hmb by nia.
    pose proof (cvs_at_split s off d m Hs Hm ltac:(lia)) as Hsplit.
    set (lv := cvs_at s off (take _ d)) in *. set (rv := cvs_at s (off + _) _) in *.
    assert (blen lv = m) as Hlv.
    { unfold lv. rewrite cvs_at_length, blen_take by done.
      rewrite (count_unique s _ m) by (done || nia). lia. }
    assert (0 < blen rv) as Hrv.
    { unfold rv. rewrite cvs_at_length, blen_drop by done.
      pose proof (count_bounds s (blen d - m * cs_bytes s) Hs ltac:(lia)).
      replace (Z.max 0 (blen d - Z.of_nat (Z.to_nat (m * cs_bytes s)))) with (blen d - m * cs_bytes s) by lia. nia. }
    assert (split s (cvs_at s off d) (blen d) = (lv, rv, m * cs_bytes s)) as Hsp.
    { unfold split. rewrite Hl, Z.div_mul by lia. rewrite Hsplit, length_app.
      unfold blen in Hlv. rewrite Nat.min_l by lia.
      rewrite take_app_length', drop_app_length' by lia. done. }
    rewrite Hsp. rewrite Hsplit, blen_app in Hf.
    destruct (subtree_at_children off (blen d) (m * cs_bytes s) k Hat Hk Hmk Hmd) as [Hat1 Hat2].
    assert (blen (take (Z.to_nat (m * cs_bytes s)) d) = m * cs_bytes s) as Hbl by (rewrite blen_take; lia).
    assert (blen (drop (Z.to_nat (m * cs_bytes s)) d) = blen d - m * cs_bytes s) as Hbr by (rewrite blen_drop; lia).
    pose proof (IH off (take (Z.to_nat (m * cs_bytes s)) d)) as IHl. fold lv in IHl. rewrite Hbl in IHl.
    pose proof (IH (off + m * cs_bytes s) (drop (Z.to_nat (m * cs_bytes s)) d)) as IHr. fold rv in IHr. rewrite Hbr in IHr.
    rewrite IHl, IHr by (done || lia). cbn.
    rewrite (chunk_cv_split off d) by (done || lia). rewrite Hl.
    assert (2 ≤ length (cvs_at s off d))%nat as Hlen2.
    { rewrite Hsplit, length_app. clear -Hlv Hrv Hm. unfold blen in *. lia. }
    clear -Hlen2. by destruct (cvs_at s off d) as [|c1 [|c2 cs]]; [simpl in Hlen2; lia..|].
Qed.

Lemma root_from_cvs_whole s plain :
  size_ok s → cs_bytes s < blen plain → root_from_cvs s (cvs s plain) (blen plain) = Ok (blake3 plain).
Proof.
  intros Hs Hd. pose proof (cs_bytes_bounds s Hs) as Hb. rewrite cvs_whole by (done || lia).
  pose proof (count_bounds s (blen plain) Hs ltac:(lia)) as Hc. assert (2 ≤ count s (blen plain)) as Hc2 by nia.
  unfold root_from_cvs. rewrite cvs_at_length, Z.max_r by (done || lia).
  rewrite decide_False, decide_False by lia.
  destruct (left_chunks s (blen plain) Hs ltac:(lia)) as (m & k & Hm & Hl & Hmk & Hk & Hmd).
  assert (0 ≤ m * cs_bytes s) as Hmb by nia.
  pose proof (cvs_at_split s 0 plain m Hs Hm ltac:(lia)) as Hsplit.
  set (lv := cvs_at s 0 (take _ plain)) in *. set (rv := cvs_at s (0 + _) _) in *.
  assert (blen lv = m) as Hlv.
  { unfold lv. rewrite cvs_at_length, blen_take by done.
    rewrite (count_unique s _ m) by (done || nia). lia. }
  assert (length (cvs_at s 0 plain) = (length lv + length rv)%nat) as Hlen by (by rewrite Hsplit, length_app).
  unfold split. rewrite Hl, Z.div_mul by lia. rewrite Hlen. unfold blen in Hlv. rewrite Nat.min_l by lia.
  rewrite Hsplit, take_app_length', drop_app_length' by lia.
  assert (subtree_at 0 (blen plain)) as Hat.
  { exists (k + 1). rewrite Z.pow_add_r by lia. split_and!; [lia|apply Z.divide_0_r|lia]. }
  destruct (subtree_at_children 0 (blen plain) (m * cs_bytes s) k Hat Hk Hmk Hmd) as [Hat1 Hat2].
  assert (blen (take (Z.to_nat (m * cs_bytes s)) plain) = m * cs_bytes s) as Hbl by (rewrite blen_take; lia).
  assert (blen (drop (Z.to_nat (m * cs_bytes s)) plain) = blen plain - m * cs_bytes s) as Hbr by (rewrite blen_drop; lia).
  pose proof (merge_subtree_cvs (length lv + length rv) s 0 (take (Z.to_nat (m * cs_bytes s)) plain) Hs) as IHl.
  fold lv in IHl. rewrite Hbl in IHl.
  pose proof (merge_subtree_cvs (length lv + length rv) s (0 + m * cs_bytes s) (drop (Z.to_nat (m * cs_bytes s)) plain) Hs) as IHr.
  fold rv in IHr. rewrite Hbr in IHr.
  rewrite IHl, IHr by (done || (unfold blen; lia) || lia).
  rewrite (blake3_split plain) by lia. rewrite Hl, Z.add_0_l. done.
Qed.

(** ** One chunk in place *)

Definition put_chunk (s : ChunkSize) (plain : list Z) (i : Z) (chunk : list Z) : list Z :=
  take (Z.to_nat (i * cs_bytes s)) plain ++ chunk ++ drop (Z.to_nat (i * cs_bytes s + blen chunk)) plain.

Definition chunk_len (s : ChunkSize) (i plain_len : Z) : Z := (range s i plain_len).2 - (range s i plain_len).1.

Lemma chunk_in_bounds s i n :
  size_ok s → 0 < n → 0 ≤ i < count s n →
  0 ≤ i * cs_bytes s ∧ 0 < chunk_len s i n ≤ cs_bytes s ∧ i * cs_bytes s + chunk_len s i n ≤ n ∧
  (chunk_len s i n < cs_bytes s → i * cs_bytes s + chunk_len s i n = n).
Proof.
  intros Hs Hn Hi. pose proof (cs_bytes_bounds s Hs). pose proof (count_bounds s n Hs Hn).
  unfold chunk_len, range. cbn [fst snd]. nia.
Qed.

Lemma put_chunk_len s plain i chunk :
  size_ok s → 0 < blen plain → 0 ≤ i < count s (blen plain) → blen chunk = chunk_len s i (blen plain) →
  blen (put_chunk s plain i chunk) = blen plain.
Proof.
  intros Hs Hn Hi Hc. destruct (chunk_in_bounds s i (blen plain)) as (? & ? & ? & _); [done..|].
  unfold put_chunk. rewrite !blen_app, blen_take, blen_drop. lia.
Qed.

Lemma cvs_put_chunk s plain i chunk :
  size_ok s → 0 < blen plain → 0 ≤ i < count s (blen plain) → blen chunk = chunk_len s i (blen plain) →
  <[Z.to_nat i := cv s i chunk]> (cvs s plain) = cvs s (put_chunk s plain i chunk).
Proof.
  intros Hs Hn Hi Hc. pose proof (put_chunk_len s plain i chunk Hs Hn Hi Hc) as Hlen.
  destruct (chunk_in_bounds s i (blen plain)) as (H0 & Hcl & Hle & Hlast); [done..|]. rewrite <-Hc in *.
  pose proof (cs_bytes_bounds s Hs) as Hb.
  rewrite !cvs_whole by (done || lia). unfold cvs_at. rewrite Hlen.
  set (f d i := chunk_cv (0 + i * cs_bytes s) (take (Z.to_nat (cs_bytes s)) (drop (Z.to_nat (i * cs_bytes s)) d))).
  change (<[Z.to_nat i := cv s i chunk]> (map (f plain) (seqZ 0 (count s (blen plain)))) =
          map (f (put_chunk s plain i chunk)) (seqZ 0 (count s (blen plain)))).
  apply list_eq. intros j. destruct (decide (j = Z.to_nat i)) as [->|Hj].
  - rewrite list_lookup_insert_eq by (rewrite length_map, length_seqZ; lia).
    change (map ?g ?l) with (g <$> l). rewrite list_lookup_fmap, lookup_seqZ_lt by lia. cbn. f_equal.
    unfold f, cv. rewrite Z2Nat.id by lia. rewrite !Z.add_0_l. f_equal. unfold put_chunk.
    rewrite drop_app_length' by (rewrite length_take; unfold blen in *; lia).
    destruct (decide (blen chunk = cs_bytes s)) as [He|Hne].
    + rewrite take_app_length' by (unfold blen in *; lia). done.
    + rewrite (drop_ge plain) by (unfold blen in *; lia). rewrite app_nil_r, take_ge by (unfold blen in *; lia). done.
  - rewrite list_lookup_insert_ne by done. change (map ?g ?l) with (g <$> l). rewrite !list_lookup_fmap.
    destruct (seqZ 0 (count s (blen plain)) !! j) as [k|] eqn:Hk; [|done].
    apply lookup_seqZ in Hk as [-> Hk]. cbn [fmap option_fmap option_map]. f_equal. unfold f. f_equal.
    rewrite Z.add_0_l. unfold put_chunk. destruct (decide (Z.of_nat j < i)) as [Hlt|Hgt].
    + rewrite drop_app_le by (rewrite length_take; unfold blen in *; nia).
      rewrite take_app_le by (rewrite length_drop, length_take; unfold blen in *; nia).
      rewrite skipn_firstn_comm, take_take. f_equal. nia.
    + rewrite app_assoc, drop_app_ge by (rewrite length_app, length_take; unfold blen in *; nia).
      rewrite drop_drop. do 2 f_equal. rewrite length_app, length_take. unfold blen in *. nia.
Qed.
End tree.

(** Chunk trees are BLAKE3 trees: at every chunk size a table may declare, the
    chaining values of an extent's chunks rebuild exactly the extent's hash,
    and a chunk is accepted against that table precisely when the whole extent
    with the chunk in its place would hash to the expected value; the merge's
    fuel, the number of chunks, never runs out. *)
Theorem chunk_tree_exact {HB : Blake3} {HT : Blake3Tree} s plain :
  size_ok s → cs_bytes s < blen plain →
  root_from_cvs s (cvs s plain) (blen plain) = Ok (blake3 plain) ∧
  ∀ i chunk expected,
    0 ≤ i < count s (blen plain) → blen chunk = chunk_len s i (blen plain) →
    verify_chunk s i chunk (cvs s plain) (blen plain) expected =
    if decide (blake3 (put_chunk s plain i chunk) = expected) then Ok () else Err OtherError.
Proof.
  intros Hs Hd. pose proof (cs_bytes_bounds s Hs) as Hb. split; [by apply root_from_cvs_whole|].
  intros i chunk expected Hi Hc. unfold verify_chunk.
  assert (blen (cvs s plain) = count s (blen plain)) as Hl.
  { rewrite cvs_whole, cvs_at_length by (done || lia). lia. }
  rewrite decide_True by (unfold blen in Hl, Hi; lia).
  pose proof (put_chunk_len s plain i chunk Hs ltac:(lia) Hi Hc) as Hpl.
  rewrite cvs_put_chunk by (done || lia). rewrite <-Hpl at 1.
  rewrite root_from_cvs_whole by (done || lia). unfold mbind, io_bind.
  destruct (decide (blake3 (put_chunk s plain i chunk) = expected)) as [->|Hne].
  - by rewrite decide_False by auto.
  - by rewrite decide_True.
Qed.

(** ** Tables *)

Lemma le_prefix_app n (x : list Z) :
  take 4 (le_bytes 4 n ++ x) = le_bytes 4 n ∧ (le_bytes 4 n ++ x) !! 4%nat = x !! 0%nat.
Proof. split; [by apply take_app_length'|by rewrite lookup_app_r]. Qed.

Record table_ok (t : ChunkTable) : Prop := {
  to_size : size_ok (size t);
  to_plain : 0 ≤ plain_len t < U32;
  to_lengths : blen (stored_lengths t) = count (size t) (plain_len t);
  to_cvs : blen (table_cvs t) = count (size t) (plain_len t);
  to_width : Forall (λ l, 0 ≤ l < U32) (stored_lengths t);
  to_cv : Forall (λ c, length c = 32%nat) (table_cvs t)
}.

Lemma bytes_in_at d pos x :
  at_pos d pos x → bytes_in d (pos, pos + blen x) = x ∧ get_range d (pos, pos + blen x) = Some x.
Proof.
  intros (pre & post & -> & ->). assert (bytes_in (pre ++ x ++ post) (blen pre, blen pre + blen x) = x) as Hx.
  { unfold bytes_in. cbn [fst snd]. rewrite drop_app_length' by (unfold blen; lia).
    apply take_app_length'. unfold blen. lia. }
  split; [done|]. unfold get_range. cbn [fst snd]. rewrite Hx.
  pose proof (blen_nonneg x). pose proof (blen_nonneg post).
  by rewrite decide_True by (rewrite !blen_app; lia).
Qed.

Lemma concat_at (pre : list Z) rows post i r :
  rows !! i = Some r → at_pos (pre ++ concat rows ++ post) (blen pre + blen (concat (take i rows))) r.
Proof.
  intros Hi. exists (pre ++ concat (take i rows)), (concat (drop (S i) rows) ++ post). split.
  - rewrite <-(take_drop_middle rows i r Hi) at 1. rewrite concat_app. cbn [concat]. by rewrite <-!app_assoc.
  - by rewrite blen_app.
Qed.

Lemma concat_uniform (w : Z) (rows : list (list Z)) :
  Forall (λ r, blen r = w) rows → blen (concat rows) = w * blen rows.
Proof.
  induction 1 as [|r rows Hr _ IH]; [unfold blen; simpl; lia|]. cbn [concat].
  rewrite blen_app, blen_cons, Hr, IH. lia.
Qed.

Definition rows_of (t : ChunkTable) : list (list Z) :=
  zip_with (λ len c, le_bytes 4 len ++ c) (stored_lengths t) (table_cvs t).

Lemma rows_uniform t : table_ok t → Forall (λ r, blen r = TABLE_ENTRY_LEN) (rows_of t).
Proof.
  intros [_ _ _ _ _ Hc]. unfold rows_of. apply Forall_forall. intros r Hr.
  apply list_elem_of_lookup in Hr as [i Hi]. apply lookup_zip_with_Some in Hi as (l & c & -> & _ & Hci).
  rewrite blen_app, blen_le_bytes. apply (Forall_lookup_1 _ _ _ _ Hc) in Hci. unfold blen. rewrite Hci. done.
Qed.

Lemma encode_len t : table_ok t → blen (encode t) = encoded_len (plain_len t) (size t).
Proof.
  intros Ht. pose proof (rows_uniform t Ht) as Hr. unfold encode. fold (rows_of t).
  rewrite !blen_app, blen_le_bytes, (concat_uniform TABLE_ENTRY_LEN) by done.
  assert (blen (rows_of t) = count (size t) (plain_len t)) as ->.
  { unfold rows_of, blen. rewrite length_zip_with. destruct Ht as [_ _ H1 H2 _ _]. unfold blen in *. lia. }
  unfold encoded_len, TABLE_HEADER_LEN, TABLE_ENTRY_LEN. change (blen [size t]) with 1. lia.
Qed.

Lemma row_at t i l c :
  table_ok t → stored_lengths t !! i = Some l → table_cvs t !! i = Some c →
  at_pos (encode t) (TABLE_HEADER_LEN + Z.of_nat i * TABLE_ENTRY_LEN) (le_bytes 4 l ++ c).
Proof.
  intros Ht Hl Hc. assert (rows_of t !! i = Some (le_bytes 4 l ++ c)) as Hrow.
  { apply lookup_zip_with_Some. by exists l, c. }
  pose proof (concat_at (le_bytes 4 (as_u32 (plain_len t)) ++ [size t]) (rows_of t) [] i _ Hrow) as Hat.
  rewrite app_nil_r, <-app_assoc in Hat. fold (encode t) in Hat.
  rewrite (concat_uniform TABLE_ENTRY_LEN) in Hat by (apply Forall_take, rows_uniform; done).
  rewrite blen_take, blen_app, blen_le_bytes in Hat. apply lookup_lt_Some in Hrow.
  replace (Z.min (Z.of_nat i) (blen (rows_of t))) with (Z.of_nat i) in Hat by (unfold blen; lia).
  unfold encode in *. fold (rows_of t) in *.
  replace (TABLE_HEADER_LEN + Z.of_nat i * TABLE_ENTRY_LEN)
    with (Z.of_nat 4 + blen [size t] + TABLE_ENTRY_LEN * Z.of_nat i); [exact Hat|].
  unfold TABLE_HEADER_LEN. change (blen [size t]) with 1. lia.
Qed.

Lemma parse_encode t rest : table_ok t → parse (encode t ++ rest) = Ok t.
Proof.
  intros Ht. pose proof (encode_len t Ht) as Hlen. pose proof Ht as [Hs Hp Hl Hc Hw H32].
  assert (peek_header (encode t ++ rest) = Ok (plain_len t, size t)) as Hpk.
  { assert (at_pos (encode t ++ rest) 0 (le_bytes 4 (as_u32 (plain_len t)) ++ [size t])) as Hat.
    { exists [], (concat (rows_of t) ++ rest). unfold encode. split; [|done]. by rewrite <-!app_assoc. }
    apply bytes_in_at in Hat as [_ Hat]. rewrite blen_app, blen_le_bytes in Hat.
    change (0 + (Z.of_nat 4 + blen [size t])) with TABLE_HEADER_LEN in Hat. unfold peek_header. rewrite Hat.
    rewrite as_u32_id by lia. destruct (le_prefix_app (plain_len t) [size t]) as [-> ->].
    change (default 0 ([size t] !! 0%nat)) with (size t).
    unfold from_log2. rewrite decide_True by apply Hs. unfold mbind, io_bind.
    by rewrite from_le_bytes by (simpl; lia). }
  unfold parse. rewrite Hpk. cbn [mbind io_bind].
  assert (get_range (encode t ++ rest) (0, encoded_len (plain_len t) (size t)) = Some (encode t)) as ->.
  { rewrite <-Hlen. apply (bytes_in_at _ 0). by exists [], rest. }
  destruct t as [s n lens cs]. cbn [size plain_len stored_lengths table_cvs] in *.
  assert (∀ i, 0 ≤ i < count s n → ∃ l c, lens !! Z.to_nat i = Some l ∧ cs !! Z.to_nat i = Some c) as Hlk.
  { intros i Hi. destruct (lookup_lt_is_Some_2 lens (Z.to_nat i)) as [l ?]; [unfold blen in *; lia|].
    destruct (lookup_lt_is_Some_2 cs (Z.to_nat i)) as [c ?]; [unfold blen in *; lia|]. by exists l, c. }
  f_equal. f_equal.
  - apply list_eq. intros j. change (map ?g ?l) with (g <$> l). rewrite list_lookup_fmap.
    destruct (decide (Z.of_nat j < count s n)) as [Hj|Hj].
    + rewrite lookup_seqZ_lt by lia. cbn [fmap option_fmap option_map]. rewrite Z.add_0_l.
      destruct (Hlk (Z.of_nat j)) as (l & c & Hl' & Hc'); [lia|].
      rewrite Nat2Z.id in Hl', Hc'. rewrite Hl'. f_equal.
      pose proof (row_at _ j l c Ht Hl' Hc') as Hrow. apply at_pos_app in Hrow as [Hrow _].
      apply bytes_in_at in Hrow as [Hrow _]. rewrite blen_le_bytes in Hrow.
      change (Z.of_nat 4) with 4 in Hrow. rewrite Hrow.
      apply from_le_bytes. apply (Forall_lookup_1 _ _ _ _ Hw) in Hl'. simpl. lia.
    + rewrite lookup_seqZ_ge by lia. symmetry. apply lookup_ge_None_2. unfold blen in *. lia.
  - apply list_eq. intros j. change (map ?g ?l) with (g <$> l). rewrite list_lookup_fmap.
    destruct (decide (Z.of_nat j < count s n)) as [Hj|Hj].
    + rewrite lookup_seqZ_lt by lia. cbn [fmap option_fmap option_map]. rewrite Z.add_0_l.
      destruct (Hlk (Z.of_nat j)) as (l & c & Hl' & Hc'); [lia|].
      rewrite Nat2Z.id in Hl', Hc'. rewrite Hc'. f_equal.
      pose proof (row_at _ j l c Ht Hl' Hc') as Hrow. apply at_pos_app in Hrow as [_ Hrow].
      rewrite blen_le_bytes in Hrow. change (Z.of_nat 4) with 4 in Hrow.
      apply bytes_in_at in Hrow as [Hrow _]. apply (Forall_lookup_1 _ _ _ _ H32) in Hc'.
      unfold blen in Hrow. rewrite Hc' in Hrow.
      replace (TABLE_HEADER_LEN + Z.of_nat j * TABLE_ENTRY_LEN + TABLE_ENTRY_LEN)
        with (TABLE_HEADER_LEN + Z.of_nat j * TABLE_ENTRY_LEN + 4 + Z.of_nat 32)
        by (unfold TABLE_ENTRY_LEN; lia). exact Hrow.
    + rewrite lookup_seqZ_ge by lia. symmetry. apply lookup_ge_None_2. unfold blen in *. lia.
Qed.

