(* ===== verification/UlidMint.v ===== *)
(** * The ULID mint (elide-core/src/ulid_mint.rs)

    Every ULID a volume issues comes from here, and every ordering argument of
    the maps rests on it: each one is strictly above every ULID issued before,
    whatever the wall clock does. *)

From Stdlib Require Import ZArith Lia.
From stdpp Require Import base list sorting.
From S2P Require Import Prelude.
Open Scope Z_scope.

(** ** The [ulid] crate

    A ULID is a 48-bit millisecond timestamp above 80 random bits.
    [increment] keeps the timestamp and answers [None] when the random bits are
    all set. *)

Class UlidParts := {
  timestamp_ms : Ulid → Z;
  from_parts : Z → Z → Ulid;
  increment : Ulid → option Ulid;
  timestamp_ms_spec : ∀ u, 0 ≤ u < 2 ^ 128 → timestamp_ms u = u / 2 ^ 80;
  from_parts_spec : ∀ t r, 0 ≤ t < 2 ^ 48 → 0 ≤ r < 2 ^ 80 → from_parts t r = t * 2 ^ 80 + r;
  increment_spec : ∀ u, 0 ≤ u < 2 ^ 128 →
    increment u = if decide (u mod 2 ^ 80 = 2 ^ 80 - 1) then None else Some (u + 1)
}.

Section mint.
Context {HU : UlidParts}.

Record UlidMint := mkMint { last : Ulid; skewed : bool }.

Definition mint_new (floor : Ulid) : UlidMint := mkMint floor false.

(** [next]; [candidate] is what the wall clock and the random source gave. *)
Definition next (m : UlidMint) (candidate : Ulid) : UlidMint * Ulid :=
  if decide (last m < candidate) then (mkMint candidate false, candidate)
  else
    let sk := skewed m || bool_decide (timestamp_ms candidate < timestamp_ms (last m)) in
    let result := match increment (last m) with
                  | Some u => u
                  | None => from_parts (u64_add (timestamp_ms (last m)) 1) 0
                  end in
    (mkMint result sk, result).

(** A run of issues, one candidate each. *)
Fixpoint issue (m : UlidMint) (candidates : list Ulid) : UlidMint * list Ulid :=
  match candidates with
  | [] => (m, [])
  | c :: cs => let '(m, u) := next m c in let '(m, us) := issue m cs in (m, u :: us)
  end.

(** The fallback is the successor too: a full random part carries into the
    timestamp. *)
Lemma next_spec m c :
  0 ≤ last m → last m + 1 < 2 ^ 128 →
  (next m c).2 = Z.max c (last m + 1) ∧ last (next m c).1 = (next m c).2.
Proof.
  intros H0 Hl. unfold next. case_decide as Hc; simpl; [lia|].
  rewrite increment_spec by lia. case_decide as Hm; [|lia].
  rewrite timestamp_ms_spec by lia.
  pose proof (Z.div_mod (last m) (2 ^ 80) ltac:(lia)) as Hd.
  assert (0 ≤ last m / 2 ^ 80) by (apply Z.div_pos; lia).
  assert (last m / 2 ^ 80 + 1 < 2 ^ 48).
  { change (2 ^ 128) with (2 ^ 80 * 2 ^ 48) in Hl. nia. }
  rewrite u64_add_id by lia. rewrite from_parts_spec by lia. lia.
Qed.

Lemma issue_spec B m cs :
  0 ≤ last m → last m + Z.of_nat (length cs) < B → B ≤ 2 ^ 128 →
  Forall (λ c, c + Z.of_nat (length cs) < B) cs →
  let '(m', us) := issue m cs in
  Forall (λ u, last m < u < B) us ∧ StronglySorted Z.lt us ∧ last m ≤ last m' < B ∧
  Forall (λ u, u ≤ last m') us ∧ length us = length cs.
Proof.
  revert m. induction cs as [|c cs IH]; intros m H0 Hl HB Hc; cbn [issue].
  { simpl in Hl. split_and!; try constructor; lia. }
  cbn [length] in *. apply Forall_cons in Hc as [Hc Hcs].
  destruct (next_spec m c) as [Hn Hlast]; [lia..|].
  destruct (next m c) as [m1 u]. cbn [fst snd] in *.
  specialize (IH m1). destruct (issue m1 cs) as [m2 us].
  destruct IH as (Hus & Hs & Hm2 & Hle & Hlen); [lia..| |].
  { eapply Forall_impl; [exact Hcs|]. simpl. lia. }
  cbn [length]. split_and!; [|constructor; [done|]|lia..| |lia].
  - constructor; [lia|]. eapply Forall_impl; [exact Hus|]. simpl. lia.
  - eapply Forall_impl; [exact Hus|]. simpl. lia.
  - constructor; [lia|done].
Qed.
End mint.

(** The crate's layout, as a concrete instance. *)
Definition toy_ulid_parts : UlidParts.
Proof.
  refine {| timestamp_ms u := u / 2 ^ 80; from_parts t r := t * 2 ^ 80 + r;
            increment u := if decide (u mod 2 ^ 80 = 2 ^ 80 - 1) then None else Some (u + 1) |}; done.
Defined.

(** The mint is strictly monotone under any clock: seeded at a floor, a run of
    issues yields one ULID per call, each above the floor and above every ULID
    issued before it, with the last one held as the next floor, whether each
    candidate came from a clock ahead, stopped or set back, and through the
    carry of a full random part into the timestamp; nothing wraps while the
    timestamps stay below the 48-bit field's end. *)
Theorem mint_strictly_monotone {HU : UlidParts} floor candidates :
  0 ≤ floor → floor + Z.of_nat (length candidates) < 2 ^ 128 →
  Forall (λ c, c + Z.of_nat (length candidates) < 2 ^ 128) candidates →
  let '(m, us) := issue (mint_new floor) candidates in
  length us = length candidates ∧ StronglySorted Z.lt us ∧
  Forall (λ u, floor < u < 2 ^ 128) us ∧ Forall (λ u, u ≤ last m) us.
Proof.
  intros H0 Hf Hc. pose proof (issue_spec (2 ^ 128) (mint_new floor) candidates) as H.
  cbn [mint_new last] in H. destruct (issue _ _) as [m us].
  destruct H as (? & ? & ? & ? & ?); [done..|]. by split_and!.
Qed.

