(* ===== verification/WriteLog.v ===== *)
(** * The write log (elide-core/src/writelog.rs)

    The append-only record file a volume recovers from after a crash: varints,
    the record writers, the record parser and both scans. *)

From stdpp Require Import base gmap list.
From S2P Require Import Prelude Bytes Segment.
Open Scope Z_scope.

(** ** Constants and records *)

(** [b"ELIDWAL\x01"]. *)
Definition MAGIC : list Z := [69; 76; 73; 68; 87; 65; 76; 1].
Definition HEADER_LEN : Z := 8.

Definition COMPRESSED : Z := 1.
Definition DEDUP_REF : Z := 2.
Definition ZERO : Z := 4.

Definition wal_contains (flags bit : Z) : bool := bool_decide (Z.land flags bit = bit).

Inductive LogRecord :=
  | RData (r_hash : Hash) (r_start_lba r_lba_length r_flags body_offset : Z) (r_data : list Z)
  | RRef (r_hash : Hash) (r_start_lba r_lba_length : Z)
  | RZero (r_start_lba r_lba_length : Z).

#[export] Instance LogRecord_eq_dec : EqDecision LogRecord.
Proof. solve_decision. Defined.

(** An open log: the file's bytes and the tracked size. *)
Record WriteLog := mkWriteLog { wl_file : list Z; wl_size : Z }.

(** ** Varints *)

(** [encode_varint]'s loop; ten bytes hold any u64. *)
Fixpoint encode_loop (fuel : nat) (v : Z) : list Z :=
  match fuel with
  | O => []
  | S fuel =>
      let b := Z.land v 127 in
      let v := Z.shiftr v 7 in
      if decide (v = 0) then [b] else Z.lor b 128 :: encode_loop fuel v
  end.

Definition encode_varint (v : Z) : list Z := encode_loop 10 v.

(** [read_varint]'s loop; the shift reaches 64 on the tenth byte. *)
Fixpoint read_varint_loop (fuel : nat) (result shift : Z) : parser Z :=
  match fuel with
  | O => fail OtherError
  | S fuel =>
      b ← read_u8;
      let result := Z.lor result (Z.shiftl (Z.land b 127) shift mod U64) in
      if decide (Z.land b 128 = 0) then mret result
      else if decide (64 ≤ shift + 7) then fail InvalidData
      else read_varint_loop fuel result (shift + 7)
  end.

Definition read_varint : parser Z := read_varint_loop 10 0 0.

Definition read_varint32 : parser Z :=
  v ← read_varint; if decide (v < U32) then mret v else fail InvalidData.

(** ** Appending *)

(** [write_all_vectored]: [calls] are the outcomes of the successive
    [write_vectored] calls, a byte count or an error; an exhausted list is a
    call that never returned.  Bytes the kernel took stay in the file on every
    path. *)
Fixpoint write_all_vectored (calls : list (io Z)) (file head tail : list Z) : list Z * io unit :=
  if decide (head = [] ∧ tail = []) then (file, Ok ())
  else
    match calls with
    | [] => (file, Err OtherError)
    | Err e :: _ => (file, Err e)
    | Ok n :: calls =>
        if decide (n = 0) then (file, Err OtherError)
        else
          let file := file ++ take (Z.to_nat n) (head ++ tail) in
          if decide (blen head ≤ n) then
            write_all_vectored calls file [] (drop (Z.to_nat (n - blen head)) tail)
          else write_all_vectored calls file (drop (Z.to_nat n) head) tail
    end.

(** [write_all] of one buffer: the same loop over the kernel's answers. *)
Definition write_all_bytes (calls : list (io Z)) (w : WriteLog) (data : list Z) : WriteLog * io unit :=
  match write_all_vectored calls (wl_file w) data [] with
  | (file, Ok _) => (mkWriteLog file (u64_add (wl_size w) (blen data)), Ok ())
  | (file, Err e) => (mkWriteLog file (wl_size w), Err e)
  end.

(** [create_new] either makes an empty file or fails; the magic follows. *)
Definition create (opened : io unit) (calls : list (io Z)) : io WriteLog :=
  _ ← opened;
  let '(w, r) := write_all_bytes calls (mkWriteLog [] 0) MAGIC in _ ← r; Ok w.

(** Reopening seeks to the file's end. *)
Definition reopen (file : list Z) (size : Z) : WriteLog := mkWriteLog file size.

Definition data_header (start_lba lba_length : Z) (h : Hash) (flags : Z) (data : list Z) : list Z :=
  h ++ encode_varint start_lba ++ encode_varint lba_length ++ [flags] ++ encode_varint (blen data).

(** The log afterwards and the call's result; a failed write leaves its bytes
    in the file and the tracked size where it was. *)
Definition append_data (calls : list (io Z)) (w : WriteLog) (start_lba lba_length : Z) (h : Hash)
    (flags : Z) (data : list Z) : WriteLog * io Z :=
  let header := data_header start_lba lba_length h flags data in
  let body_offset := u64_add (wl_size w) (blen header) in
  match write_all_vectored calls (wl_file w) header data with
  | (file, Ok _) =>
      (mkWriteLog file (u64_add (wl_size w) (u64_add (blen header) (blen data))), Ok body_offset)
  | (file, Err e) => (mkWriteLog file (wl_size w), Err e)
  end.

Definition append_zero (calls : list (io Z)) (w : WriteLog) (start_lba lba_length : Z)
    : WriteLog * io unit :=
  write_all_bytes calls w
    (ZERO_HASH ++ encode_varint start_lba ++ encode_varint lba_length ++ [ZERO]).

(** The parse-only REF record, as older binaries wrote it. *)
Definition append_ref (calls : list (io Z)) (w : WriteLog) (start_lba lba_length : Z) (h : Hash)
    : WriteLog * io unit :=
  write_all_bytes calls w (h ++ encode_varint start_lba ++ encode_varint lba_length ++ [DEDUP_REF]).

(** ** Parsing and scanning *)

Section scan.
Context {HB : Blake3} {HL : Lz4Block}.

(** The plaintext a DATA record's hash is checked against. *)
Definition plaintext (flags : Z) (payload : list Z) : option (list Z) :=
  if wal_contains flags COMPRESSED then decompress_size_prepended payload else Some payload.

(** The cursor, read as [*pos]. *)
Definition position : parser Z := λ _ pos, Ok (pos, pos).

Definition parse_record : parser LogRecord :=
  h ← read_fixed 32; start_lba ← read_varint; lba_length ← read_varint32; flags ← read_u8;
  if wal_contains flags DEDUP_REF then mret (RRef h start_lba lba_length)
  else if wal_contains flags ZERO then mret (RZero start_lba lba_length)
  else
    data_len ← read_varint32;
    body_offset ← position;
    payload ← read_fixed (Z.to_nat data_len);
    match plaintext flags payload with
    | None => fail InvalidData
    | Some plain =>
        if decide (blake3 plain ≠ h) then fail InvalidData
        else mret (RData h start_lba lba_length flags body_offset payload)
    end.

(** The scan loop: the records, the end of the last complete one, and whether
    a partial record follows it. *)
Fixpoint scan_loop (fuel : nat) (data : list Z) (pos : Z) (records : list LogRecord)
    : io (list LogRecord * Z * bool) :=
  if decide (pos < blen data) then
    match fuel with
    | O => Err OtherError
    | S fuel =>
        match parse_record data pos with
        | Ok (record, pos) => scan_loop fuel data pos (records ++ [record])
        | Err UnexpectedEof => Ok (records, pos, true)
        | Err e => Err e
        end
    end
  else Ok (records, pos, false).

Definition check_magic (data : list Z) : bool := bool_decide (take 8 data = MAGIC).

Definition scan_readonly (data : list Z) : io (list LogRecord * bool) :=
  if check_magic data then
    '(records, _, partial_tail) ← scan_loop (length data) data HEADER_LEN [];
    Ok (records, partial_tail)
  else Err InvalidData.

(** The records, the valid byte count, and the file afterwards. *)
Definition scan (data : list Z) : io (list LogRecord * Z * list Z) :=
  if check_magic data then
    '(records, last_good, partial_tail) ← scan_loop (length data) data HEADER_LEN [];
    Ok (records, last_good, if partial_tail : bool then take (Z.to_nat last_good) data else data)
  else Err InvalidData.
End scan.
