(* ===== verification/WriteLogSpec.v ===== *)
(** * The write log: what recovery gives back

    Records round-trip through append and scan, a torn tail costs exactly the
    records it cuts, and whatever a scan returns is sound for the bytes it
    read. *)

From stdpp Require Import base gmap list.
From S2P Require Import Prelude Bytes Segment WriteLog.
Open Scope Z_scope.

(** ** Varints *)

Lemma lor_shift_add r b s : 0 ≤ s → 0 ≤ r < 2 ^ s → 0 ≤ b → Z.lor r (Z.shiftl b s) = r + b * 2 ^ s.
Proof.
  intros Hs Hr Hb. rewrite Z.shiftl_mul_pow2 by done.
  assert (Z.land r (b * 2 ^ s) = 0) as Hl.
  { apply Z.bits_inj'. intros n Hn. rewrite Z.land_spec, Z.bits_0.
    destruct (decide (n < s)).
    - rewrite Z.mul_pow2_bits_low by lia. by rewrite andb_false_r.
    - destruct (decide (r = 0)) as [->|]; [by rewrite Z.bits_0|].
      rewrite Z.bits_above_log2; [done|lia|]. apply Z.log2_lt_pow2; [lia|].
      eapply Z.lt_le_trans; [apply Hr|]. apply Z.pow_le_mono_r; lia. }
  pose proof (Z.add_lor_land r (b * 2 ^ s)). lia.
Qed.

Lemma land_127 v : Z.land v 127 = v mod 128.
Proof. change 127 with (Z.ones 7). by rewrite Z.land_ones by lia. Qed.

(** The continuation bit of a byte of the encoding. *)
Lemma continuation_bits :
  Forall (λ b, Z.land b 128 = 0 ∧ Z.lor b 128 = b + 128 ∧ Z.land (b + 128) 128 = 128 ∧
               Z.land (b + 128) 127 = b ∧ Z.land b 127 = b) (seqZ 0 128).
Proof. apply (bool_decide_unpack _). vm_compute. exact I. Qed.

Lemma continuation_bit b : 0 ≤ b < 128 →
  Z.land b 128 = 0 ∧ Z.lor b 128 = b + 128 ∧ Z.land (b + 128) 128 = 128 ∧
  Z.land (b + 128) 127 = b ∧ Z.land b 127 = b.
Proof.
  intros Hb. pose proof continuation_bits as Hall. rewrite Forall_forall in Hall.
  apply Hall. apply elem_of_seqZ. lia.
Qed.

Lemma read_encode_loop fuel v r shift data pos :
  shift + 7 * Z.of_nat fuel = 70 → 0 ≤ shift < 64 → 0 ≤ r < 2 ^ shift → 0 ≤ v < 2 ^ (64 - shift) →
  at_pos data pos (encode_loop fuel v) →
  read_varint_loop fuel r shift data pos =
  Ok (r + v * 2 ^ shift, pos + blen (encode_loop fuel v)).
Proof.
  revert v r shift pos. induction fuel as [|fuel IH]; intros v r shift pos Hf Hs Hr Hv Hat; [lia|].
  cbn [encode_loop read_varint_loop] in *. rewrite land_127, Z.shiftr_div_pow2 in * by lia.
  change (2 ^ 7) with 128 in *. pose proof (Z.mod_pos_bound v 128 eq_refl) as Hb.
  pose proof (Z.div_mod v 128). assert (0 < 2 ^ shift) by (apply Z.pow_pos_nonneg; lia).
  assert (2 ^ (64 - shift) * 2 ^ shift = U64) as Hpow.
  { rewrite <-Z.pow_add_r by lia. replace (64 - shift + shift) with 64 by lia. done. }
  destruct (continuation_bit _ Hb) as (H1 & H2 & H3 & H4 & H5).
  assert (Z.lor r (Z.shiftl (v mod 128) shift mod U64) = r + (v mod 128) * 2 ^ shift) as Hlor.
  { rewrite Z.mod_small; [by apply lor_shift_add; lia|]. rewrite Z.shiftl_mul_pow2 by lia. nia. }
  case_decide as Hd.
  - erewrite bind_run by (by apply read_u8_at). cbv zeta. rewrite H5, Hlor, decide_True by done.
    unfold mret, parser_ret. rewrite blen_cons. change (blen []) with 0. do 2 f_equal; nia.
  - apply at_pos_cons in Hat as [Hat1 Hat2]. rewrite H2 in *.
    erewrite bind_run by (by apply read_u8_at). cbv zeta.
    rewrite H3, H4, Hlor, decide_False by lia.
    assert (shift + 7 < 64).
    { destruct (decide (shift + 7 < 64)); [done|]. exfalso. apply Hd.
      apply Z.div_small. split; [lia|]. eapply Z.lt_le_trans; [apply Hv|].
      change 128 with (2 ^ 7). apply Z.pow_le_mono_r; lia. }
    rewrite decide_False by lia.
    assert (2 ^ (shift + 7) = 2 ^ shift * 128) as E7 by (by rewrite Z.pow_add_r by lia).
    erewrite IH; [|lia|lia|rewrite E7; nia| |exact Hat2].
    + rewrite E7, blen_cons. do 2 f_equal; [nia|lia].
    + split; [apply Z.div_pos; lia|]. apply Z.div_lt_upper_bound; [lia|].
      change 128 with (2 ^ 7) at 1. rewrite <-Z.pow_add_r by lia.
      replace (7 + (64 - (shift + 7))) with (64 - shift) by lia. lia.
Qed.

Lemma read_varint_at data pos v :
  0 ≤ v < U64 → at_pos data pos (encode_varint v) →
  read_varint data pos = Ok (v, pos + blen (encode_varint v)).
Proof.
  intros Hv Hat. unfold read_varint. rewrite (read_encode_loop 10 v 0 0) by (done || (change (2 ^ (64 - 0)) with U64; lia)).
  unfold encode_varint. do 2 f_equal. lia.
Qed.

Lemma read_varint32_at data pos v :
  0 ≤ v < U32 → at_pos data pos (encode_varint v) →
  read_varint32 data pos = Ok (v, pos + blen (encode_varint v)).
Proof.
  intros Hv Hat. unfold read_varint32. erewrite bind_run by (apply (read_varint_at _ _ v); [lia|done]).
  by rewrite decide_True by lia.
Qed.

Lemma encode_varint_len v : 1 ≤ blen (encode_varint v) ≤ 10.
Proof.
  assert (∀ f v, (0 < f)%nat → 1 ≤ blen (encode_loop f v) ≤ Z.of_nat f) as Hle; [|apply (Hle 10%nat v); lia].
  induction f as [|f IH]; intros u Hf; [lia|]. cbn [encode_loop]. cbv zeta.
  case_decide as Hd; rewrite blen_cons; [unfold blen; simpl; lia|].
  destruct f as [|f]; [unfold blen; simpl; lia|]. specialize (IH (Z.shiftr u 7)). lia.
Qed.

(** ** Appending *)

(** A successful vectored write adds exactly the head and the tail. *)
Lemma write_all_vectored_Ok calls file head tail file' :
  Forall (λ c, ∀ n, c = Ok n → 0 ≤ n) calls →
  write_all_vectored calls file head tail = (file', Ok ()) → file' = file ++ head ++ tail.
Proof.
  intros Hc. revert file head tail.
  induction Hc as [|c calls Hn _ IH]; intros file head tail; cbn [write_all_vectored].
  - case_decide as Hd; [|done]. destruct Hd as [-> ->]. intros [= <-]. by rewrite app_nil_r.
  - case_decide as Hd; [destruct Hd as [-> ->]; intros [= <-]; by rewrite app_nil_r|].
    destruct c as [n|e]; [|done]. specialize (Hn n eq_refl). case_decide; [done|].
    cbv zeta. case_decide as Hl; intros ->%IH.
    + rewrite take_app. rewrite (take_ge head) by (unfold blen in Hl; lia).
      rewrite <-!app_assoc. do 2 f_equal. unfold blen in Hl.
      replace (Z.to_nat (n - blen head)) with (Z.to_nat n - length head)%nat by (unfold blen; lia).
      cbn [app]. by rewrite take_drop.
    + rewrite take_app_le by (unfold blen in Hl; lia).
      rewrite <-!app_assoc. f_equal. by rewrite (app_assoc _ _ tail), take_drop.
Qed.

(** ** Parsers of an append-only file

    A reader only looks at bytes the file already has: on a prefix of the file
    it either runs off the end or does the same, it moves forward inside the
    file, and it fails as the scan expects. *)

Class reader {A} (p : parser A) : Prop := {
  reader_stable : ∀ d e pos, 0 ≤ pos → p d pos = Err UnexpectedEof ∨ p d pos = p (d ++ e) pos;
  reader_forward : ∀ d pos a pos', 0 ≤ pos → p d pos = Ok (a, pos') →
    pos ≤ pos' ∧ (pos ≤ blen d → pos' ≤ blen d);
  reader_err : ∀ d pos e, p d pos = Err e → e = UnexpectedEof ∨ e = InvalidData;
  reader_prefix : ∀ d e pos a pos', 0 ≤ pos → p (d ++ e) pos = Ok (a, pos') → pos' ≤ blen d →
    p d pos = Ok (a, pos')
}.

Arguments reader_stable {A} p {_}.
Arguments reader_forward {A} p {_}.
Arguments reader_err {A} p {_}.
Arguments reader_prefix {A} p {_}.

#[export] Instance reader_bind {A B} (p : parser A) (k : A → parser B) :
  reader p → (∀ a, reader (k a)) → reader (p ≫= k).
Proof.
  intros Hp Hk. split.
  - intros d e pos Hpos. unfold mbind, parser_bind.
    destruct (reader_stable p d e pos Hpos) as [->| <-]; [by left|].
    destruct (p d pos) as [[a pos']|] eqn:Hr; [|by right].
    apply (reader_stable (k a)). destruct (reader_forward p _ _ _ _ Hpos Hr). lia.
  - intros d pos b pos' Hpos (a & q & Hr & Hb)%bind_Ok.
    destruct (reader_forward p _ _ _ _ Hpos Hr). 
    destruct (reader_forward (k a) d q b pos' ltac:(lia) Hb). lia.
  - intros d pos e. unfold mbind, parser_bind. destruct (p d pos) as [[a q]|e'] eqn:Hr.
    + apply (reader_err (k a)).
    + intros [= <-]. by eapply (reader_err p).
  - intros d e pos b pos' Hpos (a & q & Hr & Hb)%bind_Ok Hle.
    destruct (reader_forward p _ _ _ _ Hpos Hr).
    destruct (reader_forward (k a) _ q b pos' ltac:(lia) Hb).
    erewrite bind_run by (eapply (reader_prefix p); [done|exact Hr|lia]).
    apply (reader_prefix (k a) d e); [lia|done|done].
Qed.

#[export] Instance reader_ret {A} (a : A) : reader (mret a).
Proof. split; [by right|intros d pos b pos' _ [= _ <-]; lia|done|done]. Qed.

#[export] Instance reader_fail {A} : reader (fail (A := A) InvalidData).
Proof. split; [by right|done| |done]. intros d pos e [= <-]. by right. Qed.

#[export] Instance reader_position : reader position.
Proof. split; [by right|intros d pos b pos' _ [= _ <-]; lia|done|done]. Qed.

#[export] Instance reader_if {A} (P : Prop) `{Decision P} (p q : parser A) :
  reader p → reader q → reader (if decide P then p else q).
Proof. by case_decide. Qed.

#[export] Instance reader_if_bool {A} (b : bool) (p q : parser A) :
  reader p → reader q → reader (if b then p else q).
Proof. by destruct b. Qed.

#[export] Instance reader_option {A B} (o : option A) (p : parser B) (k : A → parser B) :
  reader p → (∀ a, reader (k a)) → reader (match o with None => p | Some a => k a end).
Proof. destruct o; auto. Qed.

#[export] Instance reader_fixed n : reader (read_fixed n).
Proof.
  split.
  - intros d e pos Hpos. unfold read_fixed. case_decide as Hd; [by left|right].
    rewrite decide_False by (rewrite blen_app; pose proof (blen_nonneg e); lia).
    unfold blen in Hd. rewrite drop_app_le by lia.
    by rewrite take_app_le by (rewrite length_drop; lia).
  - intros d pos a pos' Hpos (-> & ? & _)%read_fixed_Ok; [|done]. lia.
  - intros d pos e. unfold read_fixed. case_decide; [|done]. intros [= <-]. by left.
  - intros d e pos a pos' Hpos. unfold read_fixed. case_decide as Hd; [done|]. intros [= <- <-] Hle.
    rewrite decide_False by lia. unfold blen in *. rewrite drop_app_le by lia.
    by rewrite take_app_le by (rewrite length_drop; lia).
Qed.

#[export] Instance reader_u8 : reader read_u8.
Proof.
  split.
  - intros d e pos Hpos. unfold read_u8. destruct (d !! Z.to_nat pos) as [b|] eqn:Hb; [right|by left].
    by rewrite (lookup_app_l_Some _ _ _ _ Hb).
  - intros d pos a pos' Hpos [-> ?]%read_u8_bound; [|done]. lia.
  - intros d pos e. unfold read_u8. destruct (d !! Z.to_nat pos); [done|]. intros [= <-]. by left.
  - intros d e pos a pos' Hpos Hr Hle. apply read_u8_Ok in Hr as [-> Hl]. unfold read_u8, blen in *.
    rewrite lookup_app_l in Hl by lia. by rewrite Hl.
Qed.

Lemma reader_varint_loop fuel r shift :
  shift + 7 * Z.of_nat fuel = 70 → shift < 70 → reader (read_varint_loop fuel r shift).
Proof.
  revert r shift. induction fuel as [|fuel IH]; intros r shift Hf Hs; [lia|].
  cbn [read_varint_loop]. apply reader_bind; [apply _|]. intros b. cbv zeta.
  apply reader_if; [apply _|]. case_decide; [apply _|]. apply IH; lia.
Qed.

#[export] Instance reader_varint : reader read_varint.
Proof. apply reader_varint_loop; lia. Qed.

#[export] Instance reader_varint32 : reader read_varint32.
Proof. apply _. Qed.

(** ** Records *)

Section spec.
Context {HB : Blake3} {HL : Lz4Block}.

(** What a caller appends. *)
Inductive append_op :=
  | OpData (start_lba lba_length : Z) (h : Hash) (flags : Z) (data : list Z)
  | OpZero (start_lba lba_length : Z)
  | OpRef (start_lba lba_length : Z) (h : Hash).

(** One append, with the kernel's answers to its vectored write. *)
Definition run_append (calls : list (io Z)) (w : WriteLog) (op : append_op) : WriteLog * io Z :=
  match op with
  | OpData s l h f d => append_data calls w s l h f d
  | OpZero s l => let '(w, r) := append_zero calls w s l in (w, _ ← r; Ok 0)
  | OpRef s l h => let '(w, r) := append_ref calls w s l h in (w, _ ← r; Ok 0)
  end.

(** The record's bytes, and the record a scan should hand back. *)
Definition enc (op : append_op) : list Z :=
  match op with
  | OpData s l h f d => data_header s l h f d ++ d
  | OpZero s l => ZERO_HASH ++ encode_varint s ++ encode_varint l ++ [ZERO]
  | OpRef s l h => h ++ encode_varint s ++ encode_varint l ++ [DEDUP_REF]
  end.

Definition record_of (pos : Z) (op : append_op) : LogRecord :=
  match op with
  | OpData s l h f d => RData h s l f (pos + blen (data_header s l h f d)) d
  | OpZero s l => RZero s l
  | OpRef s l h => RRef h s l
  end.

Fixpoint records_from (pos : Z) (ops : list append_op) : list LogRecord :=
  match ops with
  | [] => []
  | op :: ops => record_of pos op :: records_from (pos + blen (enc op)) ops
  end.

Definition log_bytes (ops : list append_op) : list Z := MAGIC ++ concat (map enc ops).

(** The log a sequence of whole appends leaves. *)
Definition log_of (ops : list append_op) : WriteLog := mkWriteLog (log_bytes ops) (blen (log_bytes ops)).

(** What the caller owes: widths, a flag byte naming no other record kind, and
    a hash of the plaintext. *)
Definition op_ok (op : append_op) : Prop :=
  match op with
  | OpData s l h f d =>
      0 ≤ s < U64 ∧ 0 ≤ l < U32 ∧ length h = 32%nat ∧ blen d < U32 ∧
      wal_contains f DEDUP_REF = false ∧ wal_contains f ZERO = false ∧
      ∃ plain, plaintext f d = Some plain ∧ blake3 plain = h
  | OpZero s l => 0 ≤ s < U64 ∧ 0 ≤ l < U32
  | OpRef s l h => 0 ≤ s < U64 ∧ 0 ≤ l < U32 ∧ length h = 32%nat
  end.

Lemma enc_len op : op_ok op → 32 < blen (enc op).
Proof.
  assert (∀ h s l x, length h = 32%nat → 32 < blen (h ++ encode_varint s ++ encode_varint l ++ x)) as Hh.
  { intros h s l x Hl. rewrite !blen_app. pose proof (encode_varint_len s).
    pose proof (encode_varint_len l). pose proof (blen_nonneg x). unfold blen at 1. lia. }
  destruct op as [s l h f d|s l|s l h]; cbn [enc op_ok].
  - intros (_ & _ & Hl & _). unfold data_header. rewrite <-!app_assoc. by apply Hh.
  - intros _. by apply Hh.
  - intros (_ & _ & Hl). by apply Hh.
Qed.

(** The fields every record starts with. *)
Lemma parse_prefix {A} (k : Hash → Z → Z → Z → parser A) h s l f x data pos :
  length h = 32%nat → 0 ≤ s < U64 → 0 ≤ l < U32 →
  at_pos data pos (h ++ encode_varint s ++ encode_varint l ++ f :: x) →
  (h' ← read_fixed 32; s' ← read_varint; l' ← read_varint32; f' ← read_u8; k h' s' l' f') data pos =
  k h s l f data (pos + blen (h ++ encode_varint s ++ encode_varint l ++ [f])).
Proof.
  intros Hl Hs Hll Hat. apply at_pos_app in Hat as [Hh Hat]. apply at_pos_app in Hat as [Hat1 Hat].
  apply at_pos_app in Hat as [Hat2 Hat]. apply at_pos_cons in Hat as [Hat3 _].
  erewrite bind_run by (by apply read_fixed_at'). cbn beta.
  replace (Z.of_nat 32) with (blen h) by (unfold blen; by rewrite Hl).
  erewrite bind_run by (by apply read_varint_at). cbn beta.
  erewrite bind_run by (by apply read_varint32_at). cbn beta.
  erewrite bind_run by (by apply read_u8_at). cbn beta.
  rewrite !blen_app. change (blen [f]) with 1. f_equal. lia.
Qed.

Lemma parse_record_at op data pos :
  op_ok op → at_pos data pos (enc op) →
  parse_record data pos = Ok (record_of pos op, pos + blen (enc op)).
Proof.
  destruct op as [s l h f d|s l|s l h]; cbn [enc op_ok record_of].
  - intros (Hs & Hl & Hh & Hd & Hf1 & Hf2 & plain & Hp & Hhash) Hat. unfold data_header in *.
    rewrite <-!app_assoc in Hat. cbn [app] in Hat. unfold parse_record.
    rewrite (parse_prefix _ h s l f (encode_varint (blen d) ++ d)) by done.
    rewrite Hf1, Hf2. pose proof (blen_nonneg d).
    replace (h ++ encode_varint s ++ encode_varint l ++ f :: encode_varint (blen d) ++ d)
      with ((h ++ encode_varint s ++ encode_varint l ++ [f]) ++ encode_varint (blen d) ++ d)
      in Hat by by rewrite <-!app_assoc.
    apply at_pos_app in Hat as [_ Hat]. apply at_pos_app in Hat as [Hat1 Hat2].
    erewrite bind_run by (apply (read_varint32_at _ _ (blen d)); [lia|exact Hat1]). cbn beta.
    erewrite bind_run by (unfold position; reflexivity). cbn beta.
    replace (Z.to_nat (blen d)) with (length d) by (unfold blen; lia).
    erewrite bind_run by (apply read_fixed_at; exact Hat2). cbn beta.
    rewrite Hp, decide_False by (intros Hne; by apply Hne).
    unfold mret, parser_ret. rewrite !blen_app. do 2 f_equal; [f_equal|]; lia.
  - intros (Hs & Hl) Hat. unfold parse_record.
    by rewrite (parse_prefix _ ZERO_HASH s l ZERO []) by done.
  - intros (Hs & Hl & Hh) Hat. unfold parse_record.
    by rewrite (parse_prefix _ h s l DEDUP_REF []) by done.
Qed.

#[export] Instance reader_record : reader parse_record.
Proof. unfold parse_record, read_varint32. apply _. Qed.

(** A complete record takes at least one byte. *)
Lemma parse_record_advances d pos r pos' :
  0 ≤ pos → parse_record d pos = Ok (r, pos') → pos < pos' ≤ blen d.
Proof.
  intros Hpos Hr. unfold parse_record in Hr. apply bind_Ok in Hr as (h & q & Hh & Hr).
  apply read_fixed_Ok in Hh as (-> & ? & _); [|done].
  cbn beta in Hr. change (Z.of_nat 32) with 32 in *.
  match type of Hr with ?p _ _ = _ => pose proof (reader_forward p d (pos + 32) r pos' ltac:(lia) Hr) end. lia.
Qed.

(** A cut record runs off the end of the file. *)
Lemma parse_record_torn op pre n :
  op_ok op → (n < length (enc op))%nat →
  parse_record (pre ++ take n (enc op)) (blen pre) = Err UnexpectedEof.
Proof.
  intros Hop Hn. pose proof (blen_nonneg pre) as Hpre.
  destruct (reader_stable parse_record (pre ++ take n (enc op)) (drop n (enc op)) (blen pre) Hpre)
    as [Hr|Hr]; [done|].
  assert (parse_record ((pre ++ take n (enc op)) ++ drop n (enc op)) (blen pre) =
          Ok (record_of (blen pre) op, blen pre + blen (enc op))) as Hok.
  { rewrite <-app_assoc, take_drop. apply parse_record_at; [done|]. exists pre, [].
    by rewrite app_nil_r. }
  rewrite Hok in Hr. apply parse_record_advances in Hr; [|done].
  rewrite blen_app in Hr. unfold blen in Hr. rewrite length_take in Hr. lia.
Qed.

(** ** Scanning *)

Lemma scan_loop_torn ops op n fuel pre acc :
  Forall op_ok ops → op_ok op → (n < length (enc op))%nat →
  let data := pre ++ concat (map enc ops) ++ take n (enc op) in
  blen data - blen pre ≤ Z.of_nat fuel →
  scan_loop fuel data (blen pre) acc =
  Ok (acc ++ records_from (blen pre) ops, blen pre + blen (concat (map enc ops)), bool_decide (n ≠ 0%nat)).
Proof.
  intros Hops Hop Hn. revert fuel pre acc. induction Hops as [|o ops Ho _ IH]; intros fuel pre acc data Hf;
    subst data; cbn [map concat records_from] in *.
  - cbn [app] in *. change (blen []) with 0. rewrite app_nil_r, Z.add_0_r.
    destruct n as [|n].
    { destruct fuel; cbn [scan_loop]; by rewrite decide_False by (rewrite take_0, app_nil_r; lia). }
    pose proof (parse_record_torn op pre (S n) Hop Hn) as Ht.
    rewrite blen_app in Hf. assert (0 < blen (take (S n) (enc op))).
    { unfold blen. rewrite length_take. lia. }
    destruct fuel as [|fuel]; [lia|]. cbn [scan_loop]. rewrite decide_True by (rewrite blen_app; lia).
    by rewrite Ht.
  - rewrite <-app_assoc in *. pose proof (enc_len o Ho) as Hlen. rewrite !blen_app in Hf.
    pose proof (blen_nonneg (concat (map enc ops))). pose proof (blen_nonneg (take n (enc op))).
    destruct fuel as [|fuel]; [lia|]. cbn [scan_loop]. rewrite decide_True by (rewrite !blen_app; lia).
    rewrite (parse_record_at o) by (done || by eexists pre, _).
    specialize (IH fuel (pre ++ enc o) (acc ++ [record_of (blen pre) o])).
    rewrite <-!app_assoc in IH. rewrite <-blen_app, IH by (rewrite !blen_app; lia).
    cbn [app]. rewrite !blen_app. do 3 f_equal. lia.
Qed.

Lemma check_magic_app x : check_magic (MAGIC ++ x) = true.
Proof. unfold check_magic. by rewrite bool_decide_eq_true. Qed.

Lemma log_bytes_app ops ops' : log_bytes (ops ++ ops') = log_bytes ops ++ concat (map enc ops').
Proof. unfold log_bytes. by rewrite map_app, concat_app, app_assoc. Qed.

Lemma blen_log_bytes ops : blen (log_bytes ops) = HEADER_LEN + blen (concat (map enc ops)).
Proof. unfold log_bytes. by rewrite blen_app. Qed.

(** Both scans of a log cut inside one record. *)
Lemma scan_torn ops op n :
  Forall op_ok ops → op_ok op → (n < length (enc op))%nat →
  let data := log_bytes ops ++ take n (enc op) in
  scan data = Ok (records_from HEADER_LEN ops, blen (log_bytes ops), log_bytes ops) ∧
  scan_readonly data = Ok (records_from HEADER_LEN ops, bool_decide (n ≠ 0%nat)).
Proof.
  intros Hops Hop Hn data. unfold scan, scan_readonly. subst data. rewrite blen_log_bytes.
  unfold log_bytes. rewrite <-app_assoc, check_magic_app.
  pose proof (scan_loop_torn ops op n (length (MAGIC ++ concat (map enc ops) ++ take n (enc op)))
    MAGIC [] Hops Hop Hn) as Hs. cbv zeta in Hs. change (blen MAGIC) with HEADER_LEN in Hs.
  rewrite Hs by (unfold blen, HEADER_LEN; lia). unfold mbind, io_bind. split; [|done].
  cbv beta iota. do 2 f_equal.
  case_bool_decide as Hz.
  - replace (Z.to_nat _) with (length (MAGIC ++ concat (map enc ops))).
    + by rewrite app_assoc, take_app_length.
    + rewrite length_app. change (length MAGIC) with 8%nat. unfold blen, HEADER_LEN. lia.
  - destruct n; [|done]. by rewrite take_0, app_nil_r.
Qed.

(** Where a byte count falls in a log: after some whole records, inside one. *)
Lemma cut_records ops n :
  Forall op_ok ops → (n ≤ length (concat (map enc ops)))%nat →
  ∃ kept lost op m, ops = kept ++ lost ∧ op_ok op ∧ (m < length (enc op))%nat ∧
    (lost = [] ∧ m = 0%nat ∨ head lost = Some op) ∧
    take n (concat (map enc ops)) = concat (map enc kept) ++ take m (enc op) ∧
    (length (concat (map enc kept)) + m = n)%nat.
Proof.
  intros Hops. revert n. induction Hops as [|o ops Ho Hops IH]; intros n Hn; cbn [map concat] in *.
  - assert (n = 0%nat) as -> by (simpl in Hn; lia). exists [], [], (OpZero 0 0), 0%nat.
    split_and!; try done; [|by left]. vm_compute. lia.
  - rewrite length_app in Hn. destruct (decide (n < length (enc o))%nat) as [Hlt|Hge].
    + exists [], (o :: ops), o, n. split_and!; try done; [by right|]. rewrite take_app_le by lia. done.
    + destruct (IH (n - length (enc o))%nat) as (kept & lost & op & m & -> & Hop & Hm & Hl & Ht & Hs); [lia|].
      exists (o :: kept), lost, op, m. cbn [map concat]. rewrite length_app. split_and!; try done; [|lia].
      rewrite take_app, (take_ge (enc o)), Ht by lia. by rewrite app_assoc.
Qed.

(** A log that loses its tail recovers: cut a log of good records at any
    byte past the magic, and recovery returns exactly the records that lie
    wholly before the cut, truncates the file to the end of the last of them
    (the state the log had after those appends), and the read-only scan reports
    the same records and a partial tail exactly when bytes are left over. *)
Theorem scan_torn_tail ops n :
  Forall op_ok ops → HEADER_LEN ≤ n ≤ blen (log_bytes ops) →
  ∃ kept lost, ops = kept ++ lost ∧
    blen (log_bytes kept) ≤ n ∧
    (∀ op, head lost = Some op → n < blen (log_bytes (kept ++ [op]))) ∧
    let data := take (Z.to_nat n) (log_bytes ops) in
    scan data = Ok (records_from HEADER_LEN kept, wl_size (log_of kept), wl_file (log_of kept)) ∧
    scan_readonly data =
      Ok (records_from HEADER_LEN kept, bool_decide (blen (log_bytes kept) < n)).
Proof.
  intros Hops Hn. rewrite blen_log_bytes in Hn. unfold HEADER_LEN, blen in Hn.
  destruct (cut_records ops (Z.to_nat n - 8)) as (kept & lost & op & m & -> & Hop & Hm & Hl & Ht & Hs);
    [done|lia|].
  assert (Forall op_ok kept) as Hk by by apply Forall_app in Hops as [? _].
  exists kept, lost. rewrite blen_log_bytes. unfold HEADER_LEN in *. split; [done|].
  split; [unfold blen; lia|]. split.
  { intros o Ho. destruct Hl as [[-> ->]|Hl]; [done|]. rewrite Hl in Ho. injection Ho as ->.
    rewrite blen_log_bytes, map_app, concat_app, blen_app. cbn [map concat]. rewrite app_nil_r.
    unfold HEADER_LEN, blen. lia. }
  assert (take (Z.to_nat n) (log_bytes (kept ++ lost)) = log_bytes kept ++ take m (enc op)) as ->.
  { unfold log_bytes. rewrite take_app. change (length MAGIC) with 8%nat.
    rewrite (take_ge MAGIC) by (change (length MAGIC) with 8%nat; lia). by rewrite Ht, app_assoc. }
  destruct (scan_torn kept op m Hk Hop Hm) as [Hs1 Hs2]. cbv zeta in Hs1, Hs2. cbv zeta.
  rewrite Hs1, Hs2. split; [done|]. do 2 f_equal. apply bool_decide_ext. unfold blen. lia.
Qed.

(** ** Sequences of appends *)

Fixpoint run_all (w : WriteLog) (steps : list (list (io Z) * append_op)) : WriteLog * list (io Z) :=
  match steps with
  | [] => (w, [])
  | (calls, op) :: steps =>
      let '(w, r) := run_append calls w op in
      let '(w, rs) := run_all w steps in (w, r :: rs)
  end.

(** A step's kernel counts are sizes. *)
Definition step_ok (step : list (io Z) * append_op) : Prop :=
  op_ok step.2 ∧ Forall (λ c, ∀ n, c = Ok n → 0 ≤ n) step.1.

(** The offset an append reports names its payload. *)
Definition offset_ok (file : list Z) (op : append_op) (r : io Z) : Prop :=
  match op with OpData _ _ _ _ d => ∃ off, r = Ok off ∧ at_pos file off d | _ => r = Ok 0 end.

Lemma offset_ok_app file x op r : offset_ok file op r → offset_ok (file ++ x) op r.
Proof.
  destruct op; [|done..]. intros (off & -> & pre & post & -> & ->). exists (blen pre). split; [done|].
  exists pre, (post ++ x). by rewrite <-!app_assoc.
Qed.

Lemma write_all_bytes_Ok calls file rec w :
  Forall (λ c, ∀ n, c = Ok n → 0 ≤ n) calls → blen file + blen rec < U64 →
  write_all_bytes calls (mkWriteLog file (blen file)) rec = (w, Ok ()) →
  w = mkWriteLog (file ++ rec) (blen file + blen rec).
Proof.
  intros Hc Hsz. unfold write_all_bytes. cbn [wl_file wl_size].
  destruct (write_all_vectored _ _ _ _) as [file' [[]|e]] eqn:Hw; [|by simplify_eq].
  apply write_all_vectored_Ok in Hw as ->; [|done]. intros H. apply pair_eq in H as [<- _].
  pose proof (blen_nonneg file). pose proof (blen_nonneg rec). rewrite app_nil_r. by unwrap.
Qed.

Lemma run_append_ok calls ops op w r :
  step_ok (calls, op) → blen (log_bytes (ops ++ [op])) < U64 →
  run_append calls (log_of ops) op = (w, r) → is_ok r = true →
  w = log_of (ops ++ [op]) ∧ offset_ok (wl_file w) op r.
Proof.
  intros [Hop Hc] Hsz Hr Hok. simpl in Hop, Hc.
  unfold log_of in *. rewrite log_bytes_app in *. cbn [map concat] in *. rewrite app_nil_r in *.
  rewrite blen_app in *. pose proof (blen_nonneg (log_bytes ops)). pose proof (blen_nonneg (enc op)).
  destruct op as [s l h f d|s l|s l h]; cbn [run_append] in *.
  - cbn [enc] in *. unfold append_data in Hr. cbn [wl_file wl_size] in Hr. rewrite blen_app in *.
    destruct (write_all_vectored _ _ _ _) as [file [[]|e]] eqn:Hw; [|by simplify_eq].
    apply write_all_vectored_Ok in Hw as ->; [|done]. injection Hr as <- <-.
    pose proof (blen_nonneg d). pose proof (blen_nonneg (data_header s l h f d)). unwrap.
    split; [done|]. cbn [offset_ok wl_file]. eexists. split; [done|].
    exists (log_bytes ops ++ data_header s l h f d), []. by rewrite blen_app, app_nil_r, app_assoc.
  - unfold append_zero in Hr. change (ZERO_HASH ++ _) with (enc (OpZero s l)) in Hr.
    destruct (write_all_bytes _ _ _) as [w' [[]|e]] eqn:Hw; simplify_eq.
    by apply write_all_bytes_Ok in Hw as ->.
  - unfold append_ref in Hr. change (h ++ _) with (enc (OpRef s l h)) in Hr.
    destruct (write_all_bytes _ _ _) as [w' [[]|e]] eqn:Hw; simplify_eq.
    by apply write_all_bytes_Ok in Hw as ->.
Qed.

(** Where an append puts its payload. *)
Definition payload_at (ops : list append_op) (op : append_op) : Z :=
  match op with
  | OpData s l h f d => blen (log_bytes ops) + blen (data_header s l h f d)
  | _ => 0
  end.

(** The file after a successful append, and the offset it reports. *)
Lemma run_append_file calls ops op w x :
  step_ok (calls, op) → run_append calls (log_of ops) op = (w, Ok x) →
  wl_file w = log_bytes (ops ++ [op]) ∧
  (blen (wl_file w) < U64 → w = log_of (ops ++ [op]) ∧ x = payload_at ops op).
Proof.
  intros Hs Hr. assert (wl_file w = log_bytes (ops ++ [op])) as Hf.
  { destruct Hs as [_ Hc]. simpl in Hc.
    assert (∀ rec, (write_all_bytes calls (log_of ops) rec).2 = Ok () →
      wl_file (write_all_bytes calls (log_of ops) rec).1 = log_bytes ops ++ rec) as Hb.
    { intros rec. unfold write_all_bytes. destruct (write_all_vectored _ _ _ _) as [file [[]|e]] eqn:Hw; [|done].
      intros _. apply write_all_vectored_Ok in Hw as ->; [|done]. cbn [fst wl_file log_of]. by rewrite app_nil_r. }
    rewrite log_bytes_app. cbn [map concat]. rewrite app_nil_r.
    destruct op as [s l h f d|s l|s l h]; cbn [run_append enc] in *.
    - unfold append_data in Hr. destruct (write_all_vectored _ _ _ _) as [file [[]|e]] eqn:Hw; [|done].
      apply write_all_vectored_Ok in Hw as ->; [|done]. apply pair_eq in Hr as [<- _]. done.
    - unfold append_zero in Hr. specialize (Hb (enc (OpZero s l))). cbn [enc] in Hb.
      destruct (write_all_bytes _ _ _) as [w' [[]|e]]; [|done]. apply pair_eq in Hr as [<- _]. by apply Hb.
    - unfold append_ref in Hr. specialize (Hb (enc (OpRef s l h))). cbn [enc] in Hb.
      destruct (write_all_bytes _ _ _) as [w' [[]|e]]; [|done]. apply pair_eq in Hr as [<- _]. by apply Hb. }
  split; [done|]. rewrite Hf. intros Hsz.
  destruct (run_append_ok _ _ _ _ _ Hs Hsz Hr eq_refl) as [-> _]. split; [done|].
  destruct op as [s l h f d|s l|s l h]; cbn [run_append payload_at] in *.
  - unfold append_data in Hr. cbn [log_of wl_file wl_size] in Hr. destruct (write_all_vectored _ _ _ _) as [file [[]|e]]; [|done].
    apply pair_eq in Hr as [_ [= <-]]. rewrite log_bytes_app, blen_app in Hsz.
    cbn [map concat enc] in Hsz. rewrite app_nil_r, blen_app in Hsz.
    pose proof (blen_nonneg (log_bytes ops)). pose proof (blen_nonneg d).
    pose proof (blen_nonneg (data_header s l h f d)). by unwrap.
  - destruct (append_zero _ _ _ _) as [? [[]|]]; apply pair_eq in Hr as [_ Hr]; [by injection Hr|done].
  - destruct (append_ref _ _ _ _ _) as [? [[]|]]; apply pair_eq in Hr as [_ Hr]; [by injection Hr|done].
Qed.

Lemma run_all_ok steps ops w rs :
  Forall step_ok steps → blen (log_bytes (ops ++ map snd steps)) < U64 →
  run_all (log_of ops) steps = (w, rs) → Forall (λ r, is_ok r = true) rs →
  w = log_of (ops ++ map snd steps) ∧ Forall2 (offset_ok (wl_file w)) (map snd steps) rs.
Proof.
  intros Hs. revert ops w rs. induction Hs as [|[c op] steps Hop _ IH]; intros ops w rs Hsz Hr Hok;
    cbn [run_all map snd] in *.
  - injection Hr as <- <-. rewrite app_nil_r. split; [done|constructor].
  - destruct (run_append c (log_of ops) op) as [w1 r1] eqn:H1.
    destruct (run_all w1 steps) as [w2 rs2] eqn:H2. injection Hr as <- <-.
    apply Forall_cons in Hok as [Hok1 Hok2].
    replace (ops ++ op :: map snd steps) with ((ops ++ [op]) ++ map snd steps) in *
      by by rewrite <-app_assoc.
    assert (blen (log_bytes (ops ++ [op])) < U64) as Hsz1.
    { rewrite log_bytes_app, blen_app in Hsz. pose proof (blen_nonneg (concat (map enc (map snd steps)))). lia. }
    destruct (run_append_ok _ _ _ _ _ Hop Hsz1 H1 Hok1) as [-> Hoff].
    destruct (IH _ _ _ Hsz H2 Hok2) as [-> Hrest]. split; [done|]. constructor; [|done].
    cbn [log_of wl_file]. rewrite log_bytes_app. by apply offset_ok_app.
Qed.

(** C10: Appending round-trips: starting from a new or recovered log, any run of
    successful appends, whatever split the kernel chose for each vectored
    write, leaves a file that scans back to exactly the records appended, in
    order and with nothing truncated; the tracked size is the file's length,
    and every offset an append returned names its payload in the file. *)
Theorem append_scan_roundtrip ops steps w rs :
  Forall op_ok ops → Forall step_ok steps → blen (log_bytes (ops ++ map snd steps)) < U64 →
  run_all (log_of ops) steps = (w, rs) → Forall (λ r, is_ok r = true) rs →
  scan (wl_file w) = Ok (records_from HEADER_LEN (ops ++ map snd steps), wl_size w, wl_file w) ∧
  scan_readonly (wl_file w) = Ok (records_from HEADER_LEN (ops ++ map snd steps), false) ∧
  wl_size w = blen (wl_file w) ∧
  Forall2 (offset_ok (wl_file w)) (map snd steps) rs.
Proof.
  intros Hops Hs Hsz Hr Hok. destruct (run_all_ok _ _ _ _ Hs Hsz Hr Hok) as [-> Hoff].
  assert (Forall op_ok (ops ++ map snd steps)) as Hall.
  { apply Forall_app. split; [done|]. apply Forall_map. eapply Forall_impl; [exact Hs|]. by intros [c op] []. }
  assert (op_ok (OpZero 0 0)) as Hz by done.
  destruct (scan_torn _ _ 0 Hall Hz) as [Hs1 Hs2]; [vm_compute; lia|].
  cbv zeta in Hs1, Hs2. rewrite take_0, app_nil_r in Hs1, Hs2. by split_and!.
Qed.

(** An interrupted vectored write leaves a proper prefix of the record. *)
Lemma write_all_vectored_Err calls file head tail file' e :
  Forall (λ c, ∀ n, c = Ok n → 0 ≤ n) calls →
  write_all_vectored calls file head tail = (file', Err e) →
  ∃ n, (n < length (head ++ tail))%nat ∧ file' = file ++ take n (head ++ tail).
Proof.
  intros Hc. assert (∀ head tail : list Z, ¬ (head = [] ∧ tail = []) → (0 < length (head ++ tail))%nat) as Hne.
  { intros [] [] Hn; simpl; try lia. by destruct Hn. }
  revert file head tail. induction Hc as [|c calls Hn _ IH]; intros file head tail; cbn [write_all_vectored];
    (case_decide as Hd; [done|]); apply Hne in Hd.
  - intros [= <- <-]. exists 0%nat. by rewrite take_0, app_nil_r.
  - assert (file' = file → ∃ n, (n < length (head ++ tail))%nat ∧ file' = file ++ take n (head ++ tail)) as H0.
    { intros ->. exists 0%nat. by rewrite take_0, app_nil_r. }
    destruct c as [n|e']; [|intros [= <- <-]; by apply H0]. specialize (Hn n eq_refl).
    case_decide; [intros [= <- <-]; by apply H0|]. cbv zeta.
    case_decide as Hl; intros (m & Hm & ->)%IH; exists (Z.to_nat n + m)%nat; unfold blen in Hl.
    + cbn [app] in *. rewrite length_drop in Hm. unfold blen in Hm. rewrite length_app. split; [lia|].
      rewrite <-app_assoc. f_equal. rewrite <-take_take_drop. do 2 f_equal.
      rewrite drop_app_ge by lia. unfold blen. f_equal. lia.
    + rewrite length_app, length_drop in Hm. rewrite length_app. split; [lia|].
      rewrite <-app_assoc. f_equal. rewrite <-take_take_drop. do 2 f_equal. by rewrite drop_app_le by lia.
Qed.

(** Whatever the kernel answers, the file only grows. *)
Lemma write_all_vectored_grows calls file head tail :
  blen file ≤ blen (write_all_vectored calls file head tail).1.
Proof.
  revert file head tail. induction calls as [|[n|e] calls IH]; intros file head tail; cbn [write_all_vectored];
    case_decide; try (simpl; lia); [].
  case_decide; [simpl; lia|]. cbv zeta. pose proof (blen_nonneg (take (Z.to_nat n) (head ++ tail))).
  case_decide; (etransitivity; [|apply IH]); rewrite blen_app; lia.
Qed.

Lemma run_append_grows calls w op : blen (wl_file w) ≤ blen (wl_file (run_append calls w op).1).
Proof.
  assert (∀ rec, blen (wl_file w) ≤ blen (wl_file (write_all_bytes calls w rec).1)) as Hb.
  { intros rec. unfold write_all_bytes. pose proof (write_all_vectored_grows calls (wl_file w) rec []).
    by destruct (write_all_vectored _ _ _ _) as [f [[]|e]]. }
  destruct op as [s l h f d|s l|s l h]; cbn [run_append].
  - unfold append_data. pose proof (write_all_vectored_grows calls (wl_file w) (data_header s l h f d) d).
    by destruct (write_all_vectored _ _ _ _) as [file [[]|e]].
  - unfold append_zero. specialize (Hb (ZERO_HASH ++ encode_varint s ++ encode_varint l ++ [ZERO])).
    by destruct (write_all_bytes _ _ _) as [w' r].
  - unfold append_ref. specialize (Hb (h ++ encode_varint s ++ encode_varint l ++ [DEDUP_REF])).
    by destruct (write_all_bytes _ _ _) as [w' r].
Qed.

Lemma records_from_app pos ops op :
  records_from pos (ops ++ [op]) = records_from pos ops ++ [record_of (pos + blen (concat (map enc ops))) op].
Proof.
  revert pos. induction ops as [|o ops IH]; intros pos; cbn [app records_from map concat].
  - unfold blen. simpl. by rewrite Z.add_0_r.
  - by rewrite IH, blen_app, Z.add_assoc.
Qed.

(** An append cut short: the size stays, the file gains a prefix of the record. *)
Lemma run_append_Err calls ops op w e :
  Forall (λ c, ∀ n, c = Ok n → 0 ≤ n) calls →
  run_append calls (log_of ops) op = (w, Err e) →
  ∃ n, (n < length (enc op))%nat ∧
    w = mkWriteLog (log_bytes ops ++ take n (enc op)) (blen (log_bytes ops)).
Proof.
  intros Hc Ha. assert (∀ rec w', write_all_bytes calls (log_of ops) rec = (w', Err e) →
    ∃ n, (n < length rec)%nat ∧ w' = mkWriteLog (log_bytes ops ++ take n rec) (blen (log_bytes ops))) as Hb.
  { intros rec w'. unfold write_all_bytes. cbn [log_of wl_file wl_size].
    destruct (write_all_vectored _ _ _ _) as [file [[]|e']] eqn:Hw; [done|].
    intros H. apply pair_eq in H as [<- _].
    apply write_all_vectored_Err in Hw as (n & Hn & ->); [|done]. rewrite app_nil_r in *. by eexists. }
  destruct op as [s l h f d|s l|s l h]; cbn [run_append enc] in *.
  - unfold append_data in Ha. cbn [log_of wl_file wl_size] in Ha.
    destruct (write_all_vectored _ _ _ _) as [file [[]|e']] eqn:Hw; [done|].
    apply pair_eq in Ha as [<- _].
    apply write_all_vectored_Err in Hw as (n & Hn & ->); [|done]. by eexists.
  - unfold append_zero in Ha. destruct (write_all_bytes _ _ _) as [w' [[]|e']] eqn:Hw; [done|].
    apply pair_eq in Ha as [<- [= ->]]. by apply Hb.
  - unfold append_ref in Ha. destruct (write_all_bytes _ _ _) as [w' [[]|e']] eqn:Hw; [done|].
    apply pair_eq in Ha as [<- [= ->]]. by apply Hb.
Qed.

(** C29: A failed append is recoverable: when the write of a record stops part
    way (an error, or a crash between two kernel writes), the tracked size
    still ends at the last whole record and the next scan returns the records
    appended before it and truncates the file back to them. *)
Theorem append_failure_recovers ops calls op w e :
  Forall op_ok ops → step_ok (calls, op) →
  run_append calls (log_of ops) op = (w, Err e) →
  wl_size w = wl_size (log_of ops) ∧
  scan (wl_file w) = Ok (records_from HEADER_LEN ops, wl_size w, wl_file (log_of ops)).
Proof.
  intros Hops [Hop Hc] (n & Hn & ->)%run_append_Err; [|done].
  split; [done|]. by destruct (scan_torn ops op n Hops Hop Hn).
Qed.

(** ** What a scan of arbitrary bytes says *)

Definition record_sound (data : list Z) (last_good : Z) (r : LogRecord) : Prop :=
  match r with
  | RData h _ l f off d =>
      l < U32 ∧ wal_contains f DEDUP_REF = false ∧ wal_contains f ZERO = false ∧
      at_pos data off d ∧ off + blen d ≤ last_good ∧
      ∃ plain, plaintext f d = Some plain ∧ blake3 plain = h
  | RRef _ _ l | RZero _ l => l < U32
  end.

Lemma read_varint32_Ok d pos v pos' :
  0 ≤ pos → read_varint32 d pos = Ok (v, pos') → v < U32 ∧ pos ≤ pos'.
Proof.
  intros Hpos Hr. pose proof (reader_forward _ _ _ _ _ Hpos Hr) as [Hle _]. split; [|done].
  apply bind_Ok in Hr as (a & q & _ & Hr). cbn beta in Hr. case_decide; [|done].
  by injection Hr as <- _.
Qed.

Lemma parse_record_sound data pos r pos' :
  0 ≤ pos → parse_record data pos = Ok (r, pos') → record_sound data pos' r.
Proof.
  intros Hpos Hr. unfold parse_record in Hr.
  apply bind_Ok in Hr as (h & q1 & Hh & Hr). cbn beta in Hr.
  apply (reader_forward (read_fixed 32)) in Hh as [? _]; [|done].
  apply bind_Ok in Hr as (s & q2 & Hs & Hr). cbn beta in Hr.
  apply (reader_forward read_varint) in Hs as [? _]; [|lia].
  apply bind_Ok in Hr as (l & q3 & Hl & Hr). cbn beta in Hr.
  apply read_varint32_Ok in Hl as [Hl ?]; [|lia].
  apply bind_Ok in Hr as (f & q4 & Hf & Hr). cbn beta in Hr.
  apply (reader_forward read_u8) in Hf as [? _]; [|lia].
  destruct (wal_contains f DEDUP_REF) eqn:Hd; [by injection Hr as <- _|].
  destruct (wal_contains f ZERO) eqn:Hz; [by injection Hr as <- _|].
  apply bind_Ok in Hr as (n & q5 & Hn & Hr). cbn beta in Hr.
  apply read_varint32_Ok in Hn as [_ ?]; [|lia].
  apply bind_Ok in Hr as (off & q6 & Ho & Hr). cbn beta in Hr. injection Ho as <- <-.
  apply bind_Ok in Hr as (d & q7 & Hp & Hr). cbn beta in Hr.
  apply read_fixed_at_inv in Hp as (Hat & Hlen & ->); [|lia].
  destruct (plaintext f d) as [plain|] eqn:Hpl; [|done]. case_decide as Hb; [done|].
  injection Hr as <- <-. cbn [record_sound].
  split_and!; try done; [unfold blen; lia|by exists plain].
Qed.

Lemma record_sound_mono data lg lg' r : lg ≤ lg' → record_sound data lg r → record_sound data lg' r.
Proof. destruct r; simpl; [|done..]. intros ? (? & ? & ? & ? & ? & ?). split_and!; try done. lia. Qed.

Lemma scan_loop_sound fuel data pos acc :
  0 ≤ pos ≤ blen data → blen data - pos ≤ Z.of_nat fuel →
  scan_loop fuel data pos acc = Err InvalidData ∨
  ∃ rs lg, scan_loop fuel data pos acc = Ok (acc ++ rs, lg, bool_decide (lg < blen data)) ∧
    pos ≤ lg ≤ blen data ∧ Forall (record_sound data lg) rs ∧
    ∀ fuel', lg - pos ≤ Z.of_nat fuel' →
      scan_loop fuel' (take (Z.to_nat lg) data) pos acc = Ok (acc ++ rs, lg, false).
Proof.
  revert pos acc. induction fuel as [|fuel IH]; intros pos acc Hpos Hf; cbn [scan_loop].
  all: destruct (decide (pos < blen data)) as [Hlt|Hge].
  - lia.
  - right. exists [], pos. rewrite bool_decide_eq_false_2, app_nil_r by done.
    split_and!; [done|lia|lia|constructor|]. intros fuel' _.
    assert (blen (take (Z.to_nat pos) data) ≤ pos) by (unfold blen; rewrite length_take; lia).
    destruct fuel'; cbn [scan_loop]; by rewrite decide_False by lia.
  - destruct (parse_record data pos) as [[r pos']|e] eqn:Hr.
    + pose proof (parse_record_advances _ _ _ _ (proj1 Hpos) Hr) as Hadv.
      pose proof (parse_record_sound _ _ _ _ (proj1 Hpos) Hr) as Hsr.
      destruct (IH pos' (acc ++ [r])) as [->|(rs & lg & -> & Hlg & Hrs & Hre)]; [lia|lia|by left|right].
      exists (r :: rs), lg. rewrite <-app_assoc in *. split_and!; [done|lia|lia| |].
      * apply Forall_cons. split; [by eapply record_sound_mono; [|exact Hsr]; lia|done].
      * intros fuel' Hf'. destruct fuel' as [|fuel']; [lia|]. cbn [scan_loop].
        assert (blen (take (Z.to_nat lg) data) = lg) as Htl.
        { unfold blen in *. rewrite length_take. lia. }
        rewrite decide_True by lia.
        rewrite (reader_prefix parse_record (take (Z.to_nat lg) data) (drop (Z.to_nat lg) data) pos r pos')
          by (rewrite ?take_drop; first [lia|done]).
        apply Hre. lia.
    + destruct (reader_err parse_record _ _ _ Hr) as [->| ->]; [|by left]. right.
      exists [], pos. rewrite bool_decide_eq_true_2, app_nil_r by done.
      split_and!; [done|lia|lia|constructor|]. intros fuel' _.
      assert (blen (take (Z.to_nat pos) data) ≤ pos) by (unfold blen; rewrite length_take; lia).
      destruct fuel'; cbn [scan_loop]; by rewrite decide_False by lia.
  - right. exists [], pos. rewrite bool_decide_eq_false_2, app_nil_r by done.
    split_and!; [done|lia|lia|constructor|]. intros fuel' _.
    assert (blen (take (Z.to_nat pos) data) ≤ pos) by (unfold blen; rewrite length_take; lia).
    destruct fuel'; cbn [scan_loop]; by rewrite decide_False by lia.
Qed.

(** C32: Recovery of any file is sound and settles: a scan either reports
    corruption or returns the file cut to a record boundary, where every
    recovered data record's payload sits whole in the kept bytes at its offset
    and its plaintext hashes to the record's hash; scanning the kept file again
    changes nothing, and the read-only scan sees the same records, with a
    partial tail exactly when bytes were cut. The scan loop always ends. *)
Theorem scan_sound data :
  (scan data = Err InvalidData ∧ scan_readonly data = Err InvalidData) ∨
  ∃ rs lg, scan data = Ok (rs, lg, take (Z.to_nat lg) data) ∧
    HEADER_LEN ≤ lg ≤ blen data ∧
    Forall (record_sound data lg) rs ∧
    scan (take (Z.to_nat lg) data) = Ok (rs, lg, take (Z.to_nat lg) data) ∧
    scan_readonly data = Ok (rs, bool_decide (lg < blen data)).
Proof.
  unfold scan, scan_readonly. destruct (check_magic data) eqn:Hm; [|by left].
  unfold check_magic in Hm. rewrite bool_decide_eq_true in Hm.
  assert (8 ≤ blen data) as H8.
  { apply (f_equal length) in Hm. rewrite length_take in Hm. change (length MAGIC) with 8%nat in Hm.
    unfold blen. lia. }
  destruct (scan_loop_sound (length data) data HEADER_LEN []) as [->|(rs & lg & -> & Hlg & Hrs & Hre)];
    [unfold HEADER_LEN; lia|unfold blen, HEADER_LEN; lia|by left|right]. cbn [app] in *.
  exists rs, lg. unfold HEADER_LEN in *. unfold mbind, io_bind.
  assert ((if bool_decide (lg < blen data) then take (Z.to_nat lg) data else data) =
          take (Z.to_nat lg) data) as ->.
  { case_bool_decide; [done|]. rewrite take_ge; [done|]. unfold blen in *. lia. }
  split_and!; [done|lia|lia|done| |done].
  unfold check_magic. rewrite take_take, Nat.min_l by lia. rewrite Hm, bool_decide_eq_true_2 by done.
  rewrite Hre; [done|]. unfold blen in *. rewrite length_take. lia.
Qed.
End spec.

(** ** A concrete log *)

Definition toy_op : append_op :=
  OpData 5 1 (@blake3 toy_blake3 [1; 2; 3]) 0 [1; 2; 3].

(** An uncompressed payload under its own hash. *)
Lemma toy_data_ok s l d :
  0 ≤ s < U64 → 0 ≤ l < U32 → blen d < U32 →
  @op_ok toy_blake3 toy_lz4 (OpData s l (@blake3 toy_blake3 d) 0 d).
Proof.
  intros Hs Hl Hd. split; [exact Hs|]. split; [exact Hl|]. split; [apply blake3_length|].
  split; [exact Hd|]. split; [reflexivity|]. split; [reflexivity|].
  exists d. split; [reflexivity|reflexivity].
Qed.

Lemma toy_op_ok : @op_ok toy_blake3 toy_lz4 toy_op.
Proof. apply toy_data_ok; vm_compute; first [reflexivity|split; [discriminate|reflexivity]]. Qed.

Lemma toy_ops_ok : Forall (@op_ok toy_blake3 toy_lz4) [toy_op; OpZero 9 4].
Proof. apply Forall_cons_2; [apply toy_op_ok|]. by apply Forall_singleton. Qed.

Lemma append_scan_roundtrip_witness : ∃ w rs,
  run_all (log_of []) [([Ok 20; Ok 60], toy_op); ([Ok 90], OpZero 9 4)] = (w, rs) ∧
  @scan toy_blake3 toy_lz4 (wl_file w) =
    Ok (records_from HEADER_LEN [toy_op; OpZero 9 4], wl_size w, wl_file w).
Proof.
  destruct (run_all (log_of []) [([Ok 20; Ok 60], toy_op); ([Ok 90], OpZero 9 4)]) as [w rs] eqn:E.
  exists w, rs. split; [reflexivity|].
  apply (@append_scan_roundtrip toy_blake3 toy_lz4 [] [([Ok 20; Ok 60], toy_op); ([Ok 90], OpZero 9 4)] w rs).
  - constructor.
  - apply Forall_cons_2; [split; [apply toy_op_ok|]|apply Forall_singleton; split; [done|apply Forall_singleton; intros n [= <-]; lia]].
    apply Forall_cons_2; [|apply Forall_singleton]; intros n [= <-]; lia.
  - vm_compute. reflexivity.
  - exact E.
  - vm_compute in E. injection E as _ <-. repeat constructor.
Defined.

Lemma append_failure_recovers_witness : ∃ w,
  run_append [Ok 20; Err OtherError] (log_of [toy_op]) toy_op = (w, Err OtherError) ∧
  wl_size w = wl_size (log_of [toy_op]) ∧
  @scan toy_blake3 toy_lz4 (wl_file w) =
    Ok (records_from HEADER_LEN [toy_op], wl_size w, wl_file (log_of [toy_op])).
Proof.
  destruct (run_append [Ok 20; Err OtherError] (log_of [toy_op]) toy_op) as [w r] eqn:E.
  assert (r = Err OtherError) as -> by (vm_compute in E; by injection E as _ <-).
  exists w. split; [reflexivity|].
  apply (@append_failure_recovers toy_blake3 toy_lz4 [toy_op] [Ok 20; Err OtherError] toy_op w OtherError).
  - apply Forall_singleton, toy_op_ok.
  - split; [apply toy_op_ok|]. apply Forall_cons_2; [|apply Forall_singleton]; [intros n [= <-]; lia|done].
  - exact E.
Defined.

(** The recovery above is the next open's.  An append that follows a failed one
    in the same process lands after the torn bytes while its offset is computed
    from the tracked size, so the offset does not name the payload, and no scan
    accepts the log again. *)
Lemma append_after_failure_misplaced :
  let '(w1, r1) := run_append [Ok 20; Err OtherError] (log_of [toy_op]) toy_op in
  let '(w2, r2) := run_append [Ok 90] w1 toy_op in
  r1 = Err OtherError ∧ is_ok r2 = true ∧
  wl_size w2 ≠ blen (wl_file w2) ∧
  match r2 with Ok off => take 3 (drop (Z.to_nat off) (wl_file w2)) ≠ [1; 2; 3] | Err _ => False end ∧
  @scan toy_blake3 toy_lz4 (wl_file w2) = Err InvalidData.
Proof. vm_compute. repeat split; discriminate. Qed.
