(* ===== verification/Codec.v ===== *)
(** * Body codecs (elide-core/src/volume/compress.rs, Codec in segment.rs)

    What the WAL and a segment body store of an extent: plaintext, an lz4 block
    under its length, one zstd frame, or a chunk table and a frame per
    chunk. *)

From stdpp Require Import base list.
From S2P Require Import Prelude Bytes Segment WriteLog ChunkTree.
Open Scope Z_scope.

(** ** The compressors *)

(** [lz4_flex::compress_prepend_size] writes a u32 length before the block;
    [decompress_into] decodes a block into at most [n] bytes. *)
Class Lz4Codec `{HL : Lz4Block} := {
  compress_prepend_size : list Z → list Z;
  decompress_into : list Z → Z → option (list Z);
  compress_decompress : ∀ bs, blen bs < U32 →
    decompress_size_prepended (compress_prepend_size bs) = Some bs;
  compress_prefix : ∀ bs, blen bs < U32 → take 4 (compress_prepend_size bs) = le_bytes 4 (blen bs);
  compress_into : ∀ bs, blen bs < U32 →
    decompress_into (drop 4 (compress_prepend_size bs)) (blen bs) = Some bs;
  decompress_into_fits : ∀ bs n out, decompress_into bs n = Some out → 0 ≤ n → blen out ≤ n
}.

(** [zstd::bulk]: a frame declares the length it decodes to and stays within
    [ZSTD_COMPRESSBOUND]. *)
Class ZstdBulk := {
  zstd_compress : list Z → io (list Z);
  get_frame_content_size : list Z → io (option Z);
  decompress_to_buffer : list Z → Z → io (list Z);
  zstd_frame_size : ∀ bs f, zstd_compress bs = Ok f → get_frame_content_size f = Ok (Some (blen bs));
  zstd_roundtrip : ∀ bs f, zstd_compress bs = Ok f → decompress_to_buffer f (blen bs) = Ok bs;
  zstd_bound : ∀ bs f, zstd_compress bs = Ok f → blen f ≤ blen bs + blen bs / 256 + 64
}.

Definition MIN_COMPRESSION_RATIO_NUM : Z := 3.
Definition MIN_COMPRESSION_RATIO_DEN : Z := 2.
Definition MAX_EXTENT_PLAINTEXT : Z := 256 * 1024 * 1024.

Definition from_wal_flags (flags : Z) : Codec := if wal_contains flags COMPRESSED then Lz4 else CodecNone.

Section codec.
Context {HB : Blake3} {HL : Lz4Block} {HC : Lz4Codec}.

Definition maybe_compress (data : list Z) : option (list Z) :=
  let compressed := compress_prepend_size data in
  if bool_decide (blen data ≤ blen compressed * MIN_COMPRESSION_RATIO_NUM / MIN_COMPRESSION_RATIO_DEN)
  then None else Some compressed.

Context {HT : Blake3Tree} {HZ : ZstdBulk}.

(** ** Decoding *)

(** [Codec::plain_len]. *)
Definition declared_len (c : Codec) (stored : list Z) : io Z :=
  match c with
  | CodecNone => Ok (blen stored)
  | Lz4 => if decide (blen stored < 4) then Err OtherError else Ok (from_le (take 4 stored))
  | Zstd => n ← get_frame_content_size stored;
            match n with Some n => Ok n | None => Err OtherError end
  | ZstdChunked => '(n, _) ← peek_header stored; Ok n
  end.

Definition codec_plain_len (c : Codec) (stored : list Z) : io Z :=
  declared ← declared_len c stored;
  if decide (MAX_EXTENT_PLAINTEXT < declared) then Err OtherError else Ok declared.

(** One frame into a destination of [n] bytes. *)
Definition zstd_decode_into (stored : list Z) (n : Z) : io (list Z) :=
  written ← decompress_to_buffer stored n;
  if decide (blen written ≠ n) then Err OtherError else Ok written.

(** [out] with the bytes of the range [r] overwritten. *)
Definition overwrite (out : list Z) (r : Z * Z) (bytes : list Z) : list Z :=
  take (Z.to_nat r.1) out ++ bytes ++ drop (Z.to_nat r.2) out.

Fixpoint decode_chunks (table : ChunkTable) (stored : list Z) (indices : list Z) (out : list Z)
    : io (list Z) :=
  match indices with
  | [] => Ok out
  | index :: indices =>
      span ← chunk_span table index;
      match get_range stored span with
      | None => Err OtherError
      | Some frame =>
          let plain := range (size table) index (plain_len table) in
          bytes ← zstd_decode_into frame (plain.2 - plain.1);
          decode_chunks table stored indices (overwrite out plain bytes)
      end
  end.

(** [decode_into]; an lz4 block may fill less than the destination. *)
Definition decode_into (c : Codec) (stored out : list Z) : io (list Z) :=
  match c with
  | CodecNone => if decide (blen stored ≠ blen out) then Err OtherError else Ok stored
  | Lz4 =>
      if decide (blen stored < 4) then Err OtherError
      else match decompress_into (drop 4 stored) (blen out) with
           | None => Err OtherError
           | Some bytes => Ok (bytes ++ drop (length bytes) out)
           end
  | ZstdChunked =>
      table ← parse stored;
      if decide (blen out ≠ plain_len table) then Err OtherError
      else decode_chunks table stored (seqZ 0 (blen (table_cvs table))) out
  | Zstd => zstd_decode_into stored (blen out)
  end.

Definition decode (c : Codec) (stored : list Z) : io (list Z) :=
  if decide (c = CodecNone) then Ok stored
  else n ← codec_plain_len c stored; decode_into c stored (replicate (Z.to_nat n) 0).

(** ** Encoding *)

Definition zstd_frame (plain : list Z) : io (list Z) := zstd_compress plain.

(** The frames of the chunks [indices] of [plain]. *)
Fixpoint compress_chunks (s : ChunkSize) (plain : list Z) (indices : list Z) : io (list (list Z)) :=
  match indices with
  | [] => Ok []
  | index :: indices =>
      frame ← zstd_frame (bytes_in plain (range s index (blen plain)));
      frames ← compress_chunks s plain indices;
      Ok (frame :: frames)
  end.

Definition compress_chunked (plain : list Z) : io (list Z) :=
  let s := WRITE_CHUNK_SIZE in
  frames ← compress_chunks s plain (seqZ 0 (count s (blen plain)));
  let table := mkChunkTable s (blen plain) (map (λ f, as_u32 (blen f)) frames) (cvs s plain) in
  Ok (encode table ++ concat frames).

Definition compress_body (plain : list Z) (journal : bool) : io (option (Codec * list Z)) :=
  if journal then Ok ((λ c, (Lz4, c)) <$> maybe_compress plain)
  else if decide (cs_bytes WRITE_CHUNK_SIZE < blen plain) then
    chunked ← compress_chunked plain; Ok (Some (ZstdChunked, chunked))
  else
    form ← zstd_frame plain;
    if decide (blen plain ≤ blen form) then Ok None
    else
      match maybe_compress plain with
      | Some lz4_form =>
          if would_be_inline (blen form) && would_be_inline (blen lz4_form)
          then Ok (Some (Lz4, lz4_form)) else Ok (Some (Zstd, form))
      | None => Ok (Some (Zstd, form))
      end.
End codec.

(** ** Concrete compressors, for evaluating the model *)

Definition rle_payload (bs : list Z) : list Z :=
  match bs with
  | [] => [0]
  | b :: _ => if forallb (Z.eqb b) bs then [1; b] else 0 :: bs
  end.

Definition rle_into (payload : list Z) (n : Z) : option (list Z) :=
  match payload with
  | 0 :: rest => if decide (blen rest ≤ n) then Some rest else None
  | [1; b] => Some (replicate (Z.to_nat n) b)
  | _ => None
  end.

Lemma rle_roundtrip bs : rle_into (rle_payload bs) (blen bs) = Some bs.
Proof.
  destruct bs as [|b bs]; [done|]. unfold rle_payload.
  destruct (forallb (Z.eqb b) (b :: bs)) eqn:E; [|by cbn [rle_into]; rewrite decide_True].
  change (Some (replicate (Z.to_nat (blen (b :: bs))) b) = Some (b :: bs)). f_equal.
  unfold blen. rewrite Nat2Z.id. rewrite forallb_forall in E. apply replicate_as_elem_of.
  split; [done|]. intros x Hx%list_elem_of_In. by apply E, Z.eqb_eq in Hx.
Qed.

Definition rle_lz4 : Lz4Block :=
  {| decompress_size_prepended bs := rle_into (drop 4 bs) (from_le (take 4 bs)) |}.

Lemma le_prefix n z (x : list Z) : take n (le_bytes n z ++ x) = le_bytes n z ∧ drop n (le_bytes n z ++ x) = x.
Proof. split; [apply take_app_length'|apply drop_app_length']; by rewrite length_le_bytes. Qed.

Definition rle_codec : @Lz4Codec rle_lz4.
Proof.
  refine {| compress_prepend_size bs := le_bytes 4 (blen bs) ++ rle_payload bs; decompress_into := rle_into |}.
  1-3: intros bs Hb; pose proof (blen_nonneg bs); destruct (le_prefix 4 (blen bs) (rle_payload bs)) as [Ht Hd].
  - unfold decompress_size_prepended, rle_lz4. rewrite Ht, Hd, from_le_bytes by (simpl; lia).
    apply rle_roundtrip.
  - exact Ht.
  - rewrite Hd. apply rle_roundtrip.
  - intros [|x bs] n out; [done|]. destruct x as [|[]|]; try done; cbn [rle_into].
    + case_decide; [|done]. by intros [= <-].
    + destruct bs as [|b []]; [done| |done]. intros [= <-] ?. unfold blen. rewrite length_replicate. lia.
Defined.

Definition toy_zstd : ZstdBulk.
Proof.
  refine {| zstd_compress bs := Ok (blen bs :: rle_payload bs);
            get_frame_content_size f := match f with n :: _ => Ok (Some n) | [] => Err OtherError end;
            decompress_to_buffer f n :=
              match f with
              | m :: p => match rle_into p m with Some bs => Ok bs | None => Err OtherError end
              | [] => Err OtherError
              end |}.
  - by intros bs f [= <-].
  - intros bs f [= <-]. by rewrite rle_roundtrip.
  - intros bs f [= <-]. rewrite blen_cons. pose proof (blen_nonneg bs).
    pose proof (Z.div_pos (blen bs) 256 ltac:(done) ltac:(lia)). unfold rle_payload.
    destruct bs as [|b bs]; [vm_compute; discriminate|]. destruct (forallb _ _); rewrite ?blen_cons in *;
      unfold blen in *; simpl length in *; lia.
Defined.
