(* ===== verification/CodecSpec.v ===== *)
(** * Bodies round-trip through their codec

    Whatever form [compress_body] picks decodes back to the plaintext, and a
    chunked form can be read a chunk at a time, each chunk verified against the
    extent's hash. *)

From stdpp Require Import base list.
From S2P Require Import Prelude Bytes Segment WriteLog ChunkTree ChunkTreeSpec Codec.
Open Scope Z_scope.

Section spec.
Context {HB : Blake3} {HT : Blake3Tree} {HL : Lz4Block} {HC : Lz4Codec} {HZ : ZstdBulk}.

Lemma maybe_compress_decodes plain c :
  maybe_compress plain = Some c → blen plain ≤ MAX_EXTENT_PLAINTEXT → decode Lz4 c = Ok plain.
Proof.
  unfold maybe_compress. cbv zeta. case_bool_decide; [done|]. intros [= <-] Hp.
  unfold MAX_EXTENT_PLAINTEXT in Hp. pose proof (blen_nonneg plain) as H0.
  pose proof (compress_prefix plain ltac:(lia)) as Ht. pose proof (compress_into plain ltac:(lia)) as Hd.
  assert (4 ≤ blen (compress_prepend_size plain)) as H4.
  { apply (f_equal blen) in Ht. rewrite blen_take, blen_le_bytes in Ht. lia. }
  unfold decode. rewrite decide_False by done. unfold codec_plain_len, declared_len.
  rewrite decide_False by lia. rewrite Ht, from_le_bytes by (simpl; lia). unfold mbind, io_bind.
  rewrite decide_False by (unfold MAX_EXTENT_PLAINTEXT; lia).
  unfold decode_into. rewrite decide_False by lia.
  assert (blen (replicate (Z.to_nat (blen plain)) 0) = blen plain) as -> by (unfold blen; rewrite length_replicate; lia).
  rewrite Hd, drop_ge, app_nil_r by (rewrite length_replicate; unfold blen; lia). done.
Qed.

Lemma zstd_decodes plain f n :
  zstd_compress plain = Ok f → n = blen plain → zstd_decode_into f n = Ok plain.
Proof.
  intros Hf ->. unfold zstd_decode_into. rewrite (zstd_roundtrip _ _ Hf). unfold mbind, io_bind.
  by rewrite decide_False by auto.
Qed.

Lemma zstd_frame_decodes plain f :
  zstd_compress plain = Ok f → blen plain ≤ MAX_EXTENT_PLAINTEXT → decode Zstd f = Ok plain.
Proof.
  intros Hf Hp. unfold decode. rewrite decide_False by done. unfold codec_plain_len, declared_len.
  rewrite (zstd_frame_size _ _ Hf). unfold mbind, io_bind. rewrite decide_False by lia.
  unfold decode_into. apply zstd_decodes; [done|]. unfold blen. rewrite length_replicate. lia.
Qed.

(** ** The chunked form *)

Lemma compress_chunks_spec s plain idx frames :
  compress_chunks s plain idx = Ok frames →
  Forall2 (λ i f, zstd_compress (bytes_in plain (range s i (blen plain))) = Ok f) idx frames.
Proof.
  revert frames. induction idx as [|i idx IH]; intros frames; cbn [compress_chunks]; [intros [= <-]; constructor|].
  unfold mbind, io_bind, zstd_frame. destruct (zstd_compress _) as [f|] eqn:Hf; [|done].
  destruct (compress_chunks s plain idx) as [fs|] eqn:Hr; [|done]. intros [= <-]. constructor; [done|by apply IH].
Qed.

Lemma compress_chunks_Err s plain idx e :
  compress_chunks s plain idx = Err e → ∃ piece, zstd_compress piece = Err e.
Proof.
  induction idx as [|i idx IH]; cbn [compress_chunks]; [done|].
  unfold mbind, io_bind, zstd_frame. destruct (zstd_compress _) as [f|] eqn:Hf; [|by intros [= <-]; eauto].
  destruct (compress_chunks s plain idx); [done|]. intros [= ->]. by apply IH.
Qed.

(** A table over its frames, and the plaintext they came from. *)
Record chunked (s : ChunkSize) (plain : list Z) (frames : list (list Z)) (t : ChunkTable) : Prop := {
  ch_size : size_ok s;
  ch_plain : 0 < blen plain ≤ MAX_EXTENT_PLAINTEXT;
  ch_frames : Forall2 (λ i f, zstd_compress (bytes_in plain (range s i (blen plain))) = Ok f)
                (seqZ 0 (count s (blen plain))) frames;
  ch_table : t = mkChunkTable s (blen plain) (map blen frames) (cvs s plain)
}.

Section one.
Context s plain frames t (Hc : chunked s plain frames t).

Lemma frames_len : blen frames = count s (blen plain).
Proof.
  destruct Hc as [Hs [Hp _] Hf _]. apply Forall2_length in Hf. rewrite length_seqZ in Hf.
  pose proof (count_nonneg s (blen plain) Hs ltac:(lia)). unfold blen in *. lia.
Qed.

Lemma chunk_bytes_len i :
  0 ≤ i < count s (blen plain) → blen (bytes_in plain (range s i (blen plain))) = chunk_len s i (blen plain).
Proof.
  intros Hi. destruct Hc as [Hs [Hp _] _ _]. destruct (chunk_in_bounds s i (blen plain) Hs Hp Hi) as (? & ? & ? & _).
  unfold bytes_in, chunk_len, range in *. cbn [fst snd] in *. rewrite blen_take, blen_drop. lia.
Qed.

Lemma frame_at i :
  0 ≤ i < count s (blen plain) → ∃ f, frames !! Z.to_nat i = Some f ∧
    zstd_compress (bytes_in plain (range s i (blen plain))) = Ok f ∧
    zstd_decode_into f (chunk_len s i (blen plain)) = Ok (bytes_in plain (range s i (blen plain))).
Proof.
  intros Hi. pose proof (ch_frames _ _ _ _ Hc) as Hf.
  assert (seqZ 0 (count s (blen plain)) !! Z.to_nat i = Some i) as Hsq.
  { rewrite lookup_seqZ_lt by lia. f_equal. lia. }
  destruct (Forall2_lookup_l _ _ _ _ _ Hf Hsq) as (f & Hlk & Hz). exists f. split; [done|]. split; [done|].
  apply zstd_decodes; [done|]. by rewrite chunk_bytes_len.
Qed.

Lemma frame_width : Forall (λ f, 0 ≤ blen f < U32) frames.
Proof.
  apply Forall_lookup_2. intros j f Hj. pose proof (blen_nonneg f). split; [done|].
  assert (0 ≤ Z.of_nat j < count s (blen plain)) as Hi.
  { pose proof frames_len. apply lookup_lt_Some in Hj. unfold blen in *. lia. }
  destruct (frame_at (Z.of_nat j) Hi) as (f' & Hf' & Hz & _). rewrite Nat2Z.id, Hj in Hf'. injection Hf' as <-.
  apply zstd_bound in Hz. rewrite chunk_bytes_len in Hz by done. destruct Hc as [Hs [Hp Hp2] _ _].
  destruct (chunk_in_bounds s _ (blen plain) Hs Hp Hi) as (? & ? & ? & _). unfold MAX_EXTENT_PLAINTEXT in Hp2.
  pose proof (Z.div_le_mono (chunk_len s (Z.of_nat j) (blen plain)) 268435456 256 ltac:(lia) ltac:(lia)).
  change (268435456 / 256) with 1048576 in *. lia.
Qed.

Lemma chunked_table_ok : table_ok t.
Proof.
  pose proof frames_len as Hl. pose proof frame_width as Hw. destruct Hc as [Hs [Hp Hp2] _ ->].
  unfold MAX_EXTENT_PLAINTEXT in Hp2. split; cbn [size plain_len stored_lengths table_cvs]; [done|lia| | | |].
  - rewrite <-Hl. unfold blen. by rewrite length_map.
  - rewrite cvs_whole, cvs_at_length by done. pose proof (count_nonneg s (blen plain) Hs ltac:(lia)). lia.
  - by apply Forall_map.
  - unfold cvs. apply Forall_map, Forall_true. intros i. apply chunk_cv_length.
Qed.

Lemma span_at i :
  0 ≤ i < count s (blen plain) →
  ∃ span f, chunk_span t i = Ok span ∧ frames !! Z.to_nat i = Some f ∧
    get_range (encode t ++ concat frames) span = Some f.
Proof.
  intros Hi. destruct (frame_at i Hi) as (f & Hf & _).
  pose proof (concat_at (encode t) frames [] _ _ Hf) as Hat. rewrite app_nil_r in Hat.
  apply bytes_in_at in Hat as [_ Hg]. rewrite encode_len in Hg by apply chunked_table_ok.
  unfold chunk_span. rewrite (ch_table _ _ _ _ Hc) in *. cbn [stored_lengths size plain_len] in *.
  change (map blen frames) with (blen <$> frames). rewrite list_lookup_fmap, Hf. cbn [fmap option_fmap option_map].
  assert (foldr Z.add 0 (take (Z.to_nat i) (blen <$> frames)) = blen (concat (take (Z.to_nat i) frames))) as ->.
  { rewrite <-fmap_take. generalize (take (Z.to_nat i) frames) as l. induction l as [|x l IH]; [done|].
    cbn [fmap list_fmap foldr concat]. by rewrite IH, blen_app. }
  eexists _, f. split; [done|]. split; [done|]. exact Hg.
Qed.

(** The decoder's loop, from chunk [k] on. *)
Lemma decode_chunks_from m k out :
  blen out = blen plain → 0 ≤ k → k + Z.of_nat m = count s (blen plain) →
  decode_chunks t (encode t ++ concat frames) (seqZ k (Z.of_nat m))
    (take (Z.to_nat (k * cs_bytes s)) plain ++ drop (Z.to_nat (k * cs_bytes s)) out) = Ok plain.
Proof.
  intros Hout. pose proof (ch_size _ _ _ _ Hc) as Hs. pose proof (cs_bytes_bounds s Hs) as Hb.
  pose proof (ch_plain _ _ _ _ Hc) as [Hp _]. pose proof (count_bounds s _ Hs Hp) as Hcnt.
  revert k. induction m as [|m IH]; intros k Hk Hm.
  - assert (k = count s (blen plain)) as -> by lia. change (Z.of_nat 0) with 0. cbn [seqZ Z.to_nat seq fmap list_fmap decode_chunks].
    rewrite take_ge, drop_ge, app_nil_r by (unfold blen in *; lia). done.
  - rewrite seqZ_cons by lia. cbn [decode_chunks].
    destruct (span_at k) as (span & f & Hsp & Hf & Hg); [lia|].
    destruct (frame_at k) as (f' & Hf' & _ & Hd); [lia|]. assert (f' = f) as -> by congruence.
    rewrite Hsp. unfold mbind, io_bind. rewrite Hg.
    assert (size t = s ∧ plain_len t = blen plain) as [-> ->] by (by rewrite (ch_table _ _ _ _ Hc)).
    unfold chunk_len in Hd. rewrite Hd.
    destruct (chunk_in_bounds s k (blen plain) Hs Hp ltac:(lia)) as (Hk0 & Hl & Hle & Hlast).
    replace (Z.pred (Z.of_nat (S m))) with (Z.of_nat m) by lia. replace (Z.succ k) with (k + 1) by lia.
    rewrite <-(IH (k + 1)) at 1 by lia. f_equal.
    set (b := cs_bytes s) in *. set (r2 := (range s k (blen plain)).2).
    assert (r2 = Z.min ((k + 1) * b) (blen plain)) as Hr2 by (subst r2; unfold range; cbn [snd]; fold b; f_equal; lia).
    unfold overwrite. fold r2. change ((range s k (blen plain)).1) with (k * b).
    rewrite take_app_length' by (rewrite length_take; unfold blen in *; lia).
    rewrite drop_app_ge by (rewrite length_take; unfold blen in *; lia). rewrite drop_drop, app_assoc. f_equal.
    + unfold bytes_in. change ((range s k (blen plain)).1) with (k * b). fold r2.
      rewrite take_take_drop. destruct (decide ((k + 1) * b ≤ blen plain)).
      * f_equal. lia.
      * rewrite !take_ge by (unfold blen in *; lia). done.
    + rewrite length_take. destruct (decide ((k + 1) * b ≤ blen plain)).
      * f_equal. unfold blen in *. lia.
      * rewrite !drop_ge by (unfold blen in *; lia). done.
Qed.

Lemma chunked_decodes : decode ZstdChunked (encode t ++ concat frames) = Ok plain.
Proof.
  pose proof chunked_table_ok as Ht. pose proof (parse_encode t (concat frames) Ht) as Hparse.
  pose proof (ch_size _ _ _ _ Hc) as Hs. pose proof (ch_plain _ _ _ _ Hc) as [Hp Hp2].
  assert (plain_len t = blen plain ∧ table_cvs t = cvs s plain) as [Hpl Hcv] by (by rewrite (ch_table _ _ _ _ Hc)).
  assert (∃ sz, peek_header (encode t ++ concat frames) = Ok (blen plain, sz)) as [sz Hpk].
  { unfold parse in Hparse. destruct (peek_header _) as [[n sz]|]; [|done]. exists sz.
    unfold mbind, io_bind in Hparse. destruct (get_range _ _); [|done].
    injection Hparse as Hparse. rewrite <-Hparse in Hpl. cbn [plain_len] in Hpl. by rewrite Hpl. }
  unfold decode. rewrite decide_False by done. unfold codec_plain_len, declared_len. rewrite Hpk.
  unfold mbind, io_bind. rewrite decide_False by lia. unfold decode_into. rewrite Hparse.
  unfold mbind, io_bind. set (out := replicate _ _).
  assert (blen out = blen plain) as Hout by (subst out; unfold blen; rewrite length_replicate; lia).
  rewrite Hpl, decide_False by (rewrite Hout; auto). rewrite Hcv, cvs_whole, cvs_at_length by done.
  pose proof (count_nonneg s (blen plain) Hs ltac:(lia)).
  pose proof (decode_chunks_from (Z.to_nat (count s (blen plain))) 0 out Hout ltac:(lia) ltac:(lia)) as Hd.
  rewrite Z2Nat.id in Hd by done. rewrite Z.max_r by done. exact Hd.
Qed.
End one.

Lemma compress_chunked_spec plain stored :
  0 < blen plain ≤ MAX_EXTENT_PLAINTEXT → compress_chunked plain = Ok stored →
  ∃ frames t, chunked WRITE_CHUNK_SIZE plain frames t ∧ stored = encode t ++ concat frames.
Proof.
  intros Hp. unfold compress_chunked. unfold mbind, io_bind.
  destruct (compress_chunks _ _ _) as [frames|] eqn:Hf; [|done]. intros [= <-].
  set (t := mkChunkTable WRITE_CHUNK_SIZE (blen plain) (map blen frames) (cvs WRITE_CHUNK_SIZE plain)).
  assert (chunked WRITE_CHUNK_SIZE plain frames t) as Hc.
  { split; [split; vm_compute; discriminate|done|by apply compress_chunks_spec|done]. }
  exists frames, t. split; [done|].
  assert (map (λ f, as_u32 (blen f)) frames = map blen frames) as ->; [|done].
  pose proof (frame_width _ _ _ _ Hc) as Hw. clear -Hw.
  induction Hw as [|f l Hf _ IH]; [done|]. cbn [map]. by rewrite IH, as_u32_id.
Qed.

(** Whichever form the encoder picks, it decodes to what it was given. *)
Lemma compress_body_decodes plain journal c stored :
  0 < blen plain ≤ MAX_EXTENT_PLAINTEXT → compress_body plain journal = Ok (Some (c, stored)) → decode c stored = Ok plain.
Proof.
  intros Hp. unfold compress_body. destruct journal.
  { destruct (maybe_compress plain) as [lz|] eqn:Hm; cbn [fmap option_fmap option_map]; [|done].
    intros [= <- <-]. apply maybe_compress_decodes; [done|lia]. }
  case_decide.
  - intros (st & Hcc & [= <- <-])%io_bind_Ok. destruct (compress_chunked_spec plain st Hp Hcc) as (frames & t & Hc & ->).
    by apply (chunked_decodes _ _ _ _ Hc).
  - intros (form & Hz & Hr)%io_bind_Ok. unfold zstd_frame in Hz. case_decide; [done|].
    pose proof (zstd_frame_decodes plain form Hz (proj2 Hp)).
    destruct (maybe_compress plain) as [lz|] eqn:Hm; [destruct (_ && _)|]; injection Hr as <- <-; [|done|done].
    apply maybe_compress_decodes; [done|lia].
Qed.
End spec.

(** C12: A segment body round-trips: whichever form the compressor picks decodes to
    the plaintext it was given, within the plaintext cap. An extent over one
    chunk is always chunked, and the chunked payload can be read one chunk at a
    time: its table parses, carries the extent's chaining values, and each
    chunk's span holds a frame that decodes to that chunk of the plaintext.
    Only a failure of the compressor itself is an error. *)
Theorem body_roundtrip {HB : Blake3} {HT : Blake3Tree} {HL : Lz4Block} {HC : Lz4Codec} {HZ : ZstdBulk}
    plain journal :
  0 < blen plain ≤ MAX_EXTENT_PLAINTEXT →
  match compress_body plain journal with
  | Err e => ∃ piece, zstd_compress piece = Err e
  | Ok None => decode CodecNone plain = Ok plain ∧
      (journal = false → blen plain ≤ cs_bytes WRITE_CHUNK_SIZE)
  | Ok (Some (c, stored)) =>
      decode c stored = Ok plain ∧
      (c = ZstdChunked ↔ journal = false ∧ cs_bytes WRITE_CHUNK_SIZE < blen plain) ∧
      (c = ZstdChunked → ∃ t, parse stored = Ok t ∧ size t = WRITE_CHUNK_SIZE ∧
         plain_len t = blen plain ∧ table_cvs t = cvs WRITE_CHUNK_SIZE plain ∧
         ∀ i, 0 ≤ i < count (size t) (blen plain) → ∃ span frame,
           chunk_span t i = Ok span ∧ get_range stored span = Some frame ∧
           zstd_decode_into frame (chunk_len (size t) i (blen plain)) =
             Ok (bytes_in plain (range (size t) i (blen plain))))
  end.
Proof.
  intros Hp. unfold compress_body. destruct journal.
  { destruct (maybe_compress plain) as [c|] eqn:Hm; cbn [fmap option_fmap option_map]; [|done].
    split; [apply maybe_compress_decodes; [done|lia]|]. split; [split; [done|by intros [? _]]|done]. }
  case_decide as Hbig.
  - unfold mbind, io_bind. destruct (compress_chunked plain) as [stored|e] eqn:Hcc.
    + destruct (compress_chunked_spec plain stored Hp Hcc) as (frames & t & Hc & ->).
      split; [by apply (chunked_decodes _ _ _ _ Hc)|]. split; [done|]. intros _. exists t.
      split; [by eapply parse_encode, chunked_table_ok|].
      destruct Hc as [Hs Hp' Hf ->] eqn:E. cbn [size plain_len table_cvs]. split_and!; [done..|].
      intros i Hi. destruct (span_at _ _ _ _ Hc i Hi) as (span & f & H1 & H2 & H3).
      destruct (frame_at _ _ _ _ Hc i Hi) as (f' & H2' & _ & H4). exists span, f.
      split; [done|]. split; [done|]. congruence.
    + unfold compress_chunked, mbind, io_bind in Hcc.
      destruct (compress_chunks _ _ _) eqn:Hf; [done|]. injection Hcc as <-. by eapply compress_chunks_Err.
  - unfold mbind, io_bind, zstd_frame. destruct (zstd_compress plain) as [form|e] eqn:Hz; [|by exists plain].
    case_decide; [split; [done|lia]|].
    pose proof (zstd_frame_decodes plain form Hz (proj2 Hp)) as Hzd.
    destruct (maybe_compress plain) as [lz|] eqn:Hm; [destruct (_ && _)|].
    + split; [apply maybe_compress_decodes; [done|lia]|]. split; [|done]. split; [done|lia].
    + split; [done|]. split; [|done]. split; [done|lia].
    + split; [done|]. split; [|done]. split; [done|lia].
Qed.

Lemma body_roundtrip_witness : ∃ stored,
  @compress_body toy_blake3 rle_lz4 rle_codec toy_tree toy_zstd (replicate (Z.to_nat 131073) 7) false =
    Ok (Some (ZstdChunked, stored)) ∧
  @decode rle_lz4 rle_codec toy_zstd ZstdChunked stored = Ok (replicate (Z.to_nat 131073) 7).
Proof.
  assert (blen (replicate (Z.to_nat 131073) 7) = 131073) as Hl by (unfold blen; rewrite length_replicate; lia).
  pose proof (@body_roundtrip toy_blake3 toy_tree rle_lz4 rle_codec toy_zstd (replicate (Z.to_nat 131073) 7) false) as H.
  rewrite Hl in H. specialize (H ltac:(unfold MAX_EXTENT_PLAINTEXT; lia)).
  destruct (compress_body _ _) as [[[c stored]|]|e].
  - destruct H as (H1 & [_ H2] & _). rewrite H2 in * by (split; [reflexivity|change (cs_bytes WRITE_CHUNK_SIZE) with 131072; lia]).
    exists stored. split; [reflexivity|exact H1].
  - destruct H as [_ H]. specialize (H eq_refl). change (cs_bytes WRITE_CHUNK_SIZE) with 131072 in H. lia.
  - destruct H as [piece H]. discriminate H.
Defined.
