(* ===== verification/SegmentCodec.v ===== *)
(** * The segment file format (elide-core/src/segment.rs)

    Writing a segment (offset assignment, index section, signed header, inline,
    body and delta sections), parsing its index, and the checks that tie bytes
    back to the signed index.  A file is its byte string. *)

From stdpp Require Import base gmap list.
From S2P Require Import Prelude Bytes Sketch Segment.
Open Scope Z_scope.

(** ** Constants *)

(** [b"ELIDSEG\x0a"]. *)
Definition MAGIC : list Z := [69; 76; 73; 68; 83; 69; 71; 10].
Definition HEADER_LEN : Z := 100.
Definition HEADER_SIGNED_PREFIX : Z := 36.
Definition INPUT_ULID_LEN : Z := 16.
Definition IDX_ENTRY_LEN : Z := 64.
Definition DELTA_OPTION_LEN : Z := 61.
Definition DELTA_TABLE_ENTRY_HEADER : Z := 5.
Definition STORED_HASH_LEN : nat := 16.
Definition SKETCH_PREFIX_LEN : Z := 4.
Definition SKETCH_RECORD_LEN : Z := 4 + SKETCH_LEN.
Definition STORED_HASH_PREFIX_LEN : Z := 4.
Definition STORED_HASH_RECORD_LEN : Z := 4 + Z.of_nat STORED_HASH_LEN.

(** ** Section lengths *)

Definition count_some {A} (f : SegmentEntry → option A) (entries : list SegmentEntry) : Z :=
  as_u32 (blen (filter (λ e, is_Some (f e)) entries)).

Definition sketch_section_length (entries : list SegmentEntry) : Z :=
  u32_add SKETCH_PREFIX_LEN (u32_mul (count_some e_sketch entries) SKETCH_RECORD_LEN).

Definition stored_hash_section_length (entries : list SegmentEntry) : Z :=
  u32_add STORED_HASH_PREFIX_LEN (u32_mul (count_some e_stored_hash entries) STORED_HASH_RECORD_LEN).

Definition delta_record_length (e : SegmentEntry) : Z :=
  u32_add DELTA_TABLE_ENTRY_HEADER (u32_mul (as_u32 (blen (e_delta_options e))) DELTA_OPTION_LEN).

Definition entries_region_length (entries : list SegmentEntry) : Z :=
  let base := u32_mul (as_u32 (blen entries)) IDX_ENTRY_LEN in
  let delta_table :=
    foldl (λ acc e, u32_add acc (delta_record_length e)) 0
      (filter (λ e, e_delta_options e ≠ []) entries) in
  u32_add (u32_add (u32_add base (sketch_section_length entries))
             (stored_hash_section_length entries)) delta_table.

Definition inputs_region_length (inputs : list Ulid) : Z := as_u32 (blen inputs * INPUT_ULID_LEN).

(** ** Entry updates *)

Definition with_offset (o : Z) (e : SegmentEntry) : SegmentEntry :=
  mkSegmentEntry (e_hash e) (e_start_lba e) (e_lba_length e) (e_codec e) (e_kind e) o
    (e_stored_length e) (e_inline e) (e_delta_options e) (e_journal e) (e_sketch e) (e_stored_hash e).
Definition with_inline_bytes (i : option (list Z)) (e : SegmentEntry) : SegmentEntry :=
  mkSegmentEntry (e_hash e) (e_start_lba e) (e_lba_length e) (e_codec e) (e_kind e)
    (e_stored_offset e) (e_stored_length e) i (e_delta_options e) (e_journal e) (e_sketch e)
    (e_stored_hash e).
Definition with_delta_options (o : list DeltaOption) (e : SegmentEntry) : SegmentEntry :=
  mkSegmentEntry (e_hash e) (e_start_lba e) (e_lba_length e) (e_codec e) (e_kind e)
    (e_stored_offset e) (e_stored_length e) (e_inline e) o (e_journal e) (e_sketch e)
    (e_stored_hash e).
Definition with_sketch (s : option (list Z)) (e : SegmentEntry) : SegmentEntry :=
  mkSegmentEntry (e_hash e) (e_start_lba e) (e_lba_length e) (e_codec e) (e_kind e)
    (e_stored_offset e) (e_stored_length e) (e_inline e) (e_delta_options e) (e_journal e) s
    (e_stored_hash e).
Definition with_stored_hash (t : option (list Z)) (e : SegmentEntry) : SegmentEntry :=
  mkSegmentEntry (e_hash e) (e_start_lba e) (e_lba_length e) (e_codec e) (e_kind e)
    (e_stored_offset e) (e_stored_length e) (e_inline e) (e_delta_options e) (e_journal e)
    (e_sketch e) t.

(** ** Offsets *)

(** One entry of [assign_offsets]: the inline and body cursors move. *)
Definition assign_offset (st : list SegmentEntry * Z * Z) (e : SegmentEntry)
    : list SegmentEntry * Z * Z :=
  let '(out, inline_cursor, body_cursor) := st in
  match e_kind e with
  | Inline | CanonicalInline =>
      (out ++ [with_offset inline_cursor e], u64_add inline_cursor (e_stored_length e), body_cursor)
  | Data | CanonicalData =>
      (out ++ [with_offset body_cursor e], inline_cursor, u64_add body_cursor (e_stored_length e))
  | DedupRef | Zero | Delta | CanonicalDelta => (out ++ [e], inline_cursor, body_cursor)
  end.

(** The entries with their offsets, and the region and section lengths. *)
Definition assign_offsets (entries : list SegmentEntry) : list SegmentEntry * (Z * Z * Z) :=
  let '(out, inline_cursor, body_cursor) := foldl assign_offset ([], 0, 0) entries in
  (out, (entries_region_length out, as_u32 inline_cursor, body_cursor)).

(** ** Flags *)

Definition FLAG_INLINE : Z := 1.
Definition FLAG_HAS_DELTAS : Z := 2.
Definition FLAG_DEDUP_REF : Z := 8.
Definition FLAG_ZERO : Z := 16.
Definition FLAG_DELTA : Z := 32.
Definition FLAG_CANONICAL_ONLY : Z := 64.
Definition FLAG_JOURNAL : Z := 128.

Definition flag_contains (flags bit : Z) : bool := bool_decide (Z.land flags bit = bit).

Definition entry_flags (kind : EntryKind) (has_deltas journal : bool) : Z :=
  let flags := if is_canonical_only kind then FLAG_CANONICAL_ONLY else 0 in
  let flags := match kind with
               | Inline | CanonicalInline => Z.lor flags FLAG_INLINE
               | DedupRef => Z.lor flags FLAG_DEDUP_REF
               | Zero => Z.lor flags FLAG_ZERO
               | Delta | CanonicalDelta => Z.lor flags FLAG_DELTA
               | Data | CanonicalData => flags
               end in
  let flags := if has_deltas then Z.lor flags FLAG_HAS_DELTAS else flags in
  if journal then Z.lor flags FLAG_JOURNAL else flags.

Definition kind_of_flags (flags : Z) : EntryKind :=
  let canonical_only := flag_contains flags FLAG_CANONICAL_ONLY in
  let inline := flag_contains flags FLAG_INLINE in
  if flag_contains flags FLAG_ZERO then Zero
  else if flag_contains flags FLAG_DEDUP_REF then DedupRef
  else if flag_contains flags FLAG_DELTA then if canonical_only then CanonicalDelta else Delta
  else if canonical_only && inline then CanonicalInline
  else if canonical_only then CanonicalData
  else if inline then Inline
  else Data.

(** ** Writing the index section *)

Definition write_index_entry (e : SegmentEntry) : list Z :=
  e_hash e ++ le_bytes 8 (e_start_lba e) ++ le_bytes 4 (e_lba_length e) ++
  [entry_flags (e_kind e) (negb (bool_decide (e_delta_options e = []))) (e_journal e)] ++
  le_bytes 8 (e_stored_offset e) ++ le_bytes 4 (e_stored_length e) ++
  [codec_to_u8 (e_codec e)] ++ replicate 6 0.

Definition sketch_record (i : Z) (s : list Z) : list Z :=
  le_bytes 4 (as_u32 i) ++ concat (map (le_bytes 4) s).
Definition stored_hash_record (i : Z) (tag : list Z) : list Z := le_bytes 4 (as_u32 i) ++ tag.

(** [iter().enumerate()] keeping the entries [f] selects. *)
Definition indexed {A} (f : SegmentEntry → option A) (entries : list SegmentEntry) : list (Z * A) :=
  omap (λ p : nat * SegmentEntry, (λ a, (Z.of_nat p.1, a)) <$> f p.2) (imap pair entries).

Definition write_sketch_section (entries : list SegmentEntry) : list Z :=
  le_bytes 4 (u32_mul (count_some e_sketch entries) SKETCH_RECORD_LEN) ++
  concat (map (λ '(i, s), sketch_record i s) (indexed e_sketch entries)).

Definition write_stored_hash_section (entries : list SegmentEntry) : list Z :=
  le_bytes 4 (u32_mul (count_some e_stored_hash entries) STORED_HASH_RECORD_LEN) ++
  concat (map (λ '(i, t), stored_hash_record i t) (indexed e_stored_hash entries)).

Definition write_delta_option (o : DeltaOption) : list Z :=
  source_hash o ++ [0] ++ le_bytes 8 (delta_offset o) ++ le_bytes 4 (delta_length o) ++ delta_hash o.

Definition delta_record (i : Z) (opts : list DeltaOption) : list Z :=
  le_bytes 4 (as_u32 i) ++ [blen opts mod 256] ++ concat (map write_delta_option opts).

Definition deltas_of (e : SegmentEntry) : option (list DeltaOption) :=
  match e_delta_options e with [] => None | opts => Some opts end.

Definition write_delta_table (entries : list SegmentEntry) : list Z :=
  concat (map (λ '(i, opts), delta_record i opts) (indexed deltas_of entries)).

(** ** Headers *)

Record SegmentHeader := mkHeader {
  h_magic : list Z;
  h_entry_count : Z;    (* u32 *)
  h_index_length : Z;   (* u32 *)
  h_inline_length : Z;  (* u32 *)
  h_body_length : Z;    (* u64 *)
  h_delta_length : Z;   (* u32 *)
  h_inputs_length : Z;  (* u32 *)
  h_signature : list Z
}.

Definition header_prefix (h : SegmentHeader) : list Z :=
  h_magic h ++ le_bytes 4 (h_entry_count h) ++ le_bytes 4 (h_index_length h) ++
  le_bytes 4 (h_inline_length h) ++ le_bytes 8 (h_body_length h) ++
  le_bytes 4 (h_delta_length h) ++ le_bytes 4 (h_inputs_length h).

Definition header_bytes (h : SegmentHeader) : list Z := header_prefix h ++ h_signature h.

(** [SegmentHeader::read_from_bytes], as a cursor read. *)
Definition read_header : parser SegmentHeader :=
  magic ← read_fixed 8; entry_count ← read_u32; index_length ← read_u32;
  inline_length ← read_u32; body_length ← read_u64; delta_length ← read_u32;
  inputs_length ← read_u32; signature ← read_fixed 64;
  mret (mkHeader magic entry_count index_length inline_length body_length delta_length
          inputs_length signature).

(** ** Parsing the index section *)

Definition has_body (k : EntryKind) : bool := has_body_bytes k.

Definition validate_entry_bounds (kind : EntryKind) (stored_offset stored_length body_length
    inline_length : Z) : io unit :=
  match kind with
  | Data | CanonicalData =>
      if decide (U64 ≤ stored_offset + stored_length) then Err OtherError
      else if decide (body_length < stored_offset + stored_length) then Err OtherError
      else Ok ()
  | Inline | CanonicalInline =>
      if decide (U64 ≤ stored_offset + stored_length) then Err OtherError
      else if decide (inline_length < stored_offset + stored_length) then Err OtherError
      else Ok ()
  | DedupRef | Zero | Delta | CanonicalDelta =>
      if decide (stored_offset ≠ 0 ∨ stored_length ≠ 0) then Err OtherError else Ok ()
  end.

Definition lift_io {A} (r : io A) : parser A :=
  λ _ pos, match r with Ok a => Ok (a, pos) | Err e => Err e end.

(** One base entry of pass 1. *)
Definition parse_base_entry (body_length inline_length : Z) (i : Z)
    (st : list SegmentEntry * bool) : parser (list SegmentEntry * bool) :=
  h ← read_fixed 32; start_lba ← read_u64; lba_length ← read_u32; flags ← read_u8;
  let has_deltas := st.2 || flag_contains flags FLAG_HAS_DELTAS in
  let kind := kind_of_flags flags in
  stored_offset ← read_u64; stored_length ← read_u32;
  codec_byte ← read_u8; codec ← lift_io (codec_from_u8 codec_byte); _ ← read_fixed 6;
  _ ← lift_io (validate_entry_bounds kind stored_offset stored_length body_length inline_length);
  mret (st.1 ++ [mkSegmentEntry h start_lba lba_length codec kind stored_offset stored_length None []
                   (flag_contains flags FLAG_JOURNAL) None None], has_deltas).

(** A section's length prefix: the end of its records, checked. *)
Definition check_section (record_len section_len : Z) : parser Z := λ data pos,
  if decide (U64 ≤ pos + section_len) then Err OtherError
  else if decide (blen data < pos + section_len) then Err OtherError
  else if decide (section_len mod record_len ≠ 0) then Err OtherError
  else Ok (pos + section_len, pos).

Definition section_end (record_len : Z) : parser Z :=
  section_len ← read_u32; check_section record_len section_len.

Fixpoint read_u32s (n : nat) : parser (list Z) :=
  match n with
  | O => mret []
  | Datatypes.S n => z ← read_u32; zs ← read_u32s n; mret (z :: zs)
  end.

Definition parse_sketch_record (entries : list SegmentEntry) : parser (list SegmentEntry) :=
  entry_index ← read_u32; sf ← read_u32s NUM_FEATURES;
  if decide (blen entries ≤ entry_index) then fail OtherError
  else mret (alter (with_sketch (Some sf)) (Z.to_nat entry_index) entries).

Definition parse_sketch_section (entries : list SegmentEntry) : parser (list SegmentEntry) :=
  record_end ← section_end SKETCH_RECORD_LEN; while_lt record_end parse_sketch_record entries.

Definition parse_stored_hash_record (entries : list SegmentEntry) : parser (list SegmentEntry) :=
  entry_index ← read_u32; tag ← read_fixed STORED_HASH_LEN;
  if decide (blen entries ≤ entry_index) then fail OtherError
  else mret (alter (with_stored_hash (Some tag)) (Z.to_nat entry_index) entries).

(** Every body-bearing entry carries a tag. *)
Definition tagged (entries : list SegmentEntry) : bool :=
  forallb (λ e, negb (has_body_bytes (e_kind e) && bool_decide (e_stored_hash e = None))) entries.

Definition parse_stored_hash_section (entries : list SegmentEntry) : parser (list SegmentEntry) :=
  record_end ← section_end STORED_HASH_RECORD_LEN;
  entries ← while_lt record_end parse_stored_hash_record entries;
  if tagged entries then mret entries else fail InvalidData.

Definition parse_delta_option (delta_section_length : Z) (_ : Z) (opts : list DeltaOption)
    : parser (list DeltaOption) :=
  source ← read_fixed 32; _ ← read_u8; offset ← read_u64; len ← read_u32;
  tag ← read_fixed STORED_HASH_LEN;
  if decide (U64 ≤ offset + len) then fail OtherError
  else if decide (0 < delta_section_length ∧ delta_section_length < offset + len) then fail OtherError
  else mret (opts ++ [mkDeltaOption source offset len tag]).

Definition parse_delta_record (delta_section_length : Z) (entries : list SegmentEntry)
    : parser (list SegmentEntry) :=
  entry_index ← read_u32; delta_count ← read_u8;
  if decide (blen entries ≤ entry_index) then fail OtherError
  else
    opts ← for_range (Z.to_nat delta_count) 0 (parse_delta_option delta_section_length) [];
    mret (alter (with_delta_options opts) (Z.to_nat entry_index) entries).

(** [while pos < data.len()]. *)
Definition parse_delta_table (entries : list SegmentEntry) (delta_section_length : Z)
    : parser (list SegmentEntry) :=
  λ data pos, while_lt (blen data) (parse_delta_record delta_section_length) entries data pos.

Section codec.
Context `{Blake3} `{UlidBytes}.

Fixpoint parse_inputs (fuel : nat) (data : list Z) (pos : Z) : io (list Ulid) :=
  if decide (pos < blen data) then
    match fuel with
    | O => Err OtherError
    | Datatypes.S fuel =>
        match read_fixed 16 data pos with
        | Ok (bytes, pos) => rest ← parse_inputs fuel data pos; Ok (ulid_from_bytes bytes :: rest)
        | Err e => Err e
        end
    end
  else Ok [].

Definition parse_index_section (data : list Z) (entry_count inputs_length body_length inline_length
    delta_length : Z) : io (list SegmentEntry * list Ulid) :=
  if decide (inputs_length mod INPUT_ULID_LEN ≠ 0) then Err OtherError
  else if decide (blen data < inputs_length) then Err OtherError
  else
    let entries_region_end := blen data - inputs_length in
    let entries_data := take (Z.to_nat entries_region_end) data in
    if decide (blen entries_data < entry_count * IDX_ENTRY_LEN) then Err OtherError
    else
      '(entries, has_deltas, pos) ←
        for_range (Z.to_nat entry_count) 0 (parse_base_entry body_length inline_length) ([], false)
          entries_data 0;
      '(entries, pos) ← parse_sketch_section entries entries_data pos;
      '(entries, pos) ← parse_stored_hash_section entries entries_data pos;
      '(entries, pos) ←
        (if has_deltas && bool_decide (pos < blen entries_data)
         then parse_delta_table entries delta_length entries_data pos
         else Ok (entries, pos));
      let inputs_data := drop (Z.to_nat entries_region_end) data in
      inputs ← parse_inputs (length inputs_data) inputs_data 0;
      Ok (entries, inputs).

(** ** Reading a segment file *)

(** [read_exact_at] on a file. *)
Definition read_exact_at (file : list Z) (off len : Z) : io (list Z) :=
  if decide (blen file < off + len) then Err UnexpectedEof
  else Ok (take (Z.to_nat len) (drop (Z.to_nat off) file)).

(** The body section's offset, the index bytes and the parsed header. *)
Definition read_segment_header (file : list Z) : io (Z * list Z * SegmentHeader) :=
  raw ← read_exact_at file 0 HEADER_LEN;
  '(h, _) ← read_header raw 0;
  if decide (h_magic h ≠ MAGIC) then Err InvalidData
  else
    index_buf ← read_exact_at file HEADER_LEN (h_index_length h);
    Ok (HEADER_LEN + h_index_length h + h_inline_length h, index_buf, h).

Definition parse_with_header (index_buf : list Z) (h : SegmentHeader)
    : io (list SegmentEntry * list Ulid) :=
  parse_index_section index_buf (h_entry_count h) (h_inputs_length h) (h_body_length h)
    (h_inline_length h) (h_delta_length h).

Definition read_segment_index (file : list Z) : io (Z * list SegmentEntry * list Ulid) :=
  '(bss, index_buf, h) ← read_segment_header file;
  '(entries, inputs) ← parse_with_header index_buf h;
  Ok (bss, entries, inputs).

(** The signed message: BLAKE3 over the header prefix and the index section. *)
Definition signing_digest (prefix index_buf : list Z) : list Z := blake3 (prefix ++ index_buf).

Definition UNSIGNED : list Z := replicate 64 0.

Definition read_and_verify_segment_index `{Verifier} (file : list Z)
    : io (Z * list SegmentEntry * list Ulid) :=
  '(bss, index_buf, h) ← read_segment_header file;
  if decide (h_signature h = UNSIGNED) then Err InvalidData
  else if verify_strict (signing_digest (take (Z.to_nat HEADER_SIGNED_PREFIX) file) index_buf)
            (h_signature h) then
    '(entries, inputs) ← parse_with_header index_buf h;
    Ok (bss, entries, inputs)
  else Err InvalidData.

Definition verify_segment_bytes `{Verifier} (file : list Z) : io unit :=
  if decide (blen file < HEADER_LEN) then Err OtherError
  else
    '(h, _) ← read_header (take (Z.to_nat HEADER_LEN) file) 0;
    if decide (h_magic h ≠ MAGIC) then Err InvalidData
    else if decide (blen file < HEADER_LEN + h_index_length h) then Err OtherError
    else if decide (h_signature h = UNSIGNED) then Err InvalidData
    else if verify_strict
              (signing_digest (take (Z.to_nat HEADER_SIGNED_PREFIX) file)
                 (take (Z.to_nat (h_index_length h)) (drop (Z.to_nat HEADER_LEN) file)))
              (h_signature h)
         then Ok () else Err InvalidData.

(** The re-signed bytes, and the length of [0, body_section_start). *)
Definition resign_segment_head `{Signer} (file : list Z) : io (list Z * Z) :=
  if decide (blen file < HEADER_LEN) then Err OtherError
  else
    '(h, _) ← read_header (take (Z.to_nat HEADER_LEN) file) 0;
    if decide (h_magic h ≠ MAGIC) then Err InvalidData
    else if decide (blen file < HEADER_LEN + h_index_length h) then Err OtherError
    else
      let prefix := take (Z.to_nat HEADER_SIGNED_PREFIX) file in
      let index_buf := take (Z.to_nat (h_index_length h)) (drop (Z.to_nat HEADER_LEN) file) in
      Ok (prefix ++ sign (signing_digest prefix index_buf) ++ drop (Z.to_nat HEADER_LEN) file,
          HEADER_LEN + h_index_length h + h_inline_length h).

Definition read_inline_section (file : list Z) : io (list Z) :=
  raw ← read_exact_at file 0 HEADER_LEN;
  '(h, _) ← read_header raw 0;
  if decide (h_inline_length h = 0) then Ok []
  else read_exact_at file (HEADER_LEN + h_index_length h) (h_inline_length h).

(** [read_segment_layout]: the section lengths that locate any section. *)
Record SegmentLayoutInfo := mkLayout {
  sl_body_section_start : Z; sl_inline_length : Z; sl_body_length : Z; sl_delta_length : Z
}.

Definition read_segment_layout (file : list Z) : io SegmentLayoutInfo :=
  '(bss, _, h) ← read_segment_header file;
  Ok (mkLayout bss (h_inline_length h) (h_body_length h) (h_delta_length h)).

(** ** Tags *)

Definition stored_hash (stored : list Z) : list Z := take STORED_HASH_LEN (blake3 stored).

Definition verify_delta_blob_hash (o : DeltaOption) (blob : list Z) : io unit :=
  if decide (stored_hash blob = delta_hash o) then Ok () else Err InvalidData.

Definition verify_stored_hash (e : SegmentEntry) (stored : list Z) : io unit :=
  if negb (has_body_bytes (e_kind e)) then Ok ()
  else match e_stored_hash e with
       | None => Err InvalidData
       | Some declared => if decide (stored_hash stored = declared) then Ok () else Err InvalidData
       end.

Definition verify_plaintext_hash (e : SegmentEntry) (plain : list Z) : io unit :=
  if negb (has_body_bytes (e_kind e)) then Ok ()
  else if decide (blake3 plain = e_hash e) then Ok () else Err InvalidData.

(** ** Bodies *)

Definition populate_inline_bodies (entries : list SegmentEntry) (inline_bytes : list Z)
    : io (list SegmentEntry) :=
  mapM (λ e,
    if bool_decide (e_stored_length e = 0) || negb (is_inline (e_kind e)) then Ok e
    else
      let stop := e_stored_offset e + e_stored_length e in
      if decide (U64 ≤ stop) then Err InvalidData
      else if decide (blen inline_bytes < stop) then Err InvalidData
      else Ok (with_inline_bytes
                 (Some (take (Z.to_nat (e_stored_length e))
                          (drop (Z.to_nat (e_stored_offset e)) inline_bytes))) e)) entries.

Definition read_body_section_bodies (file : list Z) (body_section_start : Z)
    (entries : list SegmentEntry) : io (list PendingEntry) :=
  mapM (λ e,
    if bool_decide (0 < e_stored_length e) && is_data (e_kind e) then
      buf ← read_exact_at file (body_section_start + e_stored_offset e) (e_stored_length e);
      Ok (mkPendingEntry e (Some buf))
    else Ok (mkPendingEntry e None)) entries.

Definition read_extent_bodies (file : list Z) (body_section_start : Z)
    (entries : list SegmentEntry) (inline_bytes : list Z) : io (list PendingEntry) :=
  entries ← populate_inline_bodies entries inline_bytes;
  read_body_section_bodies file body_section_start entries.

(** ** Writing a segment *)

Definition index_section (entries : list SegmentEntry) (inputs : list Ulid) : list Z :=
  concat (map write_index_entry entries) ++ write_sketch_section entries ++
  write_stored_hash_section entries ++ write_delta_table entries ++
  concat (map ulid_to_bytes inputs).

(** A pending entry carries exactly the bytes its kind stores. *)
Definition check_pending (p : PendingEntry) : bool :=
  let has := bool_decide (is_Some (pe_body p)) in
  let wants := is_data (e_kind (pe_entry p)) in
  eqb has wants && negb (is_inline (e_kind (pe_entry p)) && bool_decide (e_inline (pe_entry p) = None)).

(** Whether the write sketches this entry. *)
Definition wants_sketch (sketch : bool) (e : SegmentEntry) : bool :=
  sketch && bool_decide (e_sketch e = None) && negb (e_journal e) &&
  bool_decide (e_delta_options e = []) && is_data (e_kind e).

(** The entry with its sketch ([decode] is the codec's plaintext) and tag. *)
Definition prepare_entry (decode : Codec → list Z → io (list Z)) (sketch : bool) (p : PendingEntry)
    : SegmentEntry :=
  let e := pe_entry p in
  let e := match wants_sketch sketch e, pe_body p with
           | true, Some body => match decode (e_codec e) body with
                                | Ok raw => with_sketch (compute raw) e
                                | Err _ => e
                                end
           | _, _ => e
           end in
  match e_kind e with
  | Data | CanonicalData => with_stored_hash (stored_hash <$> pe_body p) e
  | Inline | CanonicalInline => with_stored_hash (stored_hash <$> e_inline e) e
  | DedupRef | Zero | Delta | CanonicalDelta => with_stored_hash None e
  end.

(** The header over given lengths, signed. *)
Definition signed_header `{Signer} (entry_count index_length inline_length body_length delta_length
    inputs_length : Z) (index_buf : list Z) : SegmentHeader :=
  let unsigned := mkHeader MAGIC entry_count index_length inline_length body_length delta_length
                    inputs_length UNSIGNED in
  mkHeader MAGIC entry_count index_length inline_length body_length delta_length inputs_length
    (sign (signing_digest (header_prefix unsigned) index_buf)).

Definition inline_section (entries : list SegmentEntry) : list Z :=
  concat (map (λ e, if is_inline (e_kind e) then default [] (e_inline e) else []) entries).

Definition body_section (bodies : list (option (list Z))) : list Z :=
  concat (map (default []) bodies).

(** The file's bytes, [body_section_start] and the entries with their offsets.
    [set_len] cuts or zero-fills the file to the declared length; the source calls
    it before the last buffer is flushed, which is the same file whenever the
    declared lengths are those of what was written. *)
Definition set_len (file : list Z) (len : Z) : list Z :=
  take (Z.to_nat len) file ++ replicate (Z.to_nat len - length file) 0.

Definition write_segment_full `{Signer} (decode : Codec → list Z → io (list Z))
    (pending : list PendingEntry) (delta_body : list Z) (inputs : list Ulid) (sketch : bool)
    : io (list Z * Z * list SegmentEntry) :=
  if forallb check_pending pending then
    let '(entries, (entries_region, inline_length, body_length)) :=
      assign_offsets (map (prepare_entry decode sketch) pending) in
    let inputs_region := inputs_region_length inputs in
    let index_length := u32_add entries_region inputs_region in
    let body_section_start := HEADER_LEN + index_length + inline_length in
    let index_buf := index_section entries inputs in
    let header := signed_header (as_u32 (blen entries)) index_length inline_length body_length
                    (as_u32 (blen delta_body)) inputs_region index_buf in
    let file := header_bytes header ++ index_buf ++ inline_section entries ++
                body_section (map pe_body pending) ++ delta_body in
    Ok (set_len file (body_section_start + body_length + blen delta_body), body_section_start, entries)
  else Err OtherError.

Definition write_segment `{Signer} decode pending := write_segment_full decode pending [] [] true.
Definition write_segment_with_delta_body `{Signer} decode pending delta_body :=
  write_segment_full decode pending delta_body [] true.
Definition write_gc_segment `{Signer} decode pending inputs :=
  write_segment_full decode pending [] inputs true.

(** ** Attaching deltas *)

Definition attach_deltas (entries : list SegmentEntry) (deltas : list (Z * list DeltaOption))
    : io (list SegmentEntry) :=
  foldl (λ r '(idx, opts),
           entries ← r;
           if decide (blen entries ≤ idx) then Err OtherError
           else Ok (alter (λ e, with_sketch None (with_delta_options opts e)) (Z.to_nat idx) entries))
        (Ok entries) deltas.

(** The destination file's bytes. *)
Definition rewrite_with_deltas `{Signer} (src : list Z) (deltas : list (Z * list DeltaOption))
    (delta_body : list Z) : io (list Z) :=
  raw ← read_exact_at src 0 HEADER_LEN;
  '(h, _) ← read_header raw 0;
  if decide (h_magic h ≠ MAGIC) then Err OtherError
  else
    index_buf ← read_exact_at src HEADER_LEN (h_index_length h);
    '(entries, inputs) ← parse_with_header index_buf h;
    entries ← attach_deltas entries deltas;
    let new_inputs_region := inputs_region_length inputs in
    let new_index_length := u32_add (entries_region_length entries) new_inputs_region in
    let new_index_buf := index_section entries inputs in
    let header := signed_header (h_entry_count h) new_index_length (h_inline_length h)
                    (h_body_length h) (as_u32 (blen delta_body)) new_inputs_region new_index_buf in
    inline_body ← read_exact_at src (HEADER_LEN + h_index_length h)
                    (h_inline_length h + h_body_length h);
    Ok (header_bytes header ++ new_index_buf ++ inline_body ++ delta_body).

(** ** Cache promotion *)

(** The three cache files a promote builds from a segment file: the sparse
    body, the delta section and the presence bitset. *)
Definition splice (dst : list Z) (off : Z) (bytes : list Z) : list Z :=
  take (Z.to_nat off) dst ++ bytes ++ drop (Z.to_nat off + length bytes) dst.

Definition promote_body (src : list Z) (bss body_length : Z) (entries : list SegmentEntry)
    : io (list Z) :=
  foldl (λ r e,
           dst ← r;
           if negb (is_data (e_kind e)) || bool_decide (e_stored_length e = 0) then Ok dst
           else if decide (blen src < bss + e_stored_offset e + e_stored_length e) then Err OtherError
           else Ok (splice dst (e_stored_offset e)
                      (take (Z.to_nat (e_stored_length e))
                         (drop (Z.to_nat (bss + e_stored_offset e)) src))))
        (Ok (replicate (Z.to_nat body_length) 0)) entries.

Definition set_bit (bits : list Z) (i : nat) : list Z :=
  alter (λ b, Z.lor b (Z.shiftl 1 (Z.of_nat (i mod 8)%nat))) (i / 8)%nat bits.

Definition promote_present (entry_count : Z) (entries : list SegmentEntry) : list Z :=
  foldl (λ bits '(i, e), if is_data (e_kind e) then set_bit bits i else bits)
        (replicate (Z.to_nat ((entry_count + 7) / 8)) 0) (imap pair entries).

Definition check_present_bit (bytes : list Z) (entry_idx : Z) : bool :=
  match bytes !! Z.to_nat (entry_idx / 8) with
  | Some b => negb (bool_decide (Z.land b (Z.shiftl 1 (entry_idx mod 8)) = 0))
  | None => false
  end.

Definition promote_to_cache (src : list Z) : io (list Z * option (list Z) * list Z) :=
  raw ← read_exact_at src 0 HEADER_LEN;
  '(h, _) ← read_header raw 0;
  if decide (h_magic h ≠ MAGIC) then Err OtherError
  else
    let bss := HEADER_LEN + h_index_length h + h_inline_length h in
    index_data ← read_exact_at src HEADER_LEN (h_index_length h);
    '(entries, _) ← parse_with_header index_data h;
    body ← promote_body src bss (h_body_length h) entries;
    delta ← (if decide (0 < h_delta_length h) then
               if decide (blen src < bss + h_body_length h + h_delta_length h) then Err OtherError
               else Ok (Some (take (Z.to_nat (h_delta_length h))
                                (drop (Z.to_nat (bss + h_body_length h)) src)))
             else Ok None);
    Ok (body, delta, promote_present (h_entry_count h) entries).
End codec.
