(* ===== verification/SegmentCodecSpec.v ===== *)
(** * Correctness of the segment format

    Round trips of the index section and of a whole file, what a successful
    parse of arbitrary bytes guarantees, and the signature's scope. *)

From stdpp Require Import base gmap list.
From S2P Require Import Prelude Bytes Sketch Segment SegmentCodec.
Open Scope Z_scope.

(** ** Flags *)

Lemma flags_roundtrip k d j :
  kind_of_flags (entry_flags k d j) = k ∧
  flag_contains (entry_flags k d j) FLAG_HAS_DELTAS = d ∧
  flag_contains (entry_flags k d j) FLAG_JOURNAL = j.
Proof. by destruct k, d, j. Qed.

Lemma codec_roundtrip c : codec_from_u8 (codec_to_u8 c) = Ok c.
Proof. by destruct c. Qed.

(** ** Indexed records *)

Definition indexed_from {A} (k : nat) (f : SegmentEntry → option A) (entries : list SegmentEntry)
    : list (Z * A) :=
  omap (λ p : nat * SegmentEntry, (λ a, (Z.of_nat p.1, a)) <$> f p.2)
       (imap (λ i e, ((k + i)%nat, e)) entries).

Lemma indexed_0 {A} (f : SegmentEntry → option A) entries : indexed f entries = indexed_from 0 f entries.
Proof. done. Qed.

Lemma indexed_cons {A} k (f : SegmentEntry → option A) e entries :
  indexed_from k f (e :: entries) =
  match f e with Some a => [(Z.of_nat k, a)] | None => [] end ++ indexed_from (S k) f entries.
Proof.
  unfold indexed_from. cbn [imap]. rewrite Nat.add_0_r.
  assert (imap ((λ i e, ((k + i)%nat, e)) ∘ S) entries = imap (λ i e, ((S k + i)%nat, e)) entries) as Hi.
  { apply imap_ext. intros i x _. simpl. f_equal. lia. }
  cbn [omap list_omap fst snd]. destruct (f e); simpl; by rewrite Hi.
Qed.

Lemma elem_of_indexed {A} k (f : SegmentEntry → option A) entries i a :
  (i, a) ∈ indexed_from k f entries →
  Z.of_nat k ≤ i < Z.of_nat k + blen entries ∧ ∃ e, e ∈ entries ∧ f e = Some a.
Proof.
  revert k. induction entries as [|e entries IH]; intros k.
  { intros Hin. by apply not_elem_of_nil in Hin. }
  rewrite indexed_cons, elem_of_app, blen_cons. intros [Hin|Hin].
  - destruct (f e) as [b|] eqn:Hf; [|by apply not_elem_of_nil in Hin].
    apply list_elem_of_singleton in Hin as [= -> ->]. pose proof (blen_nonneg entries).
    split; [lia|]. exists e. split; [left|done].
  - destruct (IH _ Hin) as (Hr & e' & He' & Hf). split; [lia|]. exists e'. split; [by right|done].
Qed.

Lemma blen_indexed {A} k (f : SegmentEntry → option A) entries :
  blen (indexed_from k f entries) = blen (filter (λ e, is_Some (f e)) entries).
Proof.
  revert k. induction entries as [|e entries IH]; intros k; [done|].
  rewrite indexed_cons, blen_app, IH, filter_cons.
  destruct (f e) as [a|]; case_decide as Hs; try done; try (by destruct Hs; eauto);
    rewrite ?blen_cons; unfold blen; simpl; lia.
Qed.

(** Replaying indexed updates over a list updates it pointwise. *)
Lemma foldl_indexed {A} (f : SegmentEntry → option A) (upd : A → SegmentEntry → SegmentEntry)
    entries pre st :
  length st = length entries →
  foldl (λ st p, alter (upd p.2) (Z.to_nat p.1) st) (pre ++ st)
    (indexed_from (length pre) f entries) =
  pre ++ zip_with (λ e x, match f e with Some a => upd a x | None => x end) entries st.
Proof.
  revert pre st. induction entries as [|e entries IH]; intros pre [|x st] Hl; try done.
  rewrite indexed_cons, foldl_app. cbn [zip_with].
  assert (foldl (λ st p, alter (upd p.2) (Z.to_nat p.1) st) (pre ++ x :: st)
            match f e with Some a => [(Z.of_nat (length pre), a)] | None => [] end =
          (pre ++ [match f e with Some a => upd a x | None => x end]) ++ st) as ->.
  { destruct (f e) as [a|]; simpl; [|by rewrite <-app_assoc]. rewrite Nat2Z.id.
    rewrite alter_app_r_alt, Nat.sub_diag by lia. by rewrite <-app_assoc. }
  replace (S (length pre)) with (length (pre ++ [match f e with Some a => upd a x | None => x end]))
    by (rewrite length_app; simpl; lia).
  rewrite IH by (simpl in Hl; lia). by rewrite <-app_assoc.
Qed.

(** ** Entries the format can carry *)

Definition option_ok (delta_length : Z) (o : DeltaOption) : Prop :=
  length (source_hash o) = 32%nat ∧ 0 ≤ Segment.delta_offset o ∧ 0 ≤ Segment.delta_length o < U32 ∧
  Segment.delta_offset o + Segment.delta_length o < U64 ∧ length (delta_hash o) = 16%nat ∧
  (0 < delta_length → Segment.delta_offset o + Segment.delta_length o ≤ delta_length).

Record entry_ok (body_length inline_length delta_length : Z) (e : SegmentEntry) : Prop := {
  eo_hash : length (e_hash e) = 32%nat;
  eo_start : 0 ≤ e_start_lba e < U64;
  eo_len : 0 ≤ e_lba_length e < U32;
  eo_offset : 0 ≤ e_stored_offset e < U64;
  eo_length : 0 ≤ e_stored_length e < U32;
  eo_bounds : validate_entry_bounds (e_kind e) (e_stored_offset e) (e_stored_length e)
                body_length inline_length = Ok ();
  eo_tagged : has_body_bytes (e_kind e) = true → is_Some (e_stored_hash e);
  eo_tag : ∀ t, e_stored_hash e = Some t → length t = 16%nat;
  eo_sketch : ∀ s, e_sketch e = Some s → sketch_ok s;
  eo_count : blen (e_delta_options e) < 256;
  eo_options : Forall (option_ok delta_length) (e_delta_options e)
}.

(** ** Base entries *)

(** What pass 1 knows of an entry. *)
Definition base_of (e : SegmentEntry) : SegmentEntry :=
  mkSegmentEntry (e_hash e) (e_start_lba e) (e_lba_length e) (e_codec e) (e_kind e)
    (e_stored_offset e) (e_stored_length e) None [] (e_journal e) None None.

Definition has_deltas (e : SegmentEntry) : bool := negb (bool_decide (e_delta_options e = [])).

Lemma blen_write_index_entry bl il dl e : entry_ok bl il dl e → blen (write_index_entry e) = 64.
Proof.
  intros Hok. unfold write_index_entry. rewrite !blen_app, !blen_le_bytes.
  unfold blen. rewrite (eo_hash _ _ _ _ Hok). done.
Qed.

Lemma lift_Ok_bind {A B} (a : A) (f : A → parser B) data pos :
  (lift_io (Ok a) ≫= f) data pos = f a data pos.
Proof. done. Qed.

Ltac read_next lem :=
  lazymatch goal with
  | Hat : at_pos _ _ (_ ++ _) |- _ =>
      let H1 := fresh "Hat" in
      apply at_pos_app in Hat as [H1 Hat]; cbn beta; erewrite bind_run by (apply lem; [exact H1|..]; try done; lia);
      rewrite ?blen_le_bytes in Hat
  end.

Lemma parse_base_entry_at bl il dl e i st data pos :
  entry_ok bl il dl e → 0 ≤ pos → at_pos data pos (write_index_entry e) →
  parse_base_entry bl il i st data pos =
  Ok ((st.1 ++ [base_of e], st.2 || has_deltas e), pos + blen (write_index_entry e)).
Proof.
  intros Hok Hp Hat. rewrite (blen_write_index_entry bl il dl) by done.
  destruct Hok as [Hh Hs Hl Ho Hsl Hb _ _ _ _ _].
  unfold write_index_entry in Hat. unfold parse_base_entry.
  destruct (flags_roundtrip (e_kind e) (has_deltas e) (e_journal e)) as (Hk & Hd & Hj).
  fold (has_deltas e) in Hat.
  apply at_pos_app in Hat as [Hat1 Hat]. cbn beta; erewrite bind_run by (by apply read_fixed_at').
  unfold blen in Hat at 1. rewrite Hh in Hat.
  read_next read_u64_at. read_next read_u32_at.
  apply at_pos_app in Hat as [Hat4 Hat]. cbn beta; erewrite bind_run by (by apply read_u8_at).
  rewrite Hk, Hd, Hj. change (blen [_]) with 1 in Hat.
  read_next read_u64_at. read_next read_u32_at.
  apply at_pos_app in Hat as [Hat7 Hat]. cbn beta; erewrite bind_run by (by apply read_u8_at).
  rewrite codec_roundtrip, lift_Ok_bind.
  change (blen [_]) with 1 in Hat.
  cbn beta. erewrite bind_run by (by apply read_fixed_at').
  rewrite Hb, lift_Ok_bind. unfold mret, parser_ret, base_of. do 2 f_equal. lia.
Qed.

Lemma parse_base_entries bl il dl entries data :
  Forall (entry_ok bl il dl) entries → at_pos data 0 (concat (map write_index_entry entries)) →
  for_range (length entries) 0 (parse_base_entry bl il) ([], false) data 0 =
  Ok ((map base_of entries, existsb has_deltas entries), 64 * blen entries).
Proof.
  intros Hok Hat.
  rewrite (for_range_records (parse_base_entry bl il) write_index_entry
             (λ st e, (st.1 ++ [base_of e], st.2 || has_deltas e)) entries); [|done|done|].
  - assert (∀ st, foldl (λ st e, (st.1 ++ [base_of e], st.2 || has_deltas e)) st entries =
              (st.1 ++ map base_of entries, st.2 || existsb has_deltas entries)) as ->.
    { clear. induction entries as [|e es IH]; intros [l b]; simpl.
      - by rewrite app_nil_r, orb_false_r.
      - rewrite IH. simpl. by rewrite <-app_assoc, orb_assoc. }
    simpl. do 2 f_equal. clear Hat. induction Hok as [|e es He Hes IH]; [done|].
    cbn [map concat]. rewrite blen_app, blen_cons, (blen_write_index_entry bl il dl) by done. lia.
  - rewrite Forall_forall in Hok |- *. intros e He i st pos Hp Hat'.
    apply (parse_base_entry_at bl il dl); [by apply Hok|done|done].
Qed.

(** ** Tables of indexed records *)

Lemma read_u32s_at data pos zs :
  Forall (λ z, 0 ≤ z < U32) zs → at_pos data pos (concat (map (le_bytes 4) zs)) →
  read_u32s (length zs) data pos = Ok (zs, pos + 4 * blen zs).
Proof.
  revert pos. induction zs as [|z zs IH]; intros pos Hz Hat; cbn [length read_u32s].
  { unfold mret, parser_ret, blen. do 2 f_equal. simpl. lia. }
  apply Forall_cons in Hz as [Hz1 Hz]. cbn [map concat] in Hat. apply at_pos_app in Hat as [H1 Hat].
  erewrite bind_run by (by apply read_u32_at). rewrite blen_le_bytes in Hat.
  erewrite bind_run by (by apply IH). unfold mret, parser_ret. rewrite blen_cons.
  do 2 f_equal. lia.
Qed.

Lemma parse_sketch_record_at entries i s data pos :
  0 ≤ i < blen entries → blen entries < U32 → sketch_ok s → at_pos data pos (sketch_record i s) →
  parse_sketch_record entries data pos =
  Ok (alter (with_sketch (Some s)) (Z.to_nat i) entries, pos + 36).
Proof.
  intros Hi Hlen [Hs Hv] Hat. unfold sketch_record in Hat. unwrap_in Hat.
  unfold parse_sketch_record. apply at_pos_app in Hat as [H1 Hat].
  erewrite bind_run by (apply read_u32_at; [done|lia]). rewrite blen_le_bytes in Hat.
  cbn beta. rewrite <-Hs. erewrite bind_run by (by apply read_u32s_at).
  rewrite decide_False by lia. unfold mret, parser_ret, blen. rewrite Hs. do 2 f_equal.
  unfold NUM_FEATURES. lia.
Qed.

Lemma parse_stored_hash_record_at entries i t data pos :
  0 ≤ i < blen entries → blen entries < U32 → length t = 16%nat →
  at_pos data pos (stored_hash_record i t) →
  parse_stored_hash_record entries data pos =
  Ok (alter (with_stored_hash (Some t)) (Z.to_nat i) entries, pos + 20).
Proof.
  intros Hi Hlen Ht Hat. unfold stored_hash_record in Hat. unwrap_in Hat.
  unfold parse_stored_hash_record. apply at_pos_app in Hat as [H1 Hat].
  erewrite bind_run by (apply read_u32_at; [done|lia]). rewrite blen_le_bytes in Hat.
  cbn beta. erewrite bind_run by (by apply read_fixed_at').
  rewrite decide_False by lia. unfold mret, parser_ret, STORED_HASH_LEN. do 2 f_equal. lia.
Qed.

Lemma blen_write_delta_option dl o : option_ok dl o → blen (write_delta_option o) = 61.
Proof.
  intros (Hs & _ & _ & _ & Ht & _). unfold write_delta_option.
  rewrite !blen_app, !blen_le_bytes. unfold blen. rewrite Hs, Ht. done.
Qed.

Lemma parse_delta_option_at dl o i opts data pos :
  option_ok dl o → at_pos data pos (write_delta_option o) →
  parse_delta_option dl i opts data pos = Ok (opts ++ [o], pos + blen (write_delta_option o)).
Proof.
  intros Hok Hat. rewrite (blen_write_delta_option dl) by done.
  destruct Hok as (Hs & Ho & Hl & Hend & Ht & Hdl).
  unfold write_delta_option in Hat. unfold parse_delta_option.
  apply at_pos_app in Hat as [H1 Hat]. erewrite bind_run by (by apply read_fixed_at').
  unfold blen in Hat at 1. rewrite Hs in Hat.
  apply at_pos_app in Hat as [H2 Hat]. cbn beta. erewrite bind_run by (by apply read_u8_at).
  change (blen [_]) with 1 in Hat. read_next read_u64_at. read_next read_u32_at.
  cbn beta. erewrite bind_run by (by apply read_fixed_at').
  rewrite decide_False by lia. rewrite decide_False by lia.
  unfold mret, parser_ret, STORED_HASH_LEN. destruct o; simpl in *. do 2 f_equal. lia.
Qed.

Lemma parse_delta_record_at dl entries i opts data pos :
  0 ≤ i < blen entries → blen entries < U32 → 0 ≤ pos → Forall (option_ok dl) opts → blen opts < 256 →
  at_pos data pos (delta_record i opts) →
  parse_delta_record dl entries data pos =
  Ok (alter (with_delta_options opts) (Z.to_nat i) entries, pos + blen (delta_record i opts)).
Proof.
  intros Hi Hlen Hp Hopts Hcnt Hat. unfold delta_record in *. unwrap_in Hat. unwrap.
  pose proof (blen_nonneg opts). rewrite Z.mod_small in Hat |- * by lia.
  unfold parse_delta_record. apply at_pos_app in Hat as [H1 Hat].
  erewrite bind_run by (apply read_u32_at; [done|lia]). rewrite blen_le_bytes in Hat.
  apply at_pos_app in Hat as [H2 Hat]. cbn beta. erewrite bind_run by (by apply read_u8_at).
  change (blen [_]) with 1 in Hat. rewrite decide_False by lia.
  replace (Z.to_nat (blen opts)) with (length opts) by (unfold blen; lia).
  erewrite bind_run.
  2: { apply (for_range_records (parse_delta_option dl) write_delta_option (λ l o, l ++ [o]) opts);
         [exact Hat|lia|].
       rewrite Forall_forall in Hopts |- *. intros o Ho i' s pos' _ Hat'.
       apply parse_delta_option_at; [by apply Hopts|done]. }
  assert (∀ l, foldl (λ l o, l ++ [o]) l opts = l ++ opts) as ->.
  { clear. induction opts as [|o os IH]; intros l; simpl; [by rewrite app_nil_r|].
    by rewrite IH, <-app_assoc. }
  unfold mret, parser_ret. rewrite !blen_app, blen_le_bytes. change (blen [_]) with 1.
  do 2 f_equal. lia.
Qed.

(** ** The three tables *)

Lemma blen_concat_const {R} (enc : R → list Z) n rs :
  Forall (λ r, blen (enc r) = n) rs → blen (concat (map enc rs)) = n * blen rs.
Proof.
  induction 1 as [|r rs Hr _ IH]; [unfold blen; simpl; lia|].
  cbn [map concat]. rewrite blen_app, blen_cons, IH, Hr. lia.
Qed.

Lemma section_end_at rl n data pos :
  at_pos data pos (le_bytes 4 n) → 0 ≤ n < U32 → 0 ≤ pos → pos + 4 + n ≤ blen data → blen data < U64 →
  n mod rl = 0 → section_end rl data pos = Ok (pos + 4 + n, pos + 4).
Proof.
  intros Hat Hn Hp Hl H64 Hm. unfold section_end. erewrite bind_run by (by apply read_u32_at).
  unfold check_section. by rewrite !decide_False by (lia || tauto).
Qed.

Lemma at_pos_bound data pos x : at_pos data pos x → 0 ≤ pos ∧ pos + blen x ≤ blen data.
Proof.
  intros (pre & post & -> & ->). rewrite !blen_app. pose proof (blen_nonneg pre).
  pose proof (blen_nonneg post). lia.
Qed.

(** Replaying one table: [upd] attaches what [f] selects. *)
Lemma table_loop {A} (f : SegmentEntry → option A) (upd : A → SegmentEntry → SegmentEntry)
    (rec : Z → A → list Z) (body : list SegmentEntry → parser (list SegmentEntry)) entries st data
    pos stop :
  advances body → length st = length entries → (∀ i a, 0 < blen (rec i a)) →
  at_pos data pos (concat (map (λ p, rec p.1 p.2) (indexed f entries))) →
  stop = pos + blen (concat (map (λ p, rec p.1 p.2) (indexed f entries))) →
  (∀ st i a e pos, length st = length entries → 0 ≤ i < blen entries → e ∈ entries → f e = Some a →
     0 ≤ pos → at_pos data pos (rec i a) →
     body st data pos = Ok (alter (upd a) (Z.to_nat i) st, pos + blen (rec i a))) →
  while_lt stop body st data pos =
  Ok (zip_with (λ e x, match f e with Some a => upd a x | None => x end) entries st, stop).
Proof.
  intros Hadv Hlen Hrec Hat Hstop Hbody. pose proof (at_pos_bound _ _ _ Hat) as [Hp _].
  rewrite (while_lt_records body (λ p, rec p.1 p.2) (λ st p, alter (upd p.2) (Z.to_nat p.1) st)
             (λ st, length st = length entries) stop (indexed f entries)); try done.
  - pose proof (foldl_indexed f upd entries [] st Hlen) as Hf. simpl in Hf. by rewrite <-Hf.
  - rewrite Forall_forall. intros [i a] Hin. rewrite indexed_0 in Hin.
    apply elem_of_indexed in Hin as (Hi & e & He & Hfe). cbn [fst snd].
    split; [apply Hrec|]. intros st' pos' Hl' Hp' Hat'. split; [|by rewrite length_alter].
    by apply (Hbody st' i a e pos').
Qed.

Lemma parse_sketch_record_advances : advances parse_sketch_record.
Proof.
  intros st data pos st' pos' Hp Hr. unfold parse_sketch_record in Hr. inv_read Hr.
  apply bind_Ok in Hr as (sf & p & Hsf & Hr).
  assert (∀ n pos sf p, 0 ≤ pos → read_u32s n data pos = Ok (sf, p) → pos ≤ p) as Hn.
  { induction n as [|n IH]; intros q zs q' Hq; cbn [read_u32s]; [by intros [= _ <-]|].
    intros Hz. inv_read Hz. apply bind_Ok in Hz as (zs' & q2 & Hz' & [= _ <-]).
    apply IH in Hz'; lia. }
  apply Hn in Hsf; [|lia]. case_decide; [done|]. injection Hr as _ <-. lia.
Qed.

Lemma parse_stored_hash_record_advances : advances parse_stored_hash_record.
Proof.
  intros st data pos st' pos' Hp Hr. unfold parse_stored_hash_record in Hr.
  inv_read Hr. inv_read Hr. case_decide; [done|]. injection Hr as _ <-. lia.
Qed.

Lemma parse_delta_option_mono dl i st data pos st' pos' :
  0 ≤ pos → parse_delta_option dl i st data pos = Ok (st', pos') → pos ≤ pos'.
Proof.
  intros Hp Hr. unfold parse_delta_option in Hr. do 5 inv_read Hr.
  case_decide; [done|]. case_decide; [done|]. injection Hr as _ <-. lia.
Qed.

Lemma parse_delta_record_advances dl : advances (parse_delta_record dl).
Proof.
  intros st data pos st' pos' Hp Hr. unfold parse_delta_record in Hr. inv_read Hr. inv_read Hr.
  case_decide; [done|]. apply bind_Ok in Hr as (opts & p & Hf & [= _ <-]).
  apply (for_range_inv (λ _ q, pos + 5 ≤ q)) in Hf; [lia| |lia].
  intros i st1 q st2 q' Hq Hb. apply parse_delta_option_mono in Hb; lia.
Qed.

Lemma count_some_indexed {A} (f : SegmentEntry → option A) entries :
  blen entries < U32 →
  count_some f entries = blen (indexed f entries) ∧ blen (indexed f entries) ≤ blen entries.
Proof.
  intros Hl. unfold count_some. rewrite indexed_0, blen_indexed.
  pose proof (length_filter (λ e, is_Some (f e)) entries) as Hf. unfold blen in *.
  unwrap. split; [done|lia].
Qed.

(** What each table attaches. *)
Definition attach {A} (f : SegmentEntry → option A) (upd : A → SegmentEntry → SegmentEntry)
    (entries st : list SegmentEntry) : list SegmentEntry :=
  zip_with (λ e x, match f e with Some a => upd a x | None => x end) entries st.

Lemma length_attach {A} (f : SegmentEntry → option A) upd entries st :
  length st = length entries → length (attach f upd entries st) = length entries.
Proof. intros Hl. unfold attach. rewrite length_zip_with. lia. Qed.

Lemma sketch_record_blen bl il dl entries :
  Forall (entry_ok bl il dl) entries →
  Forall (λ p : Z * list Z, blen (sketch_record p.1 p.2) = 36) (indexed e_sketch entries).
Proof.
  rewrite !Forall_forall. intros Hok [i s] Hin. rewrite indexed_0 in Hin.
  apply elem_of_indexed in Hin as (_ & e & He & Hs). cbn [fst snd].
  destruct (eo_sketch _ _ _ _ (Hok e He) s Hs) as [Hl _]. unfold sketch_record.
  rewrite blen_app, blen_le_bytes, (blen_concat_const (le_bytes 4) 4).
  - unfold blen. rewrite Hl. unfold NUM_FEATURES. lia.
  - rewrite Forall_forall. intros z _. by rewrite blen_le_bytes.
Qed.

Lemma parse_sketch_section_at bl il dl entries st data pos :
  Forall (entry_ok bl il dl) entries → length st = length entries → 36 * blen entries < U32 →
  blen data < U64 → at_pos data pos (write_sketch_section entries) →
  parse_sketch_section st data pos =
  Ok (attach e_sketch (λ s, with_sketch (Some s)) entries st,
      pos + blen (write_sketch_section entries)).
Proof.
  intros Hok Hlen H32 H64 Hat. pose proof (at_pos_bound _ _ _ Hat) as [Hp Hbd].
  destruct (count_some_indexed e_sketch entries ltac:(lia)) as [Hcnt Hle].
  pose proof (blen_concat_const (λ p : Z * list Z, sketch_record p.1 p.2) 36 _
                (sketch_record_blen _ _ _ _ Hok)) as Hblen.
  unfold write_sketch_section in *. rewrite Hcnt in *. unfold SKETCH_RECORD_LEN, SKETCH_LEN in *.
  pose proof (blen_nonneg (indexed e_sketch entries)). unwrap_in Hat. unwrap_in Hbd. unwrap.
  assert (map (λ '(i, s), sketch_record i s) (indexed e_sketch entries) =
          map (λ p : Z * list Z, sketch_record p.1 p.2) (indexed e_sketch entries)) as Hmap
    by (apply map_ext; by intros []).
  rewrite Hmap in *. rewrite blen_app, blen_le_bytes, Hblen in *.
  apply at_pos_app in Hat as [H1 Hat]. rewrite blen_le_bytes in Hat.
  unfold parse_sketch_section. erewrite bind_run.
  2: { apply (section_end_at _ (blen (indexed e_sketch entries) * (4 + 32))); try done; try lia.
       by rewrite Z.mod_mul. }
  rewrite (table_loop e_sketch (λ s, with_sketch (Some s)) sketch_record parse_sketch_record
             entries st).
  - unfold attach. do 2 f_equal. lia.
  - apply parse_sketch_record_advances.
  - done.
  - intros i s. unfold sketch_record. rewrite blen_app, blen_le_bytes.
    pose proof (blen_nonneg (concat (map (le_bytes 4) s))). lia.
  - exact Hat.
  - rewrite Hblen. lia.
  - intros st' i s e p Hl' Hi He Hs Hp' Hat'.
    rewrite Forall_forall in Hok. pose proof (eo_sketch _ _ _ _ (Hok e He) s Hs) as Hsk.
    rewrite (parse_sketch_record_at st' i s); try done; [|unfold blen in *; lia..].
    do 2 f_equal. unfold sketch_record. rewrite blen_app, blen_le_bytes, (blen_concat_const (le_bytes 4) 4).
    + unfold blen. rewrite (proj1 Hsk). unfold NUM_FEATURES. lia.
    + rewrite Forall_forall. intros z _. by rewrite blen_le_bytes.
Qed.

Lemma stored_hash_record_blen bl il dl entries :
  Forall (entry_ok bl il dl) entries →
  Forall (λ p : Z * list Z, blen (stored_hash_record p.1 p.2) = 20) (indexed e_stored_hash entries).
Proof.
  rewrite !Forall_forall. intros Hok [i t] Hin. rewrite indexed_0 in Hin.
  apply elem_of_indexed in Hin as (_ & e & He & Ht). cbn [fst snd].
  unfold stored_hash_record. rewrite blen_app, blen_le_bytes.
  unfold blen. rewrite (eo_tag _ _ _ _ (Hok e He) t Ht). done.
Qed.

Lemma tagged_attach bl il dl entries st :
  Forall (entry_ok bl il dl) entries → map e_kind st = map e_kind entries →
  tagged (attach e_stored_hash (λ t, with_stored_hash (Some t)) entries st) = true.
Proof.
  intros Hok. revert st. induction Hok as [|e es He _ IH]; intros [|x st]; try done.
  intros [= Hk Hks]. unfold tagged, attach in *. cbn [zip_with forallb].
  rewrite IH by done. rewrite andb_true_r.
  destruct (e_stored_hash e) as [t|] eqn:Ht.
  - cbn [e_stored_hash with_stored_hash e_kind]. rewrite bool_decide_false by done.
    by rewrite andb_false_r.
  - rewrite Hk. destruct (has_body_bytes (e_kind e)) eqn:Hb; [|done].
    destruct (eo_tagged _ _ _ _ He Hb) as [t' Ht']. by rewrite Ht in Ht'.
Qed.

Lemma parse_stored_hash_section_at bl il dl entries st data pos :
  Forall (entry_ok bl il dl) entries → length st = length entries →
  map e_kind st = map e_kind entries → 20 * blen entries < U32 →
  blen data < U64 → at_pos data pos (write_stored_hash_section entries) →
  parse_stored_hash_section st data pos =
  Ok (attach e_stored_hash (λ t, with_stored_hash (Some t)) entries st,
      pos + blen (write_stored_hash_section entries)).
Proof.
  intros Hok Hlen Hkinds H32 H64 Hat. pose proof (at_pos_bound _ _ _ Hat) as [Hp Hbd].
  destruct (count_some_indexed e_stored_hash entries ltac:(lia)) as [Hcnt Hle].
  pose proof (blen_concat_const (λ p : Z * list Z, stored_hash_record p.1 p.2) 20 _
                (stored_hash_record_blen _ _ _ _ Hok)) as Hblen.
  unfold write_stored_hash_section in *. rewrite Hcnt in *.
  unfold STORED_HASH_RECORD_LEN, STORED_HASH_LEN in *.
  pose proof (blen_nonneg (indexed e_stored_hash entries)). unwrap_in Hat. unwrap_in Hbd. unwrap.
  assert (map (λ '(i, s), stored_hash_record i s) (indexed e_stored_hash entries) =
          map (λ p : Z * list Z, stored_hash_record p.1 p.2) (indexed e_stored_hash entries)) as Hmap
    by (apply map_ext; by intros []).
  rewrite Hmap in *. rewrite blen_app, blen_le_bytes, Hblen in *.
  apply at_pos_app in Hat as [H1 Hat]. rewrite blen_le_bytes in Hat.
  unfold parse_stored_hash_section. erewrite bind_run.
  2: { apply (section_end_at _ (blen (indexed e_stored_hash entries) * (4 + Z.of_nat 16)));
         try done; try lia. by rewrite Z.mod_mul. }
  erewrite bind_run.
  2: { apply (table_loop e_stored_hash (λ t, with_stored_hash (Some t)) stored_hash_record
                parse_stored_hash_record entries st).
       - apply parse_stored_hash_record_advances.
       - done.
       - intros i t. unfold stored_hash_record. rewrite blen_app, blen_le_bytes.
         pose proof (blen_nonneg t). lia.
       - exact Hat.
       - rewrite Hblen. lia.
       - intros st' i t e p Hl' Hi He Ht Hp' Hat'.
         rewrite Forall_forall in Hok. pose proof (eo_tag _ _ _ _ (Hok e He) t Ht) as Htl.
         rewrite (parse_stored_hash_record_at st' i t); try done; [|unfold blen in *; lia..].
         do 2 f_equal. unfold stored_hash_record. rewrite blen_app, blen_le_bytes.
         unfold blen. rewrite Htl. lia. }
  fold (attach e_stored_hash (λ t, with_stored_hash (Some t)) entries st).
  rewrite (tagged_attach bl il dl) by done. unfold mret, parser_ret. do 2 f_equal. lia.
Qed.

(** ** The delta table *)

Lemma has_deltas_indexed entries :
  existsb has_deltas entries = false ↔ indexed deltas_of entries = [].
Proof.
  rewrite indexed_0. generalize O. induction entries as [|e es IH]; intros k; [done|].
  rewrite indexed_cons. cbn [existsb]. unfold has_deltas at 1, deltas_of at 1.
  destruct (e_delta_options e); simpl; [apply IH|done].
Qed.

Lemma write_delta_table_eq entries :
  write_delta_table entries =
  concat (map (λ p : Z * list DeltaOption, delta_record p.1 p.2) (indexed deltas_of entries)).
Proof. unfold write_delta_table. f_equal. apply map_ext. by intros []. Qed.

Lemma blen_delta_record i opts : 0 < blen (delta_record i opts).
Proof.
  unfold delta_record. rewrite blen_app, blen_le_bytes.
  pose proof (blen_nonneg ([blen opts mod 256] ++ concat (map write_delta_option opts))). lia.
Qed.

Lemma attach_none {A} (f : SegmentEntry → option A) upd entries st :
  length st = length entries → (∀ e, e ∈ entries → f e = None) → attach f upd entries st = st.
Proof.
  revert st. induction entries as [|e es IH]; intros [|x st] Hl Hn; try done.
  unfold attach in *. cbn [zip_with]. rewrite (Hn e) by left. f_equal.
  apply IH; [simpl in Hl; lia|]. intros e' He'. apply Hn. by right.
Qed.

Lemma parse_deltas_at bl il dl entries st data pos :
  Forall (entry_ok bl il dl) entries → length st = length entries → blen entries < U32 →
  at_pos data pos (write_delta_table entries) → pos + blen (write_delta_table entries) = blen data →
  (if existsb has_deltas entries && bool_decide (pos < blen data)
   then parse_delta_table st dl data pos else Ok (st, pos)) =
  Ok (attach deltas_of with_delta_options entries st, blen data).
Proof.
  intros Hok Hlen H32 Hat Hend. rewrite write_delta_table_eq in *.
  destruct (existsb has_deltas entries) eqn:Hd.
  - case_bool_decide as Hpos.
    + cbn [andb]. unfold parse_delta_table.
      rewrite (table_loop deltas_of with_delta_options delta_record (parse_delta_record dl)
                 entries st); try done.
      * apply parse_delta_record_advances.
      * intros st' i opts e p Hl' Hi He Hopts Hp' Hat'.
        rewrite Forall_forall in Hok. destruct (Hok e He) as [_ _ _ _ _ _ _ _ _ Hc Ho].
        unfold deltas_of in Hopts. destruct (e_delta_options e) as [|o os] eqn:Hopt; [done|].
        injection Hopts as <-. apply parse_delta_record_at; try done; unfold blen in *; lia.
    + exfalso. assert (existsb has_deltas entries = false) as Hf; [|congruence].
      apply (proj2 (has_deltas_indexed _)).
      destruct (indexed deltas_of entries) as [|[i o] l]; [done|]. exfalso.
      cbn [map concat fst snd] in Hend. rewrite blen_app in Hend.
      pose proof (blen_delta_record i o).
      pose proof (blen_nonneg (concat (map (λ p : Z * list DeltaOption, delta_record p.1 p.2) l))). lia.
  - cbn [andb]. pose proof (proj1 (has_deltas_indexed _) Hd) as Hnil. rewrite Hnil in Hend.
    unfold blen in Hend at 1. simpl in Hend. rewrite attach_none; [do 2 f_equal; lia|done|].
    intros e He. unfold deltas_of. destruct (e_delta_options e) as [|o os] eqn:Hopt; [done|].
    exfalso. assert (existsb has_deltas entries = true) as Ht; [|by rewrite Ht in Hd].
    apply existsb_exists. exists e. split; [by apply list_elem_of_In|].
    unfold has_deltas. by rewrite Hopt.
Qed.

(** ** The whole index section *)

Lemma attach_all entries :
  attach deltas_of with_delta_options entries
    (attach e_stored_hash (λ t, with_stored_hash (Some t)) entries
       (attach e_sketch (λ s, with_sketch (Some s)) entries (map base_of entries))) =
  map (with_inline_bytes None) entries.
Proof.
  unfold attach. induction entries as [|e es IH]; [done|]. cbn [map zip_with]. rewrite IH. f_equal.
  unfold deltas_of. destruct e as [? ? ? ? ? ? ? ? d ? s t]. simpl. by destruct s, t, d.
Qed.

Lemma map_kind_attach {A} (f : SegmentEntry → option A) upd entries st :
  length st = length entries → (∀ a e, e_kind (upd a e) = e_kind e) →
  map e_kind (attach f upd entries st) = map e_kind st.
Proof.
  intros Hl Hu. revert st Hl. induction entries as [|e es IH]; intros [|x st] Hl; try done.
  unfold attach in *. cbn [zip_with map]. rewrite IH by (simpl in Hl; lia).
  f_equal. by destruct (f e).
Qed.

Section index_section.
Context `{HB : Blake3} `{HU : UlidBytes}.

Lemma parse_inputs_at inputs fuel data pos :
  Forall (λ u, 0 ≤ u < 2 ^ 128) inputs → (length inputs ≤ fuel)%nat →
  at_pos data pos (concat (map ulid_to_bytes inputs)) →
  pos + blen (concat (map ulid_to_bytes inputs)) = blen data →
  parse_inputs fuel data pos = Ok inputs.
Proof.
  revert fuel pos. induction inputs as [|u us IH]; intros fuel pos Hu Hf Hat Hend;
    cbn [map concat] in *.
  { unfold blen in Hend at 1. simpl in Hend.
    destruct fuel; cbn [parse_inputs]; by rewrite decide_False by lia. }
  apply Forall_cons in Hu as [Hu1 Hu]. apply at_pos_app in Hat as [Ha1 Hat].
  assert (blen (ulid_to_bytes u) = 16) as H16 by (unfold blen; by rewrite ulid_bytes_length).
  rewrite blen_app, H16 in Hend. pose proof (blen_nonneg (concat (map ulid_to_bytes us))).
  destruct fuel as [|fuel]; [simpl in Hf; lia|]. cbn [parse_inputs].
  rewrite decide_True by lia. rewrite (read_fixed_at' 16 _ _ _ Ha1) by apply ulid_bytes_length.
  rewrite H16 in Hat. rewrite IH; [|done|simpl in Hf; lia|done|lia]. simpl.
  by rewrite ulid_bytes_roundtrip.
Qed.

Lemma blen_inputs inputs : blen (concat (map ulid_to_bytes inputs)) = 16 * blen inputs.
Proof.
  apply blen_concat_const. rewrite Forall_forall. intros u _. unfold blen.
  by rewrite ulid_bytes_length.
Qed.

(** The regions before the inputs table. *)
Definition entries_region (entries : list SegmentEntry) : list Z :=
  concat (map write_index_entry entries) ++ write_sketch_section entries ++
  write_stored_hash_section entries ++ write_delta_table entries.

Lemma index_section_split entries inputs :
  index_section entries inputs = entries_region entries ++ concat (map ulid_to_bytes inputs).
Proof. unfold index_section, entries_region. by rewrite <-!app_assoc. Qed.

Lemma blen_base_entries bl il dl entries :
  Forall (entry_ok bl il dl) entries → blen (concat (map write_index_entry entries)) = 64 * blen entries.
Proof.
  intros Hok. apply blen_concat_const. eapply Forall_impl; [exact Hok|].
  intros e He. by eapply blen_write_index_entry.
Qed.

Lemma parse_index_section_roundtrip bl il dl entries inputs :
  Forall (entry_ok bl il dl) entries → Forall (λ u, 0 ≤ u < 2 ^ 128) inputs →
  blen (index_section entries inputs) < U32 →
  parse_index_section (index_section entries inputs) (blen entries) (16 * blen inputs) bl il dl =
  Ok (map (with_inline_bytes None) entries, inputs).
Proof.
  intros Hok Hin H32. rewrite index_section_split in *.
  pose proof (blen_inputs inputs) as Hil. rewrite blen_app, Hil in H32.
  pose proof (blen_nonneg inputs). pose proof (blen_nonneg entries).
  unfold parse_index_section. rewrite decide_False.
  2: { unfold INPUT_ULID_LEN. rewrite Z.mul_comm, Z.mod_mul by done. tauto. }
  rewrite blen_app, Hil. pose proof (blen_nonneg (entries_region entries)) as Hpos.
  rewrite decide_False by lia.
  replace (Z.to_nat (blen (entries_region entries) + 16 * blen inputs - 16 * blen inputs))
    with (length (entries_region entries)) by (unfold blen in *; lia).
  rewrite take_app_length, drop_app_length.
  assert (at_pos (entries_region entries) 0 (entries_region entries)) as Hat.
  { exists [], []. by rewrite app_nil_r. }
  unfold entries_region in Hat at 2. apply at_pos_app in Hat as [Ha1 Hat].
  apply at_pos_app in Hat as [Ha2 Hat]. apply at_pos_app in Hat as [Ha3 Hat].
  pose proof (blen_base_entries bl il dl entries Hok) as Hbase. rewrite Hbase in *.
  assert (blen (entries_region entries) = 64 * blen entries + blen (write_sketch_section entries) +
            blen (write_stored_hash_section entries) + blen (write_delta_table entries)) as Hreg.
  { unfold entries_region. rewrite !blen_app, Hbase. lia. }
  pose proof (blen_nonneg (write_sketch_section entries)).
  pose proof (blen_nonneg (write_stored_hash_section entries)).
  pose proof (blen_nonneg (write_delta_table entries)).
  rewrite decide_False by (unfold IDX_ENTRY_LEN; lia).
  replace (Z.to_nat (blen entries)) with (length entries) by (unfold blen; lia).
  rewrite (parse_base_entries bl il dl entries) by done. unfold mbind, io_bind.
  rewrite (parse_sketch_section_at bl il dl entries) by (done || lia || by rewrite length_map).
  rewrite Z.add_0_l in *.
  assert (length (attach e_sketch (λ s, with_sketch (Some s)) entries (map base_of entries)) =
          length entries) as Hla by (apply length_attach; by rewrite length_map).
  rewrite (parse_stored_hash_section_at bl il dl entries).
  2-7: try (done || lia).
  2: { rewrite map_kind_attach; [|by rewrite length_map|done]. rewrite map_map. by apply map_ext. }
  rewrite (parse_deltas_at bl il dl entries); [|done|by apply length_attach|lia|done|lia].
  rewrite attach_all.
  rewrite (parse_inputs_at inputs); [done|done| | |by rewrite Hil].
  - unfold blen in Hil. lia.
  - exists [], []. by rewrite app_nil_r.
Qed.
End index_section.

(** ** Section lengths *)

Lemma blen_delta_record_eq dl i opts :
  Forall (option_ok dl) opts → blen (delta_record i opts) = 5 + 61 * blen opts.
Proof.
  intros Ho. unfold delta_record. rewrite !blen_app, blen_le_bytes. change (blen [_]) with 1.
  rewrite (blen_concat_const write_delta_option 61); [lia|].
  eapply Forall_impl; [exact Ho|]. intros o. apply blen_write_delta_option.
Qed.

Lemma delta_table_length bl il dl k entries acc :
  Forall (entry_ok bl il dl) entries → 0 ≤ acc →
  let T := blen (concat (map (λ p : Z * list DeltaOption, delta_record p.1 p.2)
                           (indexed_from k deltas_of entries))) in
  acc + T < U32 →
  foldl (λ acc e, u32_add acc (delta_record_length e)) acc
    (filter (λ e, e_delta_options e ≠ []) entries) = acc + T.
Proof.
  intros Hok. revert k acc. induction Hok as [|e es He _ IH]; intros k acc Hacc T HT.
  { unfold T, blen. simpl. lia. }
  set (R := blen (concat (map (λ p : Z * list DeltaOption, delta_record p.1 p.2)
                            (indexed_from (S k) deltas_of es)))).
  pose proof (blen_nonneg (concat (map (λ p : Z * list DeltaOption, delta_record p.1 p.2)
                (indexed_from (S k) deltas_of es)))) as Hnn. fold R in Hnn.
  assert (T = match deltas_of e with Some o => blen (delta_record (Z.of_nat k) o) | None => 0 end + R)
    as HTR.
  { unfold T. rewrite indexed_cons, map_app, concat_app, blen_app. f_equal.
    destruct (deltas_of e); [|done]. simpl. by rewrite app_nil_r. }
  rewrite HTR in *. clear HTR. rewrite filter_cons.
  unfold deltas_of in *. destruct (e_delta_options e) as [|o os] eqn:Hopt.
  - rewrite decide_False by tauto. rewrite (IH (S k)); fold R; lia.
  - rewrite decide_True by done. cbn [foldl].
    pose proof (blen_nonneg (o :: os)). pose proof (eo_options _ _ _ _ He) as Hoo.
    rewrite Hopt in Hoo. rewrite (blen_delta_record_eq dl) in * by done.
    assert (delta_record_length e = 5 + 61 * blen (o :: os)) as Hd.
    { unfold delta_record_length, DELTA_TABLE_ENTRY_HEADER, DELTA_OPTION_LEN. rewrite Hopt.
      unwrap. lia. }
    rewrite Hd. unwrap. rewrite (IH (S k)); fold R; lia.
Qed.

Lemma sketch_section_length_eq bl il dl entries :
  Forall (entry_ok bl il dl) entries → 36 * blen entries + 4 < U32 →
  sketch_section_length entries = blen (write_sketch_section entries).
Proof.
  intros Hok H32. destruct (count_some_indexed e_sketch entries ltac:(lia)) as [Hcnt Hle].
  pose proof (blen_nonneg (indexed e_sketch entries)).
  unfold sketch_section_length, write_sketch_section. rewrite Hcnt.
  unfold SKETCH_PREFIX_LEN, SKETCH_RECORD_LEN, SKETCH_LEN. unwrap.
  rewrite blen_app, blen_le_bytes.
  assert (map (λ '(i, s), sketch_record i s) (indexed e_sketch entries) =
          map (λ p : Z * list Z, sketch_record p.1 p.2) (indexed e_sketch entries)) as ->
    by (apply map_ext; by intros []).
  rewrite (blen_concat_const _ 36) by (by eapply sketch_record_blen). lia.
Qed.

Lemma stored_hash_section_length_eq bl il dl entries :
  Forall (entry_ok bl il dl) entries → 36 * blen entries + 4 < U32 →
  stored_hash_section_length entries = blen (write_stored_hash_section entries).
Proof.
  intros Hok H32. destruct (count_some_indexed e_stored_hash entries ltac:(lia)) as [Hcnt Hle].
  pose proof (blen_nonneg (indexed e_stored_hash entries)).
  unfold stored_hash_section_length, write_stored_hash_section. rewrite Hcnt.
  unfold STORED_HASH_PREFIX_LEN, STORED_HASH_RECORD_LEN, STORED_HASH_LEN. unwrap.
  rewrite blen_app, blen_le_bytes.
  assert (map (λ '(i, s), stored_hash_record i s) (indexed e_stored_hash entries) =
          map (λ p : Z * list Z, stored_hash_record p.1 p.2) (indexed e_stored_hash entries)) as ->
    by (apply map_ext; by intros []).
  rewrite (blen_concat_const _ 20) by (by eapply stored_hash_record_blen). lia.
Qed.

(** The declared index length is the length of the bytes written. *)
Lemma entries_region_length_eq bl il dl entries :
  Forall (entry_ok bl il dl) entries → blen (entries_region entries) < U32 →
  entries_region_length entries = blen (entries_region entries).
Proof.
  intros Hok H32. unfold entries_region in *. rewrite !blen_app in *.
  rewrite (blen_base_entries bl il dl) in * by done.
  pose proof (blen_nonneg entries). pose proof (blen_nonneg (write_sketch_section entries)).
  pose proof (blen_nonneg (write_stored_hash_section entries)).
  pose proof (blen_nonneg (write_delta_table entries)).
  assert (0 < blen entries → 36 * blen entries + 4 < U32) as Hs by lia.
  assert (36 * blen entries + 4 < U32) as Hs' by lia.
  unfold entries_region_length, IDX_ENTRY_LEN.
  rewrite (sketch_section_length_eq bl il dl), (stored_hash_section_length_eq bl il dl) by done.
  rewrite write_delta_table_eq, indexed_0 in *.
  rewrite (delta_table_length bl il dl 0) by (done || lia).
  set (D := blen (concat _)) in *. rewrite Z.add_0_l. unwrap. lia.
Qed.

(** ** Headers *)

Record header_ok (h : SegmentHeader) : Prop := {
  ho_magic : length (h_magic h) = 8%nat;
  ho_entry_count : 0 ≤ h_entry_count h < U32;
  ho_index_length : 0 ≤ h_index_length h < U32;
  ho_inline_length : 0 ≤ h_inline_length h < U32;
  ho_body_length : 0 ≤ h_body_length h < U64;
  ho_delta_length : 0 ≤ h_delta_length h < U32;
  ho_inputs_length : 0 ≤ h_inputs_length h < U32;
  ho_signature : length (h_signature h) = 64%nat
}.

Lemma blen_header_prefix h : header_ok h → blen (header_prefix h) = 36.
Proof.
  intros [Hm _ _ _ _ _ _ _]. unfold header_prefix. rewrite !blen_app, !blen_le_bytes.
  unfold blen. rewrite Hm. done.
Qed.

Lemma blen_header h : header_ok h → blen (header_bytes h) = 100.
Proof.
  intros Hok. unfold header_bytes. rewrite blen_app, blen_header_prefix by done.
  unfold blen. by rewrite (ho_signature _ Hok).
Qed.

Lemma read_header_at h : header_ok h → read_header (header_bytes h) 0 = Ok (h, 100).
Proof.
  intros Hok. assert (at_pos (header_bytes h) 0 (header_bytes h)) as Hat.
  { exists [], []. by rewrite app_nil_r. }
  destruct Hok as [Hm He Hi Hn Hb Hd Hin Hs]. unfold header_bytes in Hat at 2.
  unfold header_prefix in Hat. rewrite <-!app_assoc in Hat. unfold read_header.
  apply at_pos_app in Hat as [Ha Hat]. erewrite bind_run by (by apply read_fixed_at').
  unfold blen in Hat at 1. rewrite Hm in Hat.
  read_next read_u32_at. read_next read_u32_at. read_next read_u32_at. read_next read_u64_at.
  read_next read_u32_at. read_next read_u32_at.
  cbn beta. erewrite bind_run by (by apply read_fixed_at').
  unfold mret, parser_ret. destruct h; simpl in *. do 2 f_equal.
Qed.

Lemma read_exact_at_app pre x post :
  read_exact_at (pre ++ x ++ post) (blen pre) (blen x) = Ok x.
Proof.
  unfold read_exact_at. rewrite !blen_app. pose proof (blen_nonneg post).
  rewrite decide_False by lia. unfold blen. rewrite !Nat2Z.id.
  by rewrite drop_app_length, take_app_length.
Qed.

(** A file whose header describes it. *)
Lemma read_segment_header_at h index_buf rest :
  header_ok h → h_magic h = MAGIC → h_index_length h = blen index_buf →
  read_segment_header (header_bytes h ++ index_buf ++ rest) =
  Ok (HEADER_LEN + blen index_buf + h_inline_length h, index_buf, h).
Proof.
  intros Hok Hm Hi. unfold read_segment_header. pose proof (blen_header h Hok) as Hl.
  pose proof (read_exact_at_app [] (header_bytes h) (index_buf ++ rest)) as H1.
  rewrite Hl in H1. simpl in H1. change (blen (@nil Z)) with 0 in H1.
  change HEADER_LEN with 100. rewrite H1. unfold mbind, io_bind. rewrite read_header_at by done.
  rewrite decide_False by tauto. rewrite Hi.
  pose proof (read_exact_at_app (header_bytes h) index_buf rest) as H2. rewrite Hl in H2.
  by rewrite H2.
Qed.

(** ** Offset assignment *)

Fixpoint place (ic bc : Z) (es : list SegmentEntry) : list SegmentEntry :=
  match es with
  | [] => []
  | e :: es =>
      if is_inline (e_kind e) then with_offset ic e :: place (ic + e_stored_length e) bc es
      else if is_data (e_kind e) then with_offset bc e :: place ic (bc + e_stored_length e) es
      else e :: place ic bc es
  end.

(** The bytes the entries of some kinds store. *)
Fixpoint total (P : EntryKind → bool) (es : list SegmentEntry) : Z :=
  match es with
  | [] => 0
  | e :: es => (if P (e_kind e) then e_stored_length e else 0) + total P es
  end.

Lemma total_nonneg P es : Forall (λ e, 0 ≤ e_stored_length e) es → 0 ≤ total P es.
Proof. induction 1 as [|e es He _ IH]; simpl; [lia|]. destruct (P (e_kind e)); lia. Qed.

Lemma length_place ic bc es : length (place ic bc es) = length es.
Proof.
  revert ic bc. induction es as [|e es IH]; intros ic bc; [done|]. cbn [place].
  destruct (is_inline (e_kind e)), (is_data (e_kind e)); simpl; by rewrite IH.
Qed.

Lemma assign_fold es out ic bc :
  Forall (λ e, 0 ≤ e_stored_length e) es → 0 ≤ ic → 0 ≤ bc →
  ic + total is_inline es < U64 → bc + total is_data es < U64 →
  foldl assign_offset (out, ic, bc) es =
  (out ++ place ic bc es, ic + total is_inline es, bc + total is_data es).
Proof.
  intros Hes. revert out ic bc. induction Hes as [|e es He Hes IH]; intros out ic bc Hi Hb HI HB.
  { cbn [foldl place total]. by rewrite app_nil_r, !Z.add_0_r. }
  cbn [foldl place total] in *. pose proof (total_nonneg is_inline es Hes).
  pose proof (total_nonneg is_data es Hes).
  unfold assign_offset at 2. destruct (e_kind e); cbn [is_inline is_data] in *; unwrap;
    (rewrite IH by lia); rewrite <-?app_assoc; cbn [app]; rewrite !pair_eq; split_and!; (done || lia).
Qed.

(** ** Pending entries the writer accepts *)

Record pending_ok (delta_length : Z) (p : PendingEntry) : Prop := {
  po_hash : length (e_hash (pe_entry p)) = 32%nat;
  po_start : 0 ≤ e_start_lba (pe_entry p) < U64;
  po_len : 0 ≤ e_lba_length (pe_entry p) < U32;
  po_stored :
    match e_kind (pe_entry p) with
    | Data | CanonicalData =>
        ∃ body, pe_body p = Some body ∧ 0 < blen body < U32 ∧ e_stored_length (pe_entry p) = blen body
    | Inline | CanonicalInline =>
        pe_body p = None ∧ ∃ i, e_inline (pe_entry p) = Some i ∧ 0 < blen i < U32 ∧
                                e_stored_length (pe_entry p) = blen i
    | DedupRef | Zero | Delta | CanonicalDelta =>
        pe_body p = None ∧ e_stored_offset (pe_entry p) = 0 ∧ e_stored_length (pe_entry p) = 0
    end;
  po_no_inline : is_inline (e_kind (pe_entry p)) = false → e_inline (pe_entry p) = None;
  po_sketch : ∀ s, e_sketch (pe_entry p) = Some s → sketch_ok s;
  po_count : blen (e_delta_options (pe_entry p)) < 256;
  po_options : Forall (option_ok delta_length) (e_delta_options (pe_entry p))
}.

(** The stored bytes of a pending entry. *)
Definition stored_bytes (p : PendingEntry) : option (list Z) :=
  if is_inline (e_kind (pe_entry p)) then e_inline (pe_entry p)
  else if is_data (e_kind (pe_entry p)) then pe_body p else None.

Section write.
Context `{HB : Blake3} `{HU : UlidBytes}.
Variable decode : Codec → list Z → io (list Z).

Lemma prepare_entry_fields sketch p :
  let e := prepare_entry decode sketch p in
  e_hash e = e_hash (pe_entry p) ∧ e_start_lba e = e_start_lba (pe_entry p) ∧
  e_lba_length e = e_lba_length (pe_entry p) ∧ e_kind e = e_kind (pe_entry p) ∧
  e_stored_offset e = e_stored_offset (pe_entry p) ∧
  e_stored_length e = e_stored_length (pe_entry p) ∧ e_inline e = e_inline (pe_entry p) ∧
  e_delta_options e = e_delta_options (pe_entry p) ∧
  e_stored_hash e = stored_hash <$> stored_bytes p ∧
  (e_sketch e = e_sketch (pe_entry p) ∨ ∃ raw, e_sketch e = compute raw).
Proof.
  unfold prepare_entry, stored_bytes.
  destruct (wants_sketch sketch (pe_entry p)), (pe_body p) as [body|];
    try destruct (decode (e_codec (pe_entry p)) body) as [raw|];
    destruct p as [[? ? ? ? k ? ? ? ? ? ? ?] pb]; cbn [pe_entry e_kind with_sketch] in *;
    destruct k; cbn; repeat split; eauto.
Qed.

Lemma check_pending_ok dl p : pending_ok dl p → check_pending p = true.
Proof.
  intros [_ _ _ Hs _ _ _ _]. unfold check_pending. revert Hs.
  destruct (e_kind (pe_entry p)); cbn [is_data is_inline];
    repeat first [intros [-> Hs]|intros (body & -> & Hs)]; try reflexivity;
    destruct Hs as (i & -> & _); reflexivity.
Qed.

Lemma prepared_stored sketch dl p :
  pending_ok dl p → 0 ≤ e_stored_length (prepare_entry decode sketch p) < U32.
Proof.
  intros Hok. destruct (prepare_entry_fields sketch p) as (_ & _ & _ & _ & _ & -> & _).
  pose proof (po_stored _ _ Hok) as Hs. revert Hs.
  destruct (e_kind (pe_entry p)); naive_solver lia.
Qed.

(** Every placed entry is one the format can carry. *)
Lemma place_ok sketch dl ps ic bc bl il :
  Forall (pending_ok dl) ps → 0 ≤ ic → 0 ≤ bc → il < U64 → bl < U64 →
  ic + total is_inline (map (prepare_entry decode sketch) ps) ≤ il →
  bc + total is_data (map (prepare_entry decode sketch) ps) ≤ bl →
  Forall (entry_ok bl il dl) (place ic bc (map (prepare_entry decode sketch) ps)).
Proof.
  intros Hps. revert ic bc. induction Hps as [|p ps Hp Hps IH]; intros ic bc Hic Hbc Hil Hbl Hi Hb;
    [constructor|].
  cbn [map place total] in *.
  assert (Forall (λ e, 0 ≤ e_stored_length e) (map (prepare_entry decode sketch) ps)) as Hnn.
  { rewrite Forall_map. eapply Forall_impl; [exact Hps|]. intros q Hq.
    apply (prepared_stored sketch dl) in Hq. simpl. lia. }
  pose proof (total_nonneg is_inline _ Hnn). pose proof (total_nonneg is_data _ Hnn).
  pose proof (prepared_stored sketch dl p Hp) as Hlen.
  destruct (prepare_entry_fields sketch p) as (F1 & F2 & F3 & F4 & F5 & F6 & F7 & F8 & F9 & F10).
  set (e := prepare_entry decode sketch p) in *. rewrite F4 in *.
  pose proof (po_stored _ _ Hp) as Hst.
  assert (∀ s, e_sketch e = Some s → sketch_ok s) as Hsk.
  { intros s Hs. destruct F10 as [F10|[raw F10]].
    - apply (po_sketch _ _ Hp). by rewrite <-F10.
    - eapply compute_ok. by rewrite <-F10. }
  assert (∀ t, e_stored_hash e = Some t → length t = 16%nat) as Htag.
  { intros t. rewrite F9. intros (bs & _ & ->)%fmap_Some. unfold stored_hash, STORED_HASH_LEN.
    by rewrite length_take, blake3_length. }
  destruct Hp as [P1 P2 P3 _ _ _ P6 P7].
  assert (∀ o, 0 ≤ o < U64 → validate_entry_bounds (e_kind (pe_entry p)) o (e_stored_length e) bl il = Ok () →
            (has_body_bytes (e_kind (pe_entry p)) = true → is_Some (e_stored_hash e)) →
            entry_ok bl il dl (with_offset o e)) as Hmk.
  { intros o Ho Hv Ht. split; cbn [with_offset e_hash e_start_lba e_lba_length e_stored_offset
      e_stored_length e_kind e_stored_hash e_sketch e_delta_options];
      rewrite ?F1, ?F2, ?F3, ?F4, ?F8; try done; lia. }
  assert (with_offset (e_stored_offset e) e = e) as Hself by (by destruct e).
  destruct (e_kind (pe_entry p)) eqn:Hk; cbn [is_inline is_data has_body_bytes] in *;
    (constructor; [|apply IH; lia]).
  all: try (rewrite <-Hself; destruct Hst as (Hb0 & Ho0 & Hl0); rewrite F5, Ho0;
            apply Hmk; [lia|cbn; rewrite F6, Hl0; done|done]).
  all: apply Hmk; [lia|cbn; rewrite !decide_False by lia; done|intros _; rewrite F9; unfold stored_bytes;
                   rewrite Hk; cbn; apply fmap_is_Some; naive_solver].
Qed.

(** ** The body-bearing sections *)

Lemma at_pos_slice data pos x :
  at_pos data pos x → take (length x) (drop (Z.to_nat pos) data) = x.
Proof.
  intros (pre & post & -> & ->). unfold blen. by rewrite Nat2Z.id, drop_app_length, take_app_length.
Qed.

Lemma inline_section_cons e es :
  inline_section (e :: es) =
  (if is_inline (e_kind e) then default [] (e_inline e) else []) ++ inline_section es.
Proof. done. Qed.

Lemma blen_inline_section sketch dl ps ic bc :
  Forall (pending_ok dl) ps →
  blen (inline_section (place ic bc (map (prepare_entry decode sketch) ps))) =
  total is_inline (map (prepare_entry decode sketch) ps).
Proof.
  intros Hps. revert ic bc. induction Hps as [|p ps Hp _ IH]; intros ic bc; [done|].
  cbn [map place total].
  destruct (prepare_entry_fields sketch p) as (_ & _ & _ & F4 & _ & F6 & F7 & _).
  pose proof (po_stored _ _ Hp) as Hst. rewrite F4, F6.
  destruct (e_kind (pe_entry p)) eqn:Hk; cbn [is_inline is_data]; rewrite inline_section_cons;
    cbn [with_offset e_kind e_inline]; rewrite F4, ?Hk; cbn [is_inline app]; rewrite ?IH; try lia.
  all: destruct Hst as (_ & i & Hi & _ & Hl); rewrite F7, Hi, blen_app, IH; simpl; lia.
Qed.

Lemma blen_body_section sketch dl ps :
  Forall (pending_ok dl) ps →
  blen (body_section (map pe_body ps)) = total is_data (map (prepare_entry decode sketch) ps).
Proof.
  intros Hps. unfold body_section. induction Hps as [|p ps Hp _ IH]; [done|].
  cbn [map concat total]. rewrite blen_app, IH.
  destruct (prepare_entry_fields sketch p) as (_ & _ & _ & F4 & _ & F6 & _).
  pose proof (po_stored _ _ Hp) as Hst. rewrite F4, F6.
  destruct (e_kind (pe_entry p)); cbn [is_data].
  all: first [destruct Hst as (body & -> & _ & ->)|destruct Hst as [-> _]]; simpl; done.
Qed.

Lemma populate_roundtrip sketch dl ps ic bc inl :
  Forall (pending_ok dl) ps → 0 ≤ ic → blen inl < U32 →
  at_pos inl ic (inline_section (place ic bc (map (prepare_entry decode sketch) ps))) →
  populate_inline_bodies
    (map (with_inline_bytes None) (place ic bc (map (prepare_entry decode sketch) ps))) inl =
  Ok (place ic bc (map (prepare_entry decode sketch) ps)).
Proof.
  intros Hps. revert ic bc. induction Hps as [|p ps Hp _ IH]; intros ic bc Hic H32 Hat; [done|].
  cbn [map place] in *.
  destruct (prepare_entry_fields sketch p) as (_ & _ & _ & F4 & _ & F6 & F7 & _).
  pose proof (po_stored _ _ Hp) as Hst. pose proof (po_no_inline _ _ Hp) as Hni.
  set (e := prepare_entry decode sketch p) in *. rewrite F4 in *.
  unfold populate_inline_bodies in *.
  destruct (is_inline (e_kind (pe_entry p))) eqn:Hk.
  - assert (∃ i, e_inline (pe_entry p) = Some i ∧ 0 < blen i < U32 ∧
              e_stored_length (pe_entry p) = blen i) as (i & Hi & Hb & Hl).
    { destruct (e_kind (pe_entry p)); try done; naive_solver. }
    rewrite inline_section_cons in Hat. cbn [with_offset e_kind e_inline] in Hat.
    rewrite F4, ?Hk, F7, Hi in Hat. cbn [default from_option id] in Hat.
    apply at_pos_app in Hat as [Ha1 Hat]. rewrite F6, Hl in *.
    cbn [map mapM]. cbn [with_offset with_inline_bytes e_stored_length e_kind e_stored_offset].
    rewrite F4, ?Hk, F6, ?Hl, bool_decide_false by lia. cbn [orb negb].
    pose proof (at_pos_bound _ _ _ Ha1). rewrite !decide_False by lia.
    replace (Z.to_nat (blen i)) with (length i) by (unfold blen; lia).
    rewrite (at_pos_slice _ _ _ Ha1). unfold mbind, io_bind. rewrite IH by (done || lia).
    unfold mret, io_ret. do 2 f_equal. unfold with_offset, with_inline_bytes. cbn. by rewrite F7, Hi.
  - assert (∀ e', e_kind e' = e_kind e → e_inline e' = e_inline e →
              with_inline_bytes None e' = e') as Hstrip.
    { intros e' _ Hin. rewrite F7, Hni in Hin by done. destruct e'; simpl in *. by rewrite Hin. }
    destruct (is_data (e_kind (pe_entry p))).
    + rewrite inline_section_cons in Hat. cbn [with_offset e_kind] in Hat. rewrite F4, ?Hk in Hat.
      cbn [map mapM]. rewrite (Hstrip (with_offset bc e)) by done.
      cbn [with_offset e_kind]. rewrite F4, ?Hk, orb_true_r. unfold mbind, io_bind.
      by rewrite IH by (done || lia).
    + rewrite inline_section_cons, F4, ?Hk in Hat.
      cbn [map mapM]. rewrite (Hstrip e) by done. rewrite F4, ?Hk, orb_true_r.
      unfold mbind, io_bind. by rewrite IH by (done || lia).
Qed.

Lemma read_bodies_roundtrip sketch dl ps ic bc file bss :
  Forall (pending_ok dl) ps →
  at_pos file (bss + bc) (body_section (map pe_body ps)) →
  read_body_section_bodies file bss (place ic bc (map (prepare_entry decode sketch) ps)) =
  Ok (zip_with (λ e p, mkPendingEntry e (pe_body p))
        (place ic bc (map (prepare_entry decode sketch) ps)) ps).
Proof.
  intros Hps. revert ic bc. induction Hps as [|p ps Hp _ IH]; intros ic bc Hat; [done|].
  cbn [map place] in *. unfold body_section in Hat. cbn [map concat] in Hat.
  destruct (prepare_entry_fields sketch p) as (_ & _ & _ & F4 & _ & F6 & _).
  pose proof (po_stored _ _ Hp) as Hst. set (e := prepare_entry decode sketch p) in *.
  rewrite F4 in *. unfold read_body_section_bodies in *.
  destruct (e_kind (pe_entry p)) eqn:Hk; cbn [is_inline is_data] in *.
  all: lazymatch type of Hst with
       | ex _ => destruct Hst as (body & Hb & Hbl & Hl)
       | _ => destruct Hst as [Hb _]
       end; rewrite Hb in Hat; cbn [default from_option id] in Hat.
  all: cbn [mapM zip_with]; cbn [with_offset e_kind e_stored_length e_stored_offset];
    rewrite F4, ?Hk; cbn [is_data]; rewrite ?andb_false_r, ?andb_true_r.
  all: try (cbn [app] in Hat; unfold mbind, io_bind; rewrite IH by done; by rewrite Hb).
  all: apply at_pos_app in Hat as [Ha1 Hat]; rewrite F6, Hl in *;
    rewrite bool_decide_true by lia; unfold read_exact_at;
    pose proof (at_pos_bound _ _ _ Ha1); rewrite decide_False by lia;
    replace (Z.to_nat (blen body)) with (length body) by (unfold blen; lia);
    rewrite (at_pos_slice _ _ _ Ha1); unfold mbind, io_bind;
    rewrite IH by (by rewrite Z.add_assoc); by rewrite Hb.
Qed.
End write.

(** ** What a parse guarantees *)

(** An entry addresses bytes its sections hold. *)
Definition in_section (body_length inline_length : Z) (e : SegmentEntry) : Prop :=
  match e_kind e with
  | Data | CanonicalData => e_stored_offset e + e_stored_length e ≤ body_length
  | Inline | CanonicalInline => e_stored_offset e + e_stored_length e ≤ inline_length
  | DedupRef | Zero | Delta | CanonicalDelta => e_stored_offset e = 0 ∧ e_stored_length e = 0
  end.

Definition option_bounded (dl : Z) (o : DeltaOption) : Prop :=
  Segment.delta_offset o + Segment.delta_length o < U64 ∧
  (0 < dl → Segment.delta_offset o + Segment.delta_length o ≤ dl).

Definition entry_safe (bl il dl : Z) (e : SegmentEntry) : Prop :=
  in_section bl il e ∧ Forall (option_bounded dl) (e_delta_options e).

Definition has_tag (e : SegmentEntry) : Prop :=
  has_body_bytes (e_kind e) = true → is_Some (e_stored_hash e).

Lemma validate_in_section k o l bl il :
  validate_entry_bounds k o l bl il = Ok () →
  match k with
  | Data | CanonicalData => o + l ≤ bl
  | Inline | CanonicalInline => o + l ≤ il
  | DedupRef | Zero | Delta | CanonicalDelta => o = 0 ∧ l = 0
  end.
Proof.
  unfold validate_entry_bounds. destruct k; repeat case_decide; try done; intros _; lia.
Qed.

Lemma Forall_alter_any {A} (P : A → Prop) (f : A → A) i (l : list A) :
  Forall P l → (∀ x, P x → P (f x)) → Forall P (alter f i l).
Proof. intros Hl Hf. apply Forall_alter; auto. Qed.

Lemma tagged_spec entries : tagged entries = true → Forall has_tag entries.
Proof.
  unfold tagged. rewrite forallb_forall, Forall_forall. intros Ht e He%list_elem_of_In Hb.
  specialize (Ht e He). rewrite Hb in Ht. simpl in Ht.
  destruct (e_stored_hash e); [by eexists|]. by rewrite bool_decide_true in Ht.
Qed.

Section safety.
Context `{HB : Blake3} `{HU : UlidBytes}.
Variables bl il dl : Z.

Lemma lift_io_Ok {A} (r : io A) data pos a pos' :
  lift_io r data pos = Ok (a, pos') → r = Ok a ∧ pos' = pos.
Proof. unfold lift_io. destruct r; [|done]. by intros [= -> ->]. Qed.

Lemma parse_base_entry_safe i st data pos st' pos' :
  0 ≤ pos → parse_base_entry bl il i st data pos = Ok (st', pos') →
  pos ≤ pos' ∧ ∃ e, st'.1 = st.1 ++ [e] ∧ entry_safe bl il dl e.
Proof.
  intros Hp Hr. unfold parse_base_entry in Hr. do 7 inv_read Hr.
  apply bind_Ok in Hr as (c & q & Hc & Hr). apply lift_io_Ok in Hc as [_ ->].
  inv_read Hr. apply bind_Ok in Hr as (u & q & Hv & [= <- <-]). apply lift_io_Ok in Hv as [Hv ->].
  destruct u. apply validate_in_section in Hv. split; [lia|].
  eexists. split; [done|]. split; [exact Hv|]. constructor.
Qed.

Lemma parse_base_entries_safe n i st data pos st' pos' :
  0 ≤ pos → Forall (entry_safe bl il dl) st.1 →
  for_range n i (parse_base_entry bl il) st data pos = Ok (st', pos') →
  pos ≤ pos' ∧ Forall (entry_safe bl il dl) st'.1 ∧ length st'.1 = (length st.1 + n)%nat.
Proof.
  revert i st pos. induction n as [|n IH]; intros i st pos Hp Hst; cbn [for_range].
  { intros [= <- <-]. split_and!; [lia|done|lia]. }
  rewrite bind_Ok. intros (st1 & p1 & Hb & Hr).
  apply parse_base_entry_safe in Hb as (Hp1 & e & He & Hs); [|done].
  destruct (IH (i + 1) st1 p1) as (? & ? & Hlen); [lia| |done|].
  { rewrite He. apply Forall_app; split; [done|]. by apply Forall_singleton. }
  rewrite He, length_app in Hlen. simpl in Hlen. split_and!; [lia|done|lia].
Qed.

(** The shape the three table passes preserve. *)
Definition safe_entries (n : nat) (entries : list SegmentEntry) : Prop :=
  length entries = n ∧ Forall (entry_safe bl il dl) entries.

Lemma parse_sketch_section_safe n entries data pos entries' pos' :
  0 ≤ pos → safe_entries n entries → parse_sketch_section entries data pos = Ok (entries', pos') →
  pos ≤ pos' ∧ safe_entries n entries'.
Proof.
  intros Hp Hs. unfold parse_sketch_section, section_end. rewrite bind_Ok.
  intros (stop & p & Hend & Hw). inv_read Hend. unfold check_section in Hend.
  repeat (case_decide; [done|]). injection Hend as <- <-.
  apply (while_lt_inv (λ st _, safe_entries n st)) in Hw as (? & ? & ?);
    [split; [lia|done]|apply parse_sketch_record_advances|lia| |done].
  intros st q st' q' [Hl Hf] Hq Hb. unfold parse_sketch_record in Hb. inv_read Hb.
  apply bind_Ok in Hb as (sf & ? & _ & Hb). case_decide; [done|]. injection Hb as <- _.
  split; [by rewrite length_alter|]. apply Forall_alter_any; [done|]. by intros ? [? ?].
Qed.

Lemma parse_stored_hash_section_safe n entries data pos entries' pos' :
  0 ≤ pos → safe_entries n entries → parse_stored_hash_section entries data pos = Ok (entries', pos') →
  pos ≤ pos' ∧ safe_entries n entries' ∧ Forall has_tag entries'.
Proof.
  intros Hp Hs. unfold parse_stored_hash_section, section_end. rewrite bind_Ok.
  intros (stop & p & Hend & Hw). inv_read Hend. unfold check_section in Hend.
  repeat (case_decide; [done|]). injection Hend as <- <-.
  apply bind_Ok in Hw as (es & q & Hw & Ht).
  apply (while_lt_inv (λ st _, safe_entries n st)) in Hw as (Hs' & ? & ?).
  - destruct (tagged es) eqn:Htag; [|done]. injection Ht as <- <-.
    split; [lia|]. split; [done|]. by apply tagged_spec.
  - apply parse_stored_hash_record_advances.
  - lia.
  - intros st r st' r' [Hl Hf] Hr Hb. unfold parse_stored_hash_record in Hb. inv_read Hb. inv_read Hb.
    case_decide; [done|]. injection Hb as <- _.
    split; [by rewrite length_alter|]. apply Forall_alter_any; [done|]. by intros ? [? ?].
  - done.
Qed.

Lemma parse_delta_option_safe i opts data pos opts' pos' :
  0 ≤ pos → Forall (option_bounded dl) opts → parse_delta_option dl i opts data pos = Ok (opts', pos') →
  pos ≤ pos' ∧ Forall (option_bounded dl) opts'.
Proof.
  intros Hp Ho Hr. split; [by eapply parse_delta_option_mono|].
  unfold parse_delta_option in Hr. do 5 inv_read Hr.
  case_decide; [done|]. case_decide; [done|]. injection Hr as <- _.
  apply Forall_app; split; [done|]. apply Forall_singleton. split; simpl; lia.
Qed.

Lemma parse_delta_table_safe n entries data pos entries' pos' :
  0 ≤ pos → safe_entries n entries → Forall has_tag entries →
  parse_delta_table entries dl data pos = Ok (entries', pos') →
  safe_entries n entries' ∧ Forall has_tag entries'.
Proof.
  intros Hp Hs Ht Hw. unfold parse_delta_table in Hw.
  apply (while_lt_inv (λ st _, safe_entries n st ∧ Forall has_tag st)) in Hw as (? & _);
    [done|apply parse_delta_record_advances|done| |done].
  intros st q st' q' [[Hl Hf] Htag] Hq Hb. unfold parse_delta_record in Hb. inv_read Hb. inv_read Hb.
  case_decide; [done|]. apply bind_Ok in Hb as (opts & r & Hfr & [= <- _]).
  apply (for_range_inv (λ o r, 0 ≤ r ∧ Forall (option_bounded dl) o)) in Hfr as [_ Hopts].
  - split; [split|].
    + by rewrite length_alter.
    + apply Forall_alter_any; [done|]. intros ? [? _]. by split.
    + apply Forall_alter_any; [done|]. by intros ? ?.
  - intros i o r1 o' r2 [Hr1 Ho] Hb. apply parse_delta_option_safe in Hb as [? ?]; [|done..].
    split; [lia|done].
  - split; [lia|constructor].
Qed.

Lemma parse_inputs_length fuel data pos inputs :
  0 ≤ pos → parse_inputs fuel data pos = Ok inputs → pos ≤ blen data →
  pos + 16 * blen inputs = blen data.
Proof.
  revert pos inputs. induction fuel as [|fuel IH]; intros pos inputs Hp; cbn [parse_inputs].
  { case_decide; [done|]. intros [= <-] ?. change (blen (@nil Ulid)) with 0. lia. }
  case_decide; [|intros [= <-] ?; change (blen (@nil Ulid)) with 0; lia].
  destruct (read_fixed 16 data pos) as [[bs p]|] eqn:Hr; [|done].
  apply read_fixed_Ok in Hr as (-> & ? & _); [|done].
  rewrite io_bind_Ok. intros (rest & Hrest & [= <-]) _. apply IH in Hrest; [|lia..].
  rewrite blen_cons. lia.
Qed.

(** Whatever the declared lengths, the entries of a successful parse are safe. *)
Lemma parse_index_section_entries data n ilen entries inputs :
  parse_index_section data n ilen bl il dl = Ok (entries, inputs) →
  length entries = Z.to_nat n ∧ Forall (entry_safe bl il dl) entries ∧ Forall has_tag entries ∧
  ilen mod 16 = 0 ∧ ilen ≤ blen data ∧ n * 64 ≤ blen (take (Z.to_nat (blen data - ilen)) data) ∧
  parse_inputs (length (drop (Z.to_nat (blen data - ilen)) data))
    (drop (Z.to_nat (blen data - ilen)) data) 0 = Ok inputs.
Proof.
  unfold parse_index_section. case_decide as Hmod; [done|]. case_decide as Hd; [done|].
  set (ed := take _ data). case_decide as Hb; [done|].
  rewrite io_bind_Ok. intros ([[es hd] p1] & Hq1 & Hr).
  apply (parse_base_entries_safe) in Hq1 as (Hp1 & Hf & Hlen); [|lia|constructor].
  cbn [fst] in *. assert (safe_entries (Z.to_nat n) es) as Hs1 by (split; [simpl in Hlen; lia|done]).
  apply io_bind_Ok in Hr as ([es2 p2] & Hq2 & Hr).
  apply (parse_sketch_section_safe (Z.to_nat n)) in Hq2 as [Hp2 Hs2]; [|lia|done].
  apply io_bind_Ok in Hr as ([es3 p3] & Hq3 & Hr).
  apply (parse_stored_hash_section_safe (Z.to_nat n)) in Hq3 as (Hp3 & Hs3 & Ht3); [|lia|done].
  apply io_bind_Ok in Hr as ([es4 p4] & Hq4 & Hr).
  assert (safe_entries (Z.to_nat n) es4 ∧ Forall has_tag es4) as [[Hl4 Hf4] Ht4].
  { destruct (hd && bool_decide (p3 < blen ed)); [|by injection Hq4 as <- <-].
    eapply parse_delta_table_safe; [|exact Hs3|exact Ht3|exact Hq4]. lia. }
  apply io_bind_Ok in Hr as (ins & Hq5 & [= <- <-]).
  unfold IDX_ENTRY_LEN, INPUT_ULID_LEN in *. split_and!; try done; lia.
Qed.
End safety.

(** C28: parsing never trusts the bytes: whatever the index section and the
    header's lengths are, a parse that succeeds yields exactly the declared
    number of entries, each addressing bytes inside its section (and thin
    entries none), each body-bearing entry carrying an authentication tag, each
    delta option inside the delta section (when the segment has one), and one
    input per 16 declared bytes. *)
Theorem parse_index_section_safe `{Blake3} `{UlidBytes} data n ilen bl il dl entries inputs :
  0 ≤ n → 0 ≤ ilen → parse_index_section data n ilen bl il dl = Ok (entries, inputs) →
  blen entries = n ∧ Forall (entry_safe bl il dl) entries ∧ Forall has_tag entries ∧
  16 * blen inputs = ilen ∧ n * 64 + ilen ≤ blen data.
Proof.
  intros Hn Hil (Hlen & Hsafe & Htag & Hmod & Hi & Hb & Hins)%parse_index_section_entries.
  apply parse_inputs_length in Hins; [|lia|apply blen_nonneg].
  unfold blen in *. rewrite length_take in Hb. rewrite length_drop in Hins. split_and!; (done || lia).
Qed.

(** ** Properties of a whole file *)

#[local] Existing Instance toy_blake3.
#[local] Existing Instance toy_ulid_bytes.
#[local] Existing Instance toy_signer.
#[local] Existing Instance toy_verifier.

Definition raw_decode (_ : Codec) (stored : list Z) : io (list Z) := Ok stored.

Definition sample_pending : list PendingEntry :=
  [new_data (replicate 32 5) 7 1 CodecNone (replicate 300 9);
   new_data (replicate 32 6) 8 1 CodecNone (replicate 30 8);
   mkPendingEntry (new_zero 100 4) None;
   mkPendingEntry (new_delta (replicate 32 3) 20 1 [mkDeltaOption (replicate 32 5) 0 4 (replicate 16 1)])
     None].

Definition sample_file : list Z :=
  match write_segment_full raw_decode sample_pending [1; 2; 3; 4] [55] true with
  | Ok (f, _, _) => f
  | Err _ => []
  end.

Definition sample_index : list Z :=
  match read_segment_header sample_file with Ok (_, b, _) => b | Err _ => [] end.

Lemma parse_index_section_safe_witness :
  ∃ entries inputs, parse_index_section sample_index 4 16 300 30 4 = Ok (entries, inputs) ∧
    blen entries = 4 ∧ Forall (entry_safe 300 30 4) entries ∧ 16 * blen inputs = 16.
Proof.
  destruct (parse_index_section sample_index 4 16 300 30 4) as [[es ins]|] eqn:E;
    [|vm_compute in E; discriminate E].
  exists es, ins. split; [reflexivity|].
  destruct (parse_index_section_safe sample_index 4 16 300 30 4 es ins) as (H1 & H2 & _ & H3 & _);
    [lia|lia|exact E|].
  split; [exact H1|]. split; [exact H2|exact H3].
Defined.

(** The sizes a segment's fields can hold. *)
Definition sizes_ok `{Blake3} `{UlidBytes} (entries : list SegmentEntry) (inputs : list Ulid)
    (delta_body : list Z) : Prop :=
  blen (index_section entries inputs) < U32 ∧ total is_inline entries < U32 ∧
  total is_data entries < U64 ∧ blen delta_body < U32.

Lemma total_place P ic bc es : total P (place ic bc es) = total P es.
Proof.
  revert ic bc. induction es as [|e es IH]; intros ic bc; [done|]. cbn [place total].
  destruct (is_inline (e_kind e)), (is_data (e_kind e)); cbn [total with_offset e_kind e_stored_length];
    by rewrite IH.
Qed.

(** What the writer puts in the file. *)
Lemma write_segment_layout `{Blake3} `{UlidBytes} `{Signer} decode pending delta_body inputs sketch :
  let prepared := map (prepare_entry decode sketch) pending in
  let entries := place 0 0 prepared in
  let index_buf := index_section entries inputs in
  Forall (pending_ok (blen delta_body)) pending → sizes_ok entries inputs delta_body →
  let h := signed_header (blen entries) (blen index_buf) (total is_inline entries)
             (total is_data entries) (blen delta_body) (16 * blen inputs) index_buf in
  let bss := HEADER_LEN + blen index_buf + total is_inline entries in
  header_ok h ∧
  blen (inline_section entries) = total is_inline entries ∧
  blen (body_section (map pe_body pending)) = total is_data entries ∧
  Forall (entry_ok (total is_data entries) (total is_inline entries) (blen delta_body)) entries ∧
  write_segment_full decode pending delta_body inputs sketch =
  Ok (header_bytes h ++ index_buf ++ inline_section entries ++ body_section (map pe_body pending)
        ++ delta_body, bss, entries).
Proof.
  intros prepared entries index_buf Hpend (S1 & S2 & S3 & S4) h bss.
  assert (Forall (λ e, 0 ≤ e_stored_length e) prepared) as Hnn.
  { unfold prepared. rewrite Forall_map. eapply Forall_impl; [exact Hpend|]. intros p Hp.
    apply (prepared_stored decode sketch) in Hp. simpl. lia. }
  pose proof (total_place is_inline 0 0 prepared) as Ht1. fold entries in Ht1.
  pose proof (total_place is_data 0 0 prepared) as Ht2. fold entries in Ht2.
  pose proof (total_nonneg is_inline _ Hnn). pose proof (total_nonneg is_data _ Hnn).
  assert (Forall (entry_ok (total is_data entries) (total is_inline entries) (blen delta_body)) entries)
    as Hok by (apply (place_ok decode sketch); try done; unfold prepared in *; lia).
  pose proof (blen_inline_section decode sketch (blen delta_body) pending 0 0 Hpend) as Hi.
  pose proof (blen_body_section decode sketch (blen delta_body) pending Hpend) as Hb.
  fold prepared in Hi, Hb. fold entries in Hi. rewrite <-Ht1 in Hi. rewrite <-Ht2 in Hb.
  pose proof (blen_nonneg entries). pose proof (blen_nonneg inputs). pose proof (blen_nonneg delta_body).
  fold index_buf in S1. assert (blen index_buf = blen (entries_region entries) + 16 * blen inputs) as Hidx.
  { unfold index_buf. by rewrite index_section_split, blen_app, blen_inputs. }
  pose proof (blen_nonneg (entries_region entries)).
  assert (blen (concat (map write_index_entry entries)) ≤ blen (entries_region entries)) as Hn.
  { unfold entries_region. rewrite blen_app.
    pose proof (blen_nonneg (write_sketch_section entries ++ write_stored_hash_section entries ++
                             write_delta_table entries)). lia. }
  erewrite blen_base_entries in Hn by exact Hok.
  assert (header_ok h) as Hh.
  { split; cbn; try done; try lia. apply sign_length. }
  split_and!; try done.
  unfold write_segment_full. replace (forallb check_pending pending) with true.
  2: { symmetry. apply forallb_forall. intros p Hp%list_elem_of_In.
       rewrite Forall_forall in Hpend. by eapply check_pending_ok, Hpend. }
  unfold assign_offsets. fold prepared. rewrite assign_fold by (done || lia).
  rewrite !Z.add_0_l, app_nil_l. fold entries. rewrite <-Ht1, <-Ht2.
  rewrite (entries_region_length_eq _ _ _ _ Hok) by lia.
  unfold inputs_region_length, INPUT_ULID_LEN. rewrite (Z.mul_comm (blen inputs)).
  unwrap. rewrite <-Hidx. fold index_buf h bss. do 3 f_equal.
  unfold set_len. set (file := header_bytes h ++ _).
  assert (blen file = bss + total is_data entries + blen delta_body) as Hf.
  { unfold file, bss. rewrite !blen_app, (blen_header h Hh), Hi, Hb. unfold HEADER_LEN. lia. }
  rewrite <-Hf. unfold blen. rewrite Nat2Z.id, firstn_all, Nat.sub_diag. simpl.
  by rewrite app_nil_r.
Qed.

Lemma parse_with_header_roundtrip `{Blake3} `{UlidBytes} `{Signer} bl il dl entries inputs index_buf :
  Forall (entry_ok bl il dl) entries → Forall (λ u, 0 ≤ u < 2 ^ 128) inputs →
  index_buf = index_section entries inputs → blen index_buf < U32 →
  parse_with_header index_buf
    (signed_header (blen entries) (blen index_buf) il bl dl (16 * blen inputs) index_buf) =
  Ok (map (with_inline_bytes None) entries, inputs).
Proof. intros Hok Hin -> Hl. by apply parse_index_section_roundtrip. Qed.

(** ** A file described by its header *)

Section described.
Context `{HB : Blake3} `{HU : UlidBytes}.
Variables (h : SegmentHeader) (index_buf rest : list Z).
Hypothesis (Hok : header_ok h) (Hmagic : h_magic h = MAGIC)
  (Hindex : h_index_length h = blen index_buf).

Lemma described_slices :
  take 36 (header_bytes h ++ index_buf ++ rest) = header_prefix h ∧
  take 100 (header_bytes h ++ index_buf ++ rest) = header_bytes h ∧
  drop 100 (header_bytes h ++ index_buf ++ rest) = index_buf ++ rest.
Proof.
  pose proof (blen_header_prefix h Hok) as H36. pose proof (blen_header h Hok) as H100.
  replace 100%nat with (length (header_bytes h)) by (unfold blen in H100; lia).
  rewrite take_app_length, drop_app_length. split; [|done].
  unfold header_bytes. rewrite <-app_assoc.
  replace 36%nat with (length (header_prefix h)) by (unfold blen in H36; lia).
  by rewrite take_app_length.
Qed.

Lemma described_verifies `{Signer} `{Verifier} :
  h_signature h = sign (signing_digest (header_prefix h) index_buf) →
  (∀ msg, verify_strict msg (sign msg) = true) → (∀ msg, sign msg ≠ UNSIGNED) →
  verify_segment_bytes (header_bytes h ++ index_buf ++ rest) = Ok ().
Proof.
  intros Hsig Hsign Huns. destruct described_slices as (H36 & H100 & Hd).
  pose proof (blen_nonneg rest). pose proof (blen_nonneg index_buf).
  unfold verify_segment_bytes. rewrite !blen_app, blen_header by done. change HEADER_LEN with 100.
  rewrite decide_False by lia. change (Z.to_nat 100) with 100%nat.
  rewrite H100, read_header_at by done. unfold mbind, io_bind.
  rewrite decide_False by (intros Hm; by apply Hm). rewrite Hindex.
  rewrite decide_False by lia. rewrite decide_False by (rewrite Hsig; apply Huns).
  change (Z.to_nat HEADER_SIGNED_PREFIX) with 36%nat.
  replace (Z.to_nat (blen index_buf)) with (length index_buf) by (unfold blen; lia).
  by rewrite H36, Hd, take_app_length, Hsig, Hsign.
Qed.

Lemma described_inline inl rest' :
  rest = inl ++ rest' → h_inline_length h = blen inl →
  read_inline_section (header_bytes h ++ index_buf ++ rest) = Ok inl.
Proof.
  intros -> Hl. unfold read_inline_section. change HEADER_LEN with 100.
  pose proof (blen_header h Hok) as H100.
  pose proof (read_exact_at_app [] (header_bytes h) (index_buf ++ inl ++ rest')) as Hr0.
  rewrite H100 in Hr0. change (blen (@nil Z)) with 0 in Hr0. cbn [app] in Hr0.
  rewrite Hr0. unfold mbind, io_bind. rewrite read_header_at by done.
  rewrite Hl, Hindex. case_decide as Hz.
  - f_equal. symmetry. apply length_zero_iff_nil. unfold blen in Hz. lia.
  - pose proof (read_exact_at_app (header_bytes h ++ index_buf) inl rest') as Hr.
    by rewrite blen_app, H100, <-app_assoc in Hr.
Qed.
End described.

(** C9: a written segment reads back: under the format's field widths the write
    succeeds, the unverified and the verified readers return the entries with
    their assigned offsets (inline bytes are read separately) and the inputs,
    the inline section and every body read back byte for byte, and the file
    verifies under the signing key. *)
Theorem write_read_roundtrip `{Blake3} `{UlidBytes} `{Signer} `{Verifier} decode pending delta_body
    inputs sketch :
  let entries := place 0 0 (map (prepare_entry decode sketch) pending) in
  Forall (pending_ok (blen delta_body)) pending → Forall (λ u, 0 ≤ u < 2 ^ 128) inputs →
  sizes_ok entries inputs delta_body →
  (∀ msg, verify_strict msg (sign msg) = true) → (∀ msg, sign msg ≠ UNSIGNED) →
  ∃ file bss,
    write_segment_full decode pending delta_body inputs sketch = Ok (file, bss, entries) ∧
    read_segment_index file = Ok (bss, map (with_inline_bytes None) entries, inputs) ∧
    read_and_verify_segment_index file = Ok (bss, map (with_inline_bytes None) entries, inputs) ∧
    verify_segment_bytes file = Ok () ∧
    read_inline_section file = Ok (inline_section entries) ∧
    read_extent_bodies file bss (map (with_inline_bytes None) entries) (inline_section entries) =
      Ok (zip_with (λ e p, mkPendingEntry e (pe_body p)) entries pending).
Proof.
  intros entries Hpend Hin Hsz Hsign Huns.
  destruct (write_segment_layout decode pending delta_body inputs sketch Hpend Hsz)
    as (Hh & Hi & Hb & Hok & Hw).
  fold entries in Hh, Hi, Hb, Hok, Hw.
  set (index_buf := index_section entries inputs) in *.
  set (h := signed_header _ _ _ _ _ _ _) in *.
  set (rest := inline_section entries ++ body_section (map pe_body pending) ++ delta_body) in *.
  set (bss := HEADER_LEN + blen index_buf + total is_inline entries) in *.
  exists (header_bytes h ++ index_buf ++ rest), bss. split; [done|].
  destruct Hsz as (S1 & S2 & S3 & S4).
  pose proof (read_segment_header_at h index_buf rest Hh eq_refl eq_refl) as Hread.
  pose proof (parse_with_header_roundtrip _ _ _ _ _ index_buf Hok Hin eq_refl S1) as Hparse.
  fold h in Hparse.
  destruct (described_slices h index_buf rest Hh) as (Hpre & _ & _).
  pose proof (blen_header h Hh) as Hl100.
  pose proof (blen_nonneg rest). pose proof (blen_nonneg index_buf).
  assert (h_signature h = sign (signing_digest (header_prefix h) index_buf)) as Hsig by done.
  split_and!.
  - unfold read_segment_index. rewrite Hread. unfold mbind, io_bind. by rewrite Hparse.
  - unfold read_and_verify_segment_index. rewrite Hread. unfold mbind, io_bind.
    rewrite decide_False by (rewrite Hsig; apply Huns).
    change (Z.to_nat HEADER_SIGNED_PREFIX) with 36%nat. rewrite Hpre, Hsig, Hsign. by rewrite Hparse.
  - by eapply described_verifies.
  - by apply (described_inline h index_buf rest Hh eq_refl (inline_section entries)
                (body_section (map pe_body pending) ++ delta_body)).
  - unfold read_extent_bodies, entries at 1 2.
    rewrite (populate_roundtrip decode sketch (blen delta_body)); [|done|done| |].
    + unfold mbind, io_bind. apply (read_bodies_roundtrip decode sketch (blen delta_body)); [done|].
      exists (header_bytes h ++ index_buf ++ inline_section entries), delta_body. split.
      * unfold rest. by rewrite <-!app_assoc.
      * rewrite !blen_app, Hl100, Hi. unfold bss, HEADER_LEN. lia.
    + fold entries. lia.
    + fold entries. exists [], []. by rewrite app_nil_r.
Qed.

Lemma sample_pending_ok : Forall (pending_ok 4) sample_pending.
Proof.
  repeat apply Forall_cons_2; [| | | |constructor];
    (split; cbn; try done; try (eexists; split; [reflexivity|done]);
     try (split; [reflexivity|eexists; split; [reflexivity|done]]); try apply Forall_nil_2).
  apply Forall_cons_2; [by repeat split|constructor].
Qed.

Lemma toy_signs msg : verify_strict msg (sign msg) = true.
Proof. cbn. by apply bool_decide_eq_true. Qed.

Lemma write_read_roundtrip_witness :
  ∃ file bss,
    write_segment_full raw_decode sample_pending [1; 2; 3; 4] [55] true = Ok (file, bss,
      place 0 0 (map (prepare_entry raw_decode true) sample_pending)) ∧
    read_and_verify_segment_index file = Ok (bss, map (with_inline_bytes None)
      (place 0 0 (map (prepare_entry raw_decode true) sample_pending)), [55]).
Proof.
  destruct (write_read_roundtrip raw_decode sample_pending [1; 2; 3; 4] [55] true)
    as (file & bss & Hw & _ & Hr & _).
  - exact sample_pending_ok.
  - apply Forall_singleton. lia.
  - unfold sizes_ok. vm_compute. repeat split; reflexivity.
  - apply toy_signs.
  - intros msg. discriminate.
  - exists file, bss. split; [exact Hw|exact Hr].
Defined.

(** ** Re-signing *)

Lemma read_header_inv raw h p :
  bytes_ok raw → blen raw = 100 → read_header raw 0 = Ok (h, p) → header_ok h ∧ raw = header_bytes h.
Proof.
  intros Hb Hl Hr. unfold read_header in Hr.
  apply bind_Ok in Hr as (x1 & q1 & Hx & Hr). apply read_fixed_at_inv in Hx as (A1 & L1 & ->); [|done].
  apply bind_Ok in Hr as (x2 & q2 & Hx & Hr). apply read_u32_at_inv in Hx as (A2 & R2 & ->); [|lia|done].
  apply bind_Ok in Hr as (x3 & q3 & Hx & Hr). apply read_u32_at_inv in Hx as (A3 & R3 & ->); [|lia|done].
  apply bind_Ok in Hr as (x4 & q4 & Hx & Hr). apply read_u32_at_inv in Hx as (A4 & R4 & ->); [|lia|done].
  apply bind_Ok in Hr as (x5 & q5 & Hx & Hr). apply read_u64_at_inv in Hx as (A5 & R5 & ->); [|lia|done].
  apply bind_Ok in Hr as (x6 & q6 & Hx & Hr). apply read_u32_at_inv in Hx as (A6 & R6 & ->); [|lia|done].
  apply bind_Ok in Hr as (x7 & q7 & Hx & Hr). apply read_u32_at_inv in Hx as (A7 & R7 & ->); [|lia|done].
  apply bind_Ok in Hr as (x8 & q8 & Hx & Hr). apply read_fixed_at_inv in Hx as (A8 & L8 & ->); [|lia].
  injection Hr as <- _.
  assert (header_ok (mkHeader x1 x2 x3 x4 x5 x6 x7 x8)) as Hok by (split; cbn; done).
  split; [done|]. apply at_pos_whole; [|by rewrite blen_header].
  unfold header_bytes, header_prefix. cbn [h_magic h_entry_count h_index_length h_inline_length
    h_body_length h_delta_length h_inputs_length h_signature]. rewrite <-!app_assoc.
  assert (blen x1 = 8) as B1 by (unfold blen; by rewrite L1).
  repeat (apply at_pos_app; rewrite ?blen_le_bytes, ?B1; split; [assumption|]). exact A8.
Qed.

(** What a header read off a file says about it. *)
Lemma read_segment_header_inv file bss index_buf h :
  bytes_ok file → read_segment_header file = Ok (bss, index_buf, h) →
  header_ok h ∧ (∃ p, read_header (take 100 file) 0 = Ok (h, p)) ∧
  read_exact_at file 0 HEADER_LEN = Ok (take 100 file) ∧
  bss = HEADER_LEN + h_index_length h + h_inline_length h.
Proof.
  intros Hb. unfold read_segment_header. rewrite io_bind_Ok. intros (raw & Hraw & Hr).
  pose proof Hraw as Hraw0. unfold read_exact_at in Hraw. case_decide as Hl; [done|]. injection Hraw as <-.
  change HEADER_LEN with 100 in Hl. rewrite drop_0 in *.
  apply io_bind_Ok in Hr as ([h' p] & Hh & Hr). case_decide; [done|].
  apply io_bind_Ok in Hr as (ib & Hib & [= <- <- <-]).
  split; [|split; [by exists p|done]].
  eapply read_header_inv; [| |exact Hh].
  - by apply Forall_take.
  - unfold blen in *. rewrite length_take. change (Z.to_nat HEADER_LEN) with 100%nat. lia.
Qed.

(** A parsed entry's inline bytes are all in the inline section. *)
Lemma inline_section_complete `{Blake3} `{UlidBytes} file bss entries inputs bytes :
  bytes_ok file → read_segment_index file = Ok (bss, entries, inputs) →
  read_inline_section file = Ok bytes →
  Forall (λ e, is_inline (e_kind e) = true → e_stored_offset e + e_stored_length e ≤ blen bytes) entries.
Proof.
  intros Hb Hr Hi. unfold read_segment_index in Hr.
  apply io_bind_Ok in Hr as ([[b ib] h] & Hh & Hr).
  apply io_bind_Ok in Hr as ([es ins] & Hp & [= <- <- <-]). unfold parse_with_header in Hp.
  apply parse_index_section_entries in Hp as (_ & Hsafe & _).
  apply read_segment_header_inv in Hh as (Hok & [p Hrh] & Hraw & _); [|done].
  unfold read_inline_section in Hi. rewrite Hraw in Hi. cbn [mbind io_bind] in Hi.
  rewrite Hrh in Hi. cbn [mbind io_bind] in Hi.
  assert (h_inline_length h ≤ blen bytes) as Hil.
  { case_decide as Hz; [injection Hi as <-; rewrite Hz; done|].
    unfold read_exact_at in Hi. case_decide as Hl; [done|]. injection Hi as <-.
    destruct Hok. change HEADER_LEN with 100 in *. unfold blen in *. rewrite length_take, length_drop. lia. }
  eapply Forall_impl; [exact Hsafe|]. intros e [Hs _] Hk. unfold in_section in Hs.
  destruct (e_kind e); try done; lia.
Qed.

(** Re-signing a segment head (the forced-claim re-own) touches only the
    signature: the result has the same length, header fields, index, inline and
    body bytes, parses to the same entries and inputs, and verifies under the
    new key; the returned length is that of the head. *)
Theorem resign_preserves `{Blake3} `{UlidBytes} `{Signer} `{Verifier} file file' n :
  bytes_ok file → resign_segment_head file = Ok (file', n) →
  (∀ msg, verify_strict msg (sign msg) = true) → (∀ msg, sign msg ≠ UNSIGNED) →
  take 36 file' = take 36 file ∧ drop 100 file' = drop 100 file ∧ blen file' = blen file ∧
  read_segment_index file' = read_segment_index file ∧ verify_segment_bytes file' = Ok () ∧
  (∀ bss es ins, read_segment_index file = Ok (bss, es, ins) → n = bss).
Proof.
  intros Hbytes Hr Hsign Huns. unfold resign_segment_head in Hr.
  change HEADER_LEN with 100 in Hr. change (Z.to_nat 100) with 100%nat in Hr.
  change (Z.to_nat HEADER_SIGNED_PREFIX) with 36%nat in Hr.
  case_decide as Hlen; [done|]. apply io_bind_Ok in Hr as ([h p] & Hh & Hr).
  assert (blen (take 100 file) = 100) as Hl100 by (unfold blen in *; rewrite length_take; lia).
  destruct (read_header_inv (take 100 file) h p) as [Hok Hraw];
    [by apply Forall_take|done|done|].
  case_decide as Hm; [done|]. case_decide as Hidx; [done|].
  set (index_buf := take (Z.to_nat (h_index_length h)) (drop 100 file)) in *.
  set (sig := sign _) in *. injection Hr as <- <-.
  assert (file = header_bytes h ++ drop 100 file) as Hfile
    by (rewrite <-Hraw; by rewrite take_drop).
  pose proof (blen_header_prefix h Hok) as H36. pose proof (blen_header h Hok) as H100.
  set (rest := drop (Z.to_nat (h_index_length h)) (drop 100 file)).
  assert (drop 100 file = index_buf ++ rest) as Hsplit by (unfold index_buf, rest; by rewrite take_drop).
  assert (blen index_buf = h_index_length h) as Hil.
  { unfold index_buf, blen in *. rewrite length_take, length_drop.
    pose proof (ho_index_length _ Hok). lia. }
  destruct (described_slices h index_buf rest Hok) as (Hpre & _ & _).
  rewrite <-Hsplit, <-Hfile in Hpre.
  set (h' := mkHeader (h_magic h) (h_entry_count h) (h_index_length h) (h_inline_length h)
               (h_body_length h) (h_delta_length h) (h_inputs_length h) sig).
  assert (header_ok h') as Hok' by (destruct Hok; split; cbn; try done; apply sign_length).
  assert (take 36 file ++ sig ++ drop 100 file = header_bytes h' ++ index_buf ++ rest) as Hnew.
  { rewrite Hpre, Hsplit. unfold header_bytes. by rewrite <-app_assoc. }
  rewrite Hnew. destruct (described_slices h' index_buf rest Hok') as (Hpre' & _ & Hdr').
  pose proof (read_segment_header_at h index_buf rest Hok Hm (eq_sym Hil)) as Hrd.
  pose proof (read_segment_header_at h' index_buf rest Hok' Hm (eq_sym Hil)) as Hrd'.
  assert (read_segment_index file = read_segment_index (header_bytes h ++ index_buf ++ rest)) as Hsame
    by (by rewrite <-Hsplit, <-Hfile).
  split_and!.
  - by rewrite Hpre', Hpre.
  - by rewrite Hdr', Hsplit.
  - rewrite Hfile, Hsplit at 1. by rewrite !blen_app, !blen_header.
  - rewrite Hsame. unfold read_segment_index. by rewrite Hrd, Hrd'.
  - eapply described_verifies; try done. change (sig = sign (signing_digest (header_prefix h) index_buf)). by rewrite <-Hpre.
  - intros bss es ins Hread. rewrite Hsame in Hread. unfold read_segment_index in Hread.
    rewrite Hrd in Hread. unfold mbind, io_bind in Hread.
    destruct (parse_with_header index_buf h) as [[es' ins']|]; [|done].
    injection Hread as <- _ _. unfold HEADER_LEN. lia.
Qed.

