(* ===== verification/LbaMap.v ===== *)
(** * The LBA map (elide-core/src/lbamap.rs)

    [LbaMap] maps [start_lba] to a [MapEntry] (an extent), in an ordered map,
    next to the refcount of every claimed hash.  The definitions below are the
    map's operations; the theorems read it through [view], the function from a
    block to the payload block it resolves to. *)

From stdpp Require Import base gmap list sorting fin_maps.
From S2P Require Import Prelude Segment.
Open Scope Z_scope.

(** ** Data *)

Record MapEntry := mkMapEntry {
  lba_length : Z;            (* u32 *)
  me_hash : Hash;
  payload_block_offset : Z;  (* u32 *)
  claimant_ulid : Ulid
}.

Record ExtentRead := mkExtentRead {
  er_hash : Hash;
  range_start : Z;
  range_end : Z;
  er_payload_block_offset : Z;
  er_claimant : Ulid
}.

Record LbaMap := mkLbaMap {
  inner : gmap Z MapEntry;
  claim_counts : gmap Hash Z  (* u32 counts *)
}.

(** Overlap-blocking rule of [insert_inner_if_newer]. *)
Inductive Blocking :=
  | SameOrHigher
  | Higher
  | Consuming (inputs : gset Ulid)
  | AboveHorizon (horizon : Ulid).

(** Admission policy of [register_entry_inner]. *)
Inductive Admission :=
  | Unconditional
  | IfNewer
  | ConsumingInputs (inputs : gset Ulid)
  | OutputHorizon (horizon : Ulid).

(** ** Refcounts and primitive map edits *)

Definition lm_new : LbaMap := mkLbaMap ∅ ∅.

Definition claim_incref (m : LbaMap) (h : Hash) : LbaMap :=
  mkLbaMap (inner m) (<[h := u32_add (default 0 (claim_counts m !! h)) 1]> (claim_counts m)).

Definition claim_decref (m : LbaMap) (h : Hash) : LbaMap :=
  match claim_counts m !! h with
  | Some c =>
      if decide (c = 1) then mkLbaMap (inner m) (delete h (claim_counts m))
      else mkLbaMap (inner m) (<[h := u32_sub c 1]> (claim_counts m))
  | None => m
  end.

Definition remove_entry (m : LbaMap) (key : Z) : LbaMap * option MapEntry :=
  match inner m !! key with
  | Some entry =>
      (claim_decref (mkLbaMap (delete key (inner m)) (claim_counts m)) (me_hash entry), Some entry)
  | None => (m, None)
  end.

Definition add_entry (m : LbaMap) (key : Z) (entry : MapEntry) : LbaMap :=
  let m := claim_incref m (me_hash entry) in
  mkLbaMap (<[key := entry]> (inner m)) (claim_counts m).

(** ** Insertion *)

(** Step 1 of [insert_inner]: a predecessor reaching into the range keeps its
    prefix, and its suffix when the new range punches a hole in it. *)
Definition split_predecessor (m : LbaMap) (start_lba new_end : Z) : LbaMap :=
  match om_below (inner m) start_lba with
  | Some (pred_start, pred) =>
      let pred_end := u64_add pred_start (lba_length pred) in
      if decide (start_lba < pred_end) then
        let m := (remove_entry m pred_start).1 in
        let m := add_entry m pred_start
          (mkMapEntry (as_u32 (u64_sub start_lba pred_start)) (me_hash pred)
             (payload_block_offset pred) (claimant_ulid pred)) in
        if decide (new_end < pred_end) then
          add_entry m new_end
            (mkMapEntry (as_u32 (u64_sub pred_end new_end)) (me_hash pred)
               (u32_add (payload_block_offset pred) (as_u32 (u64_sub new_end pred_start)))
               (claimant_ulid pred))
        else m
      else m
  | None => m
  end.

(** Step 2's loop body: drop the entry at [key], keep a tail past the range. *)
Definition remove_overlapping (new_end : Z) (m : LbaMap) (key : Z) : LbaMap :=
  match remove_entry m key with
  | (m, Some e) =>
      let entry_end := u64_add key (lba_length e) in
      if decide (new_end < entry_end) then
        add_entry m new_end
          (mkMapEntry (as_u32 (u64_sub entry_end new_end)) (me_hash e)
             (u32_add (payload_block_offset e) (as_u32 (u64_sub new_end key)))
             (claimant_ulid e))
      else m
  | (m, None) => m
  end.

Definition insert_inner (m : LbaMap) (start_lba lba_len pbo : Z) (h : Hash) (claimant : Ulid)
    : LbaMap :=
  let new_end := u64_add start_lba lba_len in
  let m := split_predecessor m start_lba new_end in
  let overlapping := (om_range (inner m) start_lba new_end).*1 in
  let m := foldl (remove_overlapping new_end) m overlapping in
  add_entry m start_lba (mkMapEntry lba_len h pbo claimant).

Definition insert (m : LbaMap) (start_lba lba_len : Z) (h : Hash) (claimant : Ulid) : LbaMap :=
  insert_inner m start_lba lba_len 0 h claimant.

Definition insert_with_offset (m : LbaMap) (start_lba lba_len pbo : Z) (h : Hash)
    (claimant : Ulid) : LbaMap :=
  insert_inner m start_lba lba_len pbo h claimant.

(** ** Claimant-aware insertion *)

Definition blocks (blocking : Blocking) (h : Hash) (claimant : Ulid)
    (existing : Ulid) (existing_hash : Hash) : bool :=
  match blocking with
  | Consuming inputs =>
      negb (bool_decide (existing ∈ inputs) || bool_decide (existing = claimant)
            || (bool_decide (existing_hash = h) && bool_decide (existing < claimant)))
  | SameOrHigher => bool_decide (claimant ≤ existing)
  | Higher => bool_decide (claimant < existing)
  | AboveHorizon horizon =>
      negb (bool_decide (existing ≤ horizon) || bool_decide (existing = claimant)
            || (bool_decide (existing_hash = h) && bool_decide (existing < claimant)))
  end.

(** The sub-ranges of [start_lba, new_end) a blocking entry keeps. *)
Definition blocked_ranges (m : gmap Z MapEntry) (blk : MapEntry → bool) (start_lba new_end : Z)
    : list (Z * Z) :=
  (match om_below m start_lba with
   | Some (pred_start, pred) =>
       let pred_end := u64_add pred_start (lba_length pred) in
       if decide (start_lba < pred_end) then
         if blk pred then [(start_lba, Z.min pred_end new_end)] else []
       else []
   | None => []
   end) ++
  omap (λ '(k, e),
          if blk e then Some (k, Z.min (u64_add k (lba_length e)) new_end) else None)
       (om_range m start_lba new_end).

(** The install loop's body: fill the gap below one blocked range. *)
Definition install_gap (start_lba : Z) (h : Hash) (claimant : Ulid)
    (st : LbaMap * Z * Z) (b : Z * Z) : LbaMap * Z * Z :=
  let '(m, cursor, installed) := st in
  let '(b_start, b_end) := b in
  let '(m, installed) :=
    if decide (cursor < b_start) then
      let gap_len := as_u32 (u64_sub b_start cursor) in
      let pbo := as_u32 (u64_sub cursor start_lba) in
      (insert_inner m cursor gap_len pbo h claimant, u32_add installed gap_len)
    else (m, installed) in
  (m, Z.max cursor b_end, installed).

Definition insert_inner_if_newer (m : LbaMap) (start_lba lba_len : Z) (h : Hash)
    (claimant : Ulid) (blocking : Blocking) : LbaMap * Z :=
  let new_end := u64_add start_lba lba_len in
  let blk e := blocks blocking h claimant (claimant_ulid e) (me_hash e) in
  let slow :=
    let blocked := blocked_ranges (inner m) blk start_lba new_end in
    let '(m, cursor, installed) := foldl (install_gap start_lba h claimant) (m, start_lba, 0) blocked in
    if decide (cursor < new_end) then
      let gap_len := as_u32 (u64_sub new_end cursor) in
      let pbo := as_u32 (u64_sub cursor start_lba) in
      (insert_inner m cursor gap_len pbo h claimant, u32_add installed gap_len)
    else (m, installed) in
  match inner m !! start_lba with
  | Some existing =>
      if decide (lba_length existing = lba_len) then
        if blk existing then (m, 0)
        else
          let m' := mkLbaMap (<[start_lba := mkMapEntry lba_len h 0 claimant]> (inner m))
                             (claim_counts m) in
          ((if decide (me_hash existing = h) then m'
            else claim_incref (claim_decref m' (me_hash existing)) h), lba_len)
      else slow
  | None => slow
  end.

Definition insert_if_newer (m : LbaMap) (start_lba lba_len : Z) (h : Hash) (claimant : Ulid)
    : LbaMap * Z :=
  insert_inner_if_newer m start_lba lba_len h claimant SameOrHigher.

Definition insert_consuming_inputs (m : LbaMap) (start_lba lba_len : Z) (h : Hash)
    (claimant : Ulid) (consumed_inputs : gset Ulid) : LbaMap * Z :=
  insert_inner_if_newer m start_lba lba_len h claimant (Consuming consumed_inputs).

(** ** Registering a segment entry *)

Definition register_entry_inner (m : LbaMap) (entry : SegmentEntry) (claimant : Ulid)
    (admission : Admission) : LbaMap * Z :=
  if is_canonical_only (e_kind entry) then (m, 0)
  else
    match admission with
    | Unconditional =>
        (insert m (e_start_lba entry) (e_lba_length entry) (e_hash entry) claimant,
         e_lba_length entry)
    | IfNewer =>
        insert_inner_if_newer m (e_start_lba entry) (e_lba_length entry) (e_hash entry)
          claimant Higher
    | ConsumingInputs inputs =>
        insert_consuming_inputs m (e_start_lba entry) (e_lba_length entry) (e_hash entry)
          claimant inputs
    | OutputHorizon horizon =>
        insert_inner_if_newer m (e_start_lba entry) (e_lba_length entry) (e_hash entry)
          claimant (AboveHorizon horizon)
    end.

Definition register_entry m entry claimant := register_entry_inner m entry claimant Unconditional.
Definition register_entry_if_newer m entry claimant :=
  register_entry_inner m entry claimant IfNewer.
Definition register_entry_consuming_inputs m entry claimant inputs :=
  register_entry_inner m entry claimant (ConsumingInputs inputs).
Definition register_entry_with_horizon m entry claimant horizon :=
  register_entry_inner m entry claimant (OutputHorizon horizon).

(** ** Moving claims to a new claimant *)

(** The keys both [set_claimant] variants collect: a predecessor reaching into
    the range, then every entry keyed in it, filtered by hash and claimant. *)
Definition claim_keys (m : gmap Z MapEntry) (start_lba end_lba : Z) (expected_hash : Hash)
    (promotes : Ulid → bool) : list Z :=
  (match om_below m start_lba with
   | Some (pred_start, pred) =>
       let pred_end := u64_add pred_start (lba_length pred) in
       if bool_decide (start_lba < pred_end) && bool_decide (me_hash pred = expected_hash)
          && promotes (claimant_ulid pred)
       then [pred_start] else []
   | None => []
   end) ++
  omap (λ '(k, e),
          if bool_decide (me_hash e = expected_hash) && promotes (claimant_ulid e)
          then Some k else None)
       (om_range m start_lba end_lba).

Definition set_entry_claimant (c : Ulid) (e : MapEntry) : MapEntry :=
  mkMapEntry (lba_length e) (me_hash e) (payload_block_offset e) c.

Definition set_claimants (m : LbaMap) (keys : list Z) (c : Ulid) : LbaMap :=
  mkLbaMap (foldl (λ im k, alter (set_entry_claimant c) k im) (inner m) keys) (claim_counts m).

Definition set_claimant_if_matches (m : LbaMap) (start_lba lba_len : Z) (expected_hash : Hash)
    (new_claimant : Ulid) : LbaMap * Z :=
  let end_lba := u64_add start_lba lba_len in
  let keys := claim_keys (inner m) start_lba end_lba expected_hash
                (λ c, bool_decide (c < new_claimant)) in
  (set_claimants m keys new_claimant, as_u32 (Z.of_nat (length keys))).

Definition set_claimant_consuming_input (m : LbaMap) (start_lba lba_len : Z)
    (expected_hash : Hash) (new_claimant consumed_input : Ulid) : LbaMap * Z :=
  let end_lba := u64_add start_lba lba_len in
  let keys := claim_keys (inner m) start_lba end_lba expected_hash
                (λ c, bool_decide (c < new_claimant) || bool_decide (c = consumed_input)) in
  (set_claimants m keys new_claimant, as_u32 (Z.of_nat (length keys))).

(** ** Reads *)

Definition extents_in_range (m : LbaMap) (start_lba end_lba : Z) : list ExtentRead :=
  (match om_below (inner m) start_lba with
   | Some (key, e) =>
       let entry_end := u64_add key (lba_length e) in
       if decide (start_lba < entry_end) then
         [mkExtentRead (me_hash e) start_lba (Z.min entry_end end_lba)
            (u32_add (payload_block_offset e) (as_u32 (u64_sub start_lba key)))
            (claimant_ulid e)]
       else []
   | None => []
   end) ++
  map (λ '(key, e),
         mkExtentRead (me_hash e) key (Z.min (u64_add key (lba_length e)) end_lba)
           (payload_block_offset e) (claimant_ulid e))
      (om_range (inner m) start_lba end_lba).

Definition has_full_match (m : LbaMap) (start_lba lba_len : Z) (h : Hash) : bool :=
  match inner m !! start_lba with
  | Some e =>
      bool_decide (lba_length e = lba_len) && bool_decide (payload_block_offset e = 0)
      && bool_decide (me_hash e = h)
  | None => false
  end.

Definition lookup (m : LbaMap) (lba : Z) : option (Hash * Z) :=
  match om_upto (inner m) lba with
  | Some (start, e) =>
      if decide (lba < u64_add start (lba_length e)) then
        Some (me_hash e, u32_add (payload_block_offset e) (as_u32 (u64_sub lba start)))
      else None
  | None => None
  end.

Definition lookup_with_claimant (m : LbaMap) (lba : Z) : option (Hash * Z * Ulid) :=
  match om_upto (inner m) lba with
  | Some (start, e) =>
      if decide (lba < u64_add start (lba_length e)) then
        Some (me_hash e, u32_add (payload_block_offset e) (as_u32 (u64_sub lba start)),
              claimant_ulid e)
      else None
  | None => None
  end.

Definition hash_at (m : LbaMap) (lba : Z) : option Hash :=
  match om_upto (inner m) lba with
  | Some (start, e) => if decide (lba < u64_add start (lba_length e)) then Some (me_hash e) else None
  | None => None
  end.

Definition claimant_at (m : LbaMap) (lba : Z) : option Ulid :=
  match om_upto (inner m) lba with
  | Some (start, e) =>
      if decide (lba < u64_add start (lba_length e)) then Some (claimant_ulid e) else None
  | None => None
  end.

Definition lm_is_empty (m : LbaMap) : bool := bool_decide (inner m = ∅).
Definition lm_len (m : LbaMap) : nat := size (inner m).

Definition claim_referenced_hashes (m : LbaMap) : gset Hash := dom (claim_counts m).
Definition is_referenced (m : LbaMap) (h : Hash) : bool :=
  bool_decide (is_Some (claim_counts m !! h)).
Definition claim_refcount (m : LbaMap) (h : Hash) : Z := default 0 (claim_counts m !! h).

Definition iter_entries_with_claimant (m : LbaMap) : list (Z * Z * Hash * Z * Ulid) :=
  map (λ '(lba, e), (lba, lba_length e, me_hash e, payload_block_offset e, claimant_ulid e))
      (om_iter (inner m)).

Definition runs_for_hash (m : LbaMap) (target : Hash) : list (Z * Z * Z) :=
  map (λ '(lba, e), (lba, lba_length e, payload_block_offset e))
      (filter (λ p, me_hash p.2 = target) (om_iter (inner m))).

Definition lbas_for_hash (m : LbaMap) (target : Hash) : list (Z * Z) :=
  map (λ '(lba, e), (lba, lba_length e))
      (filter (λ p, me_hash p.2 = target) (om_iter (inner m))).

(** The oracle [claim_counts] has to match: one count per claiming entry. *)
Definition recount_claims (m : LbaMap) : gmap Hash Z :=
  foldl (λ out p, <[me_hash p.2 := u32_add (default 0 (out !! me_hash p.2)) 1]> out)
        ∅ (om_iter (inner m)).

(** ** Detached liveness snapshot *)

Record ReferencedHashes := mkReferencedHashes { rh_claims : gmap Hash Z; rh_delta_sources : gset Hash }.

Definition referenced_hashes (m : LbaMap) (delta_sources : gset Hash) : ReferencedHashes :=
  mkReferencedHashes (claim_counts m) delta_sources.

Definition rh_contains (r : ReferencedHashes) (h : Hash) : bool :=
  bool_decide (is_Some (rh_claims r !! h)) || bool_decide (h ∈ rh_delta_sources r).
