(* ===== verification/LbaMapFacts.v ===== *)
(** * Correctness of the LBA map

    Well-formedness (entries non-empty, in bounds, disjoint; refcounts equal to
    a recount) and the block-level meaning of every operation of
    [LbaMap]. *)

From stdpp Require Import base gmap list sorting fin_maps.
From S2P Require Import Prelude Segment LbaMap.
Open Scope Z_scope.

(** ** Well-formedness *)

(** An extent keyed at [k] lies within an [N]-block device, and every offset it
    can hand out fits its [u32]. *)
Definition entry_ok (N k : Z) (e : MapEntry) : Prop :=
  0 ≤ k ∧ 0 < lba_length e < U32 ∧ k + lba_length e ≤ N ∧
  0 ≤ payload_block_offset e ∧ payload_block_offset e + lba_length e ≤ U32.

Definition disjoint_entries (im : gmap Z MapEntry) : Prop :=
  ∀ k1 e1 k2 e2, im !! k1 = Some e1 → im !! k2 = Some e2 → k1 < k2 →
    k1 + lba_length e1 ≤ k2.

(** How many entries claim [h]. *)
Definition claimants_of (im : gmap Z MapEntry) (h : Hash) : Z :=
  Z.of_nat (size (filter (λ p : Z * MapEntry, me_hash p.2 = h) im)).

(** On a device of fewer than 2^32 blocks no count can leave its [u32]. *)
Record lm_wf (N : Z) (m : LbaMap) : Prop := {
  wf_bound : 0 ≤ N < U64;
  wf_entry : ∀ k e, inner m !! k = Some e → entry_ok N k e;
  wf_disjoint : disjoint_entries (inner m);
  wf_counts : N < U32 → ∀ h, claim_counts m !! h = count_of (claimants_of (inner m) h)
}.

(** ** Counting *)

Lemma size_bounded N (im : gmap Z MapEntry) :
  0 ≤ N → (∀ k e, im !! k = Some e → 0 ≤ k < N) → Z.of_nat (size im) ≤ N.
Proof.
  intros HN Hk. rewrite <-size_dom.
  assert (dom im ⊆ (list_to_set (seqZ 0 N) : gset Z)) as Hsub.
  { intros k [e He]%elem_of_dom. apply elem_of_list_to_set, elem_of_seqZ.
    specialize (Hk k e He). lia. }
  apply subseteq_size in Hsub. rewrite size_list_to_set in Hsub by apply NoDup_seqZ.
  rewrite length_seqZ in Hsub. lia.
Qed.

Lemma claimants_bounded N im h :
  0 ≤ N → (∀ k e, im !! k = Some e → 0 ≤ k < N) → 0 ≤ claimants_of im h ≤ N.
Proof.
  intros HN Hk. unfold claimants_of. split; [lia|].
  apply size_bounded; [done|]. intros k e [He _]%map_lookup_filter_Some. by eapply Hk.
Qed.

Lemma claimants_insert im k e h :
  im !! k = None →
  claimants_of (<[k := e]> im) h =
  claimants_of im h + (if decide (me_hash e = h) then 1 else 0).
Proof.
  intros Hk. unfold claimants_of. case_decide as Hh.
  - rewrite map_filter_insert_True by done.
    rewrite map_size_insert_None; [lia|]. apply map_lookup_filter_None. naive_solver.
  - rewrite map_filter_insert_False by done. rewrite delete_id by done. lia.
Qed.

Lemma claimants_delete im k e h :
  im !! k = Some e →
  claimants_of (delete k im) h =
  claimants_of im h - (if decide (me_hash e = h) then 1 else 0).
Proof.
  intros Hk. rewrite <-(insert_delete_id im k e Hk) at 2.
  rewrite claimants_insert by apply lookup_delete_eq. lia.
Qed.

Lemma claimants_pos im k e : im !! k = Some e → 0 < claimants_of im (me_hash e).
Proof.
  intros Hk. pose proof (claimants_delete im k e (me_hash e) Hk) as H.
  rewrite decide_True in H by done. unfold claimants_of in *. lia.
Qed.

(** ** Primitive edits *)

(** No entry of [im] meets [s, t). *)
Definition apart (im : gmap Z MapEntry) (s t : Z) : Prop :=
  ∀ k e, im !! k = Some e → k + lba_length e ≤ s ∨ t ≤ k.

Lemma apart_fresh N m s t : lm_wf N m → s < t → apart (inner m) s t → inner m !! s = None.
Proof.
  intros Hwf Hst Ha. destruct (inner m !! s) as [e|] eqn:He; [|done].
  pose proof (wf_entry _ _ Hwf _ _ He) as (? & ? & _). destruct (Ha _ _ He); lia.
Qed.

Lemma inner_remove_entry m k e :
  inner m !! k = Some e → inner (remove_entry m k).1 = delete k (inner m).
Proof.
  intros He. unfold remove_entry, claim_decref. rewrite He. simpl.
  destruct (claim_counts m !! me_hash e); [|done]. by case_decide.
Qed.

Lemma remove_entry_snd m k : (remove_entry m k).2 = inner m !! k.
Proof. unfold remove_entry. by destruct (inner m !! k). Qed.

Lemma counts_remove_entry N m k e h :
  lm_wf N m → N < U32 → inner m !! k = Some e →
  claim_counts (remove_entry m k).1 !! h = count_of (claimants_of (delete k (inner m)) h).
Proof.
  intros Hwf HN He. pose proof (wf_counts _ _ Hwf HN) as Hc.
  pose proof (claimants_pos _ _ _ He) as Hpos.
  pose proof (claimants_bounded N (inner m) (me_hash e)) as Hb.
  destruct Hb as [_ Hb]; [destruct (wf_bound _ _ Hwf); lia| |].
  { intros k' e' He'. destruct (wf_entry _ _ Hwf _ _ He') as (? & ? & ? & _). lia. }
  rewrite (claimants_delete _ _ _ _ He).
  unfold remove_entry, claim_decref. rewrite He. simpl. rewrite Hc.
  unfold count_of at 1. rewrite decide_False by lia.
  destruct (decide (claimants_of (inner m) (me_hash e) = 1)) as [H1|H1]; simpl.
  - rewrite lookup_delete. case_decide as Hh; [subst h|].
    + by rewrite H1.
    + rewrite Hc. f_equal. lia.
  - unwrap. rewrite lookup_insert. case_decide as Hh; [subst h|].
    + unfold count_of. by rewrite decide_False by lia.
    + rewrite Hc. f_equal. lia.
Qed.

Lemma remove_entry_wf N m k e :
  lm_wf N m → inner m !! k = Some e → lm_wf N (remove_entry m k).1.
Proof.
  intros Hwf He. split; rewrite ?(inner_remove_entry _ _ _ He).
  - apply Hwf.
  - intros k' e' [_ He']%lookup_delete_Some. by apply (wf_entry _ _ Hwf).
  - intros k1 e1 k2 e2 [_ H1]%lookup_delete_Some [_ H2]%lookup_delete_Some.
    by eapply (wf_disjoint _ _ Hwf).
  - intros HN h. by eapply counts_remove_entry.
Qed.

Lemma inner_add_entry m k e : inner (add_entry m k e) = <[k := e]> (inner m).
Proof. done. Qed.

Lemma add_entry_wf N m k e :
  lm_wf N m → entry_ok N k e → apart (inner m) k (k + lba_length e) →
  lm_wf N (add_entry m k e).
Proof.
  intros Hwf Hok Ha. pose proof Hok as (? & ? & ? & _).
  assert (inner m !! k = None) as Hfresh by (eapply apart_fresh; [done| |done]; lia).
  split; rewrite ?inner_add_entry.
  - apply Hwf.
  - intros k' e' [[<- <-]|[_ He']]%lookup_insert_Some; [done|]. by apply (wf_entry _ _ Hwf).
  - intros k1 e1 k2 e2 [[<- <-]|[Hn1 He1]]%lookup_insert_Some
      [[<- <-]|[Hn2 He2]]%lookup_insert_Some Hlt; [lia| | |].
    + pose proof (wf_entry _ _ Hwf _ _ He2) as (? & ? & _). destruct (Ha _ _ He2); lia.
    + pose proof (wf_entry _ _ Hwf _ _ He1) as (? & ? & _). destruct (Ha _ _ He1); lia.
    + by eapply (wf_disjoint _ _ Hwf).
  - intros HN h. rewrite claimants_insert by done.
    unfold add_entry, claim_incref. simpl.
    pose proof (claimants_bounded N (<[k := e]> (inner m)) (me_hash e)) as [_ Hb].
    { destruct (wf_bound _ _ Hwf). lia. }
    { intros k' e' [[<- <-]|[_ He']]%lookup_insert_Some; [lia|].
      destruct (wf_entry _ _ Hwf _ _ He') as (? & ? & ? & _). lia. }
    rewrite claimants_insert in Hb by done. rewrite decide_True in Hb by done.
    assert (0 ≤ claimants_of (inner m) (me_hash e)) by (unfold claimants_of; lia).
    rewrite (wf_counts _ _ Hwf HN), default_count_of. unwrap.
    rewrite lookup_insert. case_decide as Hh; [subst h|].
    + unfold count_of. by rewrite decide_False by lia.
    + rewrite (wf_counts _ _ Hwf HN). f_equal. lia.
Qed.

(** ** What a block resolves to *)

Record Cell := mkCell { c_hash : Hash; c_offset : Z; c_claimant : Ulid }.

#[export] Instance Cell_eq_dec : EqDecision Cell.
Proof. solve_decision. Defined.

(** Block [lba] of the entry [e] keyed at [k]. *)
Definition cell_of (k : Z) (e : MapEntry) (lba : Z) : Cell :=
  mkCell (me_hash e) (payload_block_offset e + (lba - k)) (claimant_ulid e).

(** The declarative reading of the map: some entry covers [lba] and gives it [c]. *)
Definition has (im : gmap Z MapEntry) (lba : Z) (c : Cell) : Prop :=
  ∃ k e, im !! k = Some e ∧ k ≤ lba < k + lba_length e ∧ c = cell_of k e lba.

(** The code's reading of a block. *)
Definition view (m : LbaMap) (lba : Z) : option Cell :=
  (λ '(h, o, c), mkCell h o c) <$> lookup_with_claimant m lba.

(** Every read of one block goes through the entry with the greatest key at or
    below it; on a well-formed map that entry is the only one that can cover it. *)
Lemma om_upto_covering N m lba k e :
  lm_wf N m → inner m !! k = Some e → k ≤ lba < k + lba_length e →
  om_upto (inner m) lba = Some (k, e).
Proof.
  intros Hwf He Hin. apply om_upto_Some. split; [done|]. split; [lia|].
  intros q b Hb Hq. destruct (decide (q ≤ k)) as [|Hn]; [done|].
  pose proof (wf_disjoint _ _ Hwf _ _ _ _ He Hb). lia.
Qed.

Lemma view_Some N m lba c : lm_wf N m → view m lba = Some c ↔ has (inner m) lba c.
Proof.
  intros Hwf. unfold view, lookup_with_claimant. pose proof (wf_bound _ _ Hwf). split.
  - destruct (om_upto (inner m) lba) as [[k e]|] eqn:Hu; [|done].
    apply om_upto_Some in Hu as (He & Hk & _).
    pose proof (wf_entry _ _ Hwf _ _ He) as (? & ? & ? & ? & ?).
    unwrap. case_decide; [|done]. unwrap. simpl. intros [= <-]. by exists k, e.
  - intros (k & e & He & Hin & ->). rewrite (om_upto_covering N m lba k e) by done.
    pose proof (wf_entry _ _ Hwf _ _ He) as (? & ? & ? & ? & ?).
    unwrap. rewrite decide_True by lia. unwrap. done.
Qed.

Lemma has_functional N m lba c1 c2 :
  lm_wf N m → has (inner m) lba c1 → has (inner m) lba c2 → c1 = c2.
Proof. intros Hwf H1%(view_Some _ _ _ _ Hwf) H2%(view_Some _ _ _ _ Hwf). congruence. Qed.

Lemma view_ext N1 N2 m1 m2 lba :
  lm_wf N1 m1 → lm_wf N2 m2 →
  (∀ c, has (inner m1) lba c ↔ has (inner m2) lba c) → view m1 lba = view m2 lba.
Proof.
  intros H1 H2 Heq. apply option_eq. intros c.
  by rewrite (view_Some _ _ _ _ H1), (view_Some _ _ _ _ H2).
Qed.

Lemma view_None N m lba : lm_wf N m → view m lba = None ↔ ∀ c, ¬ has (inner m) lba c.
Proof.
  intros Hwf. rewrite eq_None_not_Some. unfold is_Some. split.
  - intros Hn c Hc. apply Hn. exists c. by apply (view_Some _ _ _ _ Hwf).
  - intros Hn [c Hc%(view_Some _ _ _ _ Hwf)]. by eapply Hn.
Qed.

Lemma has_insert im k e lba c :
  im !! k = None →
  has (<[k := e]> im) lba c ↔ (k ≤ lba < k + lba_length e ∧ c = cell_of k e lba) ∨ has im lba c.
Proof.
  intros Hk. unfold has. split.
  - intros (k' & e' & [[<- <-]|[Hn He]]%lookup_insert_Some & ?); [by left|right; eauto].
  - intros [Hc|(k' & e' & He & Hin)].
    + exists k, e. by rewrite lookup_insert_eq.
    + exists k', e'. rewrite lookup_insert_ne by congruence. done.
Qed.

Lemma has_delete im k e lba c :
  im !! k = Some e → has im lba c ↔
  (k ≤ lba < k + lba_length e ∧ c = cell_of k e lba) ∨ has (delete k im) lba c.
Proof.
  intros Hk. rewrite <-(insert_delete_id im k e Hk) at 1.
  by rewrite has_insert by apply lookup_delete_eq.
Qed.

(** ** [insert_inner] *)

(** What both carving steps keep: everything outside the range being written. *)
Definition same_outside (s t : Z) (m m' : LbaMap) : Prop :=
  ∀ lba c, ¬ (s ≤ lba < t) → has (inner m') lba c ↔ has (inner m) lba c.

(** No entry keyed before [s] reaches past it. *)
Definition closed_below (s : Z) (m : LbaMap) : Prop :=
  ∀ k e, inner m !! k = Some e → k < s → k + lba_length e ≤ s.

Lemma cell_of_tail k e t len lba :
  cell_of t (mkMapEntry len (me_hash e) (payload_block_offset e + (t - k)) (claimant_ulid e)) lba
  = cell_of k e lba.
Proof. unfold cell_of. simpl. f_equal. lia. Qed.

(** Cutting the entry [e] keyed at [k] down to its part from [t] on. *)
Definition tail_from (k : Z) (e : MapEntry) (t : Z) : MapEntry :=
  mkMapEntry (k + lba_length e - t) (me_hash e) (payload_block_offset e + (t - k))
    (claimant_ulid e).

Lemma tail_from_ok N k e t :
  entry_ok N k e → k ≤ t < k + lba_length e → entry_ok N t (tail_from k e t).
Proof. unfold entry_ok, tail_from. simpl. lia. Qed.

Lemma remove_entry_spec N m k e :
  lm_wf N m → inner m !! k = Some e →
  ∃ m', remove_entry m k = (m', Some e) ∧ lm_wf N m' ∧ inner m' = delete k (inner m).
Proof.
  intros Hwf He. exists (remove_entry m k).1. split_and!.
  - rewrite <-He, <-remove_entry_snd. by destruct (remove_entry m k).
  - by eapply remove_entry_wf.
  - by eapply inner_remove_entry.
Qed.

(** The body of step 2, on an entry keyed inside the range. *)
Lemma remove_overlapping_spec N m s t key e :
  lm_wf N m → t ≤ N → inner m !! key = Some e → s ≤ key < t →
  ∃ m', remove_overlapping t m key = m' ∧ lm_wf N m' ∧ same_outside s t m m' ∧
    (∀ k, k < t → inner m' !! k = if decide (k = key) then None else inner m !! k).
Proof.
  intros Hwf HtN He Hkey. unfold remove_overlapping.
  destruct (remove_entry_spec N m key e Hwf He) as (m' & -> & Hwf' & Hi).
  pose proof (wf_entry _ _ Hwf _ _ He) as Hok. pose proof (wf_bound _ _ Hwf).
  pose proof Hok as (? & ? & ? & ? & ?).
  assert (∀ lba c, has (inner m) lba c ↔
    (key ≤ lba < key + lba_length e ∧ c = cell_of key e lba) ∨ has (inner m') lba c) as Hhas.
  { intros lba c. rewrite Hi. by apply has_delete. }
  unwrap. case_decide as Htail; unwrap; (eexists; split; [reflexivity|]).
  - fold (tail_from key e t). replace (mkMapEntry _ _ _ _) with (tail_from key e t) by done.
    assert (apart (inner m') t (t + lba_length (tail_from key e t))) as Hap.
    { intros k' e'. rewrite Hi. intros [Hne He']%lookup_delete_Some. simpl.
      pose proof (wf_entry _ _ Hwf _ _ He') as (? & ? & _).
      destruct (decide (k' < key)).
      - pose proof (wf_disjoint _ _ Hwf _ _ _ _ He' He). lia.
      - pose proof (wf_disjoint _ _ Hwf _ _ _ _ He He'). lia. }
    assert (entry_ok N t (tail_from key e t)) as Hto by (apply tail_from_ok; [done|lia]).
    split_and!.
    + by apply add_entry_wf.
    + intros lba c Hout. rewrite inner_add_entry, has_insert, Hhas.
      2: { eapply apart_fresh; [done| |done]. simpl. lia. }
      unfold tail_from at 1. simpl. split.
      * intros [[? ->]|?]; [|by right]. left. split; [lia|].
        unfold tail_from. apply cell_of_tail.
      * intros [[? ->]|?]; [|by right]. left. split; [lia|].
        unfold tail_from. symmetry. apply cell_of_tail.
    + intros k Hk. rewrite inner_add_entry, lookup_insert_ne by lia. rewrite Hi, lookup_delete.
      case_decide; case_decide; congruence.
  - split_and!; [done| |].
    + intros lba c Hout. rewrite Hhas. split; [by right|]. intros [[? _]|?]; [lia|done].
    + intros k Hk. rewrite Hi, lookup_delete. case_decide; case_decide; congruence.
Qed.

Lemma remove_overlapping_fold N s t ks m :
  lm_wf N m → t ≤ N → NoDup ks →
  (∀ k, k ∈ ks → s ≤ k < t ∧ is_Some (inner m !! k)) →
  ∃ m', foldl (remove_overlapping t) m ks = m' ∧ lm_wf N m' ∧ same_outside s t m m' ∧
    (∀ k, k < t → inner m' !! k = if decide (k ∈ ks) then None else inner m !! k).
Proof.
  intros Hwf HtN Hnd. revert m Hwf. induction Hnd as [|key ks Hni Hnd IH]; intros m Hwf Hks.
  { exists m. split; [done|]. split; [done|]. split; [by intros ? ?|].
    intros k _. rewrite decide_False by apply not_elem_of_nil. done. }
  destruct (Hks key) as (Hkey & [e He]); [by left|].
  destruct (remove_overlapping_spec N m s t key e) as (m1 & Hm1 & Hwf1 & Hout1 & Hlk1);
    [done..|]. simpl. rewrite Hm1.
  destruct (IH m1 Hwf1) as (m2 & Hm2 & Hwf2 & Hout2 & Hlk2).
  { intros k Hk. destruct (Hks k) as [Hkr Hs]; [by right|]. split; [done|].
    rewrite Hlk1 by lia. by rewrite decide_False by set_solver. }
  exists m2. split; [done|]. split; [done|]. split.
  - intros lba c Hout. by rewrite (Hout2 lba c Hout), (Hout1 lba c Hout).
  - intros k Hk. rewrite Hlk2, Hlk1 by done.
    repeat case_decide; set_solver.
Qed.

(** Step 1: afterwards nothing keyed before the range reaches into it. *)
Lemma split_predecessor_spec N m s t :
  lm_wf N m → 0 ≤ s < t → t ≤ N →
  ∃ m', split_predecessor m s t = m' ∧ lm_wf N m' ∧ same_outside s t m m' ∧ closed_below s m'.
Proof.
  intros Hwf Hst HtN. unfold split_predecessor. pose proof (wf_bound _ _ Hwf).
  destruct (om_below (inner m) s) as [[p e]|] eqn:Hb; cycle 1.
  { eexists. split; [done|]. split; [done|]. split; [by intros ? ?|].
    intros k e He Hk. rewrite om_below_None in Hb. specialize (Hb _ _ He). lia. }
  apply om_below_Some in Hb as (He & Hps & Hmax).
  pose proof (wf_entry _ _ Hwf _ _ He) as Hok. pose proof Hok as (? & ? & ? & ? & ?).
  assert (∀ k e', inner m !! k = Some e' → k ≠ p →
    k + lba_length e' ≤ p ∨ (s ≤ k ∧ p + lba_length e ≤ k)) as Hoth.
  { intros k e' He' Hne. destruct (decide (k < p)).
    - left. by eapply (wf_disjoint _ _ Hwf).
    - right. pose proof (wf_disjoint _ _ Hwf _ _ _ _ He He').
      destruct (decide (k < s)) as [Hks|]; [specialize (Hmax _ _ He' Hks)|]; lia. }
  unwrap. case_decide as Hreach; cycle 1.
  { eexists. split; [done|]. split; [done|]. split; [by intros ? ?|].
    intros k e' He' Hk. destruct (decide (k = p)) as [->|Hne]; [simplify_eq; lia|].
    destruct (Hoth _ _ He' Hne); lia. }
  destruct (remove_entry_spec N m p e Hwf He) as (m0 & -> & Hwf0 & Hi0). simpl. unwrap.
  set (pre := mkMapEntry (s - p) (me_hash e) (payload_block_offset e) (claimant_ulid e)).
  assert (entry_ok N p pre) as Hpre by (unfold entry_ok, pre; simpl; lia).
  assert (apart (inner m0) p (p + lba_length pre)) as Hap.
  { intros k e'. rewrite Hi0. intros [Hne He']%lookup_delete_Some. simpl.
    destruct (Hoth k e'); [done|congruence|lia|lia]. }
  assert (lm_wf N (add_entry m0 p pre)) as Hwf1 by (by apply add_entry_wf).
  assert (∀ lba c, has (inner m) lba c ↔
    (p ≤ lba < p + lba_length e ∧ c = cell_of p e lba) ∨ has (inner m0) lba c) as Hhas.
  { intros lba c. rewrite Hi0. by apply has_delete. }
  assert (inner m0 !! p = None) as Hp0 by (rewrite Hi0; apply lookup_delete_eq).
  case_decide as Hhole; unwrap; (eexists; split; [done|]).
  - replace (mkMapEntry (p + lba_length e - t) _ _ _) with (tail_from p e t) by done.
    assert (entry_ok N t (tail_from p e t)) as Hto by (apply tail_from_ok; [done|lia]).
    assert (apart (inner (add_entry m0 p pre)) t (t + lba_length (tail_from p e t))) as Hap2.
    { intros k e'. rewrite inner_add_entry. intros [[<- <-]|[Hne He']]%lookup_insert_Some.
      - simpl. lia.
      - rewrite Hi0 in He'. apply lookup_delete_Some in He' as [_ He']. simpl.
        destruct (Hoth k e'); [done|congruence|lia|lia]. }
    split_and!.
    + by apply add_entry_wf.
    + intros lba c Hout. rewrite inner_add_entry, has_insert.
      2: { eapply apart_fresh; [done| |done]. simpl. lia. }
      rewrite inner_add_entry, has_insert, Hhas by done.
      unfold tail_from. rewrite cell_of_tail. simpl.
      change (cell_of p pre lba) with (cell_of p e lba).
      destruct (decide (lba < s)); intuition (auto; lia).
    + intros k e'. rewrite !inner_add_entry.
      intros [[<- <-]|[Hne He']]%lookup_insert_Some ?; [lia|].
      apply lookup_insert_Some in He' as [[<- <-]|[Hne' He']]; [simpl; lia|].
      rewrite Hi0 in He'. apply lookup_delete_Some in He' as [_ He'].
      destruct (Hoth k e'); [done|congruence|lia|lia].
  - split_and!; [done| |].
    + intros lba c Hout. rewrite inner_add_entry, has_insert, Hhas by done.
      change (cell_of p pre lba) with (cell_of p e lba). simpl.
      destruct (decide (lba < s)); intuition (auto; lia).
    + intros k e'. rewrite inner_add_entry.
      intros [[<- <-]|[Hne He']]%lookup_insert_Some ?; [simpl; lia|].
      rewrite Hi0 in He'. apply lookup_delete_Some in He' as [_ He'].
      destruct (Hoth k e'); [done|congruence|lia|lia].
Qed.

Lemma insert_inner_spec N m s len pbo h c :
  lm_wf N m → 0 ≤ s → 0 < len < U32 → s + len ≤ N → 0 ≤ pbo → pbo + len ≤ U32 →
  lm_wf N (insert_inner m s len pbo h c) ∧
  ∀ lba x, has (inner (insert_inner m s len pbo h c)) lba x ↔
    if decide (s ≤ lba < s + len) then x = mkCell h (pbo + (lba - s)) c
    else has (inner m) lba x.
Proof.
  intros Hwf Hs Hlen HN Hp Hpl. pose proof (wf_bound _ _ Hwf). unfold insert_inner. unwrap.
  destruct (split_predecessor_spec N m s (s + len)) as (m1 & -> & Hwf1 & Hout1 & Hcl1);
    [done|lia..|].
  destruct (remove_overlapping_fold N s (s + len) (om_range (inner m1) s (s + len)).*1 m1)
    as (m2 & -> & Hwf2 & Hout2 & Hlk2); [done|done|auto with elide| |].
  { intros k. rewrite list_elem_of_fmap.
    intros ([k' e] & -> & (He & Hk)%elem_of_om_range). simpl. by rewrite He. }
  assert (apart (inner m2) s (s + len)) as Hap.
  { intros k e He. destruct (decide (k < s + len)) as [Hlt|]; [|lia].
    rewrite Hlk2 in He by done. case_decide as Hin; [done|].
    destruct (decide (s ≤ k)) as [Hge|]; [|left; apply Hcl1; [done|lia]].
    destruct Hin. apply list_elem_of_fmap. exists (k, e). split; [done|].
    apply elem_of_om_range. auto. }
  set (e := mkMapEntry len h pbo c).
  assert (entry_ok N s e) as Hok by (unfold entry_ok, e; simpl; lia).
  split; [by apply add_entry_wf|].
  intros lba x. rewrite inner_add_entry, has_insert.
  2: { eapply apart_fresh; [done| |done]. lia. }
  unfold cell_of, e. simpl. case_decide as Hin.
  - split; [|by left]. intros [[_ ?]|(k & e' & He' & Hk & _)]; [done|].
    destruct (Hap _ _ He'); lia.
  - rewrite (Hout2 lba x Hin), (Hout1 lba x Hin). split; [intros [[? _]|?]; [lia|done]|by right].
Qed.

(** ** [insert_inner_if_newer] *)

(** Whether the claim takes block [lba]: it is unclaimed, or its claim yields. *)
Definition admits (blocking : Blocking) (h : Hash) (claimant : Ulid) (m : LbaMap) (lba : Z) : bool :=
  match view m lba with
  | Some c => negb (blocks blocking h claimant (c_claimant c) (c_hash c))
  | None => true
  end.

(** Blocked ranges in ascending order, none empty, all within [cur, t). *)
Fixpoint ranges_from (cur t : Z) (bs : list (Z * Z)) : Prop :=
  match bs with
  | [] => cur ≤ t
  | (b0, b1) :: bs => cur ≤ b0 ∧ b0 < b1 ∧ ranges_from b1 t bs
  end.

Definition in_ranges (lba : Z) (bs : list (Z * Z)) : Prop :=
  Exists (λ b, b.1 ≤ lba < b.2) bs.

#[export] Instance in_ranges_dec lba bs : Decision (in_ranges lba bs).
Proof. unfold in_ranges. apply _. Defined.

(** Blocks of [cur, t) outside every range. *)
Fixpoint gaps (cur t : Z) (bs : list (Z * Z)) : Z :=
  match bs with [] => t - cur | (b0, b1) :: bs => (b0 - cur) + gaps b1 t bs end.

Lemma ranges_from_le cur t bs : ranges_from cur t bs → cur ≤ t.
Proof.
  revert cur. induction bs as [|[b0 b1] bs IH]; intros cur; [done|].
  intros (? & ? & Hr). specialize (IH _ Hr). lia.
Qed.

Lemma ranges_from_mono cur cur' t bs :
  cur ≤ cur' → (∀ b, b ∈ bs → cur' ≤ b.1) → cur' ≤ t → ranges_from cur t bs →
  ranges_from cur' t bs.
Proof.
  intros Hc Hb Ht. destruct bs as [|[b0 b1] bs]; [done|]. intros (? & ? & ?).
  split_and!; [apply (Hb (b0, b1)); left|done|done].
Qed.

Lemma in_ranges_bounds cur t bs lba : ranges_from cur t bs → in_ranges lba bs → cur ≤ lba < t.
Proof.
  revert cur. induction bs as [|[b0 b1] bs IH]; intros cur Hr Hin; [by inversion Hin|].
  destruct Hr as (? & ? & Hr). pose proof (ranges_from_le _ _ _ Hr).
  unfold in_ranges in Hin. apply Exists_cons in Hin as [Hin|Hin]; [simpl in Hin; lia|].
  specialize (IH _ Hr Hin). lia.
Qed.

Lemma gaps_bounds cur t bs : ranges_from cur t bs → 0 ≤ gaps cur t bs ≤ t - cur.
Proof.
  revert cur. induction bs as [|[b0 b1] bs IH]; intros cur; simpl; [lia|].
  intros (? & ? & Hr). specialize (IH _ Hr). pose proof (ranges_from_le _ _ _ Hr). lia.
Qed.

Lemma gaps_filter cur t bs :
  ranges_from cur t bs →
  gaps cur t bs = Z.of_nat (length (filter (λ lba, ¬ in_ranges lba bs) (seqZ cur (t - cur)))).
Proof.
  revert cur. induction bs as [|[b0 b1] bs IH]; intros cur Hr; simpl.
  { rewrite filter_all; [rewrite length_seqZ; simpl in Hr; lia|].
    intros x _ Hx. by inversion Hx. }
  destruct Hr as (? & ? & Hr). pose proof (ranges_from_le _ _ _ Hr).
  replace (t - cur) with ((b0 - cur) + ((b1 - b0) + (t - b1))) by lia.
  rewrite seqZ_app, seqZ_app by lia. rewrite !filter_app, !length_app.
  replace (cur + (b0 - cur)) with b0 by lia. replace (b0 + (b1 - b0)) with b1 by lia.
  rewrite (filter_all _ (seqZ cur _)), (filter_none _ (seqZ b0 _)), length_seqZ; simpl.
  - rewrite (IH _ Hr). replace (filter (λ lba, ¬ in_ranges lba ((b0, b1) :: bs)) (seqZ b1 (t - b1)))
      with (filter (λ lba, ¬ in_ranges lba bs) (seqZ b1 (t - b1))); [lia|].
    apply filter_ext_in. intros x Hx%elem_of_seqZ.
    unfold in_ranges. rewrite Exists_cons. simpl. intuition lia.
  - intros x Hx%elem_of_seqZ. unfold in_ranges. rewrite Exists_cons. simpl. intros Hn. apply Hn.
    left. lia.
  - intros x Hx%elem_of_seqZ Hin. unfold in_ranges in Hin. apply Exists_cons in Hin as [Hin|Hin].
    + simpl in Hin. lia.
    + apply (in_ranges_bounds _ _ _ _ Hr) in Hin. lia.
Qed.

(** The install loop, followed by the last gap. *)
Definition install_all (s t : Z) (h : Hash) (c : Ulid) (m : LbaMap) (cur inst : Z)
    (bs : list (Z * Z)) : LbaMap * Z :=
  let '(m, cursor, installed) := foldl (install_gap s h c) (m, cur, inst) bs in
  if decide (cursor < t) then
    (insert_inner m cursor (as_u32 (u64_sub t cursor)) (as_u32 (u64_sub cursor s)) h c,
     u32_add installed (as_u32 (u64_sub t cursor)))
  else (m, installed).

(** One gap [a, b) of the range anchored at [s]. *)
Lemma insert_gap_spec N m s a b t h c :
  lm_wf N m → 0 ≤ s ≤ a → a < b ≤ t → t ≤ N → t - s < U32 →
  let m' := insert_inner m a (as_u32 (u64_sub b a)) (as_u32 (u64_sub a s)) h c in
  lm_wf N m' ∧ ∀ lba x, has (inner m') lba x ↔
    if decide (a ≤ lba < b) then x = mkCell h (lba - s) c else has (inner m) lba x.
Proof.
  intros Hwf Hs Hab HtN Hlen. pose proof (wf_bound _ _ Hwf). unwrap.
  destruct (insert_inner_spec N m a (b - a) (a - s) h c) as [Hwf' Hhas]; [done|lia..|].
  split; [done|]. intros lba x. rewrite Hhas. replace (a + (b - a)) with b by lia.
  case_decide; [|done]. by replace (a - s + (lba - a)) with (lba - s) by lia.
Qed.

Lemma install_all_cons s t h c m cur inst b0 b1 bs :
  install_all s t h c m cur inst ((b0, b1) :: bs) =
  let '(m1, i1) :=
    if decide (cur < b0) then
      (insert_inner m cur (as_u32 (u64_sub b0 cur)) (as_u32 (u64_sub cur s)) h c,
       u32_add inst (as_u32 (u64_sub b0 cur)))
    else (m, inst) in
  install_all s t h c m1 (Z.max cur b1) i1 bs.
Proof. unfold install_all. simpl. by case_decide. Qed.

Lemma install_all_spec N s t h c bs m cur inst :
  lm_wf N m → 0 ≤ s ≤ cur → t ≤ N → t - s < U32 → ranges_from cur t bs →
  0 ≤ inst → inst + (t - cur) < U32 →
  let r := install_all s t h c m cur inst bs in
  lm_wf N r.1 ∧ r.2 = inst + gaps cur t bs ∧
  ∀ lba x, has (inner r.1) lba x ↔
    if decide (cur ≤ lba < t ∧ ¬ in_ranges lba bs) then x = mkCell h (lba - s) c
    else has (inner m) lba x.
Proof.
  intros Hwf Hs HtN Hlen. revert m cur inst Hwf Hs.
  induction bs as [|[b0 b1] bs IH]; intros m cur inst Hwf Hs Hr Hi Hsum.
  { unfold install_all. simpl in *. pose proof (wf_bound _ _ Hwf). case_decide as Hlt; simpl.
    - destruct (insert_gap_spec N m s cur t t h c) as [Hwf' Hhas]; [done|lia..|].
      split; [done|]. split; [unwrap; lia|]. intros lba x. rewrite Hhas.
      assert (¬ in_ranges lba []) by (intros Hx; inversion Hx). repeat case_decide; tauto.
    - split; [done|]. split; [lia|]. intros lba x. by rewrite decide_False by lia. }
  destruct Hr as (Hc0 & H01 & Hr). pose proof (ranges_from_le _ _ _ Hr).
  rewrite install_all_cons. pose proof (wf_bound _ _ Hwf).
  assert (∀ lba, in_ranges lba ((b0, b1) :: bs) ↔ b0 ≤ lba < b1 ∨ in_ranges lba bs) as Hin.
  { intros lba. unfold in_ranges. by rewrite Exists_cons. }
  replace (Z.max cur b1) with b1 by lia.
  case_decide as Hgap; cbv beta iota zeta.
  - destruct (insert_gap_spec N m s cur b0 t h c) as [Hwf' Hhas]; [done|lia..|].
    rewrite (u32_add_id inst), (as_u32_id (u64_sub b0 cur)), (u64_sub_id b0) by (unwrap; lia).
    rewrite (as_u32_id (u64_sub b0 cur)), (u64_sub_id b0) in Hhas, Hwf' by (unwrap; lia).
    destruct (IH _ b1 (inst + (b0 - cur)) Hwf') as (Hwf2 & -> & Hhas2); [lia|done|lia|lia|].
    split; [exact Hwf2|]. split; [simpl; lia|].
    intros lba x. rewrite (Hhas2 lba x). specialize (Hhas lba x).
    specialize (Hin lba). pose proof (in_ranges_bounds _ _ _ lba Hr).
    assert (¬ in_ranges lba ((b0, b1) :: bs) → ¬ (b0 ≤ lba < b1)) by tauto.
    repeat case_decide; try tauto; exfalso; split_nand; intuition lia.
  - assert (cur = b0) as -> by lia.
    destruct (IH m b1 inst Hwf) as (Hwf2 & -> & Hhas2); [lia|done|lia|lia|].
    split; [exact Hwf2|]. split; [simpl; lia|].
    intros lba x. rewrite Hhas2.
    specialize (Hin lba). pose proof (in_ranges_bounds _ _ _ lba Hr).
    assert (¬ in_ranges lba ((b0, b1) :: bs) → ¬ (b0 ≤ lba < b1)) by tauto.
    repeat case_decide; try tauto; exfalso; split_nand; intuition lia.
Qed.

(** *** The blocked ranges *)

Definition range_of (blk : MapEntry → bool) (t : Z) : Z * MapEntry → option (Z * Z) :=
  λ '(k, e), if blk e then Some (k, Z.min (u64_add k (lba_length e)) t) else None.

Lemma range_omap_sorted N m blk cur t l :
  lm_wf N m → cur ≤ t → StronglySorted key_lt l →
  (∀ k e, (k, e) ∈ l → inner m !! k = Some e ∧ cur ≤ k < t) →
  ranges_from cur t (omap (range_of blk t) l).
Proof.
  intros Hwf. revert cur. induction l as [|[k e] l IH]; intros cur Ht Hs Hl; [done|].
  inversion Hs as [|? ? Hs' Hall]; subst. rewrite Forall_forall in Hall.
  destruct (Hl k e) as [He Hk]; [by left|].
  pose proof (wf_entry _ _ Hwf _ _ He) as (? & ? & ? & _). pose proof (wf_bound _ _ Hwf).
  assert (ranges_from (Z.min (k + lba_length e) t) t (omap (range_of blk t) l)) as Hr.
  { apply IH; [lia|done|]. intros k' e' Hin. destruct (Hl k' e') as [He' ?]; [by right|].
    split; [done|]. apply Hall in Hin. unfold key_lt in Hin. simpl in Hin.
    pose proof (wf_disjoint _ _ Hwf _ _ _ _ He He' Hin). lia. }
  simpl. destruct (blk e).
  - unwrap. split; [lia|]. split; [lia|]. done.
  - apply IH; [done|done|]. intros k' e' Hin. apply Hl. by right.
Qed.

Lemma in_ranges_omap blk t l lba :
  in_ranges lba (omap (range_of blk t) l) ↔
  ∃ k e, (k, e) ∈ l ∧ blk e = true ∧ k ≤ lba < Z.min (u64_add k (lba_length e)) t.
Proof.
  unfold in_ranges. rewrite Exists_exists. split.
  - intros ([b0 b1] & Hin & Hb). apply list_elem_of_omap in Hin as ([k e] & Hin & Hr).
    unfold range_of in Hr. destruct (blk e) eqn:Hblk; [|done]. injection Hr as <- <-.
    by exists k, e.
  - intros (k & e & Hin & Hblk & Hlba). exists (k, Z.min (u64_add k (lba_length e)) t).
    split; [|done]. apply list_elem_of_omap. exists (k, e). split; [done|].
    unfold range_of. by rewrite Hblk.
Qed.

Lemma in_ranges_app lba b1 b2 : in_ranges lba (b1 ++ b2) ↔ in_ranges lba b1 ∨ in_ranges lba b2.
Proof. apply Exists_app. Qed.

Definition blocked_at (m : LbaMap) (blk : MapEntry → bool) (lba : Z) : Prop :=
  ∃ k e, inner m !! k = Some e ∧ k ≤ lba < k + lba_length e ∧ blk e = true.

Lemma blocked_ranges_spec N m blk s t :
  lm_wf N m → 0 ≤ s < t → t ≤ N →
  ranges_from s t (blocked_ranges (inner m) blk s t) ∧
  ∀ lba, in_ranges lba (blocked_ranges (inner m) blk s t) ↔ s ≤ lba < t ∧ blocked_at m blk lba.
Proof.
  intros Hwf Hst HtN. pose proof (wf_bound _ _ Hwf). unfold blocked_ranges.
  set (tailr := omap _ (om_range (inner m) s t)).
  assert (tailr = omap (range_of blk t) (om_range (inner m) s t)) as Htail by done.
  assert (∀ k e, (k, e) ∈ om_range (inner m) s t → inner m !! k = Some e ∧ s ≤ k < t) as Hrng.
  { intros k e. apply elem_of_om_range. }
  assert (∀ lba, in_ranges lba tailr ↔ ∃ k e, inner m !! k = Some e ∧ s ≤ k ∧
            k ≤ lba < k + lba_length e ∧ lba < t ∧ blk e = true) as Hint.
  { intros lba. rewrite Htail, in_ranges_omap. split.
    - intros (k & e & Hin & Hblk & Hlba). apply Hrng in Hin as [He ?].
      pose proof (wf_entry _ _ Hwf _ _ He) as (? & ? & ? & _). unwrap_in Hlba.
      exists k, e. split_and!; try done; lia.
    - intros (k & e & He & ? & ? & ? & ?).
      pose proof (wf_entry _ _ Hwf _ _ He) as (? & ? & ? & _).
      exists k, e. unwrap. split_and!; try done; [|lia..].
      apply elem_of_om_range. split; [done|lia]. }
  destruct (om_below (inner m) s) as [[p e]|] eqn:Hb; cycle 1.
  { rewrite om_below_None in Hb. split.
    - simpl. rewrite Htail. eapply range_omap_sorted; [done|lia|auto with elide|done].
    - intros lba. simpl. rewrite Hint. unfold blocked_at. split.
      + intros (k & e & ? & ? & ? & ? & ?). split; [lia|]. by exists k, e.
      + intros (? & k & e & He & ? & ?). exists k, e. specialize (Hb _ _ He).
        split_and!; try done; lia. }
  apply om_below_Some in Hb as (He & Hps & Hmax).
  pose proof (wf_entry _ _ Hwf _ _ He) as (? & ? & ? & _).
  set (hd := if decide _ then _ else _).
  assert (ranges_from s t (hd ++ tailr) ∧ ∀ lba, in_ranges lba hd ↔
            s ≤ lba < p + lba_length e ∧ lba < t ∧ blk e = true) as [Hr Hhd].
  { unfold hd. unwrap. rewrite Htail. case_decide as Hreach; [destruct (blk e) eqn:Hblk|].
    - split.
      + simpl. split; [lia|]. split; [lia|].
        eapply range_omap_sorted; [done|lia|auto with elide|].
        intros k e' Hin. apply Hrng in Hin as [He' ?]. split; [done|].
        pose proof (wf_disjoint _ _ Hwf _ _ _ _ He He'). lia.
      + intros lba. unfold in_ranges. rewrite Exists_cons, Exists_nil. simpl. intuition lia.
    - split.
      + simpl. eapply range_omap_sorted; [done|lia|auto with elide|done].
      + intros lba. unfold in_ranges. rewrite Exists_nil. intuition done.
    - split.
      + simpl. eapply range_omap_sorted; [done|lia|auto with elide|done].
      + intros lba. unfold in_ranges. rewrite Exists_nil. intuition lia. }
  split; [done|]. intros lba. rewrite in_ranges_app, Hhd, Hint. unfold blocked_at. split.
  - intros [(? & ? & ?)|(k & e' & ? & ? & ? & ? & ?)].
    + split; [lia|]. exists p, e. split_and!; try done; lia.
    + split; [lia|]. by exists k, e'.
  - intros (? & k & e' & He' & Hk & Hblk). destruct (decide (s ≤ k)).
    + right. exists k, e'. split_and!; try done; lia.
    + left. assert (k = p) as -> by
        (destruct (decide (k = p)); [done|]; assert (k < p) as Hlt by
           (specialize (Hmax _ _ He'); lia);
         pose proof (wf_disjoint _ _ Hwf _ _ _ _ He' He Hlt); lia).
      simplify_eq. split_and!; try done; lia.
Qed.

(** *** The whole operation *)

Definition blk_of (blocking : Blocking) (h : Hash) (claimant : Ulid) (e : MapEntry) : bool :=
  blocks blocking h claimant (claimant_ulid e) (me_hash e).

Lemma admits_false N m blocking h c lba :
  lm_wf N m → admits blocking h c m lba = false ↔ blocked_at m (blk_of blocking h c) lba.
Proof.
  intros Hwf. unfold admits, blocked_at, blk_of.
  destruct (view m lba) as [x|] eqn:Hv.
  - apply (view_Some _ _ _ _ Hwf) in Hv as Hx. rewrite negb_false_iff. split.
    + intros Hb. destruct Hx as (k & e & He & Hk & ->). by exists k, e.
    + intros (k & e & He & Hk & Hb).
      rewrite (has_functional _ _ _ x (cell_of k e lba) Hwf Hx); [done|]. by exists k, e.
  - split; [done|]. intros (k & e & He & Hk & Hb).
    exfalso. apply (proj1 (view_None _ _ _ Hwf) Hv (cell_of k e lba)). by exists k, e.
Qed.

(** An extent keyed at [s] and exactly [len] long is the only one [s, s+len) meets. *)
Lemma exact_extent_only N m s e lba x :
  lm_wf N m → inner m !! s = Some e → s ≤ lba < s + lba_length e →
  has (inner m) lba x ↔ x = cell_of s e lba.
Proof.
  intros Hwf He Hlba. split.
  - intros Hx. eapply (has_functional _ _ _ _ _ Hwf Hx). by exists s, e.
  - intros ->. by exists s, e.
Qed.

(** Restating an extent in place. *)
Lemma restate_spec N m s e h c :
  lm_wf N m → inner m !! s = Some e →
  let m0 := mkLbaMap (<[s := mkMapEntry (lba_length e) h 0 c]> (inner m)) (claim_counts m) in
  let m' := if decide (me_hash e = h) then m0
            else claim_incref (claim_decref m0 (me_hash e)) h in
  lm_wf N m' ∧ inner m' = <[s := mkMapEntry (lba_length e) h 0 c]> (inner m).
Proof.
  intros Hwf He m0 m'. set (e' := mkMapEntry (lba_length e) h 0 c).
  assert (inner m' = <[s := e']> (inner m)) as Hi.
  { unfold m', claim_decref. case_decide; [done|]. simpl.
    destruct (claim_counts m !! me_hash e); [|done]. by case_decide. }
  pose proof (wf_entry _ _ Hwf _ _ He) as (? & ? & ? & ? & ?).
  split; [|done]. split; rewrite ?Hi; [apply Hwf| | |].
  - intros k' x [[<- <-]|[_ Hx]]%lookup_insert_Some; [|by apply (wf_entry _ _ Hwf)].
    unfold entry_ok, e'. simpl. lia.
  - intros k1 e1 k2 e2 [[<- <-]|[Hn1 He1]]%lookup_insert_Some
      [[<- <-]|[Hn2 He2]]%lookup_insert_Some Hlt; [lia| | |].
    + exact (wf_disjoint _ _ Hwf _ _ _ _ He He2 Hlt).
    + exact (wf_disjoint _ _ Hwf _ _ _ _ He1 He Hlt).
    + exact (wf_disjoint _ _ Hwf _ _ _ _ He1 He2 Hlt).
  - intros HN x. rewrite <-insert_delete_eq.
    rewrite claimants_insert by apply lookup_delete_eq.
    rewrite (claimants_delete _ _ _ _ He). unfold e'. simpl.
    pose proof (wf_counts _ _ Hwf HN) as Hc.
    unfold m'. case_decide as Hh.
    { transitivity (claim_counts m !! x); [done|]. rewrite Hc. f_equal. rewrite Hh. lia. }
    pose proof (counts_remove_entry N m s e) as Hrem. unfold remove_entry in Hrem.
    rewrite He in Hrem. simpl in Hrem.
    assert (∀ y, claim_counts (claim_decref m0 (me_hash e)) !! y =
             count_of (claimants_of (delete s (inner m)) y)) as Hdec.
    { intros y. rewrite <-(Hrem y Hwf HN eq_refl). unfold claim_decref, m0. simpl.
      destruct (claim_counts m !! me_hash e); [|done]. by case_decide. }
    unfold claim_incref. simpl. rewrite Hdec, default_count_of.
    assert (0 ≤ claimants_of (delete s (inner m)) h) by (unfold claimants_of; lia).
    pose proof (claimants_bounded N (<[s := e']> (inner m)) h) as [_ Hb].
    { destruct (wf_bound _ _ Hwf). lia. }
    { intros k' x' [[<- <-]|[_ Hx']]%lookup_insert_Some; [lia|].
      destruct (wf_entry _ _ Hwf _ _ Hx') as (? & ? & ? & _). lia. }
    rewrite <-insert_delete_eq, claimants_insert in Hb by apply lookup_delete_eq.
    unfold e' in Hb. simpl in Hb. rewrite (decide_True (P := h = h)) in Hb by done. unwrap.
    rewrite lookup_insert. case_decide as Hx; [subst x|].
    + rewrite <-(claimants_delete _ _ _ _ He). unfold count_of.
      by rewrite decide_False by lia.
    + rewrite Hdec, (claimants_delete _ _ _ _ He). f_equal. lia.
Qed.

(** The number of blocks of [s, s+len) the claim takes. *)
Definition admitted_count (blocking : Blocking) (h : Hash) (c : Ulid) (m : LbaMap) (s len : Z) : Z :=
  Z.of_nat (length (filter (λ lba, admits blocking h c m lba = true) (seqZ s len))).

Lemma insert_inner_if_newer_spec N m s len h c blocking :
  lm_wf N m → 0 ≤ s → 0 < len < U32 → s + len ≤ N →
  let r := insert_inner_if_newer m s len h c blocking in
  lm_wf N r.1 ∧ r.2 = admitted_count blocking h c m s len ∧
  ∀ lba x, has (inner r.1) lba x ↔
    if decide (s ≤ lba < s + len ∧ admits blocking h c m lba = true)
    then x = mkCell h (lba - s) c else has (inner m) lba x.
Proof.
  intros Hwf Hs Hlen HN. pose proof (wf_bound _ _ Hwf).
  set (slow := install_all s (s + len) h c m s 0
                 (blocked_ranges (inner m) (blk_of blocking h c) s (s + len))).
  assert (lm_wf N slow.1 ∧ slow.2 = admitted_count blocking h c m s len ∧
          ∀ lba x, has (inner slow.1) lba x ↔
    if decide (s ≤ lba < s + len ∧ admits blocking h c m lba = true)
    then x = mkCell h (lba - s) c else has (inner m) lba x) as Hslow.
  { destruct (blocked_ranges_spec N m (blk_of blocking h c) s (s + len)) as [Hr Hin];
      [done|lia..|].
    destruct (install_all_spec N s (s + len) h c
        (blocked_ranges (inner m) (blk_of blocking h c) s (s + len)) m s 0 Hwf)
      as (Hwf' & Hn & Hhas); [lia..|exact Hr|lia|lia|]. fold slow in Hwf', Hn, Hhas.
    assert (∀ lba, s ≤ lba < s + len → admits blocking h c m lba = true ↔
       ¬ in_ranges lba (blocked_ranges (inner m) (blk_of blocking h c) s (s + len))) as Hadm.
    { intros lba Hlba. rewrite Hin, <-(admits_false _ _ _ _ _ _ Hwf), <-not_false_iff_true.
      tauto. }
    split; [done|]. split.
    - rewrite Hn, (gaps_filter _ _ _ Hr). replace (s + len - s) with len by lia.
      unfold admitted_count. rewrite Z.add_0_l. f_equal. f_equal. symmetry.
      apply filter_ext_in. intros lba Hlba%elem_of_seqZ. apply Hadm. lia.
    - intros lba x. rewrite (Hhas lba x). specialize (Hadm lba).
      repeat case_decide; try tauto; exfalso; tauto. }
  intros r.
  assert (r = slow ∨ ∃ e, inner m !! s = Some e ∧ lba_length e = len) as [->|(e & He & Hle)].
  { unfold r, insert_inner_if_newer. rewrite u64_add_id by lia.
    destruct (inner m !! s) as [e|]; [case_decide; [eauto|by left]|by left]. }
  { exact Hslow. }
  clear Hslow. subst len. unfold r, insert_inner_if_newer. clear r slow.
  rewrite He, decide_True by done.
  fold (blk_of blocking h c e).
  assert (∀ lba, s ≤ lba < s + lba_length e →
            admits blocking h c m lba = negb (blk_of blocking h c e)) as Hadm.
  { intros lba Hlba. unfold admits.
    rewrite (proj2 (view_Some _ _ lba (cell_of s e lba) Hwf)); [done|]. by exists s, e. }
  unfold admitted_count.
  destruct (blk_of blocking h c e) eqn:Hblk; simpl.
  - split; [done|]. split.
    + rewrite filter_none; [done|]. intros lba Hlba%elem_of_seqZ. by rewrite Hadm by lia.
    + intros lba x. rewrite decide_False; [done|]. intros [Hlba Ha]. by rewrite Hadm in Ha.
  - destruct (restate_spec N m s e h c Hwf He) as [Hwf' Hi]. cbv zeta in Hwf', Hi.
    match type of Hi with inner ?x = _ => set (m' := x) in * end.
    split; [exact Hwf'|]. split.
    + rewrite filter_all; [rewrite length_seqZ; lia|].
      intros lba Hlba%elem_of_seqZ. by rewrite Hadm by lia.
    + intros lba x. case_decide as Hd.
      * destruct Hd as [Hlba _]. change (inner m') with (inner m').
        rewrite (exact_extent_only N m' s (mkMapEntry (lba_length e) h 0 c) lba x Hwf').
        -- unfold cell_of. simpl. by rewrite Z.add_0_l.
        -- rewrite Hi. apply lookup_insert_eq.
        -- done.
      * rewrite Hi, <-insert_delete_eq, has_insert by apply lookup_delete_eq.
        rewrite (has_delete (inner m) s e) by done. simpl.
        assert (¬ (s ≤ lba < s + lba_length e)); [|tauto].
        intros Hlba. apply Hd. by rewrite Hadm.
Qed.
