(* ===== verification/LbaMapSpec.v ===== *)
(** * The LBA map's contract

    The map as a function from blocks to cells: what each operation does to it,
    and that reads return it. *)

From stdpp Require Import base gmap list sorting fin_maps.
From S2P Require Import Prelude Segment LbaMap LbaMapFacts.
Open Scope Z_scope.

(** ** Views of the operations *)

Lemma lm_new_wf N : 0 ≤ N < U64 → lm_wf N lm_new.
Proof.
  intros HN. split; [done| | |].
  - intros k e He. simpl in He. by rewrite lookup_empty in He.
  - intros k1 e1 k2 e2 He. simpl in He. by rewrite lookup_empty in He.
  - intros _ h. simpl. rewrite lookup_empty. symmetry. apply count_of_None.
    unfold claimants_of. by rewrite map_filter_empty, map_size_empty.
Qed.

Lemma lm_new_view lba : view lm_new lba = None.
Proof. done. Qed.

Lemma view_of_has N m' (f : Z → option Cell) :
  lm_wf N m' → (∀ lba x, has (inner m') lba x ↔ f lba = Some x) → ∀ lba, view m' lba = f lba.
Proof. intros Hwf Hf lba. apply option_eq. intros x. by rewrite (view_Some _ _ _ _ Hwf). Qed.

Lemma insert_inner_view N m s len pbo h c :
  lm_wf N m → 0 ≤ s → 0 < len < U32 → s + len ≤ N → 0 ≤ pbo → pbo + len ≤ U32 →
  lm_wf N (insert_inner m s len pbo h c) ∧
  ∀ lba, view (insert_inner m s len pbo h c) lba =
    if decide (s ≤ lba < s + len) then Some (mkCell h (pbo + (lba - s)) c) else view m lba.
Proof.
  intros Hwf ? ? ? ? ?. destruct (insert_inner_spec N m s len pbo h c) as [Hwf' Hhas]; [done..|].
  split; [done|]. apply (view_of_has N); [done|]. intros lba x. rewrite Hhas.
  case_decide; [naive_solver|]. symmetry. by apply view_Some with N.
Qed.

Lemma insert_if_newer_view N m s len h c blocking :
  lm_wf N m → 0 ≤ s → 0 < len < U32 → s + len ≤ N →
  let r := insert_inner_if_newer m s len h c blocking in
  lm_wf N r.1 ∧ r.2 = admitted_count blocking h c m s len ∧
  ∀ lba, view r.1 lba =
    if decide (s ≤ lba < s + len ∧ admits blocking h c m lba = true)
    then Some (mkCell h (lba - s) c) else view m lba.
Proof.
  intros Hwf ? ? ?.
  destruct (insert_inner_if_newer_spec N m s len h c blocking) as (Hwf' & Hn & Hhas); [done..|].
  split; [done|]. split; [done|]. apply (view_of_has N); [done|]. intros lba x.
  rewrite (Hhas lba x). case_decide; [naive_solver|]. symmetry. by apply view_Some with N.
Qed.

(** ** Reads of a range *)

Definition er_covers (x : ExtentRead) (lba : Z) : Prop := range_start x ≤ lba < range_end x.
Definition er_cell (x : ExtentRead) (lba : Z) : Cell :=
  mkCell (er_hash x) (er_payload_block_offset x + (lba - range_start x)) (er_claimant x).

(** The block a list of reads yields for [lba]. *)
Fixpoint read_at (xs : list ExtentRead) (lba : Z) : option Cell :=
  match xs with
  | [] => None
  | x :: xs =>
      if decide (range_start x ≤ lba < range_end x) then Some (er_cell x lba) else read_at xs lba
  end.

(** Ascending, non-empty, disjoint reads within [cur, t). *)
Fixpoint reads_sorted (cur t : Z) (xs : list ExtentRead) : Prop :=
  match xs with
  | [] => cur ≤ t
  | x :: xs => cur ≤ range_start x ∧ range_start x < range_end x ∧ reads_sorted (range_end x) t xs
  end.

Lemma reads_sorted_le cur t xs : reads_sorted cur t xs → cur ≤ t.
Proof.
  revert cur. induction xs as [|x xs IH]; intros cur; [done|].
  intros (? & ? & Hr). specialize (IH _ Hr). lia.
Qed.

Lemma read_at_bounds cur t xs lba c :
  reads_sorted cur t xs → read_at xs lba = Some c → cur ≤ lba < t.
Proof.
  revert cur. induction xs as [|x xs IH]; intros cur; [done|].
  intros (? & ? & Hr). simpl. pose proof (reads_sorted_le _ _ _ Hr).
  case_decide; [lia|]. intros Hx. specialize (IH _ Hr Hx). lia.
Qed.

Lemma reads_bounds cur t xs er : reads_sorted cur t xs → er ∈ xs → cur ≤ range_start er < range_end er ∧ range_end er ≤ t.
Proof.
  revert cur. induction xs as [|x xs IH]; intros cur Hs; [by intros ?%elem_of_nil|].
  destruct Hs as (Hc & Hx & Hs). pose proof (reads_sorted_le _ _ _ Hs).
  intros [->|Hin]%elem_of_cons; [lia|]. specialize (IH _ Hs Hin). lia.
Qed.

Lemma read_at_covered cur t xs r lba :
  reads_sorted cur t xs → r ∈ xs → er_covers r lba → read_at xs lba = Some (er_cell r lba) ∧ cur ≤ lba < t.
Proof.
  revert cur. induction xs as [|x xs IH]; intros cur Hs; [by intros ?%elem_of_nil|].
  destruct Hs as (Hc & Hx & Hs). pose proof (reads_sorted_le _ _ _ Hs). unfold er_covers. cbn [read_at].
  intros [->|Hin]%elem_of_cons Hr; [rewrite decide_True by lia; split; [done|lia]|].
  destruct (IH _ Hs Hin Hr) as [? ?]. rewrite decide_False by lia. split; [done|lia].
Qed.

Lemma read_at_Some xs lba c : read_at xs lba = Some c → ∃ r, r ∈ xs ∧ er_covers r lba ∧ c = er_cell r lba.
Proof.
  induction xs as [|x xs IH]; [done|]. cbn [read_at]. unfold er_covers. case_decide.
  - intros [= <-]. exists x. by split; [left|].
  - intros (r & ? & ? & ?)%IH. exists r. by split; [right|].
Qed.

Lemma reads_sorted_weaken cur cur' t xs :
  cur' ≤ cur → reads_sorted cur t xs → reads_sorted cur' t xs.
Proof. destruct xs; simpl; intuition lia. Qed.

Lemma reads_sorted_app cur mid t xs ys :
  reads_sorted cur mid xs → reads_sorted mid t ys → reads_sorted cur t (xs ++ ys).
Proof.
  revert cur. induction xs as [|x xs IH]; intros cur; simpl.
  - intros. by eapply reads_sorted_weaken.
  - intros (? & ? & ?) ?. split_and!; try done. by apply IH.
Qed.

Lemma read_at_app xs ys lba :
  read_at (xs ++ ys) lba = match read_at xs lba with Some c => Some c | None => read_at ys lba end.
Proof. induction xs as [|x xs IH]; [done|]. simpl. by case_decide. Qed.

Definition entry_read (t : Z) : Z * MapEntry → ExtentRead :=
  λ '(key, e), mkExtentRead (me_hash e) key (Z.min (u64_add key (lba_length e)) t)
                 (payload_block_offset e) (claimant_ulid e).

Lemma map_entry_read_spec N m cur t l :
  lm_wf N m → cur ≤ t → StronglySorted key_lt l →
  (∀ k e, (k, e) ∈ l → inner m !! k = Some e ∧ cur ≤ k < t) →
  reads_sorted cur t (map (entry_read t) l) ∧
  ∀ lba c, read_at (map (entry_read t) l) lba = Some c ↔
    lba < t ∧ ∃ k e, (k, e) ∈ l ∧ k ≤ lba < k + lba_length e ∧ c = cell_of k e lba.
Proof.
  intros Hwf. revert cur. induction l as [|[k e] l IH]; intros cur Ht Hs Hl; simpl.
  { split; [done|]. intros lba c. split; [done|].
    intros (_ & k & e & Hin & _). by apply not_elem_of_nil in Hin. }
  inversion Hs as [|? ? Hs' Hall]; subst. rewrite Forall_forall in Hall.
  destruct (Hl k e) as [He Hk]; [by left|].
  pose proof (wf_entry _ _ Hwf _ _ He) as (? & ? & ? & _). pose proof (wf_bound _ _ Hwf).
  unwrap.
  assert (∀ k' e', (k', e') ∈ l →
            inner m !! k' = Some e' ∧ Z.min (k + lba_length e) t ≤ k' < t) as Hl'.
  { intros k' e' Hin. destruct (Hl k' e') as [He' ?]; [by right|]. split; [done|].
    apply Hall in Hin. unfold key_lt in Hin. simpl in Hin.
    pose proof (wf_disjoint _ _ Hwf _ _ _ _ He He' Hin). lia. }
  destruct (IH (Z.min (k + lba_length e) t)) as [Hr Hat]; [lia|done|done|].
  split; [split_and!; [lia|lia|done]|].
  intros lba c. case_decide as Hlba; [|rewrite Hat]; split.
  - intros [= <-]. split; [lia|]. exists k, e. split; [by left|]. split; [lia|].
    unfold er_cell, cell_of. simpl. done.
  - intros (_ & k' & e' & [Heq|Hin]%elem_of_cons & Hc & ->); [by simplify_eq|].
    destruct (Hl' _ _ Hin) as [He' ?]. lia.
  - intros (? & k' & e' & Hin & ?). split; [done|]. exists k', e'. split; [by right|done].
  - intros (? & k' & e' & [Heq|Hin]%elem_of_cons & Hc & ->); [simplify_eq; lia|].
    split; [done|]. by exists k', e'.
Qed.

Lemma extents_in_range_spec N m s t :
  lm_wf N m → 0 ≤ s < t → t ≤ N →
  reads_sorted s t (extents_in_range m s t) ∧
  ∀ lba, s ≤ lba < t → read_at (extents_in_range m s t) lba = view m lba.
Proof.
  intros Hwf Hst HtN. pose proof (wf_bound _ _ Hwf). unfold extents_in_range.
  change (map _ (om_range (inner m) s t)) with (map (entry_read t) (om_range (inner m) s t)).
  assert (∀ k e, (k, e) ∈ om_range (inner m) s t → inner m !! k = Some e ∧ s ≤ k < t) as Hrng.
  { intros k e. apply elem_of_om_range. }
  assert (∀ lba k e, s ≤ lba < t → inner m !! k = Some e → k ≤ lba → s ≤ k →
            (k, e) ∈ om_range (inner m) s t) as Hrng'.
  { intros lba k e ? ? ? ?. apply elem_of_om_range. split; [done|lia]. }
  destruct (om_below (inner m) s) as [[p e]|] eqn:Hb; cycle 1.
  { rewrite om_below_None in Hb.
    destruct (map_entry_read_spec N m s t (om_range (inner m) s t)) as [Hr Hat];
      [done|lia|auto with elide|done|].
    split; [done|]. intros lba Hlba. apply option_eq. intros c.
    rewrite (view_Some _ _ _ _ Hwf). simpl. rewrite Hat. split.
    - intros (_ & k & e & Hin & Hc). apply Hrng in Hin as [? _]. by exists k, e.
    - intros (k & e & He & Hk & ->). split; [lia|]. exists k, e. split; [|done].
      specialize (Hb _ _ He). eapply Hrng'; [exact Hlba|done|lia|lia]. }
  apply om_below_Some in Hb as (He & Hps & Hmax).
  pose proof (wf_entry _ _ Hwf _ _ He) as (? & ? & ? & ? & ?). unwrap.
  assert (∀ k e', inner m !! k = Some e' → k < s → ∀ lba, s ≤ lba → lba < k + lba_length e' → k = p)
    as Hpred.
  { intros k e' He' Hk lba ? ?. specialize (Hmax _ _ He' Hk).
    destruct (decide (k = p)); [done|].
    assert (k < p) as Hlt by lia. pose proof (wf_disjoint _ _ Hwf _ _ _ _ He' He Hlt). lia. }
  case_decide as Hreach; unwrap.
  - destruct (map_entry_read_spec N m (Z.min (p + lba_length e) t) t (om_range (inner m) s t))
      as [Hr Hat]; [done|lia|auto with elide| |].
    { intros k e' Hin. apply Hrng in Hin as [He' ?]. split; [done|].
      pose proof (wf_disjoint _ _ Hwf _ _ _ _ He He'). lia. }
    split; [simpl; split_and!; [lia|lia|done]|].
    intros lba Hlba. apply option_eq. intros c. rewrite (view_Some _ _ _ _ Hwf). simpl.
    case_decide as Hin; [|rewrite Hat]; split.
    + intros [= <-]. exists p, e. split; [done|]. split; [lia|].
      unfold er_cell, cell_of. simpl. f_equal. lia.
    + intros Hc. rewrite (has_functional _ _ _ c (cell_of p e lba) Hwf Hc).
      * unfold er_cell, cell_of. simpl. do 2 f_equal. lia.
      * exists p, e. split; [done|]. split; [lia|done].
    + intros (_ & k & e' & Hk & Hc). apply Hrng in Hk as [? _]. by exists k, e'.
    + intros (k & e' & He' & Hk & ->). split; [lia|]. exists k, e'. split; [|done].
      eapply Hrng'; [exact Hlba|done|lia|].
      destruct (decide (s ≤ k)); [done|]. assert (k = p) as -> by (apply (Hpred k e' He' ltac:(lia) lba); lia).
      simplify_eq. lia.
  - destruct (map_entry_read_spec N m s t (om_range (inner m) s t)) as [Hr Hat];
      [done|lia|auto with elide|done|].
    split; [done|]. intros lba Hlba. apply option_eq. intros c.
    rewrite (view_Some _ _ _ _ Hwf). simpl. rewrite Hat. split.
    + intros (_ & k & e' & Hin & Hc). apply Hrng in Hin as [? _]. by exists k, e'.
    + intros (k & e' & He' & Hk & ->). split; [lia|]. exists k, e'. split; [|done].
      eapply Hrng'; [exact Hlba|done|lia|].
      destruct (decide (s ≤ k)); [done|]. assert (k = p) as -> by (apply (Hpred k e' He' ltac:(lia) lba); lia).
      simplify_eq. lia.
Qed.

(** ** Moving claims *)

(** ** The reader interface

    What a map promises the read path: a view of the blocks, and an extent list
    that covers exactly the mapped part of any range.  The LBA map is one
    instance; the layered maps, built over it, are another. *)

Class RangeReader (M : Type) := {
  rr_ok : Z → M → Prop;
  rr_view : M → Z → option Cell;
  rr_extents : M → Z → Z → list ExtentRead;
  rr_exact : ∀ N m s t, rr_ok N m → 0 ≤ s < t → t ≤ N →
    reads_sorted s t (rr_extents m s t) ∧
    ∀ lba, s ≤ lba < t → read_at (rr_extents m s t) lba = rr_view m lba
}.

#[export] Instance lba_map_reader : RangeReader LbaMap := {
  rr_ok := lm_wf;
  rr_view := view;
  rr_extents := extents_in_range;
  rr_exact := extents_in_range_spec
}.

Lemma lookup_set_claimants m keys c k :
  inner (set_claimants m keys c) !! k =
  (if decide (k ∈ keys) then set_entry_claimant c <$> inner m !! k else inner m !! k).
Proof.
  unfold set_claimants. simpl. generalize (inner m). induction keys as [|q keys IH]; intros im; cbn [foldl].
  { rewrite decide_False by apply not_elem_of_nil. done. }
  rewrite IH. destruct (decide (q = k)) as [->|Hne].
  - rewrite lookup_alter_eq. assert (k ∈ k :: keys) by (by left).
    repeat case_decide; try tauto; by destruct (im !! k).
  - rewrite lookup_alter_ne by done. assert (k ∈ q :: keys ↔ k ∈ keys) by set_solver.
    repeat case_decide; tauto.
Qed.

Lemma elem_of_claim_keys N m s t h promotes k :
  lm_wf N m → s ≤ t → t ≤ N →
  k ∈ claim_keys (inner m) s t h promotes ↔
  ∃ e, inner m !! k = Some e ∧ (s ≤ k < t ∨ (k < s ∧ s < k + lba_length e)) ∧ me_hash e = h ∧
       promotes (claimant_ulid e) = true.
Proof.
  intros Hwf Hst HtN. unfold claim_keys. pose proof (wf_bound _ _ Hwf).
  set (body := λ e : MapEntry, bool_decide (me_hash e = h) && promotes (claimant_ulid e)).
  assert (∀ e, body e = true ↔ me_hash e = h ∧ promotes (claimant_ulid e) = true) as Hbody.
  { intros e. unfold body. by rewrite andb_true_iff, bool_decide_eq_true. }
  rewrite elem_of_app, list_elem_of_omap.
  assert ((∃ x, x ∈ om_range (inner m) s t ∧
     (let '(k0, e) := x in
      if bool_decide (me_hash e = h) && promotes (claimant_ulid e) then Some k0 else None)
     = Some k) ↔
    ∃ e, inner m !! k = Some e ∧ s ≤ k < t ∧ me_hash e = h ∧ promotes (claimant_ulid e) = true)
    as Hrange.
  { split.
    - intros ([k' e] & Hin & Hx). fold (body e) in Hx. destruct (body e) eqn:Hb; [|done]. simplify_eq.
      apply elem_of_om_range in Hin as [He ?]. apply Hbody in Hb. by exists e.
    - intros (e & He & Hk & Hb%Hbody). exists (k, e). split; [by apply elem_of_om_range|].
      fold (body e). by rewrite Hb. }
  rewrite Hrange. clear Hrange.
  assert (∀ b : bool, ∀ p, k ∈ (if b then [p] else []) ↔ b = true ∧ k = p) as Hsing.
  { intros [] p; set_solver. }
  destruct (om_below (inner m) s) as [[p e]|] eqn:Hb.
  - apply om_below_Some in Hb as (He & Hps & Hmax).
    pose proof (wf_entry _ _ Hwf _ _ He) as (? & ? & ? & _). unwrap.
    rewrite Hsing, !andb_true_iff, !bool_decide_eq_true. split.
    + intros [[[[? ?] ?] ->]|(e' & ? & ? & ? & ?)].
      * exists e. split_and!; try done. right. lia.
      * exists e'. split_and!; try done. by left.
    + intros (e' & He' & [?|[Hk ?]] & ?); [right; by exists e'|]. left.
      specialize (Hmax _ _ He' Hk). destruct (decide (k = p)) as [->|].
      * simplify_eq. intuition.
      * assert (k < p) as Hlt by lia. pose proof (wf_disjoint _ _ Hwf _ _ _ _ He' He Hlt). lia.
  - rewrite om_below_None in Hb. split.
    + intros [Hn|(e' & ? & ? & ? & ?)]; [by apply not_elem_of_nil in Hn|]. exists e'. split_and!; try done. by left.
    + intros (e' & He' & [?|[Hk ?]] & ?); [right; by exists e'|]. specialize (Hb _ _ He'). lia.
Qed.

Lemma claimants_ext im1 im2 h :
  (∀ k, me_hash <$> im1 !! k = me_hash <$> im2 !! k) → claimants_of im1 h = claimants_of im2 h.
Proof.
  intros Heq. unfold claimants_of. f_equal. rewrite <-!size_dom. f_equal.
  apply set_eq. intros k. rewrite !elem_of_dom. unfold is_Some.
  setoid_rewrite map_lookup_filter_Some. specialize (Heq k). simpl.
  destruct (im1 !! k), (im2 !! k); naive_solver.
Qed.

Lemma set_claimants_wf N m keys c : lm_wf N m → lm_wf N (set_claimants m keys c).
Proof.
  intros Hwf.
  assert (∀ k e, inner (set_claimants m keys c) !! k = Some e → ∃ e0,
    inner m !! k = Some e0 ∧ lba_length e = lba_length e0 ∧ me_hash e = me_hash e0 ∧
    payload_block_offset e = payload_block_offset e0) as Hback.
  { intros k e. rewrite lookup_set_claimants. case_decide; [|by eauto].
    rewrite fmap_Some. intros (e0 & He0 & ->). by exists e0. }
  split; [apply Hwf| | |].
  - intros k e (e0 & He0 & Hl & _ & Hp)%Hback. unfold entry_ok. rewrite Hl, Hp.
    by apply (wf_entry _ _ Hwf).
  - intros k1 e1 k2 e2 (e1' & He1 & -> & _)%Hback (e2' & He2 & _)%Hback.
    by apply (wf_disjoint _ _ Hwf _ _ _ e2').
  - intros HN h. change (claim_counts (set_claimants m keys c)) with (claim_counts m).
    rewrite (wf_counts _ _ Hwf HN). f_equal. apply claimants_ext. intros k.
    rewrite lookup_set_claimants. case_decide; [|done]. by destruct (inner m !! k).
Qed.

(** Replace the claimant of a cell. *)
Definition reclaim (c : Ulid) (x : Cell) : Cell := mkCell (c_hash x) (c_offset x) c.

Lemma set_claimants_view N m keys c lba k e :
  lm_wf N m → inner m !! k = Some e → k ≤ lba < k + lba_length e →
  view (set_claimants m keys c) lba =
    Some (if decide (k ∈ keys) then reclaim c (cell_of k e lba) else cell_of k e lba).
Proof.
  intros Hwf He Hlba. apply (view_Some N); [by apply set_claimants_wf|].
  exists k, (if decide (k ∈ keys) then set_entry_claimant c e else e).
  rewrite lookup_set_claimants, He. by case_decide.
Qed.

Lemma set_claimants_view_None N m keys c lba :
  lm_wf N m → view m lba = None → view (set_claimants m keys c) lba = None.
Proof.
  intros Hwf Hn. apply (view_None N); [by apply set_claimants_wf|].
  intros x (k & e & He & Hk & _). rewrite lookup_set_claimants in He.
  assert (∃ e0, inner m !! k = Some e0 ∧ lba_length e0 = lba_length e) as (e0 & He0 & Hl).
  { case_decide; [|by eauto]. apply fmap_Some in He as (e0 & ? & ->). by exists e0. }
  apply (proj1 (view_None _ _ _ Hwf) Hn (cell_of k e0 lba)). exists k, e0. by rewrite Hl.
Qed.

(** What a promotion of the claims of [h] over [s, t) does to each block: only
    claimants move, exactly those of [h] that may be promoted and whose extent
    meets the range; inside the range the rule is decided block by block. *)
Definition promoted_view (m m' : LbaMap) (s t : Z) (h : Hash) (promotes : Ulid → bool) (c : Ulid)
    : Prop :=
  (∀ lba, s ≤ lba < t →
     view m' lba = (λ x, if bool_decide (c_hash x = h) && promotes (c_claimant x)
                         then reclaim c x else x) <$> view m lba) ∧
  (∀ lba x, view m lba = Some x →
     view m' lba = Some x ∨
     (c_hash x = h ∧ promotes (c_claimant x) = true ∧ view m' lba = Some (reclaim c x))) ∧
  (∀ lba, view m lba = None → view m' lba = None).

Lemma claim_keys_promoted_view N m s t h promotes c :
  lm_wf N m → 0 ≤ s < t → t ≤ N →
  promoted_view m (set_claimants m (claim_keys (inner m) s t h promotes) c) s t h promotes c.
Proof.
  intros Hwf Hst HtN. split_and!.
  - intros lba Hlba. destruct (view m lba) as [x|] eqn:Hv; simpl.
    + apply (view_Some _ _ _ _ Hwf) in Hv as (k & e & He & Hk & ->).
      rewrite (set_claimants_view N _ _ _ lba k e) by done. f_equal.
      pose proof (elem_of_claim_keys N m s t h promotes k Hwf) as Hkeys.
      destruct (bool_decide (c_hash (cell_of k e lba) = h) && promotes (c_claimant (cell_of k e lba)))
        eqn:Hb.
      * apply andb_true_iff in Hb as [Hh Hp]. apply bool_decide_eq_true in Hh.
        rewrite decide_True; [done|]. apply Hkeys; [lia|done|]. exists e.
        split; [done|]. split; [|done]. lia.
      * rewrite decide_False; [done|]. rewrite Hkeys by lia. intros (e' & He' & _ & Hh & Hp).
        simplify_eq. apply not_true_iff_false in Hb. apply Hb.
        by apply andb_true_iff; rewrite bool_decide_eq_true.
    + eapply set_claimants_view_None; done.
  - intros lba x Hv. apply (view_Some _ _ _ _ Hwf) in Hv as (k & e & He & Hk & ->).
    rewrite (set_claimants_view N _ _ _ lba k e) by done. case_decide as Hin; [right|by left].
    apply (elem_of_claim_keys N) in Hin as (e' & He' & _ & ? & ?); [|done|lia|done].
    simplify_eq. done.
  - intros lba. by eapply set_claimants_view_None.
Qed.

(** ** The refcount oracle *)

Definition hash_count (l : list (Z * MapEntry)) (h : Hash) : Z :=
  Z.of_nat (length (filter (λ p, me_hash p.2 = h) l)).

Lemma hash_count_perm l1 l2 h : l1 ≡ₚ l2 → hash_count l1 h = hash_count l2 h.
Proof. intros Hp. unfold hash_count. f_equal. apply Permutation_length. by rewrite Hp. Qed.

Lemma hash_count_iter im h : hash_count (om_iter im) h = claimants_of im h.
Proof.
  rewrite (hash_count_perm _ (map_to_list im)) by apply merge_sort_Permutation.
  induction im as [|k e im Hk IH] using map_ind.
  { unfold claimants_of, hash_count.
    by rewrite map_filter_empty, map_size_empty, map_to_list_empty. }
  rewrite (hash_count_perm _ _ _ (map_to_list_insert _ _ _ Hk)), claimants_insert, <-IH by done.
  unfold hash_count. rewrite filter_cons. simpl. case_decide; simpl; lia.
Qed.

Lemma recount_claims_count_up m :
  recount_claims m = count_up ∅ (map (λ p, me_hash p.2) (om_iter (inner m))).
Proof.
  unfold recount_claims, count_up. generalize (∅ : gmap Hash Z).
  induction (om_iter (inner m)) as [|p l IH]; intros c; [done|]. simpl. apply IH.
Qed.

Lemma hash_count_occs l h : hash_count l h = occs h (map (λ p, me_hash p.2) l).
Proof.
  induction l as [|p l IH]; [done|]. simpl. rewrite occs_cons, <-IH.
  unfold hash_count. rewrite filter_cons. case_decide; simpl; lia.
Qed.

Lemma recount_claims_lookup N m h :
  lm_wf N m → N < U32 → recount_claims m !! h = count_of (claimants_of (inner m) h).
Proof.
  intros Hwf HN. rewrite recount_claims_count_up.
  rewrite (count_up_spec (λ _, 0)); [by rewrite <-hash_count_occs, hash_count_iter|done|].
  intros x. rewrite <-hash_count_occs, hash_count_iter.
  pose proof (claimants_bounded N (inner m) x) as Hb. split; [done|].
  enough (claimants_of (inner m) x ≤ N) by lia. apply Hb.
  - destruct (wf_bound _ _ Hwf). lia.
  - intros k e He. destruct (wf_entry _ _ Hwf _ _ He) as (? & ? & ? & _). lia.
Qed.

(** ** Properties *)

(** A three-extent map of a 1000-block device, for the witnesses. *)
Definition sample : LbaMap := insert (insert lm_new 0 100 [1] 1) 30 20 [2] 5.

Lemma sample_wf : lm_wf 1000 sample.
Proof.
  apply insert_inner_view; try lia. apply insert_inner_view; try lia. by apply lm_new_wf.
Qed.

(** C11: [LbaMap::insert] refines a range update of the block map: the blocks of
    the new extent resolve to its payload, every other block resolves as before,
    and the map stays well formed (disjoint, in bounds, refcounts exact),
    whatever it had to trim, split or remove. *)
Theorem insert_refines N m s len h c :
  lm_wf N m → 0 ≤ s → 0 < len < U32 → s + len ≤ N →
  lm_wf N (insert m s len h c) ∧
  ∀ lba, view (insert m s len h c) lba =
    if decide (s ≤ lba < s + len) then Some (mkCell h (lba - s) c) else view m lba.
Proof.
  intros Hwf ? ? ?. destruct (insert_inner_view N m s len 0 h c) as [Hwf' Hv]; [done|lia..|].
  split; [done|]. intros lba. unfold insert. by rewrite Hv.
Qed.

Lemma insert_refines_witness :
  view (insert sample 40 30 [3] 7) 75 = Some (mkCell [1] 75 1) ∧
  view (insert sample 40 30 [3] 7) 69 = Some (mkCell [3] 29 7).
Proof.
  destruct (insert_refines 1000 sample 40 30 [3] 7) as [_ Hv];
    [apply sample_wf|lia|lia|lia|].
  split; rewrite Hv; vm_compute; reflexivity.
Defined.

(** A claimant-aware insert ([insert_if_newer], [insert_consuming_inputs],
    the rebuild's [Higher] and [AboveHorizon] rules) takes exactly the blocks of
    its range whose current claim does not block it, each at its own offset into
    the payload, leaves every other block alone, keeps the map well formed, and
    returns the number of blocks it took. The exact-extent fast path and the
    gap-filling slow path agree on this. *)
Theorem insert_if_newer_refines N m s len h c blocking :
  lm_wf N m → 0 ≤ s → 0 < len < U32 → s + len ≤ N →
  let r := insert_inner_if_newer m s len h c blocking in
  lm_wf N r.1 ∧ r.2 = admitted_count blocking h c m s len ∧
  ∀ lba, view r.1 lba =
    if decide (s ≤ lba < s + len ∧ admits blocking h c m lba = true)
    then Some (mkCell h (lba - s) c) else view m lba.
Proof. apply insert_if_newer_view. Qed.

(** [extents_in_range] is exact: the reads it returns are non-empty,
    ascending, disjoint and inside the request; a requested block inside one of
    them is the block the map resolves it to, and one outside all of them is
    unwritten. *)
Theorem extents_in_range_exact N m s t :
  lm_wf N m → 0 ≤ s < t → t ≤ N →
  reads_sorted s t (extents_in_range m s t) ∧
  ∀ lba, s ≤ lba < t → read_at (extents_in_range m s t) lba = view m lba.
Proof. apply extents_in_range_spec. Qed.

(** Promoting claims never changes content: both [set_claimant] variants
    keep the map well formed, rewrite the claimant of exactly the blocks in the
    range that hold the expected hash under a promotable claimant, may carry an
    extent's blocks outside the range along only with that same hash, and leave
    every hash and payload offset where it was. *)
Theorem set_claimant_moves_only_claims N m s len h c consumed :
  lm_wf N m → 0 ≤ s → 0 < len < U32 → s + len ≤ N →
  let r := (set_claimant_if_matches m s len h c).1 in
  let r' := (set_claimant_consuming_input m s len h c consumed).1 in
  lm_wf N r ∧ promoted_view m r s (s + len) h (λ x, bool_decide (x < c)) c ∧
  lm_wf N r' ∧ promoted_view m r' s (s + len) h
                 (λ x, bool_decide (x < c) || bool_decide (x = consumed)) c.
Proof.
  intros Hwf ? ? ?. pose proof (wf_bound _ _ Hwf).
  unfold set_claimant_if_matches, set_claimant_consuming_input. rewrite u64_add_id by lia.
  split_and!; try apply set_claimants_wf; try apply (claim_keys_promoted_view N); try done; lia.
Qed.

(** A hash is counted exactly when some block resolves to it. *)
Lemma claimed_iff N m h :
  lm_wf N m → N < U32 →
  is_Some (claim_counts m !! h) ↔ ∃ lba c, view m lba = Some c ∧ c_hash c = h.
Proof.
  intros Hwf HN. rewrite (wf_counts _ _ Hwf HN).
  unfold is_Some, count_of, claimants_of. split.
  - case_decide as Hz; [by intros [? ?]|]. intros _.
    destruct (map_choose (filter (λ p : Z * MapEntry, me_hash p.2 = h) (inner m)))
      as (k & e & [He Hh]%map_lookup_filter_Some).
    { intros Hemp. rewrite Hemp, map_size_empty in Hz. done. }
    exists k, (cell_of k e k). split; [|done]. apply (view_Some N); [done|].
    exists k, e. pose proof (wf_entry _ _ Hwf _ _ He) as (? & ? & _).
    split; [done|]. split; [lia|done].
  - intros (lba & c & (k & e & He & _ & ->)%(view_Some _ _ _ _ Hwf) & <-).
    pose proof (claimants_pos _ _ _ He) as Hpos. unfold claimants_of in Hpos.
    case_decide as Hz; [|by eexists]. simpl in Hz. lia.
Qed.

(** A full match pins the content of every block of the range. *)
Lemma has_full_match_view N m s len h lba :
  lm_wf N m → has_full_match m s len h = true → s ≤ lba < s + len →
  ∃ c, view m lba = Some c ∧ c_hash c = h ∧ c_offset c = lba - s.
Proof.
  intros Hwf Hm Hl. unfold has_full_match in Hm.
  destruct (inner m !! s) as [e|] eqn:He; [|done].
  apply andb_true_iff in Hm as [[Hlen Hp]%andb_true_iff Hh].
  apply bool_decide_eq_true in Hlen, Hp, Hh. subst len h.
  exists (cell_of s e lba). split; [|split; [done|]].
  - apply (view_Some _ _ _ _ Hwf). by exists s, e.
  - simpl. lia.
Qed.

(** The maintained refcounts are the recount oracle, so the O(1) liveness
    question [is_referenced] is true exactly of the hashes some block resolves
    to (on a device of fewer than 2^32 blocks). *)
Theorem claim_counts_exact N m :
  lm_wf N m → N < U32 →
  claim_counts m = recount_claims m ∧
  ∀ h, is_referenced m h = true ↔ ∃ lba c, view m lba = Some c ∧ c_hash c = h.
Proof.
  intros Hwf HN. split.
  { apply map_eq. intros h. rewrite (recount_claims_lookup N) by done.
    by apply (wf_counts _ _ Hwf). }
  intros h. unfold is_referenced. rewrite bool_decide_eq_true. by apply (claimed_iff N).
Qed.

(** The no-op write skip is sound: when [has_full_match] holds, every block
    of the range already resolves to that content at that offset, so the skipped
    [insert] would have changed claimants only. *)
Lemma has_full_match_sound N m s len h c :
  lm_wf N m → has_full_match m s len h = true →
  ∀ lba, (λ x, (c_hash x, c_offset x)) <$> view (insert m s len h c) lba =
         (λ x, (c_hash x, c_offset x)) <$> view m lba.
Proof.
  intros Hwf Hm lba. pose proof (has_full_match_view N m s len h lba Hwf Hm) as Hv.
  unfold has_full_match in Hm. destruct (inner m !! s) as [e|] eqn:He; [|done].
  apply andb_true_iff in Hm as [[Hl _]%andb_true_iff _]. apply bool_decide_eq_true in Hl. subst len.
  pose proof (wf_entry _ _ Hwf _ _ He) as (? & ? & ? & _).
  destruct (insert_inner_view N m s (lba_length e) 0 h c) as [_ Hi]; [done|lia..|].
  unfold insert. rewrite Hi. case_decide as Hlba; [|done].
  destruct (Hv Hlba) as (x & -> & Hx & Ho). simpl. by rewrite Hx, Ho.
Qed.
