(* ===== verification/ExtentIndex.v ===== *)
(** * The extent index (elide-core/src/extentindex.rs)

    Hash to physical location: the durable data map [inner], the thin-delta map
    [deltas], the per-segment [journal] tier, and the record of every source
    hash a delta encoding names, with its maintained refcounts. *)

From stdpp Require Import base gmap list fin_maps.
From S2P Require Import Prelude Segment.
Open Scope Z_scope.

(** ** Data *)

Inductive BodySource := Local | Cached (entry_idx : Z).

Record ExtentLocation := mkExtentLocation {
  segment_id : Ulid;
  body_offset : Z;        (* u64 *)
  body_length : Z;        (* u32 *)
  codec : Codec;
  body_source : BodySource;
  body_section_start : Z; (* u64 *)
  inline_data : option (list Z)
}.

Inductive DeltaBodySource := Full (dbs_section_start dbs_body_length : Z) | DeltaCached.

Record DeltaLocation := mkDeltaLocation {
  d_segment_id : Ulid;
  d_entry_idx : Z;
  d_body_source : DeltaBodySource;
  d_options : list DeltaOption
}.

Inductive RegistrationBodyTier := TierLocal | TierCached.
Inductive InlineSource := Section_ (bytes : list Z) | EntryInline.

Record SegmentRegistrationCtx := mkCtx {
  ctx_segment_id : Ulid;
  ctx_body_section_start : Z;
  ctx_body_tier : RegistrationBodyTier;
  ctx_delta_body_source : option DeltaBodySource;
  ctx_inline : InlineSource
}.

Inductive Admission := IfAbsent | ConsumingInputs (inputs : gset Ulid).

(** An [Arc<SegmentPresence>] is a handle to a bitset that readers and the
    fetcher share; the index stores the handle. *)
Abbreviation PresenceRef := Z (only parsing).

Record ExtentIndex := mkExtentIndex {
  inner : gmap Hash ExtentLocation;
  deltas : gmap Hash DeltaLocation;
  journal : gmap Ulid (gmap Hash ExtentLocation);
  delta_sources : gmap Ulid (gmap Hash (list Hash));
  delta_source_counts : gmap Hash Z; (* u32 counts *)
  segment_presence : gmap Ulid PresenceRef
}.

#[export] Instance BodySource_eq_dec : EqDecision BodySource.
Proof. solve_decision. Defined.
#[export] Instance ExtentLocation_eq_dec : EqDecision ExtentLocation.
Proof. solve_decision. Defined.
#[export] Instance DeltaBodySource_eq_dec : EqDecision DeltaBodySource.
Proof. solve_decision. Defined.
#[export] Instance DeltaLocation_eq_dec : EqDecision DeltaLocation.
Proof. solve_decision. Defined.

Definition ei_new : ExtentIndex := mkExtentIndex ∅ ∅ ∅ ∅ ∅ ∅.

(** Field updates. *)
Definition with_inner (ix : ExtentIndex) i :=
  mkExtentIndex i (deltas ix) (journal ix) (delta_sources ix) (delta_source_counts ix)
    (segment_presence ix).
Definition with_deltas (ix : ExtentIndex) d :=
  mkExtentIndex (inner ix) d (journal ix) (delta_sources ix) (delta_source_counts ix)
    (segment_presence ix).
Definition with_journal (ix : ExtentIndex) j :=
  mkExtentIndex (inner ix) (deltas ix) j (delta_sources ix) (delta_source_counts ix)
    (segment_presence ix).
Definition with_sources (ix : ExtentIndex) ds dc :=
  mkExtentIndex (inner ix) (deltas ix) (journal ix) ds dc (segment_presence ix).

(** ** Presence bitsets *)


Definition sp_zeroed (entry_count : Z) : list Z := replicate (Z.to_nat (div_ceil entry_count 8)) 0.

Definition sp_from_bytes (bytes : list Z) (entry_count : Z) : list Z :=
  let want := Z.to_nat (div_ceil entry_count 8) in
  take want bytes ++ replicate (want - length bytes) 0.

Definition sp_test (bits : list Z) (idx : Z) : bool :=
  match bits !! Z.to_nat (idx / 8) with
  | Some b => negb (bool_decide (Z.land b (Z.shiftl 1 (idx mod 8)) = 0))
  | None => false
  end.

Definition sp_set (bits : list Z) (idx : Z) : list Z :=
  match bits !! Z.to_nat (idx / 8) with
  | Some b => <[Z.to_nat (idx / 8) := Z.lor b (Z.shiftl 1 (idx mod 8))]> bits
  | None => bits
  end.

Definition sp_from_data_kinds (entries : list SegmentEntry) : list Z :=
  foldl (λ p '(i, e), if is_data (e_kind e) then sp_set p (as_u32 (Z.of_nat i)) else p)
        (sp_zeroed (as_u32 (Z.of_nat (length entries))))
        (imap pair entries).

Definition sp_replace_from_bytes (bits bytes : list Z) : list Z :=
  imap (λ i _, default 0 (bytes !! i)) bits.

(** ** Source refcounts *)

Definition bump_source_counts (ix : ExtentIndex) (sources : list Hash) : ExtentIndex :=
  with_sources ix (delta_sources ix) (count_up (delta_source_counts ix) sources).

Definition drop_source_counts (ix : ExtentIndex) (sources : list Hash) : ExtentIndex :=
  with_sources ix (delta_sources ix) (count_down (delta_source_counts ix) sources).

Definition purge_segment_delta_sources (ix : ExtentIndex) (segment : Ulid) : ExtentIndex :=
  match delta_sources ix !! segment with
  | Some per_hash =>
      foldl drop_source_counts
        (with_sources ix (delete segment (delta_sources ix)) (delta_source_counts ix))
        (map_to_list per_hash).*2
  | None => ix
  end.

Definition named_delta_sources (ix : ExtentIndex) : gset Hash :=
  list_to_set (concat (concat (map (λ p, (map_to_list p.2).*2) (map_to_list (delta_sources ix))))).

Definition is_named_delta_source (ix : ExtentIndex) (h : Hash) : bool :=
  bool_decide (is_Some (delta_source_counts ix !! h)).

(** ** The data and delta maps *)

Definition set_segment_presence (ix : ExtentIndex) (s : Ulid) (p : PresenceRef) : ExtentIndex :=
  mkExtentIndex (inner ix) (deltas ix) (journal ix) (delta_sources ix) (delta_source_counts ix)
    (<[s := p]> (segment_presence ix)).

Definition insert (ix : ExtentIndex) (h : Hash) (loc : ExtentLocation) : ExtentIndex :=
  with_deltas (with_inner ix (<[h := loc]> (inner ix))) (delete h (deltas ix)).

Definition insert_if_absent (ix : ExtentIndex) (h : Hash) (loc : ExtentLocation)
    : ExtentIndex * bool :=
  match inner ix !! h with
  | None => (with_inner ix (<[h := loc]> (inner ix)), true)
  | Some _ => (ix, false)
  end.

Definition lookup (ix : ExtentIndex) (h : Hash) : option ExtentLocation := inner ix !! h.
Definition lookup_delta (ix : ExtentIndex) (h : Hash) : option DeltaLocation := deltas ix !! h.

Definition replace_if_matches (ix : ExtentIndex) (h : Hash) (seg : Ulid) (off : Z)
    (loc : ExtentLocation) : ExtentIndex * bool :=
  match inner ix !! h with
  | Some cur =>
      if bool_decide (segment_id cur = seg) && bool_decide (body_offset cur = off)
      then (with_inner ix (<[h := loc]> (inner ix)), true) else (ix, false)
  | None => (ix, false)
  end.

Definition with_segment (loc : ExtentLocation) (seg : Ulid) : ExtentLocation :=
  mkExtentLocation seg (body_offset loc) (body_length loc) (codec loc) (body_source loc)
    (body_section_start loc) (inline_data loc).

Definition rekey_owner (ix : ExtentIndex) (h : Hash) (seg : Ulid) (off : Z) (new_seg : Ulid)
    : ExtentIndex * bool :=
  match inner ix !! h with
  | Some cur =>
      if bool_decide (segment_id cur = seg) && bool_decide (body_offset cur = off)
      then (with_inner ix (<[h := with_segment cur new_seg]> (inner ix)), true) else (ix, false)
  | None => (ix, false)
  end.

Definition remove_if_matches (ix : ExtentIndex) (h : Hash) (seg : Ulid) (off : Z)
    : ExtentIndex * bool :=
  match inner ix !! h with
  | Some cur =>
      if bool_decide (segment_id cur = seg) && bool_decide (body_offset cur = off)
      then (with_inner ix (delete h (inner ix)), true) else (ix, false)
  | None => (ix, false)
  end.

Definition insert_delta_if_absent (ix : ExtentIndex) (h : Hash) (loc : DeltaLocation)
    : ExtentIndex * bool :=
  if decide (is_Some (inner ix !! h)) then (ix, false)
  else match deltas ix !! h with
       | None => (with_deltas ix (<[h := loc]> (deltas ix)), true)
       | Some _ => (ix, false)
       end.

Definition insert_delta (ix : ExtentIndex) (h : Hash) (loc : DeltaLocation) : ExtentIndex :=
  with_deltas ix (<[h := loc]> (deltas ix)).

Definition flip_delta_body_source_to_cached_if_matches (ix : ExtentIndex) (h : Hash) (seg : Ulid)
    : ExtentIndex * bool :=
  match deltas ix !! h with
  | Some loc =>
      if decide (d_segment_id loc = seg) then
        (with_deltas ix
           (<[h := mkDeltaLocation (d_segment_id loc) (d_entry_idx loc) DeltaCached (d_options loc)]>
              (deltas ix)), true)
      else (ix, false)
  | None => (ix, false)
  end.

Definition remove (ix : ExtentIndex) (h : Hash) : ExtentIndex :=
  with_deltas (with_inner ix (delete h (inner ix))) (delete h (deltas ix)).

Definition remove_owner_at (ix : ExtentIndex) (h : Hash) (seg : Ulid) : ExtentIndex * bool :=
  let '(ix, removed) :=
    match inner ix !! h with
    | Some loc =>
        if decide (segment_id loc = seg) then (with_inner ix (delete h (inner ix)), true)
        else (ix, false)
    | None => (ix, false)
    end in
  match deltas ix !! h with
  | Some loc =>
      if decide (d_segment_id loc = seg) then (with_deltas ix (delete h (deltas ix)), true)
      else (ix, removed)
  | None => (ix, removed)
  end.

(** ** The journal tier *)

Definition journal_of (ix : ExtentIndex) (s : Ulid) : gmap Hash ExtentLocation :=
  default ∅ (journal ix !! s).

Definition lookup_journal (ix : ExtentIndex) (s : Ulid) (h : Hash) : option ExtentLocation :=
  match journal ix !! s with Some seg => seg !! h | None => None end.

Definition insert_journal_if_absent (ix : ExtentIndex) (s : Ulid) (h : Hash)
    (loc : ExtentLocation) : ExtentIndex * bool :=
  let seg := journal_of ix s in
  match seg !! h with
  | None => (with_journal ix (<[s := <[h := loc]> seg]> (journal ix)), true)
  | Some _ => (with_journal ix (<[s := seg]> (journal ix)), false)
  end.

Definition take_journal (ix : ExtentIndex) (from : Ulid) (h : Hash)
    : ExtentIndex * option ExtentLocation :=
  match journal ix !! from with
  | None => (ix, None)
  | Some seg =>
      let removed := seg !! h in
      let seg := delete h seg in
      if decide (seg = ∅) then (with_journal ix (delete from (journal ix)), removed)
      else (with_journal ix (<[from := seg]> (journal ix)), removed)
  end.

Definition put_journal (ix : ExtentIndex) (to_ : Ulid) (h : Hash) (loc : ExtentLocation)
    : ExtentIndex :=
  with_journal ix (<[to_ := <[h := loc]> (journal_of ix to_)]> (journal ix)).

Definition rekey_journal (ix : ExtentIndex) (from to_ : Ulid) (h : Hash) (loc : ExtentLocation)
    : ExtentIndex :=
  match take_journal ix from h with
  | (ix, Some _) => put_journal ix to_ h loc
  | (ix, None) => ix
  end.

Definition rekey_journal_owner (ix : ExtentIndex) (from to_ : Ulid) (h : Hash) : ExtentIndex :=
  match take_journal ix from h with
  | (ix, Some loc) => put_journal ix to_ h (with_segment loc to_)
  | (ix, None) => ix
  end.

(** The index of the first entry holding each hash. *)
Definition first_index (entries : list SegmentEntry) : gmap Hash Z :=
  foldl (λ m '(i, e), match m !! e_hash e with
                      | Some _ => m
                      | None => <[e_hash e := as_u32 (Z.of_nat i)]> m
                      end) ∅ (imap pair entries).

Definition promote_journal_segment_to_cache (ix : ExtentIndex) (s : Ulid)
    (section_start : Z) (entries : list SegmentEntry) : ExtentIndex :=
  match journal ix !! s with
  | None => ix
  | Some seg =>
      let entry_idx := first_index entries in
      let flip h loc :=
        match entry_idx !! h with
        | Some idx =>
            mkExtentLocation (segment_id loc) (body_offset loc) (body_length loc) (codec loc)
              (Cached idx) section_start (inline_data loc)
        | None => loc
        end in
      with_journal ix (<[s := map_imap (λ h loc, Some (flip h loc)) seg]> (journal ix))
  end.

Definition purge_journal_segment (ix : ExtentIndex) (s : Ulid) : ExtentIndex :=
  with_journal ix (delete s (journal ix)).

Definition is_journal_segment (ix : ExtentIndex) (s : Ulid) : bool :=
  bool_decide (is_Some (journal ix !! s)).

Definition journal_is_empty (ix : ExtentIndex) : bool := bool_decide (journal ix = ∅).
Definition ei_is_empty (ix : ExtentIndex) : bool :=
  bool_decide (inner ix = ∅) && bool_decide (deltas ix = ∅).

Definition journal_iter (ix : ExtentIndex) : list (Ulid * Hash * ExtentLocation) :=
  concat (map (λ '(seg, entries), map (λ '(h, loc), (seg, h, loc)) (map_to_list entries))
              (map_to_list (journal ix))).

(** ** Registering a segment's entries *)

Definition delta_admitted (ix : ExtentIndex) (h : Hash) (admission : Admission) : bool :=
  match admission with
  | IfAbsent => bool_decide (inner ix !! h = None) && bool_decide (deltas ix !! h = None)
  | ConsumingInputs inputs =>
      match deltas ix !! h with
      | None => bool_decide (inner ix !! h = None)
      | Some loc => bool_decide (d_segment_id loc ∈ inputs)
      end
  end.

Definition record_sources (ix : ExtentIndex) (s : Ulid) (h : Hash) (opts : list DeltaOption)
    : ExtentIndex :=
  match opts with
  | [] => ix
  | _ =>
      let sources := map source_hash opts in
      let ix := bump_source_counts ix sources in
      let per_hash := default ∅ (delta_sources ix !! s) in
      let replaced := per_hash !! h in
      let ix := with_sources ix (<[s := <[h := sources]> per_hash]> (delta_sources ix))
                  (delta_source_counts ix) in
      match replaced with Some old => drop_source_counts ix old | None => ix end
  end.

(** The inline bytes of an entry; [None] on a truncated inline section. *)
Definition inline_bytes (entry : SegmentEntry) (src : InlineSource) : option (option (list Z)) :=
  if is_inline (e_kind entry) then
    match src with
    | Section_ bytes =>
        let stop := e_stored_offset entry + e_stored_length entry in
        if decide (stop ≤ Z.of_nat (length bytes)) then
          Some (Some (take (Z.to_nat (e_stored_length entry))
                       (drop (Z.to_nat (e_stored_offset entry)) bytes)))
        else None
    | EntryInline => Some (e_inline entry)
    end
  else Some None.

Definition location_of (entry : SegmentEntry) (raw_idx : Z) (ctx : SegmentRegistrationCtx)
    (inline : option (list Z)) : ExtentLocation :=
  mkExtentLocation (ctx_segment_id ctx) (e_stored_offset entry) (e_stored_length entry)
    (e_codec entry)
    (match ctx_body_tier ctx with TierLocal => Local | TierCached => Cached raw_idx end)
    (ctx_body_section_start ctx) inline.

Definition admit_data (ix : ExtentIndex) (h : Hash) (loc : ExtentLocation) (admission : Admission)
    : ExtentIndex :=
  match admission with
  | IfAbsent =>
      match inner ix !! h with None => with_inner ix (<[h := loc]> (inner ix)) | Some _ => ix end
  | ConsumingInputs inputs =>
      match inner ix !! h with
      | Some owner => if decide (segment_id owner ∈ inputs) then insert ix h loc else ix
      | None => insert ix h loc
      end
  end.

Definition register_entry (ix : ExtentIndex) (entry : SegmentEntry) (raw_idx : Z)
    (ctx : SegmentRegistrationCtx) (admission : Admission) : io ExtentIndex :=
  match e_kind entry with
  | DedupRef | Zero => Ok ix
  | Delta | CanonicalDelta =>
      match ctx_delta_body_source ctx with
      | None => Err OtherError
      | Some src =>
          let admitted := delta_admitted ix (e_hash entry) admission in
          let ix := record_sources ix (ctx_segment_id ctx) (e_hash entry) (e_delta_options entry) in
          Ok (if admitted
              then with_deltas ix
                     (<[e_hash entry := mkDeltaLocation (ctx_segment_id ctx) raw_idx src
                                          (e_delta_options entry)]> (deltas ix))
              else ix)
      end
  | Data | Inline | CanonicalData | CanonicalInline =>
      match inline_bytes entry (ctx_inline ctx) with
      | None => Ok ix
      | Some inline =>
          let loc := location_of entry raw_idx ctx inline in
          if e_journal entry
          then Ok (insert_journal_if_absent ix (ctx_segment_id ctx) (e_hash entry) loc).1
          else Ok (admit_data ix (e_hash entry) loc admission)
      end
  end.

Definition register_entry_if_absent ix entry raw_idx ctx :=
  register_entry ix entry raw_idx ctx IfAbsent.
Definition register_entry_consuming_inputs ix entry raw_idx ctx inputs :=
  register_entry ix entry raw_idx ctx (ConsumingInputs inputs).

Definition carried_hashes (entries : list SegmentEntry) : gset Hash :=
  list_to_set (map e_hash (filter (λ e, e_kind e ≠ DedupRef) entries)).

(** Drop [input]'s ownership of each hash of [owned] not carried, and report
    the hashes removed, in order. *)
Definition remove_input_owned (ix : ExtentIndex) (input : Ulid) (owned : list Hash)
    (carried : gset Hash) : ExtentIndex * list Hash :=
  foldl (λ '(ix, removed) h,
           if decide (h ∈ carried) then (ix, removed)
           else match remove_owner_at ix h input with
                | (ix, true) => (ix, removed ++ [h])
                | (ix, false) => (ix, removed)
                end) (ix, []) owned.
