(* ===== verification/ExtentIndexSpec.v ===== *)
(** * The extent index's contract

    Source refcounts against their oracle, the journal tier's shape and
    re-keying, admission of a segment's entries, and removal of a consumed
    input's ownership. *)

From stdpp Require Import base gmap list fin_maps.
From S2P Require Import Prelude Segment ExtentIndex.
Open Scope Z_scope.

(** ** Source refcounts *)

(** Recorded encodings naming [s], over one segment and over all of them. *)
Definition seg_occ (ph : gmap Hash (list Hash)) (s : Hash) : Z := msum (λ _ l, occs s l) ph.
Definition source_occ (ds : gmap Ulid (gmap Hash (list Hash))) (s : Hash) : Z :=
  msum (λ _ ph, seg_occ ph s) ds.

(** All recorded source references. *)
Definition seg_total (ph : gmap Hash (list Hash)) : Z := msum (λ _ l, Z.of_nat (length l)) ph.
Definition total_sources (ds : gmap Ulid (gmap Hash (list Hash))) : Z :=
  msum (λ _ ph, seg_total ph) ds.

Record sources_ok (ix : ExtentIndex) : Prop := {
  so_total : total_sources (delta_sources ix) < U32;
  so_counts : counts (source_occ (delta_sources ix)) (delta_source_counts ix)
}.

Lemma seg_occ_nonneg ph s : 0 ≤ seg_occ ph s.
Proof. apply msum_nonneg. intros _ l. apply occs_bound. Qed.
Lemma source_occ_nonneg ds s : 0 ≤ source_occ ds s.
Proof. apply msum_nonneg. intros _ ph. apply seg_occ_nonneg. Qed.
Lemma seg_occ_le ph s : seg_occ ph s ≤ seg_total ph.
Proof. apply msum_mono. intros _ l. apply occs_bound. Qed.
Lemma source_occ_le ds s : source_occ ds s ≤ total_sources ds.
Proof. apply msum_mono. intros _ ph. apply seg_occ_le. Qed.
Lemma seg_total_nonneg ph : 0 ≤ seg_total ph.
Proof. apply msum_nonneg. intros. lia. Qed.

(** The record of one encoding, and the sources it replaces. *)
Definition put_sources (ds : gmap Ulid (gmap Hash (list Hash))) (s : Ulid) (h : Hash)
    (new : list Hash) : gmap Ulid (gmap Hash (list Hash)) :=
  <[s := <[h := new]> (default ∅ (ds !! s))]> ds.
Definition old_sources (ds : gmap Ulid (gmap Hash (list Hash))) (s : Ulid) (h : Hash)
    : option (list Hash) := default ∅ (ds !! s) !! h.

Lemma source_occ_update ds s h new x :
  source_occ (put_sources ds s h new) x =
  source_occ ds x + occs x new - occs x (default [] (old_sources ds s h)).
Proof.
  unfold source_occ, put_sources, old_sources. rewrite msum_update. unfold seg_occ at 2.
  rewrite msum_update. fold (seg_occ (default ∅ (ds !! s)) x).
  destruct (ds !! s) as [q|]; simpl; [|unfold seg_occ; rewrite msum_empty, lookup_empty];
    [destruct (q !! h)|]; simpl; unfold occs; simpl; lia.
Qed.

Lemma total_sources_update ds s h new :
  total_sources (put_sources ds s h new) =
  total_sources ds + Z.of_nat (length new) - Z.of_nat (length (default [] (old_sources ds s h))).
Proof.
  unfold total_sources, put_sources, old_sources. rewrite msum_update. unfold seg_total at 2.
  rewrite msum_update. fold (seg_total (default ∅ (ds !! s))).
  destruct (ds !! s) as [q|]; simpl; [|unfold seg_total; rewrite msum_empty, lookup_empty];
    [destruct (q !! h)|]; simpl; lia.
Qed.

Lemma record_sources_ok ix s h opts :
  sources_ok ix → total_sources (delta_sources ix) + Z.of_nat (length opts) < U32 →
  sources_ok (record_sources ix s h opts).
Proof.
  intros [Ht Hc] Hlen. destruct opts as [|o opts]; [done|].
  set (sources := map source_hash (o :: opts)).
  assert (length sources = length (o :: opts)) as Hls by apply length_map.
  assert (counts (λ x, source_occ (delta_sources ix) x + occs x sources)
            (count_up (delta_source_counts ix) sources)) as Hup.
  { apply count_up_spec; [done|]. intros x. pose proof (source_occ_le (delta_sources ix) x).
    pose proof (source_occ_nonneg (delta_sources ix) x). pose proof (occs_bound x sources). lia. }
  pose proof (source_occ_update (delta_sources ix) s h sources) as Hocc.
  pose proof (total_sources_update (delta_sources ix) s h sources) as Htot.
  assert (∀ x, 0 ≤ source_occ (put_sources (delta_sources ix) s h sources) x)
    by (intros; apply source_occ_nonneg).
  cbn [record_sources]. fold sources. cbn [delta_sources bump_source_counts with_sources].
  fold (put_sources (delta_sources ix) s h sources). fold (old_sources (delta_sources ix) s h).
  destruct (old_sources (delta_sources ix) s h) as [old|]; cbn [default from_option id length] in Hocc, Htot.
  - split; simpl; [lia|]. intros x. rewrite Hocc.
    rewrite (count_down_spec _ _ old Hup); [f_equal; lia|].
    intros y. pose proof (source_occ_le (delta_sources ix) y). specialize (Hocc y).
    specialize (H y). pose proof (occs_bound y sources). lia.
  - split; simpl; [lia|]. intros x. rewrite Hup, Hocc. f_equal. unfold occs. simpl. lia.
Qed.

Lemma sources_ok_ext ix ix' :
  delta_sources ix' = delta_sources ix → delta_source_counts ix' = delta_source_counts ix →
  sources_ok ix → sources_ok ix'.
Proof. intros Hd Hc [? ?]. by split; rewrite ?Hd, ?Hc. Qed.

Lemma admit_data_sources ix h loc adm :
  delta_sources (admit_data ix h loc adm) = delta_sources ix ∧
  delta_source_counts (admit_data ix h loc adm) = delta_source_counts ix.
Proof.
  unfold admit_data. destruct adm; destruct (inner ix !! h); try done. by case_decide.
Qed.

Lemma insert_journal_sources ix s h loc :
  delta_sources (insert_journal_if_absent ix s h loc).1 = delta_sources ix ∧
  delta_source_counts (insert_journal_if_absent ix s h loc).1 = delta_source_counts ix.
Proof. unfold insert_journal_if_absent. by destruct (journal_of ix s !! h). Qed.

Lemma register_entry_sources_ok ix e i ctx adm ix' :
  sources_ok ix →
  total_sources (delta_sources ix) + Z.of_nat (length (e_delta_options e)) < U32 →
  register_entry ix e i ctx adm = Ok ix' → sources_ok ix'.
Proof.
  intros Hok Hlen. unfold register_entry.
  pose proof (record_sources_ok ix (ctx_segment_id ctx) (e_hash e) _ Hok Hlen) as Hrec.
  destruct (e_kind e); try (by intros [= <-]);
  try (destruct (ctx_delta_body_source ctx); [|done]; intros [= <-];
       destruct (delta_admitted _ _ _); [by eapply sources_ok_ext; [| |exact Hrec]|done]);
  (destruct (inline_bytes e (ctx_inline ctx)) as [inl|]; [|by intros [= <-]];
   destruct (e_journal e); intros [= <-];
   [destruct (insert_journal_sources ix (ctx_segment_id ctx) (e_hash e)
                (location_of e i ctx inl))
   |destruct (admit_data_sources ix (e_hash e) (location_of e i ctx inl) adm)];
   by eapply sources_ok_ext; [| |exact Hok]).
Qed.

Lemma fold_drop_counts ix (vs : list (list Hash)) n :
  counts n (delta_source_counts ix) → (∀ x, occs x (concat vs) ≤ n x < U32) →
  counts (λ x, n x - occs x (concat vs)) (delta_source_counts (foldl drop_source_counts ix vs)) ∧
  delta_sources (foldl drop_source_counts ix vs) = delta_sources ix.
Proof.
  revert ix n. induction vs as [|v vs IH]; intros ix n Hc Hn; simpl.
  { split; [|done]. intros x. rewrite Hc. f_equal. unfold occs. simpl. lia. }
  destruct (IH (drop_source_counts ix v) (λ x, n x - occs x v)) as [Hc' Hd'].
  - simpl. apply count_down_spec; [done|]. intros x. specialize (Hn x). simpl in Hn.
    rewrite occs_app in Hn. pose proof (occs_bound x (concat vs)). lia.
  - intros x. specialize (Hn x). simpl in Hn. rewrite occs_app in Hn. pose proof (occs_bound x v). lia.
  - split; [|done]. intros x. rewrite Hc'. f_equal. rewrite occs_app. lia.
Qed.

Lemma seg_occ_values ph x : seg_occ ph x = occs x (concat (map_to_list ph).*2).
Proof.
  induction ph as [|h l ph Hh IH] using map_ind.
  { unfold seg_occ. by rewrite msum_empty, map_to_list_empty. }
  unfold seg_occ in *. rewrite msum_insert, IH by done.
  transitivity (occs x (concat (((h, l) :: map_to_list ph).*2))).
  - change (occs x l + occs x (concat (map_to_list ph).*2) =
            occs x (l ++ concat (map_to_list ph).*2)). by rewrite occs_app.
  - unfold occs. f_equal. apply Permutation_length.
    rewrite (map_to_list_insert ph h l Hh). done.
Qed.

Lemma purge_sources_ok ix s : sources_ok ix → sources_ok (purge_segment_delta_sources ix s).
Proof.
  intros [Ht Hc]. unfold purge_segment_delta_sources.
  destruct (delta_sources ix !! s) as [ph|] eqn:Hs; [|done].
  assert (∀ x, source_occ (delta_sources ix) x =
            seg_occ ph x + source_occ (delete s (delta_sources ix)) x) as Hocc.
  { intros x. unfold source_occ. by rewrite (msum_delete _ _ _ _ Hs). }
  assert (total_sources (delta_sources ix) =
            seg_total ph + total_sources (delete s (delta_sources ix))) as Htot.
  { unfold total_sources. by rewrite (msum_delete _ _ _ _ Hs). }
  destruct (fold_drop_counts
    (with_sources ix (delete s (delta_sources ix)) (delta_source_counts ix))
    (map_to_list ph).*2 (source_occ (delta_sources ix))) as [Hc' Hd]; [done| |].
  { intros x. rewrite <-seg_occ_values. pose proof (source_occ_le (delta_sources ix) x).
    specialize (Hocc x). pose proof (source_occ_nonneg (delete s (delta_sources ix)) x). lia. }
  split; rewrite Hd; simpl.
  - pose proof (seg_total_nonneg ph). lia.
  - intros x. rewrite Hc'. f_equal. rewrite <-seg_occ_values, Hocc. lia.
Qed.

Lemma named_delta_sources_occ ix h :
  h ∈ named_delta_sources ix ↔ 0 < source_occ (delta_sources ix) h.
Proof.
  assert (∀ (l : list Hash), 0 < occs h l ↔ h ∈ l) as Hocc.
  { induction l as [|y l IH].
    - unfold occs. simpl. split; [lia|]. intros Hin. by apply not_elem_of_nil in Hin.
    - rewrite occs_cons, elem_of_cons. pose proof (occs_bound h l).
      case_decide; [subst; split; [by left|lia]|]. rewrite <-IH. split; [right; lia|].
      intros [->|?]; [done|lia]. }
  unfold named_delta_sources. rewrite elem_of_list_to_set.
  rewrite !list_elem_of_In, in_concat. setoid_rewrite in_concat. split.
  - intros (srcs & (vs & Hvs & Hsrcs) & Hh).
    apply in_map_iff in Hvs as ([s ph] & <- & Hs). simpl in Hsrcs.
    apply list_elem_of_In, elem_of_map_to_list in Hs.
    apply list_elem_of_In, list_elem_of_fmap in Hsrcs as ([h' l] & -> & Hl%elem_of_map_to_list).
    apply list_elem_of_In, Hocc in Hh. simpl in Hh.
    pose proof (msum_ge (λ _ l, occs h l) ph h' l) as H1. simpl in H1.
    pose proof (msum_ge (λ _ ph, seg_occ ph h) (delta_sources ix) s ph) as H2. simpl in H2.
    unfold source_occ. unfold seg_occ in H2 at 2 3.
    specialize (H1 (λ _ l, proj1 (occs_bound h l)) Hl).
    specialize (H2 (λ _ ph, seg_occ_nonneg ph h) Hs). unfold seg_occ in *. lia.
  - intros Hpos. apply msum_pos in Hpos as (s & ph & Hs & Hpos); [|intros; apply seg_occ_nonneg].
    apply msum_pos in Hpos as (h' & l & Hl & Hpos); [|intros; apply occs_bound].
    exists l. split; [|by apply list_elem_of_In, Hocc].
    exists (map_to_list ph).*2. split.
    + apply in_map_iff. exists (s, ph). split; [done|]. by apply list_elem_of_In, elem_of_map_to_list.
    + apply list_elem_of_In, list_elem_of_fmap. exists (h', l).
      split; [done|]. by apply elem_of_map_to_list.
Qed.

(** ** The journal tier *)

Definition journal_ok (ix : ExtentIndex) : Prop := ∀ s seg, journal ix !! s = Some seg → seg ≠ ∅.

Lemma journal_ok_ext ix ix' : journal ix' = journal ix → journal_ok ix → journal_ok ix'.
Proof. unfold journal_ok. by intros ->. Qed.

Lemma put_journal_ok ix s h loc : journal_ok ix → journal_ok (put_journal ix s h loc).
Proof.
  intros Hok s' seg. simpl. intros [[<- <-]|[_ Hs]]%lookup_insert_Some; [|by eapply Hok].
  apply insert_non_empty.
Qed.

Lemma insert_journal_ok ix s h loc :
  journal_ok ix → journal_ok (insert_journal_if_absent ix s h loc).1.
Proof.
  intros Hok s' seg. unfold insert_journal_if_absent.
  destruct (journal_of ix s !! h) eqn:Hh; simpl;
    intros [[<- <-]|[_ Hs]]%lookup_insert_Some; try by eapply Hok.
  - intros Hemp. by rewrite Hemp, lookup_empty in Hh.
  - apply insert_non_empty.
Qed.

Lemma take_journal_spec ix from h :
  journal_ok ix →
  let r := take_journal ix from h in
  journal_ok r.1 ∧ r.2 = lookup_journal ix from h ∧
  (∀ s x, lookup_journal r.1 s x =
     if decide (s = from ∧ x = h) then None else lookup_journal ix s x).
Proof.
  intros Hok. unfold take_journal, lookup_journal.
  destruct (journal ix !! from) as [seg|] eqn:Hf; simpl; cycle 1.
  { split_and!; [done|done|]. intros s x. case_decide as Hd; [|done].
    destruct Hd as [-> ->]. by rewrite Hf. }
  case_decide as Hemp; simpl; split_and!; try done.
  - intros s' seg'. simpl. intros [_ Hs]%lookup_delete_Some. by eapply Hok.
  - intros s x. rewrite lookup_delete. case_decide as Hs; [subst s|].
    + case_decide as Hd; [done|]. rewrite Hf. rewrite <-(lookup_delete_ne seg h x) by naive_solver.
      by rewrite Hemp, lookup_empty.
    + rewrite decide_False by naive_solver. done.
  - intros s' seg'. simpl. intros [[<- <-]|[_ Hs]]%lookup_insert_Some; [done|by eapply Hok].
  - intros s x. rewrite lookup_insert. case_decide as Hs; [subst s|].
    + rewrite Hf, lookup_delete. repeat case_decide; naive_solver.
    + rewrite decide_False by naive_solver. done.
Qed.

Lemma lookup_put_journal ix s h loc s' x :
  lookup_journal (put_journal ix s h loc) s' x =
  if decide (s' = s ∧ x = h) then Some loc else lookup_journal ix s' x.
Proof.
  unfold lookup_journal, put_journal, journal_of. simpl. rewrite lookup_insert.
  case_decide as Hs; [subst s'|by rewrite decide_False by naive_solver].
  rewrite lookup_insert. case_decide as Hx; [subst x; by rewrite decide_True by done|].
  rewrite decide_False by naive_solver. destruct (journal ix !! s); [done|].
  simpl. apply lookup_empty.
Qed.

Lemma journal_is_empty_spec ix :
  journal_ok ix → journal_is_empty ix = true ↔ ∀ s h, lookup_journal ix s h = None.
Proof.
  intros Hok. unfold journal_is_empty. rewrite bool_decide_eq_true. split.
  - intros Hj s h. unfold lookup_journal. by rewrite Hj, lookup_empty.
  - intros Hn. apply map_empty. intros s. destruct (journal ix !! s) as [seg|] eqn:Hs; [|done].
    exfalso. apply (Hok s seg Hs). apply map_empty. intros h. specialize (Hn s h).
    unfold lookup_journal in Hn. by rewrite Hs in Hn.
Qed.

Lemma admit_data_journal ix h loc adm : journal (admit_data ix h loc adm) = journal ix.
Proof. unfold admit_data. destruct adm; destruct (inner ix !! h); try done. by case_decide. Qed.

Lemma record_sources_maps ix s h opts :
  inner (record_sources ix s h opts) = inner ix ∧ deltas (record_sources ix s h opts) = deltas ix ∧
  journal (record_sources ix s h opts) = journal ix.
Proof. destruct opts; [done|]. simpl. by destruct (_ !! h). Qed.

Lemma register_entry_journal_ok ix e i ctx adm ix' :
  journal_ok ix → register_entry ix e i ctx adm = Ok ix' → journal_ok ix'.
Proof.
  intros Hok. unfold register_entry.
  pose proof (record_sources_maps ix (ctx_segment_id ctx) (e_hash e) (e_delta_options e))
    as (_ & _ & Hj).
  destruct (e_kind e); try (by intros [= <-]);
  try (destruct (ctx_delta_body_source ctx); [|done]; intros [= <-];
       destruct (delta_admitted _ _ _); by eapply journal_ok_ext; [|exact Hok]);
  (destruct (inline_bytes e (ctx_inline ctx)); [|by intros [= <-]];
   destruct (e_journal e); intros [= <-];
   [by apply insert_journal_ok
   |eapply journal_ok_ext; [apply admit_data_journal|exact Hok]]).
Qed.

(** ** Admission *)

(** A hash the index can resolve to stored bytes. *)
Definition resolves (ix : ExtentIndex) (h : Hash) : Prop :=
  is_Some (inner ix !! h) ∨ is_Some (deltas ix !! h).

Lemma register_entry_monotone ix e i ctx adm ix' h :
  register_entry ix e i ctx adm = Ok ix' → resolves ix h → resolves ix' h.
Proof.
  unfold register_entry, resolves.
  pose proof (record_sources_maps ix (ctx_segment_id ctx) (e_hash e) (e_delta_options e))
    as (Hi & Hd & _).
  destruct (e_kind e); try (by intros [= <-]);
  try (destruct (ctx_delta_body_source ctx); [|done]; intros [= <-];
       destruct (delta_admitted _ _ _); simpl; rewrite ?Hi, ?Hd, ?lookup_insert_is_Some'; tauto);
  (destruct (inline_bytes e (ctx_inline ctx)); [|by intros [= <-]];
   destruct (e_journal e); intros [= <-];
   [unfold insert_journal_if_absent; by destruct (journal_of _ _ !! _)|]);
  unfold admit_data, insert; destruct adm as [|inputs];
  (destruct (inner ix !! e_hash e); [try case_decide|]); simpl; try tauto;
  rewrite ?lookup_insert_is_Some', ?lookup_delete_is_Some;
  destruct (decide (e_hash e = h)); tauto.
Qed.

Lemma register_entry_keeps_foreign ix e i ctx inputs ix' h loc :
  register_entry ix e i ctx (ConsumingInputs inputs) = Ok ix' →
  inner ix !! h = Some loc → segment_id loc ∉ inputs → inner ix' !! h = Some loc.
Proof.
  intros Hr Hh Hn. revert Hr. unfold register_entry.
  pose proof (record_sources_maps ix (ctx_segment_id ctx) (e_hash e) (e_delta_options e))
    as (Hi & _ & _).
  destruct (e_kind e); try (by intros [= <-]);
  try (destruct (ctx_delta_body_source ctx); [|done]; intros [= <-];
       (match goal with |- context [if ?b then _ else _] => destruct b end); simpl; by rewrite Hi);
  (destruct (inline_bytes e (ctx_inline ctx)); [|by intros [= <-]];
   destruct (e_journal e); intros [= <-];
   [unfold insert_journal_if_absent; by destruct (journal_of _ _ !! _)|]);
  unfold admit_data, insert;
  (destruct (inner ix !! e_hash e) as [own|] eqn:Ho; [case_decide as Ho'; [|done]|]);
  simpl; rewrite lookup_insert_ne; try done; congruence.
Qed.

(** ** Removing a consumed input *)

Lemma remove_owner_at_spec ix h seg :
  let r := remove_owner_at ix h seg in
  inner r.1 = (match inner ix !! h with
               | Some l => if decide (segment_id l = seg) then delete h (inner ix) else inner ix
               | None => inner ix end) ∧
  deltas r.1 = (match deltas ix !! h with
                | Some l => if decide (d_segment_id l = seg) then delete h (deltas ix) else deltas ix
                | None => deltas ix end) ∧
  (r.2 = true ↔ (∃ l, inner ix !! h = Some l ∧ segment_id l = seg) ∨
                (∃ l, deltas ix !! h = Some l ∧ d_segment_id l = seg)).
Proof.
  unfold remove_owner_at.
  destruct (inner ix !! h) as [l|]; [case_decide|]; simpl;
    (destruct (deltas ix !! h) as [l'|]; [case_decide|]); simpl; split_and!; try done; naive_solver.
Qed.

(** Whether removing [input]'s uncarried hashes of [owned] clears the slot of [h]. *)
Definition cleared (input : Ulid) (owned : list Hash) (carried : gset Hash) (h : Hash) (seg : Ulid)
    : Prop := h ∈ owned ∧ h ∉ carried ∧ seg = input.

#[export] Instance cleared_dec input owned carried h seg :
  Decision (cleared input owned carried h seg).
Proof. unfold cleared. apply _. Defined.

Definition keep_inner (c : Ulid → Prop) `{!∀ s, Decision (c s)} (o : option ExtentLocation) :=
  match o with Some l => if decide (c (segment_id l)) then None else Some l | None => None end.
Definition keep_delta (c : Ulid → Prop) `{!∀ s, Decision (c s)} (o : option DeltaLocation) :=
  match o with Some l => if decide (c (d_segment_id l)) then None else Some l | None => None end.

Lemma remove_input_owned_fold input carried owned ix acc :
  let r := foldl (λ '(ix, removed) h,
           if decide (h ∈ carried) then (ix, removed)
           else match remove_owner_at ix h input with
                | (ix, true) => (ix, removed ++ [h])
                | (ix, false) => (ix, removed)
                end) (ix, acc) owned in
  (∀ h, inner r.1 !! h = keep_inner (cleared input owned carried h) (inner ix !! h)) ∧
  (∀ h, deltas r.1 !! h = keep_delta (cleared input owned carried h) (deltas ix !! h)) ∧
  (∀ h, h ∈ r.2 ↔ h ∈ acc ∨
     (h ∈ owned ∧ h ∉ carried ∧ ((∃ l, inner ix !! h = Some l ∧ segment_id l = input) ∨
                                 (∃ l, deltas ix !! h = Some l ∧ d_segment_id l = input)))).
Proof.
  revert ix acc. induction owned as [|h0 owned IH]; intros ix acc.
  { cbn [foldl fst snd]. split_and!; intros h.
    - destruct (inner ix !! h); cbn [keep_inner]; [|done]. rewrite decide_False; [done|].
      intros [Hin _]. by apply not_elem_of_nil in Hin.
    - destruct (deltas ix !! h); cbn [keep_delta]; [|done]. rewrite decide_False; [done|].
      intros [Hin _]. by apply not_elem_of_nil in Hin.
    - set_solver. }
  cbn [foldl]. destruct (decide (h0 ∈ carried)) as [Hc|Hc].
  { destruct (IH ix acc) as (Hi & Hd & Hr). split_and!; intros h.
    - rewrite Hi. destruct (inner ix !! h); [|done]. unfold keep_inner, cleared.
      repeat case_decide; set_solver.
    - rewrite Hd. destruct (deltas ix !! h); [|done]. unfold keep_delta, cleared.
      repeat case_decide; set_solver.
    - rewrite Hr. set_solver. }
  pose proof (remove_owner_at_spec ix h0 input) as (Hi0 & Hd0 & Hr0).
  destruct (remove_owner_at ix h0 input) as [ix1 b]. cbn [fst snd] in Hi0, Hd0, Hr0.
  set (acc1 := if b then acc ++ [h0] else acc).
  replace (if b then (ix1, acc ++ [h0]) else (ix1, acc)) with (ix1, acc1) by (by destruct b).
  destruct (IH ix1 acc1) as (Hi & Hd & Hr). split_and!; intros h.
  - rewrite Hi, Hi0. unfold keep_inner, cleared.
    destruct (inner ix !! h0) as [l0|] eqn:H0; [case_decide|];
      rewrite ?lookup_delete; repeat case_decide; subst; rewrite ?H0;
      destruct (inner ix !! h) eqn:?; simplify_eq; repeat case_decide; set_solver.
  - rewrite Hd, Hd0. unfold keep_delta, cleared.
    destruct (deltas ix !! h0) as [l0|] eqn:H0; [case_decide|];
      rewrite ?lookup_delete; repeat case_decide; subst; rewrite ?H0;
      destruct (deltas ix !! h) eqn:?; simplify_eq; repeat case_decide; set_solver.
  - rewrite Hr. unfold acc1. rewrite Hi0, Hd0. destruct (decide (h = h0)) as [->|Hne].
    + destruct b; [set_solver|]. assert (¬ (false = true)) as Hf by done. rewrite Hr0 in Hf.
      destruct (inner ix !! h0) as [l1|] eqn:H1; destruct (deltas ix !! h0) as [l2|] eqn:H2;
        repeat case_decide; rewrite ?H1, ?H2; set_solver.
    + assert (h ∈ (if b then acc ++ [h0] else acc) ↔ h ∈ acc) as -> by (destruct b; set_solver).
      assert (∀ (m : gmap Hash ExtentLocation), delete h0 m !! h = m !! h) as Hdi
        by (intros; by apply lookup_delete_ne).
      assert (∀ (m : gmap Hash DeltaLocation), delete h0 m !! h = m !! h) as Hdd
        by (intros; by apply lookup_delete_ne).
      assert (h ∈ h0 :: owned ↔ h ∈ owned) as Hin by (rewrite elem_of_cons; tauto).
      destruct (inner ix !! h0); destruct (deltas ix !! h0); repeat case_decide;
        rewrite ?Hdi, ?Hdd, Hin; done.
Qed.

(** ** Properties *)

Definition opt1 (s : Hash) : DeltaOption := mkDeltaOption s 0 10 (replicate 16 7).
Definition delta_entry (h s : Hash) : SegmentEntry := new_delta h 0 1 [opt1 s].
Definition ctx1 (seg : Ulid) : SegmentRegistrationCtx :=
  mkCtx seg 100 TierLocal (Some (Full 100 4096)) (Section_ []).

(** C30: the delta-source refcounts are exact: registering any entry under any
    admission and purging a segment keep every count equal to the number of
    recorded encodings naming the hash, so the single-probe
    [is_named_delta_source] answers membership in [named_delta_sources] (as
    long as fewer than 2^32 source references are recorded). *)
Theorem delta_source_counts_exact ix :
  sources_ok ix →
  (∀ e i ctx adm ix',
     total_sources (delta_sources ix) + Z.of_nat (length (e_delta_options e)) < U32 →
     register_entry ix e i ctx adm = Ok ix' → sources_ok ix') ∧
  (∀ s, sources_ok (purge_segment_delta_sources ix s)) ∧
  (∀ h, is_named_delta_source ix h = true ↔ h ∈ named_delta_sources ix).
Proof.
  intros Hok. split_and!.
  - intros e i ctx adm ix' Hlen Hr. by eapply register_entry_sources_ok.
  - intros s. by apply purge_sources_ok.
  - intros h. rewrite named_delta_sources_occ. unfold is_named_delta_source.
    rewrite bool_decide_eq_true, (so_counts _ Hok). unfold count_of.
    pose proof (source_occ_nonneg (delta_sources ix) h).
    case_decide; [split; [by intros [? ?]|lia]|]. split; [lia|by eexists].
Qed.

Lemma delta_source_counts_exact_witness :
  ∃ ix, register_entry ei_new (delta_entry [1] [9]) 0 (ctx1 5) IfAbsent = Ok ix ∧ sources_ok ix ∧
        is_named_delta_source ix [9] = true ∧
        is_named_delta_source (purge_segment_delta_sources ix 5) [9] = false.
Proof.
  assert (sources_ok ei_new) as H0.
  { split; [vm_compute; reflexivity|]. intros x. simpl. rewrite lookup_empty.
    unfold source_occ. by rewrite msum_empty. }
  destruct (delta_source_counts_exact ei_new H0) as (Hreg & _ & _).
  eexists. split; [reflexivity|]. split; [|split; vm_compute; reflexivity].
  eapply (Hreg (delta_entry [1] [9]) 0 (ctx1 5) IfAbsent); [vm_compute; reflexivity|reflexivity].
Defined.

(** The journal tier never holds an empty segment: insertion, re-keying,
    cache promotion, purging and registration all keep every submap non-empty,
    so the outer emptiness check is exact; and a re-key moves exactly one body,
    to the new segment, when the old key holds one, and does nothing otherwise. *)
Theorem journal_tier_sound ix :
  journal_ok ix →
  (∀ s h loc, journal_ok (insert_journal_if_absent ix s h loc).1) ∧
  (∀ s, journal_ok (purge_journal_segment ix s)) ∧
  (∀ s start es, journal_ok (promote_journal_segment_to_cache ix s start es)) ∧
  (∀ e i ctx adm ix', register_entry ix e i ctx adm = Ok ix' → journal_ok ix') ∧
  (journal_is_empty ix = true ↔ ∀ s h, lookup_journal ix s h = None) ∧
  (∀ from to_ h, from ≠ to_ →
     let ix' := rekey_journal_owner ix from to_ h in
     journal_ok ix' ∧
     ∀ s x, lookup_journal ix' s x =
       match lookup_journal ix from h with
       | Some loc =>
           if decide (s = to_ ∧ x = h) then Some (with_segment loc to_)
           else if decide (s = from ∧ x = h) then None else lookup_journal ix s x
       | None => lookup_journal ix s x
       end).
Proof.
  intros Hok. split_and!.
  - intros. by apply insert_journal_ok.
  - intros s s' seg. simpl. intros [_ Hs]%lookup_delete_Some. by eapply Hok.
  - intros s start es. unfold promote_journal_segment_to_cache.
    destruct (journal ix !! s) as [seg|] eqn:Hs; [|done].
    intros s' seg'. simpl. intros [[<- <-]|[_ Hs']]%lookup_insert_Some; [|by eapply Hok].
    intros Hemp. apply (Hok _ _ Hs). apply map_empty. intros h.
    assert (map_imap (λ h loc, Some (match first_index es !! h with
        | Some idx => mkExtentLocation (segment_id loc) (body_offset loc) (body_length loc)
                        (codec loc) (Cached idx) start (inline_data loc)
        | None => loc end)) seg !! h = None) as Hn by (by rewrite Hemp, lookup_empty).
    rewrite map_lookup_imap in Hn. by destruct (seg !! h).
  - intros e i ctx adm ix'. by apply register_entry_journal_ok.
  - by apply journal_is_empty_spec.
  - intros from to_ h Hne. unfold rekey_journal_owner.
    destruct (take_journal_spec ix from h Hok) as (Hok' & Hr & Hl).
    destruct (take_journal ix from h) as [ix1 [loc|]]; cbn [fst snd] in *; rewrite <-Hr.
    + split; [by apply put_journal_ok|]. intros s x. by rewrite lookup_put_journal, Hl.
    + split; [done|]. intros s x. rewrite Hl. case_decide as Hd; [|done].
      destruct Hd as [-> ->]. done.
Qed.

Definition loc1 (seg : Ulid) : ExtentLocation := mkExtentLocation seg 0 512 CodecNone Local 100 None.

(** Registration is safe against concurrent writers: it never makes a
    resolvable hash unresolvable, and under the apply-phase admission it never
    re-points a data slot owned by a segment outside the consumed inputs. *)
Theorem register_entry_safe ix e i ctx adm ix' :
  register_entry ix e i ctx adm = Ok ix' →
  (∀ h, resolves ix h → resolves ix' h) ∧
  (∀ inputs h loc, adm = ConsumingInputs inputs → inner ix !! h = Some loc →
     segment_id loc ∉ inputs → inner ix' !! h = Some loc).
Proof.
  intros Hr. split.
  - intros h. by eapply register_entry_monotone.
  - intros inputs h loc -> Hh Hn. by eapply register_entry_keeps_foreign.
Qed.

(** [remove_input_owned] is exact: it clears precisely the data and delta
    slots of the listed, uncarried hashes that the input owns, leaves every
    other slot alone, and reports precisely the hashes it cleared. *)
Theorem remove_input_owned_exact ix input owned carried :
  let r := remove_input_owned ix input owned carried in
  (∀ h, inner r.1 !! h = keep_inner (cleared input owned carried h) (inner ix !! h)) ∧
  (∀ h, deltas r.1 !! h = keep_delta (cleared input owned carried h) (deltas ix !! h)) ∧
  (∀ h, h ∈ r.2 ↔ h ∈ owned ∧ h ∉ carried ∧
     ((∃ l, inner ix !! h = Some l ∧ segment_id l = input) ∨
      (∃ l, deltas ix !! h = Some l ∧ d_segment_id l = input))).
Proof.
  destruct (remove_input_owned_fold input carried owned ix []) as (Hi & Hd & Hr).
  split; [exact Hi|]. split; [exact Hd|]. intros h. rewrite (Hr h). set_solver.
Qed.
