(* ===== verification/Journal.v ===== *)
(** * Journal windows (elide-core/src/journal.rs)

    The ext4 journal's LBA ranges as a sorted, coalesced list, membership by
    binary search, and the split of a write at window boundaries.  The theorems
    read a range list through [covered], the set of blocks it denotes. *)

From stdpp Require Import base gmap list sorting fin_sets.
From S2P Require Import Prelude.
Open Scope Z_scope.

(** ** Operations *)

(** [JournalRanges]: [(start_lba, lba_count)] pairs. *)
Definition JournalRanges : Type := list (Z * Z).

Definition jr_empty : JournalRanges := [].

(** The derived order of [(u64, u64)]. *)
Definition pair_le (p q : Z * Z) : Prop := p.1 < q.1 ∨ (p.1 = q.1 ∧ p.2 ≤ q.2).

#[export] Instance pair_le_dec p q : Decision (pair_le p q).
Proof. unfold pair_le. apply _. Defined.
#[export] Instance pair_le_trans : Transitive pair_le.
Proof. intros [] [] []; unfold pair_le; simpl; lia. Qed.
#[export] Instance pair_le_total : Total pair_le.
Proof. intros [] []; unfold pair_le; simpl; lia. Qed.

(** The loop body of [new]: the accumulator is [coalesced], last element first. *)
Definition coalesce_step (acc : list (Z * Z)) (r : Z * Z) : list (Z * Z) :=
  let '(start, len) := r in
  match acc with
  | (prev_start, prev_len) :: rest =>
      if decide (start ≤ u64_add prev_start prev_len)
      then (prev_start, Z.max prev_len (u64_sub (u64_add start len) prev_start)) :: rest
      else (start, len) :: acc
  | [] => [(start, len)]
  end.

Definition jr_new (ranges : list (Z * Z)) : JournalRanges :=
  reverse (foldl coalesce_step [] (merge_sort pair_le (filter (λ p, 0 < p.2) ranges))).

Definition jr_is_empty (r : JournalRanges) : bool := bool_decide (r = []).

(** [slice::partition_point]: the length of the leading run satisfying [P]. *)
Fixpoint partition_point {A} (P : A → bool) (l : list A) : nat :=
  match l with
  | [] => 0
  | x :: l => if P x then S (partition_point P l) else 0
  end.

Definition contains (r : JournalRanges) (lba : Z) : bool :=
  let i := partition_point (λ p, bool_decide (p.1 ≤ lba)) r in
  bool_decide (0 < i)%nat &&
  match r !! (i - 1)%nat with
  | Some (start, len) => bool_decide (lba < u64_add start len)
  | None => false
  end.

Definition lba_count (r : JournalRanges) : Z := foldl (λ acc p, u64_add acc p.2) 0 r.

Definition crosses_boundary (r : JournalRanges) (start_lba count : Z) : bool :=
  let end_ := u64_add start_lba count in
  existsb (λ '(s, l),
    let range_end := u64_add s l in
    (bool_decide (start_lba < s) && bool_decide (s < end_))
    || (bool_decide (start_lba < range_end) && bool_decide (range_end < end_))) r.

(** The ascending boundary sequence, and the cuts interior to a run. *)
Definition boundaries (r : JournalRanges) : list Z := concat (map (λ '(s, l), [s; u64_add s l]) r).
Definition cuts (r : JournalRanges) (start_lba end_ : Z) : list Z :=
  filter (λ b, start_lba < b ∧ b < end_) (boundaries r).

Definition split_at_boundaries (r : JournalRanges) (start_lba count : Z) : list (Z * Z) :=
  let end_ := u64_add start_lba count in
  let '(runs, cursor) :=
    foldl (λ '(runs, cursor) cut, (runs ++ [(cursor, as_u32 (u64_sub cut cursor))], cut))
          ([], start_lba) (cuts r start_lba end_) in
  runs ++ [(cursor, as_u32 (u64_sub end_ cursor))].

(** ** The denoted set and the normal form *)

Definition covered (r : list (Z * Z)) (x : Z) : Prop := ∃ s l, (s, l) ∈ r ∧ s ≤ x < s + l.

(** A range that fits the address space. *)
Definition range_ok (p : Z * Z) : Prop := 0 ≤ p.1 ∧ 0 ≤ p.2 ∧ p.1 + p.2 < U64.

Definition separated (p q : Z * Z) : Prop := p.1 + p.2 < q.1.

Record normal (r : JournalRanges) : Prop := {
  n_sorted : StronglySorted separated r;
  n_ok : Forall (λ p, range_ok p ∧ 0 < p.2) r
}.

Lemma covered_nil x : ¬ covered [] x.
Proof. intros (s & l & Hin & _). by apply not_elem_of_nil in Hin. Qed.

Lemma covered_cons p r x : covered (p :: r) x ↔ (p.1 ≤ x < p.1 + p.2) ∨ covered r x.
Proof.
  destruct p as [s l]. unfold covered. simpl. split.
  - intros (s' & l' & [[= -> ->]|Hin]%elem_of_cons & Hx); [by left|right; eauto].
  - intros [Hx|(s' & l' & Hin & Hx)]; do 2 eexists; (split; [|exact Hx]); by constructor.
Qed.

Lemma covered_perm r r' x : r ≡ₚ r' → covered r x ↔ covered r' x.
Proof. intros Hp. unfold covered. by setoid_rewrite Hp. Qed.

Lemma covered_filter r x : covered (filter (λ p, 0 < p.2) r) x ↔ covered r x.
Proof.
  unfold covered. split; intros (s & l & Hin & Hx); exists s, l; (split; [|done]).
  - by apply list_elem_of_filter in Hin as [_ Hin].
  - apply list_elem_of_filter. simpl. split; [lia|done].
Qed.

(** ** Coalescing *)

(** The accumulator's shape: the reverse of a normal list. *)
Record racc (acc : list (Z * Z)) : Prop := {
  ra_sorted : StronglySorted (flip separated) acc;
  ra_ok : Forall (λ p, range_ok p ∧ 0 < p.2) acc
}.

Lemma coalesce_step_spec acc p :
  racc acc → range_ok p → 0 < p.2 → (∀ q, q ∈ acc → q.1 ≤ p.1) →
  racc (coalesce_step acc p) ∧
  (∀ x, covered (coalesce_step acc p) x ↔ covered acc x ∨ p.1 ≤ x < p.1 + p.2) ∧
  (∀ q, q ∈ coalesce_step acc p → q.1 ≤ p.1).
Proof.
  destruct p as [s l]. intros [Hs Hf] (Hp1 & Hp2 & Hp3) Hl Hle. cbn [fst snd] in *.
  destruct acc as [|[ps pl] acc]; cbn [coalesce_step].
  { split_and!.
    - split; repeat constructor; done.
    - intros x. rewrite covered_cons. simpl. tauto.
    - intros q Hq%list_elem_of_singleton. by subst. }
  apply Forall_cons in Hf as [[(Hq1 & Hq2 & Hq3) Hql] Hf]. cbn [fst snd] in *.
  assert (ps ≤ s) as Hps by apply (Hle (ps, pl)), list_elem_of_here.
  inversion Hs as [|? ? Hs' Hall]; subst. unwrap.
  destruct (decide (s ≤ ps + pl)) as [Hd|Hd].
  - split_and!.
    + split.
      * constructor; [done|]. exact Hall.
      * constructor; [|done]. split; [|simpl; lia]. repeat split; simpl; lia.
    + intros x. rewrite !covered_cons. simpl. split; [intros [?|?]|intros [[?|?]|?]]; try tauto; lia.
    + intros q [->|Hq]%elem_of_cons; [done|]. apply Hle. by right.
  - split_and!.
    + split; [|by repeat constructor; try done].
      constructor; [done|]. constructor; [unfold flip, separated; simpl; lia|].
      eapply Forall_impl; [exact Hall|]. intros q. unfold flip, separated. simpl. lia.
    + intros x. rewrite covered_cons. simpl. tauto.
    + intros q [->|Hq]%elem_of_cons; [done|by apply Hle].
Qed.

Lemma coalesce_fold_spec l acc :
  racc acc → Forall (λ p, range_ok p ∧ 0 < p.2) l → StronglySorted pair_le l →
  (∀ q p, q ∈ acc → p ∈ l → q.1 ≤ p.1) →
  racc (foldl coalesce_step acc l) ∧
  ∀ x, covered (foldl coalesce_step acc l) x ↔ covered acc x ∨ covered l x.
Proof.
  revert acc. induction l as [|p l IH]; intros acc Hacc Hok Hs Hle; cbn [foldl].
  { split; [done|]. intros x. pose proof (covered_nil x). tauto. }
  apply Forall_cons in Hok as [[Hp Hl] Hok]. inversion Hs as [|? ? Hs' Hall]; subst.
  destruct (coalesce_step_spec acc p Hacc Hp Hl) as (Hacc' & Hcov & Hle').
  { intros q Hq. apply Hle; [done|apply list_elem_of_here]. }
  destruct (IH (coalesce_step acc p) Hacc' Hok Hs') as [Hr Hc].
  { intros q p' Hq Hp'. rewrite Forall_forall in Hall. specialize (Hall p' Hp').
    specialize (Hle' q Hq). unfold pair_le in Hall. lia. }
  split; [done|]. intros x. rewrite Hc, Hcov, covered_cons. tauto.
Qed.

Lemma separated_trans_ok p q r : 0 ≤ q.2 → separated p q → separated q r → separated p r.
Proof. unfold separated. lia. Qed.

Lemma StronglySorted_snoc {A} (R : A → A → Prop) l x :
  StronglySorted R l → Forall (λ y, R y x) l → StronglySorted R (l ++ [x]).
Proof.
  induction 1 as [|y l Hs IH Hall]; intros Hx; [repeat constructor|].
  apply Forall_cons in Hx as [Hy Hx]. simpl. constructor; [by apply IH|].
  apply Forall_app; split; [done|]. by repeat constructor.
Qed.

Lemma StronglySorted_reverse {A} (R : A → A → Prop) l :
  StronglySorted (flip R) l → StronglySorted R (reverse l).
Proof.
  induction 1 as [|y l Hs IH Hall]; [constructor|]. rewrite reverse_cons.
  apply StronglySorted_snoc; [done|]. by apply Forall_reverse.
Qed.

Lemma jr_new_spec ranges :
  Forall range_ok ranges →
  normal (jr_new ranges) ∧ ∀ x, covered (jr_new ranges) x ↔ covered ranges x.
Proof.
  intros Hok. unfold jr_new. set (l := merge_sort _ _).
  assert (l ≡ₚ filter (λ p, 0 < p.2) ranges) as Hperm by apply merge_sort_Permutation.
  destruct (coalesce_fold_spec l []) as [[Hs Hf] Hc].
  - by repeat constructor.
  - rewrite Hperm, Forall_forall. intros p [Hp Hin]%list_elem_of_filter.
    rewrite Forall_forall in Hok. auto.
  - apply StronglySorted_merge_sort; apply _.
  - intros q p Hq. by apply not_elem_of_nil in Hq.
  - split.
    + split; [by apply StronglySorted_reverse|by apply Forall_reverse].
    + intros x. rewrite (covered_perm _ _ _ (reverse_Permutation _)), Hc,
        (covered_perm _ _ _ Hperm), covered_filter.
      pose proof (covered_nil x). tauto.
Qed.

(** ** Membership *)

Lemma normal_cons p r : normal (p :: r) → normal r.
Proof. intros [Hs Hf]. inversion Hs; inversion Hf; subst. by split. Qed.

Lemma normal_head p r : normal (p :: r) → range_ok p ∧ 0 < p.2 ∧ ∀ q, q ∈ r → p.1 + p.2 < q.1.
Proof.
  intros [Hs Hf]. inversion Hs as [|? ? _ Hall]; subst. apply Forall_cons in Hf as [[Hp Hl] _].
  split_and!; [done..|]. by rewrite Forall_forall in Hall.
Qed.

Lemma contains_cons (p : Z * Z) r x :
  contains (p :: r) x =
  bool_decide (p.1 ≤ x) &&
  (if decide (partition_point (λ p, bool_decide (p.1 ≤ x)) r = O)
   then bool_decide (x < u64_add p.1 p.2) else contains r x).
Proof.
  unfold contains. cbn [partition_point]. destruct p as [s l]. cbn [fst snd].
  destruct (bool_decide (s ≤ x)) eqn:E; [|done]. cbn [andb].
  rewrite bool_decide_true by lia. cbn [andb].
  destruct (partition_point _ r) as [|i]; [done|].
  replace (S (S i) - 1)%nat with (S i) by lia.
  rewrite decide_False, bool_decide_true by lia. cbn [andb lookup list_lookup].
  by replace (S i - 1)%nat with i by lia.
Qed.

Lemma partition_point_0 (r : list (Z * Z)) x :
  partition_point (λ p, bool_decide (p.1 ≤ x)) r = 0%nat → ∀ p, head r = Some p → x < p.1.
Proof.
  destruct r as [|q r]; [done|]. cbn [partition_point]. case_bool_decide; [done|].
  intros _ p [= <-]. lia.
Qed.

Lemma contains_spec r x : normal r → contains r x = true ↔ covered r x.
Proof.
  induction r as [|p r IH]; intros Hn.
  { split; [done|]. intros Hc. by apply covered_nil in Hc. }
  destruct (normal_head _ _ Hn) as ((Hp1 & Hp2 & Hp3) & Hl & Hsep).
  rewrite contains_cons, covered_cons. unwrap.
  rewrite andb_true_iff, bool_decide_eq_true.
  assert (covered r x → p.1 + p.2 < x) as Hout.
  { intros (s & l & Hin & Hx). specialize (Hsep _ Hin). simpl in Hsep. lia. }
  case_decide as Hpp.
  - rewrite bool_decide_eq_true. split; [lia|]. intros [?|Hc]; [lia|].
    destruct r as [|q r]; [by apply covered_nil in Hc|]. exfalso.
    pose proof (partition_point_0 _ _ Hpp q eq_refl) as Hq.
    destruct (normal_head _ _ (normal_cons _ _ Hn)) as (_ & Hql & Hqs).
    destruct Hc as (s & l & [<-|Hin]%elem_of_cons & Hx); simpl in *; [lia|].
    specialize (Hqs _ Hin). simpl in Hqs. lia.
  - rewrite IH by (by eapply normal_cons). split; [tauto|].
    intros [Hx|Hc]; [|specialize (Hout Hc); split; [lia|done]]. exfalso.
    destruct r as [|q r]; [done|]. cbn [partition_point] in Hpp. revert Hpp.
    case_bool_decide; [|done]. specialize (Hsep q (list_elem_of_here _ _)). lia.
Qed.

(** ** Splitting *)

Lemma no_boundary_uniform r a b :
  (∀ s l c, (s, l) ∈ r → c = s ∨ c = s + l → ¬ (a < c < b)) →
  ∀ x, a ≤ x < b → covered r x ↔ covered r a.
Proof.
  intros Hn x Hx. split; intros (s & l & Hin & Hs); exists s, l; (split; [done|]);
    pose proof (Hn s l s Hin); pose proof (Hn s l (s + l) Hin); lia.
Qed.

(** [runs] tile [a, b). *)
Fixpoint tiles (a b : Z) (runs : list (Z * Z)) : Prop :=
  match runs with
  | [] => a = b
  | (s, l) :: runs => s = a ∧ 0 < l ∧ tiles (a + l) b runs
  end.

Lemma tiles_snoc a b c runs : tiles a b runs → b < c → tiles a c (runs ++ [(b, c - b)]).
Proof.
  revert a. induction runs as [|[s l] runs IH]; intros a; simpl.
  - intros -> ?. split_and!; lia.
  - intros (-> & ? & Ht) ?. split_and!; [done..|by apply IH].
Qed.

Definition uniform (r : list (Z * Z)) (p : Z * Z) : Prop :=
  ∀ x, p.1 ≤ x < p.1 + p.2 → covered r x ↔ covered r p.1.

Definition z_lt_sorted (l : list Z) := StronglySorted Z.lt l.

Lemma boundaries_elem r c :
  Forall (λ p, range_ok p ∧ 0 < p.2) r →
  c ∈ boundaries r ↔ ∃ s l, (s, l) ∈ r ∧ (c = s ∨ c = s + l).
Proof.
  induction r as [|[s l] r IH]; intros Hok.
  { split; [intros Hc|intros (? & ? & Hin & _)]; by apply not_elem_of_nil in Hc || apply not_elem_of_nil in Hin. }
  apply Forall_cons in Hok as [[(H1 & H2 & H3) _] Hok]. cbn [fst snd] in *.
  unfold boundaries. cbn [map concat app]. rewrite !elem_of_cons. fold (boundaries r).
  rewrite (IH Hok). unwrap. split.
  - intros [->|[->|(s' & l' & Hin & Hc)]];
      [exists s, l; split; [left|by left]|exists s, l; split; [left|by right]|].
    exists s', l'. split; [by right|done].
  - intros (s' & l' & [[= -> ->]|Hin]%elem_of_cons & Hc); [tauto|]. right; right; eauto.
Qed.

Lemma boundaries_sorted r : normal r → z_lt_sorted (boundaries r).
Proof.
  induction r as [|[s l] r IH]; intros Hn; [constructor|].
  destruct (normal_head _ _ Hn) as ((H1 & H2 & H3) & Hl & Hsep). cbn [fst snd] in *.
  pose proof (normal_cons _ _ Hn) as Hr. specialize (IH Hr).
  assert (∀ c, c ∈ boundaries r → s + l < c) as Hb.
  { intros c. rewrite boundaries_elem by apply Hr. intros (s' & l' & Hin & Hc).
    specialize (Hsep _ Hin). simpl in Hsep.
    pose proof (n_ok _ Hr) as Hf. rewrite Forall_forall in Hf.
    destruct (Hf _ Hin) as [_ ?]. simpl in *. lia. }
  unfold boundaries. cbn [map concat app]. fold (boundaries r). unwrap.
  repeat constructor; [done|rewrite Forall_forall; done|lia|].
  rewrite Forall_forall. intros c Hc. specialize (Hb c Hc). lia.
Qed.

Lemma filter_sorted (P : Z → Prop) `{!∀ x, Decision (P x)} l :
  z_lt_sorted l → z_lt_sorted (filter P l).
Proof.
  induction 1 as [|x l Hs IH Hall]; [constructor|]. rewrite filter_cons. case_decide; [|done].
  constructor; [done|]. rewrite Forall_forall in Hall |- *.
  intros y [_ Hy]%list_elem_of_filter. by apply Hall.
Qed.

(** The split loop over a strictly ascending list of cuts. *)
Lemma split_loop r start cursor end_ cs runs :
  tiles start cursor runs → Forall (uniform r) runs →
  z_lt_sorted cs → Forall (λ c, cursor < c < end_) cs → cursor < end_ →
  0 ≤ cursor → end_ - cursor < U32 → end_ < U64 →
  (∀ s l c, (s, l) ∈ r → c = s ∨ c = s + l → cursor < c < end_ → c ∈ cs) →
  let '(out, cur) :=
    foldl (λ '(runs, cursor) cut, (runs ++ [(cursor, as_u32 (u64_sub cut cursor))], cut))
          (runs, cursor) cs in
  let out := out ++ [(cur, as_u32 (u64_sub end_ cur))] in
  tiles start end_ out ∧ Forall (uniform r) out ∧ length out = (length runs + length cs + 1)%nat.
Proof.
  revert cursor runs. induction cs as [|c cs IH]; intros cursor runs Ht Hu Hs Hc Hlt H0 H32 H64 Hin.
  - cbn [foldl]. unwrap. split_and!.
    + by apply tiles_snoc.
    + apply Forall_app; split; [done|]. apply Forall_singleton; intros x Hx; simpl in *;
        (apply no_boundary_uniform with (b := end_); [|lia]);
        intros s l c Hsl Hcc Hbad; pose proof (Hin s l c Hsl Hcc Hbad) as Hn;
        by apply not_elem_of_nil in Hn.
    + rewrite length_app. simpl. lia.
  - cbn [foldl]. apply Forall_cons in Hc as [Hc1 Hc]. inversion Hs as [|? ? Hs' Hall]; subst.
    rewrite Forall_forall in Hall.
    specialize (IH c (runs ++ [(cursor, as_u32 (u64_sub c cursor))])).
    rewrite length_app in IH. unwrap_in IH. unwrap.
    destruct (foldl _ _ cs) as [out cur]. destruct IH as (IH1 & IH2 & IH3); try done; try lia.
    + by apply tiles_snoc; [|lia].
    + apply Forall_app; split; [done|]. apply Forall_singleton; intros x Hx; simpl in *;
      (apply no_boundary_uniform with (b := c); [|lia]);
      intros s l c' Hsl Hcc Hbad;
      assert (c' ∈ c :: cs) as [->|Hc']%elem_of_cons by (apply (Hin s l c' Hsl Hcc); lia);
      [lia|]; specialize (Hall _ Hc'); lia.
    + rewrite Forall_forall in Hc |- *. intros c' Hc'. specialize (Hc _ Hc').
      specialize (Hall _ Hc'). lia.
    + intros s l c' Hsl Hcc Hb. specialize (Hin s l c' Hsl Hcc).
      assert (c' ∈ c :: cs) as [->|?]%elem_of_cons by (apply Hin; lia); [lia|done].
    + split_and!; [done..|]. simpl in *. lia.
Qed.

Lemma split_spec r start count :
  normal r → 0 ≤ start → 0 < count < U32 → start + count < U64 →
  tiles start (start + count) (split_at_boundaries r start count) ∧
  Forall (uniform r) (split_at_boundaries r start count) ∧
  length (split_at_boundaries r start count) = S (length (cuts r start (start + count))).
Proof.
  intros Hn H0 Hc H64. unfold split_at_boundaries. unwrap.
  pose proof (split_loop r start start (start + count) (cuts r start (start + count)) []) as Hl.
  cbn [app length tiles] in Hl. unfold cuts in *. set (cs := filter _ _) in *.
  destruct (foldl _ _ cs) as [out cur].
  destruct Hl as (Ht & Hu & Hlen); try done; try lia; try apply Forall_nil_2.
  - by apply filter_sorted, boundaries_sorted.
  - rewrite Forall_forall. intros c [Hb _]%list_elem_of_filter. lia.
  - intros s l c Hin Hcc Hb. apply list_elem_of_filter. split; [lia|].
    apply boundaries_elem; [apply Hn|eauto].
  - split; [done|]. split; [done|lia].
Qed.

Lemma crosses_boundary_cuts r start count :
  Forall (λ p, range_ok p ∧ 0 < p.2) r → 0 ≤ start → 0 ≤ count → start + count < U64 →
  crosses_boundary r start count = true ↔ cuts r start (start + count) ≠ [].
Proof.
  intros Hok H0 Hc H64. unfold crosses_boundary. unwrap. rewrite existsb_exists.
  assert (cuts r start (start + count) ≠ [] ↔
          ∃ c, c ∈ boundaries r ∧ start < c < start + count) as ->.
  { split.
    - destruct (cuts _ _ _) as [|c cs] eqn:E; [done|]. intros _. exists c.
      assert (c ∈ cuts r start (start + count)) as Hin by (rewrite E; left).
      by apply list_elem_of_filter in Hin as [Hb Hin].
    - intros (c & Hin & Hb) Hnil. apply (not_elem_of_nil c). rewrite <-Hnil.
      by apply list_elem_of_filter. }
  setoid_rewrite (boundaries_elem r _ Hok). split.
  - intros ([s l] & Hin%list_elem_of_In & Hb). pose proof Hok as Hf. rewrite Forall_forall in Hf.
    destruct (Hf _ Hin) as [(? & ? & ?) ?]. simpl in *. revert Hb. unwrap.
    rewrite orb_true_iff, !andb_true_iff, !bool_decide_eq_true.
    intros [[? ?]|[? ?]]; [exists s|exists (s + l)]; (split; [by exists s, l; auto|lia]).
  - intros (c & (s & l & Hin & Hcc) & Hb). exists (s, l). split; [by apply list_elem_of_In|].
    pose proof Hok as Hf. rewrite Forall_forall in Hf.
    destruct (Hf _ Hin) as [(? & ? & ?) ?]. simpl in *. unwrap.
    rewrite orb_true_iff, !andb_true_iff, !bool_decide_eq_true. lia.
Qed.

(** A run with an interior boundary of a normal list is not uniform. *)
Lemma boundary_not_uniform r start count c :
  normal r → c ∈ boundaries r → start < c < start + count → ¬ uniform r (start, count).
Proof.
  intros Hn Hb Hc Hu. apply boundaries_elem in Hb as (s & l & Hin & Hcc); [|apply Hn].
  assert (range_ok (s, l) ∧ 0 < l) as [(H1 & H2 & H3) Hl].
  { pose proof (n_ok _ Hn) as Hf. rewrite Forall_forall in Hf. apply (Hf _ Hin). }
  cbn [fst snd] in *.
  assert (¬ covered r (s - 1) ∧ ¬ covered r (s + l)) as [Hbef Haft].
  { clear Hc Hcc Hu. induction r as [|p r IH]; [by apply not_elem_of_nil in Hin|].
    destruct (normal_head _ _ Hn) as ((Hp1 & Hp2 & Hp3) & Hp4 & Hsep).
    rewrite !covered_cons. apply elem_of_cons in Hin as [<-|Hin]; cbn [fst snd] in *.
    - split; (intros [?|(s' & l' & Hin' & Hx)]; [lia|]);
        specialize (Hsep _ Hin'); simpl in Hsep; lia.
    - destruct (IH (normal_cons _ _ Hn) Hin). specialize (Hsep _ Hin). simpl in Hsep.
      split; (intros [?|?]; [lia|done]). }
  destruct Hcc as [->| ->].
  - assert (covered r s) as Hs by (exists s, l; split; [done|lia]).
    apply Hbef. apply (Hu (s - 1)); [simpl; lia|]. by apply (Hu s); [simpl; lia|].
  - assert (covered r (s + l - 1)) as Hs by (exists s, l; split; [done|lia]).
    apply Haft. apply (Hu (s + l)); [simpl; lia|]. by apply (Hu (s + l - 1)); [simpl; lia|].
Qed.

(** ** Counting *)

(** The covered blocks as a finite set. *)
Definition blocks_of (r : list (Z * Z)) : gset Z :=
  list_to_set (concat (map (λ '(s, l), seqZ s l) r)).

Lemma elem_of_blocks_of r x : x ∈ blocks_of r ↔ covered r x.
Proof.
  unfold blocks_of. rewrite elem_of_list_to_set. induction r as [|[s l] r IH].
  - simpl. split; [intros H; by apply not_elem_of_nil in H|intros H; by apply covered_nil in H].
  - cbn [map concat]. rewrite elem_of_app, elem_of_seqZ, IH, covered_cons. done.
Qed.

Lemma lba_count_fold r acc :
  normal r → 0 ≤ acc → (∀ p, p ∈ r → acc ≤ p.1) →
  foldl (λ acc p, u64_add acc p.2) acc r = acc + Z.of_nat (size (blocks_of r)).
Proof.
  revert acc. induction r as [|[s l] r IH]; intros acc Hn H0 Hle; cbn [foldl].
  { unfold blocks_of. cbn [map concat list_to_set]. rewrite size_empty. lia. }
  destruct (normal_head _ _ Hn) as ((H1 & H2 & H3) & Hl & Hsep). cbn [fst snd] in *.
  pose proof (Hle (s, l) (list_elem_of_here _ _)) as Hs. simpl in Hs. unwrap.
  rewrite IH; [|by eapply normal_cons|lia|].
  - replace (blocks_of ((s, l) :: r)) with (list_to_set (seqZ s l) ∪ blocks_of r)
      by (unfold blocks_of; cbn [map concat]; by rewrite list_to_set_app_L).
    rewrite size_union, size_list_to_set, length_seqZ; [lia|apply NoDup_seqZ|].
    intros x Hx%elem_of_list_to_set%elem_of_seqZ (s' & l' & Hin & Hx')%elem_of_blocks_of.
    specialize (Hsep _ Hin). simpl in Hsep. lia.
  - intros p Hp. specialize (Hsep p Hp). lia.
Qed.

(** ** Properties *)

(** [JournalRanges::new] normalises: for any ranges that fit the address
    space the result is sorted with a gap between consecutive ranges, denotes
    exactly the blocks of the input, [contains] (a binary search) decides
    membership of the input's ranges, and [lba_count] is the number of distinct
    blocks. *)
Theorem journal_new_exact ranges :
  Forall range_ok ranges →
  let r := jr_new ranges in
  normal r ∧ (∀ x, contains r x = true ↔ covered ranges x) ∧
  lba_count r = Z.of_nat (size (blocks_of ranges)).
Proof.
  intros Hok r. destruct (jr_new_spec ranges Hok) as [Hn Hc]. fold r in Hn, Hc.
  split_and!; [done| |].
  - intros x. by rewrite contains_spec by done.
  - unfold lba_count. rewrite lba_count_fold; [|done|done|].
    + assert (blocks_of r = blocks_of ranges) as ->; [|done].
      apply set_eq. intros x. by rewrite !elem_of_blocks_of.
    + intros p Hp. pose proof (n_ok _ Hn) as Hf. rewrite Forall_forall in Hf.
      apply (Hf _ Hp).
Qed.

(** The split, its runs, and the crossing test, against one another. *)
Lemma split_full r start count :
  normal r → 0 ≤ start → 0 < count < U32 → start + count < U64 →
  let runs := split_at_boundaries r start count in
  tiles start (start + count) runs ∧ Forall (uniform r) runs ∧
  (crosses_boundary r start count = true ↔ ¬ uniform r (start, count)) ∧
  (crosses_boundary r start count = false ↔ runs = [(start, count)]).
Proof.
  intros Hn H0 Hc H64 runs. destruct (split_spec r start count Hn H0 Hc H64) as (Ht & Hu & Hlen).
  fold runs in Ht, Hu, Hlen.
  pose proof (crosses_boundary_cuts r start count (n_ok _ Hn) H0 ltac:(lia) H64) as Hx.
  assert (runs = [(start, count)] ↔ cuts r start (start + count) = []) as Hr.
  { split.
    - intros Hr. rewrite Hr in Hlen. simpl in Hlen.
      by destruct (cuts r start (start + count)).
    - intros Hr. rewrite Hr in Hlen. simpl in Hlen.
      destruct runs as [|[s l] [|]]; try done. simpl in Ht. destruct Ht as (-> & _ & Ht).
      do 2 f_equal. lia. }
  split_and!; [done..| |].
  - rewrite Hx. split.
    + intros Hne. destruct (cuts r start (start + count)) as [|c cs] eqn:E; [done|].
      assert (c ∈ cuts r start (start + count)) as Hin by (rewrite E; left).
      apply list_elem_of_filter in Hin as [Hb Hin]. by eapply boundary_not_uniform.
    + intros Hnu Hnil. apply Hr in Hnil. rewrite Hnil in Hu. by apply Forall_cons in Hu as [? _].
  - rewrite Hr, <-not_true_iff_false, Hx. split; [|tauto]. intros Hd.
    destruct (cuts r start (start + count)); [done|]. by destruct Hd.
Qed.

Lemma tiles_bounds a b runs s l : tiles a b runs → (s, l) ∈ runs → a ≤ s ∧ 0 < l ∧ s + l ≤ b.
Proof.
  assert (∀ runs a, tiles a b runs → a ≤ b) as Hle.
  { induction runs0 as [|[s' l'] runs0 IH]; intros c; cbn [tiles]; [lia|]. intros (-> & ? & Ht%IH). lia. }
  revert a. induction runs as [|[s' l'] runs IH]; intros a; cbn [tiles]; [by intros _ ?%not_elem_of_nil|].
  intros (-> & Hl & Ht) [[= -> ->]|Hin]%elem_of_cons.
  - apply Hle in Ht. lia.
  - destruct (IH _ Ht Hin). lia.
Qed.

(** A run of a split crosses nothing itself. *)
Lemma split_run_uncrossed r start count s l :
  normal r → 0 ≤ start → 0 < count < U32 → start + count < U64 →
  (s, l) ∈ split_at_boundaries r start count →
  start ≤ s ∧ 0 < l ∧ s + l ≤ start + count ∧ crosses_boundary r s l = false.
Proof.
  intros Hn H0 Hc H64 Hin. destruct (split_full r start count) as (Ht & Hu & _); [done..|].
  destruct (tiles_bounds _ _ _ _ _ Ht Hin) as (? & ? & ?). split_and!; [done..|].
  destruct (split_full r s l) as (_ & _ & Hx & _); [done|lia..|].
  apply not_true_iff_false. rewrite Hx. intros Hnu. apply Hnu.
  by apply (proj1 (Forall_forall _ _) Hu).
Qed.

(** [split_at_boundaries] tiles the write exactly, in order, with non-empty
    runs each lying wholly inside or wholly outside the journal; and
    [crosses_boundary] holds exactly of the writes that are neither, which are
    those the split cuts in more than one run. *)
Theorem split_at_boundaries_exact r start count :
  normal r → 0 ≤ start → 0 < count < U32 → start + count < U64 →
  let runs := split_at_boundaries r start count in
  tiles start (start + count) runs ∧ Forall (uniform r) runs ∧
  (crosses_boundary r start count = true ↔ ¬ uniform r (start, count)) ∧
  (crosses_boundary r start count = false ↔ runs = [(start, count)]).
Proof. intros Hn H0 Hc H64. by apply split_full. Qed.

