(* ===== verification/MapLayers.v ===== *)
(** * The layered maps (elide-core/src/map_layers.rs)

    [base] under the frozen layers under [delta], each a pair of an LBA map and
    an extent index.  Reads resolve the topmost layer; a promote folds a frozen
    layer into a clone of [base] and swaps the clone in later, with guest
    writes landing in between.  A shared [Arc] handle is its value: every
    mutation goes through [Arc::make_mut], which copies a shared map. *)

From stdpp Require Import base gmap list fin_maps.
From S2P Require Import Prelude Segment LbaMap ExtentIndex.
Open Scope Z_scope.

(** ** Data *)

Record Maps := mkMaps { lbamap : LbaMap; extent_index : ExtentIndex }.

Definition maps_empty : Maps := mkMaps lm_new ei_new.

Definition maps_is_empty (m : Maps) : bool :=
  lm_is_empty (lbamap m) && ei_is_empty (extent_index m) && journal_is_empty (extent_index m).

Record FrozenLayer := mkFrozen { wal_ulid : Ulid; fl_maps : Maps }.

Record MapLayers := mkLayers { base : Maps; frozen : list FrozenLayer; delta : Maps }.

Definition ml_new (b : Maps) : MapLayers := mkLayers b [] maps_empty.
Definition delta_is_empty (ls : MapLayers) : bool := maps_is_empty (delta ls).
Definition frozen_depth (ls : MapLayers) : nat := length (frozen ls).

(** The layers above [base], and every layer, newest first. *)
Definition upper (ls : MapLayers) : list Maps := delta ls :: map fl_maps (rev (frozen ls)).
Definition all_layers (ls : MapLayers) : list Maps := upper ls ++ [base ls].

(** ** Reads *)

(** [overlay]'s loop over the top layer's reads, with [rest] filling a gap. *)
Definition fill_gaps (rest : Z → Z → list ExtentRead) (xs : list ExtentRead) (start end_ : Z)
    : list ExtentRead :=
  let '(out, cursor) :=
    foldl (λ '(out, cursor) x,
             ((if decide (cursor < range_start x) then out ++ rest cursor (range_start x) else out)
                ++ [x], range_end x)) ([], start) xs in
  if decide (cursor < end_) then out ++ rest cursor end_ else out.

Fixpoint overlay (layers : list LbaMap) (start end_ : Z) : list ExtentRead :=
  match layers with
  | [] => []
  | top :: rest => fill_gaps (overlay rest) (LbaMap.extents_in_range top start end_) start end_
  end.

Definition extents_in_range (ls : MapLayers) (start_lba end_lba : Z) : list ExtentRead :=
  overlay (map lbamap (all_layers ls)) start_lba end_lba.

Fixpoint upper_full_match (layers : list Maps) (b : Maps) (start_lba end_lba len : Z) (h : Hash)
    : bool :=
  match layers with
  | [] => LbaMap.has_full_match (lbamap b) start_lba len h
  | layer :: rest =>
      match LbaMap.extents_in_range (lbamap layer) start_lba end_lba with
      | [] => upper_full_match rest b start_lba end_lba len h
      | _ :: _ => LbaMap.has_full_match (lbamap layer) start_lba len h
      end
  end.

Definition has_full_match (ls : MapLayers) (start_lba len : Z) (h : Hash) : bool :=
  upper_full_match (upper ls) (base ls) start_lba (u64_add start_lba len) len h.

(** [find_map]. *)
Fixpoint find_map {A B} (f : A → option B) (l : list A) : option B :=
  match l with
  | [] => None
  | x :: l => match f x with Some y => Some y | None => find_map f l end
  end.

Definition lookup_extent (ls : MapLayers) (h : Hash) : option ExtentLocation :=
  find_map (λ m, ExtentIndex.lookup (extent_index m) h) (all_layers ls).
Definition lookup_journal (ls : MapLayers) (s : Ulid) (h : Hash) : option ExtentLocation :=
  find_map (λ m, ExtentIndex.lookup_journal (extent_index m) s h) (all_layers ls).
Definition lookup_delta (ls : MapLayers) (h : Hash) : option DeltaLocation :=
  find_map (λ m, ExtentIndex.lookup_delta (extent_index m) h) (all_layers ls).
Definition journal_is_empty (ls : MapLayers) : bool :=
  forallb (λ m, ExtentIndex.journal_is_empty (extent_index m)) (all_layers ls).

(** ** Fold *)

(** Replay [layer]'s entries over [b]. *)
Definition fold_lbamap (b layer : LbaMap) : LbaMap :=
  foldl (λ m '(lba, len, h, pbo, claimant), insert_with_offset m lba len pbo h claimant)
        b (iter_entries_with_claimant layer).

Definition fold_inner (b : ExtentIndex) (layer : list (Hash * ExtentLocation)) : ExtentIndex :=
  foldl (λ ix '(h, loc), (insert_if_absent ix h loc).1) b layer.

Definition fold_journal (b : ExtentIndex) (layer : list (Ulid * Hash * ExtentLocation))
    : ExtentIndex :=
  foldl (λ ix '(s, h, loc), (insert_journal_if_absent ix s h loc).1) b layer.

Definition fold_index (b layer : ExtentIndex) : ExtentIndex :=
  fold_journal (fold_inner b (map_to_list (inner layer))) (journal_iter layer).

Definition fold_maps (b layer : Maps) : Maps :=
  mkMaps (fold_lbamap (lbamap b) (lbamap layer)) (fold_index (extent_index b) (extent_index layer)).

(** ** Epochs *)

Definition freeze (ls : MapLayers) (w : Ulid) : MapLayers :=
  if delta_is_empty ls then ls
  else mkLayers (base ls) (frozen ls ++ [mkFrozen w (delta ls)]) maps_empty.

Definition fold_frozen (b : Maps) (fs : list FrozenLayer) : Maps :=
  foldl (λ b l, fold_maps b (fl_maps l)) b fs.

Definition absorb (ls : MapLayers) : MapLayers :=
  let b := fold_frozen (base ls) (frozen ls) in
  if delta_is_empty ls then mkLayers b [] (delta ls)
  else mkLayers (fold_maps b (delta ls)) [] maps_empty.

Definition materialised (ls : MapLayers) : Maps :=
  if bool_decide (frozen ls = []) && delta_is_empty ls then base ls
  else
    let b := fold_frozen (base ls) (frozen ls) in
    if delta_is_empty ls then b else fold_maps b (delta ls).

(** [apply], the mutation a fold runs over its clone. *)
Definition Apply := Maps → io Maps.

Definition with_wal (w : Ulid) (l : FrozenLayer) : bool := bool_decide (wal_ulid l = w).

Definition fold_promote (ls : MapLayers) (w : Ulid) (apply : Apply) : io Maps :=
  let maps := match List.find (with_wal w) (frozen ls) with
              | Some layer => fold_maps (base ls) (fl_maps layer)
              | None => base ls
              end in
  apply maps.

Definition swap_base (ls : MapLayers) (new_base : Maps) : MapLayers :=
  mkLayers new_base (frozen ls) (delta ls).

Definition swap_promote (ls : MapLayers) (new_base : Maps) (w : Ulid) : MapLayers :=
  let ls := swap_base ls new_base in
  mkLayers (base ls) (filter (λ l, wal_ulid l ≠ w) (frozen ls)) (delta ls).

Definition fold_base (ls : MapLayers) (apply : Apply) : io Maps := apply (base ls).

Definition below (ls : MapLayers) (u : Ulid) : Maps :=
  fold_frozen (base ls) (filter (λ l, wal_ulid l < u) (frozen ls)).

Definition fold_below (ls : MapLayers) (u : Ulid) (apply : Apply) : io Maps := apply (below ls u).

Definition swap_below (ls : MapLayers) (new_base : Maps) (u : Ulid) : MapLayers :=
  let ls := swap_base ls new_base in
  mkLayers (base ls) (filter (λ l, u ≤ wal_ulid l) (frozen ls)) (delta ls).

Definition with_base (ls : MapLayers) (b : Maps) : MapLayers := mkLayers b (frozen ls) (delta ls).

Definition above (ls : MapLayers) (u : Ulid) (b : Maps) : MapLayers :=
  let ls := with_base ls b in
  mkLayers (base ls) (filter (λ l, u ≤ wal_ulid l) (frozen ls)) (delta ls).

Definition delta_claims_any (ls : MapLayers) (hashes : gset Hash) : option Hash :=
  List.find (λ h, bool_decide (h ∈ hashes)) (map_to_list (claim_counts (lbamap (delta ls)))).*1.

(** The write path's targets, and [base] for mutation with every layer
    absorbed first. *)
Definition delta_lbamap_mut (ls : MapLayers) (f : LbaMap → LbaMap) : MapLayers :=
  mkLayers (base ls) (frozen ls) (mkMaps (f (lbamap (delta ls))) (extent_index (delta ls))).
Definition delta_extent_index_mut (ls : MapLayers) (f : ExtentIndex → ExtentIndex) : MapLayers :=
  mkLayers (base ls) (frozen ls) (mkMaps (lbamap (delta ls)) (f (extent_index (delta ls)))).
Definition base_mut (ls : MapLayers) (f : Maps → Maps) : MapLayers :=
  let ls := absorb ls in mkLayers (f (base ls)) (frozen ls) (delta ls).
