(* ===== verification/MapLayersSpec.v ===== *)
(** * The layered maps resolve like one map

    Every layer operation is read through [layered_view], the topmost layer's
    block: reads return it, freezing, absorbing and the two-phase promote and
    base folds preserve it, whatever the writes in between. *)

From stdpp Require Import base gmap list sorting fin_maps.
From S2P Require Import Prelude Segment LbaMap LbaMapFacts LbaMapSpec ExtentIndex ExtentIndexSpec.
From S2P Require Import MapLayers.
Open Scope Z_scope.

(** ** The layered view *)

Definition top_view (ms : list LbaMap) (lba : Z) : option Cell := find_map (λ m, view m lba) ms.
Definition layered_view (ls : MapLayers) (lba : Z) : option Cell :=
  top_view (map lbamap (all_layers ls)) lba.

Record layers_ok (N : Z) (ls : MapLayers) : Prop := {
  lo_base : lm_wf N (lbamap (base ls));
  lo_frozen : Forall (λ l, lm_wf N (lbamap (fl_maps l))) (frozen ls);
  lo_delta : lm_wf N (lbamap (delta ls))
}.

Lemma find_map_app {A B} (f : A → option B) l1 l2 :
  find_map f (l1 ++ l2) = match find_map f l1 with Some y => Some y | None => find_map f l2 end.
Proof. induction l1 as [|x l1 IH]; [done|]. simpl. by destruct (f x). Qed.

Lemma find_map_map {A B C} (g : A → B) (f : B → option C) l :
  find_map f (map g l) = find_map (λ x, f (g x)) l.
Proof. induction l as [|x l IH]; [done|]. simpl. by rewrite IH. Qed.

Lemma find_map_is_Some {A B} (f : A → option B) l :
  is_Some (find_map f l) ↔ ∃ x, x ∈ l ∧ is_Some (f x).
Proof.
  induction l as [|x l IH]; simpl.
  - split; [by intros [? ?]|]. intros (x & Hx & _). by apply not_elem_of_nil in Hx.
  - setoid_rewrite elem_of_cons. destruct (f x) as [y|] eqn:Hy.
    + split; [|by eexists]. intros _. exists x. split; [by left|by eexists].
    + rewrite IH. split; [naive_solver|]. intros (z & [->|Hz] & Hs); [|by eauto].
      rewrite Hy in Hs. by destruct Hs.
Qed.

(** The first hit over the upper layers, over any base reading. *)
Lemma find_map_layers {B} (f : Maps → option B) ls :
  find_map f (all_layers ls) =
  match f (delta ls) with
  | Some y => Some y
  | None => match find_map (λ l, f (fl_maps l)) (rev (frozen ls)) with
            | Some y => Some y
            | None => f (base ls)
            end
  end.
Proof.
  unfold all_layers, upper. simpl. destruct (f (delta ls)); [done|].
  rewrite find_map_app, find_map_map. simpl. by destruct (f (base ls)).
Qed.

Lemma layered_view_eq ls lba :
  layered_view ls lba =
  match view (lbamap (delta ls)) lba with
  | Some y => Some y
  | None => match find_map (λ l, view (lbamap (fl_maps l)) lba) (rev (frozen ls)) with
            | Some y => Some y
            | None => view (lbamap (base ls)) lba
            end
  end.
Proof. unfold layered_view, top_view. rewrite find_map_map. apply find_map_layers. Qed.

(** ** Reads *)

(** [rest] reads [f] exactly on every sub-range of [0, N). *)
Definition reads_exactly (N : Z) (rest : Z → Z → list ExtentRead) (f : Z → option Cell) : Prop :=
  ∀ s t, 0 ≤ s < t → t ≤ N →
    reads_sorted s t (rest s t) ∧ ∀ lba, s ≤ lba < t → read_at (rest s t) lba = f lba.

Lemma reads_sorted_snoc s x xs :
  reads_sorted s (range_start x) xs → range_start x < range_end x →
  reads_sorted s (range_end x) (xs ++ [x]).
Proof. intros Hs Hx. eapply reads_sorted_app; [exact Hs|]. simpl. lia. Qed.

Lemma read_at_outside cur t xs lba : reads_sorted cur t xs → ¬ (cur ≤ lba < t) → read_at xs lba = None.
Proof.
  intros Hs Hn. destruct (read_at xs lba) as [c|] eqn:Hc; [|done].
  by eapply read_at_bounds in Hc.
Qed.

(** What the loop has emitted for [s, cur), given what remains of the top reads. *)
Definition emitted (s cur : Z) (out : list ExtentRead) (g : Z → option Cell) : Prop :=
  reads_sorted s cur out ∧ ∀ lba, s ≤ lba < cur → read_at out lba = g lba.

Lemma emitted_gap N rest f g s cur b out :
  reads_exactly N rest f → emitted s cur out g → 0 ≤ s → s ≤ cur ≤ b → b ≤ N →
  (∀ lba, cur ≤ lba < b → g lba = f lba) →
  emitted s b (if decide (cur < b) then out ++ rest cur b else out) g.
Proof.
  intros Hrest [Ho Hg] H0 Hb HN Hgap. case_decide as Hc.
  - destruct (Hrest cur b) as [Hs Hr]; [lia..|]. split; [by eapply reads_sorted_app|].
    intros lba Hl. rewrite read_at_app. destruct (decide (lba < cur)).
    + rewrite Hg by lia. destruct (g lba); [done|]. by rewrite (read_at_outside _ _ _ _ Hs) by lia.
    + rewrite (read_at_outside _ _ _ _ Ho) by lia. rewrite Hr by lia. symmetry. apply Hgap. lia.
  - replace b with cur by lia. by split.
Qed.

Lemma fill_loop N rest f xs s cur t out :
  reads_exactly N rest f → 0 ≤ s ≤ cur → t ≤ N → reads_sorted cur t xs →
  let g lba := match read_at xs lba with Some c => Some c | None => f lba end in
  reads_sorted s cur out →
  let '(out', cursor) :=
    foldl (λ '(out, cursor) x,
             ((if decide (cursor < range_start x) then out ++ rest cursor (range_start x) else out)
                ++ [x], range_end x)) (out, cur) xs in
  let res := if decide (cursor < t) then out' ++ rest cursor t else out' in
  reads_sorted s t res ∧
  ∀ lba, s ≤ lba < t →
    read_at res lba = if decide (lba < cur) then read_at out lba else g lba.
Proof.
  intros Hrest H0 HN Hxs g Ho. revert cur out H0 Hxs Ho g.
  induction xs as [|x xs IH]; intros cur out H0 Hxs Ho g.
  - cbn [foldl]. destruct (emitted_gap N rest f
      (λ lba, if decide (lba < cur) then read_at out lba else f lba) s cur t out) as [Hr Hv];
      [done| |lia|simpl in Hxs; lia|done| |].
    + split; [done|]. intros lba Hl. by rewrite decide_True by lia.
    + intros lba Hl. by rewrite decide_False by lia.
    + by split.
  - destruct Hxs as (Hx1 & Hx2 & Hxs). cbn [foldl].
    pose proof (reads_sorted_le _ _ _ Hxs) as Hle.
    destruct (emitted_gap N rest f
      (λ lba, if decide (lba < cur) then read_at out lba else f lba) s cur (range_start x) out)
      as [Hr Hv]; [done| |lia|lia|lia| |].
    { split; [done|]. intros lba Hl. by rewrite decide_True by lia. }
    { intros lba Hl. by rewrite decide_False by lia. }
    set (out1 := if decide (cur < range_start x) then _ else _) in *.
    specialize (IH (range_end x) (out1 ++ [x]) ltac:(lia) Hxs (reads_sorted_snoc _ _ _ Hr Hx2)).
    destruct (foldl _ _ xs) as [out' cursor]. destruct IH as [IH1 IH2]. split; [done|].
    intros lba Hl. rewrite IH2 by done. rewrite read_at_app. unfold g. cbn [read_at].
    destruct (decide (lba < range_end x)) as [He|He].
    + destruct (decide (range_start x ≤ lba)).
      * rewrite (read_at_outside _ _ _ _ Hr) by lia. by repeat (case_decide; try lia).
      * rewrite Hv by lia. rewrite (read_at_outside _ _ _ _ Hxs) by lia.
        repeat (case_decide; try lia); repeat case_match; congruence.
    + by repeat (case_decide; try lia).
Qed.

Lemma overlay_exact N ms : Forall (lm_wf N) ms → reads_exactly N (overlay ms) (top_view ms).
Proof.
  induction 1 as [|m ms Hm _ IH]; intros s t Hst HN.
  { simpl. split; [lia|done]. }
  cbn [overlay]. unfold fill_gaps.
  destruct (rr_exact (RangeReader := lba_map_reader) N m s t Hm Hst HN) as [Hs Hv]. cbn [rr_extents rr_view lba_map_reader] in *.
  pose proof (fill_loop N (overlay ms) (top_view ms) _ s s t [] IH ltac:(lia) HN Hs
                (Z.le_refl s)) as Hl.
  destruct (foldl _ _ _) as [out cursor]. destruct Hl as [Hl1 Hl2]. split; [done|].
  intros lba Hlba. rewrite Hl2, decide_False, Hv by lia. done.
Qed.

Lemma layers_ok_all N ls : layers_ok N ls → Forall (lm_wf N) (map lbamap (all_layers ls)).
Proof.
  intros [Hb Hf Hd]. unfold all_layers, upper. rewrite map_app, Forall_app. simpl.
  split; [constructor; [done|]|by apply Forall_singleton].
  rewrite map_map. rewrite Forall_forall in Hf. rewrite Forall_forall. intros m (l & -> & Hl)%list_elem_of_fmap.
  apply Hf. by apply list_elem_of_In, in_rev, list_elem_of_In in Hl.
Qed.

#[export] Instance map_layers_reader : RangeReader MapLayers := {
  rr_ok := layers_ok;
  rr_view := layered_view;
  rr_extents := extents_in_range;
  rr_exact N ls s t Hok Hst Ht := overlay_exact N _ (layers_ok_all N ls Hok) s t Hst Ht
}.

(** ** Folding a layer into the base *)

Definition replay (m : LbaMap) (p : Z * MapEntry) : LbaMap :=
  insert_with_offset m p.1 (lba_length p.2) (payload_block_offset p.2) (me_hash p.2)
    (claimant_ulid p.2).

Lemma fold_lbamap_replay b layer : fold_lbamap b layer = foldl replay b (om_iter (LbaMap.inner layer)).
Proof.
  unfold fold_lbamap, iter_entries_with_claimant. generalize b.
  induction (om_iter (LbaMap.inner layer)) as [|[k e] l IH]; intros m; [done|]. simpl. apply IH.
Qed.

Lemma replay_spec N layer l m :
  lm_wf N layer → (∀ k e, (k, e) ∈ l → LbaMap.inner layer !! k = Some e) → lm_wf N m →
  lm_wf N (foldl replay m l) ∧
  (∀ k e lba, (k, e) ∈ l → k ≤ lba < k + lba_length e →
     view (foldl replay m l) lba = Some (cell_of k e lba)) ∧
  (∀ lba, (∀ k e, (k, e) ∈ l → ¬ k ≤ lba < k + lba_length e) →
     view (foldl replay m l) lba = view m lba).
Proof.
  intros Hlay. revert m. induction l as [|[k e] l IH]; intros m Hl Hm; cbn [foldl].
  { split_and!; [done| |done]. intros k e lba Hin. by apply not_elem_of_nil in Hin. }
  pose proof (Hl k e (list_elem_of_here _ _)) as He.
  destruct (wf_entry _ _ Hlay _ _ He) as (E1 & E2 & E3 & E4 & E5).
  destruct (insert_inner_view N m k (lba_length e) (payload_block_offset e) (me_hash e)
              (claimant_ulid e)) as [Hm' Hv]; [done|lia..|].
  destruct (IH (replay m (k, e))) as (IH1 & IH2 & IH3); [|done|].
  { intros k' e' Hin. apply Hl. by right. }
  assert (∀ k' e' lba, (k', e') ∈ l → k' ≤ lba < k' + lba_length e' → k ≤ lba < k + lba_length e →
            k' = k ∧ e' = e) as Hsame.
  { intros k' e' lba Hin H1 H2. pose proof (Hl k' e' (list_elem_of_further _ _ _ Hin)) as He'.
    pose proof (wf_disjoint _ _ Hlay) as Hd.
    destruct (Z.lt_total k k') as [Hlt|[->|Hlt]].
    - specialize (Hd _ _ _ _ He He' Hlt). lia.
    - split; congruence.
    - specialize (Hd _ _ _ _ He' He Hlt). lia. }
  split_and!; [done| |].
  - intros k' e' lba [[= -> ->]|Hin]%elem_of_cons Hlba; [|by apply IH2].
    destruct (decide (Exists (λ p, p.1 ≤ lba < p.1 + lba_length p.2) l)) as [Hex|Hex].
    + apply Exists_exists in Hex as ([k' e'] & Hin & Hc). simpl in Hc.
      destruct (Hsame k' e' lba Hin Hc Hlba) as [-> ->]. by apply IH2.
    + rewrite IH3.
      * unfold replay, insert_with_offset. simpl. rewrite Hv, decide_True by lia. done.
      * intros k' e' Hin Hc. apply Hex, Exists_exists. by exists (k', e').
  - intros lba Hn. rewrite IH3.
    + unfold replay, insert_with_offset. simpl. rewrite Hv, decide_False; [done|].
      apply Hn, list_elem_of_here.
    + intros k' e' Hin. apply Hn. by right.
Qed.

Lemma fold_lbamap_spec N b layer :
  lm_wf N b → lm_wf N layer →
  lm_wf N (fold_lbamap b layer) ∧
  ∀ lba, view (fold_lbamap b layer) lba =
    match view layer lba with Some c => Some c | None => view b lba end.
Proof.
  intros Hb Hl. rewrite fold_lbamap_replay.
  destruct (replay_spec N layer (om_iter (LbaMap.inner layer)) b Hl) as (Hw & Hin & Hout);
    [by intros k e He%elem_of_om_iter|done|].
  split; [done|]. intros lba. destruct (view layer lba) as [c|] eqn:Hv.
  - apply (view_Some _ _ _ _ Hl) in Hv as (k & e & He & Hk & ->). apply Hin; [|done].
    by apply elem_of_om_iter.
  - apply Hout. intros k e He%elem_of_om_iter Hk. pose proof (proj1 (view_None _ _ _ Hl) Hv) as Hn.
    apply (Hn (cell_of k e lba)). by exists k, e.
Qed.

Lemma fold_frozen_spec N b fs :
  lm_wf N (lbamap b) → Forall (λ l, lm_wf N (lbamap (fl_maps l))) fs →
  lm_wf N (lbamap (fold_frozen b fs)) ∧
  ∀ lba, view (lbamap (fold_frozen b fs)) lba =
    match find_map (λ l, view (lbamap (fl_maps l)) lba) (rev fs) with
    | Some c => Some c
    | None => view (lbamap b) lba
    end.
Proof.
  intros Hb Hf. revert b Hb. induction Hf as [|l fs Hl Hf IH]; intros b Hb; [done|].
  cbn [fold_frozen foldl rev].
  destruct (fold_lbamap_spec N (lbamap b) (lbamap (fl_maps l)) Hb Hl) as [Hb' Hv].
  destruct (IH (fold_maps b (fl_maps l)) Hb') as [Hw Hview]. split; [done|].
  intros lba. unfold fold_frozen in Hview. rewrite Hview, find_map_app. cbn [find_map].
  unfold fold_maps. cbn [lbamap]. rewrite Hv.
  destruct (find_map _ (rev fs)); [done|]. by destruct (view (lbamap (fl_maps l)) lba).
Qed.

(** ** The index side of a fold *)

Definition over {A} (b layer : option A) : option A := match b with Some x => Some x | None => layer end.

Lemma fold_inner_spec b l :
  NoDup l.*1 →
  (∀ h, inner (fold_inner b l) !! h = over (inner b !! h) ((list_to_map l : gmap Hash ExtentLocation) !! h)) ∧
  deltas (fold_inner b l) = deltas b ∧ journal (fold_inner b l) = journal b.
Proof.
  revert b. induction l as [|[h0 loc] l IH]; intros b Hnd.
  { split; [|done]. intros h. simpl. rewrite lookup_empty. by destruct (_ !! _). }
  inversion Hnd as [|? ? Hni Hnd']; subst. cbn [fold_inner foldl].
  change (foldl _ ?c l) with (fold_inner c l).
  destruct (IH (insert_if_absent b h0 loc).1 Hnd') as (Hi & Hd & Hj).
  split_and!.
  - intros h. rewrite Hi. cbn [list_to_map foldr uncurry]. unfold insert_if_absent.
    destruct (decide (h0 = h)) as [->|Hne].
    + rewrite lookup_insert_eq. destruct (inner b !! h) as [x|] eqn:Hx; simpl.
      * by rewrite Hx.
      * by rewrite lookup_insert_eq.
    + rewrite lookup_insert_ne by done.
      destruct (inner b !! h0); simpl; [done|]. by rewrite lookup_insert_ne.
  - rewrite Hd. unfold insert_if_absent. by destruct (inner b !! h0).
  - rewrite Hj. unfold insert_if_absent. by destruct (inner b !! h0).
Qed.

Lemma lookup_journal_insert_if_absent ix s h loc s' h' :
  ExtentIndex.lookup_journal (insert_journal_if_absent ix s h loc).1 s' h' =
  over (ExtentIndex.lookup_journal ix s' h') (if decide (s = s' ∧ h = h') then Some loc else None).
Proof.
  unfold ExtentIndex.lookup_journal, insert_journal_if_absent, journal_of.
  destruct (journal ix !! s) as [seg|] eqn:Hs; simpl.
  - destruct (seg !! h) as [x|] eqn:Hh; simpl.
    + rewrite insert_id by done. destruct (decide (s = s' ∧ h = h')) as [[<- <-]|_].
      * by rewrite Hs, Hh.
      * destruct (journal ix !! s'); [|done]. by destruct (_ !! h').
    + rewrite lookup_insert. case_decide as Hss; [subst s'|].
      * rewrite Hs, lookup_insert. destruct (decide (h = h')) as [<-|].
        { by rewrite Hh, decide_True. }
        rewrite decide_False by tauto. by destruct (seg !! h').
      * rewrite decide_False by tauto. destruct (journal ix !! s'); [|done]. by destruct (_ !! h').
  - rewrite lookup_empty. simpl. rewrite lookup_insert. case_decide as Hss; [subst s'|].
    + rewrite Hs. simpl. rewrite lookup_insert, lookup_empty.
      destruct (decide (h = h')) as [<-|]; [by rewrite decide_True|by rewrite decide_False by tauto].
    + rewrite decide_False by tauto. destruct (journal ix !! s'); [|done]. by destruct (_ !! h').
Qed.

Lemma fold_journal_spec b l :
  inner (fold_journal b l) = inner b ∧ deltas (fold_journal b l) = deltas b ∧
  ∀ s h, is_Some (ExtentIndex.lookup_journal (fold_journal b l) s h) ↔
         is_Some (ExtentIndex.lookup_journal b s h) ∨ ∃ loc, (s, h, loc) ∈ l.
Proof.
  revert b. induction l as [|[[s0 h0] loc] l IH]; intros b; cbn [fold_journal foldl].
  { split_and!; [done..|]. intros s h. split; [by left|]. intros [?|[loc Hl]]; [done|].
    by apply not_elem_of_nil in Hl. }
  change (foldl _ ?c l) with (fold_journal c l).
  destruct (IH (insert_journal_if_absent b s0 h0 loc).1) as (Hi & Hd & Hj). split_and!.
  - rewrite Hi. unfold insert_journal_if_absent. by destruct (_ !! h0).
  - rewrite Hd. unfold insert_journal_if_absent. by destruct (_ !! h0).
  - intros s h. rewrite Hj, lookup_journal_insert_if_absent. setoid_rewrite elem_of_cons.
    destruct (ExtentIndex.lookup_journal b s h) as [x|]; cbn [over].
    + split; intros _; left; by eexists.
    + case_decide as Hsh; [destruct Hsh as [<- <-]|]; naive_solver.
Qed.

Lemma elem_of_journal_iter ix s h loc :
  (s, h, loc) ∈ journal_iter ix ↔ ExtentIndex.lookup_journal ix s h = Some loc.
Proof.
  unfold journal_iter, ExtentIndex.lookup_journal.
  rewrite list_elem_of_In, in_concat. setoid_rewrite <-list_elem_of_In. split.
  - intros (xs & ([s' seg] & -> & Hs%elem_of_map_to_list)%list_elem_of_fmap & Hin).
    apply list_elem_of_fmap in Hin as ([h' loc'] & [= -> -> ->] & Hh%elem_of_map_to_list).
    by rewrite Hs.
  - destruct (journal ix !! s) as [seg|] eqn:Hs; [|done]. intros Hh.
    eexists. split.
    + apply list_elem_of_fmap. exists (s, seg). split; [done|]. by apply elem_of_map_to_list.
    + apply list_elem_of_fmap. exists (h, loc). split; [done|]. by apply elem_of_map_to_list.
Qed.

Lemma fold_index_spec b layer :
  (∀ h, inner (fold_index b layer) !! h = over (inner b !! h) (inner layer !! h)) ∧
  deltas (fold_index b layer) = deltas b ∧
  ∀ s h, is_Some (ExtentIndex.lookup_journal (fold_index b layer) s h) ↔
         is_Some (ExtentIndex.lookup_journal b s h) ∨
         is_Some (ExtentIndex.lookup_journal layer s h).
Proof.
  unfold fold_index.
  destruct (fold_inner_spec b (map_to_list (inner layer)) (NoDup_fst_map_to_list _)) as (Hi & Hd & Hj).
  destruct (fold_journal_spec (fold_inner b (map_to_list (inner layer))) (journal_iter layer))
    as (Hi' & Hd' & Hj'). split_and!.
  - intros h. by rewrite Hi', Hi, list_to_map_to_list.
  - by rewrite Hd', Hd.
  - intros s h. rewrite Hj'. setoid_rewrite elem_of_journal_iter.
    unfold ExtentIndex.lookup_journal at 1. rewrite Hj. done.
Qed.

(** ** Stacks of layers that resolve alike

    [same_stack π] relates two stacks, newest layer first, that agree on every
    block (up to the projection [π] of a block's resolution), on which hashes
    have a durable or a journal body, and on every thin-delta location. *)

Section stacks.
Context {A : Type} (π : Cell → A).
Implicit Types s u : list Maps.

Record same_stack s s' : Prop := {
  ss_view : ∀ lba, π <$> top_view (map lbamap s) lba = π <$> top_view (map lbamap s') lba;
  ss_extent : ∀ h, is_Some (find_map (λ m, ExtentIndex.lookup (extent_index m) h) s) ↔
                   is_Some (find_map (λ m, ExtentIndex.lookup (extent_index m) h) s');
  ss_journal : ∀ g h, is_Some (find_map (λ m, ExtentIndex.lookup_journal (extent_index m) g h) s) ↔
                      is_Some (find_map (λ m, ExtentIndex.lookup_journal (extent_index m) g h) s');
  ss_delta : ∀ h, find_map (λ m, ExtentIndex.lookup_delta (extent_index m) h) s =
                  find_map (λ m, ExtentIndex.lookup_delta (extent_index m) h) s'
}.

#[global] Instance same_stack_equiv : Equivalence same_stack.
Proof.
  split.
  - by intros s.
  - intros s s' [Hv He Hj Hd]. split; intros; [by rewrite Hv|by rewrite He|by rewrite Hj|by rewrite Hd].
  - intros s s' s'' [Hv He Hj Hd] [Hv' He' Hj' Hd']. split; intros;
      [by rewrite Hv|by rewrite He|by rewrite Hj|by rewrite Hd].
Qed.

(** Putting the same layers on top of equivalent stacks. *)
#[global] Instance app_same_stack : Proper (eq ==> same_stack ==> same_stack) app.
Proof.
  intros u ? <- s s' [Hv He Hj Hd]. split.
  - intros lba. unfold top_view in *. rewrite !map_app, !find_map_app.
    by destruct (find_map _ (map lbamap u)).
  - intros h. rewrite !find_map_app. destruct (find_map _ u); [split; intros _; by eexists|done].
  - intros g h. rewrite !find_map_app. destruct (find_map _ u); [split; intros _; by eexists|done].
  - intros h. rewrite !find_map_app. by destruct (find_map _ u).
Qed.

Lemma same_stack_fold N b x :
  lm_wf N (lbamap b) → lm_wf N (lbamap x) → deltas (extent_index x) = ∅ →
  same_stack [x; b] [fold_maps b x].
Proof.
  intros Hb Hx Hdx. destruct (fold_lbamap_spec N _ _ Hb Hx) as [_ Hv].
  destruct (fold_index_spec (extent_index b) (extent_index x)) as (Hi & Hd & Hj).
  split; unfold top_view; simpl.
  - intros lba. rewrite Hv. by destruct (view (lbamap x) lba), (view (lbamap b) lba).
  - intros h. unfold ExtentIndex.lookup. rewrite Hi.
    destruct (inner (extent_index b) !! h), (inner (extent_index x) !! h); simpl; naive_solver.
  - intros g h. specialize (Hj g h). revert Hj.
    destruct (ExtentIndex.lookup_journal (fold_index _ _) g h),
      (ExtentIndex.lookup_journal (extent_index b) g h),
      (ExtentIndex.lookup_journal (extent_index x) g h); naive_solver.
  - intros h. unfold ExtentIndex.lookup_delta. by rewrite Hd, Hdx, lookup_empty.
Qed.

(** What a layer above the base has to satisfy. *)
Definition plain (N : Z) (m : Maps) : Prop := lm_wf N (lbamap m) ∧ deltas (extent_index m) = ∅.

Lemma fold_frozen_stack N b fs :
  lm_wf N (lbamap b) → Forall (λ l, plain N (fl_maps l)) fs →
  lm_wf N (lbamap (fold_frozen b fs)) ∧
  same_stack (map fl_maps (rev fs) ++ [b]) [fold_frozen b fs].
Proof.
  intros Hb Hf. revert b Hb. induction Hf as [|l fs [Hl Hd] Hf IH]; intros b Hb; [done|].
  cbn [fold_frozen foldl rev].
  destruct (fold_lbamap_spec N _ _ Hb Hl) as [Hb' _].
  destruct (IH (fold_maps b (fl_maps l)) Hb') as [Hw Hs]. split; [done|].
  rewrite map_app, <-app_assoc. cbn [map app].
  rewrite (same_stack_fold N b (fl_maps l)) by done. exact Hs.
Qed.

Lemma same_stack_empty m s : maps_is_empty m = true → same_stack (m :: s) s.
Proof.
  unfold maps_is_empty, lm_is_empty, ei_is_empty, ExtentIndex.journal_is_empty.
  rewrite !andb_true_iff, !bool_decide_eq_true. intros [[Hl [Hi Hd]] Hj].
  split; unfold top_view; simpl.
  - intros lba. unfold view, lookup_with_claimant. rewrite Hl. done.
  - intros h. unfold ExtentIndex.lookup. by rewrite Hi, lookup_empty.
  - intros g h. unfold ExtentIndex.lookup_journal. by rewrite Hj, lookup_empty.
  - intros h. unfold ExtentIndex.lookup_delta. by rewrite Hd, lookup_empty.
Qed.

Record layers_plain (N : Z) (ls : MapLayers) : Prop := {
  lp_base : lm_wf N (lbamap (base ls));
  lp_frozen : Forall (λ l, plain N (fl_maps l)) (frozen ls);
  lp_delta : plain N (delta ls)
}.

Lemma maps_empty_is_empty : maps_is_empty maps_empty = true.
Proof. reflexivity. Qed.

Lemma absorb_stack N ls :
  layers_plain N ls →
  same_stack (all_layers ls) [base (absorb ls)] ∧ same_stack (all_layers ls) (all_layers (absorb ls)).
Proof.
  intros [Hb Hf [Hdw Hdd]].
  destruct (fold_frozen_stack N (base ls) (frozen ls) Hb Hf) as [Hw Hs].
  assert (same_stack (all_layers ls) [base (absorb ls)]) as Hr.
  { unfold all_layers, upper, absorb, delta_is_empty. simpl.
    rewrite (app_same_stack [delta ls] _ eq_refl _ _ Hs : same_stack (delta ls :: _) _).
    cbn [app]. destruct (maps_is_empty (delta ls)) eqn:E; simpl.
    - by apply same_stack_empty.
    - by apply (same_stack_fold N). }
  split; [done|]. rewrite Hr. unfold all_layers, upper, absorb, delta_is_empty.
  destruct (maps_is_empty (delta ls)) eqn:E; cbn [base frozen delta rev map app]; symmetry;
    by apply same_stack_empty.
Qed.

Lemma freeze_stack ls w : same_stack (all_layers (freeze ls w)) (all_layers ls).
Proof.
  unfold freeze. destruct (delta_is_empty ls); [done|].
  unfold all_layers, upper. cbn [base frozen delta]. rewrite rev_app_distr. cbn [rev map app].
  by apply same_stack_empty.
Qed.

Lemma materialised_base ls : materialised ls = base (absorb ls).
Proof.
  unfold materialised, absorb. case_bool_decide as Hf.
  - rewrite Hf. simpl. by destruct (delta_is_empty ls).
  - simpl. by destruct (delta_is_empty ls).
Qed.

(** The layers of [ls] over [b'], with the folded ones retired. *)
Lemma retire_stack N ls b' folded kept :
  layers_plain N ls → frozen ls = folded ++ kept →
  same_stack [fold_frozen (base ls) folded] [b'] →
  same_stack (all_layers ls) (all_layers (mkLayers b' kept (delta ls))).
Proof.
  intros [Hb Hf _] Hfr Hap. rewrite Hfr in Hf. apply Forall_app in Hf as [Hf _].
  destruct (fold_frozen_stack N (base ls) folded Hb Hf) as [_ Hs].
  unfold all_layers, upper. cbn [base frozen delta].
  rewrite Hfr, rev_app_distr, map_app, app_comm_cons, <-app_assoc.
  apply app_same_stack; [done|]. by rewrite Hs.
Qed.
End stacks.

(** ** Properties *)

(** Epochs in ULID order: the ones below [u] come first. *)
Lemma frozen_split ls u :
  StronglySorted (λ x y, wal_ulid x ≤ wal_ulid y) (frozen ls) →
  frozen ls = filter (λ l, wal_ulid l < u) (frozen ls) ++ filter (λ l, u ≤ wal_ulid l) (frozen ls).
Proof.
  induction 1 as [|x l Hs IH Hall]; [done|]. rewrite !filter_cons.
  destruct (decide (wal_ulid x < u)); [rewrite decide_False by lia; simpl; by f_equal|].
  rewrite decide_True by lia.
  assert (∀ y, y ∈ l → u ≤ wal_ulid y) as Hl.
  { intros y Hy. rewrite Forall_forall in Hall. specialize (Hall y Hy). simpl in Hall. lia. }
  rewrite (filter_none _ l) by (intros y Hy; specialize (Hl y Hy); lia).
  by rewrite (filter_all _ l).
Qed.

(** Retiring the oldest epochs into a base that reads like their fold. *)
Lemma retire_view {A} (π : Cell → A) N ls b' folded kept lba :
  layers_plain N ls → frozen ls = folded ++ kept →
  π <$> view (lbamap b') lba = π <$> view (lbamap (fold_frozen (base ls) folded)) lba →
  π <$> layered_view (mkLayers b' kept (delta ls)) lba = π <$> layered_view ls lba.
Proof.
  intros [Hb Hf _] Hfr Hap. rewrite Hfr in Hf. apply Forall_app in Hf as [Hf _].
  destruct (fold_frozen_stack π N (base ls) folded Hb Hf) as [_ [Hv _ _ _]]. specialize (Hv lba).
  unfold top_view in Hv. rewrite map_app, find_map_app, map_map, find_map_map in Hv. cbn [map find_map] in Hv.
  rewrite !layered_view_eq. cbn [base frozen delta]. destruct (view (lbamap (delta ls)) lba); [done|].
  rewrite Hfr, rev_app_distr, find_map_app. destruct (find_map _ (rev kept)); [done|].
  destruct (view (lbamap b') lba), (view (lbamap (fold_frozen (base ls) folded)) lba);
    cbn in Hap, Hv |- *; destruct (find_map _ (rev folded)), (view (lbamap (base ls)) lba); cbn in *; congruence.
Qed.

(** An epoch with one write over a base, and the same with it frozen. *)
Definition base_sample : Maps := mkMaps sample (ExtentIndex.insert ei_new [1] (loc1 1)).
Definition epoch (s len : Z) (h : Hash) (w : Ulid) : Maps :=
  mkMaps (LbaMap.insert lm_new s len h w) (insert_if_absent ei_new h (loc1 w)).1.
Definition layers_sample : MapLayers :=
  mkLayers base_sample [mkFrozen 7 (epoch 40 10 [3] 7); mkFrozen 8 (epoch 45 10 [4] 8)]
    (epoch 0 5 [6] 9).

Lemma epoch_plain s len h w :
  0 ≤ s → 0 < len < U32 → s + len ≤ 1000 → plain 1000 (epoch s len h w).
Proof.
  intros ? ? ?. split; [|done]. apply insert_inner_view; try lia. by apply lm_new_wf.
Qed.

Lemma layers_sample_plain : layers_plain 1000 layers_sample.
Proof.
  split; [apply sample_wf| |apply epoch_plain; lia].
  repeat (apply Forall_cons; split; [apply epoch_plain; lia|]). by apply Forall_nil.
Qed.

Lemma plain_ok N ls : layers_plain N ls → layers_ok N ls.
Proof.
  intros [Hb Hf [Hd _]]. split; [done| |done]. eapply Forall_impl; [exact Hf|]. by intros l [? _].
Qed.

(** C7: a layered read is exact: the extents tile the mapped part of the range in
    order, and each block reads as the topmost layer that maps it says. *)
Theorem layered_reads_exact N ls s t :
  layers_ok N ls → 0 ≤ s < t → t ≤ N →
  reads_sorted s t (extents_in_range ls s t) ∧
  ∀ lba, s ≤ lba < t → read_at (extents_in_range ls s t) lba = layered_view ls lba.
Proof. intros Hok Hst Ht. apply (rr_exact (RangeReader := map_layers_reader) N); done. Qed.

Lemma layered_reads_exact_witness :
  map (λ x, (er_hash x, range_start x, range_end x, er_payload_block_offset x))
      (extents_in_range layers_sample 28 60) =
    [([1], 28, 30, 28); ([2], 30, 40, 0); ([3], 40, 45, 0); ([4], 45, 55, 0); ([1], 55, 60, 55)] ∧
  read_at (extents_in_range layers_sample 28 60) 47 = layered_view layers_sample 47.
Proof.
  split; [vm_compute; reflexivity|].
  apply (layered_reads_exact 1000 layers_sample 28 60); [|lia..].
  apply plain_ok, layers_sample_plain.
Defined.

(** C31: freezing an epoch, absorbing every layer and materialising one map
    preserve resolution: the same block resolutions (claimants included), the
    same resolvable hashes and journal bodies, the same thin-delta locations;
    after an absorb nothing is left above the base. *)
Theorem absorb_preserves_resolution N ls :
  layers_plain N ls →
  (∀ w, same_stack id (all_layers (freeze ls w)) (all_layers ls)) ∧
  same_stack id (all_layers (absorb ls)) (all_layers ls) ∧
  frozen (absorb ls) = [] ∧ delta_is_empty (absorb ls) = true ∧
  lm_wf N (lbamap (base (absorb ls))) ∧
  same_stack id [materialised ls] (all_layers ls).
Proof.
  intros Hp. destruct (absorb_stack id N ls Hp) as [H1 H2]. split_and!.
  - intros w. apply freeze_stack.
  - by symmetry.
  - unfold absorb. by destruct (delta_is_empty ls).
  - unfold absorb. destruct (delta_is_empty ls) eqn:E; [done|]. apply maps_empty_is_empty.
  - destruct Hp as [Hb Hf [Hd Hdd]].
    destruct (fold_frozen_stack id N (base ls) (frozen ls) Hb Hf) as [Hw _].
    unfold absorb. destruct (delta_is_empty ls); [done|]. by apply fold_lbamap_spec.
  - rewrite materialised_base. by symmetry.
Qed.

Lemma absorb_preserves_resolution_witness :
  view (lbamap (base (absorb layers_sample))) 47 = Some (mkCell [4] 2 8) ∧
  same_stack id [materialised layers_sample] (all_layers layers_sample).
Proof.
  destruct (absorb_preserves_resolution 1000 layers_sample layers_sample_plain)
    as (_ & _ & _ & _ & _ & H).
  split; [vm_compute; reflexivity|exact H].
Defined.

(** The two-phase promote is safe under concurrent writes: fold the oldest
    epoch (or nothing, when an earlier absorb took it) and apply the promote to
    a clone, while the live layers take any further writes and freezes; if the
    apply keeps what its input resolves to (up to a projection [π] of block
    resolutions), then swapping the clone in and retiring the epoch keeps what
    the live layers resolve to. *)
Theorem promote_swap_preserves {A} (π : Cell → A) N ls ls' w apply b' oldest rest new :
  layers_plain N ls' →
  base ls' = base ls →
  frozen ls = option_list oldest ++ rest → frozen ls' = frozen ls ++ new →
  (∀ l, oldest = Some l → wal_ulid l = w) → Forall (λ l, wal_ulid l ≠ w) (rest ++ new) →
  fold_promote ls w apply = Ok b' →
  (∀ m m', apply m = Ok m' → same_stack π [m] [m']) →
  same_stack π (all_layers ls') (all_layers (swap_promote ls' b' w)) ∧
  Forall (λ l, wal_ulid l ≠ w) (frozen (swap_promote ls' b' w)).
Proof.
  intros Hp Hbase Hfr Hfr' Hold Hrest Hfold Hap.
  assert (filter (λ l, wal_ulid l ≠ w) (frozen ls') = rest ++ new) as Hfilter.
  { rewrite Hfr', Hfr, <-app_assoc, filter_app, (filter_all _ (rest ++ new)).
    - destruct oldest as [l|]; [|done]. simpl. rewrite filter_cons_False; [done|].
      rewrite (Hold l) by done. tauto.
    - by apply Forall_forall. }
  unfold swap_promote, swap_base. cbn [base frozen delta]. rewrite Hfilter.
  split; [|done]. cbn [frozen].
  apply (retire_stack π N ls' b' (option_list oldest) (rest ++ new)); [done| |].
  { by rewrite Hfr', Hfr, <-app_assoc. }
  rewrite Hbase. apply Hap. unfold fold_promote in Hfold. rewrite Hfr in Hfold.
  destruct oldest as [l|]; simpl in *.
  - unfold with_wal at 1 in Hfold. by rewrite bool_decide_true in Hfold by auto.
  - destruct (List.find (with_wal w) rest) as [l|] eqn:Hf; [|done].
    apply find_some in Hf as [Hin Hw]. unfold with_wal in Hw. apply bool_decide_eq_true in Hw.
    rewrite Forall_app, Forall_forall in Hrest. destruct Hrest as [Hrest _].
    by apply list_elem_of_In, Hrest in Hin.
Qed.

(** An apply whose admission is ULID order folds every epoch below its
    output's ULID and retires them in one swap; with the epochs in ULID order,
    an apply that keeps what its input resolves to keeps what the live layers
    resolve to, whatever was written or frozen in between. *)
Theorem swap_below_preserves {A} (π : Cell → A) N ls ls' u apply b' new :
  layers_plain N ls' →
  base ls' = base ls → frozen ls' = frozen ls ++ new →
  StronglySorted (λ x y, wal_ulid x ≤ wal_ulid y) (frozen ls) →
  Forall (λ l, u ≤ wal_ulid l) new →
  fold_below ls u apply = Ok b' →
  (∀ m m', apply m = Ok m' → same_stack π [m] [m']) →
  same_stack π (all_layers ls') (all_layers (swap_below ls' b' u)).
Proof.
  intros Hp Hbase Hfr Hs Hnew Hfold Hap.
  pose proof (frozen_split ls u Hs) as Hsplit.
  unfold swap_below, swap_base. cbn [base frozen delta].
  apply (retire_stack π N ls' b' (filter (λ l, wal_ulid l < u) (frozen ls))); [done| |].
  - rewrite Hfr, filter_app, (filter_all _ new), app_assoc, <-Hsplit; [done|].
    by apply Forall_forall.
  - rewrite Hbase. by apply Hap.
Qed.

(** The topmost layer that maps any of the range decides the full match. *)
Lemma upper_full_match_view N ms b s t len h lba :
  Forall (λ m, lm_wf N (lbamap m)) ms → lm_wf N (lbamap b) → t = s + len → 0 ≤ s < t → t ≤ N →
  upper_full_match ms b s t len h = true → s ≤ lba < t →
  ∃ c, top_view (map lbamap (ms ++ [b])) lba = Some c ∧ c_hash c = h ∧ c_offset c = lba - s.
Proof.
  intros Hms Hb Ht Hst HN. induction Hms as [|m ms Hm _ IH]; cbn [upper_full_match].
  - intros Hf Hl. destruct (has_full_match_view N _ s len h lba Hb Hf) as (c & Hc & ?); [lia|].
    exists c. unfold top_view. simpl. by rewrite Hc.
  - destruct (LbaMap.extents_in_range (lbamap m) s t) as [|x xs] eqn:E; intros Hf Hl.
    + destruct (IH Hf Hl) as (c & Hc & ?). exists c. split; [|done]. unfold top_view. simpl.
      destruct (extents_in_range_spec N _ s t Hm Hst HN) as [_ Hr].
      rewrite <-(Hr lba Hl), E. exact Hc.
    + destruct (has_full_match_view N _ s len h lba Hm Hf) as (c & Hc & ?); [lia|].
      exists c. unfold top_view. simpl. by rewrite Hc.
Qed.

Lemma has_full_match_layered N ls s len h lba :
  layers_ok N ls → 0 ≤ s → 0 < len → s + len ≤ N → has_full_match ls s len h = true →
  s ≤ lba < s + len → ∃ c, layered_view ls lba = Some c ∧ c_hash c = h ∧ c_offset c = lba - s.
Proof.
  intros Hok Hs Hl HsN Hm Hlba. pose proof (wf_bound _ _ (lo_base _ _ Hok)).
  unfold has_full_match in Hm. revert Hm. unwrap. intros Hm.
  apply (upper_full_match_view N (upper ls) (base ls) s (s + len) len h lba); try done; try lia.
  - pose proof (layers_ok_all N ls Hok) as Ha. unfold all_layers in Ha.
    rewrite map_app, Forall_app in Ha. destruct Ha as [Ha _].
    exact (proj1 (Forall_fmap lbamap (lm_wf N) (upper ls)) Ha).
  - apply Hok.
Qed.

(** The layered no-op check is sound: when it answers yes, every block of the
    range resolves, through the layers, to that content at that offset.  And the
    swap guard is exact: [delta_claims_any] finds a hash of the set precisely
    when some block of the open epoch resolves to one. *)
Theorem layered_guards_sound N ls :
  layers_ok N ls → N < U32 →
  (∀ s len h lba, 0 ≤ s → 0 < len → s + len ≤ N → has_full_match ls s len h = true →
     s ≤ lba < s + len →
     ∃ c, layered_view ls lba = Some c ∧ c_hash c = h ∧ c_offset c = lba - s) ∧
  (∀ hs, delta_claims_any ls hs = None ↔
     ∀ lba c, view (lbamap (delta ls)) lba = Some c → c_hash c ∉ hs).
Proof.
  intros Hok HN. split.
  - intros s len h lba. by apply has_full_match_layered.
  - intros hs. unfold delta_claims_any.
    assert (∀ h, h ∈ (map_to_list (claim_counts (lbamap (delta ls)))).*1 ↔
                 ∃ lba c, view (lbamap (delta ls)) lba = Some c ∧ c_hash c = h) as Hclaims.
    { intros h. rewrite <-(claimed_iff N) by (done || apply Hok). rewrite list_elem_of_fmap. split.
      - intros ([h' n] & -> & Hin%elem_of_map_to_list). by eexists.
      - intros [n Hn]. exists (h, n). split; [done|]. by apply elem_of_map_to_list. }
    split.
    + intros Hf lba c Hv Hin. assert (bool_decide (c_hash c ∈ hs) = false) as Hb.
      { apply (List.find_none _ _ Hf). apply list_elem_of_In, Hclaims. by exists lba, c. }
      by apply bool_decide_eq_false in Hb.
    + intros Hall. destruct (List.find _ _) as [h|] eqn:Hf; [|done].
      apply find_some in Hf as [Hin Hb]. apply bool_decide_eq_true in Hb.
      apply list_elem_of_In, Hclaims in Hin as (lba & c & Hv & <-). by destruct (Hall lba c Hv).
Qed.

