(* ===== verification/Volume.v ===== *)
(** * The write path (elide-core/src/volume/mod.rs, volume/wal.rs)

    A guest write is hashed, offered to the no-op check, appended to the WAL and
    applied to the open epoch's layer; recovery scans the WAL and replays it.
    The environment an operation meets, the kernel's answers and the clock, is
    an input consumed in order. *)

From stdpp Require Import base gmap list sorting.
From S2P Require Import Prelude Bytes Segment UlidMint WriteLog Codec LbaMap ExtentIndex MapLayers Journal.
Open Scope Z_scope.

Definition MAX_WRITE_SIZE : Z := 4294967295 / 4096 * 4096.

(** ** State *)

(** A segment entry whose stored bytes are still in the WAL. *)
Record PendingWrite := mkPendingWrite { pw_entry : SegmentEntry; wal_body_offset : option Z }.

Record OpenWal := mkOpenWal { ow_wal : WriteLog; ow_ulid : Ulid }.

Record Volume := mkVolume {
  maps : MapLayers;
  journal : JournalRanges;
  journal_derived : bool;
  wal : option OpenWal;
  rotated_wals : list Ulid;
  pending : list PendingWrite;
  mint : UlidMint;
  skipped_writes : Z;
  skipped_bytes : Z
}.

(** One WAL creation's surroundings: the clock's candidate, the exclusive
    create, the kernel's answers to the magic's write, the directory's fsync. *)
Record NewWal := mkNewWal {
  nw_candidate : Ulid; nw_opened : io unit; nw_calls : list (io Z); nw_synced : io unit
}.

(** The environment: one list of kernel answers per append, one [NewWal] per
    creation.  An exhausted list is a call that never returned. *)
Record Env := mkEnv { env_appends : list (list (io Z)); env_creates : list NewWal }.

(** ** The state and error monad of the write path *)

Definition VM (A : Type) : Type := Volume * Env → (Volume * Env) * io A.

#[export] Instance vm_ret : MRet VM := λ A x s, (s, Ok x).
#[export] Instance vm_bind : MBind VM := λ A B f m s,
  match m s with
  | (s, Ok x) => f x s
  | (s, Err e) => (s, Err e)
  end.

Definition throw {A} (e : io_error) : VM A := λ s, (s, Err e).
Definition lift {A} (r : io A) : VM A := λ s, (s, r).
Definition gets {A} (f : Volume → A) : VM A := λ s, (s, Ok (f s.1)).
Definition modify (f : Volume → Volume) : VM unit := λ s, ((f s.1, s.2), Ok ()).

(** [for (run_lba, run_len) in runs]. *)
Fixpoint for_runs {A} (runs : list (Z * Z)) (body : A → Z → Z → VM A) (a : A) : VM A :=
  match runs with
  | [] => mret a
  | (run_lba, run_len) :: runs => a ← body a run_lba run_len; for_runs runs body a
  end.

Definition set_maps (ls : MapLayers) (v : Volume) : Volume :=
  mkVolume ls (journal v) (journal_derived v) (wal v) (rotated_wals v) (pending v) (mint v) (skipped_writes v) (skipped_bytes v).
Definition set_wal (w : option OpenWal) (v : Volume) : Volume :=
  mkVolume (maps v) (journal v) (journal_derived v) w (rotated_wals v) (pending v) (mint v) (skipped_writes v) (skipped_bytes v).
Definition set_mint (m : UlidMint) (v : Volume) : Volume :=
  mkVolume (maps v) (journal v) (journal_derived v) (wal v) (rotated_wals v) (pending v) m (skipped_writes v) (skipped_bytes v).
Definition push_pending (w : PendingWrite) (v : Volume) : Volume :=
  mkVolume (maps v) (journal v) (journal_derived v) (wal v) (rotated_wals v) (pending v ++ [w]) (mint v) (skipped_writes v) (skipped_bytes v).
Definition count_skip (bytes : Z) (v : Volume) : Volume :=
  mkVolume (maps v) (journal v) (journal_derived v) (wal v) (rotated_wals v) (pending v) (mint v)
    (u64_add (skipped_writes v) 1) (u64_add (skipped_bytes v) bytes).

(** The kernel's answers to the next append. *)
Definition next_append : VM (list (io Z)) := λ '(v, e),
  match env_appends e with
  | [] => ((v, e), Ok [])
  | calls :: rest => ((v, mkEnv rest (env_creates e)), Ok calls)
  end.

Definition next_create : VM NewWal := λ '(v, e),
  match env_creates e with
  | [] => ((v, e), Err OtherError)
  | c :: rest => ((v, mkEnv (env_appends e) rest), Ok c)
  end.

Definition validate_write_size (data : list Z) : io unit :=
  if bool_decide (data = []) || negb (bool_decide (blen data mod 4096 = 0)) then Err OtherError
  else if bool_decide (MAX_WRITE_SIZE < blen data) then Err OtherError
  else Ok ().

Section write.
Context {HB : Blake3} {HL : Lz4Block} {HC : Lz4Codec} {HU : UlidParts}.

Definition create_fresh_wal (c : NewWal) (u : Ulid) : io OpenWal :=
  w ← create (nw_opened c) (nw_calls c); _ ← nw_synced c; Ok (mkOpenWal w u).

(** Open the WAL if it is absent, under a freshly minted ULID. *)
Definition ensure_wal_open : VM OpenWal :=
  open ← gets wal;
  match open with
  | Some o => mret o
  | None =>
      c ← next_create; m ← gets mint;
      let '(m, ulid) := next m (nw_candidate c) in
      _ ← modify (set_mint m);
      o ← lift (create_fresh_wal c ulid);
      _ ← modify (set_wal (Some o));
      mret o
  end.

(** Append through the open WAL; the log keeps what a failed write left in it. *)
Definition append_with {A} (append : list (io Z) → WriteLog → WriteLog * io A) : VM (A * Ulid) :=
  open ← ensure_wal_open; calls ← next_append;
  let '(w, r) := append calls (ow_wal open) in
  _ ← modify (set_wal (Some (mkOpenWal w (ow_ulid open))));
  x ← lift r;
  mret (x, ow_ulid open).

Definition wal_location (wal_ulid body_offset stored_length : Z) (codec : Codec) : ExtentLocation :=
  mkExtentLocation wal_ulid body_offset stored_length codec Local 0 None.

(** The open epoch's index learns the body unless the hash already resolves. *)
Definition learn_body (is_journal : bool) (wal_ulid : Ulid) (h : Hash) (loc : ExtentLocation)
    (ls : MapLayers) : MapLayers :=
  let resolves := if is_journal then bool_decide (is_Some (MapLayers.lookup_journal ls wal_ulid h))
                  else bool_decide (is_Some (MapLayers.lookup_extent ls h)) in
  if resolves then ls
  else delta_extent_index_mut ls (λ ix,
         if is_journal then (insert_journal_if_absent ix wal_ulid h loc).1
         else (insert_if_absent ix h loc).1).

Definition set_journal (j : bool) (e : SegmentEntry) : SegmentEntry :=
  mkSegmentEntry (e_hash e) (e_start_lba e) (e_lba_length e) (e_codec e) (e_kind e)
    (e_stored_offset e) (e_stored_length e) (e_inline e) (e_delta_options e) j (e_sketch e) (e_stored_hash e).

Definition write_commit (lba lba_length : Z) (data : list Z) (h : Hash)
    (compressed : option (list Z)) : VM unit :=
  let bytes_to_write := default data compressed in
  let wal_flags := match compressed with Some _ => COMPRESSED | None => 0 end in
  let codec := from_wal_flags wal_flags in
  let stored_length := as_u32 (blen bytes_to_write) in
  '(body_offset, wal_ulid) ←
    append_with (λ calls w, append_data calls w lba lba_length h wal_flags bytes_to_write);
  ls ← gets maps;
  let ls := delta_lbamap_mut ls (λ m, LbaMap.insert m lba lba_length h wal_ulid) in
  j ← gets journal;
  let is_journal := contains j lba in
  let ls := learn_body is_journal wal_ulid h (wal_location wal_ulid body_offset stored_length codec) ls in
  _ ← modify (set_maps ls);
  let entry := set_journal is_journal (new_data_no_body h lba lba_length codec stored_length) in
  modify (push_pending (mkPendingWrite entry (Some body_offset))).

(** A run inside or outside the windows: skipped when the map already resolves
    it to this content, committed otherwise. *)
Definition commit_run (lba lba_length : Z) (data : list Z) (h : Hash) (compressed : option (list Z))
    : VM bool :=
  ls ← gets maps;
  if MapLayers.has_full_match ls lba lba_length h then
    _ ← modify (count_skip (blen data)); mret false
  else
    _ ← write_commit lba lba_length data h compressed; mret true.

(** A write that crosses a window boundary is committed run by run; [fuel]
    bounds the recursion. *)
Fixpoint commit_loop (fuel : nat) (lba : Z) (data : list Z) (h : Hash)
    (compressed : option (list Z)) : VM bool :=
  match fuel with
  | O => throw OtherError
  | S fuel =>
      let lba_length := as_u32 (blen data / 4096) in
      j ← gets journal;
      if crosses_boundary j lba lba_length then
        for_runs (split_at_boundaries j lba lba_length) (λ committed run_lba run_len,
          let offset := u64_sub run_lba lba * 4096 in
          let bytes := take (Z.to_nat (run_len * 4096)) (drop (Z.to_nat offset) data) in
          c ← commit_loop fuel run_lba bytes (blake3 bytes) (maybe_compress bytes);
          mret (committed || c)) false
      else commit_run lba lba_length data h compressed
  end.

(** A run of a split crosses nothing, so two levels are all there are. *)
Definition commit_or_skip := commit_loop 2.

Definition write (lba : Z) (data : list Z) : VM unit :=
  _ ← lift (validate_write_size data);
  _ ← commit_or_skip lba data (blake3 data) (maybe_compress data);
  mret ().

Definition write_precomputed (lba : Z) (data : list Z) (h : Hash) (compressed : option (list Z))
    : VM unit :=
  _ ← lift (validate_write_size data);
  _ ← commit_or_skip lba data h compressed;
  mret ().

(** ** Zeroes *)

Definition zero_commit (start_lba lba_count : Z) : VM unit :=
  '(_, wal_ulid) ← append_with (λ calls w, append_zero calls w start_lba lba_count);
  ls ← gets maps;
  _ ← modify (set_maps (delta_lbamap_mut ls
        (λ m, LbaMap.insert m start_lba lba_count ZERO_HASH wal_ulid)));
  modify (push_pending (mkPendingWrite (new_zero start_lba lba_count) None)).

Definition write_zeroes (start_lba lba_count : Z) : VM unit :=
  j ← gets journal;
  if crosses_boundary j start_lba lba_count then
    for_runs (split_at_boundaries j start_lba lba_count) (λ _, zero_commit) ()
  else zero_commit start_lba lba_count.

Definition trim := write_zeroes.

(** ** Recovery *)

Record WalReplay := mkWalReplay {
  wr_ulid : Ulid; valid_size : Z; wr_pending : list PendingWrite
}.

(** One record, replayed into the maps. *)
Definition replay_record (jr : JournalRanges) (ulid : Ulid) (m : Maps) (r : LogRecord)
    : Maps * PendingWrite :=
  match r with
  | RData h start_lba lba_length flags body_offset data =>
      let body_length := as_u32 (blen data) in
      let codec := from_wal_flags flags in
      let is_journal := contains jr start_lba in
      let loc := wal_location ulid body_offset body_length codec in
      let ix := if is_journal then (insert_journal_if_absent (extent_index m) ulid h loc).1
                else (insert_if_absent (extent_index m) h loc).1 in
      (mkMaps (LbaMap.insert (lbamap m) start_lba lba_length h ulid) ix,
       mkPendingWrite (set_journal is_journal (new_data_no_body h start_lba lba_length codec body_length))
         (Some body_offset))
  | RRef h start_lba lba_length =>
      (mkMaps (LbaMap.insert (lbamap m) start_lba lba_length h ulid) (extent_index m),
       mkPendingWrite (new_dedup_ref h start_lba lba_length) None)
  | RZero start_lba lba_length =>
      (mkMaps (LbaMap.insert (lbamap m) start_lba lba_length ZERO_HASH ulid) (extent_index m),
       mkPendingWrite (new_zero start_lba lba_length) None)
  end.

Definition replay_records (jr : JournalRanges) (ulid : Ulid) (m : Maps) (rs : list LogRecord)
    : Maps * list PendingWrite :=
  foldl (λ '(m, pend) r, let '(m, p) := replay_record jr ulid m r in (m, pend ++ [p])) (m, []) rs.

(** The maps, the replay and the file, cut back to its last whole record. *)
Definition replay_wal_records (jr : JournalRanges) (ulid : Ulid) (file : list Z) (m : Maps)
    : io (Maps * WalReplay * list Z) :=
  '(records, size, file) ← scan file;
  let '(m, pend) := replay_records jr ulid m records in
  Ok (m, mkWalReplay ulid size pend, file).

(** The scan, then the log reopened for appending. *)
Definition recover_wal (jr : JournalRanges) (ulid : Ulid) (file : list Z) (m : Maps)
    : io (Maps * OpenWal * list PendingWrite) :=
  '(m, r, file) ← replay_wal_records jr ulid file m;
  Ok (m, mkOpenWal (reopen file (valid_size r)) (wr_ulid r), wr_pending r).

(** Every WAL's records over [fresh], lowest ULID first; a WAL that does not
    scan is passed over. *)
Definition ulid_le (p q : Ulid * list Z) : Prop := p.1 ≤ q.1.

#[global] Instance ulid_le_dec p q : Decision (ulid_le p q).
Proof. unfold ulid_le. apply _. Defined.

Definition replay_into (ulid : Ulid) (fresh : LbaMap) (r : LogRecord) : LbaMap :=
  match r with
  | RData h start_lba lba_length _ _ _ | RRef h start_lba lba_length =>
      LbaMap.insert fresh start_lba lba_length h ulid
  | RZero start_lba lba_length => LbaMap.insert fresh start_lba lba_length ZERO_HASH ulid
  end.

Definition replay_wals_into (wals : list (Ulid * list Z)) (fresh : LbaMap) : LbaMap :=
  foldl (λ fresh '(wal_ulid, file),
           match scan_readonly file with
           | Err _ => fresh
           | Ok (records, _) => foldl (replay_into wal_ulid) fresh records
           end) fresh (merge_sort ulid_le wals).
End write.
