(* ===== verification/VolumeSpec.v ===== *)
(** * The write path refines a block device and survives a crash

    Every request is an update of the device the layered maps denote, and the
    WAL it leaves replays to the same maps. *)

From stdpp Require Import base gmap list sorting.
From S2P Require Import Prelude Bytes Segment UlidMint WriteLog WriteLogSpec Codec LbaMap LbaMapFacts LbaMapSpec.
From S2P Require Import ExtentIndex ExtentIndexSpec MapLayers MapLayersSpec Journal Volume.
Open Scope Z_scope.

(** ** Monad lemmas *)

Lemma vm_bind_run {A B} (m : VM A) (f : A → VM B) s :
  (m ≫= f) s = match m s with (s', Ok x) => f x s' | (s', Err e) => (s', Err e) end.
Proof. done. Qed.

Lemma vm_bind_Ok {A B} (m : VM A) (f : A → VM B) s s' x :
  m s = (s', Ok x) → (m ≫= f) s = f x s'.
Proof. intros H. by rewrite vm_bind_run, H. Qed.

Lemma vm_eq {A} (v v' : Volume) (e e' : Env) (r r' : io A) :
  ((v, e), r) = ((v', e'), r') → v = v' ∧ e = e' ∧ r = r'.
Proof. by intros [= -> -> ->]. Qed.

(** A loop over tiling runs, by an invariant at each run's end. *)
Lemma for_runs_spec {A} (I : Z → A → Volume * Env → Prop) (Q : Volume * Env → Prop)
    a b runs body x st :
  tiles a b runs →
  (∀ s l x st, (s, l) ∈ runs → a ≤ s → s + l ≤ b → 0 < l → I s x st →
     match body x s l st with (st', Ok y) => I (s + l) y st' | (st', Err _) => Q st' end) →
  I a x st →
  match for_runs runs body x st with (st', Ok y) => I b y st' | (st', Err _) => Q st' end.
Proof.
  revert a x st. induction runs as [|[s l] runs IH]; intros a x st Ht Hb HI; cbn [for_runs tiles] in *.
  { by subst a. }
  destruct Ht as (-> & Hl & Ht). rewrite vm_bind_run.
  assert (a + l ≤ b) as Hle.
  { clear -Ht. revert Ht. generalize (a + l). induction runs as [|[s' l'] runs IH]; intros z; simpl.
    - by intros ->.
    - intros (-> & ? & Ht). apply IH in Ht. lia. }
  pose proof (Hb a l x st (list_elem_of_here _ _) (Z.le_refl _) Hle Hl HI) as Hr.
  destruct (body x a l st) as [st' [y|e]]; [|done].
  apply (IH (a + l)); [done| |done]. intros s' l' x' st'' Hin Hs. apply Hb; [by right|lia].
Qed.

(** ** Maps-level effects *)

Lemma delta_insert_layers N ls s len h u :
  layers_ok N ls → 0 ≤ s → 0 < len < U32 → s + len ≤ N →
  let ls' := delta_lbamap_mut ls (λ m, LbaMap.insert m s len h u) in
  layers_ok N ls' ∧
  ∀ lba, layered_view ls' lba =
    if decide (s ≤ lba < s + len) then Some (mkCell h (lba - s) u) else layered_view ls lba.
Proof.
  intros [Hb Hf Hd] Hs Hl HN ls'.
  destruct (insert_inner_view N _ s len 0 h u Hd) as [Hd' Hv]; [lia..|]. split; [by split|].
  intros lba. rewrite !layered_view_eq. cbn [ls' delta_lbamap_mut delta frozen base lbamap].
  unfold LbaMap.insert. rewrite Hv. by case_decide.
Qed.

Lemma learn_body_fields j u h loc ls :
  base (learn_body j u h loc ls) = base ls ∧ frozen (learn_body j u h loc ls) = frozen ls ∧
  lbamap (delta (learn_body j u h loc ls)) = lbamap (delta ls).
Proof. unfold learn_body. by destruct j; case_bool_decide. Qed.

Lemma learn_body_layers N j u h loc ls :
  layers_ok N ls →
  layers_ok N (learn_body j u h loc ls) ∧
  ∀ lba, layered_view (learn_body j u h loc ls) lba = layered_view ls lba.
Proof.
  destruct (learn_body_fields j u h loc ls) as (Hb & Hf & Hd). intros [Ob Of Od]. split.
  - split; rewrite ?Hb, ?Hf, ?Hd; done.
  - intros lba. by rewrite !layered_view_eq, Hb, Hf, Hd.
Qed.

Lemma lookup_insert_if_absent ix h loc h' :
  ExtentIndex.lookup (insert_if_absent ix h loc).1 h' =
  over (ExtentIndex.lookup ix h') (if decide (h = h') then Some loc else None).
Proof.
  unfold insert_if_absent, ExtentIndex.lookup. destruct (inner ix !! h) as [x|] eqn:Hh; cbn [fst inner with_inner].
  - case_decide as E; [subst h'; by rewrite Hh|]. by destruct (inner ix !! h').
  - rewrite lookup_insert. case_decide as E; [subst h'; by rewrite Hh|]. by destruct (inner ix !! h').
Qed.

Lemma insert_if_absent_others ix h loc :
  deltas (insert_if_absent ix h loc).1 = deltas ix ∧ ExtentIndex.journal (insert_if_absent ix h loc).1 = ExtentIndex.journal ix.
Proof. unfold insert_if_absent. by destruct (inner ix !! h). Qed.

Lemma insert_journal_if_absent_others ix s h loc :
  deltas (insert_journal_if_absent ix s h loc).1 = deltas ix ∧
  inner (insert_journal_if_absent ix s h loc).1 = inner ix.
Proof. unfold insert_journal_if_absent. by destruct (_ !! h). Qed.

(** What the maps resolve once a body is learnt. *)
Lemma learn_body_resolves j u h loc ls :
  let ls' := learn_body j u h loc ls in
  (∀ h', is_Some (MapLayers.lookup_extent ls' h') ↔
         is_Some (MapLayers.lookup_extent ls h') ∨ j = false ∧ h' = h) ∧
  (∀ g h', is_Some (MapLayers.lookup_journal ls' g h') ↔
         is_Some (MapLayers.lookup_journal ls g h') ∨ j = true ∧ g = u ∧ h' = h) ∧
  (∀ h', MapLayers.lookup_delta ls' h' = MapLayers.lookup_delta ls h').
Proof.
  unfold learn_body, MapLayers.lookup_extent, MapLayers.lookup_journal, MapLayers.lookup_delta.
  destruct j; case_bool_decide as Hr.
  1,3: by (split_and!; naive_solver).
  - split_and!; intros; rewrite !find_map_layers; cbn [delta_extent_index_mut delta frozen base extent_index].
    + unfold ExtentIndex.lookup. rewrite (proj2 (insert_journal_if_absent_others _ _ _ _)). naive_solver.
    + rewrite lookup_journal_insert_if_absent. rewrite !find_map_layers in Hr.
      destruct (decide (u = g ∧ h = h')) as [[<- <-]|Hn].
      * destruct (ExtentIndex.lookup_journal _ u h); simpl; naive_solver.
      * destruct (ExtentIndex.lookup_journal _ g h'); simpl; naive_solver.
    + unfold ExtentIndex.lookup_delta. by rewrite (proj1 (insert_journal_if_absent_others _ _ _ _)).
  - split_and!; intros; rewrite !find_map_layers; cbn [delta_extent_index_mut delta frozen base extent_index].
    + rewrite lookup_insert_if_absent. destruct (decide (h = h')) as [<-|Hn].
      * destruct (ExtentIndex.lookup _ h); simpl; naive_solver.
      * destruct (ExtentIndex.lookup _ h'); simpl; naive_solver.
    + unfold ExtentIndex.lookup_journal, journal_of.
      rewrite (proj2 (insert_if_absent_others _ _ _)). naive_solver.
    + unfold ExtentIndex.lookup_delta. by rewrite (proj1 (insert_if_absent_others _ _ _)).
Qed.

(** ** Appending through the volume *)

Definition good_call (c : io Z) : Prop := ∀ n, c = Ok n → 0 ≤ n.

(** The kernel's counts are sizes. *)
Definition env_ok (e : Env) : Prop :=
  Forall (Forall good_call) (env_appends e) ∧ Forall (λ c, Forall good_call (nw_calls c)) (env_creates e).

Definition wal_len (v : Volume) : Z :=
  match wal v with Some o => blen (wl_file (ow_wal o)) | None => 0 end.

(** Only the WAL and the mint may differ. *)
Definition wal_only (v v' : Volume) : Prop :=
  maps v' = maps v ∧ journal v' = journal v ∧ pending v' = pending v ∧
  skipped_writes v' = skipped_writes v ∧ skipped_bytes v' = skipped_bytes v.

Lemma wal_len_nonneg v : 0 ≤ wal_len v.
Proof. unfold wal_len. destruct (wal v); [apply blen_nonneg|lia]. Qed.

Section append.
Context {HB : Blake3} {HL : Lz4Block} {HU : UlidParts}.

(** The open WAL holds exactly [ops]; or [ops] and a record cut short. *)
Definition log_clean (v : Volume) (ops : list append_op) : Prop :=
  match wal v with Some o => ow_wal o = log_of ops | None => ops = [] end.

Definition log_torn (v : Volume) (ops : list append_op) : Prop :=
  match wal v with
  | Some o => ∃ op n, op_ok op ∧ (n < length (enc op))%nat ∧
      ow_wal o = mkWriteLog (log_bytes ops ++ take n (enc op)) (blen (log_bytes ops))
  | None => ops = []
  end.

Lemma log_clean_torn v ops : log_clean v ops → log_torn v ops.
Proof.
  unfold log_clean, log_torn. destruct (wal v); [|done]. intros ->. exists (OpZero 0 0), 0%nat.
  split; [done|]. split; [vm_compute; lia|]. by rewrite take_0, app_nil_r.
Qed.

Lemma create_Ok opened calls w : Forall good_call calls → create opened calls = Ok w → w = log_of [].
Proof.
  intros Hc. unfold create. destruct opened as [[]|e]; [|done].
  destruct (write_all_bytes calls (mkWriteLog [] 0) MAGIC) as [w' [[]|e]] eqn:Hw; [|done].
  intros H. injection H as <-. by apply (write_all_bytes_Ok calls [] MAGIC) in Hw as ->.
Qed.

Lemma ensure_wal_open_frame v e v' e' r :
  ensure_wal_open (v, e) = ((v', e'), r) → wal_only v v'.
Proof.
  destruct v as [ls j jd w rw p m sw sb]. unfold ensure_wal_open. rewrite vm_bind_run. cbn [gets fst wal].
  destruct w as [o|]; [intros (<- & _ & _)%vm_eq; done|].
  rewrite vm_bind_run. unfold next_create. destruct (env_creates e) as [|c cs];
    [intros (<- & _ & _)%vm_eq; done|].
  rewrite vm_bind_run. cbn [gets fst]. destruct (next _ _) as [m' ulid].
  rewrite vm_bind_run. cbn [modify fst snd]. rewrite vm_bind_run. unfold lift.
  destruct (create_fresh_wal c ulid) as [o|e2]; [|intros (<- & _ & _)%vm_eq; done].
  rewrite vm_bind_run. cbn [modify fst snd]. by intros (<- & _ & _)%vm_eq.
Qed.

(** After opening, the WAL is the one that was open, or a fresh empty one. *)
Lemma ensure_wal_open_spec v e v' e' r ops :
  env_ok e → log_clean v ops → ensure_wal_open (v, e) = ((v', e'), r) →
  env_ok e' ∧ match r with
              | Ok o => wal v' = Some o ∧ ow_wal o = log_of ops ∧ (∀ o', wal v = Some o' → o' = o)
              | Err _ => wal v' = None ∧ wal v = None ∧ ops = []
              end.
Proof.
  intros [Ha Hc] Hl. unfold ensure_wal_open, log_clean in *. rewrite vm_bind_run. cbn [gets fst].
  destruct (wal v) as [o|] eqn:Hw.
  { intros (<- & <- & <-)%vm_eq. split; [done|]. rewrite Hw. split_and!; [done..|]. by intros o' [= ->]. }
  rewrite vm_bind_run. unfold next_create. destruct (env_creates e) as [|c cs] eqn:He.
  { intros (<- & <- & <-)%vm_eq. split; [split; [done|by rewrite He]|done]. }
  apply Forall_cons in Hc as [Hc Hcs].
  rewrite vm_bind_run. cbn [gets fst]. destruct (next _ _) as [m' ulid].
  rewrite vm_bind_run. cbn [modify fst snd]. rewrite vm_bind_run. unfold lift, create_fresh_wal.
  destruct (create (nw_opened c) (nw_calls c)) as [w|e2] eqn:Hcr.
  - apply create_Ok in Hcr as ->; [|done]. unfold mbind at 1, io_bind.
    destruct (nw_synced c) as [[]|e3]; unfold mbind, io_bind.
    + rewrite vm_bind_run. intros (<- & <- & <-)%vm_eq. split; [done|]. by subst ops.
    + intros (<- & <- & <-)%vm_eq. done.
  - intros (<- & <- & <-)%vm_eq. done.
Qed.

Section one.
Context {A : Type} (app : list (io Z) → WriteLog → WriteLog * io A) (off : A → Z) (op : append_op).
Context (Hop : op_ok op).
Context (Happ : ∀ calls w, run_append calls w op = ((app calls w).1, x ← (app calls w).2; Ok (off x))).

Lemma append_with_frame v e v' e' r :
  append_with app (v, e) = ((v', e'), r) → wal_only v v'.
Proof.
  unfold append_with. rewrite vm_bind_run.
  destruct (ensure_wal_open (v, e)) as [[v1 e1] [o|er]] eqn:Ho;
    pose proof (ensure_wal_open_frame _ _ _ _ _ Ho) as Hf1;
    [|intros (<- & _ & _)%vm_eq; done].
  rewrite vm_bind_run. unfold next_append. destruct (env_appends e1) as [|cs rest];
    (rewrite vm_bind_run || idtac); destruct (app _ _) as [wl [x|er]];
    rewrite !vm_bind_run; cbn [modify lift fst snd]; unfold lift;
    (rewrite ?vm_bind_run); intros (<- & _ & _)%vm_eq; done.
Qed.

Lemma append_with_open v e v' e' x u :
  append_with app (v, e) = ((v', e'), Ok (x, u)) → ∃ w, wal v' = Some (mkOpenWal w u).
Proof.
  unfold append_with. rewrite vm_bind_run.
  destruct (ensure_wal_open (v, e)) as [[v2 e2] [o|]]; [|done].
  rewrite vm_bind_run. destruct (next_append (v2, e2)) as [[v3 e3] [cs|]]; [|done].
  destruct (app _ _) as [w [y|]]; rewrite !vm_bind_run; unfold modify, lift; [|done].
  rewrite vm_bind_run. intros (<- & _ & Hr)%vm_eq. injection Hr as <- <-. by eexists.
Qed.

Lemma append_with_grows s : wal_len s.1 ≤ wal_len (append_with app s).1.1.
Proof.
  destruct s as [v e]. unfold append_with. rewrite vm_bind_run. cbn [fst].
  assert (match ensure_wal_open (v, e) with
          | ((v1, _), Ok o) => wal_len v ≤ blen (wl_file (ow_wal o)) ∧ wal v1 = Some o
          | ((v1, _), Err _) => wal v1 = wal v end) as Ho.
  { unfold ensure_wal_open. rewrite vm_bind_run. cbn [gets fst]. destruct (wal v) as [o|] eqn:Hw.
    - cbn. split; [|done]. unfold wal_len. rewrite Hw. lia.
    - rewrite vm_bind_run. unfold next_create. destruct (env_creates e) as [|c cs]; [done|].
      rewrite vm_bind_run. cbn [gets fst]. destruct (next _ _) as [m' u].
      rewrite vm_bind_run. cbn [modify fst snd]. rewrite vm_bind_run. unfold lift.
      destruct (create_fresh_wal c u) as [o|]; [|done]. rewrite vm_bind_run. cbn.
      split; [|done]. unfold wal_len. rewrite Hw. apply blen_nonneg. }
  destruct (ensure_wal_open (v, e)) as [[v1 e1] [o|]]; [|unfold wal_len; cbn [fst]; rewrite Ho; lia].
  destruct Ho as [Hle Hw1]. rewrite vm_bind_run.
  assert (∃ calls e2, next_append (v1, e1) = ((v1, e2), Ok calls)) as (calls & e2 & ->)
    by (unfold next_append; destruct (env_appends e1); eauto).
  pose proof (run_append_grows calls (ow_wal o) op) as Hg. rewrite Happ in Hg. cbn [fst] in Hg.
  destruct (app calls (ow_wal o)) as [w [x|]]; rewrite !vm_bind_run; cbn [modify lift fst snd] in *;
    unfold lift; rewrite ?vm_bind_run; cbn [mret vm_ret fst];
    etransitivity; [exact Hle|exact Hg|exact Hle|exact Hg].
Qed.

Lemma append_with_wal v e v' e' r ops :
  env_ok e → log_clean v ops → append_with app (v, e) = ((v', e'), r) →
  env_ok e' ∧ wal_len v ≤ wal_len v' ∧
  match r with
  | Ok (x, u) =>
      (∃ w, wal v' = Some (mkOpenWal w u)) ∧ (∀ o, wal v = Some o → ow_ulid o = u) ∧
      (wal_len v' < U64 → log_clean v' (ops ++ [op]) ∧ off x = payload_at ops op)
  | Err _ => log_torn v' ops ∧ (∀ o, wal v = Some o → option_map ow_ulid (wal v') = Some (ow_ulid o))
  end.
Proof.
  intros He Hl. unfold append_with. rewrite vm_bind_run.
  destruct (ensure_wal_open (v, e)) as [[v1 e1] [o|er]] eqn:Ho;
    pose proof (ensure_wal_open_spec _ _ _ _ _ _ He Hl Ho) as [He1 Hw1].
  2: { destruct Hw1 as (Hn1 & Hn & ->). intros (<- & <- & <-)%vm_eq. split; [done|].
       unfold wal_len, log_torn. rewrite Hn, Hn1. by split_and!. }
  destruct Hw1 as (Hw1 & Hlog & Hsame). rewrite vm_bind_run.
  assert (wal_len v ≤ blen (log_bytes ops)) as Hlen.
  { unfold wal_len. destruct (wal v) as [o'|]; [|apply blen_nonneg].
    rewrite (Hsame o' eq_refl), Hlog. done. }
  assert (∃ calls e2, next_append (v1, e1) = ((v1, e2), Ok calls) ∧ Forall good_call calls ∧ env_ok e2)
    as (calls & e2 & -> & Hc & He2).
  { unfold next_append. destruct He1 as [Ha Hcr]. destruct (env_appends e1) as [|cs rest] eqn:E.
    - exists [], e1. split; [done|]. split; [constructor|]. split; [by rewrite E|done].
    - apply Forall_cons in Ha as [Ha Hr]. by exists cs, (mkEnv rest (env_creates e1)). }
  pose proof (Happ calls (ow_wal o)) as Hrun. rewrite Hlog in Hrun |- *.
  destruct (app calls (log_of ops)) as [wl rx]. cbn [fst snd] in Hrun.
  rewrite vm_bind_run. cbn [modify fst snd]. rewrite vm_bind_run. unfold lift.
  destruct rx as [x|er]; unfold mbind, io_bind in Hrun.
  - destruct (run_append_file calls ops op wl (off x)) as [Hfile Hfin]; [by split|done|].
    intros (<- & <- & <-)%vm_eq. split; [done|].
    assert (wal_len (set_wal (Some (mkOpenWal wl (ow_ulid o))) v1) = blen (wl_file wl)) as Hl' by done.
    rewrite Hl', Hfile, log_bytes_app, blen_app. pose proof (blen_nonneg (concat (map enc [op]))).
    split; [lia|]. split_and!.
    + by eexists.
    + intros o' Ho'. by rewrite (Hsame o' Ho').
    + intros Hsz. rewrite Hfile, log_bytes_app, blen_app in Hfin.
      destruct (Hfin Hsz) as [-> ->]. done.
  - destruct (run_append_Err calls ops op wl er Hc Hrun) as (n & Hn & ->).
    intros (<- & <- & <-)%vm_eq. split; [done|]. unfold wal_len at 2. cbn [wal set_wal ow_wal wl_file].
    rewrite blen_app. pose proof (blen_nonneg (take n (enc op))). split; [lia|]. split.
    + unfold log_torn. cbn [wal set_wal ow_wal]. by exists op, n.
    + intros o' Ho'. by rewrite (Hsame o' Ho').
Qed.
End one.
End append.

(** ** The effect of one commit *)

Section live.
Context {HB : Blake3} {HL : Lz4Block} {HC : Lz4Codec} {HU : UlidParts}.

(** The record an append leaves, with its payload at [off]. *)
Definition record_at (off : Z) (op : append_op) : LogRecord :=
  match op with
  | OpData s l h f d => RData h s l f off d
  | OpZero s l => RZero s l
  | OpRef s l h => RRef h s l
  end.

Lemma record_of_at ops op : record_of (blen (log_bytes ops)) op = record_at (payload_at ops op) op.
Proof. by destruct op. Qed.

Definition op_start (op : append_op) : Z := match op with OpData s _ _ _ _ | OpZero s _ | OpRef s _ _ => s end.
Definition op_len (op : append_op) : Z := match op with OpData _ l _ _ _ | OpZero _ l | OpRef _ l _ => l end.
Definition op_hash (op : append_op) : Hash :=
  match op with OpData _ _ h _ _ | OpRef _ _ h => h | OpZero _ _ => ZERO_HASH end.

(** What a commit does to the live layers for the record it appended: the
    counterpart of [replay_record]. *)
Definition live_record (jr : JournalRanges) (u : Ulid) (ls : MapLayers) (r : LogRecord) : MapLayers :=
  match r with
  | RData h s l f off d =>
      learn_body (contains jr s) u h (wal_location u off (as_u32 (blen d)) (from_wal_flags f))
        (delta_lbamap_mut ls (λ m, LbaMap.insert m s l h u))
  | RRef h s l => delta_lbamap_mut ls (λ m, LbaMap.insert m s l h u)
  | RZero s l => delta_lbamap_mut ls (λ m, LbaMap.insert m s l ZERO_HASH u)
  end.

Definition pending_of (jr : JournalRanges) (r : LogRecord) : PendingWrite :=
  (replay_record jr 0 (mkMaps lm_new ei_new) r).2.

Lemma replay_record_pending jr u m r : (replay_record jr u m r).2 = pending_of jr r.
Proof. by destruct r. Qed.

(** A commit of [op]: append its record, then apply it; a failed append
    leaves the maps and the pending list alone. *)
Definition commits (op : append_op) (m : VM unit) : Prop :=
  ∀ v e v' e' r, m (v, e) = ((v', e'), r) →
  journal v' = journal v ∧ wal_len v ≤ wal_len v' ∧
  match r with
  | Err _ => maps v' = maps v ∧ pending v' = pending v
  | Ok _ => ∃ u off,
      maps v' = live_record (journal v) u (maps v) (record_at off op) ∧
      pending v' = pending v ++ [pending_of (journal v) (record_at off op)] ∧
      (∃ w, wal v' = Some (mkOpenWal w u)) ∧
      ∀ ops, env_ok e → log_clean v ops → op_ok op →
        (∀ o, wal v = Some o → ow_ulid o = u) ∧
        (wal_len v' < U64 → log_clean v' (ops ++ [op]) ∧ off = payload_at ops op)
  end ∧
  ∀ ops, env_ok e → log_clean v ops → op_ok op →
    env_ok e' ∧
    (is_ok r = false → log_torn v' ops ∧
      (∀ o, wal v = Some o → option_map ow_ulid (wal v') = Some (ow_ulid o))).

Lemma append_commits {A} (app : list (io Z) → WriteLog → WriteLog * io A) (off : A → Z) op
    (k : A → Ulid → Volume → Volume) (m : VM unit) :
  (∀ calls w, run_append calls w op = ((app calls w).1, x ← (app calls w).2; Ok (off x))) →
  (∀ s v1 e1 x u, append_with app s = ((v1, e1), Ok (x, u)) → m s = ((k x u v1, e1), Ok ())) →
  (∀ s s' er, append_with app s = (s', Err er) → m s = (s', Err er)) →
  (∀ x u v, journal (k x u v) = journal v ∧ wal (k x u v) = wal v ∧
     maps (k x u v) = live_record (journal v) u (maps v) (record_at (off x) op) ∧
     pending (k x u v) = pending v ++ [pending_of (journal v) (record_at (off x) op)]) →
  commits op m.
Proof.
  intros Happ Hok Herr Hk v e v' e' r Hr. 
  destruct (append_with app (v, e)) as [[v1 e1] [[x u]|er]] eqn:Ha;
    pose proof (append_with_frame app _ _ _ _ _ Ha) as (Hm & Hj & Hp & _);
    pose proof (append_with_grows app off op Happ (v, e)) as Hg; rewrite Ha in Hg; cbn [fst] in Hg.
  - pose proof (Hok _ _ _ _ _ Ha) as Hr'. rewrite Hr in Hr'. apply vm_eq in Hr' as (-> & -> & ->).
    destruct (Hk x u v1) as (Hkj & Hkw & Hkm & Hkp).
    rewrite Hkj, Hj. split; [done|]. rewrite Hj, Hm in Hkm. rewrite Hj, Hp in Hkp.
    assert (wal_len (k x u v1) = wal_len v1) as -> by (unfold wal_len; by rewrite Hkw).
    pose proof (λ ops He Hl Hop, append_with_wal app off op Hop Happ _ _ _ _ _ ops He Hl Ha) as Hwal.
    split; [done|]. split.
    + exists u, (off x). split; [exact Hkm|]. split; [exact Hkp|]. rewrite Hkw.
      split; [by apply append_with_open in Ha|]. intros ops He Hl Hop. unfold log_clean. rewrite Hkw.
      by destruct (Hwal ops He Hl Hop) as (_ & _ & _ & ? & ?).
    + intros ops He Hl Hop. by destruct (Hwal ops He Hl Hop) as (? & _).
  - pose proof (Herr _ _ _ Ha) as Hr'. rewrite Hr in Hr'. apply vm_eq in Hr' as (-> & -> & ->).
    split; [done|]. split; [done|]. split; [done|]. intros ops He Hl Hop.
    by destruct (append_with_wal app off op Hop Happ _ _ _ _ _ ops He Hl Ha) as (? & ? & ?).
Qed.

Lemma write_commit_commits lba len data h comp :
  commits (OpData lba len h (match comp with Some _ => COMPRESSED | None => 0 end) (default data comp))
    (write_commit lba len data h comp).
Proof.
  apply (append_commits (λ calls w, append_data calls w lba len h
    (match comp with Some _ => COMPRESSED | None => 0 end) (default data comp)) id _ (λ off u v,
    push_pending (pending_of (journal v) (RData h lba len (match comp with Some _ => COMPRESSED | None => 0 end)
                                            off (default data comp)))
      (set_maps (live_record (journal v) u (maps v)
        (RData h lba len (match comp with Some _ => COMPRESSED | None => 0 end) off (default data comp))) v))).
  - intros calls w. cbn [run_append]. by destruct (append_data _ _ _ _ _ _ _) as [? [?|?]].
  - intros s v1 e1 x u Ha. unfold write_commit. cbv zeta. by rewrite (vm_bind_Ok _ _ _ _ _ Ha).
  - intros s s' er Ha. unfold write_commit. cbv zeta. by rewrite vm_bind_run, Ha.
  - done.
Qed.

Lemma zero_commit_commits lba len : commits (OpZero lba len) (zero_commit lba len).
Proof.
  apply (append_commits (λ calls w, append_zero calls w lba len) (λ _, 0) _ (λ _ u v,
    push_pending (pending_of (journal v) (RZero lba len))
      (set_maps (live_record (journal v) u (maps v) (RZero lba len)) v))).
  - intros calls w. cbn [run_append]. by destruct (append_zero _ _ _ _) as [? [?|?]].
  - intros s v1 e1 x u Ha. unfold zero_commit. by rewrite (vm_bind_Ok _ _ _ _ _ Ha).
  - intros s s' er Ha. unfold zero_commit. by rewrite vm_bind_run, Ha.
  - done.
Qed.

(** The live effect of a record: the range resolves to its hash, block by block. *)
Lemma live_record_view N jr u ls off op :
  layers_ok N ls → 0 ≤ op_start op → 0 < op_len op < U32 → op_start op + op_len op ≤ N →
  let ls' := live_record jr u ls (record_at off op) in
  layers_ok N ls' ∧
  ∀ lba, layered_view ls' lba =
    if decide (op_start op ≤ lba < op_start op + op_len op)
    then Some (mkCell (op_hash op) (lba - op_start op) u) else layered_view ls lba.
Proof.
  intros Hok Hs Hl HN. destruct (delta_insert_layers N ls _ _ (op_hash op) u Hok Hs Hl HN) as [Hok' Hv].
  destruct op as [s l h f d|s l|s l h]; cbn [live_record record_at op_start op_len op_hash] in *; [|done..].
  destruct (learn_body_layers N (contains jr s) u h (wal_location u off (as_u32 (blen d)) (from_wal_flags f))
    _ Hok') as [Hok'' Hv'].
  split; [done|]. intros lba. by rewrite Hv'.
Qed.

(** The live layers and one replayed map stay the same stack, record by record. *)
Lemma live_record_replay N jr u ls m off op :
  layers_ok N ls → lm_wf N (lbamap m) →
  0 ≤ op_start op → 0 < op_len op < U32 → op_start op + op_len op ≤ N →
  same_stack id (all_layers ls) [m] →
  let m' := (replay_record jr u m (record_at off op)).1 in
  lm_wf N (lbamap m') ∧ same_stack id (all_layers (live_record jr u ls (record_at off op))) [m'].
Proof.
  intros Hok Hm Hs Hl HN [Sv Se Sj Sd] m'.
  destruct (insert_inner_view N _ (op_start op) (op_len op) 0 (op_hash op) u Hm) as [Hm' Hv]; [lia..|].
  destruct (live_record_view N jr u ls off op Hok Hs Hl HN) as [_ Hlv].
  assert (lbamap m' = LbaMap.insert (lbamap m) (op_start op) (op_len op) (op_hash op) u) as Hlm
    by by destruct op.
  split; [by rewrite Hlm|]. split.
  - intros lba. rewrite !option_fmap_id.
    change (top_view (map lbamap (all_layers ?x)) lba) with (layered_view x lba). rewrite Hlv.
    unfold top_view. cbn [map find_map]. rewrite Hlm. unfold LbaMap.insert. rewrite Hv.
    case_decide; [done|]. specialize (Sv lba). rewrite !option_fmap_id in Sv. exact Sv.
  - intros h0. change (is_Some (MapLayers.lookup_extent (live_record jr u ls (record_at off op)) h0) ↔
      is_Some (over (ExtentIndex.lookup (extent_index m') h0) None)).
    specialize (Se h0). change (is_Some (MapLayers.lookup_extent ls h0) ↔
      is_Some (over (ExtentIndex.lookup (extent_index m) h0) None)) in Se.
    destruct op as [s l h f d|s l|s l h]; [|exact Se..]. subst m'. cbn [record_at live_record replay_record fst extent_index].
    rewrite (proj1 (learn_body_resolves _ _ _ _ _)). change (MapLayers.lookup_extent (delta_lbamap_mut ls _) h0)
      with (MapLayers.lookup_extent ls h0). rewrite Se. destruct (contains jr s).
    + unfold ExtentIndex.lookup. rewrite (proj2 (insert_journal_if_absent_others _ _ _ _)). naive_solver.
    + rewrite lookup_insert_if_absent. destruct (decide (h = h0)) as [<-|];
        destruct (ExtentIndex.lookup _ _); simpl; naive_solver.
  - intros g h0. change (is_Some (MapLayers.lookup_journal (live_record jr u ls (record_at off op)) g h0) ↔
      is_Some (over (ExtentIndex.lookup_journal (extent_index m') g h0) None)).
    specialize (Sj g h0). change (is_Some (MapLayers.lookup_journal ls g h0) ↔
      is_Some (over (ExtentIndex.lookup_journal (extent_index m) g h0) None)) in Sj.
    destruct op as [s l h f d|s l|s l h]; [|exact Sj..]. subst m'. cbn [record_at live_record replay_record fst extent_index].
    rewrite (proj1 (proj2 (learn_body_resolves _ _ _ _ _))). change (MapLayers.lookup_journal (delta_lbamap_mut ls _) g h0)
      with (MapLayers.lookup_journal ls g h0). rewrite Sj. destruct (contains jr s).
    + rewrite lookup_journal_insert_if_absent. destruct (decide (u = g ∧ h = h0)) as [[<- <-]|];
        destruct (ExtentIndex.lookup_journal _ _ _); simpl; naive_solver.
    + unfold ExtentIndex.lookup_journal. rewrite (proj2 (insert_if_absent_others _ _ _)). naive_solver.
  - intros h0. change (MapLayers.lookup_delta (live_record jr u ls (record_at off op)) h0 =
      find_map (λ m, ExtentIndex.lookup_delta (extent_index m) h0) [m']).
    specialize (Sd h0). change (MapLayers.lookup_delta ls h0 =
      find_map (λ m, ExtentIndex.lookup_delta (extent_index m) h0) [m]) in Sd.
    destruct op as [s l h f d|s l|s l h]; [|exact Sd..]. cbn [record_at live_record].
    rewrite (proj2 (proj2 (learn_body_resolves _ _ _ _ _))).
    change (MapLayers.lookup_delta (delta_lbamap_mut ls _) h0) with (MapLayers.lookup_delta ls h0).
    rewrite Sd. subst m'. cbn [find_map record_at replay_record fst extent_index].
    unfold ExtentIndex.lookup_delta. destruct (contains jr s);
      [by rewrite (proj1 (insert_journal_if_absent_others _ _ _ _))|by rewrite (proj1 (insert_if_absent_others _ _ _))].
Qed.

(** ** Runs *)

Lemma commits_journal op m s : commits op m → journal (m s).1.1 = journal s.1.
Proof.
  intros Hc. destruct s as [v e]. destruct (m (v, e)) as [[v' e'] r] eqn:Hr.
  by destruct (Hc _ _ _ _ _ Hr) as [? _].
Qed.

Lemma commit_run_journal lba len data h comp s : journal (commit_run lba len data h comp s).1.1 = journal s.1.
Proof.
  destruct s as [v e]. unfold commit_run. rewrite vm_bind_run. cbn [gets fst].
  destruct (MapLayers.has_full_match _ _ _ _); [done|]. rewrite vm_bind_run.
  pose proof (commits_journal _ _ (v, e) (write_commit_commits lba len data h comp)).
  by destruct (write_commit _ _ _ _ _ (v, e)) as [[v' e'] [?|?]].
Qed.

(** The bytes of one run of a write at [lba]. *)
Definition slice (data : list Z) (lba run_lba run_len : Z) : list Z :=
  take (Z.to_nat (run_len * 4096)) (drop (Z.to_nat (u64_sub run_lba lba * 4096)) data).

Definition commit_slice (data : list Z) (lba : Z) (committed : bool) (s l : Z) : VM bool :=
  c ← commit_run s l (slice data lba s l) (blake3 (slice data lba s l)) (maybe_compress (slice data lba s l));
  mret (committed || c).

Lemma for_runs_ext {A} (P : Volume * Env → Prop) runs (body body' : A → Z → Z → VM A) x st :
  (∀ s l x st, (s, l) ∈ runs → P st → body x s l st = body' x s l st ∧ P (body' x s l st).1) →
  P st → for_runs runs body x st = for_runs runs body' x st.
Proof.
  revert x st. induction runs as [|[s l] runs IH]; intros x st Hb HP; cbn [for_runs]; [done|].
  destruct (Hb s l x st (list_elem_of_here _ _) HP) as [He HP']. rewrite !vm_bind_run, He.
  destruct (body' x s l st) as [st' [y|?]]; [|done]. apply IH; [|done].
  intros s' l' x' st'' Hin. apply Hb. by right.
Qed.

Lemma slice_len data lba len s l :
  blen data = 4096 * len → 0 ≤ lba → lba ≤ s → 0 ≤ l → s + l ≤ lba + len → lba + len < U64 →
  blen (slice data lba s l) = 4096 * l.
Proof.
  intros Hd H0 Hs Hl Hle H64. unfold slice. unwrap. unfold blen in *. rewrite length_take, length_drop. lia.
Qed.

(** The loop is its two levels: whatever the fuel above them, the runs are
    committed in order and none is split again. *)
Lemma commit_loop_flat n lba len data h comp s :
  normal (journal s.1) → 0 ≤ lba → 0 < len < U32 → lba + len < U64 → blen data = 4096 * len →
  commit_loop (S (S n)) lba data h comp s =
  if crosses_boundary (journal s.1) lba len
  then for_runs (split_at_boundaries (journal s.1) lba len) (commit_slice data lba) false s
  else commit_run lba len data h comp s.
Proof.
  intros Hn H0 Hl H64 Hd. set (j := journal s.1) in *.
  assert (∀ l, 0 < l < U32 → as_u32 (4096 * l / 4096) = l) as Hlen.
  { intros l ?. rewrite Z.mul_comm, Z.div_mul by lia. by rewrite as_u32_id by lia. }
  cbn [commit_loop]. rewrite vm_bind_run. cbn [gets]. fold j. rewrite Hd, Hlen by done.
  destruct (crosses_boundary j lba len); [|done].
  apply (for_runs_ext (λ st, journal st.1 = j)); [|done].
  intros s' l' x st Hin Hj. unfold commit_slice.
  destruct (split_run_uncrossed j lba len s' l') as (? & ? & ? & Hx); [done..|].
  assert (blen (slice data lba s' l') = 4096 * l') as Hsl by (by apply (slice_len _ _ len); lia).
  split.
  - fold (slice data lba s' l'). rewrite !vm_bind_run. cbn [gets].
    rewrite Hsl, Hlen, Hj, Hx by lia. done.
  - rewrite vm_bind_run.
    pose proof (commit_run_journal s' l' (slice data lba s' l') (blake3 (slice data lba s' l'))
      (maybe_compress (slice data lba s' l')) st) as Hj'.
    destruct (commit_run _ _ _ _ _ st) as [st' [?|?]]; simpl in *; congruence.
Qed.

(** ** Requests *)

Inductive Request := Write (lba : Z) (data : list Z) | Zeroes (start_lba lba_count : Z).

Definition run_request (q : Request) : VM unit :=
  match q with Write lba data => write lba data | Zeroes s l => write_zeroes s l end.

Definition req_start (q : Request) : Z := match q with Write lba _ => lba | Zeroes s _ => s end.
Definition req_len (q : Request) : Z := match q with Write _ data => blen data / 4096 | Zeroes _ l => l end.

(** A write's length is checked by the code; a zero run's by its caller. *)
Definition req_ok (N : Z) (q : Request) : Prop :=
  0 ≤ req_start q ∧ req_start q + req_len q ≤ N ∧
  match q with Write _ _ => True | Zeroes _ l => 0 < l < U32 end.

Lemma req_len_nonneg q N : req_ok N q → 0 ≤ req_len q.
Proof.
  intros (_ & _ & Hq). destruct q as [lba data|]; cbn [req_len]; [|lia].
  apply Z.div_pos; [apply blen_nonneg|lia].
Qed.

Lemma validate_Ok data :
  validate_write_size data = Ok () → ∃ len, blen data = 4096 * len ∧ 0 < len < U32 ∧ blen data < U32.
Proof.
  unfold validate_write_size. destruct (bool_decide (data = [])) eqn:E0; [done|]. cbn [orb].
  apply bool_decide_eq_false in E0. case_bool_decide as E1; [|done]. cbn [negb].
  case_bool_decide as E2; [done|]. intros _. exists (blen data / 4096).
  assert (0 < blen data). { destruct data; [done|]. unfold blen. simpl. lia. }
  change MAX_WRITE_SIZE with 4294963200 in E2.
  pose proof (Z.div_mod (blen data) 4096 ltac:(lia)). lia.
Qed.

(** The request in its runs: a request that gets past its checks is a loop over
    the runs of its split, each a single commit or a skip. *)
Lemma run_request_runs N q s (I : Z → Volume * Env → Prop) (Q : Volume * Env → Prop) :
  normal (journal s.1) → N < U64 → req_ok N q →
  (∀ st, Q st → journal st.1 = journal s.1) →
  (∀ m st, I m st → Q st) →
  (∀ s' l st, (s', l) ∈ split_at_boundaries (journal s.1) (req_start q) (req_len q) →
     req_start q ≤ s' → 0 < l < U32 → s' + l ≤ req_start q + req_len q → I s' st →
     match q with
     | Write lba data =>
         blen (slice data lba s' l) = 4096 * l → 4096 * l < U32 →
         match commit_run s' l (slice data lba s' l) (blake3 (slice data lba s' l))
                 (maybe_compress (slice data lba s' l)) st with
         | (st', Ok _) => I (s' + l) st' | (st', Err _) => Q st' end
     | Zeroes _ _ =>
         match zero_commit s' l st with (st', Ok _) => I (s' + l) st' | (st', Err _) => Q st' end
     end) →
  I (req_start q) s →
  match run_request q s with
  | (st', Ok _) => I (req_start q + req_len q) st'
  | (st', Err _) => Q st'
  end.
Proof.
  intros Hn HN (H0 & Hle & Hq) HQ HIQ Hrun HI. destruct q as [lba data|st len]; cbn [run_request req_start req_len] in *.
  - unfold write. rewrite vm_bind_run. unfold lift at 1.
    destruct (validate_write_size data) as [[]|e] eqn:Hv; [|by eapply HIQ].
    apply validate_Ok in Hv as (len & Hd & Hl & Hd32).
    assert (blen data / 4096 = len) as Hdl by (rewrite Hd, Z.mul_comm, Z.div_mul; lia).
    rewrite Hdl in *. unfold commit_or_skip. rewrite vm_bind_run.
    rewrite (commit_loop_flat 0 lba len) by (done || lia).
    destruct (split_full (journal s.1) lba len) as (Ht & _ & _ & Hx); [done|lia..|].
    assert (match for_runs (split_at_boundaries (journal s.1) lba len) (commit_slice data lba) false s with
            | (st', Ok _) => I (lba + len) st' | (st', Err _) => Q st' end) as Hr.
    { apply (for_runs_spec (λ m _, I m) Q lba (lba + len)); [done| |done].
      intros s' l x st Hin Hs Hle' Hl' HI'. unfold commit_slice. rewrite vm_bind_run.
      specialize (Hrun s' l st Hin Hs ltac:(lia) Hle' HI'
        ltac:(apply (slice_len _ _ len); lia) ltac:(lia)).
      by destruct (commit_run _ _ _ _ _ st) as [st' [?|?]]. }
    destruct (crosses_boundary (journal s.1) lba len).
    + by destruct (for_runs _ _ _ _) as [st' [?|?]].
    + rewrite (proj1 Hx eq_refl) in Hr. cbn [for_runs] in Hr. rewrite vm_bind_run in Hr.
      unfold commit_slice in Hr. rewrite vm_bind_run in Hr.
      assert (slice data lba lba len = data) as Hsl.
      { unfold slice. replace (u64_sub lba lba) with 0 by (unwrap; lia). cbn [Z.mul Z.to_nat drop].
        unfold blen in Hd. apply take_ge. lia. }
      rewrite Hsl in Hr. by destruct (commit_run _ _ _ _ _ s) as [st' [?|?]].
  - unfold write_zeroes. rewrite vm_bind_run. cbn [gets].
    destruct (split_full (journal s.1) st len) as (Ht & _ & _ & Hx); [done|lia..|].
    assert (match for_runs (split_at_boundaries (journal s.1) st len) (λ _, zero_commit) () s with
            | (st', Ok _) => I (st + len) st' | (st', Err _) => Q st' end) as Hr.
    { apply (for_runs_spec (λ m _, I m) Q st (st + len)); [done| |done].
      intros s' l x st' Hin Hs Hle' Hl' HI'. apply Hrun; (done || lia). }
    destruct (crosses_boundary (journal s.1) st len); [done|].
    rewrite (proj1 Hx eq_refl) in Hr. cbn [for_runs] in Hr. rewrite vm_bind_run in Hr.
    by destruct (zero_commit st len s) as [st' [?|?]].
Qed.

(** ** The device *)

Section device.
Context (plain : Hash → list Z).

Definition zero_block : list Z := replicate (Z.to_nat 4096) 0.

Definition block (data : list Z) (i : Z) : list Z :=
  take (Z.to_nat 4096) (drop (Z.to_nat (4096 * i)) data).

(** What a block reads as: its hash's bytes at its offset, zeroes for the zero
    hash and for a block nothing maps. *)
Definition device (ls : MapLayers) (lba : Z) : list Z :=
  match layered_view ls lba with
  | None => zero_block
  | Some c => if decide (c_hash c = ZERO_HASH) then zero_block else block (plain (c_hash c)) (c_offset c)
  end.

Definition req_block (q : Request) (i : Z) : list Z :=
  match q with Write _ data => block data i | Zeroes _ _ => zero_block end.

(** [plain] inverts the hash on the buffers the request hashes, and none of
    them hashes to the zero sentinel. *)
Definition req_hashes (j : JournalRanges) (q : Request) : Prop :=
  match q with
  | Write lba data => ∀ s l, (s, l) ∈ split_at_boundaries j lba (blen data / 4096) →
      plain (blake3 (slice data lba s l)) = slice data lba s l ∧ blake3 (slice data lba s l) ≠ ZERO_HASH
  | Zeroes _ _ => True
  end.

(** The blocks of [q] up to [m] are in; everything else is as it was. *)
Record served (N : Z) (v0 : Volume) (q : Request) (m : Z) (v : Volume) : Prop := {
  sv_layers : layers_ok N (maps v);
  sv_base : base (maps v) = base (maps v0);
  sv_frozen : frozen (maps v) = frozen (maps v0);
  sv_journal : journal v = journal v0;
  sv_device : ∀ b, device (maps v) b =
    if decide (req_start q ≤ b < m) then req_block q (b - req_start q) else device (maps v0) b
}.

Lemma block_slice data lba s l b :
  0 ≤ lba → lba ≤ s → s < U64 → s ≤ b < s + l →
  block (slice data lba s l) (b - s) = block data (b - lba).
Proof.
  intros H0 Hs H64 Hb. unfold block, slice. unwrap.
  rewrite skipn_firstn_comm, take_take, drop_drop. f_equal; [lia|]. f_equal. lia.
Qed.

Lemma live_record_lower jr u ls off op :
  base (live_record jr u ls (record_at off op)) = base ls ∧
  frozen (live_record jr u ls (record_at off op)) = frozen ls.
Proof.
  destruct op as [s l h f d|s l|s l h]; cbn [record_at live_record]; [|done..].
  destruct (learn_body_fields (contains jr s) u h (wal_location u off (as_u32 (blen d)) (from_wal_flags f))
    (delta_lbamap_mut ls (λ m, LbaMap.insert m s l h u))) as (-> & -> & _). done.
Qed.

(** One more run of [q] in, given what the new map says about the run. *)
Lemma served_step N v0 q s l v v' (hit : Z → list Z) :
  served N v0 q s v → layers_ok N (maps v') →
  base (maps v') = base (maps v) → frozen (maps v') = frozen (maps v) → journal v' = journal v →
  req_start q ≤ s → 0 < l →
  (∀ b, device (maps v') b = if decide (s ≤ b < s + l) then hit b else device (maps v) b) →
  (∀ b, s ≤ b < s + l → hit b = req_block q (b - req_start q)) →
  served N v0 q (s + l) v'.
Proof.
  intros [Sl Sb Sf Sj Sd] Hl Hb Hf Hj Hs Hpos Hd Hhit. split; [done|by rewrite Hb|by rewrite Hf|by rewrite Hj|].
  intros b. rewrite Hd. destruct (decide (s ≤ b < s + l)).
  - rewrite Hhit by done. by rewrite decide_True by lia.
  - rewrite Sd. destruct (decide (req_start q ≤ b < s)); [by rewrite decide_True by lia|].
    by rewrite decide_False by lia.
Qed.

Lemma served_commit N v0 q s l v e m op :
  commits op m → op_start op = s → op_len op = l → 0 ≤ s → 0 < l < U32 → s + l ≤ N →
  served N v0 q s v → req_start q ≤ s →
  (∀ b, s ≤ b < s + l →
     (if decide (op_hash op = ZERO_HASH) then zero_block else block (plain (op_hash op)) (b - s)) =
     req_block q (b - req_start q)) →
  match m (v, e) with
  | ((v', _), Ok _) => served N v0 q (s + l) v'
  | ((v', _), Err _) => served N v0 q s v'
  end.
Proof.
  intros Hc Hs Hl H0 Hl32 HN Hsv Hq Hhit. destruct (m (v, e)) as [[v' e'] r] eqn:Hr.
  destruct (Hc _ _ _ _ _ Hr) as (Hj & _ & Hm & _). destruct r as [[]|er].
  - destruct Hm as (u & off & Hmaps & _). subst s l.
    destruct (live_record_view N (journal v) u (maps v) off op (sv_layers _ _ _ _ _ Hsv)) as [Hok Hv]; [done..|].
    destruct (live_record_lower (journal v) u (maps v) off op) as [Hb Hf].
    eapply served_step; [exact Hsv|by rewrite Hmaps|by rewrite Hmaps|by rewrite Hmaps|done|done|lia| |exact Hhit].
    intros b. unfold device at 1. rewrite Hmaps, Hv.
    by destruct (decide (op_start op ≤ b < op_start op + op_len op)).
  - destruct Hm as [Hm _]. destruct Hsv as [? ? ? Sj ?]. split; rewrite ?Hm; first [done|congruence].
Qed.

(** A run of a write: recognised, or committed. *)
Lemma served_run N v0 q s l v e data comp :
  0 ≤ s → 0 < l < U32 → s + l ≤ N → served N v0 q s v → req_start q ≤ s →
  plain (blake3 data) = data → blake3 data ≠ ZERO_HASH →
  (∀ b, s ≤ b < s + l → block data (b - s) = req_block q (b - req_start q)) →
  match commit_run s l data (blake3 data) comp (v, e) with
  | ((v', _), Ok _) => served N v0 q (s + l) v'
  | ((v', _), Err _) => served N v0 q s v'
  end.
Proof.
  intros H0 Hl HN Hsv Hq Hp Hz Hhit. unfold commit_run. rewrite vm_bind_run. cbn [gets fst].
  destruct (MapLayers.has_full_match (maps v) s l (blake3 data)) eqn:Hm.
  - rewrite vm_bind_run. cbn [modify fst snd].
    eapply (served_step _ _ _ _ _ v _ (λ b, block data (b - s))); [exact Hsv|apply Hsv|done..|lia| |exact Hhit].
    intros b. cbn [maps count_skip]. case_decide as Hb; [|done].
    destruct (has_full_match_layered N (maps v) s l (blake3 data) b) as (c & Hc & Hch & Hco);
      [apply Hsv|lia..|done|lia|].
    unfold device. by rewrite Hc, Hch, decide_False, Hp, Hco.
  - rewrite vm_bind_run.
    pose proof (served_commit N v0 q s l v e _ _ (write_commit_commits s l data (blake3 data) comp)
      eq_refl eq_refl H0 Hl HN Hsv Hq) as Hr. cbn [op_hash] in Hr.
    setoid_rewrite (decide_False (P := blake3 data = ZERO_HASH)) in Hr; [|done].
    rewrite Hp in Hr. specialize (Hr Hhit). by destruct (write_commit _ _ _ _ _ _) as [[v' e'] [?|?]].
Qed.
End device.
End live.

(** C1: A request is an update of the block device: with the blocks of the layered
    maps read through the hash's inverse on the buffers it hashes, a write or
    a zero run changes exactly its own blocks, to its own bytes, whether the
    content was appended or recognised as already there, and whatever journal
    windows it crosses; a request the kernel cuts short leaves a prefix of it,
    and every other block, the base and the frozen layers as they were. *)
Theorem request_updates_device {HB : Blake3} {HL : Lz4Block} {HC : Lz4Codec} {HU : UlidParts}
    plain N q v e :
  layers_ok N (maps v) → normal (journal v) → req_ok N q → req_hashes plain (journal v) q →
  match run_request q (v, e) with
  | ((v', _), Ok _) => served plain N v q (req_start q + req_len q) v'
  | ((v', _), Err _) =>
      ∃ m, req_start q ≤ m ≤ req_start q + req_len q ∧ served plain N v q m v'
  end.
Proof.
  intros Hok Hn Hq Hh. pose proof (wf_bound _ _ (lo_base _ _ Hok)) as HN. pose proof (req_len_nonneg q N Hq) as Hl0.
  set (I m (st : Volume * Env) := req_start q ≤ m ≤ req_start q + req_len q ∧ served plain N v q m st.1).
  assert (I (req_start q) (v, e)) as H0.
  { split; [lia|]. split; [done..|]. intros b. by rewrite decide_False by lia. }
  pose proof (run_request_runs N q (v, e) I (λ st, ∃ m, I m st) Hn ltac:(lia) Hq) as Hr.
  destruct (run_request q (v, e)) as [[v' e'] [u|er]]; apply Hr; try done;
    try (by intros st (m & _ & Hs); apply Hs); try (by intros m st HI; exists m).
  all: intros s' l [v1 e1] Hin Hs Hl Hle [_ Hsv]; cbn [fst] in Hsv; destruct q as [lba data|st len].
  all: destruct Hq as (Hq1 & Hq2 & Hq3); cbn [req_start req_len req_block] in *.
  all: try (intros Hsl Hsl32; destruct (Hh s' l Hin) as [Hp Hz];
    pose proof (served_run plain N v (Write lba data) s' l v1 e1 (slice data lba s' l)
      (maybe_compress (slice data lba s' l)) ltac:(lia) Hl ltac:(lia) Hsv Hs Hp Hz
      (λ b Hb, block_slice data lba s' l b Hq1 Hs ltac:(lia) Hb)) as Hrun;
    destruct (commit_run _ _ _ _ _ _) as [[v2 e2] [?|?]]; [|exists s'];
    (split; [cbn [req_start req_len]; lia|exact Hrun])).
  all: assert (∀ b, s' ≤ b < s' + l → (if decide (op_hash (OpZero s' l) = ZERO_HASH) then zero_block
    else block (plain (op_hash (OpZero s' l))) (b - s')) = req_block (Zeroes st len) (b - st)) as Hz
    by (intros b _; by rewrite decide_True).
  all: pose proof (served_commit plain N v (Zeroes st len) s' l v1 e1 _ _ (zero_commit_commits s' l)
      eq_refl eq_refl ltac:(lia) Hl ltac:(lia) Hsv Hs Hz) as Hrun;
    destruct (zero_commit _ _ _) as [[v2 e2] [?|?]]; [|exists s'];
    (split; [cbn [req_start req_len]; lia|exact Hrun]).
Qed.

(** ** Crash recovery *)

Section crash.
Context {HB : Blake3} {HL : Lz4Block} {HC : Lz4Codec} {HU : UlidParts}.
Context (N : Z) (R0 : Maps).

Definition wal_ulid_of (v : Volume) : Ulid := match wal v with Some o => ow_ulid o | None => 0 end.

(** Replaying [ops] onto the maps the epoch started from. *)
Definition recovered (v : Volume) (ops : list append_op) : Maps * list PendingWrite :=
  replay_records (journal v) (wal_ulid_of v) R0 (records_from HEADER_LEN ops).

(** The live volume is the replay of the records it has logged. *)
Record epoch_of (v : Volume) (ops : list append_op) : Prop := {
  eo_ops : Forall op_ok ops;
  eo_layers : layers_ok N (maps v);
  eo_base : lm_wf N (lbamap (recovered v ops).1);
  eo_stack : same_stack id (all_layers (maps v)) [(recovered v ops).1];
  eo_pending : pending v = (recovered v ops).2
}.

Lemma replay_records_snoc jr u m rs r :
  replay_records jr u m (rs ++ [r]) =
  ((replay_record jr u (replay_records jr u m rs).1 r).1,
   (replay_records jr u m rs).2 ++ [pending_of jr r]).
Proof.
  unfold replay_records. rewrite foldl_snoc. destruct (foldl _ _ rs) as [m1 pend]. cbn [fst snd].
  rewrite <-(replay_record_pending jr u m1 r). by destruct (replay_record jr u m1 r).
Qed.

Lemma recovered_snoc v ops op :
  recovered v (ops ++ [op]) =
  ((replay_record (journal v) (wal_ulid_of v) (recovered v ops).1 (record_at (payload_at ops op) op)).1,
   (recovered v ops).2 ++ [pending_of (journal v) (record_at (payload_at ops op) op)]).
Proof.
  unfold recovered. rewrite records_from_app. rewrite <-blen_log_bytes, record_of_at. apply replay_records_snoc.
Qed.

(** [recovered] reads the journal and the ULID, the latter only if there are records. *)
Lemma recovered_ext v v' ops :
  journal v' = journal v → (ops = [] ∨ wal_ulid_of v' = wal_ulid_of v) → recovered v' ops = recovered v ops.
Proof. intros Hj [->|Hu]; unfold recovered; rewrite Hj, ?Hu; done. Qed.

Lemma epoch_unchanged v v' ops :
  epoch_of v ops → maps v' = maps v → journal v' = journal v → pending v' = pending v →
  (ops = [] ∨ wal_ulid_of v' = wal_ulid_of v) → epoch_of v' ops.
Proof.
  intros [Ho Hl Hb Hs Hp] Hm Hj Hpe Hu.
  split; rewrite ?(recovered_ext v v' ops Hj Hu), ?Hm, ?Hpe; done.
Qed.

Lemma ulid_kept v v' ops :
  log_clean v ops → (∀ o, wal v = Some o → wal_ulid_of v' = ow_ulid o) →
  ops = [] ∨ wal_ulid_of v' = wal_ulid_of v.
Proof.
  unfold log_clean. intros Hl Hu. unfold wal_ulid_of at 2. destruct (wal v) as [o|]; [right; by apply Hu|by left].
Qed.

Lemma epoch_commit m op v e ops :
  commits op m → op_ok op → 0 < op_len op → op_start op + op_len op ≤ N → 0 ≤ op_start op → op_len op < U32 →
  epoch_of v ops → log_clean v ops → env_ok e →
  match m (v, e) with
  | ((v', e'), r) =>
      env_ok e' ∧ wal_len v ≤ wal_len v' ∧ journal v' = journal v ∧
      if is_ok r then wal_len v' < U64 → epoch_of v' (ops ++ [op]) ∧ log_clean v' (ops ++ [op])
      else epoch_of v' ops ∧ log_torn v' ops
  end.
Proof.
  intros Hc Hop Hl HN H0 H32 Hep Hlog He. destruct (m (v, e)) as [[v' e'] r] eqn:Hr.
  destruct (Hc _ _ _ _ _ Hr) as (Hj & Hg & Hm & Hw). destruct (Hw ops He Hlog Hop) as [He' Ht].
  split; [done|]. split; [done|]. split; [done|]. destruct r as [[]|er]; cbn [is_ok].
  - destruct Hm as (u & off & Hmaps & Hpend & (w & Hwal) & Hlive). destruct (Hlive ops He Hlog Hop) as [Hu Hfin].
    intros Hsz. destruct (Hfin Hsz) as [Hclean ->]. split; [|done].
    assert (wal_ulid_of v' = u) as Hu' by (unfold wal_ulid_of; by rewrite Hwal).
    assert (recovered v' ops = recovered v ops) as Hrec.
    { apply recovered_ext; [done|]. apply ulid_kept; [done|]. intros o Ho. rewrite Hu'. symmetry. by apply Hu. }
    destruct Hep as [Eo El Eb Es Ep].
    destruct (live_record_view N (journal v) u (maps v) (payload_at ops op) op El) as [El' _]; [lia..|].
    destruct (live_record_replay N (journal v) u (maps v) (recovered v ops).1 (payload_at ops op) op El Eb)
      as [Eb' Es']; [lia..|done|].
    split; rewrite ?recovered_snoc, ?Hrec, ?Hu', ?Hj, ?Hmaps, ?Hpend; cbn [fst snd]; try done.
    + by apply Forall_app_2, Forall_singleton.
    + by rewrite Ep.
  - destruct Hm as [Hmaps Hpend]. destruct (Ht eq_refl) as [Htorn Hu]. split; [|done].
    apply (epoch_unchanged v); [done..|]. apply ulid_kept; [done|]. intros o Ho. specialize (Hu o Ho).
    unfold wal_ulid_of. destruct (wal v'); simpl in Hu; congruence.
Qed.

(** What [maybe_compress] leaves is an acceptable record. *)
Lemma data_op_ok s l data :
  0 ≤ s < U64 → 0 ≤ l < U32 → 0 < blen data < U32 →
  op_ok (OpData s l (blake3 data) (match maybe_compress data with Some _ => COMPRESSED | None => 0 end)
           (default data (maybe_compress data))).
Proof.
  intros Hs Hl Hd. assert (∀ c, maybe_compress data = Some c →
    blen c < U32 ∧ decompress_size_prepended c = Some data) as Hc.
  { unfold maybe_compress. intros c. cbv zeta. case_bool_decide as E; [done|]. intros [= <-].
    split; [|apply compress_decompress; lia]. unfold MIN_COMPRESSION_RATIO_NUM, MIN_COMPRESSION_RATIO_DEN in E.
    pose proof (blen_nonneg (compress_prepend_size data)).
    pose proof (Z.div_mod (blen (compress_prepend_size data) * 3) 2 ltac:(lia)).
    pose proof (Z.mod_pos_bound (blen (compress_prepend_size data) * 3) 2 ltac:(lia)). lia. }
  cbn [op_ok]. split; [done|]. split; [done|]. split; [apply blake3_length|].
  destruct (maybe_compress data) as [c|]; cbn [default].
  - destruct (Hc c eq_refl). split; [done|]. split; [done|]. split; [done|]. by exists data.
  - split; [lia|]. split; [done|]. split; [done|]. by exists data.
Qed.

(** Either the log is clean, or the last append was cut short. *)
Definition live_ok (v : Volume) : Prop := ∃ ops, epoch_of v ops ∧ log_torn v ops.
Definition live_clean (v : Volume) : Prop := ∃ ops, epoch_of v ops ∧ log_clean v ops.

Lemma clean_ok v : live_clean v → live_ok v.
Proof. intros (ops & ? & ?). exists ops. split; [done|]. by apply log_clean_torn. Qed.

(** The invariant a request carries, for as long as the log fits its width. *)
Definition tracked (j : JournalRanges) (st : Volume * Env) : Prop :=
  journal st.1 = j ∧ (wal_len st.1 < U64 → env_ok st.2 ∧ live_clean st.1).
Definition tracked_end (j : JournalRanges) (st : Volume * Env) : Prop :=
  journal st.1 = j ∧ (wal_len st.1 < U64 → live_ok st.1).

Lemma tracked_weaken j st : tracked j st → tracked_end j st.
Proof. intros [Hj Hc]. split; [done|]. intros Hsz. by apply clean_ok, Hc. Qed.

Lemma tracked_commit m op j st :
  commits op m → op_ok op → 0 < op_len op → op_start op + op_len op ≤ N → 0 ≤ op_start op → op_len op < U32 →
  tracked j st →
  match m st with (st', Ok _) => tracked j st' | (st', Err _) => tracked_end j st' end.
Proof.
  intros Hc Hop Hl HN H0 H32 (Hj & Hcl). destruct st as [v e]. cbn [fst snd] in *.
  destruct (m (v, e)) as [[v' e'] r] eqn:Hr. destruct (Hc _ _ _ _ _ Hr) as (Hj' & Hg & _).
  assert (wal_len v' < U64 → env_ok e' ∧
    ∃ ops, if is_ok r then epoch_of v' ops ∧ log_clean v' ops else epoch_of v' ops ∧ log_torn v' ops) as Hfin.
  { intros Hsz. destruct Hcl as (He & ops & Hep & Hlog); [lia|].
    pose proof (epoch_commit m op v e ops Hc Hop Hl HN H0 H32 Hep Hlog He) as Hs. rewrite Hr in Hs.
    destruct Hs as (He' & _ & _ & Hs). split; [done|]. destruct (is_ok r); eauto. }
  destruct r as [[]|er]; cbn [is_ok] in Hfin; (split; [simpl; congruence|]); intros Hsz; by apply Hfin.
Qed.

Lemma tracked_run j st s l data :
  0 ≤ s → 0 < l < U32 → s + l ≤ N → N < U64 → blen data = 4096 * l → 4096 * l < U32 → tracked j st →
  match commit_run s l data (blake3 data) (maybe_compress data) st with
  | (st', Ok _) => tracked j st' | (st', Err _) => tracked_end j st' end.
Proof.
  intros H0 Hl HN H64 Hd Hd32 Ht. unfold commit_run. rewrite vm_bind_run.
  destruct st as [v e]. cbn [gets fst]. destruct (MapLayers.has_full_match _ _ _ _).
  - rewrite vm_bind_run. cbn [modify fst snd]. destruct Ht as [Hj Hcl]. split; [done|].
    intros Hsz. destruct (Hcl Hsz) as (He & ops & Hep & Hlog). split; [done|].
    exists ops. split; [|done]. by apply (epoch_unchanged v); auto.
  - rewrite vm_bind_run.
    pose proof (tracked_commit _ _ j (v, e) (write_commit_commits s l data (blake3 data) (maybe_compress data))
      (data_op_ok s l data ltac:(lia) ltac:(lia) ltac:(lia)) (proj1 Hl) HN H0 (proj2 Hl) Ht) as Hr.
    by destruct (write_commit _ _ _ _ _ _) as [[v' e'] [?|?]].
Qed.

Lemma tracked_request q st :
  normal (journal st.1) → N < U64 → req_ok N q → tracked (journal st.1) st →
  match run_request q st with
  | (st', Ok _) => tracked (journal st.1) st' | (st', Err _) => tracked_end (journal st.1) st' end.
Proof.
  intros Hn HN Hq Ht. apply (run_request_runs N q st (λ _, tracked (journal st.1)) (tracked_end (journal st.1)));
    [done..|by intros ? []|by intros _ ?; apply tracked_weaken| |done].
  intros s l st' _ Hs Hl Hle Ht'. destruct Hq as (Hq1 & Hq2 & _). destruct q as [lba data|start len].
  - intros Hd Hd32. by apply tracked_run; [lia..| | |].
  - apply (tracked_commit _ _ _ _ (zero_commit_commits s l)); cbn [op_ok op_start op_len]; (done || lia).
Qed.

(** A session: requests in order, up to the first the kernel fails. *)
Fixpoint serve (qs : list Request) : VM unit :=
  match qs with [] => mret () | q :: qs => _ ← run_request q; serve qs end.

Lemma tracked_serve qs st :
  normal (journal st.1) → N < U64 → Forall (req_ok N) qs → tracked (journal st.1) st →
  match serve qs st with
  | (st', Ok _) => tracked (journal st.1) st' | (st', Err _) => tracked_end (journal st.1) st' end.
Proof.
  intros Hn HN Hqs. revert st Hn. induction Hqs as [|q qs Hq _ IH]; intros st Hn Ht; cbn [serve]; [done|].
  rewrite vm_bind_run. pose proof (tracked_request q st Hn HN Hq Ht) as Hr.
  destruct (run_request q st) as [st' [?|?]]; [|done].
  assert (journal st'.1 = journal st.1) as Hj by apply Hr. rewrite <-Hj in *. by apply IH.
Qed.
End crash.

(** C2: Recovery reproduces the live volume: after any session of writes and zero
    runs from an epoch's start, ended by choice or by a failed append at any
    byte, scanning the WAL the session left and replaying it onto the maps the
    epoch started from resolves every block to the same content and claimant,
    every durable and journal body alike, yields the same pending writes in
    order with the same WAL offsets, and reopens the same log under the same
    ULID; a session that logged nothing left nothing to recover. *)
Theorem recovery_reproduces_live {HB : Blake3} {HL : Lz4Block} {HC : Lz4Codec} {HU : UlidParts}
    N R0 qs v e v' e' r :
  wal v = None → pending v = [] → layers_ok N (maps v) → normal (journal v) → env_ok e →
  lm_wf N (lbamap R0) → same_stack id (all_layers (maps v)) [R0] → Forall (req_ok N) qs →
  serve qs (v, e) = ((v', e'), r) → wal_len v' < U64 →
  match wal v' with
  | None => same_stack id (all_layers (maps v')) [R0] ∧ pending v' = []
  | Some o => ∃ m w,
      recover_wal (journal v') (ow_ulid o) (wl_file (ow_wal o)) R0 = Ok (m, w, pending v') ∧
      same_stack id (all_layers (maps v')) [m] ∧
      ow_ulid w = ow_ulid o ∧ wl_size (ow_wal w) = wl_size (ow_wal o) ∧
      (is_ok r = true → ow_wal w = ow_wal o)
  end.
Proof.
  intros Hw Hp Hok Hn He HR0 Hst Hqs Hr Hsz. pose proof (wf_bound _ _ HR0) as HN.
  assert (tracked N R0 (journal v) (v, e)) as Ht.
  { split; [done|]. intros _. split; [done|]. exists []. split; [by split|]. unfold log_clean. cbn [fst]. by rewrite Hw. }
  pose proof (tracked_serve N R0 qs (v, e) Hn ltac:(lia) Hqs Ht) as Hs. rewrite Hr in Hs. cbn [fst] in Hs.
  assert (∃ ops, epoch_of N R0 v' ops ∧ log_torn v' ops ∧ (is_ok r = true → log_clean v' ops)) as (ops & Hep & Htorn & Hclean).
  { destruct r as [[]|er].
    - destruct Hs as (_ & Hs). destruct (Hs Hsz) as (_ & ops & Hep & Hc). exists ops.
      split; [done|]. split; [by apply log_clean_torn|done].
    - destruct Hs as (_ & Hs). destruct (Hs Hsz) as (ops & Hep & Hc). by exists ops. }
  destruct Hep as [Eo El Eb Es Ep]. unfold log_torn, log_clean in *.
  destruct (wal v') as [o|] eqn:Hwal; [|subst ops; by split].
  destruct Htorn as (op & n & Hop & Hlt & Ho).
  destruct (scan_torn ops op n Eo Hop Hlt) as [Hscan _].
  unfold recover_wal, replay_wal_records. rewrite Ho. cbn [wl_file wl_size].
  rewrite Hscan. unfold mbind, io_bind.
  unfold recovered, wal_ulid_of in Es, Ep. rewrite Hwal in Es, Ep.
  destruct (replay_records (journal v') (ow_ulid o) R0 (records_from HEADER_LEN ops)) as [m pend].
  cbn [fst snd] in *. subst pend. do 2 eexists. split; [done|]. split; [done|]. split; [done|].
  split; [done|]. intros Hokr. specialize (Hclean Hokr). rewrite Ho in Hclean. rewrite Hclean. done.
Qed.

(** C33: The write loop terminates in its two levels: with any more fuel the
    outcome is the same, and it is one pass over the runs of the write's split,
    in order, each committed whole and never split again. *)
Theorem commit_terminates {HB : Blake3} {HL : Lz4Block} {HC : Lz4Codec} {HU : UlidParts}
    n lba len data h comp s :
  normal (journal s.1) → 0 ≤ lba → 0 < len < U32 → lba + len < U64 → blen data = 4096 * len →
  commit_loop (2 + n) lba data h comp s = commit_or_skip lba data h comp s ∧
  commit_or_skip lba data h comp s =
    if crosses_boundary (journal s.1) lba len
    then for_runs (split_at_boundaries (journal s.1) lba len) (commit_slice data lba) false s
    else commit_run lba len data h comp s.
Proof.
  intros Hn H0 Hl H64 Hd. unfold commit_or_skip.
  pose proof (commit_loop_flat n lba len data h comp s Hn H0 Hl H64 Hd) as H1.
  pose proof (commit_loop_flat 0 lba len data h comp s Hn H0 Hl H64 Hd) as H2.
  split; [|exact H2]. change (2 + n)%nat with (S (S n)). by rewrite H1, H2.
Qed.

(** ** Concrete inputs *)

Definition sevens : list Z := replicate (Z.to_nat 8192) 7.

(** A window over blocks 100 to 109, and a write that enters it. *)
Definition vol_sample : Volume :=
  mkVolume (ml_new base_sample) [(100, 10)] true None [] [] (mkMint 20 false) 0 0.

Definition env_sample : Env :=
  mkEnv [[Ok 30; Ok 5000]; [Ok 2000; Err OtherError]] [mkNewWal 30 (Ok ()) [Ok 8] (Ok ())].

Lemma vol_sample_ok : layers_ok 1000 (maps vol_sample).
Proof. split; [apply sample_wf|constructor|]. apply lm_new_wf. lia. Qed.

Lemma vol_sample_journal : normal (journal vol_sample).
Proof. split; [repeat constructor|]. apply Forall_singleton. unfold range_ok. simpl. lia. Qed.

Lemma sevens_req : req_ok 1000 (Write 99 sevens).
Proof. vm_compute. split; [|split]; (discriminate || done). Qed.

Lemma sevens_slice s l :
  (s, l) ∈ split_at_boundaries (journal vol_sample) 99 (blen sevens / 4096) →
  slice sevens 99 s l = replicate (Z.to_nat 4096) 7.
Proof.
  replace (split_at_boundaries (journal vol_sample) 99 (blen sevens / 4096)) with [(99, 1); (100, 1)]
    by (vm_compute; reflexivity).
  assert (∀ k, (k ≤ 4096)%nat → take (Z.to_nat 4096) (drop k sevens) = replicate (Z.to_nat 4096) 7) as Hs.
  { intros k Hk. unfold sevens. rewrite drop_replicate, take_replicate. f_equal. lia. }
  assert (slice sevens 99 99 1 = replicate (Z.to_nat 4096) 7 ∧ slice sevens 99 100 1 = replicate (Z.to_nat 4096) 7)
    as [H1 H2] by (split; unfold slice; apply Hs; vm_compute; lia).
  intros Hin. apply elem_of_cons in Hin as [[= -> ->]|Hin]; [exact H1|].
  apply list_elem_of_singleton in Hin as [= -> ->]. exact H2.
Qed.

Lemma env_sample_ok : env_ok env_sample.
Proof.
  split; repeat (apply Forall_cons_2 || apply Forall_nil_2); intros n; cbn; by intros [= <-].
Qed.

Lemma request_updates_device_witness :
  match @run_request toy_blake3 rle_lz4 rle_codec toy_ulid_parts (Write 99 sevens) (vol_sample, env_sample) with
  | ((v', _), Ok _) => served (λ _, replicate (Z.to_nat 4096) 7) 1000 vol_sample (Write 99 sevens) 101 v'
  | ((v', _), Err _) => ∃ m, 99 ≤ m ≤ 101 ∧
      served (λ _, replicate (Z.to_nat 4096) 7) 1000 vol_sample (Write 99 sevens) m v'
  end.
Proof.
  apply (@request_updates_device toy_blake3 rle_lz4 rle_codec toy_ulid_parts
    (λ _, replicate (Z.to_nat 4096) 7) 1000 (Write 99 sevens) vol_sample env_sample).
  - apply vol_sample_ok.
  - apply vol_sample_journal.
  - apply sevens_req.
  - intros s l Hin. rewrite (sevens_slice s l Hin). split; [reflexivity|].
    intros Hz. apply (f_equal (λ h, from_le h =? 0)) in Hz. vm_compute in Hz. discriminate Hz.
Defined.

Lemma recovery_reproduces_live_witness : ∃ v' e' r,
  @serve toy_blake3 rle_lz4 rle_codec toy_ulid_parts [Zeroes 5 3; Write 99 sevens] (vol_sample, env_sample) =
    ((v', e'), r) ∧
  match wal v' with
  | None => False
  | Some o => ∃ m w,
      @recover_wal toy_blake3 rle_lz4 (journal v') (ow_ulid o) (wl_file (ow_wal o)) base_sample =
        Ok (m, w, pending v') ∧
      same_stack id (all_layers (maps v')) [m] ∧ ow_ulid w = 30
  end.
Proof.
  destruct (@serve toy_blake3 rle_lz4 rle_codec toy_ulid_parts [Zeroes 5 3; Write 99 sevens] (vol_sample, env_sample))
    as [[v' e'] r] eqn:E. exists v', e', r. split; [reflexivity|].
  assert (wal_len v' < U64 ∧ option_map ow_ulid (wal v') = Some 30) as [Hsz Hu].
  { assert ((λ x, (wal_len x.1.1 <? U64, option_map ow_ulid (wal x.1.1)))
      (@serve toy_blake3 rle_lz4 rle_codec toy_ulid_parts [Zeroes 5 3; Write 99 sevens] (vol_sample, env_sample)) =
      (true, Some 30)) as Hc by (vm_compute; reflexivity).
    rewrite E in Hc. cbn [fst] in Hc. injection Hc as Hc1 Hc2. split; [by apply Z.ltb_lt|exact Hc2]. }
  pose proof (@recovery_reproduces_live toy_blake3 rle_lz4 rle_codec toy_ulid_parts 1000 base_sample
    [Zeroes 5 3; Write 99 sevens] vol_sample env_sample v' e' r eq_refl eq_refl
    vol_sample_ok vol_sample_journal env_sample_ok sample_wf) as H.
  destruct (wal v') as [o|]; [|discriminate Hu]. injection Hu as Hu.
  destruct H as (m & w & H1 & H2 & H3 & _); [| |exact E|exact Hsz|].
  - unfold ml_new. by apply same_stack_empty.
  - apply Forall_cons_2; [unfold req_ok; cbn [req_start req_len]; lia|].
    apply Forall_singleton, sevens_req.
  - exists m, w. split; [exact H1|]. split; [exact H2|]. by rewrite H3.
Defined.

Lemma commit_terminates_witness :
  @commit_loop toy_blake3 rle_lz4 rle_codec toy_ulid_parts (2 + 7) 99 sevens [] None (vol_sample, env_sample) =
  @commit_or_skip toy_blake3 rle_lz4 rle_codec toy_ulid_parts 99 sevens [] None (vol_sample, env_sample).
Proof.
  assert (blen sevens = 4096 * 2) as Hl by (vm_compute; reflexivity).
  exact (proj1 (@commit_terminates toy_blake3 rle_lz4 rle_codec toy_ulid_parts 7 99 2 sevens [] None
    (vol_sample, env_sample) vol_sample_journal ltac:(lia) ltac:(lia) ltac:(lia) Hl)).
Defined.
