(* ===== verification/Promote.v ===== *)
(** * Promotion: an epoch becomes a segment (volume/mod.rs, volume/jobs.rs, actor.rs)

    The worker stages the epoch's pending writes against the folded maps (dedup
    refs, apply tokens, journal share), pairs each with its bytes from the WAL,
    writes the segments, and the apply moves every index location and claim
    from the WAL to them. *)

From stdpp Require Import base gmap list.
From S2P Require Import Prelude Bytes Segment UlidMint WriteLog ChunkTree Codec SegmentCodec LbaMap ExtentIndex MapLayers Journal Volume.
Open Scope Z_scope.

(** ** Staging *)

Record DedupMintStats := mkDedupMintStats { minted_entries : Z; wal_body_bytes : Z }.

(** One pending write at formation: a body whose hash resolves elsewhere becomes
    a dedup ref. *)
Definition classify_write (ix : ExtentIndex) (wal_ulid : Ulid) (w : PendingWrite)
    : option PendingWrite :=
  match e_kind (pw_entry w) with
  | Data | Inline =>
      if e_journal (pw_entry w) then None
      else
        match ExtentIndex.lookup ix (e_hash (pw_entry w)) with
        | None => None
        | Some loc =>
            if bool_decide (segment_id loc = wal_ulid)
               && bool_decide (Some (body_offset loc) = wal_body_offset w) then None
            else Some (mkPendingWrite
                   (new_dedup_ref (e_hash (pw_entry w)) (e_start_lba (pw_entry w)) (e_lba_length (pw_entry w)))
                   None)
        end
  | _ => None
  end.

Definition classify_pending_dedup_entries (writes : list PendingWrite) (ix : ExtentIndex)
    (wal_ulid : Ulid) : list PendingWrite * DedupMintStats :=
  foldl (λ '(out, stats) w,
           match classify_write ix wal_ulid w with
           | None => (out ++ [w], stats)
           | Some w' => (out ++ [w'], mkDedupMintStats (u64_add (minted_entries stats) 1)
                           (u64_add (wal_body_bytes stats) (e_stored_length (pw_entry w))))
           end) ([], mkDedupMintStats 0 0) writes.

Definition snapshot_pre_promote_offsets (writes : list PendingWrite) (ix : ExtentIndex)
    : list (option Z) :=
  map (λ w, match e_kind (pw_entry w) with
            | Data | Inline | CanonicalData | CanonicalInline =>
                body_offset <$> ExtentIndex.lookup ix (e_hash (pw_entry w))
            | DedupRef | Zero | Delta | CanonicalDelta => None
            end) writes.

(** The writes with their tokens, position by position. *)
Record PendingPartition := mkPartition { writes : list PendingWrite; pre_promote_offsets : list (option Z) }.

Definition push (p : PendingPartition) (w : PendingWrite) (pre : option Z) : PendingPartition :=
  mkPartition (writes p ++ [w]) (pre_promote_offsets p ++ [pre]).

Definition inside (jr : JournalRanges) (w : PendingWrite) : bool := contains jr (e_start_lba (pw_entry w)).

Definition mark_journal (j : bool) (w : PendingWrite) : PendingWrite :=
  mkPendingWrite (set_journal j (pw_entry w)) (wal_body_offset w).

Definition split_step (jr : JournalRanges) (acc : PendingPartition * PendingPartition)
    (wp : PendingWrite * option Z) : PendingPartition * PendingPartition :=
  let '(primary, journal) := acc in
  let '(w, pre) := wp in
  let w := mark_journal (inside jr w) w in
  if e_journal (pw_entry w) then (primary, push journal w pre) else (push primary w pre, journal).

Definition split_journal (jr : JournalRanges) (p : PendingPartition)
    : PendingPartition * option PendingPartition :=
  if jr_is_empty jr || negb (existsb (inside jr) (writes p)) then (p, None)
  else
    let '(primary, journal) :=
      foldl (split_step jr) (mkPartition [] [], mkPartition [] []) (zip (writes p) (pre_promote_offsets p)) in
    (primary, Some journal).

Record JournalPartition := mkJournalPartition { jp_segment_ulid : Ulid; jp_partition : PendingPartition }.

Definition stage_pending_for_promote (ws : list PendingWrite) (ix : ExtentIndex) (wal_ulid : Ulid)
    (jr : JournalRanges) (journal_segment_ulid : Ulid)
    : PendingPartition * option JournalPartition * DedupMintStats :=
  let '(ws, dedup) := classify_pending_dedup_entries ws ix wal_ulid in
  let pre := snapshot_pre_promote_offsets ws ix in
  let '(primary, journal) := split_journal jr (mkPartition ws pre) in
  (primary, mkJournalPartition journal_segment_ulid <$> journal, dedup).

(** ** Forming the segments *)

Definition with_body (codec : Codec) (stored_length : Z) (e : SegmentEntry) : SegmentEntry :=
  mkSegmentEntry (e_hash e) (e_start_lba e) (e_lba_length e) codec (e_kind e)
    (e_stored_offset e) stored_length (e_inline e) (e_delta_options e) (e_journal e)
    (e_sketch e) (e_stored_hash e).

Section form.
Context {HB : Blake3} {HL : Lz4Block} {HC : Lz4Codec} {HT : Blake3Tree} {HZ : ZstdBulk}.

(** One write with its stored bytes: an inline entry keeps the WAL's form, a body
    is recoded. *)
Definition materialise_one (file : list Z) (w : PendingWrite) : io PendingEntry :=
  let entry := pw_entry w in
  match wal_body_offset w with
  | None => Ok (mkPendingEntry entry None)
  | Some off =>
      buf ← read_exact_at file off (e_stored_length entry);
      if is_inline (e_kind entry) then Ok (mkPendingEntry (with_inline_bytes (Some buf) entry) None)
      else
        plain ← decode (e_codec entry) buf;
        form ← compress_body plain (e_journal entry);
        let '(codec, stored) := default (CodecNone, plain) form in
        Ok (mkPendingEntry (with_body codec (as_u32 (blen stored)) entry) (Some stored))
  end.

Fixpoint materialise_pending_bodies (file : list Z) (ws : list PendingWrite) : io (list PendingEntry) :=
  match ws with
  | [] => Ok []
  | w :: ws => p ← materialise_one file w; ps ← materialise_pending_bodies file ws; Ok (p :: ps)
  end.

Context {HS : Signer} {HUb : UlidBytes}.

(** [write_and_commit] up to its rename: the file, its body offset, the entries. *)
Definition write_and_commit (pendings : list PendingEntry) (sketch : bool)
    : io (list Z * Z * list SegmentEntry) :=
  write_segment_full decode pendings [] [] sketch.

(** One destination segment's share of a promote. *)
Record ApplyPartition := mkApplyPartition {
  ap_segment_ulid : Ulid;
  ap_body_section_start : Z;
  ap_delta_region : Z;
  ap_entries : list SegmentEntry;
  ap_tokens : list (option Z)
}.

Record PromoteResult := mkPromoteResult {
  pr_old_wal_ulid : Ulid;
  pr_primary : ApplyPartition;
  pr_journal : option ApplyPartition
}.

(** What a promote meets outside the volume: the WAL's sync, its bytes, and the
    commits of the two files. *)
Record ExecEnv := mkExecEnv {
  wal_synced : io unit; wal_file : io (list Z);
  primary_committed : io unit; journal_committed : io unit; persist_sketches : bool
}.

(** The job: the frozen layers, the epoch's writes, the reserved ULIDs. *)
Record PromoteJob := mkPromoteJob {
  pj_segment_ulid : Ulid;
  pj_old_wal : OpenWal;
  pj_pending : list PendingWrite;
  pj_journal_ranges : JournalRanges;
  pj_journal_segment_ulid : Ulid;
  pj_layers : MapLayers
}.

Definition pj_old_wal_ulid (job : PromoteJob) : Ulid := ow_ulid (pj_old_wal job).
Definition with_pending (ws : list PendingWrite) (job : PromoteJob) : PromoteJob :=
  mkPromoteJob (pj_segment_ulid job) (pj_old_wal job) ws (pj_journal_ranges job)
    (pj_journal_segment_ulid job) (pj_layers job).

(** A partition paired with its bytes and written. *)
Definition form_partition (wal_bytes : io (list Z)) (sketch : bool) (committed : io unit)
    (segment_ulid : Ulid) (p : PendingPartition) : io ApplyPartition :=
  file ← (if existsb (λ w, bool_decide (is_Some (wal_body_offset w))) (writes p) then wal_bytes else Ok []);
  pendings ← materialise_pending_bodies file (writes p);
  '(_, bss, entries) ← write_and_commit pendings sketch;
  _ ← committed;
  Ok (mkApplyPartition segment_ulid bss 0 entries (pre_promote_offsets p)).

(** An empty primary writes no segment; with the delta tiers off there is no
    delta region. *)
Definition write_promote (env : ExecEnv) (job : PromoteJob) (primary : PendingPartition)
    (journal : option JournalPartition) : io PromoteResult :=
  _ ← wal_synced env;
  p ← (if bool_decide (writes primary = [])
       then Ok (mkApplyPartition (pj_segment_ulid job) 0 0 [] (pre_promote_offsets primary))
       else form_partition (wal_file env) (persist_sketches env) (primary_committed env)
              (pj_segment_ulid job) primary);
  match journal with
  | None => Ok (mkPromoteResult (pj_old_wal_ulid job) p None)
  | Some j =>
      jp ← form_partition (wal_file env) (persist_sketches env) (journal_committed env)
             (jp_segment_ulid j) (jp_partition j);
      Ok (mkPromoteResult (pj_old_wal_ulid job) p (Some jp))
  end.

Definition journal_writes (journal : option JournalPartition) : list PendingWrite :=
  match journal with Some j => writes (jp_partition j) | None => [] end.

(** A failure gives the job back with its staged writes. *)
Definition execute_promote (env : ExecEnv) (job : PromoteJob)
    : PromoteResult + (io_error * PromoteJob) :=
  let '(primary, journal, _) :=
    stage_pending_for_promote (pj_pending job) (extent_index (materialised (pj_layers job)))
      (pj_old_wal_ulid job) (pj_journal_ranges job) (pj_journal_segment_ulid job) in
  match write_promote env job primary journal with
  | Ok result => inl result
  | Err error => inr (error, with_pending (writes primary ++ journal_writes journal) job)
  end.
End form.

(** ** The apply *)

(** One entry of the index loop. *)
Definition apply_entry (old_wal_ulid : Ulid) (part : ApplyPartition) (ix : ExtentIndex)
    (raw_idx : Z) (entry : SegmentEntry) (token : option Z) : io ExtentIndex :=
  let loc inline := mkExtentLocation (ap_segment_ulid part) (e_stored_offset entry)
                      (e_stored_length entry) (e_codec entry) Local (ap_body_section_start part) inline in
  let ctx := mkCtx (ap_segment_ulid part) (ap_body_section_start part) TierLocal
               (Some (Full (ap_body_section_start part) (ap_delta_region part))) EntryInline in
  match e_kind entry with
  | DedupRef | Zero => Ok ix
  | Delta =>
      match token with
      | None => Ok ix
      | Some off =>
          let ix := (remove_if_matches ix (e_hash entry) old_wal_ulid off).1 in
          ExtentIndex.register_entry_consuming_inputs ix entry (as_u32 raw_idx) ctx {[ old_wal_ulid ]}
      end
  | Data | Inline | CanonicalData | CanonicalInline | CanonicalDelta =>
      let idata := if is_inline (e_kind entry) then e_inline entry else None in
      if e_journal entry then
        Ok (rekey_journal ix old_wal_ulid (ap_segment_ulid part) (e_hash entry) (loc idata))
      else
        match token with
        | None => Ok ix
        | Some off => Ok (replace_if_matches ix (e_hash entry) old_wal_ulid off (loc idata)).1
        end
  end.

Fixpoint apply_index (old_wal_ulid : Ulid) (part : ApplyPartition) (ix : ExtentIndex) (raw_idx : Z)
    (rows : list (SegmentEntry * option Z)) : io ExtentIndex :=
  match rows with
  | [] => Ok ix
  | (entry, token) :: rows =>
      ix ← apply_entry old_wal_ulid part ix raw_idx entry token;
      apply_index old_wal_ulid part ix (raw_idx + 1) rows
  end.

Definition claim_hash (entry : SegmentEntry) : Hash :=
  if decide (e_kind entry = Zero) then ZERO_HASH else e_hash entry.

(** Bump the claims of every entry that makes one. *)
Definition apply_claims (segment_ulid : Ulid) (lm : LbaMap) (entries : list SegmentEntry) : LbaMap :=
  foldl (λ lm entry,
           if is_canonical_only (e_kind entry) then lm
           else (set_claimant_if_matches lm (e_start_lba entry) (e_lba_length entry)
                   (claim_hash entry) segment_ulid).1) lm entries.

Definition apply_promoted_partition (old_wal_ulid : Ulid) (m : Maps) (part : ApplyPartition) : io Maps :=
  ix ← apply_index old_wal_ulid part (extent_index m) 0 (zip (ap_entries part) (ap_tokens part));
  Ok (mkMaps (apply_claims (ap_segment_ulid part) (lbamap m) (ap_entries part)) ix).

Definition apply_promoted_entries (result : PromoteResult) (m : Maps) : io Maps :=
  m ← apply_promoted_partition (pr_old_wal_ulid result) m (pr_primary result);
  match pr_journal result with
  | None => Ok m
  | Some j => apply_promoted_partition (pr_old_wal_ulid result) m j
  end.

Definition fold_promote_result (ls : MapLayers) (result : PromoteResult) : io Maps :=
  fold_promote ls (pr_old_wal_ulid result) (apply_promoted_entries result).

(** ** The volume's side *)

(** A first derivation goes live when the config write holds. *)
Definition flip_window (v : Volume) (config : io unit) (ranges : JournalRanges) : Volume :=
  match config with
  | Err _ => v
  | Ok _ => mkVolume (maps v) (if jr_is_empty ranges then journal v else ranges) true
              (wal v) (rotated_wals v) (pending v) (mint v) (skipped_writes v) (skipped_bytes v)
  end.

(** The filesystem scan's answer, then the flip. *)
Definition poll_derive_and_flip (v : Volume) (scan : io (option JournalRanges)) (config : io unit) : Volume :=
  match scan with
  | Ok (Some ranges) => flip_window v config ranges
  | Ok None | Err _ => v
  end.

(** What a take meets: the mint's clock, the filesystem scan, the config write. *)
Record TakeEnv := mkTakeEnv {
  te_candidate : Ulid; te_scan : io (option JournalRanges); te_config : io unit
}.

Definition forget_rotated_wal (v : Volume) (w : Ulid) : Volume :=
  mkVolume (maps v) (journal v) (journal_derived v) (wal v) (filter (λ u, u ≠ w) (rotated_wals v))
    (pending v) (mint v) (skipped_writes v) (skipped_bytes v).

Section volume.
Context {HU : UlidParts}.

(** Close the open WAL into a job: freeze its epoch, mint the journal segment's
    ULID, poll the window. *)
Definition take_wal_into_promote_job (v : Volume) (segment_ulid : Ulid) (te : TakeEnv)
    : io (Volume * PromoteJob) :=
  match wal v with
  | None => Err OtherError
  | Some open =>
      let ls := freeze (maps v) (ow_ulid open) in
      let '(m, journal_segment_ulid) := next (mint v) (te_candidate te) in
      let v := mkVolume ls (journal v) (journal_derived v) None (rotated_wals v ++ [ow_ulid open])
                 (pending v) m (skipped_writes v) (skipped_bytes v) in
      let v := if journal_derived v then v else poll_derive_and_flip v (te_scan te) (te_config te) in
      Ok (mkVolume (maps v) (journal v) (journal_derived v) (wal v) (rotated_wals v) []
            (mint v) (skipped_writes v) (skipped_bytes v),
          mkPromoteJob segment_ulid open (pending v) (journal v) journal_segment_ulid (maps v))
  end.

Definition prepare_promote (v : Volume) (candidate : Ulid) (te : TakeEnv) : io (option (Volume * PromoteJob)) :=
  if bool_decide (pending v = []) then Ok None
  else
    let '(m, segment_ulid) := next (mint v) candidate in
    r ← take_wal_into_promote_job (set_mint m v) segment_ulid te;
    Ok (Some r).
End volume.

Definition swap_promote_fold (v : Volume) (result : PromoteResult) (new_base : Maps) : Volume :=
  forget_rotated_wal (set_maps (swap_promote (maps v) new_base (pr_old_wal_ulid result)) v)
    (pr_old_wal_ulid result).

Definition apply_promote (v : Volume) (result : PromoteResult) : io Volume :=
  new_base ← fold_promote_result (maps v) result;
  Ok (swap_promote_fold v result new_base).

(** ** A failed promote *)

(** One staged write's index location and claim, moved to the restored WAL. *)
Definition rekey_write (old_ulid new_ulid : Ulid) (ix : ExtentIndex) (wp : PendingWrite * option Z)
    : ExtentIndex :=
  let '(w, old_wal_offset) := wp in
  match e_kind (pw_entry w) with
  | DedupRef | Zero | Delta | CanonicalDelta => ix
  | Data | Inline | CanonicalData | CanonicalInline =>
      if e_journal (pw_entry w) then rekey_journal_owner ix old_ulid new_ulid (e_hash (pw_entry w))
      else match old_wal_offset with
           | Some off => (rekey_owner ix (e_hash (pw_entry w)) old_ulid off new_ulid).1
           | None => ix
           end
  end.

Definition rekey_partition (old_ulid new_ulid : Ulid) (m : Maps) (part : PendingPartition) : Maps :=
  mkMaps (apply_claims new_ulid (lbamap m) (map pw_entry (writes part)))
    (foldl (rekey_write old_ulid new_ulid) (extent_index m) (zip (writes part) (pre_promote_offsets part))).

Definition set_restored (w : OpenWal) (ws : list PendingWrite) (v : Volume) : Volume :=
  mkVolume (maps v) (journal v) (journal_derived v) (Some w) (rotated_wals v) ws
    (mint v) (skipped_writes v) (skipped_bytes v).

Section restore.
Context {HU : UlidParts}.

(** The epoch back under a fresh WAL ULID; [moved] is the rename, its fsync and
    the reopening. *)
Definition restore_failed_promote (v : Volume) (job : PromoteJob) (candidate : Ulid) (moved : io unit)
    : Volume * io unit :=
  let old_ulid := pj_old_wal_ulid job in
  let v := forget_rotated_wal v old_ulid in
  let '(m, new_ulid) := next (mint v) candidate in
  let v := set_mint m v in
  match moved with
  | Err e => (v, Err e)
  | Ok _ =>
      let file := wl_file (ow_wal (pj_old_wal job)) in
      let w := reopen file (blen file) in
      let '(primary, journal, _) :=
        stage_pending_for_promote (pj_pending job) (extent_index (materialised (maps v))) old_ulid
          (pj_journal_ranges job) (pj_journal_segment_ulid job) in
      let ls := base_mut (maps v) (λ m,
        let m := rekey_partition old_ulid new_ulid m primary in
        match journal with
        | Some j => rekey_partition old_ulid new_ulid m (jp_partition j)
        | None => m
        end) in
      (set_restored (mkOpenWal w new_ulid) (writes primary ++ journal_writes journal) (set_maps ls v),
       Ok ())
  end.
End restore.

(** ** The inline flush *)

Section flush.
Context {HU : UlidParts} {HB : Blake3} {HL : Lz4Block} {HC : Lz4Codec} {HT : Blake3Tree}
        {HZ : ZstdBulk} {HS : Signer} {HUb : UlidBytes}.

(** [removed] is an empty WAL's unlink. *)
Definition flush_wal_to_pending_as (v : Volume) (segment_ulid : Ulid) (te : TakeEnv) (env : ExecEnv)
    (removed : io unit) (candidate : Ulid) (moved : io unit) : Volume * io unit :=
  match wal v with
  | None => (v, Ok ())
  | Some _ =>
      if bool_decide (pending v = []) then (set_wal None v, removed)
      else
        match take_wal_into_promote_job v segment_ulid te with
        | Err e => (v, Err e)
        | Ok (v, job) =>
            match execute_promote env job with
            | inl result =>
                match apply_promote v result with
                | Ok v => (v, Ok ())
                | Err e => (v, Err e)
                end
            | inr (error, job) =>
                match restore_failed_promote v job candidate moved with
                | (v, Ok _) => (v, Err error)
                | (v, Err e) => (v, Err e)
                end
            end
        end
  end.
End flush.

(** ** Recovery at open *)

Section stale.
Context {HU : UlidParts} {HB : Blake3} {HL : Lz4Block} {HC : Lz4Codec} {HT : Blake3Tree}
        {HZ : ZstdBulk} {HS : Signer} {HUb : UlidBytes}.

(** The newest segment of a promote, raising the fork's [last_segment_ulid]. *)
Definition bump_last_segment (last_segment_ulid : option Ulid) (result : PromoteResult) : option Ulid :=
  let max_promoted := Z.max (default (ap_segment_ulid (pr_primary result)) (ap_segment_ulid <$> pr_journal result))
                        (ap_segment_ulid (pr_primary result)) in
  match last_segment_ulid with
  | Some l => if decide (l < max_promoted) then Some max_promoted else Some l
  | None => Some max_promoted
  end.

(** One round of the loop over the WALs below the latest: replayed, promoted
    under two fresh ULIDs, the data segment's first, applied, and unlinked
    ([removed]). *)
Definition promote_stale_wal (jr : JournalRanges) (u : Ulid) (file : list Z) (mi : UlidMint)
    (candidate journal_candidate : Ulid) (env : ExecEnv) (removed : io unit)
    (last_segment_ulid : option Ulid) (m : Maps) : io (UlidMint * option Ulid * Maps) :=
  '(m, replay, file) ← replay_wal_records jr u file m;
  if bool_decide (wr_pending replay = []) then _ ← removed; Ok (mi, last_segment_ulid, m)
  else
    let '(mi, segment_ulid) := next mi candidate in
    let '(mi, journal_segment_ulid) := next mi journal_candidate in
    match execute_promote env
            (mkPromoteJob segment_ulid (mkOpenWal (reopen file (valid_size replay)) u)
               (wr_pending replay) jr journal_segment_ulid (ml_new m)) with
    | inr (error, _) => Err error
    | inl result =>
        m ← apply_promoted_entries result m;
        _ ← removed;
        Ok (mi, bump_last_segment last_segment_ulid result, m)
    end.
End stale.

(** ** A committed segment's flip to the cache *)

Record PromoteSegmentResult := mkPromoteSegmentResult {
  psr_ulid : Ulid;
  is_drain : bool;
  psr_entries : list SegmentEntry;
  psr_inputs : list Ulid;
  psr_body_section_start : Z;
  psr_inline : list Z;
  tombstone : bool
}.

(** What the parsed source segment calls for; [section] is its inline section. *)
Definition execute_promote_segment (ulid : Ulid) (drain : bool) (entries : list SegmentEntry)
    (inputs : list Ulid) (bss : Z) (idx_extracted cached : io unit) (section : io (list Z))
    : io PromoteSegmentResult :=
  if negb drain && bool_decide (entries = []) && negb (bool_decide (inputs = [])) then
    Ok (mkPromoteSegmentResult ulid drain entries inputs bss [] true)
  else
    _ ← idx_extracted; _ ← cached;
    inline ← (if drain && existsb (λ e, bool_decide (e_kind e = Inline)) entries then section else Ok []);
    Ok (mkPromoteSegmentResult ulid drain entries inputs bss inline false).

(** One drained entry: a durable location this segment owns moves to the cache. *)
Definition flip_entry (result : PromoteSegmentResult) (ix : ExtentIndex) (ie : Z * SegmentEntry)
    : ExtentIndex :=
  let '(i, entry) := ie in
  let owns := match ExtentIndex.lookup ix (e_hash entry) with
              | Some loc => bool_decide (segment_id loc = psr_ulid result)
              | None => false
              end in
  if negb (has_body_bytes (e_kind entry)) || e_journal entry || negb owns then ix
  else
    match inline_bytes entry (Section_ (psr_inline result)) with
    | None => ix
    | Some idata =>
        ExtentIndex.insert ix (e_hash entry)
          (mkExtentLocation (psr_ulid result) (e_stored_offset entry) (e_stored_length entry)
             (e_codec entry) (Cached (as_u32 i)) (psr_body_section_start result) idata)
    end.

Definition indexed (entries : list SegmentEntry) : list (Z * SegmentEntry) :=
  imap (λ i e, (Z.of_nat i, e)) entries.

(** [presence] is the handle of the segment's fresh bitset. *)
Definition flip_promoted_segment (presence : PresenceRef) (result : PromoteSegmentResult)
    (ix : ExtentIndex) : ExtentIndex :=
  let entries := psr_entries result in
  let ix := set_segment_presence ix (psr_ulid result) presence in
  let ix :=
    if is_drain result then
      promote_journal_segment_to_cache (foldl (flip_entry result) ix (indexed entries))
        (psr_ulid result) (psr_body_section_start result) entries
    else ix in
  foldl (λ ix e, if is_delta (e_kind e)
                 then (flip_delta_body_source_to_cached_if_matches ix (e_hash e) (psr_ulid result)).1
                 else ix) ix entries.

Definition fold_promote_segment_result (presence : PresenceRef) (ls : MapLayers)
    (result : PromoteSegmentResult) : io Maps :=
  if tombstone result then Ok (base ls)
  else fold_base ls (λ m, Ok (mkMaps (lbamap m) (flip_promoted_segment presence result (extent_index m)))).

(** The fork's committed set, and the layers with the fold installed. *)
Definition swap_promote_segment (own_segments : gset Ulid) (ls : MapLayers)
    (result : PromoteSegmentResult) (new_base : Maps) : gset Ulid * MapLayers :=
  let own := {[ psr_ulid result ]} ∪ own_segments in
  let own := if tombstone result || negb (is_drain result)
             then own ∖ list_to_set (psr_inputs result) else own in
  (own, swap_base ls new_base).
