(* ===== verification/PromoteSpec.v ===== *)
(** * Promotion: what staging and the apply guarantee

    Staging keeps every write and names a body that exists for every minted ref;
    the apply moves exactly the epoch's locations and claims to the new segments,
    so the WAL can be deleted.  A window that changes between the writes and the
    take breaks the last step ([stranded_by_flip]). *)

From stdpp Require Import base gmap list fin_maps.
From S2P Require Import Prelude Bytes Segment UlidMint WriteLog ChunkTree Codec SegmentCodec LbaMap LbaMapFacts LbaMapSpec ExtentIndex ExtentIndexSpec MapLayers Journal Volume Promote.
Open Scope Z_scope.

(** ** Staging *)

Definition claim_of (w : PendingWrite) : Z * Z * Hash :=
  (e_start_lba (pw_entry w), e_lba_length (pw_entry w), e_hash (pw_entry w)).
Definition kind_of (w : PendingWrite) : EntryKind := e_kind (pw_entry w).
Definition plain_kind (k : EntryKind) : bool := match k with Data | Inline => true | _ => false end.

(** [w] holds the body at [off] of the WAL. *)
Definition owns_body (w : PendingWrite) (h : Hash) (off : Z) : Prop :=
  plain_kind (kind_of w) = true ∧ e_hash (pw_entry w) = h ∧ wal_body_offset w = Some off.

(** The token a staged write carries. *)
Definition token_of (ix : ExtentIndex) (w : PendingWrite) : option Z :=
  if has_body_bytes (kind_of w) then body_offset <$> ExtentIndex.lookup ix (e_hash (pw_entry w)) else None.

(** Every location the index keeps in the WAL is a write of the epoch. *)
Definition wal_backed (ix : ExtentIndex) (u : Ulid) (ws : list PendingWrite) : Prop :=
  ∀ h loc, ExtentIndex.lookup ix h = Some loc → segment_id loc = u →
  ∃ w, w ∈ ws ∧ owns_body w h (body_offset loc).

Definition aligned (p : PendingPartition) : Prop := length (writes p) = length (pre_promote_offsets p).
Definition rows (p : PendingPartition) : list (PendingWrite * option Z) := zip (writes p) (pre_promote_offsets p).
Definition journal_rows (j : option JournalPartition) : list (PendingWrite * option Z) :=
  match j with Some j => rows (jp_partition j) | None => [] end.

Definition clear (w : PendingWrite) : PendingWrite := mark_journal false w.
Definition clear_row (r : PendingWrite * option Z) : PendingWrite * option Z := (clear r.1, r.2).

Definition classified (ix : ExtentIndex) (u : Ulid) (w : PendingWrite) : PendingWrite :=
  default w (classify_write ix u w).

Lemma classify_pending_map ws ix u :
  (classify_pending_dedup_entries ws ix u).1 = map (classified ix u) ws.
Proof.
  unfold classify_pending_dedup_entries.
  match goal with |- (foldl ?g _ _).1 = _ => set (f := g) end.
  assert (∀ ws out st, (foldl f (out, st) ws).1 = out ++ map (classified ix u) ws) as H; [|apply H].
  clear ws. induction ws as [|w ws IH]; intros out st; cbn [foldl map]; [by rewrite app_nil_r|].
  unfold classified at 1. unfold f at 2. destruct (classify_write ix u w) as [w'|];
    rewrite IH, <-app_assoc; done.
Qed.

Lemma snapshot_tokens ws ix : snapshot_pre_promote_offsets ws ix = map (token_of ix) ws.
Proof. apply map_ext. intros w. unfold token_of, kind_of. by destruct (e_kind (pw_entry w)). Qed.

Lemma rows_push p w t : aligned p → aligned (push p w t) ∧ rows (push p w t) = rows p ++ [(w, t)].
Proof.
  unfold aligned, rows, push. cbn [writes pre_promote_offsets]. intros Hl. rewrite !length_app, Hl. split; [done|].
  by rewrite zip_with_app by done.
Qed.

Definition split_of (jr : JournalRanges) (l : list (PendingWrite * option Z)) : PendingPartition * PendingPartition :=
  foldl (split_step jr) (mkPartition [] [], mkPartition [] []) l.

Definition in_window (jr : JournalRanges) (b : bool) (r : PendingWrite * option Z) : Prop :=
  inside jr r.1 = b ∧ e_journal (pw_entry r.1) = b.

Lemma clear_mark b w : clear (mark_journal b w) = clear w.
Proof. done. Qed.

Lemma split_of_spec jr l :
  let '(p, j) := split_of jr l in
  aligned p ∧ aligned j ∧ map clear_row (rows p ++ rows j) ≡ₚ map clear_row l ∧
  Forall (in_window jr false) (rows p) ∧ Forall (in_window jr true) (rows j) ∧
  (length (rows j) = length (filter (λ r, inside jr r.1 = true) l)).
Proof.
  induction l as [|[w t] l IH] using rev_ind; [by split_and!|].
  unfold split_of in *. rewrite foldl_snoc. destruct (foldl _ _ l) as [p j].
  destruct IH as (Hp & Hj & Hperm & Fp & Fj & Hn). unfold split_step.
  rewrite filter_app, length_app, <-Hn.
  assert (filter (λ r : PendingWrite * option Z, inside jr r.1 = true) [(w, t)] =
          if inside jr w then [(w, t)] else []) as ->.
  { destruct (inside jr w) eqn:E; [by rewrite filter_cons_True|by rewrite filter_cons_False by (cbn; congruence)]. }
  set (w' := mark_journal (inside jr w) w).
  assert (e_journal (pw_entry w') = inside jr w) as -> by done.
  assert (in_window jr (inside jr w) (w', t)) as Hw by done.
  destruct (inside jr w).
  - destruct (rows_push j w' t Hj) as [Ha ->]. split_and!; try done.
    + rewrite app_assoc, (map_app clear_row (rows p ++ rows j)), Hperm, (map_app clear_row l). done.
    + by apply Forall_app_2, Forall_singleton.
    + by rewrite length_app.
  - destruct (rows_push p w' t Hp) as [Ha ->]. split_and!; try done.
    + rewrite <-app_assoc, (Permutation_app_comm [(w', t)]), app_assoc, (map_app clear_row (rows p ++ rows j)),
        Hperm, (map_app clear_row l). done.
    + by apply Forall_app_2, Forall_singleton.
Qed.

Definition windowed (jr : JournalRanges) (b : bool) (w : PendingWrite) : Prop :=
  inside jr w = b ∧ e_journal (pw_entry w) = b.

Lemma rows_writes p : aligned p → (rows p).*1 = writes p.
Proof. unfold aligned, rows. intros Hl. apply fst_zip. lia. Qed.

Lemma in_window_writes jr b p : aligned p → Forall (in_window jr b) (rows p) → Forall (windowed jr b) (writes p).
Proof. intros Hp Hf. rewrite <-rows_writes by done. by apply Forall_fmap. Qed.

(** The two partitions of a split, or the whole when nothing is inside. *)
Lemma split_journal_spec jr p :
  aligned p →
  match split_journal jr p with
  | (q, None) => q = p ∧ Forall (λ w, inside jr w = false) (writes p)
  | (q, Some j) =>
      aligned q ∧ aligned j ∧ map clear_row (rows q ++ rows j) ≡ₚ map clear_row (rows p) ∧
      Forall (windowed jr false) (writes q) ∧ Forall (windowed jr true) (writes j)
  end.
Proof.
  intros Hp. unfold split_journal. destruct (jr_is_empty jr || _) eqn:E.
  - split; [done|]. apply Forall_forall. intros w Hw. apply orb_true_iff in E as [E|E].
    + unfold jr_is_empty in E. apply bool_decide_eq_true in E. by rewrite E.
    + apply negb_true_iff in E. destruct (inside jr w) eqn:Hi; [|done].
      exfalso. apply not_true_iff_false in E. apply E, existsb_exists. exists w. split; [|done].
      by apply list_elem_of_In.
  - pose proof (split_of_spec jr (rows p)) as Hs. unfold split_of, rows at 1 in Hs.
    destruct (foldl _ _ _) as [q j]. destruct Hs as (Hq & Hj & Hperm & Fq & Fj & _).
    split_and!; try done; by apply in_window_writes.
Qed.

(** The staged rows are the classified writes with their tokens, permuted and
    marked. *)
Lemma stage_rows ws ix u jr ju primary journal stats :
  stage_pending_for_promote ws ix u jr ju = (primary, journal, stats) →
  aligned primary ∧ (∀ j, journal = Some j → aligned (jp_partition j) ∧ jp_segment_ulid j = ju) ∧
  map clear_row (rows primary ++ journal_rows journal) ≡ₚ
    map (λ w, (clear (classified ix u w), token_of ix (classified ix u w))) ws ∧
  match journal with
  | None => Forall (λ w, inside jr w = false) (writes primary) ∧ writes primary = map (classified ix u) ws
  | Some j => Forall (windowed jr false) (writes primary) ∧ Forall (windowed jr true) (writes (jp_partition j))
  end.
Proof.
  unfold stage_pending_for_promote. pose proof (classify_pending_map ws ix u) as Hc.
  destruct (classify_pending_dedup_entries ws ix u) as [ws' st]. cbn [fst] in Hc. rewrite snapshot_tokens.
  pose proof (split_journal_spec jr (mkPartition ws' (map (token_of ix) ws'))) as Hs.
  destruct (split_journal _ _) as [q jo]. intros [= <- <- <-].
  assert (map clear_row (rows (mkPartition ws' (map (token_of ix) ws'))) =
          map (λ w, (clear (classified ix u w), token_of ix (classified ix u w))) ws) as Hrows.
  { subst ws'. unfold rows. cbn [writes pre_promote_offsets]. clear.
    induction ws as [|w ws IH]; [done|]. cbn. by f_equal. }
  rewrite <-Hrows.
  assert (aligned (mkPartition ws' (map (token_of ix) ws'))) as Ha by (unfold aligned; cbn; by rewrite length_map).
  specialize (Hs Ha). destruct jo as [j|]; cbn [fmap option_fmap option_map journal_rows jp_partition].
  - destruct Hs as (? & ? & ? & ? & ?). split_and!; try done. by intros ? [= <-].
  - destruct Hs as [-> Hf]. rewrite app_nil_r. split_and!; done.
Qed.

Lemma classified_cases ix u w :
  (classified ix u w = w ∧
   (plain_kind (kind_of w) = true → e_journal (pw_entry w) = false → ∀ loc,
    ExtentIndex.lookup ix (e_hash (pw_entry w)) = Some loc →
    segment_id loc = u ∧ wal_body_offset w = Some (body_offset loc))) ∨
  (plain_kind (kind_of w) = true ∧ e_journal (pw_entry w) = false ∧
   kind_of (classified ix u w) = DedupRef ∧ claim_of (classified ix u w) = claim_of w ∧
   e_journal (pw_entry (classified ix u w)) = false ∧
   ∃ loc, ExtentIndex.lookup ix (e_hash (pw_entry w)) = Some loc ∧
     ¬ (segment_id loc = u ∧ wal_body_offset w = Some (body_offset loc))).
Proof.
  unfold classified, classify_write, kind_of.
  destruct (e_kind (pw_entry w)) eqn:Hk; cbn [default plain_kind]; try (left; done);
    (destruct (e_journal (pw_entry w)) eqn:Hj; [left; done|]);
    (destruct (ExtentIndex.lookup ix (e_hash (pw_entry w))) as [loc|] eqn:Hl; [|left; done]);
    (destruct (bool_decide _ && bool_decide _) eqn:E; cbn [default];
     [apply andb_true_iff in E as [E1%bool_decide_eq_true E2%bool_decide_eq_true]; left; split; [done|]; intros _ _ ? [= <-]; done
     |right; split_and!; try done; exists loc; split; [done|]; intros [E1 E2];
      rewrite E1, E2, !bool_decide_eq_true_2 in E by done; done]).
Qed.

Lemma classified_claim ix u w : claim_of (classified ix u w) = claim_of w.
Proof. by destruct (classified_cases ix u w) as [[-> _]|(_ & _ & _ & ? & _)]. Qed.

(** The write that owns the body the index names keeps it. *)
Lemma classified_owner ix u w loc :
  ExtentIndex.lookup ix (e_hash (pw_entry w)) = Some loc → segment_id loc = u →
  owns_body w (e_hash (pw_entry w)) (body_offset loc) → classified ix u w = w.
Proof.
  intros Hl Hs (_ & _ & Ho). destruct (classified_cases ix u w) as [[? _]|(_ & _ & _ & _ & _ & loc' & Hl' & Hn)]; [done|].
  exfalso. apply Hn. by simplify_eq.
Qed.

Definition staged (primary : PendingPartition) (journal : option JournalPartition) : list (PendingWrite * option Z) :=
  rows primary ++ journal_rows journal.

(** What marking a write for the journal leaves alone. *)
Record same_write (w w' : PendingWrite) : Prop := {
  sw_kind : kind_of w = kind_of w';
  sw_claim : claim_of w = claim_of w';
  sw_offset : wal_body_offset w = wal_body_offset w'
}.

Lemma clear_same w w' : clear w = clear w' → same_write w w'.
Proof.
  intros H. split.
  - exact (f_equal kind_of H).
  - exact (f_equal claim_of H).
  - exact (f_equal wal_body_offset H).
Qed.

Lemma same_hash w w' : same_write w w' → e_hash (pw_entry w) = e_hash (pw_entry w').
Proof. intros [_ H _]. by injection H. Qed.

Lemma same_token ix w w' : same_write w w' → token_of ix w = token_of ix w'.
Proof. intros H. unfold token_of. by rewrite (sw_kind _ _ H), (same_hash _ _ H). Qed.

Section staged.
Context (ws : list PendingWrite) (ix : ExtentIndex) (u : Ulid) (jr : JournalRanges) (ju : Ulid).
Context (primary : PendingPartition) (journal : option JournalPartition) (stats : DedupMintStats).
Context (Hstage : stage_pending_for_promote ws ix u jr ju = (primary, journal, stats)).

Lemma staged_row w t :
  (w, t) ∈ staged primary journal →
  ∃ w0, w0 ∈ ws ∧ same_write w (classified ix u w0) ∧ t = token_of ix w.
Proof.
  intros Hin. destruct (stage_rows _ _ _ _ _ _ _ _ Hstage) as (_ & _ & Hperm & _).
  assert (clear_row (w, t) ∈ map clear_row (staged primary journal)) as Hc by (apply list_elem_of_fmap; by exists (w, t)).
  unfold staged in Hc. rewrite Hperm in Hc. apply list_elem_of_fmap in Hc as (w0 & Heq & Hin0).
  pose proof (f_equal fst Heq) as Hw. pose proof (f_equal snd Heq) as Ht. cbn [clear_row fst snd] in Hw, Ht.
  apply clear_same in Hw. exists w0. split; [done|]. split; [done|]. rewrite Ht. symmetry. by apply same_token.
Qed.

Lemma staged_of w0 :
  w0 ∈ ws → ∃ w, (w, token_of ix w) ∈ staged primary journal ∧ same_write w (classified ix u w0).
Proof.
  intros Hin. destruct (stage_rows _ _ _ _ _ _ _ _ Hstage) as (_ & _ & Hperm & _).
  assert ((clear (classified ix u w0), token_of ix (classified ix u w0)) ∈
    map (λ w, (clear (classified ix u w), token_of ix (classified ix u w))) ws) as Hc
    by (apply list_elem_of_fmap; by exists w0).
  rewrite <-Hperm in Hc. apply list_elem_of_fmap in Hc as ([w t] & Heq & Hr).
  pose proof (f_equal fst Heq) as Hw. pose proof (f_equal snd Heq) as Ht. cbn [clear_row fst snd] in Hw, Ht.
  symmetry in Hw. apply clear_same in Hw. exists w. split; [|done].
  by rewrite (same_token _ _ _ Hw), Ht.
Qed.

(** The body an index location in the WAL names stays a body. *)
Lemma staged_owner h loc :
  wal_backed ix u ws → ExtentIndex.lookup ix h = Some loc → segment_id loc = u →
  ∃ w, (w, Some (body_offset loc)) ∈ staged primary journal ∧ owns_body w h (body_offset loc) ∧
       ∃ w0, w0 ∈ ws ∧ same_write w w0 ∧ owns_body w0 h (body_offset loc).
Proof.
  intros Hb Hl Hs. destruct (Hb h loc Hl Hs) as (w0 & Hin & Hk & <- & Ho).
  destruct (staged_of w0 Hin) as (w & Hw & Hsame).
  rewrite (classified_owner ix u w0 loc) in Hsame by done.
  assert (owns_body w (e_hash (pw_entry w0)) (body_offset loc)) as How.
  { split_and!; [by rewrite (sw_kind _ _ Hsame)|by apply same_hash|by rewrite (sw_offset _ _ Hsame)]. }
  exists w. split_and!; [|done|by exists w0].
  replace (Some (body_offset loc)) with (token_of ix w); [done|].
  unfold token_of. destruct How as (Hkw & Hh & _). rewrite Hh, Hl.
  by destruct (kind_of w).
Qed.

Lemma staged_claims : map claim_of (staged primary journal).*1 ≡ₚ map claim_of ws.
Proof.
  destruct (stage_rows _ _ _ _ _ _ _ _ Hstage) as (_ & _ & Hperm & _).
  transitivity (map (λ r : PendingWrite * option Z, claim_of r.1) (map clear_row (staged primary journal))).
  { rewrite map_map. change ((staged primary journal).*1) with (map fst (staged primary journal)).
    by rewrite map_map. }
  unfold staged. rewrite Hperm, map_map. cbn [fst].
  apply Permutation_refl'. apply map_ext. intros w. exact (classified_claim ix u w).
Qed.
End staged.

Lemma staged_writes primary journal :
  aligned primary → (∀ j, journal = Some j → aligned (jp_partition j)) →
  (staged primary journal).*1 = writes primary ++ journal_writes journal.
Proof.
  intros Ha Hj. unfold staged. rewrite (fmap_app fst (rows primary)), rows_writes by done. f_equal.
  destruct journal as [j|]; [|done]. by apply rows_writes, Hj.
Qed.

(** Staging an epoch for promotion is sound: the two partitions hold every
    write's claim exactly once with its token alongside, a token is the index's
    offset for the hash, the journal partition is exactly the window's share, and
    every write a formation turned into a dedup ref names a body that survives:
    one outside this WAL, or the record of a staged write that stays a body. *)
Theorem stage_sound ws ix u jr ju primary journal stats :
  stage_pending_for_promote ws ix u jr ju = (primary, journal, stats) →
  wal_backed ix u ws →
  aligned primary ∧
  (∀ j, journal = Some j → aligned (jp_partition j) ∧ jp_segment_ulid j = ju ∧
     Forall (windowed jr false) (writes primary) ∧ Forall (windowed jr true) (writes (jp_partition j))) ∧
  map claim_of (writes primary ++ journal_writes journal) ≡ₚ map claim_of ws ∧
  (∀ w t, (w, t) ∈ staged primary journal → t = token_of ix w) ∧
  (∀ w, w ∈ (staged primary journal).*1 → kind_of w = DedupRef →
    (∃ w0, w0 ∈ ws ∧ kind_of w0 = DedupRef ∧ claim_of w0 = claim_of w) ∨
    (∃ loc, ExtentIndex.lookup ix (e_hash (pw_entry w)) = Some loc ∧
       (segment_id loc ≠ u ∨
        ∃ w', w' ∈ (staged primary journal).*1 ∧ owns_body w' (e_hash (pw_entry w)) (body_offset loc)))).
Proof.
  intros Hstage Hb. pose proof (stage_rows _ _ _ _ _ _ _ _ Hstage) as (Ha & Hj & _ & Hw). split_and!; [done| | | |].
  - intros j ->. destruct (Hj j eq_refl). by destruct Hw.
  - rewrite <-(staged_claims _ _ _ _ _ _ _ _ Hstage), (staged_writes primary journal Ha); [done|].
    intros j Hjj. apply (Hj j Hjj).
  - intros w t Hin. by destruct (staged_row _ _ _ _ _ _ _ _ Hstage w t Hin) as (_ & _ & _ & ->).
  - intros w Hin Hk. apply list_elem_of_fmap in Hin as ([w1 t] & -> & Hin). cbn [fst] in *.
    destruct (staged_row _ _ _ _ _ _ _ _ Hstage w1 t Hin) as (w0 & Hin0 & Hsame & _).
    destruct (classified_cases ix u w0) as [[Hc _]|(_ & _ & _ & Hcl & _ & loc & Hl & _)].
    + left. exists w0. rewrite Hc in Hsame. rewrite <-(sw_kind _ _ Hsame). by rewrite (sw_claim _ _ Hsame).
    + right. exists loc. assert (e_hash (pw_entry w1) = e_hash (pw_entry w0)) as Hh.
      { rewrite (same_hash _ _ Hsame). injection Hcl. done. }
      rewrite Hh. split; [done|]. destruct (decide (segment_id loc = u)) as [Hs|Hs]; [right|by left].
      destruct (staged_owner _ _ _ _ _ _ _ _ Hstage _ _ Hb Hl Hs) as (w' & Hin' & How & _).
      exists w'. split; [|done]. apply list_elem_of_fmap. by exists (w', Some (body_offset loc)).
Qed.

(** Two writes of one body outside the window and one inside it. *)
Definition stage_writes : list PendingWrite :=
  [mkPendingWrite (new_data_no_body [1] 50 1 CodecNone 3) (Some 136);
   mkPendingWrite (set_journal true (new_data_no_body [2] 102 2 CodecNone 4)) (Some 175);
   mkPendingWrite (new_data_no_body [1] 60 1 CodecNone 3) (Some 215)].
Definition stage_index : ExtentIndex :=
  (insert_if_absent ei_new [1] (wal_location 10 136 3 CodecNone)).1.

(** ** Forming *)

(** What forming leaves alone of an entry. *)
Definition row_of (e : SegmentEntry) : Z * Z * Hash * EntryKind * bool :=
  (e_start_lba e, e_lba_length e, e_hash e, e_kind e, e_journal e).

Section forming.
Context {HB : Blake3} {HL : Lz4Block} {HC : Lz4Codec} {HT : Blake3Tree} {HZ : ZstdBulk}
        {HS : Signer} {HUb : UlidBytes}.

Lemma materialise_one_row file w p :
  materialise_one file w = Ok p → row_of (pe_entry p) = row_of (pw_entry w).
Proof.
  unfold materialise_one. destruct (wal_body_offset w); [|by intros [= <-]].
  intros (buf & _ & H)%io_bind_Ok. destruct (is_inline _); [injection H as <-; done|].
  apply io_bind_Ok in H as (plain & _ & H). apply io_bind_Ok in H as (form & _ & H).
  destruct (default _ _) as [c stored]. injection H as <-. done.
Qed.

Lemma materialise_rows file ws ps :
  materialise_pending_bodies file ws = Ok ps →
  map (λ p, row_of (pe_entry p)) ps = map (λ w, row_of (pw_entry w)) ws.
Proof.
  revert ps. induction ws as [|w ws IH]; intros ps; cbn [materialise_pending_bodies]; [by intros [= <-]|].
  intros (p & Hp & H)%io_bind_Ok. apply io_bind_Ok in H as (ps' & Hps & [= <-]).
  cbn [map]. by rewrite (IH _ Hps), (materialise_one_row _ _ _ Hp).
Qed.

Lemma prepare_entry_row dec sketch p : row_of (prepare_entry dec sketch p) = row_of (pe_entry p).
Proof.
  unfold prepare_entry.
  destruct (wants_sketch _ _), (pe_body p) as [body|]; cbn [negb];
    try (destruct (dec _ body)); destruct (e_kind _); done.
Qed.

Lemma assign_offsets_rows es : map row_of (assign_offsets es).1 = map row_of es.
Proof.
  assert (∀ st, map row_of (foldl assign_offset st es).1.1 = map row_of st.1.1 ++ map row_of es) as H.
  { induction es as [|e es IH]; intros [[out a] b]; cbn [foldl map fst]; [by rewrite app_nil_r|].
    rewrite IH. unfold assign_offset. destruct (e_kind e); cbn [fst]; rewrite map_app, <-app_assoc; done. }
  specialize (H ([], 0, 0)). unfold assign_offsets. destruct (foldl _ _ _) as [[out a] b]. exact H.
Qed.

Lemma write_rows dec ps delta_body inputs sketch file bss es :
  write_segment_full dec ps delta_body inputs sketch = Ok (file, bss, es) →
  map row_of es = map (λ p, row_of (pe_entry p)) ps.
Proof.
  unfold write_segment_full. destruct (forallb _ _); [|done].
  pose proof (assign_offsets_rows (map (prepare_entry dec sketch) ps)) as Ha.
  destruct (assign_offsets _) as [es' [[? ?] ?]]. cbn [fst] in Ha. intros [= _ _ <-].
  rewrite Ha, map_map. apply map_ext. apply prepare_entry_row.
Qed.

Lemma form_partition_rows bytes sketch committed s p part :
  form_partition bytes sketch committed s p = Ok part →
  ap_segment_ulid part = s ∧ ap_tokens part = pre_promote_offsets p ∧
  map row_of (ap_entries part) = map (λ w, row_of (pw_entry w)) (writes p).
Proof.
  unfold form_partition. intros (file & _ & H)%io_bind_Ok. apply io_bind_Ok in H as (ps & Hps & H).
  apply io_bind_Ok in H as ([[bytes' bss] es] & Hw & H). apply io_bind_Ok in H as ([] & _ & [= <-]).
  split_and!; [done..|]. cbn [ap_entries]. rewrite <-(materialise_rows _ _ _ Hps).
  unfold write_and_commit in Hw. apply (write_rows _ _ _ _ _ _ _ _ Hw).
Qed.
End forming.

(** ** The apply: the index *)

Definition staged_kind (k : EntryKind) : bool := match k with Data | Inline | DedupRef | Zero => true | _ => false end.

Definition segment_location (part : ApplyPartition) (e : SegmentEntry) : ExtentLocation :=
  mkExtentLocation (ap_segment_ulid part) (e_stored_offset e) (e_stored_length e) (e_codec e) Local
    (ap_body_section_start part) (if is_inline (e_kind e) then e_inline e else None).

Section apply.
Context (u : Ulid) (part : ApplyPartition).
Context (Hs : ap_segment_ulid part ≠ u).

(** The row holds the body of [h] that [ix] keeps in the WAL. *)
Definition row_hits (ix : ExtentIndex) (h : Hash) (r : SegmentEntry * option Z) : Prop :=
  plain_kind (e_kind r.1) = true ∧ e_hash r.1 = h ∧
  ∃ loc, ExtentIndex.lookup ix h = Some loc ∧ segment_id loc = u ∧ r.2 = Some (body_offset loc).

Lemma apply_entry_primary ix raw e t :
  staged_kind (e_kind e) = true → (plain_kind (e_kind e) = true → e_journal e = false) →
  ∃ ix', apply_entry u part ix raw e t = Ok ix' ∧ ExtentIndex.journal ix' = ExtentIndex.journal ix ∧
    (∀ h, row_hits ix h (e, t) → ExtentIndex.lookup ix' h = Some (segment_location part e)) ∧
    (∀ h, ¬ row_hits ix h (e, t) → ExtentIndex.lookup ix' h = ExtentIndex.lookup ix h).
Proof.
  intros Hk Hj. destruct (plain_kind (e_kind e)) eqn:Hp.
  2: { exists ix. unfold apply_entry, row_hits. cbn [fst snd]. rewrite Hp.
       destruct (e_kind e); try done; (split_and!; [done..|by intros h (? & _)|done]). }
  assert (apply_entry u part ix raw e t =
    match t with
    | None => Ok ix
    | Some off => Ok (replace_if_matches ix (e_hash e) u off (segment_location part e)).1
    end) as ->.
  { unfold apply_entry, segment_location. rewrite (Hj eq_refl). by destruct (e_kind e). }
  unfold row_hits. cbn [fst snd].
  destruct t as [off|].
  2: { exists ix. split_and!; [done..|by intros h (_ & _ & ? & _ & _ & ?)|done]. }
  eexists. split; [done|]. unfold replace_if_matches. unfold ExtentIndex.lookup in *.
  destruct (ExtentIndex.inner ix !! e_hash e) as [cur|] eqn:Hc.
  2: { split_and!; [done|intros h (_ & <- & ? & ? & _); congruence|done]. }
  destruct (decide (segment_id cur = u ∧ body_offset cur = off)) as [[E1 E2]|E].
  - rewrite !bool_decide_eq_true_2 by done. cbn [andb fst with_inner ExtentIndex.inner ExtentIndex.journal].
    split_and!; [done|intros h (_ & <- & _); apply lookup_insert_eq|].
    intros h Hn. apply lookup_insert_ne. intros <-. apply Hn. split_and!; [done|done|]. exists cur. by rewrite E2.
  - assert (bool_decide (segment_id cur = u) && bool_decide (body_offset cur = off) = false) as ->.
    { apply not_true_iff_false. rewrite andb_true_iff, !bool_decide_eq_true. done. }
    cbn [fst]. split_and!; [done| |done]. intros h (_ & <- & loc & Hl & E1 & E2). exfalso. apply E.
    simplify_eq. done.
Qed.

Definition primary_row (r : SegmentEntry * option Z) : Prop :=
  staged_kind (e_kind r.1) = true ∧ (plain_kind (e_kind r.1) = true → e_journal r.1 = false).

Lemma apply_index_primary l ix raw :
  Forall primary_row l →
  ∃ ix', apply_index u part ix raw l = Ok ix' ∧ ExtentIndex.journal ix' = ExtentIndex.journal ix ∧
    (∀ h, (∃ r, r ∈ l ∧ row_hits ix h r) →
       ∃ r, r ∈ l ∧ row_hits ix h r ∧ ExtentIndex.lookup ix' h = Some (segment_location part r.1)) ∧
    (∀ h, ¬ (∃ r, r ∈ l ∧ row_hits ix h r) → ExtentIndex.lookup ix' h = ExtentIndex.lookup ix h).
Proof.
  intros Hf. revert ix raw. induction Hf as [|[e t] l [Hk Hj] _ IH]; intros ix raw; cbn [apply_index].
  { exists ix. split_and!; [done..| |done]. intros h (r & Hr & _). by apply not_elem_of_nil in Hr. }
  cbn [fst] in Hk, Hj. destruct (apply_entry_primary ix raw e t Hk Hj) as (ix1 & -> & Hj1 & Hin & Hout).
  destruct (IH ix1 (raw + 1)) as (ix' & Ha & Hj' & Hi' & Ho'). cbn [mbind io_bind].
  exists ix'. split; [exact Ha|]. split; [congruence|].
  (* after the row took [h], no later row hits it *)
  assert (∀ h r, row_hits ix h (e, t) → ¬ row_hits ix1 h r) as Htaken.
  { intros h r Hh (_ & _ & loc & Hl & Hu & _). rewrite (Hin h Hh) in Hl. injection Hl as <-. by apply Hs. }
  assert (∀ h r, ¬ row_hits ix h (e, t) → row_hits ix h r ↔ row_hits ix1 h r) as Hsame.
  { intros h r Hh. unfold row_hits. by rewrite (Hout h Hh). }
  assert (∀ h, row_hits ix h (e, t) ∨ ¬ row_hits ix h (e, t)) as Hdec.
  { intros h. unfold row_hits. cbn [fst snd]. destruct (ExtentIndex.lookup ix h) as [loc|].
    - destruct (decide (plain_kind (e_kind e) = true ∧ e_hash e = h ∧ segment_id loc = u ∧ t = Some (body_offset loc)))
        as [(H1 & H2 & H3 & H4)|Hn]; [left; split; [done|]; split; [done|]; by exists loc|right].
      intros (H1 & H2 & loc' & [= <-] & H3 & H4). by apply Hn.
    - right. by intros (_ & _ & loc' & ? & _). }
  split.
  - intros h (r & Hr & Hh). destruct (Hdec h) as [Hd|Hd].
    + exists (e, t). split; [by left|]. split; [done|]. rewrite Ho', Hin; [done|done|].
      intros (r' & _ & Hr'). by apply (Htaken h r' Hd).
    + assert (r ∈ l) as Hrl. { apply elem_of_cons in Hr as [->|]; done. }
      destruct (Hi' h) as (r' & Hr' & Hh' & Hl'). { exists r. split; [done|]. by apply Hsame. }
      exists r'. split; [by right|]. split; [by apply Hsame|done].
  - intros h Hn. assert (¬ row_hits ix h (e, t)) as Hd. { intros ?. apply Hn. exists (e, t). split; [by left|done]. }
    rewrite Ho', Hout; [done|done|]. intros (r & Hr & Hh). apply Hn. exists r. split; [by right|]. by apply Hsame.
Qed.

(** The window's share: bodies move from the WAL's key to the segment's. *)
Definition journal_row (r : SegmentEntry * option Z) : Prop :=
  staged_kind (e_kind r.1) = true ∧ (plain_kind (e_kind r.1) = true → e_journal r.1 = true).
Definition journal_body (h : Hash) (r : SegmentEntry * option Z) : Prop :=
  plain_kind (e_kind r.1) = true ∧ e_hash r.1 = h.

Lemma rekey_journal_lookup ix from to_ h loc :
  journal_ok ix → from ≠ to_ →
  journal_ok (rekey_journal ix from to_ h loc) ∧
  ExtentIndex.inner (rekey_journal ix from to_ h loc) = ExtentIndex.inner ix ∧
  ∀ s x, ExtentIndex.lookup_journal (rekey_journal ix from to_ h loc) s x =
    match ExtentIndex.lookup_journal ix from h with
    | Some _ => if decide (s = to_ ∧ x = h) then Some loc
                else if decide (s = from ∧ x = h) then None else ExtentIndex.lookup_journal ix s x
    | None => ExtentIndex.lookup_journal ix s x
    end.
Proof.
  intros Hok Hne. unfold rekey_journal. destruct (take_journal_spec ix from h Hok) as (Hok' & Hr & Hl).
  assert (ExtentIndex.inner (take_journal ix from h).1 = ExtentIndex.inner ix) as Hi.
  { unfold take_journal. destruct (ExtentIndex.journal ix !! from); [|done]. by case_decide. }
  destruct (take_journal ix from h) as [ix1 [l|]]; cbn [fst snd] in *; rewrite <-Hr.
  - split_and!; [by apply put_journal_ok|done|]. intros s x. by rewrite lookup_put_journal, Hl.
  - split_and!; [done..|]. intros s x. rewrite Hl. case_decide as Hd; [|done]. by destruct Hd as [-> ->].
Qed.

Lemma apply_entry_journal ix raw e t :
  journal_row (e, t) →
  apply_entry u part ix raw e t =
  Ok (if plain_kind (e_kind e)
      then rekey_journal ix u (ap_segment_ulid part) (e_hash e) (segment_location part e) else ix).
Proof.
  intros [Hk Hj]. cbn [fst] in *. unfold apply_entry, segment_location.
  destruct (e_kind e); try done; by rewrite (Hj eq_refl).
Qed.

(** What the WAL's key lost the segment's key gained; nothing else moved. *)
Record rekeyed (bodies : Hash → Prop) (at_ : Hash → ExtentLocation → Prop) (ix ix' : ExtentIndex) : Prop := {
  rk_ok : journal_ok ix';
  rk_inner : ExtentIndex.inner ix' = ExtentIndex.inner ix;
  rk_others : ∀ c h, c ≠ u → c ≠ ap_segment_ulid part →
    ExtentIndex.lookup_journal ix' c h = ExtentIndex.lookup_journal ix c h;
  rk_gone : ∀ h, bodies h → ExtentIndex.lookup_journal ix' u h = None;
  rk_kept : ∀ h, ¬ bodies h → ExtentIndex.lookup_journal ix' u h = ExtentIndex.lookup_journal ix u h;
  rk_moved : ∀ h, bodies h → is_Some (ExtentIndex.lookup_journal ix u h) →
    ∃ loc, at_ h loc ∧ ExtentIndex.lookup_journal ix' (ap_segment_ulid part) h = Some loc;
  rk_prior : ∀ h, ¬ bodies h ∨ ExtentIndex.lookup_journal ix u h = None →
    ExtentIndex.lookup_journal ix' (ap_segment_ulid part) h = ExtentIndex.lookup_journal ix (ap_segment_ulid part) h
}.

Definition body_in (l : list (SegmentEntry * option Z)) (h : Hash) : Prop := ∃ r, r ∈ l ∧ journal_body h r.
Definition located_in (l : list (SegmentEntry * option Z)) (h : Hash) (loc : ExtentLocation) : Prop :=
  ∃ r, r ∈ l ∧ journal_body h r ∧ loc = segment_location part r.1.

Lemma body_in_dec l h : body_in l h ∨ ¬ body_in l h.
Proof.
  destruct (decide (Exists (λ r, plain_kind (e_kind r.1) = true ∧ e_hash r.1 = h) l)) as [H|H];
    rewrite Exists_exists in H; [left|right]; unfold body_in, journal_body; naive_solver.
Qed.

Lemma body_in_cons r l h : body_in (r :: l) h ↔ journal_body h r ∨ body_in l h.
Proof. unfold body_in. setoid_rewrite elem_of_cons. naive_solver. Qed.

Lemma located_in_cons r l h loc : located_in l h loc → located_in (r :: l) h loc.
Proof. unfold located_in. setoid_rewrite elem_of_cons. naive_solver. Qed.

Lemma apply_index_journal l ix raw :
  journal_ok ix → Forall journal_row l →
  ∃ ix', apply_index u part ix raw l = Ok ix' ∧ rekeyed (body_in l) (located_in l) ix ix'.
Proof.
  intros Hok Hf. revert ix raw Hok. induction Hf as [|[e t] l Hr _ IH]; intros ix raw Hok; cbn [apply_index].
  { exists ix. split; [done|]. split; try done; intros h (r & Hin & _); by apply not_elem_of_nil in Hin. }
  rewrite (apply_entry_journal ix raw e t Hr). cbn [mbind io_bind].
  destruct (plain_kind (e_kind e)) eqn:Hp.
  2: { destruct (IH ix (raw + 1) Hok) as (ix' & -> & [K I O G P M R]). exists ix'. split; [done|].
       assert (∀ h, body_in ((e, t) :: l) h ↔ body_in l h) as Hb.
       { intros h. rewrite body_in_cons. unfold journal_body. cbn [fst]. rewrite Hp. naive_solver. }
       split; [done..| | | |]; intros h; rewrite Hb; auto.
       intros H1 H2. destruct (M h H1 H2) as (loc & Hl & ?). exists loc. split; [by apply located_in_cons|done]. }
  destruct (rekey_journal_lookup ix u (ap_segment_ulid part) (e_hash e) (segment_location part e) Hok ltac:(done))
    as (Hok1 & Hi1 & Hl1).
  set (ix1 := rekey_journal _ _ _ _ _) in *.
  destruct (IH ix1 (raw + 1) Hok1) as (ix' & -> & [K I O G P M R]). exists ix'. split; [done|].
  assert (ExtentIndex.lookup_journal ix1 u (e_hash e) = None) as Hnone.
  { rewrite Hl1. destruct (ExtentIndex.lookup_journal ix u (e_hash e)) eqn:E; [|done].
    rewrite decide_False by naive_solver. by rewrite decide_True. }
  assert (∀ c h, h ≠ e_hash e ∨ (c ≠ u ∧ c ≠ ap_segment_ulid part) →
    ExtentIndex.lookup_journal ix1 c h = ExtentIndex.lookup_journal ix c h) as Hsame.
  { intros c h Hc. rewrite Hl1. destruct (ExtentIndex.lookup_journal ix u (e_hash e)); [|done].
    by rewrite !decide_False by naive_solver. }
  assert (journal_body (e_hash e) (e, t)) as Hbe by done.
  split; [done|congruence| | | | |].
  - intros c h Hc1 Hc2. rewrite O by done. apply Hsame. by right.
  - intros h. rewrite body_in_cons. intros Hb. destruct (body_in_dec l h) as [Hin|Hin]; [by apply G|].
    destruct Hb as [[_ <-]|?]; [|done]. by rewrite P.
  - intros h. rewrite body_in_cons. intros Hb. rewrite P by tauto. apply Hsame. left. intros ->. tauto.
  - intros h. rewrite body_in_cons. intros Hb Hsome. destruct (decide (h = e_hash e)) as [->|Hne].
    + exists (segment_location part e). split; [exists (e, t); split; [by left|done]|].
      rewrite R by (by right). rewrite Hl1. destruct Hsome as [loc ->]. by rewrite decide_True.
    + destruct Hb as [[_ E]|Hb]; [cbn in E; congruence|].
      destruct (M h Hb) as (loc & Hl & ?); [by rewrite Hsame by (by left)|]. exists loc. split; [by apply located_in_cons|done].
  - intros h. rewrite body_in_cons. intros Hb. destruct (decide (h = e_hash e)) as [->|Hne].
    + assert (ExtentIndex.lookup_journal ix u (e_hash e) = None) as Hn by tauto.
      rewrite R by (by right). rewrite Hl1, Hn. done.
    + rewrite R by (rewrite Hsame by (by left); tauto). apply Hsame. by left.
Qed.
End apply.

(** ** The apply: the claims *)

(** The entry's claim reaches the extent [e] at [k]. *)
Definition takes (k : Z) (e : MapEntry) (en : SegmentEntry) : bool :=
  bool_decide (k < e_start_lba en + e_lba_length en) && bool_decide (e_start_lba en < k + LbaMap.lba_length e) &&
  bool_decide (me_hash e = claim_hash en).

Definition promoted (seg : Ulid) (es : list SegmentEntry) (k : Z) (e : MapEntry) : MapEntry :=
  if bool_decide (claimant_ulid e < seg) && existsb (takes k e) es then set_entry_claimant seg e else e.

Definition placed (N : Z) (en : SegmentEntry) : Prop :=
  is_canonical_only (e_kind en) = false ∧ 0 ≤ e_start_lba en ∧ 0 < e_lba_length en ∧
  e_start_lba en + e_lba_length en ≤ N.

Lemma apply_claims_inner N seg es lm :
  N < U64 → lm_wf N lm → Forall (placed N) es →
  lm_wf N (apply_claims seg lm es) ∧
  ∀ k, LbaMap.inner (apply_claims seg lm es) !! k = promoted seg es k <$> LbaMap.inner lm !! k.
Proof.
  intros HN Hwf Hf. revert lm Hwf. unfold apply_claims. induction Hf as [|en es (Hc & H0 & Hl & HN1) _ IH]; intros lm Hwf; cbn [foldl].
  { split; [done|]. intros k. unfold promoted. cbn [existsb]. destruct (LbaMap.inner lm !! k); [|done].
    cbn. by rewrite andb_false_r. }
  rewrite Hc. unfold set_claimant_if_matches at 2 4. cbn [fst]. rewrite u64_add_id by lia.
  set (keys := claim_keys _ _ _ _ _).
  assert (∀ k, k ∈ keys ↔ ∃ e, LbaMap.inner lm !! k = Some e ∧ takes k e en = true ∧ claimant_ulid e < seg) as Hkeys.
  { intros k. unfold keys. rewrite (elem_of_claim_keys N lm) by (try done; lia). unfold takes.
    setoid_rewrite bool_decide_eq_true. setoid_rewrite andb_true_iff. setoid_rewrite andb_true_iff.
    setoid_rewrite bool_decide_eq_true.
    split; intros (e & He & H); exists e; (split; [done|]);
      pose proof (wf_entry _ _ Hwf _ _ He) as (? & ? & _); unwrap; split_and!; try tauto; lia. }
  destruct (IH (set_claimants lm keys seg) (set_claimants_wf N lm keys seg Hwf)) as [Hwf' Hin].
  split; [exact Hwf'|]. intros k. etransitivity; [apply Hin|]. rewrite lookup_set_claimants.
  destruct (LbaMap.inner lm !! k) as [e|] eqn:He; [|by case_decide].
  assert (k ∈ keys ↔ takes k e en = true ∧ claimant_ulid e < seg) as Hk.
  { rewrite Hkeys. split; [intros (? & ? & ?); by simplify_eq|by exists e]. }
  case_decide as Hd; cbn [fmap option_fmap option_map]; f_equal; unfold promoted.
  - apply Hk in Hd as [Ht Hlt]. cbn [existsb]. rewrite Ht, (bool_decide_eq_true_2 (claimant_ulid e < seg)) by done.
    cbn [set_entry_claimant claimant_ulid]. rewrite bool_decide_eq_false_2 by lia. done.
  - cbn [existsb]. destruct (takes k e en) eqn:Ht; [|done].
    rewrite (bool_decide_eq_false_2 (claimant_ulid e < seg)) by tauto. done.
Qed.

(** ** A promotable epoch *)

Definition w_start (w : PendingWrite) : Z := e_start_lba (pw_entry w).
Definition w_end (w : PendingWrite) : Z := e_start_lba (pw_entry w) + e_lba_length (pw_entry w).
Definition w_hash (w : PendingWrite) : Hash := e_hash (pw_entry w).

(** The maps hold an epoch of WAL [u] with the writes [ws], under the window [jr]
    every write was classified by. *)
Record epoch_ready (N : Z) (u : Ulid) (jr : JournalRanges) (ws : list PendingWrite) (m : Maps) : Prop := {
  er_wf : lm_wf N (lbamap m);
  er_journal_ok : journal_ok (extent_index m);
  er_kinds : ∀ w, w ∈ ws → staged_kind (kind_of w) = true;
  er_placed : ∀ w, w ∈ ws → placed N (pw_entry w);
  er_window : ∀ w lba, w ∈ ws → w_start w ≤ lba < w_end w → contains jr lba = inside jr w;
  er_tier : ∀ w, w ∈ ws → plain_kind (kind_of w) = true → e_journal (pw_entry w) = inside jr w;
  er_backed : ∀ h loc, ExtentIndex.lookup (extent_index m) h = Some loc → segment_id loc = u →
    ∃ w, w ∈ ws ∧ owns_body w h (body_offset loc) ∧ inside jr w = false;
  er_journal_backed : ∀ h, is_Some (ExtentIndex.lookup_journal (extent_index m) u h) →
    ∃ w, w ∈ ws ∧ plain_kind (kind_of w) = true ∧ w_hash w = h ∧ inside jr w = true;
  er_resolves : ∀ w, w ∈ ws → kind_of w ≠ Zero →
    is_Some (ExtentIndex.lookup (extent_index m) (w_hash w)) ∨
    (inside jr w = true ∧ is_Some (ExtentIndex.lookup_journal (extent_index m) u (w_hash w)));
  er_claims : ∀ k e, LbaMap.inner (lbamap m) !! k = Some e → claimant_ulid e = u →
    ∃ w, w ∈ ws ∧ w_start w ≤ k ∧ k + LbaMap.lba_length e ≤ w_end w ∧ me_hash e = claim_hash (pw_entry w);
  er_top : ∀ w k e, w ∈ ws → LbaMap.inner (lbamap m) !! k = Some e →
    k < w_end w → w_start w < k + LbaMap.lba_length e → claimant_ulid e = u
}.

(** Where the read path finds a block's body. *)
Definition read_location (ix : ExtentIndex) (x : Cell) : option ExtentLocation :=
  match ExtentIndex.lookup_journal ix (c_claimant x) (c_hash x) with
  | Some loc => Some loc
  | None => ExtentIndex.lookup ix (c_hash x)
  end.

(** What a promote of the epoch to the segments [s] and, inside the window, [js]
    leaves. *)
Record promoted_to (N : Z) (u s js : Ulid) (jr : JournalRanges) (m m' : Maps) : Prop := {
  pt_wf : lm_wf N (lbamap m') ∧ journal_ok (extent_index m');
  (* every block keeps its content; exactly the epoch's claims move *)
  pt_blocks : ∀ lba, view (lbamap m') lba =
    (λ x, if decide (c_claimant x = u) then reclaim (if contains jr lba then js else s) x else x)
      <$> view (lbamap m) lba;
  (* a location elsewhere is kept, one in the WAL moves to the segment *)
  pt_locations : ∀ h,
    match ExtentIndex.lookup (extent_index m) h, ExtentIndex.lookup (extent_index m') h with
    | None, None => True
    | Some loc, Some loc' => if decide (segment_id loc = u) then segment_id loc' = s else loc' = loc
    | _, _ => False
    end;
  (* nothing names the WAL any more *)
  pt_wal_unused : ∀ h, ExtentIndex.lookup_journal (extent_index m') u h = None ∧
    ∀ loc, ExtentIndex.lookup (extent_index m') h = Some loc → segment_id loc ≠ u;
  (* every readable block stays readable *)
  pt_reads : ∀ lba x, view (lbamap m) lba = Some x → c_hash x ≠ ZERO_HASH →
    (c_claimant x ≠ u → is_Some (read_location (extent_index m) x)) →
    ∃ x', view (lbamap m') lba = Some x' ∧ c_hash x' = c_hash x ∧ is_Some (read_location (extent_index m') x')
}.

(** A partition and the segment formed from it. *)
Record formed (p : PendingPartition) (part : ApplyPartition) : Prop := {
  fm_tokens : ap_tokens part = pre_promote_offsets p;
  fm_rows : map row_of (ap_entries part) = map (λ w, row_of (pw_entry w)) (writes p)
}.

Definition formed_journal (j : option JournalPartition) (r : option ApplyPartition) : Prop :=
  match j, r with
  | None, None => True
  | Some j, Some part => formed (jp_partition j) part ∧ ap_segment_ulid part = jp_segment_ulid j
  | _, _ => False
  end.

Lemma formed_row p part w t :
  formed p part → (w, t) ∈ rows p →
  ∃ e, (e, t) ∈ zip (ap_entries part) (ap_tokens part) ∧ row_of e = row_of (pw_entry w).
Proof.
  intros [Ht Hr] (i & Hi)%list_elem_of_lookup. apply lookup_zip_with_Some in Hi as (w' & t' & [= <- <-] & Hw & Htk).
  assert (map row_of (ap_entries part) !! i = Some (row_of (pw_entry w))) as He.
  { rewrite Hr. change (((λ w, row_of (pw_entry w)) <$> writes p) !! i = Some (row_of (pw_entry w))).
    by rewrite list_lookup_fmap, Hw. }
  change ((row_of <$> ap_entries part) !! i = Some (row_of (pw_entry w))) in He.
  apply list_lookup_fmap_Some in He as (e & He & Hrow). exists e. split; [|done].
  apply list_elem_of_lookup. exists i. apply lookup_zip_with_Some. exists e, t. by rewrite Ht.
Qed.

Lemma row_formed p part e t :
  formed p part → (e, t) ∈ zip (ap_entries part) (ap_tokens part) →
  ∃ w, (w, t) ∈ rows p ∧ row_of e = row_of (pw_entry w).
Proof.
  intros [Ht Hr] (i & Hi)%list_elem_of_lookup. apply lookup_zip_with_Some in Hi as (e' & t' & [= <- <-] & He & Htk).
  assert (map (λ w, row_of (pw_entry w)) (writes p) !! i = Some (row_of e)) as Hw.
  { rewrite <-Hr. change ((row_of <$> ap_entries part) !! i = Some (row_of e)). by rewrite list_lookup_fmap, He. }
  change (((λ w, row_of (pw_entry w)) <$> writes p) !! i = Some (row_of e)) in Hw.
  apply list_lookup_fmap_Some in Hw as (w & Hw & Hrow). exists w. split; [|done].
  apply list_elem_of_lookup. exists i. apply lookup_zip_with_Some. exists w, t. by rewrite <-Ht.
Qed.

Lemma row_fields e e' :
  row_of e = row_of e' →
  e_start_lba e = e_start_lba e' ∧ e_lba_length e = e_lba_length e' ∧ e_hash e = e_hash e' ∧
  e_kind e = e_kind e' ∧ e_journal e = e_journal e'.
Proof. unfold row_of. by intros [= -> -> -> -> ->]. Qed.

Lemma takes_row k x e e' : row_of e = row_of e' → takes k x e = takes k x e'.
Proof. intros (H1 & H2 & H3 & H4 & _)%row_fields. unfold takes, claim_hash. by rewrite H1, H2, H3, H4. Qed.

Lemma placed_row N e e' : row_of e = row_of e' → placed N e' → placed N e.
Proof. intros (H1 & H2 & H3 & H4 & _)%row_fields. unfold placed. by rewrite H1, H2, H4. Qed.

Lemma cons_eq {A} (x y : A) l k : x :: l = y :: k → x = y ∧ l = k.
Proof. by intros [= -> ->]. Qed.

Lemma takes_formed k x p part :
  formed p part → existsb (takes k x) (ap_entries part) = existsb (λ w, takes k x (pw_entry w)) (writes p).
Proof.
  intros [_ Hr]. revert Hr. generalize (ap_entries part) (writes p).
  induction l as [|e es IH]; intros [|w ws]; cbn [map]; try done. intros [H1 H2]%cons_eq.
  cbn [existsb]. by rewrite (takes_row k x _ _ H1), (IH ws H2).
Qed.

Lemma placed_formed N p part :
  formed p part → Forall (λ w, placed N (pw_entry w)) (writes p) → Forall (placed N) (ap_entries part).
Proof.
  intros [_ Hr]. revert Hr. generalize (ap_entries part) (writes p).
  induction l as [|e es IH]; intros [|w ws]; cbn [map]; try done. intros [H1 H2]%cons_eq Hf.
  apply Forall_cons in Hf as [Hw Hf]. constructor; [|by eapply IH]. by eapply placed_row.
Qed.

Section epoch.
Context (N : Z) (u s js : Ulid) (jr : JournalRanges) (ws : list PendingWrite) (m : Maps).
Context (Hep : epoch_ready N u jr ws m) (HN : N < U64) (Hus : u < s) (Hujs : u < js).
Context (primary : PendingPartition) (journal : option JournalPartition) (stats : DedupMintStats).
Context (Hstage : stage_pending_for_promote ws (extent_index m) u jr js = (primary, journal, stats)).

Lemma stage_aligned : aligned primary.
Proof. by destruct (stage_rows _ _ _ _ _ _ _ _ Hstage). Qed.

Lemma journal_aligned j : journal = Some j → aligned (jp_partition j) ∧ jp_segment_ulid j = js.
Proof. destruct (stage_rows _ _ _ _ _ _ _ _ Hstage) as (_ & H & _). apply H. Qed.

Lemma row_writes_elem p w t : (w, t) ∈ rows p → w ∈ writes p.
Proof. intros (i & Hi)%list_elem_of_lookup. apply lookup_zip_with_Some in Hi as (? & ? & [= <- <-] & ? & _). by eapply list_elem_of_lookup_2. Qed.

Lemma writes_row p w : aligned p → w ∈ writes p → ∃ t, (w, t) ∈ rows p.
Proof.
  intros Ha Hw. rewrite <-(rows_writes p Ha) in Hw. apply list_elem_of_fmap in Hw as ([w' t] & -> & ?). by exists t.
Qed.

(** A staged write comes from a write of the epoch, in the same place. *)
Lemma staged_origin w t :
  (w, t) ∈ staged primary journal →
  ∃ w0, w0 ∈ ws ∧ claim_of w = claim_of w0 ∧ claim_hash (pw_entry w) = claim_hash (pw_entry w0) ∧
    staged_kind (kind_of w) = true ∧ placed N (pw_entry w) ∧
    (plain_kind (kind_of w) = true → same_write w w0).
Proof.
  intros Hin. destruct (staged_row _ _ _ _ _ _ _ _ Hstage w t Hin) as (w0 & Hin0 & Hsame & _).
  exists w0. split; [done|]. pose proof (er_placed _ _ _ _ _ Hep w0 Hin0) as (_ & Hpl). pose proof (er_kinds _ _ _ _ _ Hep w0 Hin0) as Hk0.
  assert (claim_of w = claim_of w0) as Hcl by (by rewrite (sw_claim _ _ Hsame), classified_claim).
  split; [done|]. assert (staged_kind (kind_of w) = true ∧ claim_hash (pw_entry w) = claim_hash (pw_entry w0) ∧
    (plain_kind (kind_of w) = true → same_write w w0)) as (Hk & Hh & Hp).
  { pose proof (sw_kind _ _ Hsame) as Hsk. injection Hcl as _ _ Hhash.
    destruct (classified_cases (extent_index m) u w0) as [[Hc _]|(Hpk & _ & Hck & _)].
    - rewrite Hc in *. split_and!; [by rewrite Hsk| |done]. unfold kind_of in Hsk. unfold claim_hash. by rewrite Hsk, Hhash.
    - rewrite Hck in Hsk. rewrite Hsk. split_and!; [done| |done].
      unfold kind_of in Hsk, Hpk. unfold claim_hash. rewrite Hsk, Hhash. by destruct (e_kind (pw_entry w0)). }
  split_and!; [done|done| |done]. unfold placed. unfold claim_of in Hcl. injection Hcl as -> -> _. split; [|done].
  unfold kind_of in Hk. by destruct (e_kind (pw_entry w)).
Qed.

Lemma primary_rows_in w t : (w, t) ∈ rows primary → (w, t) ∈ staged primary journal.
Proof. intros ?. apply elem_of_app. by left. Qed.

Lemma journal_rows_in j w t : journal = Some j → (w, t) ∈ rows (jp_partition j) → (w, t) ∈ staged primary journal.
Proof. intros -> ?. apply elem_of_app. by right. Qed.

Lemma inside_claim w w0 : claim_of w = claim_of w0 → inside jr w = inside jr w0.
Proof. unfold claim_of, inside. by intros [= -> _ _]. Qed.

(** The primary holds the writes outside the window, the journal those inside. *)
Lemma primary_outside w t :
  (w, t) ∈ rows primary →
  inside jr w = false ∧ (plain_kind (kind_of w) = true → e_journal (pw_entry w) = false).
Proof.
  intros Hin. pose proof (row_writes_elem _ _ _ Hin) as Hw.
  destruct (stage_rows _ _ _ _ _ _ _ _ Hstage) as (_ & _ & _ & Hj).
  destruct journal as [j|].
  { destruct Hj as [Hf _]. destruct (proj1 (Forall_forall _ _) Hf w Hw) as [? ?]. done. }
  destruct Hj as [Hf Heq]. pose proof (proj1 (Forall_forall _ _) Hf w Hw) as Hi. split; [exact Hi|].
  rewrite Heq in Hw. apply list_elem_of_fmap in Hw as (w0 & -> & Hw0).
  destruct (classified_cases (extent_index m) u w0) as [[-> _]|(_ & _ & -> & _)]; [|done].
  intros Hp. rewrite (er_tier _ _ _ _ _ Hep w0 Hw0 Hp).
  rewrite <-Hi. symmetry. apply inside_claim, classified_claim.
Qed.

Lemma journal_inside j w t :
  journal = Some j → (w, t) ∈ rows (jp_partition j) → inside jr w = true ∧ e_journal (pw_entry w) = true.
Proof.
  intros -> Hin. destruct (stage_rows _ _ _ _ _ _ _ _ Hstage) as (_ & _ & _ & _ & Hf).
  exact (proj1 (Forall_forall _ _) Hf w (row_writes_elem _ _ _ Hin)).
Qed.

(** Where a write of the epoch is staged. *)
Lemma staged_place w0 :
  w0 ∈ ws →
  ∃ w t, claim_of w = claim_of w0 ∧ same_write w (classified (extent_index m) u w0) ∧
    claim_hash (pw_entry w) = claim_hash (pw_entry w0) ∧
    if inside jr w0 then ∃ j, journal = Some j ∧ (w, t) ∈ rows (jp_partition j) else (w, t) ∈ rows primary.
Proof.
  intros Hin. destruct (staged_of _ _ _ _ _ _ _ _ Hstage w0 Hin) as (w & Hw & Hsame).
  assert (claim_of w = claim_of w0) as Hcl by (by rewrite (sw_claim _ _ Hsame), classified_claim).
  assert (claim_hash (pw_entry w) = claim_hash (pw_entry w0)) as Hh.
  { pose proof (sw_kind _ _ Hsame) as Hsk. injection Hcl as _ _ Hhash. unfold kind_of in Hsk. unfold claim_hash.
    destruct (classified_cases (extent_index m) u w0) as [[Hc _]|(Hpk & _ & Hck & _)].
    - rewrite Hc in Hsk. by rewrite Hsk, Hhash.
    - unfold kind_of in *. rewrite Hck in Hsk. rewrite Hsk, Hhash. by destruct (e_kind (pw_entry w0)). }
  exists w, (token_of (extent_index m) w). split_and!; [done..|].
  rewrite <-(inside_claim w w0 Hcl). unfold staged in Hw. apply elem_of_app in Hw as [Hw|Hw].
  - by rewrite (proj1 (primary_outside _ _ Hw)).
  - destruct journal as [j|] eqn:Hj; [|by apply not_elem_of_nil in Hw]. cbn [journal_rows] in Hw.
    destruct (stage_rows _ _ _ _ _ _ _ _ Hstage) as (_ & _ & _ & _ & Hf).
    destruct (proj1 (Forall_forall _ _) Hf w (row_writes_elem _ _ _ Hw)) as [-> _]. by exists j.
Qed.

(** *** The claims *)

Context (pp : ApplyPartition) (jj : option ApplyPartition).
Context (Hpp : formed primary pp) (Hps : ap_segment_ulid pp = s) (Hjj : formed_journal journal jj).

Definition destination (lba : Z) : Ulid := if contains jr lba then js else s.

Definition moved (k : Z) (e : MapEntry) : MapEntry :=
  if decide (claimant_ulid e = u) then set_entry_claimant (destination k) e else e.

Lemma takes_overlap k e w :
  takes k e (pw_entry w) = true → k < w_end w ∧ w_start w < k + LbaMap.lba_length e.
Proof. unfold takes. by intros [[?%bool_decide_eq_true ?%bool_decide_eq_true]%andb_true_iff _]%andb_true_iff. Qed.

(** A write that takes an extent of the epoch lies on its side of the window. *)
Lemma takes_same_side k e w0 w :
  LbaMap.inner (lbamap m) !! k = Some e → w0 ∈ ws → w_start w0 ≤ k → k + LbaMap.lba_length e ≤ w_end w0 →
  w ∈ ws → takes k e (pw_entry w) = true → inside jr w = inside jr w0.
Proof.
  intros He Hw0 H1 H2 Hw [Ha Hb]%takes_overlap.
  pose proof (wf_entry _ _ (er_wf _ _ _ _ _ Hep) _ _ He) as (_ & Hlen & _).
  pose proof (er_placed _ _ _ _ _ Hep w Hw) as (_ & _ & Hwl & _).
  rewrite <-(er_window _ _ _ _ _ Hep w (Z.max k (w_start w)) Hw), <-(er_window _ _ _ _ _ Hep w0 (Z.max k (w_start w)) Hw0);
    [done|unfold w_start, w_end in *; lia..].
Qed.

Lemma takes_claim k e w w0 :
  claim_of w = claim_of w0 → claim_hash (pw_entry w) = claim_hash (pw_entry w0) →
  takes k e (pw_entry w) = takes k e (pw_entry w0).
Proof. unfold claim_of, takes. by intros [= -> -> _] ->. Qed.

(** Some staged write of the partition takes the extent. *)
Definition part_takes (p : PendingPartition) (k : Z) (e : MapEntry) : bool :=
  existsb (λ w, takes k e (pw_entry w)) (writes p).

Lemma part_takes_true p k e : part_takes p k e = true ↔ ∃ w, w ∈ writes p ∧ takes k e (pw_entry w) = true.
Proof.
  unfold part_takes. rewrite existsb_exists. split; intros (w & Hw & Ht); exists w; (split; [by apply list_elem_of_In|done]).
Qed.

(** An extent another WAL or segment claims is taken by no write. *)
Lemma foreign_untaken p k e :
  aligned p → (∀ w t, (w, t) ∈ rows p → (w, t) ∈ staged primary journal) →
  LbaMap.inner (lbamap m) !! k = Some e → claimant_ulid e ≠ u → part_takes p k e = false.
Proof.
  intros Ha Hin He Hu. apply not_true_iff_false. rewrite part_takes_true. intros (w & Hw & Ht).
  destruct (writes_row p w Ha Hw) as [t Hr].
  destruct (staged_origin w t (Hin _ _ Hr)) as (w0 & Hw0 & Hcl & Hh & _).
  rewrite (takes_claim k e w w0 Hcl Hh) in Ht. apply Hu.
  apply takes_overlap in Ht as [Ha1 Hb]. by apply (er_top _ _ _ _ _ Hep w0 k e).
Qed.

(** An extent of the epoch is taken by the partition on its side, and by that
    one only. *)
Lemma own_taken k e :
  LbaMap.inner (lbamap m) !! k = Some e → claimant_ulid e = u →
  (part_takes primary k e = negb (contains jr k)) ∧
  (∀ j, journal = Some j → part_takes (jp_partition j) k e = contains jr k) ∧
  (contains jr k = true → is_Some journal).
Proof.
  intros He Hu. destruct (er_claims _ _ _ _ _ Hep k e He Hu) as (w0 & Hw0 & H1 & H2 & Hh).
  pose proof (wf_entry _ _ (er_wf _ _ _ _ _ Hep) _ _ He) as (_ & Hlen & _).
  assert (contains jr k = inside jr w0) as Hk by (apply (er_window _ _ _ _ _ Hep); [done|lia]).
  assert (takes k e (pw_entry w0) = true) as Ht0.
  { unfold takes. unfold w_start, w_end in *. rewrite !bool_decide_eq_true_2; [done|done|lia..]. }
  destruct (staged_place w0 Hw0) as (w & t & Hcl & _ & Hch & Hplace).
  rewrite <-(takes_claim k e w w0 Hcl Hch) in Ht0. rewrite Hk.
  assert (∀ w' t', (w', t') ∈ staged primary journal → takes k e (pw_entry w') = true → inside jr w' = inside jr w0) as Hside.
  { intros w' t' Hin' Ht'. destruct (staged_origin w' t' Hin') as (w1 & Hw1 & Hcl1 & Hch1 & _).
    rewrite (takes_claim k e w' w1 Hcl1 Hch1) in Ht'. rewrite (inside_claim w' w1 Hcl1).
    by apply (takes_same_side k e w0 w1). }
  split; [|split].
  - destruct (inside jr w0) eqn:Hi; cbn [negb].
    + apply not_true_iff_false. rewrite part_takes_true. intros (w' & Hw' & Ht').
      destruct (writes_row primary w' stage_aligned Hw') as [t' Hr].
      pose proof (Hside w' t' (primary_rows_in _ _ Hr) Ht'). pose proof (primary_outside w' t' Hr) as [? _]. congruence.
    + apply part_takes_true. exists w. split; [by eapply row_writes_elem|done].
  - intros j Hj. destruct (inside jr w0) eqn:Hi.
    + destruct Hplace as (j' & Hj' & Hr). simplify_eq. apply part_takes_true. exists w. split; [by eapply row_writes_elem|done].
    + apply not_true_iff_false. rewrite part_takes_true. intros (w' & Hw' & Ht').
      destruct (writes_row _ w' (proj1 (journal_aligned j Hj)) Hw') as [t' Hr].
      pose proof (Hside w' t' (journal_rows_in _ _ _ Hj Hr) Ht'). pose proof (journal_inside j w' t' Hj Hr) as [? _]. congruence.
  - intros Hi. rewrite Hi in Hplace. destruct Hplace as (j & -> & _). by eexists.
Qed.

Lemma part_placed p :
  aligned p → (∀ w t, (w, t) ∈ rows p → (w, t) ∈ staged primary journal) → Forall (λ w, placed N (pw_entry w)) (writes p).
Proof.
  intros Ha Hin. apply Forall_forall. intros w Hw. destruct (writes_row p w Ha Hw) as [t Hr].
  by destruct (staged_origin w t (Hin _ _ Hr)) as (_ & _ & _ & _ & _ & ? & _).
Qed.

Definition claims_after : LbaMap :=
  let lm := apply_claims s (lbamap m) (ap_entries pp) in
  match jj with Some j => apply_claims (ap_segment_ulid j) lm (ap_entries j) | None => lm end.

Lemma claims_moved :
  lm_wf N claims_after ∧
  ∀ k, LbaMap.inner claims_after !! k = moved k <$> LbaMap.inner (lbamap m) !! k.
Proof.
  pose proof (er_wf _ _ _ _ _ Hep) as Hwf. unfold claims_after.
  destruct (apply_claims_inner N s (ap_entries pp) (lbamap m) HN Hwf) as [Hwf1 Hin1].
  { eapply placed_formed; [done|]. apply part_placed; [apply stage_aligned|apply primary_rows_in]. }
  set (lm1 := apply_claims s _ _) in *.
  assert (∀ k, LbaMap.inner lm1 !! k =
    (λ e, if decide (claimant_ulid e = u ∧ contains jr k = false) then set_entry_claimant s e else e)
      <$> LbaMap.inner (lbamap m) !! k) as Hs1.
  { intros k. rewrite Hin1. destruct (LbaMap.inner (lbamap m) !! k) as [e|] eqn:He; [|done]. cbn. f_equal.
    unfold promoted. rewrite (takes_formed k e _ _ Hpp). fold (part_takes primary k e).
    destruct (decide (claimant_ulid e = u)) as [Hu|Hu].
    - destruct (own_taken k e He Hu) as (-> & _). rewrite bool_decide_eq_true_2 by lia.
      destruct (contains jr k); cbn; by case_decide; naive_solver.
    - rewrite (foreign_untaken primary k e stage_aligned primary_rows_in He Hu), andb_false_r.
      by rewrite decide_False by tauto. }
  pose proof own_taken as Hown. pose proof journal_aligned as Haln. pose proof part_placed as Hpl.
  pose proof foreign_untaken as Hfor. pose proof journal_rows_in as Hrin.
  clear Hstage. unfold formed_journal in Hjj.
  destruct jj as [j|], journal as [jp|]; try done.
  2: { split; [done|]. intros k. rewrite Hs1. destruct (LbaMap.inner (lbamap m) !! k) as [e|] eqn:He; [|done].
       cbn. f_equal. unfold moved, destination. destruct (decide (claimant_ulid e = u)) as [Hu|Hu].
       - destruct (Hown k e He Hu) as (_ & _ & Hn).
         destruct (contains jr k); [by destruct Hn|]. by rewrite decide_True.
       - by rewrite decide_False by tauto. }
  destruct Hjj as [Hfj Hsj]. destruct (Haln jp eq_refl) as [Haj Hjs]. rewrite Hsj, Hjs.
  destruct (apply_claims_inner N js (ap_entries j) lm1 HN Hwf1) as [Hwf2 Hin2].
  { eapply placed_formed; [done|]. apply (Hpl (jp_partition jp)); [done|]. intros w t. by apply Hrin. }
  split; [done|]. intros k. rewrite Hin2, Hs1. destruct (LbaMap.inner (lbamap m) !! k) as [e|] eqn:He; [|done].
  cbn. f_equal. unfold moved, destination, promoted. rewrite (takes_formed k _ _ _ Hfj).
  fold (part_takes (jp_partition jp) k (if decide (claimant_ulid e = u ∧ contains jr k = false) then set_entry_claimant s e else e)).
  assert (part_takes (jp_partition jp) k (if decide (claimant_ulid e = u ∧ contains jr k = false) then set_entry_claimant s e else e)
    = part_takes (jp_partition jp) k e) as -> by (by case_decide).
  destruct (decide (claimant_ulid e = u)) as [Hu|Hu].
  - destruct (Hown k e He Hu) as (_ & Hj & _). rewrite (Hj jp eq_refl).
    destruct (contains jr k); [rewrite decide_False by naive_solver; by rewrite bool_decide_eq_true_2 by lia|].
    rewrite decide_True by done. by rewrite andb_false_r.
  - rewrite decide_False by tauto.
    rewrite (Hfor (jp_partition jp) k e Haj); [by rewrite andb_false_r| |done|done].
    intros w t. by apply Hrin.
Qed.

(** *** The index *)

Lemma primary_index :
  ∃ ix1, apply_index u pp (extent_index m) 0 (zip (ap_entries pp) (ap_tokens pp)) = Ok ix1 ∧
    ExtentIndex.journal ix1 = ExtentIndex.journal (extent_index m) ∧
    ∀ h, match ExtentIndex.lookup (extent_index m) h, ExtentIndex.lookup ix1 h with
         | None, None => True
         | Some loc, Some loc' => if decide (segment_id loc = u) then segment_id loc' = s else loc' = loc
         | _, _ => False
         end.
Proof.
  destruct (apply_index_primary u pp ltac:(lia) (zip (ap_entries pp) (ap_tokens pp)) (extent_index m) 0)
    as (ix1 & Ha & Hj & Hin & Hout).
  { apply Forall_forall. intros [e t] Hr. destruct (row_formed _ _ _ _ Hpp Hr) as (w & Hw & (_ & _ & _ & Hk & Hej)%row_fields).
    destruct (staged_origin w t (primary_rows_in _ _ Hw)) as (_ & _ & _ & _ & Hsk & _).
    destruct (primary_outside w t Hw) as [_ Hp]. unfold primary_row. cbn [fst]. rewrite Hk, Hej. done. }
  exists ix1. split; [done|]. split; [done|]. intros h.
  destruct (ExtentIndex.lookup (extent_index m) h) as [loc|] eqn:Hl.
  2: { rewrite Hout, Hl; [done|]. intros (r & _ & _ & _ & loc & Hl' & _). congruence. }
  destruct (decide (segment_id loc = u)) as [Hu|Hu].
  - destruct (er_backed _ _ _ _ _ Hep h loc Hl Hu) as (w0 & Hw0 & How & Hi).
    destruct (staged_place w0 Hw0) as (w & t & _ & Hsame & _ & Hplace). rewrite Hi in Hplace.
    pose proof How as (Hk0 & Hh0 & Ho0).
    rewrite (classified_owner (extent_index m) u w0 loc) in Hsame by (rewrite ?Hh0; done).
    destruct (formed_row _ _ _ _ Hpp Hplace) as (e & He & (_ & _ & Heh & Hek & _)%row_fields).
    destruct (staged_row _ _ _ _ _ _ _ _ Hstage w t (primary_rows_in _ _ Hplace)) as (_ & _ & _ & Ht).
    destruct (Hin h) as (r & _ & _ & ->).
    { exists (e, t). split; [done|]. split_and!; cbn [fst snd].
      - rewrite Hek. change (plain_kind (kind_of w) = true). by rewrite (sw_kind _ _ Hsame).
      - by rewrite Heh, (same_hash _ _ Hsame).
      - exists loc. split_and!; [done..|]. rewrite Ht. unfold token_of. rewrite (same_hash _ _ Hsame), Hh0, Hl, (sw_kind _ _ Hsame).
        by destruct (kind_of w0). }
    done.
  - rewrite Hout, Hl; [done|]. intros (r & _ & _ & _ & loc' & Hl' & Hu' & _). congruence.
Qed.

(** A body of the WAL's journal tier is in the journal partition. *)
Lemma journal_backed h :
  is_Some (ExtentIndex.lookup_journal (extent_index m) u h) →
  ∃ j part, journal = Some j ∧ jj = Some part ∧ body_in (zip (ap_entries part) (ap_tokens part)) h.
Proof.
  intros Hs1. destruct (er_journal_backed _ _ _ _ _ Hep h Hs1) as (w0 & Hw0 & Hk & Hh & Hi).
  destruct (staged_place w0 Hw0) as (w & t & _ & Hsame & _ & Hplace). rewrite Hi in Hplace.
  destruct Hplace as (j & Hj & Hr). exists j. unfold formed_journal in Hjj. rewrite Hj in Hjj.
  destruct jj as [part|]; [|done]. exists part. split_and!; [done..|]. destruct Hjj as [Hf _].
  destruct (classified_cases (extent_index m) u w0) as [[Hc _]|(_ & Hej & _)].
  2: { rewrite (er_tier _ _ _ _ _ Hep w0 Hw0 Hk) in Hej. congruence. }
  rewrite Hc in Hsame. destruct (formed_row _ _ _ _ Hf Hr) as (e & He & (_ & _ & Heh & Hek & _)%row_fields).
  exists (e, t). split; [done|]. split; cbn [fst].
  - rewrite Hek. change (plain_kind (kind_of w) = true). by rewrite (sw_kind _ _ Hsame).
  - by rewrite Heh, (same_hash _ _ Hsame).
Qed.

Record index_after (ix' : ExtentIndex) : Prop := {
  ia_ok : journal_ok ix';
  ia_inner : ∀ h, match ExtentIndex.lookup (extent_index m) h, ExtentIndex.lookup ix' h with
    | None, None => True
    | Some loc, Some loc' => if decide (segment_id loc = u) then segment_id loc' = s else loc' = loc
    | _, _ => False
    end;
  ia_gone : ∀ h, ExtentIndex.lookup_journal ix' u h = None;
  ia_kept : ∀ c h, c ≠ u → is_Some (ExtentIndex.lookup_journal (extent_index m) c h) → is_Some (ExtentIndex.lookup_journal ix' c h);
  ia_moved : ∀ h, is_Some (ExtentIndex.lookup_journal (extent_index m) u h) → is_Some (ExtentIndex.lookup_journal ix' js h)
}.

Lemma journal_rows_formed j part :
  journal = Some j → formed (jp_partition j) part → Forall journal_row (zip (ap_entries part) (ap_tokens part)).
Proof.
  intros Hj Hf. apply Forall_forall. intros [e t] Hr.
  destruct (row_formed _ _ _ _ Hf Hr) as (w & Hw & (_ & _ & _ & Hk & Hej)%row_fields).
  destruct (staged_origin w t (journal_rows_in j w t Hj Hw)) as (_ & _ & _ & _ & Hsk & _).
  destruct (journal_inside j w t Hj Hw) as [_ Hp]. unfold journal_row. cbn [fst]. by rewrite Hk, Hej.
Qed.

Lemma lookup_journal_ext ix ix' c h :
  ExtentIndex.journal ix' = ExtentIndex.journal ix → ExtentIndex.lookup_journal ix' c h = ExtentIndex.lookup_journal ix c h.
Proof. unfold ExtentIndex.lookup_journal. by intros ->. Qed.

Lemma apply_index_after :
  ∃ ix', apply_promoted_entries (mkPromoteResult u pp jj) m = Ok (mkMaps claims_after ix') ∧ index_after ix'.
Proof.
  destruct primary_index as (ix1 & Ha1 & Hj1 & Hin1). pose proof (er_journal_ok _ _ _ _ _ Hep) as Hok.
  assert (journal_ok ix1) as Hok1 by by eapply journal_ok_ext.
  unfold apply_promoted_entries, apply_promoted_partition. cbn [pr_old_wal_ulid pr_primary pr_journal].
  rewrite Ha1. cbn [mbind io_bind]. rewrite Hps. unfold claims_after.
  pose proof journal_backed as Hback. pose proof journal_rows_formed as Hrows. pose proof journal_aligned as Haln.
  clear Hstage. unfold formed_journal in Hjj. destruct jj as [part|], journal as [j|]; try done.
  2: { exists ix1. split; [done|]. assert (∀ h, ExtentIndex.lookup_journal ix1 u h = None) as Hn.
       { intros h. rewrite (lookup_journal_ext (extent_index m) ix1) by done.
         destruct (ExtentIndex.lookup_journal (extent_index m) u h) eqn:E; [|done].
         by destruct (Hback h ltac:(by eexists)) as (? & ? & ? & _). }
       split; [done|done|done| |].
       - intros c h _. by rewrite (lookup_journal_ext (extent_index m) ix1) by done.
       - intros h Hs. by destruct (Hback h Hs) as (? & ? & ? & _). }
  destruct Hjj as [Hf Hsj]. destruct (Haln j eq_refl) as [_ Hjs].
  assert (ap_segment_ulid part = js) as Hseg by congruence.
  destruct (apply_index_journal u part ltac:(lia) (zip (ap_entries part) (ap_tokens part)) ix1 0 Hok1 (Hrows j part eq_refl Hf))
    as (ix2 & Ha2 & [K I O G P M R]). rewrite Hseg in *.
  exists ix2. cbn [extent_index lbamap]. rewrite Ha2. split; [done|].
  assert (∀ c h, ExtentIndex.lookup_journal ix1 c h = ExtentIndex.lookup_journal (extent_index m) c h) as Hlj.
  { intros c h. by apply lookup_journal_ext. }
  assert (∀ h, is_Some (ExtentIndex.lookup_journal (extent_index m) u h) → body_in (zip (ap_entries part) (ap_tokens part)) h) as Hb.
  { intros h Hs. by destruct (Hback h Hs) as (? & ? & _ & [= <-] & ?). }
  split; [done| | | |].
  - intros h. specialize (Hin1 h). unfold ExtentIndex.lookup in *. by rewrite I.
  - intros h. destruct (body_in_dec (zip (ap_entries part) (ap_tokens part)) h) as [Hi|Hi]; [by apply G|].
    rewrite P, Hlj by done. destruct (ExtentIndex.lookup_journal (extent_index m) u h) eqn:E; [|done].
    exfalso. apply Hi, Hb. by eexists.
  - intros c h Hc Hs. destruct (decide (c = js)) as [->|Hne]; [|by rewrite O, Hlj].
    destruct (ExtentIndex.lookup_journal (extent_index m) u h) eqn:E.
    + destruct (M h) as (loc & _ & ->); [apply Hb; by eexists|rewrite Hlj, E; by eexists|by eexists].
    + rewrite R; [by rewrite Hlj|]. right. by rewrite Hlj.
  - intros h Hs. destruct (M h) as (loc & _ & ->); [by apply Hb|by rewrite Hlj|by eexists].
Qed.

(** *** The blocks *)

Lemma moved_view lba :
  view claims_after lba =
  (λ x, if decide (c_claimant x = u) then reclaim (destination lba) x else x) <$> view (lbamap m) lba.
Proof.
  destruct claims_moved as [Hwf' Hin]. pose proof (er_wf _ _ _ _ _ Hep) as Hwf.
  destruct (view (lbamap m) lba) as [x|] eqn:Hv; cbn [fmap option_fmap option_map].
  - apply (view_Some _ _ _ _ Hwf) in Hv as (k & e & He & Hk & ->). apply (view_Some _ _ _ _ Hwf').
    exists k, (moved k e). rewrite Hin, He. split; [done|].
    assert (LbaMap.lba_length (moved k e) = LbaMap.lba_length e) as -> by (unfold moved; by case_decide).
    split; [done|]. unfold moved. change (c_claimant (cell_of k e lba)) with (claimant_ulid e).
    case_decide as Hu; [|done]. replace (destination lba) with (destination k); [done|].
    destruct (er_claims _ _ _ _ _ Hep k e He Hu) as (w & Hw & H1 & H2 & _). unfold destination.
    by rewrite !(er_window _ _ _ _ _ Hep w) by (done || lia).
  - apply (view_None _ _ _ Hwf'). intros c (k & e' & He' & Hk & _).
    rewrite Hin in He'. apply fmap_Some in He' as (e & He & ->).
    apply (proj1 (view_None _ _ _ Hwf) Hv (cell_of k e lba)). exists k, e. split; [done|].
    assert (LbaMap.lba_length (moved k e) = LbaMap.lba_length e) as Hlen by (unfold moved; by case_decide).
    by rewrite Hlen in Hk.
Qed.

(** A block of the epoch finds a body before the promote. *)
Lemma own_block_resolves lba x :
  view (lbamap m) lba = Some x → c_claimant x = u → c_hash x ≠ ZERO_HASH →
  is_Some (ExtentIndex.lookup (extent_index m) (c_hash x)) ∨
  (contains jr lba = true ∧ is_Some (ExtentIndex.lookup_journal (extent_index m) u (c_hash x))).
Proof.
  intros Hv Hu Hz. apply (view_Some _ _ _ _ (er_wf _ _ _ _ _ Hep)) in Hv as (k & e & He & Hk & ->).
  destruct (er_claims _ _ _ _ _ Hep k e He Hu) as (w & Hw & H1 & H2 & Hh).
  cbn [cell_of c_hash] in *. unfold claim_hash in Hh. case_decide as Hkz; [done|].
  rewrite (er_window _ _ _ _ _ Hep w lba Hw) by lia. rewrite Hh.
  by apply (er_resolves _ _ _ _ _ Hep w Hw).
Qed.
End epoch.

Section execute.
Context {HB : Blake3} {HL : Lz4Block} {HC : Lz4Codec} {HT : Blake3Tree} {HZ : ZstdBulk}
        {HS : Signer} {HUb : UlidBytes}.

Lemma write_promote_formed env job primary journal result :
  (∀ j, journal = Some j → jp_segment_ulid j = pj_journal_segment_ulid job) →
  write_promote env job primary journal = Ok result →
  pr_old_wal_ulid result = pj_old_wal_ulid job ∧ formed primary (pr_primary result) ∧
  ap_segment_ulid (pr_primary result) = pj_segment_ulid job ∧ formed_journal journal (pr_journal result).
Proof.
  intros Hj. unfold write_promote. intros (_ & _ & H)%io_bind_Ok. apply io_bind_Ok in H as (p & Hp & H).
  assert (formed primary p ∧ ap_segment_ulid p = pj_segment_ulid job) as [Hf Hs].
  { case_bool_decide as E.
    - injection Hp as <-. split; [|done]. split; [done|]. by rewrite E.
    - destruct (form_partition_rows _ _ _ _ _ _ Hp) as (? & ? & ?). done. }
  destruct journal as [j|]; [|injection H as <-; done].
  apply io_bind_Ok in H as (jp & Hjp & [= <-]). destruct (form_partition_rows _ _ _ _ _ _ Hjp) as (? & ? & ?).
  split_and!; try done.
Qed.

Lemma fold_promote_single ls u fl result :
  frozen ls = [mkFrozen u fl] → delta_is_empty ls = true → pr_old_wal_ulid result = u →
  fold_promote_result ls result = apply_promoted_entries result (materialised ls).
Proof.
  intros Hf Hd Hu. unfold fold_promote_result, fold_promote, materialised. rewrite Hf, Hd, Hu. cbn.
  unfold with_wal. cbn. by rewrite bool_decide_eq_true_2.
Qed.
End execute.

(** A promote over the maps of its epoch. *)
Lemma promote_safe {HB : Blake3} {HL : Lz4Block} {HC : Lz4Codec} {HT : Blake3Tree} {HZ : ZstdBulk}
    {HS : Signer} {HUb : UlidBytes} N env job result u m :
  u = pj_old_wal_ulid job → m = materialised (pj_layers job) →
  epoch_ready N u (pj_journal_ranges job) (pj_pending job) m → N < U64 →
  u < pj_segment_ulid job → u < pj_journal_segment_ulid job →
  execute_promote env job = inl result →
  pr_old_wal_ulid result = u ∧
  ∃ m', apply_promoted_entries result m = Ok m' ∧
    promoted_to N u (pj_segment_ulid job) (pj_journal_segment_ulid job) (pj_journal_ranges job) m m'.
Proof.
  intros Hu Hm Hep HN Hus Hujs. unfold execute_promote. rewrite <-Hu, <-Hm.
  destruct (stage_pending_for_promote _ _ _ _ _) as [[primary journal] stats] eqn:Hst.
  destruct (write_promote env job primary journal) as [r|] eqn:Hw; [|done]. intros [= ->].
  apply write_promote_formed in Hw as (Hru & Hf & Hfs & Hfj);
    [|intros j Hj; apply (proj1 (proj2 (stage_rows _ _ _ _ _ _ _ _ Hst)) j Hj)].
  destruct (apply_index_after N u _ _ _ _ m Hep Hus Hujs primary journal stats Hst _ _ Hf Hfs Hfj)
    as (ix' & Ha & [Iok Iin Igone Ikept Imoved]).
  pose proof (moved_view N u _ _ _ _ m Hep HN Hus Hujs primary journal stats Hst _ _ Hf Hfs Hfj) as Hv.
  destruct (claims_moved N u _ _ _ _ m Hep HN Hus Hujs primary journal stats Hst _ _ Hf Hfs Hfj) as [Hwf' _].
  rewrite <-Hu in Hru.
  assert (mkPromoteResult u (pr_primary result) (pr_journal result) = result) as Er
    by (rewrite <-Hru; by destruct result).
  rewrite Er in Ha. split; [done|].
  eexists. split; [exact Ha|].
  assert (∀ h, is_Some (ExtentIndex.lookup (extent_index m) h) → is_Some (ExtentIndex.lookup ix' h)) as Hkeep.
  { intros h [loc Hl]. specialize (Iin h). rewrite Hl in Iin. destruct (ExtentIndex.lookup ix' h); [by eexists|done]. }
  split; cbn [lbamap extent_index]; [done|exact Hv|exact Iin| |].
  - intros h. split; [apply Igone|]. intros loc Hl. specialize (Iin h). rewrite Hl in Iin.
    destruct (ExtentIndex.lookup (extent_index m) h) as [loc0|]; [|done].
    case_decide as E; [rewrite Iin; lia|]. by rewrite Iin.
  - intros lba x Hx Hz Hr. rewrite Hv, Hx. eexists. split; [done|]. split; [by case_decide|].
    unfold read_location in *. destruct (decide (c_claimant x = u)) as [Hcu|Hcu]; cbn [reclaim c_claimant c_hash].
    + match goal with |- is_Some (match ?l with _ => _ end) => destruct l eqn:El end; [by eexists|].
      destruct (own_block_resolves N u _ _ m Hep lba x Hx Hcu Hz) as [Hin|[Hc Hjn]]; [by apply Hkeep|].
      exfalso. unfold destination in El. rewrite Hc in El. destruct (Imoved _ Hjn). congruence.
    + specialize (Hr Hcu). destruct (ExtentIndex.lookup_journal (extent_index m) (c_claimant x) (c_hash x)) eqn:E.
      * destruct (Ikept (c_claimant x) (c_hash x) Hcu ltac:(by eexists)) as [l ->]. by eexists.
      * destruct (ExtentIndex.lookup_journal ix' _ _); [by eexists|by apply Hkeep].
Qed.

(** ** A window that moves between the write and the take *)

(** [take_wal_into_promote_job] polls the window before it reads it into the job,
    so an epoch written before the derivation is split by the derived window: the
    staged write leaves for the journal segment marked as a journal body, the
    apply looks for it in the journal tier, and the index keeps naming the WAL
    the promote deletes. *)
Definition flip_write : PendingWrite := mkPendingWrite (new_data_no_body [1] 102 1 CodecNone 3) (Some 136).
Definition flip_maps : Maps :=
  mkMaps (LbaMap.insert lm_new 102 1 [1] 10) (insert_if_absent ei_new [1] (wal_location 10 136 3 CodecNone)).1.
Definition flip_volume : Volume :=
  mkVolume (mkLayers maps_empty [] flip_maps) [] false (Some (mkOpenWal (mkWriteLog [] 0) 10)) []
    [flip_write] (mkMint 20 false) 0 0.

Lemma stranded_by_flip {HU : UlidParts} :
  ∃ v job primary journal stats,
  take_wal_into_promote_job flip_volume 20 (mkTakeEnv 0 (Ok (Some [(100, 10)])) (Ok ())) = Ok (v, job) ∧
  pj_journal_ranges job = [(100, 10)] ∧
  stage_pending_for_promote (pj_pending job) (extent_index (materialised (pj_layers job))) 10
    (pj_journal_ranges job) (pj_journal_segment_ulid job) = (primary, Some journal, stats) ∧
  ∀ part bss entry, ap_tokens part = pre_promote_offsets (jp_partition journal) →
    ap_entries part = [entry] → map (λ w, row_of (pw_entry w)) (writes (jp_partition journal)) = [row_of entry] →
    10 < ap_segment_ulid part → ∃ m',
    apply_promoted_entries (mkPromoteResult 10 (mkApplyPartition 20 bss 0 [] []) (Some part)) flip_maps = Ok m' ∧
    LbaMap.inner (lbamap m') !! 102 = Some (mkMapEntry 1 [1] 0 (ap_segment_ulid part)) ∧
    ExtentIndex.lookup (extent_index m') [1] = Some (wal_location 10 136 3 CodecNone) ∧
    ExtentIndex.lookup_journal (extent_index m') (ap_segment_ulid part) [1] = None.
Proof.
  unfold take_wal_into_promote_job. cbn [wal flip_volume]. destruct (next _ _) as [mi js] eqn:E. cbn [te_candidate] in E.
  do 5 eexists. split; [reflexivity|]. split; [reflexivity|]. split; [vm_compute; reflexivity|].
  intros part bss entry Ht He Hr Hs. cbn [jp_partition pre_promote_offsets writes map] in Ht, Hr.
  injection Hr as H1 H2 H3 H4 H5.
  assert (apply_promoted_entries (mkPromoteResult 10 (mkApplyPartition 20 bss 0 [] []) (Some part)) flip_maps =
    Ok (mkMaps (apply_claims (ap_segment_ulid part) (lbamap flip_maps) [entry]) (extent_index flip_maps))) as ->.
  { unfold apply_promoted_entries, apply_promoted_partition. cbn [pr_primary pr_journal pr_old_wal_ulid ap_entries ap_tokens zip_with apply_index mbind io_bind].
    rewrite Ht, He. cbn [zip_with apply_index]. unfold apply_entry. rewrite <-H3, <-H4, <-H5. reflexivity. }
  eexists. split; [reflexivity|]. cbn [lbamap extent_index]. split; [|by split].
  assert (lm_wf 1000 (lbamap flip_maps)) as Hwf by (apply insert_inner_view; [apply lm_new_wf|..]; lia).
  destruct (apply_claims_inner 1000 (ap_segment_ulid part) [entry] (lbamap flip_maps)) as [_ ->]; [lia|done| |].
  { apply Forall_singleton. unfold placed. rewrite <-H1, <-H2, <-H4. split; [done|lia]. }
  change (LbaMap.inner (lbamap flip_maps) !! 102) with (Some (mkMapEntry 1 [1] 0 10)). cbn [fmap option_fmap option_map]. f_equal.
  unfold promoted. rewrite bool_decide_eq_true_2 by done. cbn [existsb]. unfold takes, claim_hash.
  rewrite <-H1, <-H2, <-H3, <-H4. reflexivity.
Qed.
