(* ===== verification/EpochSpec.v ===== *)
(** * Epochs: a WAL replayed at open is promotable

    [epoch_ready], the premise of a promote, holds of the maps a WAL's records
    leave, so a recovered WAL promotes safely; and a concrete run of the whole
    path. *)

From stdpp Require Import base gmap list fin_maps.
From S2P Require Import Prelude Bytes Segment UlidMint WriteLog WriteLogSpec ChunkTree Codec CodecSpec SegmentCodec SegmentCodecSpec LbaMap LbaMapFacts LbaMapSpec ExtentIndex ExtentIndexSpec MapLayers MapLayersSpec Journal Volume VolumeSpec Promote PromoteSpec.
Open Scope Z_scope.

(** ** An insertion splits extents and merges none *)

Definition sub_extent (im : gmap Z MapEntry) (k : Z) (e : MapEntry) : Prop :=
  ∃ k0 e0, im !! k0 = Some e0 ∧ k0 ≤ k ∧ k + LbaMap.lba_length e ≤ k0 + LbaMap.lba_length e0 ∧
    me_hash e = me_hash e0 ∧ claimant_ulid e = claimant_ulid e0.

Definition splits (m m' : LbaMap) : Prop :=
  ∀ k e, LbaMap.inner m' !! k = Some e → sub_extent (LbaMap.inner m) k e.

Lemma splits_refl m : splits m m.
Proof. intros k e He. exists k, e. split_and!; done || lia. Qed.

Lemma splits_trans m1 m2 m3 : splits m1 m2 → splits m2 m3 → splits m1 m3.
Proof.
  intros H1 H2 k e He. destruct (H2 k e He) as (k0 & e0 & H0 & ? & ? & Eh & Ec).
  destruct (H1 k0 e0 H0) as (k1 & e1 & ? & ? & ? & Eh1 & Ec1). exists k1, e1. split_and!; done || lia || congruence.
Qed.

Lemma splits_remove m k : splits m (remove_entry m k).1.
Proof.
  intros q e. destruct (LbaMap.inner m !! k) as [e0|] eqn:H.
  - rewrite (inner_remove_entry _ _ _ H). intros [_ Hq]%lookup_delete_Some. by apply splits_refl.
  - unfold remove_entry. rewrite H. apply splits_refl.
Qed.

Lemma splits_add m0 m k e : splits m0 m → sub_extent (LbaMap.inner m0) k e → splits m0 (add_entry m k e).
Proof.
  intros Hs He q e'. rewrite inner_add_entry. intros [[<- <-]|[_ Hq]]%lookup_insert_Some; [done|by apply Hs].
Qed.

Lemma split_predecessor_splits N m s t :
  lm_wf N m → 0 ≤ s < t → t ≤ N → splits m (split_predecessor m s t).
Proof.
  intros Hwf Hst HtN. unfold split_predecessor. pose proof (wf_bound _ _ Hwf).
  destruct (om_below (LbaMap.inner m) s) as [[p e]|] eqn:Hb; [|apply splits_refl].
  apply om_below_Some in Hb as (He & Hps & _). pose proof (wf_entry _ _ Hwf _ _ He) as (? & ? & ? & _).
  unwrap. case_decide; [|apply splits_refl].
  assert (splits m (add_entry (remove_entry m p).1 p
    (mkMapEntry (s - p) (me_hash e) (payload_block_offset e) (claimant_ulid e)))) as Hs.
  { apply splits_add; [apply splits_remove|]. exists p, e. cbn. split_and!; done || lia. }
  case_decide; unwrap; [|exact Hs]. apply splits_add; [exact Hs|]. exists p, e. cbn. split_and!; done || lia.
Qed.

Lemma remove_overlapping_splits N m s t key :
  lm_wf N m → t ≤ N → s ≤ key < t →
  lm_wf N (remove_overlapping t m key) ∧ splits m (remove_overlapping t m key).
Proof.
  intros Hwf HtN Hkey. destruct (LbaMap.inner m !! key) as [e|] eqn:He.
  2: { unfold remove_overlapping, remove_entry. rewrite He. split; [done|apply splits_refl]. }
  destruct (remove_overlapping_spec N m s t key e Hwf HtN He Hkey) as (m' & <- & Hwf' & _). split; [done|].
  unfold remove_overlapping. destruct (remove_entry_spec N m key e Hwf He) as (m1 & Hr & Hwf1 & Hi). rewrite Hr.
  assert (splits m m1) as Hs by (pose proof (splits_remove m key) as Hs; by rewrite Hr in Hs).
  pose proof (wf_entry _ _ Hwf _ _ He) as (? & ? & ? & _). pose proof (wf_bound _ _ Hwf).
  unwrap. case_decide; unwrap; [|done]. apply splits_add; [done|]. exists key, e. cbn. split_and!; done || lia.
Qed.

Lemma remove_overlapping_fold_splits N s t ks m :
  lm_wf N m → t ≤ N → (∀ k, k ∈ ks → s ≤ k < t) → splits m (foldl (remove_overlapping t) m ks).
Proof.
  revert m. induction ks as [|k ks IH]; intros m Hwf HtN Hks; cbn [foldl]; [apply splits_refl|].
  destruct (remove_overlapping_splits N m s t k Hwf HtN) as [Hwf' Hs]; [apply Hks; by left|].
  eapply splits_trans; [exact Hs|]. apply IH; [done..|]. intros q Hq. apply Hks. by right.
Qed.

Lemma insert_splits N m s len h c k e :
  lm_wf N m → 0 ≤ s → 0 < len → s + len ≤ N →
  LbaMap.inner (LbaMap.insert m s len h c) !! k = Some e →
  (k = s ∧ e = mkMapEntry len h 0 c) ∨ sub_extent (LbaMap.inner m) k e.
Proof.
  intros Hwf Hs Hl HN. unfold LbaMap.insert, insert_inner. pose proof (wf_bound _ _ Hwf).
  rewrite u64_add_id by lia. rewrite inner_add_entry.
  intros [[<- <-]|[_ He]]%lookup_insert_Some; [by left|right].
  destruct (split_predecessor_spec N m s (s + len) Hwf) as (m1 & Hm1 & Hwf1 & _); [lia..|].
  pose proof (split_predecessor_splits N m s (s + len) Hwf ltac:(lia) HN) as Hsp. rewrite Hm1 in *.
  eapply (splits_trans m m1); [exact Hsp| |exact He].
  eapply (remove_overlapping_fold_splits N s); [done|done|].
  intros q Hq. apply list_elem_of_fmap in Hq as ([q' x] & -> & Hin). apply elem_of_om_range in Hin. cbn. lia.
Qed.

(** ** Replaying a record keeps the epoch promotable *)

Definition rec_start (r : LogRecord) : Z := match r with RData _ s _ _ _ _ | RRef _ s _ | RZero s _ => s end.
Definition rec_len (r : LogRecord) : Z := match r with RData _ _ l _ _ _ | RRef _ _ l | RZero _ l => l end.

(** The record lies on the device and on one side of the window; a ref names a
    body the index resolves. *)
Definition record_fits (N : Z) (jr : JournalRanges) (m : Maps) (r : LogRecord) : Prop :=
  0 ≤ rec_start r ∧ 0 < rec_len r < U32 ∧ rec_start r + rec_len r ≤ N ∧
  (∀ lba, rec_start r ≤ lba < rec_start r + rec_len r → contains jr lba = contains jr (rec_start r)) ∧
  match r with RRef h _ _ => is_Some (ExtentIndex.lookup (extent_index m) h) | _ => True end.

(** Nothing in the maps names the WAL. *)
Record names_no (u : Ulid) (m : Maps) : Prop := {
  nn_claims : ∀ k e, LbaMap.inner (lbamap m) !! k = Some e → claimant_ulid e ≠ u;
  nn_index : ∀ h loc, ExtentIndex.lookup (extent_index m) h = Some loc → segment_id loc ≠ u;
  nn_journal : ∀ h, ExtentIndex.lookup_journal (extent_index m) u h = None
}.

Lemma epoch_nil N u jr m : lm_wf N (lbamap m) → journal_ok (extent_index m) → names_no u m → epoch_ready N u jr [] m.
Proof.
  intros Hwf Hok [Hc Hi Hj]. assert (∀ w : PendingWrite, w ∉ []) as Hn by (intros w; apply not_elem_of_nil).
  split; try done; try (intros w; intros; by destruct (Hn w)).
  - intros h loc Hl Hu. by destruct (Hi h loc Hl).
  - intros h [x Hx]. by rewrite Hj in Hx.
  - intros k e He Hu. by destruct (Hc k e He).
Qed.

Section step.
Context (N : Z) (u : Ulid) (jr : JournalRanges) (HN : N < U64).

(** The claims, after any insertion under [u]. *)
Lemma claims_step ws m p :
  epoch_ready N u jr ws m → placed N (pw_entry p) → e_lba_length (pw_entry p) < U32 →
  let lm := LbaMap.insert (lbamap m) (w_start p) (e_lba_length (pw_entry p)) (claim_hash (pw_entry p)) u in
  lm_wf N lm ∧
  (∀ k e, LbaMap.inner lm !! k = Some e → claimant_ulid e = u →
     ∃ w, w ∈ ws ++ [p] ∧ w_start w ≤ k ∧ k + LbaMap.lba_length e ≤ w_end w ∧ me_hash e = claim_hash (pw_entry w)) ∧
  (∀ w k e, w ∈ ws ++ [p] → LbaMap.inner lm !! k = Some e →
     k < w_end w → w_start w < k + LbaMap.lba_length e → claimant_ulid e = u).
Proof.
  intros Hep (_ & H0 & Hl & HNN) Hl32 lm. pose proof (er_wf _ _ _ _ _ Hep) as Hwf. unfold w_start in lm.
  assert (w_end p = w_start p + e_lba_length (pw_entry p)) as Hend by done.
  unfold w_start in *. destruct (insert_inner_view N (lbamap m) (e_start_lba (pw_entry p)) (e_lba_length (pw_entry p)) 0
    (claim_hash (pw_entry p)) u Hwf) as [Hwf' _]; [lia..|].
  split; [exact Hwf'|].
  assert (∀ k e, LbaMap.inner lm !! k = Some e →
    (k = e_start_lba (pw_entry p) ∧ e = mkMapEntry (e_lba_length (pw_entry p)) (claim_hash (pw_entry p)) 0 u) ∨
    sub_extent (LbaMap.inner (lbamap m)) k e) as Hsub.
  { intros k e. apply (insert_splits N); done. }
  assert (p ∈ ws ++ [p]) as Hp by (apply elem_of_app; right; by apply list_elem_of_singleton).
  split.
  - intros k e He Hu. destruct (Hsub k e He) as [[-> ->]|(k0 & e0 & H1 & H2 & H3 & H4 & H5)].
    + exists p. cbn. rewrite Hend. split_and!; done || lia.
    + destruct (er_claims _ _ _ _ _ Hep k0 e0 H1) as (w & Hw & ? & ? & ?); [congruence|].
      exists w. split; [apply elem_of_app; by left|]. unfold w_start in *. split_and!; lia || congruence.
  - intros w k e Hw He Hk1 Hk2.
    destruct (Hsub k e He) as [[-> ->]|(k0 & e0 & H1 & H2 & H3 & H4 & H5)]; [done|].
    rewrite H5. apply elem_of_app in Hw as [Hw|Hw%list_elem_of_singleton].
    { eapply (er_top _ _ _ _ _ Hep w k0 e0 Hw H1); unfold w_start in *; lia. }
    subst w. rewrite <-H5. rewrite Hend in Hk1.
    (* the new extent covers the write: no other reaches into it *)
    pose proof (wf_entry _ _ Hwf' _ _ He) as (_ & He0 & _).
    assert (LbaMap.inner lm !! e_start_lba (pw_entry p) =
      Some (mkMapEntry (e_lba_length (pw_entry p)) (claim_hash (pw_entry p)) 0 u)) as Hnew.
    { unfold lm, LbaMap.insert, insert_inner. by rewrite inner_add_entry, lookup_insert_eq. }
    destruct (Z.lt_total k (e_start_lba (pw_entry p))) as [Hlt|[->|Hgt]].
    + pose proof (wf_disjoint _ _ Hwf' _ _ _ _ He Hnew Hlt). unfold w_start in *. lia.
    + change (LbaMap.insert _ _ _ _ _) with lm in He. by simplify_eq.
    + pose proof (wf_disjoint _ _ Hwf' _ _ _ _ Hnew He Hgt) as Hd. cbn in Hd. lia.
Qed.

Lemma data_kind h s l c n : plain_kind (e_kind (new_data_no_body h s l c n)) = true.
Proof. unfold new_data_no_body. by destruct (would_be_inline n). Qed.

Lemma plain_staged k : plain_kind k = true → staged_kind k = true ∧ is_canonical_only k = false ∧ k ≠ Zero.
Proof. by destruct k. Qed.

(** The pending write of a record. *)
Lemma replay_pending m r :
  let p := (replay_record jr u m r).2 in
  w_start p = rec_start r ∧ e_lba_length (pw_entry p) = rec_len r ∧ staged_kind (kind_of p) = true ∧
  match r with
  | RData h s _ _ off _ => plain_kind (kind_of p) = true ∧ owns_body p h off ∧ e_journal (pw_entry p) = contains jr s
  | RRef h _ _ => kind_of p = DedupRef ∧ w_hash p = h
  | RZero _ _ => kind_of p = Zero
  end.
Proof.
  destruct r as [h s l f off d|h s l|s l]; cbn [rec_start rec_len].
  - pose proof (data_kind h s l (from_wal_flags f) (as_u32 (blen d))) as Hk.
    assert (kind_of (replay_record jr u m (RData h s l f off d)).2 = e_kind (new_data_no_body h s l (from_wal_flags f) (as_u32 (blen d)))) as Hkk by done.
    rewrite Hkk. destruct (plain_staged _ Hk) as (? & _). unfold owns_body. rewrite Hkk. done.
  - done.
  - done.
Qed.

Lemma fits_placed m r :
  record_fits N jr m r →
  placed N (pw_entry (replay_record jr u m r).2) ∧ e_lba_length (pw_entry (replay_record jr u m r).2) < U32.
Proof.
  intros (H0 & Hl & HNN & _). destruct (replay_pending m r) as (Hs & Hlen & Hk & _). unfold w_start in Hs.
  unfold placed. rewrite Hs, Hlen. split_and!; try lia. unfold kind_of in Hk. by destruct (e_kind _).
Qed.

Lemma replay_lbamap m r :
  let p := (replay_record jr u m r).2 in
  lbamap (replay_record jr u m r).1 =
    LbaMap.insert (lbamap m) (w_start p) (e_lba_length (pw_entry p)) (claim_hash (pw_entry p)) u.
Proof.
  destruct r as [h s l f off d|h s l|s l]; try done. cbn. unfold claim_hash, new_data_no_body. cbn. by destruct (would_be_inline _).
Qed.

(** What a record teaches the index. *)
Definition teaches (r : LogRecord) (inside_ : bool) (h : Hash) (off : Z) : Prop :=
  match r with RData h' s _ _ off' _ => contains jr s = inside_ ∧ h = h' ∧ off = off' | _ => False end.

Lemma replay_index m r :
  let ix := extent_index m in let ix' := extent_index (replay_record jr u m r).1 in
  journal_ok ix →
  journal_ok ix' ∧
  (∀ h, is_Some (ExtentIndex.lookup ix h) → is_Some (ExtentIndex.lookup ix' h)) ∧
  (∀ h, is_Some (ExtentIndex.lookup_journal ix u h) → is_Some (ExtentIndex.lookup_journal ix' u h)) ∧
  (∀ h loc, ExtentIndex.lookup ix' h = Some loc →
     ExtentIndex.lookup ix h = Some loc ∨ segment_id loc = u ∧ teaches r false h (body_offset loc)) ∧
  (∀ h, is_Some (ExtentIndex.lookup_journal ix' u h) →
     is_Some (ExtentIndex.lookup_journal ix u h) ∨ ∃ off, teaches r true h off) ∧
  (∀ h off, teaches r false h off → is_Some (ExtentIndex.lookup ix' h)) ∧
  (∀ h off, teaches r true h off → is_Some (ExtentIndex.lookup_journal ix' u h)).
Proof.
  intros ix ix' Hok. destruct r as [h s l f off d|h s l|s l]; [|by (split_and!; try done; (by left))..].
  subst ix'. cbn [replay_record fst extent_index teaches]. fold ix.
  set (loc := wal_location _ _ _ _). destruct (contains jr s) eqn:Hj; cbn [fst extent_index].
  - destruct (insert_journal_if_absent_others ix u h loc) as [_ Hi].
    split; [by apply insert_journal_ok|]. unfold ExtentIndex.lookup. rewrite Hi.
    split_and!; [done| |by left| |naive_solver|].
    + intros h' Hs. rewrite lookup_journal_insert_if_absent. destruct Hs as [x ->]. by eexists.
    + intros h'. rewrite lookup_journal_insert_if_absent. destruct (decide (u = u ∧ h = h')) as [[_ <-]|Hn].
      * right. by exists off.
      * destruct (ExtentIndex.lookup_journal ix u h') eqn:E; cbn; [left; by eexists|by intros []].
    + intros h' off' (_ & -> & _). rewrite lookup_journal_insert_if_absent, decide_True by done.
      destruct (ExtentIndex.lookup_journal ix u h); by eexists.
  - destruct (insert_if_absent_others ix h loc) as [_ Hi].
    split; [by eapply journal_ok_ext|]. unfold ExtentIndex.lookup_journal. rewrite Hi.
    split_and!; [|done| |by left| |naive_solver].
    + intros h' [x Hx]. rewrite lookup_insert_if_absent, Hx. by eexists.
    + intros h' x. rewrite lookup_insert_if_absent. destruct (ExtentIndex.lookup ix h') eqn:E; [by left|].
      cbn. case_decide; [|done]. intros [= <-]. by right.
    + intros h' off' (_ & -> & _). rewrite lookup_insert_if_absent, decide_True by done.
      destruct (ExtentIndex.lookup ix h); by eexists.
Qed.

Lemma epoch_step ws m r :
  epoch_ready N u jr ws m → record_fits N jr m r →
  epoch_ready N u jr (ws ++ [(replay_record jr u m r).2]) (replay_record jr u m r).1.
Proof.
  intros Hep Hfit. pose proof Hfit as (_ & _ & _ & Hwin & Href).
  destruct (replay_pending m r) as (Hs & Hlen & Hk & Hr). destruct (fits_placed m r Hfit) as [Hpl Hl32].
  destruct (claims_step ws m _ Hep Hpl Hl32) as (Hwf & Hcl & Htop).
  destruct (replay_index m r (er_journal_ok _ _ _ _ _ Hep)) as (Hok & Hi & Hj & Hib & Hjb & Ht1 & Ht2).
  pose proof (replay_lbamap m r) as Hlm. cbn zeta in Hlm. rewrite <-Hlm in Hwf, Hcl, Htop.
  set (p := (replay_record jr u m r).2) in *. set (m' := (replay_record jr u m r).1) in *.
  assert (inside jr p = contains jr (rec_start r)) as Hin by (unfold inside; fold (w_start p); by rewrite Hs).
  assert (∀ (P : PendingWrite → Prop), (∀ w, w ∈ ws → P w) → P p → ∀ w, w ∈ ws ++ [p] → P w) as Hall.
  { intros P H1 H2 w [Hw|Hw%list_elem_of_singleton]%elem_of_app; [by apply H1|by subst]. }
  assert (p ∈ ws ++ [p]) as Hpin by (apply elem_of_app; right; by apply list_elem_of_singleton).
  assert (∀ w, w ∈ ws → w ∈ ws ++ [p]) as Hwin' by (intros; apply elem_of_app; by left).
  split; [done|done| | | | | | | |exact Hcl|exact Htop].
  - apply Hall; [apply (er_kinds _ _ _ _ _ Hep)|done].
  - apply Hall; [apply (er_placed _ _ _ _ _ Hep)|done].
  - intros w lba Hw. revert w Hw lba. apply (Hall (λ w, ∀ lba, w_start w ≤ lba < w_end w → contains jr lba = inside jr w)).
    + intros w Hw lba. by apply (er_window _ _ _ _ _ Hep).
    + intros lba. rewrite Hin. intros Hlba. apply Hwin. unfold w_end in Hlba. fold (w_start p) in Hlba.
      rewrite Hs, Hlen in Hlba. done.
  - apply (Hall (λ w, plain_kind (kind_of w) = true → e_journal (pw_entry w) = inside jr w)).
    + apply (er_tier _ _ _ _ _ Hep).
    + intros Hpk. rewrite Hin. destruct r; [by destruct Hr as (_ & _ & ?)|destruct Hr as [Hr _]; by rewrite Hr in Hpk|by rewrite Hr in Hpk].
  - intros h loc Hl Hu. destruct (Hib h loc Hl) as [Hold|[_ Ht]].
    + destruct (er_backed _ _ _ _ _ Hep h loc Hold Hu) as (w & ? & ?). exists w. split; [by apply Hwin'|done].
    + exists p. split; [done|]. rewrite Hin. destruct r; [|done..]. destruct Ht as (? & -> & ->). by destruct Hr as (_ & ? & _).
  - intros h Hsm. destruct (Hjb h Hsm) as [Hold|[off Ht]].
    + destruct (er_journal_backed _ _ _ _ _ Hep h Hold) as (w & ? & ?). exists w. split; [by apply Hwin'|done].
    + exists p. split; [done|]. rewrite Hin. destruct r; [|done..]. destruct Ht as (? & -> & _).
      destruct Hr as (? & (_ & ? & _) & _). done.
  - apply (Hall (λ w, kind_of w ≠ Zero → is_Some (ExtentIndex.lookup (extent_index m') (w_hash w)) ∨
       inside jr w = true ∧ is_Some (ExtentIndex.lookup_journal (extent_index m') u (w_hash w)))).
    + intros w Hw Hz. destruct (er_resolves _ _ _ _ _ Hep w Hw Hz) as [?|[? ?]]; [left; by apply Hi|right; split; [done|by apply Hj]].
    + intros Hz. rewrite Hin. destruct r as [h s l f off d|h s l|s l]; cbn [rec_start].
      * destruct Hr as (_ & (_ & Hh & _) & _). fold (w_hash p) in Hh. rewrite Hh.
        destruct (contains jr s) eqn:E; [right; split; [done|]; by apply (Ht2 h off)|left; by apply (Ht1 h off)].
      * destruct Hr as [_ Hh]. rewrite Hh. left. by apply Hi.
      * done.
Qed.
End step.

Lemma fits_later N u jr m r r' :
  journal_ok (extent_index m) → record_fits N jr m r' → record_fits N jr (replay_record jr u m r).1 r'.
Proof.
  intros Hok (H0 & H1 & H2 & H3 & H4). destruct (replay_index u jr m r Hok) as (_ & Hi & _).
  split_and!; [done|apply H1|apply H1|done..|]. destruct r'; [done|by apply Hi|done].
Qed.

(** A replayed WAL is a promotable epoch. *)
Lemma epoch_replay N u jr m rs :
  N < U64 → epoch_ready N u jr [] m → Forall (record_fits N jr m) rs →
  epoch_ready N u jr (replay_records jr u m rs).2 (replay_records jr u m rs).1.
Proof.
  intros HN Hep Hf.
  assert (∀ ws m1 rs, epoch_ready N u jr ws m1 → Forall (record_fits N jr m1) rs →
    let r := foldl (λ '(m, pend) r, let '(m, p) := replay_record jr u m r in (m, pend ++ [p])) (m1, ws) rs in
    epoch_ready N u jr r.2 r.1) as H; [|by apply H].
  clear. intros ws m1 rs. revert ws m1. induction rs as [|r rs IH]; intros ws m1 Hep Hf; cbn [foldl]; [done|].
  apply Forall_cons in Hf as [Hr Hf]. destruct (replay_record jr u m1 r) as [m2 p] eqn:E.
  pose proof (epoch_step N u jr ws m1 r Hep Hr) as Hs. pose proof (er_journal_ok _ _ _ _ _ Hep) as Hok.
  assert (Forall (record_fits N jr m2) rs) as Hf2.
  { apply Forall_forall. intros r' Hin. apply (proj1 (Forall_forall _ _) Hf) in Hin.
    pose proof (fits_later N u jr m1 r r' Hok Hin) as Hl. by rewrite E in Hl. }
  rewrite E in Hs. by apply (IH (ws ++ [p]) m2).
Qed.

Lemma materialised_new m : materialised (ml_new m) = m.
Proof. reflexivity. Qed.

Lemma promoted_names_no N u s js jr m m' :
  lm_wf N (lbamap m) → u < s → u < js → promoted_to N u s js jr m m' → names_no u m'.
Proof.
  intros Hwf Hs Hjs [[Hwf' _] Hb _ Hu _]. split.
  - intros k e He Hc. pose proof (wf_entry _ _ Hwf' _ _ He) as (_ & Hl & _).
    assert (view (lbamap m') k = Some (cell_of k e k)) as Hv.
    { apply (view_Some _ _ _ _ Hwf'). exists k, e. split_and!; done || lia. }
    rewrite Hb in Hv. destruct (view (lbamap m) k) as [x|]; [|done]. cbn in Hv. injection Hv as Hx.
    apply (f_equal c_claimant) in Hx. cbn [cell_of c_claimant] in Hx. rewrite Hc in Hx.
    destruct (decide (c_claimant x = u)) as [_|Hn]; [|done]. cbn in Hx. destruct (contains jr k); lia.
  - intros h loc Hl. by apply (proj2 (Hu h)).
  - intros h. apply Hu.
Qed.





(** ** A stale WAL is promoted without an error of its own *)

(** What a promote needs of one write to form its segment entry: its bytes are in
    the file and decode. *)
Definition formable `{HL : Lz4Block} {HC : Lz4Codec} `{HT : Blake3Tree} {HZ : ZstdBulk}
    (file : list Z) (w : PendingWrite) : Prop :=
  match wal_body_offset w with
  | None => is_data (kind_of w) = false ∧ is_inline (kind_of w) = false
  | Some off => plain_kind (kind_of w) = true ∧ ∃ buf plain,
      read_exact_at file off (e_stored_length (pw_entry w)) = Ok buf ∧ decode (e_codec (pw_entry w)) buf = Ok plain
  end.

(** The payload of a record decodes under the codec its flags name; its length
    is what the record's length field held. *)
Definition payload_decodes `{HL : Lz4Block} {HC : Lz4Codec} `{HT : Blake3Tree} {HZ : ZstdBulk} (r : LogRecord) : Prop :=
  match r with
  | RData _ _ _ f _ d => blen d < U32 ∧ ∃ plain, decode (from_wal_flags f) d = Ok plain
  | _ => True
  end.

(** Every call outside the volume answers, and the WAL's file reads as [file]. *)
Record answers (env : ExecEnv) (file : list Z) : Prop := {
  an_sync : wal_synced env = Ok ();
  an_file : wal_file env = Ok file;
  an_primary : primary_committed env = Ok ();
  an_journal : journal_committed env = Ok ()
}.

Section forms.
Context {HB : Blake3} {HL : Lz4Block} {HC : Lz4Codec} {HT : Blake3Tree} {HZ : ZstdBulk}.
Context {HS : Signer} {HUb : UlidBytes}.
Context (Hzstd : ∀ bs, ∃ f, zstd_compress bs = Ok f).

Lemma compress_chunks_Ok s plain indices : ∃ fs, compress_chunks s plain indices = Ok fs.
Proof.
  induction indices as [|i l [fs IH]]; cbn [compress_chunks]; [by eexists|]. unfold zstd_frame.
  destruct (Hzstd (bytes_in plain (range s i (blen plain)))) as [f ->]. cbn. rewrite IH. by eexists.
Qed.

Lemma compress_body_Ok plain j : ∃ form, compress_body plain j = Ok form.
Proof.
  unfold compress_body, compress_chunked, zstd_frame. destruct j; [by eexists|]. case_decide.
  - destruct (compress_chunks_Ok WRITE_CHUNK_SIZE plain (seqZ 0 (count WRITE_CHUNK_SIZE (blen plain)))) as [fs ->].
    by eexists.
  - destruct (Hzstd plain) as [f ->]. cbn. case_decide; [by eexists|].
    destruct (maybe_compress plain); [|by eexists]. by destruct (_ && _); eexists.
Qed.

Lemma materialise_one_Ok file w :
  formable file w → ∃ p, materialise_one file w = Ok p ∧ check_pending p = true.
Proof.
  unfold formable, materialise_one, kind_of. destruct (wal_body_offset w) as [off|].
  - intros (Hk & buf & plain & -> & Hd). cbn [mbind io_bind]. destruct (is_inline (e_kind (pw_entry w))) eqn:Hi.
    + eexists. split; [done|]. unfold check_pending, with_inline_bytes. cbn. by destruct (e_kind (pw_entry w)).
    + rewrite Hd. cbn [mbind io_bind]. destruct (compress_body_Ok plain (e_journal (pw_entry w))) as [form ->].
      cbn [mbind io_bind]. destruct (default (CodecNone, plain) form) as [c stored]. eexists. split; [done|].
      unfold check_pending, with_body. cbn. by destruct (e_kind (pw_entry w)).
  - intros [Hd Hi]. eexists. split; [done|]. unfold check_pending. cbn. by rewrite Hd, Hi.
Qed.

Lemma form_partition_Ok file sketch s p :
  Forall (formable file) (writes p) → ∃ part, form_partition (Ok file) sketch (Ok ()) s p = Ok part.
Proof.
  intros Hf. unfold form_partition.
  assert (∀ file', (file' = file ∨ Forall (λ w, wal_body_offset w = None) (writes p)) →
    ∃ ps, materialise_pending_bodies file' (writes p) = Ok ps ∧ forallb check_pending ps = true) as Hm.
  { intros file' Hfile. induction Hf as [|w ws Hw Hf IH]; cbn [materialise_pending_bodies]; [by eexists|].
    destruct IH as (ps & -> & Hps).
    { destruct Hfile as [?|H%Forall_cons]; [by left|right; apply H]. }
    destruct (materialise_one_Ok file w Hw) as (q & Hq & Hc).
    assert (materialise_one file' w = Ok q) as ->.
    { rewrite <-Hq. destruct Hfile as [->|[Hn _]%Forall_cons]; [done|]. unfold materialise_one. by rewrite Hn. }
    eexists. split; [done|]. cbn. by rewrite Hc, Hps. }
  match goal with |- ∃ part, (mbind _ ?f) = _ => assert (∃ x, f = Ok x ∧
    (x = file ∨ Forall (λ w, wal_body_offset w = None) (writes p))) as (file' & -> & Hfile) end.
  { destruct (existsb _ (writes p)) eqn:E; [exists file; split; [done|by left]|].
    exists []. split; [done|right]. apply Forall_forall. intros w Hw.
    destruct (wal_body_offset w) as [off|] eqn:Ho; [|done]. exfalso. apply not_true_iff_false in E.
    apply E, existsb_exists. exists w. split; [by apply list_elem_of_In|]. rewrite Ho.
    apply bool_decide_eq_true_2. by eexists. }
  destruct (Hm file' Hfile) as (ps & Hps & Hc). cbn [mbind io_bind]. rewrite Hps. cbn [mbind io_bind].
  unfold write_and_commit, write_segment_full. rewrite Hc.
  destruct (assign_offsets _) as [es [[r1 r2] r3]]. by eexists.
Qed.

(** Staging keeps a write formable: it stays, loses its body, or is marked. *)
Lemma staged_formable file ws ix u jr ju primary journal stats :
  stage_pending_for_promote ws ix u jr ju = (primary, journal, stats) → Forall (formable file) ws →
  Forall (formable file) (writes primary) ∧ Forall (formable file) (journal_writes journal).
Proof.
  intros Hst Hf. pose proof (stage_rows _ _ _ _ _ _ _ _ Hst) as (Ha & Hj & Hperm & _).
  rewrite <-Forall_app, <-(staged_writes primary journal Ha) by (intros j Hjj; apply (Hj j Hjj)).
  apply Forall_forall. intros w ([w1 t] & -> & Hin)%list_elem_of_fmap. cbn [fst].
  assert (clear_row (w1, t) ∈ map clear_row (staged primary journal)) as Hc
    by (apply list_elem_of_fmap; by exists (w1, t)).
  unfold staged in Hc. rewrite Hperm in Hc. apply list_elem_of_fmap in Hc as (w0 & Heq & Hin0).
  pose proof (f_equal fst Heq) as Hw. cbn [clear_row fst] in Hw.
  assert (formable file (clear w1) ↔ formable file w1) as <- by done. rewrite Hw.
  change (formable file (classified ix u w0)). unfold classified, classify_write.
  pose proof (proj1 (Forall_forall _ _) Hf w0 Hin0) as Hw0.
  destruct (e_kind (pw_entry w0)); cbn [default]; try done;
    (destruct (e_journal (pw_entry w0)); [done|]; destruct (ExtentIndex.lookup ix _); [|done];
     destruct (_ && _); [done|]; by split).
Qed.

Lemma execute_promote_Ok env job file :
  answers env file → Forall (formable file) (pj_pending job) → ∃ result, execute_promote env job = inl result.
Proof.
  intros [Hs Hw Hp Hj] Hf. unfold execute_promote.
  destruct (stage_pending_for_promote _ _ _ _ _) as [[primary journal] stats] eqn:Hst.
  destruct (staged_formable file _ _ _ _ _ _ _ _ Hst Hf) as [F1 F2].
  unfold write_promote. rewrite Hs, Hw, Hp, Hj. cbn [mbind io_bind].
  match goal with |- context [if ?b then ?x else ?y] => assert (∃ p, (if b then x else y) = Ok p) as [p ->] end.
  { case_bool_decide; [by eexists|]. by apply form_partition_Ok. }
  cbn [mbind io_bind]. destruct journal as [j|]; [|by eexists]. cbn [journal_writes] in F2.
  destruct (form_partition_Ok file (persist_sketches env) (jp_segment_ulid j) (jp_partition j) F2) as [jp ->].
  by eexists.
Qed.

(** What a scan recovers is formable from the file it leaves. *)
Lemma scanned_formable jr file records size file1 :
  scan file = Ok (records, size, file1) → Forall payload_decodes records →
  Forall (formable file1) (map (pending_of jr) records).
Proof.
  intros Hscan Hd. unfold scan in Hscan. destruct (check_magic file) eqn:Hm; [|done].
  assert (8 ≤ blen file) as H8.
  { unfold check_magic in Hm. apply bool_decide_eq_true, (f_equal length) in Hm. rewrite length_take in Hm.
    change (length WriteLog.MAGIC) with 8%nat in Hm. unfold blen. lia. }
  destruct (scan_loop_sound (length file) file WriteLog.HEADER_LEN []) as [E|(rs & lg & E & Hlg & Hrs & _)];
    [unfold WriteLog.HEADER_LEN; lia|unfold blen, WriteLog.HEADER_LEN; lia|by rewrite E in Hscan|].
  rewrite E in Hscan. cbn [mbind io_bind app] in Hscan.
  assert (file1 = take (Z.to_nat lg) file ∧ records = rs) as [-> ->].
  { injection Hscan as <- <- <-. split; [|done]. case_bool_decide; [done|].
    rewrite take_ge; [done|]. unfold blen in *. lia. }
  clear E Hscan. apply Forall_fmap, Forall_forall. intros r Hr.
  pose proof (proj1 (Forall_forall _ _) Hd r Hr) as Hdr. pose proof (proj1 (Forall_forall _ _) Hrs r Hr) as Hrr.
  destruct r as [h st l f off d|h st l|st l]; [|by split..].
  destruct Hdr as (Hb & plain & Hpl), Hrr as (_ & _ & _ & (pre & post & Hfile & Hoff) & Hlo & _).
  pose proof (data_kind h st l (from_wal_flags f) (as_u32 (blen d))) as Hk.
  unfold formable, pending_of. cbn [replay_record snd wal_body_offset pw_entry].
  split; [exact Hk|]. exists d, plain.
  split; [|exact Hpl].
  match goal with |- read_exact_at _ _ ?n = _ => assert (n = blen d) as -> end.
  { unfold new_data_no_body. cbn. unfold as_u32. pose proof (blen_nonneg d). apply Z.mod_small. lia. }
  pose proof (blen_nonneg d). pose proof (blen_nonneg pre).
  unfold read_exact_at. unfold WriteLog.HEADER_LEN in Hlg.
  rewrite decide_False by (unfold blen in *; rewrite length_take; lia).
  rewrite Hoff, Hfile. unfold blen in *. rewrite !Nat2Z.id. f_equal.
  rewrite skipn_firstn_comm, drop_app_length, firstn_firstn.
  rewrite Nat.min_l by lia. by rewrite take_app_length.
Qed.

Lemma replay_records_pending jr u m rs : (replay_records jr u m rs).2 = map (pending_of jr) rs.
Proof.
  induction rs as [|r rs IH] using rev_ind; [done|]. rewrite replay_records_snoc. cbn [snd]. by rewrite IH, map_app.
Qed.
End forms.

(** A promote of an epoch with no writes over maps that do not name it. *)
Lemma promoted_to_refl N u s js jr m :
  lm_wf N (lbamap m) → journal_ok (extent_index m) → names_no u m → promoted_to N u s js jr m m.
Proof.
  intros Hwf Hok [Hc Hi Hj].
  assert (∀ lba x, view (lbamap m) lba = Some x → c_claimant x ≠ u) as Hn.
  { intros lba x (k & e & He & _ & ->)%(view_Some _ _ _ _ Hwf). by apply (Hc k e He). }
  split; [done| | | |].
  - intros lba. destruct (view (lbamap m) lba) as [x|] eqn:Hv; [|done]. cbn. by rewrite decide_False by by eapply Hn.
  - intros h. destruct (ExtentIndex.lookup (extent_index m) h) as [loc|] eqn:Hl; [|done].
    by rewrite decide_False by by eapply Hi.
  - intros h. split; [apply Hj|apply Hi].
  - intros lba x Hv _ Hr. exists x. split_and!; [done..|]. by eapply Hr, Hn.
Qed.

(** C5: a WAL left by an earlier session is promoted safely at open, and without an
    error of the promote's own.  Suppose nothing rebuilt from the segments names
    the WAL, the mint is at or above its ULID, its file scans, the recovered
    records fit the device and the window and their payloads decode under the
    codec's size cap, the compressor and every call on the files answer, and the
    worker reads the file as the scan left it.  Then the replay, the staging, the
    segments' formation, the apply and the unlink all succeed; every block keeps
    its content, exactly the WAL's claims move to the new segment of their side,
    every block the replay resolved keeps an index location, and no claim, index
    location or journal body names the WAL any more. *)
Theorem recovered_wal_promotes {HU : UlidParts} {HB : Blake3} {HL : Lz4Block} {HC : Lz4Codec} {HT : Blake3Tree}
    {HZ : ZstdBulk} {HS : Signer} {HUb : UlidBytes} N u mi candidate journal_candidate jr m0 file records size file1 env seg :
  let s := (next mi candidate).2 in
  let js := (next (next mi candidate).1 journal_candidate).2 in
  lm_wf N (lbamap m0) → journal_ok (extent_index m0) → names_no u m0 → N < U64 →
  0 ≤ u ≤ last mi → Z.max candidate (last mi + 1) + 1 < 2 ^ 128 →
  scan file = Ok (records, size, file1) → Forall (record_fits N jr m0) records → Forall payload_decodes records →
  (∀ bs, ∃ f, zstd_compress bs = Ok f) → answers env file1 →
  ∃ m wr mi' seg' m',
    replay_wal_records jr u file m0 = Ok (m, wr, file1) ∧
    promote_stale_wal jr u file mi candidate journal_candidate env (Ok ()) seg m0 = Ok (mi', seg', m') ∧
    u < s < js ∧ promoted_to N u s js jr m m' ∧ names_no u m'.
Proof.
  intros s js Hwf Hok Hno HN Hu Hmint Hscan Hfits Hdec Hz Henv.
  destruct (next_spec mi candidate) as [Hs Hsl]; [lia..|].
  destruct (next_spec (next mi candidate).1 journal_candidate) as [Hjs _]; [lia..|].
  fold s in Hs, Hsl. fold js in Hjs. assert (u < s < js) as Hus by lia.
  set (m := (replay_records jr u m0 records).1). set (pend := (replay_records jr u m0 records).2).
  assert (replay_wal_records jr u file m0 = Ok (m, mkWalReplay u size pend, file1)) as Hreplay.
  { unfold replay_wal_records. rewrite Hscan. cbn. subst m pend. by destruct (replay_records jr u m0 records). }
  exists m, (mkWalReplay u size pend). unfold promote_stale_wal. rewrite Hreplay. cbn [mbind io_bind wr_pending valid_size].
  pose proof (epoch_replay N u jr m0 records HN (epoch_nil N u jr m0 Hwf Hok Hno) Hfits) as Hep. fold m pend in Hep.
  assert (pend = map (pending_of jr) records) as Hp by apply replay_records_pending.
  case_bool_decide as Hnil.
  - rewrite Hp in Hnil. assert (m = m0) as -> by (by apply map_eq_nil in Hnil as ->).
    do 3 eexists. split; [done|]. split; [done|]. split_and!; try lia; [by apply promoted_to_refl|done..].
  - destruct (next mi candidate) as [mi1 s'] eqn:E1. cbn [fst snd] in *.
    destruct (next mi1 journal_candidate) as [mi2 js'] eqn:E2. cbn [snd] in *.
    set (job := mkPromoteJob s' (mkOpenWal (reopen file1 size) u) pend jr js' (ml_new m)).
    destruct (execute_promote_Ok Hz env job file1 Henv) as [result Hex].
    { cbn [job pj_pending]. rewrite Hp. by eapply scanned_formable. }
    rewrite Hex.
    destruct (promote_safe N env job result u m) as (_ & m' & Ha & Hpt); [done..|cbn; lia|cbn; lia|done|].
    rewrite Ha. cbn [mbind io_bind]. do 3 eexists. split; [done|]. split; [done|]. split_and!; try lia; [exact Hpt|].
    apply (promoted_names_no N u s js jr m); [apply (er_wf _ _ _ _ _ Hep)|lia|lia|exact Hpt].
Qed.

(** ** A concrete run *)

(** Two writes of the same body outside the window, one inside it, a zero range:
    the second write becomes a dedup ref, the third a journal segment. *)
Definition body1 : list Z := [7; 8; 9].
Definition body2 : list Z := [5; 5; 5; 5].
Definition epoch_ops : list append_op :=
  [OpData 50 1 (@blake3 toy_blake3 body1) 0 body1; OpData 102 2 (@blake3 toy_blake3 body2) 0 body2;
   OpData 60 1 (@blake3 toy_blake3 body1) 0 body1; OpZero 9 2].
Definition epoch_file : list Z := log_bytes epoch_ops.
Definition epoch_records : list LogRecord := records_from WriteLog.HEADER_LEN epoch_ops.
Definition epoch_env : ExecEnv := mkExecEnv (Ok ()) (Ok epoch_file) (Ok ()) (Ok ()) false.
Lemma base_sample_free : names_no 10 base_sample.
Proof.
  split.
  - assert (map_Forall (λ _ e, claimant_ulid e ≠ 10) (LbaMap.inner (lbamap base_sample))) as H
      by (apply (bool_decide_unpack _); vm_compute; reflexivity).
    exact H.
  - assert (map_Forall (λ _ l, segment_id l ≠ 10) (ExtentIndex.inner (extent_index base_sample))) as H
      by (apply (bool_decide_unpack _); vm_compute; reflexivity).
    exact H.
  - intros h. reflexivity.
Qed.

Lemma base_sample_journal_ok : journal_ok (extent_index base_sample).
Proof. intros s seg. cbn. by rewrite lookup_empty. Qed.

Lemma epoch_records_fit_any m : Forall (record_fits 1000 [(100, 10)] m) epoch_records.
Proof.
  assert (∀ lba, 102 ≤ lba < 104 → contains [(100, 10)] lba = true) as H1.
  { intros lba Hl. assert (lba = 102 ∨ lba = 103) as [-> | ->] by lia; reflexivity. }
  assert (∀ lba, 9 ≤ lba < 11 → contains [(100, 10)] lba = false) as H2.
  { intros lba Hl. assert (lba = 9 ∨ lba = 10) as [-> | ->] by lia; reflexivity. }
  unfold epoch_records, epoch_ops. cbn [records_from record_of].
  repeat constructor; cbn [rec_start rec_len]; try lia.
  - intros lba Hl. by replace lba with 50 by lia.
  - apply H1.
  - intros lba Hl. by replace lba with 60 by lia.
  - apply H2.
Qed.

Definition epoch_mint : UlidMint := mkMint 15 false.

Lemma epoch_payloads_decode :
  Forall (@payload_decodes rle_lz4 rle_codec toy_blake3 toy_tree toy_zstd) epoch_records.
Proof.
  unfold epoch_records, epoch_ops. cbn [records_from record_of].
  repeat (apply Forall_cons; split); try exact I; [| | |by apply Forall_nil]; (split; [reflexivity|by eexists]).
Qed.

Lemma toy_zstd_answers bs : ∃ f, @zstd_compress toy_zstd bs = Ok f.
Proof. by eexists. Qed.

Lemma recovered_wal_promotes_witness : ∃ mi' seg' m m',
  @promote_stale_wal toy_ulid_parts toy_blake3 rle_lz4 rle_codec toy_tree toy_zstd toy_signer toy_ulid_bytes
    [(100, 10)] 10 epoch_file epoch_mint 20 21 epoch_env (Ok ()) None base_sample = Ok (mi', seg', m') ∧
  promoted_to 1000 10 20 21 [(100, 10)] m m' ∧ names_no 10 m'.
Proof.
  assert (@scan toy_blake3 rle_lz4 epoch_file = Ok (epoch_records, blen epoch_file, epoch_file)) as Hscan
    by (vm_compute; reflexivity).
  destruct (@recovered_wal_promotes toy_ulid_parts toy_blake3 rle_lz4 rle_codec toy_tree toy_zstd toy_signer
    toy_ulid_bytes 1000 10 epoch_mint 20 21 [(100, 10)] base_sample epoch_file epoch_records (blen epoch_file)
    epoch_file epoch_env None) as (m & wr & mi' & seg' & m' & _ & Hrun & _ & Hp & Hn);
    [apply sample_wf|apply base_sample_journal_ok|apply base_sample_free|lia|cbn; lia|cbn; lia|exact Hscan
    |exact (epoch_records_fit_any _)|exact epoch_payloads_decode|exact toy_zstd_answers|by constructor|].
  exists mi', seg', m, m'. split; [exact Hrun|]. split; [exact Hp|exact Hn].
Defined.








