(* ===== verification/SyncGate.v ===== *)
(** * The WAL sync gate (elide-core/src/sync_gate.rs)

    One fdatasync round serves every durability request whose writes landed
    before it started.  A request holds the gate's lock for one section at a
    time; the step relation interleaves the sections of any number of requests,
    the rounds, and the appends that move the generation.  The two clock readings
    a request takes, and the counters of waited time they feed, are left out. *)

From stdpp Require Import base gmap list fin_maps.
From S2P Require Import Prelude Segment.
Open Scope Z_scope.

(** ** Data *)

Inductive RequestKind := Flush | Fua.

Record GateState := mkGateState {
  completed : Z;             (* u64 *)
  failure : option io_error;
  running : option Z;
  joined : Z                 (* u64 *)
}.

Record GateCounters := mkGateCounters {
  flush_requests : Z; fua_requests : Z; free_requests : Z;
  rounds : Z; rotated_rounds : Z; window_max_batch : Z
}.

Definition gate_default : GateState := mkGateState 0 None None 0.
Definition counters_default : GateCounters := mkGateCounters 0 0 0 0 0 0.

Definition outcome (s : GateState) : io unit :=
  match failure s with Some e => Err e | None => Ok () end.

(** Where a call of [sync_through] stands: before the lock, parked on the
    condition variable, notified, running the round, returned. *)
Inductive Request :=
  | Arrived (generation : Z)
  | ParkedJoined (generation : Z)
  | ParkedLater (generation : Z)
  | NotifiedJoined (generation : Z)
  | NotifiedLater (generation : Z)
  | Leading (generation start : Z)
  | Returned (generation : Z) (result : io unit).

(** ** The lock sections *)

Definition count_request (k : RequestKind) (c : GateCounters) : GateCounters :=
  match k with
  | Flush => mkGateCounters (u64_add (flush_requests c) 1) (fua_requests c) (free_requests c)
               (rounds c) (rotated_rounds c) (window_max_batch c)
  | Fua => mkGateCounters (flush_requests c) (u64_add (fua_requests c) 1) (free_requests c)
             (rounds c) (rotated_rounds c) (window_max_batch c)
  end.

Definition count_free (c : GateCounters) : GateCounters :=
  mkGateCounters (flush_requests c) (fua_requests c) (u64_add (free_requests c) 1)
    (rounds c) (rotated_rounds c) (window_max_batch c).

(** The loop over [running], up to the next wait or the start of a round; [now]
    is read with the lock held. *)
Definition gate_loop (s : GateState) (generation now : Z) : GateState * Request :=
  match running s with
  | Some start =>
      if decide (generation ≤ start) then
        (mkGateState (completed s) (failure s) (running s) (u64_add (joined s) 1), ParkedJoined generation)
      else (s, ParkedLater generation)
  | None => (mkGateState (completed s) (failure s) (Some now) 0, Leading generation now)
  end.

(** The section on arrival. *)
Definition gate_enter (s : GateState) (c : GateCounters) (generation now : Z)
    : GateState * GateCounters * Request :=
  if decide (generation ≤ completed s) then (s, count_free c, Returned generation (outcome s))
  else let '(s, r) := gate_loop s generation now in (s, c, r).

(** A joined request returns as soon as it is notified. *)
Definition gate_wake_joined (s : GateState) (generation : Z) : Request := Returned generation (outcome s).

(** A later one looks again. *)
Definition gate_wake_later (s : GateState) (generation now : Z) : GateState * Request :=
  if decide (generation ≤ completed s) then (s, Returned generation (outcome s))
  else gate_loop s generation now.

Definition error_of {A} (r : io A) : option io_error := match r with Ok _ => None | Err e => Some e end.
Definition drop_value {A} (r : io A) : io unit := match r with Ok _ => Ok () | Err e => Err e end.

(** The section after the round: the state and the batch it served. *)
Definition gate_finish (s : GateState) (start : Z) (r : io Z) : GateState * Z :=
  (mkGateState start (error_of r) None (joined s), u64_add (joined s) 1).

Definition count_round (batch : Z) (r : io Z) (c : GateCounters) : GateCounters :=
  mkGateCounters (flush_requests c) (fua_requests c) (free_requests c) (u64_add (rounds c) 1)
    (match r with Ok files => if decide (1 < files) then u64_add (rotated_rounds c) 1 else rotated_rounds c
                | Err _ => rotated_rounds c end)
    (Z.max (window_max_batch c) batch).

Definition notify (r : Request) : Request :=
  match r with
  | ParkedJoined g => NotifiedJoined g
  | ParkedLater g => NotifiedLater g
  | _ => r
  end.

(** Read the counters; closing a window resets its maximum. *)
Definition gate_read (c : GateCounters) (close_window : bool) : GateCounters * GateCounters :=
  (c, if close_window then mkGateCounters (flush_requests c) (fua_requests c) (free_requests c)
                             (rounds c) (rotated_rounds c) 0 else c).

(** The counts since [earlier], with the snapshot's window maximum. *)
Definition since (c earlier : GateCounters) : GateCounters :=
  let sub a b := Z.max 0 (a - b) in
  mkGateCounters (sub (flush_requests c) (flush_requests earlier)) (sub (fua_requests c) (fua_requests earlier))
    (sub (free_requests c) (free_requests earlier)) (sub (rounds c) (rounds earlier))
    (sub (rotated_rounds c) (rotated_rounds earlier)) (window_max_batch c).

(** ** The interleavings *)

(** The gate, the calls, the generation appends have reached, and the history of
    rounds: each one's start and result, latest last. *)
Record System := mkSystem {
  gate : GateState;
  counters : GateCounters;
  requests : gmap nat Request;
  generation : Z;
  history : list (Z * io Z)
}.

Definition system_new : System := mkSystem gate_default counters_default ∅ 0 [].

(** What the environment does: a write advances the generation, a call arrives
    for writes already made. *)
Inductive env_step (s : System) : System → Prop :=
  | step_append n :
      generation s ≤ n →
      env_step s (mkSystem (gate s) (counters s) (requests s) n (history s))
  | step_arrive t g k :
      requests s !! t = None → g ≤ generation s →
      env_step s (mkSystem (gate s) (count_request k (counters s)) (<[t := Arrived g]> (requests s))
                    (generation s) (history s)).

(** What the gate does for a call. *)
Inductive gate_step (s : System) : System → Prop :=
  | step_enter t g st c r :
      requests s !! t = Some (Arrived g) →
      gate_enter (gate s) (counters s) g (generation s) = (st, c, r) →
      gate_step s (mkSystem st c (<[t := r]> (requests s)) (generation s) (history s))
  | step_joined t g :
      requests s !! t = Some (NotifiedJoined g) →
      gate_step s (mkSystem (gate s) (counters s) (<[t := gate_wake_joined (gate s) g]> (requests s))
                     (generation s) (history s))
  | step_later t g st r :
      requests s !! t = Some (NotifiedLater g) →
      gate_wake_later (gate s) g (generation s) = (st, r) →
      gate_step s (mkSystem st (counters s) (<[t := r]> (requests s)) (generation s) (history s))
  | step_round t g start r st batch :
      requests s !! t = Some (Leading g start) →
      gate_finish (gate s) start r = (st, batch) →
      gate_step s (mkSystem st (count_round batch r (counters s))
                     (notify <$> <[t := Returned g (drop_value r)]> (requests s))
                     (generation s) (history s ++ [(start, r)])).

Definition step (s s' : System) : Prop := env_step s s' ∨ gate_step s s'.

Inductive reachable : System → Prop :=
  | reach_new : reachable system_new
  | reach_step s s' : reachable s → step s s' → reachable s'.
