(* ===== verification/SyncGateSpec.v ===== *)
(** * The sync gate: coverage, order and progress *)

From stdpp Require Import base gmap list fin_maps.
From S2P Require Import Prelude Segment SyncGate.
Open Scope Z_scope.

(** A round that started at or after [g] and succeeded. *)
Definition covered (h : list (Z * io Z)) (g : Z) : Prop :=
  ∃ start n, (start, Ok n) ∈ h ∧ g ≤ start.

(** ** The invariant *)

Definition request_ok (s : System) (r : Request) : Prop :=
  match r with
  | Arrived g => g ≤ generation s
  | ParkedJoined g => g ≤ generation s ∧ ∃ start, running (gate s) = Some start ∧ g ≤ start
  | ParkedLater g => g ≤ generation s ∧ is_Some (running (gate s))
  | NotifiedJoined g => g ≤ completed (gate s)
  | NotifiedLater g => g ≤ generation s ∧ ∀ start, running (gate s) = Some start → g ≤ start
  | Leading g start => running (gate s) = Some start ∧ g ≤ start
  | Returned g (Ok _) => g ≤ 0 ∨ covered (history s) g
  | Returned _ (Err _) => True
  end.

Record gate_ok (s : System) : Prop := {
  go_generation : 0 ≤ completed (gate s) ≤ generation s;
  go_running : ∀ start, running (gate s) = Some start →
    completed (gate s) ≤ start ≤ generation s ∧
    (∃ t g, requests s !! t = Some (Leading g start)) ∧
    (∀ t t' g g' st st', requests s !! t = Some (Leading g st) → requests s !! t' = Some (Leading g' st') → t = t');
  go_clean : failure (gate s) = None → completed (gate s) = 0 ∨ covered (history s) (completed (gate s));
  go_requests : ∀ t r, requests s !! t = Some r → request_ok s r
}.

Lemma covered_le h g g' : g ≤ g' → covered h g' → covered h g.
Proof. intros Hg (st & n & Hin & Hle). exists st, n. split; [done|lia]. Qed.

Lemma covered_app h x g : covered h g → covered (h ++ [x]) g.
Proof. intros (st & n & Hin & Hle). exists st, n. split; [apply elem_of_app; by left|done]. Qed.

Lemma outcome_ok s g :
  (failure (gate s) = None → completed (gate s) = 0 ∨ covered (history s) (completed (gate s))) →
  g ≤ completed (gate s) → request_ok s (Returned g (outcome (gate s))).
Proof.
  intros Hc Hg. unfold outcome, request_ok. destruct (failure (gate s)); [done|].
  destruct (Hc eq_refl) as [H|H]; [left; lia|right; by eapply covered_le].
Qed.

Lemma gate_new_ok : gate_ok system_new.
Proof. split; [cbn; lia|done|by left|]. intros t r. cbn. by rewrite lookup_empty. Qed.

(** ** Preservation *)

Lemma env_step_ok s s' : gate_ok s → env_step s s' → gate_ok s'.
Proof.
  intros [Hg Hr Hc Hq] [n Hn|t g k Ht Hgen]; split; cbn; try done.
  - lia.
  - intros start Hs. destruct (Hr start Hs) as (? & ? & ?). split; [lia|done].
  - intros t r Ht. specialize (Hq t r Ht). destruct r as [|g|g|g|g|g st|g [?|?]]; cbn in *; try done; try lia.
    + destruct Hq. split; [lia|done].
    + destruct Hq. split; [lia|done].
    + destruct Hq. split; [lia|done].
  - intros start Hs. destruct (Hr start Hs) as (? & (t0 & g0 & H0) & Hu). split; [done|]. split.
    + exists t0, g0. rewrite lookup_insert_ne; [done|]. intros ->. congruence.
    + intros t1 t2 g1 g2 st1 st2 [[_ ?]|[_ H1]]%lookup_insert_Some [[_ ?]|[_ H2]]%lookup_insert_Some; try done.
      exact (Hu t1 t2 g1 g2 st1 st2 H1 H2).
  - intros t1 r [[<- <-]|[_ H]]%lookup_insert_Some; [done|]. exact (Hq t1 r H).
Qed.

Lemma gate_eta (s : System) :
  mkGateState (completed (gate s)) (failure (gate s)) (running (gate s)) (joined (gate s)) = gate s.
Proof. by destruct (gate s). Qed.

Definition not_leading (r : Request) : Prop := ∀ g st, r ≠ Leading g st.

(** A call moves on, with the gate's round as it was. *)
Lemma settle_ok s t r r' j c :
  gate_ok s → requests s !! t = Some r → not_leading r → not_leading r' → request_ok s r' →
  gate_ok (mkSystem (mkGateState (completed (gate s)) (failure (gate s)) (running (gate s)) j) c
             (<[t := r']> (requests s)) (generation s) (history s)).
Proof.
  intros [Hg Hr Hc Hq] Ht Hn Hn' Hok. split; cbn; [done| |done|].
  - intros start Hs. destruct (Hr start Hs) as (? & (t0 & g0 & H0) & Hu). split; [done|]. split.
    + exists t0, g0. rewrite lookup_insert_ne; [done|]. intros ->. rewrite H0 in Ht. injection Ht as <-. by apply (Hn g0 start).
    + intros t1 t2 g1 g2 st1 st2 [[_ E]|[_ H1]]%lookup_insert_Some [[_ E']|[_ H2]]%lookup_insert_Some;
        try (by destruct (Hn' _ _ E)); try (by destruct (Hn' _ _ E')).
      exact (Hu t1 t2 g1 g2 st1 st2 H1 H2).
  - intros t1 r1 [[<- <-]|[_ H]]%lookup_insert_Some; [done|]. exact (Hq t1 r1 H).
Qed.

(** A call leads a new round. *)
Lemma lead_ok s t r g c :
  gate_ok s → requests s !! t = Some r → running (gate s) = None → g ≤ generation s →
  gate_ok (mkSystem (mkGateState (completed (gate s)) (failure (gate s)) (Some (generation s)) 0) c
             (<[t := Leading g (generation s)]> (requests s)) (generation s) (history s)).
Proof.
  intros [Hg Hr Hc Hq] Ht Hn Hgen.
  assert (∀ t0 g0 st0, requests s !! t0 = Some (Leading g0 st0) → False) as Hno.
  { intros t0 g0 st0 H0. destruct (Hq _ _ H0) as [H _]. congruence. }
  split; cbn; [done| |done|].
  - intros start [= <-]. split; [lia|]. split.
    + exists t, g. by rewrite lookup_insert_eq.
    + intros t1 t2 g1 g2 st1 st2 [[<- E]|[_ H1]]%lookup_insert_Some [[<- E']|[_ H2]]%lookup_insert_Some; try done;
        exfalso; by eapply Hno.
  - intros t1 r1 [[<- <-]|[_ H]]%lookup_insert_Some; [done|].
    pose proof (Hq t1 r1 H) as Ho. destruct r1 as [g1|g1|g1|g1|g1|g1 st1|g1 [?|?]]; cbn in *; try done.
    + destruct Ho as (_ & st & Hs & _). congruence.
    + destruct Ho as (_ & st & Hs). congruence.
    + split; [lia|]. intros st [= <-]. lia.
    + by destruct (Hno t1 g1 st1).
Qed.

(** One pass of the loop, from a call whose rounds are not behind it. *)
Lemma loop_ok s t r g st r' c :
  gate_ok s → requests s !! t = Some r → not_leading r → g ≤ generation s →
  gate_loop (gate s) g (generation s) = (st, r') →
  gate_ok (mkSystem st c (<[t := r']> (requests s)) (generation s) (history s)).
Proof.
  intros Hok Ht Hn Hg. unfold gate_loop. destruct (running (gate s)) as [start|] eqn:Hr.
  - case_decide as Hle; intros [= <- <-].
    + rewrite <-Hr. eapply settle_ok; try done. cbn. split; [done|]. by exists start.
    + rewrite <-(gate_eta s) at 1. apply (settle_ok s t r); [exact Hok|exact Ht|exact Hn|by intros ? ?|]. split; [exact Hg|by exists start].
  - intros [= <- <-]. by eapply lead_ok.
Qed.

(** The end of a round. *)
Lemma finish_ok s t g start r c j :
  gate_ok s → requests s !! t = Some (Leading g start) →
  gate_ok (mkSystem (mkGateState start (error_of r) None j) c
             (notify <$> <[t := Returned g (drop_value r)]> (requests s)) (generation s) (history s ++ [(start, r)])).
Proof.
  intros [Hg Hr Hc Hq] Ht. destruct (Hq _ _ Ht) as [Hrun Hle]. destruct (Hr start Hrun) as (Hst & _ & Hu).
  split; cbn.
  - lia.
  - done.
  - intros Hf. right. destruct r as [n|]; [|done]. exists start, n. split; [|lia]. apply elem_of_app. right. by apply list_elem_of_singleton.
  - intros t1 r1. rewrite lookup_fmap. intros (r2 & H2 & ->)%fmap_Some.
    apply lookup_insert_Some in H2 as [[<- <-]|[Hne H2]].
    + destruct r as [n|]; cbn; [|done]. right. exists start, n. split; [|lia]. apply elem_of_app. right. by apply list_elem_of_singleton.
    + pose proof (Hq t1 r2 H2) as Ho. destruct r2 as [g1|g1|g1|g1|g1|g1 st1|g1 [?|?]]; cbn in *; try done.
      * destruct Ho as (_ & st & Hs & ?). rewrite Hrun in Hs. injection Hs as <-. done.
      * destruct Ho as (? & _). split; [done|]. done.
      * lia.
      * destruct Ho as (? & Hall). split; done.
      * destruct Hne. exact (Hu _ _ _ _ _ _ Ht H2).
      * destruct Ho as [?|?]; [by left|right; by apply covered_app].
Qed.

Lemma gate_step_ok s s' : gate_ok s → gate_step s s' → gate_ok s'.
Proof.
  intros Hok Hstep. pose proof Hok as [Hg Hr Hc Hq].
  destruct Hstep as [t g st c r Ht He|t g Ht|t g st r Ht Hl|t g start r st batch Ht Hf].
  - unfold gate_enter in He. case_decide as Hle.
    + injection He as <- <- <-. rewrite <-(gate_eta s) at 1. eapply settle_ok; try done. by apply outcome_ok.
    + destruct (gate_loop _ _ _) as [st' r'] eqn:Hl. injection He as <- <- <-.
      by apply (loop_ok s t (Arrived g) g); [done|done|intros ? ?|exact (Hq _ _ Ht)|].
  - rewrite <-(gate_eta s) at 1. eapply settle_ok; try done. apply outcome_ok; [done|]. exact (Hq _ _ Ht).
  - unfold gate_wake_later in Hl. case_decide as Hle.
    + injection Hl as <- <-. rewrite <-(gate_eta s) at 1. eapply settle_ok; try done. by apply outcome_ok.
    + by apply (loop_ok s t (NotifiedLater g) g); [done|done|intros ? ?|exact (proj1 (Hq _ _ Ht))|].
  - injection Hf as <- <-. by eapply finish_ok.
Qed.

Lemma reachable_ok s : reachable s → gate_ok s.
Proof.
  induction 1 as [|s s' _ IH [He|Hs]]; [apply gate_new_ok|by eapply env_step_ok|by eapply gate_step_ok].
Qed.

(** ** Progress *)

Definition weight (r : Request) : Z :=
  match r with
  | Arrived _ => 5
  | ParkedLater _ => 4
  | NotifiedLater _ => 3
  | ParkedJoined _ => 2
  | NotifiedJoined _ | Leading _ _ => 1
  | Returned _ _ => 0
  end.

Definition measure (s : System) : Z := msum (λ _, weight) (requests s).

Definition returned (r : Request) : Prop := ∃ g x, r = Returned g x.

#[local] Instance returned_dec r : Decision (returned r).
Proof. destruct r; try (right; intros (? & ? & ?); done). left. by eexists _, _. Defined.

Lemma weight_nonneg r : 0 ≤ weight r.
Proof. by destruct r. Qed.

Lemma weight_notify r : weight (notify r) ≤ weight r.
Proof. by destruct r. Qed.

Lemma measure_nonneg s : 0 ≤ measure s.
Proof. apply msum_nonneg. intros _ r. apply weight_nonneg. Qed.

Lemma msum_notify (m : gmap nat Request) : msum (λ _, weight) (notify <$> m) ≤ msum (λ _, weight) m.
Proof.
  induction m as [|k r m Hk IH] using map_ind; [done|].
  rewrite fmap_insert, !msum_insert by (rewrite ?lookup_fmap, ?Hk; done).
  pose proof (weight_notify r). lia.
Qed.

Lemma measure_update s t r r' st c :
  requests s !! t = Some r → weight r' < weight r →
  measure (mkSystem st c (<[t := r']> (requests s)) (generation s) (history s)) < measure s.
Proof. intros Ht Hw. unfold measure. cbn [requests]. rewrite msum_update, Ht. cbn. lia. Qed.

Lemma loop_weight s g st r :
  gate_loop (gate s) g (generation s) = (st, r) →
  weight r ≤ 4 ∧ ((∀ start, running (gate s) = Some start → g ≤ start) → weight r ≤ 2).
Proof.
  unfold gate_loop. destruct (running (gate s)) as [start|].
  - case_decide as H; intros [= <- <-]; cbn; [lia|]. split; [lia|]. intros Hs. destruct H. by apply Hs.
  - intros [= <- <-]. cbn. lia.
Qed.

(** Every step of the gate brings the calls closer to their return. *)
Lemma gate_step_decreases s s' : gate_ok s → gate_step s s' → measure s' < measure s.
Proof.
  intros [_ _ _ Hq] [t g st c r Ht He|t g Ht|t g st r Ht Hl|t g start r st batch Ht Hf].
  - apply (measure_update s t (Arrived g)); [done|]. unfold gate_enter in He. case_decide.
    + by injection He as <- <- <-.
    + destruct (gate_loop _ _ _) as [st' r'] eqn:E. injection He as <- <- <-. apply loop_weight in E as [? _]. cbn. lia.
  - by apply (measure_update s t (NotifiedJoined g)).
  - apply (measure_update s t (NotifiedLater g)); [done|]. unfold gate_wake_later in Hl. case_decide.
    + by injection Hl as <- <-.
    + apply loop_weight in Hl as [_ Hw]. specialize (Hw (proj2 (Hq _ _ Ht))). cbn. lia.
  - unfold measure. cbn [requests]. eapply Z.le_lt_trans; [apply msum_notify|].
    rewrite msum_update, Ht. cbn. lia.
Qed.

(** While a call waits, some call can take a step. *)
Lemma gate_progress s t r :
  gate_ok s → requests s !! t = Some r → ¬ returned r → ∃ s', gate_step s s'.
Proof.
  intros [_ Hr _ Hq] Ht Hn.
  assert (∀ start, running (gate s) = Some start → ∃ s', gate_step s s') as Hround.
  { intros start Hs. destruct (Hr start Hs) as (_ & (t0 & g0 & H0) & _). eexists.
    by apply (step_round s t0 g0 start (Ok 1) _ _ H0 eq_refl). }
  specialize (Hq t r Ht). destruct r as [g|g|g|g|g|g st|g x]; cbn in Hq.
  - destruct (gate_enter (gate s) (counters s) g (generation s)) as [[st c] r'] eqn:E.
    eexists. by apply (step_enter s t g st c r').
  - destruct Hq as (_ & start & Hs & _). by eapply Hround.
  - destruct Hq as (_ & start & Hs). by eapply Hround.
  - eexists. by apply (step_joined s t g).
  - destruct (gate_wake_later (gate s) g (generation s)) as [st r'] eqn:E. eexists. by apply (step_later s t g st r').
  - destruct Hq as [Hs _]. by eapply Hround.
  - destruct Hn. by eexists _, _.
Qed.

(** [n] steps of the gate, with appends in between and no new call. *)
Inductive quiet (s : System) : nat → System → Prop :=
  | quiet_refl : quiet s 0 s
  | quiet_append n s1 g :
      quiet s n s1 → generation s1 ≤ g →
      quiet s n (mkSystem (gate s1) (counters s1) (requests s1) g (history s1))
  | quiet_gate n s1 s2 : quiet s n s1 → gate_step s1 s2 → quiet s (S n) s2.

Lemma quiet_ok s n s' : gate_ok s → quiet s n s' → gate_ok s' ∧ Z.of_nat n + measure s' ≤ measure s.
Proof.
  intros Hok. induction 1 as [|n s1 g _ [IH1 IH2] Hg|n s1 s2 _ [IH1 IH2] Hs].
  - split; [done|lia].
  - split; [|exact IH2]. by apply (env_step_ok s1); [|apply step_append].
  - split; [by eapply gate_step_ok|]. pose proof (gate_step_decreases s1 s2 IH1 Hs). lia.
Qed.

(** ** Properties *)

(** C13: durability is covered: in every interleaving, a call that returned
    success for a generation above the initial one was covered by a successful
    round that started at or after that generation; at most one round is in
    flight, and the completed generation never goes back. *)
Theorem sync_covers s :
  reachable s →
  (∀ t g, requests s !! t = Some (Returned g (Ok ())) → 0 < g → covered (history s) g) ∧
  (∀ t t' g g' st st', requests s !! t = Some (Leading g st) → requests s !! t' = Some (Leading g' st') → t = t' ∧ st = st') ∧
  (∀ s', step s s' → completed (gate s) ≤ completed (gate s')).
Proof.
  intros Hre. pose proof (reachable_ok s Hre) as Hok. pose proof Hok as [Hg Hr Hc Hq]. split_and!.
  - intros t g Ht H0. destruct (Hq _ _ Ht) as [?|?]; [lia|done].
  - intros t t' g g' st st' H H'. destruct (Hq _ _ H) as [Hrun _]. destruct (Hq _ _ H') as [Hrun' _].
    split; [|congruence]. by eapply (Hr st Hrun).
  - intros s' [[n Hn|t g k Ht Hgen]|[t g st c r Ht He|t g Ht|t g st r Ht Hl|t g start r st batch Ht Hf]]; cbn; try lia.
    + unfold gate_enter in He. case_decide; [injection He as <- <- <-; lia|].
      destruct (gate_loop _ _ _) as [st' r'] eqn:E. injection He as <- <- <-.
      unfold gate_loop in E. destruct (running _); [case_decide|]; injection E as <- <-; cbn; lia.
    + unfold gate_wake_later in Hl. case_decide; [injection Hl as <- <-; lia|].
      unfold gate_loop in Hl. destruct (running _); [case_decide|]; injection Hl as <- <-; cbn; lia.
    + injection Hf as <- <-. cbn. destruct (Hq _ _ Ht) as [Hrun _]. destruct (Hr start Hrun) as (? & _). lia.
Qed.

(** C14: every call returns: while no new call arrives, the gate takes at most
    [measure] steps, appends in between or not, each of them brings a call
    closer to its return, and the gate can only stop with every call returned. *)
Theorem requests_return s n s' :
  reachable s → quiet s n s' →
  Z.of_nat n ≤ measure s ∧
  ((∀ t r, requests s' !! t = Some r → returned r) ∨ ∃ s'', gate_step s' s'' ∧ measure s'' < measure s').
Proof.
  intros Hre Hqu. destruct (quiet_ok s n s' (reachable_ok s Hre) Hqu) as [Hok Hm].
  pose proof (measure_nonneg s'). split; [lia|].
  destruct (decide (map_Forall (λ _ r, returned r) (requests s'))) as [Hall|Hnot]; [left; exact Hall|right].
  apply map_not_Forall in Hnot as (t & r & Ht & Hn); [|apply _].
  destruct (gate_progress s' t r Hok Ht Hn) as [s'' Hs]. exists s''. split; [done|]. by apply gate_step_decreases.
Qed.

(** ** A joined call can miss its round's failure *)

(** Call 1 leads the round at generation 1 and call 2 joins it; the round fails;
    before call 2 takes the lock, call 3 leads the next round and it succeeds:
    call 2 returns the second round's success. *)
Definition masked : System :=
  mkSystem (mkGateState 2 None None 0) (mkGateCounters 3 0 0 2 0 2)
    {[ 1%nat := Returned 1 (Err OtherError); 2%nat := Returned 1 (Ok ()); 3%nat := Returned 2 (Ok ()) ]}
    2 [(1, Err OtherError); (2, Ok 1)].

Lemma reach_env s s1 s2 : reachable s → env_step s s1 → s1 = s2 → reachable s2.
Proof. intros Hr Hs <-. eapply reach_step; [done|by left]. Qed.

Lemma reach_gate s s1 s2 : reachable s → gate_step s s1 → s1 = s2 → reachable s2.
Proof. intros Hr Hs <-. eapply reach_step; [done|by right]. Qed.

(** The state once call 2 has joined and call 3 has arrived. *)
Definition before_failure : System :=
  mkSystem (mkGateState 0 None (Some 1) 1) (mkGateCounters 3 0 0 0 0 0)
    {[ 1%nat := Leading 1 1; 2%nat := ParkedJoined 1; 3%nat := Arrived 2 ]} 2 [].

Lemma before_failure_reachable : reachable before_failure.
Proof.
  pose proof reach_new as H.
  eapply reach_env in H; [|apply (step_append _ 1); by vm_compute|reflexivity].
  eapply reach_env in H; [|apply (step_arrive _ 1 1 Flush); by vm_compute|reflexivity].
  eapply reach_gate in H; [|by apply (step_enter _ 1 1)|reflexivity].
  eapply reach_env in H; [|apply (step_arrive _ 2 1 Flush); by vm_compute|reflexivity].
  eapply reach_gate in H; [|by apply (step_enter _ 2 1)|reflexivity].
  eapply reach_env in H; [|apply (step_append _ 2); by vm_compute|reflexivity].
  eapply reach_env in H; [exact H|apply (step_arrive _ 3 2 Flush); by vm_compute|reflexivity].
Qed.

Lemma joined_masks_failure :
  requests before_failure !! 2%nat = Some (ParkedJoined 1) ∧ running (gate before_failure) = Some 1 ∧
  reachable masked ∧ history masked = [(1, Err OtherError); (2, Ok 1)] ∧
  requests masked !! 2%nat = Some (Returned 1 (Ok ())).
Proof.
  split; [reflexivity|]. split; [reflexivity|]. split; [|split; reflexivity].
  pose proof before_failure_reachable as H.
  eapply reach_gate in H; [|by apply (step_round _ 1 1 1 (Err OtherError))|reflexivity].
  eapply reach_gate in H; [|by apply (step_enter _ 3 2)|reflexivity].
  eapply reach_gate in H; [|by apply (step_round _ 3 2 2 (Ok 1))|reflexivity].
  eapply reach_gate in H; [exact H|by apply (step_joined _ 2 1)|reflexivity].
Qed.

Lemma sync_covers_witness :
  requests masked !! 3%nat = Some (Returned 2 (Ok ())) ∧ covered (history masked) 2.
Proof.
  split; [reflexivity|].
  destruct (sync_covers masked) as (Hc & _); [apply joined_masks_failure|].
  by apply (Hc 3%nat 2).
Defined.

Lemma requests_return_witness :
  0 < measure before_failure ∧
  ((∀ t r, requests before_failure !! t = Some r → returned r) ∨
   ∃ s'', gate_step before_failure s'' ∧ measure s'' < measure before_failure).
Proof.
  split; [vm_compute; reflexivity|].
  exact (proj2 (requests_return before_failure 0 before_failure before_failure_reachable (quiet_refl _))).
Defined.
