(* ===== verification/Locate.v ===== *)
(** * Finding a segment's bytes on disk (segment.rs, volume/read.rs)

    A segment's file moves through a fork's directories as it ages; a read
    probes the canonical order, then the ancestors, then asks the fetcher.  The
    directories are what the probes answer, the fetcher is code outside this
    crate. *)

From stdpp Require Import base gmap list.
From S2P Require Import Prelude Bytes Segment SegmentCodec ExtentIndex.
Open Scope Z_scope.

(** ** Files *)

Inductive SegmentBodyLayout := FullSegment | BodyOnly.

#[export] Instance SegmentBodyLayout_eq_dec : EqDecision SegmentBodyLayout.
Proof. solve_decision. Defined.

Definition body_section_file_offset (l : SegmentBodyLayout) (bss : Z) : Z :=
  match l with FullSegment => bss | BodyOnly => 0 end.

Definition body_seek (l : SegmentBodyLayout) (loc : ExtentLocation) : Z :=
  u64_add (body_section_file_offset l (body_section_start loc)) (body_offset loc).

Inductive BodyHome := LocalFile | Cache.

Definition home (s : BodySource) : BodyHome :=
  match s with Local => LocalFile | Cached _ => Cache end.

(** [wal/], [pending/upload/], [pending/open/], [gc/] and [cache/*.body] of one
    fork directory. *)
Abbreviation DirRef := Z (only parsing).
Inductive Place := InWal | InUpload | InOpen | InGc | InCache.
Record Path := mkPath { p_dir : DirRef; p_place : Place; p_id : Ulid }.

#[export] Instance Place_eq_dec : EqDecision Place.
Proof. solve_decision. Defined.
#[export] Instance Path_eq_dec : EqDecision Path.
Proof. solve_decision. Defined.

(** What the filesystem and the shared presence bitsets answer. *)
Record FsView := mkFsView {
  exists_ : Path → bool;
  idx_exists : DirRef → Ulid → bool;        (* index/<id>.idx *)
  delta_exists : DirRef → Ulid → bool;      (* cache/<id>.delta *)
  present_file : DirRef → Ulid → io (list Z); (* cache/<id>.present *)
  dir_vol : DirRef → option Ulid;           (* the directory's name *)
  presence_bits : PresenceRef → list Z
}.

Record ExtentFetch := mkExtentFetch {
  ef_body_section_start : Z; ef_body_offset : Z; ef_body_length : Z; ef_entry_idx : Z
}.

(** [dyn SegmentFetcher]. *)
Record SegmentFetcher := mkSegmentFetcher {
  fetch_extent : Ulid → Ulid → DirRef → ExtentFetch → option PresenceRef → io unit;
  fetch_delta_body : Ulid → Ulid → DirRef → io unit
}.

Section locate.
Context (fs : FsView).

Definition probe (dir : DirRef) (place : Place) (id : Ulid) : option Path :=
  let p := mkPath dir place id in if exists_ fs p then Some p else None.

Definition find_pending_file (dir : DirRef) (id : Ulid) : option Path :=
  match probe dir InUpload id with Some p => Some p | None => probe dir InOpen id end.

Definition locate_segment_body (dir : DirRef) (id : Ulid) : option (Path * SegmentBodyLayout) :=
  match probe dir InWal id with
  | Some p => Some (p, FullSegment)
  | None =>
      match find_pending_file dir id with
      | Some p => Some (p, FullSegment)
      | None =>
          match probe dir InGc id with
          | Some p => Some (p, FullSegment)
          | None => (λ p, (p, BodyOnly)) <$> probe dir InCache id
          end
      end
  end.

Definition locate_segment_body_from (dir : DirRef) (id : Ulid) (h : BodyHome)
    : option (Path * SegmentBodyLayout) :=
  match h with
  | Cache =>
      match probe dir InCache id with
      | Some p => Some (p, BodyOnly)
      | None => locate_segment_body dir id
      end
  | LocalFile => locate_segment_body dir id
  end.

Definition cache_hit_allowed (layout : SegmentBodyLayout) (dir : DirRef) (ix : ExtentIndex)
    (id : Ulid) (src : BodySource) : bool :=
  if decide (layout ≠ BodyOnly) then true
  else
    match src with
    | Local => true
    | Cached idx =>
        match segment_presence ix !! id with
        | Some p => sp_test (presence_bits fs p) idx
        | None =>
            match present_file fs dir id with
            | Ok bytes => check_present_bit bytes idx
            | Err _ => false
            end
        end
    end.

(** The first directory whose copy the gate admits. *)
Fixpoint locate_in (dirs : list DirRef) (ix : ExtentIndex) (id : Ulid) (src : BodySource) : option Path :=
  match dirs with
  | [] => None
  | dir :: dirs =>
      match locate_segment_body_from dir id (home src) with
      | Some (path, layout) =>
          if cache_hit_allowed layout dir ix id src then Some path else locate_in dirs ix id src
      | None => locate_in dirs ix id src
      end
  end.

(** The fork whose [index/] holds the segment's [.idx], and its volume. *)
Definition owner_of (base : DirRef) (ancestors : list DirRef) (id : Ulid) : io (DirRef * Ulid) :=
  match List.find (λ d, idx_exists fs d id) (base :: ancestors) with
  | None => Err NotFound
  | Some dir =>
      match dir_vol fs dir with
      | None => Err OtherError
      | Some vol => Ok (dir, vol)
      end
  end.

Definition find_segment_in_dirs (id : Ulid) (base : DirRef) (ancestors : list DirRef)
    (fetcher : option SegmentFetcher) (ix : ExtentIndex) (bss : Z) (src : BodySource) : io Path :=
  match locate_in (base :: rev ancestors) ix id src with
  | Some path => Ok path
  | None =>
      match fetcher, src with
      | Some fetcher, Cached idx =>
          '(dir, vol) ← owner_of base ancestors id;
          _ ← fetch_extent fetcher id vol dir (mkExtentFetch bss 0 0 idx) (segment_presence ix !! id);
          Ok (mkPath dir InCache id)
      | _, _ => Err NotFound
      end
  end.

(** The directory whose [cache/<id>.delta] is opened. *)
Definition open_delta_body_in_dirs (id : Ulid) (base : DirRef) (ancestors : list DirRef)
    (fetcher : option SegmentFetcher) : io DirRef :=
  match List.find (λ d, delta_exists fs d id) (base :: rev ancestors) with
  | Some dir => Ok dir
  | None =>
      match fetcher with
      | Some fetcher =>
          '(dir, vol) ← owner_of base ancestors id;
          _ ← fetch_delta_body fetcher id vol dir;
          Ok dir
      | None => Err NotFound
      end
  end.

(** ** What a found path is *)

(** A copy on disk whose bytes at [src] are there. *)
Definition readable (ix : ExtentIndex) (src : BodySource) (p : Path) : Prop :=
  exists_ fs p = true ∧
  (p_place p = InCache → cache_hit_allowed BodyOnly (p_dir p) ix (p_id p) src = true).

Lemma probe_Some dir place id p : probe dir place id = Some p → p = mkPath dir place id ∧ exists_ fs p = true.
Proof. unfold probe. destruct (exists_ fs _) eqn:He; [|done]. by intros [= <-]. Qed.

Lemma locate_segment_body_from_sound dir id h p l :
  locate_segment_body_from dir id h = Some (p, l) →
  p_dir p = dir ∧ p_id p = id ∧ exists_ fs p = true ∧ (p_place p = InCache ↔ l = BodyOnly).
Proof.
  assert (∀ l, locate_segment_body dir id = Some (p, l) →
    p_dir p = dir ∧ p_id p = id ∧ exists_ fs p = true ∧ (p_place p = InCache ↔ l = BodyOnly)) as Hl.
  { intros l'. unfold locate_segment_body, find_pending_file.
    repeat match goal with |- context [probe ?d ?x id] =>
      destruct (probe d x id) as [q|] eqn:Hq; [apply probe_Some in Hq as [-> He]|clear Hq] end;
      simpl; intros [= <- <-]; simpl; naive_solver. }
  destruct h; [apply Hl|]. cbn [locate_segment_body_from].
  destruct (probe dir InCache id) as [q|] eqn:Hq; [|apply Hl].
  apply probe_Some in Hq as [-> He]. intros [= <- <-]. by split_and!.
Qed.

Lemma locate_in_sound dirs ix id src p :
  locate_in dirs ix id src = Some p → p_dir p ∈ dirs ∧ p_id p = id ∧ readable ix src p.
Proof.
  induction dirs as [|dir dirs IH]; [done|]. cbn [locate_in].
  destruct (locate_segment_body_from dir id (home src)) as [[q l]|] eqn:Hq; [|by intros ?%IH; set_solver].
  destruct (cache_hit_allowed l dir ix id src) eqn:Ha; [|by intros ?%IH; set_solver].
  intros [= <-]. apply locate_segment_body_from_sound in Hq as (<- & <- & He & Hc).
  split; [by left|]. split; [done|]. split; [done|]. by intros ->%Hc.
Qed.

Lemma owner_of_sound base ancestors id dir vol :
  owner_of base ancestors id = Ok (dir, vol) →
  dir ∈ base :: ancestors ∧ idx_exists fs dir id = true ∧ dir_vol fs dir = Some vol.
Proof.
  unfold owner_of. destruct (List.find _ _) as [d|] eqn:Hf; [|done].
  apply List.find_some in Hf as [Hd%list_elem_of_In He]. destruct (dir_vol fs d) eqn:Hv; [|done].
  by intros [= <- <-].
Qed.
End locate.

(** A path a read opens is the segment's own file in this fork or an
    ancestor.  It exists there, and a sparse cache body is taken for a cached
    entry only when that entry's presence bit is set; otherwise the fetcher has
    filled the entry's bytes into the cache of the fork that owns the
    segment's index, and was asked only because no admitted copy is local. *)
Theorem find_segment_sound fs id base ancestors fetcher ix bss src p :
  find_segment_in_dirs fs id base ancestors fetcher ix bss src = Ok p →
  p_id p = id ∧ p_dir p ∈ base :: ancestors ∧
  (readable fs ix src p ∨
   locate_in fs (base :: rev ancestors) ix id src = None ∧
   ∃ f idx vol, fetcher = Some f ∧ src = Cached idx ∧ p_place p = InCache ∧
     idx_exists fs (p_dir p) id = true ∧ dir_vol fs (p_dir p) = Some vol ∧
     fetch_extent f id vol (p_dir p) (mkExtentFetch bss 0 0 idx) (segment_presence ix !! id) = Ok ()).
Proof.
  unfold find_segment_in_dirs. destruct (locate_in fs _ ix id src) as [q|] eqn:Hl.
  - intros [= <-]. apply locate_in_sound in Hl as (Hd & Hi & Hr). split; [done|]. split; [|by left].
    apply elem_of_cons in Hd as [->|Hd]; [by left|right].
    by apply list_elem_of_In, in_rev, list_elem_of_In.
  - destruct fetcher as [f|]; [|done]. destruct src as [|idx]; [done|].
    rewrite io_bind_Ok. intros ([dir vol] & (Hd & Hi & Hv)%owner_of_sound & (u & Hf & [= <-])%io_bind_Ok).
    destruct u. split; [done|]. split; [done|]. right. split; [done|]. by exists f, idx, vol.
Qed.

(** A body drained to an ancestor's cache, its bit set. *)

