(* ===== verification/Dmat.v ===== *)
(** * The delta materialisation cache (elide-core/src/dmat.rs)

    A sidecar file of materialised extents: a magic, then records appended one
    at a time.  An open scans the records, keeps the location of each entry's
    last one and cuts the file at the first that does not hold. *)

From stdpp Require Import base gmap list.
From S2P Require Import Prelude Bytes Segment WriteLog SegmentCodec.
Open Scope Z_scope.

(** ** Data *)

(** [b"ELIDMAT\x01"]. *)
Definition MAGIC : list Z := [69; 76; 73; 68; 77; 65; 84; 1].
Definition RECORD_HEADER_LEN : Z := 9.

(** [DmatFlags]: one defined bit. *)
Definition flags_from_bits (b : Z) : option bool :=
  if decide (b = 0) then Some false else if decide (b = 1) then Some true else None.

Record DmatLocation := mkDmatLocation {
  data_offset : Z;    (* u64 *)
  stored_length : Z;  (* u32 *)
  dl_compressed : bool
}.

Record ScanStats := mkScanStats { accepted : Z; invalid : Z; truncated : bool }.

(** An open sidecar: the file's bytes, and the in-memory map. *)
Record Dmat := mkDmat { dm_file : list Z; dm_entries : gmap Z DmatLocation }.

#[export] Instance DmatLocation_eq_dec : EqDecision DmatLocation.
Proof. solve_decision. Defined.

(** ** Lookup *)

Definition dm_lookup (d : Dmat) (idx : Z) : option DmatLocation := dm_entries d !! idx.
Definition dm_forget (idx : Z) (d : Dmat) : Dmat := mkDmat (dm_file d) (delete idx (dm_entries d)).
Definition dm_len (d : Dmat) : nat := size (dm_entries d).
Definition dm_is_empty (d : Dmat) : bool := bool_decide (dm_entries d = ∅).

(** ** Framing *)

Definition record_header (idx : Z) (compressed : bool) (len : Z) : list Z :=
  le_bytes 4 idx ++ [if compressed then 1 else 0] ++ le_bytes 4 len.

(** The entry, the flag byte and the stored length of a header. *)
Definition parse_header (header : list Z) : Z * Z * Z :=
  (from_le (take 4 header), default 0 (header !! 4%nat), from_le (drop 5 header)).

Section dmat.
Context {HL : Lz4Block}.

Definition expand (compressed : bool) (stored : list Z) : io (list Z) :=
  if compressed then
    match decompress_size_prepended stored with Some v => Ok v | None => Err OtherError end
  else Ok stored.

Definition read_materialised (d : Dmat) (loc : DmatLocation) : io (list Z) :=
  stored ← read_exact_at (dm_file d) (data_offset loc) (stored_length loc);
  expand (dl_compressed loc) stored.

(** ** Scanning *)

(** What the loop finds at [cursor]: a whole accepted record and its end, or why
    it stops. *)
Inductive step_result :=
  | Accepted (idx : Z) (loc : DmatLocation) (record_end : Z)
  | TornTail
  | Rejected.

Definition scan_step (verify : Z → list Z → bool) (file : list Z) (cursor : Z) : step_result :=
  if decide (blen file - cursor < RECORD_HEADER_LEN) then TornTail
  else
    let header := take 9 (drop (Z.to_nat cursor) file) in
    let '(idx, raw_flags, len) := parse_header header in
    match flags_from_bits raw_flags with
    | None => Rejected
    | Some compressed =>
        let data_offset := cursor + RECORD_HEADER_LEN in
        let record_end := data_offset + len in
        if decide (blen file < record_end) then TornTail
        else
          let stored := take (Z.to_nat len) (drop (Z.to_nat data_offset) file) in
          match expand compressed stored with
          | Err _ => Rejected
          | Ok materialised =>
              if verify idx materialised
              then Accepted idx (mkDmatLocation data_offset len compressed) record_end
              else Rejected
          end
    end.

(** The loop, and the cursor it leaves; every record takes at least its header,
    so the file's length is fuel enough. *)
Fixpoint scan_records (fuel : nat) (verify : Z → list Z → bool) (file : list Z) (cursor : Z)
    (entries : gmap Z DmatLocation) (stats : ScanStats) : gmap Z DmatLocation * ScanStats * Z :=
  match fuel with
  | O => (entries, stats, cursor)
  | S fuel =>
      if decide (cursor = blen file) then (entries, stats, cursor)
      else
        match scan_step verify file cursor with
        | Accepted idx loc record_end =>
            scan_records fuel verify file record_end (<[idx := loc]> entries)
              (mkScanStats (u32_add (accepted stats) 1) (invalid stats) (truncated stats))
        | TornTail => (entries, mkScanStats (accepted stats) (invalid stats) true, cursor)
        | Rejected => (entries, mkScanStats (accepted stats) 1 true, cursor)
        end
  end.

Definition scan_all (verify : Z → list Z → bool) (file : list Z) : gmap Z DmatLocation * ScanStats * Z :=
  scan_records (S (length file)) verify file 8 ∅ (mkScanStats 0 0 false).

(** What an open meets: the file, the kernel's answers to the magic's write, a
    truncation and its sync. *)
Record OpenEnv := mkOpenEnv {
  oe_opened : io (list Z); oe_calls : list (io Z); oe_synced : io unit; oe_cut : io unit
}.

(** The file afterwards, and the open sidecar. *)
Definition open_or_create (env : OpenEnv) (verify : Z → list Z → bool) : list Z * io (Dmat * ScanStats) :=
  match oe_opened env with
  | Err e => ([], Err e)
  | Ok file =>
      if decide (file = []) then
        let '(w, r) := write_all_bytes (oe_calls env) (mkWriteLog [] 0) MAGIC in
        (wl_file w, _ ← r; _ ← oe_synced env; Ok (mkDmat (wl_file w) ∅, mkScanStats 0 0 false))
      else if decide (blen file < 8) then (file, Err OtherError)
      else if decide (take 8 file ≠ MAGIC) then (file, Err OtherError)
      else
        let '(entries, stats, cursor) := scan_all verify file in
        if truncated stats then
          match oe_cut env with
          | Err e => (file, Err e)
          | Ok _ =>
              let file := take (Z.to_nat cursor) file in
              (file, _ ← oe_synced env; Ok (mkDmat file entries, stats))
          end
        else (file, Ok (mkDmat file entries, stats))
  end.

(** ** Appending *)

(** The kernel's answers to the header's and the payload's writes, and the
    sync. *)
Record AppendEnv := mkAppendEnv { ae_header : list (io Z); ae_stored : list (io Z); ae_synced : io unit }.

Definition dm_append (env : AppendEnv) (idx : Z) (materialised : list Z) (compressed : option (list Z))
    (d : Dmat) : Dmat * io DmatLocation :=
  let '(stored, flag) := match compressed with Some c => (c, true) | None => (materialised, false) end in
  if decide (U32 ≤ blen stored) then (d, Err OtherError)
  else
    let record_start := blen (dm_file d) in
    let '(w, r) := write_all_bytes (ae_header env) (mkWriteLog (dm_file d) 0) (record_header idx flag (blen stored)) in
    match r with
    | Err e => (mkDmat (wl_file w) (dm_entries d), Err e)
    | Ok _ =>
        let '(w, r) := write_all_bytes (ae_stored env) w stored in
        match (_ ← r; ae_synced env) with
        | Err e => (mkDmat (wl_file w) (dm_entries d), Err e)
        | Ok _ =>
            let loc := mkDmatLocation (record_start + RECORD_HEADER_LEN) (blen stored) flag in
            (mkDmat (wl_file w) (<[idx := loc]> (dm_entries d)), Ok loc)
        end
    end.

(** ** Inspection *)

Record DmatRecordMeta := mkDmatRecordMeta { record_offset : Z; rm_idx : Z; rm_compressed : bool; rm_length : Z }.

(** [scan_readonly]'s loop: framing only. *)
Fixpoint scan_metas (fuel : nat) (file : list Z) (cursor : Z) (metas : list DmatRecordMeta) (stats : ScanStats)
    : list DmatRecordMeta * ScanStats :=
  match fuel with
  | O => (metas, stats)
  | S fuel =>
      if decide (cursor = blen file) then (metas, stats)
      else if decide (blen file - cursor < RECORD_HEADER_LEN) then
        (metas, mkScanStats (accepted stats) (invalid stats) true)
      else
        let '(idx, raw_flags, len) := parse_header (take 9 (drop (Z.to_nat cursor) file)) in
        match flags_from_bits raw_flags with
        | None => (metas, mkScanStats (accepted stats) 1 true)
        | Some compressed =>
            let record_end := cursor + RECORD_HEADER_LEN + len in
            if decide (blen file < record_end) then
              (metas, mkScanStats (accepted stats) (invalid stats) true)
            else
              scan_metas fuel file record_end (metas ++ [mkDmatRecordMeta cursor idx compressed len])
                (mkScanStats (u32_add (accepted stats) 1) (invalid stats) (truncated stats))
        end
  end.

Definition scan_readonly (file : list Z) : io (list DmatRecordMeta * ScanStats) :=
  if decide (blen file < 8) then Err OtherError
  else if decide (take 8 file ≠ MAGIC) then Err OtherError
  else Ok (scan_metas (S (length file)) file 8 [] (mkScanStats 0 0 false)).
End dmat.
