(* ===== verification/DmatSpec.v ===== *)
(** * The materialisation cache keeps what was appended

    Every record appended is found again by its entry, in the process that
    appended it and in one that opens the file after a crash; a record cut short
    is dropped whole. *)

From stdpp Require Import base gmap list.
From S2P Require Import Prelude Bytes Segment WriteLog WriteLogSpec Codec SegmentCodec Dmat.
Open Scope Z_scope.

Section spec.
Context {HL : Lz4Block}.

(** ** Records *)

Record dmat_record := mkRec { rec_idx : Z; rec_plain : list Z; rec_form : option (list Z) }.

Definition rec_stored (r : dmat_record) : list Z := default (rec_plain r) (rec_form r).
Definition rec_flag (r : dmat_record) : bool := bool_decide (is_Some (rec_form r)).
Definition rec_bytes (r : dmat_record) : list Z :=
  record_header (rec_idx r) (rec_flag r) (blen (rec_stored r)) ++ rec_stored r.

(** A compressed form expands to the plaintext. *)
Definition rec_ok (r : dmat_record) : Prop :=
  0 ≤ rec_idx r < U32 ∧ blen (rec_stored r) < U32 ∧
  ∀ c, rec_form r = Some c → decompress_size_prepended c = Some (rec_plain r).

Definition recs_bytes (rs : list dmat_record) : list Z := concat (map rec_bytes rs).

(** The last record of each entry. *)
Definition model (rs : list dmat_record) : gmap Z (list Z) :=
  foldl (λ m r, <[rec_idx r := rec_plain r]> m) ∅ rs.

(** The sidecar answers [m]. *)
Definition answers (d : Dmat) (m : gmap Z (list Z)) : Prop :=
  ∀ idx, match dm_lookup d idx with
         | Some loc => 0 ≤ data_offset loc ∧ 0 ≤ stored_length loc ∧
             ∃ b, m !! idx = Some b ∧ read_materialised d loc = Ok b
         | None => m !! idx = None
         end.

Lemma length_header idx f n : length (record_header idx f n) = 9%nat.
Proof. unfold record_header. by rewrite !length_app, !length_le_bytes. Qed.

Lemma parse_record_header idx f n :
  0 ≤ idx < U32 → 0 ≤ n < U32 → parse_header (record_header idx f n) = (idx, if f then 1 else 0, n).
Proof.
  intros Hi Hn. unfold parse_header, record_header.
  rewrite take_app_length' by (by rewrite length_le_bytes).
  rewrite lookup_app_r by (rewrite length_le_bytes; lia). rewrite length_le_bytes. cbn [Nat.sub lookup].
  replace (drop 5 _) with (le_bytes 4 n).
  - rewrite !from_le_bytes by (simpl; lia). by destruct f.
  - rewrite app_assoc. rewrite drop_app_length'; [done|]. by rewrite length_app, length_le_bytes.
Qed.

Lemma dmat_flags_roundtrip (f : bool) : flags_from_bits (if f then 1 else 0) = Some f.
Proof. by destruct f. Qed.

Lemma expand_stored r : rec_ok r → expand (rec_flag r) (rec_stored r) = Ok (rec_plain r).
Proof.
  intros (_ & _ & Hc). unfold expand, rec_flag, rec_stored. destruct (rec_form r) as [c|]; simpl; [|done].
  by rewrite (Hc c).
Qed.

Lemma blen_rec r : blen (rec_bytes r) = 9 + blen (rec_stored r).
Proof. unfold rec_bytes. rewrite blen_app. unfold blen at 1. by rewrite length_header. Qed.

Lemma read_mid (a b c : list Z) : read_exact_at (a ++ b ++ c) (blen a) (blen b) = Ok b.
Proof.
  unfold read_exact_at. rewrite decide_False by (rewrite !blen_app; pose proof (blen_nonneg c); lia).
  unfold blen. rewrite !Nat2Z.id, drop_app_length, take_app_length. done.
Qed.

(** ** One step of the scan *)

Lemma scan_step_record pre r post :
  rec_ok r →
  scan_step (λ _ _, true) (pre ++ rec_bytes r ++ post) (blen pre) =
  Accepted (rec_idx r) (mkDmatLocation (blen pre + 9) (blen (rec_stored r)) (rec_flag r))
    (blen (pre ++ rec_bytes r)).
Proof.
  intros Hr. destruct Hr as (Hi & Hs & Hc) eqn:E. clear E. unfold scan_step, RECORD_HEADER_LEN.
  pose proof (blen_nonneg post). pose proof (blen_nonneg (rec_stored r)).
  rewrite decide_False by (rewrite !blen_app, blen_rec; lia).
  replace (take 9 (drop (Z.to_nat (blen pre)) (pre ++ rec_bytes r ++ post)))
    with (record_header (rec_idx r) (rec_flag r) (blen (rec_stored r))).
  2: { unfold blen at 2. rewrite Nat2Z.id, drop_app_length. unfold rec_bytes. rewrite <-app_assoc.
       by rewrite take_app_length' by (by rewrite length_header). }
  rewrite parse_record_header, dmat_flags_roundtrip by lia. cbv zeta.
  rewrite decide_False by (rewrite !blen_app, blen_rec; lia).
  replace (take _ (drop _ _)) with (rec_stored r).
  - rewrite expand_stored by done. f_equal. rewrite blen_app, blen_rec. lia.
  - unfold rec_bytes. rewrite <-app_assoc, app_assoc. rewrite drop_app_length'.
    + by rewrite take_app_length' by (unfold blen; lia).
    + rewrite length_app, length_header. unfold blen. lia.
Qed.

(** The start of a record is never accepted. *)
Lemma scan_step_torn pre r n :
  rec_ok r → (n < length (rec_bytes r))%nat →
  scan_step (λ _ _, true) (pre ++ take n (rec_bytes r)) (blen pre) = TornTail.
Proof.
  intros (Hi & Hs & _) Hn. unfold scan_step, RECORD_HEADER_LEN. pose proof (blen_nonneg (rec_stored r)).
  pose proof (blen_rec r) as Hb. unfold blen in Hb at 1.
  assert (blen (pre ++ take n (rec_bytes r)) = blen pre + Z.of_nat n) as Hlen.
  { rewrite blen_app. unfold blen. rewrite length_take. lia. }
  rewrite Hlen. case_decide as H9; [done|].
  replace (take 9 (drop (Z.to_nat (blen pre)) _)) with (record_header (rec_idx r) (rec_flag r) (blen (rec_stored r))).
  2: { unfold blen at 2. rewrite Nat2Z.id, drop_app_length, take_take. replace (9 `min` n)%nat with 9%nat by lia.
       unfold rec_bytes. by rewrite take_app_length' by (by rewrite length_header). }
  rewrite parse_record_header, dmat_flags_roundtrip by lia. cbv zeta. by rewrite decide_True by lia.
Qed.

(** ** Answers of a grown file *)

(** Bytes appended to the file change no answer. *)
Lemma answers_grow f x es m : answers (mkDmat f es) m → answers (mkDmat (f ++ x) es) m.
Proof.
  intros Ha idx. specialize (Ha idx). unfold dm_lookup in *. cbn [dm_entries] in *.
  destruct (es !! idx) as [loc|]; [|done]. destruct Ha as (Ho & Hl & b & Hb & Hr). split; [done|].
  split; [done|]. exists b. split; [done|]. revert Hr.
  unfold read_materialised, read_exact_at. cbn [dm_file]. case_decide as Hd; [done|].
  pose proof (blen_nonneg x). rewrite blen_app, decide_False by lia. intros <-. cbn [mbind io_bind]. f_equal.
  rewrite drop_app_le, take_app_le; [done|..]; rewrite ?length_drop; unfold blen in *; lia.
Qed.

Lemma answers_record f es m r :
  rec_ok r → answers (mkDmat f es) m →
  answers (mkDmat (f ++ rec_bytes r)
             (<[rec_idx r := mkDmatLocation (blen f + 9) (blen (rec_stored r)) (rec_flag r)]> es))
    (<[rec_idx r := rec_plain r]> m).
Proof.
  intros Hr Ha idx. apply (answers_grow _ (rec_bytes r)) in Ha. specialize (Ha idx). unfold dm_lookup in *.
  cbn [dm_entries] in *. destruct (decide (rec_idx r = idx)) as [<-|Hne]; [|by rewrite !lookup_insert_ne].
  rewrite !lookup_insert_eq. cbn [data_offset stored_length]. pose proof (blen_nonneg f).
  pose proof (blen_nonneg (rec_stored r)). split; [lia|]. split; [lia|]. exists (rec_plain r). split; [done|].
  unfold read_materialised. cbn [data_offset stored_length dl_compressed dm_file].
  replace (blen f + 9) with (blen (f ++ record_header (rec_idx r) (rec_flag r) (blen (rec_stored r))))
    by (rewrite blen_app; unfold blen at 2; by rewrite length_header).
  pose proof (read_mid (f ++ record_header (rec_idx r) (rec_flag r) (blen (rec_stored r))) (rec_stored r) []) as Hm.
  rewrite app_nil_r, <-app_assoc in Hm. unfold rec_bytes. rewrite Hm. cbn [mbind io_bind]. by apply expand_stored.
Qed.

(** ** The whole scan *)

Lemma scan_records_spec rs pre tail fuel m entries stats :
  Forall rec_ok rs → (length rs < fuel)%nat →
  (tail = [] ∨ ∃ r n, rec_ok r ∧ (0 < n < length (rec_bytes r))%nat ∧ tail = take n (rec_bytes r)) →
  answers (mkDmat pre entries) m →
  accepted stats + Z.of_nat (length rs) < U32 → 0 ≤ accepted stats →
  ∃ entries', scan_records fuel (λ _ _, true) (pre ++ recs_bytes rs ++ tail) (blen pre) entries stats =
    (entries', mkScanStats (accepted stats + Z.of_nat (length rs)) (invalid stats)
                 (truncated stats || negb (bool_decide (tail = []))), blen (pre ++ recs_bytes rs)) ∧
    answers (mkDmat (pre ++ recs_bytes rs) entries')
      (foldl (λ m r, <[rec_idx r := rec_plain r]> m) m rs).
Proof.
  intros Hrs. revert pre fuel m entries stats. induction Hrs as [|r rs Hr Hrs IH];
    intros pre fuel m entries stats Hf Ht Ha Hn H0; (destruct fuel as [|fuel]; [simpl in Hf; lia|]); cbn [scan_records].
  - exists entries. change (recs_bytes []) with ([] : list Z) in *. cbn [app foldl length] in *. rewrite app_nil_r in *.
    split; [|done]. rewrite Z.add_0_r. destruct stats as [a i t]. destruct Ht as [->|(r & n & Hr & Hn' & ->)].
    + rewrite app_nil_r, decide_True by done. by rewrite bool_decide_eq_true_2, orb_false_r.
    + assert (take n (rec_bytes r) ≠ []) as Hne.
      { intros E. apply (f_equal length) in E. rewrite length_take in E. simpl in E. lia. }
      assert (0 < blen (take n (rec_bytes r))) by (unfold blen; rewrite length_take; lia).
      rewrite decide_False by (rewrite blen_app; lia). rewrite scan_step_torn by (done || lia).
      by rewrite bool_decide_eq_false_2, orb_true_r.
  - change (recs_bytes (r :: rs)) with (rec_bytes r ++ recs_bytes rs) in *. rewrite <-app_assoc.
    pose proof (blen_rec r). pose proof (blen_nonneg (rec_stored r)). pose proof (blen_nonneg (recs_bytes rs ++ tail)).
    rewrite decide_False by (rewrite !(blen_app pre), (blen_app (rec_bytes r)); lia).
    rewrite scan_step_record by done. rewrite app_assoc. cbn [length foldl] in *.
    rewrite u32_add_id by lia.
    edestruct (IH (pre ++ rec_bytes r) fuel (<[rec_idx r := rec_plain r]> m)) as (entries' & He & Ha'); [lia|done| | | |].
    4: { rewrite He. exists entries'. cbn [accepted invalid truncated]. rewrite <-!app_assoc in *. split; [|done].
         do 2 f_equal. f_equal. lia. }
    2,3: cbn [accepted]; lia.
    by apply answers_record.
Qed.

(** ** Appending *)

Definition append_ok (env : AppendEnv) : Prop :=
  Forall (λ c, ∀ n, c = Ok n → 0 ≤ n) (ae_header env) ∧ Forall (λ c, ∀ n, c = Ok n → 0 ≤ n) (ae_stored env).

Lemma write_all_bytes_file calls file rec w :
  Forall (λ c, ∀ n, c = Ok n → 0 ≤ n) calls →
  write_all_bytes calls (mkWriteLog file 0) rec = (w, Ok ()) → wl_file w = file ++ rec.
Proof.
  intros Hc. unfold write_all_bytes. cbn [wl_file wl_size].
  destruct (write_all_vectored _ _ _ _) as [file' [[]|e]] eqn:Hw; [|by intros [=]].
  apply write_all_vectored_Ok in Hw as ->; [|done]. intros [= <-]. cbn [wl_file]. by rewrite app_nil_r.
Qed.

Lemma write_all_bytes_grows calls w rec : ∃ x, wl_file (write_all_bytes calls w rec).1 = wl_file w ++ x.
Proof.
  unfold write_all_bytes. assert (∀ file head tail, ∃ x, (write_all_vectored calls file head tail).1 = file ++ x) as H.
  { induction calls as [|[n|e] calls IH]; intros file head tail; cbn [write_all_vectored]; case_decide;
      try (exists []; by rewrite app_nil_r).
    case_decide; [exists []; by rewrite app_nil_r|]. cbv zeta. case_decide.
    - destruct (IH (file ++ take (Z.to_nat n) (head ++ tail)) [] (drop (Z.to_nat (n - blen head)) tail)) as [x ->].
      rewrite <-app_assoc. by eexists.
    - destruct (IH (file ++ take (Z.to_nat n) (head ++ tail)) (drop (Z.to_nat n) head) tail) as [x ->].
      rewrite <-app_assoc. by eexists. }
  destruct (H (wl_file w) rec []) as [x Hx]. exists x. destruct (write_all_vectored _ _ _ _) as [f [[]|e]]; exact Hx.
Qed.

(** A failed append loses nothing; a successful one is found. *)
Lemma dm_append_spec env idx plain form d d' res m :
  append_ok env → rec_ok (mkRec idx plain form) → answers d m → dm_append env idx plain form d = (d', res) →
  match res with
  | Ok _ => dm_file d' = dm_file d ++ rec_bytes (mkRec idx plain form) ∧ answers d' (<[idx := plain]> m)
  | Err _ => answers d' m
  end.
Proof.
  intros [Hh Hs] Hr Ha. pose proof Hr as (_ & Hlen & _). unfold dm_append.
  replace (match form with Some c => (c, true) | None => (plain, false) end)
    with (rec_stored (mkRec idx plain form), rec_flag (mkRec idx plain form)) by (by destruct form).
  rewrite decide_False by lia. destruct d as [f es]. cbn [dm_file dm_entries].
  set (r := mkRec idx plain form) in *.
  destruct (write_all_bytes (ae_header env) _ _) as [w1 r1] eqn:H1.
  pose proof (write_all_bytes_grows (ae_header env) (mkWriteLog f 0) (record_header idx (rec_flag r) (blen (rec_stored r)))) as [x1 E1].
  rewrite H1 in E1. cbn [fst wl_file] in E1.
  destruct r1 as [[]|e1]; [|intros [= <- <-]; rewrite E1; by apply answers_grow].
  apply write_all_bytes_file in H1; [|done].
  destruct (write_all_bytes (ae_stored env) w1 _) as [w2 r2] eqn:H2.
  pose proof (write_all_bytes_grows (ae_stored env) w1 (rec_stored r)) as [x2 E2]. rewrite H2 in E2. cbn [fst] in E2.
  destruct (_ ← r2; ae_synced env) as [[]|e2] eqn:H3; intros [= <- <-].
  2: { rewrite E2, E1, <-app_assoc. by apply answers_grow. }
  destruct r2 as [[]|]; [|done]. destruct w1 as [f1 n1]. cbn [wl_file] in *.
  unfold write_all_bytes in H2. cbn [wl_file wl_size] in H2.
  destruct (write_all_vectored (ae_stored env) f1 _ _) as [f2 [[]|e]] eqn:Hw; [|by injection H2].
  apply write_all_vectored_Ok in Hw as ->; [|done]. injection H2 as <-. cbn [wl_file dm_file].
  rewrite app_nil_r, H1, <-app_assoc. split; [done|]. by apply (answers_record f es m r).
Qed.
End spec.

(** The sidecar keeps what was appended.  A file of whole records, the
    last possibly cut short by a crash, opens to exactly its whole records: each
    entry answers the bytes of its last record, the torn tail is cut off and
    counted as a truncation.  From any sidecar, an append that succeeds is
    answered from then on and leaves its record at the file's end, one that
    fails part way changes no answer. *)
Theorem dmat_roundtrip {HL : Lz4Block} rs tail env :
  Forall rec_ok rs → Z.of_nat (length rs) < U32 →
  (tail = [] ∨ ∃ r n, rec_ok r ∧ (0 < n < length (rec_bytes r))%nat ∧ tail = take n (rec_bytes r)) →
  oe_opened env = Ok (MAGIC ++ recs_bytes rs ++ tail) → oe_cut env = Ok () → oe_synced env = Ok () →
  (∃ d stats, open_or_create env (λ _ _, true) = (MAGIC ++ recs_bytes rs, Ok (d, stats)) ∧
    dm_file d = MAGIC ++ recs_bytes rs ∧ answers d (model rs) ∧
    stats = mkScanStats (Z.of_nat (length rs)) 0 (negb (bool_decide (tail = [])))) ∧
  (∀ d m aenv idx plain form d' res, append_ok aenv → rec_ok (mkRec idx plain form) → answers d m →
    dm_append aenv idx plain form d = (d', res) →
    match res with
    | Ok _ => dm_file d' = dm_file d ++ rec_bytes (mkRec idx plain form) ∧ answers d' (<[idx := plain]> m)
    | Err _ => answers d' m
    end).
Proof.
  intros Hrs Hn Ht Ho Hc Hs. split; [|intros d m aenv idx plain form d' res; apply dm_append_spec].
  unfold open_or_create. rewrite Ho, decide_False by done.
  pose proof (blen_nonneg (recs_bytes rs ++ tail)). rewrite decide_False by (rewrite blen_app; change (blen MAGIC) with 8; lia).
  rewrite decide_False by (intros Hm; apply Hm; by rewrite take_app_length' by done).
  unfold scan_all. change 8 with (blen MAGIC).
  destruct (scan_records_spec rs MAGIC tail (S (length (MAGIC ++ recs_bytes rs ++ tail))) ∅ ∅ (mkScanStats 0 0 false))
    as (es & -> & Ha); [done| |done|by intros idx|simpl; lia|done|].
  { rewrite !length_app. assert (length rs ≤ length (recs_bytes rs))%nat; [|lia]. clear.
    induction rs as [|r rs IH]; [done|]. change (recs_bytes (r :: rs)) with (rec_bytes r ++ recs_bytes rs).
    rewrite length_app. unfold rec_bytes at 1. rewrite length_app, length_header. simpl. lia. }
  cbn [truncated accepted invalid orb]. rewrite Hc, Hs.
  assert (take (Z.to_nat (blen (MAGIC ++ recs_bytes rs))) (MAGIC ++ recs_bytes rs ++ tail) = MAGIC ++ recs_bytes rs) as Htk.
  { rewrite app_assoc. unfold blen. by rewrite Nat2Z.id, take_app_length. }
  destruct (decide (tail = [])) as [->|Hne].
  - rewrite bool_decide_eq_true_2, app_nil_r by done. simpl. by eexists _, _.
  - rewrite bool_decide_eq_false_2 by done. cbn [negb mbind io_bind]. rewrite Htk. by eexists _, _.
Qed.

