(* ===== verification/FileCache.v ===== *)
(** * Open segment descriptors (elide-core/src/volume/read.rs)

    The cache of open segment files the readers of a volume share: a ring of
    slots under the CLOCK policy, emptied when a reader brings a newer layout
    generation. *)

From stdpp Require Import base gmap list.
From S2P Require Import Prelude.
Open Scope Z_scope.

(** ** Data *)

(** [read.rs]'s [SegmentLayout]: how a body offset reads in the open file. *)
Inductive SegmentLayout := LayoutFull | LayoutBodyOnly.

#[export] Instance SegmentLayout_eq_dec : EqDecision SegmentLayout.
Proof. solve_decision. Defined.

(** An [Arc<fs::File>] names an open inode. *)
Abbreviation FileRef := Z (only parsing).

Record FileCacheSlot := mkSlot {
  fs_segment_id : Ulid;
  fs_layout : SegmentLayout;
  fs_file : FileRef;
  fs_referenced : bool
}.

Record FileCache := mkFileCache {
  slots : list (option FileCacheSlot);
  hand : nat;
  layout_gen : Z (* u64 *)
}.

Definition FILE_CACHE_CAPACITY : nat := 512.

Definition fc_new (capacity : nat) : FileCache := mkFileCache (replicate capacity None) 0 0.
Definition fc_default : FileCache := fc_new FILE_CACHE_CAPACITY.

(** ** Operations *)

Definition fc_clear (c : FileCache) : FileCache :=
  mkFileCache (map (λ _, None) (slots c)) (hand c) (layout_gen c).

Definition fc_advance (g : Z) (c : FileCache) : FileCache :=
  if decide (layout_gen c < g) then
    let c := fc_clear c in mkFileCache (slots c) (hand c) g
  else c.

Definition fc_set_capacity (capacity : nat) (c : FileCache) : FileCache :=
  mkFileCache (replicate capacity None) 0 (layout_gen c).

Definition holds (id : Ulid) (s : option FileCacheSlot) : bool :=
  match s with Some s => bool_decide (fs_segment_id s = id) | None => false end.

Definition is_free (s : option FileCacheSlot) : bool := negb (bool_decide (is_Some s)).

(** The first slot that satisfies [p], replaced by [f] of it. *)
Fixpoint update_first (p : option FileCacheSlot → bool) (f : option FileCacheSlot → option FileCacheSlot)
    (l : list (option FileCacheSlot)) : option (list (option FileCacheSlot)) :=
  match l with
  | [] => None
  | s :: l => if p s then Some (f s :: l) else cons s <$> update_first p f l
  end.

Definition touch (s : FileCacheSlot) (referenced : bool) : FileCacheSlot :=
  mkSlot (fs_segment_id s) (fs_layout s) (fs_file s) referenced.

Definition fc_get (g : Z) (id : Ulid) (c : FileCache) : FileCache * option (SegmentLayout * FileRef) :=
  let c := fc_advance g c in
  if decide (g < layout_gen c) then (c, None)
  else
    match List.find (holds id) (slots c), update_first (holds id) (fmap (λ s, touch s true)) (slots c) with
    | Some (Some slot), Some slots => (mkFileCache slots (hand c) (layout_gen c), Some (fs_layout slot, fs_file slot))
    | _, _ => (c, None)
    end.

(** The sweep.  [None] is a panic: the hand out of bounds or on an empty slot;
    [fuel] bounds the turns. *)
Fixpoint clock_sweep (fuel : nat) (slot : FileCacheSlot) (c : FileCache) : option FileCache :=
  match fuel with
  | O => None
  | S fuel =>
      let len := length (slots c) in
      match slots c !! hand c with
      | Some (Some s) =>
          let next := Nat.modulo (hand c + 1) len in
          if fs_referenced s then
            clock_sweep fuel slot
              (mkFileCache (<[hand c := Some (touch s false)]> (slots c)) next (layout_gen c))
          else Some (mkFileCache (<[hand c := Some slot]> (slots c)) next (layout_gen c))
      | _ => None
      end
  end.

(** In place, into a free slot, or by the sweep: one turn of the ring clears
    every referenced bit and the next slot is taken. *)
Definition fc_put (slot : FileCacheSlot) (c : FileCache) : option FileCache :=
  match update_first (holds (fs_segment_id slot)) (λ _, Some slot) (slots c) with
  | Some slots => Some (mkFileCache slots (hand c) (layout_gen c))
  | None =>
      match update_first is_free (λ _, Some slot) (slots c) with
      | Some slots => Some (mkFileCache slots (hand c) (layout_gen c))
      | None => clock_sweep (S (length (slots c))) slot c
      end
  end.

Definition fc_insert (g : Z) (id : Ulid) (layout : SegmentLayout) (file : FileRef) (c : FileCache)
    : option FileCache :=
  let c := fc_advance g c in
  if bool_decide (g < layout_gen c) || bool_decide (slots c = []) then Some c
  else fc_put (mkSlot id layout file true) c.

Definition fc_evict (id : Ulid) (c : FileCache) : FileCache :=
  mkFileCache (map (λ s, if holds id s then None else s) (slots c)) (hand c) (layout_gen c).
