(* ===== verification/ReadPath.v ===== *)
(** * Guest reads (elide-core/src/volume/read.rs)

    A read walks the layered map's extents over its range: holes and zero
    extents are filled, every other extent is resolved to its stored bytes,
    decoded, checked against its content hash and copied out.  The segment
    files, the fetcher's answers and the sidecars' kernel answers are the
    environment. *)

From stdpp Require Import base gmap list.
From S2P Require Import Prelude Bytes Segment ChunkTree Codec SegmentCodec LbaMap ExtentIndex MapLayers Locate Dmat FileCache.
Open Scope Z_scope.

(** ** Environment and state *)

(** [zstd::bulk::Decompressor::with_dictionary], capped. *)
Class ZstdDict := { zstd_dict_decompress : list Z → list Z → Z → io (list Z) }.

Definition DELTA_DECOMPRESS_CAP : Z := MAX_EXTENT_PLAINTEXT.
Definition TABLE_READ_PREFIX : Z := 4096.

(** What the call's closures and the open files answer. *)
Record ReadEnv := mkReadEnv {
  re_find : Ulid → Z → BodySource → io Path;
  re_open : Path → io FileRef;
  re_open_delta : Ulid → io FileRef;
  re_bytes : FileRef → list Z;
  re_bits : PresenceRef → list Z
}.

Record ReadStats := mkReadStats { extents_total : Z; fd_hit_total : Z; fd_miss_total : Z }.

Record DmatStats := mkDmatStats {
  ds_lookup : Z; ds_hit : Z; ds_miss : Z; ds_write : Z; ds_write_bytes : Z;
  ds_open_truncate : Z; ds_open_invalid : Z
}.

(** One opening of a sidecar: whether its path exists, and what the open meets. *)
Record DmatOpen := mkDmatOpen { do_exists : bool; do_env : OpenEnv }.

(** The caches a reader shares, its scratch buffer, and the answers the
    sidecars' calls will get. *)
Record ReadState := mkReadState {
  rs_files : FileCache;
  rs_dmats : gmap Ulid Dmat;
  rs_scratch : list Z;
  rs_stats : ReadStats;
  rs_dstats : DmatStats;
  rs_opens : list DmatOpen;
  rs_appends : list AppendEnv
}.

Definition set_files c s := mkReadState c (rs_dmats s) (rs_scratch s) (rs_stats s) (rs_dstats s) (rs_opens s) (rs_appends s).
Definition set_dmats d s := mkReadState (rs_files s) d (rs_scratch s) (rs_stats s) (rs_dstats s) (rs_opens s) (rs_appends s).
Definition set_scratch b s := mkReadState (rs_files s) (rs_dmats s) b (rs_stats s) (rs_dstats s) (rs_opens s) (rs_appends s).
Definition set_stats t s := mkReadState (rs_files s) (rs_dmats s) (rs_scratch s) t (rs_dstats s) (rs_opens s) (rs_appends s).
Definition set_dstats t s := mkReadState (rs_files s) (rs_dmats s) (rs_scratch s) (rs_stats s) t (rs_opens s) (rs_appends s).

Definition RM (A : Type) : Type := ReadState → ReadState * io A.

#[export] Instance rm_ret : MRet RM := λ A x s, (s, Ok x).
#[export] Instance rm_bind : MBind RM := λ A B f m s,
  match m s with (s, Ok x) => f x s | (s, Err e) => (s, Err e) end.

Definition rm_lift {A} (r : io A) : RM A := λ s, (s, r).
Definition rm_gets {A} (f : ReadState → A) : RM A := λ s, (s, Ok (f s)).
Definition rm_modify (f : ReadState → ReadState) : RM unit := λ s, (f s, Ok ()).

(** ** Counters *)

Definition record_hit : RM unit := rm_modify (λ s, set_stats
  (mkReadStats (u64_add (extents_total (rs_stats s)) 1) (u64_add (fd_hit_total (rs_stats s)) 1)
     (fd_miss_total (rs_stats s))) s).
Definition record_miss : RM unit := rm_modify (λ s, set_stats
  (mkReadStats (u64_add (extents_total (rs_stats s)) 1) (fd_hit_total (rs_stats s))
     (u64_add (fd_miss_total (rs_stats s)) 1)) s).

Definition count_dmat (f : DmatStats → DmatStats) : RM unit := rm_modify (λ s, set_dstats (f (rs_dstats s)) s).
Definition ds_record_lookup (d : DmatStats) : DmatStats :=
  mkDmatStats (u64_add (ds_lookup d) 1) (ds_hit d) (ds_miss d) (ds_write d) (ds_write_bytes d) (ds_open_truncate d) (ds_open_invalid d).
Definition ds_record_hit (d : DmatStats) : DmatStats :=
  mkDmatStats (ds_lookup d) (u64_add (ds_hit d) 1) (ds_miss d) (ds_write d) (ds_write_bytes d) (ds_open_truncate d) (ds_open_invalid d).
Definition ds_record_miss (d : DmatStats) : DmatStats :=
  mkDmatStats (ds_lookup d) (ds_hit d) (u64_add (ds_miss d) 1) (ds_write d) (ds_write_bytes d) (ds_open_truncate d) (ds_open_invalid d).
Definition ds_record_write (bytes : Z) (d : DmatStats) : DmatStats :=
  mkDmatStats (ds_lookup d) (ds_hit d) (ds_miss d) (u64_add (ds_write d) 1) (u64_add (ds_write_bytes d) bytes)
    (ds_open_truncate d) (ds_open_invalid d).
Definition ds_record_open_scan (scan : ScanStats) (d : DmatStats) : DmatStats :=
  mkDmatStats (ds_lookup d) (ds_hit d) (ds_miss d) (ds_write d) (ds_write_bytes d)
    (if truncated scan then u64_add (ds_open_truncate d) 1 else ds_open_truncate d)
    (if decide (0 < invalid scan) then u64_add (ds_open_invalid d) (invalid scan) else ds_open_invalid d).

(** ** Opening a segment's file *)

Definition from_path (p : Path) : SegmentLayout :=
  match p_place p with InCache => LayoutBodyOnly | _ => LayoutFull end.

Definition cache_get (g : Z) (id : Ulid) : RM (option (SegmentLayout * FileRef)) := λ s,
  let '(c, hit) := fc_get g id (rs_files s) in (set_files c s, Ok hit).

Definition cache_insert (g : Z) (id : Ulid) (layout : SegmentLayout) (f : FileRef) : RM unit := λ s,
  match fc_insert g id layout f (rs_files s) with
  | Some c => (set_files c s, Ok ())
  | None => (s, Err OtherError)
  end.

(** A cached descriptor when the bytes are known to be there, or the file found
    and opened. *)
Definition acquire (env : ReadEnv) (g : Z) (id : Ulid) (bss : Z) (src : BodySource) (known_set : bool)
    : RM (SegmentLayout * FileRef) :=
  cached ← (if known_set then cache_get g id else mret None);
  match cached with
  | Some hit => _ ← record_hit; mret hit
  | None =>
      _ ← record_miss;
      path ← rm_lift (re_find env id bss src);
      f ← rm_lift (re_open env path);
      _ ← cache_insert g id (from_path path) f;
      mret (from_path path, f)
  end.

Definition presence_known_set (env : ReadEnv) (ls : MapLayers) (loc : ExtentLocation) : bool :=
  match body_source loc with
  | Local => true
  | Cached idx =>
      match segment_presence (extent_index (base ls)) !! segment_id loc with
      | Some p => sp_test (re_bits env p) idx
      | None => false
      end
  end.

Definition file_body_offset (layout : SegmentLayout) (loc : ExtentLocation) : Z :=
  match layout with
  | LayoutBodyOnly => body_offset loc
  | LayoutFull => u64_add (body_section_start loc) (body_offset loc)
  end.

Section read.
Context {HB : Blake3} {HL : Lz4Block} {HC : Lz4Codec} {HT : Blake3Tree} {HZ : ZstdBulk} {HD : ZstdDict}.

(** ** Verified content *)

Definition verify_extent_content (expected : Hash) (payload : list Z) : io unit :=
  if decide (blake3 payload = expected) then Ok () else Err OtherError.

Definition verify_and_slice (plain : list Z) (expected : Hash) (src_start src_end : Z) : io (list Z) :=
  _ ← verify_extent_content expected plain;
  match get_range plain (src_start, src_end) with Some src => Ok src | None => Err OtherError end.

(** [Vec::resize(n, 0)]. *)
Definition resize (v : list Z) (n : Z) : list Z := take (Z.to_nat n) v ++ replicate (Z.to_nat n - length v) 0.

(** ** Chunked bodies *)

(** The chunks the range lands in: decoded in place when whole, through the
    scratch when partial, each one's chaining value put into [cs]. *)
Fixpoint serve_chunks (t : ChunkTable) (first : Z) (compressed : list Z) (src_start src_end : Z)
    (indices : list Z) (out_slice : list Z) (cs : list CV) : RM (list Z * list CV) :=
  match indices with
  | [] => mret (out_slice, cs)
  | index :: indices =>
      span ← rm_lift (chunk_span t index);
      let frame := bytes_in compressed (span.1 - first, span.2 - first) in
      let plain := range (size t) index (plain_len t) in
      let n := plain.2 - plain.1 in
      if decide (src_start ≤ plain.1 ∧ plain.2 ≤ src_end) then
        bytes ← rm_lift (zstd_decode_into frame n);
        let at_ := plain.1 - src_start in
        serve_chunks t first compressed src_start src_end indices
          (overwrite out_slice (at_, at_ + n) bytes) (<[Z.to_nat index := cv (size t) index bytes]> cs)
      else
        _ ← rm_modify (λ s, set_scratch (resize (rs_scratch s) n) s);
        bytes ← rm_lift (zstd_decode_into frame n);
        _ ← rm_modify (set_scratch bytes);
        let from := Z.max src_start plain.1 in
        let to_ := Z.min src_end plain.2 in
        if decide (to_ < from) then rm_lift (Err OtherError) (* the slice index panics *)
        else
          serve_chunks t first compressed src_start src_end indices
            (overwrite out_slice (from - src_start, to_ - src_start) (bytes_in bytes (from - plain.1, to_ - plain.1)))
            (<[Z.to_nat index := cv (size t) index bytes]> cs)
  end.

(** The table from a first read of its prefix, extended when it runs longer. *)
Definition read_table (file : list Z) (at_ body_length : Z) : io ChunkTable :=
  let prefix := Z.min TABLE_READ_PREFIX body_length in
  table ← read_exact_at file at_ prefix;
  '(plain_len, size) ← peek_header table;
  if decide (MAX_EXTENT_PLAINTEXT < plain_len) then Err OtherError
  else
    let table_len := encoded_len plain_len size in
    table ← (if decide (blen table < table_len) then read_exact_at file at_ table_len else Ok table);
    parse table.

Definition serve_chunked (file : list Z) (at_ body_length : Z) (expected : Hash) (src_start src_end : Z)
    (out_slice : list Z) : RM (list Z) :=
  t ← rm_lift (read_table file at_ body_length);
  let wanted := covering (size t) src_start src_end in
  first ← rm_lift (chunk_span t wanted.1);
  last ← rm_lift (chunk_span t (u64_sub wanted.2 1));
  if decide (body_length < last.2) then rm_lift (Err OtherError)
  else
    compressed ← rm_lift (read_exact_at file (u64_add at_ first.1) (last.2 - first.1));
    '(out_slice, cs) ← serve_chunks t first.1 compressed src_start src_end
                         (seqZ wanted.1 (wanted.2 - wanted.1)) out_slice (table_cvs t);
    root ← rm_lift (root_from_cvs (size t) cs (plain_len t));
    if decide (root ≠ expected) then rm_lift (Err OtherError) else mret out_slice.

(** ** One located extent *)

(** The stored bytes at [at_], decoded by the arm of their codec. *)
Definition serve_body (file : list Z) (at_ : Z) (loc : ExtentLocation) (expected : Hash)
    (src_start src_end : Z) (out_slice : list Z) : RM (list Z) :=
  match codec loc with
  | ZstdChunked => serve_chunked file at_ (body_length loc) expected src_start src_end out_slice
  | CodecNone =>
      if decide (src_start = 0 ∧ blen out_slice = body_length loc) then
        bytes ← rm_lift (read_exact_at file at_ (blen out_slice));
        _ ← rm_lift (verify_extent_content expected bytes);
        mret bytes
      else
        _ ← rm_modify (λ s, set_scratch (resize (rs_scratch s) (body_length loc)) s);
        bytes ← rm_lift (read_exact_at file at_ (body_length loc));
        _ ← rm_modify (set_scratch bytes);
        rm_lift (verify_and_slice bytes expected src_start src_end)
  | c =>
      stored ← rm_lift (read_exact_at file at_ (body_length loc));
      plain_len ← rm_lift (codec_plain_len c stored);
      if decide (src_start = 0 ∧ src_end = plain_len ∧ blen out_slice = plain_len) then
        bytes ← rm_lift (decode_into c stored out_slice);
        _ ← rm_lift (verify_extent_content expected bytes);
        mret bytes
      else
        _ ← rm_modify (λ s, set_scratch (resize (rs_scratch s) plain_len) s);
        scratch ← rm_gets rs_scratch;
        bytes ← rm_lift (decode_into c stored scratch);
        _ ← rm_modify (set_scratch bytes);
        rm_lift (verify_and_slice bytes expected src_start src_end)
  end.

(** The block range an extent's payload is read from. *)
Definition block_count (er : ExtentRead) : Z := u64_sub (range_end er) (range_start er).
Definition src_start (er : ExtentRead) : Z := er_payload_block_offset er * 4096.
Definition src_end (er : ExtentRead) : Z := src_start er + block_count er * 4096.

Definition serve_extent (env : ReadEnv) (g : Z) (ls : MapLayers) (er : ExtentRead) (loc : ExtentLocation)
    (out_slice : list Z) : RM (list Z) :=
  match inline_data loc with
  | Some idata =>
      plain ← rm_lift (decode (codec loc) idata);
      rm_lift (verify_and_slice plain (er_hash er) (src_start er) (src_end er))
  | None =>
      '(layout, f) ← acquire env g (segment_id loc) (body_section_start loc) (body_source loc)
                       (presence_known_set env ls loc);
      serve_body (re_bytes env f) (file_body_offset layout loc) loc (er_hash er) (src_start er) (src_end er) out_slice
  end.

(** ** The materialisation cache *)

Definition next_open : RM (option DmatOpen) := λ s,
  match rs_opens s with
  | [] => (s, Ok None)
  | o :: opens => (mkReadState (rs_files s) (rs_dmats s) (rs_scratch s) (rs_stats s) (rs_dstats s) opens (rs_appends s), Ok (Some o))
  end.

Definition next_dmat_append : RM (option AppendEnv) := λ s,
  match rs_appends s with
  | [] => (s, Ok None)
  | a :: appends => (mkReadState (rs_files s) (rs_dmats s) (rs_scratch s) (rs_stats s) (rs_dstats s) (rs_opens s) appends, Ok (Some a))
  end.

Definition put_dmat (id : Ulid) (d : Dmat) : RM unit := rm_modify (λ s, set_dmats (<[id := d]> (rs_dmats s)) s).

(** Open a sidecar and keep the instance. *)
Definition open_dmat (id : Ulid) (o : DmatOpen) : RM (option Dmat) :=
  match (open_or_create (do_env o) (λ _ _, true)).2 with
  | Ok (d, scan) => _ ← count_dmat (ds_record_open_scan scan); _ ← put_dmat id d; mret (Some d)
  | Err _ => mret None
  end.

(** The instance in hand, or an opening of an existing path. *)
Definition dmat_instance (id : Ulid) (create : bool) : RM (option Dmat) :=
  dmats ← rm_gets rs_dmats;
  match dmats !! id with
  | Some d => mret (Some d)
  | None =>
      o ← next_open;
      match o with
      | Some o => if do_exists o || create then open_dmat id o else mret None
      | None => mret None
      end
  end.

Definition dmat_lookup (id : Ulid) (idx : Z) : RM (option (list Z)) :=
  d ← dmat_instance id false;
  match d with
  | None => mret None
  | Some d =>
      match dm_lookup d idx with
      | None => mret None
      | Some loc =>
          match read_materialised d loc with
          | Ok bytes => mret (Some bytes)
          | Err _ => _ ← put_dmat id (dm_forget idx d); mret None
          end
      end
  end.

(** A failure to cache is dropped: the read has its bytes. *)
Definition dmat_writeback (id : Ulid) (idx : Z) (materialised : list Z) : RM unit :=
  d ← dmat_instance id true; a ← next_dmat_append;
  match d, a with
  | Some d, Some a =>
      let '(d, r) := dm_append a idx materialised (maybe_compress materialised) d in
      _ ← put_dmat id d;
      match r with
      | Ok loc => count_dmat (ds_record_write (stored_length loc))
      | Err _ => mret ()
      end
  | _, _ => mret ()
  end.

(** ** Delta extents *)

Definition apply_delta (base_body delta_blob : list Z) : io (list Z) :=
  zstd_dict_decompress base_body delta_blob DELTA_DECOMPRESS_CAP.

Definition copy_materialised (er : ExtentRead) (materialised : list Z) : io (list Z) :=
  match get_range materialised (src_start er, src_end er) with Some src => Ok src | None => Err OtherError end.

(** The first option whose source has a data location. *)
Definition pick_source (ls : MapLayers) (options : list DeltaOption) : option (DeltaOption * ExtentLocation) :=
  find_map (λ opt, (λ loc, (opt, loc)) <$> MapLayers.lookup_extent ls (source_hash opt)) options.

(** The source's plaintext; its content is not checked here. *)
Definition source_bytes (env : ReadEnv) (g : Z) (ls : MapLayers) (loc : ExtentLocation) : RM (list Z) :=
  match inline_data loc with
  | Some idata => rm_lift (decode (codec loc) idata)
  | None =>
      '(layout, f) ← acquire env g (segment_id loc) (body_section_start loc) (body_source loc)
                       (presence_known_set env ls loc);
      buf ← rm_lift (read_exact_at (re_bytes env f) (file_body_offset layout loc) (body_length loc));
      rm_lift (decode (codec loc) buf)
  end.

Definition delta_blob (env : ReadEnv) (g : Z) (dl : DeltaLocation) (opt : DeltaOption) : RM (list Z) :=
  match d_body_source dl with
  | Full bss body_length =>
      '(_, f) ← acquire env g (d_segment_id dl) bss Local true;
      rm_lift (read_exact_at (re_bytes env f) (u64_add (u64_add bss body_length) (delta_offset opt)) (delta_length opt))
  | DeltaCached =>
      f ← rm_lift (re_open_delta env (d_segment_id dl));
      rm_lift (read_exact_at (re_bytes env f) (delta_offset opt) (delta_length opt))
  end.

(** Rebuild the extent from its delta, check it, and keep a copy. *)
Definition materialise_delta (env : ReadEnv) (g : Z) (ls : MapLayers) (er : ExtentRead) (dl : DeltaLocation)
    : RM (list Z) :=
  match pick_source ls (d_options dl) with
  | None => rm_lift (Err OtherError)
  | Some (opt, source_loc) =>
      source ← source_bytes env g ls source_loc;
      blob ← delta_blob env g dl opt;
      decompressed ← rm_lift (apply_delta source blob);
      if decide (blake3 decompressed ≠ er_hash er) then rm_lift (Err OtherError)
      else
        _ ← dmat_writeback (d_segment_id dl) (d_entry_idx dl) decompressed;
        rm_lift (copy_materialised er decompressed)
  end.

(** [None] when the hash has no delta either. *)
Definition try_read_delta_extent (env : ReadEnv) (g : Z) (ls : MapLayers) (er : ExtentRead)
    : RM (option (list Z)) :=
  match MapLayers.lookup_delta ls (er_hash er) with
  | None => mret None
  | Some dl =>
      _ ← count_dmat ds_record_lookup;
      cached ← dmat_lookup (d_segment_id dl) (d_entry_idx dl);
      match cached with
      | Some materialised =>
          if decide (blake3 materialised = er_hash er) then
            _ ← count_dmat ds_record_hit;
            bytes ← rm_lift (copy_materialised er materialised); mret (Some bytes)
          else
            _ ← count_dmat ds_record_miss;
            bytes ← materialise_delta env g ls er dl; mret (Some bytes)
      | None =>
          _ ← count_dmat ds_record_miss;
          bytes ← materialise_delta env g ls er dl; mret (Some bytes)
      end
  end.

(** ** The read *)

Definition zero_fill (out : list Z) (s e : Z) : list Z := overwrite out (s, e) (replicate (Z.to_nat (e - s)) 0).

(** The journal tier by claimant and hash, then the data tier. *)
Definition resolve (ls : MapLayers) (er : ExtentRead) : option ExtentLocation :=
  if MapLayers.journal_is_empty ls then MapLayers.lookup_extent ls (er_hash er)
  else
    match MapLayers.lookup_journal ls (er_claimant er) (er_hash er) with
    | Some loc => Some loc
    | None => MapLayers.lookup_extent ls (er_hash er)
    end.

(** The bytes of one mapped extent. *)
Definition extent_bytes (env : ReadEnv) (g : Z) (ls : MapLayers) (er : ExtentRead) (out_slice : list Z)
    : RM (list Z) :=
  match resolve ls er with
  | Some loc => serve_extent env g ls er loc out_slice
  | None =>
      found ← try_read_delta_extent env g ls er;
      match found with Some bytes => mret bytes | None => rm_lift (Err OtherError) end
  end.

(** One turn of the loop: the gap before the extent, then the extent. *)
Definition read_step (env : ReadEnv) (g : Z) (ls : MapLayers) (lba cursor : Z) (out : list Z) (er : ExtentRead)
    : RM (list Z) :=
  let out := if decide (cursor < range_start er)
             then zero_fill out (u64_sub cursor lba * 4096) (u64_sub (range_start er) lba * 4096) else out in
  let s := u64_sub (range_start er) lba * 4096 in
  if decide (er_hash er = ZERO_HASH) then mret (zero_fill out s (u64_sub (range_end er) lba * 4096))
  else
    let e := s + block_count er * 4096 in
    bytes ← extent_bytes env g ls er (bytes_in out (s, e));
    mret (overwrite out (s, e) bytes).

Fixpoint read_loop (env : ReadEnv) (g : Z) (ls : MapLayers) (lba cursor : Z) (out : list Z)
    (ers : list ExtentRead) : RM (list Z * Z) :=
  match ers with
  | [] => mret (out, cursor)
  | er :: ers =>
      out ← read_step env g ls lba cursor out er;
      read_loop env g ls lba (range_end er) out ers
  end.

Definition read_extents (env : ReadEnv) (g : Z) (ls : MapLayers) (lba : Z) (out : list Z) : RM (list Z) :=
  let lba_count := as_u32 (blen out / 4096) in
  let end_lba := u64_add lba lba_count in
  '(out, cursor) ← read_loop env g ls lba lba out (MapLayers.extents_in_range ls lba end_lba);
  mret (if decide (cursor < end_lba) then zero_fill out (u64_sub cursor lba * 4096) (blen out) else out).

(** ** The callers *)

(** The closures of [Volume::read_into]: this fork's directories, its
    ancestors', its fetcher. *)
Definition volume_env (fs : FsView) (base_dir : DirRef) (ancestors : list DirRef) (fetcher : option SegmentFetcher)
    (open_path : Path → io FileRef) (open_delta : DirRef → Ulid → io FileRef) (bytes : FileRef → list Z)
    (ls : MapLayers) : ReadEnv :=
  mkReadEnv
    (λ id bss src, find_segment_in_dirs fs id base_dir ancestors fetcher (extent_index (base ls)) bss src)
    open_path
    (λ id, dir ← open_delta_body_in_dirs fs id base_dir ancestors fetcher; open_delta dir id)
    bytes (presence_bits fs).

Definition read_into (env : ReadEnv) (ls : MapLayers) (lba : Z) (buf : list Z) : RM (list Z) :=
  read_extents env 0 ls lba buf.

Definition read (env : ReadEnv) (ls : MapLayers) (lba lba_count : Z) : RM (list Z) :=
  read_into env ls lba (replicate (Z.to_nat (lba_count * 4096)) 0).

(** [VolumeExt4Reader::read]: whole blocks around a byte range. *)
Definition ext4_read (env : ReadEnv) (ls : MapLayers) (start_byte len : Z) : RM (list Z) :=
  if decide (len = 0) then mret []
  else
    let lba := start_byte / 4096 in
    let lba_end := div_ceil (start_byte + len) 4096 in
    bytes ← read env ls lba (as_u32 (lba_end - lba));
    let off := start_byte mod 4096 in
    mret (bytes_in bytes (off, off + len)).
End read.
