(* ===== verification/ReadPathSpec.v ===== *)
(** * Reads return verified content

    Whatever the caches, the segment files and the fetcher hold, a read that
    succeeds hands out only zeros, for what was never written or was zeroed, and
    bytes that hang under the content hash the map names. *)

From stdpp Require Import base gmap list.
From S2P Require Import Prelude Bytes Segment ChunkTree ChunkTreeSpec Codec CodecSpec SegmentCodec LbaMap LbaMapFacts LbaMapSpec.
From S2P Require Import ExtentIndex MapLayers MapLayersSpec Locate Dmat FileCache ReadPath.
Open Scope Z_scope.

(** ** Slices *)

(** The byte at a position. *)
Definition at_ (l : list Z) (i : Z) : option Z := if decide (0 ≤ i) then l !! Z.to_nat i else None.

Lemma at_is_Some l i : is_Some (at_ l i) ↔ 0 ≤ i < blen l.
Proof.
  unfold at_, blen. case_decide; [rewrite lookup_lt_is_Some; lia|]. split; [by intros [? ?]|lia].
Qed.

Lemma at_None l i : ¬ (0 ≤ i < blen l) → at_ l i = None.
Proof. intros Hn. apply eq_None_not_Some. by rewrite at_is_Some. Qed.

Lemma at_ext l l' : (∀ i, 0 ≤ i → at_ l i = at_ l' i) → l = l'.
Proof.
  intros H. apply list_eq. intros i. specialize (H (Z.of_nat i) ltac:(lia)). unfold at_ in H.
  rewrite !decide_True, !Nat2Z.id in H by lia. done.
Qed.

Lemma at_bytes_in l a b i :
  0 ≤ a → at_ (bytes_in l (a, b)) i = if decide (0 ≤ i < b - a) then at_ l (a + i) else None.
Proof.
  intros Ha. unfold bytes_in. cbn [fst snd]. unfold at_. destruct (decide (0 ≤ i)) as [Hi|Hi].
  - destruct (decide (i < b - a)) as [Hlt|Hge].
    + rewrite (decide_True (P := 0 ≤ i < b - a)), (decide_True (P := 0 ≤ a + i)) by lia.
      rewrite lookup_take_lt by lia. rewrite lookup_drop. f_equal. lia.
    + rewrite (decide_False (P := 0 ≤ i < b - a)) by lia. apply lookup_take_ge. lia.
  - by rewrite (decide_False (P := 0 ≤ i < b - a)) by lia.
Qed.

Lemma blen_bytes_in l a b : 0 ≤ a → b ≤ blen l → blen (bytes_in l (a, b)) = Z.max 0 (b - a).
Proof. intros Ha Hb. unfold bytes_in. cbn [fst snd]. rewrite blen_take, blen_drop. lia. Qed.

Lemma blen_overwrite out s e bytes :
  0 ≤ s ≤ e → e ≤ blen out → blen bytes = e - s → blen (overwrite out (s, e) bytes) = blen out.
Proof. intros Hs He Hb. unfold overwrite. cbn [fst snd]. rewrite !blen_app, blen_take, blen_drop. lia. Qed.

Lemma at_overwrite out s e bytes i :
  0 ≤ s ≤ e → e ≤ blen out → blen bytes = e - s →
  at_ (overwrite out (s, e) bytes) i = if decide (s ≤ i < e) then at_ bytes (i - s) else at_ out i.
Proof.
  intros Hs He Hb. unfold overwrite, at_. cbn [fst snd]. unfold blen in *.
  destruct (decide (0 ≤ i)) as [Hi|Hi]; [|by rewrite (decide_False (P := s ≤ i < e)) by lia].
  destruct (decide (i < s)) as [H1|H1].
  { rewrite (decide_False (P := s ≤ i < e)) by lia. rewrite lookup_app_l by (rewrite length_take; lia).
    apply lookup_take_lt. lia. }
  rewrite lookup_app_r by (rewrite length_take; lia). rewrite length_take.
  destruct (decide (i < e)) as [H2|H2].
  - rewrite (decide_True (P := s ≤ i < e)), (decide_True (P := 0 ≤ i - s)) by lia.
    rewrite lookup_app_l by lia. f_equal. lia.
  - rewrite (decide_False (P := s ≤ i < e)) by lia. rewrite lookup_app_r by lia. rewrite lookup_drop. f_equal. lia.
Qed.

Lemma get_range_Some d a b x :
  get_range d (a, b) = Some x → 0 ≤ a → x = bytes_in d (a, b) ∧ a ≤ b ≤ blen d ∧ blen x = b - a.
Proof.
  unfold get_range. cbn [fst snd]. case_decide as H; [|done]. intros [= <-] Ha. split; [done|]. split; [done|].
  rewrite blen_bytes_in; lia.
Qed.

Lemma bytes_in_sub l a b c d :
  0 ≤ a → 0 ≤ c → d ≤ b - a → bytes_in (bytes_in l (a, b)) (c, d) = bytes_in l (a + c, a + d).
Proof.
  intros Ha Hc Hd. apply at_ext. intros i Hi. rewrite !at_bytes_in by lia.
  repeat (case_decide; try lia); try done. f_equal. lia.
Qed.

Lemma at_replicate n i : at_ (replicate n 0) i = if decide (0 ≤ i < Z.of_nat n) then Some 0 else None.
Proof.
  unfold at_. repeat case_decide; try lia; try done; [by apply lookup_replicate_2; lia|].
  apply lookup_ge_None. rewrite length_replicate. lia.
Qed.

(** ** Results whatever the state *)

Section monad.
Context {A B : Type}.

Definition yields (m : RM A) (P : A → Prop) : Prop := ∀ s s' x, m s = (s', Ok x) → P x.

Lemma yields_ret (x : A) (P : A → Prop) : P x → yields (mret x) P.
Proof. intros HP s s' y H. apply (f_equal snd) in H. by injection H as <-. Qed.

Lemma yields_lift (r : io A) (P : A → Prop) : (∀ x, r = Ok x → P x) → yields (rm_lift r) P.
Proof. intros HP s s' y H. apply (f_equal snd) in H. by apply HP. Qed.

Lemma yields_weaken (m : RM A) (P Q : A → Prop) : yields m P → (∀ x, P x → Q x) → yields m Q.
Proof. intros Hm HPQ s s' x Hx. by eapply HPQ, Hm. Qed.
End monad.

Lemma yields_bind {A B} (m : RM A) (f : A → RM B) (Q : A → Prop) (P : B → Prop) :
  yields m Q → (∀ x, Q x → yields (f x) P) → yields (m ≫= f) P.
Proof.
  intros Hm Hf s s' y H. unfold mbind, rm_bind in H. destruct (m s) as [s1 [x|e]] eqn:E.
  - by eapply Hf; [eapply Hm|].
  - apply (f_equal snd) in H. discriminate H.
Qed.

Lemma yields_then {A B} (m : RM A) (f : A → RM B) (P : B → Prop) :
  (∀ x, yields (f x) P) → yields (m ≫= f) P.
Proof. intros Hf. apply (yields_bind _ _ (λ _, True)); [by intros s s' x _|]. intros x _. apply Hf. Qed.

Lemma yields_lift_bind {A B} (r : io A) (f : A → RM B) (P : B → Prop) :
  (∀ x, r = Ok x → yields (f x) P) → yields (rm_lift r ≫= f) P.
Proof. intros Hf. eapply yields_bind; [by apply (yields_lift _ (λ x, r = Ok x))|]. exact Hf. Qed.

Section spec.
Context {HB : Blake3} {HL : Lz4Block} {HC : Lz4Codec} {HT : Blake3Tree} {HZ : ZstdBulk} {HD : ZstdDict}.

(** ** Vouched bytes *)

(** [bytes] sit at [src] of an extent whose content hash is [h]: of a whole
    plaintext hashing to it, or of chunks whose chaining values rebuild it. *)
Inductive vouched (h : Hash) (src : Z) (bytes : list Z) : Prop :=
  | vouched_whole plain :
      blake3 plain = h → get_range plain (src, src + blen bytes) = Some bytes → vouched h src bytes
  | vouched_chunks s n cs :
      size_ok s → root_from_cvs s cs n = Ok h →
      (∀ i, (covering s src (src + blen bytes)).1 ≤ i < (covering s src (src + blen bytes)).2 →
         ∃ chunk, cs !! Z.to_nat i = Some (cv s i chunk) ∧ blen chunk = chunk_len s i n ∧
           ∀ p, src ≤ p < src + blen bytes → (range s i n).1 ≤ p < (range s i n).2 →
             at_ bytes (p - src) = at_ chunk (p - (range s i n).1)) →
      vouched h src bytes.

Lemma covering_bounds s a b :
  size_ok s → 0 ≤ a < b →
  (covering s a b).1 * cs_bytes s ≤ a < ((covering s a b).1 + 1) * cs_bytes s ∧
  ((covering s a b).2 - 1) * cs_bytes s < b ≤ (covering s a b).2 * cs_bytes s ∧
  0 ≤ (covering s a b).1 < (covering s a b).2.
Proof.
  intros Hs Hab. pose proof (cs_bytes_bounds s Hs). unfold covering. rewrite decide_False by lia. cbn [fst snd].
  pose proof (Z.div_mod a (cs_bytes s) ltac:(lia)). pose proof (Z.mod_pos_bound a (cs_bytes s) ltac:(lia)).
  pose proof (Z.div_mod (b - 1) (cs_bytes s) ltac:(lia)). pose proof (Z.mod_pos_bound (b - 1) (cs_bytes s) ltac:(lia)).
  pose proof (Z.div_pos a (cs_bytes s) ltac:(lia) ltac:(lia)). nia.
Qed.

(** A part of vouched bytes is vouched. *)
Lemma vouched_sub h src bytes a b :
  vouched h src bytes → 0 ≤ src → 0 ≤ a < b → b ≤ blen bytes → vouched h (src + a) (bytes_in bytes (a, b)).
Proof.
  intros Hv Hsrc Ha Hb. assert (blen (bytes_in bytes (a, b)) = b - a) as Hl by (rewrite blen_bytes_in; lia).
  destruct Hv as [plain Hh Hg|s n cs Hs Hr Hc].
  - apply get_range_Some in Hg as (Heq & Hle & Hlen); [|done]. eapply vouched_whole; [done|].
    rewrite Hl. unfold get_range. cbn [fst snd]. rewrite decide_True by lia. f_equal.
    rewrite Heq, bytes_in_sub by lia. f_equal. f_equal. lia.
  - eapply vouched_chunks; [done|done|]. rewrite Hl. intros i Hi.
    pose proof (covering_bounds s src (src + blen bytes) Hs ltac:(lia)) as (H1 & H2 & H3).
    pose proof (covering_bounds s (src + a) (src + a + (b - a)) Hs ltac:(lia)) as (H4 & H5 & H6).
    pose proof (cs_bytes_bounds s Hs).
    destruct (Hc i) as (chunk & Hcs & Hcl & Hp); [nia|]. exists chunk. split; [done|]. split; [done|].
    intros p Hp1 Hp2. rewrite at_bytes_in by lia. rewrite decide_True by lia. rewrite <-Hp by lia. f_equal. lia.
Qed.

(** ** Chunked bodies *)

Lemma zstd_decode_into_len stored n bytes : zstd_decode_into stored n = Ok bytes → blen bytes = n.
Proof.
  unfold zstd_decode_into. rewrite io_bind_Ok. intros (w & _ & H). case_decide; [done|]. injection H as <-. lia.
Qed.

Record parsed (t : ChunkTable) : Prop := {
  pa_size : size_ok (size t);
  pa_lengths : blen (stored_lengths t) = Z.max 0 (count (size t) (plain_len t));
  pa_cvs : blen (table_cvs t) = Z.max 0 (count (size t) (plain_len t))
}.

Lemma chunk_span_index t i span :
  parsed t → 0 ≤ i → chunk_span t i = Ok span → i < count (size t) (plain_len t).
Proof.
  intros [_ Hl _] Hi. unfold chunk_span. destruct (stored_lengths t !! Z.to_nat i) eqn:E; [|done].
  apply lookup_lt_Some in E. unfold blen in Hl. lia.
Qed.

(** What one decoded chunk leaves in the destination. *)
Definition served_chunk (t : ChunkTable) (a b : Z) (out : list Z) (cs : list CV) (i : Z) : Prop :=
  ∃ chunk, cs !! Z.to_nat i = Some (cv (size t) i chunk) ∧ blen chunk = chunk_len (size t) i (plain_len t) ∧
    ∀ p, a ≤ p < b → (range (size t) i (plain_len t)).1 ≤ p < (range (size t) i (plain_len t)).2 →
      at_ out (p - a) = at_ chunk (p - (range (size t) i (plain_len t)).1).

(** Both arms put the overlap of the chunk and the range in place. *)
Definition put_overlap (t : ChunkTable) (a b i : Z) (bytes out : list Z) : list Z :=
  let r := range (size t) i (plain_len t) in
  let from := Z.max a r.1 in let to_ := Z.min b r.2 in
  overwrite out (from - a, to_ - a) (bytes_in bytes (from - r.1, to_ - r.1)).

Lemma put_overlap_spec t a b i bytes out :
  0 ≤ a ≤ b → blen out = b - a →
  let r := range (size t) i (plain_len t) in
  0 ≤ r.1 → r.1 ≤ r.2 → Z.max a r.1 ≤ Z.min b r.2 → blen bytes = r.2 - r.1 →
  blen (put_overlap t a b i bytes out) = blen out ∧
  ∀ p, a ≤ p < b → at_ (put_overlap t a b i bytes out) (p - a) =
    if decide (r.1 ≤ p < r.2) then at_ bytes (p - r.1) else at_ out (p - a).
Proof.
  intros Hab Ho r Hr1 Hr Hft Hb. unfold put_overlap. fold r. set (f := Z.max a r.1) in *. set (u := Z.min b r.2) in *.
  assert (blen (bytes_in bytes (f - r.1, u - r.1)) = u - a - (f - a)) as Hl by (rewrite blen_bytes_in; lia).
  split; [apply blen_overwrite; lia|]. intros p Hp. rewrite at_overwrite by lia.
  destruct (decide (r.1 ≤ p < r.2)) as [Hin|Hout].
  - rewrite decide_True by lia. rewrite at_bytes_in by lia. rewrite decide_True by lia. f_equal. lia.
  - by rewrite decide_False by lia.
Qed.

Lemma range_disjoint s i j n p :
  size_ok s → i ≠ j → (range s i n).1 ≤ p < (range s i n).2 → ¬ ((range s j n).1 ≤ p < (range s j n).2).
Proof. intros Hs Hij. pose proof (cs_bytes_bounds s Hs). unfold range. cbn [fst snd]. nia. Qed.

Lemma serve_chunks_spec t first compressed a b indices out cs :
  parsed t → 0 ≤ a ≤ b → blen out = b - a → blen cs = Z.max 0 (count (size t) (plain_len t)) →
  NoDup indices → Forall (λ i, 0 ≤ i) indices →
  yields (serve_chunks t first compressed a b indices out cs) (λ '(out', cs'),
    blen out' = blen out ∧ blen cs' = blen cs ∧ Forall (served_chunk t a b out' cs') indices ∧
    ∀ i, 0 ≤ i → i ∉ indices → served_chunk t a b out cs i → served_chunk t a b out' cs' i).
Proof.
  intros Ht Hab. revert out cs. induction indices as [|i indices IH]; intros out cs Ho Hcs Hnd Hpos; cbn [serve_chunks].
  { apply yields_ret. by split_and!. }
  apply NoDup_cons in Hnd as [Hni Hnd]. apply Forall_cons in Hpos as [Hi Hpos].
  apply yields_lift_bind. intros span Hspan. pose proof (chunk_span_index _ _ _ Ht Hi Hspan) as Hcount. cbv zeta.
  set (r := range (size t) i (plain_len t)).
  pose proof (pa_size _ Ht) as Hs. pose proof (cs_bytes_bounds _ Hs) as Hbb.
  assert (0 < plain_len t) as Hpl.
  { unfold count, div_ceil in Hcount.
    pose proof (Z.mul_div_le (plain_len t + cs_bytes (size t) - 1) (cs_bytes (size t)) ltac:(lia)). nia. }
  destruct (chunk_in_bounds (size t) i (plain_len t) Hs Hpl ltac:(lia)) as (Hr0 & Hcl & Hle & _).
  assert (r.1 = i * cs_bytes (size t)) as Hr1 by done. assert (r.2 - r.1 = chunk_len (size t) i (plain_len t)) as Hr2 by done.
  (* the rest of the loop, from a destination with the chunk in place *)
  assert (∀ bytes, blen bytes = r.2 - r.1 → Z.max a r.1 ≤ Z.min b r.2 →
    yields (serve_chunks t first compressed a b indices (put_overlap t a b i bytes out)
              (<[Z.to_nat i := cv (size t) i bytes]> cs)) (λ '(out', cs'),
      blen out' = blen out ∧ blen cs' = blen cs ∧ Forall (served_chunk t a b out' cs') (i :: indices) ∧
      ∀ j, 0 ≤ j → j ∉ i :: indices → served_chunk t a b out cs j → served_chunk t a b out' cs' j)) as Hrest.
  { intros bytes Hb Hft. destruct (put_overlap_spec t a b i bytes out Hab Ho) as [Hbl Hat]; fold r; [lia..|].
    eapply yields_weaken.
    { apply IH; [by rewrite Hbl|by rewrite <-Hcs; unfold blen; rewrite length_insert|done|done]. }
    intros [out' cs'] (H1 & H2 & H3 & H4). rewrite Hbl in H1.
    split; [done|]. split; [rewrite H2; unfold blen; by rewrite length_insert|].
    split; [constructor; [|done]; apply H4; [done|done|]|].
    - exists bytes. split; [by rewrite list_lookup_insert_eq by (unfold blen in Hcs; lia)|]. split; [lia|].
      intros p Hp Hpr. rewrite Hat by done. fold r in Hpr. by rewrite decide_True by done.
    - intros j Hj [Hij Hjn]%not_elem_of_cons (chunk & Hc1 & Hc2 & Hc3). apply H4; [done|done|].
      exists chunk. split; [by rewrite list_lookup_insert_ne by lia|]. split; [done|].
      intros p Hp Hpr. rewrite Hat by done. rewrite decide_False; [by apply Hc3|].
      by eapply (range_disjoint (size t) j i). }
  destruct (decide (a ≤ r.1 ∧ r.2 ≤ b)) as [Hin|Hout].
  - apply yields_lift_bind. intros bytes Hb%zstd_decode_into_len.
    replace (overwrite out _ bytes) with (put_overlap t a b i bytes out); [apply Hrest; lia|].
    unfold put_overlap. fold r. rewrite Z.max_r, Z.min_r by lia. f_equal; [f_equal; lia|].
    replace (r.1 - r.1) with 0 by lia. unfold bytes_in. cbn [fst snd]. rewrite drop_0. apply take_ge. unfold blen in Hb. lia.
  - apply yields_then. intros _. apply yields_lift_bind. intros bytes Hb%zstd_decode_into_len.
    apply yields_then. intros _. case_decide as Hft; [by apply yields_lift|]. apply Hrest; lia.
Qed.

Lemma parse_parsed stored t : parse stored = Ok t → parsed t.
Proof.
  unfold parse. rewrite io_bind_Ok. intros ([n s] & Hp & H).
  assert (size_ok s) as Hs.
  { unfold peek_header in Hp. destruct (get_range stored _) as [header|]; [|done].
    rewrite io_bind_Ok in Hp. destruct Hp as (s' & Hf & [= _ <-]). unfold from_log2 in Hf. case_decide; [|done].
    injection Hf as <-. done. }
  destruct (get_range stored _); [|done]. injection H as <-. split; cbn [size plain_len stored_lengths table_cvs]; [done|..];
    unfold blen; rewrite length_map, length_seqZ; lia.
Qed.

Lemma read_table_parsed file o n t : read_table file o n = Ok t → parsed t.
Proof.
  unfold read_table. cbv zeta. rewrite io_bind_Ok. intros (table & _ & H). rewrite io_bind_Ok in H.
  destruct H as ([pl s] & _ & H). case_decide; [done|]. rewrite io_bind_Ok in H. destruct H as (table' & _ & H).
  by eapply parse_parsed.
Qed.

Lemma serve_chunked_vouched file o n h a b out :
  0 ≤ a < b → blen out = b - a →
  yields (serve_chunked file o n h a b out) (λ bytes, blen bytes = b - a ∧ vouched h a bytes).
Proof.
  intros Hab Ho. unfold serve_chunked. apply yields_lift_bind. intros t Ht%read_table_parsed. cbv zeta.
  apply yields_lift_bind. intros first _. apply yields_lift_bind. intros last _.
  case_decide; [by apply yields_lift|]. apply yields_lift_bind. intros compressed _.
  pose proof (pa_size _ Ht) as Hs. pose proof (covering_bounds (size t) a b Hs Hab) as (H1 & H2 & H3).
  eapply yields_bind.
  { apply serve_chunks_spec; [done|lia|done|apply (pa_cvs _ Ht)|apply NoDup_seqZ|].
    apply Forall_forall. intros i Hi%elem_of_seqZ. lia. }
  intros [out' cs] (Hlen & Hcs & Hserved & _). apply yields_lift_bind. intros root Hroot.
  case_decide as Hr; [by apply yields_lift|]. subst root. apply yields_ret.
  split; [lia|]. apply (vouched_chunks _ _ _ (size t) (plain_len t) cs); [done|done|].
  replace (a + blen out') with b by lia. intros i Hi. apply (proj1 (Forall_forall _ _) Hserved), elem_of_seqZ. lia.
Qed.

(** ** Bodies *)

Lemma verify_and_slice_vouched plain h a b bytes :
  0 ≤ a → verify_and_slice plain h a b = Ok bytes → blen bytes = b - a ∧ vouched h a bytes.
Proof.
  intros Ha. unfold verify_and_slice, verify_extent_content. rewrite io_bind_Ok. intros (u & Hu & H).
  case_decide as Hh; [|done]. destruct (get_range plain (a, b)) as [x|] eqn:Hg; [|done]. injection H as ->.
  pose proof (get_range_Some _ _ _ _ Hg Ha) as (_ & _ & Hl). split; [done|]. eapply vouched_whole; [done|].
  by replace (a + blen bytes) with b by lia.
Qed.

Lemma whole_vouched plain h b :
  blake3 plain = h → blen plain = b → blen plain = b - 0 ∧ vouched h 0 plain.
Proof.
  intros Hh Hl. split; [lia|]. eapply vouched_whole; [done|]. unfold get_range. cbn [fst snd].
  rewrite decide_True by (pose proof (blen_nonneg plain); lia). f_equal. unfold bytes_in. cbn [fst snd].
  rewrite drop_0. apply take_ge. unfold blen. lia.
Qed.

Lemma read_exact_at_len file o n x : read_exact_at file o n = Ok x → 0 ≤ n → 0 ≤ o → blen x = n.
Proof.
  unfold read_exact_at. case_decide as Hd; [done|]. intros [= <-] Hn Ho. rewrite blen_take, blen_drop. lia.
Qed.

Lemma decode_into_len c stored out bytes : decode_into c stored out = Ok bytes → c = Lz4 ∨ c = Zstd → blen bytes = blen out.
Proof.
  intros H [-> | ->]; unfold decode_into in H.
  - case_decide; [done|]. destruct (decompress_into _ _) as [x|] eqn:Hd; [|done]. injection H as <-.
    apply decompress_into_fits in Hd; [|apply blen_nonneg]. rewrite blen_app, blen_drop. unfold blen in *. lia.
  - by apply zstd_decode_into_len in H.
Qed.

Lemma serve_body_vouched file o loc h a b out :
  0 ≤ o → 0 ≤ a < b → blen out = b - a →
  yields (serve_body file o loc h a b out) (λ bytes, blen bytes = b - a ∧ vouched h a bytes).
Proof.
  intros Hoff Hab Ho. unfold serve_body. assert (∀ c, c = Lz4 ∨ c = Zstd → codec loc = c → yields (
      stored ← rm_lift (read_exact_at file o (body_length loc));
      plain_len ← rm_lift (codec_plain_len c stored);
      if decide (a = 0 ∧ b = plain_len ∧ blen out = plain_len) then
        bytes ← rm_lift (decode_into c stored out);
        _ ← rm_lift (verify_extent_content h bytes);
        mret bytes
      else
        _ ← rm_modify (λ s, set_scratch (resize (rs_scratch s) plain_len) s);
        scratch ← rm_gets rs_scratch;
        bytes ← rm_lift (decode_into c stored scratch);
        _ ← rm_modify (set_scratch bytes);
        rm_lift (verify_and_slice bytes h a b)) (λ bytes, blen bytes = b - a ∧ vouched h a bytes)) as Hcoded.
  { intros c Hc _. apply yields_lift_bind. intros stored _. apply yields_lift_bind. intros n _. case_decide as Hw.
    - destruct Hw as (-> & <- & _). apply yields_lift_bind. intros bytes Hb%decode_into_len; [|done].
      apply yields_lift_bind. intros u Hu. unfold verify_extent_content in Hu. case_decide; [|done]. apply yields_ret.
      apply whole_vouched; [done|lia].
    - apply yields_then. intros _. apply yields_then. intros scratch. apply yields_lift_bind. intros bytes _.
      apply yields_then. intros _. apply yields_lift. intros x Hx. apply verify_and_slice_vouched in Hx; [done|lia]. }
  destruct (codec loc) eqn:Hcodec; [|by apply Hcoded; auto|by apply Hcoded; auto|by apply serve_chunked_vouched].
  destruct (decide (a = 0 ∧ blen out = body_length loc)) as [[-> Hlen]|].
  - apply yields_lift_bind. intros bytes Hb. apply yields_lift_bind. intros u Hu.
    unfold verify_extent_content in Hu. case_decide; [|done]. apply yields_ret. apply whole_vouched; [done|].
    apply read_exact_at_len in Hb; [lia|apply blen_nonneg|done].
  - apply yields_then. intros _. apply yields_lift_bind. intros bytes _. apply yields_then. intros _.
    apply yields_lift. intros x Hx. apply verify_and_slice_vouched in Hx; [done|lia].
Qed.

(** ** One extent *)

(** The read's extent: at least one block, its offsets in range. *)
Definition er_ok (er : ExtentRead) : Prop :=
  0 ≤ er_payload_block_offset er ∧ 0 ≤ range_start er < range_end er ∧ range_end er < U64.

(** What a successful arm hands back for [er]. *)
Definition er_bytes (er : ExtentRead) (bytes : list Z) : Prop :=
  blen bytes = (range_end er - range_start er) * 4096 ∧ vouched (er_hash er) (er_payload_block_offset er * 4096) bytes.

Lemma er_ok_spans er : er_ok er → block_count er = range_end er - range_start er ∧
  0 ≤ src_start er < src_end er ∧ src_end er - src_start er = (range_end er - range_start er) * 4096.
Proof. intros (? & ? & ?). unfold src_end, block_count, src_start. unwrap. lia. Qed.

Lemma er_bytes_of er bytes :
  er_ok er → blen bytes = src_end er - src_start er ∧ vouched (er_hash er) (src_start er) bytes → er_bytes er bytes.
Proof. intros Hok [Hl Hv]. destruct (er_ok_spans er Hok) as (_ & _ & Hs). split; [lia|done]. Qed.

(** A location's [u64] offset. *)
Definition loc_ok (loc : ExtentLocation) : Prop := 0 ≤ body_offset loc.

Lemma file_body_offset_nonneg layout loc : loc_ok loc → 0 ≤ file_body_offset layout loc.
Proof.
  intros Hl. destruct layout; [|done]. simpl. unfold u64_add. apply Z.mod_pos_bound. lia.
Qed.

Lemma serve_extent_vouched env g ls er loc out :
  er_ok er → loc_ok loc → blen out = src_end er - src_start er →
  yields (serve_extent env g ls er loc out) (er_bytes er).
Proof.
  intros Hok Hloc Ho. destruct (er_ok_spans er Hok) as (_ & Hs & _). unfold serve_extent.
  destruct (inline_data loc) as [idata|].
  - apply yields_lift_bind. intros plain _. apply yields_lift. intros x Hx.
    apply er_bytes_of; [done|]. eapply verify_and_slice_vouched; [lia|done].
  - apply yields_then. intros [layout f]. eapply yields_weaken; [|intros x Hx; exact (er_bytes_of er x Hok Hx)].
    apply serve_body_vouched; [by apply file_body_offset_nonneg|lia|done].
Qed.

Lemma copy_materialised_vouched er plain bytes :
  er_ok er → blake3 plain = er_hash er → copy_materialised er plain = Ok bytes → er_bytes er bytes.
Proof.
  intros Hok Hh H. destruct (er_ok_spans er Hok) as (_ & Hs & _). apply er_bytes_of; [done|].
  apply (verify_and_slice_vouched plain); [lia|]. unfold verify_and_slice, verify_extent_content.
  by rewrite decide_True by done.
Qed.

Lemma materialise_delta_vouched env g ls er dl : er_ok er → yields (materialise_delta env g ls er dl) (er_bytes er).
Proof.
  intros Hok. unfold materialise_delta. destruct (pick_source ls _) as [[opt loc]|]; [|by apply yields_lift; intros ? [=]].
  apply yields_then. intros source. apply yields_then. intros blob. apply yields_lift_bind. intros x _.
  destruct (decide (blake3 x ≠ er_hash er)) as [|Hh%dec_stable]; [by apply yields_lift; intros ? [=]|].
  apply yields_then. intros _. apply yields_lift. intros bytes. by apply copy_materialised_vouched.
Qed.

Lemma try_read_delta_vouched env g ls er :
  er_ok er → yields (try_read_delta_extent env g ls er) (λ found, ∀ bytes, found = Some bytes → er_bytes er bytes).
Proof.
  intros Hok. unfold try_read_delta_extent. destruct (MapLayers.lookup_delta ls _) as [dl|]; [|by apply yields_ret; intros ? [=]].
  assert (yields (_ ← count_dmat ds_record_miss; bytes ← materialise_delta env g ls er dl; mret (Some bytes))
            (λ found, ∀ bytes, found = Some bytes → er_bytes er bytes)) as Hm.
  { apply yields_then. intros _. eapply yields_bind; [by apply materialise_delta_vouched|].
    intros bytes Hb. apply yields_ret. by intros ? [= <-]. }
  apply yields_then. intros _. apply yields_then. intros [x|]; [|exact Hm].
  destruct (decide (blake3 x = er_hash er)); [|exact Hm].
  apply yields_then. intros _. apply yields_lift_bind. intros bytes Hb. apply yields_ret. intros ? [= <-].
  by eapply copy_materialised_vouched.
Qed.

Lemma extent_bytes_vouched env g ls er out :
  er_ok er → (∀ loc, resolve ls er = Some loc → loc_ok loc) → blen out = src_end er - src_start er →
  yields (extent_bytes env g ls er out) (er_bytes er).
Proof.
  intros Hok Hlocs Ho. unfold extent_bytes. destruct (resolve ls er) as [loc|].
  - apply serve_extent_vouched; [done|by apply Hlocs|done].
  - eapply yields_bind; [by apply try_read_delta_vouched|]. intros [bytes|] Hb; [|by apply yields_lift; intros ? [=]].
    apply yields_ret. by apply Hb.
Qed.

(** ** The buffer *)

(** Block [b] of a buffer that starts at [lba]. *)
Definition block (lba b : Z) (out : list Z) : list Z := bytes_in out ((b - lba) * 4096, (b - lba + 1) * 4096).

Definition zeroes : list Z := replicate 4096 0.

(** What a read may hand out for a block the map reads as [c]. *)
Definition block_ok (c : option Cell) (bytes : list Z) : Prop :=
  match c with
  | None => bytes = zeroes
  | Some c => if decide (c_hash c = ZERO_HASH) then bytes = zeroes
              else vouched (c_hash c) (c_offset c * 4096) bytes
  end.

Lemma block_outside lba b out s e bytes :
  0 ≤ s ≤ e → e * 4096 ≤ blen out → blen bytes = (e - s) * 4096 → lba ≤ b → ¬ (s ≤ b - lba < e) →
  block lba b (overwrite out (s * 4096, e * 4096) bytes) = block lba b out.
Proof.
  intros Hs He Hl Hb Hn. apply at_ext. intros i Hi. unfold block. rewrite !at_bytes_in by lia.
  case_decide; [|done]. rewrite at_overwrite by lia. by rewrite decide_False by lia.
Qed.

Lemma block_inside lba b out s e bytes :
  0 ≤ s ≤ e → e * 4096 ≤ blen out → blen bytes = (e - s) * 4096 → s ≤ b - lba < e →
  block lba b (overwrite out (s * 4096, e * 4096) bytes) =
  bytes_in bytes ((b - lba - s) * 4096, (b - lba - s + 1) * 4096).
Proof.
  intros Hs He Hl Hb. apply at_ext. intros i Hi. unfold block. rewrite !at_bytes_in by lia.
  case_decide; case_decide; try lia; [|done]. rewrite at_overwrite by lia. rewrite decide_True by lia. f_equal. lia.
Qed.

Lemma blen_zero_fill out s e : 0 ≤ s ≤ e → e ≤ blen out → blen (zero_fill out s e) = blen out.
Proof. intros Hs He. apply blen_overwrite; [done|done|]. unfold blen. rewrite length_replicate. lia. Qed.

Lemma block_zero_fill lba b out s e :
  0 ≤ s ≤ e → e * 4096 ≤ blen out → lba ≤ b →
  block lba b (zero_fill out (s * 4096) (e * 4096)) = if decide (s ≤ b - lba < e) then zeroes else block lba b out.
Proof.
  intros Hs He Hb. unfold zero_fill.
  assert (blen (replicate (Z.to_nat (e * 4096 - s * 4096)) 0) = (e - s) * 4096) as Hl
    by (unfold blen; rewrite length_replicate; lia).
  case_decide as Hin; [|by apply block_outside].
  rewrite block_inside by lia. apply at_ext. intros i Hi. rewrite at_bytes_in by lia. unfold zeroes.
  rewrite !at_replicate. repeat case_decide; try lia; done.
Qed.

(** ** The loop *)

(** Blocks up to [cursor] are as the map reads them. *)
Definition filled (lba cursor : Z) (g : Z → option Cell) (out : list Z) : Prop :=
  ∀ b, lba ≤ b < cursor → block_ok (g b) (block lba b out).

Lemma filled_gap lba cursor c' g out :
  0 ≤ lba ≤ cursor → cursor ≤ c' → c' < U64 → (c' - lba) * 4096 ≤ blen out → filled lba cursor g out →
  (∀ b, cursor ≤ b < c' → g b = None) →
  let out' := if decide (cursor < c') then zero_fill out (u64_sub cursor lba * 4096) (u64_sub c' lba * 4096) else out in
  blen out' = blen out ∧ filled lba c' g out'.
Proof.
  intros Hl Hc HU Ho Hf Hg. cbv zeta. case_decide.
  - unwrap. split; [apply blen_zero_fill; lia|]. intros b Hb. rewrite block_zero_fill by lia.
    case_decide; [|by apply Hf; lia]. by rewrite Hg by lia.
  - split; [done|]. intros b Hb. apply Hf. lia.
Qed.

Lemma read_step_filled env lg ls lba cursor out er g :
  er_ok er → (∀ loc, resolve ls er = Some loc → loc_ok loc) → 0 ≤ lba ≤ cursor → cursor ≤ range_start er →
  (range_end er - lba) * 4096 ≤ blen out → filled lba cursor g out →
  (∀ b, cursor ≤ b < range_start er → g b = None) →
  (∀ b, er_covers er b → g b = Some (er_cell er b)) →
  yields (read_step env lg ls lba cursor out er) (λ out', blen out' = blen out ∧ filled lba (range_end er) g out').
Proof.
  intros Hok Hlocs Hlba Hcur Hout Hf Hgap Hg. pose proof Hok as (Ho & Hr & HU). unfold read_step.
  destruct (filled_gap lba cursor (range_start er) g out) as [Hlen0 Hf0]; [lia|lia|lia|lia|done|done|].
  cbv zeta in Hlen0, Hf0. set (out0 := if decide (cursor < range_start er) then _ else out) in *. clearbody out0.
  assert (u64_sub (range_start er) lba = range_start er - lba) as Hs by (by unwrap).
  assert (u64_sub (range_end er) lba = range_end er - lba) as He by (by unwrap). rewrite Hs, He.
  case_decide as Hz.
  { apply yields_ret. split; [by rewrite blen_zero_fill by lia|]. intros b Hb. rewrite block_zero_fill by lia.
    case_decide; [|apply Hf0; lia]. rewrite Hg by (unfold er_covers; lia). unfold block_ok, er_cell. cbn [c_hash].
    by rewrite decide_True. }
  destruct (er_ok_spans er Hok) as (Hcnt & Hsp & Hspan). rewrite Hcnt.
  replace ((range_start er - lba) * 4096 + (range_end er - range_start er) * 4096) with ((range_end er - lba) * 4096) by lia.
  eapply yields_bind; [apply extent_bytes_vouched; [done|done|rewrite blen_bytes_in; lia]|].
  intros bytes [Hl Hv]. apply yields_ret. split; [by rewrite blen_overwrite by lia|]. intros b Hb.
  destruct (decide (range_start er ≤ b)).
  - rewrite block_inside by lia. rewrite Hg by (unfold er_covers; lia). unfold block_ok, er_cell. cbn [c_hash c_offset].
    rewrite decide_False by done.
    replace ((er_payload_block_offset er + (b - range_start er)) * 4096)
      with (er_payload_block_offset er * 4096 + (b - lba - (range_start er - lba)) * 4096) by lia.
    apply vouched_sub; [done|lia..].
  - rewrite block_outside by lia. apply Hf0. lia.
Qed.

Lemma read_loop_filled env lg ls lba ers cursor end_ out g :
  reads_sorted cursor end_ ers → Forall er_ok ers →
  (∀ er loc, er ∈ ers → resolve ls er = Some loc → loc_ok loc) →
  0 ≤ lba ≤ cursor → (end_ - lba) * 4096 ≤ blen out → filled lba cursor g out →
  (∀ b, cursor ≤ b → g b = read_at ers b) →
  yields (read_loop env lg ls lba cursor out ers) (λ '(out', cursor'),
    cursor ≤ cursor' ≤ end_ ∧ blen out' = blen out ∧ filled lba cursor' g out' ∧ ∀ b, cursor' ≤ b → g b = None).
Proof.
  revert cursor out. induction ers as [|er ers IH]; intros cursor out Hs Hok Hlocs Hlba Hout Hf Hg; cbn [read_loop].
  { apply yields_ret. simpl in Hs. by split_and!. }
  destruct Hs as (Hc & Hr & Hs). apply Forall_cons in Hok as [Hok Hoks]. pose proof (reads_sorted_le _ _ _ Hs).
  eapply yields_bind.
  { apply (read_step_filled env lg ls lba cursor out er g); [done|intros loc; apply Hlocs; by left|lia|lia|lia|done|..].
    - intros b Hb. rewrite Hg by lia. cbn [read_at]. rewrite decide_False by (unfold er_covers; lia).
      destruct (read_at ers b) as [c|] eqn:E; [|done]. eapply read_at_bounds in E; [|done]. lia.
    - intros b Hb. unfold er_covers in Hb. rewrite Hg by lia. cbn [read_at]. by rewrite decide_True. }
  intros out1 [Hl1 Hf1]. eapply yields_weaken.
  { apply (IH (range_end er) out1); [done|done|intros; eapply Hlocs; [by right|done]|lia|lia|done|].
    intros b Hb. rewrite Hg by lia. cbn [read_at]. by rewrite decide_False by (unfold er_covers; lia). }
  intros [out' c'] (? & ? & ? & ?). split_and!; [lia|lia|lia|done|done].
Qed.

(** ** The map's reads *)

Lemma top_view_offset N ms b c : Forall (lm_wf N) ms → top_view ms b = Some c → 0 ≤ c_offset c.
Proof.
  induction 1 as [|m ms Hm _ IH]; [done|]. unfold top_view. cbn [find_map].
  destruct (view m b) eqn:E; [|exact IH]. intros [= ->].
  apply (view_Some N) in E as (k & e & He & Hk & ->); [|done].
  apply (wf_entry _ _ Hm) in He as (? & ? & ? & ? & ?). cbn. lia.
Qed.

Lemma reads_ok N ls s t :
  layers_ok N ls → 0 ≤ s < t → t ≤ N → Forall er_ok (extents_in_range ls s t).
Proof.
  intros Hls Hst Ht. destruct (rr_exact (RangeReader := map_layers_reader) N ls s t Hls Hst Ht) as [Hs Hv].
  cbn [rr_extents rr_view map_layers_reader] in *. apply Forall_forall. intros er Hin.
  pose proof (reads_bounds _ _ _ _ Hs Hin) as [H1 H2].
  destruct (read_at_covered _ _ _ er (range_start er) Hs Hin) as [H3 _]; [unfold er_covers; lia|]. rewrite Hv in H3 by lia.
  pose proof (top_view_offset N _ _ _ (layers_ok_all N ls Hls) H3) as Ho. cbn in Ho.
  pose proof (wf_bound _ _ (lo_base _ _ Hls)). split_and!; lia.
Qed.

(** Every location the layers can name for an extent has its [u64] offset. *)
Definition locations_ok (ls : MapLayers) : Prop := ∀ er loc, resolve ls er = Some loc → loc_ok loc.

Lemma read_extents_filled N env g ls lba out :
  layers_ok N ls → locations_ok ls → 0 ≤ lba → blen out mod 4096 = 0 →
  0 < blen out / 4096 < U32 → lba + blen out / 4096 ≤ N →
  yields (read_extents env g ls lba out) (λ out',
    blen out' = blen out ∧ filled lba (lba + blen out / 4096) (layered_view ls) out').
Proof.
  intros Hls Hlocs Hlba Hmod Hn HN. pose proof (wf_bound _ _ (lo_base _ _ Hls)) as HU.
  pose proof (Z.div_mod (blen out) 4096 ltac:(lia)) as Hdiv. rewrite Hmod in Hdiv.
  set (n := blen out / 4096) in *. assert (blen out = n * 4096) as Hlen by lia. clear Hdiv Hmod.
  unfold read_extents. fold n. assert (as_u32 n = n) as -> by (unwrap; lia).
  assert (u64_add lba n = lba + n) as -> by (unwrap; lia). cbv zeta.
  destruct (rr_exact (RangeReader := map_layers_reader) N ls lba (lba + n) Hls ltac:(lia) HN) as [Hs Hv].
  cbn [rr_extents rr_view map_layers_reader] in *.
  set (view' b := if decide (b < lba + n) then layered_view ls b else None).
  assert (∀ out', filled lba (lba + n) view' out' → filled lba (lba + n) (layered_view ls) out') as Hview.
  { intros out' Hf b Hb. specialize (Hf b Hb). unfold view' in Hf. by rewrite decide_True in Hf by lia. }
  eapply yields_bind.
  { apply (read_loop_filled env g ls lba _ lba (lba + n) out view'); [done|by apply (reads_ok N); [done|lia|]| |lia|lia| |].
    - intros er loc _. apply Hlocs.
    - intros b Hb. lia.
    - intros b Hb. unfold view'. case_decide; [by rewrite Hv by lia|]. symmetry.
      apply (read_at_outside _ _ _ _ Hs). lia. }
  intros [out' c'] (Hc & Hl & Hf & Hg). apply yields_ret.
  destruct (filled_gap lba c' (lba + n) view' out') as [Hl2 Hf2]; [lia|lia|lia|lia|done|intros b Hb; apply Hg; lia|].
  cbv zeta in Hl2, Hf2. case_decide; [|split; [lia|by apply Hview]].
  assert (u64_sub (lba + n) lba * 4096 = blen out') as He by (unwrap; lia). rewrite He in Hl2, Hf2.
  split; [lia|by apply Hview].
Qed.

(** ** Properties *)

(** C3: a read that succeeds is verified. Whatever the descriptor cache, the
    segment files, the sidecars and the fetcher hold, the buffer keeps its
    length and each of its blocks is as the layered map reads it: zeros where
    nothing was written or the block was zeroed, and otherwise bytes that hang
    under the content hash the map names, at the block's offset in it. *)
Theorem read_verified N env g ls lba out s s' out' :
  layers_ok N ls → locations_ok ls → 0 ≤ lba → blen out mod 4096 = 0 →
  0 < blen out / 4096 < U32 → lba + blen out / 4096 ≤ N →
  read_extents env g ls lba out s = (s', Ok out') →
  blen out' = blen out ∧
  ∀ b, lba ≤ b < lba + blen out / 4096 → block_ok (layered_view ls b) (block lba b out').
Proof. intros H1 H2 H3 H4 H5 H6. by apply (read_extents_filled N env g ls lba out H1 H2 H3 H4 H5 H6). Qed.
End spec.

(** A one-segment volume: two blocks of data at 5, a zeroed block at 8. *)
Definition toy_dict : ZstdDict := {| zstd_dict_decompress _ blob _ := Ok blob |}.
Definition body_sample : list Z := replicate (Z.to_nat 4096) 3 ++ replicate (Z.to_nat 4096) 4.
Definition read_layers : MapLayers :=
  let h := @blake3 toy_blake3 body_sample in
  mkLayers
    (mkMaps (LbaMap.insert (LbaMap.insert lm_new 5 2 h 1) 8 1 ZERO_HASH 1)
       (ExtentIndex.insert ei_new h (mkExtentLocation 1 0 8192 CodecNone Local 0 None)))
    [] maps_empty.
Definition read_env : ReadEnv :=
  mkReadEnv (λ _ _ _, Ok (mkPath 0 InOpen 1)) (λ _, Ok 1) (λ _, Err OtherError)
    (λ _, body_sample) (λ _, []).
Definition read_state : ReadState :=
  mkReadState (fc_new 4) ∅ [] (mkReadStats 0 0 0) (mkDmatStats 0 0 0 0 0 0 0) [] [].

Lemma read_layers_ok : layers_ok 1000 read_layers ∧ locations_ok read_layers.
Proof.
  split.
  - split; [|done|by apply lm_new_wf].
    repeat (apply insert_inner_view; [|lia..]). by apply lm_new_wf.
  - intros er loc. unfold resolve. assert (MapLayers.journal_is_empty read_layers = true) as -> by done.
    unfold MapLayers.lookup_extent. cbn [all_layers upper delta frozen base read_layers find_map map rev app].
    unfold ExtentIndex.lookup. cbn [maps_empty ei_new ExtentIndex.inner extent_index ExtentIndex.insert with_deltas with_inner].
    rewrite lookup_empty. destruct (_ !! _) as [l|] eqn:E; [|done].
    apply lookup_insert_Some in E as [[_ <-]|[_ E]]; [by intros [= <-]|by rewrite lookup_empty in E].
Qed.

Lemma read_verified_witness :
  let '(_, r) := @read_extents toy_blake3 rle_lz4 rle_codec toy_tree toy_zstd toy_dict read_env 0 read_layers 4
                   (replicate (Z.to_nat (5 * 4096)) 9) read_state in
  match r with
  | Ok out => out = zeroes ++ body_sample ++ zeroes ++ zeroes ∧
      ∀ b, 4 ≤ b < 9 → @block_ok toy_blake3 toy_tree (layered_view read_layers b) (block 4 b out)
  | Err _ => False
  end.
Proof.
  destruct (@read_extents toy_blake3 rle_lz4 rle_codec toy_tree toy_zstd toy_dict read_env 0 read_layers 4
              (replicate (Z.to_nat (5 * 4096)) 9) read_state) as [s' r] eqn:E.
  assert (match r with Ok out => bool_decide (out = zeroes ++ body_sample ++ zeroes ++ zeroes) | Err _ => false end = true) as Hr.
  { change r with (s', r).2. rewrite <-E. vm_compute. reflexivity. }
  destruct r as [out|]; [|discriminate]. apply bool_decide_eq_true in Hr. split; [exact Hr|].
  pose proof (@read_verified toy_blake3 rle_lz4 rle_codec toy_tree toy_zstd toy_dict 1000 read_env 0 read_layers 4
              (replicate (Z.to_nat (5 * 4096)) 9) read_state s' out
              (proj1 read_layers_ok) (proj2 read_layers_ok) ltac:(lia)) as H.
  assert (blen (replicate (Z.to_nat (5 * 4096)) 9) = 20480) as Hl by (vm_compute; reflexivity).
  rewrite Hl in H. intros b Hb. destruct H as [_ H]; [reflexivity|split; reflexivity|discriminate|exact E|]. exact (H b Hb).
Defined.
