(* ===== verification/FileCacheSpec.v ===== *)
(** * The descriptor cache is a lossy map

    However its ring fills, turns and empties, a hit is what the last insertion
    of that segment in the current generation put there. *)

From stdpp Require Import base gmap list.
From S2P Require Import Prelude FileCache.
Open Scope Z_scope.

(** ** The map it approximates *)

Inductive cache_op :=
  | OpGet (g : Z) (id : Ulid)
  | OpInsert (g : Z) (id : Ulid) (layout : SegmentLayout) (file : FileRef)
  | OpEvict (id : Ulid)
  | OpClear
  | OpCapacity (capacity : nat).

Definition fc_step (op : cache_op) (c : FileCache) : option (FileCache * option (SegmentLayout * FileRef)) :=
  match op with
  | OpGet g id => Some (fc_get g id c)
  | OpInsert g id layout file => (λ c, (c, None)) <$> fc_insert g id layout file c
  | OpEvict id => Some (fc_evict id c, None)
  | OpClear => Some (fc_clear c, None)
  | OpCapacity n => Some (fc_set_capacity n c, None)
  end.

Record Ideal := mkIdeal { id_gen : Z; id_open : gmap Ulid (SegmentLayout * FileRef) }.

Definition ideal_advance (g : Z) (i : Ideal) : Ideal :=
  if decide (id_gen i < g) then mkIdeal g ∅ else i.

Definition ideal_step (op : cache_op) (i : Ideal) : Ideal * option (SegmentLayout * FileRef) :=
  match op with
  | OpGet g id =>
      let i := ideal_advance g i in (i, if decide (g < id_gen i) then None else id_open i !! id)
  | OpInsert g id layout file =>
      let i := ideal_advance g i in
      (if decide (g < id_gen i) then i else mkIdeal (id_gen i) (<[id := (layout, file)]> (id_open i)), None)
  | OpEvict id => (mkIdeal (id_gen i) (delete id (id_open i)), None)
  | OpClear | OpCapacity _ => (mkIdeal (id_gen i) ∅, None)
  end.

Fixpoint fc_run (ops : list cache_op) (c : FileCache)
    : option (FileCache * list (option (SegmentLayout * FileRef))) :=
  match ops with
  | [] => Some (c, [])
  | op :: ops => '(c, a) ← fc_step op c; '(c, rest) ← fc_run ops c; Some (c, a :: rest)
  end.

Fixpoint ideal_run (ops : list cache_op) (i : Ideal) : Ideal * list (option (SegmentLayout * FileRef)) :=
  match ops with
  | [] => (i, [])
  | op :: ops => let '(i, a) := ideal_step op i in let '(i, rest) := ideal_run ops i in (i, a :: rest)
  end.

(** ** What the slots hold *)

Definition entry (s : FileCacheSlot) : Ulid * (SegmentLayout * FileRef) :=
  (fs_segment_id s, (fs_layout s, fs_file s)).

(** The slots without their referenced bits. *)
Definition label (s : option FileCacheSlot) : option (Ulid * (SegmentLayout * FileRef)) := entry <$> s.

Definition labels (l : list (option FileCacheSlot)) : list (option (Ulid * (SegmentLayout * FileRef))) :=
  label <$> l.

Definition entries (l : list (option FileCacheSlot)) : list (Ulid * (SegmentLayout * FileRef)) :=
  omap id (labels l).

Record cached (c : FileCache) (i : Ideal) : Prop := {
  ca_gen : layout_gen c = id_gen i;
  ca_hand : (hand c < length (slots c))%nat ∨ slots c = [];
  ca_nodup : NoDup (entries (slots c)).*1;
  ca_held : ∀ id x, (id, x) ∈ entries (slots c) → id_open i !! id = Some x
}.

Lemma entries_app l1 l2 : entries (l1 ++ l2) = entries l1 ++ entries l2.
Proof. unfold entries, labels. by rewrite fmap_app, omap_app. Qed.

Lemma entries_cons s l : entries (s :: l) = match s with Some s => [entry s] | None => [] end ++ entries l.
Proof. by destruct s. Qed.

Lemma elem_of_entries x l : x ∈ entries l ↔ ∃ s, Some s ∈ l ∧ x = entry s.
Proof.
  induction l as [|s l IH]; [set_solver|]. rewrite entries_cons, elem_of_app, IH.
  setoid_rewrite elem_of_cons. destruct s as [s|]; set_solver.
Qed.

Lemma entries_none {A} (l : list A) : entries (map (λ _, None) l) = [].
Proof. induction l; [done|]. exact IHl. Qed.

Lemma entries_replicate n : entries (replicate n None) = [].
Proof. induction n; [done|]. exact IHn. Qed.

(** Slots with the same labels split the same way. *)
Lemma entries_split l l' k :
  labels l = labels l' → entries (take k l) = entries (take k l') ∧ entries (drop k l) = entries (drop k l').
Proof. unfold entries, labels. intros Hl. by rewrite !fmap_take, !fmap_drop, Hl. Qed.

Lemma entries_middle l k s :
  (k < length l)%nat →
  entries (<[k := s]> l) = entries (take k l) ++ entries [s] ++ entries (drop (S k) l).
Proof. intros Hk. by rewrite insert_take_drop, entries_app, entries_cons, entries_cons, app_nil_r by done. Qed.

(** ** First matches *)

Lemma update_first_spec p f l :
  match update_first p f l with
  | Some l' => ∃ k s, l !! k = Some s ∧ p s = true ∧ l' = <[k := f s]> l ∧ List.find p l = Some s
  | None => List.find p l = None ∧ ∀ s, s ∈ l → p s = false
  end.
Proof.
  induction l as [|s l IH]; simpl; [by split; [|intros s ?%not_elem_of_nil]|]. destruct (p s) eqn:Hp.
  - by exists 0%nat, s.
  - destruct (update_first p f l) as [l'|]; simpl.
    + destruct IH as (k & s' & ? & ? & -> & ?). by exists (S k), s'.
    + destruct IH as [? IH]. split; [done|]. intros s' [->|Hs]%elem_of_cons; [done|]. by apply IH.
Qed.

Lemma holds_true id s : holds id s = true → ∃ slot, s = Some slot ∧ fs_segment_id slot = id.
Proof. destruct s as [slot|]; [|done]. intros ?%bool_decide_eq_true. by exists slot. Qed.

Lemma not_held id l : (∀ s, s ∈ l → holds id s = false) → id ∉ (entries l).*1.
Proof.
  intros Hn (x & -> & (s & Hs & ->)%elem_of_entries)%list_elem_of_fmap.
  specialize (Hn _ Hs). by apply bool_decide_eq_false in Hn.
Qed.

(** ** Emptying *)

Lemma cached_none l h g (i : Ideal) :
  (h < length l)%nat ∨ l = [] → entries l = [] → id_gen i = g → cached (mkFileCache l h g) i.
Proof.
  intros Hh He Hg. split; cbn [layout_gen hand slots]; rewrite ?He; [done|done|constructor|].
  by intros id x ?%not_elem_of_nil.
Qed.

Lemma cached_replicate n g i : id_gen i = g → cached (mkFileCache (replicate n None) 0 g) i.
Proof.
  apply cached_none; [|apply entries_replicate]. rewrite length_replicate. destruct n; [by right|left; lia].
Qed.

Lemma cached_cleared c i o : cached c i → cached (fc_clear c) (mkIdeal (id_gen i) o).
Proof.
  intros [Hg Hh _ _]. apply cached_none; [|apply entries_none|done]. rewrite length_map.
  destruct Hh as [?|Hs]; [by left|right; by rewrite Hs].
Qed.

Lemma cached_advance g c i : cached c i → cached (fc_advance g c) (ideal_advance g i).
Proof.
  intros Hc. unfold fc_advance, ideal_advance. rewrite (ca_gen _ _ Hc). case_decide; [|done].
  pose proof (cached_cleared c i ∅ Hc) as [_ Hh _ _].
  apply cached_none; [done|apply entries_none|done].
Qed.

Lemma length_advance g c : length (slots (fc_advance g c)) = length (slots c).
Proof. unfold fc_advance. case_decide; [apply length_map|done]. Qed.

(** ** Replacing one slot *)

Lemma cached_replace c i h k l slot :
  cached c i → labels l = labels (slots c) → (k < length (slots c))%nat → (h < length (slots c))%nat →
  fs_segment_id slot ∉ (entries (take k (slots c)) ++ entries (drop (S k) (slots c))).*1 →
  cached (mkFileCache (<[k := Some slot]> l) h (layout_gen c))
    (mkIdeal (id_gen i) (<[fs_segment_id slot := (fs_layout slot, fs_file slot)]> (id_open i))).
Proof.
  intros [Hg _ Hn Ho] Hl Hk Hh Hni.
  assert (length l = length (slots c)) as Hlen.
  { apply (f_equal length) in Hl. unfold labels in Hl. by rewrite !length_fmap in Hl. }
  assert (entries (<[k := Some slot]> l) =
    entries (take k (slots c)) ++ entry slot :: entries (drop (S k) (slots c))) as He.
  { rewrite entries_middle by lia. destruct (entries_split _ _ k Hl) as [-> _].
    by destruct (entries_split _ _ (S k) Hl) as [_ ->]. }
  assert (entries (take k (slots c)) ++ entries (drop (S k) (slots c)) `sublist_of` entries (slots c)) as Hsub.
  { rewrite <-(take_drop_middle (slots c) k (default None (slots c !! k))) at 3.
    - rewrite entries_app, entries_cons. apply sublist_app; [done|by apply sublist_inserts_l].
    - destruct (lookup_lt_is_Some_2 _ _ Hk) as [x Hx]. by rewrite Hx. }
  split; cbn [layout_gen hand slots id_gen id_open]; [done| | |]; rewrite ?He.
  - left. by rewrite length_insert, Hlen.
  - rewrite <-Permutation_middle. cbn [fmap list_fmap]. constructor; [done|].
    eapply sublist_NoDup; [exact Hn|]. by apply fmap_sublist.
  - intros id x. rewrite <-Permutation_middle. intros [[= -> ->]|Hin]%elem_of_cons; [by rewrite lookup_insert_eq|].
    rewrite lookup_insert_ne; [|intros <-; by apply Hni, (list_elem_of_fmap_2 fst _ (_, x))].
    apply Ho. by eapply elem_of_sublist.
Qed.

Lemma held_once c i k slot :
  cached c i → slots c !! k = Some (Some slot) →
  fs_segment_id slot ∉ (entries (take k (slots c)) ++ entries (drop (S k) (slots c))).*1.
Proof.
  intros [_ _ Hn _] Hk. rewrite <-(take_drop_middle _ _ _ Hk), entries_app, entries_cons in Hn.
  cbn [app] in Hn. rewrite <-Permutation_middle in Hn. by apply NoDup_cons in Hn as [? _].
Qed.

Lemma not_held_around id (l : list (option FileCacheSlot)) k :
  (∀ s, s ∈ l → holds id s = false) → id ∉ (entries (take k l) ++ entries (drop (S k) l)).*1.
Proof.
  intros Hn. rewrite <-entries_app. apply not_held.
  intros s [Hs|Hs]%elem_of_app; apply Hn; eapply elem_of_sublist; [done|apply sublist_take|done|apply sublist_drop].
Qed.

(** ** The CLOCK sweep *)

Definition is_referenced (s : option FileCacheSlot) : bool :=
  match s with Some s => fs_referenced s | None => false end.
Definition referenced (l : list (option FileCacheSlot)) : nat := length (List.filter is_referenced l).

Lemma referenced_le l : (referenced l ≤ length l)%nat.
Proof. apply List.filter_length_le. Qed.

Lemma referenced_clear l k s :
  l !! k = Some (Some s) → fs_referenced s = true →
  referenced l = S (referenced (<[k := Some (touch s false)]> l)).
Proof.
  intros Hk Hr. rewrite <-(take_drop_middle _ _ _ Hk) at 1. rewrite insert_take_drop by by eapply lookup_lt_Some.
  unfold referenced. rewrite !List.filter_app, !length_app. simpl. rewrite Hr. simpl. lia.
Qed.

Lemma labels_touch l k s b : l !! k = Some (Some s) → labels (<[k := Some (touch s b)]> l) = labels l.
Proof.
  intros Hk. unfold labels. rewrite list_fmap_insert. apply list_insert_id. by rewrite list_lookup_fmap, Hk.
Qed.

(** Every turn clears a bit, so the sweep takes a slot before its fuel ends. *)
Lemma clock_sweep_spec fuel slot c :
  (∀ s, s ∈ slots c → is_Some s) → (hand c < length (slots c))%nat → (referenced (slots c) < fuel)%nat →
  ∃ k l h, clock_sweep fuel slot c = Some (mkFileCache (<[k := Some slot]> l) h (layout_gen c)) ∧
    labels l = labels (slots c) ∧ (k < length (slots c))%nat ∧ (h < length (slots c))%nat.
Proof.
  revert c. induction fuel as [|fuel IH]; intros c Hf Hh Hr; [lia|]. cbn [clock_sweep].
  destruct (lookup_lt_is_Some_2 _ _ Hh) as [s0 Hs0]. rewrite Hs0.
  destruct (Hf s0) as [s ->]; [by eapply list_elem_of_lookup_2|].
  assert (Nat.modulo (hand c + 1) (length (slots c)) < length (slots c))%nat as Hm
    by (apply Nat.mod_upper_bound; lia).
  destruct (fs_referenced s) eqn:Href; [|by exists (hand c), (slots c), (Nat.modulo (hand c + 1) (length (slots c)))].
  destruct (IH (mkFileCache (<[hand c := Some (touch s false)]> (slots c)) (Nat.modulo (hand c + 1) (length (slots c))) (layout_gen c)))
    as (k & l & h & Hc & Hl & Hk & Hh'); cbn [slots hand layout_gen] in *; rewrite ?length_insert in *.
  - intros x Hx. apply list_elem_of_lookup in Hx as [i [(_ & <- & _)|[_ Hi]]%list_lookup_insert_Some]; [done|].
    eapply Hf, list_elem_of_lookup_2, Hi.
  - done.
  - rewrite (referenced_clear _ _ _ Hs0 Href) in Hr. lia.
  - exists k, l, h. split; [done|]. by rewrite Hl, (labels_touch _ _ _ _ Hs0).
Qed.

(** ** Steps *)

Lemma fc_get_spec g id c i :
  cached c i →
  cached (fc_get g id c).1 (ideal_advance g i) ∧ length (slots (fc_get g id c).1) = length (slots c) ∧
  ∀ x, (fc_get g id c).2 = Some x → (ideal_step (OpGet g id) i).2 = Some x.
Proof.
  intros Hc%(cached_advance g). rewrite <-(length_advance g c). unfold fc_get. cbn [ideal_step snd].
  rewrite <-(ca_gen _ _ Hc). generalize dependent (fc_advance g c). generalize (ideal_advance g i). clear c i.
  intros i c Hc. destruct (decide (g < layout_gen c)); [by split_and!|].
  pose proof (update_first_spec (holds id) (fmap (λ s, touch s true)) (slots c)) as Hu.
  destruct (update_first _ _ _) as [l'|].
  2: { destruct Hu as [-> _]. by split_and!. }
  destruct Hu as (k & s & Hk & Hs & -> & ->). apply holds_true in Hs as (slot & -> & <-). cbn [fst snd slots].
  rewrite length_insert. split; [|split; [done|]].
  - destruct Hc as [Hg Hh Hn Ho]. change (fmap (λ s, touch s true) (Some slot)) with (Some (touch slot true)).
    assert (entries (<[k := Some (touch slot true)]> (slots c)) = entries (slots c)) as He
      by (unfold entries; by rewrite (labels_touch _ _ _ _ Hk)).
    split; cbn [layout_gen hand slots fmap option_fmap option_map]; [done| |by rewrite He|by rewrite He].
    left. rewrite length_insert. destruct Hh as [?|Hs]; [done|]. by rewrite Hs in Hk.
  - intros x [= <-]. eapply (ca_held _ _ Hc). apply elem_of_entries. exists slot. split; [|done].
    by eapply list_elem_of_lookup_2.
Qed.

Lemma fc_put_spec slot c i :
  cached c i → slots c ≠ [] →
  ∃ k l h, fc_put slot c = Some (mkFileCache (<[k := Some slot]> l) h (layout_gen c)) ∧
    labels l = labels (slots c) ∧ (k < length (slots c))%nat ∧ (h < length (slots c))%nat ∧
    fs_segment_id slot ∉ (entries (take k (slots c)) ++ entries (drop (S k) (slots c))).*1.
Proof.
  intros Hc Hne. pose proof (ca_hand _ _ Hc) as [Hh|]; [|done]. unfold fc_put.
  pose proof (update_first_spec (holds (fs_segment_id slot)) (λ _, Some slot) (slots c)) as H1.
  destruct (update_first _ _ _) as [l1|].
  { destruct H1 as (k & s & Hk & (t & -> & Ht)%holds_true & -> & _). exists k, (slots c), (hand c).
    split_and!; [done..|by eapply lookup_lt_Some|done|]. rewrite <-Ht. by eapply held_once. }
  destruct H1 as [_ Hn]. pose proof (update_first_spec is_free (λ _, Some slot) (slots c)) as H2.
  destruct (update_first is_free _ _) as [l2|].
  { destruct H2 as (k & s & Hk & _ & -> & _). exists k, (slots c), (hand c).
    split_and!; [done..|by eapply lookup_lt_Some|done|by apply not_held_around]. }
  destruct H2 as [_ Hf].
  destruct (clock_sweep_spec (S (length (slots c))) slot c) as (k & l & h & -> & ? & ? & ?).
  - intros s Hs%Hf. unfold is_free in Hs. apply negb_false_iff, bool_decide_eq_true in Hs. done.
  - done.
  - pose proof (referenced_le (slots c)). lia.
  - exists k, l, h. split_and!; [done..|by apply not_held_around].
Qed.

(** An insertion never panics, keeps the ring's size, and the next get in its
    generation finds it. *)
Lemma fc_insert_spec g id layout file c i :
  cached c i →
  ∃ c', fc_insert g id layout file c = Some c' ∧
    cached c' (ideal_step (OpInsert g id layout file) i).1 ∧ length (slots c') = length (slots c) ∧
    (layout_gen c ≤ g → slots c ≠ [] → layout_gen c' = g ∧ Some (mkSlot id layout file true) ∈ slots c').
Proof.
  intros Hc. pose proof (cached_advance g _ _ Hc) as Ha. rewrite <-(length_advance g c).
  unfold fc_insert. cbn [ideal_step fst].
  assert (layout_gen c ≤ g → layout_gen (fc_advance g c) = g) as Hge
    by (unfold fc_advance; case_decide; simpl; lia).
  assert (slots (fc_advance g c) = [] → slots c = []) as Hnil
    by (unfold fc_advance; case_decide; simpl; [by destruct (slots c)|done]).
  set (a := fc_advance g c) in *. clearbody a. rewrite <-(ca_gen _ _ Ha).
  destruct (decide (g < layout_gen a)) as [Hg|Hg].
  { rewrite bool_decide_eq_true_2 by done. exists a. split_and!; [done..|]. intros ?%Hge. lia. }
  rewrite (bool_decide_eq_false_2 (g < layout_gen a)) by done. cbn [orb].
  destruct (decide (slots a = [])) as [He|He].
  { rewrite bool_decide_eq_true_2 by done. exists a. split_and!; [done| |done|naive_solver].
    destruct Ha as [Ha1 Ha2 _ _]. split; [done|done| |]; rewrite He; [constructor|]. by intros ?? ?%not_elem_of_nil. }
  rewrite bool_decide_eq_false_2 by done.
  destruct (fc_put_spec (mkSlot id layout file true) a _ Ha He) as (k & l & h & -> & Hl & Hk & Hh & Hni).
  assert (length l = length (slots a)) as Hlen.
  { apply (f_equal length) in Hl. unfold labels in Hl. by rewrite !length_fmap in Hl. }
  eexists; split_and!; [done| | |].
  - pose proof (cached_replace a _ h k l (mkSlot id layout file true) Ha Hl Hk Hh Hni) as Hr.
    by rewrite <-(ca_gen _ _ Ha) in Hr.
  - cbn [slots]. by rewrite length_insert.
  - intros Hle _. split; [by apply Hge|]. cbn [slots].
    apply list_elem_of_lookup. exists k. rewrite list_lookup_insert_eq by lia. done.
Qed.

Lemma fc_evict_spec id c i :
  cached c i → cached (fc_evict id c) (mkIdeal (id_gen i) (delete id (id_open i))).
Proof.
  intros [Hg Hh Hn Ho]. unfold fc_evict.
  assert (entries (map (λ s, if holds id s then None else s) (slots c)) =
          List.filter (λ x, negb (bool_decide (x.1 = id))) (entries (slots c))) as He.
  { clear. induction (slots c) as [|[s|] l IH]; [done| |exact IH]. simpl.
    rewrite !entries_cons, IH. simpl. by case_bool_decide. }
  split; cbn [layout_gen hand slots id_gen id_open]; [done| | |]; rewrite ?He.
  - rewrite length_map. destruct Hh as [?|Hs]; [by left|right; by rewrite Hs].
  - clear -Hn. induction (entries (slots c)) as [|x l IH]; [constructor|]. simpl in *.
    apply NoDup_cons in Hn as [Hni Hn]. case_bool_decide; simpl; [by apply IH|].
    constructor; [|by apply IH]. intros (y & Hy & Hin)%list_elem_of_fmap. apply Hni.
    apply list_elem_of_fmap. exists y. split; [done|].
    by apply list_elem_of_In, filter_In in Hin as [Hin%list_elem_of_In _].
  - intros id' x Hin. apply list_elem_of_In, filter_In in Hin as [Hin%list_elem_of_In Hb].
    apply negb_true_iff, bool_decide_eq_false in Hb. rewrite lookup_delete_ne by done. by apply Ho.
Qed.

Definition capacity_after (op : cache_op) (n : nat) : nat :=
  match op with OpCapacity n => n | _ => n end.

Lemma fc_step_spec op c i :
  cached c i →
  ∃ c' a, fc_step op c = Some (c', a) ∧ cached c' (ideal_step op i).1 ∧
    length (slots c') = capacity_after op (length (slots c)) ∧
    ∀ x, a = Some x → (ideal_step op i).2 = Some x.
Proof.
  intros Hc. destruct op as [g id|g id layout file|id| |n]; cbn [fc_step capacity_after].
  - destruct (fc_get_spec g id c i Hc) as (? & ? & ?). destruct (fc_get g id c) as [c' a]. by exists c', a.
  - destruct (fc_insert_spec g id layout file c i Hc) as (c' & -> & ? & ? & _). by exists c', None.
  - eexists _, _; split_and!; [done|by apply fc_evict_spec|apply length_map|done].
  - eexists _, _; split_and!; [done|by apply cached_cleared|apply length_map|done].
  - eexists _, _; split_and!; [done| |apply length_replicate|done].
    apply cached_replicate. symmetry. apply (ca_gen _ _ Hc).
Qed.

(** An answer that is the ideal's, or a miss. *)
Definition hit_of (a b : option (SegmentLayout * FileRef)) : Prop := ∀ x, a = Some x → b = Some x.

Lemma fc_run_spec ops c i :
  cached c i →
  ∃ c' xs, fc_run ops c = Some (c', xs) ∧ cached c' (ideal_run ops i).1 ∧
    length (slots c') = foldl (λ n op, capacity_after op n) (length (slots c)) ops ∧
    Forall2 hit_of xs (ideal_run ops i).2.
Proof.
  revert c i. induction ops as [|op ops IH]; intros c i Hc; [by exists c, []|]. cbn [fc_run ideal_run foldl].
  destruct (fc_step_spec op c i Hc) as (c1 & a & -> & H1 & Hl & Ha).
  destruct (ideal_step op i) as [i1 b]. cbn [fst snd] in *.
  destruct (IH c1 i1 H1) as (c2 & xs & Hr & H2 & Hl2 & Hxs). destruct (ideal_run ops i1) as [i2 ys].
  exists c2, (a :: xs). cbn [mbind option_bind]. rewrite Hr, <-Hl. by split_and!; [..|constructor].
Qed.

(** ** Properties *)

(** C34: the descriptor cache refines a map from segments to open files that
    empties at each newer layout generation: no sequence of operations panics
    (the CLOCK sweep always ends on an occupied slot it may take) or changes the
    number of slots but a capacity change, every hit is the layout and file the last insertion of
    that segment in the caller's generation gave it, and a get directly after
    an insertion hits. *)
Theorem file_cache_refines capacity ops :
  ∃ c answers, fc_run ops (fc_new capacity) = Some (c, answers) ∧
    length (slots c) = foldl (λ n op, capacity_after op n) capacity ops ∧
    Forall2 hit_of answers (ideal_run ops (mkIdeal 0 ∅)).2 ∧
    ∀ g id layout file, layout_gen c ≤ g → slots c ≠ [] →
      ∃ c', fc_insert g id layout file c = Some c' ∧ (fc_get g id c').2 = Some (layout, file).
Proof.
  destruct (fc_run_spec ops (fc_new capacity) (mkIdeal 0 ∅)) as (c & xs & Hr & Hc & Hl & Hxs).
  { by apply cached_replicate. }
  exists c, xs. simpl in Hl. rewrite length_replicate in Hl. split_and!; [done..|].
  intros g id layout file Hg Hs.
  destruct (fc_insert_spec g id layout file c _ Hc) as (c' & Hi & Hc' & _ & Hfound).
  destruct (Hfound Hg Hs) as [Hgen Hin]. exists c'. split; [done|].
  unfold fc_get, fc_advance. rewrite Hgen. destruct (decide (g < g)) as [|_]; [lia|].
  rewrite Hgen. destruct (decide (g < g)) as [|_]; [lia|].
  pose proof (update_first_spec (holds id) (fmap (λ s, touch s true)) (slots c')) as Hu.
  destruct (update_first _ _ _) as [l'|].
  - destruct Hu as (k & s & Hk & (slot & -> & <-)%holds_true & -> & Hf). rewrite Hf. cbn [snd].
    assert (entry slot ∈ entries (slots c')) as H1.
    { apply elem_of_entries. exists slot. split; [by eapply list_elem_of_lookup_2|done]. }
    assert ((fs_segment_id slot, (layout, file)) ∈ entries (slots c')) as H2 by (apply elem_of_entries; eauto).
    apply (ca_held _ _ Hc') in H1, H2. congruence.
  - destruct Hu as [_ Hu]. specialize (Hu _ Hin). by apply bool_decide_eq_false in Hu.
Qed.
