(* ===== verification/SegmentClassify.v ===== *)
(** * Liveness of a rewrite's inputs (elide-core/src/segment_classify.rs)

    What a rewrite does with an input entry, decided against the current LBA
    map and extent index. *)

From stdpp Require Import base gmap list.
From S2P Require Import Prelude Segment LbaMap LbaMapFacts LbaMapSpec ExtentIndex.
Open Scope Z_scope.

Inductive EntryClassification :=
  | FullyLive
  | DemoteToCanonical
  | ZeroSubRuns (live_runs : list ExtentRead)
  | PartialDeath (live_runs : list ExtentRead) (emit_canonical : bool)
  | DropAndRemoveHash
  | Drop
  | DeferUnresolvableDelta.

Record ClassifyCtx := mkClassifyCtx {
  lba_map : LbaMap;
  cc_extent_index : ExtentIndex;
  live_hashes : gset Hash;
  cc_segment_id : Ulid
}.

(** ** Liveness of a run *)

Definition owns_home (entry : SegmentEntry) (ctx : ClassifyCtx) : bool :=
  if is_delta (e_kind entry) then
    match lookup_delta (cc_extent_index ctx) (e_hash entry) with
    | Some loc => bool_decide (d_segment_id loc = cc_segment_id ctx)
    | None => false
    end
  else
    match ExtentIndex.lookup (cc_extent_index ctx) (e_hash entry) with
    | Some loc => bool_decide (segment_id loc = cc_segment_id ctx)
    | None => false
    end.

(** [checked_sub] refuses a run that starts before the entry. *)
Definition anchor_matches (entry : SegmentEntry) (r : ExtentRead) : bool :=
  if decide (range_start r < e_start_lba entry) then false
  else bool_decide (range_start r - e_start_lba entry = er_payload_block_offset r).

Definition block_is_live (entry : SegmentEntry) (ctx : ClassifyCtx) (r : ExtentRead) : bool :=
  bool_decide (er_hash r = e_hash entry) && anchor_matches entry r
  && bool_decide (er_claimant r = cc_segment_id ctx).

(** ** Classification *)

Definition entry_end (entry : SegmentEntry) : Z := u64_add (e_start_lba entry) (e_lba_length entry).

Definition entry_runs (entry : SegmentEntry) (ctx : ClassifyCtx) : list ExtentRead :=
  LbaMap.extents_in_range (lba_map ctx) (e_start_lba entry) (entry_end entry).

Definition live_runs_of (entry : SegmentEntry) (ctx : ClassifyCtx) : list ExtentRead :=
  filter (λ r, block_is_live entry ctx r = true) (entry_runs entry ctx).

Definition matching_blocks (entry : SegmentEntry) (ctx : ClassifyCtx) : Z :=
  foldl (λ acc r, u64_add acc (u64_sub (range_end r) (range_start r))) 0 (live_runs_of entry ctx).

Definition has_resolvable_source (entry : SegmentEntry) (ctx : ClassifyCtx) : bool :=
  existsb (λ opt, bool_decide (is_Some (ExtentIndex.lookup (cc_extent_index ctx) (source_hash opt))))
    (e_delta_options entry).

Definition classify_dead (entry : SegmentEntry) (ctx : ClassifyCtx) : EntryClassification :=
  let extent_live := owns_home entry ctx in
  if (bool_decide (e_kind entry = Data) || bool_decide (e_kind entry = Inline) || bool_decide (e_kind entry = Delta))
     && extent_live && bool_decide (e_hash entry ∈ live_hashes ctx) then DemoteToCanonical
  else if extent_live then DropAndRemoveHash
  else Drop.

Definition classify_partial (entry : SegmentEntry) (ctx : ClassifyCtx) : EntryClassification :=
  let live_runs := live_runs_of entry ctx in
  let referenced := bool_decide (e_hash entry ∈ live_hashes ctx) in
  match e_kind entry with
  | Data | Inline => PartialDeath live_runs referenced
  | DedupRef => PartialDeath live_runs false
  | Delta => if has_resolvable_source entry ctx then PartialDeath live_runs referenced else DeferUnresolvableDelta
  | _ => FullyLive
  end.

Definition classify_entry (entry : SegmentEntry) (ctx : ClassifyCtx) : EntryClassification :=
  if decide (e_kind entry = Zero) then ZeroSubRuns (live_runs_of entry ctx)
  else if is_canonical_only (e_kind entry) then
    if decide (e_hash entry ∈ live_hashes ctx) then FullyLive
    else if owns_home entry ctx then DropAndRemoveHash else Drop
  else
    let matching := matching_blocks entry ctx in
    if decide (matching = e_lba_length entry) then FullyLive
    else if decide (matching = 0) then classify_dead entry ctx
    else classify_partial entry ctx.
