(* ===== verification/SegmentClassifySpec.v ===== *)
(** * Classification is exact

    A class says, block by block, which of the entry's claims are still its
    segment's, and what still resolves against its body. *)

From stdpp Require Import base gmap list.
From S2P Require Import Prelude Segment LbaMap LbaMapFacts LbaMapSpec ExtentIndex SegmentClassify.
Open Scope Z_scope.

(** ** Blocks of runs *)

(** The blocks a list of runs holds. *)
Definition covers (rs : list ExtentRead) (lba : Z) : Prop := ∃ r, r ∈ rs ∧ er_covers r lba.

Definition run_total (rs : list ExtentRead) : Z := foldr (λ r acc, range_end r - range_start r + acc) 0 rs.

Lemma covers_cons r rs lba : covers (r :: rs) lba ↔ er_covers r lba ∨ covers rs lba.
Proof. unfold covers. set_solver. Qed.

Lemma reads_sorted_filter (P : ExtentRead → Prop) `{!∀ x, Decision (P x)} s t rs :
  reads_sorted s t rs → reads_sorted s t (filter P rs).
Proof.
  revert s. induction rs as [|r rs IH]; intros s; [done|]. intros (Hs & Hr & Hrs).
  rewrite filter_cons. case_decide; [split_and!; [done|done|by apply IH]|].
  apply IH, (reads_sorted_weaken (range_end r)); [lia|done].
Qed.

Lemma run_total_bounds s t rs : reads_sorted s t rs → 0 ≤ run_total rs ≤ t - s.
Proof.
  revert s. induction rs as [|r rs IH]; intros s; [simpl; lia|]. intros (Hs & Hr & Hrs).
  specialize (IH _ Hrs). cbn [run_total foldr]. fold (run_total rs). lia.
Qed.

Lemma run_total_full s t rs : reads_sorted s t rs → run_total rs = t - s → ∀ lba, s ≤ lba < t → covers rs lba.
Proof.
  revert s. induction rs as [|r rs IH]; intros s; [simpl; lia|]. intros (Hs & Hr & Hrs).
  pose proof (run_total_bounds _ _ _ Hrs). cbn [run_total foldr]. fold (run_total rs). intros Ht lba Hl.
  rewrite covers_cons. destruct (decide (lba < range_end r)); [left; unfold er_covers; lia|].
  right. apply (IH (range_end r)); [done|lia..].
Qed.

Lemma run_total_partial s t rs : reads_sorted s t rs → run_total rs ≠ t - s → ∃ lba, s ≤ lba < t ∧ ¬ covers rs lba.
Proof.
  revert s. induction rs as [|r rs IH]; intros s.
  { simpl. intros ? ?. exists s. split; [lia|]. by intros (r & ?%elem_of_nil & _). }
  intros (Hs & Hr & Hrs). cbn [run_total foldr]. fold (run_total rs). intros Ht.
  pose proof (reads_sorted_le _ _ _ Hrs) as Hle.
  destruct (decide (s < range_start r)).
  - exists s. split; [lia|]. rewrite covers_cons. unfold er_covers at 1. intros [?|(r' & Hin & Hc)]; [lia|].
    destruct (read_at_covered _ _ _ _ _ Hrs Hin Hc). lia.
  - destruct (IH _ Hrs) as (lba & ? & Hn); [lia|]. exists lba. split; [lia|].
    rewrite covers_cons. unfold er_covers at 1. intros [?|?]; [lia|done].
Qed.

Lemma run_total_zero s t rs : reads_sorted s t rs → run_total rs = 0 → rs = [].
Proof.
  destruct rs as [|r rs]; [done|]. intros (Hs & Hr & Hrs). cbn [run_total foldr]. fold (run_total rs).
  pose proof (run_total_bounds _ _ _ Hrs). lia.
Qed.

Lemma run_total_pos s t rs : reads_sorted s t rs → run_total rs ≠ 0 → ∃ lba, s ≤ lba < t ∧ covers rs lba.
Proof.
  destruct rs as [|r rs]; [done|]. intros (Hs & Hr & Hrs) _. pose proof (reads_sorted_le _ _ _ Hrs).
  exists (range_start r). rewrite covers_cons. unfold er_covers at 1. split; [lia|left; lia].
Qed.

(** The machine sum is the sum. *)
Lemma matching_sum s t rs :
  reads_sorted s t rs → 0 ≤ s → t < U64 → ∀ acc, 0 ≤ acc ≤ s →
  foldl (λ acc r, u64_add acc (u64_sub (range_end r) (range_start r))) acc rs = acc + run_total rs.
Proof.
  revert s. induction rs as [|r rs IH]; intros s; [simpl; lia|]. intros (Hs & Hr & Hrs) H0 Ht acc Hacc.
  pose proof (reads_sorted_le _ _ _ Hrs). cbn [foldl run_total foldr]. fold (run_total rs). unwrap.
  rewrite (IH (range_end r)) by (done || lia). lia.
Qed.

(** ** Live blocks *)

(** The block is still claimed by the entry's segment, for the entry's own
    content at the entry's own place in it. *)
Definition live_at (entry : SegmentEntry) (ctx : ClassifyCtx) (lba : Z) : Prop :=
  e_start_lba entry ≤ lba < e_start_lba entry + e_lba_length entry ∧
  view (lba_map ctx) lba = Some (mkCell (e_hash entry) (lba - e_start_lba entry) (cc_segment_id ctx)).

(** Runs that hold exactly the entry's live blocks, each where the entry has it. *)
Definition runs_exact (entry : SegmentEntry) (ctx : ClassifyCtx) (rs : list ExtentRead) : Prop :=
  reads_sorted (e_start_lba entry) (e_start_lba entry + e_lba_length entry) rs ∧
  (∀ lba, covers rs lba ↔ live_at entry ctx lba) ∧
  Forall (λ r, er_hash r = e_hash entry ∧ er_payload_block_offset r = range_start r - e_start_lba entry ∧
               er_claimant r = cc_segment_id ctx) rs.

Definition spans (N : Z) (entry : SegmentEntry) : Prop :=
  0 ≤ e_start_lba entry ∧ 0 < e_lba_length entry ∧ e_start_lba entry + e_lba_length entry ≤ N.

Lemma block_is_live_iff entry ctx r :
  e_start_lba entry ≤ range_start r →
  block_is_live entry ctx r = true ↔
  er_hash r = e_hash entry ∧ er_payload_block_offset r = range_start r - e_start_lba entry ∧
  er_claimant r = cc_segment_id ctx.
Proof.
  intros Hr. unfold block_is_live, anchor_matches. rewrite decide_False by lia.
  rewrite !andb_true_iff, !bool_decide_eq_true. intuition lia.
Qed.

Lemma live_runs_exact N entry ctx :
  lm_wf N (lba_map ctx) → spans N entry →
  runs_exact entry ctx (live_runs_of entry ctx) ∧ matching_blocks entry ctx = run_total (live_runs_of entry ctx).
Proof.
  intros Hwf (H0 & Hlen & HN). pose proof (wf_bound _ _ Hwf).
  assert (entry_end entry = e_start_lba entry + e_lba_length entry) as He by (unfold entry_end; by unwrap).
  destruct (extents_in_range_spec N (lba_map ctx) (e_start_lba entry) (e_start_lba entry + e_lba_length entry)
              Hwf ltac:(lia) HN) as [Hs Hv].
  assert (live_runs_of entry ctx =
    filter (λ r, block_is_live entry ctx r = true)
      (LbaMap.extents_in_range (lba_map ctx) (e_start_lba entry) (e_start_lba entry + e_lba_length entry))) as Hl
    by (unfold live_runs_of, entry_runs; by rewrite He).
  set (runs := LbaMap.extents_in_range _ _ _) in *. clearbody runs.
  assert (reads_sorted (e_start_lba entry) (e_start_lba entry + e_lba_length entry) (live_runs_of entry ctx)) as Hls
    by (rewrite Hl; by apply reads_sorted_filter).
  assert (∀ r, r ∈ runs → e_start_lba entry ≤ range_start r < range_end r) as Hb.
  { intros r Hr. by apply (reads_bounds _ _ _ _ Hs) in Hr as [? _]. }
  split; [|unfold matching_blocks; by rewrite (matching_sum _ _ _ Hls) by lia].
  split; [done|]. split.
  - intros lba. unfold covers, live_at. rewrite Hl. split.
    + intros (r & Hr & Hc). apply list_elem_of_filter in Hr as [Hlive Hr].
      destruct (read_at_covered _ _ _ _ _ Hs Hr Hc) as [Hat Hin]. split; [done|]. rewrite <-Hv by done. rewrite Hat.
      apply block_is_live_iff in Hlive as (Hh & Hp & Hcl); [|apply Hb in Hr; lia]. unfold er_cell. rewrite Hh, Hp, Hcl.
      do 2 f_equal. lia.
    + intros [Hin Hc]. rewrite <-Hv in Hc by done. apply read_at_Some in Hc as (r & Hr & Hc & Heq).
      exists r. split; [|done]. apply list_elem_of_filter. split; [|done]. apply Hb in Hr.
      apply block_is_live_iff; [lia|]. unfold er_cell in Heq. injection Heq as -> Heq ->. split_and!; [done|lia|done].
  - apply Forall_forall. intros r Hr. rewrite Hl in Hr. apply list_elem_of_filter in Hr as [Hlive Hr].
    apply block_is_live_iff in Hlive; [done|apply Hb in Hr; lia].
Qed.

Lemma classify_spec N entry ctx :
  lm_wf N (lba_map ctx) → spans N entry → is_canonical_only (e_kind entry) = false →
  let live := live_at entry ctx in
  let some_dead := ∃ lba, e_start_lba entry ≤ lba < e_start_lba entry + e_lba_length entry ∧ ¬ live lba in
  match classify_entry entry ctx with
  | FullyLive => ∀ lba, e_start_lba entry ≤ lba < e_start_lba entry + e_lba_length entry → live lba
  | ZeroSubRuns rs => e_kind entry = Zero ∧ runs_exact entry ctx rs
  | PartialDeath rs emit =>
      runs_exact entry ctx rs ∧ (∃ lba, live lba) ∧ some_dead ∧
      (emit = true ↔ owns_extent_hash (e_kind entry) = true ∧ e_hash entry ∈ live_hashes ctx)
  | DemoteToCanonical =>
      (∀ lba, ¬ live lba) ∧ owns_extent_hash (e_kind entry) = true ∧ owns_home entry ctx = true ∧
      e_hash entry ∈ live_hashes ctx
  | DropAndRemoveHash =>
      (∀ lba, ¬ live lba) ∧ owns_home entry ctx = true ∧
      (owns_extent_hash (e_kind entry) = true → e_hash entry ∉ live_hashes ctx)
  | Drop => (∀ lba, ¬ live lba) ∧ owns_home entry ctx = false
  | DeferUnresolvableDelta =>
      e_kind entry = Delta ∧ (∃ lba, live lba) ∧ some_dead ∧
      ∀ opt, opt ∈ e_delta_options entry → ExtentIndex.lookup (cc_extent_index ctx) (source_hash opt) = None
  end.
Proof.
  intros Hwf Hsp Hcan live some_dead. pose proof Hsp as (_ & Hlen & _).
  destruct (live_runs_exact N entry ctx Hwf Hsp) as [Hex Hsum]. pose proof Hex as (Hs & Hcov & _).
  unfold classify_entry. case_decide as Hz; [done|]. rewrite Hcan. cbv zeta. rewrite Hsum.
  case_decide as Hfull.
  { intros lba Hl. apply Hcov. eapply run_total_full; [done|lia|lia]. }
  assert (some_dead) as Hdead.
  { destruct (run_total_partial _ _ _ Hs) as (lba & ? & Hn); [lia|]. exists lba. split; [done|]. unfold live. by rewrite <-Hcov. }
  case_decide as Hnone.
  - assert (∀ lba, ¬ live lba) as Hno; [|clearbody live some_dead].
    { intros lba Hl. apply Hcov in Hl as (r & Hr & _). rewrite (run_total_zero _ _ _ Hs Hnone) in Hr. by apply elem_of_nil in Hr. }
    unfold classify_dead. destruct (e_kind entry); try done; simpl; destruct (owns_home entry ctx); simpl; try done;
      destruct (bool_decide_reflect (e_hash entry ∈ live_hashes ctx)); done.
  - assert (∃ lba, live lba) as Hsome.
    { destruct (run_total_pos _ _ _ Hs Hnone) as (lba & _ & Hc). exists lba. by apply Hcov. }
    unfold classify_partial. destruct (e_kind entry); try done;
      try (split_and!; [done..|]; destruct (bool_decide_reflect (e_hash entry ∈ live_hashes ctx)); naive_solver).
    destruct (has_resolvable_source entry ctx) eqn:Hres.
    + split_and!; [done..|]. destruct (bool_decide_reflect (e_hash entry ∈ live_hashes ctx)); naive_solver.
    + split_and!; [done..|]. intros opt Hopt. apply eq_None_not_Some. intros Hsome'.
      assert (has_resolvable_source entry ctx = true) as Ht; [|congruence].
      unfold has_resolvable_source. apply existsb_exists. exists opt. split; [by apply list_elem_of_In|].
      by apply bool_decide_eq_true.
Qed.

(** ** Properties *)

(** C35: classification is exact. An entry kept whole is live at every block; the
    runs of a split zero or of a partly dead entry hold exactly its live blocks,
    at the entry's own offsets, and a partly dead entry has a live and a dead
    block; an entry demoted or dropped has no live block, is demoted only when it
    holds the home of a hash something still resolves, and is dropped silently
    only when its segment does not hold the home; a delta is deferred only when
    no source of it resolves. *)
Theorem classify_exact N entry ctx :
  lm_wf N (lba_map ctx) → spans N entry → is_canonical_only (e_kind entry) = false →
  let live := live_at entry ctx in
  let some_dead := ∃ lba, e_start_lba entry ≤ lba < e_start_lba entry + e_lba_length entry ∧ ¬ live lba in
  match classify_entry entry ctx with
  | FullyLive => ∀ lba, e_start_lba entry ≤ lba < e_start_lba entry + e_lba_length entry → live lba
  | ZeroSubRuns rs => e_kind entry = Zero ∧ runs_exact entry ctx rs
  | PartialDeath rs emit =>
      runs_exact entry ctx rs ∧ (∃ lba, live lba) ∧ some_dead ∧
      (emit = true ↔ owns_extent_hash (e_kind entry) = true ∧ e_hash entry ∈ live_hashes ctx)
  | DemoteToCanonical =>
      (∀ lba, ¬ live lba) ∧ owns_extent_hash (e_kind entry) = true ∧ owns_home entry ctx = true ∧
      e_hash entry ∈ live_hashes ctx
  | DropAndRemoveHash =>
      (∀ lba, ¬ live lba) ∧ owns_home entry ctx = true ∧
      (owns_extent_hash (e_kind entry) = true → e_hash entry ∉ live_hashes ctx)
  | Drop => (∀ lba, ¬ live lba) ∧ owns_home entry ctx = false
  | DeferUnresolvableDelta =>
      e_kind entry = Delta ∧ (∃ lba, live lba) ∧ some_dead ∧
      ∀ opt, opt ∈ e_delta_options entry → ExtentIndex.lookup (cc_extent_index ctx) (source_hash opt) = None
  end.
Proof. apply classify_spec. Qed.

Definition overwritten_entry : SegmentEntry := mkSegmentEntry [1] 0 100 CodecNone Data 0 409600 None [] false None None.
Definition overwritten_ctx : ClassifyCtx := mkClassifyCtx sample ei_new {[ [1] ]} 1.

Lemma classify_exact_witness :
  classify_entry overwritten_entry overwritten_ctx =
    PartialDeath [mkExtentRead [1] 0 30 0 1; mkExtentRead [1] 50 100 50 1] true ∧
  (∀ lba, covers [mkExtentRead [1] 0 30 0 1; mkExtentRead [1] 50 100 50 1] lba ↔
          live_at overwritten_entry overwritten_ctx lba).
Proof.
  assert (classify_entry overwritten_entry overwritten_ctx =
    PartialDeath [mkExtentRead [1] 0 30 0 1; mkExtentRead [1] 50 100 50 1] true) as Hc by (vm_compute; reflexivity).
  split; [exact Hc|].
  pose proof (classify_exact 1000 overwritten_entry overwritten_ctx sample_wf) as H. rewrite Hc in H.
  destruct H as ((_ & H & _) & _); [repeat split; simpl; lia|reflexivity|exact H].
Defined.
