(* ===== verification/RewritePlan.v ===== *)
(** * Rewrite plans (elide-core/src/rewrite_plan.rs)

    The declarative form of a segment rewrite and its text form, the hand-off
    from the coordinator to the volume. *)

From Stdlib Require Import Ascii String.
From stdpp Require Import base list strings sorting.
From S2P Require Import Prelude Text.
Open Scope Z_scope.

Inductive PlanOutput :=
  | Keep (input : Ulid) (entry_idx : Z)
  | ZeroSplit (input : Ulid) (entry_idx start_lba lba_length : Z)
  | Canonical (input : Ulid) (entry_idx : Z)
  | Run (input : Ulid) (entry_idx payload_block_offset start_lba lba_length : Z)
  | DropInput (input : Ulid).

#[export] Instance PlanOutput_eq_dec : EqDecision PlanOutput.
Proof. solve_decision. Defined.

Record RewritePlan := mkRewritePlan { new_ulid : Ulid; outputs : list PlanOutput }.

#[export] Instance RewritePlan_eq_dec : EqDecision RewritePlan.
Proof. solve_decision. Defined.

Definition VERSION_TAG : string := "v1".

Definition po_input (o : PlanOutput) : Ulid :=
  match o with
  | Keep input _ | ZeroSplit input _ _ _ | Canonical input _ | Run input _ _ _ _ | DropInput input => input
  end.

(** The [BTreeSet] of inputs, in order. *)
Definition inputs (plan : RewritePlan) : list Ulid :=
  merge_sort Z.le (remove_dups (map po_input (outputs plan))).

Section text.
Context {HT : UlidText}.

(** ** Writing *)

Fixpoint tabbed (fields : list string) : string :=
  match fields with
  | [] => EmptyString
  | [f] => f
  | f :: fields => f +:+ String TAB (tabbed fields)
  end.

Definition record_fields (o : PlanOutput) : list string :=
  match o with
  | Keep input entry_idx => ["keep"%string; ulid_to_string input; dec entry_idx]
  | ZeroSplit input entry_idx start_lba lba_length =>
      ["zero_split"%string; ulid_to_string input; dec entry_idx; dec start_lba; dec lba_length]
  | Canonical input entry_idx => ["canonical"%string; ulid_to_string input; dec entry_idx]
  | Run input entry_idx payload_block_offset start_lba lba_length =>
      ["run"%string; ulid_to_string input; dec entry_idx; dec payload_block_offset; dec start_lba; dec lba_length]
  | DropInput input => ["drop"%string; ulid_to_string input]
  end.

Fixpoint write_lines (ls : list string) : string :=
  match ls with [] => EmptyString | l :: ls => l +:+ String LF (write_lines ls) end.

Definition write_to (plan : RewritePlan) : string :=
  write_lines (VERSION_TAG :: map (λ o, tabbed (record_fields o)) (outputs plan)).

(** ** Reading *)

Definition parse_ulid (fields : list string) : io (Ulid * list string) :=
  match fields with
  | [] => Err OtherError
  | raw :: fields => match ulid_from_string raw with Some u => Ok (u, fields) | None => Err OtherError end
  end.

Definition parse_uint_field (bound : Z) (fields : list string) : io (Z * list string) :=
  match fields with
  | [] => Err OtherError
  | raw :: fields => match parse_uint bound raw with Some n => Ok (n, fields) | None => Err OtherError end
  end.
Definition parse_u64 : list string → io (Z * list string) := parse_uint_field U64.
Definition parse_u32 : list string → io (Z * list string) := parse_uint_field U32.

Definition require_end_of_fields (fields : list string) : io unit :=
  match fields with [] => Ok () | _ => Err OtherError end.

Definition parse_keep (fields : list string) : io PlanOutput :=
  '(input, fields) ← parse_ulid fields;
  '(entry_idx, fields) ← parse_u32 fields;
  _ ← require_end_of_fields fields;
  Ok (Keep input entry_idx).

Definition parse_zero_split (fields : list string) : io PlanOutput :=
  '(input, fields) ← parse_ulid fields;
  '(entry_idx, fields) ← parse_u32 fields;
  '(start_lba, fields) ← parse_u64 fields;
  '(lba_length, fields) ← parse_u32 fields;
  _ ← require_end_of_fields fields;
  Ok (ZeroSplit input entry_idx start_lba lba_length).

Definition parse_canonical (fields : list string) : io PlanOutput :=
  '(input, fields) ← parse_ulid fields;
  '(entry_idx, fields) ← parse_u32 fields;
  _ ← require_end_of_fields fields;
  Ok (Canonical input entry_idx).

Definition parse_run (fields : list string) : io PlanOutput :=
  '(input, fields) ← parse_ulid fields;
  '(entry_idx, fields) ← parse_u32 fields;
  '(payload_block_offset, fields) ← parse_u32 fields;
  '(start_lba, fields) ← parse_u64 fields;
  '(lba_length, fields) ← parse_u32 fields;
  _ ← require_end_of_fields fields;
  Ok (Run input entry_idx payload_block_offset start_lba lba_length).

Definition parse_drop (fields : list string) : io PlanOutput :=
  '(input, fields) ← parse_ulid fields;
  _ ← require_end_of_fields fields;
  Ok (DropInput input).

Definition parse_record_line (line : string) : io PlanOutput :=
  match split_on TAB line with
  | [] => Err OtherError
  | tag :: fields =>
      if decide (tag = "keep"%string) then parse_keep fields
      else if decide (tag = "zero_split"%string) then parse_zero_split fields
      else if decide (tag = "canonical"%string) then parse_canonical fields
      else if decide (tag = "run"%string) then parse_run fields
      else if decide (tag = "drop"%string) then parse_drop fields
      else Err OtherError
  end.

(** [next_meaningful_line]: trailing line ends trimmed, blank and comment lines
    skipped. *)
Definition is_comment (line : string) : bool :=
  match line with EmptyString => true | String c _ => bool_decide (c = "#"%char) end.
Fixpoint meaningful (ls : list string) : list string :=
  match ls with
  | [] => []
  | l :: ls =>
      let trimmed := trim_end LF CR l in
      if is_comment trimmed then meaningful ls else trimmed :: meaningful ls
  end.

Fixpoint parse_records (ls : list string) : io (list PlanOutput) :=
  match ls with
  | [] => Ok []
  | l :: ls => o ← parse_record_line l; os ← parse_records ls; Ok (o :: os)
  end.

Definition read_from (new_ulid : Ulid) (text : string) : io RewritePlan :=
  match meaningful (lines text) with
  | [] => Err OtherError
  | first :: records =>
      if decide (first = VERSION_TAG) then
        outputs ← parse_records records; Ok (mkRewritePlan new_ulid outputs)
      else Err OtherError
  end.

(** A plan file: the ULID is its name's stem, when the name has one. *)
Definition plan_read (stem : option string) (file : io string) : io RewritePlan :=
  match stem with
  | None => Err OtherError
  | Some stem =>
      match ulid_from_string stem with
      | None => Err OtherError
      | Some new_ulid => text ← file; read_from new_ulid text
      end
  end.
End text.
