(* ===== verification/RewritePlanSpec.v ===== *)
(** * The plan's text form

    A plan reads back as it was written, and what a reader accepts fits its
    integers. *)

From Stdlib Require Import Ascii String.
From stdpp Require Import base list strings sorting.
From S2P Require Import Prelude Text RewritePlan.
Open Scope Z_scope.

Definition output_ok (o : PlanOutput) : Prop :=
  0 ≤ po_input o < U128 ∧
  match o with
  | Keep _ i | Canonical _ i => 0 ≤ i < U32
  | ZeroSplit _ i s n => 0 ≤ i < U32 ∧ 0 ≤ s < U64 ∧ 0 ≤ n < U32
  | Run _ i p s n => 0 ≤ i < U32 ∧ 0 ≤ p < U32 ∧ 0 ≤ s < U64 ∧ 0 ≤ n < U32
  | DropInput _ => True
  end.

Section spec.
Context {HT : UlidText} {HL : UlidTextLaws HT}.

(** ** Lines *)

(** A line the writer emits: no line end in it, not blank, not a comment, no
    trailing line end. *)
Definition line_ok (l : string) : Prop :=
  has_char LF l = false ∧ has_char CR l = false ∧ is_comment l = false.

Lemma trim_end_plain l : has_char LF l = false → has_char CR l = false → trim_end LF CR l = l.
Proof.
  induction l as [|c l IH]; [done|]. simpl. intros [Hf Hl]%orb_false_iff [Hr Hl']%orb_false_iff.
  apply bool_decide_eq_false in Hf, Hr. rewrite IH by done. destruct l; [|done].
  rewrite decide_False; [done|]. intros [->| ->]; congruence.
Qed.

Lemma lines_write_lines ls : Forall line_ok ls → lines (write_lines ls) = ls.
Proof.
  unfold lines. induction 1 as [|l ls (Hf & Hr & _) _ IH]; [done|]. cbn [write_lines].
  rewrite split_on_sep by done. destruct (split_on LF (write_lines ls)) as [|p ps] eqn:E; [by destruct ls|].
  cbn [lines_of] in *. by rewrite strip_cr_plain, IH.
Qed.

Lemma meaningful_ok ls : Forall line_ok ls → meaningful ls = ls.
Proof.
  induction 1 as [|l ls (Hf & Hr & Hc) _ IH]; [done|]. cbn [meaningful]. rewrite trim_end_plain by done.
  by rewrite Hc, IH.
Qed.

(** ** Records *)

Lemma tabbed_cons f g fields : tabbed (f :: g :: fields) = f +:+ String TAB (tabbed (g :: fields)).
Proof. done. Qed.

Lemma split_tabbed fields :
  fields ≠ [] → Forall (λ f, has_char TAB f = false) fields → split_on TAB (tabbed fields) = fields.
Proof.
  intros Hne Hf. induction Hf as [|f fields Hf Hfs IH]; [done|]. destruct fields as [|g fields]; [by apply split_on_none|].
  rewrite tabbed_cons, split_on_sep by done. f_equal. by apply IH.
Qed.

Lemma has_char_tabbed c fields :
  c ≠ TAB → Forall (λ f, has_char c f = false) fields → has_char c (tabbed fields) = false.
Proof.
  intros Hc Hf. induction Hf as [|f fields Hf Hfs IH]; [done|]. destruct fields as [|g fields]; [done|].
  rewrite tabbed_cons, has_char_app, Hf. cbn [has_char]. rewrite bool_decide_eq_false_2 by done. by rewrite IH.
Qed.

Lemma record_fields_plain o c : c = TAB ∨ c = LF ∨ c = CR → Forall (λ f, has_char c f = false) (record_fields o).
Proof.
  intros Hc. assert (digit_of c = None) as Hd by (destruct Hc as [->|[->| ->]]; done).
  assert (∀ n, has_char c (dec n) = false) as Hn by (intros n; by apply dec_no_char).
  assert (∀ u, has_char c (ulid_to_string u) = false) as Hu by (intros u; by apply ulid_text_plain).
  destruct o; cbn [record_fields]; repeat constructor; auto; destruct Hc as [->|[->| ->]]; done.
Qed.

Lemma record_line_ok o : line_ok (tabbed (record_fields o)).
Proof.
  split_and!; [apply has_char_tabbed; [done|apply record_fields_plain; tauto]..|]. by destruct o.
Qed.

Lemma parse_ulid_text u fields : 0 ≤ u < U128 → parse_ulid (ulid_to_string u :: fields) = Ok (u, fields).
Proof. intros Hu. simpl. by rewrite ulid_text_back. Qed.

Lemma parse_uint_text bound n fields :
  0 ≤ n < bound → bound ≤ U64 → parse_uint_field bound (dec n :: fields) = Ok (n, fields).
Proof. intros Hn Hb. simpl. by rewrite parse_uint_dec by lia. Qed.

Lemma parse_record_text o : output_ok o → parse_record_line (tabbed (record_fields o)) = Ok o.
Proof.
  intros [Hu Ho]. unfold parse_record_line. rewrite split_tabbed; [|by destruct o|apply record_fields_plain; tauto].
  destruct o; cbn [record_fields po_input] in *; repeat (case_decide; [|done] || case_decide; [done|]);
    unfold parse_keep, parse_zero_split, parse_canonical, parse_run, parse_drop, parse_u32, parse_u64;
    rewrite parse_ulid_text by done; cbn [mbind io_bind];
    repeat (rewrite parse_uint_text by lia; cbn [mbind io_bind]); done.
Qed.

Lemma parse_records_text os : Forall output_ok os → parse_records (map (λ o, tabbed (record_fields o)) os) = Ok os.
Proof.
  induction 1 as [|o os Ho _ IH]; [done|]. cbn [map parse_records]. by rewrite parse_record_text, IH by done.
Qed.

(** ** What a reader accepts *)

Lemma parse_ulid_range fields u rest : parse_ulid fields = Ok (u, rest) → 0 ≤ u < U128.
Proof.
  destruct fields as [|f fields]; [done|]. simpl. destruct (ulid_from_string f) eqn:E; [|done].
  intros [= <- <-]. by eapply ulid_text_range.
Qed.

Lemma parse_uint_range bound fields n rest : 0 < bound → parse_uint_field bound fields = Ok (n, rest) → 0 ≤ n < bound.
Proof.
  intros Hb. destruct fields as [|f fields]; [done|]. simpl. destruct (parse_uint bound f) eqn:E; [|done].
  intros [= <- <-]. by eapply parse_uint_bound.
Qed.

Ltac fields_in H :=
  repeat match type of H with
    | _ ≫= _ = Ok _ => let x := fresh "x" in let Hx := fresh "Hx" in
        apply io_bind_Ok in H as (x & Hx & H); try destruct x as [? ?]
    end.

Lemma parse_record_range line o : parse_record_line line = Ok o → output_ok o.
Proof.
  unfold parse_record_line. destruct (split_on TAB line) as [|tag fields]; [done|].
  unfold parse_keep, parse_zero_split, parse_canonical, parse_run, parse_drop, parse_u32, parse_u64.
  repeat case_decide; try done; intros Hp; fields_in Hp; injection Hp as <-;
    repeat match goal with
      | Hx : parse_ulid _ = Ok _ |- _ => apply parse_ulid_range in Hx
      | Hx : parse_uint_field _ _ = Ok _ |- _ => apply parse_uint_range in Hx; [|lia]
      end; split; simpl; auto.
Qed.

Lemma parse_records_range ls os : parse_records ls = Ok os → Forall output_ok os.
Proof.
  revert os. induction ls as [|l ls IH]; intros os; [intros [= <-]; constructor|]. cbn [parse_records].
  intros (o & Ho & H)%io_bind_Ok. apply io_bind_Ok in H as (os' & Hos & [= <-]).
  constructor; [by eapply parse_record_range|by apply IH].
Qed.

(** ** Properties *)

(** The text form of a plan round-trips: a plan whose fields fit their
    integers reads back as written, its records in their order, and everything a
    reader accepts is such a plan, so what it accepts writes and reads back the
    same. *)
Theorem plan_text_roundtrip plan :
  (Forall output_ok (outputs plan) → read_from (new_ulid plan) (write_to plan) = Ok plan) ∧
  (∀ u text, read_from u text = Ok plan →
     new_ulid plan = u ∧ Forall output_ok (outputs plan) ∧ read_from u (write_to plan) = Ok plan).
Proof.
  assert (Forall output_ok (outputs plan) → read_from (new_ulid plan) (write_to plan) = Ok plan) as Hback.
  { intros Hok. unfold read_from, write_to.
    assert (Forall line_ok (VERSION_TAG :: map (λ o, tabbed (record_fields o)) (outputs plan))) as Hl.
    { constructor; [done|]. apply Forall_map, Forall_forall. intros o _. apply record_line_ok. }
    rewrite lines_write_lines, meaningful_ok by done. rewrite decide_True, parse_records_text by done. by destruct plan. }
  split; [done|]. intros u text. unfold read_from at 1. destruct (meaningful (lines text)) as [|first records]; [done|].
  case_decide; [|done]. intros (os & Hos & [= <-])%io_bind_Ok. split; [done|].
  pose proof (parse_records_range _ _ Hos) as Hok. split; [done|]. by apply Hback.
Qed.
End spec.

(** ULIDs in decimal, for evaluating the model. *)
Definition decimal_ulid_text : UlidText :=
  {| ulid_from_string s := parse_uint U128 s; ulid_to_string u := dec_digits 40 u EmptyString |}.

Definition decimal_ulid_laws : UlidTextLaws decimal_ulid_text.
Proof.
  split; cbn [ulid_to_string ulid_from_string decimal_ulid_text].
  - intros u Hu. destruct (dec_digits_head 39 u EmptyString) as (d & rest & Hd & He).
    pose proof (parse_dec_digits 40 U128 u EmptyString Hu ltac:(unfold U128 in *; lia)) as Hp. rewrite He in *.
    cbn [parse_uint]. rewrite decide_False; [done|]. intros Heq. pose proof (digit_of_digit d Hd) as Hx.
    by rewrite Heq in Hx.
  - intros u c Hc. rewrite has_char_dec_digits; [done|]. destruct Hc as [->|[->| ->]]; done.
  - intros u. destruct (dec_digits_head 39 u EmptyString) as (d & rest & _ & ->). done.
  - intros s u Hp. by eapply parse_uint_bound.
Defined.

Definition plan_sample : RewritePlan :=
  mkRewritePlan 9 [Canonical 5 3; Run 5 3 0 100 2; Run 5 3 3 103 1; ZeroSplit 7 0 50 8; Keep 7 4294967295; DropInput 6].

