(* ===== verification/Materialise.v ===== *)
(** * Materialising a rewrite plan (elide-core/src/rewrite_apply.rs)

    A plan's records become the entries and delta body of the output segment.
    The body resolver is the code's own trait; files are their contents at the
    moment they are opened.  Of the cost counters the byte counts are kept and
    the durations left out. *)

From stdpp Require Import base gmap list.
From S2P Require Import Prelude Bytes Segment ChunkTree Codec SegmentCodec ExtentIndex Locate ReadPath RewritePlan.
Open Scope Z_scope.

Definition BLOCK_BYTES : Z := 4096.

Record InputState := mkInputState {
  is_entries : list SegmentEntry;
  is_inline_bytes : list Z;
  is_body_section_start : Z;
  is_body_length : Z
}.

Record Materialised := mkMaterialised { m_entries : list PendingEntry; m_delta_body : list Z }.

Record MaterialiseCost := mkCost { read_bytes : Z; verify_bytes : Z; decode_bytes : Z; recompress_bytes : Z }.
Definition cost_default : MaterialiseCost := mkCost 0 0 0 0.
Definition cost_add (a b : MaterialiseCost) : MaterialiseCost :=
  mkCost (u64_add (read_bytes a) (read_bytes b)) (u64_add (verify_bytes a) (verify_bytes b))
    (u64_add (decode_bytes a) (decode_bytes b)) (u64_add (recompress_bytes a) (recompress_bytes b)).

Inductive MaterialiseError := MissingInput | UnresolvableHash | BodyIntegrity | Internal.
Inductive MaterialiseOutcome := OutIo (e : io_error) | OutCancel (e : MaterialiseError).

(** ** The context *)

Record BodyResolver := mkBodyResolver {
  br_find_segment : Ulid → Z → BodySource → io (Path * SegmentBodyLayout);
  br_locate_segment_unchecked : Ulid → option (Path * SegmentBodyLayout);
  br_open_delta_body : Ulid → io (list Z);
  br_open : Path → io (list Z)
}.

Record MaterialiseCtx := mkMaterialiseCtx {
  input_states : gmap Ulid InputState;
  mc_extent_index : ExtentIndex;
  resolver : BodyResolver;
  allow_journal : bool
}.

Definition allowing_journal (ctx : MaterialiseCtx) : MaterialiseCtx :=
  mkMaterialiseCtx (input_states ctx) (mc_extent_index ctx) (resolver ctx) true.

(** The one composite body kept between records. *)
Record CompositeSlot := mkCompositeSlot { cs_key : Ulid * Z; cs_body : list Z }.

Record MatState := mkMatState {
  ms_cost : MaterialiseCost;
  ms_entries : list PendingEntry;
  ms_delta : list Z;
  ms_slot : option CompositeSlot
}.

Definition MM (A : Type) : Type := MatState → MatState * (A + MaterialiseOutcome).

#[export] Instance mm_ret : MRet MM := λ A x s, (s, inl x).
#[export] Instance mm_bind : MBind MM := λ A B f m s,
  match m s with (s, inl x) => f x s | (s, inr e) => (s, inr e) end.

Definition mm_io {A} (r : io A) : MM A := λ s, (s, match r with Ok x => inl x | Err e => inr (OutIo e) end).
Definition mm_cancel {A} (e : MaterialiseError) : MM A := λ s, (s, inr (OutCancel e)).
(** An [io] failure the code turns into a cancellation. *)
Definition mm_or {A} (e : MaterialiseError) (r : io A) : MM A :=
  λ s, (s, match r with Ok x => inl x | Err _ => inr (OutCancel e) end).

Definition charge (c : MaterialiseCost) : MM unit := λ s,
  (mkMatState (cost_add (ms_cost s) c) (ms_entries s) (ms_delta s) (ms_slot s), inl ()).
Definition charge_read (n : Z) : MM unit := charge (mkCost n 0 0 0).
Definition charge_verify (n : Z) : MM unit := charge (mkCost 0 n 0 0).
Definition charge_decode (n : Z) : MM unit := charge (mkCost 0 0 n 0).
Definition charge_recompress (n : Z) : MM unit := charge (mkCost 0 0 0 n).

Definition push_entry (p : PendingEntry) : MM unit := λ s,
  (mkMatState (ms_cost s) (ms_entries s ++ [p]) (ms_delta s) (ms_slot s), inl ()).
(** Append a blob, returning where it starts. *)
Definition push_blob (blob : list Z) : MM Z := λ s,
  (mkMatState (ms_cost s) (ms_entries s) (ms_delta s ++ blob) (ms_slot s), inl (blen (ms_delta s))).
Definition get_slot : MM (option CompositeSlot) := λ s, (s, inl (ms_slot s)).
Definition set_slot (slot : option CompositeSlot) : MM unit := λ s,
  (mkMatState (ms_cost s) (ms_entries s) (ms_delta s) slot, inl ()).

Definition from_entry (e : SegmentEntry) : PendingEntry := mkPendingEntry e None.
Definition pe_into_canonical (p : PendingEntry) : PendingEntry := mkPendingEntry (into_canonical (pe_entry p)) (pe_body p).

(** ** Inputs *)

Definition input_entry (ctx : MaterialiseCtx) (u : Ulid) (idx : Z) : MM (InputState * SegmentEntry) :=
  match input_states ctx !! u with
  | None => mm_cancel MissingInput
  | Some state =>
      match is_entries state !! Z.to_nat idx with
      | None => mm_cancel MissingInput
      | Some entry =>
          if e_journal entry && negb (allow_journal ctx) then mm_cancel Internal else mret (state, entry)
      end
  end.

Section load.
Context {HB : Blake3} {HU : UlidBytes}.

(** [load_input_states_from]: an input's index, body length and inline section. *)
Definition load_input_state (file : io (list Z)) : InputState + MaterialiseOutcome :=
  match file with
  | Err NotFound => inr (OutCancel MissingInput)
  | Err e => inr (OutIo e)
  | Ok file =>
      match ('(bss, entries, _) ← read_segment_index file;
             layout ← read_segment_layout file;
             inline ← read_inline_section file;
             Ok (mkInputState entries inline bss (sl_body_length layout))) with
      | Ok st => inl st
      | Err e => inr (OutIo e)
      end
  end.

Fixpoint load_input_states (inputs : list Ulid) (file : Ulid → io (list Z)) (out : gmap Ulid InputState)
    : gmap Ulid InputState + MaterialiseOutcome :=
  match inputs with
  | [] => inl out
  | u :: inputs =>
      match load_input_state (file u) with
      | inl st => load_input_states inputs file (<[u := st]> out)
      | inr e => inr e
      end
  end.

Definition ctx_new (file : Ulid → io (list Z)) (inputs : list Ulid) (ix : ExtentIndex) (r : BodyResolver)
    : MaterialiseCtx + MaterialiseOutcome :=
  match load_input_states inputs file ∅ with
  | inl states => inl (mkMaterialiseCtx states ix r false)
  | inr e => inr e
  end.

End load.

Section materialise.
Context {HB : Blake3} {HL : Lz4Block} {HC : Lz4Codec} {HT : Blake3Tree} {HZ : ZstdBulk} {HD : ZstdDict}.

(** ** Bodies *)

Definition decode_body (stored : list Z) (c : Codec) : MM (list Z) :=
  _ ← charge_decode (blen stored);
  mm_or BodyIntegrity (decode c stored).

Definition verify_stored (entry : SegmentEntry) (stored : list Z) : MM unit :=
  _ ← charge_verify (blen stored);
  mm_or BodyIntegrity (verify_stored_hash entry stored).

Definition verify_plaintext (entry : SegmentEntry) (plain : list Z) : MM unit :=
  _ ← charge_verify (blen plain);
  mm_or BodyIntegrity (verify_plaintext_hash entry plain).

Definition read_input_extent_stored_bytes (ctx : MaterialiseCtx) (u : Ulid) (idx : Z) (state : InputState)
    (entry : SegmentEntry) : MM (list Z) :=
  if negb (has_body_bytes (e_kind entry)) || is_inline (e_kind entry) then mm_cancel Internal
  else
    '(path, layout) ← mm_io (br_find_segment (resolver ctx) u (is_body_section_start state) (Cached idx));
    let seek := u64_add (body_section_file_offset layout (is_body_section_start state)) (e_stored_offset entry) in
    f ← mm_io (br_open (resolver ctx) path);
    buf ← mm_io (read_exact_at f seek (e_stored_length entry));
    _ ← charge_read (blen buf);
    mret buf.

Definition read_input_inline_stored_bytes (state : InputState) (entry : SegmentEntry) : MM (list Z) :=
  if negb (is_inline (e_kind entry)) then mm_cancel Internal
  else
    match get_range (is_inline_bytes state)
            (e_stored_offset entry, e_stored_offset entry + e_stored_length entry) with
    | Some bytes => mret bytes
    | None => mm_cancel Internal
    end.

Definition read_input_delta_blob (ctx : MaterialiseCtx) (u : Ulid) (state : InputState) (off len : Z)
    : MM (list Z) :=
  buf ← match br_locate_segment_unchecked (resolver ctx) u with
        | Some (path, FullSegment) =>
            let seek := u64_add (u64_add (body_section_file_offset FullSegment (is_body_section_start state))
                                   (is_body_length state)) off in
            f ← mm_io (br_open (resolver ctx) path);
            mm_io (read_exact_at f seek len)
        | _ =>
            f ← mm_io (br_open_delta_body (resolver ctx) u);
            mm_io (read_exact_at f off len)
        end;
  _ ← charge_read (blen buf);
  mret buf.

Definition resolve_body_by_hash_decompressed (ctx : MaterialiseCtx) (h : Hash) : MM (list Z) :=
  match ExtentIndex.lookup (mc_extent_index ctx) h with
  | None => mm_cancel UnresolvableHash
  | Some loc =>
      match inline_data loc with
      | Some idata => decode_body idata (codec loc)
      | None =>
          '(path, layout) ← mm_io (br_find_segment (resolver ctx) (segment_id loc) (body_section_start loc) (body_source loc));
          let seek := u64_add (body_section_file_offset layout (body_section_start loc)) (body_offset loc) in
          f ← mm_io (br_open (resolver ctx) path);
          buf ← mm_io (read_exact_at f seek (body_length loc));
          decode_body buf (codec loc)
      end
  end.

(** The first option with a base, rebuilt and held to the entry's hash. *)
Definition delta_composite (ctx : MaterialiseCtx) (u : Ulid) (state : InputState) (entry : SegmentEntry)
    : MM (list Z) :=
  match List.find (λ o, bool_decide (is_Some (ExtentIndex.lookup (mc_extent_index ctx) (source_hash o))))
          (e_delta_options entry) with
  | None => mm_cancel UnresolvableHash
  | Some opt =>
      base ← resolve_body_by_hash_decompressed ctx (source_hash opt);
      blob ← read_input_delta_blob ctx u state (delta_offset opt) (delta_length opt);
      composite ← mm_or Internal (apply_delta base blob);
      if decide (blake3 composite ≠ e_hash entry) then mm_cancel BodyIntegrity else mret composite
  end.

Definition compute_composite_body (ctx : MaterialiseCtx) (u : Ulid) (idx : Z) : MM (list Z) :=
  '(state, entry) ← input_entry ctx u idx;
  body ← match e_kind entry with
         | Data =>
             stored ← read_input_extent_stored_bytes ctx u idx state entry;
             plain ← decode_body stored (e_codec entry);
             _ ← verify_plaintext entry plain;
             mret plain
         | Inline =>
             stored ← read_input_inline_stored_bytes state entry;
             plain ← decode_body stored (e_codec entry);
             _ ← verify_plaintext entry plain;
             mret plain
         | DedupRef => resolve_body_by_hash_decompressed ctx (e_hash entry)
         | Delta => delta_composite ctx u state entry
         | _ => mm_cancel Internal
         end;
  if decide (blen body ≠ e_lba_length entry * BLOCK_BYTES) then mm_cancel Internal else mret body.

Definition resolve_composite_body (ctx : MaterialiseCtx) (u : Ulid) (idx : Z) : MM (list Z) :=
  slot ← get_slot;
  match slot with
  | Some s => if decide (cs_key s = (u, idx)) then mret (cs_body s)
              else body ← compute_composite_body ctx u idx; _ ← set_slot (Some (mkCompositeSlot (u, idx) body)); mret body
  | None => body ← compute_composite_body ctx u idx; _ ← set_slot (Some (mkCompositeSlot (u, idx) body)); mret body
  end.

(** ** Records *)

Fixpoint carry_delta_blobs (ctx : MaterialiseCtx) (u : Ulid) (state : InputState) (options : list DeltaOption)
    : MM (list DeltaOption) :=
  match options with
  | [] => mret []
  | opt :: options =>
      blob ← read_input_delta_blob ctx u state (delta_offset opt) (delta_length opt);
      new_offset ← push_blob blob;
      rest ← carry_delta_blobs ctx u state options;
      mret (mkDeltaOption (source_hash opt) new_offset (delta_length opt) (delta_hash opt) :: rest)
  end.

Definition keep_data (entry : SegmentEntry) (bytes : list Z) : PendingEntry :=
  new_data (e_hash entry) (e_start_lba entry) (e_lba_length entry) (e_codec entry) bytes.
Definition demote_data (entry : SegmentEntry) (bytes : list Z) : PendingEntry :=
  pe_into_canonical (new_data (e_hash entry) 0 0 (e_codec entry) bytes).
Definition demote_delta (entry : SegmentEntry) (opts : list DeltaOption) : PendingEntry :=
  pe_into_canonical (from_entry (new_delta (e_hash entry) 0 0 opts)).

Definition emit_keep (ctx : MaterialiseCtx) (u : Ulid) (idx : Z) : MM unit :=
  '(state, entry) ← input_entry ctx u idx;
  match e_kind entry with
  | Zero => push_entry (from_entry (new_zero (e_start_lba entry) (e_lba_length entry)))
  | DedupRef => push_entry (from_entry (new_dedup_ref (e_hash entry) (e_start_lba entry) (e_lba_length entry)))
  | Data =>
      bytes ← read_input_extent_stored_bytes ctx u idx state entry;
      _ ← verify_stored entry bytes;
      push_entry (keep_data entry bytes)
  | Inline =>
      bytes ← read_input_inline_stored_bytes state entry;
      _ ← verify_stored entry bytes;
      push_entry (keep_data entry bytes)
  | CanonicalData =>
      bytes ← read_input_extent_stored_bytes ctx u idx state entry;
      _ ← verify_stored entry bytes;
      push_entry (demote_data entry bytes)
  | CanonicalInline =>
      bytes ← read_input_inline_stored_bytes state entry;
      _ ← verify_stored entry bytes;
      push_entry (demote_data entry bytes)
  | Delta =>
      new_options ← carry_delta_blobs ctx u state (e_delta_options entry);
      push_entry (from_entry (new_delta (e_hash entry) (e_start_lba entry) (e_lba_length entry) new_options))
  | CanonicalDelta =>
      new_options ← carry_delta_blobs ctx u state (e_delta_options entry);
      push_entry (demote_delta entry new_options)
  end.

Definition emit_zero_split (ctx : MaterialiseCtx) (u : Ulid) (idx start_lba lba_length : Z) : MM unit :=
  '(_, entry) ← input_entry ctx u idx;
  if decide (e_kind entry ≠ Zero) then mm_cancel Internal
  else push_entry (from_entry (new_zero start_lba lba_length)).

Definition emit_canonical (ctx : MaterialiseCtx) (u : Ulid) (idx : Z) : MM unit :=
  '(state, entry) ← input_entry ctx u idx;
  match e_kind entry with
  | Data | CanonicalData =>
      bytes ← read_input_extent_stored_bytes ctx u idx state entry;
      _ ← verify_stored entry bytes;
      push_entry (demote_data entry bytes)
  | Inline | CanonicalInline =>
      bytes ← read_input_inline_stored_bytes state entry;
      _ ← verify_stored entry bytes;
      push_entry (demote_data entry bytes)
  | Delta | CanonicalDelta =>
      new_options ← carry_delta_blobs ctx u state (e_delta_options entry);
      push_entry (demote_delta entry new_options)
  | _ => mm_cancel Internal
  end.

Definition emit_run (ctx : MaterialiseCtx) (u : Ulid) (idx payload_block_offset start_lba lba_length : Z) : MM unit :=
  if decide (lba_length = 0) then mret ()
  else
    composite ← resolve_composite_body ctx u idx;
    let start := payload_block_offset * BLOCK_BYTES in
    let end_ := start + lba_length * BLOCK_BYTES in
    if decide (blen composite < end_) then mm_cancel Internal
    else
      let slice := bytes_in composite (start, end_) in
      _ ← charge_recompress (blen slice);
      encoded ← mm_io (compress_body slice (allow_journal ctx));
      let '(c, body) := match encoded with Some cb => cb | None => (CodecNone, slice) end in
      push_entry (new_data (blake3 slice) start_lba lba_length c body).

Definition apply_one_output (ctx : MaterialiseCtx) (o : PlanOutput) : MM unit :=
  match o with
  | Keep u idx => emit_keep ctx u idx
  | ZeroSplit u idx start_lba lba_length => emit_zero_split ctx u idx start_lba lba_length
  | Canonical u idx => emit_canonical ctx u idx
  | Run u idx payload_block_offset start_lba lba_length =>
      emit_run ctx u idx payload_block_offset start_lba lba_length
  | DropInput _ => mret ()
  end.

Fixpoint apply_outputs (ctx : MaterialiseCtx) (os : list PlanOutput) : MM unit :=
  match os with
  | [] => mret ()
  | o :: os => _ ← apply_one_output ctx o; apply_outputs ctx os
  end.

(** The cost is the context's; the rest is local. *)
Definition materialise_plan (plan : RewritePlan) (ctx : MaterialiseCtx) (cost : MaterialiseCost)
    : MaterialiseCost * (Materialised + MaterialiseOutcome) :=
  match apply_outputs ctx (outputs plan) (mkMatState cost [] [] None) with
  | (s, inl _) => (ms_cost s, inl (mkMaterialised (ms_entries s) (ms_delta s)))
  | (s, inr e) => (ms_cost s, inr e)
  end.
End materialise.

(** ** The production resolver *)

(** [WorkerBodyResolver]: the volume's own search. *)
Definition worker_resolver (fs : FsView) (base_dir : DirRef) (ancestors : list DirRef)
    (fetcher : option SegmentFetcher) (ix : ExtentIndex) (open_path : Path → io (list Z))
    (open_delta : DirRef → Ulid → io (list Z)) : BodyResolver :=
  mkBodyResolver
    (λ id bss src,
       path ← find_segment_in_dirs fs id base_dir ancestors fetcher ix bss src;
       Ok (path, match p_place path with InCache => BodyOnly | _ => FullSegment end))
    (λ id, match locate_segment_body fs base_dir id with
           | Some hit => Some hit
           | None => (fix go dirs := match dirs with
                                     | [] => None
                                     | d :: dirs => match locate_segment_body fs d id with Some hit => Some hit | None => go dirs end
                                     end) (rev ancestors)
           end)
    (λ id, dir ← open_delta_body_in_dirs fs id base_dir ancestors fetcher; open_delta dir id)
    open_path.
