(* ===== verification/MaterialiseSpec.v ===== *)
(** * What a materialisation carries

    Each record of a plan contributes its own entries, in plan order; bytes are
    copied only under their tag, and a sub-run's bytes are the blocks of its
    entry's body that the record names. *)

From stdpp Require Import base gmap list.
From S2P Require Import Prelude Bytes Segment ChunkTree Codec CodecSpec SegmentCodec ExtentIndex Locate ReadPath ReadPathSpec RewritePlan RewritePlanSpec Materialise.
Open Scope Z_scope.

(** ** Runs of the monad *)

Lemma mm_bind_inl {A B} (m : MM A) (f : A → MM B) s s' y :
  (m ≫= f) s = (s', inl y) ↔ ∃ s1 x, m s = (s1, inl x) ∧ f x s1 = (s', inl y).
Proof. unfold mbind, mm_bind. destruct (m s) as [s1 [x|e]]; naive_solver. Qed.

(** A computation that leaves what the plan has emitted, and the slot, alone. *)
Definition reads {A} (m : MM A) (P : A → Prop) : Prop := ∀ s s' x, m s = (s', inl x) →
  ms_entries s' = ms_entries s ∧ ms_delta s' = ms_delta s ∧ ms_slot s' = ms_slot s ∧ P x.

(** What it can answer. *)
Definition served {A} (m : MM A) (x : A) : Prop := ∃ s s', m s = (s', inl x).

Section calculus.
Context {A B : Type}.

Lemma reads_ret (x : A) (P : A → Prop) : P x → reads (mret x) P.
Proof. by intros HP s s' y [= <- <-]. Qed.

Lemma reads_io (r : io A) (P : A → Prop) : (∀ x, r = Ok x → P x) → reads (mm_io r) P.
Proof. intros HP s s' y H. unfold mm_io in H. destruct r; [|done]. injection H as <- <-. split_and!; auto. Qed.

Lemma reads_or e (r : io A) (P : A → Prop) : (∀ x, r = Ok x → P x) → reads (mm_or e r) P.
Proof. intros HP s s' y H. unfold mm_or in H. destruct r; [|done]. injection H as <- <-. split_and!; auto. Qed.

Lemma reads_cancel e (P : A → Prop) : reads (mm_cancel e) P.
Proof. by intros s s' y. Qed.

Lemma reads_bind (m : MM A) (f : A → MM B) (Q : A → Prop) (P : B → Prop) :
  reads m Q → (∀ x, served m x → Q x → reads (f x) P) → reads (m ≫= f) P.
Proof.
  intros Hm Hf s s' y (s1 & x & Hx & Hy)%mm_bind_inl. destruct (Hm _ _ _ Hx) as (He & Hd & Hs & Hq).
  destruct (Hf x ltac:(by exists s, s1) Hq _ _ _ Hy) as (He' & Hd' & Hs' & Hp). split_and!; congruence || done.
Qed.

Lemma reads_weaken (m : MM A) (P Q : A → Prop) : reads m P → (∀ x, P x → Q x) → reads m Q.
Proof. intros Hm HPQ s s' x Hx. destruct (Hm _ _ _ Hx) as (? & ? & ? & ?). split_and!; auto. Qed.
End calculus.

Lemma reads_charge c (P : unit → Prop) : P tt → reads (charge c) P.
Proof. by intros HP s s' [] [= <-]. Qed.

(** ** What an input holds *)

Section spec.
Context {HB : Blake3} {HL : Lz4Block} {HC : Lz4Codec} {HT : Blake3Tree} {HZ : ZstdBulk} {HD : ZstdDict}.
Context (ctx : MaterialiseCtx).

Definition has_entry (u : Ulid) (idx : Z) (st : InputState) (e : SegmentEntry) : Prop :=
  input_states ctx !! u = Some st ∧ is_entries st !! Z.to_nat idx = Some e ∧
  (e_journal e = true → allow_journal ctx = true).

(** A body that carries its tag. *)
Definition out_tagged (e : SegmentEntry) (bytes : list Z) : Prop := e_stored_hash e = Some (stored_hash bytes).

(** A plaintext the entry resolves to. Every kind is held to the entry's hash but
    a dedup ref, whose body is what the extent index locates for it. *)
Definition composite_of (e : SegmentEntry) (body : list Z) : Prop :=
  blen body = e_lba_length e * BLOCK_BYTES ∧
  match e_kind e with
  | Data | Inline | Delta => blake3 body = e_hash e
  | DedupRef => served (resolve_body_by_hash_decompressed ctx (e_hash e)) body
  | _ => False
  end.

Definition blob_at (delta : list Z) (off : Z) (blob : list Z) : Prop :=
  ∃ before after, delta = before ++ blob ++ after ∧ blen before = off.

(** An option re-based onto the output's delta body. *)
Definition rebased (u : Ulid) (st : InputState) (delta : list Z) (o o' : DeltaOption) : Prop :=
  source_hash o' = source_hash o ∧ delta_length o' = delta_length o ∧ delta_hash o' = delta_hash o ∧
  ∃ blob, served (read_input_delta_blob ctx u st (delta_offset o) (delta_length o)) blob ∧
          blob_at delta (delta_offset o') blob.

(** An entry passed through. *)
Definition kept (u : Ulid) (st : InputState) (delta : list Z) (e : SegmentEntry) (p : PendingEntry) : Prop :=
  match e_kind e with
  | Zero => p = from_entry (new_zero (e_start_lba e) (e_lba_length e))
  | DedupRef => p = from_entry (new_dedup_ref (e_hash e) (e_start_lba e) (e_lba_length e))
  | Data | Inline => ∃ bytes, out_tagged e bytes ∧ p = keep_data e bytes
  | CanonicalData | CanonicalInline => ∃ bytes, out_tagged e bytes ∧ p = demote_data e bytes
  | Delta => ∃ opts, Forall2 (rebased u st delta) (e_delta_options e) opts ∧
      p = from_entry (new_delta (e_hash e) (e_start_lba e) (e_lba_length e) opts)
  | CanonicalDelta => ∃ opts, Forall2 (rebased u st delta) (e_delta_options e) opts ∧ p = demote_delta e opts
  end.

(** A body kept without its claim. *)
Definition demoted (u : Ulid) (st : InputState) (delta : list Z) (e : SegmentEntry) (p : PendingEntry) : Prop :=
  (has_body_bytes (e_kind e) = true ∧ ∃ bytes, out_tagged e bytes ∧ p = demote_data e bytes) ∨
  (is_delta (e_kind e) = true ∧
   ∃ opts, Forall2 (rebased u st delta) (e_delta_options e) opts ∧ p = demote_delta e opts).

(** A fresh entry over blocks [off, off + n) of a body. *)
Definition sliced (e : SegmentEntry) (off start_lba n : Z) (p : PendingEntry) : Prop :=
  ∃ body c stored, let slice := bytes_in body (off * BLOCK_BYTES, (off + n) * BLOCK_BYTES) in
    composite_of e body ∧ (off + n) * BLOCK_BYTES ≤ blen body ∧
    p = new_data (blake3 slice) start_lba n c stored ∧
    (0 ≤ off → 0 < n → n * BLOCK_BYTES ≤ MAX_EXTENT_PLAINTEXT → decode c stored = Ok slice).

(** What a record puts in the output. *)
Definition carried (delta : list Z) (o : PlanOutput) (ps : list PendingEntry) : Prop :=
  match o with
  | DropInput _ => ps = []
  | Keep u idx => ∃ st e p, has_entry u idx st e ∧ ps = [p] ∧ kept u st delta e p
  | ZeroSplit u idx start_lba n =>
      ∃ st e, has_entry u idx st e ∧ e_kind e = Zero ∧ ps = [from_entry (new_zero start_lba n)]
  | Canonical u idx => ∃ st e p, has_entry u idx st e ∧ ps = [p] ∧ demoted u st delta e p
  | Run u idx off start_lba n =>
      (n = 0 ∧ ps = []) ∨ ∃ st e p, has_entry u idx st e ∧ ps = [p] ∧ sliced e off start_lba n p
  end.

(** ** Bodies *)

Lemma input_entry_spec u idx : reads (input_entry ctx u idx) (λ '(st, e), has_entry u idx st e).
Proof.
  unfold input_entry. destruct (input_states ctx !! u) as [st|] eqn:Hst; [|apply reads_cancel].
  destruct (is_entries st !! Z.to_nat idx) as [e|] eqn:He; [|apply reads_cancel].
  destruct (e_journal e) eqn:Hj, (allow_journal ctx) eqn:Ha; cbn [andb negb]; try apply reads_cancel;
    apply reads_ret; split_and!; congruence || done.
Qed.

Lemma reads_stored u idx st e :
  reads (read_input_extent_stored_bytes ctx u idx st e) (λ _, has_body_bytes (e_kind e) = true).
Proof.
  unfold read_input_extent_stored_bytes. destruct (has_body_bytes (e_kind e)); cbn [negb orb]; [|apply reads_cancel].
  destruct (is_inline (e_kind e)); [apply reads_cancel|].
  eapply reads_bind; [by apply (reads_io _ (λ _, True))|]. intros [path layout] _ _.
  eapply reads_bind; [by apply (reads_io _ (λ _, True))|]. intros f _ _.
  eapply reads_bind; [by apply (reads_io _ (λ _, True))|]. intros buf _ _.
  eapply reads_bind; [by apply (reads_charge _ (λ _, True))|]. intros _ _ _. by apply reads_ret.
Qed.

Lemma reads_inline st e :
  reads (read_input_inline_stored_bytes st e) (λ _, has_body_bytes (e_kind e) = true).
Proof.
  unfold read_input_inline_stored_bytes. destruct (is_inline (e_kind e)) eqn:E; [|apply reads_cancel]. cbn [negb].
  destruct (get_range _ _); [|apply reads_cancel]. apply reads_ret. by destruct (e_kind e).
Qed.

Lemma reads_decode stored c : reads (decode_body stored c) (λ plain, decode c stored = Ok plain).
Proof.
  eapply reads_bind; [by apply (reads_charge _ (λ _, True))|]. intros _ _ _. by apply reads_or.
Qed.

Lemma reads_verify_stored e bytes :
  has_body_bytes (e_kind e) = true → reads (verify_stored e bytes) (λ _, out_tagged e bytes).
Proof.
  intros Hb. eapply reads_bind; [by apply (reads_charge _ (λ _, True))|]. intros _ _ _. apply reads_or.
  intros []. unfold verify_stored_hash. rewrite Hb. cbn [negb]. unfold out_tagged.
  destruct (e_stored_hash e); [|done]. case_decide; [|done]. by subst.
Qed.

Lemma reads_verify_plaintext e plain :
  has_body_bytes (e_kind e) = true → reads (verify_plaintext e plain) (λ _, blake3 plain = e_hash e).
Proof.
  intros Hb. eapply reads_bind; [by apply (reads_charge _ (λ _, True))|]. intros _ _ _. apply reads_or.
  intros []. unfold verify_plaintext_hash. rewrite Hb. cbn [negb]. by case_decide.
Qed.

Lemma reads_blob u st off len : reads (read_input_delta_blob ctx u st off len) (λ _, True).
Proof.
  unfold read_input_delta_blob. eapply (reads_bind _ _ (λ _, True)).
  - destruct (br_locate_segment_unchecked _ _) as [[path []]|];
      (eapply reads_bind; [by apply (reads_io _ (λ _, True))|]; intros f _ _; by apply reads_io).
  - intros buf _ _. eapply reads_bind; [by apply (reads_charge _ (λ _, True))|]. intros _ _ _. by apply reads_ret.
Qed.

Lemma reads_resolve h : reads (resolve_body_by_hash_decompressed ctx h) (λ _, True).
Proof.
  unfold resolve_body_by_hash_decompressed. destruct (ExtentIndex.lookup _ h) as [loc|]; [|apply reads_cancel].
  destruct (inline_data loc); [by eapply reads_weaken; [apply reads_decode|]|].
  eapply reads_bind; [by apply (reads_io _ (λ _, True))|]. intros [path layout] _ _.
  eapply reads_bind; [by apply (reads_io _ (λ _, True))|]. intros f _ _.
  eapply reads_bind; [by apply (reads_io _ (λ _, True))|]. intros buf _ _.
  by eapply reads_weaken; [apply reads_decode|].
Qed.

Lemma reads_delta_composite u st e :
  reads (delta_composite ctx u st e) (λ body, blake3 body = e_hash e).
Proof.
  unfold delta_composite. destruct (List.find _ _) as [opt|]; [|apply reads_cancel].
  eapply reads_bind; [apply reads_resolve|]. intros base _ _.
  eapply reads_bind; [apply reads_blob|]. intros blob _ _.
  eapply reads_bind; [by apply (reads_or _ _ (λ _, True))|]. intros body _ _.
  destruct (decide (blake3 body ≠ e_hash e)) as [|Hh%dec_stable]; [apply reads_cancel|by apply reads_ret].
Qed.

(** A body to slice, with the entry it is of. *)
Definition sliceable (u : Ulid) (idx : Z) (body : list Z) : Prop :=
  ∃ st e, has_entry u idx st e ∧ composite_of e body.

Lemma reads_composite u idx : reads (compute_composite_body ctx u idx) (sliceable u idx).
Proof.
  unfold compute_composite_body. eapply reads_bind; [apply input_entry_spec|]. intros [st e] _ He.
  eapply (reads_bind _ _ (λ body, match e_kind e with
    | Data | Inline | Delta => blake3 body = e_hash e
    | DedupRef => served (resolve_body_by_hash_decompressed ctx (e_hash e)) body
    | _ => False end)).
  - destruct (e_kind e) eqn:Hk; try apply reads_cancel.
    + eapply reads_bind; [apply reads_stored|]. intros stored _ Hb.
      eapply reads_bind; [apply reads_decode|]. intros plain _ _.
      eapply reads_bind; [by apply reads_verify_plaintext|]. intros [] _ Hh. by apply reads_ret.
    + intros s s' body Hrun. destruct (reads_resolve _ _ _ _ Hrun) as (? & ? & ? & _). split_and!; [done..|by exists s, s'].
    + eapply reads_bind; [apply reads_inline|]. intros stored _ Hb.
      eapply reads_bind; [apply reads_decode|]. intros plain _ _.
      eapply reads_bind; [by apply reads_verify_plaintext|]. intros [] _ Hh. by apply reads_ret.
    + apply reads_delta_composite.
  - intros body _ Hbody. destruct (decide (blen body ≠ _)) as [|Hl%dec_stable]; [apply reads_cancel|].
    apply reads_ret. exists st, e. split; [done|]. by split.
Qed.

(** ** Emissions *)

Lemma blob_at_grow delta x off blob : blob_at delta off blob → blob_at (delta ++ x) off blob.
Proof. intros (b & a & -> & Hl). exists b, (a ++ x). by rewrite <-!app_assoc. Qed.

Lemma rebased_grow u st delta x o o' : rebased u st delta o o' → rebased u st (delta ++ x) o o'.
Proof. intros (? & ? & ? & blob & ? & ?). split_and!; [done..|]. exists blob. split; [done|by apply blob_at_grow]. Qed.

Lemma all_rebased_grow u st delta x os os' :
  Forall2 (rebased u st delta) os os' → Forall2 (rebased u st (delta ++ x)) os os'.
Proof. intros H. eapply Forall2_impl; [exact H|]. intros. by apply rebased_grow. Qed.

Lemma carried_grow delta x o ps : carried delta o ps → carried (delta ++ x) o ps.
Proof.
  destruct o as [u idx|u idx s n|u idx|u idx off s n|u]; cbn [carried]; [|done| |done|done].
  - intros (st & e & p & He & -> & Hk). exists st, e, p. split_and!; [done..|]. unfold kept in *.
    destruct (e_kind e); try done; destruct Hk as (opts & Hr & ->); exists opts; (split; [by apply all_rebased_grow|done]).
  - intros (st & e & p & He & -> & Hd). exists st, e, p. split_and!; [done..|].
    destruct Hd as [Hd|(Hk & opts & Hr & ->)]; [by left|]. right. split; [done|].
    exists opts. split; [by apply all_rebased_grow|done].
Qed.

Definition slot_ok (s : MatState) : Prop :=
  ∀ c, ms_slot s = Some c → sliceable (cs_key c).1 (cs_key c).2 (cs_body c).

(** A step of the materialisation: what it adds satisfies [P]. *)
Definition emits (m : MM unit) (P : list Z → list PendingEntry → Prop) : Prop := ∀ s s', slot_ok s → m s = (s', inl ()) →
  slot_ok s' ∧ ∃ ps blob, ms_entries s' = ms_entries s ++ ps ∧ ms_delta s' = ms_delta s ++ blob ∧ P (ms_delta s') ps.

Lemma emits_weaken m (P Q : list Z → list PendingEntry → Prop) : emits m P → (∀ d ps, P d ps → Q d ps) → emits m Q.
Proof. intros Hm HPQ s s' Hs Hr. destruct (Hm _ _ Hs Hr) as (? & ps & b & ? & ? & ?). split; [done|]. exists ps, b. auto. Qed.

Lemma emits_none P : (∀ d, P d []) → emits (mret ()) P.
Proof. intros HP s s' Hs [= <-]. split; [done|]. exists [], []. by rewrite !app_nil_r. Qed.

Lemma emits_push p P : (∀ d, P d [p]) → emits (push_entry p) P.
Proof. intros HP s s' Hs [= <-]. split; [done|]. exists [p], []. cbn. by rewrite app_nil_r. Qed.

Lemma emits_cancel e P : emits (mm_cancel e) P.
Proof. by intros s s' _. Qed.

Lemma emits_after {A} (m : MM A) Q (f : A → MM unit) P :
  reads m Q → (∀ x, Q x → emits (f x) P) → emits (m ≫= f) P.
Proof.
  intros Hm Hf s s' Hs (s1 & x & Hx & Hy)%mm_bind_inl. destruct (Hm _ _ _ Hx) as (He & Hd & Hsl & Hq).
  rewrite <-He, <-Hd. apply (Hf x Hq); [|done]. intros c Hc. apply Hs. congruence.
Qed.

Lemma carry_spec u st options s s' opts :
  carry_delta_blobs ctx u st options s = (s', inl opts) →
  ms_entries s' = ms_entries s ∧ ms_slot s' = ms_slot s ∧
  ∃ blob, ms_delta s' = ms_delta s ++ blob ∧ Forall2 (rebased u st (ms_delta s')) options opts.
Proof.
  revert s s' opts. induction options as [|o os IH]; intros s s' opts; cbn [carry_delta_blobs].
  { intros [= <- <-]. split_and!; [done..|]. exists []. by rewrite app_nil_r. }
  intros (s1 & blob & Hb & H1)%mm_bind_inl. apply mm_bind_inl in H1 as (s2 & off & Hp & H2).
  apply mm_bind_inl in H2 as (s3 & rest & Hc & [= <- <-]).
  destruct (reads_blob _ _ _ _ _ _ _ Hb) as (He1 & Hd1 & Hs1 & _).
  injection Hp as <- <-. destruct (IH _ _ _ Hc) as (He3 & Hs3 & more & Hd3 & Hall). cbn in *.
  split; [congruence|]. split; [congruence|]. exists (blob ++ more). split; [by rewrite Hd3, Hd1, app_assoc|].
  constructor; [|done]. split_and!; [done..|]. exists blob. split; [by eexists _, _|].
  cbn [delta_offset]. exists (ms_delta s1), more. by rewrite Hd3, app_assoc.
Qed.

Lemma emits_carried u st options (f : list DeltaOption → PendingEntry) P :
  (∀ d opts, Forall2 (rebased u st d) options opts → P d [f opts]) →
  emits (opts ← carry_delta_blobs ctx u st options; push_entry (f opts)) P.
Proof.
  intros HP s s' Hs (s1 & opts & Hc & [= <-])%mm_bind_inl. apply carry_spec in Hc as (He & Hsl & blob & Hd & Hall).
  split; [intros c Hc; apply Hs; cbn in Hc; congruence|]. exists [f opts], blob. cbn. rewrite He. split_and!; [done..|auto].
Qed.

(** Copy a body under its tag. *)
Lemma emits_copy (m : MM (list Z)) e (f : list Z → PendingEntry) P :
  reads m (λ _, has_body_bytes (e_kind e) = true) →
  (∀ d bytes, has_body_bytes (e_kind e) = true → out_tagged e bytes → P d [f bytes]) →
  emits (bytes ← m; _ ← verify_stored e bytes; push_entry (f bytes)) P.
Proof.
  intros Hm HP. eapply emits_after; [exact Hm|]. intros bytes Hb.
  eapply emits_after; [by apply (reads_verify_stored e bytes)|]. intros [] Ht. apply emits_push. auto.
Qed.

Lemma emit_keep_spec u idx : emits (emit_keep ctx u idx) (λ d ps, carried d (Keep u idx) ps).
Proof.
  unfold emit_keep. eapply emits_after; [apply input_entry_spec|]. intros [st e] He.
  eapply (emits_weaken _ (λ d ps, ∃ p, ps = [p] ∧ kept u st d e p));
    [|intros d ps (p & -> & Hk); by exists st, e, p].
  destruct (e_kind e) eqn:Hk.
  - apply emits_copy; [apply reads_stored|]. intros d bytes _ Ht. exists (keep_data e bytes).
    unfold kept. rewrite Hk. eauto.
  - apply emits_push. intros d. eexists; split; [done|]. unfold kept. by rewrite Hk.
  - apply emits_push. intros d. eexists; split; [done|]. unfold kept. by rewrite Hk.
  - apply emits_copy; [apply reads_inline|]. intros d bytes _ Ht. exists (keep_data e bytes).
    unfold kept. rewrite Hk. eauto.
  - apply emits_carried. intros d opts Ho. eexists; split; [done|]. unfold kept. rewrite Hk. eauto.
  - apply emits_copy; [apply reads_stored|]. intros d bytes _ Ht. exists (demote_data e bytes).
    unfold kept. rewrite Hk. eauto.
  - apply emits_copy; [apply reads_inline|]. intros d bytes _ Ht. exists (demote_data e bytes).
    unfold kept. rewrite Hk. eauto.
  - apply emits_carried. intros d opts Ho. eexists; split; [done|]. unfold kept. rewrite Hk. eauto.
Qed.

Lemma emit_canonical_spec u idx : emits (emit_canonical ctx u idx) (λ d ps, carried d (Canonical u idx) ps).
Proof.
  unfold emit_canonical. eapply emits_after; [apply input_entry_spec|]. intros [st e] He.
  eapply (emits_weaken _ (λ d ps, ∃ p, ps = [p] ∧ demoted u st d e p));
    [|intros d ps (p & -> & Hk); by exists st, e, p].
  assert (∀ m, reads m (λ _, has_body_bytes (e_kind e) = true) →
    emits (bytes ← m; _ ← verify_stored e bytes; push_entry (demote_data e bytes))
      (λ d ps, ∃ p, ps = [p] ∧ demoted u st d e p)) as Hcopy.
  { intros m Hm. apply emits_copy; [done|]. intros d bytes Hb Ht. eexists; split; [done|]. left. eauto. }
  assert (is_delta (e_kind e) = true →
    emits (opts ← carry_delta_blobs ctx u st (e_delta_options e); push_entry (demote_delta e opts))
      (λ d ps, ∃ p, ps = [p] ∧ demoted u st d e p)) as Hcarry.
  { intros Hd. apply emits_carried. intros d opts Ho. eexists; split; [done|]. right. eauto. }
  pose proof (Hcopy _ (reads_stored u idx st e)). pose proof (Hcopy _ (reads_inline st e)).
  destruct (e_kind e) eqn:Hk; try apply emits_cancel; auto.
Qed.

Lemma resolve_composite_spec u idx s s' body :
  slot_ok s → resolve_composite_body ctx u idx s = (s', inl body) →
  slot_ok s' ∧ ms_entries s' = ms_entries s ∧ ms_delta s' = ms_delta s ∧ sliceable u idx body.
Proof.
  intros Hs (s1 & slot & [= <- <-] & H)%mm_bind_inl.
  assert (∀ s', (body ← compute_composite_body ctx u idx; _ ← set_slot (Some (mkCompositeSlot (u, idx) body)); mret body) s
            = (s', inl body) →
          slot_ok s' ∧ ms_entries s' = ms_entries s ∧ ms_delta s' = ms_delta s ∧ sliceable u idx body) as Hmiss.
  { intros s2 (s3 & b & Hb & H2)%mm_bind_inl. apply mm_bind_inl in H2 as (s4 & [] & [= <-] & [= <- ->]).
    destruct (reads_composite _ _ _ _ _ Hb) as (? & ? & _ & Hc). split_and!; [|done..]. by intros c [= <-]. }
  destruct (ms_slot s) as [c|] eqn:Hc; [|by apply Hmiss]. destruct (decide (cs_key c = (u, idx))) as [Hk|]; [|by apply Hmiss].
  injection H as <- <-. split_and!; [done..|]. specialize (Hs c Hc). by rewrite Hk in Hs.
Qed.

Lemma emit_run_spec u idx off start_lba n :
  0 ≤ off → 0 ≤ n → emits (emit_run ctx u idx off start_lba n) (λ d ps, carried d (Run u idx off start_lba n) ps).
Proof.
  intros Hoff Hn. unfold emit_run. destruct (decide (n = 0)) as [->|]; [apply emits_none; by left|].
  intros s s' Hs (s1 & body & Hb & H)%mm_bind_inl.
  destruct (resolve_composite_spec _ _ _ _ _ Hs Hb) as (Hs1 & He1 & Hd1 & st & e & He & Hc).
  rewrite <-He1, <-Hd1. revert Hs1 H. generalize s1. clear s s1 Hs He1 Hd1 Hb. intros s Hs H.
  replace (off * BLOCK_BYTES + n * BLOCK_BYTES) with ((off + n) * BLOCK_BYTES) in H by lia.
  revert s s' Hs H. change (emits
    (if decide (blen body < (off + n) * BLOCK_BYTES) then mm_cancel Internal
     else let slice := bytes_in body (off * BLOCK_BYTES, (off + n) * BLOCK_BYTES) in
       _ ← charge_recompress (blen slice);
       encoded ← mm_io (compress_body slice (allow_journal ctx));
       let '(c, b) := match encoded with Some cb => cb | None => (CodecNone, slice) end in
       push_entry (new_data (blake3 slice) start_lba n c b)) (λ d ps, carried d (Run u idx off start_lba n) ps)).
  case_decide as Hlen; [apply emits_cancel|]. set (slice := bytes_in _ _).
  assert (blen slice = n * BLOCK_BYTES) as Hsl.
  { subst slice. unfold bytes_in, blen. cbn [fst snd]. rewrite length_take, length_drop. unfold blen, BLOCK_BYTES in *. lia. }
  eapply emits_after; [by apply (reads_charge _ (λ _, True))|]. intros _ _.
  eapply emits_after; [by apply (reads_io _ (λ x, compress_body slice (allow_journal ctx) = Ok x))|].
  intros encoded Henc. destruct (match encoded with Some cb => cb | None => _ end) as [c b] eqn:Hcb. apply emits_push.
  intros d. right. exists st, e, (new_data (blake3 slice) start_lba n c b). split_and!; [done..|].
  exists body, c, b. cbv zeta. fold slice. split_and!; [done|lia|done|]. intros _ Hpos Hmax.
  destruct encoded as [[c' b']|]; injection Hcb as <- <-; [|done].
  eapply compress_body_decodes; [|exact Henc]. rewrite Hsl. unfold BLOCK_BYTES in *. lia.
Qed.

Lemma apply_one_spec o : output_ok o → emits (apply_one_output ctx o) (λ d ps, carried d o ps).
Proof.
  intros [_ Ho]. destruct o as [u idx|u idx st n|u idx|u idx off st n|u]; cbn [apply_one_output].
  - apply emit_keep_spec.
  - unfold emit_zero_split. eapply emits_after; [apply input_entry_spec|]. intros [state e] He.
    destruct (decide (e_kind e ≠ Zero)) as [|Hz%dec_stable]; [apply emits_cancel|]. apply emits_push. intros d.
    by exists state, e.
  - apply emit_canonical_spec.
  - apply emit_run_spec; lia.
  - by apply emits_none.
Qed.

Lemma apply_outputs_spec os s s' :
  Forall output_ok os → slot_ok s → apply_outputs ctx os s = (s', inl ()) →
  ∃ groups blob, ms_entries s' = ms_entries s ++ concat groups ∧ ms_delta s' = ms_delta s ++ blob ∧
    Forall2 (carried (ms_delta s')) os groups.
Proof.
  intros Hos. revert s. induction Hos as [|o os Ho _ IH]; intros s Hs; cbn [apply_outputs].
  { intros [= <-]. exists [], []. by rewrite !app_nil_r. }
  intros (s1 & [] & H1 & H2)%mm_bind_inl. destruct (apply_one_spec o Ho _ _ Hs H1) as (Hs1 & ps & b1 & He1 & Hd1 & Hc).
  destruct (IH s1 Hs1 H2) as (groups & b2 & He2 & Hd2 & Hall). exists (ps :: groups), (b1 ++ b2). cbn [concat].
  rewrite He2, He1, Hd2, Hd1, <-!app_assoc. split_and!; [done..|]. constructor; [|by rewrite Hd2, Hd1 in Hall; rewrite <-app_assoc in Hall].
  rewrite app_assoc, <-Hd1. by apply carried_grow.
Qed.
End spec.

(** ** Properties *)

(** C36: a materialisation carries exactly what its plan says. The output's
    entries are the records' own, in plan order: entries passed through or
    demoted with their bytes under the tag the input's index gives them, delta
    options re-based onto copies of their blobs, and for each sub-run a fresh
    entry whose stored form decodes to the blocks the record names of a body
    that hashes to its entry's content hash (a dedup ref's body is the one the
    extent index locates). The composite slot never changes a body. *)
Theorem materialise_sound {HB : Blake3} {HL : Lz4Block} {HC : Lz4Codec} {HT : Blake3Tree} {HZ : ZstdBulk} {HD : ZstdDict}
    plan ctx cost cost' m :
  Forall output_ok (outputs plan) → materialise_plan plan ctx cost = (cost', inl m) →
  ∃ groups, m_entries m = concat groups ∧ Forall2 (carried ctx (m_delta_body m)) (outputs plan) groups.
Proof.
  intros Hok. unfold materialise_plan. destruct (apply_outputs _ _ _) as [s [[]|e]] eqn:Hrun; [|done].
  intros [= <- <-]. assert (slot_ok ctx (mkMatState cost [] [] None)) as Hs by (intros c Hc; discriminate Hc).
  destruct (apply_outputs_spec ctx (outputs plan) _ s Hok Hs Hrun) as (groups & b & He & _ & Hall).
  by exists groups.
Qed.

(** An input with one data entry of three blocks, its middle overwritten. *)
Definition three_blocks : list Z :=
  replicate (Z.to_nat 4096) 1 ++ replicate (Z.to_nat 4096) 2 ++ replicate (Z.to_nat 4096) 3.
Definition three_entry (kind : EntryKind) : SegmentEntry :=
  mkSegmentEntry (@blake3 toy_blake3 three_blocks) 10 3 CodecNone kind 0 12288 None [] false None
    (Some (@stored_hash toy_blake3 three_blocks)).
Definition three_resolver : BodyResolver :=
  mkBodyResolver (λ id _ _, Ok (mkPath 0 InOpen id, FullSegment)) (λ _, None) (λ _, Err NotFound) (λ _, Ok three_blocks).
Definition three_ctx (kind : EntryKind) (ix : ExtentIndex) : MaterialiseCtx :=
  mkMaterialiseCtx {[ 5 := mkInputState [three_entry kind] [] 0 12288 ]} ix three_resolver false.
Definition three_plan : RewritePlan := mkRewritePlan 9 [Canonical 5 0; Run 5 0 0 10 1; Run 5 0 2 12 1].

Definition materialised_hashes (r : MaterialiseCost * (Materialised + MaterialiseOutcome)) : option (list (Hash * Z * Z)) :=
  match r with
  | (_, inl m) => Some (map (λ p, (e_hash (pe_entry p), e_start_lba (pe_entry p), e_lba_length (pe_entry p))) (m_entries m))
  | _ => None
  end.

Lemma materialise_sound_witness :
  let r := @materialise_plan toy_blake3 rle_lz4 rle_codec toy_tree toy_zstd toy_dict three_plan
             (three_ctx Data ei_new) cost_default in
  materialised_hashes r =
    Some [(@blake3 toy_blake3 three_blocks, 0, 0); (@blake3 toy_blake3 (replicate (Z.to_nat 4096) 1), 10, 1);
          (@blake3 toy_blake3 (replicate (Z.to_nat 4096) 3), 12, 1)] ∧
  match r.2 with
  | inl m => ∃ groups, m_entries m = concat groups ∧
      Forall2 (@carried toy_blake3 rle_lz4 rle_codec toy_zstd (three_ctx Data ei_new) (m_delta_body m))
        (outputs three_plan) groups
  | inr _ => False
  end.
Proof.
  intros r. assert (materialised_hashes r =
    Some [(@blake3 toy_blake3 three_blocks, 0, 0); (@blake3 toy_blake3 (replicate (Z.to_nat 4096) 1), 10, 1);
          (@blake3 toy_blake3 (replicate (Z.to_nat 4096) 3), 12, 1)]) as Hr by (vm_compute; reflexivity).
  split; [exact Hr|]. destruct r as [cost' [m|e]] eqn:E; [|discriminate Hr].
  apply (@materialise_sound toy_blake3 rle_lz4 rle_codec toy_tree toy_zstd toy_dict three_plan (three_ctx Data ei_new)
           cost_default cost' m); [|exact E].
  repeat constructor; discriminate.
Defined.

(** A dedup ref's body is not held to its hash: a corrupted body under it is
    sliced into fresh entries with hashes of their own, while the same bytes
    under a data entry are refused. *)
Definition corrupt_blocks : list Z := replicate (Z.to_nat 12288) 0.
Definition corrupt_resolver : BodyResolver :=
  mkBodyResolver (λ id _ _, Ok (mkPath 0 InOpen id, FullSegment)) (λ _, None) (λ _, Err NotFound) (λ _, Ok corrupt_blocks).
Definition corrupt_ctx (kind : EntryKind) : MaterialiseCtx :=
  mkMaterialiseCtx {[ 5 := mkInputState [three_entry kind] [] 0 12288 ]}
    (ExtentIndex.insert ei_new (@blake3 toy_blake3 three_blocks) (mkExtentLocation 6 0 12288 CodecNone Local 0 None))
    corrupt_resolver false.
Definition run_plan : RewritePlan := mkRewritePlan 9 [Run 5 0 2 12 1].

Lemma dedup_run_unverified :
  @blake3 toy_blake3 corrupt_blocks ≠ @blake3 toy_blake3 three_blocks ∧
  materialised_hashes (@materialise_plan toy_blake3 rle_lz4 rle_codec toy_tree toy_zstd toy_dict run_plan
    (corrupt_ctx DedupRef) cost_default) = Some [(@blake3 toy_blake3 (replicate (Z.to_nat 4096) 0), 12, 1)] ∧
  (@materialise_plan toy_blake3 rle_lz4 rle_codec toy_tree toy_zstd toy_dict run_plan
    (corrupt_ctx Data) cost_default).2 = inr (OutCancel BodyIntegrity).
Proof. split_and!; [by vm_compute|vm_compute; reflexivity|vm_compute; reflexivity]. Qed.
