(* ===== verification/LbaRanges.v ===== *)
(** * Coverage queries and the resolvability gate (elide-core/src/volume/mod.rs)

    Disjoint half-open ranges, ascending, and the check a fold runs before it
    lands. *)

From stdpp Require Import base gmap list sorting.
From S2P Require Import Prelude Segment LbaMap LbaMapFacts LbaMapSpec ExtentIndex MapLayers.
Open Scope Z_scope.

(** ** Ranges *)

Definition claim_range (e : SegmentEntry) : Z * Z := (e_start_lba e, u64_add (e_start_lba e) (e_lba_length e)).
Definition claim_ranges (entries : list SegmentEntry) : list (Z * Z) :=
  map claim_range (filter (λ e, is_canonical_only (e_kind e) = false) entries).

Definition lex (a b : Z * Z) : Prop := a.1 < b.1 ∨ (a.1 = b.1 ∧ a.2 ≤ b.2).
#[export] Instance lex_dec a b : Decision (lex a b).
Proof. unfold lex. apply _. Defined.
#[export] Instance lex_total : Total lex.
Proof. intros a b. unfold lex. lia. Qed.
#[export] Instance lex_trans : Transitive lex.
Proof. intros a b c. unfold lex. lia. Qed.

(** The merge loop, the last merged range held apart. *)
Fixpoint coalesce (last : Z * Z) (ranges : list (Z * Z)) : list (Z * Z) :=
  match ranges with
  | [] => [last]
  | r :: ranges =>
      if decide (r.1 ≤ last.2) then coalesce (last.1, Z.max last.2 r.2) ranges else last :: coalesce r ranges
  end.

Definition lr_new (ranges : list (Z * Z)) : list (Z * Z) :=
  match merge_sort lex (filter (λ r, r.1 < r.2) ranges) with
  | [] => []
  | r :: ranges => coalesce r ranges
  end.

Definition lr_from_claims (entries : list SegmentEntry) : list (Z * Z) := lr_new (claim_ranges entries).
Definition lr_from_claims_and_ranges (entries : list SegmentEntry) (ranges : list (Z * Z)) : list (Z * Z) :=
  lr_new (claim_ranges entries ++ map (λ '(s, l), (s, u64_add s l)) ranges).

(** [partition_point] over ranges in order: how many of them, from the front. *)
Fixpoint partition_point (p : Z * Z → bool) (l : list (Z * Z)) : nat :=
  match l with [] => O | x :: l => if p x then S (partition_point p l) else O end.

Definition next_start_after (l : list (Z * Z)) (lba : Z) : option Z :=
  fst <$> l !! partition_point (λ r, bool_decide (r.1 ≤ lba)) l.

(** The scan from the predecessor: [None] when it reaches [end_]. *)
Fixpoint advance (l : list (Z * Z)) (cursor end_ : Z) : option Z :=
  match l with
  | [] => Some cursor
  | r :: l =>
      if decide (cursor < r.1) then Some cursor
      else let cursor := Z.max cursor r.2 in if decide (end_ ≤ cursor) then None else advance l cursor end_
  end.

Definition first_gap_in (l : list (Z * Z)) (start end_ : Z) : option (Z * Z) :=
  let from := partition_point (λ r, bool_decide (r.1 ≤ start)) l in
  match advance (drop (from - 1) l) start end_ with
  | None => None
  | Some cursor =>
      if decide (cursor < end_) then Some (cursor, Z.min end_ (default end_ (next_start_after l cursor))) else None
  end.

(** ** The gate *)

Record UnresolvableHashes := mkUnresolvable { uh_total : Z; uh_sample : list (Z * Hash) }.
Definition REFUSAL_SAMPLE_LIMIT : nat := 8.

(** A hash the claimant-free tiers resolve. *)
Definition resolves_free (ix : ExtentIndex) (h : Hash) : bool :=
  match ExtentIndex.lookup ix h with
  | Some _ => true
  | None =>
      match ExtentIndex.lookup_delta ix h with
      | Some loc => existsb (λ o, bool_decide (is_Some (ExtentIndex.lookup ix (source_hash o)))) (d_options loc)
      | None => false
      end
  end.

Definition residual (m : Maps) (footprint : gset Hash) : gset Hash :=
  filter (λ h, h ≠ ZERO_HASH ∧ claim_refcount (lbamap m) h ≠ 0 ∧ resolves_free (extent_index m) h = false) footprint.

(** The claims of the residual hashes whose journal copy is missing. *)
Definition strands (m : Maps) (res : gset Hash) (x : ExtentRead) : bool :=
  bool_decide (er_hash x ∈ res)
  && bool_decide (ExtentIndex.lookup_journal (extent_index m) (er_claimant x) (er_hash x) = None).

Definition unresolvable_footprint_hashes (m : Maps) (footprint : gset Hash) (ranges : list (Z * Z)) (limit : nat)
    : UnresolvableHashes :=
  let res := residual m footprint in
  if decide (res = ∅) then mkUnresolvable 0 []
  else
    let found := filter (λ x, strands m res x = true)
                   (concat (map (λ r, LbaMap.extents_in_range (lbamap m) r.1 r.2) ranges)) in
    mkUnresolvable (Z.of_nat (length found)) (map (λ x, (range_start x, er_hash x)) (take limit found)).
