(* ===== verification/LbaRangesSpec.v ===== *)
(** * Coverage queries are exact, and the gate is sound *)

From stdpp Require Import base gmap list sorting.
From S2P Require Import Prelude Segment LbaMap LbaMapFacts LbaMapSpec ExtentIndex MapLayers LbaRanges.
Open Scope Z_scope.

(** Disjoint, non-adjacent, ascending ranges above [cur]. *)
Fixpoint spaced (cur : Z) (l : list (Z * Z)) : Prop :=
  match l with [] => True | r :: l => cur < r.1 ∧ r.1 < r.2 ∧ spaced r.2 l end.

Lemma in_ranges_cons x r l : in_ranges x (r :: l) ↔ r.1 ≤ x < r.2 ∨ in_ranges x l.
Proof. unfold in_ranges. by rewrite Exists_cons. Qed.

Lemma in_ranges_nil x : ¬ in_ranges x [].
Proof. intros H. by apply Exists_nil in H. Qed.

Lemma in_ranges_elem x l : in_ranges x l ↔ ∃ r, r ∈ l ∧ r.1 ≤ x < r.2.
Proof. apply Exists_exists. Qed.

Lemma spaced_above cur l x : spaced cur l → in_ranges x l → cur < x.
Proof.
  revert cur. induction l as [|r l IH]; intros cur; [by intros _ ?%in_ranges_nil|].
  intros (? & ? & Hl) [?|Hx]%in_ranges_cons; [lia|]. specialize (IH _ Hl Hx). lia.
Qed.

Lemma coalesce_spec rs last cur :
  cur < last.1 < last.2 → StronglySorted lex rs → Forall (λ r, last.1 ≤ r.1 ∧ r.1 < r.2) rs →
  spaced cur (coalesce last rs) ∧ ∀ x, in_ranges x (coalesce last rs) ↔ last.1 ≤ x < last.2 ∨ in_ranges x rs.
Proof.
  revert last cur. induction rs as [|r rs IH]; intros last cur Hlast Hs Hf; cbn [coalesce].
  { split; [simpl; lia|]. intros x. rewrite in_ranges_cons. pose proof (in_ranges_nil x). tauto. }
  apply StronglySorted_inv in Hs as [Hs Hr]. apply Forall_cons in Hf as [[Hr1 Hr2] Hf]. case_decide.
  - assert (Forall (λ r', last.1 ≤ r'.1 ∧ r'.1 < r'.2) rs) as Hf' by done.
    destruct (IH (last.1, Z.max last.2 r.2) cur) as [H1 H2]; [simpl; lia|done|done|]. split; [done|].
    intros x. rewrite H2, in_ranges_cons. simpl.
    destruct (decide (x < last.2)), (decide (x < r.2)), (decide (r.1 ≤ x)), (decide (last.1 ≤ x)); intuition lia.
  - assert (Forall (λ r', r.1 ≤ r'.1 ∧ r'.1 < r'.2) rs) as Hf'.
    { apply Forall_forall. intros y Hy. pose proof (proj1 (Forall_forall _ _) Hr y Hy) as Hlex.
      pose proof (proj1 (Forall_forall _ _) Hf y Hy) as Hfy. unfold lex in Hlex. cbn beta in Hlex, Hfy. lia. }
    destruct (IH r last.2) as [H1 H2]; [lia|done|done|]. split; [simpl; split_and!; [lia|lia|done]|].
    intros x. rewrite in_ranges_cons, H2, in_ranges_cons. tauto.
Qed.

Lemma lr_new_spec rs : (∃ cur, spaced cur (lr_new rs)) ∧ ∀ x, in_ranges x (lr_new rs) ↔ in_ranges x rs.
Proof.
  unfold lr_new. pose proof (merge_sort_Permutation lex (filter (λ r, r.1 < r.2) rs)) as Hp.
  pose proof (StronglySorted_merge_sort lex (filter (λ r, r.1 < r.2) rs)) as Hs.
  assert (∀ x, in_ranges x (merge_sort lex (filter (λ r, r.1 < r.2) rs)) ↔ in_ranges x rs) as Hin.
  { intros x. rewrite !in_ranges_elem. split; intros (r & Hr & Hx).
    - rewrite Hp in Hr. apply list_elem_of_filter in Hr as [_ Hr]. by exists r.
    - exists r. split; [|done]. rewrite Hp. apply list_elem_of_filter. split; [lia|done]. }
  assert (Forall (λ r, r.1 < r.2) (merge_sort lex (filter (λ r, r.1 < r.2) rs))) as Hf.
  { rewrite Hp. apply Forall_forall. intros r [? _]%list_elem_of_filter. done. }
  destruct (merge_sort lex _) as [|r l].
  { split; [by exists 0|]. intros x. by rewrite <-Hin. }
  apply StronglySorted_inv in Hs as [Hs Hr]. apply Forall_cons in Hf as [Hr2 Hf].
  assert (Forall (λ r', r.1 ≤ r'.1 ∧ r'.1 < r'.2) l) as Hf'.
  { apply Forall_forall. intros y Hy. pose proof (proj1 (Forall_forall _ _) Hr y Hy) as Hlex.
    pose proof (proj1 (Forall_forall _ _) Hf y Hy) as Hfy. unfold lex in Hlex. cbn beta in Hlex, Hfy. lia. }
  destruct (coalesce_spec l r (r.1 - 1)) as [H1 H2]; [lia|done|done|]. split; [by exists (r.1 - 1)|].
  intros x. by rewrite H2, <-Hin, in_ranges_cons.
Qed.

(** ** The scan *)

Lemma advance_spec cur l cursor end_ :
  spaced cur l → cursor < end_ →
  match advance l cursor end_ with
  | None => ∀ x, cursor ≤ x < end_ → in_ranges x l
  | Some c => cursor ≤ c < end_ ∧ (∀ x, cursor ≤ x < c → in_ranges x l) ∧ ¬ in_ranges c l
  end.
Proof.
  revert cur cursor. induction l as [|r l IH]; intros cur cursor Hl Hc; cbn [advance].
  { split_and!; [lia|lia|lia|apply in_ranges_nil]. }
  destruct Hl as (Hr & Hr2 & Hl). case_decide as Hb.
  - split_and!; [lia|lia|lia|]. rewrite in_ranges_cons. intros [?|Hx]; [lia|]. apply (spaced_above r.2) in Hx; [lia|done].
  - case_decide as He; [intros x Hx; rewrite in_ranges_cons; left; lia|].
    specialize (IH r.2 (Z.max cursor r.2) Hl ltac:(lia)). destruct (advance l _ _) as [c|].
    + destruct IH as (Hc1 & Hin & Hn). split; [lia|]. split.
      * intros x Hx. rewrite in_ranges_cons. destruct (decide (x < Z.max cursor r.2)); [left; lia|right; apply Hin; lia].
      * rewrite in_ranges_cons. intros [?|?]; [lia|done].
    + intros x Hx. rewrite in_ranges_cons. destruct (decide (x < Z.max cursor r.2)); [left; lia|right; apply IH; lia].
Qed.

(** The ranges below the predecessor do not move the cursor. *)
Lemma advance_from cur l start end_ :
  spaced cur l → start < end_ →
  advance (drop (partition_point (λ r, bool_decide (r.1 ≤ start)) l - 1) l) start end_ = advance l start end_.
Proof.
  revert cur. induction l as [|r l IH]; intros cur Hl Hs; [done|]. destruct Hl as (Hr & Hr2 & Hl).
  cbn [partition_point]. destruct (bool_decide_reflect (r.1 ≤ start)); [|done].
  specialize (IH _ Hl Hs). destruct (partition_point _ l) as [|n] eqn:Hn; [done|].
  change (S (S n) - 1)%nat with (S n). cbn [drop]. replace n with (S n - 1)%nat by lia. rewrite IH.
  destruct l as [|r' l]; [done|]. cbn [partition_point] in Hn. destruct (bool_decide_reflect (r'.1 ≤ start)); [|done].
  destruct Hl as (? & ? & _). change (advance (r :: r' :: l) start end_) with
    (if decide (start < r.1) then Some start
     else if decide (end_ ≤ Z.max start r.2) then None else advance (r' :: l) (Z.max start r.2) end_).
  rewrite (decide_False (P := start < r.1)) by lia. rewrite (decide_False (P := end_ ≤ _)) by lia.
  by replace (Z.max start r.2) with start by lia.
Qed.

Lemma next_start_cons r l lba :
  next_start_after (r :: l) lba = if decide (r.1 ≤ lba) then next_start_after l lba else Some r.1.
Proof. unfold next_start_after. cbn [partition_point]. by destruct (bool_decide_reflect (r.1 ≤ lba)), (decide (r.1 ≤ lba)). Qed.

Lemma next_start_spec cur l lba :
  spaced cur l → ¬ in_ranges lba l →
  match next_start_after l lba with
  | Some s => lba < s ∧ in_ranges s l ∧ ∀ x, lba ≤ x < s → ¬ in_ranges x l
  | None => ∀ x, lba ≤ x → ¬ in_ranges x l
  end.
Proof.
  revert cur. induction l as [|r l IH]; intros cur Hl Hn; [intros x _; apply in_ranges_nil|].
  destruct Hl as (Hr & Hr2 & Hl). rewrite in_ranges_cons in Hn. rewrite next_start_cons. case_decide.
  - specialize (IH _ Hl ltac:(tauto)). destruct (next_start_after l lba) as [s|].
    + destruct IH as (? & ? & Hx). split; [done|]. split; [rewrite in_ranges_cons; tauto|].
      intros x Hxs. rewrite in_ranges_cons. intros [?|?]; [lia|by apply (Hx x)].
    + intros x Hx. rewrite in_ranges_cons. intros [?|?]; [lia|by apply (IH x)].
  - split; [lia|]. split; [rewrite in_ranges_cons; left; lia|]. intros x Hx. rewrite in_ranges_cons.
    intros [?|Hc]; [lia|]. apply (spaced_above r.2) in Hc; [lia|done].
Qed.

Lemma first_gap_spec rs s e :
  s < e →
  match first_gap_in (lr_new rs) s e with
  | None => ∀ x, s ≤ x < e → in_ranges x rs
  | Some (a, b) =>
      s ≤ a < b ∧ b ≤ e ∧ (∀ x, s ≤ x < a → in_ranges x rs) ∧ (∀ x, a ≤ x < b → ¬ in_ranges x rs) ∧
      (b < e → in_ranges b rs)
  end.
Proof.
  intros Hse. destruct (lr_new_spec rs) as [[cur Hsp] Hin]. set (l := lr_new rs) in *. clearbody l. unfold first_gap_in.
  rewrite (advance_from cur) by done. pose proof (advance_spec cur l s e Hsp Hse) as Ha.
  destruct (advance l s e) as [c|]; [|intros x Hx; by apply Hin, Ha]. destruct Ha as (Hc & Hb & Hn).
  rewrite decide_True by lia. pose proof (next_start_spec cur l c Hsp Hn) as Hx.
  assert (∀ x, s ≤ x < c → in_ranges x rs) as Hb' by (intros x ?; by apply Hin, Hb).
  destruct (next_start_after l c) as [n|]; simpl.
  - destruct Hx as (Hcn & Hn' & Hx). split_and!; [lia|lia|lia|done| |].
    + intros x Hx'. rewrite <-Hin. apply Hx. lia.
    + intros Hlt. replace (Z.min e n) with n by lia. by apply Hin.
  - split_and!; [lia|lia|lia|done| |lia]. intros x Hx'. rewrite <-Hin. apply Hx. lia.
Qed.

Lemma first_gap_None rs s e : s < e → first_gap_in (lr_new rs) s e = None → ∀ x, s ≤ x < e → in_ranges x rs.
Proof. intros Hse Hg. pose proof (first_gap_spec rs s e Hse) as H. by rewrite Hg in H. Qed.

(** ** The gate *)

(** The block's content is found: a zero, or through a tier that serves its
    claimant. *)
Definition resolves (ix : ExtentIndex) (c : Cell) : Prop :=
  c_hash c = ZERO_HASH ∨ resolves_free ix (c_hash c) = true ∨
  is_Some (ExtentIndex.lookup_journal ix (c_claimant c) (c_hash c)).

Lemma gate_sound N m footprint ranges limit b c :
  lm_wf N (lbamap m) → N < U32 → Forall (λ r, 0 ≤ r.1 ∧ r.1 < r.2 ∧ r.2 ≤ N) ranges →
  ¬ 0 < uh_total (unresolvable_footprint_hashes m footprint ranges limit) →
  in_ranges b ranges → view (lbamap m) b = Some c → c_hash c ∈ footprint → resolves (extent_index m) c.
Proof.
  intros Hwf HN Hr Ht Hb Hc Hf. unfold resolves. destruct (decide (c_hash c = ZERO_HASH)) as [|Hz]; [by left|right].
  destruct (resolves_free (extent_index m) (c_hash c)) eqn:Hres; [by left|right].
  assert (c_hash c ∈ residual m footprint) as Hin.
  { apply elem_of_filter. split; [|done]. split_and!; [done| |done]. unfold claim_refcount.
    assert (is_Some (claim_counts (lbamap m) !! c_hash c)) as [n Hn] by (apply (claimed_iff N); eauto).
    pose proof (wf_counts _ _ Hwf HN (c_hash c)) as Hw. rewrite Hn in Hw |- *. simpl. unfold count_of in Hw.
    case_decide; [done|]. by injection Hw as ->. }
  unfold unresolvable_footprint_hashes in Ht. rewrite decide_False in Ht by set_solver. cbn [uh_total] in Ht.
  destruct (ExtentIndex.lookup_journal _ _ _) eqn:Hj; [by eexists|]. exfalso. apply Ht.
  apply in_ranges_elem in Hb as (r & Hrin & Hbr). pose proof (proj1 (Forall_forall _ _) Hr r Hrin) as (? & ? & ?).
  destruct (extents_in_range_spec N (lbamap m) r.1 r.2 Hwf) as [Hs Hv]; [lia..|].
  rewrite <-Hv in Hc by done. apply read_at_Some in Hc as (x & Hx & Hcov & ->).
  assert (x ∈ filter (λ x, strands m (residual m footprint) x = true)
    (concat (map (λ r, LbaMap.extents_in_range (lbamap m) r.1 r.2) ranges))) as Hxin.
  { apply list_elem_of_filter. split.
    - unfold strands. apply andb_true_iff. split; by apply bool_decide_eq_true.
    - apply list_elem_of_In, in_concat. setoid_rewrite <-list_elem_of_In. eexists. split; [|exact Hx].
      apply list_elem_of_fmap. by exists r. }
  destruct (filter _ _); [by apply elem_of_nil in Hxin|]. simpl. lia.
Qed.

Lemma lr_new_bounds N rs :
  Forall (λ r, 0 ≤ r.1 ∧ r.2 ≤ N) rs → Forall (λ r, 0 ≤ r.1 ∧ r.1 < r.2 ∧ r.2 ≤ N) (lr_new rs).
Proof.
  intros Hf. destruct (lr_new_spec rs) as [[cur Hs] Hin].
  assert (∀ r, r ∈ lr_new rs → r.1 < r.2) as Hne.
  { clear Hin. revert cur Hs. induction (lr_new rs) as [|r l IH]; intros cur Hs; [by intros ? ?%elem_of_nil|].
    destruct Hs as (_ & ? & Hs). intros r' [->|?]%elem_of_cons; [done|by eapply IH]. }
  apply Forall_forall. intros r Hr. specialize (Hne r Hr).
  assert (∀ x, r.1 ≤ x < r.2 → 0 ≤ x < N) as Hx.
  { intros x Hx. assert (in_ranges x rs) as Hi by (apply Hin, in_ranges_elem; by exists r).
    apply in_ranges_elem in Hi as (q & Hq & ?). pose proof (proj1 (Forall_forall _ _) Hf q Hq) as [? ?]. lia. }
  destruct (Hx r.1 ltac:(lia)), (Hx (r.2 - 1) ltac:(lia)). lia.
Qed.

(** ** Properties *)

(** A coverage query over the union of a list of ranges, in any order and
    overlapping at will, is exact: none means the whole request is covered, and
    a gap is the first uncovered sub-range of it, as long as it goes. *)
Theorem first_gap_exact rs s e :
  s < e →
  match first_gap_in (lr_new rs) s e with
  | None => ∀ x, s ≤ x < e → in_ranges x rs
  | Some (a, b) =>
      s ≤ a < b ∧ b ≤ e ∧ (∀ x, s ≤ x < a → in_ranges x rs) ∧ (∀ x, a ≤ x < b → ¬ in_ranges x rs) ∧
      (b < e → in_ranges b rs)
  end.
Proof. apply first_gap_spec. Qed.

