(* ===== verification/Rebuild.v ===== *)
(** * Rebuilding the views from disk (elide-core/src/rebuild.rs, with the
    discovery half of segment.rs and the builders of lbamap.rs and
    extentindex.rs)

    A fork directory is the outcomes of the file-system calls a rebuild makes:
    a listing per directory and the contents of each file.  Other processes
    change the directory meanwhile, so each look is at its own moment: a segment
    can vanish between its listing and its read. *)

From Stdlib Require Import Ascii String.
From stdpp Require Import base gmap list sorting strings fin_maps.
From S2P Require Import Prelude Bytes Text Segment SegmentCodec LbaMap ExtentIndex.
From S2P Require Journal WriteLog.
Open Scope Z_scope.

(** ** The fork directory *)

Inductive Dir := DUpload | DOpen | DGc | DIndex | DCache.

Record ForkDir := mkForkDir {
  fd_list : Dir → io (list string);
  fd_file : Dir → string → io (list Z);
  fd_exists : Dir → string → bool;
  fd_wal : io (list (string * bool));     (* name, is a plain file *)
  fd_wal_file : string → io (list Z);
  fd_key : io Verifier                    (* volume.pub, loaded *)
}.

(** A directory other processes change while a layer is rebuilt: what each of
    its looks finds.  Looks 0 to 3 are the listings of [pending/upload],
    [pending/open], [gc] and [index], in that order; look 4 is the reads after
    them. *)
Definition Timeline : Type := nat → ForkDir.

(** A directory nobody else touches. *)
Definition still (fk : ForkDir) : Timeline := λ _, fk.

Inductive SegmentTier := GcApplied | Index | Pending.

#[export] Instance SegmentTier_eq_dec : EqDecision SegmentTier.
Proof. solve_decision. Defined.

Record SegmentRef := mkSegmentRef { sr_ulid : Ulid; sr_tier : SegmentTier; sr_path : Dir * string }.

(** [sort_unstable_by_key(|s| s.ulid)]: some ordered permutation; the order of
    equal keys is the sort's own. *)
Class UnstableSort := {
  sort_by_ulid : list SegmentRef → list SegmentRef;
  sort_by_ulid_perm : ∀ l, sort_by_ulid l ≡ₚ l;
  sort_by_ulid_sorted : ∀ l, StronglySorted (λ a b, sr_ulid a ≤ sr_ulid b) (sort_by_ulid l)
}.

(** ** Paths *)

(** The name split at its last dot. *)
Fixpoint rsplit_dot (s : string) : option (string * string) :=
  match s with
  | EmptyString => None
  | String c s =>
      match rsplit_dot s with
      | Some (before, after) => Some (String c before, after)
      | None => if decide (c = "."%char) then Some (EmptyString, s) else None
      end
  end.

Definition file_stem (name : string) : string :=
  match rsplit_dot name with
  | Some (before, _) => if decide (before = EmptyString) then name else before
  | None => name
  end.

Definition extension (name : string) : option string :=
  match rsplit_dot name with
  | Some (before, after) => if decide (before = EmptyString) then None else Some after
  | None => None
  end.

Section rebuild.
Context {HB : Blake3} {HU : UlidBytes} {HL : Lz4Block} {HT : UlidText} {HS : UnstableSort}.

(** ** Listings *)

Definition is_ulid (name : string) : bool := bool_decide (is_Some (ulid_from_string name)).

Definition read_dir (fk : ForkDir) (d : Dir) (keep : string → bool) : io (list string) :=
  match fd_list fk d with
  | Err NotFound => Ok []
  | Err e => Err e
  | Ok names => Ok (filter (λ n, keep n = true) names)
  end.

Definition collect_segment_files (fk : ForkDir) (d : Dir) : io (list string) :=
  read_dir fk d (λ n, bool_decide (extension n = None) && is_ulid n).

Definition collect_pending_segment_files (tl : Timeline) : io (list (Dir * string)) :=
  upload ← collect_segment_files (tl 0%nat) DUpload;
  open ← collect_segment_files (tl 1%nat) DOpen;
  Ok (map (pair DUpload) upload ++ map (pair DOpen) open).

Definition collect_gc_applied_segment_files (fk : ForkDir) : io (list string) :=
  read_dir fk DGc (λ n, bool_decide (extension n = None) && is_ulid n
                        && negb (fd_exists fk DGc (n +:+ ".staged"))).

Definition collect_idx_files (fk : ForkDir) : io (list string) :=
  read_dir fk DIndex (λ n, bool_decide (extension n = Some "idx") && is_ulid (file_stem n)).

Definition committed_tier_ulids (fk : ForkDir) : io (gset Ulid) :=
  idx ← collect_idx_files fk;
  gc ← collect_gc_applied_segment_files fk;
  Ok (list_to_set (omap (λ n, ulid_from_string (file_stem n)) idx ++ omap ulid_from_string gc)).

(** ** Discovery *)

Definition segment_ref_from_path (path : Dir * string) (tier : SegmentTier)
    (branch_ulid : option string) : option SegmentRef :=
  let stem := file_stem path.2 in
  if match branch_ulid with Some cutoff => String.ltb cutoff stem | None => false end then None
  else match ulid_from_string stem with
       | Some u => Some (mkSegmentRef u tier path)
       | None => None
       end.

Definition segment_file (fk : ForkDir) (sref : SegmentRef) : io (list Z) :=
  fd_file fk (sr_path sref).1 (sr_path sref).2.

(** The inputs every readable gc output names. *)
Definition add_superseded (fk : ForkDir) (consumed : gset Ulid) (sref : SegmentRef) : gset Ulid :=
  if decide (sr_tier sref ≠ GcApplied) then consumed
  else match segment_file fk sref ≫= read_segment_index with
       | Ok (_, _, inputs) => consumed ∪ list_to_set inputs
       | Err _ => consumed
       end.

Definition collect_superseded_inputs (fk : ForkDir) (segments : list SegmentRef) : gset Ulid :=
  foldl (add_superseded fk) ∅ segments.

Definition discover_fork_segments (tl : Timeline) (branch_ulid : option string)
    : io (list SegmentRef) :=
  pending_paths ← collect_pending_segment_files tl;
  gc_paths ← collect_gc_applied_segment_files (tl 2%nat);
  idx_paths ← collect_idx_files (tl 3%nat);
  let committed :=
    omap (λ n, segment_ref_from_path (DGc, n) GcApplied branch_ulid) gc_paths ++
    omap (λ n, segment_ref_from_path (DIndex, n) Index branch_ulid) idx_paths in
  let pending := omap (λ p, segment_ref_from_path p Pending branch_ulid) pending_paths in
  let out := sort_by_ulid committed ++ sort_by_ulid pending in
  let consumed := collect_superseded_inputs (tl 4%nat) out in
  Ok (filter (λ s, ¬ (sr_tier s = Index ∧ sr_ulid s ∈ consumed)) out).

(** ** The walk *)

Class SegmentVisitor (V : Type) := {
  visit : V → ForkDir → SegmentRef → Z → list SegmentEntry → list Ulid → io V;
  end_layer : V → V
}.

#[export] Instance pair_visitor {A B} `{SegmentVisitor A} `{SegmentVisitor B} : SegmentVisitor (A * B) := {
  visit v fk sref bss entries inputs :=
    a ← visit v.1 fk sref bss entries inputs;
    b ← visit v.2 fk sref bss entries inputs;
    Ok (a, b);
  end_layer v := (end_layer v.1, end_layer v.2)
}.

Definition parse_segment (fk : ForkDir) (vk : option Verifier) (sref : SegmentRef)
    : io (Z * list SegmentEntry * list Ulid) :=
  file ← segment_file fk sref;
  match vk with
  | Some vk => read_and_verify_segment_index file
  | None => read_segment_index file
  end.

Fixpoint visit_segments {V} `{SegmentVisitor V} (fk : ForkDir) (vk : option Verifier)
    (segments : list SegmentRef) (visitor : V) : io V :=
  match segments with
  | [] => Ok visitor
  | sref :: segments =>
      match parse_segment fk vk sref with
      | Err NotFound => visit_segments fk vk segments visitor
      | Err e => Err e
      | Ok (bss, entries, inputs) =>
          visitor ← visit visitor fk sref bss entries inputs;
          visit_segments fk vk segments visitor
      end
  end.

Definition load_key (fk : ForkDir) (verify : bool) : io (option Verifier) :=
  if verify then vk ← fd_key fk; Ok (Some vk) else Ok None.

Fixpoint walk_fork_layers {V} `{SegmentVisitor V} (layers : list (Timeline * option string))
    (verify : bool) (visitor : V) : io V :=
  match layers with
  | [] => Ok visitor
  | (tl, branch_ulid) :: layers =>
      segments ← discover_fork_segments tl branch_ulid;
      let fk := tl 4%nat in
      if decide (segments = []) then walk_fork_layers layers verify visitor
      else
        vk ← load_key fk verify;
        visitor ← visit_segments fk vk segments visitor;
        walk_fork_layers layers verify (end_layer visitor)
  end.

(** ** The LBA map's builder *)

Record LbaMapBuilder := mkLbaMapBuilder {
  lb_map : LbaMap;
  lb_ceiling : option Ulid;
  lb_outputs : list (Ulid * Ulid * list SegmentEntry)
}.

Definition lb_new : LbaMapBuilder := mkLbaMapBuilder lm_new None [].
Definition lb_finish (b : LbaMapBuilder) : LbaMap * option Ulid := (lb_map b, lb_ceiling b).

(** [iter().max()]. *)
Definition max_input (inputs : list Ulid) : option Ulid :=
  foldl (λ m u, Some (match m with Some v => Z.max v u | None => u end)) None inputs.

Definition max_ceiling (c : option Ulid) (u : Ulid) : option Ulid :=
  Some (match c with Some v => Z.max v u | None => u end).

Definition register_flush (m : LbaMap) (u : Ulid) (entries : list SegmentEntry) : LbaMap :=
  foldl (λ m e, (register_entry_if_newer m e u).1) m entries.

Definition register_output (m : LbaMap) (u horizon : Ulid) (entries : list SegmentEntry) : LbaMap :=
  foldl (λ m e, (register_entry_with_horizon m e u horizon).1) m entries.

(** A stable [sort_by_key] on the output's ULID. *)
Fixpoint insert_output (o : Ulid * Ulid * list SegmentEntry)
    (l : list (Ulid * Ulid * list SegmentEntry)) : list (Ulid * Ulid * list SegmentEntry) :=
  match l with
  | [] => [o]
  | o' :: l' => if decide (o.1.1 ≤ o'.1.1) then o :: l else o' :: insert_output o l'
  end.

Definition sort_outputs (l : list (Ulid * Ulid * list SegmentEntry)) := foldr insert_output [] l.

Definition lb_visit (b : LbaMapBuilder) (sref : SegmentRef) (entries : list SegmentEntry)
    (inputs : list Ulid) : LbaMapBuilder :=
  let ceiling := max_ceiling (lb_ceiling b) (sr_ulid sref) in
  match max_input inputs with
  | Some horizon =>
      mkLbaMapBuilder (lb_map b) ceiling (lb_outputs b ++ [(sr_ulid sref, horizon, entries)])
  | None => mkLbaMapBuilder (register_flush (lb_map b) (sr_ulid sref) entries) ceiling (lb_outputs b)
  end.

Definition lb_end_layer (b : LbaMapBuilder) : LbaMapBuilder :=
  mkLbaMapBuilder
    (foldl (λ m '(u, horizon, entries), register_output m u horizon entries) (lb_map b)
       (sort_outputs (lb_outputs b)))
    (lb_ceiling b) [].

#[export] Instance lba_map_builder : SegmentVisitor LbaMapBuilder := {
  visit b fk sref bss entries inputs := Ok (lb_visit b sref entries inputs);
  end_layer := lb_end_layer
}.

(** ** The extent index's builder

    The bitset a walk installs is shared from then on, so the builder allocates
    a handle for it. *)

Record ExtentIndexBuilder := mkExtentIndexBuilder {
  eb_index : ExtentIndex;
  eb_presence : list (list Z)
}.

Definition eb_new : ExtentIndexBuilder := mkExtentIndexBuilder ei_new [].

Definition full_for_segment (file : io (list Z)) (entries : list SegmentEntry) (bss : Z)
    : io (option DeltaBodySource) :=
  if existsb (λ e, is_delta (e_kind e)) entries then
    layout ← file ≫= read_segment_layout;
    Ok (Some (Full bss (sl_body_length layout)))
  else Ok None.

(** The body wiring of the tier a segment was found in, with the index and the
    bitsets after it. *)
Definition tier_wiring (b : ExtentIndexBuilder) (fk : ForkDir) (sref : SegmentRef)
    (entries : list SegmentEntry) (bss : Z)
    : io (ExtentIndexBuilder * RegistrationBodyTier * option DeltaBodySource) :=
  match sr_tier sref with
  | Pending | GcApplied =>
      src ← full_for_segment (segment_file fk sref) entries bss;
      Ok (b, TierLocal, src)
  | Index =>
      bytes ← match fd_file fk DCache (ulid_to_string (sr_ulid sref) +:+ ".present") with
              | Err NotFound => Ok []
              | r => r
              end;
      let bits := sp_from_bytes bytes (as_u32 (Z.of_nat (length entries))) in
      let handle := Z.of_nat (length (eb_presence b)) in
      Ok (mkExtentIndexBuilder (set_segment_presence (eb_index b) (sr_ulid sref) handle)
            (eb_presence b ++ [bits]),
          TierCached, Some DeltaCached)
  end.

(** [for (raw_idx, entry) in entries.iter().enumerate()]. *)
Fixpoint register_all (ix : ExtentIndex) (raw_idx : Z) (entries : list SegmentEntry)
    (ctx : SegmentRegistrationCtx) : io ExtentIndex :=
  match entries with
  | [] => Ok ix
  | e :: entries =>
      ix ← register_entry_if_absent ix e (as_u32 raw_idx) ctx;
      register_all ix (raw_idx + 1) entries ctx
  end.

Definition eb_visit (b : ExtentIndexBuilder) (fk : ForkDir) (sref : SegmentRef) (bss : Z)
    (entries : list SegmentEntry) : io ExtentIndexBuilder :=
  inline_bytes ← (if existsb (λ e, is_inline (e_kind e)) entries
                  then segment_file fk sref ≫= read_inline_section else Ok []);
  '(b, tier, delta_src) ← tier_wiring b fk sref entries bss;
  let ctx := mkCtx (sr_ulid sref) bss tier delta_src (Section_ inline_bytes) in
  ix ← register_all (eb_index b) 0 entries ctx;
  Ok (mkExtentIndexBuilder ix (eb_presence b)).

#[export] Instance extent_index_builder : SegmentVisitor ExtentIndexBuilder := {
  visit b fk sref bss entries inputs := eb_visit b fk sref bss entries;
  end_layer b := b
}.

(** ** Entry points *)

Definition rebuild (layers : list (Timeline * option string)) : io ExtentIndexBuilder :=
  walk_fork_layers layers true eb_new.

Definition rebuild_segments_inner (layers : list (Timeline * option string)) (verify : bool)
    : io (LbaMap * option Ulid) :=
  b ← walk_fork_layers layers verify lb_new; Ok (lb_finish b).

Definition rebuild_views (layers : list (Timeline * option string))
    : io (ExtentIndexBuilder * LbaMap * option Ulid) :=
  '(index, map) ← walk_fork_layers layers true (eb_new, lb_new);
  let '(lba_map, ceiling) := lb_finish map in
  Ok (index, lba_map, ceiling).

(** ** The owner projection *)

Record RebuiltOwners := mkOwners {
  ro_inner : gmap Hash Ulid;
  ro_delta : gmap Hash Ulid;
  ro_journal : gset (Ulid * Hash);
  ro_live : gset Ulid
}.

Definition admit_owner (o : RebuiltOwners) (h : Hash) (u : Ulid) (journal : bool) : RebuiltOwners :=
  if journal then mkOwners (ro_inner o) (ro_delta o) (ro_journal o ∪ {[(u, h)]}) (ro_live o)
  else match ro_inner o !! h with
       | Some _ => o
       | None => mkOwners (<[h := u]> (ro_inner o)) (ro_delta o) (ro_journal o) (ro_live o)
       end.

Definition own_entry (u : Ulid) (o : RebuiltOwners) (e : SegmentEntry) : RebuiltOwners :=
  match e_kind e with
  | Data | Inline | CanonicalData | CanonicalInline => admit_owner o (e_hash e) u (e_journal e)
  | Delta | CanonicalDelta =>
      match ro_inner o !! e_hash e, ro_delta o !! e_hash e with
      | None, None => mkOwners (ro_inner o) (<[e_hash e := u]> (ro_delta o)) (ro_journal o) (ro_live o)
      | _, _ => o
      end
  | DedupRef | Zero => o
  end.

Definition mark_live (o : RebuiltOwners) (u : Ulid) : RebuiltOwners :=
  mkOwners (ro_inner o) (ro_delta o) (ro_journal o) (ro_live o ∪ {[u]}).

Fixpoint own_segments (fk : ForkDir) (segments : list SegmentRef) (o : RebuiltOwners)
    : io RebuiltOwners :=
  match segments with
  | [] => Ok o
  | sref :: segments =>
      match parse_segment fk None sref with
      | Err NotFound => own_segments fk segments o
      | Err e => Err e
      | Ok (_, entries, _) =>
          own_segments fk segments (foldl (own_entry (sr_ulid sref)) (mark_live o (sr_ulid sref)) entries)
      end
  end.

Definition own_wal_record (ranges : Journal.JournalRanges) (u : Ulid) (o : RebuiltOwners)
    (r : WriteLog.LogRecord) : RebuiltOwners :=
  match r with
  | WriteLog.RData h start_lba _ _ _ _ => admit_owner o h u (Journal.contains ranges start_lba)
  | _ => o
  end.

Definition own_wal_file (fk : ForkDir) (ranges : Journal.JournalRanges) (o : RebuiltOwners)
    (entry : string * bool) : RebuiltOwners :=
  let '(name, is_file) := entry in
  if negb is_file then o
  else match ulid_from_string name with
       | None => o
       | Some u =>
           let o := mark_live o u in
           match fd_wal_file fk name ≫= WriteLog.scan_readonly with
           | Ok (records, _) => foldl (own_wal_record ranges u) o records
           | Err _ => o
           end
       end.

Fixpoint rebuild_owners (layers : list (Timeline * option string)) (ranges : Journal.JournalRanges)
    (o : RebuiltOwners) : io RebuiltOwners :=
  match layers with
  | [] => Ok o
  | (tl, branch_ulid) :: layers =>
      segments ← discover_fork_segments tl branch_ulid;
      let fk := tl 4%nat in
      o ← own_segments fk segments o;
      let o := match fd_wal fk with
               | Ok entries => foldl (own_wal_file fk ranges) o entries
               | Err _ => o
               end in
      rebuild_owners layers ranges o
  end.

Definition rebuild_owners_unverified (layers : list (Timeline * option string))
    (ranges : Journal.JournalRanges) : io RebuiltOwners :=
  rebuild_owners layers ranges (mkOwners ∅ ∅ ∅ ∅).
End rebuild.
