(* ===== verification/RebuildSpec.v ===== *)
(** * What a rebuild sees and what it builds

    Discovery lists exactly the live segments in processing order and loses
    none to a concurrent promote; one walk builds what two would; the LBA map
    is the newest claim per block, with compaction outputs deferring to later
    flushes as the live apply does; the owner projection agrees with the rebuilt
    index. *)

From Stdlib Require Import Ascii String.
From stdpp Require Import base gmap list sorting strings fin_maps.
From S2P Require Import Prelude Bytes Text Segment SegmentCodec SegmentCodecSpec LbaMap LbaMapFacts LbaMapSpec.
From S2P Require Import ExtentIndex.
From S2P Require Import Rebuild.
From S2P Require Journal WriteLog.
Open Scope Z_scope.

(** ** Names *)

Lemma bare_file_stem name : extension name = None → file_stem name = name.
Proof.
  unfold extension, file_stem. destruct (rsplit_dot name) as [[before after]|]; [|done].
  by case_decide.
Qed.

Lemma rsplit_dot_idx s : rsplit_dot (s +:+ ".idx") = Some (s, "idx"%string).
Proof. induction s as [|c s IH]; [done|]. change (String c s +:+ ".idx") with (String c (s +:+ ".idx")).
  cbn [rsplit_dot]. by rewrite IH.
Qed.

Lemma idx_name s : s ≠ EmptyString →
  extension (s +:+ ".idx") = Some "idx"%string ∧ file_stem (s +:+ ".idx") = s.
Proof. intros Hs. unfold extension, file_stem. by rewrite rsplit_dot_idx, !decide_False. Qed.

Section spec.
Context {HB : Blake3} {HU : UlidBytes} {HL : Lz4Block} {HT : UlidText} {HS : UnstableSort}.

(** ** Discovery *)

(** What each look of a layer lists. *)
Definition in_dir (fk : ForkDir) (d : Dir) (name : string) : Prop :=
  ∃ names, fd_list fk d = Ok names ∧ name ∈ names.

Lemma elem_of_read_dir fk d keep names :
  read_dir fk d keep = Ok names → ∀ n, n ∈ names ↔ in_dir fk d n ∧ keep n = true.
Proof.
  unfold read_dir, in_dir. destruct (fd_list fk d) as [l|[]]; intros [= <-] n.
  - rewrite list_elem_of_filter. naive_solver.
  - rewrite elem_of_nil. naive_solver.
Qed.

(** The file a tier's segments come from, at the look that lists it. *)
Definition tier_file (tl : Timeline) (tier : SegmentTier) (path : Dir * string) : Prop :=
  match tier with
  | Pending =>
      (path.1 = DUpload ∧ in_dir (tl 0%nat) DUpload path.2 ∨
       path.1 = DOpen ∧ in_dir (tl 1%nat) DOpen path.2) ∧ extension path.2 = None
  | GcApplied =>
      path.1 = DGc ∧ in_dir (tl 2%nat) DGc path.2 ∧ extension path.2 = None ∧
      fd_exists (tl 2%nat) DGc (path.2 +:+ ".staged") = false
  | Index => path.1 = DIndex ∧ in_dir (tl 3%nat) DIndex path.2 ∧ extension path.2 = Some "idx"%string
  end.

Definition within (branch_ulid : option string) (stem : string) : Prop :=
  match branch_ulid with Some cutoff => String.ltb cutoff stem = false | None => True end.

(** A segment of the layer: its file, its ULID, inside the branch cutoff. *)
Definition listed (tl : Timeline) (branch_ulid : option string) (s : SegmentRef) : Prop :=
  tier_file tl (sr_tier s) (sr_path s) ∧
  ulid_from_string (file_stem (sr_path s).2) = Some (sr_ulid s) ∧
  within branch_ulid (file_stem (sr_path s).2).

(** An index segment some bare gc output of the layer names as consumed. *)
Definition superseded (tl : Timeline) (branch_ulid : option string) (s : SegmentRef) : Prop :=
  sr_tier s = Index ∧
  ∃ out file bss entries (inputs : list Ulid), listed tl branch_ulid out ∧ sr_tier out = GcApplied ∧
    segment_file (tl 4%nat) out = Ok file ∧ read_segment_index file = Ok (bss, entries, inputs) ∧
    sr_ulid s ∈ inputs.

Lemma segment_ref_from_path_Some path tier branch s :
  segment_ref_from_path path tier branch = Some s ↔
  sr_path s = path ∧ sr_tier s = tier ∧
  ulid_from_string (file_stem path.2) = Some (sr_ulid s) ∧ within branch (file_stem path.2).
Proof.
  unfold segment_ref_from_path, within. destruct s as [u t p]. cbn [sr_path sr_tier sr_ulid].
  destruct branch as [cutoff|]; [destruct (String.ltb _ _)|];
    destruct (ulid_from_string (file_stem path.2)); naive_solver.
Qed.

Lemma is_ulid_true name : is_ulid name = true ↔ is_Some (ulid_from_string name).
Proof. unfold is_ulid. by rewrite bool_decide_eq_true. Qed.

Lemma elem_of_collect_pending tl ps s branch :
  collect_pending_segment_files tl = Ok ps →
  s ∈ omap (λ p, segment_ref_from_path p Pending branch) ps ↔ sr_tier s = Pending ∧ listed tl branch s.
Proof.
  unfold collect_pending_segment_files. rewrite io_bind_Ok. intros (up & Hup & Hps).
  rewrite io_bind_Ok in Hps. destruct Hps as (op & Hop & [= <-]).
  pose proof (elem_of_read_dir _ _ _ _ Hup) as Hu. pose proof (elem_of_read_dir _ _ _ _ Hop) as Ho.
  rewrite list_elem_of_omap. unfold listed. split.
  - intros (path & Hin & (<- & Ht & Hul & Hw)%segment_ref_from_path_Some). split; [done|].
    rewrite Ht. split; [|done]. apply elem_of_app in Hin as [Hin|Hin];
      apply list_elem_of_fmap in Hin as (n & -> & Hn); [apply Hu in Hn|apply Ho in Hn];
      destruct Hn as [Hn Hk]; apply andb_true_iff in Hk as [Hk _]; rewrite bool_decide_eq_true in Hk;
      split; [by left|done|by right|done].
  - intros (Ht & Hf & Hul & Hw). rewrite Ht in Hf. destruct Hf as [Hf Hx].
    exists (sr_path s). rewrite segment_ref_from_path_Some. split; [|done].
    rewrite bare_file_stem in Hul by done. destruct (sr_path s) as [d n]. cbn [fst snd] in *.
    rewrite elem_of_app, !list_elem_of_fmap.
    destruct Hf as [[-> Hn]|[-> Hn]]; [left|right]; exists n; (split; [done|]);
      [apply Hu|apply Ho]; (split; [done|]); apply andb_true_iff;
      rewrite bool_decide_eq_true, is_ulid_true; by eauto.
Qed.

Lemma elem_of_collect_gc tl gs s branch :
  collect_gc_applied_segment_files (tl 2%nat) = Ok gs →
  s ∈ omap (λ n, segment_ref_from_path (DGc, n) GcApplied branch) gs ↔
  sr_tier s = GcApplied ∧ listed tl branch s.
Proof.
  intros Hg. pose proof (elem_of_read_dir _ _ _ _ Hg) as He. rewrite list_elem_of_omap.
  unfold listed. split.
  - intros (n & Hin & (Hp & Ht & Hul & Hw)%segment_ref_from_path_Some). split; [done|].
    rewrite Ht, Hp. cbn [tier_file fst snd] in *. apply He in Hin as [Hn Hk].
    rewrite !andb_true_iff, bool_decide_eq_true, negb_true_iff in Hk. naive_solver.
  - intros (Ht & Hf & Hul & Hw). rewrite Ht in Hf. destruct (sr_path s) as [d n] eqn:Hp.
    cbn [tier_file fst snd] in *. destruct Hf as (-> & Hn & Hx & Hst). exists n.
    rewrite segment_ref_from_path_Some. split; [|done]. apply He. split; [done|].
    rewrite !andb_true_iff, bool_decide_eq_true, negb_true_iff, is_ulid_true.
    rewrite bare_file_stem in Hul by done. by eauto.
Qed.

Lemma elem_of_collect_idx tl is_ s branch :
  collect_idx_files (tl 3%nat) = Ok is_ →
  s ∈ omap (λ n, segment_ref_from_path (DIndex, n) Index branch) is_ ↔
  sr_tier s = Index ∧ listed tl branch s.
Proof.
  intros Hg. pose proof (elem_of_read_dir _ _ _ _ Hg) as He. rewrite list_elem_of_omap.
  unfold listed. split.
  - intros (n & Hin & (Hp & Ht & Hul & Hw)%segment_ref_from_path_Some). split; [done|].
    rewrite Ht, Hp. cbn [tier_file fst snd] in *. apply He in Hin as [Hn Hk].
    rewrite andb_true_iff, bool_decide_eq_true in Hk. naive_solver.
  - intros (Ht & Hf & Hul & Hw). rewrite Ht in Hf. destruct (sr_path s) as [d n] eqn:Hp.
    cbn [tier_file fst snd] in *. destruct Hf as (-> & Hn & Hx). exists n.
    rewrite segment_ref_from_path_Some. split; [|done]. apply He. split; [done|].
    rewrite andb_true_iff, bool_decide_eq_true, is_ulid_true. by eauto.
Qed.

Lemma elem_of_superseded_inputs fk segs u :
  u ∈ collect_superseded_inputs fk segs ↔
  ∃ out file bss entries (inputs : list Ulid), out ∈ segs ∧ sr_tier out = GcApplied ∧
    segment_file fk out = Ok file ∧ read_segment_index file = Ok (bss, entries, inputs) ∧ u ∈ inputs.
Proof.
  unfold collect_superseded_inputs.
  assert (∀ acc : gset Ulid, u ∈ foldl (add_superseded fk) acc segs ↔ u ∈ acc ∨ ∃ out file bss entries (inputs : list Ulid), out ∈ segs ∧ sr_tier out = GcApplied ∧
    segment_file fk out = Ok file ∧ read_segment_index file = Ok (bss, entries, inputs) ∧ u ∈ (inputs : list Ulid)) as Hgen.
  { induction segs as [|s segs IH]; intros acc; cbn [foldl].
    { split; [by left|]. intros [|(? & ? & ? & ? & ? & []%not_elem_of_nil & _)]; done. }
    rewrite IH. clear IH. setoid_rewrite elem_of_cons. unfold add_superseded.
    case_decide as Ht.
    - split; [naive_solver|]. intros [?|(o & f & b & es & ins & [->|?] & Hr)]; [naive_solver..|].
      right. by exists o, f, b, es, ins.
    - destruct (segment_file fk s) as [file|e] eqn:Hf; cbn [mbind io_bind].
      + destruct (read_segment_index file) as [[[bss es] ins]|e] eqn:Hr.
        * rewrite elem_of_union, elem_of_list_to_set. split.
          -- intros [[?|?]|(o & f & b & es' & ins' & ? & Hrest)]; [by left| |].
             ++ right. exists s, file, bss, es, ins. split_and!; [by left|done..].
             ++ right. exists o, f, b, es', ins'. split; [by right|done].
          -- intros [?|(o & f & b & es' & ins' & [->|?] & Hto & Hfo & Hro & Hu)]; [by left; left| |].
             ++ left. right. rewrite Hf in Hfo. injection Hfo as <-. rewrite Hr in Hro. by injection Hro as -> -> <-.
             ++ right. by exists o, f, b, es', ins'.
        * split; [naive_solver|]. intros [?|(o & f & b & es' & ins' & [->|?] & Hto & Hfo & Hro & Hu)];
            [by left|congruence|]. right. by exists o, f, b, es', ins'.
      + split; [naive_solver|]. intros [?|(o & f & b & es' & ins' & [->|?] & Hto & Hfo & Hro & Hu)];
          [by left|congruence|]. right. by exists o, f, b, es', ins'. }
  rewrite Hgen. set_solver.
Qed.

Definition by_ulid (a b : SegmentRef) : Prop := sr_ulid a ≤ sr_ulid b.

Lemma refs_filter_sorted (P : SegmentRef → Prop) `{!∀ s, Decision (P s)} l :
  StronglySorted by_ulid l → StronglySorted by_ulid (filter P l).
Proof.
  induction 1 as [|x l Hs IH Hall]; [constructor|]. rewrite filter_cons.
  case_decide; [|done]. constructor; [done|].
  rewrite Forall_forall in Hall |- *. intros q [_ Hq]%list_elem_of_filter. by apply Hall.
Qed.

Lemma discover_inv tl branch refs :
  discover_fork_segments tl branch = Ok refs →
  ∃ (consumed : gset Ulid) committed pending,
    let live s := ¬ (sr_tier s = Index ∧ sr_ulid s ∈ consumed) in
    refs = filter live committed ++ filter live pending ∧
    (∀ s, s ∈ committed ↔ sr_tier s ≠ Pending ∧ listed tl branch s) ∧
    (∀ s, s ∈ pending ↔ sr_tier s = Pending ∧ listed tl branch s) ∧
    StronglySorted by_ulid committed ∧ StronglySorted by_ulid pending ∧
    ∀ s, superseded tl branch s ↔ sr_tier s = Index ∧ sr_ulid s ∈ consumed.
Proof.
  unfold discover_fork_segments. rewrite io_bind_Ok. intros (ps & Hps & Hr).
  rewrite io_bind_Ok in Hr. destruct Hr as (gs & Hgs & Hr).
  rewrite io_bind_Ok in Hr. destruct Hr as (ids & Hids & [= <-]).
  pose proof (λ s, elem_of_collect_pending tl ps s branch Hps) as Hp.
  pose proof (λ s, elem_of_collect_gc tl gs s branch Hgs) as Hg.
  pose proof (λ s, elem_of_collect_idx tl ids s branch Hids) as Hi.
  set (pending := omap (λ p, segment_ref_from_path p Pending branch) ps) in *.
  set (committed := omap (λ n, segment_ref_from_path (DGc, n) GcApplied branch) gs ++
    omap (λ n, segment_ref_from_path (DIndex, n) Index branch) ids) in *.
  assert (∀ s, s ∈ committed ↔ sr_tier s ≠ Pending ∧ listed tl branch s) as Hc.
  { intros s. unfold committed. rewrite elem_of_app, Hg, Hi. destruct (sr_tier s); naive_solver. }
  exists (collect_superseded_inputs (tl 4%nat) (sort_by_ulid committed ++ sort_by_ulid pending)),
    (sort_by_ulid committed), (sort_by_ulid pending). cbv zeta. split_and!.
  - by rewrite <-filter_app.
  - intros s. by rewrite sort_by_ulid_perm.
  - intros s. by rewrite sort_by_ulid_perm.
  - apply sort_by_ulid_sorted.
  - apply sort_by_ulid_sorted.
  - intros s. rewrite elem_of_superseded_inputs. unfold superseded.
    setoid_rewrite elem_of_app. setoid_rewrite sort_by_ulid_perm. setoid_rewrite Hc. setoid_rewrite Hp.
    split; [|naive_solver]. intros (Ht & out & f & b & es & ins & Hl & Hto & Hrest). split; [done|].
    exists out, f, b, es, ins. split; [|done]. left. by rewrite Hto.
Qed.

(** C27: Discovery is exact: it returns the layer's segments (every bare
    ULID-named file of the pending generations, every gc output without a
    [.staged] sibling, every index file, inside the branch cutoff) except the
    index segments a gc output of the layer consumed; the committed tier comes
    first, then pending, each by ascending ULID. *)
Theorem discover_exact tl branch refs :
  discover_fork_segments tl branch = Ok refs →
  (∀ s, s ∈ refs ↔ listed tl branch s ∧ ¬ superseded tl branch s) ∧
  ∃ committed pending, refs = committed ++ pending ∧
    Forall (λ s, sr_tier s ≠ Pending) committed ∧ Forall (λ s, sr_tier s = Pending) pending ∧
    StronglySorted by_ulid committed ∧ StronglySorted by_ulid pending.
Proof.
  intros (consumed & committed & pending & Href & Hc & Hp & Sc & Sp & Hs)%discover_inv.
  cbv zeta in Href. split.
  - intros s. rewrite Href, elem_of_app, !list_elem_of_filter, Hc, Hp, Hs.
    destruct (decide (sr_tier s = Pending)); naive_solver.
  - eexists _, _. split; [exact Href|]. split_and!; try by apply refs_filter_sorted.
    + rewrite Forall_forall. intros s [_ ?]%list_elem_of_filter. by apply Hc.
    + rewrite Forall_forall. intros s [_ ?]%list_elem_of_filter. by apply Hp.
Qed.

(** The look that lists a promote's source directory. *)
Definition source_look (d : Dir) : option nat :=
  match d with DUpload => Some 0%nat | DOpen => Some 1%nat | DGc => Some 2%nat | _ => None end.

(** Discovery loses nothing to a concurrent promote: a segment whose index
    file is written before its source file is removed, and stays once written,
    is discovered (under its source or its index file) whatever moments the
    listings fall on, unless a gc output consumed it. *)
Theorem discover_sees_promote tl branch refs d look s u :
  discover_fork_segments tl branch = Ok refs →
  source_look d = Some look →
  extension s = None → s ≠ EmptyString → ulid_from_string s = Some u → within branch s →
  (d = DGc → fd_exists (tl 2%nat) DGc (s +:+ ".staged") = false) →
  (∀ i, in_dir (tl i) d s ∨ in_dir (tl i) DIndex (s +:+ ".idx")) →
  (∀ i j, (i ≤ j)%nat → in_dir (tl i) DIndex (s +:+ ".idx") → in_dir (tl j) DIndex (s +:+ ".idx")) →
  ∃ r, sr_ulid r = u ∧ (r ∈ refs ∨ superseded tl branch r).
Proof.
  intros (consumed & committed & pending & Href & Hc & Hp & _ & _ & Hs)%discover_inv.
  intros Hlook Hx Hne Hu Hw Hst Hsrc Hmono. cbv zeta in Href.
  assert (∀ r, listed tl branch r → r ∈ refs ∨ superseded tl branch r) as Hin.
  { intros r Hl. rewrite Href, elem_of_app, !list_elem_of_filter, Hc, Hp, Hs.
    destruct (decide (sr_tier r = Index ∧ sr_ulid r ∈ consumed)); [by right|left].
    destruct (decide (sr_tier r = Pending)); naive_solver. }
  destruct (idx_name s Hne) as [Hxi Hsi]. destruct (Hsrc look) as [Hd|Hd].
  - assert (∃ tier, tier_file tl tier (d, s)) as [tier Hf].
    { destruct d; simplify_eq/=; [exists Pending|exists Pending|exists GcApplied];
        cbn [tier_file fst snd]; naive_solver. }
    exists (mkSegmentRef u tier (d, s)). split; [done|]. apply Hin. split; [done|].
    cbn [sr_path sr_ulid snd]. by rewrite bare_file_stem.
  - exists (mkSegmentRef u Index (DIndex, s +:+ ".idx")). split; [done|]. apply Hin. split.
    + split; [done|]. split; [|done]. eapply Hmono; [|exact Hd]. destruct d; simplify_eq/=; lia.
    + cbn [sr_path sr_ulid snd]. by rewrite Hsi.
Qed.

(** ** One walk, two builders *)

Section pair.
Context {A B : Type} {VA : SegmentVisitor A} {VB : SegmentVisitor B}.

Lemma visit_segments_pair fk vk segs (v r : A * B) :
  visit_segments fk vk segs v = Ok r ↔
  visit_segments fk vk segs v.1 = Ok r.1 ∧ visit_segments fk vk segs v.2 = Ok r.2.
Proof.
  revert v. induction segs as [|s segs IH]; intros v; cbn [visit_segments].
  { destruct v, r. cbn [fst snd]. naive_solver. }
  destruct (parse_segment fk vk s) as [[[bss es] ins]|[]] eqn:Hp; [|naive_solver|naive_solver|apply IH|naive_solver].
  cbn [visit pair_visitor]. unfold mbind, io_bind.
  destruct (visit v.1 fk s bss es ins) as [a|e]; [|naive_solver].
  destruct (visit v.2 fk s bss es ins) as [b|e]; [|naive_solver].
  apply (IH (a, b)).
Qed.

Lemma walk_fork_layers_pair layers verify (v r : A * B) :
  walk_fork_layers layers verify v = Ok r ↔
  walk_fork_layers layers verify v.1 = Ok r.1 ∧ walk_fork_layers layers verify v.2 = Ok r.2.
Proof.
  revert v. induction layers as [|[tl branch] layers IH]; intros v; cbn [walk_fork_layers].
  { destruct v, r. cbn [fst snd]. naive_solver. }
  unfold mbind, io_bind. destruct (discover_fork_segments tl branch) as [segs|e]; [|naive_solver].
  cbv zeta. case_decide; [apply IH|].
  destruct (load_key (tl 4%nat) verify) as [vk|e]; [|naive_solver].
  destruct (visit_segments (tl 4%nat) vk segs v) as [v'|e] eqn:Hv.
  - apply visit_segments_pair in Hv as [-> ->]. rewrite IH. cbn [end_layer pair_visitor fst snd]. done.
  - destruct (visit_segments (tl 4%nat) vk segs v.1) as [a|] eqn:Ha; [|naive_solver].
    destruct (visit_segments (tl 4%nat) vk segs v.2) as [b|] eqn:Hb; [|naive_solver].
    assert (visit_segments (tl 4%nat) vk segs v = Ok (a, b)) as Hc by by apply visit_segments_pair.
    congruence.
Qed.
End pair.

(** Building both views from one walk is building each on its own: the
    shared walk succeeds exactly when both separate rebuilds do, with the same
    extent index, LBA map and coverage ceiling. *)
Theorem rebuild_views_agree layers ix m ceiling :
  rebuild_views layers = Ok (ix, m, ceiling) ↔
  rebuild layers = Ok ix ∧ rebuild_segments_inner layers true = Ok (m, ceiling).
Proof.
  unfold rebuild_views, rebuild, rebuild_segments_inner. rewrite !io_bind_Ok. split.
  - intros ([i b] & Hw & [= <- <- <-]). apply walk_fork_layers_pair in Hw as [Hi Hb].
    split; [exact Hi|]. by exists b.
  - intros (Hi & b & Hb & [= <- <-]). exists (ix, b). split; [|done].
    by apply walk_fork_layers_pair.
Qed.

(** ** The LBA map of a layer *)

(** The block an entry claims, and the last entry of a segment to claim it. *)
Definition claim_of (u : Ulid) (e : SegmentEntry) (lba : Z) : option Cell :=
  if is_canonical_only (e_kind e) then None
  else if decide (e_start_lba e ≤ lba < e_start_lba e + e_lba_length e)
       then Some (mkCell (e_hash e) (lba - e_start_lba e) u) else None.

Definition over (c d : option Cell) : option Cell := match d with Some _ => d | None => c end.

Definition last_claim (u : Ulid) (entries : list SegmentEntry) (lba : Z) : option Cell :=
  foldl (λ c e, over c (claim_of u e lba)) None entries.

Definition entry_fits (N : Z) (e : SegmentEntry) : Prop :=
  is_canonical_only (e_kind e) = false →
  0 ≤ e_start_lba e ∧ 0 < e_lba_length e < U32 ∧ e_start_lba e + e_lba_length e ≤ N.

(** The newer of a standing claim and a flush's. *)
Definition newer (c d : option Cell) : option Cell :=
  match c, d with
  | Some x, Some y => if decide (c_claimant y < c_claimant x) then c else d
  | None, _ => d
  | _, None => c
  end.

Lemma register_newer_view N m e u :
  lm_wf N m → entry_fits N e →
  lm_wf N (register_entry_if_newer m e u).1 ∧
  ∀ lba, view (register_entry_if_newer m e u).1 lba = newer (view m lba) (claim_of u e lba).
Proof.
  intros Hwf Hfit. unfold register_entry_if_newer, register_entry_inner, claim_of, entry_fits in *.
  destruct (is_canonical_only (e_kind e)).
  { split; [done|]. intros lba. cbn. by destruct (view m lba). }
  destruct (Hfit eq_refl) as (? & ? & ?).
  destruct (insert_if_newer_view N m (e_start_lba e) (e_lba_length e) (e_hash e) u Higher)
    as (Hwf' & _ & Hv); [done..|]. split; [done|]. intros lba. rewrite Hv. unfold admits, blocks.
  destruct (view m lba) as [c|]; cbn [newer]; repeat case_decide; try done; cbn [c_claimant] in *;
    rewrite ?negb_true_iff, ?bool_decide_eq_false in *; intuition lia.
Qed.

Lemma claim_of_claimant u e lba x : claim_of u e lba = Some x → c_claimant x = u.
Proof. unfold claim_of. destruct (is_canonical_only _); [done|]. case_decide; naive_solver. Qed.

Lemma last_claim_claimant u es lba x : last_claim u es lba = Some x → c_claimant x = u.
Proof.
  unfold last_claim. assert (∀ c, (∀ x, c = Some x → c_claimant x = u) →
    foldl (λ c e, over c (claim_of u e lba)) c es = Some x → c_claimant x = u) as Hg; [|apply Hg; naive_solver].
  induction es as [|e es IH]; intros c Hc; cbn [foldl]; [by apply Hc|]. apply IH.
  intros y. unfold over. destruct (claim_of u e lba) eqn:He; [|by apply Hc].
  intros [= ->]. by eapply claim_of_claimant.
Qed.

Lemma newer_over v c d u :
  (∀ x, c = Some x → c_claimant x = u) → (∀ x, d = Some x → c_claimant x = u) →
  newer (newer v c) d = newer v (over c d).
Proof.
  intros Hc Hd. destruct c as [c|], d as [d|]; cbn [over]; [| |by destruct v..].
  - specialize (Hc _ eq_refl). specialize (Hd _ eq_refl). destruct v as [v|]; cbn [newer].
    + repeat (case_decide; cbn [newer]); try done; lia.
    + rewrite decide_False; [done|lia].
  - by destruct (newer v (Some c)).
Qed.

(** A flush segment registers as its last claim on each block. *)
Lemma register_flush_view N m u es :
  lm_wf N m → Forall (entry_fits N) es →
  lm_wf N (register_flush m u es) ∧
  ∀ lba, view (register_flush m u es) lba = newer (view m lba) (last_claim u es lba).
Proof.
  intros Hwf Hes. unfold register_flush, last_claim.
  enough (∀ m c, lm_wf N m → (∀ lba x, c lba = Some x → c_claimant x = u) →
    let m' := foldl (λ m e, (register_entry_if_newer m e u).1) m es in
    lm_wf N m' ∧ ∀ (m0 : LbaMap), (∀ lba, view m lba = newer (view m0 lba) (c lba)) →
    ∀ lba, view m' lba = newer (view m0 lba) (foldl (λ c e, over c (claim_of u e lba)) (c lba) es)) as Hg.
  { destruct (Hg m (λ _, None) Hwf) as [Hwf' Hv]; [done|]. split; [done|]. apply Hv.
    intros lba. by destruct (view m lba). }
  clear m Hwf. induction Hes as [|e es He _ IH]; intros m c Hwf Hc; cbn [foldl]; [done|].
  destruct (register_newer_view N m e u Hwf He) as [Hwf1 Hv1].
  destruct (IH (register_entry_if_newer m e u).1 (λ lba, over (c lba) (claim_of u e lba)) Hwf1)
    as [Hwf2 Hv2].
  { intros lba x. unfold over. destruct (claim_of u e lba) eqn:Hcl; [|by apply Hc].
    intros [= ->]. by eapply claim_of_claimant. }
  split; [done|]. intros m0 Hm0 lba. apply Hv2. intros lba'. rewrite Hv1, Hm0.
  apply (newer_over _ _ _ u); [apply Hc|]. apply claim_of_claimant.
Qed.

(** *** Whole layers *)

Abbreviation Visit := (SegmentRef * list SegmentEntry * list Ulid)%type (only parsing).

Definition visit_one (b : LbaMapBuilder) (v : Visit) : LbaMapBuilder :=
  let '(s, es, ins) := v in lb_visit b s es ins.

(** The map a layer's visits build. *)
Definition layer_map (vs : list Visit) : LbaMap := lb_map (lb_end_layer (foldl visit_one lb_new vs)).

Definition flushes (vs : list Visit) : list (Ulid * list SegmentEntry) :=
  omap (λ v, match max_input v.2 with None => Some (sr_ulid v.1.1, v.1.2) | Some _ => None end) vs.

Definition outputs (vs : list Visit) : list (Ulid * Ulid * list SegmentEntry) :=
  omap (λ v, h ← max_input v.2; Some (sr_ulid v.1.1, h, v.1.2)) vs.

Lemma builder_parts b vs :
  lb_map (foldl visit_one b vs) = foldl (λ m f, register_flush m f.1 f.2) (lb_map b) (flushes vs) ∧
  lb_outputs (foldl visit_one b vs) = lb_outputs b ++ outputs vs.
Proof.
  revert b. induction vs as [|[[s es] ins] vs IH]; intros b; cbn [foldl].
  { split; [done|]. by rewrite app_nil_r. }
  destruct (IH (visit_one b (s, es, ins))) as [-> ->]. unfold visit_one, lb_visit, flushes, outputs.
  cbn [omap list_omap fst snd]. destruct (max_input ins) as [h|]; cbn [mbind option_bind foldl lb_map lb_outputs].
  - by rewrite <-app_assoc.
  - done.
Qed.

Lemma insert_output_perm o l : insert_output o l ≡ₚ o :: l.
Proof.
  induction l as [|o' l IH]; [done|]. cbn [insert_output]. case_decide; [done|].
  rewrite IH. apply Permutation_swap.
Qed.

Lemma sort_outputs_perm l : sort_outputs l ≡ₚ l.
Proof.
  induction l as [|o l IH]; [done|]. unfold sort_outputs in *. cbn [foldr].
  by rewrite insert_output_perm, IH.
Qed.

(** The flush whose claim on a block is the newest of the layer. *)
Definition newest_flush (vs : list Visit) (lba : Z) (c : Cell) : Prop :=
  ∃ u es, (u, es) ∈ flushes vs ∧ last_claim u es lba = Some c ∧
    ∀ u' es' c', (u', es') ∈ flushes vs → last_claim u' es' lba = Some c' → u' ≤ u.

Lemma flush_fold_view N fs m :
  lm_wf N m → Forall (λ f, Forall (entry_fits N) f.2) fs →
  lm_wf N (foldl (λ m f, register_flush m f.1 f.2) m fs) ∧
  ∀ lba, view (foldl (λ m f, register_flush m f.1 f.2) m fs) lba =
         foldl (λ c f, newer c (last_claim f.1 f.2 lba)) (view m lba) fs.
Proof.
  intros Hwf Hfs. revert m Hwf. induction Hfs as [|[u es] fs Hes _ IH]; intros m Hwf; cbn [foldl]; [done|].
  destruct (register_flush_view N m u es Hwf Hes) as [Hwf1 Hv1].
  destruct (IH _ Hwf1) as [Hwf2 Hv2]. split; [done|]. intros lba. rewrite Hv2. cbn [fst snd].
  by rewrite Hv1.
Qed.

(** A fold of [newer] over distinct segments keeps the highest claimant's. *)
Lemma newer_fold fs lba c0 :
  NoDup fs.*1 →
  (∀ c, c0 = Some c → c_claimant c ∉ fs.*1) →
  ∀ c, foldl (λ c f, newer c (last_claim f.1 f.2 lba)) c0 fs = Some c ↔
    (c0 = Some c ∨ ∃ u es, (u, es) ∈ fs ∧ last_claim u es lba = Some c) ∧
    (∀ x, c0 = Some x → c_claimant x ≤ c_claimant c) ∧
    (∀ u es x, (u, es) ∈ fs → last_claim u es lba = Some x → u ≤ c_claimant c).
Proof.
  revert c0. induction fs as [|[u es] fs IH]; intros c0 Hnd Hc0 c; cbn [foldl fst snd].
  { split.
    - intros ->. split_and!; [by left|naive_solver|]. intros ? ? ? []%not_elem_of_nil.
    - intros ([?|(? & ? & []%not_elem_of_nil & _)] & _); done. }
  cbn [fmap list_fmap fst] in *. apply NoDup_cons in Hnd as [Hu Hnd].
  assert (∀ x, last_claim u es lba = Some x → c_claimant x = u) as Hcl by apply last_claim_claimant.
  rewrite IH; [|done|]; cycle 1.
  { intros x Hx. destruct c0 as [y|], (last_claim u es lba) as [z|] eqn:Hz; cbn [newer] in Hx;
      try case_decide; simplify_eq; [|rewrite (Hcl x) by done; done| |rewrite (Hcl x) by done; done];
      specialize (Hc0 _ eq_refl); rewrite not_elem_of_cons in Hc0; naive_solver. }
  setoid_rewrite elem_of_cons.
  destruct (last_claim u es lba) as [z|] eqn:Hz; cycle 1.
  { replace (newer c0 None) with c0 by by destruct c0. split.
    - intros (Hor & Hy & Hall). split_and!; [naive_solver|done|].
      intros u' es' x [[= -> ->]|?] Hx; [congruence|naive_solver].
    - intros (Hor & Hy & Hall). split_and!; [|done|naive_solver].
      destruct Hor as [?|(u' & es' & [[= -> ->]|?] & Hx)]; [by left|congruence|naive_solver]. }
  specialize (Hcl _ eq_refl).
  assert (∃ w, newer c0 (Some z) = Some w ∧ (w = z ∨ c0 = Some w) ∧ u ≤ c_claimant w ∧
    (∀ x, c0 = Some x → c_claimant x ≤ c_claimant w) ∧ (c0 = Some w → u < c_claimant w ∨ c0 = None))
    as (w & -> & Hw & Huw & Hle & Hlt).
  { destruct c0 as [y|]; cbn [newer]; [|exists z; naive_solver lia]. specialize (Hc0 _ eq_refl).
    rewrite not_elem_of_cons in Hc0. case_decide; eexists; (split; [done|]); split_and!;
      try naive_solver lia. }
  split.
  - intros (Hor & Hy & Hall). specialize (Hy _ eq_refl). split_and!.
    + destruct Hor as [[= <-]|?]; [|naive_solver]. destruct Hw as [->|?]; [|by left].
      right. exists u, es. naive_solver.
    + intros x Hx. specialize (Hle _ Hx). lia.
    + intros u' es' x [[= -> ->]|?] Hx; [lia|naive_solver].
  - intros (Hor & Hy & Hall). pose proof (Hall u es z (or_introl eq_refl) Hz) as Huz. split_and!.
    + destruct Hor as [->|(u' & es' & [[= -> ->]|?] & Hx)]; [left|left|naive_solver].
      * destruct Hw as [->|?]; [|done]. specialize (Hle _ eq_refl). specialize (Hc0 _ eq_refl).
        rewrite not_elem_of_cons in Hc0. lia.
      * destruct Hw as [->|Hw]; [congruence|]. specialize (Hy _ Hw). rewrite Hz in Hx.
        injection Hx as ->. destruct (Hlt Hw) as [?|?]; [lia|congruence].
    + intros ? [= <-]. destruct Hw as [->|Hw]; [lia|]. by apply Hy.
    + naive_solver.
Qed.

(** *** Outputs *)

(** The standing claim [c] of a block outranks an output's claim on it. *)
Definition outranks (c : Cell) (u horizon : Ulid) (x : Cell) : Prop :=
  horizon < c_claimant c ∧ c_claimant c ≠ u ∧ (c_hash c ≠ c_hash x ∨ u ≤ c_claimant c).

Lemma register_horizon_view N m e u h :
  lm_wf N m → entry_fits N e →
  lm_wf N (register_entry_with_horizon m e u h).1 ∧
  ∀ lba, (∀ x, claim_of u e lba = Some x → ∃ c, view m lba = Some c ∧ outranks c u h x) →
    view (register_entry_with_horizon m e u h).1 lba = view m lba.
Proof.
  intros Hwf Hfit. unfold register_entry_with_horizon, register_entry_inner, claim_of, entry_fits in *.
  destruct (is_canonical_only (e_kind e)); [done|]. destruct (Hfit eq_refl) as (? & ? & ?).
  destruct (insert_if_newer_view N m (e_start_lba e) (e_lba_length e) (e_hash e) u (AboveHorizon h))
    as (Hwf' & _ & Hv); [done..|]. split; [done|]. intros lba Hout. rewrite Hv.
  destruct (decide (e_start_lba e ≤ lba < e_start_lba e + e_lba_length e)) as [Hlba|Hn];
    [|by rewrite decide_False by tauto].
  destruct (admits (AboveHorizon h) (e_hash e) u m lba) eqn:Ha; [|by rewrite decide_False by naive_solver].
  destruct (Hout _ eq_refl) as (c & Hc & Hh & Hu & Hor). unfold admits, blocks in Ha. rewrite Hc in Ha.
  rewrite negb_involutive, !orb_true_iff, andb_true_iff, !bool_decide_eq_true in Ha.
  cbn [c_hash] in Hor. exfalso. destruct Ha as [[?|?]|[? ?]]; [lia|done|]. destruct Hor; [done|lia].
Qed.

Lemma register_output_view N m u h es :
  lm_wf N m → Forall (entry_fits N) es →
  lm_wf N (register_output m u h es) ∧
  ∀ lba, (∀ e x, e ∈ es → claim_of u e lba = Some x → ∃ c, view m lba = Some c ∧ outranks c u h x) →
    view (register_output m u h es) lba = view m lba.
Proof.
  intros Hwf Hes. unfold register_output. revert m Hwf.
  induction Hes as [|e es He _ IH]; intros m Hwf; cbn [foldl]; [done|].
  destruct (register_horizon_view N m e u h Hwf He) as [Hwf1 Hv1].
  destruct (IH _ Hwf1) as [Hwf2 Hv2]. split; [done|]. intros lba Hout.
  assert (view (register_entry_with_horizon m e u h).1 lba = view m lba) as H1.
  { apply Hv1. intros x. apply Hout. left. }
  rewrite Hv2; [done|]. intros e' x He' Hx. rewrite H1. apply (Hout e' x); [by right|done].
Qed.

Lemma output_fold_view N os m :
  lm_wf N m → Forall (λ o, Forall (entry_fits N) o.2) os →
  let m' := foldl (λ m '(u, h, es), register_output m u h es) m os in
  lm_wf N m' ∧
  ∀ lba, (∀ u h es e x, (u, h, es) ∈ os → e ∈ es → claim_of u e lba = Some x →
            ∃ c, view m lba = Some c ∧ outranks c u h x) →
    view m' lba = view m lba.
Proof.
  intros Hwf Hos. revert m Hwf. induction Hos as [|[[u h] es] os Hes _ IH]; intros m Hwf; cbn [foldl]; [done|].
  destruct (register_output_view N m u h es Hwf Hes) as [Hwf1 Hv1].
  destruct (IH _ Hwf1) as [Hwf2 Hv2]. split; [done|]. intros lba Hout.
  assert (view (register_output m u h es) lba = view m lba) as H1.
  { apply Hv1. intros e x. apply (Hout u h es). left. }
  rewrite Hv2; [done|]. intros u' h' es' e x Ho. rewrite H1. apply (Hout u' h' es' e x). by right.
Qed.

Definition layer_fits (N : Z) (vs : list Visit) : Prop :=
  0 ≤ N < U64 ∧ Forall (λ v, Forall (entry_fits N) v.1.2) vs ∧ NoDup (flushes vs).*1.

(** C6: A rebuilt layer resolves a block to the newest flush that claims it,
    whatever order the walk delivered the segments in, where that flush outranks
    every compaction output that also covers the block: such outputs do not
    resurrect what a later flush wrote, because a claim above an output's horizon
    outranks the output even when the output's own ULID is higher. The map it
    builds is well formed. *)
Theorem rebuild_newest_claim N vs :
  layer_fits N vs →
  lm_wf N (layer_map vs) ∧
  ∀ lba,
    (∀ u h es e x, (u, h, es) ∈ outputs vs → e ∈ es → claim_of u e lba = Some x →
       ∃ c, newest_flush vs lba c ∧ outranks c u h x) →
    ∀ c, view (layer_map vs) lba = Some c ↔ newest_flush vs lba c.
Proof.
  intros (HN & Hfit & Hnd). pose proof (proj1 (Forall_forall _ _) Hfit) as Hv.
  destruct (builder_parts lb_new vs) as [Hm Ho]. cbn [lb_new lb_map lb_outputs app] in Hm, Ho.
  assert (Forall (λ f, Forall (entry_fits N) f.2) (flushes vs)) as Hff.
  { apply Forall_forall. intros f ([[s es] ins] & Hin & Hf)%list_elem_of_omap.
    cbn [fst snd] in Hf. destruct (max_input ins); simplify_eq. by apply (Hv _ Hin). }
  assert (Forall (λ o, Forall (entry_fits N) o.2) (sort_outputs (outputs vs))) as Hof.
  { rewrite sort_outputs_perm. apply Forall_forall.
    intros o ([[s es] ins] & Hin & Hf)%list_elem_of_omap. cbn [fst snd] in Hf.
    destruct (max_input ins); simplify_eq/=. by apply (Hv _ Hin). }
  destruct (flush_fold_view N (flushes vs) lm_new) as [Hwf1 Hv1]; [by apply lm_new_wf|done|].
  unfold layer_map, lb_end_layer. cbn [lb_map]. rewrite Hm, Ho.
  destruct (output_fold_view N _ _ Hwf1 Hof) as [Hwf2 Hv2]. split; [exact Hwf2|].
  intros lba Hout.
  assert (∀ c, view (foldl (λ m f, register_flush m f.1 f.2) lm_new (flushes vs)) lba = Some c ↔
               newest_flush vs lba c) as Hnew.
  { intros c. rewrite Hv1, lm_new_view, newer_fold by done. unfold newest_flush. split.
    - intros ([?|(u & es & Hin & Hl)] & _ & Hall); [done|]. exists u, es. split_and!; [done|done|].
      intros u' es' c' Hin' Hl'. rewrite <-(last_claim_claimant _ _ _ _ Hl). by eapply Hall.
    - intros (u & es & Hin & Hl & Hall). split_and!; [naive_solver|done|].
      intros u' es' x Hin' Hx. rewrite (last_claim_claimant _ _ _ _ Hl). by eapply Hall. }
  intros c. rewrite Hv2; [apply Hnew|]. intros u h es e x Hin He Hx. rewrite sort_outputs_perm in Hin.
  destruct (Hout u h es e x Hin He Hx) as (c' & Hc' & Hr). exists c'. split; [by apply Hnew|done].
Qed.

Lemma max_input_bound ins h : max_input ins = Some h → ∀ x, x ∈ ins → x ≤ h.
Proof.
  unfold max_input. assert (∀ m, (∀ y, m = Some y → y ≤ default y (foldl (λ m u, Some
      (match m with Some v => Z.max v u | None => u end)) m ins)) ∧
    ∀ x, x ∈ ins → x ≤ default x (foldl (λ m u, Some
      (match m with Some v => Z.max v u | None => u end)) m ins)) as Hg.
  { induction ins as [|i ins IH]; intros m; cbn [foldl].
    { split; [by intros y ->|]. by intros x ?%not_elem_of_nil. }
    destruct (IH (Some (match m with Some v => Z.max v i | None => i end))) as [IH1 IH2].
    specialize (IH1 _ eq_refl).
    destruct (foldl _ _ ins) as [r|]; cbn [default] in *.
    - split; [intros y ->; lia|]. intros x [->|Hx]%elem_of_cons; [destruct m; lia|].
      by apply IH2.
    - split; intros; cbn; lia. }
  intros Hm x Hx. destruct (Hg None) as [_ H2]. specialize (H2 x Hx). rewrite Hm in H2. done.
Qed.

(** The live apply of an output's entries. *)
Definition apply_output (m : LbaMap) (u : Ulid) (inputs : gset Ulid) (es : list SegmentEntry) : LbaMap :=
  foldl (λ m e, (LbaMap.register_entry_consuming_inputs m e u inputs).1) m es.

(** The claims one output may meet when the rebuild replays it. *)
Definition claims_accounted (m : LbaMap) (u horizon : Ulid) (inputs : list Ulid) (lba : Z) : Prop :=
  ∀ c, view m lba = Some c → c_claimant c ∈ inputs ∨ c_claimant c = u ∨ horizon < c_claimant c.

Lemma register_rules_agree N m1 m2 e u inputs horizon :
  lm_wf N m1 → lm_wf N m2 → entry_fits N e → max_input inputs = Some horizon →
  (∀ lba, view m1 lba = view m2 lba) →
  (∀ lba, is_Some (claim_of u e lba) → claims_accounted m1 u horizon inputs lba) →
  let m1' := (register_entry_with_horizon m1 e u horizon).1 in
  let m2' := (LbaMap.register_entry_consuming_inputs m2 e u (list_to_set inputs)).1 in
  lm_wf N m1' ∧ lm_wf N m2' ∧ (∀ lba, view m1' lba = view m2' lba) ∧
  ∀ lba, claims_accounted m1 u horizon inputs lba → claims_accounted m1' u horizon inputs lba.
Proof.
  intros Hwf1 Hwf2 Hfit Hmax Heq Hacc. pose proof (max_input_bound _ _ Hmax) as Hb.
  unfold register_entry_with_horizon, LbaMap.register_entry_consuming_inputs, register_entry_inner,
    insert_consuming_inputs, claim_of, entry_fits in *.
  destruct (is_canonical_only (e_kind e)); [done|]. destruct (Hfit eq_refl) as (? & ? & ?).
  destruct (insert_if_newer_view N m1 (e_start_lba e) (e_lba_length e) (e_hash e) u (AboveHorizon horizon))
    as (Hwf1' & _ & Hv1); [done..|].
  destruct (insert_if_newer_view N m2 (e_start_lba e) (e_lba_length e) (e_hash e) u
    (Consuming (list_to_set inputs))) as (Hwf2' & _ & Hv2); [done..|].
  split_and!; [exact Hwf1'|exact Hwf2'| |].
  - intros lba. rewrite Hv1, Hv2.
    destruct (decide (e_start_lba e ≤ lba < e_start_lba e + e_lba_length e)) as [Hlba|Hn];
      [|by rewrite !decide_False by tauto].
    assert (admits (AboveHorizon horizon) (e_hash e) u m1 lba =
            admits (Consuming (list_to_set inputs)) (e_hash e) u m2 lba) as ->; [|by rewrite Heq].
    specialize (Hacc lba). rewrite decide_True in Hacc by done. unfold admits. rewrite <-Heq.
    destruct (view m1 lba) as [c|] eqn:Hc; [|done]. unfold blocks. do 2 f_equal.
    destruct (decide (c_claimant c = u)) as [Hu|Hu].
    { rewrite (bool_decide_eq_true_2 (c_claimant c = u)) by done. by rewrite !orb_true_r. }
    do 2 f_equal. apply bool_decide_ext. rewrite elem_of_list_to_set. split; [|by apply Hb].
    destruct (Hacc ltac:(done) c Hc) as [?|[?|?]]; [done..|lia].
  - intros lba Hold c. rewrite Hv1. case_decide; [intros [= <-]; cbn; by right; left|]. apply Hold.
Qed.

(** C26: The rebuild's horizon rule is the live apply's rule: where every claim
    an output covers is held by one of its inputs, by the output itself, or by
    a flush above the horizon, admitting the output by horizon gives the same
    block map as consuming its inputs did when it was applied. *)
Theorem horizon_matches_live_apply N m u inputs horizon es :
  lm_wf N m → Forall (entry_fits N) es → max_input inputs = Some horizon →
  (∀ e lba, e ∈ es → is_Some (claim_of u e lba) → claims_accounted m u horizon inputs lba) →
  ∀ lba, view (register_output m u horizon es) lba =
         view (apply_output m u (list_to_set inputs) es) lba.
Proof.
  intros Hwf Hes Hmax Hacc. unfold register_output, apply_output.
  enough (∀ m1 m2, lm_wf N m1 → lm_wf N m2 → (∀ lba, view m1 lba = view m2 lba) →
    (∀ e lba, e ∈ es → is_Some (claim_of u e lba) → claims_accounted m1 u horizon inputs lba) →
    ∀ lba, view (foldl (λ m e, (register_entry_with_horizon m e u horizon).1) m1 es) lba =
      view (foldl (λ m e, (LbaMap.register_entry_consuming_inputs m e u (list_to_set inputs)).1) m2 es) lba)
    as Hg by by apply Hg.
  clear m Hwf Hacc. induction Hes as [|e es He _ IH]; intros m1 m2 Hwf1 Hwf2 Heq Hacc; cbn [foldl]; [done|].
  destruct (register_rules_agree N m1 m2 e u inputs horizon) as (Hw1 & Hw2 & Hv & Hkeep);
    [done..|intros lba; by apply (Hacc e); left|].
  apply IH; [exact Hw1|exact Hw2|exact Hv|]. intros e' lba He' Hc. apply Hkeep, (Hacc e'); [by right|done].
Qed.

(** ** The owner projection *)

(** The index and the owner maps name the same owners, all of them live. *)
Record owners_sync (ix : ExtentIndex) (o : RebuiltOwners) : Prop := {
  sync_inner : ∀ h, ro_inner o !! h = segment_id <$> inner ix !! h;
  sync_delta : ∀ h, ro_delta o !! h = d_segment_id <$> deltas ix !! h;
  sync_journal : ∀ u h, (u, h) ∈ ro_journal o ↔ is_Some (lookup_journal ix u h);
  live_inner : ∀ h u, ro_inner o !! h = Some u → u ∈ ro_live o;
  live_delta : ∀ h u, ro_delta o !! h = Some u → u ∈ ro_live o;
  live_journal : ∀ u h, (u, h) ∈ ro_journal o → u ∈ ro_live o
}.

(** The fields the owner maps project. *)
Lemma owners_sync_ext ix ix' o :
  inner ix' = inner ix → deltas ix' = deltas ix → journal ix' = journal ix →
  owners_sync ix o → owners_sync ix' o.
Proof. intros Hi Hd Hj []. split; rewrite ?Hi, ?Hd; try done. unfold lookup_journal. by rewrite Hj. Qed.

Lemma owners_sync_live ix o u : owners_sync ix o → owners_sync ix (mark_live o u).
Proof. intros []. split; cbn [ro_inner ro_delta ro_journal ro_live mark_live]; try done; set_solver. Qed.

Lemma record_sources_fields ix s h opts :
  inner (record_sources ix s h opts) = inner ix ∧ deltas (record_sources ix s h opts) = deltas ix ∧
  journal (record_sources ix s h opts) = journal ix.
Proof. unfold record_sources. destruct opts; [done|]. cbv zeta. by destruct (_ !! h). Qed.

Lemma admit_data_sync ix o h u loc :
  owners_sync ix o → u ∈ ro_live o → segment_id loc = u →
  owners_sync (admit_data ix h loc ExtentIndex.IfAbsent) (admit_owner o h u false).
Proof.
  intros Hs Hu Hloc. pose proof (sync_inner _ _ Hs h) as Hh. unfold admit_data, admit_owner.
  destruct (inner ix !! h) as [x|]; cbn [fmap option_fmap option_map] in Hh; rewrite Hh; [done|].
  destruct Hs as [Hi Hd Hj Li Ld Lj].
  split; cbn [ro_inner ro_delta ro_journal ro_live with_inner inner deltas]; try done.
  - intros h'. rewrite !lookup_insert. case_decide; [cbn; by rewrite Hloc|apply Hi].
  - intros h' u'. rewrite lookup_insert. case_decide; [by intros [= <-]|apply Li].
Qed.

Lemma admit_journal_sync ix o h u loc :
  owners_sync ix o → u ∈ ro_live o →
  owners_sync (insert_journal_if_absent ix u h loc).1 (admit_owner o h u true).
Proof.
  intros [Hi Hd Hj Li Ld Lj] Hu. unfold insert_journal_if_absent, admit_owner, journal_of.
  assert (∀ seg', (∀ h', is_Some (seg' !! h') ↔ h' = h ∨ is_Some (default ∅ (journal ix !! u) !! h')) →
    owners_sync (with_journal ix (<[u := seg']> (journal ix)))
      (mkOwners (ro_inner o) (ro_delta o) (ro_journal o ∪ {[(u, h)]}) (ro_live o))) as Hg.
  { intros seg' Hseg. split; cbn [ro_inner ro_delta ro_journal ro_live with_journal inner deltas]; try done.
    - intros u' h'. rewrite elem_of_union, elem_of_singleton, Hj. unfold lookup_journal.
      cbn [journal with_journal]. rewrite lookup_insert. case_decide as Hu'; [subst u'|].
      + rewrite Hseg. destruct (journal ix !! u) as [seg|]; cbn [default]; [naive_solver|].
        rewrite lookup_empty. split; [naive_solver|]. intros [->|[]%is_Some_None]. by right.
      + naive_solver.
    - set_solver. }
  destruct (default ∅ (journal ix !! u) !! h) as [x|] eqn:Hx; cbn [fst]; apply Hg; intros h'.
  - split; [by right|]. intros [->|?]; [by eexists|done].
  - rewrite lookup_insert_is_Some'. naive_solver.
Qed.

(** Registering an entry whose inline bytes are present. *)
Lemma register_sync ix o e idx ctx ix' :
  owners_sync ix o → ctx_segment_id ctx ∈ ro_live o →
  inline_bytes e (ctx_inline ctx) ≠ None →
  register_entry_if_absent ix e idx ctx = Ok ix' →
  owners_sync ix' (own_entry (ctx_segment_id ctx) o e).
Proof.
  intros Hs Hu Hin. unfold register_entry_if_absent, register_entry, own_entry.
  assert (∀ ix', match inline_bytes e (ctx_inline ctx) with
    | None => Ok ix
    | Some inline => let loc := location_of e idx ctx inline in
        if e_journal e then Ok (insert_journal_if_absent ix (ctx_segment_id ctx) (e_hash e) loc).1
        else Ok (admit_data ix (e_hash e) loc ExtentIndex.IfAbsent)
    end = Ok ix' → owners_sync ix' (admit_owner o (e_hash e) (ctx_segment_id ctx) (e_journal e))) as Hbody.
  { intros ix1. destruct (inline_bytes e (ctx_inline ctx)) as [inl|]; [|done]. cbv zeta.
    destruct (e_journal e); intros [= <-]; [by apply admit_journal_sync|by apply admit_data_sync]. }
  assert (match ctx_delta_body_source ctx with
    | Some src =>
        let admitted := delta_admitted ix (e_hash e) ExtentIndex.IfAbsent in
        let ix0 := record_sources ix (ctx_segment_id ctx) (e_hash e) (e_delta_options e) in
        Ok (if admitted then with_deltas ix0 (<[e_hash e := mkDeltaLocation (ctx_segment_id ctx) idx src
                               (e_delta_options e)]> (deltas ix0)) else ix0)
    | None => Err OtherError
    end = Ok ix' → owners_sync ix'
      match ro_inner o !! e_hash e, ro_delta o !! e_hash e with
      | None, None => mkOwners (ro_inner o) (<[e_hash e := ctx_segment_id ctx]> (ro_delta o))
                        (ro_journal o) (ro_live o)
      | _, _ => o
      end) as Hdelta.
  { destruct (ctx_delta_body_source ctx) as [src|]; [|done]. cbv zeta. intros [= <-].
    destruct (record_sources_fields ix (ctx_segment_id ctx) (e_hash e) (e_delta_options e)) as (Ri & Rd & Rj).
    unfold delta_admitted. pose proof (sync_inner _ _ Hs (e_hash e)) as Hh.
    pose proof (sync_delta _ _ Hs (e_hash e)) as Hd. rewrite Hh, Hd.
    destruct (inner ix !! e_hash e) as [x|]; [by apply (owners_sync_ext ix)|].
    destruct (deltas ix !! e_hash e) as [y|]; [by apply (owners_sync_ext ix)|].
    cbn [fmap option_fmap option_map bool_decide andb]. apply (owners_sync_ext
      (with_deltas ix (<[e_hash e := mkDeltaLocation (ctx_segment_id ctx) idx src (e_delta_options e)]>
         (deltas ix)))); [done|by cbn; rewrite Rd|done|].
    destruct Hs as [Hi Hd' Hj Li Ld Lj].
    split; cbn [ro_inner ro_delta ro_journal ro_live with_deltas inner deltas]; try done.
    - intros h'. rewrite !lookup_insert. by case_decide.
    - intros h' u'. rewrite lookup_insert. case_decide; [by intros [= <-]|apply Ld]. }
  destruct (e_kind e); try exact (Hbody ix'); try exact Hdelta; by intros [= <-].
Qed.

Lemma mark_live_owner u o e : ro_live (own_entry u o e) = ro_live o.
Proof.
  unfold own_entry, admit_owner.
  destruct (e_kind e), (e_journal e), (ro_inner o !! e_hash e), (ro_delta o !! e_hash e); done.
Qed.

Lemma register_all_sync es ix o idx ctx ix' :
  owners_sync ix o → ctx_segment_id ctx ∈ ro_live o →
  Forall (λ e, inline_bytes e (ctx_inline ctx) ≠ None) es →
  register_all ix idx es ctx = Ok ix' →
  owners_sync ix' (foldl (own_entry (ctx_segment_id ctx)) o es).
Proof.
  intros Hs Hu Hin. revert ix o idx Hs Hu. induction Hin as [|e es He _ IH]; intros ix o idx Hs Hu;
    cbn [register_all foldl]; [by intros [= <-]|].
  rewrite io_bind_Ok. intros (ix1 & H1 & Hr). eapply IH; [| |exact Hr].
  - by eapply register_sync.
  - by rewrite mark_live_owner.
Qed.

(** A file's contents are bytes. *)
Definition files_ok (fk : ForkDir) : Prop := ∀ d name file, fd_file fk d name = Ok file → bytes_ok file.

Lemma eb_visit_sync fk sref b b' o file bss es ins :
  files_ok fk → segment_file fk sref = Ok file → read_segment_index file = Ok (bss, es, ins) →
  owners_sync (eb_index b) o → eb_visit b fk sref bss es = Ok b' →
  owners_sync (eb_index b') (foldl (own_entry (sr_ulid sref)) (mark_live o (sr_ulid sref)) es).
Proof.
  intros Hf Hfile Hr Hs Hv. unfold eb_visit in Hv. apply io_bind_Ok in Hv as (ib & Hib & Hv).
  apply io_bind_Ok in Hv as ([[b1 tier] src] & Hw & Hv).
  apply io_bind_Ok in Hv as (ix' & Hreg & [= <-]). cbn [eb_index].
  eapply (register_all_sync es (eb_index b1) _ 0 (mkCtx (sr_ulid sref) bss tier src (Section_ ib)));
    [|cbn; set_solver| |exact Hreg].
  - apply owners_sync_live. unfold tier_wiring in Hw. destruct (sr_tier sref).
    + by apply io_bind_Ok in Hw as (s & _ & [= <- <- <-]).
    + apply io_bind_Ok in Hw as (bits & _ & [= <- <- <-]). by apply (owners_sync_ext (eb_index b)).
    + by apply io_bind_Ok in Hw as (s & _ & [= <- <- <-]).
  - cbn [ctx_inline]. destruct (existsb (λ e, is_inline (e_kind e)) es) eqn:Hex.
    + rewrite Hfile in Hib. cbn [mbind io_bind] in Hib.
      eapply Forall_impl; [exact (inline_section_complete _ _ _ _ _ (Hf _ _ _ Hfile) Hr Hib)|].
      intros e He. cbn beta in He. unfold inline_bytes. destruct (is_inline (e_kind e)); [|done].
      specialize (He eq_refl). unfold blen in He. by rewrite decide_True.
    + apply Forall_forall. intros e He. unfold inline_bytes.
      destruct (is_inline (e_kind e)) eqn:Hk; [|done]. exfalso.
      assert (existsb (λ e, is_inline (e_kind e)) es = true); [|congruence].
      apply existsb_exists. exists e. by rewrite <-list_elem_of_In.
Qed.

(** Verification only refuses: what it lets through parses the same, and a file
    it reports missing is missing to the unverified read too. *)
Lemma verified_parse fk vk sref :
  match parse_segment fk (Some vk) sref with
  | Ok r => parse_segment fk None sref = Ok r
  | Err NotFound => parse_segment fk None sref = Err NotFound
  | Err _ => True
  end.
Proof.
  unfold parse_segment. destruct (segment_file fk sref) as [file|[]]; cbn [mbind io_bind]; try done.
  unfold read_and_verify_segment_index, read_segment_index.
  destruct (read_segment_header file) as [[[bss ib] h]|[]]; cbn [mbind io_bind]; try done.
  case_decide; [done|]. destruct (verify_strict _ _); [|done].
  by destruct (parse_with_header ib h) as [[es ins]|[]].
Qed.

Lemma visit_segments_sync fk vk segs b b' o :
  files_ok fk → owners_sync (eb_index b) o → visit_segments fk (Some vk) segs b = Ok b' →
  ∃ o', own_segments fk segs o = Ok o' ∧ owners_sync (eb_index b') o'.
Proof.
  intros Hf. revert b o. induction segs as [|s segs IH]; intros b o Hs; cbn [visit_segments own_segments].
  { intros [= <-]. by exists o. }
  pose proof (verified_parse fk vk s) as Hp.
  destruct (parse_segment fk (Some vk) s) as [[[bss es] ins]|[]]; [|done|done|by rewrite Hp; apply IH|done].
  rewrite Hp, io_bind_Ok. intros (b1 & Hv & Hr). cbn [visit extent_index_builder] in Hv.
  unfold parse_segment in Hp. apply io_bind_Ok in Hp as (file & Hfile & Hp).
  eapply IH; [|exact Hr]. by eapply eb_visit_sync.
Qed.

(** A layer with no open log. *)
Definition no_wal (fk : ForkDir) : Prop := match fd_wal fk with Ok entries => entries = [] | Err _ => True end.

(** The drift check's owner walk agrees with the real rebuild: whenever the
    verified rebuild of a chain with no open log succeeds, the unverified owner
    walk succeeds too and names the same owner for every hash in the data tier,
    the delta tier and the journal tier, and every segment named is in its live
    set. (No parsed segment loses an inline body on the way.) *)
Theorem rebuilt_owners_match layers ranges b :
  Forall (λ l : Timeline * option string, files_ok (l.1 4%nat) ∧ no_wal (l.1 4%nat)) layers →
  rebuild layers = Ok b →
  ∃ o, rebuild_owners_unverified layers ranges = Ok o ∧ owners_sync (eb_index b) o.
Proof.
  unfold rebuild, rebuild_owners_unverified. intros Hl.
  assert (owners_sync (eb_index eb_new) (mkOwners ∅ ∅ ∅ ∅)) as Hs.
  { split; cbn [ro_inner ro_delta ro_journal ro_live eb_index eb_new]; intros.
    - by rewrite !lookup_empty.
    - by rewrite !lookup_empty.
    - unfold lookup_journal. cbn. rewrite lookup_empty. split; [set_solver|by intros []].
    - by rewrite lookup_empty in *.
    - by rewrite lookup_empty in *.
    - set_solver. }
  revert Hs. generalize (mkOwners ∅ ∅ ∅ ∅), eb_new. induction Hl as [|[tl branch] layers [Hf Hw] _ IH];
    intros o b0 Hs; cbn [walk_fork_layers rebuild_owners]; [intros [= <-]; by exists o|].
  cbn [fst] in *. rewrite io_bind_Ok. intros (segs & Hd & Hr). rewrite Hd. cbn [mbind io_bind].
  assert (∀ o, (match fd_wal (tl 4%nat) with
            | Ok entries => foldl (own_wal_file (tl 4%nat) ranges) o entries | Err _ => o end) = o) as Hnw.
  { intros o'. unfold no_wal in Hw. destruct (fd_wal (tl 4%nat)); [by subst|done]. }
  case_decide as Hne.
  - subst segs. cbn [own_segments mbind io_bind]. rewrite Hnw. by apply (IH o b0).
  - cbn [load_key] in Hr. apply io_bind_Ok in Hr as (vk & Hk & Hr).
    apply io_bind_Ok in Hk as (k & _ & [= <-]). apply io_bind_Ok in Hr as (b1 & Hv & Hr).
    destruct (visit_segments_sync _ _ _ _ _ o Hf Hs Hv) as (o1 & -> & Hs1). cbn [mbind io_bind].
    rewrite Hnw. by apply (IH o1 b1).
Qed.
End spec.

(** ** Concrete forks *)

#[local] Existing Instance toy_blake3.
#[local] Existing Instance toy_ulid_bytes.
#[local] Existing Instance toy_signer.
#[local] Existing Instance toy_lz4.

(** One-letter ULIDs, and the merge sort as the unstable sort. *)
#[local] Instance toy_ulid_text : UlidText := {
  ulid_from_string s := match s with String c EmptyString => Some (Z.of_nat (nat_of_ascii c)) | _ => None end;
  ulid_to_string u := String (ascii_of_nat (Z.to_nat u)) EmptyString
}.

#[local] Instance by_ulid_dec a b : Decision (by_ulid a b).
Proof. unfold by_ulid. apply _. Defined.

#[local] Instance by_ulid_trans : Transitive by_ulid.
Proof. intros a b c. unfold by_ulid. lia. Qed.

#[local] Instance by_ulid_total : Total by_ulid.
Proof. intros a b. unfold by_ulid. lia. Qed.

#[local] Instance merge_by_ulid : UnstableSort.
Proof.
  refine {| sort_by_ulid := merge_sort by_ulid |}.
  - intros l. apply merge_sort_Permutation.
  - intros l. refine (StronglySorted_merge_sort by_ulid l).
Defined.

(** A gc output [B] that consumed [A], an index holding [A] and [C], and the
    pending segment [D]. *)
Definition toy_gc_file : list Z :=
  match write_gc_segment raw_decode sample_pending [65] with Ok (f, _, _) => f | Err _ => [] end.

Definition toy_fork : ForkDir := {|
  fd_list d := match d with
               | DOpen => Ok ["D"; "D.tmp"]
               | DGc => Ok ["B"]
               | DIndex => Ok ["A.idx"; "C.idx"]
               | _ => Err NotFound
               end%string;
  fd_file d n := match d with DGc | DOpen => Ok toy_gc_file | _ => Err NotFound end;
  fd_exists _ _ := false;
  fd_wal := Ok [];
  fd_wal_file _ := Err NotFound;
  fd_key := Ok toy_verifier
|}.

Definition toy_refs : list SegmentRef :=
  [mkSegmentRef 66 GcApplied (DGc, "B"%string); mkSegmentRef 67 Index (DIndex, "C.idx"%string);
   mkSegmentRef 68 Pending (DOpen, "D"%string)].

Lemma discover_exact_witness :
  discover_fork_segments (still toy_fork) None = Ok toy_refs ∧
  (∀ s, s ∈ toy_refs ↔ listed (still toy_fork) None s ∧ ¬ superseded (still toy_fork) None s).
Proof.
  assert (discover_fork_segments (still toy_fork) None = Ok toy_refs) as H by (vm_compute; reflexivity).
  split; [exact H|]. exact (proj1 (discover_exact (still toy_fork) None toy_refs H)).
Defined.

(** A pending segment promoted between the first two listings. *)
Definition toy_promote : Timeline := λ i, {|
  fd_list d := match d, i with
               | DOpen, O => Ok ["D"%string]
               | DIndex, S _ => Ok ["D.idx"%string]
               | _, _ => Err NotFound
               end;
  fd_file _ _ := Err NotFound;
  fd_exists _ _ := false;
  fd_wal := Err NotFound;
  fd_wal_file _ := Err NotFound;
  fd_key := Err NotFound
|}.

(** A flush at ULID 5, and a compaction output at 9 whose inputs end at 3. *)
Definition toy_entry (h : Hash) : SegmentEntry :=
  mkSegmentEntry h 0 10 CodecNone Data 0 0 None [] false None None.

Definition toy_visits : list (SegmentRef * list SegmentEntry * list Ulid) :=
  [(mkSegmentRef 9 GcApplied (DGc, "B"%string), [toy_entry [2]], [1; 3]);
   (mkSegmentRef 5 Pending (DOpen, "D"%string), [toy_entry [1]], [])].

Lemma toy_entry_fits N h : 10 ≤ N → entry_fits N (toy_entry h).
Proof. intros HN _. cbn. lia. Qed.

Lemma rebuild_newest_claim_witness : view (layer_map toy_visits) 4 = Some (mkCell [1] 4 5).
Proof.
  assert (newest_flush toy_visits 4 (mkCell [1] 4 5)) as Hn.
  { exists 5, [toy_entry [1]]. split; [left|]. split; [reflexivity|].
    intros u' es' c' Hin _. apply list_elem_of_singleton in Hin as [= -> _]. lia. }
  destruct (rebuild_newest_claim 100 toy_visits) as [_ Hv].
  - split; [lia|]. split; [|apply NoDup_singleton].
    apply Forall_cons_2; [|apply Forall_singleton]; apply Forall_singleton, toy_entry_fits; lia.
  - apply Hv; [|exact Hn]. intros u h es e x Hin He Hx. exists (mkCell [1] 4 5). split; [exact Hn|].
    apply list_elem_of_singleton in Hin as [= -> -> ->]. apply list_elem_of_singleton in He as ->.
    injection Hx as <-. split; [cbn; lia|]. split; [cbn; lia|]. left. discriminate.
Defined.

Lemma horizon_matches_live_apply_witness :
  view (register_output sample 7 5 [toy_entry [9]]) 4 =
  view (apply_output sample 7 (list_to_set [1; 5]) [toy_entry [9]]) 4.
Proof.
  apply (horizon_matches_live_apply 1000 sample 7 [1; 5] 5 [toy_entry [9]]).
  - apply sample_wf.
  - apply Forall_singleton, toy_entry_fits. lia.
  - reflexivity.
  - intros e lba He [x Hx] c Hc. apply list_elem_of_singleton in He as ->.
    unfold claim_of in Hx. cbn [is_canonical_only toy_entry e_kind e_start_lba e_lba_length] in Hx.
    case_decide as Hl; [|discriminate]. left. unfold sample in Hc.
    destruct (insert_inner_view 1000 (LbaMap.insert lm_new 0 100 [1] 1) 30 20 0 [2] 5) as [_ Hv]; [|lia..|].
    { apply insert_inner_view; [by apply lm_new_wf|lia..]. }
    unfold LbaMap.insert in Hc. rewrite Hv, decide_False in Hc by lia.
    destruct (insert_inner_view 1000 lm_new 0 100 0 [1] 1) as [_ Hv0]; [by apply lm_new_wf|lia..|].
    unfold LbaMap.insert in Hc. rewrite Hv0, decide_True in Hc by lia. injection Hc as <-. left.
Defined.

(** One layer holding a signed segment. *)
Definition toy_layers : list (Timeline * option string) := [(still toy_fork, Some "D"%string)].

Lemma toy_gc_file_bytes : bytes_ok toy_gc_file.
Proof. unfold bytes_ok, byte_ok. apply (bool_decide_unpack _). vm_compute. exact I. Qed.

