(* ===== verification/FoldApply.v ===== *)
(** * Folding a rewrite into the maps (volume/mod.rs, volume/repack.rs, volume/jobs.rs)

    The apply of a rewritten segment: a GC plan's output over [base] and the
    frozen layers below it, a repack bucket's output over [base].  Each runs in
    two steps, the fold over a clone with the volume released and the swap under
    its lock.  Files are what reading them gives; what a step does to the
    filesystem is a list of [FsOp].  The durations and the log lines are left
    out, and so are the stress-only assertions, except the claim one, which is a
    definition of its own. *)

From stdpp Require Import base gmap list strings.
From S2P Require Import Prelude Text Segment SegmentCodec LbaMap ExtentIndex MapLayers FileCache LbaRanges.
From S2P Require Rebuild.
Open Scope Z_scope.

(** ** What both folds share *)

Inductive StagedApply := Applied | Cancelled | Diverged.

(** What the apply does to the files of a rewrite. *)
Inductive FsOp :=
  | RemoveTmp (u : Ulid)
  | RemovePlan (u : Ulid)
  | RemovePending (u : Ulid)
  | RenameOutput (u : Ulid)
  | RemoveOutput (u : Ulid)
  | UnlinkInput (u : Ulid).

(** The volume's fields an apply touches beside the WAL's. *)
Record Segments := mkSegments {
  sg_maps : MapLayers;
  own_segments : gset Ulid;
  last_segment_ulid : option Ulid;
  has_new_segments : bool;
  pending_journal : gset Ulid;
  sg_file_cache : FileCache
}.

Definition with_maps (ls : MapLayers) (v : Segments) : Segments :=
  mkSegments ls (own_segments v) (last_segment_ulid v) (has_new_segments v) (pending_journal v) (sg_file_cache v).

(** [Option<Ulid>]'s order puts [None] first. *)
Definition raise_last (u : Ulid) (v : Segments) : Segments :=
  let last := match last_segment_ulid v with
              | Some l => if decide (l < u) then Some u else Some l
              | None => Some u
              end in
  mkSegments (sg_maps v) (own_segments v) last (has_new_segments v) (pending_journal v) (sg_file_cache v).

Definition journal_hashes (ix : ExtentIndex) (segment : Ulid) : gset Hash := dom (journal_of ix segment).

(** The index still locates [h] at the input. *)
Definition still_at (ix : ExtentIndex) (h : Hash) (input : Ulid) : bool :=
  match ExtentIndex.lookup ix h with
  | Some loc => bool_decide (segment_id loc = input)
  | None => false
  end
  || match ExtentIndex.lookup_delta ix h with
     | Some loc => bool_decide (d_segment_id loc = input)
     | None => false
     end.

(** A claim or a recorded encoding names [h]. *)
Definition hash_live (m : Maps) (h : Hash) : bool :=
  is_referenced (lbamap m) h || is_named_delta_source (extent_index m) h.

Fixpoint register_all_consuming (ix : ExtentIndex) (raw_idx : Z) (entries : list SegmentEntry)
    (ctx : SegmentRegistrationCtx) (inputs : gset Ulid) : io ExtentIndex :=
  match entries with
  | [] => Ok ix
  | e :: entries =>
      ix ← ExtentIndex.register_entry_consuming_inputs ix e (as_u32 raw_idx) ctx inputs;
      register_all_consuming ix (raw_idx + 1) entries ctx inputs
  end.

(** Journal bodies and source records are keyed by segment, so an input's go
    whole. *)
Definition purge_input (ix : ExtentIndex) (input : Ulid) : ExtentIndex :=
  purge_segment_delta_sources (purge_journal_segment ix input) input.

(** ** A GC plan *)

Record GcPlanApplyResult := mkGcPlanApplyResult {
  gr_new_ulid : Ulid;
  gr_tmp_path : bool; (* whether [gc/<new_ulid>.tmp] was written *)
  gr_new_bss : Z;
  gr_entries : list SegmentEntry;
  gr_inputs : list Ulid;
  gr_input_old_entries : list (Hash * EntryKind * Ulid);
  gr_input_claim_ranges : list (Z * Z);
  gr_carried_hashes : gset Hash;
  gr_entry_hashes : gset Hash;
  gr_handoff_inline : list Z;
  gr_outcome : StagedApply
}.

Record PlanLanded := mkPlanLanded {
  pl_new_ulid : Ulid;
  pl_inputs : list Ulid;
  pl_post : Maps;
  pl_removed : gset Hash;
  pl_entries : Z
}.

Inductive PlanFold := FoldCancelled | FoldLanded (landed : PlanLanded).
Inductive PlanSwap := SwapApplied | SwapCancelled.
Inductive PlanSwapPrep := PrepSkip (outcome : StagedApply) | PrepLayers (ls : MapLayers).

Definition swap_outcome (s : PlanSwap) : StagedApply :=
  match s with SwapApplied => Applied | SwapCancelled => Cancelled end.

Definition remove_plan_output (u : Ulid) : list FsOp := [RemoveTmp u; RemovePlan u].

(** An input-owned hash the output does not carry is dropped; one still live
    cancels the plan. *)
Definition derive_step (m : Maps) (carried : gset Hash) (acc : list (Hash * Ulid) * list (Hash * Ulid))
    (old : Hash * EntryKind * Ulid) : list (Hash * Ulid) * list (Hash * Ulid) :=
  let '(h, _, input) := old in
  if negb (still_at (extent_index m) h input) || bool_decide (h ∈ carried) then acc
  else (acc.1 ++ [(h, input)], if hash_live m h then acc.2 ++ [(h, input)] else acc.2).

Definition derive_removals (m : Maps) (result : GcPlanApplyResult) : list (Hash * Ulid) * list (Hash * Ulid) :=
  foldl (derive_step m (gr_carried_hashes result)) ([], []) (gr_input_old_entries result).

(** Remove each owner still there, collecting what went. *)
Definition remove_step (acc : ExtentIndex * gset Hash) (old : Hash * Ulid) : ExtentIndex * gset Hash :=
  match remove_owner_at acc.1 old.1 old.2 with
  | (ix, true) => (ix, {[ old.1 ]} ∪ acc.2)
  | (ix, false) => (ix, acc.2)
  end.

Definition remove_owners (ix : ExtentIndex) (to_remove : list (Hash * Ulid)) : ExtentIndex * gset Hash :=
  foldl remove_step (ix, ∅) to_remove.

(** Claim each entry; an entry that took less than it covers ran into a claim
    the plan does not consume. *)
Definition claim_entry (new_ulid : Ulid) (consumed : gset Ulid) (acc : LbaMap * list (Z * Z)) (e : SegmentEntry)
    : LbaMap * list (Z * Z) :=
  let '(lm, took) := LbaMap.register_entry_consuming_inputs acc.1 e new_ulid consumed in
  (lm, if negb (is_canonical_only (e_kind e)) && bool_decide (took < e_lba_length e)
       then acc.2 ++ [(e_start_lba e, e_lba_length e)] else acc.2).

Definition claim_entries (lm : LbaMap) (entries : list SegmentEntry) (new_ulid : Ulid) (consumed : gset Ulid)
    : LbaMap * list (Z * Z) := foldl (claim_entry new_ulid consumed) (lm, []) entries.

Definition range_reads (lm : LbaMap) (ranges : list (Z * Z)) : list ExtentRead :=
  concat (map (λ '(start, length), LbaMap.extents_in_range lm start (u64_add start length)) ranges).

Definition superseded_runs (lm : LbaMap) (blocked : list (Z * Z)) (new_ulid : Ulid) (consumed : gset Ulid)
    : list (Z * Z * Ulid) :=
  map (λ x, (range_start x, range_end x, er_claimant x))
    (filter (λ x, er_claimant x < new_ulid ∧ er_claimant x ∉ consumed) (range_reads lm blocked)).

Definition dropped_runs (lm : LbaMap) (claim_ranges : list (Z * Z)) (entries : list SegmentEntry)
    (consumed : gset Ulid) : list (Z * Z * Ulid) :=
  let covered := lr_from_claims entries in
  omap (λ x, '(from, to_) ← first_gap_in covered (range_start x) (range_end x); Some (from, to_, er_claimant x))
    (filter (λ x, er_claimant x ∈ consumed) (range_reads lm claim_ranges)).

(** [assert_claims_within_input_ranges], as what it asserts. *)
Definition claims_within_input_ranges (lm : LbaMap) (consumed : gset Ulid) (claim_ranges : list (Z * Z)) : bool :=
  let within := lr_new (map (λ '(s, l), (s, u64_add s l)) claim_ranges) in
  forallb (λ '(lba, len, _, _, claimant),
             negb (bool_decide (claimant ∈ consumed))
             || bool_decide (first_gap_in within lba (u64_add lba len) = None))
    (iter_entries_with_claimant lm).

Definition SUPERSEDED_CARRY : string := "superseded_carry".
Definition DROPPED_CLAIM : string := "dropped_claim".

(** [min_by_key]: the first of the least. *)
Definition least_run (runs : list (Z * Z * Ulid)) : option (Z * Z * Ulid) :=
  foldl (λ best r, match best with
                   | Some b => if decide (fst (fst r) < fst (fst b)) then Some r else best
                   | None => Some r
                   end) None runs.

Section gc.
Context {HT : UlidText}.

Definition refusal_identity (kind : string) (runs : list (Z * Z * Ulid)) (inputs : Z) : option string :=
  '(anchor_lba, _, held_by) ← least_run runs;
  let blocks := foldl (λ acc r, u64_add acc (u64_sub (r.1.2) (r.1.1))) 0 runs in
  Some ("refusal=" +:+ kind +:+ " held_by=" +:+ ulid_to_string held_by +:+ " anchor_lba=" +:+ dec anchor_lba
        +:+ " runs=" +:+ dec (Z.of_nat (length runs)) +:+ " blocks=" +:+ dec blocks
        +:+ " inputs=" +:+ dec inputs)%string.

(** The merge of the output into a clone of the maps below it. *)
Definition merge_plan (pre : Maps) (result : GcPlanApplyResult) (ctx : SegmentRegistrationCtx)
    (to_remove : list (Hash * Ulid)) (consumed : gset Ulid) : io (Maps * gset Hash * list (Z * Z)) :=
  ix ← register_all_consuming (extent_index pre) 0 (gr_entries result) ctx consumed;
  let '(ix, removed) := remove_owners ix to_remove in
  let ix := foldl purge_input ix (elements consumed) in
  let '(lm, blocked) := claim_entries (lbamap pre) (gr_entries result) (gr_new_ulid result) consumed in
  Ok (mkMaps lm ix, removed, blocked).

Definition fold_plan_apply_result (ls : MapLayers) (result : GcPlanApplyResult) (tmp_file : io (list Z))
    : io (PlanFold * list FsOp) :=
  let new_ulid := gr_new_ulid result in
  if negb (gr_tmp_path result) then Ok (FoldCancelled, [])
  else
    let view := materialised ls in
    let '(to_remove, stale_cancel) := derive_removals view result in
    if negb (bool_decide (stale_cancel = [])) then Ok (FoldCancelled, remove_plan_output new_ulid)
    else
      let consumed := list_to_set (gr_inputs result) : gset Ulid in
      let footprint := gr_entry_hashes result ∪ list_to_set to_remove.*1
                         ∪ ⋃ (map (journal_hashes (extent_index view)) (elements consumed)) in
      delta_body_source ← Rebuild.full_for_segment tmp_file (gr_entries result) (gr_new_bss result);
      let ctx := mkCtx new_ulid (gr_new_bss result) TierCached delta_body_source
                   (Section_ (gr_handoff_inline result)) in
      let pre := below ls new_ulid in
      let gate_ranges := lr_from_claims_and_ranges (gr_entries result) (gr_input_claim_ranges result) in
      '(post, removed, blocked) ← merge_plan pre result ctx to_remove consumed;
      let orphaned := unresolvable_footprint_hashes (materialised (above ls new_ulid post)) footprint
                        gate_ranges REFUSAL_SAMPLE_LIMIT in
      let inputs := Z.of_nat (length (gr_inputs result)) in
      if decide (0 < uh_total orphaned) then Ok (FoldCancelled, remove_plan_output new_ulid)
      else if decide (is_Some (refusal_identity SUPERSEDED_CARRY
                                 (superseded_runs (lbamap pre) blocked new_ulid consumed) inputs))
      then Ok (FoldCancelled, remove_plan_output new_ulid)
      else if decide (is_Some (refusal_identity DROPPED_CLAIM
                                 (dropped_runs (lbamap pre) (gr_input_claim_ranges result) (gr_entries result) consumed)
                                 inputs))
      then Ok (FoldCancelled, remove_plan_output new_ulid)
      else Ok (FoldLanded (mkPlanLanded new_ulid (gr_inputs result) post removed
                             (Z.of_nat (length (gr_entries result)))), []).

(** The first hold: the worker's own cancel, then inputs this process never
    loaded. *)
Definition prepare_plan_swap (v : Segments) (result : GcPlanApplyResult) : PlanSwapPrep * list FsOp :=
  match gr_outcome result with
  | Cancelled => (PrepSkip Cancelled, [])
  | _ =>
      if negb (gr_tmp_path result) then (PrepSkip Cancelled, [])
      else if negb (bool_decide (filter (λ u, u ∉ own_segments v) (gr_inputs result) = []))
      then (PrepSkip Diverged, [RemoveTmp (gr_new_ulid result)])
      else (PrepLayers (sg_maps v), [])
  end.

(** The second hold; [renamed] is the answer to the commit's rename.  The
    inputs' pending files go before it. *)
Definition swap_plan_apply (v : Segments) (landed : PlanLanded) (renamed : io unit)
    : io (Segments * PlanSwap) * list FsOp :=
  match delta_claims_any (sg_maps v) (pl_removed landed) with
  | Some _ => (Ok (v, SwapCancelled), [])
  | None =>
      let removed := map RemovePending (pl_inputs landed) in
      match renamed with
      | Err e => (Err e, removed)
      | Ok _ =>
          let v := with_maps (swap_below (sg_maps v) (pl_post landed) (pl_new_ulid landed)) v in
          let v := mkSegments (sg_maps v) ({[ pl_new_ulid landed ]} ∪ own_segments v) (last_segment_ulid v)
                     (has_new_segments v) (pending_journal v) (sg_file_cache v) in
          (Ok (raise_last (pl_new_ulid landed) v, SwapApplied),
           removed ++ [RenameOutput (pl_new_ulid landed); RemovePlan (pl_new_ulid landed)])
      end
  end.

(** The three on one thread. *)
Definition apply_plan_apply_result (v : Segments) (result : GcPlanApplyResult) (tmp_file : io (list Z))
    (renamed : io unit) : io (Segments * StagedApply) * list FsOp :=
  match prepare_plan_swap v result with
  | (PrepSkip outcome, ops) => (Ok (v, outcome), ops)
  | (PrepLayers ls, _) =>
      match fold_plan_apply_result ls result tmp_file with
      | Err e => (Err e, [])
      | Ok (FoldCancelled, ops) => (Ok (v, Cancelled), ops)
      | Ok (FoldLanded landed, _) =>
          match swap_plan_apply v landed renamed with
          | (Err e, ops) => (Err e, ops)
          | (Ok (v, SwapApplied), ops) => (Ok (v, Applied), ops)
          | (Ok (v, SwapCancelled), ops) => (Ok (v, Cancelled), ops ++ remove_plan_output (pl_new_ulid landed))
          end
      end
  end.
End gc.

(** ** A repack bucket *)

Record CompactionStats := mkCompactionStats {
  segments_compacted : Z; new_segments : Z; bytes_freed : Z; extents_removed : Z; buckets_refused : Z
}.
Definition stats_default : CompactionStats := mkCompactionStats 0 0 0 0 0.

Record RepackedInput := mkRepackedInput {
  ri_input_ulid : Ulid;
  ri_owned_hashes : list Hash;
  ri_claim_ranges : list (Z * Z)
}.

Record RepackedOutput := mkRepackedOutput {
  ro_new_ulid : Ulid; ro_new_body_section_start : Z; ro_out_entries : list SegmentEntry
}.

Record RepackedBucket := mkRepackedBucket {
  rb_inputs : list RepackedInput;
  rb_output : option RepackedOutput;
  rb_bytes_freed : Z;
  rb_journal : bool
}.

Record RepackResult := mkRepackResult {
  rr_stats : CompactionStats;
  rr_buckets : list RepackedBucket;
  rr_open : bool; (* whether the pass ran over [pending/open/] *)
  rr_journal_untouched : list Ulid
}.

Record RepackApply := mkRepackApply {
  ra_stats : CompactionStats;
  ra_consumed_inputs : list Ulid;
  ra_pending_journal : gset Ulid;
  ra_open : bool;
  ra_buckets : Z
}.

Record RepackLanded := mkRepackLanded { rl_post : Maps; rl_removed : gset Hash }.
Inductive RepackFold := Refused | Landed (landed : RepackLanded).

Definition ra_new (result : RepackResult) : RepackApply * list RepackedBucket :=
  (mkRepackApply (rr_stats result) [] (list_to_set (rr_journal_untouched result)) (rr_open result) 0,
   rr_buckets result).

Definition bump_stats (s : CompactionStats) (freed removed refused : Z) : CompactionStats :=
  mkCompactionStats (segments_compacted s) (new_segments s) (u64_add (bytes_freed s) freed)
    (u64_add (extents_removed s) removed) (u64_add (buckets_refused s) refused).

Definition bucket_ulids (bucket : RepackedBucket) : list Ulid := map ri_input_ulid (rb_inputs bucket).
Definition bucket_entries (bucket : RepackedBucket) : list SegmentEntry :=
  match rb_output bucket with Some o => ro_out_entries o | None => [] end.

(** The output goes, the inputs stay. *)
Definition refuse_bucket (bucket : RepackedBucket) (acc : RepackApply) : RepackApply * list FsOp :=
  (mkRepackApply (bump_stats (ra_stats acc) 0 0 1) (ra_consumed_inputs acc)
     (if rb_journal bucket then list_to_set (bucket_ulids bucket) ∪ ra_pending_journal acc
      else ra_pending_journal acc) (ra_open acc) (ra_buckets acc),
   match rb_output bucket with Some o => [RemoveOutput (ro_new_ulid o)] | None => [] end).

(** The owned hashes the output does not carry that are live after all. *)
Definition stale_hashes (m : Maps) (bucket : RepackedBucket) (carried : gset Hash) : list Hash :=
  concat (map (λ input, filter (λ h, h ∉ carried ∧ still_at (extent_index m) h (ri_input_ulid input) = true
                                     ∧ hash_live m h = true) (ri_owned_hashes input)) (rb_inputs bucket)).

Definition remove_input (carried : gset Hash) (acc : ExtentIndex * gset Hash) (input : RepackedInput)
    : ExtentIndex * gset Hash :=
  let '(ix, gone) := remove_input_owned acc.1 (ri_input_ulid input) (ri_owned_hashes input) carried in
  (purge_input ix (ri_input_ulid input), list_to_set gone ∪ acc.2).

Definition remove_inputs (ix : ExtentIndex) (inputs : list RepackedInput) (carried : gset Hash)
    : ExtentIndex * gset Hash := foldl (remove_input carried) (ix, ∅) inputs.

(** The merge of a bucket into a clone of [base]. *)
Definition merge_bucket (b : Maps) (bucket : RepackedBucket) (source : option DeltaBodySource) (carried : gset Hash)
    : io (Maps * gset Hash) :=
  let consumed := list_to_set (bucket_ulids bucket) : gset Ulid in
  let '(ix, removed) := remove_inputs (extent_index b) (rb_inputs bucket) carried in
  match rb_output bucket with
  | None => Ok (mkMaps (lbamap b) ix, removed)
  | Some out =>
      let ctx := mkCtx (ro_new_ulid out) (ro_new_body_section_start out) TierLocal source EntryInline in
      ix ← register_all_consuming ix 0 (ro_out_entries out) ctx consumed;
      Ok (mkMaps (foldl (λ lm e, (LbaMap.register_entry_consuming_inputs lm e (ro_new_ulid out) consumed).1)
                    (lbamap b) (ro_out_entries out)) ix, removed)
  end.

Definition fold_repack_bucket_inner (ls : MapLayers) (bucket : RepackedBucket) (acc : RepackApply)
    (out_file : io (list Z)) : io (RepackFold * RepackApply * list FsOp) :=
  let carried := match rb_output bucket with Some o => carried_hashes (ro_out_entries o) | None => ∅ end in
  let view := materialised ls in
  if negb (bool_decide (stale_hashes view bucket carried = [])) then
    let '(acc, ops) := refuse_bucket bucket acc in Ok (Refused, acc, ops)
  else
    let footprint := list_to_set (concat (map ri_owned_hashes (rb_inputs bucket)))
                       ∪ ⋃ (map (λ i, journal_hashes (extent_index view) (ri_input_ulid i)) (rb_inputs bucket))
                       ∪ list_to_set (map e_hash (bucket_entries bucket)) in
    source ← match rb_output bucket with
             | Some o => Rebuild.full_for_segment out_file (ro_out_entries o) (ro_new_body_section_start o)
             | None => Ok None
             end;
    let gate_ranges := lr_from_claims_and_ranges (bucket_entries bucket)
                         (concat (map ri_claim_ranges (rb_inputs bucket))) in
    '(post, removed) ← merge_bucket (base ls) bucket source carried;
    let orphaned := unresolvable_footprint_hashes (materialised (with_base ls post)) footprint gate_ranges
                      REFUSAL_SAMPLE_LIMIT in
    if decide (0 < uh_total orphaned) then
      let '(acc, ops) := refuse_bucket bucket acc in Ok (Refused, acc, ops)
    else Ok (Landed (mkRepackLanded post removed), acc, []).

Definition fold_repack_bucket (ls : MapLayers) (bucket : RepackedBucket) (acc : RepackApply)
    (out_file : io (list Z)) : io (RepackFold * RepackApply * list FsOp) :=
  let acc := mkRepackApply (ra_stats acc) (ra_consumed_inputs acc) (ra_pending_journal acc) (ra_open acc)
               (u64_add (ra_buckets acc) 1) in
  fold_repack_bucket_inner ls bucket acc out_file.

Definition evict_inputs (c : FileCache) (inputs : list Ulid) : FileCache :=
  foldl (λ c u, fc_evict u c) c inputs.

Definition swap_repack_bucket (v : Segments) (bucket : RepackedBucket) (landed : RepackLanded) (acc : RepackApply)
    : Segments * RepackApply * list FsOp :=
  match delta_claims_any (sg_maps v) (rl_removed landed) with
  | Some _ => let '(acc, ops) := refuse_bucket bucket acc in (v, acc, ops)
  | None =>
      let v := with_maps (swap_base (sg_maps v) (rl_post landed)) v in
      let stats := bump_stats (ra_stats acc) (rb_bytes_freed bucket) (Z.of_nat (size (rl_removed landed))) 0 in
      let v := match rb_output bucket with
               | Some o => let v := raise_last (ro_new_ulid o) v in
                           mkSegments (sg_maps v) (own_segments v) (last_segment_ulid v) true (pending_journal v)
                             (sg_file_cache v)
               | None => v
               end in
      let journal := match rb_output bucket with
                     | Some o => if rb_journal bucket then {[ ro_new_ulid o ]} ∪ ra_pending_journal acc
                                 else ra_pending_journal acc
                     | None => ra_pending_journal acc
                     end in
      (mkSegments (sg_maps v) (own_segments v) (last_segment_ulid v) (has_new_segments v) (pending_journal v)
         (evict_inputs (sg_file_cache v) (bucket_ulids bucket)),
       mkRepackApply stats (ra_consumed_inputs acc ++ bucket_ulids bucket) journal (ra_open acc) (ra_buckets acc), [])
  end.

Definition apply_repack_bucket (v : Segments) (bucket : RepackedBucket) (acc : RepackApply) (out_file : io (list Z))
    : io (Segments * RepackApply * list FsOp) :=
  '(fold, acc, ops) ← fold_repack_bucket (sg_maps v) bucket acc out_file;
  match fold with
  | Refused => Ok (v, acc, ops)
  | Landed landed => Ok (swap_repack_bucket v bucket landed acc)
  end.

(** Only a pass over the open generation replaces the pending journal set. *)
Definition finish_repack_apply (v : Segments) (acc : RepackApply) : Segments * CompactionStats * list Ulid :=
  (if ra_open acc then
     mkSegments (sg_maps v) (own_segments v) (last_segment_ulid v) (has_new_segments v) (ra_pending_journal acc)
       (sg_file_cache v)
   else v, ra_stats acc, ra_consumed_inputs acc).

Fixpoint apply_buckets (v : Segments) (buckets : list RepackedBucket) (acc : RepackApply)
    (out_file : Ulid → io (list Z)) : io (Segments * RepackApply * list FsOp) :=
  match buckets with
  | [] => Ok (v, acc, [])
  | bucket :: buckets =>
      let file := match rb_output bucket with Some o => out_file (ro_new_ulid o) | None => Err OtherError end in
      '(v, acc, ops) ← apply_repack_bucket v bucket acc file;
      '(v, acc, ops') ← apply_buckets v buckets acc out_file;
      Ok (v, acc, ops ++ ops')
  end.

Definition apply_repack_result (v : Segments) (result : RepackResult) (out_file : Ulid → io (list Z))
    : io (Segments * CompactionStats * list Ulid * list FsOp) :=
  let '(acc, buckets) := ra_new result in
  '(v, acc, ops) ← apply_buckets v buckets acc out_file;
  let '(v, stats, consumed) := finish_repack_apply v acc in
  Ok (v, stats, consumed, ops).

(** An input already gone is no error; the directories are synced after. *)
Fixpoint unlink_consumed_inputs (inputs : list Ulid) (unlinked : Ulid → io unit) (synced : io unit)
    : io unit * list FsOp :=
  match inputs with
  | [] => (synced, [])
  | u :: inputs =>
      match unlinked u with
      | Ok _ => let '(r, ops) := unlink_consumed_inputs inputs unlinked synced in (r, UnlinkInput u :: ops)
      | Err NotFound => unlink_consumed_inputs inputs unlinked synced
      | Err e => (Err e, [])
      end
  end.
