(* ===== verification/FoldApplySpec.v ===== *)
(** * A landed fold is the rebuild's *)

From stdpp Require Import base gmap list strings.
From S2P Require Import Prelude Text Segment SegmentCodec LbaMap LbaMapFacts LbaMapSpec ExtentIndex MapLayers MapLayersSpec LbaRanges LbaRangesSpec SegmentClassifySpec Rebuild RebuildSpec RewritePlanSpec FoldApply.
Open Scope Z_scope.

(** ** Reads of a list of ranges *)

Definition range_fits (N : Z) (r : Z * Z) : Prop := 0 ≤ r.1 ∧ 0 < r.2 ∧ r.1 + r.2 ≤ N.

Definition in_lengths (b : Z) (rs : list (Z * Z)) : Prop := ∃ r, r ∈ rs ∧ r.1 ≤ b < r.1 + r.2.

Lemma elem_of_range_reads m rs x :
  x ∈ range_reads m rs ↔ ∃ r, r ∈ rs ∧ x ∈ LbaMap.extents_in_range m r.1 (u64_add r.1 r.2).
Proof.
  unfold range_reads. rewrite list_elem_of_In, in_concat. setoid_rewrite <-list_elem_of_In. split.
  - intros (xs & ([s l] & -> & Hr)%list_elem_of_fmap & Hx). by exists (s, l).
  - intros ([s l] & Hr & Hx). eexists. split; [|exact Hx]. apply list_elem_of_fmap. by exists (s, l).
Qed.

Lemma range_end_fits N r : range_fits N r → N < U64 → u64_add r.1 r.2 = r.1 + r.2.
Proof. intros (? & ? & ?) ?. by rewrite u64_add_id by lia. Qed.

Lemma range_reads_sound N m rs x :
  lm_wf N m → Forall (range_fits N) rs → x ∈ range_reads m rs →
  0 ≤ range_start x < range_end x ∧ range_end x ≤ N ∧
  (∀ b, er_covers x b → in_lengths b rs ∧ view m b = Some (er_cell x b)).
Proof.
  intros Hwf Hrs (r & Hr & Hx)%elem_of_range_reads. pose proof (wf_bound _ _ Hwf).
  pose proof (proj1 (Forall_forall _ _) Hrs r Hr) as Hf. rewrite (range_end_fits N) in Hx by (done || lia).
  destruct Hf as (H0 & Hl & HN). destruct (extents_in_range_spec N m r.1 (r.1 + r.2) Hwf) as [Hs Hv]; [lia..|].
  destruct (reads_bounds _ _ _ _ Hs Hx). split; [lia|]. split; [lia|]. intros b Hb.
  destruct (read_at_covered _ _ _ _ _ Hs Hx Hb) as [Hat Hin]. split; [by exists r|]. by rewrite <-Hv, Hat by done.
Qed.

Lemma range_reads_complete N m rs b c :
  lm_wf N m → Forall (range_fits N) rs → in_lengths b rs → view m b = Some c →
  ∃ x, x ∈ range_reads m rs ∧ er_covers x b ∧ c = er_cell x b.
Proof.
  intros Hwf Hrs (r & Hr & Hb) Hc. pose proof (wf_bound _ _ Hwf).
  pose proof (proj1 (Forall_forall _ _) Hrs r Hr) as Hf. pose proof Hf as (H0 & Hl & HN).
  destruct (extents_in_range_spec N m r.1 (r.1 + r.2) Hwf) as [Hs Hv]; [lia..|].
  rewrite <-Hv in Hc by done. apply read_at_Some in Hc as (x & Hx & Hcov & ->).
  exists x. split; [|done]. apply elem_of_range_reads. exists r. split; [done|]. by rewrite (range_end_fits N) by (done || lia).
Qed.

(** ** Claiming a list of entries *)

Definition covered_by (es : list SegmentEntry) (u : Ulid) (b : Z) : Prop := ∃ e, e ∈ es ∧ is_Some (claim_of u e b).

#[export] Instance covered_by_dec es u b : Decision (covered_by es u b).
Proof.
  refine (cast_if (decide (Exists (λ e, is_Some (claim_of u e b)) es))); by rewrite Exists_exists in *.
Defined.

Lemma claim_of_Some u e b c :
  claim_of u e b = Some c ↔ is_canonical_only (e_kind e) = false ∧
    e_start_lba e ≤ b < e_start_lba e + e_lba_length e ∧ c = mkCell (e_hash e) (b - e_start_lba e) u.
Proof. unfold claim_of. destruct (is_canonical_only _); [naive_solver|]. case_decide; naive_solver. Qed.

Lemma consuming_view N m e u consumed :
  lm_wf N m → entry_fits N e →
  let r := LbaMap.register_entry_consuming_inputs m e u consumed in
  lm_wf N r.1 ∧
  (∀ b, view r.1 b = match claim_of u e b with
                     | Some c => if admits (Consuming consumed) (e_hash e) u m b then Some c else view m b
                     | None => view m b
                     end) ∧
  (is_canonical_only (e_kind e) = false → r.2 = admitted_count (Consuming consumed) (e_hash e) u m (e_start_lba e) (e_lba_length e)).
Proof.
  intros Hwf Hfit. unfold LbaMap.register_entry_consuming_inputs, register_entry_inner, insert_consuming_inputs, claim_of.
  destruct (is_canonical_only (e_kind e)) eqn:Hk; [done|]. destruct (Hfit Hk) as (? & ? & ?).
  destruct (insert_if_newer_view N m (e_start_lba e) (e_lba_length e) (e_hash e) u (Consuming consumed))
    as (Hwf' & Hn & Hv); [done..|]. split; [exact Hwf'|]. split; [|done]. intros b. rewrite Hv.
  destruct (decide (e_start_lba e ≤ b < e_start_lba e + e_lba_length e)); [|by rewrite decide_False by tauto].
  destruct (admits _ _ _ _ _); [by rewrite decide_True|by rewrite decide_False by naive_solver].
Qed.

(** An entry that takes every block it covers. *)
Lemma admitted_all blocking h u m s len :
  0 < len → ¬ admitted_count blocking h u m s len < len → ∀ b, s ≤ b < s + len → admits blocking h u m b = true.
Proof.
  unfold admitted_count. intros Hlen Hn b Hb. destruct (admits blocking h u m b) eqn:Ha; [done|]. exfalso. apply Hn.
  assert (length (filter (λ lba, admits blocking h u m lba = true) (seqZ s len)) < length (seqZ s len))%nat as Hlt.
  { apply (length_filter_lt _ _ b); [by apply elem_of_seqZ|congruence]. }
  rewrite length_seqZ in Hlt. lia.
Qed.

Lemma not_admitted_claim consumed h u m b :
  admits (Consuming consumed) h u m b = false →
  ∃ c, view m b = Some c ∧ c_claimant c ∉ consumed ∧ c_claimant c ≠ u ∧ (c_hash c = h → u ≤ c_claimant c).
Proof.
  unfold admits, blocks. destruct (view m b) as [c|]; [|done]. intros Hb. exists c. split; [done|].
  rewrite negb_involutive in Hb.
  destruct (bool_decide_reflect (c_claimant c ∈ consumed)), (bool_decide_reflect (c_claimant c = u)),
    (bool_decide_reflect (c_hash c = h)), (bool_decide_reflect (c_claimant c < u)); try done; split_and!; try done; lia.
Qed.

(** What became of a block some entry covers: an entry took it, or every one met
    a standing claim and one was reported blocked. *)
Definition settled (lm lm' : LbaMap) (es : list SegmentEntry) (u : Ulid) (consumed : gset Ulid)
    (blocked : list (Z * Z)) (b : Z) : Prop :=
  (∃ e c, e ∈ es ∧ claim_of u e b = Some c ∧ view lm' b = Some c) ∨
  (view lm' b = view lm b ∧
   ∃ c e, view lm b = Some c ∧ c_claimant c ∉ consumed ∧ c_claimant c ≠ u ∧ e ∈ es ∧ is_Some (claim_of u e b) ∧
          (e_start_lba e, e_lba_length e) ∈ blocked).

Lemma claim_fold_spec N es u consumed lm blocked :
  lm_wf N lm → Forall (entry_fits N) es →
  let r := foldl (claim_entry u consumed) (lm, blocked) es in
  lm_wf N r.1 ∧ r.1 = apply_output lm u consumed es ∧ (∀ x, x ∈ blocked → x ∈ r.2) ∧
  (∀ x, x ∈ r.2 → x ∈ blocked ∨ ∃ e, e ∈ es ∧ is_canonical_only (e_kind e) = false ∧ x = (e_start_lba e, e_lba_length e)) ∧
  ∀ b, (covered_by es u b → settled lm r.1 es u consumed r.2 b) ∧ (¬ covered_by es u b → view r.1 b = view lm b).
Proof.
  intros Hwf Hes. revert lm blocked Hwf. induction Hes as [|e es He Hes IH]; intros lm blocked Hwf; cbn [foldl].
  { split_and!; [done|done|done|naive_solver|]. intros b. split; [|done]. by intros (e & ?%elem_of_nil & _). }
  pose proof (consuming_view N lm e u consumed Hwf He) as (Hwf1 & Hv1 & Hn1).
  unfold apply_output. cbn [foldl].
  destruct (claim_entry u consumed (lm, blocked) e) as [lm1 bl] eqn:Hce. unfold claim_entry in Hce. cbn [fst snd] in Hce.
  destruct (LbaMap.register_entry_consuming_inputs lm e u consumed) as [lm1' took] eqn:Hr. cbn [fst snd] in *.
  injection Hce as <- Hbl_eq.
  destruct (IH lm1' bl Hwf1) as (Hwf2 & Heq & Hkeep & Hfrom & Hb). clear IH.
  assert (∀ x, x ∈ blocked → x ∈ bl) as Hbl by (intros x Hx; subst bl; destruct (negb _ && _); set_solver).
  split_and!; [exact Hwf2|exact Heq|by intros x ?%Hbl%Hkeep| |].
  { intros x [Hx|(e' & ? & ? & ?)]%Hfrom; [|right; exists e'; split_and!; [by right|done|done]].
    subst bl. destruct (is_canonical_only (e_kind e)) eqn:Hk; [by left|]. cbn [negb andb] in Hx.
    destruct (bool_decide _); [|by left]. apply elem_of_app in Hx as [?|Hx%list_elem_of_singleton]; [by left|].
    right. exists e. split_and!; [by left|done|done]. }
  intros b. destruct (Hb b) as [Hcov Hunc]. specialize (Hv1 b). split.
  - intros (e' & He' & Hc'). destruct (decide (covered_by es u b)) as [Hc|Hnc].
    + destruct (Hcov Hc) as [(e1 & c & ? & ? & ?)|(Hsame & c & e1 & Hc1 & Hn & Hu & Hin & Hs & Hbk)].
      { left. exists e1, c. split_and!; [by right|done|done]. }
      destruct (claim_of u e b) as [c0|] eqn:Hc0.
      * destruct (admits _ _ _ _ _).
        -- left. exists e, c0. split_and!; [by left|done|congruence].
        -- right. split; [congruence|]. exists c, e1. split_and!; [congruence|done|done|by right|done|done].
      * right. split; [congruence|]. exists c, e1. split_and!; [congruence|done|done|by right|done|done].
    + unfold settled. rewrite (Hunc Hnc). apply elem_of_cons in He' as [->|He']; [|by destruct Hnc; exists e'].
      destruct Hc' as [c0 Hc0]. rewrite Hc0 in Hv1. destruct (admits _ _ _ _ _) eqn:Ha.
      { left. exists e, c0. split_and!; [by left|done|done]. }
      right. split; [done|]. apply not_admitted_claim in Ha as Hcl. destruct Hcl as (c & ? & ? & ? & _).
      exists c, e. split_and!; [done|done|done|by left|by eexists|]. apply Hkeep. subst bl.
      apply claim_of_Some in Hc0 as (Hk & Hbr & _). rewrite Hk. cbn [negb andb]. rewrite bool_decide_eq_true_2; [set_solver|].
      rewrite Hn1 by done. destruct (decide (admitted_count (Consuming consumed) (e_hash e) u lm (e_start_lba e) (e_lba_length e) < e_lba_length e)) as [|Hge]; [done|].
      exfalso. destruct (He Hk) as (_ & [Hlen _] & _). rewrite (admitted_all _ _ _ _ _ _ Hlen Hge b Hbr) in Ha. done.
  - intros Hnc. rewrite Hunc; [|intros (e' & ? & ?); destruct Hnc; exists e'; split; [by right|done]].
    rewrite Hv1. destruct (claim_of u e b) eqn:Hc; [|done]. destruct Hnc. exists e. split; [by left|by eexists].
Qed.

(** ** Coverage *)

Lemma claim_ranges_covered N es u b :
  Forall (entry_fits N) es → N < U64 → in_ranges b (claim_ranges es) ↔ covered_by es u b.
Proof.
  intros Hes HN. rewrite in_ranges_elem. unfold claim_ranges, covered_by. split.
  - intros (r & (e & -> & [Hk He]%list_elem_of_filter)%list_elem_of_fmap & Hb). exists e. split; [done|].
    destruct (proj1 (Forall_forall _ _) Hes e He Hk) as (? & ? & ?). unfold claim_range in Hb. cbn [fst snd] in Hb.
    rewrite u64_add_id in Hb by lia. eexists. by apply claim_of_Some.
  - intros (e & He & [c (Hk & Hb & _)%claim_of_Some]). exists (claim_range e).
    destruct (proj1 (Forall_forall _ _) Hes e He Hk) as (? & ? & ?). split.
    + apply list_elem_of_fmap. exists e. split; [done|]. by apply list_elem_of_filter.
    + unfold claim_range. cbn [fst snd]. by rewrite u64_add_id by lia.
Qed.

Lemma claim_ranges_bounds N es :
  Forall (entry_fits N) es → N < U64 → Forall (λ r, 0 ≤ r.1 ∧ r.2 ≤ N) (claim_ranges es).
Proof.
  intros Hes HN. apply Forall_forall. intros r (e & -> & [Hk He]%list_elem_of_filter)%list_elem_of_fmap.
  destruct (proj1 (Forall_forall _ _) Hes e He Hk) as (? & ? & ?). unfold claim_range. cbn [fst snd].
  rewrite u64_add_id by lia. lia.
Qed.

Definition ends (rs : list (Z * Z)) : list (Z * Z) := map (λ '(s, l), (s, u64_add s l)) rs.

Lemma ends_in N rs b : Forall (range_fits N) rs → N < U64 → in_ranges b (ends rs) ↔ in_lengths b rs.
Proof.
  intros Hrs HN. rewrite in_ranges_elem. unfold ends, in_lengths. split.
  - intros (r & ([s l] & -> & Hr)%list_elem_of_fmap & Hb). exists (s, l). split; [done|].
    pose proof (range_end_fits N (s, l) (proj1 (Forall_forall _ _) Hrs _ Hr) HN) as He. cbn [fst snd] in *. by rewrite He in Hb.
  - intros ([s l] & Hr & Hb). exists (s, u64_add s l). split; [apply list_elem_of_fmap; by exists (s, l)|].
    pose proof (range_end_fits N (s, l) (proj1 (Forall_forall _ _) Hrs _ Hr) HN) as He. cbn [fst snd] in *. by rewrite He.
Qed.

Lemma ends_bounds N rs : Forall (range_fits N) rs → N < U64 → Forall (λ r, 0 ≤ r.1 ∧ r.2 ≤ N) (ends rs).
Proof.
  intros Hrs HN. apply Forall_forall. intros r ([s l] & -> & Hr)%list_elem_of_fmap.
  pose proof (proj1 (Forall_forall _ _) Hrs _ Hr) as Hf. pose proof (range_end_fits N (s, l) Hf HN) as He.
  destruct Hf as (? & ? & ?). cbn [fst snd] in *. rewrite He. lia.
Qed.

(** The asserted containment: a block an input claims lies in an input's range. *)
Lemma claims_within N m consumed rs b c :
  lm_wf N m → Forall (range_fits N) rs → claims_within_input_ranges m consumed rs = true →
  view m b = Some c → c_claimant c ∈ consumed → in_lengths b rs.
Proof.
  intros Hwf Hrs Hw Hc Hin. pose proof (wf_bound _ _ Hwf). apply (view_Some N) in Hc as (k & e & He & Hb & ->); [|done].
  unfold claims_within_input_ranges in Hw. rewrite forallb_forall in Hw.
  specialize (Hw (k, lba_length e, me_hash e, payload_block_offset e, claimant_ulid e)).
  pose proof (wf_entry _ _ Hwf _ _ He) as (? & ? & ? & _).
  assert (In (k, lba_length e, me_hash e, payload_block_offset e, claimant_ulid e) (iter_entries_with_claimant m)) as Hi.
  { apply list_elem_of_In, list_elem_of_fmap. exists (k, e). split; [done|]. by apply elem_of_om_iter. }
  apply Hw in Hi. rewrite bool_decide_eq_true_2 in Hi by exact Hin. cbn [negb orb] in Hi. apply bool_decide_eq_true in Hi.
  rewrite u64_add_id in Hi by lia. apply (ends_in N); [done|lia|].
  apply (first_gap_None _ k (k + lba_length e)); [lia|exact Hi|lia].
Qed.

(** ** The maps a fold reads *)

Lemma fold_maps_wf N b x : lm_wf N (lbamap b) → lm_wf N (lbamap x) → lm_wf N (lbamap (fold_maps b x)).
Proof. intros Hb Hx. by apply (fold_lbamap_spec N). Qed.

Lemma materialised_wf N ls : layers_ok N ls → lm_wf N (lbamap (materialised ls)).
Proof.
  intros [Hb Hf Hd]. unfold materialised. case_match; [done|].
  pose proof (fold_frozen_spec N (base ls) (frozen ls) Hb Hf) as [Hw _].
  case_match; [done|]. by apply fold_maps_wf.
Qed.

Lemma below_wf N ls u : layers_ok N ls → lm_wf N (lbamap (below ls u)).
Proof.
  intros [Hb Hf Hd]. unfold below. apply (fold_frozen_spec N); [done|]. apply Forall_forall.
  intros l [_ Hl]%list_elem_of_filter. by apply (proj1 (Forall_forall _ _) Hf).
Qed.

Lemma above_ok N ls u b : layers_ok N ls → lm_wf N (lbamap b) → layers_ok N (above ls u b).
Proof.
  intros [_ Hf Hd] Hb. split; [done| |done]. apply Forall_forall. cbn [above with_base frozen].
  intros l [_ Hl]%list_elem_of_filter. by apply (proj1 (Forall_forall _ _) Hf).
Qed.

(** ** Removals *)

Lemma derive_fold_spec m carried l acc :
  (∀ h u, (h, u) ∈ acc.1 → still_at (extent_index m) h u = true ∧ (hash_live m h = false ∨ (h, u) ∈ acc.2)) →
  let r := foldl (derive_step m carried) acc l in
  ∀ h u, (h, u) ∈ r.1 → still_at (extent_index m) h u = true ∧ (hash_live m h = false ∨ (h, u) ∈ r.2).
Proof.
  revert acc. induction l as [|[[h k] input] l IH]; intros acc Hacc; [done|]. cbn [foldl]. apply IH. clear IH.
  unfold derive_step. destruct (still_at _ h input) eqn:Hs; cbn [negb orb]; [|done]. case_bool_decide; [done|]. cbn [fst snd].
  intros h' u' [Hin|Heq%list_elem_of_singleton]%elem_of_app.
  - destruct (Hacc _ _ Hin) as [? [?|?]]; (split; [done|]); [by left|right]. destruct (hash_live m h); set_solver.
  - injection Heq as -> ->. split; [done|]. destruct (hash_live m h) eqn:Hl; [right; set_solver|by left].
Qed.

Lemma remove_fold_removed l acc h :
  h ∈ (foldl remove_step acc l).2 → h ∈ acc.2 ∨ ∃ u, (h, u) ∈ l.
Proof.
  revert acc. induction l as [|[h0 u0] l IH]; intros acc; cbn [foldl]; [by left|]. intros [Hin|[u Hu]]%IH.
  - unfold remove_step in Hin. cbn [fst snd] in Hin. destruct (remove_owner_at _ h0 u0) as [ix1 []]; cbn [fst snd] in Hin; [|by left].
    apply elem_of_union in Hin as [->%elem_of_singleton|?]; [right; exists u0; by left|by left].
  - right. exists u. by right.
Qed.

Lemma least_run_None runs : least_run runs = None → runs = [].
Proof.
  unfold least_run. destruct runs as [|r runs]; [done|]. cbn [foldl]. intros H. exfalso. revert r H.
  induction runs as [|r' runs IH]; intros r; [done|]. cbn [foldl]. destruct (decide _); apply IH.
Qed.

Lemma refusal_None {HT : UlidText} kind runs n : ¬ is_Some (refusal_identity kind runs n) → runs = [].
Proof.
  intros Hn. apply least_run_None. destruct (least_run runs) as [[[a b] u]|] eqn:Hl; [|done].
  destruct Hn. unfold refusal_identity. rewrite Hl. by eexists.
Qed.

(** What a landed fold went through. *)
Lemma landed_steps {HT : UlidText} ls result tmp_file landed ops :
  fold_plan_apply_result ls result tmp_file = Ok (FoldLanded landed, ops) →
  let u := gr_new_ulid result in
  let consumed := list_to_set (gr_inputs result) : gset Ulid in
  let pre := below ls u in
  let view := materialised ls in
  ∃ ctx blocked,
    (derive_removals view result).2 = [] ∧
    merge_plan pre result ctx (derive_removals view result).1 consumed = Ok (pl_post landed, pl_removed landed, blocked) ∧
    ¬ 0 < uh_total (unresolvable_footprint_hashes (materialised (above ls u (pl_post landed)))
         (gr_entry_hashes result ∪ list_to_set (derive_removals view result).1.*1
            ∪ ⋃ (map (journal_hashes (extent_index view)) (elements consumed)))
         (lr_from_claims_and_ranges (gr_entries result) (gr_input_claim_ranges result)) REFUSAL_SAMPLE_LIMIT) ∧
    superseded_runs (lbamap pre) blocked u consumed = [] ∧
    dropped_runs (lbamap pre) (gr_input_claim_ranges result) (gr_entries result) consumed = [].
Proof.
  unfold fold_plan_apply_result. destruct (gr_tmp_path result); [|done]. cbn [negb].
  destruct (derive_removals _ _) as [to_remove stale]. case_bool_decide as Hst; [|done]. cbn [negb fst snd].
  destruct (Rebuild.full_for_segment _ _ _) as [src|]; [|done]. cbn [mbind io_bind].
  destruct (merge_plan _ _ _ _ _) as [[[post removed] blocked]|] eqn:Hm; [|done].
  cbn [mbind io_bind]. repeat (case_decide; [done|]). intros [= <- _]. cbn.
  eexists _, blocked. split_and!; [exact Hst|exact Hm|done|by eapply refusal_None..].
Qed.

Lemma merge_plan_lbamap pre result ctx to_remove consumed post removed blocked :
  merge_plan pre result ctx to_remove consumed = Ok (post, removed, blocked) →
  claim_entries (lbamap pre) (gr_entries result) (gr_new_ulid result) consumed = (lbamap post, blocked) ∧
  ∀ h, h ∈ removed → h ∈ to_remove.*1.
Proof.
  unfold merge_plan. destruct (register_all_consuming _ _ _ _ _) as [ix|]; [|done]. cbn [mbind io_bind].
  destruct (remove_owners ix to_remove) as [ix1 rem] eqn:Hr. destruct (claim_entries _ _ _ _) as [lm bl].
  intros [= <- <- <-]. split; [done|]. intros h Hh. replace rem with (remove_owners ix to_remove).2 in Hh by by rewrite Hr.
  apply remove_fold_removed in Hh as [?|[u Hu]]; [set_solver|]. apply list_elem_of_fmap. by exists (h, u).
Qed.

(** ** Properties *)

(** C15: a GC fold that lands changes the map by exactly its output. A block the
    output does not claim is untouched; a block it claims is claimed by the
    output, or by a claim above it that it found; over the blocks the inputs'
    entries cover no claim of a consumed input is left, and none is left anywhere
    when, before the fold, every claim of a consumed input lay over such blocks
    (which the source asserts only under its invariant checks); every claim over
    the blocks it touched of a hash it registered or dropped still resolves; and a
    hash it dropped had no claim and no encoding naming it. *)
Theorem plan_fold_exact {HT : UlidText} N ls result tmp_file landed ops :
  layers_ok N ls → N < U32 → Forall (entry_fits N) (gr_entries result) →
  Forall (range_fits N) (gr_input_claim_ranges result) → gr_new_ulid result ∉ gr_inputs result →
  let u := gr_new_ulid result in
  let consumed := list_to_set (gr_inputs result) : gset Ulid in
  let pre := lbamap (below ls u) in
  fold_plan_apply_result ls result tmp_file = Ok (FoldLanded landed, ops) →
  let post := lbamap (pl_post landed) in
  let after := materialised (above ls u (pl_post landed)) in
  lm_wf N post ∧
  (∀ b, ¬ covered_by (gr_entries result) u b → view post b = view pre b) ∧
  (∀ b, covered_by (gr_entries result) u b → ∃ c, view post b = Some c ∧ u ≤ c_claimant c ∧
     ((∃ e, e ∈ gr_entries result ∧ claim_of u e b = Some c) ∨ view pre b = Some c)) ∧
  (∀ b c, in_lengths b (gr_input_claim_ranges result) → view post b = Some c → c_claimant c ∉ gr_inputs result) ∧
  (claims_within_input_ranges pre consumed (gr_input_claim_ranges result) = true →
   ∀ b c, view post b = Some c → c_claimant c ∉ gr_inputs result) ∧
  (∀ b c, view (lbamap after) b = Some c →
     covered_by (gr_entries result) u b ∨ in_lengths b (gr_input_claim_ranges result) →
     c_hash c ∈ gr_entry_hashes result ∪ pl_removed landed → resolves (extent_index after) c) ∧
  (∀ h, h ∈ pl_removed landed → hash_live (materialised ls) h = false).
Proof.
  intros Hok HN Hes Hrs Hnew u consumed pre Hfold post after.
  destruct (landed_steps _ _ _ _ _ Hfold) as (ctx & blocked & Hstale & Hmerge & Hgate & Hsup & Hdrop).
  fold u consumed in Hmerge, Hgate, Hsup, Hdrop. fold pre in Hsup, Hdrop.
  apply merge_plan_lbamap in Hmerge as [Hclaims Hrem]. fold u pre in Hclaims.
  pose proof (below_wf N ls u Hok) as Hpre. fold pre in Hpre. pose proof (wf_bound _ _ Hpre).
  destruct (claim_fold_spec N (gr_entries result) u consumed pre [] Hpre Hes) as (Hwf & _ & _ & Hfrom & Hb).
  fold (claim_entries pre (gr_entries result) u consumed) in *. rewrite Hclaims in *. cbn [fst snd] in *.
  assert (∀ x, x ∈ consumed ↔ x ∈ gr_inputs result) as Hcons by (intros x; apply elem_of_list_to_set).
  assert (Forall (range_fits N) blocked) as Hbf.
  { apply Forall_forall. intros x [?%elem_of_nil|(e & He & Hk & ->)]%Hfrom; [done|].
    destruct (proj1 (Forall_forall _ _) Hes e He Hk) as (? & ? & ?). unfold range_fits. cbn. lia. }
  assert (∀ b, covered_by (gr_entries result) u b → ∃ c, view post b = Some c ∧ u ≤ c_claimant c ∧
     ((∃ e, e ∈ gr_entries result ∧ claim_of u e b = Some c) ∨ view pre b = Some c) ∧ c_claimant c ∉ consumed) as Hcov.
  { intros b Hc. destruct (proj1 (Hb b) Hc) as [(e & c & He & Hce & Hv)|(Hv & c & e & Hc0 & Hn & Hu & He & Hs & Hbk)].
    - exists c. apply claim_of_Some in Hce as Hce'. destruct Hce' as (_ & _ & ->). cbn.
      split_and!; [done|lia|left; by exists e|by rewrite Hcons].
    - exists c. rewrite <-Hv in Hc0. split_and!; [done| |right; by rewrite <-Hv|done]. rewrite Hv in Hc0.
      destruct (decide (u ≤ c_claimant c)) as [|Hlow]; [done|exfalso].
      destruct Hs as [c0 (_ & Hbr & _)%claim_of_Some].
      destruct (range_reads_complete N pre blocked b c Hpre Hbf) as (x & Hx & Hxb & ->);
        [by exists (e_start_lba e, e_lba_length e)|done|]. cbn [c_claimant er_cell] in *.
      unfold superseded_runs in Hsup. apply map_eq_nil in Hsup.
      assert (x ∈ filter (λ x, er_claimant x < u ∧ er_claimant x ∉ consumed) (range_reads pre blocked)) as Hin.
      { apply list_elem_of_filter. split; [|done]. split; [lia|done]. }
      rewrite Hsup in Hin. by apply elem_of_nil in Hin. }
  assert (∀ b c, (¬ covered_by (gr_entries result) u b → view pre b = Some c → c_claimant c ∈ consumed →
      in_lengths b (gr_input_claim_ranges result)) → view post b = Some c → c_claimant c ∉ gr_inputs result) as Hnone.
  { intros b c Hlen Hc. rewrite <-Hcons. destruct (decide (covered_by (gr_entries result) u b)) as [Hcb|Hcb].
    { destruct (Hcov b Hcb) as (c' & Hc' & _ & _ & ?). unfold post in *. congruence. }
    intros Hin. unfold post in Hc. rewrite (proj2 (Hb b) Hcb) in Hc. specialize (Hlen Hcb Hc Hin).
    destruct (range_reads_complete N pre _ b c Hpre Hrs Hlen Hc) as (x & Hx & Hxb & ->).
    destruct (range_reads_sound N pre _ x Hpre Hrs Hx) as (Hx0 & HxN & _).
    assert (x ∈ filter (λ x, er_claimant x ∈ consumed) (range_reads pre (gr_input_claim_ranges result))) as Hxf
      by (apply list_elem_of_filter; by split).
    unfold dropped_runs in Hdrop. destruct (first_gap_in (lr_from_claims (gr_entries result)) (range_start x) (range_end x)) as [[f t]|] eqn:Hg.
    - assert ((f, t, er_claimant x) ∈ omap (λ x, '(from, to_) ← first_gap_in (lr_from_claims (gr_entries result)) (range_start x) (range_end x);
                Some (from, to_, er_claimant x)) (filter (λ x, er_claimant x ∈ consumed) (range_reads pre (gr_input_claim_ranges result)))) as Hin'.
      { apply list_elem_of_omap. exists x. split; [done|]. by rewrite Hg. }
      rewrite Hdrop in Hin'. by apply elem_of_nil in Hin'.
    - apply Hcb. apply (claim_ranges_covered N); [done|lia|]. eapply first_gap_None; [|exact Hg|exact Hxb]. lia. }
  split_and!; [exact Hwf|intros b; apply Hb|intros b Hc; destruct (Hcov b Hc) as (c & ? & ? & ? & _); by exists c| | | |].
  - intros b c Hin. by apply Hnone.
  - intros Hwithin b c. apply Hnone. intros _ Hc Hin. by apply (claims_within N pre consumed _ b c Hpre Hrs Hwithin).
  - intros b c Hc Hin Hh. eapply gate_sound; [|exact HN| |exact Hgate| |exact Hc|].
    + apply materialised_wf, above_ok; [done|exact Hwf].
    + apply lr_new_bounds, Forall_app. split; [apply claim_ranges_bounds; [done|lia]|by apply ends_bounds; [|lia]].
    + unfold lr_from_claims_and_ranges. apply lr_new_spec. unfold in_ranges. rewrite Exists_app.
      destruct Hin as [Hin|Hin]; [left; by apply (claim_ranges_covered N _ u); [|lia|]|right; by apply (ends_in N); [|lia|]].
    + apply elem_of_union in Hh as [?|Hh%Hrem]; [set_solver|]. apply elem_of_union_l, elem_of_union_r. by apply elem_of_list_to_set.
  - intros h Hh. apply Hrem, list_elem_of_fmap in Hh as ([h' w] & -> & Hh).
    destruct (derive_fold_spec (materialised ls) (gr_carried_hashes result) (gr_input_old_entries result) ([], [])) with h' w
      as [_ [Hl|Hl]]; [by intros ? ? ?%elem_of_nil|exact Hh|done|].
    unfold derive_removals in Hstale. rewrite Hstale in Hl. by apply elem_of_nil in Hl.
Qed.

(** Segment 1's two surviving runs, rewritten under 6. *)
Definition gc_data (h : Hash) (kind : EntryKind) (start len : Z) : SegmentEntry :=
  mkSegmentEntry h start len CodecNone kind 0 4096 None [] false None None.
Definition gc_result : GcPlanApplyResult :=
  mkGcPlanApplyResult 6 true 100 [gc_data [1] CanonicalData 0 0; gc_data [7] Data 0 30; gc_data [8] Data 50 50] [1]
    [([1], Data, 1)] [(0, 100)] {[ [1]; [7]; [8] ]} {[ [1]; [7]; [8] ]} [] Applied.
Definition gc_layers : MapLayers := ml_new base_sample.
Definition gc_fold : io (PlanFold * list FsOp) :=
  fold_plan_apply_result (HT := decimal_ulid_text) gc_layers gc_result (Err NotFound).

Lemma plan_fold_exact_witness :
  ∃ landed ops, gc_fold = Ok (FoldLanded landed, ops) ∧
    (∀ b c, view (lbamap (pl_post landed)) b = Some c → c_claimant c ∉ [1]) ∧
    view (lbamap (pl_post landed)) 40 = view sample 40.
Proof.
  assert (match gc_fold with Ok (FoldLanded _, _) => true | _ => false end = true) as Ht by (vm_compute; reflexivity).
  destruct gc_fold as [[[|landed] ops]|] eqn:E; [done| |done]. exists landed, ops. split; [done|].
  pose proof (@plan_fold_exact decimal_ulid_text 1000 gc_layers gc_result (Err NotFound) landed ops) as H.
  destruct H as (_ & Hout & _ & _ & Hnone & _); [|done|..].
  - split; [apply sample_wf|by apply Forall_nil|by apply lm_new_wf].
  - repeat (apply Forall_cons; split; [intros Hk; cbn; try done; lia|]). by apply Forall_nil.
  - apply Forall_cons. split; [|by apply Forall_nil]. unfold range_fits. cbn. lia.
  - cbn. intros ?%list_elem_of_singleton. lia.
  - exact E.
  - split; [apply Hnone; vm_compute; reflexivity|]. rewrite Hout; [vm_compute; reflexivity|].
    intros (e & He & [c Hc]). apply claim_of_Some in Hc as (Hk & Hb & _).
    repeat (apply elem_of_cons in He as [->|He]; [cbn in *; (done || lia)|]). by apply elem_of_nil in He.
Defined.
