(* ===== verification/RepackFoldSpec.v ===== *)
(** * A landed repack bucket keeps the device's content *)

From stdpp Require Import base gmap list.
From S2P Require Import Prelude Segment SegmentCodec LbaMap LbaMapFacts LbaMapSpec ExtentIndex ExtentIndexSpec MapLayers MapLayersSpec LbaRanges LbaRangesSpec Rebuild RebuildSpec FoldApply FoldApplySpec.
Open Scope Z_scope.

(** A block the entries changed was free, held by an input or by the output, or
    held lower down for the hash of an entry over it. *)
Lemma claim_fold_changed N es u consumed m b :
  lm_wf N m → Forall (entry_fits N) es → view (apply_output m u consumed es) b ≠ view m b →
  ∀ c, view m b = Some c →
  c_claimant c ∈ consumed ∨ c_claimant c = u ∨
  ∃ e, e ∈ es ∧ is_Some (claim_of u e b) ∧ e_hash e = c_hash c ∧ c_claimant c < u.
Proof.
  intros Hwf Hes. revert m Hwf. induction Hes as [|e es He Hes IH]; intros m Hwf; unfold apply_output; cbn [foldl]; [done|].
  fold (apply_output (LbaMap.register_entry_consuming_inputs m e u consumed).1 u consumed es).
  destruct (consuming_view N m e u consumed Hwf He) as (Hwf1 & Hv1 & _). specialize (Hv1 b).
  set (m1 := (LbaMap.register_entry_consuming_inputs m e u consumed).1) in *. intros Hne c Hc.
  destruct (claim_of u e b) as [c'|] eqn:Hce; [destruct (admits _ _ _ _ _) eqn:Ha|].
  2,3: rewrite <-Hv1 in Hc, Hne; destruct (IH m1 Hwf1 Hne c Hc) as [?|[?|(e' & ? & ? & ?)]]; auto; right; right; exists e'; split; [by right|done].
  unfold admits, blocks in Ha. rewrite Hc, negb_involutive, !orb_true_iff, andb_true_iff, !bool_decide_eq_true in Ha.
  destruct Ha as [[?|?]|[? ?]]; auto. right. right. exists e. split_and!; [by left|by eexists|done|done].
Qed.

Section content.
Context {A : Type} (content : Hash → Z → A).

Definition cell_content (c : Cell) : A := content (c_hash c) (c_offset c).

(** The output has, for each block it may take, the content it takes it from;
    it claims no block that had none. *)
Definition output_agrees (m : LbaMap) (es : list SegmentEntry) (u : Ulid) (consumed : gset Ulid) : Prop :=
  ∀ b e, e ∈ es → is_Some (claim_of u e b) → ∃ c, view m b = Some c ∧
    (c_claimant c ∈ consumed ∨ c_claimant c = u ∨ (∃ e', e' ∈ es ∧ is_Some (claim_of u e' b) ∧ e_hash e' = c_hash c) →
     content (e_hash e) (b - e_start_lba e) = cell_content c).

Lemma output_keeps_content N es u consumed m b :
  lm_wf N m → Forall (entry_fits N) es → output_agrees m es u consumed →
  cell_content <$> view (apply_output m u consumed es) b = cell_content <$> view m b.
Proof.
  intros Hwf Hes Hag. destruct (claim_fold_spec N es u consumed m [] Hwf Hes) as (_ & Heq & _ & _ & Hb).
  destruct (decide (view (apply_output m u consumed es) b = view m b)) as [->|Hne]; [done|].
  pose proof (claim_fold_changed N es u consumed m b Hwf Hes Hne) as Hch. rewrite Heq in Hb. destruct (Hb b) as [Hcov Hunc].
  destruct (decide (covered_by es u b)) as [Hc|Hc]; [|by rewrite Hunc in Hne by done].
  destruct (Hcov Hc) as [(e & c' & He & Hce & Hv)|[Hv _]]; [|done]. rewrite Hv.
  destruct (Hag b e He) as (c & Hm & Hc'); [by eexists|]. rewrite Hm. cbn. f_equal.
  apply claim_of_Some in Hce as (_ & _ & ->). unfold cell_content at 1. cbn. apply Hc'.
  destruct (Hch c Hm) as [?|[?|(e' & ? & ? & ? & _)]]; [by left|by right; left|right; right; by exists e'].
Qed.
End content.

(** ** The fold *)

Definition bucket_ulid (bucket : RepackedBucket) : Ulid :=
  match rb_output bucket with Some o => ro_new_ulid o | None => 0 end.

Lemma landed_bucket_steps ls bucket acc file landed acc' ops :
  fold_repack_bucket ls bucket acc file = Ok (Landed landed, acc', ops) →
  let carried := match rb_output bucket with Some o => carried_hashes (ro_out_entries o) | None => ∅ end in
  let consumed := list_to_set (bucket_ulids bucket) : gset Ulid in
  let view := materialised ls in
  stale_hashes view bucket carried = [] ∧
  (remove_inputs (extent_index (base ls)) (rb_inputs bucket) carried).2 = rl_removed landed ∧
  lbamap (rl_post landed) = apply_output (lbamap (base ls)) (bucket_ulid bucket) consumed (bucket_entries bucket) ∧
  ¬ 0 < uh_total (unresolvable_footprint_hashes (materialised (with_base ls (rl_post landed)))
       (list_to_set (concat (map ri_owned_hashes (rb_inputs bucket)))
          ∪ ⋃ (map (λ i, journal_hashes (extent_index view) (ri_input_ulid i)) (rb_inputs bucket))
          ∪ list_to_set (map e_hash (bucket_entries bucket)))
       (lr_from_claims_and_ranges (bucket_entries bucket) (concat (map ri_claim_ranges (rb_inputs bucket)))) REFUSAL_SAMPLE_LIMIT).
Proof.
  unfold fold_repack_bucket, fold_repack_bucket_inner. cbv zeta. case_bool_decide as Hst; cbn [negb].
  2: { by destruct (refuse_bucket _ _) as [? ?]. }
  destruct (match rb_output bucket with Some o => _ | None => Ok None end) as [src|]; [|done]. cbn [mbind io_bind].
  destruct (merge_bucket _ _ _ _) as [[post removed]|] eqn:Hm; [|done]. cbn [mbind io_bind].
  case_decide; [by destruct (refuse_bucket _ _) as [? ?]|]. intros [= <- _ _]. cbn [rl_post rl_removed].
  split; [done|]. unfold merge_bucket in Hm.
  destruct (remove_inputs _ _ _) as [ix rem]. unfold bucket_ulid, bucket_entries in *.
  destruct (rb_output bucket) as [o|]; [|by injection Hm as <- <-].
  destruct (register_all_consuming _ _ _ _ _) as [ix'|]; [|done]. by injection Hm as <- <-.
Qed.

Lemma still_at_iff ix h u :
  still_at ix h u = true ↔
  (∃ l, inner ix !! h = Some l ∧ segment_id l = u) ∨ (∃ l, deltas ix !! h = Some l ∧ d_segment_id l = u).
Proof.
  unfold still_at, ExtentIndex.lookup, ExtentIndex.lookup_delta. rewrite orb_true_iff.
  destruct (inner ix !! h), (deltas ix !! h); rewrite ?bool_decide_eq_true; naive_solver.
Qed.

(** Removing only takes owners away. *)
Definition owners_within (ix ix' : ExtentIndex) : Prop := ∀ h u, still_at ix h u = true → still_at ix' h u = true.

Lemma drop_counts_maps l ix :
  inner (foldl drop_source_counts ix l) = inner ix ∧ deltas (foldl drop_source_counts ix l) = deltas ix.
Proof. revert ix. induction l as [|x l IH]; intros ix; [done|]. cbn [foldl]. by destruct (IH (drop_source_counts ix x)) as [-> ->]. Qed.

Lemma purge_input_maps ix u : inner (purge_input ix u) = inner ix ∧ deltas (purge_input ix u) = deltas ix.
Proof.
  unfold purge_input, purge_segment_delta_sources. destruct (delta_sources _ !! u); [|done].
  by destruct (drop_counts_maps ((map_to_list g).*2) (with_sources (purge_journal_segment ix u) (delete u (delta_sources (purge_journal_segment ix u)))
     (delta_source_counts (purge_journal_segment ix u)))) as [-> ->].
Qed.

Lemma purge_input_within ix u : owners_within (purge_input ix u) ix.
Proof. intros h w. rewrite !still_at_iff. by destruct (purge_input_maps ix u) as [-> ->]. Qed.

Lemma remove_owned_within ix input owned carried : owners_within (remove_input_owned ix input owned carried).1 ix.
Proof.
  destruct (remove_input_owned_fold input carried owned ix []) as (Hi & Hd & _). intros h w.
  unfold remove_input_owned. rewrite !still_at_iff, Hi, Hd. unfold keep_inner, keep_delta.
  intros [(l & Hl & ?)|(l & Hl & ?)]; [left|right].
  - destruct (inner ix !! h) as [l'|]; [|done]. case_decide; [done|]. injection Hl as ->. by exists l.
  - destruct (deltas ix !! h) as [l'|]; [|done]. case_decide; [done|]. injection Hl as ->. by exists l.
Qed.

Lemma remove_inputs_removed ix inputs carried h :
  h ∈ (remove_inputs ix inputs carried).2 →
  ∃ i, i ∈ inputs ∧ h ∈ ri_owned_hashes i ∧ h ∉ carried ∧ still_at ix h (ri_input_ulid i) = true.
Proof.
  unfold remove_inputs.
  enough (∀ acc, owners_within acc.1 ix → h ∈ (foldl (remove_input carried) acc inputs).2 →
    h ∈ acc.2 ∨ ∃ i, i ∈ inputs ∧ h ∈ ri_owned_hashes i ∧ h ∉ carried ∧ still_at ix h (ri_input_ulid i) = true) as Hg.
  { intros Hh. destruct (Hg (ix, ∅)) as [?%elem_of_empty|?]; [by intros ? ?|exact Hh|done|done]. }
  induction inputs as [|i inputs IH]; intros acc Hw; cbn [foldl]; [by left|].
  unfold remove_input at 2. pose proof (remove_owned_within acc.1 (ri_input_ulid i) (ri_owned_hashes i) carried) as Hw1.
  destruct (remove_input_owned_fold (ri_input_ulid i) carried (ri_owned_hashes i) acc.1 []) as (_ & _ & Hr).
  fold (remove_input_owned acc.1 (ri_input_ulid i) (ri_owned_hashes i) carried) in Hr.
  destruct (remove_input_owned acc.1 _ _ _) as [ix1 gone]. cbn [fst snd] in *. intros Hh.
  destruct (IH (purge_input ix1 (ri_input_ulid i), list_to_set gone ∪ acc.2)) as [Hin|(j & ? & ?)]; [|exact Hh| |].
  - cbn [fst]. intros h' w ?%purge_input_within%Hw1. by apply Hw.
  - cbn [snd] in Hin. apply elem_of_union in Hin as [Hin%elem_of_list_to_set|?]; [|by left]. right. exists i.
    apply Hr in Hin as [?%elem_of_nil|(? & ? & Ho)]; [done|]. split_and!; [by left|done|done|]. by apply Hw, still_at_iff.
  - right. exists j. split; [by right|done].
Qed.

(** The materialised index keeps what [base] locates. *)
Lemma fold_frozen_index b fs : 
  (∀ h l, inner (extent_index b) !! h = Some l → inner (extent_index (fold_frozen b fs)) !! h = Some l) ∧
  deltas (extent_index (fold_frozen b fs)) = deltas (extent_index b).
Proof.
  unfold fold_frozen. revert b. induction fs as [|x fs IH]; intros b; [done|]. cbn [foldl].
  destruct (fold_index_spec (extent_index b) (extent_index (fl_maps x))) as (Hi & Hd & _).
  destruct (IH (fold_maps b (fl_maps x))) as [IH1 IH2]. split; [|by rewrite IH2].
  intros h l Hl. apply IH1. cbn. rewrite Hi, Hl. done.
Qed.

Lemma materialised_within ls : owners_within (extent_index (base ls)) (extent_index (materialised ls)).
Proof.
  intros h u. rewrite !still_at_iff. unfold materialised. case_match; [done|].
  destruct (fold_frozen_index (base ls) (frozen ls)) as [Hi Hd].
  assert (∀ h l, inner (extent_index (base ls)) !! h = Some l →
            inner (extent_index (if delta_is_empty ls then fold_frozen (base ls) (frozen ls)
                                 else fold_maps (fold_frozen (base ls) (frozen ls)) (delta ls))) !! h = Some l) as Hin.
  { intros h' l Hl%Hi. case_match; [done|]. cbn.
    destruct (fold_index_spec (extent_index (fold_frozen (base ls) (frozen ls))) (extent_index (delta ls))) as (Hi' & _).
    by rewrite Hi', Hl. }
  assert (deltas (extent_index (if delta_is_empty ls then fold_frozen (base ls) (frozen ls)
                                 else fold_maps (fold_frozen (base ls) (frozen ls)) (delta ls))) =
          deltas (extent_index (base ls))) as ->.
  { case_match; [done|]. cbn.
    destruct (fold_index_spec (extent_index (fold_frozen (base ls) (frozen ls))) (extent_index (delta ls))) as (_ & Hd' & _).
    by rewrite Hd', Hd. }
  intros [(l & Hl & ?)|?]; [|by right]. left. exists l. split; [by apply Hin|done].
Qed.

Lemma with_base_content {B} (f : Cell → B) ls m b :
  f <$> view (lbamap m) b = f <$> view (lbamap (base ls)) b →
  f <$> layered_view (with_base ls m) b = f <$> layered_view ls b.
Proof.
  intros Hb. rewrite !layered_view_eq. cbn [with_base base frozen delta].
  destruct (view (lbamap (delta ls)) b); [done|]. destruct (find_map _ _); done.
Qed.

(** ** Property *)

(** C16: a repack bucket that lands keeps the device's content. Where the output
    agrees with the blocks it replaces, every block of the layered device reads
    the same content after the fold as before; a claim an input keeps is on a
    block the output does not claim; every claim over the blocks the bucket
    touched of a hash it owned or registered still resolves; and a hash it
    dropped is not carried by the output and had no claim and no encoding
    naming it. *)
Theorem repack_fold_preserves {A} (content : Hash → Z → A) N ls bucket acc file landed acc' ops :
  layers_ok N ls → N < U32 → Forall (entry_fits N) (bucket_entries bucket) →
  Forall (range_fits N) (concat (map ri_claim_ranges (rb_inputs bucket))) →
  let u := bucket_ulid bucket in
  let consumed := list_to_set (bucket_ulids bucket) : gset Ulid in
  u ∉ consumed → output_agrees content (lbamap (base ls)) (bucket_entries bucket) u consumed →
  fold_repack_bucket ls bucket acc file = Ok (Landed landed, acc', ops) →
  let after := with_base ls (rl_post landed) in
  layers_ok N after ∧
  (∀ b, cell_content content <$> layered_view after b = cell_content content <$> layered_view ls b) ∧
  (∀ b c, view (lbamap (rl_post landed)) b = Some c → c_claimant c ∈ consumed →
     view (lbamap (base ls)) b = Some c ∧ ¬ covered_by (bucket_entries bucket) u b) ∧
  (∀ b c, view (lbamap (materialised after)) b = Some c →
     covered_by (bucket_entries bucket) u b ∨ in_lengths b (concat (map ri_claim_ranges (rb_inputs bucket))) →
     c_hash c ∈ map e_hash (bucket_entries bucket) ∨ (∃ i, i ∈ rb_inputs bucket ∧ c_hash c ∈ ri_owned_hashes i) →
     resolves (extent_index (materialised after)) c) ∧
  (∀ h, h ∈ rl_removed landed → hash_live (materialised ls) h = false ∧
     ∀ o, rb_output bucket = Some o → h ∉ carried_hashes (ro_out_entries o)).
Proof.
  intros Hok HN Hes Hrs u consumed Hu Hag Hfold after.
  destruct (landed_bucket_steps _ _ _ _ _ _ _ Hfold) as (Hst & Hrem & Hlm & Hgate). fold u consumed in Hlm.
  pose proof (lo_base _ _ Hok) as Hb. pose proof (wf_bound _ _ Hb).
  destruct (claim_fold_spec N (bucket_entries bucket) u consumed (lbamap (base ls)) [] Hb Hes) as (Hwf & Heq & _ & _ & Hcl).
  rewrite Heq in Hwf, Hcl. rewrite <-Hlm in Hwf, Hcl.
  assert (layers_ok N after) as Hok' by (destruct Hok; by split).
  split_and!; [done| | | |].
  - intros b. apply with_base_content. rewrite Hlm. by apply (output_keeps_content content N).
  - intros b c Hc Hin. destruct (Hcl b) as [Hcov Hunc].
    destruct (decide (covered_by (bucket_entries bucket) u b)) as [Hcb|Hcb]; [exfalso|by rewrite <-Hunc].
    destruct (Hcov Hcb) as [(e & c' & _ & Hce & Hv)|(Hv & c' & _ & Hv' & Hn & _)].
    + apply claim_of_Some in Hce as (_ & _ & ->). rewrite Hc in Hv. injection Hv as ->. by cbn in Hin.
    + rewrite Hv, Hv' in Hc. by injection Hc as ->.
  - intros b c Hc Hin Hh. eapply gate_sound; [|exact HN| |exact Hgate| |exact Hc|].
    + by apply materialised_wf.
    + apply lr_new_bounds, Forall_app. split; [apply claim_ranges_bounds; [done|lia]|by apply ends_bounds; [|lia]].
    + unfold lr_from_claims_and_ranges. apply lr_new_spec. unfold in_ranges. rewrite Exists_app.
      destruct Hin as [Hin|Hin]; [left; by apply (claim_ranges_covered N _ u); [|lia|]|right; by apply (ends_in N); [|lia|]].
    + destruct Hh as [Hh|(i & Hi & Hh)]; [apply elem_of_union_r, elem_of_list_to_set, Hh|].
      apply elem_of_union_l, elem_of_union_l, elem_of_list_to_set, list_elem_of_In, in_concat.
      exists (ri_owned_hashes i). split; [apply in_map|]; by apply list_elem_of_In.
  - intros h Hh. rewrite <-Hrem in Hh. apply remove_inputs_removed in Hh as (i & Hi & Hh & Hnc & Hat). split.
    + destruct (hash_live (materialised ls) h) eqn:Hl; [exfalso|done].
      assert (h ∈ stale_hashes (materialised ls) bucket
        match rb_output bucket with Some o => carried_hashes (ro_out_entries o) | None => ∅ end) as Hin.
      { unfold stale_hashes. apply list_elem_of_In, in_concat. eexists. split.
        - apply in_map, list_elem_of_In, Hi.
        - apply list_elem_of_In, list_elem_of_filter. split; [|done]. split_and!; [done|by apply materialised_within|done]. }
      rewrite Hst in Hin. by apply elem_of_nil in Hin.
    + intros o Ho. by rewrite Ho in Hnc.
Qed.

(** Two segments of [base_sample] packed into one: [1]'s survivors as slices. *)
Definition packed : list SegmentEntry :=
  [gc_data [1] CanonicalData 0 0; gc_data [7] Data 0 30; gc_data [8] Data 50 50; gc_data [2] Data 30 20].
Definition packed_bucket : RepackedBucket :=
  mkRepackedBucket [mkRepackedInput 1 [[1]] [(0, 100)]; mkRepackedInput 5 [[2]] [(30, 20)]]
    (Some (mkRepackedOutput 6 100 packed)) 0 false.

(** Block [o] of [1]'s body; [7] and [8] are slices of it. *)
Definition packed_content (h : Hash) (o : Z) : Hash * Z :=
  if decide (h = [7]) then ([1], o) else if decide (h = [8]) then ([1], o + 50) else (h, o).

Definition packed_fold : io (RepackFold * RepackApply * list FsOp) :=
  fold_repack_bucket gc_layers packed_bucket (ra_new (mkRepackResult stats_default [packed_bucket] true [])).1 (Err NotFound).

Lemma sample_at b : 0 ≤ b < 100 →
  view sample b = Some (if decide (30 ≤ b < 50) then mkCell [2] (b - 30) 5 else mkCell [1] b 1).
Proof.
  intros Hb. unfold sample, LbaMap.insert.
  destruct (insert_inner_view 1000 lm_new 0 100 0 [1] 1) as [Hwf Hv]; [by apply lm_new_wf|lia..|].
  destruct (insert_inner_view 1000 (insert_inner lm_new 0 100 0 [1] 1) 30 20 0 [2] 5) as [_ Hv2]; [exact Hwf|lia..|].
  rewrite Hv2, Hv. destruct (decide (30 ≤ b < 50)).
  - rewrite decide_True by lia. do 2 f_equal; lia.
  - rewrite decide_False, decide_True by lia. do 2 f_equal; lia.
Qed.

Lemma packed_agrees : output_agrees packed_content sample packed 6 {[ 1; 5 ]}.
Proof.
  intros b e He [c Hc]. apply claim_of_Some in Hc as (Hk & Hb & _).
  repeat (apply elem_of_cons in He as [->|He]; [cbn in Hk, Hb; try done|]); [..|by apply elem_of_nil in He];
    rewrite sample_at by lia; (eexists; split; [done|]); intros _; unfold cell_content, packed_content;
    repeat (case_decide; try done; try lia); cbn in *; try done; repeat case_decide; try done; f_equal; lia.
Qed.

Lemma repack_fold_preserves_witness :
  ∃ landed acc ops, packed_fold = Ok (Landed landed, acc, ops) ∧
    ∀ b, cell_content packed_content <$> layered_view (with_base gc_layers (rl_post landed)) b =
         cell_content packed_content <$> layered_view gc_layers b.
Proof.
  assert (match packed_fold with Ok (Landed _, _, _) => true | _ => false end = true) as Ht by (vm_compute; reflexivity).
  destruct packed_fold as [[[[|landed] acc] ops]|] eqn:E; [done| |done]. exists landed, acc, ops. split; [done|].
  pose proof (@repack_fold_preserves _ packed_content 1000 gc_layers packed_bucket
    (ra_new (mkRepackResult stats_default [packed_bucket] true [])).1 (Err NotFound) landed acc ops) as H.
  destruct H as (_ & H & _); [|done|..|exact H].
  - split; [apply sample_wf|by apply Forall_nil|by apply lm_new_wf].
  - repeat (apply Forall_cons; split; [intros Hk; cbn; try done; lia|]). by apply Forall_nil.
  - repeat (apply Forall_cons; split; [unfold range_fits; cbn; lia|]). by apply Forall_nil.
  - by vm_compute.
  - replace (list_to_set (bucket_ulids packed_bucket)) with ({[ 1; 5 ]} : gset Ulid) by (apply set_eq; set_solver). apply packed_agrees.
  - exact E.
Defined.

(** The same-hash rule compares hashes and not offsets: a claim of the same body
    at another place is adopted, and the block reads another block of it. *)
Lemma misanchored_adoption :
  let m := LbaMap.insert lm_new 25 1 [7] 3 in
  let m' := (LbaMap.register_entry_consuming_inputs m (gc_data [7] Data 24 2) 6 {[ 5 ]}).1 in
  view m 25 = Some (mkCell [7] 0 3) ∧ view m' 25 = Some (mkCell [7] 1 6).
Proof. by vm_compute. Qed.
