(* ===== verification/RepackPass.v ===== *)
(** * The repack pass (elide-core/src/actor.rs, volume/repack.rs)

    The worker's half of a repack: measure the generation's segments, admit
    within a budget, classify against the maps the job was taken with, pack the
    candidates into buckets and rewrite each under a minted ULID, the journal
    segments first and above every data output.  What the pass does to the
    filesystem is a list of [PassOp]s in order, kept on a failure. *)

From stdpp Require Import base gmap list strings.
From S2P Require Import Prelude Bytes Text Segment UlidMint ChunkTree Codec SegmentCodec LbaMap LbaMapFacts LbaMapSpec ExtentIndex MapLayers Volume Locate ReadPath RewritePlan SegmentClassify Materialise FoldApply.
Open Scope Z_scope.

Definition REPACK_TARGET_LIVE : Z := 32 * 1024 * 1024.
Definition REPACK_ENTRY_CAP : Z := 8192.
Definition REPACK_CLOSE_WORK_BYTES : Z := 4 * REPACK_TARGET_LIVE.
Definition JOURNAL_CONSOLIDATION_ULIDS : nat := 1.

(** ** A stable sort by key *)

Fixpoint insert_by {A} (key : A → Z) (x : A) (l : list A) : list A :=
  match l with
  | [] => [x]
  | y :: l' => if decide (key x ≤ key y) then x :: l else y :: insert_by key x l'
  end.
Definition sort_by_key {A} (key : A → Z) (l : list A) : list A := foldr (insert_by key) [] l.

(** ** Plans from classes *)

Definition run_blocks (r : ExtentRead) : Z := u64_sub (range_end r) (range_start r).

Definition outputs_of (seg : Ulid) (entry_idx : Z) (action : EntryClassification) : list PlanOutput :=
  match action with
  | FullyLive => [Keep seg entry_idx]
  | DemoteToCanonical => [Canonical seg entry_idx]
  | ZeroSubRuns runs => map (λ r, ZeroSplit seg entry_idx (range_start r) (as_u32 (run_blocks r))) runs
  | PartialDeath runs emit =>
      (if emit : bool then [Canonical seg entry_idx] else [])
      ++ map (λ r, Run seg entry_idx (er_payload_block_offset r) (range_start r) (as_u32 (run_blocks r))) runs
  | DeferUnresolvableDelta => [Keep seg entry_idx]
  | DropAndRemoveHash | Drop => []
  end.

Definition emit_plan_outputs (seg : Ulid) (classes : list EntryClassification) : list PlanOutput :=
  concat (imap (λ i action, outputs_of seg (Z.of_nat i) action) classes).

(** ** Admission *)

Record ScannedSegment := mkScanned {
  ss_ulid : Ulid; ss_stored_bytes : Z; ss_journal : bool; ss_all_live : bool
}.

Record PassAdmission := mkPassAdmission {
  pa_admitted : list ScannedSegment; pa_spent : Z; pa_turned_away : Z; pa_turned_away_bytes : Z
}.

Definition admit_step (budget : Z) (out : PassAdmission) (s : ScannedSegment) : PassAdmission :=
  if decide (u64_add (pa_spent out) (ss_stored_bytes s) ≤ budget)
  then mkPassAdmission (pa_admitted out ++ [s]) (u64_add (pa_spent out) (ss_stored_bytes s))
         (pa_turned_away out) (pa_turned_away_bytes out)
  else mkPassAdmission (pa_admitted out) (pa_spent out) (u64_add (pa_turned_away out) 1)
         (u64_add (pa_turned_away_bytes out) (ss_stored_bytes s)).

(** Journal segments first and free of the budget, data smallest first. *)
Definition admit_within_budget (scanned : list ScannedSegment) (budget : Z) : PassAdmission :=
  let journal := filter (λ s, ss_journal s = true) scanned in
  let data := sort_by_key ss_stored_bytes (filter (λ s, ss_journal s = false) scanned) in
  foldl (admit_step budget) (mkPassAdmission journal 0 0 0) data.

(** ** Scan *)

Definition body_bytes (entries : list SegmentEntry) : Z :=
  foldl (λ acc e, u64_add acc (e_stored_length e)) 0 entries.

Definition scan_segment (live_hashes : gset Hash) (u : Ulid) (entries : list SegmentEntry) : ScannedSegment :=
  let total := body_bytes (filter (λ e, has_body_bytes (e_kind e) = true) entries) in
  let live := body_bytes (filter (λ e, has_body_bytes (e_kind e) = true ∧ e_hash e ∈ live_hashes) entries) in
  mkScanned u total (existsb e_journal entries) (bool_decide (live = total)).

Definition above_floor (floor : option Ulid) (u : Ulid) : bool :=
  match floor with Some f => bool_decide (f < u) | None => true end.

Section scan.
Context {HT : UlidText}.

Fixpoint scan_segments (live_hashes : gset Hash) (floor : option Ulid) (read : Ulid → io (list SegmentEntry))
    (names : list string) : io (list ScannedSegment) :=
  match names with
  | [] => Ok []
  | name :: names =>
      match ulid_from_string name with
      | None => Err OtherError
      | Some u =>
          if negb (above_floor floor u) then scan_segments live_hashes floor read names
          else
            match read u with
            | Err NotFound => scan_segments live_hashes floor read names
            | Err e => Err e
            | Ok entries =>
                rest ← scan_segments live_hashes floor read names;
                Ok (scan_segment live_hashes u entries :: rest)
            end
      end
  end.
End scan.

(** ** Candidates *)

Record RepackCandidate := mkCandidate {
  rc_ulid : Ulid;
  rc_classifications : list EntryClassification;
  rc_live_bytes : Z;
  rc_dead_bytes : Z;
  rc_live_entry_count : Z;
  rc_owned_hashes : list Hash;
  rc_claim_ranges : list (Z * Z);
  rc_all_live : bool
}.

Record Measure := mkMeasure { live_bytes : Z; dead_bytes : Z; live_entry_count : Z }.

Definition is_data_like (e : SegmentEntry) : bool :=
  bool_decide (e_kind e = Data) || bool_decide (e_kind e = Inline).

Definition data_bytes (e : SegmentEntry) : Z := if is_data_like e then e_stored_length e else 0.

Definition live_blocks_of (runs : list ExtentRead) : Z := foldl (λ acc r, u64_add acc (run_blocks r)) 0 runs.

Definition measure_entry (acc : Measure) (ec : SegmentEntry * EntryClassification) : Measure :=
  let '(entry, action) := ec in
  match action with
  | FullyLive | DeferUnresolvableDelta | DemoteToCanonical =>
      mkMeasure (u64_add (live_bytes acc) (data_bytes entry)) (dead_bytes acc) (u64_add (live_entry_count acc) 1)
  | PartialDeath runs emit =>
      let n := u64_add (Z.of_nat (length runs)) (if emit : bool then 1 else 0) in
      if is_data_like entry && bool_decide (0 < e_lba_length entry) then
        let kept := ((e_stored_length entry * live_blocks_of runs) mod U64) / e_lba_length entry in
        mkMeasure (u64_add (live_bytes acc) kept)
          (u64_add (dead_bytes acc) (u64_sub (e_stored_length entry) kept)) (u64_add (live_entry_count acc) n)
      else mkMeasure (live_bytes acc) (dead_bytes acc) (u64_add (live_entry_count acc) n)
  | ZeroSubRuns runs =>
      mkMeasure (live_bytes acc) (dead_bytes acc) (u64_add (live_entry_count acc) (Z.of_nat (length runs)))
  | DropAndRemoveHash | Drop =>
      mkMeasure (live_bytes acc) (u64_add (dead_bytes acc) (e_stored_length entry)) (live_entry_count acc)
  end.

Definition claims_of (entries : list SegmentEntry) : list (Z * Z) :=
  map (λ e, (e_start_lba e, e_lba_length e)) (filter (λ e, is_canonical_only (e_kind e) = false) entries).
Definition owned_of (entries : list SegmentEntry) : list Hash :=
  map e_hash (filter (λ e, owns_extent_hash (e_kind e) = true) entries).

Definition candidate_of (m : Maps) (live_hashes : gset Hash) (s : ScannedSegment) (entries : list SegmentEntry)
    : RepackCandidate :=
  let ctx := mkClassifyCtx (lbamap m) (extent_index m) live_hashes (ss_ulid s) in
  let classes := map (λ e, classify_entry e ctx) entries in
  let measure := foldl measure_entry (mkMeasure 0 0 0) (zip entries classes) in
  mkCandidate (ss_ulid s) classes (live_bytes measure) (dead_bytes measure) (live_entry_count measure)
    (owned_of entries) (claims_of entries) (ss_all_live s).

(** The data candidates and the journal's, in admission order. *)
Fixpoint candidates_of (m : Maps) (live_hashes : gset Hash) (read : Ulid → io (list SegmentEntry))
    (admitted : list ScannedSegment) : io (list RepackCandidate * list RepackCandidate) :=
  match admitted with
  | [] => Ok ([], [])
  | s :: admitted =>
      match read (ss_ulid s) with
      | Err NotFound => candidates_of m live_hashes read admitted
      | Err e => Err e
      | Ok entries =>
          let c := candidate_of m live_hashes s entries in
          '(data, journal) ← candidates_of m live_hashes read admitted;
          Ok (if ss_journal s then (data, c :: journal) else (c :: data, journal))
      end
  end.

(** ** Packing *)

Record Bucket := mkBucket { candidate_idxs : list nat; used_bytes : Z; used_entries : Z }.

(** The first bucket with room for both. *)
Fixpoint place_first (i : nat) (c : RepackCandidate) (bs : list Bucket) : option (list Bucket) :=
  match bs with
  | [] => None
  | b :: bs =>
      if decide (u64_add (rc_live_bytes c) (used_bytes b) ≤ REPACK_TARGET_LIVE
                 ∧ u64_add (rc_live_entry_count c) (used_entries b) ≤ REPACK_ENTRY_CAP)
      then Some (mkBucket (candidate_idxs b ++ [i]) (u64_add (used_bytes b) (rc_live_bytes c))
                   (u64_add (used_entries b) (rc_live_entry_count c)) :: bs)
      else match place_first i c bs with Some bs => Some (b :: bs) | None => None end
  end.

Definition pack_step (bs : list Bucket) (ic : nat * RepackCandidate) : list Bucket :=
  match place_first ic.1 ic.2 bs with
  | Some bs => bs
  | None => bs ++ [mkBucket [ic.1] (rc_live_bytes ic.2) (rc_live_entry_count ic.2)]
  end.

(** The candidates largest first. *)
Definition sort_candidates (cs : list RepackCandidate) : list RepackCandidate :=
  sort_by_key (λ c, - rc_live_bytes c) cs.
Definition pack (cs : list RepackCandidate) : list Bucket := foldl pack_step [] (imap pair cs).

Definition all_live_at (cs : list RepackCandidate) (i : nat) : bool :=
  match cs !! i with Some c => rc_all_live c | None => false end.

(** A bucket of one fully live candidate is skipped. *)
Definition solo_no_op (cs : list RepackCandidate) (b : Bucket) : bool :=
  match candidate_idxs b with [i] => all_live_at cs i | _ => false end.

Definition emits_data_output (cs : list RepackCandidate) (bs : list Bucket) : bool :=
  existsb (λ b, negb (solo_no_op cs b)) bs.

(** A lone journal segment with nothing to free stays, unless data is lifted. *)
Definition journal_lifted (journal : list RepackCandidate) (emits : bool) : bool :=
  match journal with
  | [] => false
  | [c] => negb (rc_all_live c) || emits
  | _ => true
  end.

(** ** The pass *)

Inductive PassOp := InvalidatePromote (u : Ulid) | WriteOutput (u : Ulid) (file : list Z).

Definition PM (A : Type) : Type := list PassOp → list PassOp * io A.

#[export] Instance pm_ret : MRet PM := λ A x ops, (ops, Ok x).
#[export] Instance pm_bind : MBind PM := λ A B f m ops,
  match m ops with (ops, Ok x) => f x ops | (ops, Err e) => (ops, Err e) end.
Definition pm_io {A} (r : io A) : PM A := λ ops, (ops, r).
Definition pm_op (op : PassOp) (r : io unit) : PM unit :=
  λ ops, match r with Ok _ => (ops ++ [op], Ok ()) | Err e => (ops, Err e) end.

Record RepackJob := mkRepackJob {
  rj_open : bool;
  rj_floor : option Ulid;
  rj_seg_names : list string;
  rj_work_budget : Z;
  rj_output_ulids : list Ulid;
  rj_journal_output_ulids : list Ulid;
  rj_layers : MapLayers
}.

(** What the pass meets: the two reads of a segment's index, an input's file as
    the materialisation loads it, the removal of a crashed promote's siblings,
    the create, rename and sync of an output. *)
Record PassEnv := mkPassEnv {
  pe_scan : Ulid → io (list SegmentEntry);
  pe_reread : Ulid → io (list SegmentEntry);
  pe_input_file : Ulid → io (list Z);
  pe_invalidated : Ulid → io unit;
  pe_committed : Ulid → io unit;
  pe_resolver : ExtentIndex → BodyResolver;
  pe_sketch : bool
}.

(** Every merged entry is journal. *)
Definition retag (p : PendingEntry) : PendingEntry := mkPendingEntry (set_journal true (pe_entry p)) (pe_body p).

Definition input_of (c : RepackCandidate) : RepackedInput :=
  mkRepackedInput (rc_ulid c) (rc_owned_hashes c) (rc_claim_ranges c).

Definition outputs_for (cs : list RepackCandidate) : list PlanOutput :=
  concat (map (λ c, emit_plan_outputs (rc_ulid c) (rc_classifications c)) cs).

Definition dead_total (cs : list RepackCandidate) : Z := foldl (λ acc c, u64_add acc (rc_dead_bytes c)) 0 cs.

Section pass.
Context {HB : Blake3} {HL : Lz4Block} {HC : Lz4Codec} {HT : Blake3Tree} {HZ : ZstdBulk} {HD : ZstdDict}.
Context {HS : Signer} {HU : UlidBytes} {HX : UlidText}.
Variable env : PassEnv.

Fixpoint invalidate_all (us : list Ulid) : PM unit :=
  match us with
  | [] => mret ()
  | u :: us => _ ← pm_op (InvalidatePromote u) (pe_invalidated env u); invalidate_all us
  end.

(** A cancelled materialisation fails the pass. *)
Definition rewrite_output (ix : ExtentIndex) (journal : bool) (new_ulid : Ulid) (outputs : list PlanOutput)
    (inputs : list Ulid) : PM RepackedOutput :=
  let plan := mkRewritePlan new_ulid outputs in
  match ctx_new (pe_input_file env) (RewritePlan.inputs plan) ix (pe_resolver env ix) with
  | inr (OutIo e) => pm_io (Err e)
  | inr (OutCancel _) => pm_io (Err OtherError)
  | inl ctx =>
      let ctx := if journal then allowing_journal ctx else ctx in
      match materialise_plan plan ctx cost_default with
      | (_, inr (OutIo e)) => pm_io (Err e)
      | (_, inr (OutCancel _)) => pm_io (Err OtherError)
      | (_, inl m) =>
          let entries := if journal then map retag (m_entries m) else m_entries m in
          '(file, bss, entries) ← pm_io (write_segment_full decode entries (m_delta_body m) inputs (pe_sketch env));
          _ ← pm_op (WriteOutput new_ulid file) (pe_committed env new_ulid);
          mret (mkRepackedOutput new_ulid bss entries)
      end
  end.

(** One bucket: its inputs ascending, their outputs in that order; none emits no
    segment. *)
Definition rewrite_bucket (ix : ExtentIndex) (journal : bool) (new_ulid : option Ulid) (cs : list RepackCandidate)
    : PM RepackedBucket :=
  let outputs := outputs_for cs in
  let inputs := map rc_ulid cs in
  _ ← invalidate_all inputs;
  if bool_decide (outputs = []) then mret (mkRepackedBucket (map input_of cs) None (dead_total cs) journal)
  else
    match new_ulid with
    | None => pm_io (Err OtherError)
    | Some u =>
        out ← rewrite_output ix journal u outputs inputs;
        mret (mkRepackedBucket (map input_of cs) (Some out) (dead_total cs) journal)
    end.

Definition bucket_candidates (cs : list RepackCandidate) (b : Bucket) : list RepackCandidate :=
  sort_by_key rc_ulid (omap (λ i, cs !! i) (candidate_idxs b)).

(** The output ULIDs are taken in order, by the buckets that emit a segment. *)
Fixpoint rewrite_buckets (ix : ExtentIndex) (cs : list RepackCandidate) (bs : list Bucket) (ulids : list Ulid)
    : PM (list RepackedBucket) :=
  match bs with
  | [] => mret []
  | b :: bs =>
      if solo_no_op cs b then rewrite_buckets ix cs bs ulids
      else
        bucket ← rewrite_bucket ix false (head ulids) (bucket_candidates cs b);
        rest ← rewrite_buckets ix cs bs (match rb_output bucket with Some _ => tail ulids | None => ulids end);
        mret (bucket :: rest)
  end.

Definition outputs_in (bs : list RepackedBucket) : list RepackedBucket :=
  filter (λ b, is_Some (rb_output b)) bs.

Definition pass_stats (bs : list RepackedBucket) : CompactionStats :=
  mkCompactionStats (Z.of_nat (length (concat (map rb_inputs bs)))) (Z.of_nat (length (outputs_in bs)))
    (foldl (λ acc b, u64_add acc (rb_bytes_freed b)) 0 (outputs_in bs)) 0 0.

Definition execute_repack_m (job : RepackJob) : PM RepackResult :=
  let m := materialised (rj_layers job) in
  let live_hashes := claim_referenced_hashes (lbamap m) ∪ named_delta_sources (extent_index m) in
  scanned ← pm_io (scan_segments live_hashes (rj_floor job) (pe_scan env) (rj_seg_names job));
  '(data, journal) ← pm_io (candidates_of m live_hashes (pe_reread env)
                              (pa_admitted (admit_within_budget scanned (rj_work_budget job))));
  let data := sort_candidates data in
  let buckets := pack data in
  let lifted := journal_lifted journal (emits_data_output data buckets) in
  journal_bucket ← (if lifted
                    then b ← rewrite_bucket (extent_index m) true (head (rj_journal_output_ulids job))
                               (sort_by_key rc_ulid journal); mret [b]
                    else mret []);
  data_buckets ← rewrite_buckets (extent_index m) data buckets (rj_output_ulids job);
  let bs := journal_bucket ++ data_buckets in
  mret (mkRepackResult (pass_stats bs) bs (rj_open job) (if lifted then [] else map rc_ulid journal)).

Definition execute_repack (job : RepackJob) : list PassOp * io RepackResult := execute_repack_m job [].
End pass.

(** ** Taking the job *)

Section prep.
Context {HU : UlidParts}.

(** [n] calls of the mint. *)
Fixpoint mint_many (m : UlidMint) (candidates : list Ulid) (n : nat) : UlidMint * list Ulid :=
  match n with
  | O => (m, [])
  | S n =>
      let '(m, u) := next m (hd 0 candidates) in
      let '(m, us) := mint_many m (tl candidates) n in (m, u :: us)
  end.

Record CloseEnv := mkCloseEnv {
  ce_rotated : io (option Z); ce_segments : io (list string); ce_floor : io (option Ulid); ce_candidates : list Ulid
}.

Record CloseGenerationPrep := mkClosePrep { cg_rotated : option Z; cg_job : option RepackJob }.

(** The rotate empties the open generation, and with it the sweep's journal
    set. *)
Definition prepare_close_generation (v : Segments) (mint : UlidMint) (env : CloseEnv)
    : io (Segments * UlidMint * CloseGenerationPrep) :=
  rotated ← ce_rotated env;
  let v := mkSegments (sg_maps v) (own_segments v) (last_segment_ulid v) (has_new_segments v) ∅ (sg_file_cache v) in
  match rotated with
  | None => Ok (v, mint, mkClosePrep None None)
  | Some n =>
      segs ← ce_segments env;
      if bool_decide (segs = []) then Ok (v, mint, mkClosePrep (Some n) None)
      else
        floor ← ce_floor env;
        let '(mint, outs) := mint_many mint (ce_candidates env) (length segs) in
        let '(mint, journal_outs) := mint_many mint (drop (length segs) (ce_candidates env)) JOURNAL_CONSOLIDATION_ULIDS in
        Ok (v, mint, mkClosePrep (Some n)
              (Some (mkRepackJob false floor segs REPACK_CLOSE_WORK_BYTES outs journal_outs (sg_maps v))))
  end.
End prep.
