(* ===== verification/RepackPassSpec.v ===== *)
(** * The repack pass plans exactly what is live, and orders its outputs *)

From stdpp Require Import base gmap list strings sorting.
From S2P Require Import Prelude Bytes Text Segment UlidMint ChunkTree Codec SegmentCodec LbaMap LbaMapFacts LbaMapSpec ExtentIndex MapLayers Volume Locate ReadPath ReadPathSpec SegmentCodecSpec CodecSpec RewritePlan RewritePlanSpec SegmentClassify SegmentClassifySpec Materialise MaterialiseSpec FileCache FoldApply RepackPass.
Open Scope Z_scope.

(** ** What a plan claims *)

(** The entry and the block of its payload a record places at block [b]. *)
Definition po_claim (entries : list SegmentEntry) (o : PlanOutput) (b : Z) : option (Z * Z) :=
  match o with
  | Keep _ i =>
      e ← entries !! Z.to_nat i;
      if negb (is_canonical_only (e_kind e)) && bool_decide (e_start_lba e ≤ b < e_start_lba e + e_lba_length e)
      then Some (i, b - e_start_lba e) else None
  | ZeroSplit _ i s n =>
      e ← entries !! Z.to_nat i;
      if bool_decide (s ≤ b < s + n) then Some (i, b - e_start_lba e) else None
  | Run _ i off s n => if bool_decide (s ≤ b < s + n) then Some (i, off + (b - s)) else None
  | Canonical _ _ | DropInput _ => None
  end.

(** A record that keeps the entry's body. *)
Definition keeps_body (seg : Ulid) (i : Z) (os : list PlanOutput) : Prop := Keep seg i ∈ os ∨ Canonical seg i ∈ os.

Lemma elem_of_emit seg classes o :
  o ∈ emit_plan_outputs seg classes ↔ ∃ i c, classes !! i = Some c ∧ o ∈ outputs_of seg (Z.of_nat i) c.
Proof.
  unfold emit_plan_outputs. rewrite list_elem_of_In, in_concat. setoid_rewrite <-list_elem_of_In. split.
  - intros (os & Hos & Ho). apply elem_of_lookup_imap in Hos as (i & c & -> & Hc). by exists i, c.
  - intros (i & c & Hc & Ho). eexists. split; [|exact Ho]. apply elem_of_lookup_imap. by exists i, c.
Qed.

Lemma run_blocks_id N r : 0 ≤ range_start r < range_end r → range_end r ≤ N → N < U32 →
  as_u32 (run_blocks r) = range_end r - range_start r.
Proof. intros. unfold run_blocks. by unwrap. Qed.

Section plan.
Context (N : Z) (seg : Ulid) (entries : list SegmentEntry) (ctx : ClassifyCtx).
Hypothesis Hwf : lm_wf N (lba_map ctx).
Hypothesis Hseg : cc_segment_id ctx = seg.
Hypothesis HN : N < U32.
Hypothesis Hspan : ∀ e, e ∈ entries → is_canonical_only (e_kind e) = false → spans N e.
Hypothesis Hnd : ∀ e, e ∈ entries → classify_entry e ctx ≠ DeferUnresolvableDelta.

Let plan := emit_plan_outputs seg (map (λ e, classify_entry e ctx) entries).

Lemma elem_of_plan o :
  o ∈ plan ↔ ∃ i e, entries !! i = Some e ∧ o ∈ outputs_of seg (Z.of_nat i) (classify_entry e ctx).
Proof.
  unfold plan. rewrite elem_of_emit. split.
  - intros (i & c & Hc & Ho). rewrite list_lookup_fmap in Hc. destruct (entries !! i) as [e|] eqn:He; [|done].
    injection Hc as <-. by exists i, e.
  - intros (i & e & He & Ho). exists i, (classify_entry e ctx). split; [|done]. by rewrite list_lookup_fmap, He.
Qed.

(** The records of the runs of an entry place exactly its live blocks. *)
Lemma runs_claims i e rs (f : ExtentRead → PlanOutput) :
  runs_exact e ctx rs → spans N e →
  (∀ r b, r ∈ rs → as_u32 (run_blocks r) = range_end r - range_start r → po_claim entries (f r) b =
     if bool_decide (range_start r ≤ b < range_end r) then Some (i, b - e_start_lba e) else None) →
  ∀ b off, (∃ o, o ∈ map f rs ∧ po_claim entries o b = Some (i, off)) ↔ live_at e ctx b ∧ off = b - e_start_lba e.
Proof.
  intros (Hs & Hcov & _) (H0 & Hl & Hle) Hf b off. rewrite <-Hcov. unfold covers, er_covers. split.
  - intros (o & (r & -> & Hr)%list_elem_of_fmap & Hc). pose proof (reads_bounds _ _ _ _ Hs Hr) as [? ?].
    rewrite Hf in Hc; [|done|by apply (run_blocks_id N); [lia|lia|]]. case_bool_decide; [|done]. injection Hc as <-.
    split; [by exists r|done].
  - intros [(r & Hr & Hb) ->]. pose proof (reads_bounds _ _ _ _ Hs Hr) as [? ?]. exists (f r).
    split; [apply list_elem_of_fmap; by exists r|]. rewrite Hf; [|done|by apply (run_blocks_id N); [lia|lia|]].
    by rewrite bool_decide_eq_true_2.
Qed.

Lemma entry_outputs i e b off :
  entries !! i = Some e →
  (∃ o, o ∈ outputs_of seg (Z.of_nat i) (classify_entry e ctx) ∧ po_claim entries o b = Some (Z.of_nat i, off)) ↔
  is_canonical_only (e_kind e) = false ∧ live_at e ctx b ∧ off = b - e_start_lba e.
Proof.
  intros He. assert (e ∈ entries) as Hin by (by apply list_elem_of_lookup_2 in He).
  assert (∀ o, o ∈ [Keep seg (Z.of_nat i)] → po_claim entries o b =
    if negb (is_canonical_only (e_kind e)) && bool_decide (e_start_lba e ≤ b < e_start_lba e + e_lba_length e)
    then Some (Z.of_nat i, b - e_start_lba e) else None) as Hkeep.
  { intros o ->%list_elem_of_singleton. unfold po_claim. by rewrite Nat2Z.id, He. }
  destruct (is_canonical_only (e_kind e)) eqn:Hk.
  { split; [|by intros (? & _)]. intros (o & Ho & Hc). exfalso.
    unfold classify_entry in Ho. rewrite decide_False, Hk in Ho by (by destruct (e_kind e)).
    case_decide; [cbn [outputs_of] in Ho; by rewrite Hkeep in Hc|].
    destruct (owns_home e ctx); by apply elem_of_nil in Ho. }
  pose proof (Hspan e Hin Hk) as Hsp. pose proof (Hnd e Hin) as Hdef.
  pose proof (classify_spec N e ctx Hwf Hsp Hk) as Hcl. cbv zeta in Hcl.
  destruct (classify_entry e ctx) as [| |rs|rs emit| | |] eqn:Hc; cbn [outputs_of].
  - split.
    + intros (o & Ho & Hcb). rewrite Hkeep in Hcb by done. cbn [negb andb] in Hcb. case_bool_decide; [|done].
      injection Hcb as <-. split_and!; [done|by apply Hcl|done].
    + intros (_ & Hl & ->). exists (Keep seg (Z.of_nat i)). split; [by left|]. rewrite Hkeep by by left. cbn [negb andb].
      by rewrite bool_decide_eq_true_2 by apply Hl.
  - split; [intros (o & ->%list_elem_of_singleton & ?); done|]. intros (_ & Hl & _). by apply Hcl in Hl.
  - destruct Hcl as [_ Hex]. rewrite (runs_claims (Z.of_nat i) e rs _ Hex Hsp); [naive_solver|].
    intros r b' _ Hr. unfold po_claim. rewrite Nat2Z.id, He. cbn. rewrite Hr.
    by replace (range_start r + (range_end r - range_start r)) with (range_end r) by lia.
  - destruct Hcl as (Hex & _).
    transitivity (live_at e ctx b ∧ off = b - e_start_lba e); [|naive_solver].
    rewrite <-(runs_claims (Z.of_nat i) e rs
      (λ r, Run seg (Z.of_nat i) (er_payload_block_offset r) (range_start r) (as_u32 (run_blocks r))) Hex Hsp).
    + split; intros (o & Ho & Hcb); (exists o; split; [|done]).
      * apply elem_of_app in Ho as [Ho|Ho]; [|done]. destruct emit; [by apply list_elem_of_singleton in Ho as ->|by apply elem_of_nil in Ho].
      * apply elem_of_app. by right.
    + intros r b' Hr Hrb. unfold po_claim. rewrite Hrb.
      destruct Hex as (_ & _ & Hall). apply (proj1 (Forall_forall _ _) Hall) in Hr as (_ & Hp & _). rewrite Hp.
      replace (range_start r + (range_end r - range_start r)) with (range_end r) by lia.
      destruct (decide (range_start r ≤ b' < range_end r)).
      * rewrite !bool_decide_eq_true_2 by done. f_equal. f_equal. lia.
      * by rewrite !bool_decide_eq_false_2.
  - split; [by intros (o & ?%elem_of_nil & _)|]. intros (_ & Hl & _). by apply Hcl in Hl.
  - split; [by intros (o & ?%elem_of_nil & _)|]. intros (_ & Hl & _). by apply Hcl in Hl.
  - done.
Qed.

End plan.

Lemma po_claim_idx seg entries ctx o b i off j : o ∈ outputs_of seg j (classify_entry i ctx) → ∀ k, po_claim entries o b = Some (k, off) → k = j.
Proof.
  intros Ho k Hc. destruct (classify_entry i ctx) as [| |rs|rs emit| | |]; cbn [outputs_of] in Ho;
    try (apply list_elem_of_singleton in Ho as ->; cbn in Hc; destruct (entries !! _); cbn in Hc; [|done]; case_match; naive_solver);
    try (by apply elem_of_nil in Ho).
  - apply list_elem_of_singleton in Ho as ->. done.
  - apply list_elem_of_fmap in Ho as (r & -> & _). cbn in Hc. destruct (entries !! _); cbn in Hc; [|done]. case_bool_decide; naive_solver.
  - apply elem_of_app in Ho as [Ho|Ho]; [destruct emit; [by apply list_elem_of_singleton in Ho as ->|by apply elem_of_nil in Ho]|].
    apply list_elem_of_fmap in Ho as (r & -> & _). cbn in Hc. case_bool_decide; naive_solver.
Qed.


(** ** Plans are exact *)

Lemma body_kept ctx seg e i :
  owns_extent_hash (e_kind e) = true → e_hash e ∈ live_hashes ctx → owns_home e ctx = true →
  keeps_body seg (Z.of_nat i) (outputs_of seg (Z.of_nat i) (classify_entry e ctx)).
Proof.
  intros Ho Hl Hh. unfold keeps_body, classify_entry. rewrite decide_False by (by destruct (e_kind e)).
  destruct (is_canonical_only (e_kind e)) eqn:Hk; [rewrite decide_True by done; left; by left|].
  case_decide; [left; by left|]. case_decide.
  - unfold classify_dead. rewrite Hh. rewrite (bool_decide_eq_true_2 (e_hash e ∈ live_hashes ctx)) by done.
    destruct (e_kind e); try done; cbn; right; by left.
  - unfold classify_partial. rewrite (bool_decide_eq_true_2 (e_hash e ∈ live_hashes ctx)) by done.
    destruct (e_kind e); try done; try (right; by left); try (left; by left).
    destruct (has_resolvable_source e ctx); [right; by left|left; by left].
Qed.

(** The plan of a segment claims exactly what is live of it. Where no delta
    is deferred, the records emitted from its classes place, for each entry, the
    entry's live blocks and no other, each at its own place in the payload, so no
    live block is lost and none another segment has overwritten is claimed again;
    and an entry at the home of a hash something still resolves keeps its body. *)
Theorem plan_claims_exact N seg entries ctx :
  lm_wf N (lba_map ctx) → cc_segment_id ctx = seg → N < U32 →
  (∀ e, e ∈ entries → is_canonical_only (e_kind e) = false → spans N e) →
  (∀ e, e ∈ entries → classify_entry e ctx ≠ DeferUnresolvableDelta) →
  let plan := emit_plan_outputs seg (map (λ e, classify_entry e ctx) entries) in
  (∀ i e b off, entries !! i = Some e →
     (∃ o, o ∈ plan ∧ po_claim entries o b = Some (Z.of_nat i, off)) ↔
     is_canonical_only (e_kind e) = false ∧ live_at e ctx b ∧ off = b - e_start_lba e) ∧
  (∀ i e, entries !! i = Some e → owns_extent_hash (e_kind e) = true → e_hash e ∈ live_hashes ctx →
     owns_home e ctx = true → keeps_body seg (Z.of_nat i) plan).
Proof.
  intros Hwf Hseg HN Hspan Hnd plan. split.
  - intros i e b off He. rewrite <-(entry_outputs N seg entries ctx Hwf Hseg HN Hspan Hnd i e b off He). split.
    + intros (o & (j & e' & He' & Ho)%(elem_of_plan seg entries ctx) & Hc). exists o. split; [|done].
      pose proof (po_claim_idx seg entries ctx o b e' off _ Ho _ Hc) as Hij. apply Nat2Z.inj in Hij as <-.
      rewrite He in He'. by injection He' as ->.
    + intros (o & Ho & Hc). exists o. split; [|done]. apply (elem_of_plan seg entries ctx). by exists i, e.
  - intros i e He Ho Hl Hh. destruct (body_kept ctx seg e i Ho Hl Hh); [left|right]; apply (elem_of_plan seg entries ctx); by exists i, e.
Qed.

(** [overwritten_entry] survives in two runs and is still referenced. *)

(** ** Packing *)

Definition bucket_sum (f : RepackCandidate → Z) (cs : list RepackCandidate) (idxs : list nat) : Z :=
  foldr (λ i acc, match cs !! i with Some c => f c | None => 0 end + acc) 0 idxs.

Definition within_caps (b : Bucket) : Prop :=
  length (candidate_idxs b) = 1%nat ∨ (used_bytes b ≤ REPACK_TARGET_LIVE ∧ used_entries b ≤ REPACK_ENTRY_CAP).

Definition bucket_ok (cs : list RepackCandidate) (b : Bucket) : Prop :=
  candidate_idxs b ≠ [] ∧ within_caps b ∧ used_bytes b = bucket_sum rc_live_bytes cs (candidate_idxs b) ∧
  used_entries b = bucket_sum rc_live_entry_count cs (candidate_idxs b).

Lemma bucket_sum_app f cs l1 l2 : bucket_sum f cs (l1 ++ l2) = bucket_sum f cs l1 + bucket_sum f cs l2.
Proof. unfold bucket_sum. induction l1 as [|i l1 IH]; [done|]. cbn [app foldr]. rewrite IH. lia. Qed.

Lemma bucket_sum_one f cs i c : cs !! i = Some c → bucket_sum f cs [i] = f c.
Proof. intros Hi. unfold bucket_sum. cbn [foldr]. rewrite Hi. lia. Qed.

(** A candidate's measures fit the machine words they are summed in. *)
Definition candidate_fits (c : RepackCandidate) : Prop :=
  0 ≤ rc_live_bytes c < 2 ^ 62 ∧ 0 ≤ rc_live_entry_count c < 2 ^ 62.

Definition bucket_small (b : Bucket) : Prop := 0 ≤ used_bytes b < 2 ^ 62 ∧ 0 ≤ used_entries b < 2 ^ 62.

Lemma place_first_spec i c cs bs bs' :
  cs !! i = Some c → candidate_fits c → Forall (λ b, bucket_ok cs b ∧ bucket_small b) bs →
  place_first i c bs = Some bs' →
  Forall (λ b, bucket_ok cs b ∧ bucket_small b) bs' ∧ concat (map candidate_idxs bs') ≡ₚ i :: concat (map candidate_idxs bs).
Proof.
  intros Hi [Hc1 Hc2] Hbs. revert bs'. induction Hbs as [|b bs [Hb Hs] Hbs IH]; intros bs'; cbn [place_first]; [done|].
  case_decide as Hroom.
  - intros [= <-]. cbn [map concat candidate_idxs]. split; [|rewrite <-app_assoc; symmetry; apply Permutation_middle].
    constructor; [|done]. destruct Hb as (Hne & _ & Hu & He), Hs as [Hs1 Hs2].
    rewrite !u64_add_id in Hroom by lia. unfold bucket_ok, bucket_small, within_caps. cbn [candidate_idxs used_bytes used_entries].
    rewrite !u64_add_id by lia. rewrite !bucket_sum_app, !(bucket_sum_one _ _ _ _ Hi), <-Hu, <-He.
    unfold REPACK_TARGET_LIVE, REPACK_ENTRY_CAP in *.
    split_and!; [by destruct (candidate_idxs b)|right; lia|lia|lia|lia|lia|lia|lia].
  - destruct (place_first i c bs) as [bs1|]; [|done]. intros [= <-]. destruct (IH _ eq_refl) as [H1 H2].
    split; [by constructor|]. cbn [map concat]. rewrite H2. by rewrite Permutation_middle.
Qed.

Lemma pack_fold cs l bs :
  Forall candidate_fits cs → (∀ ic, ic ∈ l → cs !! ic.1 = Some ic.2) →
  Forall (λ b, bucket_ok cs b ∧ bucket_small b) bs →
  Forall (λ b, bucket_ok cs b ∧ bucket_small b) (foldl pack_step bs l) ∧
  concat (map candidate_idxs (foldl pack_step bs l)) ≡ₚ concat (map candidate_idxs bs) ++ l.*1.
Proof.
  intros Hfit. revert bs. induction l as [|[i c] l IH]; intros bs Hl Hbs; cbn [foldl].
  { split; [done|]. by rewrite app_nil_r. }
  assert (cs !! i = Some c) as Hi by (apply (Hl (i, c)); by left).
  pose proof (proj1 (Forall_forall _ _) Hfit c (list_elem_of_lookup_2 _ _ _ Hi)) as Hc.
  assert (∀ ic, ic ∈ l → cs !! ic.1 = Some ic.2) as Hl' by (intros ic ?; apply Hl; by right).
  unfold pack_step at 2 4. cbn [fst snd]. destruct (place_first i c bs) as [bs'|] eqn:Hp.
  - destruct (place_first_spec i c cs bs bs' Hi Hc Hbs Hp) as [H1 H2]. destruct (IH bs' Hl' H1) as [H3 H4].
    split; [done|]. rewrite H4, H2. cbn. by rewrite Permutation_middle.
  - destruct (IH (bs ++ [mkBucket [i] (rc_live_bytes c) (rc_live_entry_count c)]) Hl') as [H3 H4].
    { apply Forall_app. split; [done|]. apply Forall_singleton. destruct Hc as [? ?]. split; [|by split].
      split_and!; [done|by left|..]; cbn; by rewrite Hi, Z.add_0_r. }
    split; [done|]. rewrite H4, map_app, concat_app. cbn. by rewrite <-app_assoc.
Qed.

(** Packing loses no candidate and overfills no bucket. Every candidate is in
    exactly one bucket, no bucket is empty, a bucket of more than one holds at
    most the target size and the entry cap, and what a bucket counts is what its
    candidates measure. *)
Theorem pack_exact cs :
  Forall candidate_fits cs →
  concat (map candidate_idxs (pack cs)) ≡ₚ seq 0 (length cs) ∧ Forall (bucket_ok cs) (pack cs).
Proof.
  intros Hfit. unfold pack. destruct (pack_fold cs (imap pair cs) [] Hfit) as [H1 H2]; [|by apply Forall_nil|].
  - intros [i c] (j & d & Hd & Hj)%elem_of_lookup_imap. injection Hd as -> ->. done.
  - split; [|eapply Forall_impl; [exact H1|]; by intros b [? _]]. rewrite H2. cbn [app map concat].
    rewrite fmap_imap. by rewrite (imap_seq_0 _ (λ i, i)), list_fmap_id.
Qed.

Definition small_candidate (u n k : Z) : RepackCandidate := mkCandidate u [] n 0 k [] [] false.
Definition four_candidates : list RepackCandidate :=
  [small_candidate 1 (30 * 1024 * 1024) 10; small_candidate 2 (20 * 1024 * 1024) 10;
   small_candidate 3 (12 * 1024 * 1024) 10; small_candidate 4 1024 10].

(** ** The pass *)

Definition written (ops : list PassOp) : list Ulid :=
  omap (λ op, match op with WriteOutput u _ => Some u | InvalidatePromote _ => None end) ops.

Definition outs (bs : list RepackedBucket) : list RepackedOutput := omap rb_output bs.

(** A successful run extends the operations and satisfies [P]. *)
Definition pm_post {A} (m : PM A) (P : list PassOp → A → Prop) : Prop := ∀ ops ops' x, m ops = (ops', Ok x) →
  ∃ new, ops' = ops ++ new ∧ P new x.

Lemma pm_post_ret {A} (x : A) (P : list PassOp → A → Prop) : P [] x → pm_post (mret x) P.
Proof. intros HP ops ops' y [= <- <-]. exists []. by rewrite app_nil_r. Qed.

Lemma pm_post_io {A} (r : io A) (P : list PassOp → A → Prop) : (∀ x, r = Ok x → P [] x) → pm_post (pm_io r) P.
Proof. intros HP ops ops' y [= <- Hr]. exists []. rewrite app_nil_r. split; [done|by apply HP]. Qed.

Lemma pm_post_op op r (P : list PassOp → unit → Prop) : P [op] () → pm_post (pm_op op r) P.
Proof. intros HP ops ops' []. unfold pm_op. destruct r; [|done]. intros [= <-]. by exists [op]. Qed.

Lemma pm_post_bind {A B} (m : PM A) (f : A → PM B) (P : list PassOp → B → Prop) (Q : list PassOp → A → Prop) :
  pm_post m Q → (∀ n x, Q n x → pm_post (f x) (λ n' y, P (n ++ n') y)) → pm_post (m ≫= f) P.
Proof.
  intros Hm Hf ops ops' y. unfold mbind, pm_bind. destruct (m ops) as [ops1 [x|e]] eqn:Hr; [|done]. intros Hy.
  destruct (Hm _ _ _ Hr) as (n & -> & HQ). destruct (Hf n x HQ _ _ _ Hy) as (n' & -> & HP). exists (n ++ n'). by rewrite app_assoc.
Qed.

Lemma pm_bind_Ok {A B} (m : PM A) (f : A → PM B) ops ops' y :
  (m ≫= f) ops = (ops', Ok y) → ∃ ops1 x, m ops = (ops1, Ok x) ∧ f x ops1 = (ops', Ok y).
Proof. unfold mbind, pm_bind. destruct (m ops) as [ops1 [x|e]]; [|done]. intros Hf. by exists ops1, x. Qed.

Lemma written_app a b : written (a ++ b) = written a ++ written b.
Proof. apply omap_app. Qed.

Section pass.
Context {HB : Blake3} {HL : Lz4Block} {HC : Lz4Codec} {HT : Blake3Tree} {HZ : ZstdBulk} {HD : ZstdDict}.
Context {HS : Signer} {HU : UlidBytes} {HX : UlidText} (env : PassEnv).

Lemma invalidate_all_spec us : pm_post (invalidate_all env us) (λ n _, written n = []).
Proof.
  induction us as [|u us IH]; cbn [invalidate_all]; [by apply pm_post_ret|].
  eapply (pm_post_bind _ _ _ (λ n _, written n = [])); [by apply pm_post_op|]. intros n [] Hn ops ops' [] H.
  destruct (IH _ _ _ H) as (n' & -> & Hn'). exists n'. split; [done|]. by rewrite written_app, Hn, Hn'.
Qed.

Lemma rewrite_output_spec ix journal u outputs inputs :
  pm_post (rewrite_output env ix journal u outputs inputs) (λ n o, written n = [u] ∧ ro_new_ulid o = u).
Proof.
  unfold rewrite_output. destruct (ctx_new _ _ _ _) as [ctx|[e|e]]; [|by apply pm_post_io..].
  destruct (materialise_plan _ _ _) as [cost [m|[e|e]]]; [|by apply pm_post_io..].
  eapply (pm_post_bind _ _ _ (λ n _, n = [])); [by apply pm_post_io|]. intros n [[file bss] entries] ->. cbn [app].
  eapply (pm_post_bind _ _ _ (λ n _, written n = [u])); [by apply pm_post_op|]. intros n [] Hn.
  apply pm_post_ret. by rewrite app_nil_r.
Qed.

Definition out_ulids (b : RepackedBucket) : list Ulid :=
  match rb_output b with Some o => [ro_new_ulid o] | None => [] end.

Lemma rewrite_bucket_spec ix journal nu cs :
  pm_post (rewrite_bucket env ix journal nu cs) (λ n b,
    written n = out_ulids b ∧ rb_journal b = journal ∧ rb_inputs b = map input_of cs ∧
    (∀ o, rb_output b = Some o → nu = Some (ro_new_ulid o))).
Proof.
  unfold rewrite_bucket. eapply pm_post_bind; [apply invalidate_all_spec|]. intros n [] Hn. case_bool_decide.
  { apply pm_post_ret. by rewrite app_nil_r. }
  destruct nu as [u|]; [|by apply pm_post_io]. eapply pm_post_bind; [apply rewrite_output_spec|].
  intros n' o [Hn' Hu]. apply pm_post_ret. rewrite app_nil_r, written_app, Hn, Hn'. unfold out_ulids. cbn.
  split_and!; [by rewrite Hu|done|done|]. intros o' [= ->]. by rewrite Hu.
Qed.

Lemma outs_cons b bs : map ro_new_ulid (outs (b :: bs)) = out_ulids b ++ map ro_new_ulid (outs bs).
Proof. unfold outs, out_ulids. cbn. by destruct (rb_output b). Qed.

Lemma rewrite_buckets_spec ix cs bs ulids :
  pm_post (rewrite_buckets env ix cs bs ulids) (λ n rs,
    written n = map ro_new_ulid (outs rs) ∧ map ro_new_ulid (outs rs) `prefix_of` ulids ∧
    Forall (λ b, rb_journal b = false) rs ∧
    map rb_inputs rs = map (λ b, map input_of (bucket_candidates cs b)) (filter (λ b, solo_no_op cs b = false) bs)).
Proof.
  revert ulids. induction bs as [|b bs IH]; intros ulids; cbn [rewrite_buckets].
  { apply pm_post_ret. split_and!; [done|apply prefix_nil|by apply Forall_nil|done]. }
  rewrite filter_cons. destruct (solo_no_op cs b) eqn:Hs; [rewrite decide_False by done; apply IH|].
  rewrite decide_True by done. eapply pm_post_bind; [apply rewrite_bucket_spec|]. intros n rb (Hw & Hj & Hi & Hu).
  eapply pm_post_bind; [apply IH|]. intros n' rest (Hw' & Hp & Hjs & His). apply pm_post_ret.
  rewrite app_nil_r, written_app, Hw, Hw', outs_cons. split_and!; [done| |by constructor|by cbn; rewrite Hi, His].
  unfold out_ulids. destruct (rb_output rb) as [o|]; [|done]. specialize (Hu o eq_refl).
  destruct ulids as [|u ulids]; [done|]. injection Hu as ->. cbn [tail app] in *. by apply prefix_cons.
Qed.

(** What the journal does: one bucket of every candidate, or nothing. *)
Lemma journal_rewrite_spec ix (lifted : bool) nu cs :
  pm_post (if lifted then b ← rewrite_bucket env ix true nu cs; mret [b] else mret []) (λ n jb,
    written n = map ro_new_ulid (outs jb) ∧ Forall (λ b, rb_journal b = true) jb ∧
    (∀ o, o ∈ outs jb → nu = Some (ro_new_ulid o)) ∧
    (if lifted then ∃ b, jb = [b] ∧ rb_inputs b = map input_of cs else jb = [])).
Proof.
  destruct lifted; [|apply pm_post_ret; split_and!; [done|done|by intros o ?%elem_of_nil|done]].
  eapply pm_post_bind; [apply rewrite_bucket_spec|]. intros n b (Hw & Hj & Hi & Hu). apply pm_post_ret.
  rewrite app_nil_r, Hw, outs_cons. split_and!.
  - by rewrite app_nil_r.
  - by apply Forall_singleton.
  - intros o Ho. unfold outs in Ho. cbn in Ho. destruct (rb_output b) as [o'|]; [|by apply elem_of_nil in Ho].
    apply list_elem_of_singleton in Ho as ->. by apply Hu.
  - by exists b.
Qed.
End pass.

(** ** Coverage of the journal *)

Lemma insert_by_perm {A} (key : A → Z) x l : insert_by key x l ≡ₚ x :: l.
Proof. induction l as [|y l IH]; [done|]. cbn. case_decide; [done|]. rewrite IH. apply Permutation_swap. Qed.

Lemma sort_by_key_perm {A} (key : A → Z) l : sort_by_key key l ≡ₚ l.
Proof. induction l as [|x l IH]; [done|]. cbn. by rewrite insert_by_perm, IH. Qed.

Lemma admit_keeps budget data out s :
  s ∈ pa_admitted out → s ∈ pa_admitted (foldl (admit_step budget) out data).
Proof.
  revert out. induction data as [|x data IH]; intros out Hs; [done|]. cbn [foldl]. apply IH. unfold admit_step.
  case_decide; cbn; [|done]. apply elem_of_app. by left.
Qed.

Lemma journal_admitted scanned budget s :
  s ∈ scanned → ss_journal s = true → s ∈ pa_admitted (admit_within_budget scanned budget).
Proof. intros Hs Hj. unfold admit_within_budget. apply admit_keeps. cbn. by apply list_elem_of_filter. Qed.

Lemma scan_segments_complete {HX : UlidText} live floor read names rs name u entries :
  scan_segments live floor read names = Ok rs → name ∈ names → ulid_from_string name = Some u →
  above_floor floor u = true → read u = Ok entries → scan_segment live u entries ∈ rs.
Proof.
  intros Hr Hin Hu Hf Hread. revert rs Hr. induction names as [|name' names IH]; intros rs; cbn [scan_segments]; [by apply elem_of_nil in Hin|].
  apply elem_of_cons in Hin as [<-|Hin].
  - rewrite Hu, Hf, Hread. cbn [negb]. destruct (scan_segments _ _ _ _); [|done]. intros [= <-]. by left.
  - specialize (IH Hin). destruct (ulid_from_string name') as [u'|]; [|done].
    destruct (above_floor floor u'); cbn [negb]; [|by apply IH].
    destruct (read u') as [es|[]]; try done; [|by apply IH]. destruct (scan_segments live floor read names) as [rs'|]; [|done].
    intros [= <-]. right. by apply IH.
Qed.

Lemma candidates_journal m live read admitted data journal s entries :
  candidates_of m live read admitted = Ok (data, journal) → s ∈ admitted → ss_journal s = true →
  read (ss_ulid s) = Ok entries → ss_ulid s ∈ map rc_ulid journal.
Proof.
  intros Hr Hin Hj Hread. revert data journal Hr.
  induction admitted as [|s' admitted IH]; intros data journal; cbn [candidates_of]; [by apply elem_of_nil in Hin|].
  apply elem_of_cons in Hin as [<-|Hin].
  - rewrite Hread. destruct (candidates_of _ _ _ admitted) as [[d j]|]; [|done]. cbn. rewrite Hj. intros [= <- <-]. by left.
  - specialize (IH Hin). destruct (read (ss_ulid s')) as [es|[]]; try done; [|by apply IH].
    destruct (candidates_of m live read admitted) as [[d j]|]; [|done]. cbn. specialize (IH _ _ eq_refl).
    destruct (ss_journal s'); intros [= <- <-]; [by right|done].
Qed.

(** ** Properties *)

(** One run of a pass whose data outputs were minted below the journal's. *)
Lemma repack_pass_run {HB : Blake3} {HL : Lz4Block} {HC : Lz4Codec} {HT : Blake3Tree} {HZ : ZstdBulk} {HD : ZstdDict}
    {HS : Signer} {HU : UlidBytes} {HX : UlidText} env job ops result :
  (∀ a b, a ∈ rj_output_ulids job → b ∈ rj_journal_output_ulids job → a < b) →
  execute_repack env job = (ops, Ok result) →
  ∃ jb db, rr_buckets result = jb ++ db ∧ (length jb ≤ 1)%nat ∧
    Forall (λ b, rb_journal b = true) jb ∧ Forall (λ b, rb_journal b = false) db ∧
    written ops = map ro_new_ulid (outs jb) ++ map ro_new_ulid (outs db) ∧
    map ro_new_ulid (outs db) `prefix_of` rj_output_ulids job ∧
    (∀ u, u ∈ map ro_new_ulid (outs jb) → u ∈ rj_journal_output_ulids job) ∧
    (∀ o j, o ∈ outs db → j ∈ outs jb → ro_new_ulid o < ro_new_ulid j) ∧
    (outs db ≠ [] → rr_journal_untouched result = []) ∧
    (∀ name u entries, name ∈ rj_seg_names job → ulid_from_string name = Some u → above_floor (rj_floor job) u = true →
       pe_scan env u = Ok entries → existsb e_journal entries = true → (∃ es, pe_reread env u = Ok es) →
       u ∈ concat (map bucket_ulids jb) ∨ u ∈ rr_journal_untouched result).
Proof.
  intros Hord Hrun. unfold execute_repack, execute_repack_m in Hrun.
  set (m := materialised (rj_layers job)) in *. set (live := _ ∪ _) in *.
  apply pm_bind_Ok in Hrun as (o1 & scanned & [= <- Hscan] & Hrun).
  apply pm_bind_Ok in Hrun as (o2 & [data journal] & [= <- Hcand] & Hrun).
  set (cs := sort_candidates data) in *. set (lifted := journal_lifted journal (emits_data_output cs (pack cs))) in *.
  apply pm_bind_Ok in Hrun as (ops1 & jb & Hj & Hrun). apply pm_bind_Ok in Hrun as (ops2 & db & Hd & Hrun). revert Hrun.
  intros [= <- <-]. apply journal_rewrite_spec in Hj as (n1 & -> & Hw1 & Hjb & Hju & Hjl).
  apply rewrite_buckets_spec in Hd as (n2 & -> & Hw2 & Hpre & Hdb & Hin). cbn [rr_buckets rr_journal_untouched app].
  exists jb, db. split_and!; [done| |done|done|by rewrite written_app, Hw1, Hw2|done| | | |].
  - destruct lifted; [destruct Hjl as (b & -> & _)|subst jb]; cbn; lia.
  - intros u (o & -> & Ho)%list_elem_of_fmap. apply Hju in Ho. destruct (rj_journal_output_ulids job); [done|].
    injection Ho as ->. by left.
  - intros o j Ho Hj. apply Hju in Hj. apply Hord.
    + destruct Hpre as [k ->]. apply elem_of_app. left. apply list_elem_of_fmap. by exists o.
    + destruct (rj_journal_output_ulids job); [done|]. injection Hj as ->. by left.
  - intros Hne. unfold lifted, journal_lifted. destruct journal as [|c journal]; [done|].
    assert (emits_data_output cs (pack cs) = true) as ->.
    { destruct db as [|d db]; [done|]. match type of Hin with _ = map _ ?l => destruct l as [|b bs] eqn:Hf end; [done|].
      assert (b ∈ b :: bs) as Hb by by left. rewrite <-Hf in Hb. apply list_elem_of_filter in Hb as [Hb Hbin].
      unfold emits_data_output. apply existsb_exists. exists b. split; [by apply list_elem_of_In|]. by rewrite Hb. }
    destruct journal; [by rewrite orb_true_r|done].
  - intros name u entries Hname Hu Hf Hsc Hjn [es Hre].
    pose proof (scan_segments_complete _ _ _ _ _ _ _ _ Hscan Hname Hu Hf Hsc) as Hs.
    apply (journal_admitted _ (rj_work_budget job)) in Hs; [|done].
    pose proof (candidates_journal _ _ _ _ _ _ _ es Hcand Hs Hjn Hre) as Hc. cbn [ss_ulid scan_segment] in Hc.
    destruct lifted; [left|by right]. destruct Hjl as (b & -> & Hb). cbn. rewrite app_nil_r. unfold bucket_ulids. rewrite Hb, map_map. cbn.
    apply list_elem_of_fmap in Hc as (c & -> & Hc). apply list_elem_of_fmap. exists c. split; [done|]. by rewrite sort_by_key_perm.
Qed.

(** [n] calls of the mint: strictly increasing, above what it held, kept below
    what it holds after. *)
Lemma mint_many_spec {HU : UlidParts} B m cs n :
  0 ≤ last m → last m + Z.of_nat n < B → B ≤ 2 ^ 128 → Forall (λ c, c + Z.of_nat n < B) cs →
  let '(m', us) := mint_many m cs n in
  Forall (λ u, last m < u ≤ last m') us ∧ StronglySorted Z.lt us ∧ last m ≤ last m' < B ∧ length us = n.
Proof.
  revert m cs. induction n as [|n IH]; intros m cs H0 Hl HB Hc; cbn [mint_many].
  { split_and!; [constructor|constructor|lia|lia|done]. }
  assert (hd 0 cs + Z.of_nat (S n) < B ∨ hd 0 cs = 0) as Hh.
  { destruct Hc; cbn; [by right|by left]. }
  destruct (next_spec m (hd 0 cs)) as [Hn Hlast]; [lia..|].
  destruct (next m (hd 0 cs)) as [m1 u]. cbn [fst snd] in *. specialize (IH m1 (tl cs)).
  destruct (mint_many m1 (tl cs) n) as [m2 us]. destruct IH as (Hus & Hs & Hm2 & Hlen); [lia..| |].
  { destruct Hc as [|c cs Hc0 Hc]; [constructor|]. eapply Forall_impl; [exact Hc|]. cbn. lia. }
  split_and!; [|constructor; [done|]|lia..|cbn; lia].
  - constructor; [lia|]. eapply Forall_impl; [exact Hus|]. cbn. lia.
  - eapply Forall_impl; [exact Hus|]. cbn. lia.
Qed.

(** What the close's preparation hands the worker. *)
Lemma prepared_job {HU : UlidParts} v mint env v' mint' n job :
  prepare_close_generation v mint env = Ok (v', mint', mkClosePrep n (Some job)) →
  0 ≤ last mint → last mint + Z.of_nat (length (rj_seg_names job)) + 1 < 2 ^ 128 →
  Forall (λ c, c + Z.of_nat (length (rj_seg_names job)) + 1 < 2 ^ 128) (ce_candidates env) →
  (∀ a b, a ∈ rj_output_ulids job → b ∈ rj_journal_output_ulids job → a < b) ∧
  Forall (λ u, last mint < u ≤ last mint') (rj_output_ulids job ++ rj_journal_output_ulids job) ∧
  length (rj_output_ulids job) = length (rj_seg_names job) ∧ rj_journal_output_ulids job ≠ [] ∧
  rj_layers job = sg_maps v ∧ pending_journal v' = ∅.
Proof.
  unfold prepare_close_generation. intros (r & _ & H)%io_bind_Ok H0 Hl Hc. destruct r as [k|]; [|done].
  apply io_bind_Ok in H as (segs & _ & H). case_bool_decide; [done|]. apply io_bind_Ok in H as (floor & _ & H).
  pose proof (mint_many_spec (2 ^ 128 - 1) mint (ce_candidates env) (length segs) H0) as M1.
  destruct (mint_many mint (ce_candidates env) (length segs)) as [m1 outs].
  pose proof (mint_many_spec (2 ^ 128) m1 (drop (length segs) (ce_candidates env)) JOURNAL_CONSOLIDATION_ULIDS) as M2.
  destruct (mint_many m1 _ _) as [m2 jouts]. injection H as <- <- _ <-.
  cbn [rj_output_ulids rj_journal_output_ulids rj_seg_names rj_layers pending_journal] in *.
  unfold JOURNAL_CONSOLIDATION_ULIDS in M2.
  destruct M1 as (F1 & _ & L1 & N1); [lia|lia| |]. { eapply Forall_impl; [exact Hc|]. cbn. lia. }
  destruct M2 as (F2 & _ & L2 & N2); [lia|lia|lia| |].
  { apply Forall_drop. eapply Forall_impl; [exact Hc|]. cbn. pose proof (Zle_0_nat (length segs)). lia. }
  rewrite Forall_forall in F1, F2. split_and!; try done.
  - intros a b Ha Hb. apply F1 in Ha. apply F2 in Hb. lia.
  - apply Forall_forall. intros u [Hu|Hu]%elem_of_app; [apply F1 in Hu|apply F2 in Hu]; lia.
  - by destruct jouts.
Qed.

(** C17: closing a generation keeps its journal above its data. The preparation
    mints one data output per listed segment and then the journal's, all above
    everything the mint issued before; the pass over the job it hands out writes
    one file per output, the journal's first; the data outputs take the minted
    ULIDs in order, all below the journal's; where a data output is written no
    journal segment is left where it was; and every journal segment of the
    generation above the floor, whose index the pass reads both times, is consumed
    by the journal output or reported untouched. The ULIDs minted do not run past
    the 128 bits they have. *)
Theorem repack_pass_ordered {HP : UlidParts} {HB : Blake3} {HL : Lz4Block} {HC : Lz4Codec} {HT : Blake3Tree} {HZ : ZstdBulk} {HD : ZstdDict}
    {HS : Signer} {HU : UlidBytes} {HX : UlidText} v mint cenv v' mint' n env job ops result :
  0 ≤ last mint → last mint + Z.of_nat (length (rj_seg_names job)) + 1 < 2 ^ 128 →
  Forall (λ c, c + Z.of_nat (length (rj_seg_names job)) + 1 < 2 ^ 128) (ce_candidates cenv) →
  prepare_close_generation v mint cenv = Ok (v', mint', mkClosePrep n (Some job)) →
  execute_repack env job = (ops, Ok result) →
  ∃ jb db, rr_buckets result = jb ++ db ∧ (length jb ≤ 1)%nat ∧
    Forall (λ b, rb_journal b = true) jb ∧ Forall (λ b, rb_journal b = false) db ∧
    written ops = map ro_new_ulid (outs jb) ++ map ro_new_ulid (outs db) ∧
    Forall (λ u, last mint < u ≤ last mint') (written ops) ∧
    map ro_new_ulid (outs db) `prefix_of` rj_output_ulids job ∧
    (∀ o j, o ∈ outs db → j ∈ outs jb → ro_new_ulid o < ro_new_ulid j) ∧
    (outs db ≠ [] → rr_journal_untouched result = []) ∧
    (∀ name u entries, name ∈ rj_seg_names job → ulid_from_string name = Some u → above_floor (rj_floor job) u = true →
       pe_scan env u = Ok entries → existsb e_journal entries = true → (∃ es, pe_reread env u = Ok es) →
       u ∈ concat (map bucket_ulids jb) ∨ u ∈ rr_journal_untouched result).
Proof.
  intros H0 Hl Hc Hprep Hrun. destruct (prepared_job _ _ _ _ _ _ _ Hprep H0 Hl Hc) as (Hord & Hrange & _).
  destruct (repack_pass_run env job ops result Hord Hrun) as (jb & db & ? & ? & ? & ? & Hw & Hpre & Hj & ? & ? & ?).
  exists jb, db. split_and!; try done. rewrite Hw. rewrite Forall_forall in Hrange. apply Forall_forall.
  intros u [Hu|Hu]%elem_of_app; apply Hrange, elem_of_app; [right; by apply Hj|left].
  destruct Hpre as [k ->]. apply elem_of_app. by left.
Qed.

(** Two data segments and a journal segment of zeroed blocks. *)
Definition zero_segment (u : Ulid) : list SegmentEntry :=
  if decide (u = 3) then [set_journal true (new_zero 20 4)] else if decide (u = 2) then [new_zero 10 4] else [new_zero 0 4].
Definition zero_file (u : Ulid) : io (list Z) :=
  match @write_segment_full toy_blake3 toy_ulid_bytes toy_signer (λ _ b, Ok b) (map from_entry (zero_segment u)) [] [] false with
  | Ok (file, _, _) => Ok file
  | Err e => Err e
  end.
Definition zero_env : PassEnv :=
  mkPassEnv (λ u, Ok (zero_segment u)) (λ u, Ok (zero_segment u)) zero_file (λ _, Ok ()) (λ _, Ok ()) (λ _, three_resolver) false.
Definition zero_map : LbaMap :=
  LbaMap.insert (LbaMap.insert (LbaMap.insert lm_new 0 4 ZERO_HASH 1) 10 4 ZERO_HASH 2) 20 4 ZERO_HASH 3.
Definition zero_volume : Segments :=
  mkSegments (ml_new (mkMaps zero_map ei_new)) {[1; 2; 3]} (Some 3) true ∅ (fc_new 1).
Definition zero_close : CloseEnv := mkCloseEnv (Ok (Some 3)) (Ok ["1"; "2"; "3"]%string) (Ok None) [7; 8; 6; 6].
Definition zero_job : RepackJob :=
  mkRepackJob false None ["1"; "2"; "3"]%string REPACK_CLOSE_WORK_BYTES [7; 8; 9] [10] (ml_new (mkMaps zero_map ei_new)).
Definition zero_run : list PassOp * io RepackResult :=
  @execute_repack toy_blake3 rle_lz4 rle_codec toy_tree toy_zstd toy_dict toy_signer toy_ulid_bytes decimal_ulid_text zero_env zero_job.

Lemma zero_prepared : ∃ v' mint',
  @prepare_close_generation toy_ulid_parts zero_volume (mkMint 5 false) zero_close =
    Ok (v', mint', mkClosePrep (Some 3) (Some zero_job)).
Proof. do 2 eexists. vm_compute. reflexivity. Qed.

Lemma repack_pass_ordered_witness :
  ∃ ops result jb db, zero_run = (ops, Ok result) ∧ written ops = [10; 7] ∧ rr_buckets result = jb ++ db ∧
    (∀ o j, o ∈ outs db → j ∈ outs jb → ro_new_ulid o < ro_new_ulid j) ∧
    (3 ∈ concat (map bucket_ulids jb) ∨ 3 ∈ rr_journal_untouched result).
Proof.
  assert (match zero_run with (ops, Ok _) => written ops = [10; 7] | _ => False end) as Hw by (vm_compute; reflexivity).
  destruct zero_prepared as (v' & mint' & Hprep).
  destruct zero_run as [ops [result|]] eqn:E; [|destruct Hw]. exists ops, result.
  pose proof (@repack_pass_ordered toy_ulid_parts toy_blake3 rle_lz4 rle_codec toy_tree toy_zstd toy_dict toy_signer toy_ulid_bytes
    decimal_ulid_text zero_volume (mkMint 5 false) zero_close v' mint' (Some 3) zero_env zero_job ops result) as H.
  destruct H as (jb & db & Hb & _ & _ & _ & _ & _ & _ & Hlt & _ & Hj).
  - cbn. lia.
  - cbn. lia.
  - cbn. repeat constructor.
  - exact Hprep.
  - exact E.
  - exists jb, db. split; [reflexivity|]. split; [exact Hw|]. split; [exact Hb|]. split; [exact Hlt|].
    apply (Hj "3"%string 3 (zero_segment 3)); [|vm_compute; reflexivity|done|done|done|by exists (zero_segment 3)].
    cbn. right. right. left.
Defined.
