(* ===== verification/GcPlan.v ===== *)
(** * Applying the coordinator's plans (elide-core/src/volume/mod.rs, actor.rs)

    The volume's half of the GC handoff: the [gc/] directory's plans in name
    order, each read, materialised into [<ulid>.tmp], folded and committed. *)

From stdpp Require Import base gmap list strings.
From S2P Require Import Prelude Bytes Text Segment ChunkTree Codec SegmentCodec LbaMap ExtentIndex MapLayers Locate ReadPath RewritePlan Materialise FoldApply RepackPass.
Open Scope Z_scope.

(** ** The worker *)

(** What the worker meets outside: an input's [.idx], the output's create, the
    same file read back, the sketch switch. *)
Record GcEnv := mkGcEnv {
  ge_idx : Ulid → io (list Z);
  ge_written : io unit;
  ge_readback : list Z → io (list Z);
  ge_resolver : ExtentIndex → BodyResolver;
  ge_sketch : bool
}.

Record GcPlanApplyJob := mkGcPlanApplyJob { gj_new_ulid : Ulid; gj_extent_index : ExtentIndex; gj_plan : RewritePlan }.

(** A cancelled worker has removed the plan file. *)
Definition cancelled_result (new_ulid : Ulid) (inputs : list Ulid) : GcPlanApplyResult :=
  mkGcPlanApplyResult new_ulid false 0 [] inputs [] [] ∅ ∅ [] Cancelled.

Section worker.
Context {HB : Blake3} {HL : Lz4Block} {HC : Lz4Codec} {HT : Blake3Tree} {HZ : ZstdBulk} {HD : ZstdDict}.
Context {HS : Signer} {HV : Verifier} {HU : UlidBytes}.

(** The owned hashes and the claim ranges of every input whose [.idx] is there. *)
Fixpoint input_tables (idx : Ulid → io (list Z)) (inputs : list Ulid)
    : io (list (Hash * EntryKind * Ulid) * list (Z * Z)) :=
  match inputs with
  | [] => Ok ([], [])
  | u :: inputs =>
      match (file ← idx u; read_segment_index file) with
      | Err NotFound => input_tables idx inputs
      | Err e => Err e
      | Ok (_, entries, _) =>
          '(old, ranges) ← input_tables idx inputs;
          Ok (map (λ e, (e_hash e, e_kind e, u)) (filter (λ e, owns_extent_hash (e_kind e) = true) entries) ++ old,
              claims_of entries ++ ranges)
      end
  end.

Definition execute_gc_plan_apply (env : GcEnv) (job : GcPlanApplyJob) : io GcPlanApplyResult * list FsOp :=
  let new_ulid := gj_new_ulid job in
  let plan_inputs := RewritePlan.inputs (gj_plan job) in
  let cancelled := (Ok (cancelled_result new_ulid plan_inputs), [RemovePlan new_ulid]) in
  match ctx_new (ge_idx env) plan_inputs (gj_extent_index job) (ge_resolver env (gj_extent_index job)) with
  | inr (OutIo e) => (Err e, [])
  | inr (OutCancel _) => cancelled
  | inl ctx =>
      match materialise_plan (gj_plan job) ctx cost_default with
      | (_, inr (OutIo e)) => (Err e, [])
      | (_, inr (OutCancel _)) => cancelled
      | (_, inl m) =>
          ('(old_entries, claim_ranges) ← input_tables (ge_idx env) plan_inputs;
           '(file, _, _) ← write_segment_full decode (m_entries m) (m_delta_body m) plan_inputs (ge_sketch env);
           _ ← ge_written env;
           file ← ge_readback env file;
           '(new_bss, written, _) ← read_and_verify_segment_index file;
           inline ← read_inline_section file;
           Ok (mkGcPlanApplyResult new_ulid true new_bss written plan_inputs old_entries claim_ranges
                 (carried_hashes written) (list_to_set (map e_hash written)) inline Applied), [])
      end
  end.

(** ** The volume *)

Context {HX : UlidText}.

(** A plan that does not parse, is named wrong or has no inputs is removed. *)
Definition read_plan_for_apply (new_ulid : Ulid) (file : io string) : option RewritePlan :=
  match plan_read (Some (ulid_to_string new_ulid)) file with
  | Err _ => None
  | Ok plan =>
      if negb (bool_decide (RewritePlan.new_ulid plan = new_ulid)) then None
      else if bool_decide (RewritePlan.inputs plan = []) then None
      else Some plan
  end.

Definition prepare_plan_apply (v : Segments) (new_ulid : Ulid) (plan : RewritePlan) : GcPlanApplyJob :=
  mkGcPlanApplyJob new_ulid (extent_index (base (sg_maps v))) plan.

(** What one handoff meets: the plan file, the worker's world, the output when
    the fold reads it, the commit's rename. *)
Record HandoffEnv := mkHandoffEnv {
  he_plan : io string; he_worker : GcEnv; he_tmp_file : io (list Z); he_renamed : io unit
}.

Definition apply_plan_handoff (v : Segments) (new_ulid : Ulid) (env : HandoffEnv)
    : io (Segments * StagedApply) * list FsOp :=
  match read_plan_for_apply new_ulid (he_plan env) with
  | None => (Ok (v, Cancelled), [RemovePlan new_ulid])
  | Some plan =>
      match execute_gc_plan_apply (he_worker env) (prepare_plan_apply v new_ulid plan) with
      | (Err e, ops) => (Err e, ops)
      | (Ok result, ops) =>
          let '(r, ops') := apply_plan_apply_result v result (he_tmp_file env) (he_renamed env) in (r, ops ++ ops')
      end
  end.

(** The [gc/] directory: [strip_suffix] on its names, the plans in name order. *)
Fixpoint strip_suffix (suffix name : string) : option string :=
  if String.eqb name suffix then Some EmptyString
  else match name with
       | EmptyString => None
       | String a name => String a <$> strip_suffix suffix name
       end.

Definition ulid_with_suffix (suffix name : string) : option Ulid :=
  stem ← strip_suffix suffix name; ulid_from_string stem.

Definition stale_tmps (names : list string) : list Ulid := omap (ulid_with_suffix ".tmp") names.

Fixpoint insert_name (p : string * Ulid) (l : list (string * Ulid)) : list (string * Ulid) :=
  match l with
  | [] => [p]
  | q :: l' => if String.leb p.1 q.1 then p :: l else q :: insert_name p l'
  end.

Definition plans_in (names : list string) : list (string * Ulid) :=
  foldr insert_name [] (omap (λ name, u ← ulid_with_suffix ".plan" name; Some (name, u)) names).

(** A committed output wins over its plan; a divergence stops the walk. *)
Fixpoint apply_plans (v : Segments) (plans : list (string * Ulid)) (committed : Ulid → io bool)
    (env : Ulid → HandoffEnv) : io (Segments * Z) * list FsOp :=
  match plans with
  | [] => (Ok (v, 0), [])
  | (_, u) :: plans =>
      let next v n ops :=
        match apply_plans v plans committed env with
        | (Ok (v, count), ops') => (Ok (v, count + n), ops ++ ops')
        | (Err e, ops') => (Err e, ops ++ ops')
        end in
      match committed u with
      | Err e => (Err e, [])
      | Ok true => next v 1 [RemovePlan u]
      | Ok false =>
          match apply_plan_handoff v u (env u) with
          | (Err e, ops) => (Err e, ops)
          | (Ok (v, Applied), ops) => next v 1 ops
          | (Ok (v, Cancelled), ops) => next v 0 ops
          | (Ok (v, Diverged), ops) => (Ok (v, 0), ops)
          end
      end
  end.

Definition apply_all_staged_handoffs (v : Segments) (exists_ : io bool) (listing : io (list string))
    (committed : Ulid → io bool) (env : Ulid → HandoffEnv) : io (Segments * Z) * list FsOp :=
  match exists_ with
  | Err e => (Err e, [])
  | Ok false => (Ok (v, 0), [])
  | Ok true =>
      match listing with
      | Err e => (Err e, [])
      | Ok names =>
          let '(r, ops) := apply_plans v (plans_in names) committed env in
          (r, map RemoveTmp (stale_tmps names) ++ ops)
      end
  end.
End worker.
