(* ===== verification/Reap.v ===== *)
(** * The open generation's reap (elide-core/src/volume/reap.rs)

    Segments nothing references are found by a sweep of the maps, their owned
    hashes parsed, their index entries dropped over a clone of [base], and the
    clone swapped in before the files are unlinked. *)

From stdpp Require Import base gmap list strings.
From S2P Require Import Prelude Bytes Text Segment SegmentCodec LbaMap ExtentIndex MapLayers FileCache FoldApply RepackPass.
Open Scope Z_scope.

Definition REAP_ENTRY_CAP : Z := 32768.

Record ReapStats := mkReapStats {
  segments_reaped : Z; entries_removed : Z; bytes_reclaimed : Z; segments_refused : Z
}.
Definition reap_stats_default : ReapStats := mkReapStats 0 0 0 0.

Record ReapCandidate := mkReapCandidate { rp_ulid : Ulid; rp_bytes : Z; rp_journal : bool }.
Record BodyBytes := mkBodyBytes { bb_live : Z; bb_stored : Z }.
Record Sweep := mkSweep { sw_candidates : list ReapCandidate; sw_body_bytes : gmap Ulid BodyBytes }.

Definition sweep_totals (s : Sweep) : BodyBytes :=
  foldl (λ acc b, mkBodyBytes (u64_add (bb_live acc) (bb_live b)) (u64_add (bb_stored acc) (bb_stored b)))
    (mkBodyBytes 0 0) (map_to_list (sw_body_bytes s)).*2.

Record ReapSegment := mkReapSegment { rs_ulid : Ulid; rs_bytes : Z; rs_journal : bool; rs_owned_hashes : list Hash }.

(** ** Listing *)

Section list.
Context {HT : UlidText}.

Fixpoint list_entries (names : list string) (size : string → io Z) : io (list (Ulid * Z)) :=
  match names with
  | [] => Ok []
  | name :: names =>
      match ulid_from_string name with
      | None => Err OtherError
      | Some u => bytes ← size name; rest ← list_entries names size; Ok ((u, bytes) :: rest)
      end
  end.

Fixpoint insert_open (x : Ulid * Z) (l : list (Ulid * Z)) : list (Ulid * Z) :=
  match l with
  | [] => [x]
  | y :: l' => if decide (x.1 ≤ y.1) then x :: l else y :: insert_open x l'
  end.

Definition list_open_segments (listing : io (list string)) (size : string → io Z) : io (list (Ulid * Z)) :=
  names ← listing; out ← list_entries names size; Ok (foldr insert_open [] out).
End list.

(** ** The sweep *)

Definition eligible (open : list (Ulid * Z)) (floor : option Ulid) : gset Ulid :=
  list_to_set (filter (λ u, above_floor floor u = true) open.*1).

Definition claimants (lm : LbaMap) (el : gset Ulid) : gset Ulid :=
  list_to_set (filter (λ u, u ∈ el) (map (λ '(_, _, _, _, claimant), claimant) (iter_entries_with_claimant lm))).

(** The segments at which an eligible location's hash satisfies [p]. *)
Definition located (ix : ExtentIndex) (el : gset Ulid) (p : Hash → bool) : gset Ulid :=
  list_to_set (omap (λ '(h, loc), if decide (segment_id loc ∈ el ∧ p h = true) then Some (segment_id loc) else None)
                 (map_to_list (inner ix)))
  ∪ list_to_set (omap (λ '(h, loc), if decide (d_segment_id loc ∈ el ∧ p h = true) then Some (d_segment_id loc) else None)
                   (map_to_list (deltas ix))).

Definition price (m : Maps) (el : gset Ulid) (acc : gmap Ulid BodyBytes) (p : Hash * ExtentLocation)
    : gmap Ulid BodyBytes :=
  let '(h, loc) := p in
  if decide (segment_id loc ∈ el) then
    let b := default (mkBodyBytes 0 0) (acc !! segment_id loc) in
    <[segment_id loc := mkBodyBytes (if hash_live m h then u64_add (bb_live b) (body_length loc) else bb_live b)
                          (u64_add (bb_stored b) (body_length loc))]> acc
  else acc.

Definition sweep_unreachable (m : Maps) (open : list (Ulid * Z)) (floor : option Ulid) : Sweep :=
  let el := eligible open floor in
  if decide (el = ∅) then mkSweep [] ∅
  else
    let referenced := claimants (lbamap m) el ∪ located (extent_index m) el (hash_live m) in
    let durable := located (extent_index m) el (λ _, true) in
    mkSweep (map (λ '(u, b), mkReapCandidate u b (is_journal_segment (extent_index m) u && negb (bool_decide (u ∈ durable))))
               (filter (λ p, p.1 ∈ el ∧ p.1 ∉ referenced) open))
      (foldl (price m el) ∅ (map_to_list (inner (extent_index m)))).

(** ** The parse *)

(** A data segment past the cap, or one that fails to parse, is left. *)
Fixpoint parse_with_cap (cap entries : Z) (read : Ulid → io (list SegmentEntry)) (cs : list ReapCandidate)
    : list ReapSegment :=
  match cs with
  | [] => []
  | c :: cs =>
      if rp_journal c then mkReapSegment (rp_ulid c) (rp_bytes c) true [] :: parse_with_cap cap entries read cs
      else if decide (cap ≤ entries) then parse_with_cap cap entries read cs
      else
        match read (rp_ulid c) with
        | Err _ => parse_with_cap cap entries read cs
        | Ok es =>
            let owned := map e_hash (filter (λ e, e_kind e ≠ DedupRef) es) in
            mkReapSegment (rp_ulid c) (rp_bytes c) false owned
              :: parse_with_cap cap (entries + Z.of_nat (length owned)) read cs
        end
  end.

Definition parse_reap_candidates (read : Ulid → io (list SegmentEntry)) (cs : list ReapCandidate) : list ReapSegment :=
  parse_with_cap REAP_ENTRY_CAP 0 read cs.

(** ** The fold *)

Record ReapFold := mkReapFold {
  rf_stats : ReapStats; rf_post : ExtentIndex; rf_removed : gset Hash; rf_reaped : list ReapSegment
}.

(** The sweep's word is taken for a journal segment; a data segment is refused
    whole for one owned hash that is live. *)
Definition reap_refused (claims : LbaMap) (ix : ExtentIndex) (seg : ReapSegment) : bool :=
  negb (rs_journal seg)
  && existsb (λ h, still_at ix h (rs_ulid seg) && (is_referenced claims h || is_named_delta_source ix h)) (rs_owned_hashes seg).

Definition reap_step (claims : LbaMap) (f : ReapFold) (seg : ReapSegment) : ReapFold :=
  let s := rf_stats f in
  if reap_refused claims (rf_post f) seg then
    mkReapFold (mkReapStats (segments_reaped s) (entries_removed s) (bytes_reclaimed s) (u64_add (segments_refused s) 1))
      (rf_post f) (rf_removed f) (rf_reaped f)
  else
    let '(ix, dropped) := remove_input_owned (rf_post f) (rs_ulid seg) (rs_owned_hashes seg) ∅ in
    mkReapFold (mkReapStats (u64_add (segments_reaped s) 1) (u64_add (entries_removed s) (Z.of_nat (length dropped)))
                  (u64_add (bytes_reclaimed s) (rs_bytes seg)) (segments_refused s))
      (purge_input ix (rs_ulid seg)) (list_to_set dropped ∪ rf_removed f) (rf_reaped f ++ [seg]).

Definition fold_reap (ls : MapLayers) (segs : list ReapSegment) : ReapFold :=
  foldl (reap_step (lbamap (materialised ls))) (mkReapFold reap_stats_default (extent_index (base ls)) ∅ []) segs.

Definition reap_post (ls : MapLayers) (f : ReapFold) : Maps := mkMaps (lbamap (base ls)) (rf_post f).

(** ** The swap *)

Definition forget_reaped (v : Segments) (seg : ReapSegment) : Segments :=
  mkSegments (sg_maps v) (own_segments v) (last_segment_ulid v) (has_new_segments v)
    (pending_journal v ∖ {[ rs_ulid seg ]}) (fc_evict (rs_ulid seg) (sg_file_cache v)).

Definition swap_reap (v : Segments) (ls : MapLayers) (f : ReapFold) : Segments * ReapStats * list Ulid :=
  match rf_reaped f with
  | [] => (v, rf_stats f, [])
  | reaped =>
      match delta_claims_any (sg_maps v) (rf_removed f) with
      | Some _ => (v, mkReapStats 0 0 0 (u64_add (segments_refused (rf_stats f)) (Z.of_nat (length reaped))), [])
      | None =>
          let v := with_maps (swap_base (sg_maps v) (reap_post ls f)) v in
          (foldl forget_reaped v reaped, rf_stats f, map rs_ulid reaped)
      end
  end.

Definition apply_reap (v : Segments) (segs : list ReapSegment) : Segments * ReapStats * list Ulid :=
  swap_reap v (sg_maps v) (fold_reap (sg_maps v) segs).

(** One pass on one thread, up to the unlink. *)
Definition reap_open_generation (v : Segments) (open : io (list (Ulid * Z))) (floor : io (option Ulid))
    (read : Ulid → io (list SegmentEntry)) (unlinked : Ulid → io unit) (synced : io unit)
    : io (Segments * ReapStats) * list FsOp :=
  match open with
  | Err e => (Err e, [])
  | Ok [] => (Ok (v, reap_stats_default), [])
  | Ok open =>
      match floor with
      | Err e => (Err e, [])
      | Ok floor =>
          match sw_candidates (sweep_unreachable (materialised (sg_maps v)) open floor) with
          | [] => (Ok (v, reap_stats_default), [])
          | cs =>
              let '(v, stats, unlink) := apply_reap v (parse_reap_candidates read cs) in
              let '(r, ops) := unlink_consumed_inputs unlink unlinked synced in
              (_ ← r; Ok (v, stats), ops)
          end
      end
  end.
