(* ===== verification/ReapSpec.v ===== *)
(** * The reap removes what nothing references, and strands nothing *)

From stdpp Require Import base gmap list strings.
From S2P Require Import Prelude Bytes Text Segment SegmentCodec LbaMap LbaMapFacts LbaMapSpec ExtentIndex ExtentIndexSpec MapLayers MapLayersSpec FileCache LbaRanges LbaRangesSpec FoldApply FoldApplySpec RepackFoldSpec RepackPass Reap.
Open Scope Z_scope.

(** ** The sweep *)

Lemma elem_of_claimants N m el u :
  lm_wf N m → u ∈ claimants m el ↔ u ∈ el ∧ ∃ b c, view m b = Some c ∧ c_claimant c = u.
Proof.
  intros Hwf. unfold claimants. rewrite elem_of_list_to_set, list_elem_of_filter. apply and_iff_compat_l. split.
  - intros ([[[[lba len] h] o] cl] & -> & Hin)%list_elem_of_fmap.
    apply list_elem_of_fmap in Hin as ([k e] & [= -> -> -> -> ->] & Hin). apply elem_of_om_iter in Hin.
    pose proof (wf_entry _ _ Hwf _ _ Hin) as (? & ? & _). exists k, (cell_of k e k). split; [|done].
    apply (view_Some N); [done|]. exists k, e. split; [done|]. split; [lia|done].
  - intros (b & c & Hc & <-). apply (view_Some N) in Hc as (k & e & He & _ & ->); [|done].
    apply list_elem_of_fmap. exists (k, lba_length e, me_hash e, payload_block_offset e, claimant_ulid e). split; [done|].
    apply list_elem_of_fmap. exists (k, e). split; [done|]. by apply elem_of_om_iter.
Qed.

Lemma elem_of_located ix el p u : u ∈ located ix el p ↔ u ∈ el ∧ ∃ h, still_at ix h u = true ∧ p h = true.
Proof.
  unfold located. rewrite elem_of_union, !elem_of_list_to_set, !list_elem_of_omap. setoid_rewrite still_at_iff. split.
  - intros [([h loc] & Hin & Hs)|([h loc] & Hin & Hs)]; apply elem_of_map_to_list in Hin;
      (case_decide as Hd; [|done]); injection Hs as <-; destruct Hd; split; try done; exists h; naive_solver.
  - intros (Hel & h & [(l & Hl & <-)|(l & Hl & <-)] & Hp); [left|right]; exists (h, l);
      (split; [by apply elem_of_map_to_list|]); by rewrite decide_True.
Qed.

(** The sweep is exact. Its candidates are the open segments above the
    snapshot floor that no block is claimed by and no live hash is located at, in
    the data tier or the delta tier, and a candidate is taken unparsed only when
    it is a journal segment at which the index locates nothing. *)
Theorem sweep_exact N m open floor :
  lm_wf N (lbamap m) →
  (∀ c, c ∈ sw_candidates (sweep_unreachable m open floor) → rp_journal c = true →
     ∀ h, still_at (extent_index m) h (rp_ulid c) = false) ∧
  ∀ u bytes, (∃ c, c ∈ sw_candidates (sweep_unreachable m open floor) ∧ rp_ulid c = u ∧ rp_bytes c = bytes) ↔
    (u, bytes) ∈ open ∧ above_floor floor u = true ∧ (∀ b c, view (lbamap m) b = Some c → c_claimant c ≠ u) ∧
    ∀ h, still_at (extent_index m) h u = true → hash_live m h = false.
Proof.
  intros Hwf. unfold sweep_unreachable. set (el := eligible open floor).
  assert (∀ u, u ∈ el ↔ above_floor floor u = true ∧ ∃ bytes, (u, bytes) ∈ open) as Hel.
  { intros u. unfold el, eligible. rewrite elem_of_list_to_set, list_elem_of_filter, list_elem_of_fmap.
    split; [intros (? & [? ?] & -> & ?); eauto|intros (? & b & ?); split; [done|by exists (u, b)]]. }
  destruct (decide (el = ∅)) as [Hemp|Hne]; cbn [sw_candidates].
  { split; [by intros c ?%elem_of_nil|]. intros u bytes. split; [by intros (c & ?%elem_of_nil & _)|].
    intros (Hin & Hf & _). assert (u ∈ el) as Hu by (apply Hel; eauto). rewrite Hemp in Hu. by apply elem_of_empty in Hu. }
  split.
  - intros c ([u b] & -> & [[Hu _] _]%list_elem_of_filter)%list_elem_of_fmap. cbn [rp_journal rp_ulid fst] in *.
    intros [_ Hd]%andb_true_iff h. apply negb_true_iff, bool_decide_eq_false in Hd.
    destruct (still_at _ h u) eqn:Hs; [|done]. destruct Hd. apply elem_of_located. split; [done|]. by exists h.
  - intros u bytes. split.
    + intros (c & ([u' b] & -> & [[Hu Hr] Hin]%list_elem_of_filter)%list_elem_of_fmap & <- & <-). cbn [rp_ulid rp_bytes fst] in *.
      rewrite elem_of_union, (elem_of_claimants N), elem_of_located in Hr by done. pose proof Hu as [Hf _]%Hel.
      split_and!; [done|done|intros b' c Hc He; apply Hr; left; split; [done|by exists b', c]|].
      intros h Hs. destruct (hash_live m h) eqn:Hl; [|done]. destruct Hr. right. split; [done|]. by exists h.
    + intros (Hin & Hf & Hcl & Hd). assert (u ∈ el) as Hu by (apply Hel; eauto).
      eexists. split; [apply list_elem_of_fmap; exists (u, bytes); split; [done|]|done].
      apply list_elem_of_filter. split; [|done]. cbn [fst]. split; [done|].
      rewrite elem_of_union, (elem_of_claimants N), elem_of_located by done.
      intros [[_ (b & c & Hc & He)]|[_ (h & Hs & Hl)]]; [by eapply Hcl|]. rewrite Hd in Hl by done. done.
Qed.

(** Segment 1 is claimed; segments 3 and 4 are not; 3 sits under the floor. *)

(** ** The index through a reap *)

(** Every delta's sources are recorded under its segment. *)
Definition deltas_recorded (ix : ExtentIndex) : Prop := ∀ h loc o, deltas ix !! h = Some loc → o ∈ d_options loc →
  ∃ ph l, delta_sources ix !! d_segment_id loc = Some ph ∧ ph !! h = Some l ∧ source_hash o ∈ l.

Lemma recorded_named ix h loc o :
  sources_ok ix → deltas_recorded ix → deltas ix !! h = Some loc → o ∈ d_options loc →
  is_named_delta_source ix (source_hash o) = true.
Proof.
  intros Hok Hrec Hl Ho. destruct (Hrec h loc o Hl Ho) as (ph & l & Hph & Hh & Hin).
  assert (source_hash o ∈ named_delta_sources ix) as Hn.
  { unfold named_delta_sources. apply elem_of_list_to_set, list_elem_of_In, in_concat. exists l. split; [|by apply list_elem_of_In].
    apply in_concat. exists (map_to_list ph).*2. split.
    - apply in_map_iff. exists (d_segment_id loc, ph). split; [done|]. by apply list_elem_of_In, elem_of_map_to_list.
    - apply list_elem_of_In, list_elem_of_fmap. exists (h, l). split; [done|]. by apply elem_of_map_to_list. }
  rewrite named_delta_sources_occ in Hn. unfold is_named_delta_source. rewrite bool_decide_eq_true, (so_counts _ Hok).
  unfold count_of. rewrite decide_False by lia. by eexists.
Qed.

Lemma drop_counts_sources l ix : delta_sources (foldl drop_source_counts ix l) = delta_sources ix.
Proof. revert ix. induction l as [|x l IH]; intros ix; [done|]. cbn [foldl]. by rewrite IH. Qed.

Lemma drop_counts_journal l ix : journal (foldl drop_source_counts ix l) = journal ix.
Proof. revert ix. induction l as [|x l IH]; intros ix; [done|]. cbn [foldl]. by rewrite IH. Qed.

Lemma purge_input_sources ix u s : s ≠ u → delta_sources (purge_input ix u) !! s = delta_sources ix !! s.
Proof.
  intros Hs. unfold purge_input, purge_segment_delta_sources. destruct (delta_sources _ !! u); [|done].
  rewrite drop_counts_sources. cbn. by rewrite lookup_delete_ne.
Qed.

Lemma purge_input_journal ix u s h :
  ExtentIndex.lookup_journal (purge_input ix u) s h = if decide (s = u) then None else ExtentIndex.lookup_journal ix s h.
Proof.
  assert (journal (purge_input ix u) = delete u (journal ix)) as Hj.
  { unfold purge_input, purge_segment_delta_sources. destruct (delta_sources _ !! u); [by rewrite drop_counts_journal|done]. }
  unfold ExtentIndex.lookup_journal. rewrite Hj. case_decide as Hs; [subst; by rewrite lookup_delete_eq|by rewrite lookup_delete_ne].
Qed.

Lemma remove_owner_sources ix h u :
  delta_sources (remove_owner_at ix h u).1 = delta_sources ix ∧
  delta_source_counts (remove_owner_at ix h u).1 = delta_source_counts ix ∧
  journal (remove_owner_at ix h u).1 = journal ix.
Proof. unfold remove_owner_at. repeat (case_match; simplify_eq; try done). Qed.

Lemma remove_owned_sources ix u owned carried :
  let ix' := (remove_input_owned ix u owned carried).1 in
  delta_sources ix' = delta_sources ix ∧ delta_source_counts ix' = delta_source_counts ix ∧ journal ix' = journal ix.
Proof.
  unfold remove_input_owned.
  match goal with |- context [foldl ?f _ _] => apply (foldl_inv f (λ p, delta_sources p.1 = delta_sources ix ∧
    delta_source_counts p.1 = delta_source_counts ix ∧ journal p.1 = journal ix)); [done|] end.
  intros [ix1 acc] h' _ (H1 & H2 & H3). cbn [fst] in *. rewrite <-H1, <-H2, <-H3. case_decide; [done|].
  destruct (remove_owner_sources ix1 h' u) as (K1 & K2 & K3). by destruct (remove_owner_at ix1 h' u) as [ix2 []].
Qed.

(** The parse and the index agree on what a segment holds. *)
Definition parsed (ix : ExtentIndex) (seg : ReapSegment) : Prop :=
  ∀ h, still_at ix h (rs_ulid seg) = true → rs_journal seg = false ∧ h ∈ rs_owned_hashes seg.

Section fold.
Context (claims : LbaMap) (ix0 : ExtentIndex).

(** What the reap has kept so far. *)
Record reap_inv (ix : ExtentIndex) (gone : list Ulid) : Prop := {
  ri_within : owners_within ix ix0;
  ri_sources : sources_ok ix;
  ri_recorded : deltas_recorded ix;
  ri_claimed : ∀ h, is_referenced claims h = true → inner ix !! h = inner ix0 !! h ∧ deltas ix !! h = deltas ix0 !! h;
  ri_options : ∀ h loc o, deltas ix !! h = Some loc → o ∈ d_options loc → inner ix !! source_hash o = inner ix0 !! source_hash o;
  ri_journal : ∀ s h, s ∉ gone → ExtentIndex.lookup_journal ix s h = ExtentIndex.lookup_journal ix0 s h
}.

(** A removed hash was owned, unclaimed and unnamed. *)
Lemma not_refused_dead ix seg h :
  parsed ix seg → reap_refused claims ix seg = false → still_at ix h (rs_ulid seg) = true →
  is_referenced claims h = false ∧ is_named_delta_source ix h = false.
Proof.
  intros Hp Hr Hs. destruct (Hp h Hs) as [Hj Hin]. unfold reap_refused in Hr. rewrite Hj in Hr. cbn [negb andb] in Hr.
  destruct (is_referenced claims h || is_named_delta_source ix h) eqn:Hl; [exfalso|by apply orb_false_iff in Hl].
  assert (existsb (λ h, still_at ix h (rs_ulid seg) && (is_referenced claims h || is_named_delta_source ix h)) (rs_owned_hashes seg) = true);
    [|congruence]. apply existsb_exists. exists h. split; [by apply list_elem_of_In|]. by rewrite Hs, Hl.
Qed.

Lemma removed_slots ix u owned h :
  let ix' := (remove_input_owned ix u owned ∅).1 in
  (inner ix' !! h = inner ix !! h ∨ still_at ix h u = true) ∧ (deltas ix' !! h = deltas ix !! h ∨ still_at ix h u = true) ∧
  (∀ loc, deltas ix' !! h = Some loc → deltas ix !! h = Some loc ∧ (h ∈ owned → d_segment_id loc ≠ u)).
Proof.
  destruct (remove_input_owned_fold u ∅ owned ix []) as (Hi & Hd & _). cbv zeta. unfold remove_input_owned.
  rewrite Hi, Hd. setoid_rewrite still_at_iff. unfold keep_inner, keep_delta, cleared. split_and!.
  - destruct (inner ix !! h) as [l|]; [|by left]. case_decide; [right; left; naive_solver|by left].
  - destruct (deltas ix !! h) as [l|]; [|by left]. case_decide; [right; right; naive_solver|by left].
  - intros loc. destruct (deltas ix !! h) as [l|]; [|done]. case_decide as Hc; [done|]. intros [= ->]. split; [done|].
    intros Hin Hu. apply Hc. split_and!; [done|set_solver|done].
Qed.

Lemma reap_step_inv ix gone seg :
  reap_inv ix gone → parsed ix0 seg → reap_refused claims ix seg = false →
  reap_inv (purge_input (remove_input_owned ix (rs_ulid seg) (rs_owned_hashes seg) ∅).1 (rs_ulid seg)) (rs_ulid seg :: gone).
Proof.
  intros [Hw Hok Hrec Hcl Hop Hj] Hp0 Hr. assert (parsed ix seg) as Hp by (intros h Hs; by apply Hp0, Hw).
  set (u := rs_ulid seg) in *. set (ix1 := (remove_input_owned ix u (rs_owned_hashes seg) ∅).1).
  destruct (purge_input_maps ix1 u) as [Hi Hd]. destruct (remove_owned_sources ix u (rs_owned_hashes seg) ∅) as (Hs1 & Hs2 & Hs3).
  fold ix1 in Hs1, Hs2, Hs3.
  assert (∀ h loc, deltas ix1 !! h = Some loc → deltas ix !! h = Some loc ∧ d_segment_id loc ≠ u) as Hdel.
  { intros h loc Hl. destruct (removed_slots ix u (rs_owned_hashes seg) h) as (_ & _ & Hk). apply Hk in Hl as [Hl Hne].
    split; [done|]. intros Hu. apply Hne; [|done]. apply (Hp h). apply still_at_iff. right. by exists loc. }
  split.
  - intros h w Hs%purge_input_within. apply Hw. by apply remove_owned_within in Hs.
  - apply purge_sources_ok. eapply sources_ok_ext; [| |exact Hok]; cbn; done.
  - intros h loc o Hl Ho. rewrite Hd in Hl. apply Hdel in Hl as [Hl Hne]. rewrite purge_input_sources, Hs1 by done. by eapply Hrec.
  - intros h Hh. rewrite Hi, Hd. destruct (removed_slots ix u (rs_owned_hashes seg) h) as (H1 & H2 & _). fold ix1 in H1, H2.
    destruct (still_at ix h u) eqn:Hat; [by destruct (not_refused_dead ix seg h Hp Hr Hat); congruence|].
    destruct (Hcl h Hh) as [<- <-]. by destruct H1, H2.
  - intros h loc o Hl Ho. rewrite Hd in Hl. apply Hdel in Hl as [Hl Hne]. rewrite Hi, <-(Hop h loc o Hl Ho).
    destruct (removed_slots ix u (rs_owned_hashes seg) (source_hash o)) as ([H1|H1] & _); [done|].
    destruct (not_refused_dead ix seg _ Hp Hr H1) as [_ Hn]. by rewrite (recorded_named ix h loc o Hok Hrec Hl Ho) in Hn.
  - intros s h [Hne Hin]%not_elem_of_cons. rewrite purge_input_journal, decide_False by done. rewrite <-(Hj s h Hin).
    unfold ExtentIndex.lookup_journal. by rewrite Hs3.
Qed.
End fold.

(** The fold keeps the invariant over every segment it takes. *)
Record fold_inv (claims : LbaMap) (ix0 : ExtentIndex) (segs : list ReapSegment) (f : ReapFold) : Prop := {
  fi_reap : reap_inv claims ix0 (rf_post f) (map rs_ulid (rf_reaped f));
  fi_removed : ∀ h, h ∈ rf_removed f → is_referenced claims h = false;
  fi_reaped : ∀ seg, seg ∈ rf_reaped f → seg ∈ segs
}.

Lemma reap_step_fold claims ix0 segs f seg :
  (∀ seg, seg ∈ segs → parsed ix0 seg) → seg ∈ segs →
  fold_inv claims ix0 segs f → fold_inv claims ix0 segs (reap_step claims f seg).
Proof.
  intros Hp Hin [Hf Hrem Hre]. pose proof (Hp seg Hin) as Hps.
  unfold reap_step. destruct (reap_refused claims (rf_post f) seg) eqn:Hr; [by split|].
  pose proof (reap_step_inv claims ix0 (rf_post f) _ seg Hf Hps Hr) as Hst.
  destruct (remove_input_owned_fold (rs_ulid seg) ∅ (rs_owned_hashes seg) (rf_post f) []) as (_ & _ & Hgone).
  fold (remove_input_owned (rf_post f) (rs_ulid seg) (rs_owned_hashes seg) ∅) in Hgone.
  destruct (remove_input_owned (rf_post f) (rs_ulid seg) (rs_owned_hashes seg) ∅) as [ix dropped].
  cbn [fst snd] in *. split; cbn [rf_post rf_removed rf_reaped].
  - rewrite map_app. cbn [map]. destruct Hst as [? ? ? ? ? Hj]. split; [done..|]. intros s h Hs. apply Hj. set_solver.
  - intros h [Hh%elem_of_list_to_set|Hh]%elem_of_union; [|by apply Hrem].
    apply Hgone in Hh as [?%elem_of_nil|(_ & _ & Ho)]; [done|].
    apply (not_refused_dead claims (rf_post f) seg h); [|done|by apply still_at_iff].
    intros h' Hs'. apply Hps. by apply (ri_within _ _ _ _ Hf).
  - intros s [?|Hl]%elem_of_app; [by apply Hre|]. apply elem_of_cons in Hl as [->|?%elem_of_nil]; done.
Qed.

(** ** The view over a reaped base *)

Lemma materialised_foldl ls :
  materialised ls = foldl fold_maps (base ls) (map fl_maps (frozen ls) ++ if delta_is_empty ls then [] else [delta ls]).
Proof.
  assert (∀ b fs, fold_frozen b fs = foldl fold_maps b (map fl_maps fs)) as Hf.
  { intros b fs. unfold fold_frozen. revert b. induction fs as [|l fs IH]; intros b; [done|]. apply IH. }
  unfold materialised. rewrite Hf, foldl_app. case_bool_decide as He; [rewrite He|]; cbn [andb map foldl];
    by destruct (delta_is_empty ls).
Qed.

(** What a reap keeps of an index, for the hashes [P] and the segments outside [gone]. *)
Record keeps (P : Hash → Prop) (gone : list Ulid) (ix ix' : ExtentIndex) : Prop := {
  k_inner : ∀ h, P h → inner ix' !! h = inner ix !! h;
  k_deltas : ∀ h, P h → deltas ix' !! h = deltas ix !! h;
  k_options : ∀ h loc o, P h → deltas ix' !! h = Some loc → o ∈ d_options loc → inner ix' !! source_hash o = inner ix !! source_hash o;
  k_journal : ∀ s h, s ∉ gone → is_Some (ExtentIndex.lookup_journal ix s h) → is_Some (ExtentIndex.lookup_journal ix' s h)
}.

Lemma fold_keeps P gone m m' layers :
  lbamap m' = lbamap m → keeps P gone (extent_index m) (extent_index m') →
  lbamap (foldl fold_maps m' layers) = lbamap (foldl fold_maps m layers) ∧
  keeps P gone (extent_index (foldl fold_maps m layers)) (extent_index (foldl fold_maps m' layers)).
Proof.
  revert m m'. induction layers as [|l layers IH]; intros m m' Hl Hk; [done|]. cbn [foldl]. apply IH; cbn; [by rewrite Hl|].
  destruct (fold_index_spec (extent_index m) (extent_index l)) as (Hi & Hd & Hj).
  destruct (fold_index_spec (extent_index m') (extent_index l)) as (Hi' & Hd' & Hj'). destruct Hk as [K1 K2 K3 K4]. split.
  - intros h Hh. by rewrite Hi, Hi', K1.
  - intros h Hh. by rewrite Hd, Hd', K2.
  - intros h loc o Hh. rewrite Hd'. intros Hloc Ho. by rewrite Hi, Hi', (K3 h loc o).
  - intros s h Hs. rewrite Hj, Hj'. intros [?|?]; [left; by apply K4|by right].
Qed.

Lemma keeps_resolves P gone ix ix' c :
  keeps P gone ix ix' → P (c_hash c) → c_claimant c ∉ gone → resolves ix c → resolves ix' c.
Proof.
  intros [K1 K2 K3 K4] Hp Hg [Hz|[Hr|Hj]]; [by left|right; left|right; right; by apply K4].
  unfold resolves_free, ExtentIndex.lookup, ExtentIndex.lookup_delta in *. rewrite K1 by done.
  destruct (inner ix !! c_hash c); [done|]. rewrite K2 by done. destruct (deltas ix !! c_hash c) as [loc|] eqn:Hl; [|done].
  apply existsb_exists in Hr as (o & Ho & Hb). apply existsb_exists. exists o. split; [done|]. rewrite (K3 (c_hash c) loc o); [done|done| |].
  - by rewrite K2.
  - by apply list_elem_of_In.
Qed.

Lemma fold_reap_inv ls segs :
  sources_ok (extent_index (base ls)) → deltas_recorded (extent_index (base ls)) →
  (∀ seg, seg ∈ segs → parsed (extent_index (base ls)) seg) →
  fold_inv (lbamap (materialised ls)) (extent_index (base ls)) segs (fold_reap ls segs).
Proof.
  intros Hso Hrec Hp. unfold fold_reap. apply (foldl_inv _ (fold_inv (lbamap (materialised ls)) (extent_index (base ls)) segs)).
  - split; cbn; [split; [by intros ? ?|done..]|by intros h ?%elem_of_empty|by intros s Hs%elem_of_nil].
  - intros f seg Hs Hf. by apply reap_step_fold.
Qed.

Lemma reaped_keeps ls segs f :
  fold_inv (lbamap (materialised ls)) (extent_index (base ls)) segs f →
  lbamap (materialised (with_base ls (reap_post ls f))) = lbamap (materialised ls) ∧
  keeps (λ h, is_referenced (lbamap (materialised ls)) h = true) (map rs_ulid (rf_reaped f))
    (extent_index (materialised ls)) (extent_index (materialised (with_base ls (reap_post ls f)))).
Proof.
  intros [[_ _ _ Hcl Hop Hj] _ _].
  pose proof (materialised_foldl (with_base ls (reap_post ls f)) : _ = foldl fold_maps (reap_post ls f)
    (map fl_maps (frozen ls) ++ if delta_is_empty ls then [] else [delta ls])) as Ha.
  pose proof (materialised_foldl ls) as Hm. rewrite Ha. rewrite Hm at 1 2. apply fold_keeps; [done|].
  cbn [reap_post extent_index]. split; [by intros h [? ?]%Hcl|by intros h [? ?]%Hcl|by intros h loc o _; apply Hop|].
  intros s h ? ?. by rewrite Hj.
Qed.

(** C18: a reap loses nothing that is claimed. Where the index records its
    deltas' sources, the parse agrees with the index on what each segment holds,
    and no block is claimed by a taken segment, the view over the reaped base
    maps every block as before, every claim that resolved still resolves, and
    no block claims a hash the reap removed. *)
Theorem reap_preserves N ls segs :
  layers_ok N ls → N < U32 →
  sources_ok (extent_index (base ls)) → deltas_recorded (extent_index (base ls)) →
  (∀ seg, seg ∈ segs → parsed (extent_index (base ls)) seg ∧
     ∀ b c, view (lbamap (materialised ls)) b = Some c → c_claimant c ≠ rs_ulid seg) →
  let f := fold_reap ls segs in
  let after := materialised (with_base ls (reap_post ls f)) in
  lbamap after = lbamap (materialised ls) ∧
  (∀ b c, view (lbamap after) b = Some c → resolves (extent_index (materialised ls)) c → resolves (extent_index after) c) ∧
  ∀ b c, view (lbamap after) b = Some c → c_hash c ∉ rf_removed f.
Proof.
  intros Hok HN Hso Hrec Hsegs. cbv zeta.
  pose proof (fold_reap_inv ls segs Hso Hrec (λ s Hs, proj1 (Hsegs s Hs))) as Hf.
  destruct (reaped_keeps ls segs _ Hf) as [Hl Hk]. rewrite Hl. pose proof (materialised_wf N ls Hok) as Hwf.
  assert (∀ b c, view (lbamap (materialised ls)) b = Some c → is_referenced (lbamap (materialised ls)) (c_hash c) = true) as Href.
  { intros b c Hc. unfold is_referenced. rewrite bool_decide_eq_true. apply (claimed_iff N); [done|done|]. by exists b, c. }
  split; [done|]. split.
  - intros b c Hc. apply (keeps_resolves _ _ _ _ c Hk); [by eapply Href|].
    intros (seg & He & Hseg)%list_elem_of_fmap. by apply (proj2 (Hsegs seg (fi_reaped _ _ _ _ Hf seg Hseg)) b c Hc).
  - intros b c Hc Hh%(fi_removed _ _ _ _ Hf). by rewrite (Href b c Hc) in Hh.
Qed.

Definition reap_sample : MapLayers :=
  mkLayers (mkMaps (lbamap base_sample) (ExtentIndex.insert (extent_index base_sample) [9] (loc1 4)))
    (frozen layers_sample) (delta layers_sample).
Definition reap_segments : list ReapSegment := [mkReapSegment 4 30 false [[9]]].

Lemma reap_preserves_witness :
  rf_removed (fold_reap reap_sample reap_segments) = {[ [9] ]} ∧
  ∀ b c, view (lbamap (materialised reap_sample)) b = Some c → c_hash c ∉ rf_removed (fold_reap reap_sample reap_segments).
Proof.
  split; [vm_compute; reflexivity|].
  assert (layers_ok 1000 reap_sample) as Hok.
  { destruct (plain_ok 1000 layers_sample layers_sample_plain) as [Hb Hf Hd]. split; [exact sample_wf|exact Hf|exact Hd]. }
  assert (map_Forall (λ _ e, claimant_ulid e ≠ 4) (LbaMap.inner (lbamap (materialised reap_sample)))) as Hcl
    by (apply (bool_decide_unpack _); vm_compute; reflexivity).
  assert (deltas (extent_index (base reap_sample)) = ∅) as Hd by (vm_compute; reflexivity).
  assert (map_Forall (λ h l, segment_id l = 4 → h = [9]) (inner (extent_index (base reap_sample)))) as Hix
    by (apply (bool_decide_unpack _); vm_compute; reflexivity).
  destruct (reap_preserves 1000 reap_sample reap_segments) as (Hl & _ & H); [exact Hok|reflexivity| | | |rewrite Hl in H; exact H].
  - apply (sources_ok_ext ei_new); [reflexivity|reflexivity|]. split; [vm_compute; reflexivity|].
    intros x. simpl. rewrite lookup_empty. unfold source_occ. by rewrite msum_empty.
  - intros h loc o Hh. exfalso. rewrite Hd, lookup_empty in Hh. discriminate.
  - intros seg Hs%list_elem_of_singleton. rewrite Hs. split.
    + intros h [(l & Hh & Hu)|(l & Hh & _)]%still_at_iff; [|exfalso; rewrite Hd, lookup_empty in Hh; discriminate].
      split; [reflexivity|]. rewrite (Hix h l Hh Hu). by left.
    + intros b c Hc. apply (view_Some 1000) in Hc as (k & e & He & _ & ->); [|by apply materialised_wf]. exact (Hcl k e He).
Defined.
