(* ===== verification/Reclaim.v ===== *)
(** * Extent reclamation (elide-core/src/volume/reclaim.rs, actor.rs)

    A hash whose stored body has more blocks than the map still reads of it is
    bloated. The scan finds such hashes, the worker writes the live runs of one
    range as fresh compact entries, and the fold claims the runs at the output's
    ULID where nothing newer holds them. *)

From Stdlib Require Import Floats.SpecFloat.
From stdpp Require Import base gmap list strings.
From S2P Require Import Prelude Bytes Text Segment UlidMint ChunkTree Codec SegmentCodec LbaMap ExtentIndex MapLayers Volume Promote Locate ReadPath Materialise FileCache FoldApply RepackPass.
Open Scope Z_scope.

(** ** The scan *)

(** [u64 as f64], and the IEEE-754 binary64 quotient and order. *)
Definition f64_of (n : Z) : spec_float := binary_normalize 53 1024 n 0 false.
Definition f64_div (a b : spec_float) : spec_float := SFdiv 53 1024 a b.
Definition f64_lt (a b : spec_float) : bool := SFltb a b.

Record ReclaimThresholds := mkThresholds { min_dead_blocks : Z; min_dead_ratio : spec_float; min_stored_bytes : Z }.

(** 0.3 is its nearest double. *)
Definition thresholds_default : ReclaimThresholds :=
  mkThresholds 8 (S754_finite false 5404319552844595 (-54)) (64 * 1024).

Record ReclaimCandidate := mkReclaimCandidate {
  cn_start_lba : Z; cn_lba_length : Z; cn_dead_blocks : Z; cn_live_blocks : Z; cn_stored_bytes : Z; cn_lower_bound : bool
}.

Record HashAgg := mkHashAgg { min_lba : Z; max_lba_end : Z; live_blocks : Z; max_offset_end : Z }.

Definition agg_step (acc : gmap Hash HashAgg) (entry : Z * Z * Hash * Z) : gmap Hash HashAgg :=
  let '(lba, length, h, offset) := entry in
  if decide (h = ZERO_HASH) then acc
  else
    let lba_end := u64_add lba length in
    let offset_end := u64_add offset length in
    <[h := match acc !! h with
           | Some a => mkHashAgg (if decide (lba < min_lba a) then lba else min_lba a)
                         (if decide (max_lba_end a < lba_end) then lba_end else max_lba_end a)
                         (u64_add (live_blocks a) length)
                         (if decide (max_offset_end a < offset_end) then offset_end else max_offset_end a)
           | None => mkHashAgg lba lba_end length offset_end
           end]> acc.

Definition iter_entries (m : LbaMap) : list (Z * Z * Hash * Z) :=
  map (λ '(lba, len, h, offset, _), (lba, len, h, offset)) (iter_entries_with_claimant m).

Definition per_hash (lm : LbaMap) : gmap Hash HashAgg := foldl agg_step ∅ (iter_entries lm).

(** The payload's blocks, whether they are a lower bound, the bytes stored; an
    inline body, one that is not committed and a hash of no tier are skipped. *)
Definition payload_size (ix : ExtentIndex) (h : Hash) (a : HashAgg) : option (Z * bool * Z) :=
  match ExtentIndex.lookup ix h with
  | Some loc =>
      if decide (is_Some (inline_data loc)) then None
      else match home (body_source loc) with
           | LocalFile => None
           | Cache =>
               match codec loc with
               | CodecNone => Some (body_length loc / 4096, false, body_length loc)
               | _ => Some (max_offset_end a, true, body_length loc)
               end
           end
  | None =>
      match ExtentIndex.lookup_delta ix h with
      | Some d => match d_body_source d with
                  | DeltaCached => Some (max_offset_end a, true, (max_offset_end a * 4096) mod U64)
                  | Full _ _ => None
                  end
      | None => None
      end
  end.

Definition candidate_for (ix : ExtentIndex) (t : ReclaimThresholds) (h : Hash) (a : HashAgg) : option ReclaimCandidate :=
  '(logical, lower, stored) ← payload_size ix h a;
  if decide (logical < live_blocks a) then None
  else
    let dead := u64_sub logical (live_blocks a) in
    if decide (dead < min_dead_blocks t) then None
    else if decide (stored < min_stored_bytes t) then None
    else if f64_lt (f64_div (f64_of dead) (f64_of logical)) (min_dead_ratio t) then None
    else
      let lba_length := u64_sub (max_lba_end a) (min_lba a) in
      if decide (U32 - 1 < lba_length) then None
      else Some (mkReclaimCandidate (min_lba a) lba_length (Z.min dead (U32 - 1)) (Z.min (live_blocks a) (U32 - 1)) stored lower).

(** The order among equals is unspecified, as the map's iteration is. *)
Definition scan_reclaim_candidates (lm : LbaMap) (ix : ExtentIndex) (t : ReclaimThresholds) : list ReclaimCandidate :=
  sort_by_key (λ c, - cn_dead_blocks c) (omap (λ '(h, a), candidate_for ix t h a) (map_to_list (per_hash lm))).

(** ** The job *)

Record ReclaimJob := mkReclaimJob {
  rj_target_start_lba : Z;
  rj_target_lba_length : Z;
  rj_entries : list ExtentRead;
  rj_maps : MapLayers;
  rj_search_dirs : list DirRef;
  rj_segment_ulid : Ulid;
  rj_snapshot_floor_ulid : option Ulid
}.

Record ReclaimPrep := mkReclaimPrep { rp_flush : option PromoteJob; rp_job : ReclaimJob }.

(** Each directory once, the fork's first. *)
Definition search_dirs (base_dir : DirRef) (ancestors : list DirRef) : list DirRef :=
  foldl (λ dirs d, if decide (d ∈ dirs) then dirs else dirs ++ [d]) [base_dir] ancestors.

Section prep.
Context {HU : UlidParts}.

(** An empty WAL is removed, any other becomes a job. *)
Definition rotate_wal_into_promote (v : Volume) (segment_ulid : Ulid) (removed : io unit) (te : TakeEnv)
    : io (Volume * option PromoteJob) :=
  if bool_decide (pending v = []) then
    match wal v with
    | Some _ =>
        _ ← removed;
        Ok (mkVolume (maps v) (journal v) (journal_derived v) None (rotated_wals v) (pending v) (mint v)
              (skipped_writes v) (skipped_bytes v), None)
    | None => Ok (v, None)
    end
  else
    '(v, job) ← take_wal_into_promote_job v segment_ulid te; Ok (v, Some job).

Record ReclaimPrepEnv := mkReclaimPrepEnv {
  rq_flush_candidate : Ulid; rq_removed : io unit; rq_take : TakeEnv; rq_segment_candidate : Ulid; rq_floor : io (option Ulid);
  rq_base_dir : DirRef; rq_ancestors : list DirRef
}.

(** What the rotated WAL still claims is left to the next pass. *)
Definition prepare_reclaim (v : Volume) (start_lba lba_length : Z) (env : ReclaimPrepEnv) : io (Volume * ReclaimPrep) :=
  let '(m, u_flush) := next (mint v) (rq_flush_candidate env) in
  '(v, flush) ← rotate_wal_into_promote (set_mint m v) u_flush (rq_removed env) (rq_take env);
  let rotated_wal := (λ f, pj_old_wal_ulid f) <$> flush in
  let entries := filter (λ e, Some (er_claimant e) ≠ rotated_wal)
                   (MapLayers.extents_in_range (maps v) start_lba (u64_add start_lba lba_length)) in
  let '(m, segment_ulid) := next (mint v) (rq_segment_candidate env) in
  let v := set_mint m v in
  floor ← rq_floor env;
  Ok (v, mkReclaimPrep flush
           (mkReclaimJob start_lba lba_length entries (maps v) (search_dirs (rq_base_dir env) (rq_ancestors env))
              segment_ulid floor)).
End prep.

(** ** The worker *)

(** [zstd::bulk::Compressor::with_dictionary] at [ZSTD_LEVEL]. *)
Class ZstdDictEncode `{HD : ZstdDict} := {
  zstd_dict_compress : list Z → list Z → io (list Z);
  zstd_dict_roundtrip : ∀ dict bs blob cap,
    zstd_dict_compress dict bs = Ok blob → blen bs ≤ cap → zstd_dict_decompress dict blob cap = Ok bs
}.

Inductive ReclaimBody :=
  | RcData (body : list Z)
  | RcDelta (source_hash : Hash) (source_plain fragment : list Z)
  | RcSkip.

Record ReclaimedEntry := mkReclaimedEntry { re_entry : SegmentEntry; re_uncompressed_bytes : Z }.

Record ReclaimResult := mkReclaimResult {
  rs_segment_ulid : Ulid;
  rs_body_section_start : Z;
  rs_body_length : Z;
  rs_entries : list ReclaimedEntry;
  rs_segment_written : bool
}.

(** What the worker meets on disk. *)
Record ReclaimEnv := mkReclaimEnv {
  rw_fs : FsView;
  rw_open : Path → io (list Z);
  rw_open_delta : DirRef → Ulid → io (list Z);
  rw_committed : io unit;
  rw_sketch : bool
}.

(** The worker's buffers: the entries, their plain sizes, the delta body, the
    bodies resolved. *)
Record RcState := mkRcState {
  rc_entries : list PendingEntry;
  rc_uncompressed : list Z;
  rc_delta_body : list Z;
  rc_bodies : gmap Hash ReclaimBody
}.

(** Every run of the hash lies in the target, and its body has a dead block. *)
Definition should_rewrite (m : Maps) (target_start target_end : Z) (h : Hash) : bool :=
  let runs := runs_for_hash (lbamap m) h in
  let contained := forallb (λ '(lba, length, _), bool_decide (target_start ≤ lba ∧ u64_add lba length ≤ target_end)) runs in
  let live := foldl (λ acc '(_, len, _), u64_add acc len) 0 runs in
  let max_end := foldl (λ acc '(_, len, off), Z.max acc (u64_add off len)) 0 runs in
  let logical := match ExtentIndex.lookup (extent_index m) h with
                 | Some loc => if decide (inline_data loc = None ∧ codec loc = CodecNone) then body_length loc / 4096 else max_end
                 | None => max_end
                 end in
  contained && bool_decide (live < logical).

Section worker.
Context {HB : Blake3} {HL : Lz4Block} {HC : Lz4Codec} {HT : Blake3Tree} {HZ : ZstdBulk} {HD : ZstdDict} {HE : ZstdDictEncode}.
Context {HS : Signer} {HU : UlidBytes}.
Variable env : ReclaimEnv.

(** The body as the file holds it: no presence bit is asked, no hash checked. *)
Definition read_full_extent_body (loc : ExtentLocation) (dirs : list DirRef) : io (list Z) :=
  match inline_data loc with
  | Some idata => decode (codec loc) idata
  | None =>
      match find_map (λ d, locate_segment_body_from (rw_fs env) d (segment_id loc) (home (body_source loc))) dirs with
      | None => Err OtherError
      | Some (path, layout) =>
          file ← rw_open env path;
          buf ← read_exact_at file (body_seek layout loc) (body_length loc);
          decode (codec loc) buf
      end
  end.

Definition read_delta_blob (loc : DeltaLocation) (o : DeltaOption) (dirs : list DirRef) : io (option (list Z)) :=
  match d_body_source loc with
  | Full bss len =>
      match find_map (λ d, locate_segment_body (rw_fs env) d (d_segment_id loc)) dirs with
      | None => Ok None
      | Some (path, _) =>
          file ← rw_open env path;
          buf ← read_exact_at file (u64_add (u64_add bss len) (delta_offset o)) (delta_length o); Ok (Some buf)
      end
  | DeltaCached =>
      match List.find (λ d, delta_exists (rw_fs env) d (d_segment_id loc)) dirs with
      | None => Ok None
      | Some d =>
          file ← rw_open_delta env d (d_segment_id loc);
          buf ← read_exact_at file (delta_offset o) (delta_length o); Ok (Some buf)
      end
  end.

(** The first option whose source and blob are both here; its fragment must hash
    to the entry's. *)
Fixpoint first_option (ix : ExtentIndex) (dirs : list DirRef) (h : Hash) (loc : DeltaLocation) (options : list DeltaOption)
    : io ReclaimBody :=
  match options with
  | [] => Ok RcSkip
  | o :: options =>
      match ExtentIndex.lookup ix (source_hash o) with
      | None => first_option ix dirs h loc options
      | Some source_loc =>
          source_plain ← read_full_extent_body source_loc dirs;
          blob ← read_delta_blob loc o dirs;
          match blob with
          | None => first_option ix dirs h loc options
          | Some blob =>
              fragment ← apply_delta source_plain blob;
              if decide (blake3 fragment = h) then Ok (RcDelta (source_hash o) source_plain fragment) else Err OtherError
          end
      end
  end.

Definition read_reclaim_extent_body (ix : ExtentIndex) (dirs : list DirRef) (h : Hash) : io ReclaimBody :=
  match ExtentIndex.lookup ix h with
  | Some loc => body ← read_full_extent_body loc dirs; Ok (RcData body)
  | None =>
      match ExtentIndex.lookup_delta ix h with
      | Some loc => first_option ix dirs h loc (d_options loc)
      | None => Err OtherError
      end
  end.

(** [source] keeps its body whatever this pass does. *)
Definition source_pinned (ix : ExtentIndex) (floor : option Ulid) (pins : gset Hash) (source : Hash) : bool :=
  match floor, ExtentIndex.lookup ix source with
  | Some floor, Some loc => bool_decide (segment_id loc ≤ floor)
  | _, _ => false
  end || bool_decide (source ∈ pins).

Definition push (p : PendingEntry) (blob : list Z) (plain : list Z) (s : RcState) : RcState :=
  mkRcState (rc_entries s ++ [p]) (rc_uncompressed s ++ [blen plain]) (rc_delta_body s ++ blob) (rc_bodies s).

Definition thin_delta (s : RcState) (new_hash : Hash) (start len : Z) (source : Hash) (blob : list Z) : PendingEntry :=
  from_entry (new_delta new_hash start len
                [mkDeltaOption source (blen (rc_delta_body s)) (as_u32 (blen blob)) (stored_hash blob)]).

(** One live run of a plain body: a reference where its hash is owned, a delta
    where its source stays and the delta is smaller, its own body else. *)
Definition emit_data (ix : ExtentIndex) (job : ReclaimJob) (pins : gset Hash) (er : ExtentRead) (body bytes : list Z)
    (s : RcState) : io RcState :=
  let len := as_u32 (u64_sub (range_end er) (range_start er)) in
  let new_hash := blake3 bytes in
  if decide (is_Some (ExtentIndex.lookup ix new_hash))
  then Ok (push (from_entry (new_dedup_ref new_hash (range_start er) len)) [] bytes s)
  else
    thin ← (if source_pinned ix (rj_snapshot_floor_ulid job) pins (er_hash er) then
              blob ← zstd_dict_compress body bytes;
              Ok (if decide (blen blob < blen bytes) then Some blob else None)
            else Ok None);
    match thin with
    | Some blob => Ok (push (thin_delta s new_hash (range_start er) len (er_hash er) blob) blob bytes s)
    | None =>
        form ← compress_body bytes false;
        let '(c, stored) := default (CodecNone, bytes) form in
        Ok (push (new_data new_hash (range_start er) len c stored) [] bytes s)
    end.

(** One live run of a delta body, against the same source; a delta that is no
    smaller is not worth it. *)
Definition emit_delta (ix : ExtentIndex) (er : ExtentRead) (source : Hash) (source_plain bytes : list Z) (s : RcState)
    : io RcState :=
  let len := as_u32 (u64_sub (range_end er) (range_start er)) in
  let new_hash := blake3 bytes in
  if decide (is_Some (ExtentIndex.lookup ix new_hash))
  then Ok (push (from_entry (new_dedup_ref new_hash (range_start er) len)) [] bytes s)
  else
    blob ← zstd_dict_compress source_plain bytes;
    if decide (blen bytes ≤ blen blob) then Ok s
    else Ok (push (thin_delta s new_hash (range_start er) len source blob) blob bytes s).

Definition resolve_body (ix : ExtentIndex) (dirs : list DirRef) (h : Hash) (s : RcState) : io (ReclaimBody * RcState) :=
  match rc_bodies s !! h with
  | Some b => Ok (b, s)
  | None =>
      b ← read_reclaim_extent_body ix dirs h;
      Ok (b, mkRcState (rc_entries s) (rc_uncompressed s) (rc_delta_body s) (<[h := b]> (rc_bodies s)))
  end.

(** The run's bytes of a body; a body that ends short of them is an error. *)
Definition run_bytes (er : ExtentRead) (body : list Z) : io (list Z) :=
  let start := er_payload_block_offset er * 4096 in
  let end_ := start + as_u32 (u64_sub (range_end er) (range_start er)) * 4096 in
  if decide (blen body < end_) then Err OtherError else Ok (bytes_in body (start, end_)).

Definition reclaim_run (m : Maps) (job : ReclaimJob) (pins : gset Hash) (er : ExtentRead) (s : RcState) : io RcState :=
  let ix := extent_index m in
  let target_end := u64_add (rj_target_start_lba job) (rj_target_lba_length job) in
  if decide (er_hash er = ZERO_HASH) then Ok s
  else if negb (should_rewrite m (rj_target_start_lba job) target_end (er_hash er)) then Ok s
  else
    '(resolved, s) ← resolve_body ix (rj_search_dirs job) (er_hash er) s;
    match resolved with
    | RcSkip => Ok s
    | RcData body => bytes ← run_bytes er body; emit_data ix job pins er body bytes s
    | RcDelta source source_plain fragment => bytes ← run_bytes er fragment; emit_delta ix er source source_plain bytes s
    end.

Fixpoint reclaim_runs (m : Maps) (job : ReclaimJob) (pins : gset Hash) (ers : list ExtentRead) (s : RcState) : io RcState :=
  match ers with
  | [] => Ok s
  | er :: ers => s ← reclaim_run m job pins er s; reclaim_runs m job pins ers s
  end.

(** The result and the file committed, if one was. *)
Definition execute_reclaim (job : ReclaimJob) : io (ReclaimResult * option (list Z)) :=
  let m := materialised (rj_maps job) in
  s ← reclaim_runs m job (named_delta_sources (extent_index m)) (rj_entries job) (mkRcState [] [] [] ∅);
  if bool_decide (rc_entries s = []) then Ok (mkReclaimResult (rj_segment_ulid job) 0 0 [] false, None)
  else
    '(file, bss, entries) ← write_segment_full decode (rc_entries s) (rc_delta_body s) [] (rw_sketch env);
    _ ← rw_committed env;
    Ok (mkReclaimResult (rj_segment_ulid job) bss (body_bytes (filter (λ e, is_data (e_kind e) = true) entries))
          (zip_with mkReclaimedEntry entries (rc_uncompressed s)) true, Some file).
End worker.

(** ** The fold *)

Record ReclaimOutcome := mkReclaimOutcome { ro_discarded : bool; ro_runs_rewritten : Z; ro_runs_refused : Z; ro_bytes_rewritten : Z }.
Definition outcome_default : ReclaimOutcome := mkReclaimOutcome false 0 0 0.

Inductive ReclaimFold := NoSwap (o : ReclaimOutcome) | ReclaimLanded (new_base : Maps) (o : ReclaimOutcome).

(** A run nothing older admits leaves the index alone. *)
Fixpoint reclaim_apply (u : Ulid) (ctx : SegmentRegistrationCtx) (raw_idx : Z) (entries : list SegmentEntry) (m : Maps) : io Maps :=
  match entries with
  | [] => Ok m
  | e :: entries =>
      let '(lm, took) := LbaMap.register_entry_if_newer (lbamap m) e u in
      m ← (if decide (took = 0) then Ok (mkMaps lm (extent_index m))
           else ix ← ExtentIndex.register_entry_consuming_inputs (extent_index m) e (as_u32 raw_idx) ctx ∅; Ok (mkMaps lm ix));
      reclaim_apply u ctx (raw_idx + 1) entries m
  end.

(** The run's blocks that resolve to the output under the layers above it. *)
Definition landed_blocks (view : MapLayers) (u : Ulid) (e : SegmentEntry) : Z :=
  foldl (λ acc x, u64_add acc (u64_sub (range_end x) (range_start x))) 0
    (filter (λ x, er_claimant x = u)
       (MapLayers.extents_in_range view (e_start_lba e) (u64_add (e_start_lba e) (e_lba_length e)))).

Definition count_run (view : MapLayers) (u : Ulid) (o : ReclaimOutcome) (re : ReclaimedEntry) : ReclaimOutcome :=
  let blocks := landed_blocks view u (re_entry re) in
  if decide (blocks = 0)
  then mkReclaimOutcome (ro_discarded o) (ro_runs_rewritten o) (u32_add (ro_runs_refused o) 1) (ro_bytes_rewritten o)
  else mkReclaimOutcome (ro_discarded o) (u32_add (ro_runs_rewritten o) 1) (ro_runs_refused o)
         (u64_add (ro_bytes_rewritten o) ((re_uncompressed_bytes re * blocks) mod U64 / e_lba_length (re_entry re))).

Definition fold_reclaim_result (ls : MapLayers) (result : ReclaimResult) : io (ReclaimFold * list FsOp) :=
  let u := rs_segment_ulid result in
  if negb (rs_segment_written result) then Ok (NoSwap outcome_default, [])
  else
    let bss := rs_body_section_start result in
    let ctx := mkCtx u bss TierLocal (Some (Full bss (rs_body_length result))) EntryInline in
    new_base ← fold_below ls u (reclaim_apply u ctx 0 (map re_entry (rs_entries result)));
    let outcome := foldl (count_run (above ls u new_base) u) outcome_default (rs_entries result) in
    if decide (ro_runs_rewritten outcome = 0) then
      Ok (NoSwap (mkReclaimOutcome true (ro_runs_rewritten outcome) (ro_runs_refused outcome) (ro_bytes_rewritten outcome)),
          [RemoveOutput u])
    else Ok (ReclaimLanded new_base outcome, []).

Definition swap_reclaim (v : Segments) (result : ReclaimResult) (new_base : Maps) : Segments :=
  let u := rs_segment_ulid result in
  mkSegments (swap_below (sg_maps v) new_base u) (own_segments v) (Some u) true (pending_journal v) (sg_file_cache v).

Definition apply_reclaim_result (v : Segments) (result : ReclaimResult) : io (Segments * ReclaimOutcome * list FsOp) :=
  '(fold, ops) ← fold_reclaim_result (sg_maps v) result;
  match fold with
  | NoSwap o => Ok (v, o, ops)
  | ReclaimLanded new_base o => Ok (swap_reclaim v result new_base, o, ops)
  end.
