(* ===== verification/ReclaimSpec.v ===== *)
(** * Reclamation writes what the map reads, and claims no more than it may *)

From stdpp Require Import base gmap list strings.
From S2P Require Import Prelude Bytes Text Segment UlidMint ChunkTree Codec CodecSpec SegmentCodec LbaMap LbaMapFacts LbaMapSpec ExtentIndex ExtentIndexSpec MapLayers MapLayersSpec Volume Promote PromoteSpec Rebuild RebuildSpec Locate ReadPath ReadPathSpec RewritePlan Materialise MaterialiseSpec FileCache LbaRanges LbaRangesSpec FoldApply FoldApplySpec RepackFoldSpec RepackPass Reclaim.
Open Scope Z_scope.

(** ** The worker's entries *)

Definition run_ok (er : ExtentRead) : Prop :=
  0 ≤ range_start er < range_end er ∧ range_end er < U64 ∧ 0 ≤ er_payload_block_offset er ∧
  (range_end er - range_start er) * 4096 ≤ MAX_EXTENT_PLAINTEXT.

Definition run_len (er : ExtentRead) : Z := range_end er - range_start er.
Definition run_slice (er : ExtentRead) (body : list Z) : list Z :=
  bytes_in body (er_payload_block_offset er * 4096, er_payload_block_offset er * 4096 + run_len er * 4096).

Lemma run_len_u32 er : run_ok er → as_u32 (u64_sub (range_end er) (range_start er)) = run_len er.
Proof. unfold run_ok, run_len, MAX_EXTENT_PLAINTEXT. intros. rewrite u64_sub_id, as_u32_id by lia. done. Qed.

Section worker.
Context {HB : Blake3} {HL : Lz4Block} {HC : Lz4Codec} {HT : Blake3Tree} {HZ : ZstdBulk} {HD : ZstdDict} {HE : ZstdDictEncode}.
Context {HS : Signer} {HU : UlidBytes}.
Variable env : ReclaimEnv.
Variable job : ReclaimJob.
Let m := materialised (rj_maps job).
Let ix := extent_index m.

(** The bytes on disk are the ones the index's hashes name. *)
Definition intact : Prop :=
  ∀ h loc body, ExtentIndex.lookup ix h = Some loc → read_full_extent_body env loc (rj_search_dirs job) = Ok body → blake3 body = h.

Definition body_ok (h : Hash) (b : ReclaimBody) : Prop :=
  match b with
  | RcData body => blake3 body = h
  | RcDelta source plain fragment => blake3 fragment = h ∧ blake3 plain = source
  | RcSkip => True
  end.

(** Where an entry's bytes come from. *)
Definition carries (delta_body : list Z) (p : PendingEntry) (bytes : list Z) : Prop :=
  let e := pe_entry p in
  match e_kind e with
  | Data => ∃ stored, pe_body p = Some stored ∧ decode (e_codec e) stored = Ok bytes
  | Inline => ∃ stored, e_inline e = Some stored ∧ decode (e_codec e) stored = Ok bytes
  | DedupRef => is_Some (ExtentIndex.lookup ix (e_hash e))
  | Delta => ∃ o source pre blob post, e_delta_options e = [o] ∧ blake3 source = source_hash o ∧
      delta_body = pre ++ blob ++ post ∧ delta_offset o = blen pre ∧ delta_length o = blen blob ∧
      delta_hash o = stored_hash blob ∧ apply_delta source blob = Ok bytes
  | _ => False
  end.

(** [p] is the run [er] of a body the map reads there. *)
Definition made (delta_body : list Z) (er : ExtentRead) (p : PendingEntry) (n : Z) : Prop :=
  let e := pe_entry p in
  ∃ body, blake3 body = er_hash er ∧ blen (run_slice er body) = run_len er * 4096 ∧
    row_of e = (range_start er, run_len er, blake3 (run_slice er body), e_kind e, false) ∧
    n = run_len er * 4096 ∧ carries delta_body p (run_slice er body).

Lemma carries_app db x p bytes : carries db p bytes → carries (db ++ x) p bytes.
Proof.
  unfold carries. destruct (e_kind (pe_entry p)); try done.
  intros (o & source & pre & blob & post & H1 & H2 & -> & H). exists o, source, pre, blob, (post ++ x).
  rewrite <-!app_assoc. done.
Qed.

Definition taken (er : ExtentRead) : Prop :=
  er ∈ rj_entries job ∧ er_hash er ≠ ZERO_HASH ∧
  should_rewrite m (rj_target_start_lba job) (u64_add (rj_target_start_lba job) (rj_target_lba_length job)) (er_hash er) = true.

Record rc_inv (s : RcState) : Prop := {
  rc_made : Forall2 (λ p n, ∃ er, taken er ∧ made (rc_delta_body s) er p n) (rc_entries s) (rc_uncompressed s);
  rc_cache : ∀ h b, rc_bodies s !! h = Some b → body_ok h b
}.

Lemma push_inv s p blob bytes er :
  rc_inv s → taken er → made (rc_delta_body s ++ blob) er p (blen bytes) → rc_inv (push p blob bytes s).
Proof.
  intros [Hm Hc] Ht Hp. split; [|done]. cbn [push rc_entries rc_uncompressed rc_delta_body]. apply Forall2_app.
  - eapply Forall2_impl; [exact Hm|]. intros q n (er' & ? & body & ? & ? & ? & ? & ?). exists er'. split; [done|].
    exists body. split_and!; [done..|]. by apply carries_app.
  - constructor; [|done]. by exists er.
Qed.

Lemma first_option_ok h loc options b :
  intact → first_option env ix (rj_search_dirs job) h loc options = Ok b → body_ok h b.
Proof.
  intros Hi. induction options as [|o options IH]; cbn [first_option]; [by intros [= <-]|].
  destruct (ExtentIndex.lookup ix (source_hash o)) as [sl|] eqn:Hl; [|done].
  intros (plain & Hp & H)%io_bind_Ok. apply io_bind_Ok in H as ([blob|] & _ & H); [|by apply IH].
  apply io_bind_Ok in H as (fragment & _ & H). case_decide; [|done]. injection H as <-. split; [done|]. by eapply Hi.
Qed.

Lemma resolve_body_ok h s b s' :
  intact → rc_inv s → resolve_body env ix (rj_search_dirs job) h s = Ok (b, s') →
  body_ok h b ∧ rc_inv s' ∧ rc_delta_body s' = rc_delta_body s.
Proof.
  intros Hi [Hm Hc] H. unfold resolve_body in H. destruct (rc_bodies s !! h) as [b'|] eqn:Hb.
  { injection H as <- <-. split; [by apply Hc|done]. }
  apply io_bind_Ok in H as (b' & Hr & [= <- <-]).
  assert (body_ok h b') as Hok.
  { unfold read_reclaim_extent_body in Hr. destruct (ExtentIndex.lookup ix h) eqn:Hl.
    - apply io_bind_Ok in Hr as (body & Hbody & [= <-]). by eapply Hi.
    - destruct (ExtentIndex.lookup_delta ix h); [|done]. by eapply first_option_ok. }
  split_and!; [done| |done]. split; [done|]. cbn [rc_bodies]. intros h' b'' [[<- <-]|[_ ?]]%lookup_insert_Some; [done|by apply Hc].
Qed.

Lemma run_bytes_ok er body bytes :
  run_ok er → run_bytes er body = Ok bytes → bytes = run_slice er body ∧ blen bytes = run_len er * 4096.
Proof.
  intros Hr. unfold run_bytes. rewrite run_len_u32 by done. case_decide as Hd; [done|]. intros [= <-]. split; [done|].
  unfold bytes_in, blen in *. cbn [fst snd]. rewrite length_take, length_drop. unfold run_ok, run_len in *. lia.
Qed.

Lemma thin_made s er source blob bytes body :
  run_ok er → taken er → blake3 body = er_hash er → bytes = run_slice er body → blen bytes = run_len er * 4096 →
  (∃ plain, blake3 plain = source ∧ zstd_dict_compress plain bytes = Ok blob) → blen blob < blen bytes →
  made (rc_delta_body s ++ blob) er (thin_delta s (blake3 bytes) (range_start er) (run_len er) source blob) (blen bytes).
Proof.
  intros Hr _ Hb -> Hl (plain & Hp & Hz) Hlt. exists body. split_and!; [done|done|done|done|].
  unfold carries. cbn. exists (mkDeltaOption source (blen (rc_delta_body s)) (as_u32 (blen blob)) (stored_hash blob)), plain, (rc_delta_body s), blob, [].
  cbn. rewrite app_nil_r. destruct Hr as (_ & _ & _ & Hmax). pose proof (blen_nonneg blob). unfold MAX_EXTENT_PLAINTEXT in *. fold (run_len er) in Hmax.
  split_and!; [done..| |done|]; [apply as_u32_id; lia|].
  eapply zstd_dict_roundtrip; [exact Hz|]. unfold DELTA_DECOMPRESS_CAP, MAX_EXTENT_PLAINTEXT. lia.
Qed.

Lemma dedup_made db er bytes body :
  blake3 body = er_hash er → bytes = run_slice er body → blen bytes = run_len er * 4096 →
  is_Some (ExtentIndex.lookup ix (blake3 bytes)) →
  made db er (from_entry (new_dedup_ref (blake3 bytes) (range_start er) (run_len er))) (blen bytes).
Proof. intros Hb -> Hl Hs. exists body. by split_and!. Qed.

Lemma data_made db er bytes body form :
  run_ok er → blake3 body = er_hash er → bytes = run_slice er body → blen bytes = run_len er * 4096 →
  compress_body bytes false = Ok form →
  let '(c, stored) := default (CodecNone, bytes) form in
  made db er (new_data (blake3 bytes) (range_start er) (run_len er) c stored) (blen bytes).
Proof.
  intros Hr Hb -> Hl Hform. destruct Hr as ((? & ?) & _ & _ & Hmax). fold (run_len er) in Hmax.
  assert (∀ c stored, default (CodecNone, run_slice er body) form = (c, stored) → decode c stored = Ok (run_slice er body)) as Hdec.
  { intros c stored. destruct form as [[c' st']|]; cbn; intros [= <- <-]; [|done].
    eapply compress_body_decodes; [|exact Hform]. unfold run_len in *. lia. }
  destruct (default _ form) as [c stored]. specialize (Hdec c stored eq_refl). exists body. unfold new_data, carries.
  destruct (would_be_inline _); split_and!; cbn; try done; by exists stored.
Qed.

Lemma emit_data_inv pins er body bytes s s' :
  rc_inv s → taken er → run_ok er → blake3 body = er_hash er → bytes = run_slice er body → blen bytes = run_len er * 4096 →
  emit_data ix job pins er body bytes s = Ok s' → rc_inv s'.
Proof.
  intros Hs Ht Hr Hb Hby Hl. unfold emit_data. rewrite run_len_u32 by done. case_decide as Hd.
  { intros [= <-]. eapply push_inv; [done|done|]. by eapply dedup_made. }
  intros (thin & Hthin & H)%io_bind_Ok.
  assert (∀ blob, thin = Some blob → zstd_dict_compress body bytes = Ok blob ∧ blen blob < blen bytes) as Hz.
  { intros blob ->. destruct (source_pinned _ _ _ _); [|done]. apply io_bind_Ok in Hthin as (b & Hz & Hthin).
    case_decide; [|done]. by injection Hthin as <-. }
  destruct thin as [blob|].
  - injection H as <-. destruct (Hz blob eq_refl) as [Hz' Hlt]. eapply push_inv; [done|done|].
    eapply thin_made; [done|done|exact Hb|done|done| |done]. by exists body.
  - apply io_bind_Ok in H as (form & Hform & H).
    pose proof (data_made (rc_delta_body s ++ []) er bytes body form Hr Hb Hby Hl Hform) as Hd'.
    destruct (default _ form) as [c stored]. injection H as <-. by eapply push_inv.
Qed.

Lemma emit_delta_inv er source plain fragment bytes s s' :
  rc_inv s → taken er → run_ok er → blake3 fragment = er_hash er → blake3 plain = source →
  bytes = run_slice er fragment → blen bytes = run_len er * 4096 →
  emit_delta ix er source plain bytes s = Ok s' → rc_inv s'.
Proof.
  intros Hs Ht Hr Hb Hp Hby Hl. unfold emit_delta. rewrite run_len_u32 by done. case_decide as Hd.
  { intros [= <-]. eapply push_inv; [done|done|]. by eapply dedup_made. }
  intros (blob & Hz & H)%io_bind_Ok. case_decide; [by injection H as <-|]. injection H as <-.
  eapply push_inv; [done|done|]. eapply thin_made; [done|done|exact Hb|done|done| |lia]. by exists plain.
Qed.

Lemma reclaim_run_inv pins er s s' :
  intact → er ∈ rj_entries job → run_ok er → rc_inv s → reclaim_run env m job pins er s = Ok s' → rc_inv s'.
Proof.
  intros Hi Hin Hr Hs. unfold reclaim_run. case_decide as Hz; [by intros [= <-]|].
  destruct (should_rewrite _ _ _ _) eqn:Hsr; cbn [negb]; [|by intros [= <-]].
  assert (taken er) as Ht by by split_and!.
  intros ([b s1] & Hres & H)%io_bind_Ok. destruct (resolve_body_ok _ _ _ _ Hi Hs Hres) as (Hb & Hs1 & _).
  destruct b as [body|source plain fragment|]; [| |by injection H as <-].
  - apply io_bind_Ok in H as (bytes & Hby & H). destruct (run_bytes_ok _ _ _ Hr Hby) as [Hsl Hl]. by eapply emit_data_inv.
  - apply io_bind_Ok in H as (bytes & Hby & H). destruct (run_bytes_ok _ _ _ Hr Hby) as [Hsl Hl]. destruct Hb.
    by eapply emit_delta_inv.
Qed.

Lemma reclaim_runs_inv pins ers s s' :
  intact → (∀ er, er ∈ ers → er ∈ rj_entries job ∧ run_ok er) → rc_inv s →
  reclaim_runs env m job pins ers s = Ok s' → rc_inv s'.
Proof.
  intros Hi. revert s. induction ers as [|er ers IH]; intros s Hers Hs; cbn [reclaim_runs]; [by intros [= <-]|].
  intros (s1 & H1 & H)%io_bind_Ok. destruct (Hers er) as [? ?]; [by left|].
  eapply IH; [intros e He; apply Hers; by right| |exact H]. by eapply reclaim_run_inv.
Qed.
End worker.

(** A hash worth rewriting is claimed nowhere outside the target. *)
Lemma should_rewrite_contained N m a b h lba c :
  lm_wf N (lbamap m) → N < U64 → should_rewrite m a b h = true →
  view (lbamap m) lba = Some c → c_hash c = h → a ≤ lba < b.
Proof.
  intros Hwf HN [Hc _]%andb_true_iff Hv Hh. rewrite forallb_forall in Hc. pose proof (wf_bound _ _ Hwf).
  apply (view_Some N) in Hv as (k & e & He & Hb & ->); [|done]. cbn in Hh.
  specialize (Hc (k, lba_length e, payload_block_offset e)). pose proof (wf_entry _ _ Hwf _ _ He) as (? & ? & ? & _).
  assert (In (k, lba_length e, payload_block_offset e) (runs_for_hash (lbamap m) h)) as Hi.
  { apply list_elem_of_In, list_elem_of_fmap. exists (k, e). split; [done|]. apply list_elem_of_filter. split; [done|].
    by apply elem_of_om_iter. }
  apply Hc, bool_decide_eq_true in Hi. rewrite u64_add_id in Hi by lia. lia.
Qed.

(** Reclamation writes what the map reads. Where the stored bodies are the
    ones the index's hashes name, every entry of the output is one run of the
    job: it covers the run's blocks, its hash is the hash of the run's slice of a
    body that hashes to the run's hash, and its payload, its reference or its
    delta yields that slice; and the run's hash is claimed by no block outside
    the target range, so nothing else reads the body it leaves. *)
Theorem reclaim_output_exact {HB : Blake3} {HL : Lz4Block} {HC : Lz4Codec} {HT : Blake3Tree} {HZ : ZstdBulk} {HD : ZstdDict}
    {HE : ZstdDictEncode} {HS : Signer} {HU : UlidBytes} N env job result file :
  layers_ok N (rj_maps job) → N < U64 → intact env job → Forall run_ok (rj_entries job) →
  execute_reclaim env job = Ok (result, Some file) →
  let m := materialised (rj_maps job) in
  ∃ pending delta_body entries,
    write_segment_full decode pending delta_body [] (rw_sketch env) = Ok (file, rs_body_section_start result, entries) ∧
    map re_entry (rs_entries result) = entries ∧
    Forall2 (λ p re, row_of (re_entry re) = row_of (pe_entry p) ∧ ∃ er, er ∈ rj_entries job ∧
       made job delta_body er p (re_uncompressed_bytes re) ∧
       ∀ b c, view (lbamap m) b = Some c → c_hash c = er_hash er →
         rj_target_start_lba job ≤ b < u64_add (rj_target_start_lba job) (rj_target_lba_length job))
      pending (rs_entries result).
Proof.
  intros Hok HN Hi Hr Hex m. unfold execute_reclaim in Hex. fold m in Hex.
  apply io_bind_Ok in Hex as (s & Hs & Hex).
  assert (rc_inv job s) as [Hm _].
  { eapply reclaim_runs_inv; [exact Hi| | |exact Hs].
    - intros er He. split; [done|]. by apply (proj1 (Forall_forall _ _) Hr).
    - split; [by constructor|]. by intros h b Hb. }
  case_bool_decide; [done|]. apply io_bind_Ok in Hex as ([[f bss] entries] & Hw & Hex).
  apply io_bind_Ok in Hex as ([] & _ & [= <- <-]). cbn [rs_body_section_start rs_entries].
  exists (rc_entries s), (rc_delta_body s), entries. split; [exact Hw|]. apply write_rows in Hw as Hrows.
  assert (length entries = length (rc_uncompressed s)) as Hlen.
  { rewrite <-(Forall2_length _ _ _ Hm), <-(length_map row_of entries), Hrows, length_map. done. }
  clear Hs Hw. split.
  - clear -Hlen. revert Hlen. generalize (rc_uncompressed s). induction entries as [|e es IH]; intros [|n ns]; cbn; try done.
    intros [= H]. f_equal. by apply IH.
  - apply Forall2_lookup. intros i. destruct (rc_entries s !! i) as [p|] eqn:Hp.
    + apply Forall2_lookup_l with (1 := Hm) in Hp as Hn. destruct Hn as (n & Hn & er & (Hin & Hz & Hsr) & Hmade).
      assert (map row_of entries !! i = Some (row_of (pe_entry p))) as Hrow by (rewrite Hrows, list_lookup_fmap, Hp; done).
      rewrite list_lookup_fmap in Hrow. destruct (entries !! i) as [e|] eqn:He; [|done]. change (Some (row_of e) = Some (row_of (pe_entry p))) in Hrow.
      rewrite lookup_zip_with, He, Hn. cbn. constructor. cbn [re_entry re_uncompressed_bytes]. split; [congruence|].
      exists er. split_and!; [done|done|]. intros b c Hv Hh. eapply (should_rewrite_contained N); [by apply materialised_wf|done|exact Hsr|exact Hv|done].
    + assert (length (zip_with mkReclaimedEntry entries (rc_uncompressed s)) = length (rc_entries s)) as Hl2.
      { rewrite length_zip_with, <-Hlen, (Forall2_length _ _ _ Hm). lia. }
      apply lookup_ge_None in Hp. rewrite lookup_ge_None_2 by lia. constructor.
Qed.

(** Three blocks of one body in a segment's cache file, the middle overwritten. *)
Definition toy_encode : @ZstdDictEncode toy_dict.
Proof. refine {| zstd_dict_compress _ bs := Ok bs |}. by intros dict bs blob cap [= <-]. Defined.

Definition three_hash : Hash := @blake3 toy_blake3 three_blocks.
Definition three_maps : Maps :=
  mkMaps (LbaMap.insert (LbaMap.insert lm_new 10 3 three_hash 5) 11 1 [7] 6)
    (with_inner ei_new {[ three_hash := mkExtentLocation 5 0 12288 CodecNone (Cached 0) 100 None ]}).
Definition three_reclaim : ReclaimJob :=
  mkReclaimJob 10 3 [mkExtentRead three_hash 10 11 0 5; mkExtentRead [7] 11 12 0 6; mkExtentRead three_hash 12 13 2 5]
    (ml_new three_maps) [0] 9 None.
Definition cache_env (body : list Z) : ReclaimEnv :=
  mkReclaimEnv (mkFsView (λ p, bool_decide (p_place p = InCache)) (λ _ _, false) (λ _ _, false) (λ _ _, Err NotFound) (λ _, None) (λ _, []))
    (λ _, Ok body) (λ _ _, Err NotFound) (Ok ()) false.
Definition three_run (body : list Z) : io (ReclaimResult * option (list Z)) :=
  @execute_reclaim toy_blake3 rle_lz4 rle_codec toy_tree toy_zstd toy_dict toy_encode toy_signer toy_ulid_bytes (cache_env body) three_reclaim.
Definition claims_written (r : io (ReclaimResult * option (list Z))) : option (list (Z * Z * Hash)) :=
  match r with
  | Ok (result, Some _) => Some (map (λ re, (e_start_lba (re_entry re), e_lba_length (re_entry re), e_hash (re_entry re))) (rs_entries result))
  | _ => None
  end.

Lemma three_runs_ok : Forall run_ok (rj_entries three_reclaim).
Proof.
  cbn [rj_entries three_reclaim]. unfold run_ok, MAX_EXTENT_PLAINTEXT. generalize three_hash. intros h.
  repeat (apply Forall_cons; split; [cbn; lia|]). by apply Forall_nil.
Qed.

Lemma split_wf h : lm_wf 1000 (LbaMap.insert (LbaMap.insert lm_new 10 3 h 5) 11 1 [7] 6).
Proof.
  unfold LbaMap.insert. apply insert_inner_view; [|lia..]. apply insert_inner_view; [|lia..]. by apply lm_new_wf.
Qed.

(** A cache file holds only what was fetched. The worker asks no presence bit and
    checks no hash, so a body that is not there is read as the file's zeros, and
    the output claims the blocks for them. *)
Lemma reclaim_reads_hole :
  claims_written (three_run (replicate (Z.to_nat 12288) 0)) =
    Some [(10, 1, @blake3 toy_blake3 (replicate (Z.to_nat 4096) 0)); (12, 1, @blake3 toy_blake3 (replicate (Z.to_nat 4096) 0))] ∧
  @cache_hit_allowed (rw_fs (cache_env [])) BodyOnly 0 (extent_index three_maps) 5 (Cached 0) = false.
Proof. split; vm_compute; reflexivity. Qed.
