(* ===== verification/ReclaimFoldSpec.v ===== *)
(** * A reclaim's fold keeps what the device reads

    The fold lands at the output's ULID and claims, run by run, the blocks no
    newer write holds; a run none of whose blocks is taken leaves the extent
    index alone. *)

From Stdlib Require Import Sorted.
From stdpp Require Import base gmap list strings.
From S2P Require Import Prelude Bytes Text Segment UlidMint ChunkTree Codec SegmentCodec LbaMap LbaMapFacts LbaMapSpec ExtentIndex ExtentIndexSpec MapLayers MapLayersSpec Volume Promote Rebuild RebuildSpec Locate ReadPath Materialise FoldApply FoldApplySpec RepackFoldSpec RepackPass Reclaim.
Open Scope Z_scope.

(** An entry a reclaim emits: a body outside the journal, a thin delta or a
    reference. *)
Definition emitted (e : SegmentEntry) : Prop :=
  match e_kind e with
  | Data | Inline => e_journal e = false
  | Delta | DedupRef => True
  | _ => False
  end.

(** A reference of [es] to a hash that resolves nowhere in [ix]. *)
Definition dangling (ix : ExtentIndex) (es : list SegmentEntry) (h : Hash) : Prop :=
  ∃ e, e ∈ es ∧ e_kind e = DedupRef ∧ e_hash e = h ∧ ¬ ExtentIndexSpec.resolves ix h.

(** What resolves the entry once the fold has registered it: a data body is
    carried by the output, a reference needs the body it names, or is one of
    [bad]. *)
Definition backed (bad : Hash → Prop) (ix : ExtentIndex) (e : SegmentEntry) : Prop :=
  match e_kind e with
  | Data | Inline => e_journal e = false
  | Delta => True
  | DedupRef => ExtentIndexSpec.resolves ix (e_hash e) ∨ bad (e_hash e)
  | _ => False
  end.

Lemma emitted_backed ix es e : e ∈ es → emitted e → backed (dangling ix es) ix e.
Proof.
  unfold emitted, backed. intros Hin. destruct (e_kind e) eqn:Hk; try done. intros _.
  assert (Decision (ExtentIndexSpec.resolves ix (e_hash e))) as Hd by (unfold ExtentIndexSpec.resolves; apply _).
  destruct Hd as [Hr|Hr]; [by left|right]. by exists e.
Qed.

Lemma admitted_none blocking h c m s len lba :
  admitted_count blocking h c m s len = 0 → s ≤ lba < s + len → admits blocking h c m lba = false.
Proof.
  unfold admitted_count. intros Hz Hl. destruct (admits blocking h c m lba) eqn:E; [exfalso|done].
  assert (lba ∈ filter (λ x, admits blocking h c m x = true) (seqZ s len)) as Hin.
  { apply list_elem_of_filter. split; [done|]. apply elem_of_seqZ. lia. }
  destruct (filter _ _); [by apply elem_of_nil in Hin|cbn in Hz; lia].
Qed.

Lemma newer_cases c d x : newer c d = Some x → c = Some x ∨ d = Some x.
Proof. destruct c as [c|], d as [d|]; cbn; try case_decide; naive_solver. Qed.

(** A registration that takes no block changes nothing; one that does gives its blocks its hash. *)
Lemma register_took N m e u :
  lm_wf N m → entry_fits N e →
  (register_entry_if_newer m e u).2 = 0 →
  ∀ lba, view (register_entry_if_newer m e u).1 lba = view m lba.
Proof.
  intros Hwf Hfit. unfold register_entry_if_newer, register_entry_inner, entry_fits in *.
  destruct (is_canonical_only (e_kind e)); [done|]. destruct (Hfit eq_refl) as (? & ? & ?).
  destruct (insert_if_newer_view N m (e_start_lba e) (e_lba_length e) (e_hash e) u Higher)
    as (_ & Hn & Hv); [done..|]. rewrite Hn. intros Hz lba. rewrite Hv.
  case_decide as Hd; [|done]. destruct Hd as [Hl Ha].
  by rewrite (admitted_none _ _ _ _ _ _ _ Hz Hl) in Ha.
Qed.

(** A backed entry resolves once it is registered. *)
Lemma register_backed bad ix e i u bss src ix' :
  backed bad ix e →
  ExtentIndex.register_entry_consuming_inputs ix e i (mkCtx u bss TierLocal src EntryInline) ∅ = Ok ix' →
  ExtentIndexSpec.resolves ix' (e_hash e) ∨ bad (e_hash e).
Proof.
  unfold backed, ExtentIndex.register_entry_consuming_inputs, register_entry, inline_bytes, ExtentIndexSpec.resolves.
  pose proof (record_sources_maps ix u (e_hash e) (e_delta_options e)) as (Hi & Hd & _).
  destruct (e_kind e) eqn:Hk; try done; cbn [is_inline ctx_inline ctx_segment_id ctx_delta_body_source].
  - intros ->. intros [= <-]. left. unfold admit_data, insert.
    destruct (inner ix !! e_hash e) eqn:E; [rewrite decide_False by set_solver|]; cbn.
    + rewrite E. by left; eexists.
    + left. by rewrite lookup_insert_eq; eexists.
  - intros H [= <-]. done.
  - intros ->. intros [= <-]. left. unfold admit_data, insert.
    destruct (inner ix !! e_hash e) eqn:E; [rewrite decide_False by set_solver|]; cbn.
    + rewrite E. by left; eexists.
    + left. by rewrite lookup_insert_eq; eexists.
  - intros _. destruct src as [src|]; [|done]. intros [= <-]. left. unfold delta_admitted.
    destruct (deltas ix !! e_hash e) as [l|] eqn:E; [rewrite bool_decide_false by set_solver|].
    { right. rewrite Hd, E. by eexists. }
    case_bool_decide as Hn; cbn; [right; rewrite lookup_insert_eq; by eexists|].
    left. rewrite Hi. destruct (inner ix !! e_hash e); [by eexists|done].
Qed.

Lemma backed_mono bad ix ix' e : (∀ h, ExtentIndexSpec.resolves ix h → ExtentIndexSpec.resolves ix' h) → backed bad ix e → backed bad ix' e.
Proof. unfold backed. destruct (e_kind e); naive_solver. Qed.

Section apply.
Variables (N : Z) (u : Ulid) (bss : Z) (src : option DeltaBodySource).
Let ctx := mkCtx u bss TierLocal src EntryInline.

(** Every claim the output holds resolves, but for the hashes of [bad]. *)
Definition own_resolve (bad : Hash → Prop) (m : Maps) : Prop :=
  ∀ b c, view (lbamap m) b = Some c → c_claimant c = u →
    ExtentIndexSpec.resolves (extent_index m) (c_hash c) ∨ bad (c_hash c).

Lemma reclaim_apply_maps es : ∀ raw m m',
  lm_wf N (lbamap m) → Forall (entry_fits N) es → reclaim_apply u ctx raw es m = Ok m' →
  lbamap m' = register_flush (lbamap m) u es ∧
  (∀ h, ExtentIndexSpec.resolves (extent_index m) h → ExtentIndexSpec.resolves (extent_index m') h) ∧
  (∀ bad, Forall (backed bad (extent_index m)) es → own_resolve bad m → own_resolve bad m').
Proof.
  induction es as [|e es IH]; intros raw m m' Hwf Hfit; cbn [reclaim_apply]; [by intros [= <-]|].
  apply Forall_cons in Hfit as [He Hfit].
  destruct (register_newer_view N (lbamap m) e u Hwf He) as [Hwf1 Hv].
  pose proof (register_took N (lbamap m) e u Hwf He) as Ht.
  unfold register_flush. cbn [foldl]. fold (register_flush (register_entry_if_newer (lbamap m) e u).1 u es).
  destruct (register_entry_if_newer (lbamap m) e u) as [lm took]. cbn [fst snd] in *.
  destruct (decide (took = 0)) as [->|Hn]; cbn [mbind io_bind].
  - intros H. apply (IH _ (mkMaps lm (extent_index m))) in H as (Hl & Hm & Ho); [|done..].
    split_and!; [done|done|]. intros bad [_ Hbk]%Forall_cons Hown. apply Ho; [done|].
    intros b c. cbn. rewrite Ht by done. apply Hown.
  - destruct (ExtentIndex.register_entry_consuming_inputs _ _ _ _ _) as [ix|] eqn:Hr; [|done]. cbn [mbind io_bind].
    assert (∀ h, ExtentIndexSpec.resolves (extent_index m) h → ExtentIndexSpec.resolves ix h) as Hmono
      by (intros h; by eapply register_entry_monotone).
    intros H. apply (IH _ (mkMaps lm ix)) in H as (Hl & Hm' & Ho'); [|done..].
    split_and!; [done|intros h Hh; by apply Hm', Hmono|]. intros bad [Hb Hbk]%Forall_cons Hown. apply Ho'.
    + cbn. eapply Forall_impl; [exact Hbk|]. intros x. by apply backed_mono.
    + intros b c. cbn. rewrite Hv. intros [Hc|Hc]%newer_cases Hcl.
      { destruct (Hown b c Hc Hcl) as [?|?]; [left; by apply Hmono|by right]. }
      unfold RebuildSpec.claim_of in Hc. destruct (is_canonical_only _); [done|]. case_decide; [|done].
      injection Hc as <-. cbn. by eapply register_backed.
Qed.
End apply.

(** ** Property *)

Definition result_entries (result : ReclaimResult) : list SegmentEntry := map re_entry (rs_entries result).

Section fold.
Context {A : Type} (content : Hash → Z → A).

(** A run's content is what the layers it lands on read there, unless a newer
    write holds the block. *)
Definition runs_agree (m : LbaMap) (es : list SegmentEntry) (u : Ulid) : Prop :=
  ∀ b x, last_claim u es b = Some x → ∃ c, view m b = Some c ∧
    (c_claimant c ≤ u → cell_content content x = cell_content content c).

Lemma flush_keeps_content N m u es b :
  lm_wf N m → Forall (entry_fits N) es → runs_agree m es u →
  cell_content content <$> view (register_flush m u es) b = cell_content content <$> view m b.
Proof.
  intros Hwf Hes Hag. destruct (register_flush_view N m u es Hwf Hes) as [_ Hv]. rewrite Hv.
  destruct (last_claim u es b) as [x|] eqn:Hx; [|by destruct (view m b)].
  destruct (Hag b x Hx) as (c & Hc & Heq). rewrite Hc. cbn [newer].
  pose proof (last_claim_claimant u es b x Hx) as Hu.
  case_decide as Hd; [done|]. cbn. f_equal. apply Heq. lia.
Qed.
End fold.

Lemma landed_reclaim ls result b' o ops :
  fold_reclaim_result ls result = Ok (ReclaimLanded b' o, ops) →
  rs_segment_written result = true ∧ ro_runs_rewritten o ≠ 0 ∧
  reclaim_apply (rs_segment_ulid result)
    (mkCtx (rs_segment_ulid result) (rs_body_section_start result) TierLocal
      (Some (Full (rs_body_section_start result) (rs_body_length result))) EntryInline)
    0 (result_entries result) (below ls (rs_segment_ulid result)) = Ok b'.
Proof.
  unfold fold_reclaim_result, fold_below. destruct (rs_segment_written result); [|done]. cbv zeta. cbn [negb].
  destruct (reclaim_apply _ _ _ _ _) as [m|] eqn:Hr; [|done]. cbn [mbind io_bind].
  case_decide; [done|]. intros [= <- <- _]. done.
Qed.

(** C37: a reclaim that lands changes where blocks live and not what they read. Over
    layers without thin deltas above the base, in ULID order, and for an output of
    the kinds a reclaim emits: where each run's bytes are what the layers below the
    output's ULID read at its blocks, every block of the layered device reads the
    same content after the swap as before; a claim newer than the output stands; a
    hash that resolved before the fold still does; where no claim stands under the
    output's ULID yet, every block the output comes to hold resolves, except under
    a reference whose hash resolved nowhere when the fold ran; and at least one run
    holds a block, or the fold would have been discarded and the file removed. *)
Theorem reclaim_fold_preserves {A} (content : Hash → Z → A) N ls result b' o ops :
  let u := rs_segment_ulid result in
  let es := result_entries result in
  layers_plain N ls → StronglySorted (λ x y, wal_ulid x ≤ wal_ulid y) (frozen ls) →
  Forall (entry_fits N) es → Forall emitted es →
  fold_reclaim_result ls result = Ok (ReclaimLanded b' o, ops) →
  (runs_agree content (lbamap (below ls u)) es u →
   ∀ b, cell_content content <$> layered_view (swap_below ls b' u) b = cell_content content <$> layered_view ls b) ∧
  (∀ b c, view (lbamap (below ls u)) b = Some c → u < c_claimant c → view (lbamap b') b = Some c) ∧
  (∀ h, ExtentIndexSpec.resolves (extent_index (below ls u)) h → ExtentIndexSpec.resolves (extent_index b') h) ∧
  ((∀ b c, view (lbamap (below ls u)) b = Some c → c_claimant c ≠ u) →
   ∀ b c, view (lbamap b') b = Some c → c_claimant c = u →
     ExtentIndexSpec.resolves (extent_index b') (c_hash c) ∨ dangling (extent_index (below ls u)) es (c_hash c)) ∧
  ro_runs_rewritten o ≠ 0.
Proof.
  intros u es Hp Hs Hfit Hem Hfold.
  destruct (landed_reclaim _ _ _ _ _ Hfold) as (_ & Hn & Hr). fold u es in Hr.
  assert (lm_wf N (lbamap (below ls u))) as Hwf by (apply below_wf, plain_ok, Hp).
  destruct (reclaim_apply_maps N u _ _ es _ _ _ Hwf Hfit Hr) as (Hl & Hmono & Hown).
  destruct (register_flush_view N (lbamap (below ls u)) u es Hwf Hfit) as [_ Hv].
  split_and!; [|..]; try done.
  - intros Hag b. unfold swap_below, swap_base. cbn [base frozen delta].
    apply (retire_view _ N ls b' (filter (λ l, wal_ulid l < u) (frozen ls))); [done|by apply frozen_split|].
    rewrite Hl. by apply (flush_keeps_content content N).
  - intros b c Hc Hu. rewrite Hl, Hv, Hc. destruct (last_claim u es b) as [x|] eqn:Hx; [|done]. cbn.
    rewrite decide_True; [done|]. by rewrite (last_claim_claimant u es b x Hx).
  - intros Hfree. apply (Hown (dangling (extent_index (below ls u)) es)).
    + apply Forall_forall. intros e He. apply emitted_backed; [done|]. by apply (proj1 (Forall_forall _ _) Hem).
    + intros b c Hc Hcl. by apply Hfree in Hc.
Qed.

(** The base's bloated body [1] rewritten as its two live runs, between an epoch
    below the output and one above it. *)
Definition reclaim_layers : MapLayers :=
  mkLayers base_sample [mkFrozen 7 (epoch 40 10 [3] 7); mkFrozen 10 (epoch 60 10 [4] 10)] (epoch 0 5 [6] 11).
Definition reclaim_result : ReclaimResult :=
  mkReclaimResult 9 100 8192 [mkReclaimedEntry (gc_data [7] Data 0 30) 122880; mkReclaimedEntry (gc_data [8] Data 50 50) 204800] true.

Lemma reclaim_below b : 0 ≤ b < 100 →
  view (lbamap (below reclaim_layers 9)) b =
    Some (if decide (40 ≤ b < 50) then mkCell [3] (b - 40) 7 else if decide (30 ≤ b < 50) then mkCell [2] (b - 30) 5 else mkCell [1] b 1).
Proof.
  intros Hb. change (below reclaim_layers 9) with (fold_frozen base_sample [mkFrozen 7 (epoch 40 10 [3] 7)]).
  unfold fold_frozen. cbn [foldl fl_maps fold_maps lbamap].
  destruct (fold_lbamap_spec 1000 sample (lbamap (epoch 40 10 [3] 7)) sample_wf) as [_ Hv]; [by apply epoch_plain|].
  cbn [lbamap base_sample]. rewrite Hv.
  unfold epoch. cbn [lbamap]. unfold LbaMap.insert.
  destruct (insert_inner_view 1000 lm_new 40 10 0 [3] 7) as [_ Hi]; [by apply lm_new_wf|lia..|]. rewrite Hi.
  destruct (decide (40 ≤ b < 40 + 10)); [rewrite decide_True by lia; do 2 f_equal; lia|].
  cbn [view lm_new]. rewrite decide_False by lia. exact (sample_at b Hb).
Qed.

Lemma reclaim_outside b : ¬ 0 ≤ b < 100 → view (lbamap (below reclaim_layers 9)) b = None.
Proof.
  intros Hb. change (below reclaim_layers 9) with (fold_frozen base_sample [mkFrozen 7 (epoch 40 10 [3] 7)]).
  unfold fold_frozen. cbn [foldl fl_maps fold_maps lbamap].
  destruct (fold_lbamap_spec 1000 sample (lbamap (epoch 40 10 [3] 7)) sample_wf) as [_ Hv]; [by apply epoch_plain|].
  cbn [lbamap base_sample]. rewrite Hv. unfold epoch, sample. cbn [lbamap]. unfold LbaMap.insert.
  destruct (insert_inner_view 1000 lm_new 40 10 0 [3] 7) as [_ Hi]; [by apply lm_new_wf|lia..|].
  destruct (insert_inner_view 1000 lm_new 0 100 0 [1] 1) as [Hwf Hi1]; [by apply lm_new_wf|lia..|].
  destruct (insert_inner_view 1000 (insert_inner lm_new 0 100 0 [1] 1) 30 20 0 [2] 5) as [_ Hi2]; [exact Hwf|lia..|].
  rewrite Hi, Hi2, Hi1, !decide_False by lia. done.
Qed.

Lemma reclaim_agrees : runs_agree packed_content (lbamap (below reclaim_layers 9)) (result_entries reclaim_result) 9.
Proof.
  intros b x Hx. assert (0 ≤ b < 30 ∧ x = mkCell [7] b 9 ∨ 50 ≤ b < 100 ∧ x = mkCell [8] (b - 50) 9) as [[Hb ->]|[Hb ->]].
  { unfold last_claim, claim_of in Hx. cbn in Hx. repeat case_decide; cbn in Hx; try done; injection Hx as <-;
      first [lia|left; split; [lia|f_equal; lia]|right; split; [lia|f_equal; lia]]. }
  all: rewrite reclaim_below by lia; rewrite !decide_False by lia; (eexists; split; [done|]); intros _;
    unfold cell_content, packed_content; cbn; repeat (case_decide; try done); f_equal; lia.
Qed.

Definition reclaim_fold : io (ReclaimFold * list FsOp) := fold_reclaim_result reclaim_layers reclaim_result.

Lemma reclaim_fold_preserves_witness :
  ∃ b' o ops, reclaim_fold = Ok (ReclaimLanded b' o, ops) ∧ ro_runs_rewritten o = 2 ∧
    ∀ b, cell_content packed_content <$> layered_view (swap_below reclaim_layers b' 9) b =
         cell_content packed_content <$> layered_view reclaim_layers b.
Proof.
  assert (match reclaim_fold with Ok (ReclaimLanded _ o, _) => ro_runs_rewritten o = 2 | _ => False end) as Ht by (vm_compute; reflexivity).
  destruct reclaim_fold as [[[|b' o] ops]|] eqn:E; [destruct Ht| |destruct Ht]. exists b', o, ops. split; [done|]. split; [exact Ht|].
  pose proof (@reclaim_fold_preserves _ packed_content 1000 reclaim_layers reclaim_result b' o ops) as H. cbv zeta in H.
  destruct H as (H & _); [..|exact (H reclaim_agrees)].
  - split; [apply sample_wf| |apply epoch_plain; lia].
    apply Forall_cons; split; [apply epoch_plain; lia|]. apply Forall_cons; split; [apply epoch_plain; lia|by apply Forall_nil].
  - repeat constructor; simpl; lia.
  - do 2 (apply Forall_cons; split; [intros Hk; cbn; lia|]). by apply Forall_nil.
  - do 2 (apply Forall_cons; split; [done|]). by apply Forall_nil.
  - exact E.
Defined.

(** The fold runs no resolvability gate: a run emitted as a reference to a body
    another rewrite has dropped since the job was prepared claims its blocks all
    the same, and they resolve nowhere. *)
Lemma reclaim_dangling :
  let result := mkReclaimResult 9 100 0 [mkReclaimedEntry (gc_data [12] DedupRef 50 2) 8192] true in
  match fold_reclaim_result reclaim_layers result with
  | Ok (ReclaimLanded b' o, _) =>
      LbaMap.hash_at (lbamap b') 50 = Some [12] ∧ ExtentIndex.lookup (extent_index b') [12] = None ∧
      ExtentIndex.lookup_delta (extent_index b') [12] = None
  | _ => False
  end.
Proof. vm_compute. done. Qed.
