(* ===== verification/SegmentHead.v ===== *)
(** * The per-volume HEAD (elide-coordinator/src/segment_head.rs)

    The delta a volume has published over its latest signed snapshot: the
    segments added, the supersession edges of GC, the segments deleted.  Its text
    form, the live set a reader computes from it, and its regeneration from the
    fork's directory. *)

From Stdlib Require Import Ascii String.
From stdpp Require Import base gmap list sorting strings.
From S2P Require Import Prelude Bytes Text Segment SegmentCodec Rebuild.
Open Scope Z_scope.

(** [DateTime<Utc>], in nanoseconds; chrono's [to_rfc3339] and
    [parse_from_rfc3339]. *)
Abbreviation Instant := Z (only parsing).
Class Rfc3339 := {
  to_rfc3339 : Instant → string;
  parse_from_rfc3339 : string → option Instant
}.

Record Supersession := mkSupersession { ss_output : Ulid; ss_since : Instant }.

#[export] Instance Supersession_eq_dec : EqDecision Supersession.
Proof. solve_decision. Defined.

Record SegmentHead := mkSegmentHead {
  anchor : option Ulid;
  added : gset Ulid;
  superseded : gmap Ulid Supersession;
  tombstoned : gset Ulid
}.

#[export] Instance SegmentHead_eq_dec : EqDecision SegmentHead.
Proof. solve_decision. Defined.

(** A [BTreeSet] in its order. *)
Definition os_iter (s : gset Ulid) : list Ulid := merge_sort Z.le (elements s).

Definition head_empty (a : option Ulid) : SegmentHead := mkSegmentHead a ∅ ∅ ∅.

Definition head_is_empty (h : SegmentHead) : bool :=
  bool_decide (added h = ∅) && bool_decide (superseded h = ∅) && bool_decide (tombstoned h = ∅).

Definition reap_one (h : SegmentHead) (u : Ulid) : SegmentHead :=
  mkSegmentHead (anchor h) (added h ∖ {[ u ]}) (delete u (superseded h)) ({[ u ]} ∪ tombstoned h).
Definition apply_reap (h : SegmentHead) (reaped : list Ulid) : SegmentHead := foldl reap_one h reaped.

(** What a reader of the manifest and the HEAD takes as the volume's segments. *)
Definition live_set (manifest_segments : gset Ulid) (h : SegmentHead) : gset Ulid :=
  let exclude := dom (superseded h) ∪ tombstoned h in
  filter (λ u, u ∉ exclude) (manifest_segments ∪ added h).

(** ** The text form *)

Definition ADDED : string := "added:".
Definition SUPERSEDED : string := "superseded:".
Definition TOMBSTONED : string := "tombstoned:".
Definition SP : ascii := " "%char.

Inductive ParseHeadError :=
  | MissingSection (name : string)
  | DuplicateSection (line : Z)
  | UnknownLine (line : Z)
  | InvalidUlid (line : Z)
  | InvalidTimestamp (line : Z)
  | MalformedSuperseded (line : Z)
  | DuplicateEntry (line : Z).

Definition parsed (A : Type) : Type := A + ParseHeadError.
#[export] Instance parsed_bind : MBind parsed := λ A B f r, match r with inl a => f a | inr e => inr e end.

Definition ok_or {A} (o : option A) (e : ParseHeadError) : parsed A := match o with Some a => inl a | None => inr e end.

Section text.
Context {HT : UlidText} {HR : Rfc3339}.

Definition anchor_line (a : option Ulid) : string :=
  "anchor: " +:+ match a with Some u => ulid_to_string u | None => "nil" end.
Definition ulid_line (u : Ulid) : string := "  " +:+ ulid_to_string u.
Definition edge_line (p : Ulid * Supersession) : string :=
  "  " +:+ ulid_to_string p.1 +:+ String SP (ulid_to_string (ss_output p.2) +:+ String SP (to_rfc3339 (ss_since p.2))).

Definition render_lines (h : SegmentHead) : list string :=
  anchor_line (anchor h) ::
  ADDED :: map ulid_line (os_iter (added h)) ++
  SUPERSEDED :: map edge_line (om_iter (superseded h)) ++
  TOMBSTONED :: map ulid_line (os_iter (tombstoned h)).

(** Each line with its end. *)
Definition render (h : SegmentHead) : string := foldr (λ l acc, l +:+ String LF acc) EmptyString (render_lines h).

Definition parse_anchor (rest : string) (lineno : Z) : parsed (option Ulid) :=
  if decide (rest = "nil"%string) then inl None
  else match ulid_from_string rest with Some u => inl (Some u) | None => inr (InvalidUlid lineno) end.

(** The indented lines that follow a header, and what is left after them. *)
Fixpoint consume_ulid_section (lines : list (Z * string)) (out : gset Ulid) : parsed (gset Ulid * list (Z * string)) :=
  match lines with
  | [] => inl (out, [])
  | (lineno, line) :: rest =>
      match strip_prefix "  " line with
      | None => inl (out, lines)
      | Some entry =>
          u ← ok_or (ulid_from_string entry) (InvalidUlid lineno);
          if decide (u ∈ out) then inr (DuplicateEntry lineno) else consume_ulid_section rest ({[ u ]} ∪ out)
      end
  end.

Definition parse_edge (lineno : Z) (entry : string) : parsed (Ulid * Supersession) :=
  match split_on SP entry with
  | [input_s; output_s; since_s] =>
      input ← ok_or (ulid_from_string input_s) (InvalidUlid lineno);
      output ← ok_or (ulid_from_string output_s) (InvalidUlid lineno);
      since ← ok_or (parse_from_rfc3339 since_s) (InvalidTimestamp lineno);
      inl (input, mkSupersession output since)
  | _ => inr (MalformedSuperseded lineno)
  end.

Fixpoint consume_superseded_section (lines : list (Z * string)) (out : gmap Ulid Supersession)
    : parsed (gmap Ulid Supersession * list (Z * string)) :=
  match lines with
  | [] => inl (out, [])
  | (lineno, line) :: rest =>
      match strip_prefix "  " line with
      | None => inl (out, lines)
      | Some entry =>
          '(input, edge) ← parse_edge lineno entry;
          if decide (is_Some (out !! input)) then inr (DuplicateEntry lineno)
          else consume_superseded_section rest (<[input := edge]> out)
      end
  end.

(** The sections met so far. *)
Record Sections := mkSections {
  s_anchor : option (option Ulid);
  s_added : option (gset Ulid);
  s_superseded : option (gmap Ulid Supersession);
  s_tombstoned : option (gset Ulid)
}.

(** One header line and its section. *)
Definition parse_section (lineno : Z) (line : string) (rest : list (Z * string)) (s : Sections)
    : parsed (Sections * list (Z * string)) :=
  match strip_prefix "anchor: " line with
  | Some a =>
      if decide (is_Some (s_anchor s)) then inr (DuplicateSection lineno)
      else a ← parse_anchor a lineno; inl (mkSections (Some a) (s_added s) (s_superseded s) (s_tombstoned s), rest)
  | None =>
      if decide (line = ADDED) then
        if decide (is_Some (s_added s)) then inr (DuplicateSection lineno)
        else '(us, rest) ← consume_ulid_section rest ∅;
             inl (mkSections (s_anchor s) (Some us) (s_superseded s) (s_tombstoned s), rest)
      else if decide (line = SUPERSEDED) then
        if decide (is_Some (s_superseded s)) then inr (DuplicateSection lineno)
        else '(es, rest) ← consume_superseded_section rest ∅;
             inl (mkSections (s_anchor s) (s_added s) (Some es) (s_tombstoned s), rest)
      else if decide (line = TOMBSTONED) then
        if decide (is_Some (s_tombstoned s)) then inr (DuplicateSection lineno)
        else '(us, rest) ← consume_ulid_section rest ∅;
             inl (mkSections (s_anchor s) (s_added s) (s_superseded s) (Some us), rest)
      else inr (UnknownLine lineno)
  end.

(** The header loop; every round consumes a line, so the number of lines is fuel
    enough. *)
Fixpoint parse_sections (fuel : nat) (lines : list (Z * string)) (s : Sections) : parsed Sections :=
  match fuel, lines with
  | _, [] => inl s
  | O, (lineno, _) :: _ => inr (UnknownLine lineno)
  | S fuel, (lineno, line) :: rest =>
      '(s, rest) ← parse_section lineno line rest s;
      parse_sections fuel rest s
  end.

Definition enumerate (ls : list string) : list (Z * string) := zip (seqZ 0 (Z.of_nat (length ls))) ls.

Definition parse (body : string) : parsed SegmentHead :=
  let ls := enumerate (lines body) in
  s ← parse_sections (length ls) ls (mkSections None None None None);
  a ← ok_or (s_anchor s) (MissingSection "anchor");
  ad ← ok_or (s_added s) (MissingSection "added");
  su ← ok_or (s_superseded s) (MissingSection "superseded");
  to ← ok_or (s_tombstoned s) (MissingSection "tombstoned");
  inl (mkSegmentHead a ad su to).
End text.

(** ** The fork's directory *)

Section disk.
Context {HB : Blake3} {HU : UlidBytes} {HL : Lz4Block} {HT : UlidText}.

Definition beyond (a : option Ulid) (u : Ulid) : bool := match a with Some a => bool_decide (a < u) | None => true end.

Fixpoint confirm (a : option Ulid) (names : list string) : io (list (Ulid * string)) :=
  match names with
  | [] => Ok []
  | n :: names =>
      match ulid_from_string (file_stem n) with
      | None => Err OtherError
      | Some u => out ← confirm a names; Ok (if beyond a u then (u, n) :: out else out)
      end
  end.

(** Every committed segment beyond the anchor: its index file is written after its
    object is durable. *)
Definition confirmed_segments (fk : ForkDir) (a : option Ulid) : io (list (Ulid * string)) :=
  names ← collect_idx_files fk;
  confirm a names.

Fixpoint edges_of (fk : ForkDir) (vk : Verifier) (confirmed : list (Ulid * string)) : io (list (Ulid * Ulid)) :=
  match confirmed with
  | [] => Ok []
  | (output, n) :: confirmed =>
      file ← fd_file fk DIndex n;
      '(_, _, inputs) ← read_and_verify_segment_index file;
      rest ← edges_of fk vk confirmed;
      Ok (map (λ input, (input, output)) inputs ++ rest)
  end.

Definition confirmed_edges (fk : ForkDir) (a : option Ulid) : io (list (Ulid * Ulid)) :=
  confirmed ← confirmed_segments fk a;
  match confirmed with
  | [] => Ok []
  | _ => vk ← fd_key fk; edges_of fk vk confirmed
  end.

(** [now] restarts each edge's retention clock. *)
Definition regenerate_edge (now : Instant) (h : SegmentHead) (e : Ulid * Ulid) : SegmentHead :=
  mkSegmentHead (anchor h) ({[ e.1 ]} ∪ added h) (<[e.1 := mkSupersession e.2 now]> (superseded h)) (tombstoned h).

Definition regenerate (fk : ForkDir) (latest_snapshot : io (option Ulid)) (now : Instant) : io SegmentHead :=
  a ← latest_snapshot;
  confirmed ← confirmed_segments fk a;
  edges ← confirmed_edges fk a;
  Ok (foldl (regenerate_edge now) (mkSegmentHead a (list_to_set (confirmed.*1)) ∅ ∅) edges).
End disk.
