(* ===== verification/SegmentHeadSpec.v ===== *)
(** * The HEAD's text form and the live set it gives *)

From Stdlib Require Import Ascii String.
From stdpp Require Import base gmap list sorting strings.
From S2P Require Import Prelude Text RewritePlan RewritePlanSpec SegmentHead.
Open Scope Z_scope.

(** The documented texts: a ULID is 26 letters and digits, an RFC 3339 instant
    has no blank in it, and both read back. *)
Class HeadTextLaws (HT : UlidText) (HR : Rfc3339) := {
  ulid_text_no_space u : has_char SP (ulid_to_string u) = false;
  ulid_text_not_nil u : ulid_to_string u ≠ "nil"%string;
  time_ok : Instant → Prop;
  time_back t : time_ok t → parse_from_rfc3339 (to_rfc3339 t) = Some t;
  time_range s t : parse_from_rfc3339 s = Some t → time_ok t;
  time_plain t c : c = SP ∨ c = LF ∨ c = CR → has_char c (to_rfc3339 t) = false
}.

Lemma elem_of_os_iter s u : u ∈ os_iter s ↔ u ∈ s.
Proof. unfold os_iter. by rewrite merge_sort_Permutation, elem_of_elements. Qed.

Lemma NoDup_os_iter s : NoDup (os_iter s).
Proof. unfold os_iter. rewrite merge_sort_Permutation. apply NoDup_elements. Qed.

Lemma os_iter_set s : list_to_set (os_iter s) = s.
Proof. apply set_eq. intros u. by rewrite elem_of_list_to_set, elem_of_os_iter. Qed.

Section spec.
Context {HT : UlidText} {HL : UlidTextLaws HT} {HR : Rfc3339} {HH : HeadTextLaws HT HR}.

Definition u128 (u : Ulid) : Prop := 0 ≤ u < U128.

(** What the head's fields are in the program: ULIDs and instants. *)
Definition head_ok (h : SegmentHead) : Prop :=
  (∀ a, anchor h = Some a → u128 a) ∧ (∀ u, u ∈ added h → u128 u) ∧
  (∀ u e, superseded h !! u = Some e → u128 u ∧ u128 (ss_output e) ∧ time_ok (ss_since e)) ∧
  (∀ u, u ∈ tombstoned h → u128 u).

(** ** Lines *)

Lemma ulid_plain u c : c = LF ∨ c = CR → has_char c (ulid_to_string u) = false.
Proof. intros H. apply ulid_text_plain. tauto. Qed.

Lemma render_lines_plain h : Forall one_line (render_lines h).
Proof.
  assert (∀ us, Forall one_line (map ulid_line us)) as Hu.
  { intros us. apply Forall_map, Forall_forall. intros u _. unfold ulid_line. split;
      rewrite has_char_app, ulid_plain by tauto; done. }
  unfold render_lines. constructor; [|constructor; [done|]].
  { unfold anchor_line. split; rewrite has_char_app; (destruct (anchor h); [rewrite ulid_plain by tauto|]); done. }
  apply Forall_app. split; [apply Hu|]. constructor; [done|]. apply Forall_app.
  split; [|constructor; [done|apply Hu]]. apply Forall_map, Forall_forall. intros [u e] _. unfold edge_line. cbn [fst snd].
  split; repeat (rewrite ?has_char_app, ?ulid_plain, ?time_plain by tauto; cbn [has_char orb]); done.
Qed.

(** ** Sections *)

(** The lines after a section do not continue it. *)
Definition closed (rest : list string) : Prop := match rest with [] => True | l :: _ => strip_prefix "  " l = None end.

Lemma consume_ulids us : ∀ ls out rest,
  ls.*2 = map ulid_line us ++ rest → NoDup us → (∀ u, u ∈ us → u128 u ∧ u ∉ out) → closed rest →
  ∃ ls', ls'.*2 = rest ∧ consume_ulid_section ls out = inl (list_to_set us ∪ out, ls').
Proof.
  induction us as [|u us IH]; intros ls out rest Hls Hnd Hok Hcl.
  - exists ls. split; [done|]. rewrite list_to_set_nil, union_empty_l_L. destruct ls as [|[n l] ls]; [done|]. cbn in Hls.
    destruct rest as [|r rest]; [done|]. injection Hls as -> _. cbn [consume_ulid_section]. cbn [closed] in Hcl. by rewrite Hcl.
  - destruct ls as [|[n l] ls]; [done|]. injection Hls as -> Hls. apply NoDup_cons in Hnd as [Hu Hnd].
    destruct (Hok u) as [Hr Ho]; [by left|]. cbn [consume_ulid_section]. unfold ulid_line.
    rewrite strip_prefix_app, ulid_text_back by done. cbn [ok_or mbind parsed_bind].
    rewrite decide_False by done. destruct (IH ls ({[ u ]} ∪ out) rest) as (ls' & Hl' & Hc'); [done..| |done|].
    { intros v Hv. split; [by apply Hok; right|]. destruct (Hok v) as [_ Hvo]; [by right|]. set_solver. }
    exists ls'. split; [done|]. rewrite Hc'. do 2 f_equal. cbn. set_solver.
Qed.

Lemma parse_edge_line n p : u128 p.1 → u128 (ss_output p.2) → time_ok (ss_since p.2) →
  ∃ entry, edge_line p = "  " +:+ entry ∧ parse_edge n entry = inl p.
Proof.
  intros H1 H2 H3. eexists. split; [done|]. unfold parse_edge.
  rewrite split_on_sep by apply ulid_text_no_space. rewrite split_on_sep by apply ulid_text_no_space.
  rewrite split_on_none by (apply time_plain; tauto).
  rewrite !ulid_text_back by done. rewrite time_back by done. by destruct p as [i []].
Qed.

Lemma consume_edges es : ∀ ls out rest,
  ls.*2 = map edge_line es ++ rest → NoDup es.*1 →
  (∀ p, p ∈ es → u128 p.1 ∧ u128 (ss_output p.2) ∧ time_ok (ss_since p.2) ∧ out !! p.1 = None) → closed rest →
  ∃ ls', ls'.*2 = rest ∧ consume_superseded_section ls out = inl (list_to_map es ∪ out, ls').
Proof.
  induction es as [|p es IH]; intros ls out rest Hls Hnd Hok Hcl.
  - exists ls. split; [done|]. rewrite list_to_map_nil, map_empty_union. destruct ls as [|[n l] ls]; [done|]. cbn in Hls.
    destruct rest as [|r rest]; [done|]. injection Hls as -> _. cbn [consume_superseded_section]. cbn [closed] in Hcl. by rewrite Hcl.
  - destruct ls as [|[n l] ls]; [done|]. injection Hls as -> Hls. apply NoDup_cons in Hnd as [Hu Hnd].
    destruct (Hok p) as (H1 & H2 & H3 & Ho); [by left|]. cbn [consume_superseded_section].
    destruct (parse_edge_line n p H1 H2 H3) as (entry & -> & He). rewrite strip_prefix_app, He. cbn [mbind parsed_bind].
    destruct p as [i e]. cbn [fst snd] in *. rewrite decide_False by (rewrite Ho; apply is_Some_None).
    destruct (IH ls (<[i := e]> out) rest) as (ls' & Hl' & Hc'); [done..| |done|].
    { intros q Hq. destruct (Hok q) as (? & ? & ? & Hqo); [by right|]. split_and!; [done..|].
      rewrite lookup_insert_ne; [done|]. intros ->. apply Hu. by apply (list_elem_of_fmap_2 fst). }
    exists ls'. split; [done|]. rewrite Hc'. do 2 f_equal. rewrite list_to_map_cons.
    rewrite <-insert_union_l, insert_union_r; [done|]. by apply not_elem_of_list_to_map.
Qed.

Lemma parse_anchor_text a n : (∀ u, a = Some u → u128 u) →
  parse_anchor (match a with Some u => ulid_to_string u | None => "nil" end) n = inl a.
Proof.
  intros Ha. unfold parse_anchor. destruct a as [u|]; [|done].
  rewrite decide_False by apply ulid_text_not_nil. by rewrite ulid_text_back by (by apply Ha).
Qed.

Lemma enumerate_snd ls : (enumerate ls).*2 = ls.
Proof. unfold enumerate. apply snd_zip. rewrite length_seqZ. lia. Qed.

Lemma length_enumerate ls : length (enumerate ls) = length ls.
Proof. by rewrite <-(enumerate_snd ls) at 2; rewrite length_fmap. Qed.

Lemma om_iter_map (m : gmap Ulid Supersession) : list_to_map (om_iter m) = m.
Proof.
  apply map_eq. intros k. apply option_eq. intros e.
  rewrite <-elem_of_list_to_map by apply NoDup_fst_om_iter. by rewrite elem_of_om_iter.
Qed.

Lemma section_anchor n a rest s : (∀ u, a = Some u → u128 u) → s_anchor s = None →
  parse_section n (anchor_line a) rest s = inl (mkSections (Some a) (s_added s) (s_superseded s) (s_tombstoned s), rest).
Proof.
  intros Ha Hs. unfold parse_section. assert (strip_prefix "anchor: " (anchor_line a) =
    Some match a with Some u => ulid_to_string u | None => "nil"%string end) as -> by apply strip_prefix_app.
  rewrite decide_False by (rewrite Hs; apply is_Some_None). by rewrite parse_anchor_text.
Qed.

(** A header line that is no anchor, met for the first time. *)
Ltac header Hs :=
  unfold parse_section;
  match goal with |- context [strip_prefix ?p ?l] => assert (strip_prefix p l = None) as -> by reflexivity end;
  repeat (first [rewrite decide_True by done | rewrite decide_False by done]); rewrite decide_False by (rewrite Hs; apply is_Some_None).

Lemma section_added n us ls rest s :
  s_added s = None → ls.*2 = map ulid_line (os_iter us) ++ rest → (∀ u, u ∈ us → u128 u) → closed rest →
  ∃ ls', ls'.*2 = rest ∧
    parse_section n ADDED ls s = inl (mkSections (s_anchor s) (Some us) (s_superseded s) (s_tombstoned s), ls').
Proof.
  intros Hs Hls Hu Hc. destruct (consume_ulids (os_iter us) ls ∅ rest Hls (NoDup_os_iter us)) as (ls' & Hl & Hp); [|done|].
  { intros u Hin%elem_of_os_iter. split; [by apply Hu|set_solver]. }
  exists ls'. split; [done|]. header Hs. rewrite Hp. cbn [mbind parsed_bind]. by rewrite os_iter_set, union_empty_r_L.
Qed.

Lemma section_superseded n es ls rest s :
  s_superseded s = None → ls.*2 = map edge_line (om_iter es) ++ rest →
  (∀ u e, es !! u = Some e → u128 u ∧ u128 (ss_output e) ∧ time_ok (ss_since e)) → closed rest →
  ∃ ls', ls'.*2 = rest ∧
    parse_section n SUPERSEDED ls s = inl (mkSections (s_anchor s) (s_added s) (Some es) (s_tombstoned s), ls').
Proof.
  intros Hs Hls Hu Hc. destruct (consume_edges (om_iter es) ls ∅ rest Hls (NoDup_fst_om_iter es)) as (ls' & Hl & Hp); [|done|].
  { intros [u e] Hin%elem_of_om_iter. destruct (Hu u e Hin) as (? & ? & ?). by rewrite lookup_empty. }
  exists ls'. split; [done|]. header Hs. rewrite Hp. cbn [mbind parsed_bind]. by rewrite om_iter_map, map_union_empty.
Qed.

Lemma section_tombstoned n us ls rest s :
  s_tombstoned s = None → ls.*2 = map ulid_line (os_iter us) ++ rest → (∀ u, u ∈ us → u128 u) → closed rest →
  ∃ ls', ls'.*2 = rest ∧
    parse_section n TOMBSTONED ls s = inl (mkSections (s_anchor s) (s_added s) (s_superseded s) (Some us), ls').
Proof.
  intros Hs Hls Hu Hc. destruct (consume_ulids (os_iter us) ls ∅ rest Hls (NoDup_os_iter us)) as (ls' & Hl & Hp); [|done|].
  { intros u Hin%elem_of_os_iter. split; [by apply Hu|set_solver]. }
  exists ls'. split; [done|]. header Hs. rewrite Hp. cbn [mbind parsed_bind]. by rewrite os_iter_set, union_empty_r_L.
Qed.

Lemma fst_snd_cons (ls : list (Z * string)) l rest : ls.*2 = l :: rest → ∃ n ls', ls = (n, l) :: ls' ∧ ls'.*2 = rest.
Proof. destruct ls as [|[n l'] ls']; [done|]. intros [= -> <-]. by exists n, ls'. Qed.

Lemma parse_sections_render h ls s fuel : head_ok h → ls.*2 = render_lines h → s = mkSections None None None None →
  parse_sections (4 + fuel) ls s = inl (mkSections (Some (anchor h)) (Some (added h)) (Some (superseded h)) (Some (tombstoned h))).
Proof.
  intros (Ha & Hd & Hs & Ht) Hls ->. unfold render_lines in Hls.
  apply fst_snd_cons in Hls as (n1 & ls1 & -> & Hls). apply fst_snd_cons in Hls as (n2 & ls2 & -> & Hls).
  cbn [parse_sections Nat.add]. rewrite section_anchor by done. cbn [mbind parsed_bind s_added s_superseded s_tombstoned].
  destruct (section_added n2 (added h) ls2 _ (mkSections (Some (anchor h)) None None None) eq_refl Hls Hd eq_refl)
    as (ls3 & Hls3 & ->). apply fst_snd_cons in Hls3 as (n3 & ls4 & -> & Hls4).
  cbn [mbind parsed_bind s_anchor s_superseded s_tombstoned].
  destruct (section_superseded n3 (superseded h) ls4 _ (mkSections (Some (anchor h)) (Some (added h)) None None) eq_refl Hls4 Hs eq_refl)
    as (ls5 & Hls5 & ->). apply fst_snd_cons in Hls5 as (n4 & ls6 & -> & Hls6).
  cbn [mbind parsed_bind s_anchor s_added s_tombstoned]. rewrite <-(app_nil_r (map ulid_line _)) in Hls6.
  destruct (section_tombstoned n4 (tombstoned h) ls6 [] (mkSections (Some (anchor h)) (Some (added h)) (Some (superseded h)) None)
    eq_refl Hls6 Ht I) as (ls7 & Hls7 & ->). apply fmap_nil_inv in Hls7 as ->.
  cbn [mbind parsed_bind]. by destruct fuel.
Qed.

Lemma parse_render h : head_ok h → parse (render h) = inl h.
Proof.
  intros Hok. unfold parse, render. rewrite lines_text by apply render_lines_plain.
  assert (4 ≤ length (enumerate (render_lines h)))%nat as Hn.
  { rewrite length_enumerate. unfold render_lines. cbn [length]. rewrite !length_app. cbn [length]. rewrite length_app. cbn [length]. lia. }
  apply Nat.le_exists_sub in Hn as (fuel & -> & _). rewrite Nat.add_comm.
  rewrite (parse_sections_render h) by (done || apply enumerate_snd). by destruct h.
Qed.

(** ** What a reader accepts *)

Lemma parsed_bind_inl {A B} (f : A → parsed B) (r : parsed A) b : (r ≫= f) = inl b ↔ ∃ a, r = inl a ∧ f a = inl b.
Proof. destruct r as [a|e]; cbn [mbind parsed_bind]; naive_solver. Qed.

Lemma ok_or_inl {A} (o : option A) e a : ok_or o e = inl a ↔ o = Some a.
Proof. destruct o; cbn; naive_solver. Qed.

Lemma consume_ulids_range ls : ∀ out us rest, (∀ u, u ∈ out → u128 u) →
  consume_ulid_section ls out = inl (us, rest) → ∀ u, u ∈ us → u128 u.
Proof.
  induction ls as [|[n l] ls IH]; intros out us rest Ho; cbn [consume_ulid_section]; [by intros [= <- _]|].
  destruct (strip_prefix _ _) as [entry|]; [|by intros [= <- _]].
  intros (u & Hu%ok_or_inl & H)%parsed_bind_inl. case_decide; [done|]. eapply IH; [|exact H].
  intros v [->%elem_of_singleton|Hv]%elem_of_union; [by eapply ulid_text_range|by apply Ho].
Qed.

Definition edges_ok (es : gmap Ulid Supersession) : Prop :=
  ∀ u e, es !! u = Some e → u128 u ∧ u128 (ss_output e) ∧ time_ok (ss_since e).

Lemma consume_edges_range ls : ∀ out es rest, edges_ok out → consume_superseded_section ls out = inl (es, rest) → edges_ok es.
Proof.
  induction ls as [|[n l] ls IH]; intros out es rest Ho; cbn [consume_superseded_section]; [by intros [= <- _]|].
  destruct (strip_prefix _ _) as [entry|]; [|by intros [= <- _]].
  intros ([i e] & He & H)%parsed_bind_inl. case_decide; [done|]. eapply IH; [|exact H].
  unfold parse_edge in He. destruct (split_on SP entry) as [|i_s [|o_s [|t_s [|]]]]; try done.
  apply parsed_bind_inl in He as (i' & Hi%ok_or_inl & He). apply parsed_bind_inl in He as (o' & Ho'%ok_or_inl & He).
  apply parsed_bind_inl in He as (t' & Ht%ok_or_inl & [= <- <-]).
  intros u x [[<- <-]|[_ Hx]]%lookup_insert_Some; [|by apply Ho].
  split_and!; [by eapply ulid_text_range..|by eapply time_range].
Qed.

Record sections_ok (s : Sections) : Prop := {
  so_anchor a u : s_anchor s = Some a → a = Some u → u128 u;
  so_added us u : s_added s = Some us → u ∈ us → u128 u;
  so_superseded es : s_superseded s = Some es → edges_ok es;
  so_tombstoned us u : s_tombstoned s = Some us → u ∈ us → u128 u
}.

Lemma parse_section_ok n line rest s s' rest' :
  sections_ok s → parse_section n line rest s = inl (s', rest') → sections_ok s'.
Proof.
  intros [Ha Hd Hs Ht]. unfold parse_section. destruct (strip_prefix _ _) as [a|].
  { case_decide; [done|]. intros (x & Hx & [= <- _])%parsed_bind_inl. split; cbn; [|done..].
    intros y u [= <-] ->. unfold parse_anchor in Hx. case_decide; [done|].
    destruct (ulid_from_string a) eqn:E; [|done]. injection Hx as ->. by eapply ulid_text_range. }
  repeat (case_decide; try done); intros ([x r] & Hx & [= <- _])%parsed_bind_inl; split; cbn; try done.
  - intros us u [= <-]. eapply consume_ulids_range; [|exact Hx]. set_solver.
  - intros es [= <-]. eapply consume_edges_range; [|exact Hx]. intros u e. by rewrite lookup_empty.
  - intros us u [= <-]. eapply consume_ulids_range; [|exact Hx]. set_solver.
Qed.

Lemma parse_sections_ok fuel : ∀ ls s s', sections_ok s → parse_sections fuel ls s = inl s' → sections_ok s'.
Proof.
  induction fuel as [|fuel IH]; intros [|[n l] ls] s s' Hs; cbn [parse_sections]; try (by intros [= <-]).
  intros ([s1 r] & H1 & H)%parsed_bind_inl. eapply IH; [|exact H]. by eapply parse_section_ok.
Qed.

Lemma parse_ok body h : parse body = inl h → head_ok h.
Proof.
  unfold parse. intros (s & Hs & H)%parsed_bind_inl.
  apply parse_sections_ok in Hs as [Ha Hd He Ht]; [|by split].
  apply parsed_bind_inl in H as (a & Ea%ok_or_inl & H). apply parsed_bind_inl in H as (d & Ed%ok_or_inl & H).
  apply parsed_bind_inl in H as (e & Ee%ok_or_inl & H). apply parsed_bind_inl in H as (t & Et%ok_or_inl & [= <-]).
  split_and!; cbn; [intros u; by apply Ha|intros u; by apply Hd|by apply He|intros u; by apply Ht].
Qed.

(** The text of a HEAD round-trips. Every head of ULIDs and instants reads
    back as it was written, whatever its sections hold; and everything the reader
    accepts, in whatever order its sections and entries come, is such a head, so
    what it accepts is rewritten and read back the same. *)
Theorem head_text_roundtrip h :
  (head_ok h → parse (render h) = inl h) ∧
  (∀ body, parse body = inl h → head_ok h ∧ parse (render h) = inl h).
Proof. split; [apply parse_render|]. intros body Hb%parse_ok. split; [done|]. by apply parse_render. Qed.
End spec.

(** Instants in decimal, for evaluating the model. *)
Definition decimal_rfc3339 : Rfc3339 :=
  {| to_rfc3339 t := dec_digits 40 t EmptyString; parse_from_rfc3339 s := parse_uint U128 s |}.

Definition decimal_head_laws : HeadTextLaws decimal_ulid_text decimal_rfc3339.
Proof.
  exists (λ t, 0 ≤ t < U128); cbn [ulid_to_string decimal_ulid_text to_rfc3339 parse_from_rfc3339 decimal_rfc3339].
  - intros u. by rewrite has_char_dec_digits.
  - intros u. destruct (dec_digits_head 39 u EmptyString) as (d & rest & Hd & ->). intros [= Hn _].
    pose proof (digit_of_digit d Hd) as Hx. by rewrite Hn in Hx.
  - intros t Ht. by apply (@ulid_text_back _ decimal_ulid_laws).
  - intros s t Ht. by eapply parse_uint_bound.
  - intros t c Hc. rewrite has_char_dec_digits; [done|]. destruct Hc as [->|[->| ->]]; done.
Defined.

Definition head_sample : SegmentHead := mkSegmentHead (Some 3) {[ 9; 5; 7 ]} {[ 5 := mkSupersession 9 1700 ]} {[ 4 ]}.

(** The reader takes the sections in any order; the writer has one. *)
Lemma parse_any_order :
  @parse decimal_ulid_text decimal_rfc3339
    (foldr (λ l acc, l +:+ String LF acc) EmptyString ["tombstoned:"; "added:"; "  7"; "  5"; "anchor: nil"; "superseded:"])%string
  = inl (mkSegmentHead None {[ 7; 5 ]} ∅ ∅).
Proof. vm_compute. reflexivity. Qed.
