(* ===== verification/NameRecord.v ===== *)
(** * Volume names in the bucket (elide-core/src/name_record.rs,
    elide-coordinator/src/{portable,name_store,bucket_position,eligibility}.rs)

    A volume's name is one object of a bucket, written by conditional puts and
    deleted without a condition.  An operation is a program of requests to the
    object store; what the store answers is the program's input. *)

From Stdlib Require Import Ascii String.
From stdpp Require Import base gmap list strings.
From S2P Require Import Prelude Text.
Open Scope Z_scope.

(** ** The record *)

Inductive NameState := Live | Stopped | Released | Readonly | Importing.
Inductive Lifecycle := Stop | Release | Start | Claim | ForceClaim.
Inductive TransitionCheck := Proceed | Idempotent | Reroute | Refuse.

#[export] Instance NameState_eq_dec : EqDecision NameState.
Proof. solve_decision. Defined.
#[export] Instance TransitionCheck_eq_dec : EqDecision TransitionCheck.
Proof. solve_decision. Defined.

Definition state_as_str (s : NameState) : string :=
  match s with
  | Live => "live" | Stopped => "stopped" | Released => "released" | Readonly => "readonly" | Importing => "importing"
  end.

Definition verb_as_str (v : Lifecycle) : string :=
  match v with
  | Stop => "stop" | Release => "release" | Start => "start" | Claim => "claim" | ForceClaim => "force-claim"
  end.

Definition check_transition (s : NameState) (verb : Lifecycle) : TransitionCheck :=
  match s, verb with
  | Importing, _ => Refuse
  | Live, Stop => Proceed
  | Stopped, Stop => Idempotent
  | (Released | Readonly), Stop => Refuse
  | (Live | Stopped), Release => Proceed
  | Released, Release => Idempotent
  | Readonly, Release => Refuse
  | Live, Start => Idempotent
  | Stopped, Start => Proceed
  | Released, Start => Reroute
  | Readonly, Start => Refuse
  | Released, Claim => Proceed
  | (Live | Stopped | Readonly), Claim => Refuse
  | (Live | Stopped), ForceClaim => Proceed
  | Released, ForceClaim => Reroute
  | Readonly, ForceClaim => Refuse
  end.

Record NameRecord := mkNameRecord {
  nr_version : Z;
  nr_vol_ulid : Ulid;
  nr_size : Z;
  nr_coordinator_id : option string;
  nr_state : NameState;
  nr_parent : option string;
  nr_claimed_at : option string;
  nr_hostname : option string;
  nr_handoff_snapshot : option Ulid;
  nr_latest_snapshot : option Ulid
}.

#[export] Instance NameRecord_eq_dec : EqDecision NameRecord.
Proof. solve_decision. Defined.

Definition CURRENT_VERSION : Z := 3.

Definition live_minimal (vol_ulid : Ulid) (size : Z) : NameRecord :=
  mkNameRecord CURRENT_VERSION vol_ulid size None Live None None None None None.

(** The toml crate over serde's derived formats: [toml::to_string], the version
    probe, the whole record. *)
Class NameToml := {
  toml_to_string : NameRecord → option string;
  toml_probe : string → option Z;
  toml_record : string → option NameRecord
}.

Inductive ParseNameRecordError := TomlError | UnsupportedVersion (v : Z).

Definition from_toml `{NameToml} (s : string) : NameRecord + ParseNameRecordError :=
  match toml_probe s with
  | None => inr TomlError
  | Some v =>
      if decide (v = CURRENT_VERSION)
      then match toml_record s with Some r => inl r | None => inr TomlError end
      else inr (UnsupportedVersion v)
  end.

(** ** [std::str::from_utf8] *)

Definition byte (c : ascii) : Z := Z.of_nat (nat_of_ascii c).
Definition cont (c : ascii) : bool := bool_decide (128 ≤ byte c < 192).

Definition three_ok (x : Z) (b : ascii) : bool :=
  bool_decide (x = 224 ∧ 160 ≤ byte b < 192 ∨ 225 ≤ x ≤ 236 ∧ 128 ≤ byte b < 192 ∨
               x = 237 ∧ 128 ≤ byte b < 160 ∨ 238 ≤ x ≤ 239 ∧ 128 ≤ byte b < 192).
Definition four_ok (x : Z) (b : ascii) : bool :=
  bool_decide (x = 240 ∧ 144 ≤ byte b < 192 ∨ 241 ≤ x ≤ 243 ∧ 128 ≤ byte b < 192 ∨ x = 244 ∧ 128 ≤ byte b < 144).

Fixpoint is_utf8 (s : string) : bool :=
  match s with
  | EmptyString => true
  | String a r1 =>
      let x := byte a in
      if decide (x < 128) then is_utf8 r1
      else match r1 with
           | EmptyString => false
           | String b r2 =>
               if decide (194 ≤ x ≤ 223) then cont b && is_utf8 r2
               else match r2 with
                    | EmptyString => false
                    | String c r3 =>
                        if decide (224 ≤ x ≤ 239) then three_ok x b && cont c && is_utf8 r3
                        else match r3 with
                             | EmptyString => false
                             | String d r4 => four_ok x b && cont c && cont d && is_utf8 r4
                             end
                    end
           end
  end.

(** ** Programs over an object store *)

(** [UpdateVersion]: the ETag of one object body. *)
Abbreviation Version := string (only parsing).
Abbreviation Body := string (only parsing).

Inductive StoreError := SNotFound | SAlreadyExists | SPrecondition | SNotImplemented | SOther.
Inductive PutMode := Create | Update (expected : Version).

#[export] Instance PutMode_eq_dec : EqDecision PutMode.
Proof. solve_decision. Defined.

Inductive prog (A : Type) :=
  | Ret (a : A)
  | GetK (key : string) (k : Body * Version + StoreError → prog A)
  | PutK (key : string) (body : Body) (mode : PutMode) (attributes : bool) (k : Version + StoreError → prog A)
  | DeleteK (key : string) (k : unit + StoreError → prog A).
Arguments Ret {A} a.
Arguments GetK {A} key k.
Arguments PutK {A} key body mode attributes k.
Arguments DeleteK {A} key k.

Fixpoint prog_bind {A B} (f : A → prog B) (p : prog A) : prog B :=
  match p with
  | Ret a => f a
  | GetK key k => GetK key (λ r, prog_bind f (k r))
  | PutK key body mode at_ k => PutK key body mode at_ (λ r, prog_bind f (k r))
  | DeleteK key k => DeleteK key (λ r, prog_bind f (k r))
  end.
#[export] Instance prog_mbind : MBind prog := λ A B, prog_bind.
#[export] Instance prog_mret : MRet prog := λ A, Ret.

(** The [?] operator: an error ends the program. *)
Definition try_bind {A B E} (p : prog (A + E)) (f : A → prog (B + E)) : prog (B + E) :=
  r ← p; match r with inl a => f a | inr e => Ret (inr e) end.

(** ** Conditional puts (portable.rs) *)

Inductive ConditionalPutError := PutPreconditionFailed | PutOther (e : StoreError).

Definition conditional_error (e : StoreError) : ConditionalPutError :=
  match e with SAlreadyExists | SPrecondition => PutPreconditionFailed | e => PutOther e end.

(** A store that takes no attributes is asked again without them. *)
Definition put_opts_with_fallback (key : string) (body : Body) (mode : PutMode) (content_type : bool)
    : prog (Version + StoreError) :=
  PutK key body mode content_type (λ r,
    match r with
    | inr SNotImplemented => if content_type then PutK key body mode false Ret else Ret r
    | _ => Ret r
    end).

Definition put_if_absent_with_type (key : string) (body : Body) : prog (Version + ConditionalPutError) :=
  r ← put_opts_with_fallback key body Create true;
  Ret match r with inl v => inl v | inr e => inr (conditional_error e) end.

Definition put_with_match_with_type (key : string) (body : Body) (expected : Version) : prog (Version + ConditionalPutError) :=
  r ← put_opts_with_fallback key body (Update expected) true;
  Ret match r with inl v => inl v | inr e => inr (conditional_error e) end.

(** ** Records in the store (name_store.rs) *)

Inductive NameStoreError :=
  | Serialise
  | Parse (e : ParseNameRecordError)
  | Store (e : StoreError)
  | PreconditionFailed
  | NotUtf8.

Definition name_error (e : ConditionalPutError) : NameStoreError :=
  match e with PutPreconditionFailed => PreconditionFailed | PutOther e => Store e end.

Section store.
Context {HN : NameToml}.

Definition name_key (name : string) : string := "names/" +:+ name.

Definition serialise (r : NameRecord) : Body + NameStoreError :=
  match toml_to_string r with Some s => inl s | None => inr Serialise end.

Definition parse (body : Body) : NameRecord + NameStoreError :=
  if is_utf8 body then match from_toml body with inl r => inl r | inr e => inr (Parse e) end else inr NotUtf8.

Definition read_name_record (name : string) : prog (option (NameRecord * Version) + NameStoreError) :=
  GetK (name_key name) (λ r,
    Ret match r with
        | inl (body, version) =>
            match parse body with inl rec => inl (Some (rec, version)) | inr e => inr e end
        | inr SNotFound => inl None
        | inr e => inr (Store e)
        end).

Definition create_name_record (name : string) (r : NameRecord) : prog (Version + NameStoreError) :=
  match serialise r with
  | inr e => Ret (inr e)
  | inl body =>
      r ← put_if_absent_with_type (name_key name) body;
      Ret match r with inl v => inl v | inr e => inr (name_error e) end
  end.

Definition update_name_record (name : string) (r : NameRecord) (expected : Version) : prog (Version + NameStoreError) :=
  match serialise r with
  | inr e => Ret (inr e)
  | inl body =>
      r ← put_with_match_with_type (name_key name) body expected;
      Ret match r with inl v => inl v | inr e => inr (name_error e) end
  end.

(** Unconditional: the store has no conditional delete. *)
Definition delete_name_record (name : string) : prog (unit + NameStoreError) :=
  DeleteK (name_key name) (λ r,
    Ret match r with inl () | inr SNotFound => inl () | inr e => inr (Store e) end).
End store.

(** ** This coordinator's position (bucket_position.rs, eligibility.rs) *)

Inductive OwnedState := OwnedLive | OwnedStopped.
Inductive OwnershipPosition :=
  | Absent
  | OwnedByUs (vol_ulid : Ulid) (state : OwnedState)
  | OwnedByOther (vol_ulid : Ulid) (coord_id : string) (state : OwnedState)
  | PosReleased (vol_ulid : Ulid) (handoff_snapshot : option Ulid)
  | PosReadonly (vol_ulid : Ulid)
  | PosImporting (vol_ulid : Ulid) (coord_id : string).

Definition UNKNOWN_COORD_ID : string := "<unknown>".

Definition classify (record : option NameRecord) (our_coord_id : string) : OwnershipPosition :=
  match record with
  | None => Absent
  | Some rec =>
      let owned state :=
        match nr_coordinator_id rec with
        | Some owner => if decide (owner = our_coord_id) then OwnedByUs (nr_vol_ulid rec) state
                        else OwnedByOther (nr_vol_ulid rec) owner state
        | None => OwnedByOther (nr_vol_ulid rec) UNKNOWN_COORD_ID state
        end in
      match nr_state rec with
      | Live => owned OwnedLive
      | Stopped => owned OwnedStopped
      | Released => PosReleased (nr_vol_ulid rec) (nr_handoff_snapshot rec)
      | Readonly => PosReadonly (nr_vol_ulid rec)
      | Importing => PosImporting (nr_vol_ulid rec) (default UNKNOWN_COORD_ID (nr_coordinator_id rec))
      end
  end.

Inductive Eligibility := EOwned | EForeign | EReleasedClaimable | EReadonly | EImporting.

Definition to_eligibility (p : OwnershipPosition) : option Eligibility :=
  match p with
  | Absent => None
  | OwnedByUs _ _ => Some EOwned
  | OwnedByOther _ _ _ => Some EForeign
  | PosReleased _ _ => Some EReleasedClaimable
  | PosReadonly _ => Some EReadonly
  | PosImporting _ _ => Some EImporting
  end.

Definition eligibility_from_record (r : NameRecord) (our_coord_id : string) : Eligibility :=
  match nr_state r with
  | Live | Stopped =>
      match nr_coordinator_id r with
      | Some owner => if decide (owner = our_coord_id) then EOwned else EForeign
      | None => EForeign
      end
  | Released => EReleasedClaimable
  | Readonly => EReadonly
  | Importing => EImporting
  end.

Definition wire_str (e : Eligibility) : string :=
  match e with
  | EOwned => "owned" | EForeign => "foreign" | EReleasedClaimable => "released-claimable"
  | EReadonly => "readonly" | EImporting => "importing"
  end.

Definition position_vol_ulid (p : OwnershipPosition) : option Ulid :=
  match p with
  | Absent => None
  | OwnedByUs u _ | OwnedByOther u _ _ | PosReleased u _ | PosReadonly u | PosImporting u _ => Some u
  end.

Definition is_ours (p : OwnershipPosition) : bool := match p with OwnedByUs _ _ => true | _ => false end.
Definition retains_ownership (p : OwnershipPosition) : bool :=
  match p with OwnedByUs _ _ | OwnedByOther _ _ _ => true | _ => false end.

Definition fetch_position `{NameToml} (name our_coord_id : string)
    : prog (OwnershipPosition * option (NameRecord * Version) + NameStoreError) :=
  try_bind (read_name_record name) (λ record, Ret (inl (classify (fst <$> record) our_coord_id, record))).
