(* ===== verification/Lifecycle.v ===== *)
(** * Lifecycle transitions of a volume's name (elide-coordinator/src/lifecycle.rs)

    Each verb reads the record, decides, and writes it back under the version it
    read. *)

From Stdlib Require Import Ascii String.
From stdpp Require Import base gmap list strings.
From S2P Require Import Prelude Text NameRecord.
Open Scope Z_scope.

Inductive LifecycleError :=
  | LStore (e : NameStoreError)
  | OwnershipConflict (held_by : string)
  | InvalidTransition (from : NameState) (verb : Lifecycle).

(** [From<NameStoreError>]: the store's errors under the verb's. *)
Definition lift {A} (p : prog (A + NameStoreError)) : prog (A + LifecycleError) :=
  r ← p; Ret match r with inl a => inl a | inr e => inr (LStore e) end.

Inductive MarkStoppedOutcome := StoppedUpdated | StoppedAbsent | AlreadyStopped.
Inductive MarkReleasedOutcome := ReleasedUpdated (vol_ulid : Ulid) | ReleasedAbsent | AlreadyReleased.
Inductive MarkLiveOutcome := Resumed | LiveAbsent | AlreadyLive | LiveReleased.
Inductive MarkReclaimedLocalOutcome :=
  | Reclaimed
  | ReclaimedAbsent
  | ReclaimedNotReleased (observed_state : NameState) (observed_vol_ulid : Ulid)
  | ForkMismatch (local_vol_ulid released_vol_ulid : Ulid).
Inductive MarkInitialOutcome :=
  | InitialClaimed
  | AlreadyExists (existing_vol_ulid : Ulid) (existing_state : NameState) (existing_owner : option string).
Inductive ImportRecordOutcome := Done | Lost (existing : option NameRecord).
Inductive RecordLatestSnapshotOutcome :=
  Recorded | AlreadyCurrent | StaleBinding (bound_vol_ulid : Ulid) | SnapshotAbsent | SnapshotRaced.
Inductive MarkClaimedOutcome := ClaimClaimed | ClaimAbsent | NotReleased (observed : NameState).
Inductive MarkClaimedForceOutcome := ForceClaimed (displaced_coordinator_id : option string) | ForceRaced.

Record ObservedRecord := mkObservedRecord { ob_record : NameRecord; ob_version : Version }.

(** [Some x <= Some y], with [None] least. *)
Definition max_option (a b : option Ulid) : option Ulid :=
  match a, b with
  | Some x, Some y => Some (Z.max x y)
  | Some x, None => Some x
  | None, b => b
  end.

Section verbs.
Context {HN : NameToml} {HT : UlidText}.

(** An unowned record is anyone's. *)
Definition check_owner (r : NameRecord) (coord_id : string) : unit + LifecycleError :=
  match nr_coordinator_id r with
  | Some existing => if decide (existing = coord_id) then inl () else inr (OwnershipConflict existing)
  | None => inl ()
  end.

Definition or_else (a b : option string) : option string := match a with Some _ => a | None => b end.

(** The owner's fields, filled in where they are missing. *)
Definition ensure_owner_fields (r : NameRecord) (coord_id : string) (hostname : option string) (now : string) : NameRecord :=
  mkNameRecord (nr_version r) (nr_vol_ulid r) (nr_size r) (or_else (nr_coordinator_id r) (Some coord_id)) (nr_state r)
    (nr_parent r) (or_else (nr_claimed_at r) (Some now)) (or_else (nr_hostname r) hostname)
    (nr_handoff_snapshot r) (nr_latest_snapshot r).

Definition with_state (s : NameState) (r : NameRecord) : NameRecord :=
  mkNameRecord (nr_version r) (nr_vol_ulid r) (nr_size r) (nr_coordinator_id r) s (nr_parent r) (nr_claimed_at r)
    (nr_hostname r) (nr_handoff_snapshot r) (nr_latest_snapshot r).

(** ** Stop, release, start *)

Definition mark_stopped (name coord_id : string) (hostname : option string) (now : string)
    : prog (MarkStoppedOutcome + LifecycleError) :=
  try_bind (lift (read_name_record name)) (λ got,
    match got with
    | None => Ret (inl StoppedAbsent)
    | Some (r, version) =>
        match check_owner r coord_id with
        | inr e => Ret (inr e)
        | inl _ =>
            match check_transition (nr_state r) Stop with
            | Proceed =>
                let r := ensure_owner_fields (with_state Stopped r) coord_id hostname now in
                try_bind (lift (update_name_record name r version)) (λ _, Ret (inl StoppedUpdated))
            | Idempotent => Ret (inl AlreadyStopped)
            | Reroute | Refuse => Ret (inr (InvalidTransition (nr_state r) Stop))
            end
        end
    end).

Definition released_record (handoff_snapshot : Ulid) (r : NameRecord) : NameRecord :=
  mkNameRecord (nr_version r) (nr_vol_ulid r) (nr_size r) None Released (nr_parent r) None None
    (Some handoff_snapshot) (max_option (nr_latest_snapshot r) (Some handoff_snapshot)).

Definition mark_released (name coord_id : string) (handoff_snapshot : Ulid) : prog (MarkReleasedOutcome + LifecycleError) :=
  try_bind (lift (read_name_record name)) (λ got,
    match got with
    | None => Ret (inl ReleasedAbsent)
    | Some (r, version) =>
        match check_owner r coord_id with
        | inr e => Ret (inr e)
        | inl _ =>
            match check_transition (nr_state r) Release with
            | Proceed =>
                try_bind (lift (update_name_record name (released_record handoff_snapshot r) version))
                  (λ _, Ret (inl (ReleasedUpdated (nr_vol_ulid r))))
            | Idempotent => Ret (inl AlreadyReleased)
            | Reroute | Refuse => Ret (inr (InvalidTransition (nr_state r) Release))
            end
        end
    end).

Definition mark_live (name coord_id : string) (hostname : option string) (now : string)
    : prog (MarkLiveOutcome + LifecycleError) :=
  try_bind (lift (read_name_record name)) (λ got,
    match got with
    | None => Ret (inl LiveAbsent)
    | Some (r, version) =>
        match check_owner r coord_id with
        | inr e => Ret (inr e)
        | inl _ =>
            match check_transition (nr_state r) Start with
            | Proceed =>
                let r := ensure_owner_fields (with_state Live r) coord_id hostname now in
                try_bind (lift (update_name_record name r version)) (λ _, Ret (inl Resumed))
            | Idempotent => Ret (inl AlreadyLive)
            | Reroute => Ret (inl LiveReleased)
            | Refuse => Ret (inr (InvalidTransition (nr_state r) Start))
            end
        end
    end).

(** ** Claims *)

(** The same fork again: the handoff stays the basis until the next release. *)
Definition reclaimed_record (coord_id : string) (hostname : option string) (now : string) (target_state : NameState)
    (r : NameRecord) : NameRecord :=
  mkNameRecord (nr_version r) (nr_vol_ulid r) (nr_size r) (Some coord_id) target_state (nr_parent r) (Some now) hostname
    (nr_handoff_snapshot r) (nr_latest_snapshot r).

Definition mark_reclaimed_local (name coord_id : string) (hostname : option string) (local_vol_ulid : Ulid)
    (target_state : NameState) (now : string) : prog (MarkReclaimedLocalOutcome + LifecycleError) :=
  try_bind (lift (read_name_record name)) (λ got,
    match got with
    | None => Ret (inl ReclaimedAbsent)
    | Some (r, version) =>
        match check_transition (nr_state r) Claim with
        | Proceed =>
            if decide (nr_vol_ulid r = local_vol_ulid) then
              try_bind (lift (update_name_record name (reclaimed_record coord_id hostname now target_state r) version))
                (λ _, Ret (inl Reclaimed))
            else Ret (inl (ForkMismatch local_vol_ulid (nr_vol_ulid r)))
        | Idempotent | Reroute | Refuse => Ret (inl (ReclaimedNotReleased (nr_state r) (nr_vol_ulid r)))
        end
    end).

(** A fork's parent pin: the released fork and its handoff snapshot. *)
Definition parent_pin (r : NameRecord) : option string :=
  (λ snap, ulid_to_string (nr_vol_ulid r) +:+ "/" +:+ ulid_to_string snap) <$> nr_handoff_snapshot r.

Definition rebound_record (coord_id : string) (hostname : option string) (now : string) (new_vol_ulid : Ulid)
    (target_state : NameState) (pin : option string) (r : NameRecord) : NameRecord :=
  mkNameRecord CURRENT_VERSION new_vol_ulid (nr_size r) (Some coord_id) target_state pin (Some now) hostname None None.

Definition mark_claimed (name coord_id : string) (hostname : option string) (new_vol_ulid : Ulid)
    (target_state : NameState) (now : string) : prog (MarkClaimedOutcome + LifecycleError) :=
  try_bind (lift (read_name_record name)) (λ got,
    match got with
    | None => Ret (inl ClaimAbsent)
    | Some (existing, version) =>
        match check_transition (nr_state existing) Claim with
        | Proceed =>
            let r := rebound_record coord_id hostname now new_vol_ulid target_state (parent_pin existing) existing in
            try_bind (lift (update_name_record name r version)) (λ _, Ret (inl ClaimClaimed))
        | Idempotent | Reroute | Refuse => Ret (inl (NotReleased (nr_state existing)))
        end
    end).

(** Conditioned on the version its caller observed; the caller checked the state. *)
Definition mark_claimed_force (name coord_id : string) (hostname : option string) (new_vol_ulid : Ulid)
    (pin : option string) (observed : ObservedRecord) (now : string) : prog (MarkClaimedForceOutcome + LifecycleError) :=
  r ← update_name_record name (rebound_record coord_id hostname now new_vol_ulid Stopped pin (ob_record observed))
        (ob_version observed);
  Ret match r with
      | inl _ => inl (ForceClaimed (nr_coordinator_id (ob_record observed)))
      | inr PreconditionFailed => inl ForceRaced
      | inr e => inr (LStore e)
      end.

(** The name's part of a forced claim (start_force_claim, then the orchestrator's
    rebind): a record of our own is not overridden, its
    unfinished claim is resumed without a write. *)
Inductive ForceClaimOutcome :=
  | ForceNotFound
  | ForceReleased
  | ForceRefused
  | ForceOurs
  | ForceResume
  | ForceDone (o : MarkClaimedForceOutcome).

Definition force_claim_name (name coord_id : string) (hostname : option string) (new_vol_ulid : Ulid)
    (pin : NameRecord → option string) (resume : bool) (now : string) : prog (ForceClaimOutcome + LifecycleError) :=
  try_bind (lift (read_name_record name)) (λ got,
    match got with
    | None => Ret (inl ForceNotFound)
    | Some (r, version) =>
        match check_transition (nr_state r) ForceClaim with
        | Proceed =>
            if decide (nr_coordinator_id r = Some coord_id) then Ret (inl (if resume then ForceResume else ForceOurs))
            else try_bind (mark_claimed_force name coord_id hostname new_vol_ulid (pin r) (mkObservedRecord r version) now)
                   (λ o, Ret (inl (ForceDone o)))
        | Reroute => Ret (inl ForceReleased)
        | Idempotent | Refuse => Ret (inl ForceRefused)
        end
    end).

(** ** Creation *)

Definition already_exists (r : NameRecord) : MarkInitialOutcome :=
  AlreadyExists (nr_vol_ulid r) (nr_state r) (nr_coordinator_id r).

(** A lost race is answered with the winner's record. *)
Definition create_initial_record (name : string) (r : NameRecord) : prog (MarkInitialOutcome + LifecycleError) :=
  try_bind (lift (read_name_record name)) (λ got,
    match got with
    | Some (existing, _) => Ret (inl (already_exists existing))
    | None =>
        c ← create_name_record name r;
        match c with
        | inl _ => Ret (inl InitialClaimed)
        | inr PreconditionFailed =>
            try_bind (lift (read_name_record name)) (λ again,
              Ret match again with
                  | Some (existing, _) => inl (already_exists existing)
                  | None => inr (LStore PreconditionFailed)
                  end)
        | inr e => Ret (inr (LStore e))
        end
    end).

Definition initial_record (coord_id : string) (hostname : option string) (vol_ulid : Ulid) (size : Z) (state : NameState)
    (now : string) : NameRecord :=
  mkNameRecord CURRENT_VERSION vol_ulid size (Some coord_id) state None (Some now) hostname None None.

Definition mark_initial_with_state (name coord_id : string) (hostname : option string) (vol_ulid : Ulid) (size : Z)
    (state : NameState) (now : string) : prog (MarkInitialOutcome + LifecycleError) :=
  create_initial_record name (initial_record coord_id hostname vol_ulid size state now).

Definition mark_initial (name coord_id : string) (hostname : option string) (vol_ulid : Ulid) (size : Z) (now : string)
    : prog (MarkInitialOutcome + LifecycleError) :=
  mark_initial_with_state name coord_id hostname vol_ulid size Live now.

(** A creation's and a fork's use of the name: claimed, and given back when the
    volume's local setup then fails ([placed]).  The rollback deletes whatever is
    there; one that fails is logged. *)
Inductive CreateNameOutcome := NameCreated | NameTaken (o : MarkInitialOutcome) | NameRolledBack.

Definition rollback_claim (name : string) : prog unit := DeleteK (name_key name) (λ _, Ret ()).

Definition create_volume_name (name coord_id : string) (hostname : option string) (vol_ulid : Ulid) (size : Z) (placed : bool)
    (now : string) : prog (CreateNameOutcome + LifecycleError) :=
  try_bind (mark_initial name coord_id hostname vol_ulid size now) (λ o,
    match o with
    | InitialClaimed =>
        if placed then Ret (inl NameCreated) else _ ← rollback_claim name; Ret (inl NameRolledBack)
    | AlreadyExists _ _ _ => Ret (inl (NameTaken o))
    end).

Definition rehomed_record (vol_ulid : Ulid) (size : Z) (handoff_snapshot : option Ulid) : NameRecord :=
  mkNameRecord CURRENT_VERSION vol_ulid size None Released None None None handoff_snapshot handoff_snapshot.

Definition mark_rehomed (name : string) (vol_ulid : Ulid) (size : Z) (handoff_snapshot : option Ulid)
    : prog (MarkInitialOutcome + LifecycleError) :=
  create_initial_record name (rehomed_record vol_ulid size handoff_snapshot).

(** ** Imports *)

(** The size is not known yet. *)
Definition mark_importing (name coord_id : string) (hostname : option string) (vol_ulid : Ulid) (now : string)
    : prog (MarkInitialOutcome + LifecycleError) :=
  create_initial_record name (initial_record coord_id hostname vol_ulid 0 Importing now).

Definition is_import (r : NameRecord) (coord_id : string) (vol_ulid : Ulid) : bool :=
  bool_decide (nr_state r = Importing ∧ nr_vol_ulid r = vol_ulid ∧ nr_coordinator_id r = Some coord_id).

Definition imported_record (vol_ulid : Ulid) (size : Z) (latest_snapshot : option Ulid) : NameRecord :=
  mkNameRecord CURRENT_VERSION vol_ulid size None Readonly None None None None latest_snapshot.

Definition mark_import_complete (name coord_id : string) (vol_ulid : Ulid) (size : Z) (latest_snapshot : option Ulid)
    : prog (ImportRecordOutcome + LifecycleError) :=
  try_bind (lift (read_name_record name)) (λ got,
    match got with
    | None => Ret (inl (Lost None))
    | Some (r, version) =>
        if is_import r coord_id vol_ulid then
          try_bind (lift (update_name_record name (imported_record vol_ulid size latest_snapshot) version)) (λ _, Ret (inl Done))
        else Ret (inl (Lost (Some r)))
    end).

Definition clear_importing (name coord_id : string) (vol_ulid : Ulid) : prog (ImportRecordOutcome + LifecycleError) :=
  try_bind (lift (read_name_record name)) (λ got,
    match got with
    | None => Ret (inl (Lost None))
    | Some (r, _) =>
        if is_import r coord_id vol_ulid
        then try_bind (lift (delete_name_record name)) (λ _, Ret (inl Done))
        else Ret (inl (Lost (Some r)))
    end).

(** ** Snapshots *)

Definition with_latest (snap_ulid : Ulid) (r : NameRecord) : NameRecord :=
  mkNameRecord (nr_version r) (nr_vol_ulid r) (nr_size r) (nr_coordinator_id r) (nr_state r) (nr_parent r) (nr_claimed_at r)
    (nr_hostname r) (nr_handoff_snapshot r) (Some snap_ulid).

Definition record_latest_snapshot (name : string) (vol_ulid snap_ulid : Ulid)
    : prog (RecordLatestSnapshotOutcome + LifecycleError) :=
  try_bind (lift (read_name_record name)) (λ got,
    match got with
    | None => Ret (inl SnapshotAbsent)
    | Some (r, version) =>
        if decide (nr_vol_ulid r = vol_ulid) then
          if match nr_latest_snapshot r with Some cur => bool_decide (snap_ulid ≤ cur) | None => false end
          then Ret (inl AlreadyCurrent)
          else
            u ← update_name_record name (with_latest snap_ulid r) version;
            Ret match u with
                | inl _ => inl Recorded
                | inr PreconditionFailed => inl SnapshotRaced
                | inr e => inr (LStore e)
                end
        else Ret (inl (StaleBinding (nr_vol_ulid r)))
    end).

(** ** Local markers *)

(** A volume directory's two park markers; a write or removal that fails is
    logged and leaves its marker. *)
Record Markers := mkMarkers { mk_stopped : bool; mk_released : option string }.
Record MarkerEnv := mkMarkerEnv { write_ok : bool; remove_stopped_ok : bool; remove_released_ok : bool }.

Definition clear_stopped (env : MarkerEnv) (m : Markers) : Markers :=
  if remove_stopped_ok env then mkMarkers false (mk_released m) else m.
Definition clear_released (env : MarkerEnv) (m : Markers) : Markers :=
  if remove_released_ok env then mkMarkers (mk_stopped m) None else m.

Definition reconcile_from (r : NameRecord) (coord_id : string) (env : MarkerEnv) (m : Markers) : Markers :=
  let owned_by_us := bool_decide (nr_coordinator_id r = Some coord_id) in
  if bool_decide (nr_state r ≠ Released) && negb owned_by_us then m
  else match nr_state r with
       | Live => clear_released env (clear_stopped env m)
       | Stopped => clear_released env (if mk_stopped m then m else if write_ok env then mkMarkers true (mk_released m) else m)
       | Released =>
           clear_stopped env
             (match mk_released m with
              | Some _ => m
              | None => if write_ok env
                        then mkMarkers (mk_stopped m) (Some (match nr_handoff_snapshot r with Some u => ulid_to_string u | None => EmptyString end))
                        else m
              end)
       | Readonly | Importing => m
       end.

(** The bucket decides; what cannot be read changes nothing. *)
Definition reconcile_marker (volume_name coord_id : string) (env : MarkerEnv) (m : Markers) : prog Markers :=
  got ← read_name_record volume_name;
  Ret match got with
      | inl (Some (r, _)) => reconcile_from r coord_id env m
      | _ => m
      end.
End verbs.
