(* ===== verification/LifecycleSpec.v ===== *)
(** * Names change hands only as the lifecycle allows

    Any number of coordinators run the verbs of lifecycle.rs at once against one
    bucket. A step of the system is one request of one of them, answered by the
    store. Every change of a name's record is one transition of the lifecycle,
    taken by the verb whose request it is, in its coordinator's name, from the
    record that is the current one. *)

From Stdlib Require Import Ascii String.
From stdpp Require Import base gmap list strings relations.
From S2P Require Import Prelude Text RewritePlanSpec NameRecord Lifecycle.
Open Scope Z_scope.

(** ** What is relied on *)

(** The toml crate reads back what it wrote, which is text. *)
Class NameTomlLaws (HN : NameToml) := {
  toml_text r s : toml_to_string r = Some s → is_utf8 s = true;
  toml_back r s : toml_to_string r = Some s → toml_probe s = Some (nr_version r) ∧ toml_record s = Some r
}.

(** An object store with conditional puts. A put that fails may still have
    landed, one that is acknowledged has; one that lands met its precondition; an
    ETag names one body. *)
Class ObjectStore := {
  bucket : Type;
  object_at : bucket → string → option (Body * Version);
  gets : bucket → string → Body * Version + StoreError → Prop;
  puts : bucket → string → Body → PutMode → bool → Version + StoreError → bucket → Prop;
  deletes : bucket → string → unit + StoreError → bucket → Prop;
  tag_body : Version → Body;
  gets_ok b key body v : gets b key (inl (body, v)) → object_at b key = Some (body, v);
  puts_landed b key body mode at_ r b' : puts b key body mode at_ r b' →
    ((∃ e, r = inr e) ∧ ∀ key', object_at b' key' = object_at b key') ∨
    (∃ v, object_at b' key = Some (body, v) ∧ (∀ key', key' ≠ key → object_at b' key' = object_at b key') ∧
       match mode with
       | Create => object_at b key = None
       | Update expected => ∃ body0, object_at b key = Some (body0, expected)
       end);
  deletes_effect b key r b' : deletes b key r b' →
    (∀ key', object_at b' key' = object_at b key') ∨
    (object_at b' key = None ∧ ∀ key', key' ≠ key → object_at b' key' = object_at b key');
  tag_names b key body v : object_at b key = Some (body, v) → tag_body v = body
}.

(** ** The lifecycle of a name *)

(** What a coordinator may be running.  [placed] says whether a creation's local
    setup, which follows its claim of the name, succeeds. *)
Inductive Verb :=
  | VStop (c : string) (host : option string) (now : string)
  | VRelease (c : string) (snap : Ulid)
  | VStart (c : string) (host : option string) (now : string)
  | VReclaim (c : string) (host : option string) (vol : Ulid) (target : NameState) (now : string)
  | VClaim (c : string) (host : option string) (vol : Ulid) (target : NameState) (now : string)
  | VForce (c : string) (host : option string) (vol : Ulid) (pin : NameRecord → option string) (resume : bool) (now : string)
  | VInitial (c : string) (host : option string) (vol : Ulid) (size : Z) (placed : bool) (now : string)
  | VRehome (vol : Ulid) (size : Z) (handoff : option Ulid)
  | VImport (c : string) (host : option string) (vol : Ulid) (now : string)
  | VImportDone (c : string) (vol : Ulid) (size : Z) (snap : option Ulid)
  | VImportClear (c : string) (vol : Ulid)
  | VSnapshot (vol snap : Ulid).

Definition verb_ok (v : Verb) : Prop :=
  match v with VReclaim _ _ _ t _ | VClaim _ _ _ t _ => t = Live ∨ t = Stopped | _ => True end.

(** The import a verb ends, and the size of the volume whose creation it gives
    back. *)
Definition finish_key (v : Verb) : option Ulid :=
  match v with VImportDone _ u _ _ | VImportClear _ u => Some u | _ => None end.
Definition rolls_back (v : Verb) : option Z :=
  match v with VInitial _ _ _ size false _ => Some size | _ => None end.

Definition mine (c : string) (r : NameRecord) : Prop := nr_coordinator_id r = Some c.
Definition taken (c : string) (host : option string) (now : string) (r : NameRecord) : Prop :=
  mine c r ∧ nr_claimed_at r = Some now ∧ nr_hostname r = host.
Definition unowned (r : NameRecord) : Prop := nr_coordinator_id r = None ∧ nr_claimed_at r = None ∧ nr_hostname r = None.
Definition held (r : NameRecord) : Prop := nr_state r = Live ∨ nr_state r = Stopped.
Definition bound (vol : Ulid) (size : Z) (r : NameRecord) : Prop :=
  nr_version r = CURRENT_VERSION ∧ nr_vol_ulid r = vol ∧ nr_size r = size.
Definition snapshots (handoff latest : option Ulid) (r : NameRecord) : Prop :=
  nr_handoff_snapshot r = handoff ∧ nr_latest_snapshot r = latest.
Definition same_volume (r r' : NameRecord) : Prop :=
  nr_version r' = nr_version r ∧ nr_vol_ulid r' = nr_vol_ulid r ∧ nr_size r' = nr_size r ∧ nr_parent r' = nr_parent r.
Definition same_snapshots (r r' : NameRecord) : Prop := snapshots (nr_handoff_snapshot r) (nr_latest_snapshot r) r'.
Definition import_of (c : string) (vol : Ulid) (r : NameRecord) : Prop :=
  nr_state r = Importing ∧ mine c r ∧ nr_vol_ulid r = vol.

(** The populated fields match the state. *)
Definition well_formed (r : NameRecord) : Prop :=
  nr_version r = CURRENT_VERSION ∧
  match nr_state r with
  | Live | Stopped | Importing => is_Some (nr_coordinator_id r) ∧ is_Some (nr_claimed_at r)
  | Released | Readonly => unowned r
  end.

(** What each verb, run by its coordinator, may do to the record. *)
Inductive name_step {HT : UlidText} : Verb → option NameRecord → option NameRecord → Prop :=
  (* a fresh name: created, rehomed as released, or importing *)
  | ns_initial c host vol size placed now r : nr_state r = Live → taken c host now r → bound vol size r → nr_parent r = None →
      snapshots None None r → name_step (VInitial c host vol size placed now) None (Some r)
  | ns_rehome vol size handoff r : nr_state r = Released → unowned r → bound vol size r → nr_parent r = None →
      snapshots handoff handoff r → name_step (VRehome vol size handoff) None (Some r)
  | ns_import c host vol now r : nr_state r = Importing → taken c host now r → bound vol 0 r → nr_parent r = None →
      snapshots None None r → name_step (VImport c host vol now) None (Some r)
  (* stop and start: the owner's own, which it stays *)
  | ns_stop c host now r r' : nr_state r = Live → nr_state r' = Stopped → mine c r → mine c r' →
      nr_claimed_at r' = nr_claimed_at r → same_volume r r' → same_snapshots r r' →
      name_step (VStop c host now) (Some r) (Some r')
  | ns_start c host now r r' : nr_state r = Stopped → nr_state r' = Live → mine c r → mine c r' →
      nr_claimed_at r' = nr_claimed_at r → same_volume r r' → same_snapshots r r' →
      name_step (VStart c host now) (Some r) (Some r')
  (* release, by the owner, with the snapshot the next owner forks from *)
  | ns_release c snap r r' : held r → mine c r → nr_state r' = Released → unowned r' → same_volume r r' →
      snapshots (Some snap) (max_option (nr_latest_snapshot r) (Some snap)) r' →
      name_step (VRelease c snap) (Some r) (Some r')
  (* the released fork taken up again where it is *)
  | ns_reclaim c host vol target now r r' : nr_state r = Released → nr_vol_ulid r = vol → nr_state r' = target → held r' →
      taken c host now r' → same_volume r r' → same_snapshots r r' →
      name_step (VReclaim c host vol target now) (Some r) (Some r')
  (* a released name bound to a new fork of its handoff *)
  | ns_claim c host vol target now r r' : nr_state r = Released → nr_state r' = target → held r' → taken c host now r' →
      bound vol (nr_size r) r' → nr_parent r' = parent_pin r → snapshots None None r' →
      name_step (VClaim c host vol target now) (Some r) (Some r')
  (* a held name taken from an owner that is another *)
  | ns_force c host vol pin resume now r r' : held r → ¬ mine c r → nr_state r' = Stopped → taken c host now r' →
      bound vol (nr_size r) r' → nr_parent r' = pin r → snapshots None None r' →
      name_step (VForce c host vol pin resume now) (Some r) (Some r')
  (* an import done, or given up, by its importer *)
  | ns_imported c vol size snap r r' : import_of c vol r → nr_state r' = Readonly → unowned r' → bound vol size r' →
      nr_parent r' = None → snapshots None snap r' → name_step (VImportDone c vol size snap) (Some r) (Some r')
  | ns_import_failed c vol r : import_of c vol r → name_step (VImportClear c vol) (Some r) None
  (* a newer published snapshot of the bound fork *)
  | ns_snapshot vol snap r : nr_vol_ulid r = vol → (∀ cur, nr_latest_snapshot r = Some cur → cur < snap) →
      name_step (VSnapshot vol snap) (Some r) (Some (with_latest snap r))
  (* a creation given back: whoever holds the name by now *)
  | ns_rolled_back c host vol size now r : nr_state r ≠ Importing → nr_size r = size →
      name_step (VInitial c host vol size false now) (Some r) None.

(** ** The system *)

Definition forget {A} (p : prog A) : prog unit := p ≫= λ _, Ret ().

Section system.
Context {HN : NameToml} {HNL : NameTomlLaws HN} {HT : UlidText} {HO : ObjectStore}.

Definition prog_of (name : string) (v : Verb) : prog unit :=
  match v with
  | VStop c host now => forget (mark_stopped name c host now)
  | VRelease c snap => forget (mark_released name c snap)
  | VStart c host now => forget (mark_live name c host now)
  | VReclaim c host vol target now => forget (mark_reclaimed_local name c host vol target now)
  | VClaim c host vol target now => forget (mark_claimed name c host vol target now)
  | VForce c host vol pin resume now => forget (force_claim_name name c host vol pin resume now)
  | VInitial c host vol size placed now => forget (create_volume_name name c host vol size placed now)
  | VRehome vol size handoff => forget (mark_rehomed name vol size handoff)
  | VImport c host vol now => forget (mark_importing name c host vol now)
  | VImportDone c vol size snap => forget (mark_import_complete name c vol size snap)
  | VImportClear c vol => forget (clear_importing name c vol)
  | VSnapshot vol snap => forget (record_latest_snapshot name vol snap)
  end.

Record thread := mkThread { t_name : string; t_verb : Verb; t_prog : prog unit }.

(** One request and its answer. *)
Inductive request_step : bucket → prog unit → bucket → prog unit → Prop :=
  | rs_get b key k r : gets b key r → request_step b (GetK key k) b (k r)
  | rs_put b key body mode at_ k r b' : puts b key body mode at_ r b' → request_step b (PutK key body mode at_ k) b' (k r)
  | rs_delete b key k r b' : deletes b key r b' → request_step b (DeleteK key k) b' (k r).

(** The imports that threads of the pool are ending. *)
Definition finishing (pool : list thread) : list (string * Ulid) :=
  omap (λ t, pair (t_name t) <$> finish_key (t_verb t)) pool.

Record sys := mkSys { s_bucket : bucket; s_pool : list thread }.

(** A move, with the thread whose request it answers. An importer ends its import
    once at a time; a thread may be lost with its coordinator at any point. *)
Inductive sys_step : option thread → sys → sys → Prop :=
  | ss_spawn b pool name v : verb_ok v → (∀ vol, finish_key v = Some vol → (name, vol) ∉ finishing pool) →
      sys_step None (mkSys b pool) (mkSys b (mkThread name v (prog_of name v) :: pool))
  | ss_exit b l1 t l2 : sys_step None (mkSys b (l1 ++ t :: l2)) (mkSys b (l1 ++ l2))
  | ss_run b l1 t l2 b' p' : request_step b (t_prog t) b' p' →
      sys_step (Some t) (mkSys b (l1 ++ t :: l2)) (mkSys b' (l1 ++ mkThread (t_name t) (t_verb t) p' :: l2)).

Definition sys_moves (s s' : sys) : Prop := ∃ l, sys_step l s s'.

Definition record_at (b : bucket) (name : string) : option NameRecord :=
  '(body, _) ← object_at b (name_key name);
  match parse body with inl r => Some r | inr _ => None end.

(** ** Requests that keep to the lifecycle *)

(** A body is the text of a well-formed record. *)
Definition recorded (body : Body) (r : NameRecord) : Prop := toml_to_string r = Some body ∧ well_formed r.

Definition is_delete {A} (p : prog A) : Prop := match p with DeleteK _ _ => True | _ => False end.

Fixpoint good {A} (name : string) (v : Verb) (p : prog A) : Prop :=
  match p with
  | Ret _ => True
  | GetK key k => key = name_key name ∧ ∀ r,
      (∀ body t, r = inl (body, t) → body = tag_body t ∧ ∃ rec, recorded body rec) →
      good name v (k r) ∧
      (is_delete (k r) → ∃ body t rec c vol, r = inl (body, t) ∧ recorded body rec ∧ v = VImportClear c vol ∧ is_import rec c vol = true)
  | PutK key body mode _ k => key = name_key name ∧
      (∃ r', recorded body r' ∧
         match mode with
         | Create => name_step v None (Some r')
         | Update t => ∃ r, recorded (tag_body t) r ∧ name_step v (Some r) (Some r')
         end) ∧
      ∀ ans, good name v (k ans) ∧ (is_delete (k ans) → is_Some (rolls_back v) ∧ mode = Create ∧ ∃ ver, ans = inl ver)
  | DeleteK key k => key = name_key name ∧ ∀ ans, good name v (k ans) ∧ ¬ is_delete (k ans)
  end.

Lemma name_key_inj a b : name_key a = name_key b → a = b.
Proof. unfold name_key. intros H. by repeat (injection H as H). Qed.

Lemma parse_recorded body r : recorded body r → parse body = inl r.
Proof.
  intros [Ht [Hv _]]. unfold parse, from_toml. rewrite (toml_text _ _ Ht). destruct (toml_back _ _ Ht) as [-> ->].
  by rewrite Hv.
Qed.

Lemma recorded_fun body r r' : recorded body r → recorded body r' → r = r'.
Proof. intros H%parse_recorded H'%parse_recorded. congruence. Qed.

(** Reading, then a decision on a well-formed record. *)
Lemma good_read {A} name v (f : option (NameRecord * Version) → prog (A + LifecycleError)) :
  good name v (forget (f None)) → ¬ is_delete (forget (f None)) →
  (∀ r t, recorded (tag_body t) r → good name v (forget (f (Some (r, t)))) ∧
     (is_delete (forget (f (Some (r, t)))) → ∃ c vol, v = VImportClear c vol ∧ is_import r c vol = true)) →
  good name v (forget (try_bind (lift (read_name_record name)) f)).
Proof.
  intros Hn Hd Hs. split; [done|]. intros [[body t]|[]] Hr; cbn; try done.
  destruct (Hr body t eq_refl) as [-> [rec Hrec]]. rewrite (parse_recorded _ _ Hrec).
  destruct (Hs rec t Hrec) as [Hg Hc]. split; [exact Hg|]. intros Hdel. destruct (Hc Hdel) as (c & vol & -> & Hi).
  by exists (tag_body t), t, rec, c, vol.
Qed.

Lemma good_bind {A B} name v (p : prog A) (f : A → prog B) :
  good name v p → (∀ a, good name v (f a) ∧ ¬ is_delete (f a)) → good name v (prog_bind f p).
Proof.
  intros Hp Hf. assert (∀ q : prog A, is_delete (prog_bind f q) → is_delete q) as Hd.
  { intros []; cbn; try done. intros H. exfalso. revert H. apply Hf. }
  induction p as [a|key k IH|key body mode at_ k IH|key k IH]; cbn in Hp |- *; [apply Hf|..].
  - destruct Hp as [-> Hp]. split; [done|]. intros r Hr. destruct (Hp r Hr) as [Hg Hc]. split; [by apply IH|]. auto.
  - destruct Hp as (-> & Hb & Hp). split; [done|]. split; [done|]. intros ans. destruct (Hp ans). split; [by apply IH|auto].
  - destruct Hp as (-> & Hp). split; [done|]. intros ans. destruct (Hp ans). split; [by apply IH|auto].
Qed.

Lemma not_delete_bind {A B} (p : prog A) (f : A → prog B) :
  ¬ is_delete p → (∀ a, ¬ is_delete (f a)) → ¬ is_delete (prog_bind f p).
Proof. destruct p; cbn; auto. Qed.

(** A write under the version read. *)
Lemma good_update name v r' t r :
  recorded (tag_body t) r → well_formed r' → name_step v (Some r) (Some r') → good name v (update_name_record name r' t).
Proof.
  intros Hr Hw Hstep. unfold update_name_record, serialise.
  destruct (toml_to_string r') as [body|] eqn:Hb; cbn; [|done].
  assert (∃ r', recorded body r' ∧ ∃ r, recorded (tag_body t) r ∧ name_step v (Some r) (Some r')) as Hput
    by (exists r'; split; [done|]; by exists r).
  split; [done|]. split; [exact Hput|]. intros [ver|[]]; cbn; by (split; [|intros []]).
Qed.

Lemma update_not_delete name r t : ¬ is_delete (update_name_record name r t).
Proof. unfold update_name_record. destruct (serialise r); intros []. Qed.

(** A write of a name nobody has, and what its acknowledgement leads to. *)
Lemma good_create_then {B} name v r' (f : Version + NameStoreError → prog B) :
  well_formed r' → name_step v None (Some r') → (∀ a, good name v (f a)) →
  (∀ a, is_delete (f a) → is_Some (rolls_back v) ∧ ∃ ver, a = inl ver) →
  good name v (prog_bind f (create_name_record name r')).
Proof.
  intros Hw Hstep Hf Hd. unfold create_name_record, serialise.
  destruct (toml_to_string r') as [body|] eqn:Hb; cbn; [|apply Hf].
  assert (∃ r', recorded body r' ∧ name_step v None (Some r')) as Hput by (by exists r').
  assert (∀ e, is_delete (f (inr e)) → False) as He by (intros e H; apply Hd in H as (_ & ver & [=])).
  assert (∀ ver, is_delete (f (inl ver)) → is_Some (rolls_back v) ∧ Create = Create ∧ ∃ ver', inl ver = inl ver' :> Version + StoreError)
    as Hver by (intros ver H; apply Hd in H as [H _]; split_and!; eauto).
  split; [done|]. split; [exact Hput|]. intros [ver|[]]; cbn; (split; [|first [apply Hver|by intros H%He|intros []]]); try apply Hf.
  split; [done|]. split; [exact Hput|]. intros [ver|[]]; cbn; (split; [apply Hf|first [apply Hver|by intros H%He]]).
Qed.

(** A verb's program: good, and its first request is no delete. *)
Definition fine {A} (name : string) (v : Verb) (p : prog A) : Prop := good name v p ∧ ¬ is_delete p.

Lemma fine_ret {A} name v (a : A) : fine name v (Ret a).
Proof. split; [done|intros []]. Qed.

Lemma fine_bind {A B} name v (p : prog A) (f : A → prog B) :
  fine name v p → (∀ a, fine name v (f a)) → fine name v (prog_bind f p).
Proof. intros [Hg Hd] Hf. split; [by apply good_bind|]. apply not_delete_bind; [done|]. intros a. apply Hf. Qed.

Lemma fine_try {A B} name v (p : prog (A + LifecycleError)) (f : A → prog (B + LifecycleError)) :
  fine name v p → (∀ a, fine name v (f a)) → fine name v (try_bind p f).
Proof. intros Hp Hf. apply fine_bind; [done|]. intros [a|e]; [apply Hf|apply fine_ret]. Qed.

Lemma fine_lift {A} name v (p : prog (A + NameStoreError)) : fine name v p → fine name v (lift p).
Proof. intros Hp. apply fine_bind; [done|]. intros r. apply fine_ret. Qed.

Lemma fine_read {A} name v (f : option (NameRecord * Version) → prog (A + LifecycleError)) :
  fine name v (f None) → (∀ r t, recorded (tag_body t) r → fine name v (f (Some (r, t)))) →
  fine name v (forget (try_bind (lift (read_name_record name)) f)).
Proof.
  intros Hn Hs. assert (∀ g, fine name v (f g) → fine name v (forget (f g))) as Hfg.
  { intros g Hg. apply fine_bind; [done|]. intros a. apply fine_ret. }
  split; [|intros []]. apply good_read; [by apply Hfg..|]. intros r t Hr. destruct (Hfg _ (Hs r t Hr)) as [Hg Hd].
  split; [done|]. intros H. by apply Hd in H.
Qed.

Lemma fine_update name v r' t r :
  recorded (tag_body t) r → well_formed r' → name_step v (Some r) (Some r') → fine name v (update_name_record name r' t).
Proof. intros. split; [by eapply good_update|apply update_not_delete]. Qed.

(** A conditional update of what was read, whose answer is reported. *)
Lemma fine_write {A} name v r r' t (a : A) :
  recorded (tag_body t) r → well_formed r' → name_step v (Some r) (Some r') →
  fine name v (try_bind (lift (update_name_record name r' t)) (λ _, Ret (inl a))).
Proof. intros Hr Hw Hs. apply fine_try; [|intros _; apply fine_ret]. apply fine_lift. by eapply fine_update. Qed.

(** The owner check lets a held record's owner through, and nobody else. *)
Lemma check_owner_mine t r c x : recorded (tag_body t) r → held r → check_owner r c = inl x → mine c r.
Proof.
  intros (_ & _ & Hw) Hh. unfold check_owner, mine. destruct (nr_coordinator_id r) as [o|]; [by case_decide; subst|].
  destruct Hh as [Hs|Hs]; rewrite Hs in Hw; by destruct Hw as [[? ?] _].
Qed.

Lemma owned_fields t r c host now s : recorded (tag_body t) r → held r → mine c r →
  let r' := ensure_owner_fields (with_state s r) c host now in
  mine c r' ∧ nr_claimed_at r' = nr_claimed_at r ∧ same_volume r r' ∧ same_snapshots r r' ∧
  (s = Live ∨ s = Stopped → well_formed r').
Proof.
  intros (_ & Hv & Hw) Hh Hm. assert (is_Some (nr_claimed_at r)) as [a Ha] by (destruct Hh as [Hs|Hs]; rewrite Hs in Hw; apply Hw).
  unfold mine in Hm |- *. cbn. rewrite Hm, Ha. cbn. repeat split; [done|].
  destruct H as [-> | ->]; cbn; rewrite Hm, Ha; cbn; eauto.
Qed.

Lemma bind_assoc_good {A B C} name v (p : prog A) (g : A → prog B) (f : B → prog C) :
  good name v (prog_bind (λ a, prog_bind f (g a)) p) → good name v (prog_bind f (prog_bind g p)).
Proof.
  assert (∀ q : prog A, is_delete (prog_bind f (prog_bind g q)) → is_delete (prog_bind (λ a, prog_bind f (g a)) q)) as Hd
    by by intros [].
  induction p as [a|key k IH|key body mode at_ k IH|key k IH]; cbn; [done|..].
  - intros [-> Hp]. split; [done|]. intros r Hr. destruct (Hp r Hr). split; [by apply IH|auto].
  - intros (-> & Hb & Hp). split; [done|]. split; [done|]. intros ans. destruct (Hp ans). split; [by apply IH|auto].
  - intros (-> & Hp). split; [done|]. intros ans. destruct (Hp ans). split; [by apply IH|auto].
Qed.

Lemma bind_assoc_fine {A B C} name v (p : prog A) (g : A → prog B) (f : B → prog C) :
  fine name v (prog_bind (λ a, prog_bind f (g a)) p) → fine name v (prog_bind f (prog_bind g p)).
Proof. intros [Hg Hd]. split; [by apply bind_assoc_good|]. intros H. apply Hd. by destruct p. Qed.

(** A claim of a free name, then [f] of how it went. *)
Lemma fine_create {B} name v r (f : MarkInitialOutcome + LifecycleError → prog B) :
  well_formed r → name_step v None (Some r) → (∀ o, good name v (f o)) →
  (∀ o, is_delete (f o) → is_Some (rolls_back v) ∧ o = inl InitialClaimed) →
  fine name v (prog_bind f (create_initial_record name r)).
Proof.
  intros Hw Hs Hf Hd. assert (∀ e, ¬ is_delete (f (inr e))) as He by (intros e H; by apply Hd in H as [_ [=]]).
  assert (∀ r0, ¬ is_delete (f (inl (already_exists r0)))) as Ha by (intros r0 H; by apply Hd in H as [_ [=]]).
  split; [|intros []]. unfold create_initial_record. split; [done|]. intros [[body t]|e] Hr; cbn.
  { destruct (Hr body t eq_refl) as [-> [rec Hrec]]. rewrite (parse_recorded _ _ Hrec). cbn.
    split; [apply Hf|]. intros H. by apply Ha in H. }
  destruct e; cbn; try (split; [apply Hf|intros H; by apply He in H]).
  split.
  - apply bind_assoc_good, good_create_then; [done..| |].
    + intros [ver|[]]; cbn; try apply Hf. split; [done|]. intros [[body t]|[]] Hr'; cbn; try (split; [apply Hf|by intros H%He]).
      destruct (Hr' body t eq_refl) as [-> [rec Hrec]]. rewrite (parse_recorded _ _ Hrec). cbn.
      split; [apply Hf|]. intros H. by apply Ha in H.
    + intros [ver|[]]; cbn; try (by intros H%He); try (by intros []). intros H. apply Hd in H as [H _]. eauto.
  - intros H. exfalso. unfold create_name_record, serialise in H. destruct (toml_to_string r); cbn in H; [done|by apply He in H].
Qed.

Lemma verb_fine name v : verb_ok v → fine name v (prog_of name v).
Proof.
  intros Hv. destruct v as [c host now|c snap|c host now|c host vol target now|c host vol target now|c host vol pin resume now
    |c host vol size placed now|vol size handoff|c host vol now|c vol size snap|c vol|vol snap]; cbn [prog_of].
  - apply fine_read; [apply fine_ret|]. intros r t Hr. destruct (check_owner r c) as [x|e] eqn:Ho; [|apply fine_ret].
    destruct (nr_state r) eqn:Hst; cbn [check_transition]; try apply fine_ret.
    apply (check_owner_mine t) in Ho; [|done|by left].
    destruct (owned_fields t r c host now Stopped Hr (or_introl Hst) Ho) as (? & ? & ? & ? & Hw).
    apply fine_write with r; [done|by apply Hw; right|by apply ns_stop].
  - apply fine_read; [apply fine_ret|]. intros r t Hr. destruct (check_owner r c) as [x|e] eqn:Ho; [|apply fine_ret].
    destruct (nr_state r) eqn:Hst; cbn [check_transition]; try apply fine_ret.
    all: assert (held r) as Hh by (unfold held; tauto); apply (check_owner_mine t) in Ho; [|done..].
    all: apply fine_write with r; [done|split; [apply Hr|done]|by apply ns_release].
  - apply fine_read; [apply fine_ret|]. intros r t Hr. destruct (check_owner r c) as [x|e] eqn:Ho; [|apply fine_ret].
    destruct (nr_state r) eqn:Hst; cbn [check_transition]; try apply fine_ret.
    apply (check_owner_mine t) in Ho; [|done|by right].
    destruct (owned_fields t r c host now Live Hr (or_intror Hst) Ho) as (? & ? & ? & ? & Hw).
    apply fine_write with r; [done|by apply Hw; left|by apply ns_start].
  - apply fine_read; [apply fine_ret|]. intros r t Hr.
    destruct (nr_state r) eqn:Hst; cbn [check_transition]; try apply fine_ret. case_decide; [|apply fine_ret].
    apply fine_write with r; [done|split; [apply Hr|]|apply ns_reclaim; try done; exact Hv].
    cbn. destruct Hv as [-> | ->]; eauto.
  - apply fine_read; [apply fine_ret|]. intros r t Hr.
    destruct (nr_state r) eqn:Hst; cbn [check_transition]; try apply fine_ret.
    apply fine_write with r; [done|split; [done|]|apply ns_claim; try done; exact Hv].
    cbn. destruct Hv as [-> | ->]; eauto.
  - apply fine_read; [apply fine_ret|]. intros r t Hr.
    destruct (nr_state r) eqn:Hst; cbn [check_transition]; try apply fine_ret.
    all: case_decide; [apply fine_ret|]; apply fine_try; [|intros o; apply fine_ret].
    all: apply fine_bind; [|intros [ver|[]]; apply fine_ret].
    all: apply fine_update with r; [done|split; [done|cbn; eauto]|apply ns_force; try done; unfold held; tauto].
  - apply bind_assoc_fine, fine_create; [split; [done|cbn; eauto]|by apply ns_initial| |].
    + intros [[]|e]; try done. destruct placed; [done|]. split; [done|]. intros ans. split; [done|intros []].
    + intros [[]|e]; cbn; try (by intros []). destruct placed; cbn; [intros []|]. eauto.
  - apply fine_create; [done|by apply ns_rehome|done|intros o []].
  - apply fine_create; [split; [done|cbn; eauto]|by apply ns_import|done|intros o []].
  - apply fine_read; [apply fine_ret|]. intros r t Hr. destruct (is_import r c vol) eqn:Hi; [|apply fine_ret].
    apply bool_decide_eq_true in Hi as (Hst & Hvol & Hc). apply fine_write with r; [done|done|]. by apply ns_imported.
  - split; [|intros []]. apply good_read; [done|intros []|]. intros r t Hr. destruct (is_import r c vol) eqn:Hi.
    + split; [|intros _; by exists c, vol]. split; [done|]. intros [[]|[]]; cbn; (split; [done|intros []]).
    + split; [done|intros []].
  - apply fine_read; [apply fine_ret|]. intros r t Hr. case_decide; [|apply fine_ret].
    destruct (nr_latest_snapshot r) as [cur|] eqn:Hl; [case_bool_decide; [apply fine_ret|]|];
      (apply fine_bind; [|intros [ver|[]]; apply fine_ret]);
      (apply fine_update with r; [done|apply Hr|apply ns_snapshot; [done|]; rewrite Hl; intros cur' [= <-]; lia]).
Qed.

(** ** Steps *)

Definition clean (b : bucket) : Prop :=
  ∀ name body v, object_at b (name_key name) = Some (body, v) → ∃ r, recorded body r.

Definition importing_at (b : bucket) (name : string) (c : string) (vol : Ulid) : Prop :=
  ∃ r, record_at b name = Some r ∧ is_import r c vol = true.

(** The name of a volume that a creation made, and that is nobody's import. *)
Definition standing (b : bucket) (name : string) (size : Z) : Prop :=
  ∃ r, record_at b name = Some r ∧ nr_state r ≠ Importing ∧ nr_size r = size.

(** A pending delete is of this import's record, or of the name this creation
    made. *)
Definition delete_ready (b : bucket) (name : string) (v : Verb) (p : prog unit) : Prop :=
  is_delete p → (∃ c vol, v = VImportClear c vol ∧ importing_at b name c vol) ∨
                (∃ size, rolls_back v = Some size ∧ standing b name size).

Definition rolling (v : Verb) (p : prog unit) : Prop := is_delete p ∧ is_Some (rolls_back v).

(** An import's record is left by its end only. *)
Lemma step_import v r o c vol : name_step v (Some r) o → is_import r c vol = true →
  (∃ r', o = Some r' ∧ is_import r' c vol = true) ∨ finish_key v = Some vol.
Proof.
  intros Hs Hi. pose proof Hi as (Hst & Hvol & Hc)%bool_decide_eq_true.
  inversion Hs; subst; unfold held, import_of, mine in *; try (by right; cbn; naive_solver congruence); try congruence;
    try (by destruct_or!; congruence). left. by exists (with_latest snap r).
Qed.

(** A volume's record stays one, of its size, until it is given back. *)
Lemma step_standing v r o : name_step v (Some r) o → nr_state r ≠ Importing →
  (∃ r', o = Some r' ∧ nr_state r' ≠ Importing ∧ nr_size r' = nr_size r) ∨ o = None ∧ is_Some (rolls_back v).
Proof.
  intros Hs Hi. inversion Hs; subst; unfold held, import_of, same_volume, bound in *; try (by right; cbn; eauto); try (by destruct_and!);
    left; eexists; (split; [done|]); destruct_and?; try done; (split; [|congruence]); try congruence; by destruct_or!; congruence.
Qed.

Lemma record_at_same b b' name : object_at b' (name_key name) = object_at b (name_key name) → record_at b' name = record_at b name.
Proof. unfold record_at. by intros ->. Qed.

Lemma record_at_recorded b name body v r :
  object_at b (name_key name) = Some (body, v) → recorded body r → record_at b name = Some r.
Proof. unfold record_at. intros -> Hr. cbn. by rewrite (parse_recorded _ _ Hr). Qed.

Lemma record_at_none b name : object_at b (name_key name) = None → record_at b name = None.
Proof. unfold record_at. by intros ->. Qed.

(** What one request does to the names. *)
Record effect (name : string) (v : Verb) (p : prog unit) (b b' : bucket) : Prop := {
  ef_clean : clean b';
  ef_other n : n ≠ name → record_at b' n = record_at b n;
  ef_step : record_at b' name = record_at b name ∨ name_step v (record_at b name) (record_at b' name);
  ef_import c vol : importing_at b name c vol → importing_at b' name c vol ∨ finish_key v = Some vol;
  ef_standing size : standing b name size → standing b' name size ∨ rolling v p
}.

Lemma effect_same name v p b b' : clean b → (∀ key, object_at b' key = object_at b key) → effect name v p b b'.
Proof.
  intros Hc Hs. assert (∀ n, record_at b' n = record_at b n) as Hr by (intros n; by apply record_at_same).
  split; [|by intros n _|by left|..].
  - intros n body ver. rewrite Hs. apply Hc.
  - intros c vol (r & Hr' & Hi). left. exists r. by rewrite Hr.
  - intros size (r & Hr' & Hi). left. exists r. by rewrite Hr.
Qed.

Lemma effect_put name v p b b' body ver r' :
  clean b → recorded body r' → object_at b' (name_key name) = Some (body, ver) →
  (∀ key, key ≠ name_key name → object_at b' key = object_at b key) →
  name_step v (record_at b name) (Some r') → effect name v p b b'.
Proof.
  intros Hc Hr Ho Hs Hstep. pose proof (record_at_recorded b' name body ver r' Ho Hr) as Hr'. split.
  - intros n body' ver'. destruct (decide (n = name)) as [->|Hn]; [rewrite Ho; intros [= <- <-]; by exists r'|].
    rewrite Hs by (intros H; by apply name_key_inj in H). apply Hc.
  - intros n Hn. apply record_at_same, Hs. intros H. by apply name_key_inj in H.
  - right. by rewrite Hr'.
  - intros c vol (r & Hra & Hi). rewrite Hra in Hstep. destruct (step_import _ _ _ _ _ Hstep Hi) as [(? & [= <-] & H)|H]; [left|by right].
    by exists r'.
  - intros size (r & Hra & Hi & Hsz). rewrite Hra in Hstep. destruct (step_standing _ _ _ Hstep Hi) as [(? & [= <-] & Hi' & Hsz')|[[=] _]].
    left. exists r'. by rewrite Hsz'.
Qed.

Lemma effect_delete name v p b b' r :
  clean b → record_at b name = Some r → object_at b' (name_key name) = None →
  (∀ key, key ≠ name_key name → object_at b' key = object_at b key) → name_step v (Some r) None →
  (∀ c vol, is_import r c vol = true → finish_key v = Some vol) → (nr_state r ≠ Importing → rolling v p) → effect name v p b b'.
Proof.
  intros Hc Hra Ho Hs Hstep Hi Hst.
  assert (∀ n, n ≠ name → object_at b' (name_key n) = object_at b (name_key n)) as Hn.
  { intros n Hne. apply Hs. intros H. by apply name_key_inj in H. }
  split.
  - intros n body ver. destruct (decide (n = name)) as [->|Hne]; [by rewrite Ho|]. rewrite Hn by done. apply Hc.
  - intros n Hne. by apply record_at_same, Hn.
  - right. by rewrite Hra, (record_at_none _ _ Ho).
  - intros c vol (r' & Hra' & Hi'). right. rewrite Hra in Hra'. injection Hra' as <-. by apply (Hi c).
  - intros size (r' & Hra' & Hst' & _). right. rewrite Hra in Hra'. injection Hra' as <-. auto.
Qed.

Lemma request_effect name v b p b' p' :
  request_step b p b' p' → clean b → good name v p → delete_ready b name v p →
  effect name v p b b' ∧ good name v p' ∧ delete_ready b' name v p' ∧ (rolling v p' → record_at b name = None).
Proof.
  intros Hstep Hc Hg Hd. destruct Hstep as [b key k r Hget|b key body mode at_ k r b' Hput|b key k r b' Hdel]; cbn in Hg.
  - destruct Hg as [-> Hg]. destruct (Hg r) as [Hk Hkd].
    { intros body t ->. apply gets_ok in Hget. split; [by apply tag_names in Hget|by eapply Hc]. }
    split; [by apply effect_same|]. split; [done|]. split.
    + intros Hp'. destruct (Hkd Hp') as (body & t & rec & c & vol & -> & Hrec & -> & Hi).
      left. exists c, vol. split; [done|]. exists rec. split; [|done]. apply gets_ok in Hget. by eapply record_at_recorded.
    + intros [Hp' [x Hx]]. destruct (Hkd Hp') as (? & ? & ? & ? & ? & _ & _ & -> & _). discriminate.
  - destruct Hg as (-> & (r' & Hr' & Hmode) & Hk). destruct (Hk r) as [Hg' Hnd].
    apply puts_landed in Hput as [[[e ->] Hs]|(ver & Ho & Hs & Hm)].
    { split; [by apply effect_same|]. split; [done|]. split; [intros Hp'|intros [Hp' _]]; by apply Hnd in Hp' as (_ & _ & ? & [=]). }
    assert (name_step v (record_at b name) (Some r')) as Hns.
    { destruct mode as [|t]; [by rewrite (record_at_none _ _ Hm)|]. destruct Hm as [body0 Hm], Hmode as (r0 & Hr0 & Hst).
      rewrite (tag_names _ _ _ _ Hm) in Hr0. by rewrite (record_at_recorded _ _ _ _ _ Hm Hr0). }
    split; [by eapply effect_put|]. split; [done|]. split.
    + intros Hp'. destruct (Hnd Hp') as ([size Hv] & -> & _). right. exists size. split; [done|].
      exists r'. split; [by eapply record_at_recorded|]. rewrite (record_at_none _ _ Hm) in Hns.
      inversion Hns; subst; try discriminate. destruct placed; [discriminate|]. injection Hv as ->. unfold bound in *.
      destruct_and!. split; congruence.
    + intros [Hp' _]. destruct (Hnd Hp') as (_ & -> & _). by apply record_at_none.
  - destruct Hg as [-> Hk]. destruct (Hk r) as [Hg' Hnd].
    split; [|split; [done|split; [by intros Hp'%Hnd|by intros [Hp'%Hnd _]]]].
    apply deletes_effect in Hdel as [Hs|[Ho Hs]]; [by apply effect_same|].
    destruct (Hd I) as [(c & vol & -> & rec & Hra & Hi)|(size & Hv & rec & Hra & Hi & Hsz)].
    + pose proof Hi as (Hst & Hvol & Hco)%bool_decide_eq_true.
      apply (effect_delete name _ _ b b' rec); [done..|by apply ns_import_failed| |done].
      intros c' vol' (_ & Hv' & _)%bool_decide_eq_true. cbn. congruence.
    + apply (effect_delete name _ _ b b' rec); [done..| |by intros c' vol' (? & _)%bool_decide_eq_true|by split].
      destruct v; try discriminate. destruct placed; [discriminate|]. injection Hv as ->. by apply ns_rolled_back.
Qed.

(** The names whose creation is being given back. *)
Definition rolling_name (t : thread) : option string :=
  match t_prog t, rolls_back (t_verb t) with DeleteK _ _, Some _ => Some (t_name t) | _, _ => None end.

Lemma rolling_name_some t n : rolling_name t = Some n → rolling (t_verb t) (t_prog t) ∧ t_name t = n.
Proof. unfold rolling_name, rolling. destruct (t_prog t), (rolls_back (t_verb t)) eqn:E; try done. intros [= <-]. cbn. eauto. Qed.

Lemma rolling_rolling_name t : rolling (t_verb t) (t_prog t) → rolling_name t = Some (t_name t).
Proof. unfold rolling_name, rolling. intros [Hd [size ->]]. by destruct (t_prog t). Qed.

Record sys_inv (s : sys) : Prop := {
  si_clean : clean (s_bucket s);
  si_good t : t ∈ s_pool s → good (t_name t) (t_verb t) (t_prog t) ∧ delete_ready (s_bucket s) (t_name t) (t_verb t) (t_prog t);
  si_once : NoDup (finishing (s_pool s));
  si_rolling : NoDup (omap rolling_name (s_pool s))
}.

Lemma omap_mid {A B} (f : A → option B) l1 x l2 : omap f (l1 ++ x :: l2) ≡ₚ option_list (f x) ++ omap f (l1 ++ l2).
Proof.
  rewrite !omap_app. cbn. destruct (f x); cbn; [|done]. by rewrite <- Permutation_middle.
Qed.

(** Another thread's pending delete outlives this thread's request. *)
Lemma delete_ready_effect name v p b b' t :
  effect name v p b b' → delete_ready b (t_name t) (t_verb t) (t_prog t) →
  (t_name t = name → ∀ vol, finish_key v = Some vol → finish_key (t_verb t) ≠ Some vol) →
  (t_name t = name → rolling v p → ¬ rolling (t_verb t) (t_prog t)) →
  delete_ready b' (t_name t) (t_verb t) (t_prog t).
Proof.
  intros He Hd Hx Hr Hdel. destruct (decide (t_name t = name)) as [Hn|Hn].
  - rewrite Hn in *. destruct (Hd Hdel) as [(c & vol & Hv & Hi)|(size & Hv & Hs)].
    + left. exists c, vol. split; [done|]. destruct (ef_import _ _ _ _ _ He c vol Hi) as [H|H]; [done|].
      exfalso. apply (Hx eq_refl vol H). by rewrite Hv.
    + right. exists size. split; [done|]. destruct (ef_standing _ _ _ _ _ He size Hs) as [H|H]; [done|].
      exfalso. apply (Hr eq_refl H). split; [done|by eexists].
  - destruct (Hd Hdel) as [(c & vol & Hv & r & Hra & Hi)|(size & Hv & r & Hra & Hi)].
    + left. exists c, vol. split; [done|]. exists r. by rewrite (ef_other _ _ _ _ _ He).
    + right. exists size. split; [done|]. exists r. by rewrite (ef_other _ _ _ _ _ He).
Qed.

Lemma elem_of_mid {A} (x y : A) l1 l2 : x ∈ l1 ++ y :: l2 ↔ x = y ∨ x ∈ l1 ++ l2.
Proof. rewrite !elem_of_app, elem_of_cons. tauto. Qed.

(** No other thread ends the import, or gives back the name, that this one does. *)
Lemma finishing_apart l1 t l2 t' vol : NoDup (finishing (l1 ++ t :: l2)) → t' ∈ l1 ++ l2 → t_name t' = t_name t →
  finish_key (t_verb t) = Some vol → finish_key (t_verb t') ≠ Some vol.
Proof.
  unfold finishing. rewrite omap_mid. intros Ho Hin Hn Hk Hk'. rewrite Hk in Ho. cbn in Ho. apply NoDup_cons in Ho as [Ho _].
  apply Ho, list_elem_of_omap. exists t'. split; [done|]. by rewrite Hk', Hn.
Qed.

Lemma rolling_apart l1 t l2 t' : NoDup (omap rolling_name (l1 ++ t :: l2)) → t' ∈ l1 ++ l2 → t_name t' = t_name t →
  rolling (t_verb t) (t_prog t) → ¬ rolling (t_verb t') (t_prog t').
Proof.
  rewrite omap_mid. intros Ho Hin Hn Hk%rolling_rolling_name Hk'%rolling_rolling_name. rewrite Hk in Ho.
  apply NoDup_cons in Ho as [Ho _]. apply Ho, list_elem_of_omap. exists t'. split; [done|]. by rewrite Hk', Hn.
Qed.

Lemma nodup_without {A B} (f : A → option B) l1 x l2 : NoDup (omap f (l1 ++ x :: l2)) → NoDup (omap f (l1 ++ l2)).
Proof. rewrite omap_mid. destruct (f x); cbn; [by intros [_ ?]%NoDup_cons|done]. Qed.

Lemma run_inv b l1 t l2 b' p' :
  sys_inv (mkSys b (l1 ++ t :: l2)) → request_step b (t_prog t) b' p' →
  sys_inv (mkSys b' (l1 ++ mkThread (t_name t) (t_verb t) p' :: l2)) ∧ effect (t_name t) (t_verb t) (t_prog t) b b'.
Proof.
  intros [Hc Hg Ho Hro] Hreq; cbn [s_bucket s_pool] in *.
  destruct (Hg t) as [Hgt Hdt]; [by apply elem_of_mid; left|].
  destruct (request_effect _ _ _ _ _ _ Hreq Hc Hgt Hdt) as (He & Hg' & Hd' & Hnew). split; [|done].
  split; cbn [s_bucket s_pool]; [apply He| | |].
  - intros t' [->|Hin]%elem_of_mid; [done|]. destruct (Hg t') as [Hgt' Hdt']; [apply elem_of_mid; by right|].
    split; [done|]. eapply delete_ready_effect; [exact He|done|..].
    + intros Hn vol. by eapply finishing_apart.
    + intros Hn. by eapply rolling_apart.
  - unfold finishing in *. rewrite omap_mid in Ho |- *. exact Ho.
  - rewrite omap_mid. apply nodup_without in Hro as Hro'.
    destruct (rolling_name (mkThread (t_name t) (t_verb t) p')) as [n|] eqn:Hrn; cbn; [|done].
    apply NoDup_cons. split; [|done]. intros (t' & Hin & Hn')%list_elem_of_omap.
    apply rolling_name_some in Hrn as [Hrn Hn]. cbn in Hrn, Hn. subst n. apply Hnew in Hrn.
    apply rolling_name_some in Hn' as [[Hdel' [size Hs']] Hn']. destruct (Hg t') as [_ Hdt']; [apply elem_of_mid; by right|].
    rewrite Hn' in Hdt'. destruct (Hdt' Hdel') as [(c & vol & _ & r & Hra & _)|(z & _ & r & Hra & _)]; congruence.
Qed.

Lemma sys_step_inv l s s' : sys_inv s → sys_step l s s' →
  sys_inv s' ∧ ∀ name, record_at (s_bucket s') name = record_at (s_bucket s) name ∨
    ∃ t, l = Some t ∧ t ∈ s_pool s ∧ t_name t = name ∧ name_step (t_verb t) (record_at (s_bucket s) name) (record_at (s_bucket s') name).
Proof.
  intros Hi Hstep. destruct Hstep as [b pool name v Hok Hex|b l1 t l2|b l1 t l2 b' p' Hreq].
  - destruct Hi as [Hc Hg Ho Hro]. cbn [s_bucket s_pool] in *. split; [|by left]. destruct (verb_fine name v Hok) as [Hgv Hdv].
    split; cbn; [done| | |].
    + intros t [->|Ht]%elem_of_cons; [cbn; split; [done|by intros H%Hdv]|by apply Hg].
    + unfold finishing. cbn. destruct (finish_key v) as [vol|] eqn:Hk; cbn; [|done]. apply NoDup_cons. split; [by apply Hex|done].
    + destruct (rolling_name _) eqn:Hrn; [|done]. by apply rolling_name_some in Hrn as [[Hrn%Hdv _] _].
  - destruct Hi as [Hc Hg Ho Hro]. cbn [s_bucket s_pool] in *. split; [|by left]. split; cbn; [done| |by eapply nodup_without..].
    intros t' Ht'. apply Hg, elem_of_mid. by right.
  - destruct (run_inv _ _ _ _ _ _ Hi Hreq) as [Hi' He]. split; [done|]. intros n. cbn [s_bucket s_pool].
    destruct (decide (n = t_name t)) as [->|Hn]; [|left; by apply He].
    destruct (ef_step _ _ _ _ _ He) as [H|H]; [by left|right]. exists t. split; [done|]. split; [by apply elem_of_mid; left|done].
Qed.

Lemma reachable_inv s0 s : s_pool s0 = [] → clean (s_bucket s0) → rtc sys_moves s0 s → sys_inv s.
Proof.
  intros Hp Hc Hr. assert (sys_inv s0) as Hi.
  { split; [done|rewrite Hp; by intros t Ht%elem_of_nil|..]; rewrite Hp; apply NoDup_nil_2. }
  clear Hp Hc. induction Hr as [s|s1 s2 s3 [l Hs] _ IH]; [done|]. apply IH. by eapply sys_step_inv.
Qed.

(** C23: the verbs, run by any number of coordinators at once and lost with them
    at any point, refine the atomic lifecycle of a name. Whatever is in flight, a
    move leaves a name's current record as it is, or answers a request of one
    running verb for that name and takes from the current record the one
    transition that verb has, in the verb's own coordinator's name: a live record
    is stopped, a stopped one started and either released only by the coordinator
    whose record it is; a released one is reclaimed where its fork is or bound to
    a new fork of its handoff; a held one is forced only by a coordinator it does
    not belong to; an importing one is completed or deleted only by its importer.
    Two limits of the program show. A creation whose local setup fails deletes
    the name without a condition: all that is sure of the record it deletes is
    that it is no import's and has the creation's size, whichever coordinator
    holds it by then. And the two ends of one import are never run at once, as
    one task runs them in sequence: spawning keeps them apart. *)
Theorem names_refine_lifecycle s0 s s' l name :
  s_pool s0 = [] → clean (s_bucket s0) → rtc sys_moves s0 s → sys_step l s s' →
  record_at (s_bucket s') name = record_at (s_bucket s) name ∨
  ∃ t, l = Some t ∧ t ∈ s_pool s ∧ t_name t = name ∧
       name_step (t_verb t) (record_at (s_bucket s) name) (record_at (s_bucket s') name).
Proof. intros Hp Hc Hr Hs. pose proof (reachable_inv _ _ Hp Hc Hr) as Hi. by apply (sys_step_inv l s s' Hi Hs). Qed.

(** C25: in every reachable state, a name's object is the text of a record that
    reads back, of the current version, whose populated fields match its state:
    a live, stopped or importing record has an owner and a claim time, a released
    or readonly one has none of the owner's fields. *)
Theorem names_well_formed s0 s name body v :
  s_pool s0 = [] → clean (s_bucket s0) → rtc sys_moves s0 s →
  object_at (s_bucket s) (name_key name) = Some (body, v) →
  ∃ r, parse body = inl r ∧ toml_to_string r = Some body ∧ well_formed r.
Proof.
  intros Hp Hc Hr Ho. destruct (si_clean _ (reachable_inv _ _ Hp Hc Hr) _ _ _ Ho) as [r Hrec].
  exists r. split; [by apply parse_recorded|exact Hrec].
Qed.
End system.

(** ** A bucket in memory *)

(** A store that keeps bodies, whose ETag is the body. *)
Definition memory_put (b : gmap string string) (key body : string) (mode : PutMode) : (string + StoreError) * gmap string string :=
  match mode, b !! key with
  | Create, Some _ => (inr SAlreadyExists, b)
  | Update expected, Some v => if decide (v = expected) then (inl body, <[key := body]> b) else (inr SPrecondition, b)
  | Update _, None => (inr SPrecondition, b)
  | Create, None => (inl body, <[key := body]> b)
  end.

Definition memory_store : ObjectStore.
Proof.
  refine {| bucket := gmap string string; object_at b key := (λ v, (v, v)) <$> b !! key;
            gets b key r := r = match b !! key with Some v => inl (v, v) | None => inr SNotFound end;
            puts b key body mode _ r b' := (r, b') = memory_put b key body mode;
            deletes b key r b' := r = inl () ∧ b' = delete key b; tag_body v := v |}.
  - intros b key body v. destruct (b !! key); naive_solver.
  - intros b key body mode _ r b' Hp. unfold memory_put in Hp.
    destruct mode as [|e], (b !! key) as [v|] eqn:Hk; [| |case_decide; [subst e|]|]; injection Hp as -> ->; try (by left; split; [eexists|]); right; exists body.
    + rewrite lookup_insert_eq. split; [done|]. split; [intros k' Hn; by rewrite lookup_insert_ne|]. by rewrite ?Hk.
    + rewrite lookup_insert_eq. split; [done|]. split; [intros k' Hn; by rewrite lookup_insert_ne|]. exists v. by rewrite ?Hk.
  - intros b key r b' [_ ->]. right. rewrite lookup_delete_eq. split; [done|]. intros k' Hn. by rewrite lookup_delete_ne.
  - intros b key body v. destruct (b !! key); naive_solver.
Defined.

(** A toml crate for two records. *)
Definition live_a : NameRecord := initial_record "a" None 7 4096 Live "now".
Definition stopped_a : NameRecord := with_state Stopped live_a.
Definition two_toml : NameToml := {|
  toml_to_string r := if decide (r = live_a) then Some "1"%string else if decide (r = stopped_a) then Some "2"%string else None;
  toml_probe s := Some 3;
  toml_record s := if decide (s = "1"%string) then Some live_a else if decide (s = "2"%string) then Some stopped_a else None
|}.

Definition two_laws : NameTomlLaws two_toml.
Proof.
  split; intros r s; cbn; (case_decide as H1; [intros [= <-]; by subst r|]); (case_decide as H2; [intros [= <-]; by subst r|done]).
Qed.

(** A coordinator stops its live volume. *)
Definition run_put {A} (b : gmap string string) (p : prog A) : prog A * gmap string string :=
  match p with
  | GetK key k => (k (match b !! key with Some v => inl (v, v) | None => inr SNotFound end), b)
  | PutK key body mode _ k => let '(r, b') := memory_put b key body mode in (k r, b')
  | DeleteK key k => (k (inl ()), delete key b)
  | Ret a => (Ret a, b)
  end.

Lemma memory_step (b : gmap string string) (p : prog unit) : p ≠ Ret () →
  @request_step memory_store b p (run_put b p).2 (run_put b p).1.
Proof.
  intros Hp. destruct p as [[]|key k|key body mode at_ k|key k]; [done|..]; cbn.
  - by apply (@rs_get memory_store).
  - destruct (memory_put b key body mode) as [r b'] eqn:E. apply (@rs_put memory_store). cbn. by rewrite E.
  - by apply (@rs_delete memory_store).
Qed.

Definition stop_a : Verb := VStop "a" None "later".
Definition stop_prog : prog unit := @prog_of two_toml decimal_ulid_text "vol" stop_a.
Definition live_bucket : gmap string string := {["names/vol"%string := "1"%string]}.
Definition after_get : prog unit := (run_put live_bucket stop_prog).1.
Definition live_sys : @sys memory_store := @mkSys memory_store live_bucket [].
Definition mid_thread : thread := mkThread "vol" stop_a after_get.
Definition mid_sys : @sys memory_store := @mkSys memory_store live_bucket [mid_thread].
Definition put_sys : @sys memory_store :=
  @mkSys memory_store (run_put live_bucket after_get).2 [mkThread "vol" stop_a (run_put live_bucket after_get).1].

Lemma live_clean : @clean two_toml memory_store live_bucket.
Proof.
  intros name body v. cbn. unfold live_bucket. destruct (decide ("names/vol"%string = name_key name)) as [<-|Hn].
  - rewrite lookup_singleton_eq. intros [= <- _]. exists live_a. split; [by vm_compute|]. split; [done|cbn; eauto].
  - by rewrite lookup_singleton_ne.
Qed.

Lemma live_to_mid : rtc (@sys_moves two_toml decimal_ulid_text memory_store) live_sys mid_sys.
Proof.
  eapply rtc_l; [|eapply rtc_l; [|apply rtc_refl]].
  - exists None. apply (@ss_spawn two_toml decimal_ulid_text memory_store live_bucket [] "vol" stop_a); [done|]. intros vol [=].
  - eexists. apply (@ss_run two_toml decimal_ulid_text memory_store live_bucket [] (mkThread "vol" stop_a stop_prog) []).
    by apply (memory_step live_bucket stop_prog).
Qed.

Lemma mid_to_put : @sys_step two_toml decimal_ulid_text memory_store (Some mid_thread) mid_sys put_sys.
Proof.
  apply (@ss_run two_toml decimal_ulid_text memory_store live_bucket [] mid_thread []).
  by apply (memory_step live_bucket after_get).
Qed.

Lemma names_refine_lifecycle_witness :
  @record_at two_toml memory_store (s_bucket put_sys) "vol" = Some stopped_a ∧
  @name_step decimal_ulid_text stop_a (Some live_a) (Some stopped_a).
Proof.
  assert (@record_at two_toml memory_store (s_bucket put_sys) "vol" = Some stopped_a) as Hput by (vm_compute; reflexivity).
  assert (@record_at two_toml memory_store (s_bucket mid_sys) "vol" = Some live_a) as Hmid by (vm_compute; reflexivity).
  split; [exact Hput|].
  destruct (@names_refine_lifecycle two_toml two_laws decimal_ulid_text memory_store live_sys mid_sys put_sys (Some mid_thread) "vol"
    eq_refl live_clean live_to_mid mid_to_put) as [H|(t & [= <-] & _ & _ & H)]; rewrite Hput, Hmid in H; [discriminate|exact H].
Defined.

Lemma names_well_formed_witness : ∃ r, @parse two_toml "2" = inl r ∧ well_formed r.
Proof.
  destruct (@names_well_formed two_toml two_laws decimal_ulid_text memory_store live_sys put_sys "vol" "2" "2"
    eq_refl live_clean (rtc_r _ _ _ live_to_mid (ex_intro _ _ mid_to_put))) as (r & Hp & _ & Hw).
  - vm_compute. reflexivity.
  - by exists r.
Defined.
