(* ===== verification/GcCycle.v ===== *)
(** * The per-volume tick (elide-coordinator/src/gc_cycle.rs, volume_data.rs)

    One tick flushes, finishes handoffs, drains, runs a GC pass and publishes the
    cut: the HEAD that names the segments a reader may use.  What the volume, the
    bucket, the directory and the clocks answer is the tick's input; its requests
    to the bucket are its output, in order. *)

From Stdlib Require Import Ascii String.
From stdpp Require Import base gmap list sorting strings.
From S2P Require Import Prelude Bytes Text Segment SegmentCodec Rebuild SegmentHead NameRecord.
Open Scope Z_scope.

(** Durations and instants in nanoseconds. *)
Definition SECOND : Z := 1000000000.
Definition FENCE_HEARTBEAT : Z := 60 * SECOND.

(** [Instant::elapsed] saturates at zero. *)
Definition elapsed (now since : Instant) : Z := Z.max 0 (now - since).

Record GcConfig := mkGcConfig { gc_interval : Z; cut_interval : Z; retention_window : Z; max_buckets_per_tick : Z }.

Definition reaper_cadence (c : GcConfig) : Z := Z.max (retention_window c / 10) SECOND.

Inductive NameBinding := Bound | Displaced (rec : NameRecord) | Missing | Unreadable.

Inductive TickOutcome := TickContinue | TickStop.

(** The requests a tick makes that change something outside it. *)
Inductive TickOp :=
  | DeleteSegment (u : Ulid)
  | PutHead (h : SegmentHead)
  | CloseGeneration
  | Shutdown
  | Rehome
  | RunGcPass (buckets : list Ulid).

(** What a tick keeps for the next ones. *)
Record Orchestrator := mkOrchestrator {
  last_gc : Instant;
  last_reap : Instant;
  last_cut : Instant;
  last_fence : Instant;
  tick_added : list Ulid;
  tick_superseded : list (Ulid * Ulid * Instant);
  tick_seq : Z;
  last_flush_seq : Z;
  last_plan_pass_seq : Z;
  reconcile_edges : bool;
  head_cache : option SegmentHead
}.

(** The clocks backdated where the previous run left work. *)
Definition orch_new (c : GcConfig) (now : Instant) (backlog : bool) : Orchestrator :=
  mkOrchestrator (if backlog then now - gc_interval c else now) (if backlog then now - reaper_cadence c else now)
    (now - cut_interval c) (now - FENCE_HEARTBEAT) [] [] 0 0 0 true None.

Definition set_cache (h : option SegmentHead) (s : Orchestrator) : Orchestrator :=
  mkOrchestrator (last_gc s) (last_reap s) (last_cut s) (last_fence s) (tick_added s) (tick_superseded s) (tick_seq s)
    (last_flush_seq s) (last_plan_pass_seq s) (reconcile_edges s) h.
Definition set_reconcile (r : bool) (s : Orchestrator) : Orchestrator :=
  mkOrchestrator (last_gc s) (last_reap s) (last_cut s) (last_fence s) (tick_added s) (tick_superseded s) (tick_seq s)
    (last_flush_seq s) (last_plan_pass_seq s) r (head_cache s).
Definition set_reap (i : Instant) (s : Orchestrator) : Orchestrator :=
  mkOrchestrator (last_gc s) i (last_cut s) (last_fence s) (tick_added s) (tick_superseded s) (tick_seq s)
    (last_flush_seq s) (last_plan_pass_seq s) (reconcile_edges s) (head_cache s).
Definition set_scratch (a : list Ulid) (es : list (Ulid * Ulid * Instant)) (s : Orchestrator) : Orchestrator :=
  mkOrchestrator (last_gc s) (last_reap s) (last_cut s) (last_fence s) a es (tick_seq s)
    (last_flush_seq s) (last_plan_pass_seq s) (reconcile_edges s) (head_cache s).
Definition set_cut (i : Instant) (s : Orchestrator) : Orchestrator :=
  mkOrchestrator (last_gc s) (last_reap s) i (last_fence s) (tick_added s) (tick_superseded s) (tick_seq s)
    (last_flush_seq s) (last_plan_pass_seq s) (reconcile_edges s) (head_cache s).
Definition set_gc (i : Instant) (s : Orchestrator) : Orchestrator :=
  mkOrchestrator i (last_reap s) (last_cut s) (last_fence s) (tick_added s) (tick_superseded s) (tick_seq s)
    (last_flush_seq s) (last_plan_pass_seq s) (reconcile_edges s) (head_cache s).
Definition set_fence (i : Instant) (s : Orchestrator) : Orchestrator :=
  mkOrchestrator (last_gc s) (last_reap s) (last_cut s) i (tick_added s) (tick_superseded s) (tick_seq s)
    (last_flush_seq s) (last_plan_pass_seq s) (reconcile_edges s) (head_cache s).
Definition set_seqs (tick flush plan : Z) (s : Orchestrator) : Orchestrator :=
  mkOrchestrator (last_gc s) (last_reap s) (last_cut s) (last_fence s) (tick_added s) (tick_superseded s) tick
    flush plan (reconcile_edges s) (head_cache s).

(** ** Reading HEAD (volume_data.rs) *)

Inductive HeadDamage := HeadMissing | HeadUnreadable.

Section cycle.
Context {HB : Blake3} {HU : UlidBytes} {HL : Lz4Block} {HT : UlidText} {HR : Rfc3339}.

Definition read_status (got : Body + StoreError) : (SegmentHead + HeadDamage) + StoreError :=
  match got with
  | inr SNotFound => inl (inr HeadMissing)
  | inr e => inr e
  | inl body =>
      if is_utf8 body
      then match SegmentHead.parse body with inl h => inl (inl h) | inr _ => inl (inr HeadUnreadable) end
      else inl (inr HeadUnreadable)
  end.

(** A HEAD that is missing or damaged reads as an empty one. *)
Definition head_read (got : Body + StoreError) : SegmentHead + StoreError :=
  match read_status got with
  | inr e => inr e
  | inl (inl h) => inl h
  | inl (inr _) => inl (head_empty None)
  end.

(** ** The cut *)

(** What a publish meets: its clock readings in order, the directory at each of
    its looks, the bucket's answers. *)
Record PublishEnv := mkPublishEnv {
  pe_mono : nat → Instant;
  pe_wall : nat → Instant;
  pe_dir : nat → ForkDir;
  pe_snapshot : io (option Ulid);
  pe_get : Body + StoreError;
  pe_put : unit + StoreError;
  pe_named : bool;
  pe_binding : NameBinding
}.

Variable conf : GcConfig.

Definition confirmed_beyond (fk : ForkDir) (a : option Ulid) : io (list Ulid) :=
  confirmed ← confirmed_segments fk a; Ok (confirmed.*1).

(** An empty body is the volume's own when the scratch accounts for everything
    confirmed and no edge is in hand. *)
Definition empty_head_is_legitimate (s : Orchestrator) (fk : ForkDir) (a : option Ulid) : bool :=
  match tick_superseded s with
  | [] => match confirmed_beyond fk a with
          | Ok confirmed => forallb (λ u, bool_decide (u ∈ tick_added s)) confirmed
          | Err _ => false
          end
  | _ => false
  end.

(** The body the cut starts from, whether it was rebuilt, and whether the edges
    are still to be reconciled. *)
Definition seed_head (s : Orchestrator) (env : PublishEnv) (eligible : bool) : option (SegmentHead * bool * bool) :=
  match head_cache s with
  | Some h => Some (h, false, reconcile_edges s)
  | None =>
      let regenerated :=
        match regenerate (pe_dir env 1) (pe_snapshot env) (pe_wall env 0) with
        | Ok r =>
            if eligible then Some (r, negb (head_is_empty r), false)
            else let r := mkSegmentHead (anchor r) (added r) ∅ (tombstoned r) in
                 Some (r, negb (head_is_empty r), reconcile_edges s)
        | Err _ => None
        end in
      match head_read (pe_get env) with
      | inl h =>
          if negb (head_is_empty h) then Some (h, false, reconcile_edges s)
          else if empty_head_is_legitimate s (pe_dir env 0) (anchor h) then Some (h, false, reconcile_edges s)
          else regenerated
      | inr _ => regenerated
      end
  end.

(** [chrono::Duration::from_std] takes at most [i64::MAX] milliseconds. *)
Definition duration_in_range (d : Z) : bool := bool_decide (d ≤ (2 ^ 63 - 1) * 1000000).

Definition expired_inputs (now : Instant) (h : SegmentHead) : list Ulid :=
  map fst (filter (λ p, ss_since p.2 + retention_window conf ≤ now) (om_iter (superseded h))).

(** Delete the inputs past their retention, unless the directory still holds them
    or the name is no longer this fork's; a deletion that fails is only logged. *)
Definition reap_expired (env : PublishEnv) (h : SegmentHead) : option (SegmentHead * list TickOp) :=
  if negb (duration_in_range (retention_window conf)) then None
  else
    let expired := expired_inputs (pe_wall env 1) h in
    if bool_decide (expired = []) then None
    else match committed_tier_ulids (pe_dir env 2) with
         | Err _ => None
         | Ok local_tier =>
             let to_reap := filter (λ u, u ∉ local_tier) expired in
             if bool_decide (to_reap = []) then None
             else if match pe_binding env with Bound => true | _ => negb (pe_named env) end
                  then Some (apply_reap h to_reap, map DeleteSegment to_reap)
                  else None
         end.

(** A head under construction, and whether it differs from what it started as. *)
Definition insert_added (acc : SegmentHead * bool) (u : Ulid) : SegmentHead * bool :=
  if decide (u ∈ added acc.1) then acc
  else (mkSegmentHead (anchor acc.1) ({[ u ]} ∪ added acc.1) (superseded acc.1) (tombstoned acc.1), true).

Definition insert_edge (acc : SegmentHead * bool) (input : Ulid) (edge : Supersession) : SegmentHead * bool :=
  (mkSegmentHead (anchor acc.1) (added acc.1) (<[input := edge]> (superseded acc.1)) (tombstoned acc.1),
   acc.2 || bool_decide (superseded acc.1 !! input ≠ Some edge)).

(** An edge of the signed tables: published, or below the barrier its input kept
    in the cut. *)
Definition reconcile_edge (eligible : bool) (now : Instant) (acc : SegmentHead * bool) (e : Ulid * Ulid) : SegmentHead * bool :=
  let '(input, output) := e in
  if bool_decide (input ∈ tombstoned acc.1) || bool_decide (is_Some (superseded acc.1 !! input)) then acc
  else if eligible then ((insert_edge acc input (mkSupersession output now)).1, true)
  else if beyond (anchor acc.1) input then insert_added acc input
  else acc.

Definition reconcile (s : Orchestrator) (env : PublishEnv) (eligible : bool) (acc : SegmentHead * bool) (pending : bool)
    : (SegmentHead * bool) * bool :=
  if pending then
    match confirmed_edges (pe_dir env 4) (anchor acc.1) with
    | Ok edges => (foldl (reconcile_edge eligible (pe_wall env 2)) acc edges, negb eligible)
    | Err _ => (acc, pending)
    end
  else (acc, pending).

(** An edge whose output a seal left at or below the anchor is dropped. *)
Definition straddled (a : option Ulid) (e : Ulid * Ulid * Instant) : bool :=
  match a with Some a => bool_decide (e.1.2 ≤ a) | None => false end.

Definition publish_edge (acc : SegmentHead * bool) (e : Ulid * Ulid * Instant) : SegmentHead * bool :=
  insert_edge acc e.1.1 (mkSupersession e.1.2 e.2).

(** A held edge keeps its input in the cut. *)
Definition hold_edge (acc : SegmentHead * bool) (e : Ulid * Ulid * Instant) : SegmentHead * bool :=
  let input := e.1.1 in
  if beyond (anchor acc.1) input && negb (bool_decide (input ∈ tombstoned acc.1))
     && negb (bool_decide (is_Some (superseded acc.1 !! input)))
  then insert_added acc input else acc.

(** The scratch's edges, published or held. *)
Definition take_edges (eligible : bool) (edges : list (Ulid * Ulid * Instant)) (acc : SegmentHead * bool)
    : list (Ulid * Ulid * Instant) * (SegmentHead * bool) :=
  if eligible then
    let kept := filter (λ e, straddled (anchor acc.1) e = false) edges in
    (kept, foldl publish_edge acc kept)
  else (edges, foldl hold_edge acc edges).

(** Whether a cut landed. *)
Definition publish_head_delta (s : Orchestrator) (env : PublishEnv) (drain_ok cut_due : bool)
    : Orchestrator * bool * list TickOp :=
  let reap_due := bool_decide (reaper_cadence conf ≤ elapsed (pe_mono env 0) (last_reap s)) in
  let has_scratch := negb (bool_decide (tick_added s = [])) || negb (bool_decide (tick_superseded s = [])) in
  if negb reap_due && negb has_scratch then (s, cut_due && drain_ok, [])
  else if negb cut_due then (s, false, [])
  else if negb drain_ok then (s, false, [])
  else
    let eligible := bool_decide (last_plan_pass_seq s < last_flush_seq s) in
    match seed_head s env eligible with
    | None => (set_cache None s, false, [])
    | Some (head, repaired, pending) =>
        let s := set_reconcile pending (set_cache None s) in
        let '(head, mutated, deletes) :=
          if reap_due then match reap_expired env head with
                           | Some (head, ops) => (head, true, ops)
                           | None => (head, repaired, [])
                           end
          else (head, repaired, []) in
        let s := if reap_due then set_reap (pe_mono env 1) s else s in
        match confirmed_beyond (pe_dir env 3) (anchor head) with
        | Err _ => (s, false, deletes)
        | Ok confirmed =>
            let acc := foldl insert_added (head, mutated) confirmed in
            let '(acc, pending) := reconcile s env eligible acc (reconcile_edges s) in
            let '(edges, (head, mutated)) := take_edges eligible (tick_superseded s) acc in
            let s := set_scratch (tick_added s) edges (set_reconcile pending s) in
            let landed := set_cache (Some head) (set_cut (pe_mono env 2)
                            (set_scratch [] (if eligible then [] else tick_superseded s) s)) in
            if negb mutated then (landed, true, deletes)
            else match pe_put env with
                 | inl _ => (landed, true, deletes ++ [PutHead head])
                 | inr _ => (s, false, deletes ++ [PutHead head])
                 end
        end
    end.

(** ** The tick *)

(** The drain's answer, with the cache it may have reset when it sealed. *)
Record DrainResult := mkDrainResult { dr_uploaded : list Ulid; dr_failed : bool; dr_cache : option (option SegmentHead) }.

Record HandoffOutcome := mkHandoffOutcome { ho_output : Ulid; ho_inputs : list Ulid; ho_uploaded : bool }.

Record Checkpoint := mkCheckpoint { ck_bucket_ulids : list Ulid; ck_own_segments : option (Z * Z) }.

Inductive GcAnswer := GcCompact | GcNothing | GcFailed.

Record TickEnv := mkTickEnv {
  te_exists : bool;                       (* fork_dir *)
  te_sealed : option (option SegmentHead);  (* the cache, where a seal has reset it since *)
  te_pending_files : bool;
  te_importing_quiet : bool;              (* volume.importing without control.sock *)
  te_named : bool;
  te_binding : NameBinding;
  te_shutdown_failed : bool;
  te_snap_locked : bool;
  te_serving : bool;                      (* control.sock, not readonly *)
  te_promoted : bool;                     (* promote_wal confirmed *)
  te_handoffs : io (list HandoffOutcome);
  te_handoffs_at : Instant;
  te_checkpoint : option Checkpoint;
  te_disk_segments : io (Z * Z);
  te_applied : option Z;                  (* apply_gc_handoffs *)
  te_pending_dir : bool;
  te_drain : io DrainResult;
  te_gc : GcAnswer;
  te_upload_drained : bool;
  te_clock : nat → Instant;
  te_publish : PublishEnv
}.

(** A fork another coordinator has force-claimed stops, and is rehomed. *)
Definition fence_if_displaced (env : TickEnv) : option TickOutcome * list TickOp :=
  if negb (te_named env) then (None, [])
  else match te_binding env with
       | Displaced _ => if te_shutdown_failed env then (Some TickContinue, [Shutdown]) else (Some TickStop, [Shutdown; Rehome])
       | _ => (None, [])
       end.

Definition cut_due (s : Orchestrator) (now : Instant) : bool := bool_decide (cut_interval conf ≤ elapsed now (last_cut s)).
Definition flush_due (s : Orchestrator) (due : bool) : bool := due || bool_decide (last_flush_seq s ≤ last_plan_pass_seq s).
Definition run_volume_compactions (env : TickEnv) (due : bool) : bool := te_serving env && (due && te_promoted env).

(** Finished handoffs: an output the bucket has is added, its inputs are edges. *)
Definition handoff_edges (since : Instant) (o : HandoffOutcome) : list (Ulid * Ulid * Instant) :=
  map (λ input, (input, ho_output o, since)) (ho_inputs o).

Definition run_handoff_cleanup (env : TickEnv) (s : Orchestrator) : Orchestrator :=
  match te_handoffs env with
  | Ok outcomes =>
      set_scratch (tick_added s ++ omap (λ o, if ho_uploaded o then Some (ho_output o) else None) outcomes)
        (tick_superseded s ++ concat (map (handoff_edges (te_handoffs_at env)) outcomes)) s
  | Err _ => s
  end.

(** The ULIDs a pass may plan under: none where the two sides disagree on the
    committed segments, or an apply's outcome is not known. *)
Definition prepare_gc_pass (env : TickEnv) : option (list Ulid) :=
  match te_checkpoint env with
  | None => None
  | Some ck =>
      let diverged := match ck_own_segments ck with
                      | None => false
                      | Some daemon => match te_disk_segments env with Ok disk => negb (bool_decide (disk = daemon)) | Err _ => true end
                      end in
      match te_applied env with
      | None => None
      | Some _ => if diverged then None else Some (ck_bucket_ulids ck)
      end
  end.

Definition run_drain (env : TickEnv) (s : Orchestrator) : Orchestrator * bool :=
  if negb (te_pending_dir env) then (s, true)
  else match te_drain env with
       | Ok r =>
           let s := match dr_cache r with Some c => set_cache c s | None => s end in
           (set_scratch (tick_added s ++ dr_uploaded r) (tick_superseded s) s, negb (dr_failed r))
       | Err _ => (s, false)
       end.

(** A pass that may have staged plans holds the edges for a later flush. *)
Definition run_gc_pass (env : TickEnv) (s : Orchestrator) : Orchestrator :=
  match te_gc env with
  | GcNothing => s
  | GcCompact | GcFailed => set_seqs (tick_seq s) (last_flush_seq s) (tick_seq s) s
  end.

(** From the flush to the drain. *)
Definition tick_drain (env : TickEnv) (s : Orchestrator) : Orchestrator * bool * bool * option (list Ulid) :=
  let s := set_seqs (tick_seq s + 1) (last_flush_seq s) (last_plan_pass_seq s) s in
  let due := cut_due s (te_clock env 1) in
  let s := if run_volume_compactions env (flush_due s due) then set_seqs (tick_seq s) (tick_seq s) (last_plan_pass_seq s) s else s in
  let gc_due := bool_decide (gc_interval conf ≤ elapsed (te_clock env 2) (last_gc s)) in
  let s := if gc_due then run_handoff_cleanup env s else s in
  let buckets := if gc_due then prepare_gc_pass env else None in
  let '(s, drain_ok) := run_drain env s in
  let s := if gc_due && drain_ok
           then set_gc (te_clock env 3) (match buckets with Some _ => run_gc_pass env s | None => s end) else s in
  (s, drain_ok, due, if gc_due && drain_ok then buckets else None).

Definition run_tick (env : TickEnv) (s : Orchestrator) : Orchestrator * TickOutcome * list TickOp :=
  if negb (te_exists env) then (s, TickStop, [])
  else
    let s := match te_sealed env with Some c => set_cache c s | None => s end in
    let check := te_pending_files env || bool_decide (FENCE_HEARTBEAT ≤ elapsed (te_clock env 0) (last_fence s)) in
    let '(fenced, ops) := if check then fence_if_displaced env else (None, []) in
    match fenced with
    | Some outcome => (s, outcome, ops)
    | None =>
        let s := if check then set_fence (te_clock env 4) s else s in
        if te_importing_quiet env then (s, TickContinue, ops)
        else if te_snap_locked env then (s, TickContinue, ops)
        else
          let '(s, drain_ok, due, buckets) := tick_drain env s in
          let '(s, landed, pubs) := publish_head_delta s (te_publish env) drain_ok (due && te_upload_drained env) in
          (s, TickContinue,
           ops ++ match buckets with Some bs => [RunGcPass bs] | None => [] end ++ pubs ++ if landed then [CloseGeneration] else [])
    end.
End cycle.
