(* ===== verification/GcCycleSpec.v ===== *)
(** * A cut names a whole commit, and loses nothing *)

From Stdlib Require Import Ascii String.
From stdpp Require Import base gmap list sorting strings.
From S2P Require Import Prelude Bytes Text Segment SegmentCodec SegmentCodecSpec Rebuild RebuildSpec RewritePlanSpec SegmentHead SegmentHeadSpec NameRecord GcCycle.
Open Scope Z_scope.

Lemma elem_of_live_set m h u : u ∈ live_set m h ↔ (u ∈ m ∨ u ∈ added h) ∧ superseded h !! u = None ∧ u ∉ tombstoned h.
Proof.
  unfold live_set. rewrite elem_of_filter, elem_of_union, elem_of_union, <-not_elem_of_dom. tauto.
Qed.

(** ** Reaping *)

Lemma apply_reap_spec reaped h :
  anchor (apply_reap h reaped) = anchor h ∧
  (∀ u, u ∈ added (apply_reap h reaped) ↔ u ∈ added h ∧ u ∉ reaped) ∧
  (∀ u, superseded (apply_reap h reaped) !! u = if decide (u ∈ reaped) then None else superseded h !! u) ∧
  (∀ u, u ∈ tombstoned (apply_reap h reaped) ↔ u ∈ tombstoned h ∨ u ∈ reaped).
Proof.
  unfold apply_reap. revert h. induction reaped as [|r reaped IH]; intros h; cbn [foldl].
  - split; [done|]. split; [|split]; intros u; [|done|]; split; try tauto; intros Hu; split_and?; try done.
    + by intros ?%elem_of_nil.
    + by destruct Hu as [?|?%elem_of_nil].
  - destruct (IH (reap_one h r)) as (Ha & Hd & Hs & Ht). split; [done|]. split; [|split]; intros u.
    + rewrite Hd. unfold reap_one. cbn. rewrite elem_of_difference, elem_of_singleton, not_elem_of_cons. tauto.
    + rewrite Hs. unfold reap_one. cbn. destruct (decide (u ∈ reaped)) as [Hu|Hu].
      * rewrite decide_True by (by right). done.
      * destruct (decide (u = r)) as [->|Hne]; [rewrite lookup_delete_eq; by rewrite decide_True by left|].
        rewrite lookup_delete_ne by done. rewrite decide_False; [done|]. by intros [?|?]%elem_of_cons.
    + rewrite Ht. unfold reap_one. cbn. rewrite elem_of_union, elem_of_singleton, elem_of_cons. tauto.
Qed.

(** ** Building the head *)

(** What a cut's steps do to a head: the segments named only grow, an edge is
    only ever new where [P] lets it. *)
Record extends (P : Ulid → Supersession → Prop) (h h' : SegmentHead) : Prop := {
  ex_anchor : anchor h' = anchor h;
  ex_tombstoned : tombstoned h' = tombstoned h;
  ex_added u : u ∈ added h → u ∈ added h';
  ex_kept u : is_Some (superseded h !! u) → is_Some (superseded h' !! u);
  ex_new u e : superseded h' !! u = Some e → superseded h !! u = Some e ∨ P u e
}.

Lemma extends_refl P h : extends P h h.
Proof. split; auto. Qed.

Lemma extends_trans P h1 h2 h3 : extends P h1 h2 → extends P h2 h3 → extends P h1 h3.
Proof.
  intros [A1 T1 D1 K1 N1] [A2 T2 D2 K2 N2]. split; [congruence|congruence|auto|auto|].
  intros u e H%N2. destruct H as [H|H]; [by apply N1|by right].
Qed.

Lemma extends_fold {B} P (f : SegmentHead * bool → B → SegmentHead * bool) l acc :
  (∀ acc x, x ∈ l → extends P acc.1 (f acc x).1) → extends P acc.1 (foldl f acc l).1.
Proof.
  intros Hf. apply (foldl_inv f (λ a, extends P acc.1 a.1)); [apply extends_refl|].
  intros a x Hx Ha. eapply extends_trans; [exact Ha|by apply Hf].
Qed.

Lemma insert_added_extends P acc u : extends P acc.1 (insert_added acc u).1.
Proof. unfold insert_added. case_decide; [apply extends_refl|]. split; cbn; auto. set_solver. Qed.

Lemma insert_added_in acc u : u ∈ added (insert_added acc u).1.
Proof. unfold insert_added. case_decide; [done|]. cbn. set_solver. Qed.

Lemma insert_edge_extends (P : Ulid → Supersession → Prop) acc i e : P i e → extends P acc.1 (insert_edge acc i e).1.
Proof.
  intros Hp. split; cbn; try done.
  - intros u Hu. destruct (decide (u = i)) as [->|]; [rewrite lookup_insert_eq; by eexists|by rewrite lookup_insert_ne].
  - intros u e' [[<- <-]|[_ H]]%lookup_insert_Some; [by right|by left].
Qed.

(** The members of a list are all there once it is folded in. *)
Lemma fold_added_in l acc u : u ∈ l → u ∈ added (foldl insert_added acc l).1.
Proof.
  revert acc. induction l as [|x l IH]; intros acc; [by intros ?%elem_of_nil|]. cbn [foldl].
  intros [->|Hu]%elem_of_cons; [|by apply IH].
  apply (ex_added (λ _ _, False) (insert_added acc x).1); [apply extends_fold; intros; apply insert_added_extends|apply insert_added_in].
Qed.

Section spec.
Context {HB : Blake3} {HU : UlidBytes} {HL : Lz4Block} {HT : UlidText} {HR : Rfc3339}.

Lemma confirm_beyond a names out : confirm a names = Ok out → ∀ p, p ∈ out → beyond a p.1 = true.
Proof.
  revert out. induction names as [|n names IH]; intros out; cbn [confirm]; [by intros [= <-] p ?%elem_of_nil|].
  destruct (ulid_from_string _) as [u|]; [|done]. intros (out' & Ho & [= <-])%io_bind_Ok p Hp.
  destruct (beyond a u) eqn:Hb; [apply elem_of_cons in Hp as [->|Hp]; [done|]|]; by eapply IH.
Qed.

Lemma edges_outputs fk vk confirmed es : edges_of fk vk confirmed = Ok es → ∀ p, p ∈ es → p.2 ∈ confirmed.*1.
Proof.
  revert es. induction confirmed as [|[o n] confirmed IH]; intros es; cbn [edges_of]; [by intros [= <-] p ?%elem_of_nil|].
  intros (file & _ & H)%io_bind_Ok. apply io_bind_Ok in H as ([[bss entries] ins] & _ & H).
  apply io_bind_Ok in H as (rest & Hr & [= <-]). intros p [Hp|Hp]%elem_of_app; cbn.
  - apply list_elem_of_In, in_map_iff in Hp as (i & <- & _). by left.
  - right. by eapply IH.
Qed.

Lemma confirmed_edges_beyond fk a es : confirmed_edges fk a = Ok es → ∀ p, p ∈ es → beyond a p.2 = true.
Proof.
  unfold confirmed_edges, confirmed_segments. intros (confirmed & Hc & H)%io_bind_Ok p Hp.
  apply io_bind_Ok in Hc as (names & _ & Hc). pose proof (confirm_beyond _ _ _ Hc) as Hb.
  assert (p.2 ∈ confirmed.*1) as Hin.
  { destruct confirmed; [injection H as <-; by apply elem_of_nil in Hp|]. apply io_bind_Ok in H as (vk & _ & H).
    by eapply edges_outputs. }
  apply list_elem_of_fmap in Hin as (q & -> & Hq). by apply Hb.
Qed.

(** An edge a cut may add: its output is beyond the anchor, and the barrier lets it. *)
Definition allowed (eligible : bool) (a : option Ulid) (u : Ulid) (e : Supersession) : Prop :=
  eligible = true ∧ beyond a (ss_output e) = true.

Lemma reconcile_edge_extends eligible now acc e a : anchor acc.1 = a → beyond a e.2 = true →
  extends (allowed eligible a) acc.1 (reconcile_edge eligible now acc e).1.
Proof.
  destruct e as [i o]. cbn. intros Ha Hb. unfold reconcile_edge. case_match; [apply extends_refl|].
  destruct eligible; [by apply insert_edge_extends|]. case_match; [apply insert_added_extends|apply extends_refl].
Qed.

(** Folding steps that each keep the anchor they rely on. *)
Lemma extends_fold_anchor {B} P (f : SegmentHead * bool → B → SegmentHead * bool) l acc a :
  anchor acc.1 = a → (∀ acc x, x ∈ l → anchor acc.1 = a → extends P acc.1 (f acc x).1) → extends P acc.1 (foldl f acc l).1.
Proof.
  intros Ha Hf. apply (foldl_inv f (λ x, extends P acc.1 x.1)); [apply extends_refl|].
  intros x y Hy Hx. eapply extends_trans; [exact Hx|]. apply Hf; [done|]. by rewrite (ex_anchor _ _ _ Hx).
Qed.

Lemma reconcile_extends s env eligible acc pending acc' pending' :
  reconcile s env eligible acc pending = (acc', pending') → extends (allowed eligible (anchor acc.1)) acc.1 acc'.1.
Proof.
  unfold reconcile. destruct pending; [|intros [= <- _]; apply extends_refl].
  destruct (confirmed_edges _ _) as [es|] eqn:He; [|intros [= <- _]; apply extends_refl]. intros [= <- _].
  eapply extends_fold_anchor; [done|]. intros x e Hin Hx. apply reconcile_edge_extends; [done|].
  by eapply confirmed_edges_beyond.
Qed.

Lemma hold_edge_extends P acc e : extends P acc.1 (hold_edge acc e).1.
Proof. unfold hold_edge. case_match; [apply insert_added_extends|apply extends_refl]. Qed.

Lemma take_edges_extends eligible edges acc kept acc' :
  take_edges eligible edges acc = (kept, acc') → extends (allowed eligible (anchor acc.1)) acc.1 acc'.1.
Proof.
  unfold take_edges. destruct eligible; intros [= <- <-].
  - eapply extends_fold_anchor; [done|]. intros x e [Hs He]%list_elem_of_filter Hx. apply insert_edge_extends.
    split; [done|]. cbn. unfold straddled in Hs. destruct (anchor acc.1); [|done]. cbn.
    apply bool_decide_eq_false in Hs. apply bool_decide_eq_true. lia.
  - apply extends_fold. intros x e _. apply hold_edge_extends.
Qed.

(** A held edge's input is in the cut, unless the head has done with it. *)
Definition kept_visible (h : SegmentHead) (i : Ulid) : Prop :=
  beyond (anchor h) i = true → i ∈ added h ∨ i ∈ tombstoned h ∨ is_Some (superseded h !! i).

Lemma kept_visible_extends P h h' i : extends P h h' → kept_visible h i → kept_visible h' i.
Proof.
  intros [Ha Ht Hd Hk _] Hv. unfold kept_visible. rewrite Ha, Ht. intros Hb. destruct (Hv Hb) as [?|[?|?]]; auto.
Qed.

Lemma hold_edge_visible acc e : kept_visible (hold_edge acc e).1 e.1.1.
Proof.
  intros Hb. unfold hold_edge in *. destruct (beyond (anchor acc.1) e.1.1) eqn:Hbb; cbn [andb] in *.
  - destruct (bool_decide (e.1.1 ∈ tombstoned acc.1)) eqn:Ht; cbn [negb andb] in *;
      [apply bool_decide_eq_true in Ht; by right; left|].
    destruct (bool_decide (is_Some (superseded acc.1 !! e.1.1))) eqn:Hs; cbn [negb] in *;
      [apply bool_decide_eq_true in Hs; by right; right|]. left. apply insert_added_in.
  - by rewrite Hbb in Hb.
Qed.

Lemma fold_hold_visible edges acc e : e ∈ edges → kept_visible (foldl hold_edge acc edges).1 e.1.1.
Proof.
  revert acc. induction edges as [|x edges IH]; intros acc; [by intros ?%elem_of_nil|]. cbn [foldl].
  intros [->|He]%elem_of_cons; [|by apply IH].
  eapply (kept_visible_extends (λ _ _, True)); [|apply hold_edge_visible]. apply extends_fold. intros. apply hold_edge_extends.
Qed.

Lemma fold_publish_in edges acc e : e ∈ edges → is_Some (superseded (foldl publish_edge acc edges).1 !! e.1.1).
Proof.
  revert acc. induction edges as [|x edges IH]; intros acc; [by intros ?%elem_of_nil|]. cbn [foldl].
  intros [->|He]%elem_of_cons; [|by apply IH].
  apply (ex_kept (λ _ _, True) (publish_edge acc x).1); [apply extends_fold; intros; by apply insert_edge_extends|].
  cbn. rewrite lookup_insert_eq. by eexists.
Qed.

(** ** A publish *)

Variable conf : GcConfig.

Definition eligible (s : Orchestrator) : bool := bool_decide (last_plan_pass_seq s < last_flush_seq s).

(** The edges a reap may act on: past their retention, out of the directory's
    committed segments, while the name is this fork's. *)
Definition reapable (env : PublishEnv) (h : SegmentHead) (u : Ulid) : Prop :=
  (∃ e, superseded h !! u = Some e ∧ ss_since e + retention_window conf ≤ pe_wall env 1) ∧
  (∃ tier, committed_tier_ulids (pe_dir env 2) = Ok tier ∧ u ∉ tier) ∧
  (pe_named env = true → pe_binding env = Bound).

Lemma reap_expired_inv env h h' ops : reap_expired conf env h = Some (h', ops) →
  ∃ reaped, h' = apply_reap h reaped ∧ ops = map DeleteSegment reaped ∧ Forall (reapable env h) reaped.
Proof.
  unfold reap_expired. destruct (negb _); [done|]. case_bool_decide; [done|].
  destruct (committed_tier_ulids _) as [tier|] eqn:Ht; [|done]. case_bool_decide; [done|].
  destruct (match pe_binding env with Bound => true | _ => negb (pe_named env) end) eqn:Hb; [|done]. intros [= <- <-].
  eexists. split; [done|]. split; [done|]. apply Forall_forall. intros u [Hn Hu]%list_elem_of_filter.
  unfold expired_inputs in Hu. apply list_elem_of_In, in_map_iff in Hu as ([i e] & <- & Hp). cbn.
  apply list_elem_of_In, list_elem_of_filter in Hp as [Hw Hp%elem_of_om_iter]. cbn in Hw.
  split; [by exists e|]. split; [by exists tier|]. intros Hnm. rewrite Hnm in Hb. by destruct (pe_binding env).
Qed.

Lemma publish_inv s env drain_ok due s' landed ops h :
  publish_head_delta conf s env drain_ok due = (s', landed, ops) → PutHead h ∈ ops →
  drain_ok = true ∧ due = true ∧ ∃ h0 repaired pending reaped confirmed,
    let h1 := apply_reap h0 reaped in
    seed_head s env (eligible s) = Some (h0, repaired, pending) ∧ Forall (reapable env h0) reaped ∧
    confirmed_beyond (pe_dir env 3) (anchor h0) = Ok confirmed ∧
    extends (allowed (eligible s) (anchor h0)) h1 h ∧
    (∀ u, u ∈ confirmed → u ∈ added h) ∧
    (eligible s = false → ∀ e, e ∈ tick_superseded s → kept_visible h e.1.1) ∧
    (eligible s = true → ∀ e, e ∈ tick_superseded s → straddled (anchor h0) e = false → is_Some (superseded h !! e.1.1)) ∧
    ops = map DeleteSegment reaped ++ [PutHead h].
Proof.
  assert (∀ l, PutHead h ∈ map DeleteSegment l → False) as Hno.
  { intros l (u & Hu & _)%list_elem_of_In%in_map_iff. done. }
  unfold publish_head_delta. fold (eligible s). destruct (negb _ && negb _); [by intros [= _ _ <-] ?%elem_of_nil|].
  destruct due; [|by intros [= _ _ <-] ?%elem_of_nil]. destruct drain_ok; [|by intros [= _ _ <-] ?%elem_of_nil]. cbn [negb].
  destruct (seed_head _ _ _) as [[[h0 repaired] pending]|] eqn:Hs; [|by intros [= _ _ <-] ?%elem_of_nil].
  set (reap_due := bool_decide _). set (s1 := set_reconcile pending (set_cache None s)).
  destruct (if reap_due then match reap_expired conf env h0 with Some (head, ops) => (head, true, ops) | None => (h0, repaired, []) end
            else (h0, repaired, [])) as [[h1 mutated] deletes] eqn:Hr.
  assert (∃ reaped, h1 = apply_reap h0 reaped ∧ deletes = map DeleteSegment reaped ∧ Forall (reapable env h0) reaped)
    as (reaped & -> & -> & Hreap).
  { destruct reap_due; [|injection Hr as <- _ <-; by exists []].
    destruct (reap_expired conf env h0) as [[h' ops']|] eqn:He; [|injection Hr as <- _ <-; by exists []].
    injection Hr as <- _ <-. by apply reap_expired_inv in He. }
  destruct (apply_reap_spec reaped h0) as (Ha & _). rewrite Ha.
  destruct (confirmed_beyond _ _) as [confirmed|] eqn:Hc; [|intros [= _ _ <-]; by intros ?%Hno].
  set (acc := foldl insert_added _ confirmed).
  assert (extends (λ _ _, False) (apply_reap h0 reaped) acc.1) as Hacc
    by (apply (extends_fold _ _ _ (apply_reap h0 reaped, mutated)); intros; apply insert_added_extends).
  assert (∀ u, u ∈ confirmed → u ∈ added acc.1) as Hin by (intros u; apply fold_added_in).
  destruct (reconcile _ _ _ _ _) as [acc1 pending1] eqn:Hrec. apply reconcile_extends in Hrec.
  replace (tick_superseded (if reap_due then set_reap (pe_mono env 1) s1 else s1)) with (tick_superseded s) by (by destruct reap_due).
  destruct (take_edges _ _ _) as [edges [h2 mutated2]] eqn:Ht. pose proof (take_edges_extends _ _ _ _ _ Ht) as Hext. cbn [fst] in Hext.
  rewrite (ex_anchor _ _ _ Hacc), Ha in Hrec. rewrite (ex_anchor _ _ _ Hrec), (ex_anchor _ _ _ Hacc), Ha in Hext.
  assert (extends (allowed (eligible s) (anchor h0)) (apply_reap h0 reaped) h2) as Hall.
  { eapply extends_trans; [|eapply extends_trans; [exact Hrec|exact Hext]]. destruct Hacc as [? ? ? ? Hn]. split; auto.
    intros u e Hue%Hn. naive_solver. }
  intros Hp Hput. assert (h2 = h ∧ ops = map DeleteSegment reaped ++ [PutHead h]) as [-> ->].
  { destruct mutated2; cbn [negb] in Hp; [|injection Hp as _ _ <-; by apply Hno in Hput].
    destruct (pe_put env); injection Hp as _ _ <-;
      (apply elem_of_app in Hput as [Hput|Hput]; [by apply Hno in Hput|]; apply list_elem_of_singleton in Hput; by injection Hput as <-). }
  split; [done|]. split; [done|]. exists h0, repaired, pending, reaped, confirmed. split; [done|]. split; [done|]. split; [done|]. split; [exact Hall|]. split; [|split; [|split; [|done]]].
  - intros u Hu. apply (ex_added _ _ _ Hext), (ex_added _ _ _ Hrec), Hin, Hu.
  - intros He e Hin'. unfold take_edges in Ht. rewrite He in Ht. injection Ht as _ Ht.
    pose proof (fold_hold_visible (tick_superseded s) acc1 e Hin') as Hv. by rewrite Ht in Hv.
  - intros He e Hin' Hst. unfold take_edges in Ht. rewrite He in Ht. injection Ht as _ Ht.
    rewrite (ex_anchor _ _ _ Hrec), (ex_anchor _ _ _ Hacc), Ha in Ht.
    pose proof (fold_publish_in (filter (λ e, straddled (anchor h0) e = false) (tick_superseded s)) acc1 e) as Hv.
    rewrite Ht in Hv. apply Hv, list_elem_of_filter. done.
Qed.

(** C19: a cut names a whole commit and loses nothing. What a publish puts in the
    bucket follows a complete drain, on the cut's clock; it names every committed
    segment beyond its anchor; a segment of the live set it starts from stays
    live unless an edge of this cut replaces it, whose output is beyond the anchor
    and which a flush after the last plan let through; below that barrier no edge
    is new and every held edge's input is still named, above it every edge in hand
    whose output is beyond the anchor is published. A deletion precedes the
    put, is of an input past its retention that the directory no longer holds
    while the name is this fork's, and is recorded in what is put. *)
Theorem cut_exact s env drain_ok due s' landed ops h :
  publish_head_delta conf s env drain_ok due = (s', landed, ops) → PutHead h ∈ ops →
  drain_ok = true ∧ due = true ∧ ∃ h0 repaired pending deleted confirmed,
    seed_head s env (eligible s) = Some (h0, repaired, pending) ∧ anchor h = anchor h0 ∧
    confirmed_beyond (pe_dir env 3) (anchor h) = Ok confirmed ∧ (∀ u, u ∈ confirmed → u ∈ added h) ∧
    (∀ manifest u, u ∈ live_set manifest h0 → u ∉ live_set manifest h →
       eligible s = true ∧ ∃ e, superseded h !! u = Some e ∧ beyond (anchor h) (ss_output e) = true) ∧
    (eligible s = false → (∀ u e, superseded h !! u = Some e → superseded h0 !! u = Some e) ∧
       ∀ e, e ∈ tick_superseded s → kept_visible h e.1.1) ∧
    (eligible s = true → ∀ e, e ∈ tick_superseded s → straddled (anchor h) e = false → is_Some (superseded h !! e.1.1)) ∧
    ops = map DeleteSegment deleted ++ [PutHead h] ∧ Forall (reapable env h0) deleted ∧
    (∀ u, u ∈ tombstoned h ↔ u ∈ tombstoned h0 ∨ u ∈ deleted).
Proof.
  intros Hp Hput. destruct (publish_inv _ _ _ _ _ _ _ _ Hp Hput)
    as (-> & -> & h0 & repaired & pending & reaped & confirmed & Hs & Hr & Hc & He & Hin & Hh & Hpub & ->).
  split; [done|]. split; [done|]. exists h0, repaired, pending, reaped, confirmed.
  destruct (apply_reap_spec reaped h0) as (Ha & Hd & Hsu & Ht).
  assert (anchor h = anchor h0) as Hah by (rewrite (ex_anchor _ _ _ He); exact Ha).
  split; [done|]. split; [done|]. rewrite Hah. split; [done|]. split; [done|].
  assert (∀ u e, superseded h !! u = Some e → superseded h0 !! u = Some e ∨ allowed (eligible s) (anchor h0) u e) as Hnew.
  { intros u e Hue. destruct (ex_new _ _ _ He u e Hue) as [H|H]; [left|by right]. rewrite Hsu in H. by case_decide. }
  split_and!.
  - intros m u Hl Hnl. apply elem_of_live_set in Hl as (Hm & Hsn & Htn).
    assert (u ∉ reaped) as Hur.
    { intros Hu. rewrite Forall_forall in Hr. destruct (Hr u Hu) as ((e & Hue & _) & _). congruence. }
    assert (u ∉ tombstoned h) as Htu by (rewrite (ex_tombstoned _ _ _ He), Ht; tauto).
    destruct (superseded h !! u) as [e|] eqn:Hue.
    + destruct (Hnew u e Hue) as [H|[H1 H2]]; [congruence|]. split; [done|]. by exists e.
    + exfalso. apply Hnl, elem_of_live_set. split_and!; [|done|done]. destruct Hm as [Hm|Hm]; [by left|right].
      apply (ex_added _ _ _ He), Hd. done.
  - intros Hel. split; [|by apply Hh]. intros u e Hue. destruct (Hnew u e Hue) as [H|[H _]]; [done|congruence].
  - done.
  - done.
  - done.
  - intros u. by rewrite (ex_tombstoned _ _ _ He), Ht.
Qed.

(** ** The barrier, over the ticks *)

(** What a tick did: a flush confirmed, plans possibly emitted. *)
Definition flush_confirmed (env : TickEnv) (s : Orchestrator) : bool :=
  run_volume_compactions env (flush_due s (cut_due conf s (te_clock env 1))).
Definition drain_complete (env : TickEnv) : bool :=
  negb (te_pending_dir env) || match te_drain env with Ok r => negb (dr_failed r) | Err _ => false end.
Definition plan_emitted (env : TickEnv) (s : Orchestrator) : bool :=
  bool_decide (gc_interval conf ≤ elapsed (te_clock env 2) (last_gc s)) && drain_complete env &&
  match prepare_gc_pass env, te_gc env with Some _, (GcCompact | GcFailed) => true | _, _ => false end.

Definition fenced (env : TickEnv) (s : Orchestrator) : bool :=
  (te_pending_files env || bool_decide (FENCE_HEARTBEAT ≤ elapsed (te_clock env 0) (last_fence s)))
  && match (fence_if_displaced env).1 with Some _ => true | None => false end.

(** The tick as the history records it; one that stops short is no tick. *)
Definition facts (env : TickEnv) (s : Orchestrator) : list (bool * bool) :=
  if te_exists env && negb (fenced env s) && negb (te_importing_quiet env) && negb (te_snap_locked env)
  then [(flush_confirmed env s, plan_emitted env s)] else [].

Inductive reach : list (bool * bool) → Orchestrator → Prop :=
  | reach_new now backlog : reach [] (orch_new conf now backlog)
  | reach_tick hist s env s' out ops : reach hist s → run_tick conf env s = (s', out, ops) → reach (hist ++ facts env s) s'.

Lemma tick_drain_seqs env s s' ok due b : tick_drain conf env s = (s', ok, due, b) →
  tick_seq s' = tick_seq s + 1 ∧
  last_flush_seq s' = (if flush_confirmed env s then tick_seq s + 1 else last_flush_seq s) ∧
  last_plan_pass_seq s' = (if plan_emitted env s then tick_seq s + 1 else last_plan_pass_seq s).
Proof.
  unfold tick_drain, flush_confirmed, plan_emitted, drain_complete, run_drain, run_handoff_cleanup, run_gc_pass.
  change (cut_due conf (set_seqs (tick_seq s + 1) (last_flush_seq s) (last_plan_pass_seq s) s) (te_clock env 1)) with (cut_due conf s (te_clock env 1)).
  change (flush_due (set_seqs (tick_seq s + 1) (last_flush_seq s) (last_plan_pass_seq s) s)) with (flush_due s).
  destruct (run_volume_compactions env _), (te_handoffs env), (te_pending_dir env), (te_drain env) as [[up fl [c|]]|];
    cbn [negb orb dr_failed dr_cache dr_uploaded last_gc set_seqs];
    destruct (bool_decide (gc_interval conf ≤ elapsed (te_clock env 2) (last_gc s))), (prepare_gc_pass env), (te_gc env);
    try destruct fl; intros [= <- <- _ _]; done.
Qed.

Lemma publish_seqs s env ok due s' landed ops : publish_head_delta conf s env ok due = (s', landed, ops) →
  tick_seq s' = tick_seq s ∧ last_flush_seq s' = last_flush_seq s ∧ last_plan_pass_seq s' = last_plan_pass_seq s.
Proof.
  unfold publish_head_delta. destruct (negb _ && negb _); [by intros [= <- _ _]|].
  destruct due, ok; cbn [negb]; try by intros [= <- _ _].
  destruct (seed_head _ _ _) as [[[h0 rep] pend]|]; [|by intros [= <- _ _]]. cbv zeta.
  destruct (bool_decide (reaper_cadence _ ≤ _)); [destruct (reap_expired _ _ _) as [[]|]|];
    (destruct (confirmed_beyond _ _); [|by intros [= <- _ _]]);
    destruct (reconcile _ _ _ _ _); destruct (take_edges _ _ _) as [? [? []]]; cbn [negb];
    try destruct (pe_put env); by intros [= <- _ _].
Qed.

Record seqs_inv (hist : list (bool * bool)) (tick flush plan : Z) : Prop := {
  sq_tick : tick = Z.of_nat (length hist);
  sq_flush : flush = 0 ∨ ∃ k p, hist !! k = Some (true, p) ∧ flush = Z.of_nat k + 1;
  sq_plan k f : hist !! k = Some (f, true) → Z.of_nat k + 1 ≤ plan;
  sq_nonneg : 0 ≤ plan
}.

Lemma seqs_snoc hist tick flush plan f p : seqs_inv hist tick flush plan →
  seqs_inv (hist ++ [(f, p)]) (tick + 1) (if f then tick + 1 else flush) (if p then tick + 1 else plan).
Proof.
  intros [Ht Hf Hp Hn]. assert ((hist ++ [(f, p)]) !! length hist = Some (f, p)) as Hlast by (by rewrite lookup_app_r, Nat.sub_diag).
  assert (∀ k x, hist !! k = Some x → (hist ++ [(f, p)]) !! k = Some x) as Hl by (intros; by apply lookup_app_l_Some).
  split.
  - rewrite length_app. cbn. lia.
  - destruct f; [right; exists (length hist), p; split; [done|lia]|]. destruct Hf as [->|(k & q & Hk & ->)]; [by left|right].
    exists k, q. split; [by apply Hl|done].
  - intros k g [Hk|[Hk1 Hk]]%lookup_app_Some.
    + specialize (Hp k g Hk). apply lookup_lt_Some in Hk. destruct p; lia.
    + apply list_lookup_singleton_Some in Hk as [Hz [= <- ->]]. lia.
  - destruct p; lia.
Qed.

(** The tick's state when it comes to its flush. *)
Definition before_drain (env : TickEnv) (s : Orchestrator) : Orchestrator :=
  let s' := match te_sealed env with Some c => set_cache c s | None => s end in
  if te_pending_files env || bool_decide (FENCE_HEARTBEAT ≤ elapsed (te_clock env 0) (last_fence s))
  then set_fence (te_clock env 4) s' else s'.

Definition same_seqs (s s' : Orchestrator) : Prop :=
  tick_seq s' = tick_seq s ∧ last_flush_seq s' = last_flush_seq s ∧ last_plan_pass_seq s' = last_plan_pass_seq s.

Lemma fence_puts env h : PutHead h ∉ (fence_if_displaced env).2.
Proof. unfold fence_if_displaced. destruct (te_named env), (te_binding env), (te_shutdown_failed env); cbn; set_solver. Qed.

(** A tick stops short of its flush, and then puts no head, or runs to its publish. *)
Lemma run_tick_cases env s s' out ops : run_tick conf env s = (s', out, ops) →
  (facts env s = [] ∧ same_seqs s s' ∧ ∀ h, PutHead h ∉ ops) ∨
  (facts env s = [(flush_confirmed env s, plan_emitted env s)] ∧ ∃ s2 ok due b s3 landed pubs,
     tick_drain conf env (before_drain env s) = (s2, ok, due, b) ∧
     publish_head_delta conf s2 (te_publish env) ok (due && te_upload_drained env) = (s3, landed, pubs) ∧
     s' = s3 ∧ ∀ h, PutHead h ∈ ops → PutHead h ∈ pubs).
Proof.
  unfold run_tick, facts, fenced, before_drain. destruct (te_exists env); cbn [negb andb];
    [|intros [= <- _ <-]; left; split_and!; [done|done..|intros h; apply not_elem_of_nil]].
  set (s0 := match te_sealed env with Some c => set_cache c s | None => s end).
  replace (last_fence s0) with (last_fence s) by (unfold s0; by destruct (te_sealed env)).
  assert (same_seqs s s0) as Hs0 by (unfold s0; by destruct (te_sealed env)).
  set (check := te_pending_files env || _).
  destruct (if check then fence_if_displaced env else (None, [])) as [fd o] eqn:Hf.
  assert (check && match (fence_if_displaced env).1 with Some _ => true | None => false end = match fd with Some _ => true | None => false end) as ->
    by (destruct check; [by rewrite Hf|by injection Hf as <- _]).
  assert (∀ h, PutHead h ∉ o) as Ho.
  { intros h. destruct check; [|injection Hf as _ <-; apply not_elem_of_nil]. pose proof (fence_puts env h) as H. by rewrite Hf in H. }
  destruct fd; cbn [negb andb]; [intros [= <- _ <-]; by left|].
  set (s1 := if check then set_fence (te_clock env 4) s0 else s0).
  assert (same_seqs s s1) as Hs1 by (unfold s1; by destruct check).
  destruct (te_importing_quiet env); cbn [negb andb]; [intros [= <- _ <-]; by left|].
  destruct (te_snap_locked env); cbn [negb andb]; [intros [= <- _ <-]; by left|].
  destruct (tick_drain conf env s1) as [[[s2 ok] due] b] eqn:Hd.
  destruct (publish_head_delta _ _ _ _ _) as [[s3 landed] pubs] eqn:Hp. intros [= <- _ <-]. right. split; [done|].
  exists s2, ok, due, b, s3, landed, pubs. split_and!; try done. intros h. specialize (Ho h).
  rewrite !elem_of_app. intros [?|[Hb|[?|Hl]]]; [done| |done|].
  - destruct b; [by apply list_elem_of_singleton in Hb|by apply elem_of_nil in Hb].
  - destruct landed; [by apply list_elem_of_singleton in Hl|by apply elem_of_nil in Hl].
Qed.

(** The sequence numbers when the tick comes to its publish. *)
Lemma drained_seqs hist env s s2 ok due b : seqs_inv hist (tick_seq s) (last_flush_seq s) (last_plan_pass_seq s) →
  facts env s = [(flush_confirmed env s, plan_emitted env s)] →
  tick_drain conf env (before_drain env s) = (s2, ok, due, b) →
  seqs_inv (hist ++ facts env s) (tick_seq s2) (last_flush_seq s2) (last_plan_pass_seq s2).
Proof.
  intros Hi -> (-> & -> & ->)%tick_drain_seqs.
  assert (same_seqs s (before_drain env s) ∧ flush_confirmed env (before_drain env s) = flush_confirmed env s ∧
    plan_emitted env (before_drain env s) = plan_emitted env s) as ((-> & -> & ->) & -> & ->)
    by (unfold before_drain; destruct (te_sealed env), (_ || _); done).
  by apply seqs_snoc.
Qed.

Lemma reach_seqs hist s : reach hist s → seqs_inv hist (tick_seq s) (last_flush_seq s) (last_plan_pass_seq s).
Proof.
  induction 1 as [now backlog|hist s env s' out ops _ IH Hr]; [split; try done; by left|].
  destruct (run_tick_cases _ _ _ _ _ Hr) as [(-> & (-> & -> & ->) & _)|(Hf & s2 & ok & due & b & s3 & landed & pubs & Hd & Hp & -> & _)];
    [by rewrite app_nil_r|].
  destruct (publish_seqs _ _ _ _ _ _ _ Hp) as (-> & -> & ->). by eapply drained_seqs.
Qed.

(** The edges a cut starts from: a head's, or below an open barrier the tables'. *)
Lemma seed_edges s env el h0 repaired pending u e : seed_head s env el = Some (h0, repaired, pending) →
  superseded h0 !! u = Some e → head_cache s = Some h0 ∨ head_read (pe_get env) = inl h0 ∨ el = true.
Proof.
  unfold seed_head. destruct (head_cache s) as [h|]; [intros [= <- _ _]; by left|].
  intros Hs Hu. destruct (head_read (pe_get env)) as [h|];
    [destruct (negb (head_is_empty h)); [injection Hs as <- _ _; by right; left|];
     destruct (empty_head_is_legitimate _ _ _); [injection Hs as <- _ _; by right; left|]|];
    (destruct (regenerate _ _ _); [|done]); (destruct el; [by right; right|]);
    injection Hs as <- _ _; cbn in Hu; by rewrite lookup_empty in Hu.
Qed.

(** C24: the barrier. Over the ticks of a run, an edge is in a HEAD a tick puts
    only where it was in the head the cut started from, the one cached or the one
    in the bucket, or where an earlier or this tick confirmed a flush and no tick
    since, that one included, may have staged a plan: until then the replaced
    segments are not given up. *)
Theorem barrier_holds hist s env s' out ops h :
  reach hist s → run_tick conf env s = (s', out, ops) → PutHead h ∈ ops →
  ∃ s2 ok due b, tick_drain conf env (before_drain env s) = (s2, ok, due, b) ∧
    ∀ u e, superseded h !! u = Some e →
      (∃ h0, (head_cache s2 = Some h0 ∨ head_read (pe_get (te_publish env)) = inl h0) ∧ superseded h0 !! u = Some e) ∨
      (∃ k p, (hist ++ facts env s) !! k = Some (true, p) ∧
         ∀ j q, (k ≤ j)%nat → (hist ++ facts env s) !! j = Some q → q.2 = false).
Proof.
  intros Hreach%reach_seqs Hr Hput.
  destruct (run_tick_cases _ _ _ _ _ Hr) as [(_ & _ & Hno)|(Hf & s2 & ok & due & b & s3 & landed & pubs & Hd & Hp & _ & Hputs)];
    [by apply Hno in Hput|].
  exists s2, ok, due, b. split; [done|]. intros u e Hue.
  destruct (drained_seqs _ _ _ _ _ _ _ Hreach Hf Hd) as [_ Hfl Hpl Hnn].
  assert (eligible s2 = true → ∃ k p, (hist ++ facts env s) !! k = Some (true, p) ∧
    ∀ j q, (k ≤ j)%nat → (hist ++ facts env s) !! j = Some q → q.2 = false) as Hbar.
  { intros Hel%bool_decide_eq_true. destruct Hfl as [?|(k & p & Hk & Hkf)]; [lia|]. exists k, p. split; [done|].
    intros j [f []] Hj Hq; [|done]. specialize (Hpl j f Hq). lia. }
  destruct (publish_inv _ _ _ _ _ _ _ _ Hp (Hputs h Hput))
    as (_ & _ & h0 & repaired & pending & reaped & confirmed & Hs & _ & _ & He & _).
  destruct (ex_new _ _ _ He u e Hue) as [H|[Hel _]]; [|right; by apply Hbar].
  destruct (apply_reap_spec reaped h0) as (_ & _ & Hsu & _). rewrite Hsu in H. case_decide; [done|].
  destruct (seed_edges _ _ _ _ _ _ _ _ Hs H) as [Hc|[Hc|Hel]]; [left..|right; by apply Hbar]; exists h0; auto.
Qed.
End spec.

(** ** A concrete tick *)

#[local] Existing Instance toy_blake3.
#[local] Existing Instance toy_ulid_bytes.
#[local] Existing Instance toy_signer.
#[local] Existing Instance toy_lz4.
#[local] Existing Instance decimal_rfc3339.

(** One-letter ULIDs. *)
#[local] Instance letter_ulid_text : UlidText := {
  ulid_from_string s := match s with String c EmptyString => Some (Z.of_nat (nat_of_ascii c)) | _ => None end;
  ulid_to_string u := String (ascii_of_nat (Z.to_nat u)) EmptyString
}.

Definition toy_conf : GcConfig := mkGcConfig (10 * SECOND) (5 * SECOND) (600 * SECOND) 4.
Definition toy_now : Instant := 100000 * SECOND.

Definition toy_flush_file : list Z :=
  match write_gc_segment raw_decode sample_pending [] with Ok (f, _, _) => f | Err _ => [] end.

(** The compaction output [B], whose signed table says it replaced [A], beside [C]. *)
Definition toy_committed : ForkDir := {|
  fd_list d := match d with DIndex => Ok ["B.idx"; "C.idx"]%string | _ => Err NotFound end;
  fd_file d n := match d with DIndex => Ok (if bool_decide (n = "B.idx"%string) then toy_gc_file else toy_flush_file) | _ => Err NotFound end;
  fd_exists _ _ := false;
  fd_wal := Err NotFound;
  fd_wal_file _ := Err NotFound;
  fd_key := Ok toy_verifier
|}.

Definition toy_publish (put : unit + StoreError) : PublishEnv :=
  mkPublishEnv (λ _, toy_now) (λ _, toy_now) (λ _, toy_committed) (Ok None) (inr SNotFound) put false Bound.

Definition toy_cached : SegmentHead := mkSegmentHead None {[ 65; 67 ]} ∅ ∅.

(** A flush that confirms, and a handoff of [A] to [B] that finished. *)
Definition toy_tick : TickEnv :=
  mkTickEnv true (Some (Some toy_cached)) false false false Bound false false true true
    (Ok [mkHandoffOutcome 66 [65] true]) toy_now None (Err NotFound) None false (Err NotFound) GcNothing true
    (λ _, toy_now) (toy_publish (inl ())).

Definition toy_start : Orchestrator := orch_new toy_conf toy_now true.

(** The tick publishes the handoff's edge. *)
Definition toy_head : SegmentHead := mkSegmentHead None ({[ 66 ]} ∪ {[ 65; 67 ]}) {[ 65 := mkSupersession 66 toy_now ]} ∅.

Definition toy_after : Orchestrator :=
  mkOrchestrator toy_now (toy_now - 60 * SECOND) toy_now toy_now [] [] 1 1 0 true (Some toy_head).

Definition toy_held : Orchestrator :=
  mkOrchestrator toy_now toy_now (toy_now - 5 * SECOND) toy_now [] [(65, 66, toy_now)] 3 1 2 false (Some toy_cached).

(** Below the barrier the edge is held, and its input stays in the cut. *)
Lemma cut_exact_witness :
  let h := mkSegmentHead None ({[ 66 ]} ∪ {[ 65; 67 ]}) ∅ ∅ in
  kept_visible h 65 ∧ tick_superseded (publish_head_delta toy_conf toy_held (toy_publish (inl ())) true true).1.1 = [(65, 66, toy_now)].
Proof.
  intros h. destruct (publish_head_delta toy_conf toy_held (toy_publish (inl ())) true true) as [[s' landed] ops] eqn:E.
  assert (ops = [PutHead h] ∧ tick_superseded s' = [(65, 66, toy_now)]) as [Hops Hs] by (vm_compute in E; injection E as <- _ <-; by split).
  assert (PutHead h ∈ ops) as Hput by (rewrite Hops; left).
  destruct (cut_exact toy_conf toy_held (toy_publish (inl ())) true true s' landed ops h E Hput)
    as (_ & _ & h0 & rep & pend & del & conf & _ & _ & _ & _ & _ & Hheld & _).
  split; [|exact Hs]. apply (proj2 (Hheld eq_refl) (65, 66, toy_now)). left.
Defined.

Lemma barrier_holds_witness :
  match run_tick toy_conf toy_tick toy_start with
  | (_, _, ops) => ∃ h e, PutHead h ∈ ops ∧ superseded h !! 65 = Some e ∧
      ∃ k p, facts toy_conf toy_tick toy_start !! k = Some (true, p)
  end.
Proof.
  destruct (run_tick toy_conf toy_tick toy_start) as [[s' out] ops] eqn:E.
  assert (ops = [PutHead toy_head; CloseGeneration]) as Hops by (vm_compute in E; injection E as _ _ <-; reflexivity).
  assert (PutHead toy_head ∈ ops) as Hput by (rewrite Hops; left).
  destruct (barrier_holds toy_conf [] toy_start toy_tick s' out ops toy_head (reach_new toy_conf toy_now true) E Hput)
    as (s2 & ok & due & b & Hd & Hnew).
  exists toy_head, (mkSupersession 66 toy_now). split; [exact Hput|].
  assert (superseded toy_head !! 65 = Some (mkSupersession 66 toy_now)) as Hue by (vm_compute; reflexivity). split; [exact Hue|].
  destruct (Hnew 65 _ Hue) as [(h0 & Hc & Hh0)|(k & p & Hk & _)]; [|exists k, p; exact Hk].
  exfalso. assert (head_cache s2 = Some toy_cached) as Hs2 by (vm_compute in Hd; injection Hd as <- _ _ _; reflexivity).
  rewrite Hs2 in Hc. destruct Hc as [[= <-]|Hr]; [by vm_compute in Hh0|]. vm_compute in Hr. injection Hr as <-. by vm_compute in Hh0.
Defined.

(** A put that fails loses the edges the signed tables gave: the flag is cleared
    before the put, and the next publish starts from the bucket's head. *)
Definition toy_pending : Orchestrator :=
  mkOrchestrator toy_now toy_now (toy_now - 5 * SECOND) toy_now [66] [] 3 3 2 true (Some toy_cached).

Definition toy_republish (got : Body) : PublishEnv :=
  mkPublishEnv (λ _, toy_now) (λ _, toy_now) (λ _, toy_committed) (Ok None) (inl got) (inl ()) false Bound.

Lemma failed_put_loses_edges :
  let '(s1, landed, ops) := publish_head_delta toy_conf toy_pending (toy_publish (inr (SOther))) true true in
  let '(s2, _, ops2) := publish_head_delta toy_conf s1 (toy_republish (render toy_cached)) true true in
  landed = false ∧ ops = [PutHead toy_head] ∧ tick_added s1 = [66] ∧
  ops2 = [PutHead (mkSegmentHead None ({[ 66 ]} ∪ {[ 65; 67 ]}) ∅ ∅)] ∧ reconcile_edges s2 = false.
Proof. vm_compute. split_and!; reflexivity. Qed.
