(* ===== verification/GcSelect.v ===== *)
(** * The coordinator's GC pass (elide-coordinator/src/gc.rs)

    A pass rebuilds the fork's views from its directory, classifies every
    committed segment above the snapshot floor, packs the sparse ones and the dead
    ones into at most as many buckets as it was given ULIDs, and writes one plan a
    bucket for the volume to apply. *)

From Stdlib Require Import Ascii String Floats.SpecFloat.
From stdpp Require Import base gmap list sorting strings.
From S2P Require Import Prelude Bytes Text Segment SegmentCodec LbaMap ExtentIndex Rebuild RewritePlan SegmentClassify RepackPass Reclaim.
From S2P Require WriteLog.
Open Scope Z_scope.

Definition SWEEP_MATERIALISE_CAP : Z := 32 * 1024 * 1024.
Definition SWEEP_ENTRY_CAP : Z := 8192.
Definition BLOCK_BYTES : Z := 4096.

Definition saturating_sub (a b : Z) : Z := Z.max 0 (a - b).

(** ** A stable sort by a comparison *)

Fixpoint insert_with {A} (le : A → A → bool) (x : A) (l : list A) : list A :=
  match l with
  | [] => [x]
  | y :: l' => if le x y then x :: l else y :: insert_with le x l'
  end.
Definition sort_with {A} (le : A → A → bool) (l : list A) : list A := foldr (insert_with le) [] l.

(** ** What a pass knows of a segment *)

Inductive SegmentPool := Stable | PoolJournal | Tombstone.

#[export] Instance SegmentPool_eq_dec : EqDecision SegmentPool.
Proof. solve_decision. Defined.

Record SegmentStats := mkStats {
  st_ulid : Ulid;
  st_ulid_str : string;
  st_retained : Z;
  st_materialised : Z;
  st_total : Z;
  st_has_body : bool;
  st_live_entries : list SegmentEntry;
  st_live_entry_indices : list Z;
  st_removed_hashes : list Hash;
  st_partial_death_runs : list (option (list ExtentRead));
  st_has_partial_death : bool;
  st_pool : SegmentPool
}.

Definition reclaimable_stored_bytes (s : SegmentStats) : Z := saturating_sub (st_total s) (st_retained s).

Definition density (s : SegmentStats) : spec_float :=
  if decide (0 < st_total s) then f64_div (f64_of (st_retained s)) (f64_of (st_total s)) else S754_zero false.

Definition estimated_output_entries (s : SegmentStats) : Z :=
  foldl (λ n runs, u64_add n (match runs with Some r => u64_add (Z.of_nat (length r)) 1 | None => 1 end)) 0
    (st_partial_death_runs s).

(** ** Costs *)

Definition keep_cost (e : SegmentEntry) : Z :=
  match e_kind e with
  | Data | Inline | CanonicalData | CanonicalInline => e_stored_length e
  | Delta | CanonicalDelta => foldl (λ acc o, u64_add acc (delta_length o)) 0 (e_delta_options e)
  | DedupRef | Zero => 0
  end.

Definition stored_cost (e : SegmentEntry) : Z := keep_cost e.

Definition canonical_cost (e : SegmentEntry) : Z :=
  match e_kind e with Delta | CanonicalDelta => keep_cost e | _ => e_stored_length e end.

(** ** Classifying a segment's entries *)

Record Scan := mkScan {
  sn_retained : Z;
  sn_total : Z;
  sn_physical : Z;
  sn_materialised : Z;
  sn_live : list SegmentEntry;
  sn_indices : list Z;
  sn_runs : list (option (list ExtentRead));
  sn_removed : list Hash;
  sn_partial : bool
}.

Definition scan_new : Scan := mkScan 0 0 0 0 [] [] [] [] false.

(** An inline entry carries its bytes of the inline section. *)
Definition with_inline (inline_bytes : list Z) (e : SegmentEntry) : SegmentEntry :=
  if is_inline (e_kind e) then
    let end_ := u64_add (e_stored_offset e) (e_stored_length e) in
    if decide (end_ ≤ blen inline_bytes)
    then mkSegmentEntry (e_hash e) (e_start_lba e) (e_lba_length e) (e_codec e) (e_kind e) (e_stored_offset e)
           (e_stored_length e)
           (Some (take (Z.to_nat (e_stored_length e)) (drop (Z.to_nat (e_stored_offset e)) inline_bytes)))
           (e_delta_options e) (e_journal e) (e_sketch e) (e_stored_hash e)
    else e
  else e.

Definition count_entry (e : SegmentEntry) (sn : Scan) : Scan :=
  mkScan (sn_retained sn) (u64_add (sn_total sn) (stored_cost e))
    (if is_inline (e_kind e) then sn_physical sn else u64_add (sn_physical sn) (e_stored_length e))
    (sn_materialised sn) (sn_live sn) (sn_indices sn) (sn_runs sn) (sn_removed sn) (sn_partial sn).

(** One live entry, with what it retains and what it has the volume materialise. *)
Definition push_live (retained materialised : Z) (e : SegmentEntry) (idx : Z) (runs : option (list ExtentRead)) (sn : Scan) : Scan :=
  mkScan (u64_add (sn_retained sn) retained) (sn_total sn) (sn_physical sn) (u64_add (sn_materialised sn) materialised)
    (sn_live sn ++ [e]) (sn_indices sn ++ [idx]) (sn_runs sn ++ [runs]) (sn_removed sn) (sn_partial sn).

Definition push_removed (h : Hash) (sn : Scan) : Scan :=
  mkScan (sn_retained sn) (sn_total sn) (sn_physical sn) (sn_materialised sn) (sn_live sn) (sn_indices sn) (sn_runs sn)
    (sn_removed sn ++ [h]) (sn_partial sn).

Definition mark_partial (sn : Scan) : Scan :=
  mkScan (sn_retained sn) (sn_total sn) (sn_physical sn) (sn_materialised sn) (sn_live sn) (sn_indices sn) (sn_runs sn)
    (sn_removed sn) true.

(** One surviving run of a zero entry. *)
Definition zero_run (e : SegmentEntry) (r : ExtentRead) : SegmentEntry :=
  mkSegmentEntry (e_hash e) (range_start r) (as_u32 (run_blocks r)) (e_codec e) (e_kind e) (e_stored_offset e)
    (e_stored_length e) (e_inline e) (e_delta_options e) (e_journal e) (e_sketch e) (e_stored_hash e).

(** Whether a partly dead entry's composite body goes along whole. *)
Definition emits_canonical (live_hashes : gset Hash) (e : SegmentEntry) : bool :=
  match e_kind e with Data | Inline | Delta => bool_decide (e_hash e ∈ live_hashes) | _ => false end.

Definition scan_entry (ctx : ClassifyCtx) (inline_bytes : list Z) (sn : Scan) (ie : nat * SegmentEntry) : Scan :=
  let idx := as_u32 (Z.of_nat ie.1) in
  let e := with_inline inline_bytes ie.2 in
  let sn := count_entry e sn in
  match classify_entry e ctx with
  | FullyLive => push_live (stored_cost e) (keep_cost e) e idx None sn
  | DemoteToCanonical => push_live (stored_cost e) (canonical_cost e) (into_canonical e) idx None sn
  | ZeroSubRuns runs => foldl (λ sn r, push_live 0 0 (zero_run e r) idx None sn) sn runs
  | PartialDeath runs _ =>
      let blocks := live_blocks_of runs in
      let slices := (blocks * BLOCK_BYTES) mod U64 in
      if emits_canonical (live_hashes ctx) e
      then push_live (stored_cost e) (u64_add slices (canonical_cost e)) e idx (Some runs) sn
      else push_live (if decide (0 < e_lba_length e) then ((stored_cost e * blocks) mod U64) / e_lba_length e else 0)
             slices e idx (Some runs) sn
  | DeferUnresolvableDelta => mark_partial (push_live (stored_cost e) 0 e idx None sn)
  | DropAndRemoveHash => push_removed (e_hash e) sn
  | Drop => sn
  end.

Definition pool_of (sn : Scan) : SegmentPool :=
  if bool_decide (sn_live sn = []) then (if bool_decide (sn_removed sn = []) then Tombstone else Stable)
  else if forallb e_journal (sn_live sn) then PoolJournal else Stable.

Definition segment_stats (ctx : ClassifyCtx) (ulid_str : string) (inline_bytes : list Z) (entries : list SegmentEntry) : SegmentStats :=
  let sn := foldl (scan_entry ctx inline_bytes) scan_new (imap pair entries) in
  mkStats (cc_segment_id ctx) ulid_str (sn_retained sn) (sn_materialised sn) (sn_total sn)
    (bool_decide (0 < sn_physical sn) || existsb (λ e, is_inline (e_kind e)) entries)
    (sn_live sn) (sn_indices sn) (sn_removed sn) (sn_runs sn) (sn_partial sn) (pool_of sn).

(** ** Selection *)

Record PackedBucket := mkPacked { pb_bucket : list SegmentStats; pb_candidates : Z; pb_bytes_freed : Z; pb_dead_cleaned : Z }.

(** Its rewrite frees bytes. *)
Definition is_sparse (density_threshold : spec_float) (s : SegmentStats) : bool :=
  f64_lt (density s) density_threshold && bool_decide (0 < reclaimable_stored_bytes s).

(** Largest first, ties by name. *)
Definition packs_before (a b : SegmentStats) : bool :=
  bool_decide (st_materialised b < st_materialised a)
  || bool_decide (st_materialised a = st_materialised b) && String.leb (st_ulid_str a) (st_ulid_str b).

Definition by_name (a b : SegmentStats) : bool := String.leb (st_ulid_str a) (st_ulid_str b).

Record OpenBucket := mkOpen { ob_items : list SegmentStats; ob_budget : Z; ob_entry_budget : Z }.

(** The first bucket with room for both. *)
Fixpoint place (c : SegmentStats) (bs : list OpenBucket) : option (list OpenBucket) :=
  match bs with
  | [] => None
  | b :: bs =>
      if decide (st_materialised c ≤ ob_budget b ∧ estimated_output_entries c ≤ ob_entry_budget b)
      then Some (mkOpen (ob_items b ++ [c]) (u64_sub (ob_budget b) (st_materialised c))
                   (u64_sub (ob_entry_budget b) (estimated_output_entries c)) :: bs)
      else match place c bs with Some bs => Some (b :: bs) | None => None end
  end.

(** A candidate that fits nowhere once the buckets are used up waits. *)
Definition pack_candidate (max_buckets : Z) (bs : list OpenBucket) (c : SegmentStats) : list OpenBucket :=
  match place c bs with
  | Some bs => bs
  | None =>
      if decide (Z.of_nat (length bs) < max_buckets)
      then bs ++ [mkOpen [c] (saturating_sub SWEEP_MATERIALISE_CAP (st_materialised c))
                    (saturating_sub SWEEP_ENTRY_CAP (estimated_output_entries c))]
      else bs
  end.

(** The dead segments fold into the first bucket. *)
Definition fold_tombstones (tombstones : list SegmentStats) (bs : list OpenBucket) : list OpenBucket :=
  match tombstones, bs with
  | [], _ => bs
  | _, [] => [mkOpen tombstones SWEEP_MATERIALISE_CAP SWEEP_ENTRY_CAP]
  | _, b :: bs => mkOpen (ob_items b ++ tombstones) (ob_budget b) (ob_entry_budget b) :: bs
  end.

Definition is_tombstone (s : SegmentStats) : bool := bool_decide (st_pool s = Tombstone).

Definition sum_of (f : SegmentStats → Z) (l : list SegmentStats) : Z := foldl (λ acc s, u64_add acc (f s)) 0 l.

Definition close_bucket (density_threshold : spec_float) (b : OpenBucket) : option PackedBucket :=
  let items := ob_items b in
  let has_dead := existsb is_tombstone items in
  let has_sparse := existsb (is_sparse density_threshold) items in
  if negb has_dead && negb has_sparse && bool_decide (length items < 2)%nat then None
  else
    let items := sort_with by_name items in
    Some (mkPacked items (Z.of_nat (length items)) (sum_of reclaimable_stored_bytes items)
            (Z.of_nat (length (filter (λ s, is_tombstone s = true) items)))).

Definition pack_stable (eligible tombstones : list SegmentStats) (density_threshold : spec_float) (max_buckets : Z)
    : list PackedBucket :=
  if bool_decide (max_buckets = 0) || bool_decide (eligible = []) && bool_decide (tombstones = []) then []
  else
    let candidates := sort_with packs_before (filter (λ s, is_sparse density_threshold s && st_has_body s = true) eligible) in
    omap (close_bucket density_threshold) (fold_tombstones tombstones (foldl (pack_candidate max_buckets) [] candidates)).

Definition select_buckets (eligible : list SegmentStats) (density_threshold : spec_float) (max_buckets : Z) : list PackedBucket :=
  pack_stable (filter (λ s, st_pool s = Stable) eligible) (filter (λ s, st_pool s = Tombstone) eligible)
    density_threshold max_buckets.

(** ** Plans *)

Definition plan_run (input entry_idx : Z) (r : ExtentRead) : PlanOutput :=
  Run input entry_idx (er_payload_block_offset r) (range_start r) (as_u32 (run_blocks r)).

Definition live_outputs (live_hashes : gset Hash) (input : Ulid) (l : SegmentEntry * Z * option (list ExtentRead)) : list PlanOutput :=
  let '(e, entry_idx, sub_runs) := l in
  match sub_runs with
  | Some runs =>
      (if emits_canonical live_hashes e then [Canonical input entry_idx] else []) ++ map (plan_run input entry_idx) runs
  | None =>
      match e_kind e with
      | Zero => [ZeroSplit input entry_idx (e_start_lba e) (e_lba_length e)]
      | CanonicalData | CanonicalInline | CanonicalDelta => [Canonical input entry_idx]
      | _ => [Keep input entry_idx]
      end
  end.

(** A dead input's only record says it is consumed. *)
Definition input_outputs (live_hashes : gset Hash) (input : Ulid) (s : SegmentStats) : list PlanOutput :=
  if bool_decide (st_live_entries s = []) then [DropInput input]
  else concat (map (live_outputs live_hashes input)
                 (zip (zip (st_live_entries s) (st_live_entry_indices s)) (st_partial_death_runs s))).

Section pass.
Context {HB : Blake3} {HU : UlidBytes} {HL : Lz4Block} {HT : UlidText} {HS : UnstableSort}.

Fixpoint plan_outputs (live_hashes : gset Hash) (candidates : list SegmentStats) : option (list PlanOutput) :=
  match candidates with
  | [] => Some []
  | s :: candidates =>
      match ulid_from_string (st_ulid_str s) with
      | None => None
      | Some input => rest ← plan_outputs live_hashes candidates; Some (input_outputs live_hashes input s ++ rest)
      end
  end.

(** ** Scanning the index *)

(** [sort_for_rebuild]: the [gc/] paths first, each group by name. *)
Definition path_before (a b : Dir * string) : bool := String.leb a.2 b.2.
Definition is_gc (d : Dir) : bool := match d with DGc => true | _ => false end.
Definition sort_for_rebuild (paths : list (Dir * string)) : list (Dir * string) :=
  sort_with path_before (filter (λ p, is_gc p.1 = true) paths) ++ sort_with path_before (filter (λ p, is_gc p.1 = false) paths).

Definition at_or_below (floor : option Ulid) (u : Ulid) : bool :=
  match floor with Some f => bool_decide (u ≤ f) | None => false end.

(** [dir] is the directory at the listing, at the verified reads and at the reads
    of the inline sections. *)
Fixpoint collect_stats_from (vk : Verifier) (reads inlines : ForkDir) (index : ExtentIndex) (hashes : gset Hash)
    (lm : LbaMap) (floor : option Ulid) (paths : list (Dir * string)) : io (list SegmentStats) :=
  match paths with
  | [] => Ok []
  | (d, name) :: paths =>
      let next := collect_stats_from vk reads inlines index hashes lm floor paths in
      let ulid_str := file_stem name in
      match ulid_from_string ulid_str with
      | None => Err OtherError
      | Some u =>
          if at_or_below floor u then next
          else
            match (file ← fd_file reads d name; read_and_verify_segment_index file) with
            | Err NotFound => next
            | Err e => Err e
            | Ok (_, entries, _) =>
                inline_bytes ← (if existsb (λ e, is_inline (e_kind e)) entries
                                then file ← fd_file inlines d name; read_inline_section file else Ok []);
                rest ← next;
                Ok (segment_stats (mkClassifyCtx lm index hashes u) ulid_str inline_bytes entries :: rest)
            end
      end
  end.

Definition collect_stats (vk : Verifier) (listing reads inlines : ForkDir) (index : ExtentIndex) (hashes : gset Hash)
    (lm : LbaMap) (floor : option Ulid) : io (list SegmentStats) :=
  names ← collect_idx_files listing;
  collect_stats_from vk reads inlines index hashes lm floor (sort_for_rebuild (map (pair DIndex) names)).

(** ** The WAL the pass cannot see in a segment *)

Definition replay_record_into (u : Ulid) (lm : LbaMap) (r : WriteLog.LogRecord) : LbaMap :=
  match r with
  | WriteLog.RData h s n _ _ _ | WriteLog.RRef h s n => LbaMap.insert lm s n h u
  | WriteLog.RZero s n => LbaMap.insert lm s n ZERO_HASH u
  end.

(** A WAL that cannot be read is skipped. *)
Definition replay_wal_file (fk : ForkDir) (lm : LbaMap) (name : string) : LbaMap :=
  match ulid_from_string name with
  | None => lm
  | Some u =>
      match (file ← fd_wal_file fk name; WriteLog.scan_readonly file) with
      | Err _ => lm
      | Ok (records, _) => foldl (replay_record_into u) lm records
      end
  end.

Definition replay_wal_into_lbamap (fk : ForkDir) (lm : LbaMap) : io LbaMap :=
  match fd_wal fk with
  | Err NotFound => Ok lm
  | Err e => Err e
  | Ok entries => Ok (foldl (replay_wal_file fk) lm (sort_with String.leb (omap (λ e, if e.2 : bool then Some e.1 else None) entries)))
  end.

(** ** Cache residency *)

Definition body_bearing (s : SegmentStats) : list Z :=
  omap (λ '(e, idx), if is_data (e_kind e) then Some idx else None) (zip (st_live_entries s) (st_live_entry_indices s)).

Definition is_cache_resident (fk : ForkDir) (s : SegmentStats) : bool :=
  let bearing := body_bearing s in
  if bool_decide (bearing = []) then true
  else if negb (fd_exists fk DCache (st_ulid_str s +:+ ".body")) then false
  else match fd_file fk DCache (st_ulid_str s +:+ ".present") with
       | Err _ => false
       | Ok bytes => forallb (sp_test (sp_from_bytes bytes (u32_add (foldr Z.max 0 bearing) 1))) bearing
       end.

(** ** What is left to reclaim *)

Record ReclaimTarget := mkTarget { rt_start_lba : Z; rt_lba_length : Z }.
Record BloatedExtent := mkBloated { be_target : ReclaimTarget; be_dead_blocks : Z; be_dead_ratio : spec_float }.

Definition min_start (runs : list ExtentRead) : Z :=
  match runs with [] => 0 | r :: runs => foldl (λ acc r, Z.min acc (range_start r)) (range_start r) runs end.
Definition max_end (runs : list ExtentRead) : Z :=
  match runs with [] => 0 | r :: runs => foldl (λ acc r, Z.max acc (range_end r)) (range_end r) runs end.

Definition bloated_extent (t : ReclaimThresholds) (er : SegmentEntry * option (list ExtentRead)) : option BloatedExtent :=
  let '(e, runs) := er in
  match runs with
  | None => None
  | Some runs =>
      if bool_decide (runs = []) || negb (has_body_bytes (e_kind e)) then None
      else
        let live_blocks := live_blocks_of runs in
        let total_blocks := e_lba_length e in
        if bool_decide (total_blocks = 0) || bool_decide (total_blocks ≤ live_blocks) then None
        else
          let dead_blocks := u64_sub total_blocks live_blocks in
          let dead_ratio := f64_div (f64_of dead_blocks) (f64_of total_blocks) in
          if bool_decide (dead_blocks < min_dead_blocks t) || f64_lt dead_ratio (min_dead_ratio t)
             || bool_decide (e_stored_length e < min_stored_bytes t) then None
          else
            let n := u64_sub (max_end runs) (min_start runs) in
            if decide (U32 - 1 < n) then None
            else Some (mkBloated (mkTarget (min_start runs) n) dead_blocks dead_ratio)
  end.

Definition bloated_extents (t : ReclaimThresholds) (s : SegmentStats) : list BloatedExtent :=
  omap (bloated_extent t) (zip (st_live_entries s) (st_partial_death_runs s)).

(** [total_cmp] on the ratios, which are positive. *)
Definition more_wasteful (a b : BloatedExtent) : bool :=
  bool_decide (be_dead_blocks b < be_dead_blocks a)
  || bool_decide (be_dead_blocks a = be_dead_blocks b) && negb (f64_lt (be_dead_ratio a) (be_dead_ratio b)).

(** The order among equals is unspecified. *)
Definition reclaim_targets_for_declined (bloat : list (string * list BloatedExtent)) (selected : list string) : list ReclaimTarget :=
  map be_target (sort_with more_wasteful (concat (map snd (filter (λ b, b.1 ∉ selected) bloat)))).

(** ** The pass *)

Inductive NoneReason := NoIndex | PendingHandoffs | NoCandidates.
Inductive GcStrategy := NothingDone (r : NoneReason) | Compact.

(** What a pass that found nothing to do decided, and on what. *)
Record IdlePass := mkIdlePass {
  ip_fingerprint : Hash; ip_total_segments : Z; ip_deferred : Z; ip_reclaim_targets : list ReclaimTarget
}.

Record GcStats := mkGcStats {
  gs_strategy : GcStrategy;
  gs_candidates : Z;
  gs_bytes_freed : Z;
  gs_total_segments : Z;
  gs_dead_cleaned : Z;
  gs_deferred : Z;
  gs_buckets_emitted : Z;
  gs_deferred_cold : Z;
  gs_reclaim_targets : list ReclaimTarget;
  gs_idle : option IdlePass
}.

Definition stats_none (r : NoneReason) (total_segments : Z) : GcStats :=
  mkGcStats (NothingDone r) 0 0 total_segments 0 0 0 0 [] None.

Definition replay (p : IdlePass) : GcStats :=
  mkGcStats (NothingDone NoCandidates) 0 0 (ip_total_segments p) 0 (ip_deferred p) 0 0 (ip_reclaim_targets p) (Some p).

(** What a pass meets: [index/] and [gc/], the ancestor chain with its paths, the
    WAL's metadata, the snapshot floor at each of its two reads, the fork's own
    directory at each look, and the outcome of a plan's write. *)
Record GcForkEnv := mkGcForkEnv {
  gf_index_exists : bool;
  gf_gc_names : option (io (list string));      (* None: no gc directory *)
  gf_chain : io (list (list Z * Timeline * option string));
  gf_wal_meta : io (list (string * option (Z * Z)));   (* length and mtime of a plain file *)
  gf_snapshot : nat → io (option Ulid);
  gf_dir : nat → ForkDir;
  gf_write : Ulid → io unit
}.

(** The requests that change the directory, in order. *)
Inductive GcOp := RemoveScratch (name : string) | WritePlan (p : RewritePlan).

Definition has_pending_results (env : GcForkEnv) : io bool :=
  match gf_gc_names env with
  | None => Ok false
  | Some names =>
      names ← names;
      Ok (existsb (λ n, bool_decide (is_Some (strip_suffix ".plan" n))
                        || negb (has_char "."%char n) && is_ulid n) names)
  end.

(** Scratch of a crashed pass; one that cannot be removed is left. *)
Definition cleanup (env : GcForkEnv) (suffix : string) : list GcOp :=
  match gf_gc_names env with
  | Some (Ok names) => map RemoveScratch (filter (λ n, bool_decide (is_Some (strip_suffix suffix n)) = true) names)
  | _ => []
  end.

Definition str_bytes (s : string) : list Z := map (λ c, Z.of_nat (nat_of_ascii c)) (list_ascii_of_string s).
Definition sized (bs : list Z) : list Z := le_bytes 8 (blen bs) ++ bs.
Definition tier_byte (t : SegmentTier) : Z := match t with GcApplied => 0 | Index => 1 | Pending => 2 end.

Fixpoint chain_bytes (chain : list (list Z * Timeline * option string)) : io (list Z) :=
  match chain with
  | [] => Ok []
  | (path, tl, branch) :: chain =>
      segments ← discover_fork_segments tl branch;
      rest ← chain_bytes chain;
      Ok (sized path ++ sized (match branch with Some b => str_bytes b | None => [] end)
          ++ le_bytes 8 (Z.of_nat (length segments))
          ++ concat (map (λ s, tier_byte (sr_tier s) :: ulid_to_bytes (sr_ulid s)) segments) ++ rest)
  end.

Definition wal_before (a b : string * (Z * Z)) : bool :=
  bool_decide (a.1 ≠ b.1) && String.leb a.1 b.1
  || bool_decide (a.1 = b.1) && (bool_decide (a.2.1 < b.2.1) || bool_decide (a.2.1 = b.2.1 ∧ a.2.2 ≤ b.2.2)).

Definition wal_bytes (wal : list (string * (Z * Z))) : list Z :=
  le_bytes 8 (Z.of_nat (length wal))
  ++ concat (map (λ '(name, (len, mtime)), sized (str_bytes name) ++ le_bytes 8 len ++ le_bytes 16 mtime) wal).

(** Everything a pass decides on, hashed; the cache is not in it. *)
Definition pass_fingerprint (env : GcForkEnv) (chain : list (list Z * Timeline * option string)) : io Hash :=
  layers ← chain_bytes chain;
  wal ← match gf_wal_meta env with
        | Err NotFound => Ok []
        | Err e => Err e
        | Ok entries => Ok (sort_with wal_before (omap (λ '(n, md), (pair n) <$> md) entries))
        end;
  floor ← gf_snapshot env 0%nat;
  Ok (blake3 (layers ++ wal_bytes wal ++ match floor with Some u => 1 :: ulid_to_bytes u | None => [0] end)).

Record PassState := mkPassState {
  ps_eligible : list SegmentStats;
  ps_live_hashes : gset Hash;
  ps_total_segments : Z;
  ps_deferred_count : Z;
  ps_bloat : list (string * list BloatedExtent)
}.

(** The views a pass decides on. *)
Record Views := mkViews { vw_index : ExtentIndex; vw_map : LbaMap; vw_live : gset Hash }.

Definition load_views (env : GcForkEnv) (chain : list (list Z * Timeline * option string)) : io Views :=
  '(b, lm, _) ← rebuild_views (map (λ '(_, tl, branch), (tl, branch)) chain);
  lm ← replay_wal_into_lbamap (gf_dir env 1) lm;
  Ok (mkViews (eb_index b) lm (claim_referenced_hashes lm ∪ named_delta_sources (eb_index b))).

Definition load_pass_state (env : GcForkEnv) (chain : list (list Z * Timeline * option string)) : io PassState :=
  vk ← fd_key (gf_dir env 0);
  v ← load_views env chain;
  floor ← gf_snapshot env 1%nat;
  all_stats ← collect_stats vk (gf_dir env 2) (gf_dir env 3) (gf_dir env 4) (vw_index v) (vw_live v) (vw_map v) floor;
  let bloat := filter (λ b, b.2 ≠ []) (map (λ s, (st_ulid_str s, bloated_extents thresholds_default s)) all_stats) in
  Ok (mkPassState (filter (λ s, st_has_partial_death s = false) all_stats) (vw_live v) (Z.of_nat (length all_stats))
        (Z.of_nat (length (filter (λ s, st_has_partial_death s = true) all_stats))) bloat).

(** One plan a bucket, each under its own ULID; an error ends the pass. *)
Fixpoint compact_all (env : GcForkEnv) (live_hashes : gset Hash) (work : list (PackedBucket * Ulid)) : list GcOp * io unit :=
  match work with
  | [] => ([], Ok ())
  | (packed, u) :: work =>
      match plan_outputs live_hashes (pb_bucket packed) with
      | None => ([], Err OtherError)
      | Some outputs =>
          match gf_write env u with
          | Err e => ([], Err e)
          | Ok _ => let '(ops, r) := compact_all env live_hashes work in (WritePlan (mkRewritePlan u outputs) :: ops, r)
          end
      end
  end.

Definition total_of (f : PackedBucket → Z) (l : list PackedBucket) : Z := foldl (λ acc p, u64_add acc (f p)) 0 l.

(** A pass over loaded views. *)
Definition run_pass (env : GcForkEnv) (density_threshold : spec_float) (bucket_ulids : list Ulid) (fingerprint : Hash)
    (ps : PassState) : list GcOp * io GcStats :=
  let resident := filter (λ s, is_cache_resident (gf_dir env 5) s = true) (ps_eligible ps) in
  let deferred_cold := Z.of_nat (length (filter (λ s, is_cache_resident (gf_dir env 5) s = false) (ps_eligible ps))) in
  let buckets := select_buckets resident density_threshold (Z.of_nat (length bucket_ulids)) in
  if bool_decide (length buckets = 0%nat) then
    let targets := reclaim_targets_for_declined (ps_bloat ps) [] in
    let idle := if decide (deferred_cold = 0)
                then Some (mkIdlePass fingerprint (ps_total_segments ps) (ps_deferred_count ps) targets) else None in
    ([], Ok (mkGcStats (NothingDone NoCandidates) 0 0 (ps_total_segments ps) 0 (ps_deferred_count ps) 0 deferred_cold targets idle))
  else
    let targets := reclaim_targets_for_declined (ps_bloat ps) (concat (map (λ p, map st_ulid_str (pb_bucket p)) buckets)) in
    let work := zip buckets bucket_ulids in
    match compact_all env (ps_live_hashes ps) work with
    | (ops, Err e) => (ops, Err e)
    | (ops, Ok _) =>
        let done_ := map fst work in
        (ops, Ok (mkGcStats Compact (total_of pb_candidates done_) (total_of pb_bytes_freed done_) (ps_total_segments ps)
                    (total_of pb_dead_cleaned done_) (ps_deferred_count ps) (Z.of_nat (length done_)) deferred_cold targets None))
    end.

Definition gc_fork (env : GcForkEnv) (density_threshold : spec_float) (bucket_ulids : list Ulid) (idle : option IdlePass)
    : list GcOp * io GcStats :=
  if bool_decide (bucket_ulids = []) then ([], Ok (stats_none NoCandidates 0))
  else if negb (gf_index_exists env) then ([], Ok (stats_none NoIndex 0))
  else
    match has_pending_results env with
    | Err e => ([], Err e)
    | Ok true => ([], Ok (stats_none PendingHandoffs 0))
    | Ok false =>
        let scratch := cleanup env ".fetch" ++ cleanup env ".plan.tmp" in
        match (chain ← gf_chain env; fp ← pass_fingerprint env chain; Ok (chain, fp)) with
        | Err e => (scratch, Err e)
        | Ok (chain, fp) =>
            match match idle with Some p => if decide (ip_fingerprint p = fp) then Some p else None | None => None end with
            | Some p => (scratch, Ok (replay p))
            | None =>
                match load_pass_state env chain with
                | Err e => (scratch, Err e)
                | Ok ps => let '(ops, r) := run_pass env density_threshold bucket_ulids fp ps in (scratch ++ ops, r)
                end
            end
        end
    end.
End pass.
