(* ===== verification/GcSelectSpec.v ===== *)
(** * A GC plan says exactly what is live, and packing keeps its bounds *)

From Stdlib Require Import Ascii String Floats.SpecFloat.
From stdpp Require Import base gmap list sorting strings.
From S2P Require Import Prelude Bytes Text Segment SegmentCodec SegmentCodecSpec LbaMap LbaMapFacts LbaMapSpec ExtentIndex Rebuild RebuildSpec RewritePlan RewritePlanSpec SegmentClassify SegmentClassifySpec RepackPass RepackPassSpec Reclaim GcSelect.
Open Scope Z_scope.

Lemma insert_with_perm {A} (le : A → A → bool) x l : insert_with le x l ≡ₚ x :: l.
Proof.
  induction l as [|y l IH]; [done|]. cbn [insert_with]. destruct (le x y); [done|]. rewrite IH. apply Permutation_swap.
Qed.

Lemma sort_with_perm {A} (le : A → A → bool) l : sort_with le l ≡ₚ l.
Proof.
  induction l as [|x l IH]; [done|]. unfold sort_with in *. cbn [foldr]. by rewrite insert_with_perm, IH.
Qed.

(** ** What a scan collects *)

Abbreviation Live := (SegmentEntry * Z * option (list ExtentRead))%type (only parsing).

(** The live entries one entry gives, with its index and its runs. *)
Definition contrib (ctx : ClassifyCtx) (i : nat) (e : SegmentEntry) : list Live :=
  let idx := as_u32 (Z.of_nat i) in
  match classify_entry e ctx with
  | FullyLive | DeferUnresolvableDelta => [(e, idx, None)]
  | DemoteToCanonical => [(into_canonical e, idx, None)]
  | ZeroSubRuns runs => map (λ r, (zero_run e r, idx, None)) runs
  | PartialDeath runs _ => [(e, idx, Some runs)]
  | DropAndRemoveHash | Drop => []
  end.

Definition collected (sn : Scan) (l : list Live) : Prop :=
  sn_live sn = map (λ x, x.1.1) l ∧ sn_indices sn = map (λ x, x.1.2) l ∧ sn_runs sn = map snd l.

Lemma collected_zip sn l : collected sn l → zip (zip (sn_live sn) (sn_indices sn)) (sn_runs sn) = l.
Proof.
  intros (-> & -> & ->). induction l as [|[[e i] r] l IH]; [done|]. cbn. by rewrite IH.
Qed.

Lemma collected_push ret mat e i r sn l : collected sn l → collected (push_live ret mat e i r sn) (l ++ [(e, i, r)]).
Proof. intros (H1 & H2 & H3). unfold collected. cbn. rewrite H1, H2, H3, !map_app. done. Qed.

Lemma collected_runs e i rs sn l : collected sn l →
  collected (foldl (λ sn r, push_live 0 0 (zero_run e r) i None sn) sn rs) (l ++ map (λ r, (zero_run e r, i, None)) rs).
Proof.
  revert sn l. induction rs as [|r rs IH]; intros sn l H; cbn [foldl map]; [by rewrite app_nil_r|].
  replace (l ++ (zero_run e r, i, None) :: map (λ r, (zero_run e r, i, None)) rs)
    with ((l ++ [(zero_run e r, i, None)]) ++ map (λ r, (zero_run e r, i, None)) rs) by (by rewrite <-app_assoc).
  by apply IH, collected_push.
Qed.

Lemma runs_partial e i rs sn : sn_partial (foldl (λ sn r, push_live 0 0 (zero_run e r) i None sn) sn rs) = sn_partial sn.
Proof. revert sn. induction rs as [|r rs IH]; intros sn; [done|]. cbn [foldl]. by rewrite IH. Qed.

Lemma with_inline_class ib e ctx : classify_entry (with_inline ib e) ctx = classify_entry e ctx.
Proof. unfold with_inline. destruct (is_inline (e_kind e)); [|done]. cbv zeta. case_decide; [|done]. by destruct e. Qed.

Lemma with_inline_fields ib e : e_kind (with_inline ib e) = e_kind e ∧ e_hash (with_inline ib e) = e_hash e ∧
  e_start_lba (with_inline ib e) = e_start_lba e ∧ e_lba_length (with_inline ib e) = e_lba_length e ∧
  e_journal (with_inline ib e) = e_journal e.
Proof. unfold with_inline. destruct (is_inline (e_kind e)); [|done]. cbv zeta. case_decide; done. Qed.

Definition is_deferred (c : EntryClassification) : bool := match c with DeferUnresolvableDelta => true | _ => false end.

Lemma scan_entry_collected ctx ib sn l i e : collected sn l →
  collected (scan_entry ctx ib sn (i, e)) (l ++ contrib ctx i (with_inline ib e)) ∧
  sn_partial (scan_entry ctx ib sn (i, e)) = sn_partial sn || is_deferred (classify_entry e ctx).
Proof.
  intros H. unfold scan_entry, contrib. cbn [fst snd]. rewrite with_inline_class.
  assert (collected (count_entry (with_inline ib e) sn) l) as Hc by done.
  destruct (classify_entry e ctx) as [| |rs|rs emit| | |].
  - split; [by apply collected_push|]. by rewrite orb_false_r.
  - split; [by apply collected_push|]. by rewrite orb_false_r.
  - split; [by apply collected_runs|]. rewrite runs_partial. by rewrite orb_false_r.
  - destruct (emits_canonical _ _); (split; [by apply collected_push|]); by rewrite orb_false_r.
  - rewrite app_nil_r. split; [done|]. by rewrite orb_false_r.
  - rewrite app_nil_r. split; [done|]. by rewrite orb_false_r.
  - split; [exact (collected_push _ _ _ _ _ _ _ Hc)|]. cbn. by rewrite orb_true_r.
Qed.

Definition contribs (ctx : ClassifyCtx) (ib : list Z) (k : nat) (entries : list SegmentEntry) : list Live :=
  concat (imap (λ i e, contrib ctx (k + i) (with_inline ib e)) entries).

Lemma scan_collected ctx ib k entries sn l : collected sn l →
  let sn' := foldl (scan_entry ctx ib) sn (imap (λ i e, (k + i, e)%nat) entries) in
  collected sn' (l ++ contribs ctx ib k entries) ∧
  sn_partial sn' = sn_partial sn || existsb (λ e, is_deferred (classify_entry e ctx)) entries.
Proof.
  unfold contribs. revert k sn l. induction entries as [|e entries IH]; intros k sn l H; cbn [imap foldl concat existsb].
  { rewrite app_nil_r, orb_false_r. by split. }
  rewrite Nat.add_0_r. destruct (scan_entry_collected ctx ib sn l k e H) as [H1 H2].
  destruct (IH (S k) _ _ H1) as [H3 H4]. rewrite orb_assoc, <-H2, <-H4, app_assoc.
  rewrite (imap_ext ((λ i e, (k + i, e)%nat) ∘ S) (λ i e, (S k + i, e)%nat)) by (intros; cbn; f_equal; lia).
  rewrite (imap_ext ((λ i e, contrib ctx (k + i) (with_inline ib e)) ∘ S) (λ i e, contrib ctx (S k + i) (with_inline ib e)))
    by (intros; cbn; by rewrite Nat.add_succ_r).
  by split.
Qed.

Lemma segment_stats_spec ctx str ib entries :
  let s := segment_stats ctx str ib entries in
  zip (zip (st_live_entries s) (st_live_entry_indices s)) (st_partial_death_runs s) = contribs ctx ib 0 entries ∧
  st_live_entries s = map (λ x, x.1.1) (contribs ctx ib 0 entries) ∧
  st_has_partial_death s = existsb (λ e, is_deferred (classify_entry e ctx)) entries.
Proof.
  assert (collected scan_new []) as H0 by done. destruct (scan_collected ctx ib 0 entries scan_new [] H0) as [H1 H2].
  cbn [app] in H1. pose proof (collected_zip _ _ H1) as Hz. destruct H1 as (Hl & _).
  rewrite (imap_ext (λ i e, (0 + i, e)%nat) pair) in Hz, H2, Hl by done. cbn [orb sn_partial scan_new] in H2. done.
Qed.

(** ** The records of one entry *)

(** A canonical-only entry is named as one. *)
Definition as_canonical (e : SegmentEntry) (o : PlanOutput) : PlanOutput :=
  match o with Keep u i => if is_canonical_only (e_kind e) then Canonical u i else o | _ => o end.

Lemma contrib_outputs ctx u i ib e : is_deferred (classify_entry e ctx) = false →
  concat (map (live_outputs (live_hashes ctx) u) (contrib ctx i (with_inline ib e)))
  = map (as_canonical e) (outputs_of u (as_u32 (Z.of_nat i)) (classify_entry e ctx)).
Proof.
  destruct (with_inline_fields ib e) as (Hk & Hh & Hs & Hn & _).
  unfold contrib. rewrite with_inline_class. intros Hd. destruct (classify_entry e ctx) as [| |rs|rs emit| | |] eqn:Hc; try done.
  - cbn [map concat live_outputs outputs_of as_canonical]. rewrite Hk, app_nil_r.
    destruct (e_kind e) eqn:Hkk; try done. unfold classify_entry in Hc. by rewrite decide_True in Hc.
  - cbn [map concat live_outputs outputs_of as_canonical]. rewrite app_nil_r.
    unfold into_canonical. cbn [e_kind]. by destruct (e_kind (with_inline ib e)).
  - assert (e_kind e = Zero) as Hz.
    { unfold classify_entry in Hc. case_decide; [done|]. exfalso. destruct (is_canonical_only (e_kind e)); [repeat case_decide; try done; by destruct (owns_home e ctx)|].
      cbv zeta in Hc. case_decide; [done|]. case_decide.
      - unfold classify_dead in Hc. cbv zeta in Hc. destruct (_ && _); [done|]. by destruct (owns_home e ctx).
      - unfold classify_partial in Hc. destruct (e_kind e); try done. by destruct (has_resolvable_source e ctx). }
    cbn [outputs_of]. rewrite map_map, map_map. cbn [as_canonical]. unfold live_outputs, zero_run. cbn [e_kind e_start_lba e_lba_length].
    rewrite Hk, Hz. clear Hc. induction rs as [|r rs IH]; [done|]. cbn. by rewrite IH.
  - assert (emits_canonical (live_hashes ctx) (with_inline ib e) = emit) as Hem.
    { unfold emits_canonical. rewrite Hk, Hh. unfold classify_entry in Hc. case_decide; [done|].
      destruct (is_canonical_only (e_kind e)); [repeat case_decide; try done; by destruct (owns_home e ctx)|].
      cbv zeta in Hc. case_decide; [done|]. case_decide.
      - unfold classify_dead in Hc. cbv zeta in Hc. destruct (_ && _); [done|]. by destruct (owns_home e ctx).
      - unfold classify_partial in Hc. destruct (e_kind e); try done; try (by injection Hc as _ <-).
        destruct (has_resolvable_source e ctx); [by injection Hc as _ <-|done]. }
    cbn [map concat live_outputs outputs_of]. rewrite Hem, app_nil_r, map_app, map_map. f_equal. by destruct emit.
Qed.

Lemma as_canonical_input e o : po_input (as_canonical e o) = po_input o.
Proof. destruct o; cbn; try done. by destruct (is_canonical_only _). Qed.

Lemma outputs_of_input u i c o : o ∈ outputs_of u i c → po_input o = u.
Proof.
  destruct c as [| |rs|rs emit| | |]; cbn [outputs_of]; try (by intros ->%list_elem_of_singleton); try (by intros ?%elem_of_nil).
  - by intros (r & -> & _)%list_elem_of_fmap.
  - intros [H|(r & -> & _)%list_elem_of_fmap]%elem_of_app; [|done].
    destruct emit; [by apply list_elem_of_singleton in H as ->|by apply elem_of_nil in H].
Qed.

(** ** The plan of a segment *)

(** Records that place, for each entry, its live blocks and no other, each at its
    own place in the payload, and keep the body of every entry at the home of a
    hash something still resolves. *)
Definition exact_for (u : Ulid) (entries : list SegmentEntry) (ctx : ClassifyCtx) (os : list PlanOutput) : Prop :=
  Forall (λ o, po_input o = u) os ∧
  (∀ i e b off, entries !! i = Some e →
     (∃ o, o ∈ os ∧ po_claim entries o b = Some (Z.of_nat i, off)) ↔
     is_canonical_only (e_kind e) = false ∧ live_at e ctx b ∧ off = b - e_start_lba e) ∧
  (∀ i e, entries !! i = Some e → owns_extent_hash (e_kind e) = true → e_hash e ∈ live_hashes ctx →
     owns_home e ctx = true → keeps_body u (Z.of_nat i) os).

(** A committed segment's entries as the parser and the volume bound them. *)
Definition entries_fit (N : Z) (entries : list SegmentEntry) : Prop :=
  Z.of_nat (length entries) < U32 ∧ Forall (entry_fits N) entries.

Lemma as_canonical_claim u entries ctx i e o b : entries !! i = Some e → o ∈ outputs_of u (Z.of_nat i) (classify_entry e ctx) →
  po_claim entries (as_canonical e o) b = po_claim entries o b.
Proof.
  intros He Ho. destruct o as [v j| | | |]; try done. cbn [as_canonical]. destruct (is_canonical_only (e_kind e)) eqn:Hk; [|done].
  assert (j = Z.of_nat i) as ->.
  { destruct (classify_entry e ctx) as [| |rs|rs emit| | |]; cbn [outputs_of] in Ho; try (by apply elem_of_nil in Ho);
      try (apply list_elem_of_singleton in Ho; congruence).
    - by apply list_elem_of_fmap in Ho as (r & ? & _).
    - apply elem_of_app in Ho as [Ho|Ho]; [destruct emit; [by apply list_elem_of_singleton in Ho|by apply elem_of_nil in Ho]|].
      by apply list_elem_of_fmap in Ho as (r & ? & _). }
  cbn [po_claim]. rewrite Nat2Z.id, He. cbn. by rewrite Hk.
Qed.

Lemma concat_map_concat {A B} (f : A → list B) (xss : list (list A)) :
  concat (map f (concat xss)) = concat (map (λ xs, concat (map f xs)) xss).
Proof. induction xss as [|xs xss IH]; [done|]. cbn. by rewrite map_app, concat_app, IH. Qed.

Lemma contribs_outputs u ctx ib entries : Z.of_nat (length entries) < U32 →
  existsb (λ e, is_deferred (classify_entry e ctx)) entries = false →
  concat (map (live_outputs (live_hashes ctx) u) (contribs ctx ib 0 entries))
  = concat (imap (λ i e, map (as_canonical e) (outputs_of u (Z.of_nat i) (classify_entry e ctx))) entries).
Proof.
  intros Hlen Hd. unfold contribs. rewrite concat_map_concat.
  match goal with |- concat (map ?f ?l) = _ => change (map f l) with (f <$> l) end. rewrite fmap_imap. f_equal.
  apply imap_ext. intros i e He. cbn. rewrite contrib_outputs.
  - rewrite as_u32_id; [done|]. apply lookup_lt_Some in He. lia.
  - destruct (is_deferred (classify_entry e ctx)) eqn:E; [|done].
    assert (existsb (λ e, is_deferred (classify_entry e ctx)) entries = true); [|congruence].
    apply existsb_exists. exists e. split; [apply list_elem_of_In; by eapply list_elem_of_lookup_2|done].
Qed.

Lemma segment_plan_exact N ctx str ib entries :
  lm_wf N (lba_map ctx) → N < U32 → entries_fit N entries →
  let s := segment_stats ctx str ib entries in
  st_has_partial_death s = false →
  exact_for (cc_segment_id ctx) entries ctx (input_outputs (live_hashes ctx) (cc_segment_id ctx) s).
Proof.
  intros Hwf HN [Hlen Hfit] s Hd.
  assert (∀ e, e ∈ entries → is_canonical_only (e_kind e) = false → spans N e) as Hsp.
  { intros e He Hk. apply (proj1 (Forall_forall _ _) Hfit e) in He. destruct (He Hk) as (? & ? & ?). unfold spans. lia. }
  destruct (segment_stats_spec ctx str ib entries) as (Hz & Hl & Hp). fold s in Hz, Hl, Hp.
  rewrite Hp in Hd. set (u := cc_segment_id ctx).
  assert (∀ e, e ∈ entries → classify_entry e ctx ≠ DeferUnresolvableDelta) as Hnd.
  { intros e He Hc. assert (existsb (λ e, is_deferred (classify_entry e ctx)) entries = true); [|congruence].
    apply existsb_exists. exists e. split; [by apply list_elem_of_In|]. by rewrite Hc. }
  set (base := emit_plan_outputs u (map (λ e, classify_entry e ctx) entries)).
  destruct (plan_claims_exact N u entries ctx Hwf eq_refl HN Hsp Hnd) as [Hclaims Hbody]. fold base in Hclaims, Hbody.
  set (os := concat (imap (λ i e, map (as_canonical e) (outputs_of u (Z.of_nat i) (classify_entry e ctx))) entries)).
  assert (∀ o, o ∈ os ↔ ∃ i e o', entries !! i = Some e ∧ o' ∈ outputs_of u (Z.of_nat i) (classify_entry e ctx) ∧ o = as_canonical e o') as Hos.
  { intros o. unfold os. rewrite list_elem_of_In, in_concat. setoid_rewrite <-list_elem_of_In. split.
    - intros (l & Hl' & Ho). apply elem_of_lookup_imap in Hl' as (i & e & -> & He).
      apply list_elem_of_fmap in Ho as (o' & -> & Ho). by exists i, e, o'.
    - intros (i & e & o' & He & Ho & ->). eexists. split; [apply elem_of_lookup_imap; by exists i, e|]. apply list_elem_of_fmap. by exists o'. }
  assert (∀ o', o' ∈ base ↔ ∃ i e, entries !! i = Some e ∧ o' ∈ outputs_of u (Z.of_nat i) (classify_entry e ctx)) as Hbase
    by (intros; apply (elem_of_plan u entries ctx)).
  assert (exact_for u entries ctx os) as Hex.
  { split_and!.
    - apply Forall_forall. intros o (i & e & o' & _ & Ho & ->)%Hos. rewrite as_canonical_input. by eapply outputs_of_input.
    - intros i e b off He. rewrite <-(Hclaims i e b off He). split.
      + intros (o & (j & e' & o' & He' & Ho & ->)%Hos & Hc). exists o'. split; [apply Hbase; by exists j, e'|].
        by rewrite <-(as_canonical_claim u entries ctx j e' o' b He' Ho).
      + intros (o & (j & e' & He' & Ho)%Hbase & Hc). exists (as_canonical e' o). split; [apply Hos; by exists j, e', o|].
        by rewrite (as_canonical_claim u entries ctx j e' o b He' Ho).
    - intros i e He Ho Hh Hho. destruct (Hbody i e He Ho Hh Hho) as [(j & e' & He' & Hk)%Hbase|(j & e' & He' & Hk)%Hbase].
      + assert (as_canonical e' (Keep u (Z.of_nat i)) ∈ os) as Hin by (apply Hos; by exists j, e', (Keep u (Z.of_nat i))).
        cbn in Hin. destruct (is_canonical_only (e_kind e')); [by right|by left].
      + right. apply Hos. by exists j, e', (Canonical u (Z.of_nat i)). }
  unfold input_outputs. case_bool_decide as Hempty.
  - rewrite Hl in Hempty. apply map_eq_nil in Hempty.
    pose proof (contribs_outputs u ctx ib entries Hlen Hd) as Hc. rewrite Hempty in Hc. cbn in Hc. fold os in Hc. rewrite <-Hc in Hex.
    destruct Hex as (_ & H1 & H2). split_and!; [by apply Forall_singleton| |].
    + intros i e b off He. rewrite <-(H1 i e b off He). split; [intros (o & ->%list_elem_of_singleton & ?); done|by intros (o & ?%elem_of_nil & _)].
    + intros i e He Ho Hh Hho. destruct (H2 i e He Ho Hh Hho) as [?%elem_of_nil|?%elem_of_nil]; done.
  - rewrite Hz, contribs_outputs by done. exact Hex.
Qed.

(** A segment that is not of the journal's pool has an entry outside the journal,
    or nothing of it remains. *)
Lemma not_journal_pool ctx str ib entries :
  let s := segment_stats ctx str ib entries in
  st_pool s ≠ PoolJournal → input_outputs (live_hashes ctx) (cc_segment_id ctx) s = [DropInput (cc_segment_id ctx)] ∨
    ∃ e, e ∈ entries ∧ e_journal e = false.
Proof.
  intros s. destruct (segment_stats_spec ctx str ib entries) as (_ & Hl & _). fold s in Hl.
  intros Hp. unfold input_outputs. case_bool_decide as Hempty; [by left|]. right.
  destruct (forallb e_journal (st_live_entries s)) eqn:Hf.
  { exfalso. apply Hp. unfold s, segment_stats, pool_of in *. cbn [st_pool st_live_entries] in *.
    by rewrite bool_decide_eq_false_2, Hf by done. }
  assert (∃ x, x ∈ st_live_entries s ∧ e_journal x = false) as (x & Hx & Hj).
  { clear -Hf. induction (st_live_entries s) as [|x l IH]; [done|]. cbn in Hf. destruct (e_journal x) eqn:E.
    - destruct (IH Hf) as (y & ? & ?). exists y. split; [by right|done].
    - exists x. split; [by left|done]. }
  rewrite Hl in Hx. apply list_elem_of_fmap in Hx as (c & -> & Hc). unfold contribs in Hc.
  apply list_elem_of_In, in_concat in Hc as (l & Hl' & Hc). apply list_elem_of_In, elem_of_lookup_imap in Hl' as (i & e & -> & He).
  exists e. split; [by apply list_elem_of_lookup_2 in He|]. destruct (with_inline_fields ib e) as (_ & _ & _ & _ & <-).
  apply list_elem_of_In in Hc. unfold contrib in Hc.
  destruct (classify_entry _ ctx) as [| |rs|rs emit| | |]; try (apply list_elem_of_singleton in Hc as ->; exact Hj); try (by apply elem_of_nil in Hc).
  by apply list_elem_of_fmap in Hc as (r & -> & _).
Qed.

(** ** Packing *)

Definition total (f : SegmentStats → Z) (l : list SegmentStats) : Z := foldr (λ s acc, f s + acc) 0 l.

Lemma total_app f l1 l2 : total f (l1 ++ l2) = total f l1 + total f l2.
Proof. unfold total. induction l1 as [|s l1 IH]; [done|]. cbn [app foldr]. rewrite IH. lia. Qed.

Lemma total_perm f l1 l2 : l1 ≡ₚ l2 → total f l1 = total f l2.
Proof. unfold total. induction 1; cbn [foldr]; lia. Qed.

Definition items_of (bs : list OpenBucket) : list SegmentStats := concat (map ob_items bs).

(** Within both caps, or over them by its first input alone. *)
Definition within (items : list SegmentStats) : Prop :=
  ∃ first, first ∈ items ∧ total st_materialised items ≤ Z.max SWEEP_MATERIALISE_CAP (st_materialised first) ∧
    total estimated_output_entries items ≤ Z.max SWEEP_ENTRY_CAP (estimated_output_entries first).

Definition open_ok (b : OpenBucket) : Prop :=
  within (ob_items b) ∧ ob_budget b = Z.max 0 (SWEEP_MATERIALISE_CAP - total st_materialised (ob_items b)) ∧
  ob_entry_budget b = Z.max 0 (SWEEP_ENTRY_CAP - total estimated_output_entries (ob_items b)) ∧
  0 ≤ total st_materialised (ob_items b) ∧ 0 ≤ total estimated_output_entries (ob_items b).

Lemma estimated_nonneg s : 0 ≤ estimated_output_entries s.
Proof.
  unfold estimated_output_entries. apply (foldl_inv _ (λ n, 0 ≤ n)); [lia|].
  intros n x _ _. unfold u64_add. apply Z.mod_pos_bound. lia.
Qed.

Lemma place_spec c bs bs' : 0 ≤ st_materialised c → Forall open_ok bs → place c bs = Some bs' →
  Forall open_ok bs' ∧ items_of bs' ≡ₚ c :: items_of bs ∧ length bs' = length bs.
Proof.
  intros Hc Hbs. pose proof (estimated_nonneg c) as He. revert bs'.
  induction Hbs as [|b bs Hb Hbs IH]; intros bs'; cbn [place]; [done|]. case_decide as Hroom.
  - intros [= <-]. unfold items_of. cbn [map concat ob_items length]. split_and!; [|rewrite <-app_assoc; symmetry; apply Permutation_middle|done].
    constructor; [|done]. destruct Hb as ((f & Hf & Hm & Hn) & Hbm & Hbe & H0 & H1), Hroom as [Hr1 Hr2].
    unfold open_ok, within. cbn [ob_items ob_budget ob_entry_budget]. unfold SWEEP_MATERIALISE_CAP, SWEEP_ENTRY_CAP in *.
    rewrite !total_app. cbn [total foldr]. rewrite !Z.add_0_r. rewrite !u64_sub_id by lia.
    split_and!; [exists f; split; [apply elem_of_app; by left|lia]|lia..].
  - destruct (place c bs) as [bs1|]; [|done]. intros [= <-]. destruct (IH _ eq_refl) as (H1 & H2 & H3).
    split_and!; [by constructor| |cbn; lia]. unfold items_of in *. cbn [map concat]. rewrite H2. by rewrite Permutation_middle.
Qed.

Lemma pack_candidate_spec max bs c : 0 ≤ st_materialised c → Forall open_ok bs →
  let bs' := pack_candidate max bs c in
  Forall open_ok bs' ∧ (length bs ≤ length bs')%nat ∧ (Z.of_nat (length bs) ≤ max → Z.of_nat (length bs') ≤ max) ∧
  (items_of bs' ≡ₚ items_of bs ++ [c] ∨ (bs' = bs ∧ max ≤ Z.of_nat (length bs))).
Proof.
  intros Hc Hbs bs'. pose proof (estimated_nonneg c) as He. unfold bs', pack_candidate.
  destruct (place c bs) as [bs1|] eqn:Hp.
  - destruct (place_spec c bs bs1 Hc Hbs Hp) as (H1 & H2 & H3). split_and!; [done|lia|lia|left]. rewrite H2. apply Permutation_cons_append.
  - case_decide as Hlt; [|split_and!; [done|done|done|right; split; [done|lia]]]. rewrite length_app. cbn [length].
    split_and!; [|lia|lia|left; unfold items_of; by rewrite map_app, concat_app].
    apply Forall_app. split; [done|]. apply Forall_singleton. unfold open_ok, within, saturating_sub. cbn [ob_items ob_budget ob_entry_budget total foldr].
    rewrite !Z.add_0_r. split_and!; [exists c; split; [by left|lia]|done|done|lia|lia].
Qed.

Lemma pack_fold_spec max l bs : 0 ≤ max → Forall (λ s, 0 ≤ st_materialised s) l → Forall open_ok bs → Z.of_nat (length bs) ≤ max →
  let bs' := foldl (pack_candidate max) bs l in
  Forall open_ok bs' ∧ (length bs ≤ length bs')%nat ∧ Z.of_nat (length bs') ≤ max ∧
  ∃ kept, items_of bs' ≡ₚ items_of bs ++ kept ∧ kept ⊆+ l ∧ ∀ c, c ∈ l → c ∈ kept ∨ Z.of_nat (length bs') = max.
Proof.
  intros Hmax Hl. revert bs. induction Hl as [|c l Hc Hl IH]; intros bs Hbs Hn; cbn [foldl].
  { split_and!; [done|done|done|]. exists []. rewrite app_nil_r. split_and!; [done|done|]. by intros c ?%elem_of_nil. }
  destruct (pack_candidate_spec max bs c Hc Hbs) as (H1 & H2 & H3 & H4).
  destruct (IH _ H1 (H3 Hn)) as (H5 & H6 & H7 & kept & H8 & H9 & H10). split_and!; [done|lia|done|].
  destruct H4 as [H4|[H4 H4']].
  - exists (c :: kept). split_and!; [by rewrite H8, H4, <-app_assoc|by apply submseteq_skip|].
    intros x [->|Hx]%elem_of_cons; [left; by left|]. destruct (H10 x Hx); [left; by right|by right].
  - exists kept. split_and!; [by rewrite H8, H4|by apply submseteq_cons|].
    intros x _. right. rewrite H4 in *. lia.
Qed.

(** What a packed bucket holds, and what it counts. *)
Definition packed_ok (thr : spec_float) (p : PackedBucket) : Prop :=
  pb_bucket p ≠ [] ∧
  (∀ s, s ∈ pb_bucket p → st_pool s = Tombstone ∨ (st_pool s = Stable ∧ is_sparse thr s = true ∧ st_has_body s = true)) ∧
  (let rewritten := filter (λ s, st_pool s ≠ Tombstone) (pb_bucket p) in rewritten = [] ∨ within rewritten) ∧
  pb_candidates p = Z.of_nat (length (pb_bucket p)) ∧
  pb_dead_cleaned p = Z.of_nat (length (filter (λ s, st_pool s = Tombstone) (pb_bucket p))).

Lemma within_perm l1 l2 : l1 ≡ₚ l2 → within l1 → within l2.
Proof.
  intros Hp (f & Hf & Hm & He). exists f. rewrite <-!(total_perm _ _ _ Hp). by rewrite <-Hp.
Qed.

Lemma close_bucket_ok thr b : ob_items b ≠ [] →
  (∀ s, s ∈ ob_items b → st_pool s = Tombstone ∨ (st_pool s = Stable ∧ is_sparse thr s = true ∧ st_has_body s = true)) →
  (let rewritten := filter (λ s, st_pool s ≠ Tombstone) (ob_items b) in rewritten = [] ∨ within rewritten) →
  ∃ p, close_bucket thr b = Some p ∧ packed_ok thr p ∧ pb_bucket p ≡ₚ ob_items b.
Proof.
  intros Hne Hall Hw. unfold close_bucket. cbv zeta.
  replace (negb (existsb is_tombstone (ob_items b)) && negb (existsb (is_sparse thr) (ob_items b))) with false.
  2: { destruct (ob_items b) as [|s l]; [done|]. destruct (Hall s) as [Ht|(_ & Hs & _)]; [by left| |]; cbn [existsb].
       - unfold is_tombstone. by rewrite bool_decide_eq_true_2.
       - rewrite Hs. cbn. by rewrite andb_false_r. }
  cbn [andb]. set (items := sort_with by_name (ob_items b)).
  assert (items ≡ₚ ob_items b) as Hp by apply sort_with_perm.
  eexists. split; [reflexivity|]. cbn [pb_bucket]. split; [|done]. split_and!; cbn [pb_bucket pb_candidates pb_dead_cleaned].
  - intros E. rewrite E in Hp. by apply Permutation_nil in Hp.
  - intros s. rewrite Hp. apply Hall.
  - destruct Hw as [Hw|Hw]; [left|right].
    + apply Permutation_nil. rewrite Hp, Hw. done.
    + eapply within_perm; [|exact Hw]. by rewrite Hp.
  - done.
  - f_equal. f_equal. apply list_filter_iff. intros s. unfold is_tombstone. apply bool_decide_eq_true.
Qed.

Lemma omap_all {A B} (f : A → option B) (P : B → Prop) (g : A → list SegmentStats) (h : B → list SegmentStats) l :
  (∀ a, a ∈ l → ∃ p, f a = Some p ∧ P p ∧ h p ≡ₚ g a) →
  length (omap f l) = length l ∧ Forall P (omap f l) ∧ concat (map h (omap f l)) ≡ₚ concat (map g l).
Proof.
  induction l as [|a l IH]; intros Hl; [done|]. destruct (Hl a) as (p & Hf & Hp & Hh); [by left|].
  destruct IH as (H1 & H2 & H3); [intros x Hx; apply Hl; by right|]. cbn [omap list_omap]. rewrite Hf. cbn [length map concat].
  split_and!; [lia|by constructor|by rewrite Hh, H3].
Qed.

Lemma fold_tombstones_items ts bs : items_of (fold_tombstones ts bs) ≡ₚ items_of bs ++ ts.
Proof.
  destruct ts as [|t ts]; [by rewrite app_nil_r|]. destruct bs as [|b bs]; unfold items_of; cbn [fold_tombstones map concat ob_items]; [by rewrite app_nil_r|].
  rewrite <-!app_assoc. by rewrite (Permutation_app_comm (t :: ts)).
Qed.

Lemma select_spec el thr max : 0 ≤ max → Forall (λ s, 0 ≤ st_materialised s) el →
  let out := select_buckets el thr max in
  let chosen := concat (map pb_bucket out) in
  Z.of_nat (length out) ≤ max ∧ Forall (packed_ok thr) out ∧ chosen ⊆+ el ∧
  (0 < max → ∀ s, s ∈ el → st_pool s = Tombstone → s ∈ chosen) ∧
  (∀ s, s ∈ el → st_pool s = Stable → is_sparse thr s = true → st_has_body s = true →
     s ∈ chosen ∨ Z.of_nat (length out) = max).
Proof.
  intros Hmax Hel out chosen. unfold chosen, out, select_buckets, pack_stable.
  set (stable := filter (λ s, st_pool s = Stable) el). set (ts := filter (λ s, st_pool s = Tombstone) el).
  destruct (decide (max = 0)) as [->|Hm].
  { rewrite bool_decide_eq_true_2 by done. cbn [orb map concat length]. split_and!; [lia|by apply Forall_nil|apply submseteq_nil_l|lia|by right]. }
  rewrite (bool_decide_eq_false_2 (max = 0)) by done. cbn [orb].
  destruct (bool_decide (stable = []) && bool_decide (ts = [])) eqn:Hempty.
  { apply andb_true_iff in Hempty as [H1%bool_decide_eq_true H2%bool_decide_eq_true]. cbn [map concat length].
    split_and!; [lia|by apply Forall_nil|apply submseteq_nil_l| |].
    - intros _ s Hs Hp. assert (s ∈ ts) as Hin by (by apply list_elem_of_filter). rewrite H2 in Hin. by apply elem_of_nil in Hin.
    - intros s Hs Hp. assert (s ∈ stable) as Hin by (by apply list_elem_of_filter). rewrite H1 in Hin. by apply elem_of_nil in Hin. }
  set (cands := sort_with packs_before (filter (λ s, is_sparse thr s && st_has_body s = true) stable)).
  assert (cands ≡ₚ filter (λ s, is_sparse thr s && st_has_body s = true) stable) as Hcp by apply sort_with_perm.
  assert (∀ s, s ∈ cands ↔ s ∈ el ∧ st_pool s = Stable ∧ is_sparse thr s = true ∧ st_has_body s = true) as Hc.
  { intros s. rewrite Hcp, list_elem_of_filter. unfold stable. rewrite list_elem_of_filter, andb_true_iff. tauto. }
  assert (Forall (λ s, 0 ≤ st_materialised s) cands) as Hmat.
  { apply Forall_forall. intros s (Hs & _)%Hc. by apply (proj1 (Forall_forall _ _) Hel). }
  destruct (pack_fold_spec max cands [] Hmax Hmat) as (Hok & _ & Hn & kept & Hitems & Hsub & Hall); [by apply Forall_nil|done|].
  set (bs := foldl (pack_candidate max) [] cands) in *. cbn [items_of map concat app] in Hitems.
  assert (∀ s, s ∈ items_of bs → s ∈ cands) as Hin by (intros s; rewrite Hitems; intros Hs; by eapply elem_of_submseteq).
  assert (∀ b, b ∈ fold_tombstones ts bs → ob_items b ≠ [] ∧
    (∀ s, s ∈ ob_items b → st_pool s = Tombstone ∨ (st_pool s = Stable ∧ is_sparse thr s = true ∧ st_has_body s = true)) ∧
    (let rewritten := filter (λ s, st_pool s ≠ Tombstone) (ob_items b) in rewritten = [] ∨ within rewritten)) as Hbs.
  { assert (∀ s, s ∈ ts → st_pool s = Tombstone) as Hts by (intros s [? _]%list_elem_of_filter; done).
    assert (∀ b, b ∈ bs → within (ob_items b) ∧ ∀ s, s ∈ ob_items b → s ∈ cands) as Hb.
    { intros b Hb. split; [by apply (proj1 (Forall_forall _ _) Hok) in Hb as [? _]|]. intros s Hs. apply Hin.
      unfold items_of. apply list_elem_of_In, in_concat. exists (ob_items b). split; [apply list_elem_of_In, list_elem_of_fmap; by exists b|by apply list_elem_of_In]. }
    assert (∀ b, b ∈ bs → ob_items b ≠ [] ∧ filter (λ s, st_pool s ≠ Tombstone) (ob_items b) = ob_items b) as Hf.
    { intros b [(f & Hf & _) Hcs]%Hb. split; [by intros E; rewrite E in Hf; apply elem_of_nil in Hf|].
      apply filter_all. intros s (_ & Hp & _)%Hcs%Hc. congruence. }
    assert (∀ b, b ∈ bs → ob_items b ≠ [] ∧ (∀ s, s ∈ ob_items b → st_pool s = Tombstone ∨ (st_pool s = Stable ∧ is_sparse thr s = true ∧ st_has_body s = true)) ∧
      within (filter (λ s, st_pool s ≠ Tombstone) (ob_items b))) as Hgood.
    { intros b Hbb. destruct (Hb b Hbb) as [Hw Hcs], (Hf b Hbb) as [Hne Hff]. rewrite Hff. split_and!; [done| |done].
      intros s (_ & ? & ? & ?)%Hcs%Hc. by right. }
    intros b Hbin. cbv zeta. destruct ts as [|t ts'] eqn:Ets; [destruct (Hgood b Hbin) as (? & ? & ?); auto|].
    destruct bs as [|b0 bs'] eqn:Ebs; cbn [fold_tombstones] in Hbin.
    - apply list_elem_of_singleton in Hbin as ->. cbn [ob_items]. split_and!; [done|intros s Hs; left; by apply Hts|left].
      apply filter_none. intros s Hs Hp. by apply Hp, Hts.
    - apply elem_of_cons in Hbin as [->|Hbin]; [|destruct (Hgood b) as (? & ? & ?); [by right|auto]]. cbn [ob_items].
      destruct (Hgood b0) as (H1 & H2 & H3); [by left|]. split_and!.
      + by destruct (ob_items b0).
      + intros s [Hs|Hs]%elem_of_app; [by apply H2|left; by apply Hts].
      + right. rewrite filter_app, (filter_none _ (t :: ts')), app_nil_r; [done|]. intros s Hs Hp. by apply Hp, Hts. }
  destruct (omap_all (close_bucket thr) (packed_ok thr) ob_items pb_bucket (fold_tombstones ts bs)) as (Hlen & Hpk & Hperm).
  { intros b Hb. destruct (Hbs b Hb) as (? & ? & ?). by apply close_bucket_ok. }
  fold (items_of (fold_tombstones ts bs)) in Hperm. rewrite fold_tombstones_items, Hitems in Hperm.
  assert (Z.of_nat (length (fold_tombstones ts bs)) ≤ max ∧ (length bs ≤ length (fold_tombstones ts bs))%nat) as [Hl1 Hl2]
    by (destruct ts, bs; cbn [fold_tombstones length] in *; lia).
  rewrite Hlen. split_and!; [done|done| | |].
  - rewrite Hperm. etransitivity; [apply submseteq_app; [exact Hsub|reflexivity]|]. rewrite Hcp.
    clear. unfold stable, ts. induction el as [|s el IH]; [done|]. rewrite !filter_cons.
    destruct (decide (st_pool s = Stable)), (decide (st_pool s = Tombstone)); try congruence.
    + rewrite filter_cons. case_decide; [by apply submseteq_skip|by apply submseteq_cons].
    + rewrite <-Permutation_middle. by apply submseteq_skip.
    + by apply submseteq_cons.
  - intros _ s Hs Hp. rewrite Hperm. apply elem_of_app. right. by apply list_elem_of_filter.
  - intros s Hs Hp Hsp Hb. destruct (Hall s) as [Hk|Hk]; [by apply Hc|left|right; lia]. rewrite Hperm. apply elem_of_app. by left.
Qed.

(** ** A pass *)

Section pass.
Context {HB : Blake3} {HU : UlidBytes} {HL : Lz4Block} {HT : UlidText} {HS : UnstableSort}.

Lemma fold_nonneg {B} (f : Scan → B → Scan) (l : list B) sn :
  (∀ sn x, 0 ≤ sn_materialised sn → 0 ≤ sn_materialised (f sn x)) → 0 ≤ sn_materialised sn → 0 ≤ sn_materialised (foldl f sn l).
Proof. intros Hf. revert sn. induction l as [|x l IH]; intros sn H; [done|]. by apply IH, Hf. Qed.

Lemma push_nonneg ret mat e i r sn : 0 ≤ sn_materialised (push_live ret mat e i r sn).
Proof. cbn. unfold u64_add. apply Z.mod_pos_bound. lia. Qed.

Lemma stats_nonneg ctx str ib entries : 0 ≤ st_materialised (segment_stats ctx str ib entries).
Proof.
  cbn. apply fold_nonneg; [|done]. intros sn [i e] H. unfold scan_entry. cbn [fst snd].
  assert (0 ≤ sn_materialised (count_entry (with_inline ib e) sn)) as Hc by exact H.
  destruct (classify_entry _ ctx) as [| |rs|rs emit| | |]; try apply push_nonneg; try exact H.
  - apply fold_nonneg; [intros; apply push_nonneg|exact Hc].
  - destruct (emits_canonical _ _); apply push_nonneg.
Qed.

(** The committed segment a statistic is of: listed in [index/], read from there
    and verified under the fork's key. *)
Definition stat_of (env : GcForkEnv) (vk : Verifier) (names : list string) (v : Views) (floor : option Ulid)
    (s : SegmentStats) (es : list SegmentEntry) : Prop :=
  ∃ name file bss ins ib,
    name ∈ names ∧ st_ulid_str s = file_stem name ∧ ulid_from_string (st_ulid_str s) = Some (st_ulid s) ∧
    at_or_below floor (st_ulid s) = false ∧
    fd_file (gf_dir env 3) DIndex name = Ok file ∧ @read_and_verify_segment_index _ _ vk file = Ok (bss, es, ins) ∧
    (if existsb (λ e, is_inline (e_kind e)) es
     then ∃ f, fd_file (gf_dir env 4) DIndex name = Ok f ∧ read_inline_section f = Ok ib else ib = []) ∧
    s = segment_stats (mkClassifyCtx (vw_map v) (vw_index v) (vw_live v) (st_ulid s)) (st_ulid_str s) ib es.

Lemma collect_stats_from_spec env v vk floor names paths l :
  (∀ p, p ∈ paths → p.1 = DIndex ∧ p.2 ∈ names) →
  collect_stats_from vk (gf_dir env 3) (gf_dir env 4) (vw_index v) (vw_live v) (vw_map v) floor paths = Ok l →
  ∀ s, s ∈ l → ∃ es, stat_of env vk names v floor s es.
Proof.
  revert l. induction paths as [|[d name] paths IH]; intros l Hp; cbn [collect_stats_from]; [by intros [= <-] s ?%elem_of_nil|].
  destruct (Hp (d, name)) as [Hd Hn]; [by left|]. cbn in Hd, Hn. subst d.
  specialize (λ l, IH l (λ p Hin, Hp p (list_elem_of_further _ _ _ Hin))).
  destruct (ulid_from_string (file_stem name)) as [u|] eqn:Hu; [|done].
  destruct (at_or_below floor u) eqn:Hfl; [apply IH|].
  destruct (fd_file (gf_dir env 3) DIndex name ≫= _) as [[[bss es] ins]|e] eqn:Hr; [|destruct e; try done; apply IH].
  apply io_bind_Ok in Hr as (file & Hfile & Hr). intros (ib & Hib & H)%io_bind_Ok.
  apply io_bind_Ok in H as (rest & Hrest & [= <-]). intros s [->|Hs]%elem_of_cons; [|by eapply IH].
  exists es, name, file, bss, ins, ib. split_and!; try done. destruct (existsb _ es); [by apply io_bind_Ok in Hib|by injection Hib].
Qed.

Lemma collect_stats_spec env v vk floor l :
  collect_stats vk (gf_dir env 2) (gf_dir env 3) (gf_dir env 4) (vw_index v) (vw_live v) (vw_map v) floor = Ok l →
  ∃ names, collect_idx_files (gf_dir env 2) = Ok names ∧ ∀ s, s ∈ l → ∃ es, stat_of env vk names v floor s es.
Proof.
  intros (names & Hn & H)%io_bind_Ok. exists names. split; [done|]. eapply collect_stats_from_spec; [|exact H].
  intros [d name]. unfold sort_for_rebuild. rewrite elem_of_app, !sort_with_perm, !list_elem_of_filter.
  intros [[_ Hin]|[_ Hin]]; apply list_elem_of_fmap in Hin as (n & [= -> ->] & Hin); done.
Qed.

Lemma plan_outputs_spec lh l outs : plan_outputs lh l = Some outs →
  outs = concat (map (λ s, input_outputs lh (default 0 (ulid_from_string (st_ulid_str s))) s) l).
Proof.
  revert outs. induction l as [|s l IH]; intros outs; cbn [plan_outputs map concat]; [by intros [= <-]|].
  destruct (ulid_from_string _) as [u|]; [|done]. cbn [default]. destruct (plan_outputs lh l) as [rest|]; [|done]. cbn.
  intros [= <-]. by rewrite (IH rest).
Qed.

Lemma compact_all_spec env lh work ops r p : compact_all env lh work = (ops, r) → WritePlan p ∈ ops →
  ∃ packed outs, (packed, new_ulid p) ∈ work ∧ plan_outputs lh (pb_bucket packed) = Some outs ∧ outputs p = outs.
Proof.
  revert ops r. induction work as [|[packed u] work IH]; intros ops r; cbn [compact_all]; [by intros [= <- _] ?%elem_of_nil|].
  destruct (plan_outputs lh (pb_bucket packed)) as [outs|] eqn:Ho; [|by intros [= <- _] ?%elem_of_nil].
  destruct (gf_write env u); [|by intros [= <- _] ?%elem_of_nil]. destruct (compact_all env lh work) as [ops' r'] eqn:Hc.
  intros [= <- _] [[= ->]|Hin]%elem_of_cons.
  - exists packed, outs. split; [by left|done].
  - destruct (IH _ _ eq_refl Hin) as (packed' & outs' & H1 & H2 & H3). exists packed', outs'. split; [by right|done].
Qed.

Lemma cleanup_plans env suffix p : WritePlan p ∉ cleanup env suffix.
Proof.
  unfold cleanup. destruct (gf_gc_names env) as [[names|]|]; try apply not_elem_of_nil.
  intros (n & Hn & _)%list_elem_of_fmap. done.
Qed.

(** A pass that writes a plan has loaded its state, and does not say it did nothing. *)
Lemma gc_fork_plan env thr ulids idle ops r p : gc_fork env thr ulids idle = (ops, r) → WritePlan p ∈ ops →
  ∃ chain fp ps, gf_chain env = Ok chain ∧ load_pass_state env chain = Ok ps ∧
    (∃ ops', run_pass env thr ulids fp ps = (ops', r) ∧ WritePlan p ∈ ops').
Proof.
  assert (∀ q, q ∈ cleanup env ".fetch" ++ cleanup env ".plan.tmp" → q ≠ WritePlan p) as Hno.
  { intros q Hq ->. apply elem_of_app in Hq as [Hq|Hq]; by apply cleanup_plans in Hq. }
  unfold gc_fork. case_bool_decide; [by intros [= <- _] ?%elem_of_nil|].
  destruct (negb _); [by intros [= <- _] ?%elem_of_nil|].
  destruct (has_pending_results env) as [[]|]; try by intros [= <- _] ?%elem_of_nil.
  set (scratch := cleanup env ".fetch" ++ cleanup env ".plan.tmp") in *.
  assert (WritePlan p ∈ scratch → False) as Hns by (intros Hq; by apply Hno in Hq).
  destruct (gf_chain env) as [chain|]; cbn [mbind io_bind]; [|intros [= <- _]; by intros ?%Hns].
  destruct (pass_fingerprint env chain) as [fp|]; cbn [mbind io_bind]; [|intros [= <- _]; by intros ?%Hns].
  destruct (match idle with Some _ => _ | None => _ end); [intros [= <- _]; by intros ?%Hns|].
  destruct (load_pass_state env chain) as [ps|] eqn:Hps; [|intros [= <- _]; by intros ?%Hns].
  destruct (run_pass env thr ulids fp ps) as [ops' r'] eqn:Hrun. intros [= <- <-] [Hq|Hq]%elem_of_app; [by apply Hns in Hq|].
  exists chain, fp, ps. split; [done|]. split; [done|]. by exists ops'.
Qed.

Lemma run_pass_plan env thr ulids fp ps ops r p : run_pass env thr ulids fp ps = (ops, r) → WritePlan p ∈ ops →
  Forall (λ s, 0 ≤ st_materialised s) (ps_eligible ps) →
  (∀ st, r = Ok st → gs_strategy st = Compact) ∧ new_ulid p ∈ ulids ∧
  ∃ l, l ≠ [] ∧ plan_outputs (ps_live_hashes ps) l = Some (outputs p) ∧
    ∀ s, s ∈ l → s ∈ ps_eligible ps ∧ is_cache_resident (gf_dir env 5) s = true ∧ st_pool s ≠ PoolJournal.
Proof.
  unfold run_pass. set (resident := filter _ (ps_eligible ps)). intros Hr Hp Hnn.
  assert (Forall (λ s, 0 ≤ st_materialised s) resident) as Hres.
  { apply Forall_forall. intros s [_ Hs]%list_elem_of_filter. by apply (proj1 (Forall_forall _ _) Hnn). }
  destruct (select_spec resident thr (Z.of_nat (length ulids)) ltac:(lia) Hres) as (_ & Hok & Hsub & _ & _).
  set (buckets := select_buckets resident thr (Z.of_nat (length ulids))) in *.
  case_bool_decide; [by injection Hr as <- _; apply elem_of_nil in Hp|].
  destruct (compact_all env (ps_live_hashes ps) (zip buckets ulids)) as [ops' r'] eqn:Hc.
  assert (WritePlan p ∈ ops' ∧ ∀ st, r = Ok st → gs_strategy st = Compact) as [Hp' Hst].
  { destruct r'; injection Hr as <- <-; (split; [done|]); by intros st [= <-]. }
  split; [exact Hst|]. destruct (compact_all_spec _ _ _ _ _ _ Hc Hp') as (packed & outs & Hin & Ho & Hout).
  split; [by apply elem_of_zip_r in Hin|]. exists (pb_bucket packed). apply elem_of_zip_l in Hin.
  destruct (proj1 (Forall_forall _ _) Hok packed Hin) as (Hne & Hall & _). split; [done|]. split; [by rewrite Ho, Hout|].
  intros s Hs. assert (s ∈ resident) as Hsr.
  { eapply elem_of_submseteq; [|exact Hsub]. apply list_elem_of_In, in_concat. exists (pb_bucket packed).
    split; [apply list_elem_of_In, list_elem_of_fmap; by exists packed|by apply list_elem_of_In]. }
  apply list_elem_of_filter in Hsr as [Hcr Hel]. split_and!; [done|done|]. destruct (Hall s Hs) as [->|(-> & _)]; done.
Qed.

(** *** The views are well formed *)

(** A visitor's invariant holds after the walk. *)
Lemma walk_inv {V} {HV : SegmentVisitor V} (I : V → Prop) (fits : list SegmentEntry → Prop) layers verify v v' :
  (∀ v fk sref bss es ins v', I v → fits es → visit v fk sref bss es ins = Ok v' → I v') →
  (∀ v, I v → I (end_layer v)) →
  (∀ tl br vk sref bss es ins, (tl, br) ∈ layers → parse_segment (tl 4%nat) vk sref = Ok (bss, es, ins) → fits es) →
  I v → walk_fork_layers layers verify v = Ok v' → I v'.
Proof.
  intros Hvis Hend. revert v. induction layers as [|[tl br] layers IH]; intros v Hfit Hv; cbn [walk_fork_layers]; [by intros [= <-]|].
  intros (segs & _ & H)%io_bind_Ok.
  assert (∀ tl br vk sref bss es ins, (tl, br) ∈ layers → parse_segment (tl 4%nat) vk sref = Ok (bss, es, ins) → fits es) as Hfit'
    by (intros tl' br' vk sref bss es ins Hin; apply (Hfit tl' br'); by right).
  case_decide as Hne; [by apply (IH v)|]. clear Hne.
  apply io_bind_Ok in H as (vk & _ & H). apply io_bind_Ok in H as (v1 & H1 & H). apply (IH (end_layer v1)); [done| |done].
  apply Hend. revert v Hv H1. clear IH H. induction segs as [|sref segs IHs]; intros v Hv; cbn [visit_segments]; [by intros [= <-]|].
  destruct (parse_segment (tl 4%nat) vk sref) as [[[bss es] ins]|e] eqn:Hp; [|destruct e; try done; intros H1; by apply (IHs v)].
  intros (v2 & H2 & H3)%io_bind_Ok. apply (IHs v2); [|done]. eapply Hvis; [exact Hv| |exact H2]. eapply Hfit; [by left|exact Hp].
Qed.

Definition builder_ok (N : Z) (b : LbaMapBuilder) : Prop :=
  lm_wf N (lb_map b) ∧ Forall (λ o, Forall (entry_fits N) o.2) (lb_outputs b).

Lemma rebuild_views_wf N layers b lm c : 0 ≤ N < U64 →
  (∀ tl br vk sref bss es ins, (tl, br) ∈ layers → parse_segment (tl 4%nat) vk sref = Ok (bss, es, ins) → Forall (entry_fits N) es) →
  rebuild_views layers = Ok (b, lm, c) → lm_wf N lm.
Proof.
  intros HN Hfit H. unfold rebuild_views in H. apply io_bind_Ok in H as ([ib lb] & Hw & H). injection H as <- <- <-.
  change (lm_wf N (lb_map (ib, lb).2)).
  eapply (proj1 (A := _) (B := _)), (walk_inv (λ v, builder_ok N v.2) (Forall (entry_fits N)) layers true (eb_new, lb_new) (ib, lb)); [| |exact Hfit| |exact Hw].
  - intros [i l] fk sref bss es ins [i' l'] [Hm Ho] Hes (a & _ & Hv)%io_bind_Ok. cbn in Hv. injection Hv as <- <-. cbn [snd] in *.
    unfold lb_visit. destruct (max_input ins); cbn; (split; cbn; [|]); try done.
    + apply Forall_app. split; [done|]. by apply Forall_singleton.
    + by apply register_flush_view.
  - intros [i l] [Hm Ho]. cbn. unfold lb_end_layer. split; cbn; [|by apply Forall_nil].
    assert (Forall (λ o, Forall (entry_fits N) o.2) (sort_outputs (lb_outputs l))) as Hso by (by rewrite sort_outputs_perm).
    revert Hso. cbn [snd] in *. generalize (sort_outputs (lb_outputs l)). clear Ho. revert Hm. generalize (lb_map l).
    intros m Hm os Hos. revert m Hm. induction Hos as [|[[u h] es] os Ho Hos IH]; intros m Hm; [done|]. cbn [foldl].
    apply IH. by apply register_output_view.
  - split; cbn; [by apply lm_new_wf|by apply Forall_nil].
Qed.

Definition record_fits (N : Z) (r : WriteLog.LogRecord) : Prop :=
  match r with
  | WriteLog.RData _ s n _ _ _ | WriteLog.RRef _ s n | WriteLog.RZero s n => 0 ≤ s ∧ 0 < n < U32 ∧ s + n ≤ N
  end.

Lemma replay_wal_wf N fk lm lm' :
  (∀ n file rs c, fd_wal_file fk n = Ok file → WriteLog.scan_readonly file = Ok (rs, c) → Forall (record_fits N) rs) →
  lm_wf N lm → replay_wal_into_lbamap fk lm = Ok lm' → lm_wf N lm'.
Proof.
  intros Hfit Hwf. unfold replay_wal_into_lbamap. destruct (fd_wal fk) as [entries|e]; [|destruct e; try done; by intros [= <-]].
  intros [= <-]. generalize (sort_with String.leb (omap (λ e : string * bool, if e.2 then Some e.1 else None) entries)). intros names.
  apply (foldl_inv (replay_wal_file fk) (lm_wf N)); [done|]. intros m n _ Hm. unfold replay_wal_file.
  destruct (ulid_from_string n) as [u|]; [|done]. destruct (fd_wal_file fk n ≫= _) as [[rs c]|] eqn:Hr; [|done].
  apply io_bind_Ok in Hr as (file & Hf & Hr). specialize (Hfit _ _ _ _ Hf Hr).
  apply (foldl_inv (replay_record_into u) (lm_wf N)); [done|]. intros m' r Hin Hm'. apply (proj1 (Forall_forall _ _) Hfit) in Hin.
  destruct r; cbn in *; unfold LbaMap.insert; apply insert_inner_view; (done || lia).
Qed.

(** What the files of the chain, the WAL and the index hold fits the volume. *)
Record env_fits (N : Z) (env : GcForkEnv) : Prop := {
  ef_bound : 0 ≤ N < U32;
  ef_chain chain path tl br vk sref bss es ins : gf_chain env = Ok chain → (path, tl, br) ∈ chain →
    parse_segment (tl 4%nat) vk sref = Ok (bss, es, ins) → Forall (entry_fits N) es;
  ef_wal n file rs c : fd_wal_file (gf_dir env 1) n = Ok file → WriteLog.scan_readonly file = Ok (rs, c) → Forall (record_fits N) rs;
  ef_index vk name file bss es ins : fd_file (gf_dir env 3) DIndex name = Ok file →
    @read_and_verify_segment_index _ _ vk file = Ok (bss, es, ins) → Z.of_nat (length es) < U32 ∧ Forall (entry_fits N) es
}.

Lemma load_views_wf N env chain v : env_fits N env → gf_chain env = Ok chain → load_views env chain = Ok v → lm_wf N (vw_map v).
Proof.
  intros [HN Hch Hwal _] Hc H. unfold load_views in H. apply io_bind_Ok in H as ([[b lm] c] & Hb & H).
  apply io_bind_Ok in H as (lm' & Hr & [= <-]). cbn [vw_map]. eapply replay_wal_wf; [exact Hwal| |exact Hr].
  eapply rebuild_views_wf; [lia| |exact Hb]. intros tl br vk sref bss es ins ([[path tl'] br'] & [= -> ->] & Hin)%list_elem_of_fmap.
  by eapply Hch.
Qed.

(** C20: a GC plan says exactly what is live, when the files of the chain, the WAL
    and [index/] hold only entries and records that fit a device of [N] blocks.
    Every plan a pass writes goes under one of the ULIDs it was given and lists
    committed segments above the snapshot floor: listed in [index/], and read from
    there under the fork's own key.  Of each, against the views rebuilt from the
    chain and the WAL, its records place every live block at its own place in its
    payload and no other block, and keep the body of every entry at the home of a
    hash something still resolves; no segment of the journal alone is rewritten;
    and a pass that wrote a plan does not report that it did nothing, which is
    what holds back the edges of the next cut. *)
Theorem gc_plan_exact N env thr ulids idle ops r p :
  env_fits N env → gc_fork env thr ulids idle = (ops, r) → WritePlan p ∈ ops →
  (∀ st, r = Ok st → gs_strategy st = Compact) ∧ new_ulid p ∈ ulids ∧
  ∃ vk names chain v floor, fd_key (gf_dir env 0) = Ok vk ∧ collect_idx_files (gf_dir env 2) = Ok names ∧
    gf_chain env = Ok chain ∧ load_views env chain = Ok v ∧ gf_snapshot env 1 = Ok floor ∧
    ∃ parts : list (Ulid * list SegmentEntry * list PlanOutput), parts ≠ [] ∧ outputs p = concat (map snd parts) ∧
      ∀ u es os, (u, es, os) ∈ parts →
        at_or_below floor u = false ∧
        (∃ s, stat_of env vk names v floor s es ∧ st_ulid s = u ∧ is_cache_resident (gf_dir env 5) s = true) ∧
        exact_for u es (mkClassifyCtx (vw_map v) (vw_index v) (vw_live v) u) os ∧
        (os = [DropInput u] ∨ ∃ e, e ∈ es ∧ e_journal e = false).
Proof.
  intros Hfits Hf Hp. destruct (gc_fork_plan _ _ _ _ _ _ _ Hf Hp) as (chain & fp & ps & Hchain & Hps & ops' & Hrun & Hp').
  unfold load_pass_state in Hps. apply io_bind_Ok in Hps as (vk & Hvk & Hps). apply io_bind_Ok in Hps as (v & Hv & Hps).
  apply io_bind_Ok in Hps as (floor & Hfl & Hps). apply io_bind_Ok in Hps as (all & Hall & Hps). injection Hps as <-.
  destruct (collect_stats_spec _ _ _ _ _ Hall) as (names & Hnames & Hstat).
  destruct (run_pass_plan _ _ _ _ _ _ _ _ Hrun Hp') as (Hst & Hu & l & Hne & Hout & Hl); [|cbn [ps_live_hashes ps_eligible] in *].
  { cbn. apply Forall_forall. intros s [_ Hs]%list_elem_of_filter. destruct (Hstat s Hs) as (es & ? & ? & ? & ? & ? & _ & _ & _ & _ & _ & _ & _ & ->).
    apply stats_nonneg. }
  split; [exact Hst|]. split; [exact Hu|]. exists vk, names, chain, v, floor. do 5 (split; [done|]).
  apply plan_outputs_spec in Hout.
  assert (∃ parts : list (Ulid * list SegmentEntry * list PlanOutput),
    length parts = length l ∧ map snd parts = map (λ s, input_outputs (vw_live v) (default 0 (ulid_from_string (st_ulid_str s))) s) l ∧
    ∀ u es os, (u, es, os) ∈ parts → ∃ s, s ∈ l ∧ stat_of env vk names v floor s es ∧ st_ulid s = u ∧ os = input_outputs (vw_live v) u s) as (parts & Hlen & Hmap & Hparts).
  { clear Hout Hne. induction l as [|s l IH]; [exists []; split_and!; [done|done|by intros ? ? ? ?%elem_of_nil]|].
    destruct IH as (parts & H1 & H2 & H3); [intros x Hx; apply Hl; by right|].
    destruct (Hl s) as (Hs & _); [by left|]. apply list_elem_of_filter in Hs as [_ Hs]. destruct (Hstat s Hs) as (es & Hes).
    pose proof Hes as (? & ? & ? & ? & ? & _ & _ & Hpar & _).
    exists ((st_ulid s, es, input_outputs (vw_live v) (st_ulid s) s) :: parts). split_and!; [cbn; lia|cbn; by rewrite Hpar, H2|].
    intros u es' os [[= -> -> ->]|Hin]%elem_of_cons; [exists s; by split_and!; [left|..]|].
    destruct (H3 _ _ _ Hin) as (s' & ? & ?). exists s'. by split; [right|]. }
  exists parts. split; [intros ->; by destruct l|]. split; [by rewrite Hmap|].
  intros u es os (s & Hs & Hes & <- & ->)%Hparts. destruct (Hl s Hs) as (Hel & Hres & Hpool).
  apply list_elem_of_filter in Hel as [Hnp _].
  pose proof Hes as (name & file & bss & ins & ib & _ & _ & _ & Hfloor & Hfile & Hread & _ & Heq).
  split; [done|]. split; [by exists s|]. set (ctx := mkClassifyCtx (vw_map v) (vw_index v) (vw_live v) (st_ulid s)) in *.
  rewrite Heq. rewrite Heq in Hnp, Hpool. split.
  - apply (segment_plan_exact N ctx (st_ulid_str s) ib es); [by eapply load_views_wf|apply Hfits|exact (ef_index _ _ Hfits _ _ _ _ _ _ Hfile Hread)|exact Hnp].
  - exact (not_journal_pool ctx (st_ulid_str s) ib es Hpool).
Qed.
End pass.

(** Packing keeps its bounds. A pass packs at most as many buckets as it has
    ULIDs, no segment twice, none of the journal's pool; a bucket is dead
    segments and sparse ones, its sparse ones within both caps or over them by
    one input alone, and counts what it holds; where there is a bucket at all
    every dead segment is in one; and a sparse segment is left for the next pass
    only when every bucket is in use. *)
Theorem select_exact el thr max : 0 ≤ max → Forall (λ s, 0 ≤ st_materialised s) el →
  let out := select_buckets el thr max in
  let chosen := concat (map pb_bucket out) in
  Z.of_nat (length out) ≤ max ∧ Forall (packed_ok thr) out ∧ chosen ⊆+ el ∧
  (0 < max → ∀ s, s ∈ el → st_pool s = Tombstone → s ∈ chosen) ∧
  (∀ s, s ∈ el → st_pool s = Stable → is_sparse thr s = true → st_has_body s = true →
     s ∈ chosen ∨ Z.of_nat (length out) = max).
Proof. intros Hm Hel. by apply select_spec. Qed.

(** ** A concrete pass *)

#[local] Existing Instance toy_blake3.
#[local] Existing Instance toy_ulid_bytes.
#[local] Existing Instance toy_signer.
#[local] Existing Instance toy_lz4.
#[local] Existing Instance merge_by_ulid.
#[local] Existing Instance toy_ulid_text.

(** [B] has two bodies; [C] zeroes the first one's block and one block of the
    second's four. *)
Definition toy_file (entries : list PendingEntry) : list Z :=
  match write_segment_full raw_decode entries [] [] false with Ok (f, _, _) => f | Err _ => [] end.

Definition toy_sparse_file : list Z :=
  toy_file [new_data (replicate 32 5) 7 1 CodecNone (replicate 300 9); new_data (replicate 32 6) 8 4 CodecNone (replicate 300 8)].
Definition toy_zero_file : list Z :=
  toy_file [mkPendingEntry (new_zero 7 1) None; mkPendingEntry (new_zero 9 1) None].

Definition toy_gc_dir : ForkDir := {|
  fd_list d := match d with DIndex => Ok ["B.idx"; "C.idx"]%string | _ => Err NotFound end;
  fd_file d n := match d with
                 | DIndex => Ok (if bool_decide (n = "B.idx"%string) then toy_sparse_file else toy_zero_file)
                 | DCache => if bool_decide (n = "B.present"%string) then Ok [2] else Err NotFound
                 | _ => Err NotFound
                 end;
  fd_exists d n := bool_decide (n = "B.body"%string);
  fd_wal := Ok [];
  fd_wal_file _ := Err NotFound;
  fd_key := Ok toy_verifier
|}.

Definition toy_gc_env : GcForkEnv :=
  mkGcForkEnv true None (Ok [([], still toy_gc_dir, None)]) (Ok []) (λ _, Ok None) (λ _, toy_gc_dir) (λ _, Ok ()).

(** 0.7. *)
Definition toy_threshold : spec_float := f64_div (f64_of 7) (f64_of 10).

Definition toy_plan : RewritePlan := mkRewritePlan 90 [Canonical 66 1; Run 66 1 0 8 1; Run 66 1 2 10 2].

Definition entries_of (file : list Z) : list SegmentEntry :=
  match read_segment_index file with Ok (_, es, _) => es | Err _ => [] end.

(** Verification changes nothing that is parsed. *)
Lemma verified_entries (vk : Verifier) file bss es ins :
  read_and_verify_segment_index file = Ok (bss, es, ins) → read_segment_index file = Ok (bss, es, ins).
Proof.
  unfold read_and_verify_segment_index, read_segment_index. intros ([[b buf] h] & -> & H)%io_bind_Ok. cbn [mbind io_bind].
  case_decide; [done|]. by destruct (verify_strict _ _).
Qed.

Definition spans_within (N : Z) (e : SegmentEntry) : bool :=
  is_canonical_only (e_kind e)
  || bool_decide (0 ≤ e_start_lba e ∧ 0 < e_lba_length e < U32 ∧ e_start_lba e + e_lba_length e ≤ N).

Lemma spans_within_fits N es : forallb (spans_within N) es = true → Forall (entry_fits N) es.
Proof.
  intros H. apply Forall_forall. intros e He Hk. rewrite forallb_forall in H. apply list_elem_of_In, H in He.
  unfold spans_within in He. rewrite Hk in He. by apply bool_decide_eq_true in He.
Qed.

Lemma toy_files_fit (vk : Verifier) d n file bss es ins :
  fd_file toy_gc_dir d n = Ok file → read_segment_index file = Ok (bss, es, ins) →
  Z.of_nat (length es) < U32 ∧ Forall (entry_fits 100) es.
Proof.
  intros Hf Hr. assert (es = entries_of file) as -> by (unfold entries_of; by rewrite Hr).
  assert (file ∈ [toy_sparse_file; toy_zero_file; [2]]) as Hin.
  { unfold toy_gc_dir, fd_file in Hf. destruct d; try discriminate Hf.
    - injection Hf as Hf. rewrite <-Hf. destruct (bool_decide (n = _)); [left|right; left].
    - destruct (bool_decide (n = _)); [|discriminate Hf]. injection Hf as Hf. rewrite <-Hf. right; right; left. }
  enough (forallb (λ f, bool_decide (Z.of_nat (length (entries_of f)) < U32) && forallb (spans_within 100) (entries_of f))
            [toy_sparse_file; toy_zero_file; [2]] = true) as H.
  { rewrite forallb_forall in H. apply list_elem_of_In, H, andb_true_iff in Hin as [H1%bool_decide_eq_true H2].
    split; [exact H1|by apply spans_within_fits]. }
  vm_compute. reflexivity.
Qed.

Lemma toy_env_fits : env_fits 100 toy_gc_env.
Proof.
  split; [lia| |done|].
  - intros chain path tl br vk sref bss es ins [= <-] [= -> -> ->]%list_elem_of_singleton Hp. unfold parse_segment, segment_file in Hp.
    apply io_bind_Ok in Hp as (file & Hf & Hp). destruct vk as [vk|]; [apply verified_entries in Hp|];
      by apply (toy_files_fit toy_verifier _ _ _ _ _ _ Hf Hp).
  - intros vk n file bss es ins Hf Hp%verified_entries. by eapply toy_files_fit.
Qed.

Lemma gc_plan_exact_witness :
  ∃ r, gc_fork toy_gc_env toy_threshold [90; 91] None = ([WritePlan toy_plan], r) ∧
    ∃ parts : list (Ulid * list SegmentEntry * list PlanOutput), parts ≠ [] ∧ outputs toy_plan = concat (map snd parts) ∧
      ∀ u es os, (u, es, os) ∈ parts → os = [DropInput u] ∨ ∃ e, e ∈ es ∧ e_journal e = false.
Proof.
  assert (match gc_fork toy_gc_env toy_threshold [90; 91] None with (ops, Ok _) => ops = [WritePlan toy_plan] | _ => False end) as Hw
    by (vm_compute; reflexivity).
  destruct (gc_fork toy_gc_env toy_threshold [90; 91] None) as [ops [st|]] eqn:E; [|destruct Hw]. exists (Ok st).
  assert (WritePlan toy_plan ∈ ops) as Hp by (rewrite Hw; left).
  destruct (gc_plan_exact 100 toy_gc_env toy_threshold [90; 91] None ops (Ok st) toy_plan toy_env_fits E Hp)
    as (_ & _ & vk & names & chain & v & floor & _ & _ & _ & _ & _ & parts & Hne & Hout & Hall).
  split; [by rewrite Hw|]. exists parts. split; [exact Hne|]. split; [exact Hout|].
  intros u es os Hin. by destruct (Hall u es os Hin) as (_ & _ & _ & H).
Defined.

(** A dead segment, a sparse one and one of the journal. *)
Definition toy_stats (u : Ulid) (pool : SegmentPool) (retained tot : Z) : SegmentStats :=
  mkStats u (String (ascii_of_nat (Z.to_nat u)) EmptyString) retained retained tot true [] [] [] [] false pool.

(** A segment of deltas alone is never packed, however little of it is retained:
    deltas hold no stored length, and the test for a body sums those. *)
Lemma delta_segment_not_packed :
  let opts := [mkDeltaOption (replicate 32 9) 0 400 (replicate 16 1)] in
  let es := [new_delta (replicate 32 3) 20 1 opts; new_delta (replicate 32 4) 21 1 opts] in
  let lm := LbaMap.insert (LbaMap.insert lm_new 20 1 (replicate 32 3) 66) 21 1 (replicate 32 7) 67 in
  let s := segment_stats (mkClassifyCtx lm ei_new {[ replicate 32 3; replicate 32 7 ]} 66) "B" [] es in
  st_total s = 800 ∧ st_retained s = 400 ∧ is_sparse toy_threshold s = true ∧ st_pool s = Stable ∧
  select_buckets [s] toy_threshold 4 = [].
Proof. vm_compute. split_and!; reflexivity. Qed.
