(* ===== verification/GcHandoff.v ===== *)
(** * Finishing the volume's GC outputs (elide-coordinator/src/gc.rs)

    A bare [gc/<ulid>] is an output the volume has committed. The coordinator
    uploads it, has the volume promote it, drops the consumed inputs' caches and
    has the volume drop the file; what could not be done waits for the next tick. *)

From Stdlib Require Import Ascii String.
From stdpp Require Import base gmap list sorting strings.
From S2P Require Import Prelude Bytes Text Segment SegmentCodec SegmentCodecSpec Rebuild RebuildSpec GcSelect GcSelectSpec GcCycle.
Open Scope Z_scope.

(** The requests a handoff makes, in order. *)
Inductive HandoffOp :=
  | PutSegment (u : Ulid)
  | PromoteSegment (u : Ulid)
  | RemoveCache (u : Ulid) (suffix : string)
  | FinalizeHandoff (u : Ulid).

(** What the handoffs meet: the [gc/] directory, the bucket's answer to an upload,
    the volume's to its two requests. *)
Record HandoffEnv := mkHandoffEnv {
  he_dir : ForkDir;
  he_gc_exists : io bool;
  he_put : Ulid → io unit;
  he_promote : Ulid → bool;
  he_finalize : Ulid → bool
}.

(** A cache file that cannot be removed is left. *)
Definition drop_cache (u : Ulid) : list HandoffOp :=
  map (RemoveCache u) [".body.tmp"; ".present"; ".dmat"; ".body"]%string.

Section handoff.
Context {HB : Blake3} {HU : UlidBytes} {HL : Lz4Block} {HT : UlidText}.

(** A file beside its plan is an apply the volume has yet to resolve. *)
Definition collect_bare_handoffs (fk : ForkDir) : io (list string) :=
  names ← fd_list fk DGc;
  Ok (sort_with String.leb
        (filter (λ n, negb (has_char "."%char n) && is_ulid n && negb (fd_exists fk DGc (n +:+ ".plan")) = true) names)).

(** [None]: a step waits for the next tick. *)
Definition process_one (env : HandoffEnv) (vk : Verifier) (name : string) : list HandoffOp * io (option HandoffOutcome) :=
  match ulid_from_string name with
  | None => ([], Err OtherError)
  | Some u =>
      match (file ← fd_file (he_dir env) DGc name; read_and_verify_segment_index file) with
      | Err e => ([], Err e)
      | Ok (_, entries, inputs) =>
          let uploaded := negb (bool_decide (entries = [])) in
          match if uploaded then he_put env u else Ok () with
          | Err e => ([], Err e)
          | Ok _ =>
              let ops := (if uploaded then [PutSegment u] else []) ++ [PromoteSegment u] in
              if negb (he_promote env u) then (ops, Ok None)
              else
                let ops := ops ++ concat (map drop_cache inputs) ++ [FinalizeHandoff u] in
                if he_finalize env u then (ops, Ok (Some (mkHandoffOutcome u inputs uploaded))) else (ops, Ok None)
          end
      end
  end.

(** An error ends the tick's handoffs. *)
Fixpoint process_all (env : HandoffEnv) (vk : Verifier) (names : list string) : list HandoffOp * io (list HandoffOutcome) :=
  match names with
  | [] => ([], Ok [])
  | name :: names =>
      match process_one env vk name with
      | (ops, Err e) => (ops, Err e)
      | (ops, Ok outcome) =>
          let '(more, r) := process_all env vk names in
          (ops ++ more, rest ← r; Ok (match outcome with Some o => o :: rest | None => rest end))
      end
  end.

Definition apply_done_handoffs (env : HandoffEnv) : list HandoffOp * io (list HandoffOutcome) :=
  match he_gc_exists env with
  | Err e => ([], Err e)
  | Ok false => ([], Ok [])
  | Ok true =>
      match collect_bare_handoffs (he_dir env) with
      | Err e => ([], Err e)
      | Ok bare =>
          if bool_decide (bare = []) then ([], Ok [])
          else match fd_key (he_dir env) with
               | Err e => ([], Err e)
               | Ok vk => process_all env vk bare
               end
      end
  end.

(** ** What the handoffs promise *)

(** A committed output: its entries and the inputs its signed table names. *)
Definition output_of (env : HandoffEnv) (vk : Verifier) (u : Ulid) (entries : list SegmentEntry) (inputs : list Ulid) : Prop :=
  ∃ name file bss, ulid_from_string name = Some u ∧ fd_exists (he_dir env) DGc (name +:+ ".plan") = false ∧
    fd_file (he_dir env) DGc name = Ok file ∧ read_and_verify_segment_index file = Ok (bss, entries, inputs).

(** What a request stands on, among those already made. *)
Definition justified (env : HandoffEnv) (vk : Verifier) (pre : list HandoffOp) (op : HandoffOp) : Prop :=
  match op with
  | PutSegment u => ∃ es ins, output_of env vk u es ins ∧ es ≠ []
  | PromoteSegment u => ∃ es ins, output_of env vk u es ins ∧ (es = [] ∨ PutSegment u ∈ pre ∧ he_put env u = Ok ())
  | RemoveCache i _ =>
      ∃ u es ins, output_of env vk u es ins ∧ i ∈ ins ∧ PromoteSegment u ∈ pre ∧ he_promote env u = true
  | FinalizeHandoff u =>
      ∃ es ins, output_of env vk u es ins ∧ PromoteSegment u ∈ pre ∧ he_promote env u = true ∧
        ∀ i, i ∈ ins → RemoveCache i ".body" ∈ pre
  end.

Fixpoint ordered (J : list HandoffOp → HandoffOp → Prop) (pre ops : list HandoffOp) : Prop :=
  match ops with
  | [] => True
  | op :: ops => J pre op ∧ ordered J (pre ++ [op]) ops
  end.

Lemma ordered_app J pre a b : ordered J pre (a ++ b) ↔ ordered J pre a ∧ ordered J (pre ++ a) b.
Proof.
  revert pre. induction a as [|op a IH]; intros pre; cbn [app ordered]; [rewrite app_nil_r; tauto|].
  rewrite IH, <-(app_assoc pre [op] a). tauto.
Qed.

Lemma ordered_mono J pre pre' ops : (∀ p p' op, p ⊆ p' → J p op → J p' op) → pre ⊆ pre' → ordered J pre ops → ordered J pre' ops.
Proof.
  intros Hm. revert pre pre'. induction ops as [|op ops IH]; intros pre pre' Hs; [done|]. cbn [ordered]. intros [H1 H2].
  split; [by eapply Hm|]. eapply IH; [|exact H2]. set_solver.
Qed.

Lemma justified_mono env vk p p' op : p ⊆ p' → justified env vk p op → justified env vk p' op.
Proof. intros Hs. destruct op; cbn [justified]; [done|naive_solver..]. Qed.

Lemma drop_caches_justified env vk pre u es ins l : output_of env vk u es ins → PromoteSegment u ∈ pre → he_promote env u = true →
  l ⊆ ins → ordered (justified env vk) pre (concat (map drop_cache l)).
Proof.
  intros Ho Hin Hp. revert pre Hin. induction l as [|i l IH]; intros pre Hin Hl; [done|]. cbn [map concat]. apply ordered_app.
  assert (∀ p sfx, PromoteSegment u ∈ p → justified env vk p (RemoveCache i sfx)) as Hj.
  { intros p sfx Hq. exists u, es, ins. split; [done|]. split; [apply Hl; by left|done]. }
  split.
  - cbn [drop_cache map ordered]. split_and!; try apply Hj; set_solver.
  - apply IH; set_solver.
Qed.

(** A handoff reported done. *)
Definition done_by (env : HandoffEnv) (vk : Verifier) (ops : list HandoffOp) (o : HandoffOutcome) : Prop :=
  FinalizeHandoff (ho_output o) ∈ ops ∧ he_finalize env (ho_output o) = true ∧
  ∃ es, output_of env vk (ho_output o) es (ho_inputs o) ∧ ho_uploaded o = negb (bool_decide (es = [])).

Lemma process_one_spec env vk name ops r : fd_exists (he_dir env) DGc (name +:+ ".plan") = false →
  process_one env vk name = (ops, r) →
  ordered (justified env vk) [] ops ∧
  ∀ res, r = Ok res → (∀ o, res = Some o → done_by env vk ops o) ∧
    ∀ u, FinalizeHandoff u ∈ ops → he_finalize env u = true → ∃ o, res = Some o ∧ ho_output o = u.
Proof.
  intros Hplan. unfold process_one. destruct (ulid_from_string name) as [u|] eqn:Hu; [|by intros [= <- <-]].
  destruct (fd_file (he_dir env) DGc name ≫= _) as [[[bss es] ins]|] eqn:Hr; [|by intros [= <- <-]].
  apply io_bind_Ok in Hr as (file & Hfile & Hread).
  assert (output_of env vk u es ins) as Ho by (by exists name, file, bss).
  set (uploaded := negb (bool_decide (es = []))). destruct (if uploaded then he_put env u else Ok ()) as [[]|] eqn:Hput; [|by intros [= <- <-]].
  set (head := (if uploaded then [PutSegment u] else []) ++ [PromoteSegment u]).
  assert (ordered (justified env vk) [] head) as Hh.
  { unfold head, uploaded in *. case_bool_decide as Hes; cbn in *.
    - split; [|done]. exists es, ins. auto.
    - split; [by exists es, ins|]. split; [|done]. exists es, ins. split; [done|]. right. split; [by left|done]. }
  assert (∀ v, FinalizeHandoff v ∉ head) as Hnf.
  { intros v Hv. unfold head in Hv. destruct uploaded; cbn in Hv; set_solver. }
  destruct (he_promote env u) eqn:Hpr; cbn [negb].
  2: { intros [= <- <-]. split; [done|]. intros res [= <-]. split; [done|]. intros v Hv. by apply Hnf in Hv. }
  set (all := head ++ concat (map drop_cache ins) ++ [FinalizeHandoff u]).
  assert (PromoteSegment u ∈ head) as Hin by (unfold head; apply elem_of_app; right; by left).
  assert (ordered (justified env vk) [] all) as Hall.
  { unfold all. rewrite !ordered_app. cbn [app]. split_and!; [done|by eapply drop_caches_justified|].
    cbn [ordered]. split; [|done]. exists es, ins. split_and!; [done|set_solver|done|]. intros i Hi.
    apply elem_of_app. right. apply list_elem_of_In, in_concat. exists (drop_cache i).
    split; [apply list_elem_of_In, list_elem_of_fmap; by exists i|apply list_elem_of_In; cbn; set_solver]. }
  assert (∀ v, FinalizeHandoff v ∈ all → v = u) as Huniq.
  { intros v [Hv|[Hv|Hv]%elem_of_app]%elem_of_app; [by apply Hnf in Hv| |apply list_elem_of_singleton in Hv; congruence].
    apply list_elem_of_In, in_concat in Hv as (l & Hl & Hv). apply list_elem_of_In, list_elem_of_fmap in Hl as (i & -> & _).
    cbn in Hv. naive_solver. }
  destruct (he_finalize env u) eqn:Hf; intros [= <- <-]; (split; [exact Hall|]); intros res [= <-]; split; try done.
  - intros o [= <-]. split; [unfold all; cbn; set_solver|]. split; [done|]. by exists es.
  - intros v ->%Huniq _. by exists (mkHandoffOutcome u ins uploaded).
  - intros v ->%Huniq. congruence.
Qed.

Lemma process_all_spec env vk names ops r : Forall (λ n, fd_exists (he_dir env) DGc (n +:+ ".plan") = false) names →
  process_all env vk names = (ops, r) →
  ordered (justified env vk) [] ops ∧
  ∀ outs, r = Ok outs → Forall (done_by env vk ops) outs ∧
    ∀ u, FinalizeHandoff u ∈ ops → he_finalize env u = true → u ∈ map ho_output outs.
Proof.
  intros Hn. revert ops r. induction Hn as [|name names Hp Hn IH]; intros ops r; cbn [process_all].
  { intros [= <- <-]. split; [done|]. intros outs [= <-]. split; [by apply Forall_nil|by intros u ?%elem_of_nil]. }
  destruct (process_one env vk name) as [ops1 r1] eqn:H1. destruct (process_one_spec _ _ _ _ _ Hp H1) as [Ho Hr].
  destruct r1 as [res|e]; [|by intros [= <- <-]]. destruct (Hr res eq_refl) as [Hd Hf].
  destruct (process_all env vk names) as [ops2 r2]. destruct (IH ops2 r2 eq_refl) as [Ho2 Hr2]. intros [= <- <-]. split.
  - apply ordered_app. split; [done|]. eapply ordered_mono; [intros ? ? ?; apply justified_mono| |exact Ho2]. set_solver.
  - intros outs (rest & -> & [= <-])%io_bind_Ok. destruct (Hr2 rest eq_refl) as [Hd2 Hf2].
    assert (∀ a b o, done_by env vk a o → (∀ x, x ∈ a → x ∈ b) → done_by env vk b o) as Hmono
      by (intros a b o (? & ? & ?) Hs; split_and!; [by apply Hs|done|done]).
    assert (Forall (done_by env vk (ops1 ++ ops2)) rest) as Hrest.
    { eapply Forall_impl; [exact Hd2|]. intros o Hoo. eapply Hmono; [exact Hoo|]. intros x. rewrite elem_of_app. by right. }
    split.
    + destruct res as [o|]; [|done]. constructor; [|done]. eapply Hmono; [by apply Hd|]. intros x. rewrite elem_of_app. by left.
    + intros u [Hu|Hu]%elem_of_app Hfin; [destruct (Hf u Hu Hfin) as (o & -> & <-); by left|].
      specialize (Hf2 u Hu Hfin). destruct res; [by right|done].
Qed.

(** C38: handoffs are finished in order. An output with entries is in the bucket
    before the volume is asked to promote it; an input's cached body is dropped
    only once the volume has promoted an output that names it; the volume is asked
    to drop the output only after all of that; and a tick without an error reports
    exactly the outputs the volume has dropped, with the inputs their signed
    tables name, as uploaded when they hold entries. *)
Theorem handoffs_ordered env ops r : apply_done_handoffs env = (ops, r) →
  ops = [] ∨ ∃ vk, fd_key (he_dir env) = Ok vk ∧ ordered (justified env vk) [] ops ∧
    ∀ outs, r = Ok outs → Forall (done_by env vk ops) outs ∧
      ∀ u, FinalizeHandoff u ∈ ops → he_finalize env u = true → u ∈ map ho_output outs.
Proof.
  unfold apply_done_handoffs. destruct (he_gc_exists env) as [[]|]; try (intros [= <- _]; by left).
  destruct (collect_bare_handoffs (he_dir env)) as [bare|] eqn:Hb; [|intros [= <- _]; by left].
  case_bool_decide; [intros [= <- _]; by left|]. destruct (fd_key (he_dir env)) as [vk|]; [|intros [= <- _]; by left].
  intros Hp. right. exists vk. split; [done|]. apply (process_all_spec env vk bare); [|done].
  unfold collect_bare_handoffs in Hb. apply io_bind_Ok in Hb as (names & _ & [= <-]).
  apply Forall_forall. intros n Hn. rewrite sort_with_perm in Hn. apply list_elem_of_filter in Hn as [[_ Hn%negb_true_iff]%andb_true_iff _]. exact Hn.
Qed.
End handoff.

(** ** Concrete handoffs *)

#[local] Existing Instance toy_blake3.
#[local] Existing Instance toy_ulid_bytes.
#[local] Existing Instance toy_signer.
#[local] Existing Instance toy_lz4.
#[local] Existing Instance toy_ulid_text.

(** Two outputs: [B], which consumed [A], and [D]. *)
Definition toy_outputs : ForkDir := {|
  fd_list d := match d with DGc => Ok ["D"; "B"; "E.plan"]%string | _ => Err NotFound end;
  fd_file d n := match d with DGc => Ok toy_gc_file | _ => Err NotFound end;
  fd_exists _ _ := false;
  fd_wal := Err NotFound;
  fd_wal_file _ := Err NotFound;
  fd_key := Ok toy_verifier
|}.

Definition toy_handoffs (put : Ulid → io unit) : HandoffEnv := mkHandoffEnv toy_outputs (Ok true) put (λ _, true) (λ _, true).

Lemma handoffs_ordered_witness :
  ∃ ops outs, apply_done_handoffs (toy_handoffs (λ _, Ok ())) = (ops, Ok outs) ∧ map ho_output outs = [66; 68] ∧
    ∃ vk, Forall (done_by (toy_handoffs (λ _, Ok ())) vk ops) outs.
Proof.
  assert (match apply_done_handoffs (toy_handoffs (λ _, Ok ())) with (op :: _, Ok outs) => map ho_output outs = [66; 68] | _ => False end) as Hw
    by (vm_compute; reflexivity).
  destruct (apply_done_handoffs (toy_handoffs (λ _, Ok ()))) as [ops [outs|]] eqn:E; [|destruct ops; destruct Hw].
  exists ops, outs. split; [reflexivity|]. split; [destruct ops; [destruct Hw|exact Hw]|].
  destruct (handoffs_ordered (toy_handoffs (λ _, Ok ())) ops (Ok outs) E) as [Hnil|(vk & _ & _ & H)].
  - exfalso. rewrite Hnil in Hw. destruct Hw.
  - exists vk. by apply H.
Defined.

(** An error loses what the tick has finished before it: [B] is dropped by the
    volume, and its inputs' edges are reported to nobody. *)
Lemma failed_upload_loses_outcomes :
  match apply_done_handoffs (toy_handoffs (λ u, if decide (u = 68) then Err OtherError else Ok ())) with
  | (ops, r) => FinalizeHandoff 66 ∈ ops ∧ r = Err OtherError
  end.
Proof.
  assert (match apply_done_handoffs (toy_handoffs (λ u, if decide (u = 68) then Err OtherError else Ok ())) with
          | (ops, Err OtherError) => last ops = Some (FinalizeHandoff 66)
          | _ => False
          end) as Hw by (vm_compute; reflexivity).
  destruct (apply_done_handoffs _) as [ops [|[]]]; try contradiction. split; [|done].
  apply last_Some in Hw as (l & ->). apply elem_of_app. right. by left.
Qed.
