(* ===== verification/Crockford.v ===== *)
(** * The text of a ULID

    Crockford's base 32, 26 digits: an instance of the text the models take as a
    parameter, with its laws. *)

From Stdlib Require Import Ascii String.
From stdpp Require Import base list strings.
From S2P Require Import Prelude Text.
Open Scope Z_scope.

(** Crockford's base 32, most significant digit first. *)
Definition ALPHABET : list ascii := list_ascii_of_string "0123456789ABCDEFGHJKMNPQRSTVWXYZ".
Definition sym (d : Z) : ascii := nth (Z.to_nat d) ALPHABET "0"%char.
Definition sym_value (c : ascii) : option Z := (λ p, Z.of_nat p.1) <$> list_find (λ a, a = c) ALPHABET.

Fixpoint base32 (k : nat) (n : Z) : string :=
  match k with O => EmptyString | S k => String (sym (n / 32 ^ Z.of_nat k)) (base32 k (n mod 32 ^ Z.of_nat k)) end.
Fixpoint read32 (acc : Z) (s : string) : option Z :=
  match s with EmptyString => Some acc | String c s => v ← sym_value c; read32 (acc * 32 + v) s end.

Definition crockford : UlidText := {|
  ulid_to_string u := base32 26 (u mod U128);
  ulid_from_string s :=
    if decide (String.length s = 26%nat) then
      u ← read32 0 s; if decide (0 ≤ u < U128) then Some u else None
    else None |}.

Lemma digit_cases (P : Z → Prop) : (∀ n : nat, (n < 32)%nat → P (Z.of_nat n)) → ∀ d, 0 ≤ d < 32 → P d.
Proof. intros H d Hd. rewrite <-(Z2Nat.id d) by lia. apply H. lia. Qed.

Lemma sym_value_sym d : 0 ≤ d < 32 → sym_value (sym d) = Some d.
Proof.
  revert d. apply digit_cases. intros n Hn.
  assert (forallb (λ n, bool_decide (sym_value (sym (Z.of_nat n)) = Some (Z.of_nat n))) (seq 0 32) = true) as H by by vm_compute.
  rewrite forallb_forall in H. specialize (H n ltac:(apply in_seq; lia)). by apply bool_decide_eq_true in H.
Qed.

Lemma alphabet_alnum c : c ∈ ALPHABET → alnum c = true.
Proof.
  assert (forallb alnum ALPHABET = true) as H by by vm_compute. rewrite forallb_forall in H.
  intros Hc. apply H. by apply list_elem_of_In.
Qed.

Lemma sym_alnum d : alnum (sym d) = true.
Proof.
  unfold sym. destruct (nth_in_or_default (Z.to_nat d) ALPHABET "0"%char) as [H| ->]; [|done].
  apply alphabet_alnum. by apply list_elem_of_In.
Qed.

Lemma sym_value_alnum c v : sym_value c = Some v → alnum c = true.
Proof.
  unfold sym_value. destruct (list_find _ _) as [[i a]|] eqn:E; [|done]. intros _.
  apply list_find_Some in E as (Hi & <- & _). apply alphabet_alnum. by apply list_elem_of_lookup_2 in Hi.
Qed.

Lemma base32_alnum k n c : has_char c (base32 k n) = true → alnum c = true.
Proof.
  revert n. induction k as [|k IH]; intros n; cbn [base32 has_char]; [done|].
  intros [->%bool_decide_eq_true|H]%orb_true_iff; [apply sym_alnum|by eapply IH].
Qed.

Lemma read32_alnum acc s u c : read32 acc s = Some u → has_char c s = true → alnum c = true.
Proof.
  revert acc. induction s as [|d s IH]; intros acc; cbn [read32 has_char]; [done|].
  destruct (sym_value d) eqn:Hd; [|done]. cbn. intros Hr [->%bool_decide_eq_true|H]%orb_true_iff;
    [by eapply sym_value_alnum|by eapply IH].
Qed.

Lemma length_base32 k n : String.length (base32 k n) = k.
Proof. revert n. induction k as [|k IH]; intros n; cbn; [done|]. by rewrite IH. Qed.

Lemma digit_split k n : 0 ≤ n < 32 ^ Z.of_nat (S k) →
  0 ≤ n / 32 ^ Z.of_nat k < 32 ∧ 0 ≤ n mod 32 ^ Z.of_nat k < 32 ^ Z.of_nat k ∧
  n = n / 32 ^ Z.of_nat k * 32 ^ Z.of_nat k + n mod 32 ^ Z.of_nat k.
Proof.
  intros Hn. rewrite Nat2Z.inj_succ, Z.pow_succ_r in Hn by lia.
  assert (0 < 32 ^ Z.of_nat k) by lia. split_and!.
  - apply Z.div_pos; lia.
  - apply Z.div_lt_upper_bound; lia.
  - by apply Z.mod_pos_bound.
  - by apply Z.mod_pos_bound.
  - pose proof (Z.div_mod n (32 ^ Z.of_nat k) ltac:(lia)). lia.
Qed.

Lemma read_base32 k n acc : 0 ≤ n < 32 ^ Z.of_nat k → read32 acc (base32 k n) = Some (acc * 32 ^ Z.of_nat k + n).
Proof.
  revert n acc. induction k as [|k IH]; intros n acc Hn.
  - cbn in *. f_equal. lia.
  - destruct (digit_split k n Hn) as (Hd & Hr & He). cbn [base32 read32]. rewrite sym_value_sym by done.
    cbn [mbind option_bind]. rewrite IH by done. f_equal. rewrite Nat2Z.inj_succ, Z.pow_succ_r by lia. lia.
Qed.

Lemma sym_compare a b : 0 ≤ a < 32 → 0 ≤ b < 32 → Ascii.compare (sym a) (sym b) = (a ?= b).
Proof.
  intros Ha. revert b. apply digit_cases. intros m Hm. revert a Ha. apply digit_cases. intros n Hn.
  assert (forallb (λ n, forallb (λ m, bool_decide (Ascii.compare (sym (Z.of_nat n)) (sym (Z.of_nat m)) = (Z.of_nat n ?= Z.of_nat m)))
    (seq 0 32)) (seq 0 32) = true) as H by by vm_compute.
  rewrite forallb_forall in H. specialize (H n ltac:(apply in_seq; lia)). rewrite forallb_forall in H.
  specialize (H m ltac:(apply in_seq; lia)). by apply bool_decide_eq_true in H.
Qed.

Lemma base32_compare k a b : 0 ≤ a < 32 ^ Z.of_nat k → 0 ≤ b < 32 ^ Z.of_nat k →
  String.compare (base32 k a) (base32 k b) = (a ?= b).
Proof.
  revert a b. induction k as [|k IH]; intros a b Ha Hb.
  - cbn in *. by replace a with b by lia; rewrite Z.compare_refl.
  - destruct (digit_split k a Ha) as (Hd & Hr & He), (digit_split k b Hb) as (Hd' & Hr' & He').
    cbn [base32 String.compare]. rewrite sym_compare, IH by done.
    set (p := 32 ^ Z.of_nat k) in *. set (x := a / p) in *. set (y := b / p) in *.
    set (r := a mod p) in *. set (q := b mod p) in *. clearbody p x y r q. subst a b.
    destruct (Z.compare_spec x y) as [->|Hlt|Hgt].
    + destruct (Z.compare_spec r q), (Z.compare_spec (y * p + r) (y * p + q)); try done; lia.
    + symmetry. apply Z.compare_lt_iff. nia.
    + symmetry. apply Z.compare_gt_iff. nia.
Qed.

Lemma u128_32 u : 0 ≤ u < U128 → u mod U128 = u ∧ 0 ≤ u < 32 ^ 26.
Proof. unfold U128. intros Hu. split; [by apply Z.mod_small|lia]. Qed.

#[export] Instance crockford_laws : UlidTextLaws crockford.
Proof.
  split; cbn [ulid_to_string ulid_from_string crockford].
  - intros u Hu. rewrite length_base32, decide_True by done. destruct (u128_32 u Hu) as [-> Hr].
    rewrite read_base32 by done. cbn [mbind option_bind]. rewrite Z.mul_0_l, Z.add_0_l. by rewrite decide_True.
  - intros u c Hc. apply not_alnum; [intros d; apply base32_alnum|]. by destruct Hc as [->|[->| ->]].
  - intros u He. pose proof (length_base32 26 (u mod U128)) as Hl. by rewrite He in Hl.
  - intros s u. case_decide; [|done]. destruct (read32 0 s); [|done]. cbn. case_decide; [|done]. by intros [= <-].
Qed.

#[export] Instance crockford_chars : UlidCharLaws crockford.
Proof.
  split; cbn [ulid_to_string ulid_from_string crockford].
  - intros u c. apply base32_alnum.
  - intros s u c. case_decide; [|done]. destruct (read32 0 s) eqn:E; [|done]. intros _. by eapply read32_alnum.
  - intros u. apply length_base32.
  - intros s u. by case_decide.
  - intros a b Ha Hb. destruct (u128_32 a Ha) as [-> Ha'], (u128_32 b Hb) as [-> Hb'].
    unfold String.le, String.leb. rewrite base32_compare by done. unfold Z.le. destruct (a ?= b); cbn; naive_solver.
Qed.
