(* ===== verification/Provenance.v ===== *)
(** * Provenance and snapshot manifests (elide-core/src/signing.rs)

    A volume's lineage and a snapshot's segment list are small signed text files.
    Their text forms, the messages their signatures cover, and the readers that
    check both.  Keys and signatures are those of a signature scheme outside the
    source; a directory is what reading its files gives. *)

From Stdlib Require Import Ascii String.
From stdpp Require Import base list sorting strings.
From S2P Require Import Prelude Bytes Text.
Open Scope Z_scope.

(** [ed25519_dalek]: a verifying key is its 32 bytes, [vk_valid] what
    [VerifyingKey::from_bytes] accepts, [vk_verify] the check of a signature. *)
Class Ed25519 := {
  vk_valid : list Z → bool;
  vk_verify : list Z → list Z → list Z → bool;
  sk_public : list Z → list Z;
  sk_sign : list Z → list Z → list Z
}.

(** ** Code that may panic *)

Inductive panics (A : Type) := Done (r : io A) | Panic.
Arguments Done {A} r.
Arguments Panic {A}.

#[export] Instance panics_ret : MRet panics := λ A a, Done (Ok a).
#[export] Instance panics_bind : MBind panics :=
  λ A B f r, match r with Done (Ok a) => f a | Done (Err e) => Done (Err e) | Panic => Panic end.

Definition other {A} : panics A := Done (Err OtherError).
Definition or_other {A} (o : option A) : panics A := match o with Some a => mret a | None => other end.

(** ** Hexadecimal *)

Definition str_bytes (s : string) : list Z := map byte_of (list_ascii_of_string s).

Definition hex_digit (d : Z) : ascii := ascii_of_nat (Z.to_nat (if decide (d < 10) then 48 + d else 87 + d)).
Fixpoint encode_hex (bytes : list Z) : string :=
  match bytes with
  | [] => EmptyString
  | b :: bytes => String (hex_digit (b / 16)) (String (hex_digit (b mod 16)) (encode_hex bytes))
  end.

(** [to_digit(16)]: either case. *)
Definition hex_value (c : ascii) : option Z :=
  let n := byte_of c in
  if decide (48 ≤ n ≤ 57) then Some (n - 48)
  else if decide (97 ≤ n ≤ 102) then Some (n - 87)
  else if decide (65 ≤ n ≤ 70) then Some (n - 55)
  else None.

(** [u8::from_str_radix] of two characters: a leading plus sign is allowed. *)
Definition hex_pair (a b : ascii) : option Z :=
  if decide (a = "+"%char) then hex_value b
  else x ← hex_value a; y ← hex_value b; Some (x * 16 + y).

(** [str::is_char_boundary] before a character's first byte. *)
Definition boundary (s : string) : bool :=
  match s with EmptyString => true | String c _ => negb (bool_decide (128 ≤ byte_of c < 192)) end.

(** The pairs in order; the slice of one that cuts a character panics, an
    earlier pair that is no number ends the loop first. *)
Fixpoint decode_pairs (s : string) : panics (list Z) :=
  match s with
  | String a (String b rest) =>
      if boundary s && boundary rest then
        match hex_pair a b with
        | None => other
        | Some v => vs ← decode_pairs rest; mret (v :: vs)
        end
      else Panic
  | _ => mret []
  end.

Definition decode_hex (s : string) : panics (list Z) :=
  if Nat.even (String.length s) then decode_pairs s else other.

(** ** Snapshot file names *)

Definition SNAPSHOT_MANIFEST_SUFFIX : string := ".manifest".
Definition STOP_SNAPSHOT_MANIFEST_SUFFIX : string := "-stop.manifest".
Definition VOLUME_KEY_FILE : string := "volume.key".
Definition VOLUME_PUB_FILE : string := "volume.pub".
Definition VOLUME_PROVENANCE_FILE : string := "volume.provenance".

Inductive SnapshotKind := User | Stop.

Definition suffix (k : SnapshotKind) : string :=
  match k with User => SNAPSHOT_MANIFEST_SUFFIX | Stop => STOP_SNAPSHOT_MANIFEST_SUFFIX end.

Section names.
Context {HT : UlidText}.

Definition parse_snapshot_filename (name : string) : option (Ulid * SnapshotKind) :=
  match strip_suffix STOP_SNAPSHOT_MANIFEST_SUFFIX name with
  | Some stem => u ← ulid_from_string stem; Some (u, Stop)
  | None =>
      match strip_suffix SNAPSHOT_MANIFEST_SUFFIX name with
      | Some stem => u ← ulid_from_string stem; Some (u, User)
      | None => None
      end
  end.

Definition snapshot_manifest_filename (snap : Ulid) : string := ulid_to_string snap +:+ SNAPSHOT_MANIFEST_SUFFIX.
Definition stop_snapshot_manifest_filename (snap : Ulid) : string :=
  ulid_to_string snap +:+ STOP_SNAPSHOT_MANIFEST_SUFFIX.
End names.

(** ** Lineage *)

Record ParentRef := mkParentRef { volume_ulid : string; snapshot_ulid : string; pubkey : list Z }.

Record OciSource := mkOciSource { oci_image : string; oci_digest : string; oci_arch : string }.

Inductive ProvenanceLineage :=
  | Root (extent : list string) (oci : option OciSource)
  | Fork (p : ParentRef) (extent : list string)
  | Recovering (p : option ParentRef) (extent : list string) (sources : list Ulid).

#[export] Instance ParentRef_eq_dec : EqDecision ParentRef.
Proof. solve_decision. Defined.
#[export] Instance OciSource_eq_dec : EqDecision OciSource.
Proof. solve_decision. Defined.
#[export] Instance ProvenanceLineage_eq_dec : EqDecision ProvenanceLineage.
Proof. solve_decision. Defined.

Definition SLASH : ascii := "/"%char.
Definition to_display (p : ParentRef) : string := volume_ulid p +:+ String SLASH (snapshot_ulid p).

Definition root : ProvenanceLineage := Root [] None.
Definition fork (p : ParentRef) : ProvenanceLineage := Fork p [].

Definition steady (p : option ParentRef) (extent : list string) : ProvenanceLineage :=
  match p with Some p => Fork p extent | None => Root extent None end.

Definition from_parts (p : option ParentRef) (extent : list string) (sources : list Ulid) : ProvenanceLineage :=
  match sources with [] => steady p extent | _ => Recovering p extent sources end.

Definition parent (l : ProvenanceLineage) : option ParentRef :=
  match l with Fork p _ => Some p | Recovering p _ _ => p | Root _ _ => None end.
Definition extent_index (l : ProvenanceLineage) : list string :=
  match l with Root e _ | Fork _ e | Recovering _ e _ => e end.
Definition oci_source (l : ProvenanceLineage) : option OciSource :=
  match l with Root _ o => o | _ => None end.
Definition recovery_sources (l : ProvenanceLineage) : list Ulid :=
  match l with Recovering _ _ r => r | _ => [] end.
Definition cleared_recovery (l : ProvenanceLineage) : ProvenanceLineage :=
  match l with Recovering p e _ => steady p e | l => l end.

(** ** What the signature covers *)

Definition PROVENANCE_RECOVERY_SOURCES_DOMAIN : string := "elide-recovery-sources-v1".

Definition parent_text (l : ProvenanceLineage) : string :=
  match parent l with Some p => to_display p | None => EmptyString end.
Definition pubkey_text (l : ProvenanceLineage) : string :=
  match parent l with Some p => encode_hex (pubkey p) | None => EmptyString end.

Definition oci_fields (o : option OciSource) : list string :=
  match o with Some s => [oci_image s; oci_digest s; oci_arch s] | None => [] end.

(** Fields joined by NULs. *)
Definition nul_join (fields : list string) : list Z :=
  match fields with [] => [] | f :: fs => str_bytes f ++ concat (map (λ f, 0 :: str_bytes f) fs) end.

Section signing.
Context {HT : UlidText}.

Definition recovery_fields (sources : list Ulid) : list string :=
  match sources with [] => [] | _ => PROVENANCE_RECOVERY_SOURCES_DOMAIN :: map ulid_to_string sources end.

Definition provenance_fields (l : ProvenanceLineage) : list string :=
  parent_text l :: pubkey_text l :: extent_index l ++ oci_fields (oci_source l) ++ recovery_fields (recovery_sources l).

Definition provenance_signing_input (l : ProvenanceLineage) : list Z := nul_join (provenance_fields l).

Definition indent (s : string) : string := "  " +:+ s.

Definition provenance_lines (l : ProvenanceLineage) (sig : list Z) : list string :=
  ("parent: " +:+ parent_text l) :: ("parent_pubkey: " +:+ pubkey_text l) :: "extent_index:"%string ::
  map indent (extent_index l) ++
  match oci_source l with
  | Some s => ["oci_image: " +:+ oci_image s; "oci_digest: " +:+ oci_digest s; "oci_arch: " +:+ oci_arch s]
  | None => []
  end ++
  match recovery_sources l with [] => [] | r => "recovery_sources:"%string :: map (λ u, indent (ulid_to_string u)) r end ++
  ["sig: " +:+ encode_hex sig].

(** Lines with their ends. *)
Definition text_of (ls : list string) : string := foldr (λ l acc, l +:+ String LF acc) EmptyString ls.

Definition serialize_provenance (l : ProvenanceLineage) (sig : list Z) : string := text_of (provenance_lines l sig).

(** ** Parsing a provenance *)

(** What the lines read so far have set. *)
Record Fields := mkFields {
  f_parent : option (option string);
  f_pubkey : option (option string);
  f_extent : option (list string);
  f_image : option string;
  f_digest : option string;
  f_arch : option string;
  f_sig : option (list Z);
  f_recovery : list Ulid
}.

Definition nonempty (v : string) : option string := match v with EmptyString => None | _ => Some v end.

(** The indented lines at the front. *)
Fixpoint take_indented (ls : list string) : list string * list string :=
  match ls with
  | [] => ([], [])
  | l :: rest =>
      match strip_prefix "  " l with
      | Some entry => let '(es, rest) := take_indented rest in (entry :: es, rest)
      | None => ([], ls)
      end
  end.

Fixpoint take_ulids (ls : list string) : panics (list Ulid * list string) :=
  match ls with
  | [] => mret ([], [])
  | l :: rest =>
      match strip_prefix "  " l with
      | Some entry =>
          u ← or_other (ulid_from_string entry);
          '(us, rest) ← take_ulids rest;
          mret (u :: us, rest)
      | None => mret ([], ls)
      end
  end.

Definition set_parent (v : string) (f : Fields) : Fields :=
  mkFields (Some (nonempty v)) (f_pubkey f) (f_extent f) (f_image f) (f_digest f) (f_arch f) (f_sig f) (f_recovery f).
Definition set_pubkey (v : string) (f : Fields) : Fields :=
  mkFields (f_parent f) (Some (nonempty v)) (f_extent f) (f_image f) (f_digest f) (f_arch f) (f_sig f) (f_recovery f).
Definition set_extent (es : list string) (f : Fields) : Fields :=
  mkFields (f_parent f) (f_pubkey f) (Some es) (f_image f) (f_digest f) (f_arch f) (f_sig f) (f_recovery f).
Definition set_image (v : string) (f : Fields) : Fields :=
  mkFields (f_parent f) (f_pubkey f) (f_extent f) (Some v) (f_digest f) (f_arch f) (f_sig f) (f_recovery f).
Definition set_digest (v : string) (f : Fields) : Fields :=
  mkFields (f_parent f) (f_pubkey f) (f_extent f) (f_image f) (Some v) (f_arch f) (f_sig f) (f_recovery f).
Definition set_arch (v : string) (f : Fields) : Fields :=
  mkFields (f_parent f) (f_pubkey f) (f_extent f) (f_image f) (f_digest f) (Some v) (f_sig f) (f_recovery f).
Definition set_sig (v : list Z) (f : Fields) : Fields :=
  mkFields (f_parent f) (f_pubkey f) (f_extent f) (f_image f) (f_digest f) (f_arch f) (Some v) (f_recovery f).
Definition add_recovery (us : list Ulid) (f : Fields) : Fields :=
  mkFields (f_parent f) (f_pubkey f) (f_extent f) (f_image f) (f_digest f) (f_arch f) (f_sig f) (f_recovery f ++ us).

(** A line and, for a section's header, the lines it takes; a line that is none
    of these is skipped. *)
Definition parse_line (l : string) (rest : list string) (f : Fields) : panics (Fields * list string) :=
  match strip_prefix "oci_image: " l with
  | Some v => mret (set_image v f, rest)
  | None => match strip_prefix "oci_digest: " l with
  | Some v => mret (set_digest v f, rest)
  | None => match strip_prefix "oci_arch: " l with
  | Some v => mret (set_arch v f, rest)
  | None => match strip_prefix "parent_pubkey: " l with
  | Some v => mret (set_pubkey v f, rest)
  | None => match strip_prefix "parent_pubkey:" l with
  | Some s => mret (match s with EmptyString => set_pubkey EmptyString f | _ => f end, rest)
  | None => match strip_prefix "parent: " l with
  | Some v => mret (set_parent v f, rest)
  | None => match strip_prefix "parent:" l with
  | Some s => mret (match s with EmptyString => set_parent EmptyString f | _ => f end, rest)
  | None =>
      if decide (l = "extent_index:"%string) then
        let '(es, rest) := take_indented rest in mret (set_extent es f, rest)
      else if decide (l = "recovery_sources:"%string) then
        '(us, rest) ← take_ulids rest; mret (add_recovery us f, rest)
      else match strip_prefix "sig: " l with
           | Some v => sig ← decode_hex v; mret (set_sig sig f, rest)
           | None => mret (f, rest)
           end
  end end end end end end end.

(** Every round takes a line, so the number of lines is fuel enough. *)
Fixpoint parse_lines (fuel : nat) (ls : list string) (f : Fields) : panics Fields :=
  match fuel, ls with
  | _, [] => mret f
  | O, _ => other
  | S fuel, l :: rest => '(f, rest) ← parse_line l rest f; parse_lines fuel rest f
  end.

(** [split_once]. *)
Fixpoint split_once (sep : ascii) (s : string) : option (string * string) :=
  match s with
  | EmptyString => None
  | String c s =>
      if decide (c = sep) then Some (EmptyString, s)
      else '(a, b) ← split_once sep s; Some (String c a, b)
  end.

Definition parse_parent (s hex : string) : panics ParentRef :=
  '(v, n) ← or_other (split_once SLASH s);
  vu ← or_other (ulid_from_string v);
  su ← or_other (ulid_from_string n);
  key ← decode_hex hex;
  if decide (length key = 32%nat) then mret (mkParentRef (ulid_to_string vu) (ulid_to_string su) key) else other.

Definition finish_lineage (p : option ParentRef) (es : list string) (o : option OciSource) (rs : list Ulid)
    : panics ProvenanceLineage :=
  match rs with
  | _ :: _ => match o with Some _ => other | None => mret (Recovering p es rs) end
  | [] =>
      match p with
      | Some p => match o with Some _ => other | None => mret (Fork p es) end
      | None => mret (Root es o)
      end
  end.

Definition finish_provenance (f : Fields) : panics (ProvenanceLineage * list Z) :=
  p ← or_other (f_parent f);
  k ← or_other (f_pubkey f);
  es ← or_other (f_extent f);
  sig ← or_other (f_sig f);
  p ← match p, k with
      | None, None => mret None
      | Some s, Some hex => p ← parse_parent s hex; mret (Some p)
      | _, _ => other
      end;
  o ← match f_image f, f_digest f, f_arch f with
      | None, None, None => mret None
      | Some i, Some d, Some a => mret (Some (mkOciSource i d a))
      | _, _, _ => other
      end;
  l ← finish_lineage p es o (f_recovery f);
  mret (l, sig).

Definition parse_provenance (content : string) : panics (ProvenanceLineage * list Z) :=
  let ls := lines content in
  f ← parse_lines (length ls) ls (mkFields None None None None None None None []);
  finish_provenance f.
End signing.

(** ** Signing and verifying a provenance *)

Section provenance.
Context {HT : UlidText} {HE : Ed25519}.

Definition sign_provenance (key : list Z) (l : ProvenanceLineage) : list Z :=
  sk_sign key (provenance_signing_input l).

(** The file [write_provenance] writes. *)
Definition write_provenance (key : list Z) (l : ProvenanceLineage) : string :=
  serialize_provenance l (sign_provenance key l).

Definition verify_lineage_with_key (content : string) (vk : list Z) : panics ProvenanceLineage :=
  '(l, sig) ← parse_provenance content;
  if decide (length sig = 64%nat) then
    if vk_verify vk (provenance_signing_input l) sig then mret l else other
  else other.
End provenance.

(** ** Possession proofs *)

Definition VOLUME_POSSESSION_DOMAIN : string := "elide-volume-possession-v1".

Section possession.
Context {HB : Blake3} {HT : UlidText} {HE : Ed25519}.

Definition possession_fields (owned target : Ulid) (cid : list Z) (ts : Z) (nonce : list Z) : list string :=
  [VOLUME_POSSESSION_DOMAIN; ulid_to_string owned; ulid_to_string target; encode_hex (blake3 cid); dec ts; encode_hex nonce].

Definition volume_possession_signing_input (owned target : Ulid) (cid : list Z) (ts : Z) (nonce : list Z) : list Z :=
  nul_join (possession_fields owned target cid ts nonce).

Definition sign_volume_possession (sign : list Z → list Z) (owned target : Ulid) (cid : list Z) (ts : Z) (nonce : list Z)
    : list Z := sign (volume_possession_signing_input owned target cid ts nonce).

Definition verify_volume_possession (owned_pub : list Z) (owned target : Ulid) (cid : list Z) (ts : Z) (nonce proof : list Z)
    : io unit :=
  if vk_verify owned_pub (volume_possession_signing_input owned target cid ts nonce) proof then Ok tt else Err OtherError.

(** ** Key files *)

Definition signer_from_bytes (bytes : list Z) : io (list Z * list Z) :=
  if decide (length bytes = 32%nat) then Ok (bytes, sk_public bytes) else Err OtherError.

(** [key]: what reading the key file gives; the pair is the signing key and the
    verifying key derived from it. *)
Definition load_keypair (key : io (list Z)) : io (list Z * list Z) :=
  match key with Ok bytes => signer_from_bytes bytes | Err _ => Err OtherError end.
Definition load_signer (key : io (list Z)) : io (list Z) := '(k, _) ← load_keypair key; Ok k.

(** The two files [generate_keypair] writes for the key drawn. *)
Definition generate_keypair (key : list Z) : list Z * string := (key, encode_hex (sk_public key) +:+ String LF EmptyString).
End possession.

(** ** Snapshot manifests *)

Section manifest.
Context {HT : UlidText} {HE : Ed25519}.

Definition manifest_signing_input (entries : list string) : list Z := nul_join entries.

Definition manifest_lines (entries : list string) (sig : list Z) : list string :=
  "segments:"%string :: map indent entries ++ ["sig: " +:+ encode_hex sig].
Definition serialize_snapshot_manifest (entries : list string) (sig : list Z) : string :=
  text_of (manifest_lines entries sig).

(** [sort] and [dedup] on strings; [dedup] removes consecutive duplicates. *)
Fixpoint dedup (l : list string) : list string :=
  match l with
  | [] => []
  | a :: l => match dedup l with
              | [] => [a]
              | b :: m => if decide (a = b) then b :: m else a :: b :: m
              end
  end.
Definition sorted_texts (us : list Ulid) : list string := dedup (merge_sort String.le (map ulid_to_string us)).

(** [sign]: the volume's signer. *)
Definition build_snapshot_manifest_bytes (sign : list Z → list Z) (us : list Ulid) : string :=
  let sorted := sorted_texts us in
  serialize_snapshot_manifest sorted (sign (manifest_signing_input sorted)).

Fixpoint parse_manifest_lines (fuel : nat) (ls : list string) (entries : option (list string)) (sig : option (list Z))
    : panics (option (list string) * option (list Z)) :=
  match fuel, ls with
  | _, [] => mret (entries, sig)
  | O, _ => other
  | S fuel, l :: rest =>
      if decide (l = "segments:"%string) then
        let '(es, rest) := take_indented rest in parse_manifest_lines fuel rest (Some es) sig
      else match strip_prefix "sig: " l with
           | Some v => s ← decode_hex v; parse_manifest_lines fuel rest entries (Some s)
           | None => parse_manifest_lines fuel rest entries sig
           end
  end.

Definition parse_snapshot_manifest (content : string) : panics (list string * list Z) :=
  let ls := lines content in
  '(entries, sig) ← parse_manifest_lines (length ls) ls None None;
  entries ← or_other entries;
  sig ← or_other sig;
  mret (entries, sig).

(** The entries as ULIDs, each above the one before. *)
Fixpoint ascending_ulids (prev : option Ulid) (entries : list string) : panics (list Ulid) :=
  match entries with
  | [] => mret []
  | e :: es =>
      u ← or_other (ulid_from_string e);
      if match prev with Some p => bool_decide (u ≤ p) | None => false end then other
      else us ← ascending_ulids (Some u) es; mret (u :: us)
  end.

Definition read_snapshot_manifest_from_bytes (content : string) (vk : list Z) : panics (list Ulid) :=
  '(entries, sig) ← parse_snapshot_manifest content;
  if decide (length sig = 64%nat) then
    if vk_verify vk (manifest_signing_input entries) sig then ascending_ulids None entries else other
  else other.
End manifest.

(** ** Volume directories *)

(** [dir.exists()], and by relative path [exists()] and [read_to_string]. *)
Record VolumeDir := mkVolumeDir {
  vd_there : bool;
  vd_exists : string → bool;
  vd_read : string → io string
}.

(** [char::is_whitespace], as UTF-8. *)
Definition utf8 (bytes : list nat) : string := string_of_list_ascii (map ascii_of_nat bytes).
Definition WHITESPACE : list string :=
  map utf8 ([[9]; [10]; [11]; [12]; [13]; [32]; [194; 133]; [194; 160]; [225; 154; 128]]
            ++ map (λ n, [226; 128; n]) (seq 128 11)
            ++ [[226; 128; 168]; [226; 128; 169]; [226; 128; 175]; [226; 129; 159]; [227; 128; 128]])%nat.

Fixpoint trim_loop (fuel : nat) (strip : string → string → option string) (s : string) : string :=
  match fuel with
  | O => s
  | S fuel => match head (omap (λ w, strip w s) WHITESPACE) with Some r => trim_loop fuel strip r | None => s end
  end.

(** [str::trim]; every round removes a byte at least. *)
Definition trim_whitespace (s : string) : string :=
  let a := trim_loop (String.length s) strip_prefix s in trim_loop (String.length a) strip_suffix a.

Section dirs.
Context {HT : UlidText} {HE : Ed25519}.

Definition read_other (d : VolumeDir) (file : string) : panics string :=
  match vd_read d file with Ok s => mret s | Err _ => other end.

Definition load_verifying_key (d : VolumeDir) (pub_file : string) : panics (list Z) :=
  hex ← read_other d pub_file;
  bytes ← decode_hex (trim_whitespace hex);
  if decide (length bytes = 32%nat) then if vk_valid bytes then mret bytes else other else other.

Definition read_lineage_with_key (d : VolumeDir) (vk : list Z) (file : string) : panics ProvenanceLineage :=
  content ← read_other d file;
  verify_lineage_with_key content vk.

Definition read_lineage_verifying_signature (d : VolumeDir) (pub_file file : string) : panics ProvenanceLineage :=
  vk ← load_verifying_key d pub_file;
  read_lineage_with_key d vk file.

Definition in_snapshots (file : string) : string := "snapshots/" +:+ file.

(** The stable name first, the stop variant when that is absent. *)
Definition read_snapshot_manifest (d : VolumeDir) (vk : list Z) (snap : Ulid) : panics (list Ulid) :=
  content ← match vd_read d (in_snapshots (snapshot_manifest_filename snap)) with
            | Ok c => mret c
            | Err NotFound => read_other d (in_snapshots (stop_snapshot_manifest_filename snap))
            | Err _ => other
            end;
  read_snapshot_manifest_from_bytes content vk.
End dirs.
