(* ===== verification/ProvenanceSpec.v ===== *)
(** * Signed lineage: round trips and what a signature binds

    What the writers write reads back verified; and a message determines the
    lineage or the segment list it was made from, up to one case the code leaves
    open ([oci_not_bound]). *)

From Stdlib Require Import Ascii String.
From stdpp Require Import base list sorting strings.
From S2P Require Import Prelude Bytes Text Crockford Provenance.
Open Scope Z_scope.

(** The documented laws of the signature scheme. *)
Class Ed25519Laws (HE : Ed25519) := {
  public_ok key : length (sk_public key) = 32%nat ∧ bytes_ok (sk_public key) ∧ vk_valid (sk_public key) = true;
  sign_ok key msg : length (sk_sign key msg) = 64%nat ∧ bytes_ok (sk_sign key msg);
  sign_verifies key msg : vk_verify (sk_public key) msg (sk_sign key msg) = true
}.

(** ** Hexadecimal *)

Lemma byte_of_ascii n : 0 ≤ n < 256 → byte_of (ascii_of_nat (Z.to_nat n)) = n.
Proof. intros Hn. unfold byte_of. rewrite nat_ascii_embedding; lia. Qed.

Lemma byte_of_range c : 0 ≤ byte_of c < 256.
Proof. unfold byte_of. pose proof (nat_ascii_bounded c). lia. Qed.

Lemma byte_of_inj c d : byte_of c = byte_of d → c = d.
Proof. unfold byte_of. intros H%Nat2Z.inj. by rewrite <-(ascii_nat_embedding c), H, ascii_nat_embedding. Qed.

Lemma hex_digit_byte d : 0 ≤ d < 16 → byte_of (hex_digit d) = if decide (d < 10) then 48 + d else 87 + d.
Proof. intros Hd. unfold hex_digit. destruct (decide (d < 10)); apply byte_of_ascii; lia. Qed.

Lemma hex_value_digit d : 0 ≤ d < 16 → hex_value (hex_digit d) = Some d.
Proof.
  intros Hd. unfold hex_value. rewrite hex_digit_byte by done. destruct (decide (d < 10)).
  - rewrite decide_True by lia. f_equal. lia.
  - rewrite decide_False, decide_True by lia. f_equal. lia.
Qed.

Lemma hex_digit_not_plus d : 0 ≤ d < 16 → hex_digit d ≠ "+"%char.
Proof. intros Hd He. pose proof (hex_digit_byte d Hd) as Hb. rewrite He in Hb. change (byte_of "+") with 43 in Hb. destruct (decide (d < 10)); lia. Qed.

Lemma boundary_digit d s : 0 ≤ d < 16 → boundary (String (hex_digit d) s) = true.
Proof.
  intros Hd. unfold boundary. rewrite hex_digit_byte by done. rewrite bool_decide_eq_false_2; [done|]. destruct (decide (d < 10)); lia.
Qed.

Lemma boundary_hex bs : bytes_ok bs → boundary (encode_hex bs) = true.
Proof.
  destruct 1 as [|b bs Hb _]; [done|]. cbn [encode_hex]. apply boundary_digit.
  unfold byte_ok in Hb. split; [apply Z.div_pos; lia|apply Z.div_lt_upper_bound; lia].
Qed.

Lemma decode_encode_hex bs : bytes_ok bs → decode_hex (encode_hex bs) = Done (Ok bs).
Proof.
  unfold decode_hex. intros Hok.
  assert (Nat.even (String.length (encode_hex bs)) = true) as -> by (clear Hok; by induction bs as [|b bs IH]).
  induction Hok as [|b bs Hb Hok IH]; [done|]. unfold byte_ok in Hb. cbn [encode_hex decode_pairs].
  pose proof (Z.mod_pos_bound b 16 ltac:(lia)). assert (0 ≤ b / 16 < 16) as Hd
    by (split; [apply Z.div_pos; lia|apply Z.div_lt_upper_bound; lia]).
  rewrite boundary_digit, boundary_hex by done. cbn [andb]. unfold hex_pair.
  rewrite decide_False by (by apply hex_digit_not_plus). rewrite !hex_value_digit by done.
  cbn [mbind option_bind]. rewrite IH. cbn [mbind panics_bind mret panics_ret].
  replace (b / 16 * 16 + b mod 16) with b; [done|]. pose proof (Z.div_mod b 16 ltac:(lia)). lia.
Qed.

(** A text that is one hex string has no other bytes. *)
Lemma encode_hex_inj a b : bytes_ok a → bytes_ok b → encode_hex a = encode_hex b → a = b.
Proof.
  intros Ha Hb He. pose proof (decode_encode_hex a Ha) as Hd. rewrite He, decode_encode_hex in Hd by done. congruence.
Qed.

Lemma hex_digit_alnum d : 0 ≤ d < 16 → alnum (hex_digit d) = true.
Proof.
  intros Hd. unfold alnum. rewrite hex_digit_byte by done. destruct (decide (d < 10)).
  - by rewrite bool_decide_eq_true_2 by lia.
  - by rewrite (bool_decide_eq_true_2 (97 ≤ _ ≤ 122)), !orb_true_r by lia.
Qed.

Lemma hex_alnum bs c : bytes_ok bs → has_char c (encode_hex bs) = true → alnum c = true.
Proof.
  induction 1 as [|b bs Hb _ IH]; [done|]. unfold byte_ok in Hb. cbn [encode_hex has_char].
  pose proof (Z.mod_pos_bound b 16 ltac:(lia)). assert (0 ≤ b / 16 < 16) as Hd
    by (split; [apply Z.div_pos; lia|apply Z.div_lt_upper_bound; lia]).
  intros [->%bool_decide_eq_true|[->%bool_decide_eq_true|?]%orb_true_iff]%orb_true_iff;
    [by apply hex_digit_alnum..|by apply IH].
Qed.

(** ** Characters a text cannot hold *)

Definition NUL : ascii := ascii_of_nat 0.

(** A string with no NUL is the bytes up to the next one. *)
Lemma str_bytes_inj a b : str_bytes a = str_bytes b → a = b.
Proof.
  unfold str_bytes. revert b. induction a as [|c a IH]; intros [|d b]; try done. cbn.
  intros [= ->%byte_of_inj ->%IH]. done.
Qed.

Lemma str_bytes_no_nul s : has_char NUL s = false → 0 ∉ str_bytes s.
Proof.
  unfold str_bytes. induction s as [|c s IH]; [intros _ H; by apply not_elem_of_nil in H|]. cbn.
  intros [Hc%bool_decide_eq_false Hs]%orb_false_iff [He|Hi]%elem_of_cons; [|by apply IH].
  apply Hc. apply byte_of_inj. by rewrite <-He.
Qed.

Lemma nul_split (a b x y : list Z) : 0 ∉ a → 0 ∉ b → a ++ 0 :: x = b ++ 0 :: y → a = b ∧ x = y.
Proof.
  revert b. induction a as [|c a IH]; intros [|d b] Ha Hb; cbn.
  - by intros [= ->].
  - intros [= <- _]. destruct Hb. by left.
  - intros [= -> _]. destruct Ha. by left.
  - intros [= -> H]. apply not_elem_of_cons in Ha as [_ Ha], Hb as [_ Hb]. by destruct (IH b Ha Hb H) as [-> ->].
Qed.

Definition no_nul (s : string) : Prop := has_char NUL s = false.

Lemma nul_tail_inj fs gs : Forall no_nul fs → Forall no_nul gs →
  concat (map (λ f, 0 :: str_bytes f) fs) = concat (map (λ f, 0 :: str_bytes f) gs) → fs = gs.
Proof.
  intros Hf. revert gs. induction Hf as [|f fs Hf Hfs IH]; intros gs Hg He; destruct Hg as [|g gs Hg Hgs]; try done.
  cbn in He. injection He as He.
  assert (f = g ∧ fs = gs) as [-> ->]; [|done].
  destruct fs as [|f' fs], gs as [|g' gs]; cbn in He; rewrite ?app_nil_r in He.
  - by apply str_bytes_inj in He as ->.
  - exfalso. apply (str_bytes_no_nul f Hf). rewrite He. apply elem_of_app. right. by left.
  - exfalso. apply (str_bytes_no_nul g Hg). rewrite <-He. apply elem_of_app. right. by left.
  - apply nul_split in He as [->%str_bytes_inj Ht]; [|by apply str_bytes_no_nul..].
    split; [done|]. apply IH; [done|]. cbn. by rewrite Ht.
Qed.

Lemma nul_join_inj f g fs gs : Forall no_nul (f :: fs) → Forall no_nul (g :: gs) →
  nul_join (f :: fs) = nul_join (g :: gs) → f :: fs = g :: gs.
Proof. intros Hf Hg He. apply nul_tail_inj; [done..|]. cbn in He |- *. by rewrite He. Qed.

(** ** Parsing what was written *)

Section spec.
Context {HT : UlidText} {HL : UlidTextLaws HT} {HC : UlidCharLaws HT}.

Definition u128_ok (u : Ulid) : Prop := 0 ≤ u < U128.

(** What the program's lineages are: a parent named by ULIDs and a key of 32
    bytes, entries and labels on one line, a recovery grant that grants
    something. *)
Definition parent_ok (p : ParentRef) : Prop :=
  (∃ v s, u128_ok v ∧ u128_ok s ∧ volume_ulid p = ulid_to_string v ∧ snapshot_ulid p = ulid_to_string s) ∧
  length (pubkey p) = 32%nat ∧ bytes_ok (pubkey p).

Definition lineage_ok (l : ProvenanceLineage) : Prop :=
  (∀ p, parent l = Some p → parent_ok p) ∧ Forall one_line (extent_index l) ∧
  Forall one_line (oci_fields (oci_source l)) ∧ Forall u128_ok (recovery_sources l) ∧
  match l with Recovering _ _ rs => rs ≠ [] | _ => True end.

Definition closed_by (rest : list string) : Prop :=
  match rest with [] => True | l :: _ => strip_prefix "  " l = None end.

Lemma take_indented_app es rest : closed_by rest → take_indented (map indent es ++ rest) = (es, rest).
Proof.
  intros Hc. induction es as [|e es IH]; cbn [map app take_indented].
  - destruct rest as [|l rest]; [done|]. cbn [take_indented closed_by] in *. by rewrite Hc.
  - unfold indent at 1. by rewrite strip_prefix_app, IH.
Qed.

Lemma take_ulids_app us rest : Forall u128_ok us → closed_by rest →
  take_ulids (map (λ u, indent (ulid_to_string u)) us ++ rest) = Done (Ok (us, rest)).
Proof.
  intros Hu Hc. induction Hu as [|u us Hu _ IH]; cbn [map app take_ulids].
  - destruct rest as [|l rest]; [done|]. cbn [take_ulids closed_by] in *. by rewrite Hc.
  - unfold indent at 1. rewrite strip_prefix_app, ulid_text_back by done. cbn [or_other mbind panics_bind mret panics_ret].
    by rewrite IH.
Qed.

Lemma take_indented_length ls : (length (take_indented ls).2 ≤ length ls)%nat.
Proof.
  induction ls as [|l ls IH]; [done|]. cbn [take_indented]. destruct (strip_prefix "  " l); [|done].
  destruct (take_indented ls). cbn in *. lia.
Qed.

Lemma take_ulids_length ls us rest : take_ulids ls = Done (Ok (us, rest)) → (length rest ≤ length ls)%nat.
Proof.
  revert us rest. induction ls as [|l ls IH]; intros us rest; cbn [take_ulids]; [by intros [= <- <-]|].
  destruct (strip_prefix "  " l) as [e|]; [|by intros [= <- <-]].
  destruct (ulid_from_string e); [|done]. cbn. destruct (take_ulids ls) as [[[vs r]|]|]; [|done..]. cbn.
  intros [= <- <-]. pose proof (IH vs r eq_refl). lia.
Qed.

Lemma parse_line_length l rest f f' rest' :
  parse_line l rest f = Done (Ok (f', rest')) → (length rest' ≤ length rest)%nat.
Proof.
  unfold parse_line. repeat case_match; try (by intros [= <- <-]).
  - intros [= <- <-]. pose proof (take_indented_length rest) as Hl. by rewrite H7 in Hl.
  - destruct (take_ulids rest) as [[[us r]|]|] eqn:Ht; try done. cbn. intros [= <- <-]. by eapply take_ulids_length.
  - destruct (decode_hex _) as [[?|]|]; try done. cbn. by intros [= <- <-].
Qed.

(** With at least a unit a line, the fuel does not matter. *)
Lemma parse_lines_fuel n m ls f :
  (length ls ≤ n)%nat → (length ls ≤ m)%nat → parse_lines n ls f = parse_lines m ls f.
Proof.
  revert m ls f. induction n as [|n IH]; intros m ls f Hn Hm; destruct ls as [|l ls]; cbn in Hn, Hm; try lia; [by destruct m..|].
  destruct m as [|m]; [lia|]. cbn [parse_lines]. destruct (parse_line l ls f) as [[[f' r]|]|] eqn:Hp; try done.
  cbn. apply parse_line_length in Hp. apply IH; lia.
Qed.

Lemma parse_lines_step n l rest f f' rest' :
  parse_line l rest f = Done (Ok (f', rest')) → (length rest ≤ n)%nat →
  parse_lines (S n) (l :: rest) f = parse_lines (length rest') rest' f'.
Proof.
  intros Hp Hn. cbn [parse_lines]. rewrite Hp. cbn. apply parse_line_length in Hp. apply parse_lines_fuel; lia.
Qed.

Lemma parse_extent es rest f : closed_by rest →
  parse_line "extent_index:" (map indent es ++ rest) f = Done (Ok (set_extent es f, rest)).
Proof. intros Hc. unfold parse_line. cbn -[take_indented]. by rewrite take_indented_app. Qed.

Lemma parse_recovery us rest f : Forall u128_ok us → closed_by rest →
  parse_line "recovery_sources:" (map (λ u, indent (ulid_to_string u)) us ++ rest) f
  = Done (Ok (add_recovery us f, rest)).
Proof. intros Hu Hc. unfold parse_line. cbn -[take_ulids]. by rewrite take_ulids_app. Qed.

Lemma parse_sig sig rest f : bytes_ok sig →
  parse_line ("sig: " +:+ encode_hex sig) rest f = Done (Ok (set_sig sig f, rest)).
Proof.
  intros Hs. transitivity (s ← decode_hex (encode_hex sig); mret (M := panics) (set_sig s f, rest)); [done|].
  by rewrite decode_encode_hex.
Qed.

Lemma parse_lines_cons l rest f f' rest' :
  parse_line l rest f = Done (Ok (f', rest')) →
  parse_lines (length (l :: rest)) (l :: rest) f = parse_lines (length rest') rest' f'.
Proof. intros Hp. by apply (parse_lines_step _ _ _ _ _ _ Hp). Qed.

Lemma split_once_app sep a b : has_char sep a = false → split_once sep (a +:+ String sep b) = Some (a, b).
Proof.
  induction a as [|c a IH]; simpl; [by rewrite decide_True|]. intros [Hc%bool_decide_eq_false Ha]%orb_false_iff.
  rewrite decide_False by congruence. by rewrite IH.
Qed.

Lemma ulid_text_without u c : alnum c = false → has_char c (ulid_to_string u) = false.
Proof. apply not_alnum. intros d. apply ulid_text_alnum. Qed.

Lemma hex_without bs c : bytes_ok bs → alnum c = false → has_char c (encode_hex bs) = false.
Proof. intros Hb. apply not_alnum. intros d. by apply hex_alnum. Qed.

Lemma parse_parent_text p : parent_ok p → parse_parent (to_display p) (encode_hex (pubkey p)) = Done (Ok p).
Proof.
  intros ((v & s & Hv & Hs & Ev & Es) & Hlen & Hb). unfold parse_parent, to_display. rewrite Ev, Es.
  rewrite split_once_app by (by apply ulid_text_without). cbn. rewrite !ulid_text_back by done. cbn.
  rewrite decode_encode_hex by done. cbn. rewrite decide_True by done. rewrite <-Ev, <-Es. by destruct p.
Qed.

Lemma display_nonempty p : parent_ok p → nonempty (to_display p) = Some (to_display p).
Proof.
  intros ((v & s & _ & _ & Ev & _) & _). unfold to_display. rewrite Ev.
  destruct (ulid_to_string v) eqn:E; [|done]. by apply ulid_text_nonempty in E.
Qed.

Lemma hex_nonempty p : parent_ok p → nonempty (encode_hex (pubkey p)) = Some (encode_hex (pubkey p)).
Proof. intros (_ & Hlen & _). by destruct (pubkey p). Qed.

Lemma one_line_app a b : one_line a → one_line b → one_line (a +:+ b).
Proof. intros [Ha Ha'] [Hb Hb']. split; rewrite has_char_app; [by rewrite Ha|by rewrite Ha']. Qed.

Lemma ulid_one_line u : one_line (ulid_to_string u).
Proof. split; by apply ulid_text_without. Qed.

Lemma hex_one_line bs : bytes_ok bs → one_line (encode_hex bs).
Proof. intros Hb. split; by apply hex_without. Qed.

Lemma parent_text_one_line l : lineage_ok l → one_line (parent_text l) ∧ one_line (pubkey_text l).
Proof.
  intros (Hp & _). unfold parent_text, pubkey_text. destruct (parent l) as [p|]; [|done].
  destruct (Hp p eq_refl) as ((v & s & _ & _ & Ev & Es) & _ & Hb). split; [|by apply hex_one_line].
  unfold to_display. rewrite Ev, Es. apply one_line_app; [apply ulid_one_line|].
  destruct (ulid_one_line s). split; done.
Qed.

Lemma provenance_lines_plain l sig : lineage_ok l → bytes_ok sig → Forall one_line (provenance_lines l sig).
Proof.
  intros Hl Hs. destruct (parent_text_one_line l Hl) as [Hd Hk]. destruct Hl as (_ & He & Ho & _).
  unfold provenance_lines. constructor; [by apply one_line_app|]. constructor; [by apply one_line_app|].
  constructor; [done|]. apply Forall_app. split.
  { apply Forall_map. eapply Forall_impl; [exact He|]. intros e. by apply one_line_app. }
  apply Forall_app. split.
  { destruct (oci_source l) as [o|]; [|done]. cbn [oci_fields] in Ho.
    apply Forall_cons in Ho as [Hi Ho]. apply Forall_cons in Ho as [Hg Ho]. apply Forall_cons in Ho as [Ha _].
    repeat constructor; by apply one_line_app. }
  apply Forall_app. split; [|by repeat constructor; apply one_line_app, hex_one_line].
  destruct (recovery_sources l) as [|r rs]; [done|]. constructor; [done|]. apply Forall_map, Forall_forall.
  intros u _. apply one_line_app; [done|apply ulid_one_line].
Qed.

Lemma finish_parts l sig : lineage_ok l →
  finish_provenance (mkFields (Some (nonempty (parent_text l))) (Some (nonempty (pubkey_text l))) (Some (extent_index l))
      (oci_image <$> oci_source l) (oci_digest <$> oci_source l) (oci_arch <$> oci_source l) (Some sig)
      (recovery_sources l)) = Done (Ok (l, sig)).
Proof.
  intros (Hp & _ & _ & _ & Hr). unfold finish_provenance, parent_text, pubkey_text. cbn -[parse_parent].
  destruct l as [e [[i d a]|]|p e|[p|] e [|r rs]]; try done; cbn -[parse_parent];
    specialize (Hp p eq_refl); rewrite display_nonempty, hex_nonempty by done; cbn -[parse_parent];
    by rewrite parse_parent_text.
Qed.

(** What a reader makes of what the writer wrote. *)
Lemma parse_serialize l sig : lineage_ok l → bytes_ok sig →
  parse_provenance (serialize_provenance l sig) = Done (Ok (l, sig)).
Proof.
  intros Hl Hs. unfold parse_provenance, serialize_provenance, text_of.
  rewrite lines_text by (by apply provenance_lines_plain). rewrite <-(finish_parts l sig Hl).
  destruct Hl as (_ & _ & _ & Hr & _). unfold provenance_lines.
  erewrite parse_lines_cons by reflexivity. erewrite parse_lines_cons by reflexivity.
  erewrite parse_lines_cons by (apply parse_extent; by destruct (oci_source l), (recovery_sources l)).
  destruct (oci_source l) as [o|]; cbn [app];
    (try (erewrite parse_lines_cons by reflexivity; erewrite parse_lines_cons by reflexivity;
          erewrite parse_lines_cons by reflexivity));
    (destruct (recovery_sources l) as [|r rs]; [|rewrite <-app_comm_cons; erewrite parse_lines_cons
        by (apply parse_recovery; done)]);
    cbn [app]; erewrite parse_lines_cons by (by apply parse_sig); reflexivity.
Qed.

(** ** What a parse accepts *)

Lemma panics_bind_Ok {A B} (r : panics A) (k : A → panics B) b :
  (r ≫= k) = Done (Ok b) ↔ ∃ a, r = Done (Ok a) ∧ k a = Done (Ok b).
Proof. destruct r as [[a|e]|]; cbn; (split; [try done; intros H; by exists a|by intros (? & [=] & ?); subst]). Qed.

Lemma or_other_Ok {A} (o : option A) a : or_other o = Done (Ok a) ↔ o = Some a.
Proof. destruct o; split; try done; by intros [= ->]. Qed.

Lemma hex_pair_range a b v : hex_pair a b = Some v → byte_ok v.
Proof.
  assert (∀ c x, hex_value c = Some x → 0 ≤ x < 16) as Hv.
  { intros c x. unfold hex_value. cbv zeta. repeat case_decide; (intros [= <-] || intros [=]); lia. }
  unfold hex_pair, byte_ok. case_decide; [intros Hx%Hv; lia|].
  destruct (hex_value a) as [x|] eqn:Hx; [|done]. destruct (hex_value b) as [y|] eqn:Hy; [|done].
  cbn. intros [= <-]. apply Hv in Hx, Hy. lia.
Qed.

Lemma decode_hex_bytes s bs : decode_hex s = Done (Ok bs) → bytes_ok bs.
Proof.
  unfold decode_hex. case_match; [|done]. clear H. revert bs.
  induction s as [[|a [|b s]] IH] using (induction_ltof1 _ String.length);
    [intros bs; cbn; intros [= <-]; constructor..|].
  intros bs. cbn [decode_pairs]. case_match; [|done]. destruct (hex_pair a b) eqn:Hp; [|done].
  intros (vs & Hd & [= <-])%panics_bind_Ok. constructor; [by eapply hex_pair_range|].
  eapply IH; [|done]. unfold ltof. cbn. lia.
Qed.

Lemma parse_parent_ok s hex p : parse_parent s hex = Done (Ok p) → parent_ok p.
Proof.
  unfold parse_parent. intros ([v n] & _ & (vu & Hv%or_other_Ok & (su & Hs%or_other_Ok & (key & Hk & H)%panics_bind_Ok)%panics_bind_Ok)%panics_bind_Ok)%panics_bind_Ok.
  case_decide; [|done]. injection H as <-. split; [|split; [done|by eapply decode_hex_bytes]].
  exists vu, su. split_and!; [by eapply ulid_text_range..|done|done].
Qed.

(** The parts a parse checks. *)
Definition parsed_ok (l : ProvenanceLineage) : Prop :=
  (∀ p, parent l = Some p → parent_ok p) ∧ Forall u128_ok (recovery_sources l) ∧
  match l with Recovering _ _ rs => rs ≠ [] | _ => True end.

Lemma take_ulids_ok ls us rest : take_ulids ls = Done (Ok (us, rest)) → Forall u128_ok us.
Proof.
  revert us rest. induction ls as [|l ls IH]; intros us rest; cbn [take_ulids]; [by intros [= <- <-]|].
  destruct (strip_prefix "  " l) as [e|]; [|by intros [= <- <-]].
  intros (u & Hu%or_other_Ok & ([vs r] & Ht & [= <- <-])%panics_bind_Ok)%panics_bind_Ok.
  constructor; [by eapply ulid_text_range|by eapply IH].
Qed.

Lemma parse_line_recovery l rest f f' rest' : parse_line l rest f = Done (Ok (f', rest')) →
  Forall u128_ok (f_recovery f) → Forall u128_ok (f_recovery f').
Proof.
  unfold parse_line. intros H Hf. repeat (case_match; try (by injection H as <- <-)).
  - apply panics_bind_Ok in H as ([us r] & Ht & [= <- <-]). apply Forall_app. split; [done|]. by eapply take_ulids_ok.
  - by apply panics_bind_Ok in H as (sig & Ht & [= <- <-]).
Qed.

Lemma parse_lines_recovery n ls f f' : parse_lines n ls f = Done (Ok f') →
  Forall u128_ok (f_recovery f) → Forall u128_ok (f_recovery f').
Proof.
  revert ls f. induction n as [|n IH]; intros [|l ls] f; cbn [parse_lines]; try done; try (by intros [= <-]).
  intros ([g r] & Hp & Hr)%panics_bind_Ok Hf. eapply IH; [exact Hr|]. by eapply parse_line_recovery.
Qed.

Lemma parse_parsed_ok content l sig : parse_provenance content = Done (Ok (l, sig)) → parsed_ok l.
Proof.
  unfold parse_provenance. intros (f & Hf & H)%panics_bind_Ok.
  assert (Forall u128_ok (f_recovery f)) as Hr by (by eapply parse_lines_recovery).
  unfold finish_provenance in H.
  apply panics_bind_Ok in H as (p & _ & H). apply panics_bind_Ok in H as (k & _ & H).
  apply panics_bind_Ok in H as (es & _ & H). apply panics_bind_Ok in H as (sg & _ & H).
  apply panics_bind_Ok in H as (po & Hpo & H). apply panics_bind_Ok in H as (o & _ & H).
  apply panics_bind_Ok in H as (l' & Hl & [= <- <-]).
  assert (∀ q, po = Some q → parent_ok q) as Hp.
  { intros q ->. destruct p as [p|], k as [k|]; try done. apply panics_bind_Ok in Hpo as (q' & Hq & [= ->]).
    by eapply parse_parent_ok. }
  unfold finish_lineage in Hl. destruct (f_recovery f) as [|r rs].
  - destruct po as [q|]; [destruct o; [done|]|]; injection Hl as <-; (split_and!; [|constructor|done]); [|done].
    cbn. intros q' [= <-]. by apply Hp.
  - destruct o; [done|]. injection Hl as <-. by split.
Qed.

(** ** What a signature binds *)

(** An extent entry as the read path takes it: two fields around a slash, no
    NUL. *)
Definition entry_ok (e : string) : Prop := no_nul e ∧ has_char SLASH e = true.
Definition fields_ok (l : ProvenanceLineage) : Prop :=
  Forall entry_ok (extent_index l) ∧ Forall no_nul (oci_fields (oci_source l)).

Lemma provenance_fields_no_nul l : parsed_ok l → fields_ok l → Forall no_nul (provenance_fields l).
Proof.
  intros (Hp & _) [He Ho]. unfold provenance_fields.
  assert (no_nul (parent_text l) ∧ no_nul (pubkey_text l)) as [Hd Hk].
  { unfold parent_text, pubkey_text. destruct (parent l) as [p|]; [|done].
    destruct (Hp p eq_refl) as ((v & s & _ & _ & Ev & Es) & _ & Hb). unfold no_nul. rewrite hex_without by done.
    unfold to_display. rewrite has_char_app, Ev, Es, ulid_text_without by done. split; [|done].
    by apply (ulid_text_without s). }
  repeat (constructor; [done|]). apply Forall_app. split; [eapply Forall_impl; [exact He|by intros e []]|].
  apply Forall_app. split; [done|]. destruct (recovery_sources l) as [|r rs]; [done|].
  constructor; [done|]. apply Forall_map, Forall_forall. intros u _. by apply ulid_text_without.
Qed.

Lemma display_inj p q : parent_ok p → parent_ok q → to_display p = to_display q →
  encode_hex (pubkey p) = encode_hex (pubkey q) → p = q.
Proof.
  intros ((v & s & Hv & Hs & Ev & Es) & _ & Hb) ((v' & s' & Hv' & Hs' & Ev' & Es') & _ & Hb').
  unfold to_display. rewrite Ev, Es, Ev', Es'. intros Hd Hk%encode_hex_inj; [|done..].
  assert (∀ a b, split_once SLASH (ulid_to_string a +:+ String SLASH (ulid_to_string b)) = Some (ulid_to_string a, ulid_to_string b))
    as Hsp by (intros; by apply split_once_app, ulid_text_without).
  pose proof (Hsp v s) as H1. rewrite Hd, Hsp in H1. injection H1 as E1 E2. destruct p, q. cbn in *. f_equal; congruence.
Qed.

Lemma parent_binds l l' : parsed_ok l → parsed_ok l' →
  parent_text l = parent_text l' → pubkey_text l = pubkey_text l' → parent l = parent l'.
Proof.
  intros (Hp & _) (Hp' & _). unfold parent_text, pubkey_text. destruct (parent l) as [p|], (parent l') as [q|]; try done.
  - intros Hd Hk. f_equal. by apply display_inj; [apply Hp|apply Hp'|..].
  - intros Hd _. pose proof (display_nonempty p (Hp p eq_refl)) as Hn. by rewrite Hd in Hn.
  - intros Hd _. pose proof (display_nonempty q (Hp' q eq_refl)) as Hn. by rewrite <-Hd in Hn.
Qed.

(** The entries end where the first field without a slash is. *)
Lemma extents_split es es' tl tl' : Forall entry_ok es → Forall entry_ok es' →
  (∀ x, head tl = Some x → has_char SLASH x = false) → (∀ x, head tl' = Some x → has_char SLASH x = false) →
  es ++ tl = es' ++ tl' → es = es' ∧ tl = tl'.
Proof.
  intros He He' Ht Ht'. revert es' He'. induction He as [|e es [_ He] _ IH]; intros [|e' es'] He'; cbn.
  - done.
  - intros ->. apply Forall_cons in He' as [[_ He'] _]. specialize (Ht e' eq_refl). congruence.
  - intros <-. specialize (Ht' e eq_refl). congruence.
  - apply Forall_cons in He' as [_ He']. intros [= -> H]. destruct (IH es' He' H) as [-> ->]. done.
Qed.

Lemma recovery_binds rs rs' : Forall u128_ok rs → Forall u128_ok rs' → recovery_fields rs = recovery_fields rs' → rs = rs'.
Proof.
  assert (∀ l, Forall u128_ok l → omap ulid_from_string (map ulid_to_string l) = l) as Hback.
  { induction 1 as [|u l Hu _ IH]; [done|]. cbn. by rewrite ulid_text_back, IH. }
  intros Hr Hr'. destruct rs as [|r rs], rs' as [|r' rs']; try done. intros [= H1 H2].
  pose proof (Hback _ Hr) as Hb. cbn [map] in Hb. rewrite H1, H2 in Hb.
  rewrite <-Hb. by apply (Hback (r' :: rs')).
Qed.

Lemma recovery_head rs x : head (recovery_fields rs) = Some x → has_char SLASH x = false.
Proof. by destruct rs; intros [= <-]. Qed.

Lemma lineage_of_parts l l' : parsed_ok l → parsed_ok l' → parent l = parent l' → extent_index l = extent_index l' →
  oci_source l = oci_source l' → recovery_sources l = recovery_sources l' → l = l'.
Proof.
  intros (_ & _ & Hr) (_ & _ & Hr'). destruct l as [e o|p e|p e r], l' as [e' o'|p' e'|p' e' r']; cbn in *; intros; congruence.
Qed.

Lemma signing_input_determines l l' : parsed_ok l → parsed_ok l' → fields_ok l → fields_ok l' →
  is_Some (oci_source l) ↔ is_Some (oci_source l') →
  provenance_signing_input l = provenance_signing_input l' → l = l'.
Proof.
  intros Hl Hl' Hf Hf' Ho Hi. unfold provenance_signing_input, provenance_fields in Hi.
  apply nul_join_inj in Hi; [|by apply provenance_fields_no_nul..]. injection Hi as Hd Hk Hi.
  pose proof (parent_binds l l' Hl Hl' Hd Hk) as Hp.
  destruct Hf as [He _], Hf' as [He' _].
  destruct (oci_source l) as [o|] eqn:El, (oci_source l') as [o'|] eqn:El'; cycle 1.
  - destruct Ho as [Ho _]. by destruct (Ho ltac:(done)).
  - destruct Ho as [_ Ho]. by destruct (Ho ltac:(done)).
  - cbn [oci_fields app] in Hi. apply extents_split in Hi as [Hx Hr]; [|done|done|apply recovery_head..].
    apply lineage_of_parts; [done..|by rewrite El, El'|]. apply recovery_binds; [apply Hl|apply Hl'|done].
  - destruct l as [e ?| |]; [|done..]. destruct l' as [e' ?| |]; [|done..]. cbn in El, El'. subst.
    cbn [oci_fields recovery_sources recovery_fields app extent_index] in Hi.
    apply app_inj_2 in Hi as [-> Hi]; [|done]. injection Hi as H1 H2 H3. destruct o, o'. cbn in *. by subst.
Qed.

(** ** Manifests *)

Definition u128s (us : list Ulid) : Prop := Forall u128_ok us.

Lemma ulid_text_inj a b : u128_ok a → u128_ok b → ulid_to_string a = ulid_to_string b → a = b.
Proof. intros Ha Hb He. pose proof (ulid_text_back a Ha) as H. rewrite He, ulid_text_back in H by done. congruence. Qed.

Lemma texts_sorted us : u128s us → StronglySorted Z.le us → StronglySorted String.le (map ulid_to_string us).
Proof.
  intros Hok. induction 1 as [|u us Hs IH Hall]; [constructor|]. apply Forall_cons in Hok as [Hu Hok]. cbn. constructor; [by apply IH|].
  apply Forall_map. rewrite Forall_forall in Hall |- *. intros v Hv. apply ulid_text_order; [done| |by apply Hall].
  unfold u128s in Hok. rewrite Forall_forall in Hok. by apply Hok.
Qed.

Lemma sort_texts us : u128s us → merge_sort String.le (map ulid_to_string us) = map ulid_to_string (merge_sort Z.le us).
Proof.
  intros Hok. apply (StronglySorted_unique String.le).
  - apply StronglySorted_merge_sort; apply _.
  - apply texts_sorted; [|apply StronglySorted_merge_sort; apply _]. unfold u128s. by rewrite merge_sort_Permutation.
  - rewrite merge_sort_Permutation. apply fmap_Permutation. symmetry. apply merge_sort_Permutation.
Qed.

(** [dedup] on the ULIDs themselves. *)
Fixpoint dedup_ulids (l : list Ulid) : list Ulid :=
  match l with
  | [] => []
  | a :: l => match dedup_ulids l with [] => [a] | b :: m => if decide (a = b) then b :: m else a :: b :: m end
  end.

Lemma elem_of_dedup_ulids l u : u ∈ dedup_ulids l ↔ u ∈ l.
Proof.
  induction l as [|a l IH]; [done|]. cbn [dedup_ulids]. rewrite elem_of_cons, <-IH.
  destruct (dedup_ulids l) as [|b m]; [rewrite elem_of_cons; done|]. case_decide; rewrite !elem_of_cons; subst; tauto.
Qed.

Lemma dedup_texts us : u128s us → dedup (map ulid_to_string us) = map ulid_to_string (dedup_ulids us).
Proof.
  induction 1 as [|u us Hu Hus IH]; [done|]. cbn [map dedup dedup_ulids]. rewrite IH.
  assert (∀ v, v ∈ dedup_ulids us → u128_ok v) as Hd.
  { intros v Hv%(proj1 (elem_of_dedup_ulids _ _)). rewrite Forall_forall in Hus. by apply Hus. }
  destruct (dedup_ulids us) as [|v vs]; [done|]. cbn [map]. destruct (decide (u = v)) as [->|Hne].
  - by rewrite decide_True.
  - rewrite decide_False; [done|]. intros He%ulid_text_inj; [done..|]. apply Hd. by left.
Qed.

Lemma dedup_sorted us : StronglySorted Z.le us → StronglySorted Z.lt (dedup_ulids us).
Proof.
  induction 1 as [|u us Hs IH Hall]; [constructor|]. cbn [dedup_ulids].
  assert (Forall (Z.le u) (dedup_ulids us)) as Hd.
  { rewrite Forall_forall in Hall |- *. intros v Hv%(proj1 (elem_of_dedup_ulids _ _)). by apply Hall. }
  destruct (dedup_ulids us) as [|v vs]; [repeat constructor|]. case_decide as Huv; [done|].
  constructor; [done|]. apply Forall_cons in Hd as [Hv _]. apply StronglySorted_inv in IH as [_ Hvs].
  constructor; [lia|]. eapply Forall_impl; [exact Hvs|]. cbn. lia.
Qed.

(** The segments of a manifest: what it was given, in order, each once. *)
Definition manifest_ulids (us : list Ulid) : list Ulid := dedup_ulids (merge_sort Z.le us).

Lemma manifest_ulids_sorted us : StronglySorted Z.lt (manifest_ulids us).
Proof. apply dedup_sorted, StronglySorted_merge_sort; apply _. Qed.

Lemma elem_of_manifest_ulids us u : u ∈ manifest_ulids us ↔ u ∈ us.
Proof. unfold manifest_ulids. by rewrite elem_of_dedup_ulids, merge_sort_Permutation. Qed.

Lemma manifest_ulids_ok us : u128s us → u128s (manifest_ulids us).
Proof. unfold u128s. rewrite !Forall_forall. intros H u Hu%(proj1 (elem_of_manifest_ulids _ _)). by apply H. Qed.

Lemma sorted_texts_eq us : u128s us → sorted_texts us = map ulid_to_string (manifest_ulids us).
Proof.
  intros Hok. unfold sorted_texts, manifest_ulids. rewrite sort_texts by done. apply dedup_texts.
  unfold u128s. by rewrite merge_sort_Permutation.
Qed.

Lemma ascending_texts us prev : u128s us → StronglySorted Z.lt us → (∀ p u, prev = Some p → u ∈ us → p < u) →
  ascending_ulids prev (map ulid_to_string us) = Done (Ok us).
Proof.
  intros Hok Hs. revert prev Hok. induction Hs as [|u us Hs IH Hall]; intros prev Hok Hp; [done|].
  apply Forall_cons in Hok as [Hu Hok]. cbn [map ascending_ulids]. rewrite ulid_text_back by done. cbn [or_other mbind panics_bind mret panics_ret].
  assert (match prev with Some p => bool_decide (u ≤ p) | None => false end = false) as ->.
  { destruct prev as [p|]; [|done]. apply bool_decide_eq_false. specialize (Hp p u eq_refl ltac:(by left)). lia. }
  rewrite IH; [done|done|]. intros p v [= <-] Hv. rewrite Forall_forall in Hall. by apply Hall.
Qed.

Lemma ascending_accepts prev entries us : ascending_ulids prev entries = Done (Ok us) →
  Forall2 (λ e u, ulid_from_string e = Some u) entries us ∧ StronglySorted Z.lt us ∧
  (∀ p u, prev = Some p → u ∈ us → p < u).
Proof.
  revert prev us. induction entries as [|e es IH]; intros prev us; cbn [ascending_ulids].
  { intros [= <-]. split_and!; [constructor|constructor|]. intros p u _ Hu. by apply not_elem_of_nil in Hu. }
  intros (u & Hu%or_other_Ok & H)%panics_bind_Ok. destruct (match prev with Some _ => _ | _ => _ end) eqn:Hp; [done|].
  apply panics_bind_Ok in H as (vs & Hv & [= <-]). destruct (IH _ _ Hv) as (Hf & Hs & Hlt).
  split_and!; [by constructor| |].
  - constructor; [done|]. apply Forall_forall. intros v. by apply Hlt.
  - intros p v -> [->|Hin]%elem_of_cons; apply bool_decide_eq_false in Hp; [lia|]. specialize (Hlt u v eq_refl Hin). lia.
Qed.

Lemma manifest_lines_plain us sig : bytes_ok sig → Forall one_line (manifest_lines (map ulid_to_string us) sig).
Proof.
  intros Hs. unfold manifest_lines. constructor; [done|]. apply Forall_app. split.
  - apply Forall_map, Forall_map, Forall_forall. intros u _. apply one_line_app; [done|apply ulid_one_line].
  - repeat constructor; by apply one_line_app, hex_one_line.
Qed.

Lemma parse_manifest_text us sig : bytes_ok sig →
  parse_snapshot_manifest (serialize_snapshot_manifest (map ulid_to_string us) sig) = Done (Ok (map ulid_to_string us, sig)).
Proof.
  intros Hs. unfold parse_snapshot_manifest, serialize_snapshot_manifest, text_of.
  rewrite lines_text by (by apply manifest_lines_plain). unfold manifest_lines.
  cbn [length parse_manifest_lines]. rewrite decide_True by done. rewrite take_indented_app by done.
  rewrite length_app, length_map, Nat.add_comm. cbn [length Nat.add parse_manifest_lines].
  rewrite decide_False by done. rewrite strip_prefix_app, decode_encode_hex by done. cbn.
  by destruct (length _).
Qed.

(** ** Messages and who signed them *)

Lemma nul_join_cons f g fs : nul_join (f :: g :: fs) = str_bytes f ++ 0 :: nul_join (g :: fs).
Proof. done. Qed.

Lemma parent_fields_no_nul l : parsed_ok l → no_nul (parent_text l) ∧ no_nul (pubkey_text l).
Proof.
  intros Hl. pose proof (provenance_fields_no_nul (steady (parent l) [])) as H.
  assert (Forall no_nul (provenance_fields (steady (parent l) []))) as Hf.
  { apply H; [|by destruct (parent l); repeat constructor]. destruct Hl as [Hp _]. split_and!.
    - intros q Hq. apply Hp. by destruct (parent l).
    - destruct (parent l); constructor.
    - by destruct (parent l). }
  clear H. unfold provenance_fields in Hf. apply Forall_cons in Hf as [H1 Hf]. apply Forall_cons in Hf as [H2 _].
  unfold parent_text, pubkey_text in *. by destruct (parent l).
Qed.

(** A message names the parent it was made for, whatever the other fields hold. *)
Lemma parent_determined l l' : parsed_ok l → parsed_ok l' →
  provenance_signing_input l = provenance_signing_input l' → parent l = parent l'.
Proof.
  intros Hl Hl'. destruct (parent_fields_no_nul l Hl) as [Hd Hk], (parent_fields_no_nul l' Hl') as [Hd' Hk'].
  unfold provenance_signing_input, provenance_fields. rewrite !nul_join_cons.
  intros [He Ht]%nul_split; [|by apply str_bytes_no_nul..]. apply str_bytes_inj in He.
  apply parent_binds; [done..|]. apply str_bytes_inj.
  remember (extent_index l ++ _) as a eqn:Ea. remember (extent_index l' ++ _) as b eqn:Eb. clear Ea Eb.
  destruct a as [|x a], b as [|y b]; rewrite ?nul_join_cons in Ht; cbn [nul_join map concat] in Ht; rewrite ?app_nil_r in Ht.
  - done.
  - exfalso. apply (str_bytes_no_nul _ Hk). rewrite Ht. apply elem_of_app. right. by left.
  - exfalso. apply (str_bytes_no_nul _ Hk'). rewrite <-Ht. apply elem_of_app. right. by left.
  - by apply nul_split in Ht as [Ht _]; [|by apply str_bytes_no_nul..].
Qed.

Lemma length_str_bytes s : length (str_bytes s) = String.length s.
Proof. unfold str_bytes. rewrite length_map. induction s; cbn; congruence. Qed.

Lemma read_no_nul e u : ulid_from_string e = Some u → no_nul e.
Proof. intros H. apply not_alnum; [|done]. intros d. by eapply ulid_read_alnum. Qed.

(** No lineage's message is a manifest's. *)
Lemma inputs_disjoint l entries us : parsed_ok l → Forall2 (λ e u, ulid_from_string e = Some u) entries us →
  provenance_signing_input l ≠ manifest_signing_input entries.
Proof.
  intros Hl He. destruct (parent_fields_no_nul l Hl) as [Hd _].
  unfold provenance_signing_input, provenance_fields, manifest_signing_input. rewrite nul_join_cons. intros H.
  destruct He as [|e u entries us He _]; [by destruct (str_bytes (parent_text l))|].
  pose proof (read_no_nul e u He) as Hn. destruct entries as [|e' entries].
  - cbn in H. rewrite app_nil_r in H. apply (str_bytes_no_nul e Hn). rewrite <-H. apply elem_of_app. right. by left.
  - rewrite nul_join_cons in H. apply nul_split in H as [H _]; [|by apply str_bytes_no_nul..]. apply str_bytes_inj in H.
    unfold parent_text in H. destruct (parent l) as [p|] eqn:Ep.
    + assert (has_char SLASH e = true) as Hs.
      { rewrite <-H. unfold to_display. rewrite has_char_app. cbn. apply orb_true_r. }
      by apply (ulid_read_alnum e u SLASH He) in Hs.
    + apply ulid_read_length in He. by rewrite <-H in He.
Qed.

Lemma manifest_determined entries us out : u128s us → ascending_ulids None entries = Done (Ok out) →
  manifest_signing_input entries = manifest_signing_input (map ulid_to_string us) → out = us.
Proof.
  intros Hus Ha He. apply ascending_accepts in Ha as (Hf & _ & _).
  assert (entries = map ulid_to_string us) as ->.
  { assert (Forall no_nul entries) as Hn by (clear He; induction Hf; constructor; [by eapply read_no_nul|done]).
    assert (Forall no_nul (map ulid_to_string us)) as Hn'
      by (apply Forall_map, Forall_forall; intros u _; by apply ulid_text_without).
    unfold manifest_signing_input in He. destruct Hf as [|e o entries out Ho Hf], us as [|u us]; [done|..|].
    - pose proof (ulid_text_length u) as Hl. cbn in He. destruct (ulid_to_string u); [done|]. by cbn in He.
    - apply ulid_read_length in Ho. cbn in He. destruct e; [done|]. by cbn in He.
    - by apply nul_join_inj. }
  clear He. revert out Hf. induction Hus as [|u us Hu _ IH]; intros out Hf; inversion Hf as [|? o ? out' Ho Hf']; [done|].
  subst. rewrite ulid_text_back in Ho by done. injection Ho as <-. f_equal. by apply IH.
Qed.

(** Two possession proofs' messages agree only for the same volume, target, time
    and nonce, and credentials of the same hash. *)
Lemma possession_binds {HB : Blake3} o o' t t' c c' ts ts' n n' : u128_ok o → u128_ok o' → u128_ok t → u128_ok t' →
  0 ≤ ts < U64 → 0 ≤ ts' < U64 → bytes_ok n → bytes_ok n' →
  volume_possession_signing_input o t c ts n = volume_possession_signing_input o' t' c' ts' n' →
  o = o' ∧ t = t' ∧ blake3 c = blake3 c' ∧ ts = ts' ∧ n = n'.
Proof.
  intros Ho Ho' Ht Ht' Hts Hts' Hn Hn'.
  assert (∀ o t c ts n, bytes_ok n → Forall no_nul (possession_fields o t c ts n)) as Hf.
  { intros o0 t0 c0 ts0 n0 Hn0. pose proof (blake3_bytes c0). repeat (constructor; [first [done|by apply ulid_text_without|by apply hex_without|by apply dec_no_char]|]).
    constructor. }
  unfold volume_possession_signing_input, possession_fields. intros H. apply nul_join_inj in H; [|by apply Hf..].
  injection H as H1 H2 H3 H4 H5. split_and!; [by apply ulid_text_inj..|by apply encode_hex_inj; [apply blake3_bytes..|]| |by apply encode_hex_inj].
  pose proof (parse_uint_dec U64 ts Hts ltac:(lia)) as Hp. rewrite H4, parse_uint_dec in Hp by lia. congruence.
Qed.

Lemma nul_join_length e es :
  length (nul_join (e :: es)) = (String.length e + list_sum (map (λ f, S (String.length f)) es))%nat.
Proof.
  cbn. rewrite length_app, length_str_bytes. f_equal. induction es as [|f es IH]; [done|].
  cbn. by rewrite length_app, length_str_bytes, IH.
Qed.

(** A manifest's message is never as long as a segment's hash. *)
Lemma manifest_not_hash entries us : Forall2 (λ e u, ulid_from_string e = Some u) entries us →
  length (manifest_signing_input entries) ≠ 32%nat.
Proof.
  destruct 1 as [|e u es us He Hes]; [done|]. unfold manifest_signing_input. rewrite nul_join_length.
  rewrite (ulid_read_length _ _ He).
  assert (list_sum (map (λ f, S (String.length f)) es) = 27 * length es)%nat as ->.
  { clear He. induction Hes as [|f v es us Hf _ IH]; [done|]. cbn [map list_sum foldr length].
    change (foldr Nat.add 0%nat ?l) with (list_sum l). rewrite IH, (ulid_read_length _ _ Hf). lia. }
  lia.
Qed.

(** ** The properties *)

Context {HE : Ed25519}.

(** C0: a lineage reads back under the key that signed it. *)
Theorem provenance_roundtrip {HEL : Ed25519Laws HE} key l : lineage_ok l →
  verify_lineage_with_key (write_provenance key l) (sk_public key) = Done (Ok l).
Proof.
  intros Hl. unfold verify_lineage_with_key, write_provenance, sign_provenance.
  destruct (sign_ok key (provenance_signing_input l)) as [Hlen Hb].
  rewrite parse_serialize by done. cbn. by rewrite decide_True, sign_verifies by done.
Qed.

(** C0: a manifest reads back under the key that signed it, as the segments it
    was given, in order and each once. *)
Theorem manifest_roundtrip {HEL : Ed25519Laws HE} key us : u128s us →
  read_snapshot_manifest_from_bytes (build_snapshot_manifest_bytes (sk_sign key) us) (sk_public key)
  = Done (Ok (manifest_ulids us)).
Proof.
  intros Hus. unfold build_snapshot_manifest_bytes, read_snapshot_manifest_from_bytes.
  rewrite sorted_texts_eq by done. set (msg := manifest_signing_input _).
  destruct (sign_ok key msg) as [Hlen Hb]. rewrite parse_manifest_text by done. cbn -[msg].
  rewrite decide_True, sign_verifies by done. apply ascending_texts; [by apply manifest_ulids_ok|apply manifest_ulids_sorted|done].
Qed.

(** No possession proof's message is a lineage's, nor a manifest's: a proof opens
    with its domain, a lineage with a parent or nothing, a manifest with a ULID. *)
Lemma possession_opens {HB : Blake3} o t c ts n :
  ∃ rest, volume_possession_signing_input o t c ts n = str_bytes VOLUME_POSSESSION_DOMAIN ++ 0 :: rest.
Proof. unfold volume_possession_signing_input, possession_fields. rewrite nul_join_cons. by eexists. Qed.

Lemma possession_domain_plain : no_nul VOLUME_POSSESSION_DOMAIN.
Proof. vm_compute. reflexivity. Qed.

Lemma display_length p : parent_ok p → String.length (to_display p) = 53%nat.
Proof.
  intros ((v & s & _ & _ & Ev & Es) & _). unfold to_display. rewrite Ev, Es.
  assert (∀ a b, String.length (a +:+ b) = (String.length a + String.length b)%nat) as Hl
    by (intros a b; induction a as [|c a IH]; simpl; [done|by rewrite IH]).
  rewrite Hl. cbn. by rewrite !ulid_text_length.
Qed.

Lemma possession_not_lineage {HB : Blake3} l o t c ts n : parsed_ok l →
  provenance_signing_input l ≠ volume_possession_signing_input o t c ts n.
Proof.
  intros Hl. destruct (parent_fields_no_nul l Hl) as [Hd _], (possession_opens o t c ts n) as [rest ->].
  unfold provenance_signing_input, provenance_fields. rewrite nul_join_cons.
  intros [He _]%nul_split; [|by apply str_bytes_no_nul..].
  apply str_bytes_inj in He. unfold parent_text in He. destruct (parent l) as [p|] eqn:Ep; [|done].
  assert (String.length (to_display p) = 53%nat) as H53 by (by apply display_length, Hl). by rewrite He in H53.
Qed.

Lemma possession_not_manifest {HB : Blake3} entries us o t c ts n : Forall2 (λ e u, ulid_from_string e = Some u) entries us →
  manifest_signing_input entries ≠ volume_possession_signing_input o t c ts n.
Proof.
  intros He. destruct (possession_opens o t c ts n) as [rest ->]. unfold manifest_signing_input.
  destruct He as [|e u entries us He _]; [done|]. pose proof (read_no_nul e u He) as Hn.
  assert (e ≠ VOLUME_POSSESSION_DOMAIN) as Hne.
  { intros ->. pose proof (ulid_read_alnum _ u "-"%char He eq_refl) as Hd. by vm_compute in Hd. }
  destruct entries as [|e' entries].
  - intros H. unfold nul_join in H. cbn [map concat] in H. rewrite app_nil_r in H. apply (str_bytes_no_nul e Hn). rewrite H. apply elem_of_app. right. by left.
  - rewrite nul_join_cons. intros [H _]%nul_split; [|by apply str_bytes_no_nul..]. by apply str_bytes_inj in H.
Qed.

(** What a volume's key signs: the 32-byte hashes of its segments, the lineages
    and manifests here, and the proofs that it is held, each for a volume, a
    target, a credential, a time and a nonce. *)
Record Possession := mkPossession { po_owned : Ulid; po_target : Ulid; po_cid : list Z; po_ts : Z; po_nonce : list Z }.
Record Holder := mkHolder {
  signed_lineages : list ProvenanceLineage;
  signed_manifests : list (list Ulid);
  signed_possessions : list Possession
}.

Definition possession_input {HB : Blake3} (p : Possession) : list Z :=
  volume_possession_signing_input (po_owned p) (po_target p) (po_cid p) (po_ts p) (po_nonce p).

Definition holder_ok (h : Holder) : Prop :=
  (∀ l, l ∈ signed_lineages h → parsed_ok l ∧ fields_ok l) ∧ (∀ us, us ∈ signed_manifests h → u128s us).

(** The scheme is unforgeable: what verifies under the key was signed with it. *)
Definition vouches {HB : Blake3} (vk : list Z) (h : Holder) : Prop :=
  ∀ msg sig, vk_verify vk msg sig = true →
    length msg = 32%nat ∨
    (∃ l, l ∈ signed_lineages h ∧ msg = provenance_signing_input l) ∨
    (∃ us, us ∈ signed_manifests h ∧ msg = manifest_signing_input (sorted_texts us)) ∨
    (∃ p, p ∈ signed_possessions h ∧ msg = possession_input p).

Lemma accepted_parsed content vk l : verify_lineage_with_key content vk = Done (Ok l) →
  parsed_ok l ∧ ∃ sig, vk_verify vk (provenance_signing_input l) sig = true.
Proof.
  unfold verify_lineage_with_key. intros ([l' sig] & Hp & H)%panics_bind_Ok. case_decide; [|done].
  destruct (vk_verify _ _ _) eqn:Hv; [|done]. injection H as <-. split; [by eapply parse_parsed_ok|by exists sig].
Qed.

Lemma texts_read us : u128s us → Forall2 (λ e u, ulid_from_string e = Some u) (map ulid_to_string us) us.
Proof. induction 1; constructor; [by apply ulid_text_back|done]. Qed.

(** The lineage a verified message was signed for. *)
Lemma accepted_source {HB : Blake3} content vk h l : vouches vk h → holder_ok h → verify_lineage_with_key content vk = Done (Ok l) →
  length (provenance_signing_input l) = 32%nat ∨
  ∃ l0, l0 ∈ signed_lineages h ∧ provenance_signing_input l = provenance_signing_input l0.
Proof.
  intros Hh [Hhl Hhm] Hv. destruct (accepted_parsed _ _ _ Hv) as (Hl & sig & Hs).
  destruct (Hh _ _ Hs) as [H|[(l0 & Hin & H)|[(us & Hin & H)|(p & _ & H)]]]; [by left|right; by exists l0| |by apply possession_not_lineage in H].
  pose proof (Hhm us Hin) as Hus. rewrite sorted_texts_eq in H by done.
  exfalso. eapply inputs_disjoint; [done|by apply texts_read, manifest_ulids_ok|exact H].
Qed.

(** A parent is named only where the holder named it. *)
Lemma accepted_parent {HB : Blake3} content vk h l p : vouches vk h → holder_ok h → verify_lineage_with_key content vk = Done (Ok l) →
  parent l = Some p → ∃ l0, l0 ∈ signed_lineages h ∧ parent l0 = Some p.
Proof.
  intros Hh Hok Hv Hp. destruct (accepted_parsed _ _ _ Hv) as (Hl & _).
  destruct (accepted_source _ _ _ _ Hh Hok Hv) as [H|(l0 & Hin & H)].
  - exfalso. unfold provenance_signing_input, provenance_fields in H. rewrite nul_join_length in H.
    unfold parent_text in H. rewrite Hp, display_length in H by (by apply Hl). lia.
  - exists l0. split; [done|]. rewrite <-Hp. symmetry. apply parent_determined; [done|by apply Hok|done].
Qed.

Lemma accepted_manifest {HB : Blake3} content vk h out : vouches vk h → holder_ok h →
  read_snapshot_manifest_from_bytes content vk = Done (Ok out) →
  ∃ us, us ∈ signed_manifests h ∧ out = manifest_ulids us.
Proof.
  intros Hh [Hhl Hhm]. unfold read_snapshot_manifest_from_bytes. intros ([entries sig] & _ & H)%panics_bind_Ok.
  case_decide; [|done]. destruct (vk_verify _ _ _) eqn:Hv; [|done].
  destruct (ascending_accepts _ _ _ H) as (Hf & _).
  destruct (Hh _ _ Hv) as [Hlen|[(l & Hin & He)|[(us & Hin & He)|(p & _ & He)]]].
  - by eapply manifest_not_hash in Hlen.
  - symmetry in He. exfalso. eapply inputs_disjoint; [by apply Hhl|done|exact He].
  - exists us. split; [done|]. pose proof (Hhm us Hin) as Hus. rewrite sorted_texts_eq in He by done.
    eapply manifest_determined; [by apply manifest_ulids_ok|done..].
  - by eapply possession_not_manifest in He.
Qed.

(** C39: what verifies was signed as what it reads as. Take a volume's key that
    has signed segments' hashes, lineages, manifests and possession proofs, and
    whose signatures cannot be forged. A lineage read under it whose fields the
    read path takes is one its holder signed, unless the two differ in whether
    they carry an import source, or the message is as long as a segment's hash;
    a manifest read under it is one its holder signed, as its segments in order;
    and no possession proof passes as either. *)
Theorem accepted_is_signed {HB : Blake3} vk h : vouches vk h → holder_ok h →
  (∀ content l, verify_lineage_with_key content vk = Done (Ok l) → fields_ok l →
     l ∈ signed_lineages h ∨ length (provenance_signing_input l) = 32%nat ∨
     ∃ l0, l0 ∈ signed_lineages h ∧ provenance_signing_input l = provenance_signing_input l0 ∧
       parent l = parent l0 ∧ ¬ (is_Some (oci_source l) ↔ is_Some (oci_source l0))) ∧
  (∀ content out, read_snapshot_manifest_from_bytes content vk = Done (Ok out) →
     StronglySorted Z.lt out ∧ ∃ us, us ∈ signed_manifests h ∧ ∀ u, u ∈ out ↔ u ∈ us) ∧
  (∀ p, (∀ l, parsed_ok l → possession_input p ≠ provenance_signing_input l) ∧
     ∀ entries out, ascending_ulids None entries = Done (Ok out) → possession_input p ≠ manifest_signing_input entries).
Proof.
  intros Hh Hok. split_and!.
  - intros content l Hv Hf. destruct (accepted_parsed _ _ _ Hv) as (Hl & _).
    destruct (accepted_source _ _ _ _ Hh Hok Hv) as [H|(l0 & Hin & H)]; [by right; left|].
    destruct Hok as [Hhl _]. destruct (Hhl l0 Hin) as [Hl0 Hf0].
    destruct (decide (is_Some (oci_source l))) as [Ho|Ho], (decide (is_Some (oci_source l0))) as [Ho0|Ho0];
      try (left; rewrite (signing_input_determines l l0 Hl Hl0 Hf Hf0 ltac:(tauto) H); done);
      right; right; exists l0; split_and!; [done|done|by apply parent_determined|tauto|done|done|by apply parent_determined|tauto].
  - intros content out Hr. destruct (accepted_manifest _ _ _ _ Hh Hok Hr) as (us & Hin & ->).
    split; [apply manifest_ulids_sorted|]. exists us. split; [done|]. apply elem_of_manifest_ulids.
  - intros p. split.
    + intros l Hl He. symmetry in He. by apply possession_not_lineage in He.
    + intros entries out (Hf & _)%ascending_accepts He. symmetry in He. by eapply possession_not_manifest in He.
Qed.

(** The three fields of an import source are signed like extent entries: moving a
    root's last three entries there keeps the message, and the signature. *)
Lemma oci_not_bound es a b c sig vk : bytes_ok sig → length sig = 64%nat →
  Forall one_line (es ++ [a; b; c]) →
  let signed := Root (es ++ [a; b; c]) None in let moved := Root es (Some (mkOciSource a b c)) in
  vk_verify vk (provenance_signing_input signed) sig = true →
  verify_lineage_with_key (serialize_provenance signed sig) vk = Done (Ok signed) ∧
  verify_lineage_with_key (serialize_provenance moved sig) vk = Done (Ok moved).
Proof.
  intros Hb Hlen Hone signed moved Hv. apply Forall_app in Hone as [Hes Habc].
  assert (provenance_signing_input moved = provenance_signing_input signed) as Hi
    by (unfold provenance_signing_input, provenance_fields; cbn; by rewrite app_nil_r).
  assert (lineage_ok signed) as Ha by (split_and!; [done|by apply Forall_app|constructor..|done]).
  assert (lineage_ok moved) as Hm by (split_and!; [done|done|done|constructor|done]).
  split; unfold verify_lineage_with_key; rewrite parse_serialize by done;
    cbn -[provenance_signing_input]; by rewrite ?Hi, decide_True, Hv.
Qed.

End spec.

(** ** Concrete instances *)

(** A scheme whose signature is a checksum under the public key; [ledger_ed25519]
    verifies only the messages it is given. *)
Definition toy_public (key : list Z) : list Z := le_bytes 32 (from_le key).
Definition toy_sign (vk msg : list Z) : list Z := le_bytes 64 (from_le vk + foldl (λ a b, a * 257 + b + 1) 0 msg).

Definition ledger_ed25519 (allowed : list Z → bool) : Ed25519 := {|
  vk_valid _ := true;
  vk_verify vk msg sig := allowed msg && bool_decide (sig = toy_sign vk msg);
  sk_public := toy_public;
  sk_sign key msg := toy_sign (toy_public key) msg |}.

Definition toy_ed25519 : Ed25519 := ledger_ed25519 (λ _, true).

Definition toy_ed25519_laws : Ed25519Laws toy_ed25519.
Proof.
  split; cbn [vk_valid vk_verify sk_public sk_sign toy_ed25519 ledger_ed25519].
  - intros key. unfold toy_public. split_and!; [apply length_le_bytes|apply le_bytes_ok|done].
  - intros key msg. unfold toy_sign. split; [apply length_le_bytes|apply le_bytes_ok].
  - intros key msg. by rewrite bool_decide_eq_true_2.
Defined.

(** A fork of a fork that dedups against one import. *)
Definition sample_parent : ParentRef :=
  mkParentRef (@ulid_to_string crockford 77) (@ulid_to_string crockford 78) (toy_public [7]).
Definition sample_entry : string := @ulid_to_string crockford 50 +:+ String SLASH (@ulid_to_string crockford 51).
Definition sample_fork : ProvenanceLineage := Fork sample_parent [sample_entry].
Definition sample_recovering : ProvenanceLineage := Recovering (Some sample_parent) [sample_entry] [80; 81].

Lemma sample_parent_ok : parent_ok (HT := crockford) sample_parent.
Proof.
  split; [|split; [apply length_le_bytes|apply le_bytes_ok]]. exists 77, 78.
  unfold u128_ok, U128. split_and!; [lia..|done|done].
Qed.

Lemma sample_fork_ok : lineage_ok (HT := crockford) sample_fork ∧ lineage_ok (HT := crockford) sample_recovering.
Proof.
  assert (one_line sample_entry) as He by (split; vm_compute; reflexivity).
  split; (split_and!; [intros p [= <-]; exact sample_parent_ok|by repeat constructor|constructor| |done]);
    repeat constructor; unfold U128; lia.
Qed.

Lemma provenance_roundtrip_witness :
  verify_lineage_with_key (HT := crockford) (HE := toy_ed25519) (write_provenance (HT := crockford) (HE := toy_ed25519) [3] sample_recovering)
    (toy_public [3]) = Done (Ok sample_recovering).
Proof.
  apply (@provenance_roundtrip crockford crockford_laws crockford_chars toy_ed25519 toy_ed25519_laws [3]).
  apply sample_fork_ok.
Defined.

Lemma manifest_roundtrip_witness :
  read_snapshot_manifest_from_bytes (HT := crockford) (HE := toy_ed25519)
    (build_snapshot_manifest_bytes (HT := crockford) (toy_sign (toy_public [3])) [9; 5; 9]) (toy_public [3]) = Done (Ok [5; 9]).
Proof.
  apply (@manifest_roundtrip crockford crockford_laws crockford_chars toy_ed25519 toy_ed25519_laws [3] [9; 5; 9]).
  repeat constructor; unfold u128_ok, U128; lia.
Defined.

(** A holder that signed one fork, one manifest and one possession proof. *)
Definition sample_proof : Possession := mkPossession 77 80 [1; 2] 1700000000 [3; 4].
Definition sample_holder : Holder := mkHolder [sample_fork] [[9; 5; 9]] [sample_proof].
Definition sample_ledger : Ed25519 := ledger_ed25519 (λ msg,
  bool_decide (msg = provenance_signing_input (HT := crockford) sample_fork) ||
  bool_decide (msg = manifest_signing_input (sorted_texts (HT := crockford) [9; 5; 9])) ||
  bool_decide (msg = possession_input (HT := crockford) (HB := toy_blake3) sample_proof)).
Definition sample_manifest : string :=
  build_snapshot_manifest_bytes (HT := crockford) (toy_sign (toy_public [3])) [9; 5; 9].

Lemma accepted_is_signed_witness :
  read_snapshot_manifest_from_bytes (HT := crockford) (HE := sample_ledger) sample_manifest (toy_public [3])
    = Done (Ok [5; 9]) ∧
  (∀ out, read_snapshot_manifest_from_bytes (HT := crockford) (HE := sample_ledger) sample_manifest (toy_public [3])
            = Done (Ok out) →
     StronglySorted Z.lt out ∧ ∃ us, us ∈ signed_manifests sample_holder ∧ ∀ u, u ∈ out ↔ u ∈ us).
Proof.
  split; [vm_compute; reflexivity|].
  refine (λ out, proj1 (proj2 (@accepted_is_signed crockford crockford_laws crockford_chars sample_ledger toy_blake3 (toy_public [3]) sample_holder _ _))
    sample_manifest out).
  - intros msg sig. cbn [vk_verify sample_ledger ledger_ed25519]. intros [[[H|H]%orb_true_iff|H]%orb_true_iff _]%andb_true_iff;
      apply bool_decide_eq_true in H; right;
      [left; exists sample_fork|right; left; exists [9; 5; 9]|right; right; exists sample_proof]; (split; [by left|exact H]).
  - split.
    + intros l [->|H]%elem_of_cons; [|by apply not_elem_of_nil in H]. split.
      * split_and!; [intros p [= <-]; exact sample_parent_ok|constructor|done].
      * split; [|constructor]. constructor; [|constructor]. split; vm_compute; reflexivity.
    + intros us [->|H]%elem_of_cons; [|by apply not_elem_of_nil in H]. repeat constructor; unfold U128; lia.
Defined.
