(* ===== verification/Ancestry.v ===== *)
(** * Ancestry (elide-core/src/volume/ancestry.rs)

    A volume's signed lineage names its parent and the volumes whose extents it
    reuses; the walks below follow those names through [by_id/], one directory a
    volume.  The directories do not change during a walk.  A walk takes fuel, a
    unit a volume it visits, and answers [None] when it runs out: the code loops
    on, or overflows its stack. *)

From Stdlib Require Import Ascii String.
From stdpp Require Import base gmap list strings.
From S2P Require Import Prelude Text Provenance.
Open Scope Z_scope.

(** A layer's directory is its name under [by_id/]. *)
Record AncestorLayer := mkAncestorLayer { al_dir : string; al_branch : option string }.

#[export] Instance AncestorLayer_eq_dec : EqDecision AncestorLayer.
Proof. solve_decision. Defined.

(** The volumes of [by_id/], by directory name. *)
Abbreviation ById := (string → VolumeDir) (only parsing).

(** A walk that has not returned is [None]. *)
Definition then_ {A B} (r : panics A) (k : A → option (panics B)) : option (panics B) :=
  match r with Done (Ok a) => k a | Done (Err e) => Some (Done (Err e)) | Panic => Some Panic end.
Definition map_result {A B} (f : A → B) (r : option (panics A)) : option (panics B) :=
  match r with Some r => Some (a ← r; mret (f a)) | None => None end.

Section ancestry.
Context {HT : UlidText} {HE : Ed25519}.
Variable by_id : ById.

Definition resolve_ancestor_dir (name : string) : VolumeDir := by_id name.

Definition parse_lineage_pair (entry : string) : panics (Ulid * Ulid) :=
  '(source_s, snapshot_s) ← or_other (split_once SLASH entry);
  if has_char SLASH snapshot_s then other
  else source ← or_other (ulid_from_string source_s);
       snapshot ← or_other (ulid_from_string snapshot_s);
       mret (source, snapshot).

Definition load_lineage_or_empty (d : VolumeDir) : panics ProvenanceLineage :=
  if vd_exists d VOLUME_PROVENANCE_FILE then
    read_lineage_verifying_signature d VOLUME_PUB_FILE VOLUME_PROVENANCE_FILE
  else mret root.

(** ** The check an open makes of its ancestors *)

Definition idx_path (seg : Ulid) : string := "index/" +:+ ulid_to_string seg +:+ ".idx".

(** One ancestor: its manifest under the key its child names, its index files, its
    own lineage under the same key. *)
Definition verify_parent (p : ParentRef) : panics ProvenanceLineage :=
  let d := resolve_ancestor_dir (volume_ulid p) in
  if vd_there d then
    if vk_valid (pubkey p) then
      snap ← or_other (ulid_from_string (snapshot_ulid p));
      segs ← read_snapshot_manifest d (pubkey p) snap;
      if forallb (λ seg, vd_exists d (idx_path seg)) segs then
        read_lineage_with_key d (pubkey p) VOLUME_PROVENANCE_FILE
      else other
    else other
  else other.

Fixpoint verify_loop (fuel : nat) (p : ParentRef) : option (panics unit) :=
  match fuel with
  | O => None
  | S fuel =>
      then_ (verify_parent p) (λ l,
        match parent l with None => Some (mret tt) | Some next => verify_loop fuel next end)
  end.

Definition verify_ancestor_manifests (fuel : nat) (d : VolumeDir) : option (panics unit) :=
  if vd_exists d VOLUME_PROVENANCE_FILE then
    then_ (load_verifying_key d VOLUME_PUB_FILE) (λ own,
      then_ (read_lineage_with_key d own VOLUME_PROVENANCE_FILE) (λ l,
        match parent l with None => Some (mret tt) | Some p => verify_loop fuel p end))
  else Some (mret tt).

(** ** The walks *)

(** Oldest first. *)
Fixpoint walk_ancestors (fuel : nat) (d : VolumeDir) : option (panics (list AncestorLayer)) :=
  match fuel with
  | O => None
  | S fuel =>
      then_ (load_lineage_or_empty d) (λ l,
        match parent l with
        | None => Some (mret [])
        | Some p =>
            map_result (λ ls, ls ++ [mkAncestorLayer (volume_ulid p) (Some (snapshot_ulid p))])
              (walk_ancestors fuel (resolve_ancestor_dir (volume_ulid p)))
        end)
  end.

Definition str_lt (a b : string) : bool := bool_decide (String.le a b) && negb (bool_decide (a = b)).

(** The first layer of the source takes the greater snapshot; a source met for
    the first time goes last. *)
Fixpoint merge_source (layers : list AncestorLayer) (dir snapshot : string) : list AncestorLayer :=
  match layers with
  | [] => [mkAncestorLayer dir (Some snapshot)]
  | l :: layers =>
      if decide (al_dir l = dir) then
        (if match al_branch l with None => true | Some prev => str_lt prev snapshot end
         then mkAncestorLayer dir (Some snapshot) else l) :: layers
      else l :: merge_source layers dir snapshot
  end.

Fixpoint merge_entries (entries : list string) (layers : list AncestorLayer) : panics (list AncestorLayer) :=
  match entries with
  | [] => mret layers
  | e :: es =>
      '(source, snapshot) ← parse_lineage_pair e;
      merge_entries es (merge_source layers (ulid_to_string source) (ulid_to_string snapshot))
  end.

Fixpoint extent_loop (fuel : nat) (d : VolumeDir) (layers : list AncestorLayer)
    : option (panics (list AncestorLayer)) :=
  match fuel with
  | O => None
  | S fuel =>
      then_ (load_lineage_or_empty d) (λ l,
        then_ (merge_entries (extent_index l) layers) (λ layers,
          match parent l with
          | None => Some (mret layers)
          | Some p => extent_loop fuel (resolve_ancestor_dir (volume_ulid p)) layers
          end))
  end.

Definition walk_extent_ancestors (fuel : nat) (d : VolumeDir) : option (panics (list AncestorLayer)) :=
  extent_loop fuel d [].

(** [seen] and [out] together: a ULID not in the list goes last. *)
Definition push_ulid (out : list Ulid) (u : Ulid) : list Ulid := if decide (u ∈ out) then out else out ++ [u].
Definition push_layer (out : list Ulid) (l : AncestorLayer) : list Ulid :=
  match ulid_from_string (al_dir l) with Some u => push_ulid out u | None => out end.

Definition lineage_ulids (fuel : nat) (d : VolumeDir) : option (panics (list Ulid)) :=
  match walk_ancestors fuel d with
  | None => None
  | Some forks =>
      then_ forks (λ forks,
        match walk_extent_ancestors fuel d with
        | None => None
        | Some extents =>
            then_ extents (λ extents,
              then_ (load_lineage_or_empty d) (λ own,
                Some (mret (foldl push_ulid (foldl push_layer [] (forks ++ extents)) (recovery_sources own)))))
        end)
  end.

(** The stable snapshots of a listing of [snapshots/]; [max] of none is [None]. *)
Definition latest_snapshot (listing : io (list string)) : io (option Ulid) :=
  match listing with
  | Err NotFound => Ok None
  | Err e => Err e
  | Ok names =>
      Ok (foldl (λ best n, match parse_snapshot_filename n with
                           | Some (u, User) => Some (match best with Some b => Z.max b u | None => u end)
                           | _ => best
                           end) None names)
  end.
End ancestry.
