(* ===== verification/AncestrySpec.v ===== *)
(** * What the ancestry walks establish

    An open that passes its check stands on a chain of signatures; the walks
    visit that chain, each extent source once, at its latest snapshot. *)

From Stdlib Require Import Ascii String.
From stdpp Require Import base gmap list sorting strings.
From S2P Require Import Prelude Bytes Text Crockford Provenance ProvenanceSpec Ancestry.
Open Scope Z_scope.

Lemma then_Ok {A B} (r : panics A) (k : A → option (panics B)) b :
  then_ r k = Some (Done (Ok b)) ↔ ∃ a, r = Done (Ok a) ∧ k a = Some (Done (Ok b)).
Proof. destruct r as [[a|e]|]; cbn; (split; [try done; intros H; by exists a|by intros (? & [=] & ?); subst]). Qed.

Lemma map_result_Ok {A B} (f : A → B) r b :
  map_result f r = Some (Done (Ok b)) ↔ ∃ a, r = Some (Done (Ok a)) ∧ b = f a.
Proof.
  destruct r as [[[a|e]|]|]; cbn; (split; [try done; intros [= <-]; by exists a|by intros (? & [=] & ?); subst]).
Qed.

Section spec.
Context {HT : UlidText} {HL : UlidTextLaws HT} {HC : UlidCharLaws HT} {HE : Ed25519}.
Variable by_id : string → VolumeDir.

(** A file that reads exists. *)
Definition coherent (d : VolumeDir) : Prop := ∀ name s, vd_read d name = Ok s → vd_exists d name = true.

(** The lineage a directory's file parses to, whatever key it is read under. *)
Definition lineage_of (d : VolumeDir) : option ProvenanceLineage :=
  match vd_read d VOLUME_PROVENANCE_FILE with
  | Ok c => match parse_provenance c with Done (Ok (l, _)) => Some l | _ => None end
  | Err _ => None
  end.

Lemma read_lineage_of d vk l : read_lineage_with_key d vk VOLUME_PROVENANCE_FILE = Done (Ok l) → lineage_of d = Some l.
Proof.
  unfold read_lineage_with_key, read_other, lineage_of. destruct (vd_read d _) as [c|]; [|done]. cbn.
  unfold verify_lineage_with_key. intros ([l' sig] & -> & H)%panics_bind_Ok. case_decide; [|done].
  destruct (vk_verify _ _ _); [|done]. by injection H as ->.
Qed.

Lemma load_lineage_of d l : load_lineage_or_empty d = Done (Ok l) →
  if vd_exists d VOLUME_PROVENANCE_FILE then lineage_of d = Some l else l = root.
Proof.
  unfold load_lineage_or_empty. destruct (vd_exists d _); [|by intros [= <-]].
  unfold read_lineage_verifying_signature. intros (vk & _ & H)%panics_bind_Ok. by eapply read_lineage_of.
Qed.

Lemma lineage_coherent d l : coherent d → lineage_of d = Some l → vd_exists d VOLUME_PROVENANCE_FILE = true.
Proof. unfold lineage_of. intros Hc. destruct (vd_read d _) eqn:E; [|done]. intros _. by eapply Hc. Qed.

(** ** The chain of signatures *)

Section trust.
Context {HB : Blake3}.
Variables (volume_key : list Z → Prop) (holder : list Z → Holder).

(** The keys of volumes: each signs what a volume signs and nothing else passes
    under it; and a volume names as its parent's key a volume's. *)
Record keys_ok : Prop := {
  ko_vouches vk : volume_key vk → vouches vk (holder vk);
  ko_holder vk : volume_key vk → holder_ok (holder vk);
  ko_parents vk l p : volume_key vk → l ∈ signed_lineages (holder vk) → parent l = Some p → volume_key (pubkey p)
}.

(** [key]'s holder named the parent; the parent's key signed the snapshot whose
    segments are there; and so on up. *)
Inductive trusted : list Z → option ParentRef → list ParentRef → Prop :=
  | trusted_root key : trusted key None []
  | trusted_step key p l next ps us :
      l ∈ signed_lineages (holder key) → parent l = Some p →
      us ∈ signed_manifests (holder (pubkey p)) →
      (∀ u, u ∈ us → vd_exists (by_id (volume_ulid p)) (idx_path u) = true) →
      trusted (pubkey p) next ps → trusted key (Some p) (p :: ps).

(** The parents one after the other, as the directories name them. *)
Inductive parents_from : option ParentRef → list ParentRef → Prop :=
  | parents_end : parents_from None []
  | parents_step p l ps :
      lineage_of (by_id (volume_ulid p)) = Some l → parents_from (parent l) ps → parents_from (Some p) (p :: ps).

Context (Hkeys : keys_ok).

Lemma lineage_named d key l p : volume_key key → read_lineage_with_key d key VOLUME_PROVENANCE_FILE = Done (Ok l) → parent l = Some p →
  ∃ l0, l0 ∈ signed_lineages (holder key) ∧ parent l0 = Some p.
Proof.
  unfold read_lineage_with_key. intros Hk (c & _ & Hv)%panics_bind_Ok Hp.
  eapply accepted_parent; [by apply ko_vouches|by apply ko_holder|done..].
Qed.

Lemma verify_parent_Ok p l : volume_key (pubkey p) → verify_parent by_id p = Done (Ok l) →
  read_lineage_with_key (by_id (volume_ulid p)) (pubkey p) VOLUME_PROVENANCE_FILE = Done (Ok l) ∧
  ∃ us, us ∈ signed_manifests (holder (pubkey p)) ∧
    ∀ u, u ∈ us → vd_exists (by_id (volume_ulid p)) (idx_path u) = true.
Proof.
  intros Hk. unfold verify_parent, resolve_ancestor_dir. destruct (vd_there _); [|done]. destruct (vk_valid _); [|done].
  intros (snap & _ & (segs & Hs & H)%panics_bind_Ok)%panics_bind_Ok.
  destruct (forallb _ segs) eqn:Hall; [|done]. split; [done|].
  unfold read_snapshot_manifest in Hs. apply panics_bind_Ok in Hs as (c & _ & Hs).
  destruct (accepted_manifest _ _ _ _ (ko_vouches Hkeys _ Hk) (ko_holder Hkeys _ Hk) Hs) as (us & Hin & ->). exists us. split; [done|].
  intros u Hu. rewrite forallb_forall in Hall. apply Hall, list_elem_of_In. by apply elem_of_manifest_ulids.
Qed.

Lemma verify_loop_trusted fuel : ∀ key p, volume_key key → (∃ l, l ∈ signed_lineages (holder key) ∧ parent l = Some p) →
  verify_loop by_id fuel p = Some (Done (Ok tt)) → ∃ ps, trusted key (Some p) ps ∧ parents_from (Some p) ps.
Proof.
  induction fuel as [|fuel IH]; intros key p Hk (l0 & Hl0 & Hp0); cbn [verify_loop]; [done|].
  assert (volume_key (pubkey p)) as Hkp by (by eapply ko_parents).
  intros (l & Hv & H)%then_Ok. destruct (verify_parent_Ok p l Hkp Hv) as (Hr & us & Hus & Hidx).
  pose proof (read_lineage_of _ _ _ Hr) as Hof. destruct (parent l) as [next|] eqn:Hp.
  - destruct (IH (pubkey p) next) as (ps & Ht & Hc); [done|by eapply lineage_named|done|].
    exists (p :: ps). split; [by econstructor|]. econstructor; [done|by rewrite Hp].
  - exists [p]. split; [by econstructor; [..|constructor]|]. econstructor; [done|rewrite Hp; constructor].
Qed.
End trust.

(** ** The fork chain *)

(** The lineages a walk reads, the volume's own first. *)
Inductive chain : VolumeDir → list ProvenanceLineage → Prop :=
  | chain_end d l : load_lineage_or_empty d = Done (Ok l) → parent l = None → chain d [l]
  | chain_step d l p ls :
      load_lineage_or_empty d = Done (Ok l) → parent l = Some p → chain (by_id (volume_ulid p)) ls → chain d (l :: ls).

Lemma chain_det d ls ls' : chain d ls → chain d ls' → ls = ls'.
Proof.
  intros H. revert ls'. induction H as [d l Hl Hp|d l p ls Hl Hp Hc IH]; intros ls' H'.
  - inversion H' as [? l' Hl' Hp'|? l' p' ? Hl' Hp' _]; subst; rewrite Hl in Hl'; injection Hl' as <-; congruence.
  - inversion H' as [? l' Hl' Hp'|? l' p' ls2 Hl' Hp' Hc']; subst; rewrite Hl in Hl'; injection Hl' as <-; [congruence|].
    rewrite Hp in Hp'. injection Hp' as <-. f_equal. by apply IH.
Qed.

Definition layer_of (p : ParentRef) : AncestorLayer := mkAncestorLayer (volume_ulid p) (Some (snapshot_ulid p)).

Lemma walk_chain fuel : ∀ d layers, walk_ancestors by_id fuel d = Some (Done (Ok layers)) →
  ∃ ls, chain d ls ∧ layers = rev (map layer_of (omap parent ls)).
Proof.
  induction fuel as [|fuel IH]; intros d layers; cbn [walk_ancestors]; [done|].
  intros (l & Hl & H)%then_Ok. destruct (parent l) as [p|] eqn:Hp.
  - apply map_result_Ok in H as (rest & Hr & ->). destruct (IH _ _ Hr) as (ls & Hc & ->).
    exists (l :: ls). split; [by econstructor|]. cbn. by rewrite Hp.
  - injection H as <-. exists [l]. split; [by constructor|]. cbn. by rewrite Hp.
Qed.

(** The parents the check verified are those the walk visits. *)
Lemma chain_parents d ls l ps : (∀ n, coherent (by_id n)) → chain d ls →
  load_lineage_or_empty d = Done (Ok l) → parents_from (parent l) ps → omap parent ls = ps.
Proof.
  intros Hco Hc. revert l ps. induction Hc as [d l Hl Hp|d l p ls Hl Hp Hc IH]; intros l' ps Hl' Hps;
    rewrite Hl in Hl'; injection Hl' as <-; rewrite Hp in Hps; cbn; rewrite Hp.
  - by inversion Hps.
  - inversion Hps as [|? l2 ps' Hof Hrest]; subst. f_equal.
    assert (∃ l3, load_lineage_or_empty (by_id (volume_ulid p)) = Done (Ok l3)) as [l3 H3] by (inversion Hc; by eexists).
    pose proof (load_lineage_of _ _ H3) as Hof3. rewrite (lineage_coherent _ _ (Hco _) Hof) in Hof3.
    assert (l3 = l2) as -> by congruence. by eapply IH.
Qed.

(** ** Extent sources *)

Lemma extent_chain fuel : ∀ d layers0 layers, extent_loop by_id fuel d layers0 = Some (Done (Ok layers)) →
  ∃ ls, chain d ls ∧ merge_entries (concat (map extent_index ls)) layers0 = Done (Ok layers).
Proof.
  induction fuel as [|fuel IH]; intros d layers0 layers; cbn [extent_loop]; [done|].
  intros (l & Hl & (mid & Hm & H)%then_Ok)%then_Ok.
  assert (∀ es es' ls, merge_entries (es ++ es') ls = mid ← merge_entries es ls; merge_entries es' mid) as Happ.
  { intros es es'. induction es as [|e es IHes]; intros ls0; [done|]. cbn [app merge_entries].
    destruct (parse_lineage_pair e) as [[[]|]|]; [|done..]. cbn. apply IHes. }
  destruct (parent l) as [p|] eqn:Hp.
  - destruct (IH _ _ _ H) as (ls & Hc & Hr). exists (l :: ls). split; [by econstructor|]. cbn [map concat].
    by rewrite Happ, Hm.
  - injection H as <-. exists [l]. split; [by constructor|]. cbn. by rewrite app_nil_r.
Qed.

(** The pairs a list of entries parses to. *)
Fixpoint pairs_of (entries : list string) : list (Ulid * Ulid) :=
  match entries with
  | [] => []
  | e :: es => match parse_lineage_pair e with Done (Ok p) => p :: pairs_of es | _ => pairs_of es end
  end.

Lemma parse_pair_ok e u s : parse_lineage_pair e = Done (Ok (u, s)) → u128_ok u ∧ u128_ok s ∧ entry_ok e.
Proof.
  unfold parse_lineage_pair. intros ([a b] & Hs%or_other_Ok & H)%panics_bind_Ok.
  destruct (has_char SLASH b) eqn:Hb; [done|].
  apply panics_bind_Ok in H as (u' & Hu%or_other_Ok & H). apply panics_bind_Ok in H as (s' & Hs'%or_other_Ok & [= <- <-]).
  split_and!; [by eapply ulid_text_range..|].
  assert (e = a +:+ String SLASH b) as ->.
  { clear Hu Hs' Hb. revert a b Hs. induction e as [|c e IH]; intros a b; cbn [split_once]; [done|].
    case_decide; [by intros [= <- <-]; subst|]. destruct (split_once SLASH e) as [[x y]|] eqn:E; [|done]. cbn.
    intros [= <- <-]. change (String c e = String c (x +:+ String SLASH y)). f_equal. by apply IH. }
  unfold entry_ok, no_nul. rewrite !has_char_app. pose proof (read_no_nul _ _ Hu) as Ha. pose proof (read_no_nul _ _ Hs') as Hb'.
  unfold no_nul in Ha, Hb'. rewrite Ha. split; [exact Hb'|]. cbn. apply orb_true_r.
Qed.

Lemma merge_entries_pairs es layers0 layers : merge_entries es layers0 = Done (Ok layers) →
  Forall (λ e, ∃ p, parse_lineage_pair e = Done (Ok p)) es ∧
  layers = foldl (λ ls p, merge_source ls (ulid_to_string p.1) (ulid_to_string p.2)) layers0 (pairs_of es).
Proof.
  revert layers0. induction es as [|e es IH]; intros layers0; cbn [merge_entries pairs_of]; [by intros [= <-]|].
  intros ([u s] & He & H)%panics_bind_Ok. rewrite He. destruct (IH _ H) as [Hf ->]. split; [|done].
  constructor; [by exists (u, s)|done].
Qed.

(** The layers of a set of pairs: a directory each, at its latest snapshot. *)
Definition layers_exact (ps : list (Ulid * Ulid)) (ls : list AncestorLayer) : Prop :=
  NoDup (map al_dir ls) ∧
  (∀ l, l ∈ ls → ∃ u s, (u, s) ∈ ps ∧ l = mkAncestorLayer (ulid_to_string u) (Some (ulid_to_string s)) ∧
     ∀ s', (u, s') ∈ ps → s' ≤ s) ∧
  (∀ u s, (u, s) ∈ ps → ulid_to_string u ∈ map al_dir ls).

Definition pairs_ok (ps : list (Ulid * Ulid)) : Prop := ∀ u s, (u, s) ∈ ps → u128_ok u ∧ u128_ok s.

Lemma str_lt_ulids a b : u128_ok a → u128_ok b → str_lt (ulid_to_string a) (ulid_to_string b) = true ↔ a < b.
Proof.
  intros Ha Hb. unfold str_lt. rewrite andb_true_iff, negb_true_iff, bool_decide_eq_true, bool_decide_eq_false, ulid_text_order by done.
  split; [|intros H; split; [lia|intros He%ulid_text_inj; [lia|done..]]].
  intros [Hle Hne]. destruct (decide (a = b)) as [->|]; [done|lia].
Qed.

Lemma merge_source_dirs ls dir snap :
  map al_dir (merge_source ls dir snap) = if decide (dir ∈ map al_dir ls) then map al_dir ls else map al_dir ls ++ [dir].
Proof.
  induction ls as [|l ls IH]; cbn [merge_source map]; [done|]. destruct (decide (al_dir l = dir)) as [<-|Hne].
  - rewrite decide_True by by left. cbn. f_equal. by repeat case_match.
  - cbn [map]. rewrite IH. destruct (decide (dir ∈ map al_dir ls)).
    + by rewrite decide_True by by right.
    + rewrite decide_False; [done|]. intros [?|?]%elem_of_cons; congruence.
Qed.

Lemma elem_of_merge_source ls dir snap l : NoDup (map al_dir ls) → l ∈ merge_source ls dir snap →
  (l ∈ ls ∧ al_dir l ≠ dir) ∨
  (l ∈ ls ∧ al_dir l = dir ∧ match al_branch l with None => true | Some prev => str_lt prev snap end = false) ∨
  (l = mkAncestorLayer dir (Some snap) ∧
   ∀ l', l' ∈ ls → al_dir l' = dir → match al_branch l' with None => true | Some prev => str_lt prev snap end = true).
Proof.
  induction ls as [|x ls IH]; cbn [merge_source map].
  { intros _ ->%list_elem_of_singleton. right; right. split; [done|]. intros l' Hl'. by apply not_elem_of_nil in Hl'. }
  intros [Hx Hnd]%NoDup_cons. case_decide as Hd.
  - assert (∀ l', l' ∈ ls → al_dir l' ≠ dir) as Hout.
    { intros l' Hl' He. apply Hx. rewrite Hd, <-He. by apply list_elem_of_fmap_2. }
    intros [->|Hl]%elem_of_cons; [|left; split; [by right|by apply Hout]].
    destruct (match al_branch x with None => true | Some prev => str_lt prev snap end) eqn:E.
    + right; right. split; [done|]. intros l' [->|Hl']%elem_of_cons He; [done|]. by destruct (Hout l' Hl').
    + right; left. split; [by left|done].
  - intros [->|Hl]%elem_of_cons; [left; split; [by left|done]|].
    destruct (IH Hnd Hl) as [[H1 H2]|[(H1 & H2)|(H1 & H2)]].
    + left. split; [by right|done].
    + right; left. split; [by right|done].
    + right; right. split; [done|]. intros l' [->|Hl']%elem_of_cons He; [done|]. by apply H2.
Qed.

Lemma merge_source_exact ps ls u s : pairs_ok (ps ++ [(u, s)]) → layers_exact ps ls →
  layers_exact (ps ++ [(u, s)]) (merge_source ls (ulid_to_string u) (ulid_to_string s)).
Proof.
  intros Hok (Hnd & Hl & Hp).
  assert (u128_ok u ∧ u128_ok s) as [Hu Hs] by (apply Hok, elem_of_app; right; by left).
  assert (∀ v t, (v, t) ∈ ps → u128_ok v ∧ u128_ok t) as Hps by (intros v t H; apply Hok, elem_of_app; by left).
  split_and!.
  - rewrite merge_source_dirs. case_decide as Hd; [done|]. apply NoDup_app. split_and!; [done| |apply NoDup_singleton].
    intros x Hx ->%list_elem_of_singleton. done.
  - intros l Hin. apply elem_of_merge_source in Hin as [[Hin Hne]|[(Hin & He & Hlt)|(-> & Hall)]]; [| |..|done].
    + destruct (Hl l Hin) as (v & t & Hvt & -> & Hmax). exists v, t. split_and!; [apply elem_of_app; by left|done|].
      intros s' [H|H]%elem_of_app; [by apply Hmax|]. apply list_elem_of_singleton in H as [= -> ->]. done.
    + destruct (Hl l Hin) as (v & t & Hvt & -> & Hmax). destruct (Hps v t Hvt) as [Hv Ht]. cbn in He, Hlt.
      apply ulid_text_inj in He as ->; [|done..]. exists u, t. split_and!; [apply elem_of_app; by left|done|].
      intros s' [H|H]%elem_of_app; [by apply Hmax|]. apply list_elem_of_singleton in H as [= ->].
      apply not_true_iff_false in Hlt. rewrite str_lt_ulids in Hlt by done. lia.
    + exists u, s. split_and!; [apply elem_of_app; right; by left|done|].
      intros s' [H|H]%elem_of_app; [|by apply list_elem_of_singleton in H as [= ->]].
      pose proof (Hp u s' H) as Hd. apply list_elem_of_fmap in Hd as (l & He & Hin).
      destruct (Hl l Hin) as (v & t & Hvt & -> & Hmax). destruct (Hps v t Hvt) as [Hv Ht]. cbn in He.
      apply ulid_text_inj in He as ->; [|done..]. specialize (Hall _ Hin eq_refl). cbn in Hall.
      apply str_lt_ulids in Hall; [|done..]. specialize (Hmax s' H). lia.
  - intros v t H. rewrite merge_source_dirs. apply elem_of_app in H as [H|H].
    + pose proof (Hp v t H) as Hd. case_decide; [done|]. apply elem_of_app. by left.
    + apply list_elem_of_singleton in H as [= -> ->]. case_decide; [done|]. apply elem_of_app. right. by left.
Qed.

Lemma merge_exact ps : ∀ ps0 ls0, pairs_ok (ps0 ++ ps) → layers_exact ps0 ls0 →
  layers_exact (ps0 ++ ps) (foldl (λ ls p, merge_source ls (ulid_to_string p.1) (ulid_to_string p.2)) ls0 ps).
Proof.
  induction ps as [|[u s] ps IH]; intros ps0 ls0 Hok H0; cbn [foldl]; [by rewrite app_nil_r|].
  rewrite cons_middle, app_assoc in Hok |- *. apply IH; [done|]. cbn [fst snd]. apply merge_source_exact; [|done].
  intros v t H. apply Hok. apply elem_of_app. by left.
Qed.

Lemma pairs_of_ok es : pairs_ok (pairs_of es).
Proof.
  intros u s. induction es as [|e es IH]; cbn [pairs_of]; [intros H; by apply not_elem_of_nil in H|].
  destruct (parse_lineage_pair e) as [[[v t]|]|] eqn:E; try done.
  intros [[= -> ->]|H]%elem_of_cons; [|by apply IH]. apply parse_pair_ok in E. tauto.
Qed.

(** The entries of a chain, as pairs. *)
Definition chain_pairs (ls : list ProvenanceLineage) : list (Ulid * Ulid) := pairs_of (concat (map extent_index ls)).

Lemma extent_layers fuel d layers : walk_extent_ancestors by_id fuel d = Some (Done (Ok layers)) →
  ∃ ls, chain d ls ∧ layers_exact (chain_pairs ls) layers.
Proof.
  intros H. apply extent_chain in H as (ls & Hc & H). exists ls. split; [done|].
  apply merge_entries_pairs in H as [_ ->]. apply (merge_exact _ [] []); [apply pairs_of_ok|].
  split_and!; [constructor|..]; [intros l H|intros u s H]; by apply not_elem_of_nil in H.
Qed.

(** ** The read set *)

Lemma push_ulid_spec out u : NoDup out → NoDup (push_ulid out u) ∧ ∀ v, v ∈ push_ulid out u ↔ v ∈ out ∨ v = u.
Proof.
  intros Hnd. unfold push_ulid. case_decide as Hu.
  - split; [done|]. intros v. split; [tauto|]. by intros [?| ->].
  - split.
    + apply NoDup_app. split_and!; [done| |apply NoDup_singleton]. intros x Hx ->%list_elem_of_singleton. done.
    + intros v. by rewrite elem_of_app, list_elem_of_singleton.
Qed.

Lemma push_layer_spec out l : NoDup out →
  NoDup (push_layer out l) ∧ ∀ v, v ∈ push_layer out l ↔ v ∈ out ∨ ulid_from_string (al_dir l) = Some v.
Proof.
  intros Hnd. unfold push_layer. destruct (ulid_from_string (al_dir l)) as [u|].
  - destruct (push_ulid_spec out u Hnd) as [Hn Hv]. split; [done|]. intros v. rewrite Hv. split; (intros [?|H]; [by left|right]); congruence.
  - split; [done|]. intros v. split; [by left|by intros [?|[=]]].
Qed.

Lemma fold_push {A} (f : list Ulid → A → list Ulid) (R : A → Ulid → Prop) (xs : list A) out :
  (∀ out x, NoDup out → NoDup (f out x) ∧ ∀ v, v ∈ f out x ↔ v ∈ out ∨ R x v) →
  NoDup out → NoDup (foldl f out xs) ∧ ∀ v, v ∈ foldl f out xs ↔ v ∈ out ∨ ∃ x, x ∈ xs ∧ R x v.
Proof.
  intros Hf. revert out. induction xs as [|x xs IH]; intros out Hnd; cbn [foldl].
  - split; [done|]. intros v. split; [by left|]. intros [?|(x & Hx & _)]; [done|by apply not_elem_of_nil in Hx].
  - destruct (Hf out x Hnd) as [Hn Hv]. destruct (IH _ Hn) as [Hn' Hv']. split; [done|]. intros v.
    rewrite Hv', Hv. split.
    + intros [[?|?]|(y & Hy & ?)]; [by left|right; exists x; split; [by left|done]|right; exists y; split; [by right|done]].
    + intros [?|(y & [->|Hy]%elem_of_cons & ?)]; [by left; left|by left; right|right; by exists y].
Qed.

Definition walk_layers (ls : list ProvenanceLineage) : list AncestorLayer := rev (map layer_of (omap parent ls)).

Lemma elem_of_walk_layers ls u : (∃ l, l ∈ walk_layers ls ∧ ulid_from_string (al_dir l) = Some u) ↔
  ∃ p, p ∈ omap parent ls ∧ ulid_from_string (volume_ulid p) = Some u.
Proof.
  unfold walk_layers. split.
  - intros (l & Hl & Hu). rewrite <-list_elem_of_In, <-in_rev, list_elem_of_In in Hl || (apply list_elem_of_In, in_rev, list_elem_of_In in Hl).
    apply list_elem_of_fmap in Hl as (p & -> & Hp). by exists p.
  - intros (p & Hp & Hu). exists (layer_of p). split; [|done].
    apply list_elem_of_In, in_rev. rewrite rev_involutive. apply list_elem_of_In. by apply list_elem_of_fmap_2.
Qed.

Lemma elem_of_extent_dirs ps ls u : pairs_ok ps → layers_exact ps ls →
  (∃ l, l ∈ ls ∧ ulid_from_string (al_dir l) = Some u) ↔ ∃ s, (u, s) ∈ ps.
Proof.
  intros Hok (_ & Hl & Hp). split.
  - intros (l & Hin & Hu). destruct (Hl l Hin) as (v & t & Hvt & -> & _). cbn in Hu.
    rewrite ulid_text_back in Hu by (by destruct (Hok _ _ Hvt)). injection Hu as <-. by exists t.
  - intros (s & Hs). pose proof (Hp u s Hs) as Hd. apply list_elem_of_fmap in Hd as (l & He & Hin).
    exists l. split; [done|]. rewrite <-He. apply ulid_text_back. by destruct (Hok _ _ Hs).
Qed.

(** The walks are exact. A read set that is computed comes from one chain of
    lineages, the volume's own first: the fork layers are its parents, oldest
    first; the extent layers are the sources any lineage of it names, each once,
    at the latest snapshot named; and the read set holds, each once, the parents,
    the sources and the volume's own recovery grants, nothing else. *)
Theorem lineage_walks_exact fuel d us : lineage_ulids by_id fuel d = Some (Done (Ok us)) →
  ∃ l ls extents, chain d (l :: ls) ∧
    walk_ancestors by_id fuel d = Some (Done (Ok (walk_layers (l :: ls)))) ∧
    walk_extent_ancestors by_id fuel d = Some (Done (Ok extents)) ∧ layers_exact (chain_pairs (l :: ls)) extents ∧
    NoDup us ∧ ∀ u, u ∈ us ↔
      (∃ p, p ∈ omap parent (l :: ls) ∧ ulid_from_string (volume_ulid p) = Some u) ∨
      (∃ s, (u, s) ∈ chain_pairs (l :: ls)) ∨ u ∈ recovery_sources l.
Proof.
  unfold lineage_ulids. destruct (walk_ancestors by_id fuel d) as [forks|] eqn:Hw; [|done].
  intros (fs & -> & H)%then_Ok. destruct (walk_extent_ancestors by_id fuel d) as [extents|] eqn:He; [|done].
  apply then_Ok in H as (es & -> & H). apply then_Ok in H as (own & Hown & [= <-]).
  destruct (walk_chain _ _ _ Hw) as (ls & Hc & ->). destruct (extent_layers _ _ _ He) as (ls' & Hc' & Hx).
  rewrite <-(chain_det _ _ _ Hc Hc') in Hx. clear Hc'.
  destruct ls as [|l ls]; [by inversion Hc|].
  assert (l = own) as -> by (inversion Hc; subst; congruence).
  exists own, ls, es. do 4 (split; [done|]).
  destruct (fold_push push_layer (λ l v, ulid_from_string (al_dir l) = Some v) (walk_layers (own :: ls) ++ es) []
    push_layer_spec ltac:(constructor)) as [Hn Hv].
  destruct (fold_push push_ulid (λ u v, v = u) (recovery_sources own) _ push_ulid_spec Hn) as [Hn' Hv'].
  split; [exact Hn'|]. intros u. unfold walk_layers in Hv, Hv'. rewrite Hv', Hv. fold (walk_layers (own :: ls)).
  pose proof (elem_of_extent_dirs _ _ u (pairs_of_ok _) Hx) as Hd. pose proof (elem_of_walk_layers (own :: ls) u) as Hf.
  unfold chain_pairs in *. rewrite <-Hf, <-Hd. setoid_rewrite elem_of_app. split.
  - intros [[Hn0|(l & [Hl|Hl] & Hu)]|(v & Hr & ->)]; [by apply not_elem_of_nil in Hn0|..];
      [left; by exists l|right; left; by exists l|by right; right].
  - intros [(l & Hl & Hu)|[(l & Hl & Hu)|Hr]]; [left; right; exists l; tauto..|right; by exists u].
Qed.

(** ** Returning *)

(** C0: the walks return where lineages descend: if every parent ranks below the
    volume that names it, fuel above the rank of the first parent decides the
    check and the walks. *)
Theorem walks_return (rank : string → nat) d fuel :
  (∀ n, coherent (by_id n)) → coherent d →
  (∀ n l p, lineage_of (by_id n) = Some l → parent l = Some p → (rank (volume_ulid p) < rank n)%nat) →
  (∀ l p, lineage_of d = Some l → parent l = Some p → (rank (volume_ulid p) + 2 ≤ fuel)%nat) → (0 < fuel)%nat →
  is_Some (verify_ancestor_manifests by_id fuel d) ∧ is_Some (walk_ancestors by_id fuel d) ∧
  is_Some (walk_extent_ancestors by_id fuel d) ∧ is_Some (lineage_ulids by_id fuel d).
Proof.
  intros Hco Hcd Hrank Hfuel Hpos.
  assert (∀ fuel p, (rank (volume_ulid p) < fuel)%nat → is_Some (verify_loop by_id fuel p)) as Hv.
  { intros n. induction n as [|n IH]; intros p Hp; [lia|]. cbn [verify_loop].
    destruct (verify_parent by_id p) as [[l|]|] eqn:Hr; cbn; try by eexists.
    destruct (parent l) as [next|] eqn:Hn; [|by eexists]. apply IH.
    assert (lineage_of (by_id (volume_ulid p)) = Some l) as Hof.
    { unfold verify_parent, resolve_ancestor_dir in Hr. destruct (vd_there _); [|done]. destruct (vk_valid _); [|done].
      apply panics_bind_Ok in Hr as (snap & _ & Hr). apply panics_bind_Ok in Hr as (segs & _ & Hr).
      destruct (forallb _ _); [|done]. by eapply read_lineage_of. }
    specialize (Hrank _ _ _ Hof Hn). lia. }
  assert (∀ d l p, load_lineage_or_empty d = Done (Ok l) → parent l = Some p → lineage_of d = Some l) as Hload.
  { intros e l p Hl Hp. apply load_lineage_of in Hl. destruct (vd_exists e _); [done|]. by subst. }
  assert (∀ fuel d, (0 < fuel)%nat → (∀ l p, lineage_of d = Some l → parent l = Some p → (rank (volume_ulid p) + 2 ≤ fuel)%nat) →
    is_Some (walk_ancestors by_id fuel d) ∧ ∀ ls, is_Some (extent_loop by_id fuel d ls)) as Hw.
  { intros n. induction n as [|n IH]; intros e Hn Hf; [lia|]. cbn [walk_ancestors extent_loop].
    destruct (load_lineage_or_empty e) as [[l|]|] eqn:Hl; cbn [then_]; [|(split; [|intros]); by eexists..].
    destruct (parent l) as [p|] eqn:Hp.
    - specialize (Hf l p ltac:(by eapply Hload) Hp).
      destruct (IH (by_id (volume_ulid p))) as [H1 H2]; [lia| |].
      { intros l' p' Hl' Hp'. specialize (Hrank _ _ _ Hl' Hp'). lia. }
      unfold resolve_ancestor_dir. split; [destruct H1 as [r ->]; by eexists|]. intros ls.
      destruct (merge_entries _ _) as [[ls'|]|]; cbn; [apply H2|by eexists..].
    - split; [by eexists|]. intros ls. destruct (merge_entries _ _) as [[ls'|]|]; cbn; by eexists. }
  destruct (Hw fuel d Hpos Hfuel) as [H1 H2]. specialize (H2 []). split_and!; [|done|done|].
  - unfold verify_ancestor_manifests. destruct (vd_exists d _); [|by eexists].
    destruct (load_verifying_key d _) as [[own|]|]; cbn; [|by eexists..].
    destruct (read_lineage_with_key d own _) as [[l|]|] eqn:Hr; cbn; [|by eexists..].
    destruct (parent l) as [p|] eqn:Hp; [|by eexists]. apply Hv.
    specialize (Hfuel l p (read_lineage_of _ _ _ Hr) Hp). lia.
  - unfold lineage_ulids, walk_extent_ancestors. destruct H1 as [[[fs|]|] ->]; cbn; [|by eexists..].
    destruct H2 as [[[es|]|] ->]; cbn; [|by eexists..]. destruct (load_lineage_or_empty d) as [[o|]|]; by eexists.
Qed.

(** C22: an open that passes its check stands on a chain of signatures, where the
    signatures of the volumes' keys, which sign segments' hashes, lineages,
    manifests and possession proofs, cannot be forged and a volume names as its
    parent's key a volume's. The volume's own key signed its parent; each
    ancestor's key, as its child signed it, signed the snapshot the child branched
    from or another, whose every segment has its index file, and signed the next
    parent; the chain ends at a root. The layers a walk reads are that chain,
    oldest first. The directories stand still meanwhile: a file that reads exists. *)
Theorem ancestors_verified {HB : Blake3} (volume_key : list Z → Prop) (holder : list Z → Holder) fuel d :
  keys_ok volume_key holder → (∀ own, load_verifying_key d VOLUME_PUB_FILE = Done (Ok own) → volume_key own) →
  coherent d → (∀ n, coherent (by_id n)) →
  vd_exists d VOLUME_PROVENANCE_FILE = true → verify_ancestor_manifests by_id fuel d = Some (Done (Ok tt)) →
  ∃ own l ps, load_verifying_key d VOLUME_PUB_FILE = Done (Ok own) ∧
    read_lineage_with_key d own VOLUME_PROVENANCE_FILE = Done (Ok l) ∧ trusted holder own (parent l) ps ∧
    ∀ fuel' layers, walk_ancestors by_id fuel' d = Some (Done (Ok layers)) → layers = rev (map layer_of ps).
Proof.
  intros Hkeys Hkey Hcd Hco Hex. unfold verify_ancestor_manifests. rewrite Hex.
  intros (own & Hown & (l & Hl & H)%then_Ok)%then_Ok. exists own, l.
  assert (∃ ps, trusted holder own (parent l) ps ∧ parents_from (parent l) ps) as (ps & Ht & Hps).
  { destruct (parent l) as [p|] eqn:Hp; [|exists []; split; constructor].
    eapply verify_loop_trusted; [exact Hkeys|by apply Hkey| |exact H]. eapply lineage_named; [exact Hkeys|by apply Hkey|exact Hl|exact Hp]. }
  exists ps. split_and!; [done..|]. intros fuel' layers Hw.
  destruct (walk_chain _ _ _ Hw) as (ls & Hc & ->). do 2 f_equal. eapply chain_parents; [done|done| |done].
  unfold load_lineage_or_empty. rewrite Hex. unfold read_lineage_verifying_signature. by rewrite Hown.
Qed.

End spec.

(** ** Concrete directories *)

Definition dir_of (files : list (string * string)) : VolumeDir :=
  let find n := snd <$> head (filter (λ p, p.1 = n) files) in
  mkVolumeDir true (λ n, bool_decide (is_Some (find n))) (λ n, match find n with Some s => Ok s | None => Err NotFound end).
Definition no_dir : VolumeDir := mkVolumeDir false (λ _, false) (λ _, Err NotFound).

Lemma dir_of_coherent files : coherent (dir_of files).
Proof. intros n s. cbn. destruct (snd <$> _) eqn:E; [|done]. intros _. by apply bool_decide_eq_true. Qed.

Definition tree_ledger : Ed25519 := ledger_ed25519 (λ msg,
  bool_decide (msg = provenance_signing_input (HT := crockford) sample_fork) ||
  bool_decide (msg = provenance_signing_input (HT := crockford) root) ||
  bool_decide (msg = manifest_signing_input (sorted_texts (HT := crockford) [9; 5])) ||
  bool_decide (msg = possession_input (HT := crockford) (HB := toy_blake3) sample_proof)).

Definition pub_file (key : list Z) : string := encode_hex (toy_public key) +:+ String LF EmptyString.
Definition parent_dir : VolumeDir := dir_of
  [(VOLUME_PUB_FILE, pub_file [7]);
   (VOLUME_PROVENANCE_FILE, write_provenance (HT := crockford) (HE := tree_ledger) [7] root);
   (in_snapshots (snapshot_manifest_filename (HT := crockford) 78),
    build_snapshot_manifest_bytes (HT := crockford) (toy_sign (toy_public [7])) [9; 5]);
   (idx_path (HT := crockford) 5, EmptyString); (idx_path (HT := crockford) 9, EmptyString)].
Definition child_dir : VolumeDir := dir_of
  [(VOLUME_PUB_FILE, pub_file [3]);
   (VOLUME_PROVENANCE_FILE, write_provenance (HT := crockford) (HE := tree_ledger) [3] sample_fork)].
Definition sample_tree (n : string) : VolumeDir :=
  if decide (n = volume_ulid sample_parent) then parent_dir else no_dir.

Lemma sample_tree_coherent n : coherent (sample_tree n).
Proof. unfold sample_tree. case_decide; [apply dir_of_coherent|]. intros m s. cbn. done. Qed.

Definition tree_holder (key : list Z) : Holder := mkHolder [sample_fork; root] [[9; 5]] [sample_proof].

Lemma tree_holds key : vouches (HT := crockford) (HE := tree_ledger) (HB := toy_blake3) key (tree_holder key).
Proof.
  intros msg sig. cbn [vk_verify tree_ledger ledger_ed25519].
  intros [[[[H|H]%orb_true_iff|H]%orb_true_iff|H]%orb_true_iff _]%andb_true_iff; apply bool_decide_eq_true in H; right;
    [left; exists sample_fork|left; exists root|right; left; exists [9; 5]|right; right; exists sample_proof]; (split; [|exact H]).
  - by left.
  - by right; left.
  - by left.
  - by left.
Qed.

Lemma tree_holder_ok key : holder_ok (HT := crockford) (tree_holder key).
Proof.
  split.
  - intros l [->|[->|H]%elem_of_cons]%elem_of_cons; [..|by apply not_elem_of_nil in H].
    + split.
      * split_and!; [intros p [= <-]; exact sample_parent_ok|constructor|done].
      * split; [|constructor]. constructor; [|constructor]. split; vm_compute; reflexivity.
    + split; [split_and!; [done|constructor|done]|split; constructor].
  - intros us [->|H]%elem_of_cons; [|by apply not_elem_of_nil in H]. repeat constructor; unfold U128; lia.
Qed.

(** Two volumes' keys. *)
Definition tree_key (vk : list Z) : Prop := vk = toy_public [3] ∨ vk = toy_public [7].

Lemma tree_keys_ok : keys_ok (HT := crockford) (HE := tree_ledger) (HB := toy_blake3) tree_key tree_holder.
Proof.
  split.
  - intros vk _. apply tree_holds.
  - intros vk _. apply tree_holder_ok.
  - intros vk l p _ [->|[->|H]%elem_of_cons]%elem_of_cons; [|done|by apply not_elem_of_nil in H].
    intros [= <-]. by right.
Qed.

Lemma ancestors_verified_witness :
  verify_ancestor_manifests (HT := crockford) (HE := tree_ledger) sample_tree 1 child_dir = Some (Done (Ok tt)) ∧
  ∃ own l ps, load_verifying_key (HE := tree_ledger) child_dir VOLUME_PUB_FILE = Done (Ok own) ∧
    read_lineage_with_key (HT := crockford) (HE := tree_ledger) child_dir own VOLUME_PROVENANCE_FILE = Done (Ok l) ∧
    trusted (HT := crockford) sample_tree tree_holder own (parent l) ps ∧
    ∀ fuel' layers, walk_ancestors (HT := crockford) (HE := tree_ledger) sample_tree fuel' child_dir = Some (Done (Ok layers)) →
      layers = rev (map layer_of ps).
Proof.
  split; [vm_compute; reflexivity|].
  apply (@ancestors_verified crockford crockford_laws crockford_chars tree_ledger sample_tree toy_blake3 tree_key tree_holder 1 child_dir).
  - exact tree_keys_ok.
  - intros own H. left. vm_compute in H. by injection H as <-.
  - apply dir_of_coherent.
  - exact sample_tree_coherent.
  - vm_compute; reflexivity.
  - vm_compute; reflexivity.
Defined.

Lemma sample_lineages : lineage_of (HT := crockford) parent_dir = Some root ∧ lineage_of (HT := crockford) child_dir = Some sample_fork.
Proof. split; vm_compute; reflexivity. Qed.

Lemma walks_return_witness :
  is_Some (lineage_ulids (HT := crockford) (HE := tree_ledger) sample_tree 2 child_dir).
Proof.
  refine (proj2 (proj2 (proj2 (@walks_return crockford tree_ledger sample_tree (λ _, 0%nat) child_dir 2 _ _ _ _ _)))).
  - exact sample_tree_coherent.
  - apply dir_of_coherent.
  - intros n l p. unfold sample_tree. destruct (decide _) as [Hn|Hn].
    + rewrite (proj1 sample_lineages). intros [= <-]. discriminate.
    + unfold no_dir, lineage_of. cbn. discriminate.
  - intros l p _ _. lia.
  - lia.
Defined.

(** A volume whose signed lineage names itself: nothing rejects it, and no fuel
    is enough. *)
Definition self_parent : ParentRef :=
  mkParentRef (@ulid_to_string crockford 77) (@ulid_to_string crockford 78) (toy_public [7]).
Definition self_dir : VolumeDir := dir_of
  [(VOLUME_PUB_FILE, pub_file [7]);
   (VOLUME_PROVENANCE_FILE, write_provenance (HT := crockford) (HE := toy_ed25519) [7] (fork self_parent))].

Lemma self_parent_diverges fuel : walk_ancestors (HT := crockford) (HE := toy_ed25519) (λ _, self_dir) fuel self_dir = None.
Proof.
  induction fuel as [|fuel IH]; [done|]. cbn [walk_ancestors].
  assert (load_lineage_or_empty (HT := crockford) (HE := toy_ed25519) self_dir = Done (Ok (fork self_parent))) as ->
    by (vm_compute; reflexivity).
  cbn [then_ parent fork]. unfold resolve_ancestor_dir. by rewrite IH.
Qed.
