(* ===== verification/LineageForest.v ===== *)
(** * The lineage forest and the liveness tick
    (elide-coordinator/src/lineage_forest.rs, liveness.rs)

    Every directory of [by_id/] is an anchor, a skeleton or neither; what the
    anchors' lineages reach is live.  A tick re-pulls the missing ancestors and,
    when the forest is complete, deletes the skeletons two ticks in a row found
    dead.  The directories are given as each phase finds them; the lifecycle shown
    to the operator and the log are left out. *)

From Stdlib Require Import Ascii String.
From stdpp Require Import base gmap list sorting strings.
From S2P Require Import Prelude Text Provenance Ancestry.
Open Scope Z_scope.

Definition CLAIMING_FILE : string := "volume.claiming".
Definition IMPORTING_FILE : string := "volume.importing".
Definition READONLY_FILE : string := "volume.readonly".

Inductive NodeClass := Anchor | Skeleton | Unclassified | Missing.

#[export] Instance NodeClass_eq_dec : EqDecision NodeClass.
Proof. solve_decision. Defined.

Record ParentEdge := mkParentEdge { pe_ulid : Ulid; pe_snapshot : Ulid }.

Inductive LineageError := MalformedParent (display : string) | Unreadable (e : io_error) | WalkFailed (e : io_error).

Record ForestNode := mkForestNode {
  fn_ulid : Ulid;
  fn_name : option string;
  fn_class : NodeClass;
  fn_parent : option ParentEdge;
  fn_extent_sources : nat;
  fn_recovery_sources : nat;
  fn_error : option LineageError;
  fn_live : bool
}.

Record LineageForest := mkLineageForest {
  nodes : list ForestNode;
  anchor_chains : list (Ulid * gset Ulid)
}.

Definition get (f : LineageForest) (u : Ulid) : option ForestNode := head (filter (λ n, fn_ulid n = u) (nodes f)).

Definition referencing_anchors (f : LineageForest) (target : Ulid) : list Ulid :=
  map fst (filter (λ a, a.1 ≠ target ∧ target ∈ a.2) (anchor_chains f)).

(** A directory's entries: an entry that cannot be read is an error. *)
Abbreviation Listing A := (io (list (io A))) (only parsing).

Fixpoint all_entries {A} (es : list (io A)) : io (list A) :=
  match es with [] => Ok [] | e :: es => a ← e; rest ← all_entries es; Ok (a :: rest) end.

Definition entries_of {A} (l : Listing A) : io (list A) :=
  match l with Ok es => all_entries es | Err NotFound => Ok [] | Err e => Err e end.

Section forest.
Context {HT : UlidText} {HE : Ed25519}.

(** [by_name/]: each name and the last component of its target, when that is
    UTF-8. *)
Definition name_le (a b : string * option string) : Prop := String.le a.1 b.1.
#[local] Instance name_le_dec a b : Decision (name_le a b).
Proof. unfold name_le. apply _. Defined.

Definition bind_name (m : gmap Ulid string) (e : string * option string) : gmap Ulid string :=
  match t ← e.2; ulid_from_string t with
  | Some u => match m !! u with Some _ => m | None => <[u := e.1]> m end
  | None => m
  end.

Definition name_bindings (by_name : Listing (string * option string)) : io (gmap Ulid string) :=
  names ← entries_of by_name;
  Ok (foldl bind_name ∅ (merge_sort name_le names)).

(** ** Building the forest *)

(** An entry of [by_id/]: its name, when that is UTF-8, and whether it is a
    directory. *)
Record IdEntry := mkIdEntry { ie_name : option string; ie_is_dir : bool }.

Variable by_id : ById.

Definition is_anchor (d : VolumeDir) (name : option string) : bool :=
  vd_exists d VOLUME_KEY_FILE || bool_decide (is_Some name) || vd_exists d CLAIMING_FILE || vd_exists d IMPORTING_FILE.

Definition classify_dir (d : VolumeDir) (name : option string) : NodeClass :=
  if is_anchor d name then Anchor else if vd_exists d READONLY_FILE then Skeleton else Unclassified.

Definition bare_node (u : Ulid) (d : VolumeDir) (name : option string) : ForestNode :=
  mkForestNode u name (classify_dir d name) None 0 0 None (is_anchor d name).

Definition with_error (n : ForestNode) (e : LineageError) : ForestNode :=
  mkForestNode (fn_ulid n) (fn_name n) (fn_class n) (fn_parent n) (fn_extent_sources n) (fn_recovery_sources n)
    (Some e) (fn_live n).

Definition with_lineage (n : ForestNode) (l : ProvenanceLineage) : ForestNode :=
  let sized p e := mkForestNode (fn_ulid n) (fn_name n) (fn_class n) p (length (extent_index l))
                     (length (recovery_sources l)) e (fn_live n) in
  match parent l with
  | None => sized None None
  | Some p =>
      match ulid_from_string (volume_ulid p), ulid_from_string (snapshot_ulid p) with
      | Some u, Some s => sized (Some (mkParentEdge u s)) None
      | _, _ => sized None (Some (MalformedParent (to_display p)))
      end
  end.

Definition node_of (u : Ulid) (d : VolumeDir) (name : option string) : panics ForestNode :=
  let n := bare_node u d name in
  if vd_exists d VOLUME_PROVENANCE_FILE then
    match read_lineage_verifying_signature d VOLUME_PUB_FILE VOLUME_PROVENANCE_FILE with
    | Done (Ok l) => mret (with_lineage n l)
    | Done (Err e) => mret (with_error n (Unreadable e))
    | Panic => Panic
    end
  else mret n.

(** The scan of [by_id/]: the nodes, and the anchors in the order met. *)
Fixpoint scan_ids (names : gmap Ulid string) (es : list (io IdEntry)) (ns : gmap Ulid ForestNode)
    (anchors : list (Ulid * string)) : panics (gmap Ulid ForestNode * list (Ulid * string)) :=
  match es with
  | [] => mret (ns, anchors)
  | Err e :: _ => Done (Err e)
  | Ok e :: es =>
      match (if ie_is_dir e then s ← ie_name e; u ← ulid_from_string s; Some (s, u) else None) with
      | None => scan_ids names es ns anchors
      | Some (s, u) =>
          let d := by_id s in
          n ← node_of u d (names !! u);
          scan_ids names es (<[u := n]> ns) (if is_anchor d (names !! u) then anchors ++ [(u, s)] else anchors)
      end
  end.

Definition mark_walk_error (ns : gmap Ulid ForestNode) (u : Ulid) (e : io_error) : gmap Ulid ForestNode :=
  match ns !! u with
  | Some n => match fn_error n with None => <[u := with_error n (WalkFailed e)]> ns | Some _ => ns end
  | None => ns
  end.

(** Each anchor's walk. *)
Fixpoint walk_anchors (fuel : nat) (anchors : list (Ulid * string)) (ns : gmap Ulid ForestNode)
    (chains : list (Ulid * gset Ulid)) : option (panics (gmap Ulid ForestNode * list (Ulid * gset Ulid))) :=
  match anchors with
  | [] => Some (mret (ns, chains))
  | (u, s) :: anchors =>
      match lineage_ulids by_id fuel (by_id s) with
      | None => None
      | Some Panic => Some Panic
      | Some (Done (Ok c)) => walk_anchors fuel anchors ns (chains ++ [(u, list_to_set c)])
      | Some (Done (Err e)) => walk_anchors fuel anchors (mark_walk_error ns u e) chains
      end
  end.

Definition reachable (chains : list (Ulid * gset Ulid)) : gset Ulid := ⋃ (map snd chains).

Definition missing_node (u : Ulid) : ForestNode := mkForestNode u None Missing None 0 0 None false.

Definition add_missing (ns : gmap Ulid ForestNode) (u : Ulid) : gmap Ulid ForestNode :=
  match ns !! u with Some _ => ns | None => <[u := missing_node u]> ns end.

Definition set_live (r : gset Ulid) (n : ForestNode) : ForestNode :=
  if fn_live n then n
  else mkForestNode (fn_ulid n) (fn_name n) (fn_class n) (fn_parent n) (fn_extent_sources n) (fn_recovery_sources n)
         (fn_error n) (bool_decide (fn_ulid n ∈ r)).

Definition referenced (ns : gmap Ulid ForestNode) (r : gset Ulid) : list Ulid :=
  omap (λ p, pe_ulid <$> fn_parent p.2) (om_iter ns) ++ elements r.

Definition finish_forest (ns : gmap Ulid ForestNode) (chains : list (Ulid * gset Ulid)) : LineageForest :=
  let r := reachable chains in
  let ns := foldl add_missing ns (referenced ns r) in
  mkLineageForest (map (λ p, set_live r p.2) (om_iter ns)) chains.

Definition build_forest (fuel : nat) (by_name : Listing (string * option string)) (ids : Listing IdEntry)
    : option (panics LineageForest) :=
  then_ (Done (name_bindings by_name)) (λ names,
    then_ (match ids with Ok es => scan_ids names es ∅ [] | Err NotFound => mret (∅, []) | Err e => Done (Err e) end)
      (λ '(ns, anchors),
        match walk_anchors fuel anchors ns [] with
        | None => None
        | Some r => then_ r (λ '(ns, chains), Some (mret (finish_forest ns chains)))
        end)).
End forest.

(** ** The tick *)

Inductive SkipReason := InFlight | WalkError | HealPending.

Record LivenessOutcome := mkLivenessOutcome {
  healed_anchors : nat;
  swept : nat;
  sweep_skipped : option SkipReason
}.

(** What a tick meets: the forest's view of the disk, the directories as the heal,
    the sweep's gate and its last look find them, which anchors' prefetch succeeds
    and what deleting a directory answers. *)
Record Tick := mkTick {
  t_names : Listing (string * option string);
  t_ids : Listing IdEntry;
  t_forest : ById;
  t_heal : ById;
  t_gate : ById;
  t_sweep : ById;
  t_prefetch : Ulid → bool;
  t_remove : Ulid → io unit
}.

Section tick.
Context {HT : UlidText} {HE : Ed25519}.

Definition in_flight (d : VolumeDir) : bool := vd_exists d CLAIMING_FILE || vd_exists d IMPORTING_FILE.
Definition dir_at (v : ById) (u : Ulid) : VolumeDir := v (ulid_to_string u).

Definition anchors_with_missing (f : LineageForest) : gset Ulid :=
  list_to_set (concat (map (λ n, referencing_anchors f (fn_ulid n))
    (filter (λ n, fn_class n = Missing ∧ fn_live n = true) (nodes f)))).

(** Whether some anchor's ancestors are incomplete, and how many were re-pulled. *)
Fixpoint heal_loop (fuel : nat) (t : Tick) (missing : gset Ulid) (anchors : list ForestNode) (pending : bool) (healed : nat)
    : option (panics (bool * nat)) :=
  match anchors with
  | [] => Some (mret (pending, healed))
  | n :: anchors =>
      let u := fn_ulid n in
      let d := dir_at (t_heal t) u in
      if in_flight d then heal_loop fuel t missing anchors pending healed
      else
        let again := heal_loop fuel t missing anchors true (if t_prefetch t u then S healed else healed) in
        if decide (u ∈ missing) then again
        else match verify_ancestor_manifests (t_heal t) fuel d with
             | None => None
             | Some Panic => Some Panic
             | Some (Done (Ok _)) => heal_loop fuel t missing anchors pending healed
             | Some (Done (Err _)) => again
             end
  end.

Definition skip_reason (t : Tick) (f : LineageForest) (pending : bool) : option SkipReason :=
  if existsb (λ n, in_flight (dir_at (t_gate t) (fn_ulid n))) (nodes f) then Some InFlight
  else if existsb (λ n, bool_decide (is_Some (fn_error n))) (nodes f) then Some WalkError
  else if pending then Some HealPending else None.

Definition dead_set (f : LineageForest) : gset Ulid :=
  list_to_set (map fn_ulid (filter (λ n, fn_class n = Skeleton ∧ fn_live n = false) (nodes f))).

(** The last look before a directory is deleted, and the deletion. *)
Definition sweeps (t : Tick) (u : Ulid) : bool :=
  let d := dir_at (t_sweep t) u in
  negb (vd_exists d VOLUME_KEY_FILE || vd_exists d CLAIMING_FILE || vd_exists d IMPORTING_FILE) && is_ok (t_remove t u).

Definition sweep_set (t : Tick) (dead condemned : gset Ulid) : gset Ulid :=
  filter (λ u, sweeps t u = true) (dead ∩ condemned).

(** The outcome, the skeletons deleted, the ones condemned for the next tick. *)
Definition liveness_pass (fuel : nat) (t : Tick) (condemned : gset Ulid)
    : option (panics (LivenessOutcome * gset Ulid * gset Ulid)) :=
  match build_forest (t_forest t) fuel (t_names t) (t_ids t) with
  | None => None
  | Some r =>
      then_ r (λ f,
        match heal_loop fuel t (anchors_with_missing f) (filter (λ n, fn_class n = Anchor) (nodes f)) false 0 with
        | None => None
        | Some h =>
            then_ h (λ '(pending, healed),
              match skip_reason t f pending with
              | Some reason => Some (mret (mkLivenessOutcome healed 0 (Some reason), ∅, ∅))
              | None =>
                  let dead := dead_set f in
                  let gone := sweep_set t dead condemned in
                  Some (mret (mkLivenessOutcome healed (size gone) None, gone, dead ∖ gone))
              end)
        end)
  end.
End tick.

(** ** The coordinator's loop (daemon.rs) *)

Section loop.
Context {HT : UlidText} {HE : Ed25519}.

(** What a tick deletes and condemns; a tick that fails leaves the condemned as
    they were. *)
Definition tick_step (fuel : nat) (t : Tick) (condemned : gset Ulid) : option (panics (gset Ulid * gset Ulid)) :=
  match liveness_pass fuel t condemned with
  | None => None
  | Some (Done (Ok (_, gone, next))) => Some (mret (gone, next))
  | Some (Done (Err _)) => Some (mret (∅, condemned))
  | Some Panic => Some Panic
  end.

Fixpoint run_ticks (fuel : nat) (ts : list Tick) (condemned : gset Ulid) : option (panics (list (gset Ulid) * gset Ulid)) :=
  match ts with
  | [] => Some (mret ([], condemned))
  | t :: ts =>
      match tick_step fuel t condemned with
      | None => None
      | Some r => then_ r (λ '(gone, next), map_result (λ '(gones, last), (gone :: gones, last)) (run_ticks fuel ts next))
      end
  end.
End loop.
