(* ===== verification/LineageForestSpec.v ===== *)
(** * The sweep strands no anchor *)

From Stdlib Require Import Ascii String.
From stdpp Require Import base gmap list sorting strings.
From S2P Require Import Prelude Bytes Text Crockford Provenance ProvenanceSpec Ancestry AncestrySpec LineageForest.
Open Scope Z_scope.

Section forest.
Context {HT : UlidText} {HE : Ed25519}.
Variable by_id : string → VolumeDir.

(** ** The scan *)

(** A directory of the listing, by the ULID of its name. *)
Definition listed (es : list (io IdEntry)) (u : Ulid) (s : string) : Prop :=
  Ok (mkIdEntry (Some s) true) ∈ es ∧ ulid_from_string s = Some u.

Lemma node_of_facts u d name n : node_of u d name = Done (Ok n) →
  fn_ulid n = u ∧ fn_class n = classify_dir d name ∧ fn_live n = is_anchor d name.
Proof.
  unfold node_of. destruct (vd_exists d _); [|by intros [= <-]].
  destruct (read_lineage_verifying_signature _ _ _) as [[l|e]|]; [|by intros [= <-]|done].
  intros [= <-]. unfold with_lineage. by repeat case_match.
Qed.

(** Every node is the directory it was read from; every anchor is listed. *)
Definition scanned (names : gmap Ulid string) (es : list (io IdEntry)) (ns : gmap Ulid ForestNode) (anchors : list (Ulid * string)) : Prop :=
  (∀ u n, ns !! u = Some n → fn_ulid n = u ∧ ∃ s, listed es u s ∧
     fn_class n = classify_dir (by_id s) (names !! u) ∧ fn_live n = is_anchor (by_id s) (names !! u)) ∧
  (∀ u s, (u, s) ∈ anchors → is_Some (ns !! u)) ∧
  (∀ u s, listed es u s → is_anchor (by_id s) (names !! u) = true → (u, s) ∈ anchors).

Lemma scan_spec names todo : ∀ done ns anchors ns' anchors',
  scanned names done ns anchors → scan_ids by_id names todo ns anchors = Done (Ok (ns', anchors')) →
  scanned names (done ++ todo) ns' anchors'.
Proof.
  induction todo as [|e todo IH]; intros done_ ns anchors ns' anchors' (Hn & Ha & Hl); cbn [scan_ids].
  { intros [= <- <-]. by rewrite app_nil_r. }
  destruct e as [e|]; [|done]. rewrite cons_middle, app_assoc.
  destruct (if ie_is_dir e then _ else _) as [[s u]|] eqn:He.
  - intros (n & Hnode & H)%panics_bind_Ok. destruct (node_of_facts _ _ _ _ Hnode) as (Hu & Hc & Hlive).
    assert (listed (done_ ++ [Ok e]) u s) as Hls.
    { destruct e as [[s'|] []]; cbn in He; try done. destruct (ulid_from_string s') eqn:Hs; [|done].
      cbn in He. injection He as <- <-. split; [|done]. apply elem_of_app. right. by left. }
    assert (∀ v t, listed done_ v t → listed (done_ ++ [Ok e]) v t) as Hmono.
    { intros v t [H1 H2]. split; [|done]. apply elem_of_app. by left. }
    eapply IH; [|exact H]. split_and!.
    + intros v m. rewrite lookup_insert. case_decide as Hv.
      * intros [= <-]. subst v. split; [done|]. by exists s.
      * intros Hm. destruct (Hn v m Hm) as (Hmu & t & Ht & Hr). split; [done|]. exists t. split; [by apply Hmono|done].
    + intros v t Hin. rewrite lookup_insert. case_decide as Hv; [by eexists|].
      destruct (is_anchor (by_id s) (names !! u)); [|by eapply Ha].
      apply elem_of_app in Hin as [Hin|Hin]; [by eapply Ha|]. apply list_elem_of_singleton in Hin. congruence.
    + intros v t [Hin Ht] Hanch. apply elem_of_app in Hin as [Hin|Hin].
      * pose proof (Hl v t (conj Hin Ht) Hanch). destruct (is_anchor (by_id s) _); [|done]. apply elem_of_app. by left.
      * apply list_elem_of_singleton in Hin as [= <-]. cbn in He. rewrite Ht in He. cbn in He. injection He as <- <-.
        rewrite Hanch. apply elem_of_app. right. by left.
  - intros H. eapply IH; [|exact H]. split_and!.
    + intros v m Hm. destruct (Hn v m Hm) as (Hmu & t & [Ht1 Ht2] & Hr). split; [done|]. exists t. split; [|done].
      split; [|done]. apply elem_of_app. by left.
    + done.
    + intros v t [Hin Ht] Hanch. apply elem_of_app in Hin as [Hin|Hin]; [by apply Hl|].
      apply list_elem_of_singleton in Hin as [= <-]. cbn in He. by rewrite Ht in He.
Qed.

(** ** The anchors' walks *)

Definition erroneous (ns : gmap Ulid ForestNode) : Prop := ∃ u n, ns !! u = Some n ∧ is_Some (fn_error n).

Lemma mark_erroneous ns u e : is_Some (ns !! u) → erroneous (mark_walk_error ns u e).
Proof.
  intros [n Hn]. unfold mark_walk_error. rewrite Hn. destruct (fn_error n) eqn:He.
  - exists u, n. split; [done|]. by rewrite He.
  - exists u, (with_error n (WalkFailed e)). rewrite lookup_insert_eq. by split; [|eexists].
Qed.

Lemma mark_keeps ns u e : erroneous ns → erroneous (mark_walk_error ns u e).
Proof.
  intros (v & n & Hn & He). unfold mark_walk_error. destruct (ns !! u) as [m|] eqn:Hm; [|by exists v, n].
  destruct (fn_error m) eqn:Hme; [by exists v, n|]. exists u, (with_error m (WalkFailed e)).
  rewrite lookup_insert_eq. by split; [|eexists].
Qed.

Lemma mark_dom ns u e v : is_Some (ns !! v) → is_Some (mark_walk_error ns u e !! v).
Proof.
  intros Hv. unfold mark_walk_error. destruct (ns !! u); [|done]. destruct (fn_error _); [done|].
  rewrite lookup_insert. by case_decide.
Qed.

Lemma walk_erroneous fuel anchors : ∀ ns chains ns' chains',
  erroneous ns → walk_anchors by_id fuel anchors ns chains = Some (Done (Ok (ns', chains'))) → erroneous ns'.
Proof.
  induction anchors as [|[u s] anchors IH]; intros ns chains ns' chains' He; cbn [walk_anchors]; [by intros [= <- <-]|].
  destruct (lineage_ulids _ _ _) as [[[c|e]|]|]; try done; intros H; eapply IH; [|exact H|..|exact H]; [done|by apply mark_keeps].
Qed.

Definition walked (fuel : nat) (a : Ulid * string) (c : Ulid * gset Ulid) : Prop :=
  a.1 = c.1 ∧ ∃ l, lineage_ulids by_id fuel (by_id a.2) = Some (Done (Ok l)) ∧ c.2 = list_to_set l.

Lemma walk_clean fuel anchors : ∀ ns chains ns' chains',
  (∀ u s, (u, s) ∈ anchors → is_Some (ns !! u)) → ¬ erroneous ns' →
  walk_anchors by_id fuel anchors ns chains = Some (Done (Ok (ns', chains'))) →
  ns' = ns ∧ ∃ extra, chains' = chains ++ extra ∧ Forall2 (walked fuel) anchors extra.
Proof.
  induction anchors as [|[u s] anchors IH]; intros ns chains ns' chains' Hdom Hne; cbn [walk_anchors].
  { intros [= <- <-]. split; [done|]. exists []. by rewrite app_nil_r. }
  assert (∀ v t, (v, t) ∈ anchors → is_Some (ns !! v)) as Hdom' by (intros v t H; eapply Hdom; by right).
  destruct (lineage_ulids by_id fuel (by_id s)) as [[[c|e]|]|] eqn:Hl; try done; intros H.
  - destruct (IH _ _ _ _ Hdom' Hne H) as (-> & extra & -> & Hf). split; [done|].
    exists ((u, list_to_set c) :: extra). split; [by rewrite <-app_assoc|]. constructor; [|done]. split; [done|]. by exists c.
  - exfalso. apply Hne. eapply walk_erroneous; [|exact H]. apply mark_erroneous. eapply Hdom. by left.
Qed.

(** ** The nodes *)

Lemma add_missing_lookup ns us u :
  foldl add_missing ns us !! u = match ns !! u with Some n => Some n | None => if decide (u ∈ us) then Some (missing_node u) else None end.
Proof.
  revert ns. induction us as [|v us IH]; intros ns; cbn [foldl].
  { destruct (ns !! u); [done|]. rewrite decide_False; [done|]. apply not_elem_of_nil. }
  rewrite IH. unfold add_missing. destruct (ns !! v) as [m|] eqn:Hv.
  - destruct (ns !! u) eqn:Hu; [done|]. destruct (decide (u ∈ us)) as [H|H].
    + by rewrite decide_True by by right.
    + rewrite decide_False; [done|]. intros [->|?]%elem_of_cons; [congruence|done].
  - rewrite lookup_insert. destruct (decide (v = u)) as [->|He]; [by rewrite Hv, decide_True by left|].
    destruct (ns !! u); [done|]. destruct (decide (u ∈ us)) as [H|H].
    + by rewrite decide_True by by right.
    + rewrite decide_False; [done|]. intros [->|?]%elem_of_cons; [congruence|done].
Qed.

(** A node of the finished forest is one of the scan's, or missing. *)
Lemma finish_nodes ns chains n : n ∈ nodes (finish_forest ns chains) →
  ∃ u m, n = set_live (reachable chains) m ∧
    (ns !! u = Some m ∨ (ns !! u = None ∧ m = missing_node u ∧ u ∈ referenced ns (reachable chains))).
Proof.
  unfold finish_forest. cbn [nodes]. intros ([u m] & -> & Hin)%list_elem_of_fmap.
  apply elem_of_om_iter in Hin. rewrite add_missing_lookup in Hin. exists u, m. split; [done|].
  destruct (ns !! u) as [m'|]; [left; congruence|]. case_decide; [|done]. injection Hin as <-. by right.
Qed.

Lemma finish_keeps ns chains u m : ns !! u = Some m → set_live (reachable chains) m ∈ nodes (finish_forest ns chains).
Proof.
  intros Hm. unfold finish_forest. cbn [nodes]. apply (list_elem_of_fmap_2 (λ p, set_live (reachable chains) p.2) _ (u, m)).
  apply elem_of_om_iter. by rewrite add_missing_lookup, Hm.
Qed.

Lemma set_live_facts r n : fn_ulid (set_live r n) = fn_ulid n ∧ fn_class (set_live r n) = fn_class n ∧
  fn_error (set_live r n) = fn_error n ∧ fn_live (set_live r n) = fn_live n || bool_decide (fn_ulid n ∈ r).
Proof. unfold set_live. by destruct (fn_live n) eqn:E; cbn; rewrite ?E. Qed.

Lemma elem_of_reachable chains u : u ∈ reachable chains ↔ ∃ c, c ∈ chains ∧ u ∈ c.2.
Proof.
  unfold reachable. rewrite elem_of_union_list. split.
  - intros (X & HX & Hu). apply list_elem_of_fmap in HX as (c & -> & Hc). by exists c.
  - intros (c & Hc & Hu). exists c.2. split; [by apply list_elem_of_fmap_2|done].
Qed.

(** ** What a forest without errors says *)

Definition names_of (by_name : io (list (io (string * option string)))) : gmap Ulid string :=
  match name_bindings by_name with Ok m => m | Err _ => ∅ end.

(** A directory an anchor's markers make explicit: no lineage of it, as the walk
    read it, reaches the ULID. *)
Definition unreached (fuel : nat) (names : gmap Ulid string) (es : list (io IdEntry)) (u : Ulid) : Prop :=
  ∀ a s, listed es a s → is_anchor (by_id s) (names !! a) = true →
    ∃ l, lineage_ulids by_id fuel (by_id s) = Some (Done (Ok l)) ∧ u ∉ l.

Lemma forest_clean fuel by_name ids f : build_forest by_id fuel by_name ids = Some (Done (Ok f)) →
  (∀ n, n ∈ nodes f → fn_error n = None) →
  ∀ n, n ∈ nodes f → fn_class n = Skeleton → fn_live n = false →
  ∃ es s, ids = Ok es ∧ listed es (fn_ulid n) s ∧
    is_anchor (by_id s) (names_of by_name !! fn_ulid n) = false ∧ vd_exists (by_id s) READONLY_FILE = true ∧
    unreached fuel (names_of by_name) es (fn_ulid n).
Proof.
  unfold build_forest. intros (names & [= Hnames] & ([ns anchors] & Hscan & H)%then_Ok)%then_Ok Hclean n Hn Hc Hdead.
  destruct (walk_anchors by_id fuel anchors ns []) as [r|] eqn:Hw; [|done].
  apply then_Ok in H as ([ns' chains] & -> & [= <-]).
  assert (∃ es, (ids = Ok es ∨ es = []) ∧ scanned names es ns anchors) as (es & Hes & Hs).
  { assert (scanned names [] ∅ []) as H0.
    { split_and!; [intros u m; by rewrite lookup_empty|intros u s H; by apply not_elem_of_nil in H|].
      intros u s [H _]. by apply not_elem_of_nil in H. }
    destruct ids as [es|[]]; try done.
    - exists es. split; [by left|]. by eapply (scan_spec names es []).
    - injection Hscan as <- <-. exists []. split; [by right|done]. }
  destruct Hs as (Hnode & Hdom & Hanch).
  assert (¬ erroneous ns') as Hne.
  { intros (u & m & Hm & He). specialize (Hclean _ (finish_keeps ns' chains u m Hm)).
    destruct (set_live_facts (reachable chains) m) as (_ & _ & -> & _) in Hclean. by rewrite Hclean in He; destruct He. }
  destruct (walk_clean fuel anchors ns [] ns' chains Hdom Hne Hw) as (-> & extra & -> & Hf).
  destruct (finish_nodes _ _ _ Hn) as (u & m & -> & Hm).
  destruct (set_live_facts (reachable extra) m) as (Hu & Hcl & _ & Hlive). rewrite app_nil_l in *.
  rewrite Hu, Hcl, Hlive in *. destruct Hm as [Hm|(_ & -> & _)]; [|done].
  destruct (Hnode u m Hm) as (Hmu & s & Hls & Hcls & Hml).
  assert (names_of by_name = names) as -> by (unfold names_of; by rewrite Hnames).
  apply orb_false_iff in Hdead as [Hnl Hnr]. apply bool_decide_eq_false in Hnr. subst u.
  exists es, s. split_and!.
  - destruct Hes as [?| ->]; [done|]. destruct Hls as [Hin _]. by apply not_elem_of_nil in Hin.
  - done.
  - congruence.
  - rewrite Hcls in Hc. unfold classify_dir in Hc. rewrite <-Hml, Hnl in Hc. by destruct (vd_exists _ _).
  - intros a t Ha Hat. specialize (Hanch a t Ha Hat). clear -Hanch Hf Hnr.
    apply list_elem_of_lookup in Hanch as [i Hi]. destruct (Forall2_lookup_l _ _ _ _ _ Hf Hi) as (c & Hc & _ & l & Hl & Hcl).
    exists l. split; [done|]. intros Hin. apply Hnr, elem_of_reachable. exists c.
    split; [by eapply list_elem_of_lookup_2|]. rewrite Hcl. by apply elem_of_list_to_set.
Qed.
End forest.

(** ** The tick *)

Section tick.
Context {HT : UlidText} {HE : Ed25519}.

(** A tick whose forest cannot be built. *)
Definition failing (fuel : nat) (t : Tick) : Prop :=
  ∃ e, build_forest (t_forest t) fuel (t_names t) (t_ids t) = Some (Done (Err e)).

(** A tick that found a directory dead: a readonly skeleton with no marker of
    ownership and no name, which no anchor's lineage reaches, every anchor's walk
    having returned; no claim or import in flight; every anchor's ancestors whole. *)
Record found_dead (fuel : nat) (t : Tick) (u : Ulid) : Prop := mkFoundDead {
  fd_forest : LineageForest;
  fd_built : build_forest (t_forest t) fuel (t_names t) (t_ids t) = Some (Done (Ok fd_forest));
  fd_dir : ∃ es s, t_ids t = Ok es ∧ listed es u s ∧
    is_anchor (t_forest t s) (names_of (t_names t) !! u) = false ∧ vd_exists (t_forest t s) READONLY_FILE = true ∧
    unreached (t_forest t) fuel (names_of (t_names t)) es u;
  fd_idle : ∀ n, n ∈ nodes fd_forest → in_flight (dir_at (t_gate t) (fn_ulid n)) = false;
  fd_whole : ∀ n, n ∈ nodes fd_forest → fn_class n = Anchor → in_flight (dir_at (t_heal t) (fn_ulid n)) = true ∨
    verify_ancestor_manifests (t_heal t) fuel (dir_at (t_heal t) (fn_ulid n)) = Some (Done (Ok tt))
}.

Lemma heal_pending fuel t missing anchors : ∀ healed p h,
  heal_loop fuel t missing anchors true healed = Some (Done (Ok (p, h))) → p = true.
Proof.
  induction anchors as [|n anchors IH]; intros healed p h; cbn [heal_loop]; [by intros [= <- <-]|].
  destruct (in_flight _); [apply IH|]. case_decide; [apply IH|].
  destruct (verify_ancestor_manifests _ _ _) as [[[|]|]|]; try done; apply IH.
Qed.

Lemma heal_whole fuel t missing anchors : ∀ healed h,
  heal_loop fuel t missing anchors false healed = Some (Done (Ok (false, h))) →
  ∀ n, n ∈ anchors → in_flight (dir_at (t_heal t) (fn_ulid n)) = true ∨
    verify_ancestor_manifests (t_heal t) fuel (dir_at (t_heal t) (fn_ulid n)) = Some (Done (Ok tt)).
Proof.
  induction anchors as [|x anchors IH]; intros healed h; cbn [heal_loop]; [intros _ n H; by apply not_elem_of_nil in H|].
  destruct (in_flight _) eqn:Hf.
  { intros H n [->|Hn]%elem_of_cons; [by left|by eapply IH]. }
  case_decide; [by intros ?%heal_pending|].
  destruct (verify_ancestor_manifests _ _ _) as [[[[]|e]|]|] eqn:Hv; try done; [|by intros ?%heal_pending].
  intros H' n [->|Hn]%elem_of_cons; [by right|by eapply IH].
Qed.

Lemma heal_no_error fuel t missing anchors : ∀ pending healed e,
  heal_loop fuel t missing anchors pending healed ≠ Some (Done (Err e)).
Proof.
  induction anchors as [|n anchors IH]; intros pending healed e; cbn [heal_loop]; [done|].
  destruct (in_flight _); [apply IH|]. case_decide; [apply IH|].
  destruct (verify_ancestor_manifests _ _ _) as [[[|]|]|]; try done; apply IH.
Qed.

Lemma elem_of_dead_set f u : u ∈ dead_set f ↔ ∃ n, n ∈ nodes f ∧ fn_ulid n = u ∧ fn_class n = Skeleton ∧ fn_live n = false.
Proof.
  unfold dead_set. rewrite elem_of_list_to_set. split.
  - intros (n & -> & Hn)%list_elem_of_fmap. apply list_elem_of_filter in Hn as [[H1 H2] Hin]. by exists n.
  - intros (n & Hin & <- & H1 & H2). apply list_elem_of_fmap_2, list_elem_of_filter. done.
Qed.

Lemma skip_none t f pending : skip_reason t f pending = None →
  (∀ n, n ∈ nodes f → in_flight (dir_at (t_gate t) (fn_ulid n)) = false ∧ fn_error n = None) ∧ pending = false.
Proof.
  unfold skip_reason. destruct (existsb _ _) eqn:H1; [done|]. destruct (existsb _ _) eqn:H2 in |- *; [done|].
  destruct pending; [done|]. intros _. split; [|done]. intros n Hn. split.
  - apply not_true_iff_false. intros Ht. apply not_true_iff_false in H1. apply H1, existsb_exists. exists n.
    split; [by apply list_elem_of_In|done].
  - destruct (fn_error n) eqn:He; [|done]. apply not_true_iff_false in H2. exfalso. apply H2, existsb_exists. exists n.
    split; [by apply list_elem_of_In|]. rewrite He. by apply bool_decide_eq_true.
Qed.

(** A pass fails, deletes and condemns nothing, or deletes and condemns what it
    found dead, the deleted having been condemned before it. *)
Lemma pass_cases fuel t c r : liveness_pass fuel t c = Some (Done r) →
  match r with
  | Err e => failing fuel t
  | Ok (o, gone, next) =>
      (gone = ∅ ∧ next = ∅) ∨
      (∀ u, u ∈ gone → u ∈ c ∧ sweeps t u = true) ∧ (∀ u, u ∈ gone ∨ u ∈ next → found_dead fuel t u)
  end.
Proof.
  unfold liveness_pass. destruct (build_forest _ _ _ _) as [[[f|e]|]|] eqn:Hb; cbn; try done;
    [|intros [= <-]; by exists e].
  destruct (heal_loop _ _ _ _ _ _) as [[[[pending healed]|e]|]|] eqn:Hh; cbn; try done; [|by apply heal_no_error in Hh].
  destruct (skip_reason t f pending) eqn:Hs; intros [= <-]; [by left|]. right.
  destruct (skip_none _ _ _ Hs) as [Hok ->]. split.
  - intros u [Hu Hin]%elem_of_filter. apply elem_of_intersection in Hin as [_ Hin]. done.
  - intros u Hu. assert (u ∈ dead_set f) as Hd.
    { destruct Hu as [Hu|Hu]; [apply elem_of_filter in Hu as [_ Hu]|]; set_solver. }
    apply elem_of_dead_set in Hd as (n & Hn & <- & Hc & Hl).
    exists f; [done| | |].
    + eapply forest_clean; [done| |done..]. intros m Hm. by apply Hok.
    + intros m Hm. by apply Hok.
    + intros m Hm Ha. eapply heal_whole; [exact Hh|]. apply list_elem_of_filter. done.
Qed.

(** Every condemned directory was found dead by a tick all later ones of which
    failed. *)
Definition justified (fuel : nat) (past : list Tick) (c : gset Ulid) : Prop :=
  ∀ u, u ∈ c → ∃ before t0 failed, past = before ++ t0 :: failed ∧ found_dead fuel t0 u ∧ Forall (failing fuel) failed.

Lemma step_justified fuel past t c gone next : justified fuel past c → tick_step fuel t c = Some (Done (Ok (gone, next))) →
  justified fuel (past ++ [t]) next ∧ ∀ u, u ∈ gone → u ∈ c ∧ sweeps t u = true ∧ found_dead fuel t u.
Proof.
  intros Hj. unfold tick_step. destruct (liveness_pass fuel t c) as [[r|]|] eqn:Hp; [|done..].
  pose proof (pass_cases _ _ _ _ Hp) as Hc. destruct r as [[[o g] n]|e]; intros [= <- <-].
  - destruct Hc as [[-> ->]|[Hg Hf]].
    + split; [intros u Hu|intros u Hu]; by apply elem_of_empty in Hu.
    + split; [|intros u Hu; destruct (Hg u Hu); split_and!; [done..|apply Hf; by left]].
      intros u Hu. exists past, t, []. split_and!; [done|apply Hf; by right|constructor].
  - split; [|intros u Hu; by apply elem_of_empty in Hu]. intros u Hu.
    destruct (Hj u Hu) as (before & t0 & failed & -> & Hd & Hfl). exists before, t0, (failed ++ [t]).
    split_and!; [by rewrite <-app_assoc|done|]. apply Forall_app. split; [done|by constructor].
Qed.

Lemma run_justified fuel ts : ∀ past c gones last, justified fuel past c →
  run_ticks fuel ts c = Some (Done (Ok (gones, last))) →
  ∀ i g u, gones !! i = Some g → u ∈ g → ∃ t before t0 failed, ts !! i = Some t ∧ found_dead fuel t u ∧ sweeps t u = true ∧
    past ++ take i ts = before ++ t0 :: failed ∧ found_dead fuel t0 u ∧ Forall (failing fuel) failed.
Proof.
  induction ts as [|t ts IH]; intros past c gones last Hj; cbn [run_ticks].
  { intros [= <- <-] i g u. by rewrite lookup_nil. }
  destruct (tick_step fuel t c) as [r|] eqn:Ht; [|done].
  intros ([gone next] & -> & ([gs l] & Hr & [= -> ->])%map_result_Ok)%then_Ok.
  destruct (step_justified _ _ _ _ _ _ Hj Ht) as [Hj' Hg]. intros [|i] g u; cbn [lookup list_lookup].
  - intros [= <-] Hu. destruct (Hg u Hu) as (Hc & Hs & Hd). destruct (Hj u Hc) as (before & t0 & failed & -> & Hd0 & Hf).
    exists t, before, t0, failed. cbn. by rewrite app_nil_r.
  - intros Hi Hu. destruct (IH _ _ _ _ Hj' Hr i g u Hi Hu) as (t' & before & t0 & failed & H).
    exists t', before, t0, failed. cbn. rewrite <-app_assoc in H. exact H.
Qed.

(** C21: the sweep strands nothing. In any run of ticks, a directory a tick deletes
    was found dead by that tick and by an earlier one, all ticks between the two
    having failed: both saw a readonly skeleton without owner, reached by no
    anchor's lineage, with every anchor's walk complete, every anchor's ancestors
    whole and nothing in flight; and at the last look it carried no key and no
    marker. *)
Theorem sweep_strands_nothing fuel ts gones last : run_ticks fuel ts ∅ = Some (Done (Ok (gones, last))) →
  ∀ i g u, gones !! i = Some g → u ∈ g →
  ∃ t before t0 failed, ts !! i = Some t ∧ take i ts = before ++ t0 :: failed ∧ Forall (failing fuel) failed ∧
    found_dead fuel t0 u ∧ found_dead fuel t u ∧
    vd_exists (dir_at (t_sweep t) u) VOLUME_KEY_FILE = false ∧ in_flight (dir_at (t_sweep t) u) = false.
Proof.
  intros Hr i g u Hi Hu. destruct (run_justified fuel ts [] ∅ gones last) with (i := i) (g := g) (u := u)
    as (t & before & t0 & failed & Ht & Hd & Hs & Heq & Hd0 & Hf); [|done..|].
  { intros v Hv. by apply elem_of_empty in Hv. }
  exists t, before, t0, failed. cbn [app] in Heq. unfold sweeps in Hs. apply andb_true_iff in Hs as [Hs _].
  apply negb_true_iff, orb_false_iff in Hs as [Hs Hi2]. apply orb_false_iff in Hs as [Hk Hc].
  split_and!; try done. unfold in_flight. by rewrite Hc, Hi2.
Qed.
End tick.

(** ** A concrete directory: an anchor, its parent, a skeleton nothing names *)

Definition anchor_dir : VolumeDir := dir_of
  [(VOLUME_KEY_FILE, EmptyString); (VOLUME_PUB_FILE, pub_file [3]);
   (VOLUME_PROVENANCE_FILE, write_provenance (HT := crockford) (HE := tree_ledger) [3] sample_fork)].
Definition base_dir : VolumeDir := dir_of
  [(READONLY_FILE, EmptyString); (VOLUME_PUB_FILE, pub_file [7]);
   (VOLUME_PROVENANCE_FILE, write_provenance (HT := crockford) (HE := tree_ledger) [7] root);
   (in_snapshots (snapshot_manifest_filename (HT := crockford) 78),
    build_snapshot_manifest_bytes (HT := crockford) (toy_sign (toy_public [7])) [9; 5]);
   (idx_path (HT := crockford) 5, EmptyString); (idx_path (HT := crockford) 9, EmptyString)].
Definition source_dir : VolumeDir := dir_of [(READONLY_FILE, EmptyString)].

Definition forest_disk (n : string) : VolumeDir :=
  if decide (n = @ulid_to_string crockford 100) then anchor_dir
  else if decide (n = @ulid_to_string crockford 77) then base_dir
  else if decide (n = @ulid_to_string crockford 50) then source_dir
  else if decide (n = @ulid_to_string crockford 60) then source_dir else no_dir.

Definition forest_ids : io (list (io IdEntry)) :=
  Ok (map (λ u, Ok (mkIdEntry (Some (@ulid_to_string crockford u)) true)) [100; 77; 50; 60]).
Definition disk_tick (names : io (list (io (string * option string)))) : Tick :=
  mkTick names forest_ids forest_disk forest_disk forest_disk forest_disk (λ _, true) (λ _, Ok tt).
Definition good_tick : Tick := disk_tick (Err NotFound).
Definition bad_tick : Tick := disk_tick (Err OtherError).

Lemma sweep_strands_nothing_witness :
  run_ticks (HT := crockford) (HE := tree_ledger) 2 [good_tick; good_tick] ∅ = Some (Done (Ok ([∅; {[60]}], ∅))) ∧
  ∃ t before t0 failed, [good_tick; good_tick] !! 1%nat = Some t ∧ take 1 [good_tick; good_tick] = before ++ t0 :: failed ∧
    Forall (failing (HT := crockford) (HE := tree_ledger) 2) failed ∧
    found_dead (HT := crockford) (HE := tree_ledger) 2 t0 60 ∧ found_dead (HT := crockford) (HE := tree_ledger) 2 t 60 ∧
    vd_exists (dir_at (HT := crockford) (t_sweep t) 60) VOLUME_KEY_FILE = false ∧
    in_flight (dir_at (HT := crockford) (t_sweep t) 60) = false.
Proof.
  assert (run_ticks (HT := crockford) (HE := tree_ledger) 2 [good_tick; good_tick] ∅ = Some (Done (Ok ([∅; {[60]}], ∅)))) as Hr
    by (vm_compute; reflexivity).
  split; [exact Hr|].
  exact (@sweep_strands_nothing crockford tree_ledger 2 [good_tick; good_tick] [∅; {[60]}] ∅ Hr 1%nat {[60]} 60
    eq_refl (proj2 (elem_of_singleton _ _) eq_refl)).
Defined.

(** A tick that cannot read the names leaves the condemned set: the deletion two
    ticks later rests on no two ticks in a row. *)
Lemma failed_tick_keeps_condemned :
  run_ticks (HT := crockford) (HE := tree_ledger) 2 [good_tick; bad_tick; good_tick] ∅ = Some (Done (Ok ([∅; ∅; {[60]}], ∅))).
Proof. vm_compute. reflexivity. Qed.
