(* ===== verification/Fetch.v ===== *)
(** * Demand fetch (elide-fetch/src/lib.rs, full_warm.rs)

    A read that misses the cache pulls the entry's stored bytes from the bucket
    into [cache/<id>.body] and sets its bit in [cache/<id>.present]; a warm pass
    does the same for a whole segment.  Any number of calls run at once on one
    segment's files, next to the coordinator's eviction (tasks.rs), and the host
    may crash: the calls are interleaved one operation at a time over a
    directory whose changes become durable in order, and files whose bytes
    become durable at a sync.  Sockets and the choice of the store stay
    outside: a range-GET is answered by the environment. *)

From stdpp Require Import base gmap list sorting.
From S2P Require Import Prelude Bytes Segment ChunkTree Codec SegmentCodec LbaMap ExtentIndex.
Open Scope Z_scope.

(** ** Bits and batches *)

Definition is_present (bits : list Z) (i : nat) : bool :=
  match bits !! (i / 8)%nat with
  | Some b => negb (bool_decide (Z.land b (Z.shiftl 1 (Z.of_nat (i mod 8)%nat)) = 0))
  | None => false
  end.

(** The bits a commit writes: what the file holds, as long as the segment has
    entries, with [indices] set. *)
Definition merge_bits (entry_count : nat) (on_disk : list Z) (indices : list nat) : list Z :=
  let want := Z.to_nat (div_ceil (Z.of_nat entry_count) 8) in
  foldl set_bit (on_disk ++ replicate (want - length on_disk) 0) indices.

(** Bytes the body section stores for the entry. *)
Definition stores_body (e : SegmentEntry) : bool :=
  is_data (e_kind e) && negb (bool_decide (e_stored_length e = 0)).

(** The entries after the target a demand fetch takes along: the last one and
    the end of the run. *)
Fixpoint scan_batch (max_batch_bytes batch_start : Z) (present : nat → bool) (rest : list SegmentEntry)
    (i last : nat) (next : Z) : nat * Z :=
  match rest with
  | [] => (last, next)
  | e :: rest =>
      if negb (is_data (e_kind e)) then (last, next)
      else if decide (e_stored_offset e ≠ next) then (last, next)
      else if present i then (last, next)
      else if decide (max_batch_bytes < u64_sub (u64_add next (e_stored_length e)) batch_start) then (last, next)
      else scan_batch max_batch_bytes batch_start present rest (S i) i
             (u64_add (e_stored_offset e) (e_stored_length e))
  end.

Record WarmBatch := mkWarmBatch {
  start_entry : nat; end_entry_inclusive : nat;
  body_start : Z; body_end : Z   (* u64 *)
}.

(** One populated entry of the warm plan: the closed batches and the open one. *)
Definition plan_step (entries : list SegmentEntry) (present : nat → bool) (max_batch_bytes : Z)
    (st : list WarmBatch * option WarmBatch) (i : nat) : list WarmBatch * option WarmBatch :=
  let '(batches, current) := st in
  match entries !! i with
  | None => st
  | Some e =>
      if negb (stores_body e) then st
      else if present i then (batches ++ option_list current, None)
      else
        let entry_start := e_stored_offset e in
        let entry_end := u64_add entry_start (e_stored_length e) in
        let fresh := mkWarmBatch i i entry_start entry_end in
        match current with
        | Some b =>
            if decide (body_end b = entry_start) then
              if decide (max_batch_bytes < u64_sub entry_end (body_start b)) then (batches ++ [b], Some fresh)
              else (batches, Some (mkWarmBatch (start_entry b) i (body_start b) entry_end))
            else (batches ++ [b], Some fresh)
        | None => (batches, Some fresh)
        end
  end.

Definition plan_warm_batches (entries : list SegmentEntry) (populated : list nat)
    (present : nat → bool) (max_batch_bytes : Z) : list WarmBatch :=
  let '(batches, current) := foldl (plan_step entries present max_batch_bytes) ([], None) populated in
  batches ++ option_list current.

(** [read_exact] of a range of a file of a local store. *)
Definition local_get_range (file : list Z) (start end_exclusive : Z) : io (list Z) :=
  read_exact_at file start (Z.max 0 (end_exclusive - start)).

Section verify.
Context {HB : Blake3} {HL : Lz4Block} {HC : Lz4Codec} {HT : Blake3Tree} {HZ : ZstdBulk}.

Definition verify_body_hash (e : SegmentEntry) (body : list Z) : io unit :=
  if negb (has_body_bytes (e_kind e)) then Ok ()
  else plain ← decode (e_codec e) body; verify_plaintext_hash e plain.

(** The entries of a batch against the bytes a range-GET returned; a warm pass
    passes over the entries without body bytes. *)
Fixpoint verify_entries (warm : bool) (batch_start : Z) (bytes : list Z) (l : list SegmentEntry) : io unit :=
  match l with
  | [] => Ok ()
  | e :: l =>
      if warm && negb (stores_body e) then verify_entries warm batch_start bytes l
      else
        let rel := u64_sub (e_stored_offset e) batch_start in
        match get_range bytes (rel, u64_add rel (e_stored_length e)) with
        | None => Err OtherError
        | Some slice => _ ← verify_body_hash e slice; verify_entries warm batch_start bytes l
        end
  end.

Definition batch_entries (entries : list SegmentEntry) (first last : nat) : list SegmentEntry :=
  drop first (take (S last) entries).

(** What a call accepts of the store's answer. *)
Definition accept_batch (warm : bool) (entries : list SegmentEntry) (bss : Z) (first last : nat)
    (start stop : Z) (answer : io (list Z)) : io (list Z) :=
  bytes ← answer;
  if decide (blen bytes ≠ u64_sub (u64_add bss stop) (u64_add bss start)) then Err OtherError
  else _ ← verify_entries warm start bytes (batch_entries entries first last); Ok bytes.

(** The target a demand fetch accepts. *)
Definition check_target (entries : list SegmentEntry) (idx : nat) : io unit :=
  match entries !! idx with
  | None => Err OtherError
  | Some e => if stores_body e then Ok () else Err OtherError
  end.

(** *** The delta section *)

Fixpoint verify_options (bytes : list Z) (options : list DeltaOption) : io unit :=
  match options with
  | [] => Ok ()
  | o :: options =>
      match get_range bytes (delta_offset o, u64_add (delta_offset o) (delta_length o)) with
      | None => Err OtherError
      | Some blob => _ ← verify_delta_blob_hash o blob; verify_options bytes options
      end
  end.

Definition delta_range (layout : SegmentLayoutInfo) : Z * Z :=
  let start := u64_add (sl_body_section_start layout) (sl_body_length layout) in
  (start, u64_add start (sl_delta_length layout)).

Definition accept_delta (layout : SegmentLayoutInfo) (entries : list SegmentEntry) (answer : io (list Z))
    : io (list Z) :=
  bytes ← answer;
  if decide (blen bytes ≠ u64_sub (delta_range layout).2 (delta_range layout).1) then Err OtherError
  else _ ← verify_options bytes (mjoin (e_delta_options <$> entries)); Ok bytes.
End verify.

(** ** The cache directory

    A file has the bytes a read sees and those of its last sync; a directory
    has its present names and the states it went through since it was last
    synced, newest first: a crash leaves one of them. *)

Record Inode := mkInode { i_data : list Z; i_stable : list Z }.

(** [cache/<id>.present], replaced whole, and [cache/<id>.body], a file. *)
Record CacheDir := mkCacheDir { d_present : option (list Z); d_body : option nat }.

Record Directory := mkDirectory { latest : CacheDir; pending : list CacheDir }.

Definition change_dir (f : CacheDir → CacheDir) (d : Directory) : Directory :=
  mkDirectory (f (latest d)) (latest d :: pending d).
Definition sync_dir (d : Directory) : Directory := mkDirectory (latest d) [].
Definition with_present_bits (p : option (list Z)) (d : CacheDir) : CacheDir := mkCacheDir p (d_body d).
Definition with_body_file (b : option nat) (d : CacheDir) : CacheDir := mkCacheDir (d_present d) b.

(** [write_all] at an offset; a gap reads as zeros. *)
Definition pwrite (data : list Z) (off : Z) (bytes : list Z) : list Z :=
  match bytes with
  | [] => data
  | _ =>
      let o := Z.to_nat off in
      take o (data ++ replicate (o - length data) 0) ++ bytes ++ drop (o + length bytes) data
  end.

Definition write_inode (off : Z) (bytes : list Z) (n : Inode) : Inode :=
  mkInode (pwrite (i_data n) off bytes) (i_stable n).
Definition sync_inode (n : Inode) : Inode := mkInode (i_data n) (i_data n).

(** What a crash may leave of a file: a byte that has not changed since the last
    sync stays. *)
Definition settled (n : Inode) (d : list Z) : Prop :=
  Forall (λ p, i_stable n !! p = i_data n !! p → d !! p = i_stable n !! p) (seq 0 (length (i_stable n))).

#[export] Instance settled_dec n d : Decision (settled n d).
Proof. unfold settled. apply _. Defined.

(** ** The calls *)

(** [FetchCoalescer]'s state: the lease's range and its [done] flag, whose
    owner sets it when the lease leaves the list. *)
Record InFlight := mkInFlight { if_segment : Ulid; if_start : nat; if_end : nat; if_done : nat }.

Definition overlaps (segment : Ulid) (start last : nat) (f : InFlight) : Prop :=
  if_segment f = segment ∧ (if_start f ≤ last)%nat ∧ (start ≤ if_end f)%nat.

#[export] Instance overlaps_dec segment start last f : Decision (overlaps segment start last f).
Proof. unfold overlaps. apply _. Defined.

(** [BatchLease::drop]: the first lease of that range leaves. *)
Fixpoint release_lease (segment : Ulid) (start last : nat) (l : list InFlight) : list InFlight :=
  match l with
  | [] => []
  | f :: l =>
      if decide (if_segment f = segment ∧ if_start f = start ∧ if_end f = last) then l
      else f :: release_lease segment start last l
  end.

(** The workers of a warm pass: the open file, the batches not taken, those a
    worker holds (with their bytes once fetched), and what has landed. *)
Record Warming := mkWarming {
  w_inode : nat; w_new : bool; w_workers : nat;
  w_todo : list WarmBatch; w_flying : list (WarmBatch * option (list Z));
  w_warmed : list nat; w_bytes : Z; w_error : option io_error
}.

(** The end both paths share: the file written, whether this call created it,
    the entries whose bits it sets, its lease and the bytes it reports. *)
Record Commit := mkCommit {
  t_inode : nat; t_new : bool; t_indices : list nat; t_lease : option (nat * nat); t_bytes : Z
}.

(** Where a call stands: what it does next. *)
Inductive Phase :=
  | FetchTop (start : nat)                                (* read .present, plan the batch *)
  | FetchFound (start : nat)                              (* the bit is set: does .body exist? *)
  | FetchDropLock (start : nat)                           (* it does not: take the .present lock *)
  | FetchDrop (start : nat)                               (* look again under the lock *)
  | FetchUnlink (start : nat)                             (* remove .present *)
  | FetchClaim (start last : nat) (next : Z)              (* claim the lease or wait *)
  | FetchWait (start flag : nat)
  | FetchGet (start last : nat) (next : Z)                (* range-GET and verify *)
  | FetchProbe (start last : nat) (bytes : list Z)        (* does .body exist? *)
  | FetchOpen (start last : nat) (bytes : list Z) (new : bool)
  | FetchWrite (start last : nat) (bytes : list Z) (new : bool) (inode : nat)
  | WarmTop (populated : list nat)                        (* read .present, plan the batches *)
  | WarmProbe (batches : list WarmBatch)
  | WarmOpen (batches : list WarmBatch) (new : bool)
  | WarmRun (w : Warming)
  | Syncing (t : Commit)                                  (* fsync .body *)
  | DirSyncing (t : Commit)                               (* fsync the directory of a new .body *)
  | Locking (t : Commit)                                  (* take the .present lock *)
  | Reading (t : Commit)                                  (* re-read .present *)
  | Renaming (t : Commit) (bits : list Z)                 (* write_file_atomic: tmp, then rename *)
  | RenameSyncing (t : Commit) (bits : list Z)            (* and fsync the directory *)
  | Publishing (t : Commit) (bits : list Z)               (* the shared bitset *)
  | Done (r : io Z).

Record State := mkState {
  inodes : list Inode;
  dir : Directory;
  evicting : bool;                (* the coordinator is between its unlinks *)
  shared : option (list Z);       (* the [SegmentPresence] readers share *)
  in_flight : list InFlight;
  flags : nat;                    (* [done] flags made so far *)
  lock : option nat;              (* who holds the segment's .present lock *)
  calls : gmap nat Phase
}.

Definition with_inodes (f : list Inode → list Inode) (s : State) : State :=
  mkState (f (inodes s)) (dir s) (evicting s) (shared s) (in_flight s) (flags s) (lock s) (calls s).
Definition with_dir (f : Directory → Directory) (s : State) : State :=
  mkState (inodes s) (f (dir s)) (evicting s) (shared s) (in_flight s) (flags s) (lock s) (calls s).
Definition with_evicting (b : bool) (s : State) : State :=
  mkState (inodes s) (dir s) b (shared s) (in_flight s) (flags s) (lock s) (calls s).
Definition replace_shared (bytes : list Z) (s : State) : State :=
  mkState (inodes s) (dir s) (evicting s) ((λ bits, sp_replace_from_bytes bits bytes) <$> shared s)
    (in_flight s) (flags s) (lock s) (calls s).
Definition with_lock (l : option nat) (s : State) : State :=
  mkState (inodes s) (dir s) (evicting s) (shared s) (in_flight s) (flags s) l (calls s).
Definition push_lease (f : InFlight) (s : State) : State :=
  mkState (inodes s) (dir s) (evicting s) (shared s) (in_flight s ++ [f]) (S (flags s)) (lock s) (calls s).
Definition with_leases (l : list InFlight) (s : State) : State :=
  mkState (inodes s) (dir s) (evicting s) (shared s) l (flags s) (lock s) (calls s).
Definition goto (c : nat) (p : Phase) (s : State) : State :=
  mkState (inodes s) (dir s) (evicting s) (shared s) (in_flight s) (flags s) (lock s) (<[c := p]> (calls s)).

Definition present_bytes (s : State) : list Z := default [] (d_present (latest (dir s))).
Definition body_file (s : State) : option nat := d_body (latest (dir s)).

(** Opening [.body] for writing, creating it when missing. *)
Definition open_body (s : State) : State * nat :=
  match body_file s with
  | Some ino => (s, ino)
  | None =>
      let ino := length (inodes s) in
      (with_dir (change_dir (with_body_file (Some ino))) (with_inodes (λ l, l ++ [mkInode [] []]) s), ino)
  end.

(** What the environment answers to the operation a call is at. *)
Inductive Answer :=
  | Go                                        (* it succeeds *)
  | Refuse (e : io_error)                     (* it fails *)
  | Served (r : io (list Z))                  (* the range-GET *)
  | Wrote (n : nat)                           (* the write fails after n bytes *)
  | Take                                      (* a worker takes the next batch *)
  | WorkerServed (k : nat) (r : io (list Z))  (* the k-th batch's range-GET *)
  | WorkerWrote (k : nat) (failed : option nat).

Inductive Job := FetchJob (start : nat) | WarmJob (populated : list nat).

Inductive Action :=
  | Arrive (c : nat) (job : Job)
  | Run (c : nat) (a : Answer)
  | Evict (removed : bool)                    (* the next unlink of an eviction *)
  | Crash (kept : nat) (contents : list (list Z)).

Definition WARM_INTRA_SEGMENT_PARALLELISM : nat := 4.

(** ** One operation of a call *)

Section system.
Context {HB : Blake3} {HL : Lz4Block} {HC : Lz4Codec} {HT : Blake3Tree} {HZ : ZstdBulk}.
Context (segment : Ulid) (entries : list SegmentEntry) (body_section_start : Z) (max_batch_bytes : Z).

(** The call returns: its lease and the lock, when it holds them, are dropped. *)
Definition drop_lease (lease : option (nat * nat)) (s : State) : State :=
  match lease with
  | Some (start, last) => with_leases (release_lease segment start last (in_flight s)) s
  | None => s
  end.
Definition return_from (c : nat) (lease : option (nat * nat)) (locked : bool) (r : io Z) (s : State) : State :=
  goto c (Done r) (drop_lease lease (if locked then with_lock None s else s)).

Definition entry_at (i : nat) : Z * Z :=
  match entries !! i with Some e => (e_stored_offset e, e_stored_length e) | None => (0, 0) end.

Definition plan_fetch (bits : list Z) (start : nat) : nat * Z :=
  let '(off, len) := entry_at start in
  scan_batch max_batch_bytes off (is_present bits) (drop (S start) entries) (S start) start (u64_add off len).

(** [fetch_one_extent]'s loop and [fetch_batch] up to the write. *)
Definition fetch_step (s : State) (c : nat) (p : Phase) (a : Answer) : option State :=
  match p, a with
  | FetchTop start, Go =>
      if is_present (present_bytes s) start then Some (goto c (FetchFound start) s)
      else let '(last, next) := plan_fetch (present_bytes s) start in
           Some (goto c (FetchClaim start last next) s)
  | FetchTop start, Refuse e => Some (return_from c None false (Err e) s)
  | FetchFound start, Go =>
      match body_file s with
      | Some _ => Some (return_from c None false (Ok 0) s)
      | None => Some (goto c (FetchDropLock start) s)
      end
  | FetchDropLock start, Go =>
      match lock s with None => Some (goto c (FetchDrop start) (with_lock (Some c) s)) | Some _ => None end
  | FetchDrop start, Go =>
      match body_file s with
      | Some _ => Some (goto c (FetchTop start) (with_lock None s))
      | None => Some (goto c (FetchUnlink start) s)
      end
  | FetchUnlink start, Go =>
      Some (goto c (FetchTop start)
              (with_lock None (replace_shared [] (with_dir (change_dir (with_present_bits None)) s))))
  | FetchUnlink start, Refuse e => Some (return_from c None true (Err e) s)
  | FetchClaim start last next, Go =>
      match list_find (overlaps segment start last) (in_flight s) with
      | Some (_, f) => Some (goto c (FetchWait start (if_done f)) s)
      | None => Some (goto c (FetchGet start last next)
                        (push_lease (mkInFlight segment start last (flags s)) s))
      end
  | FetchWait start flag, Go =>
      if decide (flag ∈ if_done <$> in_flight s) then None else Some (goto c (FetchTop start) s)
  | FetchGet start last next, Served r =>
      match accept_batch false entries body_section_start start last (entry_at start).1 next r with
      | Ok bytes => Some (goto c (FetchProbe start last bytes) s)
      | Err e => Some (return_from c (Some (start, last)) false (Err e) s)
      end
  | FetchProbe start last bytes, Go =>
      Some (goto c (FetchOpen start last bytes (bool_decide (body_file s = None))) s)
  | FetchProbe start last _, Refuse e => Some (return_from c (Some (start, last)) false (Err e) s)
  | FetchOpen start last bytes new, Go =>
      let '(s, ino) := open_body s in Some (goto c (FetchWrite start last bytes new ino) s)
  | FetchOpen start last _ _, Refuse _ => Some (return_from c (Some (start, last)) false (Err OtherError) s)
  | FetchWrite start last bytes new ino, Go =>
      Some (goto c (Syncing (mkCommit ino new (seq start (S last - start)) (Some (start, last)) 0))
              (with_inodes (alter (write_inode (entry_at start).1 bytes) ino) s))
  | FetchWrite start last bytes new ino, Wrote n =>
      Some (return_from c (Some (start, last)) false (Err OtherError)
              (with_inodes (alter (write_inode (entry_at start).1 (take n bytes)) ino) s))
  | _, _ => None
  end.

(** [slice::dedup] on a sorted list. *)
Fixpoint dedup_nat (l : list nat) : list nat :=
  match l with
  | x :: ((y :: _) as l') => if decide (x = y) then dedup_nat l' else x :: dedup_nat l'
  | _ => l
  end.

Definition keep_first (err : option io_error) (e : io_error) : option io_error :=
  match err with Some e => Some e | None => Some e end.

(** The pool of [warm_segment_impl]: a worker that finds [first_err] set stops,
    the others finish the batch they hold; [Go] is the end of the scope. *)
Definition run_step (s : State) (c : nat) (w : Warming) (a : Answer) : option State :=
  let ino := w_inode w in
  let continue todo flying warmed bytes err s :=
    Some (goto c (WarmRun (mkWarming ino (w_new w) (w_workers w) todo flying warmed bytes err)) s) in
  match a with
  | Take =>
      match w_error w, w_todo w with
      | None, b :: todo =>
          if decide (length (w_flying w) < w_workers w)%nat then
            continue todo (w_flying w ++ [(b, None)]) (w_warmed w) (w_bytes w) None s
          else None
      | _, _ => None
      end
  | WorkerServed k r =>
      match w_flying w !! k with
      | Some (b, None) =>
          match accept_batch true entries body_section_start (start_entry b) (end_entry_inclusive b)
                  (body_start b) (body_end b) r with
          | Ok got => continue (w_todo w) (<[k := (b, Some got)]> (w_flying w)) (w_warmed w) (w_bytes w) (w_error w) s
          | Err e => continue (w_todo w) (delete k (w_flying w)) (w_warmed w) (w_bytes w) (keep_first (w_error w) e) s
          end
      | _ => None
      end
  | WorkerWrote k failed =>
      match w_flying w !! k with
      | Some (b, Some got) =>
          let write data := with_inodes (alter (write_inode (body_start b) data) ino) s in
          match failed with
          | None =>
              continue (w_todo w) (delete k (w_flying w))
                (w_warmed w ++ seq (start_entry b) (S (end_entry_inclusive b) - start_entry b))
                (u64_add (w_bytes w) (blen got)) (w_error w) (write got)
          | Some n =>
              continue (w_todo w) (delete k (w_flying w)) (w_warmed w) (w_bytes w)
                (keep_first (w_error w) OtherError) (write (take n got))
          end
      | _ => None
      end
  | Go =>
      match w_flying w, w_error w, w_todo w, w_warmed w with
      | [], Some e, _, _ => Some (return_from c None false (Err e) s)
      | [], None, [], [] => Some (return_from c None false (Ok 0) s)
      | [], None, [], warmed =>
          Some (goto c (Syncing (mkCommit ino (w_new w) (dedup_nat (merge_sort Nat.le warmed)) None (w_bytes w))) s)
      | _, _, _, _ => None
      end
  | _ => None
  end.

(** [warm_segment_impl] up to its sync. *)
Definition warm_step (s : State) (c : nat) (p : Phase) (a : Answer) : option State :=
  match p, a with
  | WarmTop populated, Go =>
      match plan_warm_batches entries populated (is_present (present_bytes s)) max_batch_bytes with
      | [] => Some (return_from c None false (Ok 0) s)
      | batches => Some (goto c (WarmProbe batches) s)
      end
  | WarmTop _, Refuse e => Some (return_from c None false (Err e) s)
  | WarmProbe batches, Go => Some (goto c (WarmOpen batches (bool_decide (body_file s = None))) s)
  | WarmProbe _, Refuse e => Some (return_from c None false (Err e) s)
  | WarmOpen batches new, Go =>
      let '(s, ino) := open_body s in
      let workers := Nat.min WARM_INTRA_SEGMENT_PARALLELISM (length batches) in
      Some (goto c (WarmRun (mkWarming ino new workers batches [] [] 0 None)) s)
  | WarmOpen _ _, Refuse _ => Some (return_from c None false (Err OtherError) s)
  | WarmRun w, a => run_step s c w a
  | _, _ => None
  end.

(** The commit both share: sync, directory, and under the lock re-read, merge,
    replace, publish. *)
Definition commit_step (s : State) (c : nat) (p : Phase) (a : Answer) : option State :=
  match p, a with
  | Syncing t, Go =>
      Some (goto c (if t_new t then DirSyncing t else Locking t)
              (with_inodes (alter sync_inode (t_inode t)) s))
  | Syncing t, Refuse _ => Some (return_from c (t_lease t) false (Err OtherError) s)
  | DirSyncing t, Go => Some (goto c (Locking t) (with_dir sync_dir s))
  | DirSyncing t, Refuse _ => Some (return_from c (t_lease t) false (Err OtherError) s)
  | Locking t, Go =>
      match lock s with None => Some (goto c (Reading t) (with_lock (Some c) s)) | Some _ => None end
  | Reading t, Go =>
      Some (goto c (Renaming t (merge_bits (length entries) (present_bytes s) (t_indices t))) s)
  | Reading t, Refuse e => Some (return_from c (t_lease t) true (Err e) s)
  | Renaming t bits, Go =>
      Some (goto c (RenameSyncing t bits) (with_dir (change_dir (with_present_bits (Some bits))) s))
  | Renaming t _, Refuse _ => Some (return_from c (t_lease t) true (Err OtherError) s)
  | RenameSyncing t bits, Go => Some (goto c (Publishing t bits) (with_dir sync_dir s))
  | RenameSyncing t _, Refuse _ => Some (return_from c (t_lease t) true (Err OtherError) s)
  | Publishing t bits, Go =>
      Some (return_from c (t_lease t) true (Ok (t_bytes t)) (replace_shared bits s))
  | _, _ => None
  end.

Definition call_step (s : State) (c : nat) (p : Phase) (a : Answer) : option State :=
  match fetch_step s c p a with
  | Some s => Some s
  | None => match warm_step s c p a with Some s => Some s | None => commit_step s c p a end
  end.

(** A call's first look at the index. *)
Definition arrive (job : Job) : Phase :=
  match job with
  | FetchJob start =>
      match check_target entries start with Ok _ => FetchTop start | Err e => Done (Err e) end
  | WarmJob populated => WarmTop populated
  end.

(** [evict_cache_files]: [.present] first, then [.body]; an unlink that fails is
    passed over. *)
Definition evict_step (removed : bool) (s : State) : State :=
  let unlink f s := if removed then with_dir (change_dir f) s else s in
  if evicting s then with_evicting false (unlink (with_body_file None) s)
  else with_evicting true (unlink (with_present_bits None) s).

(** The host goes down and the volume opens again: the directory is one of those
    it went through, each file keeps its settled bytes, and the shared bitset is
    loaded from the file. *)
Definition crash_step (s : State) (kept : nat) (contents : list (list Z)) : option State :=
  match (latest (dir s) :: pending (dir s)) !! kept with
  | None => None
  | Some d =>
      if decide (Forall2 settled (inodes s) contents) then
        Some (mkState ((λ data, mkInode data data) <$> contents) (mkDirectory d []) false
                ((λ _, sp_from_bytes (default [] (d_present d)) (blen entries)) <$> shared s)
                [] (flags s) None ∅)
      else None
  end.

Definition exec (s : State) (a : Action) : option State :=
  match a with
  | Arrive c job => match calls s !! c with None => Some (goto c (arrive job) s) | Some _ => None end
  | Run c answer => match calls s !! c with Some p => call_step s c p answer | None => None end
  | Evict removed => Some (evict_step removed s)
  | Crash kept contents => crash_step s kept contents
  end.

Fixpoint exec_all (s : State) (l : list Action) : option State :=
  match l with [] => Some s | a :: l => match exec s a with Some s => exec_all s l | None => None end end.

(** The entry a fetch is for, the lease a call holds, the range-GET it is at. *)
Definition target (p : Phase) : option nat :=
  match p with
  | FetchTop start | FetchFound start | FetchDropLock start | FetchDrop start | FetchUnlink start
  | FetchClaim start _ _ | FetchWait start _ | FetchGet start _ _ | FetchProbe start _ _
  | FetchOpen start _ _ _ | FetchWrite start _ _ _ _ => Some start
  | Syncing t | DirSyncing t | Locking t | Reading t | Renaming t _ | RenameSyncing t _ | Publishing t _ =>
      fst <$> t_lease t
  | _ => None
  end.

Definition lease_of (p : Phase) : option (nat * nat) :=
  match p with
  | FetchGet start last _ | FetchProbe start last _ | FetchOpen start last _ _
  | FetchWrite start last _ _ _ => Some (start, last)
  | Syncing t | DirSyncing t | Locking t | Reading t | Renaming t _ | RenameSyncing t _ | Publishing t _ =>
      t_lease t
  | _ => None
  end.

Definition requested (p : Phase) (a : Answer) : option (Z * Z * io (list Z)) :=
  match p, a with
  | FetchGet start _ next, Served r =>
      Some (u64_add body_section_start (entry_at start).1, u64_add body_section_start next, r)
  | WarmRun w, WorkerServed k r =>
      match w_flying w !! k with
      | Some (b, None) =>
          Some (u64_add body_section_start (body_start b), u64_add body_section_start (body_end b), r)
      | _ => None
      end
  | _, _ => None
  end.
End system.

(** ** The delta section

    [fetch_one_delta_body] has no lease: its calls share one [.delta.tmp].  The
    rename is not followed by a sync of the directory. *)

Inductive DeltaPhase :=
  | DeltaTop                                    (* does .delta exist? *)
  | DeltaGet                                    (* range-GET and verify *)
  | DeltaOpen (bytes : list Z)                  (* create or truncate .delta.tmp *)
  | DeltaWrite (bytes : list Z) (inode : nat)
  | DeltaSync (inode : nat)
  | DeltaRename
  | DeltaDone (r : io unit).

Record DeltaState := mkDeltaState {
  dl_inodes : list Inode;
  dl_tmp : option nat;      (* <id>.delta.tmp *)
  dl_file : option nat;     (* <id>.delta *)
  dl_calls : gmap nat DeltaPhase
}.

Definition dl_goto (c : nat) (p : DeltaPhase) (s : DeltaState) : DeltaState :=
  mkDeltaState (dl_inodes s) (dl_tmp s) (dl_file s) (<[c := p]> (dl_calls s)).
Definition dl_write (f : Inode → Inode) (ino : nat) (s : DeltaState) : DeltaState :=
  mkDeltaState (alter f ino (dl_inodes s)) (dl_tmp s) (dl_file s) (dl_calls s).

(** Opening with [create] and [truncate]. *)
Definition dl_open (s : DeltaState) : DeltaState * nat :=
  match dl_tmp s with
  | Some ino => (dl_write (λ n, mkInode [] (i_stable n)) ino s, ino)
  | None =>
      let ino := length (dl_inodes s) in
      (mkDeltaState (dl_inodes s ++ [mkInode [] []]) (Some ino) (dl_file s) (dl_calls s), ino)
  end.

Section delta.
Context {HB : Blake3}.
Context (layout : SegmentLayoutInfo) (entries : list SegmentEntry).

Definition delta_arrive : DeltaPhase :=
  if decide (sl_delta_length layout = 0) then DeltaDone (Err OtherError) else DeltaTop.

Definition delta_step (s : DeltaState) (c : nat) (p : DeltaPhase) (a : Answer) : option DeltaState :=
  match p, a with
  | DeltaTop, Go =>
      Some (dl_goto c (match dl_file s with Some _ => DeltaDone (Ok ()) | None => DeltaGet end) s)
  | DeltaTop, Refuse e => Some (dl_goto c (DeltaDone (Err e)) s)
  | DeltaGet, Served r =>
      Some (dl_goto c (match accept_delta layout entries r with
                       | Ok bytes => DeltaOpen bytes
                       | Err e => DeltaDone (Err e)
                       end) s)
  | DeltaOpen bytes, Go => let '(s, ino) := dl_open s in Some (dl_goto c (DeltaWrite bytes ino) s)
  | DeltaOpen _, Refuse _ => Some (dl_goto c (DeltaDone (Err OtherError)) s)
  | DeltaWrite bytes ino, Go => Some (dl_goto c (DeltaSync ino) (dl_write (write_inode 0 bytes) ino s))
  | DeltaWrite bytes ino, Wrote n =>
      Some (dl_goto c (DeltaDone (Err OtherError)) (dl_write (write_inode 0 (take n bytes)) ino s))
  | DeltaSync ino, Go => Some (dl_goto c DeltaRename (dl_write sync_inode ino s))
  | DeltaSync _, Refuse _ => Some (dl_goto c (DeltaDone (Err OtherError)) s)
  | DeltaRename, Go =>
      match dl_tmp s with
      | Some ino =>
          Some (dl_goto c (DeltaDone (Ok ())) (mkDeltaState (dl_inodes s) None (Some ino) (dl_calls s)))
      | None => Some (dl_goto c (DeltaDone (Err OtherError)) s)
      end
  | DeltaRename, Refuse _ => Some (dl_goto c (DeltaDone (Err OtherError)) s)
  | _, _ => None
  end.

Fixpoint delta_run (s : DeltaState) (l : list (nat * Answer)) : option DeltaState :=
  match l with
  | [] => Some s
  | (c, a) :: l =>
      match dl_calls s !! c with
      | Some p => match delta_step s c p a with Some s => delta_run s l | None => None end
      | None => None
      end
  end.
End delta.
