(* ===== verification/FetchFacts.v ===== *)
(** * Demand fetch: bits, bytes and files

    The bit operations read as sets of indices, the writes as updates of the
    bytes at a position; what a file holds of the object, and what its writes,
    syncs and crashes keep of it. *)

From Stdlib Require Import ZArith Lia.
From stdpp Require Import base gmap list sorting.
From S2P Require Import Prelude Bytes Segment ChunkTree ChunkTreeSpec Codec SegmentCodec ExtentIndex Fetch.
Open Scope Z_scope.

(** ** Bits *)

Lemma land_shiftl_testbit b k : 0 ≤ k → negb (bool_decide (Z.land b (Z.shiftl 1 k) = 0)) = Z.testbit b k.
Proof.
  intros Hk. rewrite Z.shiftl_1_l. destruct (Z.testbit b k) eqn:Hb.
  - rewrite bool_decide_eq_false_2; [done|]. intros Hz.
    assert (Z.testbit (Z.land b (2 ^ k)) k = false) as Hf by (rewrite Hz; apply Z.bits_0).
    by rewrite Z.land_spec, Hb, Z.pow2_bits_true in Hf by done.
  - rewrite bool_decide_eq_true_2; [done|]. apply Z.bits_inj'. intros n Hn.
    rewrite Z.land_spec, Z.bits_0. destruct (decide (n = k)) as [->|]; [by rewrite Hb|].
    rewrite Z.pow2_bits_false by lia. apply andb_false_r.
Qed.

Lemma is_present_testbit bits i :
  is_present bits i = match bits !! (i / 8)%nat with
                      | Some b => Z.testbit b (Z.of_nat (i mod 8)) | None => false end.
Proof. unfold is_present. destruct (_ !! _); [|done]. apply land_shiftl_testbit. lia. Qed.

Lemma is_present_set_bit bits i j :
  is_present (set_bit bits i) j =
  is_present bits j || (bool_decide (i = j) && bool_decide (i / 8 < length bits)%nat).
Proof.
  rewrite !is_present_testbit. unfold set_bit.
  destruct (decide (i / 8 = j / 8)%nat) as [Heq|Hne].
  - rewrite <- Heq, list_lookup_alter_eq. destruct (bits !! (i / 8)%nat) as [b|] eqn:Hb; cbn [fmap option_fmap option_map].
    + rewrite Z.lor_spec, Z.shiftl_1_l. f_equal.
      rewrite (bool_decide_eq_true_2 (i / 8 < length bits)%nat) by (by eapply lookup_lt_Some).
      rewrite andb_true_r. destruct (decide (i = j)) as [->|Hij].
      * rewrite bool_decide_eq_true_2 by done. apply Z.pow2_bits_true, Nat2Z.is_nonneg.
      * rewrite bool_decide_eq_false_2 by done. apply Z.pow2_bits_false.
        intros Hm%Nat2Z.inj. apply Hij. pose proof (Nat.div_mod_eq i 8) as Hi. rewrite Heq, Hm in Hi. by rewrite Hi, <- Nat.div_mod_eq.
    + apply lookup_ge_None_1 in Hb. rewrite (bool_decide_eq_false_2 (i / 8 < length bits)%nat) by lia.
      by rewrite andb_false_r.
  - rewrite list_lookup_alter_ne by done. rewrite (bool_decide_eq_false_2 (i = j)) by congruence.
    by rewrite orb_false_r.
Qed.

Lemma length_set_bit bits i : length (set_bit bits i) = length bits.
Proof. apply length_alter. Qed.

Lemma length_foldl_set_bit l bits : length (foldl set_bit bits l) = length bits.
Proof. revert bits. induction l as [|i l IH]; intros bits; [done|]. simpl. by rewrite IH, length_set_bit. Qed.

Lemma foldl_set_bit l bits j :
  is_present (foldl set_bit bits l) j = true ↔
  is_present bits j = true ∨ (j ∈ l ∧ (j / 8 < length bits)%nat).
Proof.
  revert bits. induction l as [|i l IH]; intros bits; simpl; [set_solver|].
  rewrite IH, is_present_set_bit, length_set_bit, orb_true_iff, andb_true_iff, !bool_decide_eq_true, elem_of_cons.
  naive_solver.
Qed.

Lemma is_present_padded bits n j : is_present (bits ++ replicate n 0) j = is_present bits j.
Proof.
  rewrite !is_present_testbit. destruct (decide (j / 8 < length bits)%nat).
  - by rewrite lookup_app_l.
  - rewrite lookup_app_r by lia. rewrite (lookup_ge_None_2 bits) by lia.
    destruct (_ !! _) as [b|] eqn:Hb; [|done]. apply lookup_replicate in Hb as [-> _]. apply Z.bits_0.
Qed.

(** The merge keeps what the file held and sets the call's entries. *)
Lemma merge_bits_spec n on_disk l j :
  is_present (merge_bits n on_disk l) j = true → is_present on_disk j = true ∨ j ∈ l.
Proof. unfold merge_bits. rewrite foldl_set_bit, is_present_padded. tauto. Qed.

Lemma merge_bits_keeps n on_disk l j :
  is_present on_disk j = true → is_present (merge_bits n on_disk l) j = true.
Proof. unfold merge_bits. rewrite foldl_set_bit, is_present_padded. tauto. Qed.

Lemma merge_bits_sets n on_disk l j :
  j ∈ l → (j < n)%nat → is_present (merge_bits n on_disk l) j = true.
Proof.
  intros Hj Hn. unfold merge_bits. rewrite foldl_set_bit. right. split; [done|].
  rewrite length_app, length_replicate. unfold div_ceil.
  assert (Z.of_nat (j / 8)%nat < (Z.of_nat n + 8 - 1) / 8).
  { rewrite Nat2Z.inj_div. apply Z.div_lt_upper_bound; [lia|].
    pose proof (Z.div_mod (Z.of_nat n + 8 - 1) 8). pose proof (Z.mod_pos_bound (Z.of_nat n + 8 - 1) 8). lia. }
  lia.
Qed.

(** ** Sorted indices *)

Lemma elem_of_dedup_nat l i : i ∈ dedup_nat l ↔ i ∈ l.
Proof.
  induction l as [|x [|y l] IH]; [done..|].
  change (i ∈ (if decide (x = y) then dedup_nat (y :: l) else x :: dedup_nat (y :: l)) ↔ i ∈ x :: y :: l).
  case_decide as Hxy; [rewrite IH; set_solver|]. rewrite elem_of_cons, IH. set_solver.
Qed.

Lemma dedup_nat_sorted l : StronglySorted Nat.le l → StronglySorted Nat.lt (dedup_nat l).
Proof.
  induction l as [|x [|y l] IH]; intros Hs; [constructor|by repeat constructor|].
  apply StronglySorted_cons in Hs as [Hx Hs]. specialize (IH Hs).
  change (StronglySorted Nat.lt (if decide (x = y) then dedup_nat (y :: l) else x :: dedup_nat (y :: l))).
  case_decide as Hxy; [done|]. apply SSorted_cons; [done|]. apply Forall_forall. intros z Hz.
  apply (proj1 (elem_of_dedup_nat _ _)) in Hz. rewrite Forall_forall in Hx.
  apply StronglySorted_cons in Hs as [Hy _]. rewrite Forall_forall in Hy.
  pose proof (Hx y ltac:(by left)) as Hxy'. apply elem_of_cons in Hz as [->|Hz]; [lia|].
  specialize (Hy z Hz). lia.
Qed.

Lemma indices_filter_sorted (P : nat → Prop) `{!∀ i, Decision (P i)} l :
  StronglySorted Nat.lt l → StronglySorted Nat.lt (filter P l).
Proof.
  induction 1 as [|x l Hs IH Hall]; [constructor|]. rewrite filter_cons. case_decide; [|done].
  constructor; [done|]. rewrite Forall_forall in Hall |- *. intros y [_ Hy]%list_elem_of_filter. auto.
Qed.

(** ** Bytes *)

Lemma lookup_pwrite_in data off bytes k :
  0 ≤ off → (k < length bytes)%nat → pwrite data off bytes !! (Z.to_nat off + k)%nat = bytes !! k.
Proof.
  intros Ho Hk. unfold pwrite. destruct bytes as [|b bs] eqn:Hbs; [simpl in Hk; lia|]. rewrite <- Hbs in *.
  set (o := Z.to_nat off).
  assert (length (take o (data ++ replicate (o - length data) 0)) = o) as Hl.
  { rewrite length_take, length_app, length_replicate. lia. }
  rewrite lookup_app_r by lia. rewrite Hl. replace (o + k - o)%nat with k by lia.
  by rewrite lookup_app_l by done.
Qed.

Lemma lookup_pwrite_out data off bytes p x :
  0 ≤ off → ¬ (Z.to_nat off ≤ p < Z.to_nat off + length bytes)%nat →
  data !! p = Some x → pwrite data off bytes !! p = Some x.
Proof.
  intros Ho Hp Hx. unfold pwrite. destruct bytes as [|b bs] eqn:Hbs; [done|]. rewrite <- Hbs in *.
  set (o := Z.to_nat off) in *. pose proof (lookup_lt_Some _ _ _ Hx) as Hlt.
  assert (length (take o (data ++ replicate (o - length data) 0)) = o) as Hl.
  { rewrite length_take, length_app, length_replicate. lia. }
  destruct (decide (p < o)%nat).
  - rewrite lookup_app_l by lia. rewrite lookup_take_lt by done. by rewrite lookup_app_l.
  - rewrite lookup_app_r by lia. rewrite Hl, lookup_app_r by lia. rewrite lookup_drop.
    by replace (o + length bytes + (p - o - length bytes))%nat with p by lia.
Qed.

Lemma lookup_bytes_in (d : list Z) a b k :
  0 ≤ a → (k < Z.to_nat (b - a))%nat → bytes_in d (a, b) !! k = d !! (Z.to_nat a + k)%nat.
Proof. intros Ha Hk. unfold bytes_in. simpl. by rewrite lookup_take_lt, lookup_drop. Qed.

Lemma bytes_in_nested (d : list Z) a b x y :
  0 ≤ a → 0 ≤ x → y ≤ b - a → bytes_in (bytes_in d (a, b)) (x, y) = bytes_in d (a + x, a + y).
Proof.
  intros Ha Hx Hy. unfold bytes_in. simpl. rewrite skipn_firstn_comm, drop_drop, take_take.
  f_equal; [lia|]. f_equal. lia.
Qed.

Section spec.
Context {HB : Blake3} {HL : Lz4Block} {HC : Lz4Codec} {HT : Blake3Tree} {HZ : ZstdBulk}.
Context (segment : Ulid) (entries : list SegmentEntry) (bss cap : Z).
Context (obj : list Z).

(** The index parser's bounds: a body lies inside 64 bits. *)
Definition fits : Prop :=
  0 ≤ bss ∧
  Forall (λ e, stores_body e = true → 0 ≤ e_stored_offset e ∧ 0 < e_stored_length e ∧
            bss + e_stored_offset e + e_stored_length e < U64) entries.

Definition wants (i : nat) (e : SegmentEntry) : Prop := entries !! i = Some e ∧ stores_body e = true.

(** The object's bytes of an entry verify. *)
Definition stored_bytes (e : SegmentEntry) : list Z :=
  bytes_in obj (bss + e_stored_offset e, bss + e_stored_offset e + e_stored_length e).
Definition body_ok (e : SegmentEntry) : Prop := verify_body_hash e (stored_bytes e) = Ok ().

(** [d] holds the object's bytes of the entry, at its offset. *)
Definition holds_entry (d : list Z) (e : SegmentEntry) : Prop :=
  ∀ p : nat, e_stored_offset e ≤ Z.of_nat p < e_stored_offset e + e_stored_length e →
    ∃ x, obj !! (Z.to_nat bss + p)%nat = Some x ∧ d !! p = Some x.

Definition written (n : Inode) (i : nat) : Prop :=
  ∀ e, wants i e → body_ok e ∧ holds_entry (i_data n) e.
Definition durable (n : Inode) (i : nat) : Prop :=
  ∀ e, wants i e → body_ok e ∧ holds_entry (i_data n) e ∧ holds_entry (i_stable n) e.

(** [l'] keeps what the files of [l] hold. *)
Definition inode_le (n n' : Inode) : Prop :=
  (∀ i, written n i → written n' i) ∧ (∀ i, durable n i → durable n' i).
Definition inodes_le (l l' : list Inode) : Prop :=
  ∀ ino n, l !! ino = Some n → ∃ n', l' !! ino = Some n' ∧ inode_le n n'.

#[local] Instance inode_le_refl : Reflexive inode_le.
Proof. by split. Qed.
#[local] Instance inodes_le_refl : Reflexive inodes_le.
Proof. intros l ino n Hn. by exists n. Qed.

(** [bytes] are the object's from [start] on, and cover the entries of a batch. *)
Definition object_bytes (start : Z) (bytes : list Z) : Prop :=
  0 ≤ start ∧ ∀ k x, bytes !! k = Some x → obj !! (Z.to_nat bss + (Z.to_nat start + k))%nat = Some x.
Definition covers (first last : nat) (start : Z) (bytes : list Z) : Prop :=
  object_bytes start bytes ∧
  ∀ i e, (first ≤ i ≤ last)%nat → wants i e →
    body_ok e ∧ start ≤ e_stored_offset e ∧ e_stored_offset e + e_stored_length e ≤ start + blen bytes.

Lemma wants_fits i e : fits → wants i e →
  0 ≤ e_stored_offset e ∧ 0 < e_stored_length e ∧ bss + e_stored_offset e + e_stored_length e < U64 ∧ 0 ≤ bss.
Proof.
  intros [Hb Hf] [Hi Hs]. rewrite Forall_lookup in Hf. destruct (Hf _ _ Hi Hs) as (?&?&?). lia.
Qed.

(** An entry a batch verified lies within the batch's bytes. *)
Lemma verify_entries_slice warm start bytes l e :
  verify_entries warm start bytes l = Ok () → e ∈ l → stores_body e = true →
  ∃ slice, get_range bytes (u64_sub (e_stored_offset e) start,
             u64_add (u64_sub (e_stored_offset e) start) (e_stored_length e)) = Some slice ∧
           verify_body_hash e slice = Ok ().
Proof.
  intros Hv He Hs. induction l as [|a l IH]; [by apply elem_of_nil in He|]. simpl in Hv.
  destruct (warm && negb (stores_body a)) eqn:Hskip.
  - apply elem_of_cons in He as [->|He]; [|by apply IH]. by rewrite Hs, andb_false_r in Hskip.
  - destruct (get_range bytes _) as [slice|] eqn:Hg; [|done].
    apply io_bind_Ok in Hv as ([] & Hv & Hrest).
    apply elem_of_cons in He as [->|He]; [by exists slice|by apply IH].
Qed.

Lemma elem_of_batch_entries i first last e :
  entries !! i = Some e → (first ≤ i ≤ last)%nat → e ∈ batch_entries entries first last.
Proof.
  intros He Hi. apply list_elem_of_lookup. exists (i - first)%nat. unfold batch_entries.
  rewrite lookup_drop, lookup_take_lt by lia. by replace (first + (i - first))%nat with i by lia.
Qed.

Lemma slice_in_bounds off len start n :
  0 ≤ off → 0 < len → off + len < U64 → 0 ≤ start → start < U64 → 0 ≤ n → start + n < U64 →
  u64_sub off start ≤ u64_add (u64_sub off start) len → u64_add (u64_sub off start) len ≤ n →
  start ≤ off ∧ off + len ≤ start + n.
Proof.
  intros. unfold u64_sub, u64_add in *.
  destruct (decide (start ≤ off)).
  - rewrite (Z.mod_small (off - start)) in * by lia. rewrite Z.mod_small in * by lia. lia.
  - assert ((off - start) mod U64 = off - start + U64) as Hm.
    { symmetry. apply (Z.mod_unique_pos _ _ (-1)); lia. }
    rewrite Hm in *. destruct (decide (off - start + len < 0)).
    + rewrite Z.mod_small in * by lia. lia.
    + assert ((off - start + U64 + len) mod U64 = off - start + len) as Hm'.
      { symmetry. apply (Z.mod_unique_pos _ _ 1); lia. }
      rewrite Hm' in *. lia.
Qed.

(** What is accepted of an honest answer covers the batch. *)
Lemma accept_batch_covers warm first last start stop r bytes :
  fits → (∃ i e, wants i e ∧ e_stored_offset e = start) →
  (∀ bs, r = Ok bs → bs = bytes_in obj (u64_add bss start, u64_add bss stop)) →
  accept_batch warm entries bss first last start stop r = Ok bytes → covers first last start bytes.
Proof.
  intros Hfit (j & e0 & Hw0 & <-) Hr Ha. destruct (wants_fits _ _ Hfit Hw0) as (Ho & Hl & Hu & Hb).
  apply io_bind_Ok in Ha as (bs & Hok & Ha). rewrite (Hr _ Hok) in Ha. clear Hr Hok r bs.
  revert Ha. unwrap. set (rs := bss + e_stored_offset e0). set (re := u64_add bss stop).
  assert (0 ≤ re < U64) by (unfold re, u64_add; apply Z.mod_pos_bound; lia).
  intros Ha. case_decide as Hlen; [done|].
  apply io_bind_Ok in Ha as ([] & Hv & [= <-]).
  assert (blen (bytes_in obj (rs, re)) ≤ Z.max 0 (re - rs)) as Hle.
  { unfold bytes_in, blen. simpl. rewrite length_take. lia. }
  assert (rs ≤ re) as Hre.
  { destruct (decide (rs ≤ re)); [done|]. rewrite Hlen in Hle. unfold u64_sub in Hle.
    rewrite <- (Z.mod_unique_pos (re - rs) U64 (-1) (re - rs + U64)) in Hle by lia. lia. }
  rewrite u64_sub_id in Hlen by lia.
  split; [split; [lia|]|].
  - intros k x Hk. rewrite lookup_bytes_in in Hk; [|lia|].
    + rewrite <- Hk. f_equal. lia.
    + apply lookup_lt_Some in Hk. unfold blen in Hlen. lia.
  - intros i e Hi [He Hs]. destruct (wants_fits i e Hfit (conj He Hs)) as (Ho' & Hl' & Hu' & _).
    destruct (verify_entries_slice _ _ _ _ e Hv) as (slice & Hg & Hok); [by eapply elem_of_batch_entries|done|].
    unfold get_range in Hg. case_decide as Hin; [|done]. injection Hg as <-. simpl in Hin.
    assert (e_stored_offset e0 ≤ e_stored_offset e ∧
            e_stored_offset e + e_stored_length e ≤ e_stored_offset e0 + blen (bytes_in obj (rs, re))) as [H1 H2].
    { apply slice_in_bounds; lia. }
    split; [|done]. unfold body_ok, stored_bytes. rewrite <- Hok. f_equal.
    rewrite u64_sub_id, u64_add_id by lia. rewrite bytes_in_nested by lia. f_equal. f_equal; lia.
Qed.

(** A write of the object's bytes keeps what a file holds, cut short or not. *)
Lemma holds_entry_pwrite d start bytes e :
  object_bytes start bytes → holds_entry d e → holds_entry (pwrite d start bytes) e.
Proof.
  intros [Hs Hob] Hd p Hp. destruct (Hd p Hp) as (x & Hx & Hdx). exists x. split; [done|].
  destruct (decide (Z.to_nat start ≤ p < Z.to_nat start + length bytes)%nat) as [Hin|Hout].
  - assert (is_Some (bytes !! (p - Z.to_nat start)%nat)) as [y Hy] by (apply lookup_lt_is_Some; lia).
    pose proof (Hob _ _ Hy) as Hoy. replace (Z.to_nat start + (p - Z.to_nat start))%nat with p in Hoy by lia.
    pose proof (lookup_pwrite_in d start bytes (p - Z.to_nat start) Hs ltac:(lia)) as Hpw.
    replace (Z.to_nat start + (p - Z.to_nat start))%nat with p in Hpw by lia. congruence.
  - by apply lookup_pwrite_out.
Qed.

Lemma object_bytes_take start bytes k : object_bytes start bytes → object_bytes start (take k bytes).
Proof.
  intros [Hs Hob]. split; [done|]. intros j x Hj. apply Hob. apply lookup_take_Some in Hj. tauto.
Qed.

Lemma write_inode_le start bytes n : object_bytes start bytes → inode_le n (write_inode start bytes n).
Proof.
  intros Hob. split; intros i Hi e He.
  - destruct (Hi e He). split; [done|]. by apply holds_entry_pwrite.
  - destruct (Hi e He) as (?&?&?). split_and!; [done|by apply holds_entry_pwrite|done].
Qed.

Lemma write_covers first last start bytes n i :
  covers first last start bytes → (first ≤ i ≤ last)%nat → written (write_inode start bytes n) i.
Proof.
  intros [[Hs Hob] Hc] Hi e He. destruct (Hc i e Hi He) as (Hok & H1 & H2). split; [done|].
  intros p Hp. assert (is_Some (bytes !! (p - Z.to_nat start)%nat)) as [y Hy].
  { apply lookup_lt_is_Some. unfold blen in H2. lia. }
  exists y. pose proof (Hob _ _ Hy) as Hoy.
  replace (Z.to_nat start + (p - Z.to_nat start))%nat with p in Hoy by lia. split; [done|]. simpl.
  pose proof (lookup_pwrite_in (i_data n) start bytes (p - Z.to_nat start) Hs) as Hpw.
  replace (Z.to_nat start + (p - Z.to_nat start))%nat with p in Hpw by lia.
  rewrite Hpw; [done|]. apply lookup_lt_Some in Hy. lia.
Qed.

Lemma sync_inode_le n : inode_le n (sync_inode n).
Proof.
  split; intros i Hi e He; [exact (Hi e He)|]. destruct (Hi e He) as (?&?&?). by split_and!.
Qed.

Lemma sync_inode_durable n i : written n i → durable (sync_inode n) i.
Proof. intros Hi e He. destruct (Hi e He). by split_and!. Qed.

Lemma alter_inodes_le f ino l : (∀ n, inode_le n (f n)) → inodes_le l (alter f ino l).
Proof.
  intros Hf k n Hk. destruct (decide (k = ino)) as [->|].
  - exists (f n). split; [|done]. by rewrite list_lookup_alter_eq, Hk.
  - exists n. split; [|done]. by rewrite list_lookup_alter_ne.
Qed.

Lemma app_inodes_le l l' : inodes_le l (l ++ l').
Proof. intros k n Hk. exists n. split; [|done]. by apply lookup_app_l_Some. Qed.

(** A crash keeps what is durable. *)
Lemma settled_durable n d i : settled n d → durable n i → durable (mkInode d d) i.
Proof.
  intros Hs Hi e He. destruct (Hi e He) as (Hok & H1 & H2).
  assert (holds_entry d e); [|by split_and!].
  intros p Hp. destruct (H1 p Hp) as (x & Hx & Hdx), (H2 p Hp) as (y & Hy & Hsy).
  exists x. split; [done|]. unfold settled in Hs. rewrite Forall_forall in Hs.
  assert (p ∈ seq 0 (length (i_stable n))) as Hin.
  { apply elem_of_seq. apply lookup_lt_Some in Hsy. lia. }
  rewrite (Hs p Hin); congruence.
Qed.

(** *** The warm plan *)

(** A planned batch starts at an entry with body bytes, and past its first entry
    keeps to the cap. *)
Definition planned (b : WarmBatch) : Prop :=
  (∃ e, wants (start_entry b) e ∧ e_stored_offset e = body_start b) ∧
  (u64_sub (body_end b) (body_start b) ≤ cap ∨ start_entry b = end_entry_inclusive b).

Lemma plan_step_planned present st i :
  Forall planned st.1 ∧ Forall planned (option_list st.2) →
  let st' := plan_step entries present cap st i in
  Forall planned st'.1 ∧ Forall planned (option_list st'.2).
Proof.
  destruct st as [batches current]. intros [Hb Hc]. unfold plan_step.
  destruct (entries !! i) as [e|] eqn:He; [|done].
  destruct (stores_body e) eqn:Hs; simpl; [|done].
  destruct (present i); simpl; [split; [by apply Forall_app|done]|].
  set (fresh := mkWarmBatch _ _ _ _).
  assert (planned fresh) as Hf by (split; [by exists e|by right]).
  destruct current as [b|]; [|split; [done|by constructor]]. simpl in Hc.
  pose proof (Forall_inv Hc) as [Hst _].
  case_decide; [case_decide|].
  - split; [by apply Forall_app|by constructor].
  - split; [done|]. constructor; [|done]. split; [done|]. left. simpl. lia.
  - split; [by apply Forall_app|by constructor].
Qed.

Lemma plan_warm_batches_planned populated present :
  Forall planned (plan_warm_batches entries populated present cap).
Proof.
  unfold plan_warm_batches.
  assert (let st := foldl (plan_step entries present cap) ([], None) populated in
          Forall planned st.1 ∧ Forall planned (option_list st.2)) as [H1 H2].
  { apply (foldl_inv _ (λ st, Forall planned st.1 ∧ Forall planned (option_list st.2))); [by split|].
    intros st i _. apply plan_step_planned. }
  destruct (foldl _ _ _). by apply Forall_app.
Qed.

End spec.
