(* ===== verification/FetchSpec.v ===== *)
(** * Demand fetch: what the presence bits promise

    Any number of fetches and warm passes of one segment run against one
    immutable object, evictions happen between calls, and the host crashes at
    any point: a set bit always stands for body bytes that are the object's,
    verify under the entry's hash and survive the next crash. *)

From Stdlib Require Import ZArith Lia.
From stdpp Require Import base gmap list sorting.
From S2P Require Import Prelude Bytes Segment ChunkTree Codec SegmentCodec ExtentIndex Fetch FetchFacts.
Open Scope Z_scope.

Section safety.
Context {HB : Blake3} {HL : Lz4Block} {HC : Lz4Codec} {HT : Blake3Tree} {HZ : ZstdBulk}.
Context (segment : Ulid) (entries : list SegmentEntry) (bss cap : Z) (obj : list Z).
Context (Hfits : fits entries bss).

#[local] Abbreviation wants := (wants entries).
#[local] Abbreviation written := (written entries bss obj).
#[local] Abbreviation durable := (durable entries bss obj).
#[local] Abbreviation inodes_le := (inodes_le entries bss obj).
#[local] Abbreviation covers := (covers entries bss obj).
#[local] Abbreviation planned := (planned entries cap).
#[local] Abbreviation target_offset a := (entry_at entries a).1.

(** ** The invariant *)

Definition bits_of (d : CacheDir) : list Z := default [] (d_present d).

(** Every set bit of a directory stands for a durable body. *)
Definition sound_dir (l : list Inode) (d : CacheDir) : Prop :=
  ∀ i e, wants i e → is_present (bits_of d) i = true →
    ∃ ino n, d_body d = Some ino ∧ l !! ino = Some n ∧ durable n i.

Definition on_body (l : list Inode) (d : CacheDir) (ino : nat) (P : Inode → Prop) : Prop :=
  d_body d = Some ino ∧ ∃ n, l !! ino = Some n ∧ P n.

Definition commit_ok (l : list Inode) (d : CacheDir) (t : Commit) (P : Inode → nat → Prop) : Prop :=
  on_body l d (t_inode t) (λ n, ∀ i, i ∈ t_indices t → P n i) ∧
  ∀ a, fst <$> t_lease t = Some a → a ∈ t_indices t.

Definition working (p : Phase) : bool := match p with Done _ => false | _ => true end.

Definition holds_lock (p : Phase) : bool :=
  match p with
  | FetchDrop _ | FetchUnlink _ | Reading _ | Renaming _ _ | RenameSyncing _ _ | Publishing _ _ => true
  | _ => false
  end.

(** What a call knows of the files between its steps; the repair of a bit
    without a body is never needed. *)
Definition phase_ok (l : list Inode) (d : CacheDir) (p : Phase) : Prop :=
  match p with
  | FetchFound a => is_present (bits_of d) a = true
  | FetchDropLock _ | FetchDrop _ | FetchUnlink _ => False
  | FetchClaim a b _ | FetchGet a b _ => (a ≤ b)%nat
  | FetchProbe a b bytes | FetchOpen a b bytes _ => (a ≤ b)%nat ∧ covers a b (target_offset a) bytes
  | FetchWrite a b bytes _ ino =>
      (a ≤ b)%nat ∧ covers a b (target_offset a) bytes ∧ on_body l d ino (λ _, True)
  | WarmProbe bs | WarmOpen bs _ => Forall planned bs
  | WarmRun w =>
      Forall planned (w_todo w) ∧
      Forall (λ x, planned x.1 ∧
        ∀ bytes, x.2 = Some bytes → covers (start_entry x.1) (end_entry_inclusive x.1) (body_start x.1) bytes)
        (w_flying w) ∧
      on_body l d (w_inode w) (λ n, ∀ i, i ∈ w_warmed w → written n i)
  | Syncing t => commit_ok l d t written
  | DirSyncing t | Locking t | Reading t => commit_ok l d t durable
  | Renaming t bits =>
      commit_ok l d t durable ∧
      (∀ i, is_present bits i = true → is_present (bits_of d) i = true ∨ i ∈ t_indices t) ∧
      (∀ i, is_present (bits_of d) i = true → is_present bits i = true) ∧
      (∀ a, fst <$> t_lease t = Some a → is_present bits a = true)
  | RenameSyncing t bits | Publishing t bits =>
      commit_ok l d t durable ∧ d_present d = Some bits ∧
      (∀ a, fst <$> t_lease t = Some a → is_present bits a = true)
  | FetchTop _ | FetchWait _ _ | WarmTop _ | Done _ => True
  end.

Definition targets (p : Phase) : Prop := ∀ a, target p = Some a → ∃ e, wants a e.

Record Inv (s : State) : Prop := {
  inv_dirs : ∀ d, d ∈ latest (dir s) :: pending (dir s) → sound_dir (inodes s) d;
  inv_files : ∀ d ino, d ∈ latest (dir s) :: pending (dir s) → d_body d = Some ino →
    is_Some (inodes s !! ino);
  inv_calls : ∀ c p, calls s !! c = Some p →
    targets p ∧ phase_ok (inodes s) (latest (dir s)) p ∧ (holds_lock p = true → lock s = Some c);
  inv_evicting : evicting s = true →
    d_present (latest (dir s)) = None ∧ ∀ c p, calls s !! c = Some p → working p = false
}.

(** ** What the other calls see of a step *)

(** A step keeps the body and the set bits; [frozen] says it left [.present]
    alone. *)
Record advances (frozen : Prop) (l : list Inode) (d : CacheDir) (l' : list Inode) (d' : CacheDir) : Prop := {
  adv_body : ∀ ino, d_body d = Some ino → d_body d' = Some ino;
  adv_files : inodes_le l l';
  adv_bits : ∀ i, is_present (bits_of d) i = true → is_present (bits_of d') i = true;
  adv_frozen : frozen → d_present d' = d_present d
}.

Lemma advances_refl (frozen : Prop) l d : advances frozen l d l d.
Proof. split; try done. apply inodes_le_refl. Qed.

Lemma on_body_advances frozen l d l' d' ino (P : Inode → Prop) :
  advances frozen l d l' d' → (∀ n n', inode_le entries bss obj n n' → P n → P n') →
  on_body l d ino P → on_body l' d' ino P.
Proof.
  intros [Hb Hl _ _] HP [Hd (n & Hn & Hp)]. split; [by apply Hb|].
  destruct (Hl _ _ Hn) as (n' & Hn' & Hle). exists n'. split; [done|by eapply HP].
Qed.

Lemma commit_ok_written frozen l d l' d' t :
  advances frozen l d l' d' → commit_ok l d t written → commit_ok l' d' t written.
Proof.
  intros Ha [Hb Ht]. split; [|done]. eapply on_body_advances; [done| |done].
  intros n n' [Hw _] Hold i Hi. by apply Hw, Hold.
Qed.

Lemma commit_ok_durable frozen l d l' d' t :
  advances frozen l d l' d' → commit_ok l d t durable → commit_ok l' d' t durable.
Proof.
  intros Ha [Hb Ht]. split; [|done]. eapply on_body_advances; [done| |done].
  intros n n' [_ Hw] Hold i Hi. by apply Hw, Hold.
Qed.

Lemma phase_ok_advances l d l' d' p :
  advances (holds_lock p = true) l d l' d' → phase_ok l d p → phase_ok l' d' p.
Proof.
  intros Ha. destruct p; simpl; try done.
  - by apply (adv_bits _ _ _ _ _ Ha).
  - intros (?&?&?). split_and!; [done..|]. by eapply on_body_advances.
  - intros (?&?&?). split_and!; [done..|]. eapply on_body_advances; [done| |done].
    intros n n' [Hw _] Hold i Hi. by apply Hw, Hold.
  - by eapply commit_ok_written.
  - by eapply commit_ok_durable.
  - by eapply commit_ok_durable.
  - by eapply commit_ok_durable.
  - intros (?&?&?&?). pose proof (adv_frozen _ _ _ _ _ Ha eq_refl) as Hf. unfold bits_of. rewrite Hf.
    split; [by eapply commit_ok_durable|done].
  - intros (?&?&?). rewrite (adv_frozen _ _ _ _ _ Ha eq_refl). split; [by eapply commit_ok_durable|done].
  - intros (?&?&?). rewrite (adv_frozen _ _ _ _ _ Ha eq_refl). split; [by eapply commit_ok_durable|done].
Qed.

Lemma sound_dir_le l l' d : inodes_le l l' → sound_dir l d → sound_dir l' d.
Proof.
  intros Hl Hs i e Hw Hp. destruct (Hs i e Hw Hp) as (ino & n & Hb & Hn & Hd).
  destruct (Hl _ _ Hn) as (n' & Hn' & _ & Hle). exists ino, n'. split_and!; [done..|by apply Hle].
Qed.

(** A step of call [c] from [p] to [p'] that leaves the files as [s1] has them. *)
Lemma step_inv s s1 c p p' :
  Inv s → calls s !! c = Some p → working p = true → calls s1 = calls s → evicting s1 = evicting s →
  advances (holds_lock p = false) (inodes s) (latest (dir s)) (inodes s1) (latest (dir s1)) →
  (∀ d, d ∈ latest (dir s1) :: pending (dir s1) →
     sound_dir (inodes s1) d ∧ ∀ ino, d_body d = Some ino → is_Some (inodes s1 !! ino)) →
  (∀ c', c' ≠ c → lock s = Some c' → lock s1 = Some c') →
  targets p' → phase_ok (inodes s1) (latest (dir s1)) p' → (holds_lock p' = true → lock s1 = Some c) →
  Inv (goto c p' s1).
Proof.
  intros HI Hc Hw Hcs Hev Ha Hd Hlock Ht Hp Hl. split; simpl.
  - intros d Hin. by apply Hd.
  - intros d ino Hin. by apply Hd.
  - intros c' q Hq. destruct (decide (c' = c)) as [->|Hne].
    + rewrite lookup_insert_eq in Hq. by injection Hq as <-.
    + rewrite lookup_insert_ne, Hcs in Hq by done. destruct (inv_calls _ HI _ _ Hq) as (Hq1 & Hq2 & Hq3).
      split_and!; [done| |auto].
      eapply phase_ok_advances; [|done]. destruct Ha as [? ? ? Hf]. split; [done..|].
      intros Hh. apply Hf. destruct (holds_lock p) eqn:Hp'; [|done].
      destruct (inv_calls _ HI _ _ Hc) as (_ & _ & Hc'). specialize (Hc' Hp'). specialize (Hq3 Hh). congruence.
  - intros He. rewrite Hev in He. destruct (inv_evicting _ HI He) as [_ Hd']. specialize (Hd' _ _ Hc). congruence.
Qed.

(** A step that leaves the files alone. *)
Lemma quiet_inv s s1 c p p' :
  Inv s → calls s !! c = Some p → working p = true → calls s1 = calls s → evicting s1 = evicting s →
  inodes s1 = inodes s → dir s1 = dir s →
  (∀ c', c' ≠ c → lock s = Some c' → lock s1 = Some c') →
  targets p' → phase_ok (inodes s) (latest (dir s)) p' → (holds_lock p' = true → lock s1 = Some c) →
  Inv (goto c p' s1).
Proof.
  intros HI Hc Hw Hcs Hev Hi Hd Hlock Ht Hp Hl. eapply step_inv; try done.
  - rewrite Hi, Hd. apply advances_refl.
  - rewrite Hi, Hd. intros d Hin. split; [by apply HI|]. intros ino. by apply HI.
  - by rewrite Hi, Hd.
Qed.

(** A call that returns, the lock its own when it held it. *)
Lemma return_inv s s1 c p lease locked r :
  Inv s → calls s !! c = Some p → working p = true → calls s1 = calls s → evicting s1 = evicting s →
  inodes s1 = inodes s → dir s1 = dir s → lock s1 = lock s → (locked = true → holds_lock p = true) →
  Inv (return_from segment c lease locked r s1).
Proof.
  intros HI Hc Hw Hcs Hev Hi Hd Hl Hlk. unfold return_from.
  eapply quiet_inv; try done; try (by destruct lease as [[]|], locked).
  intros c' Hne Hc'. destruct locked; [|destruct lease as [[]|]; simpl; congruence].
  destruct (inv_calls _ HI _ _ Hc) as (_ & _ & Hh). specialize (Hh (Hlk eq_refl)). congruence.
Qed.

(** ** The steps of a call *)

Definition honest_answer (p : Phase) (a : Answer) : Prop :=
  ∀ rs re bs, requested entries bss p a = Some (rs, re, Ok bs) → bs = bytes_in obj (rs, re).

Lemma targets_none p : target p = None → targets p.
Proof. intros Hp a Ha. congruence. Qed.

Lemma targets_some p a e : target p = Some a → wants a e → targets p.
Proof. intros Hp Hw a' Ha. assert (a' = a) as -> by congruence. by exists e. Qed.

Lemma scan_batch_last present off rest i last next :
  (last < i)%nat → (last ≤ (scan_batch cap off present rest i last next).1)%nat.
Proof.
  revert i last next. induction rest as [|e rest IH]; intros i last next Hi; simpl; [done|].
  repeat case_match; simpl; try done. etrans; [|apply IH; lia]. lia.
Qed.

Lemma plan_fetch_last bits a last next : plan_fetch entries cap bits a = (last, next) → (a ≤ last)%nat.
Proof.
  unfold plan_fetch. destruct (entry_at entries a) as [off len]. intros Hs.
  pose proof (scan_batch_last (is_present bits) off (drop (S a) entries) (S a) a (u64_add off len) ltac:(lia)) as Hl.
  by rewrite Hs in Hl.
Qed.

Lemma entry_at_wants a e : wants a e → target_offset a = e_stored_offset e.
Proof. intros [He _]. unfold entry_at. by rewrite He. Qed.

(** Opening [.body]. *)
Lemma open_body_inv s c p p' s1 ino :
  Inv s → calls s !! c = Some p → working p = true → open_body s = (s1, ino) → targets p' →
  phase_ok (inodes s1) (latest (dir s1)) p' → holds_lock p' = false → Inv (goto c p' s1).
Proof.
  intros HI Hc Hw Ho Ht Hp Hl. unfold open_body, body_file in Ho.
  destruct (d_body (latest (dir s))) as [ino'|] eqn:Hb; injection Ho as <- <-.
  - eapply quiet_inv; try done. by rewrite Hl.
  - assert (inodes_le (inodes s) (inodes s ++ [mkInode [] []])) as Hle by apply app_inodes_le.
    eapply step_inv; try done.
    + split; [by rewrite Hb|done|done|done].
    + simpl. intros d [->|Hd]%elem_of_cons.
      * split; [|intros i [= <-]; simpl; apply lookup_lt_is_Some; rewrite length_app; simpl; lia].
        intros i e Hwi Hi. destruct (inv_dirs _ HI (latest (dir s)) (list_elem_of_here _ _) i e Hwi Hi)
          as (? & ? & ? & _). congruence.
      * split; [eapply sound_dir_le; [done|by apply HI]|].
        intros i Hi. destruct (inv_files _ HI d i Hd Hi) as [n Hn]. exists n. by apply lookup_app_l_Some.
    + by rewrite Hl.
Qed.

Lemma open_body_on s s1 ino :
  Inv s → open_body s = (s1, ino) → on_body (inodes s1) (latest (dir s1)) ino (λ _, True).
Proof.
  intros HI Ho. unfold open_body, body_file in Ho.
  destruct (d_body (latest (dir s))) as [ino'|] eqn:Hb; injection Ho as <- <-.
  - split; [done|]. destruct (inv_files _ HI (latest (dir s)) ino' (list_elem_of_here _ _) Hb) as [n Hn]. by exists n.
  - split; [done|]. exists (mkInode [] []). split; [|done]. simpl. by rewrite lookup_app_r, Nat.sub_diag.
Qed.

(** Changing one file by an operation that keeps what files hold. *)
Lemma alter_inv f ino s c p p' :
  Inv s → calls s !! c = Some p → working p = true → (∀ n, inode_le entries bss obj n (f n)) → targets p' →
  phase_ok (alter f ino (inodes s)) (latest (dir s)) p' → holds_lock p' = false →
  Inv (goto c p' (with_inodes (alter f ino) s)).
Proof.
  intros HI Hc Hw Hf Ht Hp Hl. pose proof (alter_inodes_le entries bss obj f ino (inodes s) Hf) as Hle.
  eapply step_inv; try done.
  - intros d Hd. split; [eapply sound_dir_le; [done|by apply HI]|].
    intros i Hi. destruct (inv_files _ HI d i Hd Hi) as [n Hn]. destruct (Hle _ _ Hn) as (n' & Hn' & _). by exists n'.
  - by rewrite Hl.
Qed.

(** A write that failed part of the way, and the call with it. *)
Lemma alter_return_inv f ino s c p lease r :
  Inv s → calls s !! c = Some p → working p = true → (∀ n, inode_le entries bss obj n (f n)) →
  Inv (return_from segment c lease false r (with_inodes (alter f ino) s)).
Proof.
  intros HI Hc Hw Hf. pose proof (alter_inv f ino s c p (Done r) HI Hc Hw Hf) as [H1 H2 H3 H4].
  - by apply targets_none.
  - done.
  - done.
  - unfold return_from. destruct lease as [[a b]|]; by split.
Qed.

Lemma on_body_alter f ino l d (P Q : Inode → Prop) :
  on_body l d ino P → (∀ n, P n → Q (f n)) → on_body (alter f ino l) d ino Q.
Proof.
  intros [Hb (n & Hn & HP)] Hf. split; [done|]. exists (f n). rewrite list_lookup_alter_eq, Hn. split; [done|]. by apply Hf.
Qed.

Lemma fetch_step_inv s c p a s' :
  Inv s → calls s !! c = Some p → honest_answer p a →
  fetch_step segment entries bss cap s c p a = Some s' → Inv s'.
Proof.
  intros HI Hc Hh Hs. destruct (inv_calls _ HI _ _ Hc) as (Ht & Hp & _).
  destruct p as [x|x|x|x|x|x l nx|x fl|x l nx|x l bs|x l bs nw|x l bs nw ino| | | | | | | | | | | |]; try done.
  - destruct a; try done; simpl in Hs.
    + destruct (is_present (present_bytes s) x) eqn:Hb.
      * injection Hs as <-. eapply quiet_inv; try done.
      * destruct (plan_fetch entries cap (present_bytes s) x) as [l nx] eqn:Hpl. injection Hs as <-.
        eapply quiet_inv; try done. simpl. by eapply plan_fetch_last.
    + injection Hs as <-. by eapply return_inv.
  - destruct a; try done; simpl in Hs. destruct (Ht x eq_refl) as (e & Hw).
    destruct (inv_dirs _ HI (latest (dir s)) (list_elem_of_here _ _) x e Hw Hp) as (ino & n & Hb & _).
    unfold body_file in Hs. rewrite Hb in Hs. injection Hs as <-. by eapply return_inv.
  - destruct a; try done; simpl in Hs. destruct (list_find _ _) as [[? f]|]; injection Hs as <-;
      eapply quiet_inv; try done.
  - destruct a; try done; simpl in Hs. case_decide; [done|]. injection Hs as <-. by eapply quiet_inv.
  - destruct a as [|e|r| | | |]; try done; simpl in Hs. destruct (Ht x eq_refl) as (e & Hw).
    destruct (accept_batch _ _ _ _ _ _ _ _) as [got|err] eqn:Hacc; injection Hs as <-; [|by eapply return_inv].
    eapply quiet_inv; try done. split; [done|].
    eapply accept_batch_covers; [done|exists x, e; by erewrite entry_at_wants| |done].
    intros bs ->. by apply Hh.
  - destruct a; try done; simpl in Hs; injection Hs as <-; [by eapply quiet_inv|by eapply return_inv].
  - destruct a; try done; simpl in Hs.
    + destruct (open_body s) as [s1 ino] eqn:Ho. injection Hs as <-.
      eapply open_body_inv; try done. destruct Hp as [? ?]. split_and!; [done..|]. by eapply open_body_on.
    + injection Hs as <-. by eapply return_inv.
  - destruct Hp as (Hle & Hcov & Hon). destruct a; try done; simpl in Hs; injection Hs as <-.
    + apply alter_inv with (p := FetchWrite x l bs nw ino); try done; [intros n; apply write_inode_le, Hcov|].
      split; [|intros y [= <-]; apply elem_of_seq; simpl; lia].
      eapply on_body_alter; [done|]. intros n _ i Hi. eapply write_covers; [done|].
      apply elem_of_seq in Hi. lia.
    + eapply alter_return_inv; try done. intros node. apply write_inode_le, object_bytes_take, Hcov.
Qed.

Lemma planned_offset b : planned b → ∃ i e, wants i e ∧ e_stored_offset e = body_start b.
Proof. intros [(e & Hw & He) _]. by exists (start_entry b), e. Qed.

Lemma Forall_delete {A} (P : A → Prop) k (l : list A) : Forall P l → Forall P (delete k l).
Proof.
  revert k. induction l as [|x l IH]; intros [|k] Hl; [done..| |];
    apply Forall_cons in Hl as [Hx Hl]; simpl; [done|]. constructor; [done|by apply IH].
Qed.

Lemma worker_inv s c p w :
  Inv s → calls s !! c = Some p → working p = true → phase_ok (inodes s) (latest (dir s)) (WarmRun w) →
  Inv (goto c (WarmRun w) s).
Proof. intros HI Hc Hw Hp. by eapply quiet_inv. Qed.

Lemma warm_run_inv s c w a s' :
  Inv s → calls s !! c = Some (WarmRun w) → honest_answer (WarmRun w) a →
  run_step segment entries bss s c w a = Some s' → Inv s'.
Proof.
  intros HI Hc Hh Hs. destruct (inv_calls _ HI _ _ Hc) as (_ & (Htodo & Hfly & Hon) & _).
  unfold run_step in Hs. destruct a as [| | | | |k r|k failed]; try done.
  - destruct (w_flying w); [|done]. destruct (w_error w) as [e|]; [injection Hs as <-; by eapply return_inv|].
    destruct (w_todo w); [|done].
    assert (w_warmed w = [] ∨ s' = goto c (Syncing (mkCommit (w_inode w) (w_new w)
      (dedup_nat (merge_sort Nat.le (w_warmed w))) None (w_bytes w))) s) as [Hw| ->].
    { destruct (w_warmed w); [by left|right; congruence]. }
    { rewrite Hw in Hs. injection Hs as <-. by eapply return_inv. }
    eapply quiet_inv; try done. split; [|done].
    destruct Hon as [Hb (n & Hn & Hw)]. split; [done|]. exists n. split; [done|].
    intros j. simpl. rewrite elem_of_dedup_nat, merge_sort_Permutation. apply Hw.
  - destruct (w_error w); [done|]. destruct (w_todo w) as [|b todo]; [done|].
    case_decide; [|done]. injection Hs as <-. eapply worker_inv; try done.
    apply Forall_cons in Htodo as [Hb Htodo]. split; [done|]. split; [|done].
    apply Forall_app. split; [done|]. constructor; [by split|done].
  - destruct (w_flying w !! k) as [[b [got|]]|] eqn:Hk; try done.
    pose proof (proj1 (Forall_lookup _ _) Hfly _ _ Hk) as [Hb _]. simpl in Hb.
    destruct (accept_batch _ _ _ _ _ _ _ _) as [got|e] eqn:Hacc; injection Hs as <-; eapply worker_inv; try done.
    + split; [done|]. split; [|done]. apply Forall_insert; [done|]. split; [done|]. intros bs [= <-]. simpl.
      eapply accept_batch_covers; [done|by apply planned_offset| |done].
      intros bs ->. apply Hh. simpl. by rewrite Hk.
    + split; [done|]. split; [by apply Forall_delete|done].
  - destruct (w_flying w !! k) as [[b [got|]]|] eqn:Hk; try done.
    pose proof (proj1 (Forall_lookup _ _) Hfly _ _ Hk) as [Hb Hcov]. specialize (Hcov got eq_refl). simpl in Hcov.
    destruct failed as [n|]; injection Hs as <-.
    + eapply alter_inv with (p := WarmRun w); try done;
        [intros node; apply write_inode_le, object_bytes_take, Hcov|].
      split; [done|]. split; [by apply Forall_delete|]. eapply on_body_alter; [done|].
      intros node Hw i Hi. apply write_inode_le; [apply object_bytes_take, Hcov|by apply Hw].
    + eapply alter_inv with (p := WarmRun w); try done;
        [intros node; apply write_inode_le, Hcov|].
      split; [done|]. split; [by apply Forall_delete|]. eapply on_body_alter; [done|].
      intros node Hw i [Hi|Hi]%elem_of_app; [apply write_inode_le; [apply Hcov|by apply Hw]|].
      eapply write_covers; [done|]. apply elem_of_seq in Hi. lia.
Qed.

Lemma warm_step_inv s c p a s' :
  Inv s → calls s !! c = Some p → honest_answer p a →
  warm_step segment entries bss cap s c p a = Some s' → Inv s'.
Proof.
  intros HI Hc Hh Hs. destruct (inv_calls _ HI _ _ Hc) as (_ & Hp & _).
  destruct p as [| | | | | | | | | | |populated|batches|batches new|w| | | | | | | |]; try done.
  - destruct a; try done; simpl in Hs; [|injection Hs as <-; by eapply return_inv].
    pose proof (plan_warm_batches_planned entries cap populated (is_present (present_bytes s))) as Hpl.
    destruct (plan_warm_batches _ _ _ _); injection Hs as <-; [by eapply return_inv|].
    eapply quiet_inv; try done.
  - destruct a; try done; simpl in Hs; injection Hs as <-; [|by eapply return_inv].
    eapply quiet_inv; try done.
  - destruct a; try done; simpl in Hs; [|injection Hs as <-; by eapply return_inv].
    destruct (open_body s) as [s1 ino] eqn:Ho. injection Hs as <-.
    eapply open_body_inv; try done. split; [done|]. split; [done|].
    destruct (open_body_on _ _ _ HI Ho) as [Hb (n & Hn & _)]. split; [done|]. exists n. split; [done|].
    intros i Hi. by apply elem_of_nil in Hi.
  - by eapply warm_run_inv.
Qed.


(** Syncing the directory. *)
Lemma sync_dir_inv s c p p' :
  Inv s → calls s !! c = Some p → working p = true → targets p' →
  phase_ok (inodes s) (latest (dir s)) p' → (holds_lock p' = true → holds_lock p = true) →
  Inv (goto c p' (with_dir sync_dir s)).
Proof.
  intros HI Hc Hw Ht Hp Hl. destruct (inv_calls _ HI _ _ Hc) as (_ & _ & Hlk).
  eapply step_inv; try done; [apply advances_refl| |by auto].
  simpl. intros d ->%list_elem_of_singleton. split; [apply HI; by left|]. intros ino. apply HI. by left.
Qed.

(** Replacing [.present] by bits that each stand for a durable body. *)
Lemma rename_inv s c t bits :
  Inv s → calls s !! c = Some (Renaming t bits) →
  Inv (goto c (RenameSyncing t bits) (with_dir (change_dir (with_present_bits (Some bits))) s)).
Proof.
  intros HI Hc. destruct (inv_calls _ HI _ _ Hc) as (Ht & (Hok & Hsub & Hsup & Hlease) & Hl).
  destruct Hok as [[Hb (n & Hn & Hdur)] Hin]. eapply step_inv; try done.
  - split; [done|apply inodes_le_refl|done|done].
  - simpl. intros d [->|Hd]%elem_of_cons; [|by split; [apply HI|intros ino; apply HI]].
    split; [|intros ino Hi; apply (inv_files _ HI (latest (dir s))); [by left|done]].
    intros i e Hw Hi. destruct (Hsub i Hi) as [Hold|Hnew].
    + apply (inv_dirs _ HI (latest (dir s)) (list_elem_of_here _ _) i e Hw Hold).
    + exists (t_inode t), n. split_and!; [done..|by apply Hdur].
  - split; [|done]. split; [|done]. split; [done|]. by exists n.
Qed.

Lemma commit_step_inv s c p a s' :
  Inv s → calls s !! c = Some p → commit_step segment entries s c p a = Some s' → Inv s'.
Proof.
  intros HI Hc Hs. destruct (inv_calls _ HI _ _ Hc) as (Ht & Hp & Hl).
  destruct p as [| | | | | | | | | | | | | | |t|t|t|t|t bits|t bits|t bits|]; try done.
  - destruct a; try done; simpl in Hs; injection Hs as <-; [|by eapply return_inv].
    destruct Hp as [Hon Hin].
    assert (commit_ok (alter sync_inode (t_inode t) (inodes s)) (latest (dir s)) t durable) as Hok.
    { split; [|done]. eapply on_body_alter; [done|]. intros n Hw i Hi. by apply sync_inode_durable, Hw. }
    apply alter_inv with (p := Syncing t); try done; [intros n; apply sync_inode_le|by destruct (t_new t)..].
  - destruct a; try done; simpl in Hs; injection Hs as <-; [|by eapply return_inv].
    by eapply sync_dir_inv.
  - destruct a; try done; simpl in Hs. destruct (lock s) eqn:Hlk; [done|]. injection Hs as <-.
    eapply quiet_inv; try done. by rewrite Hlk.
  - destruct a; try done; simpl in Hs; injection Hs as <-; [|by eapply return_inv].
    eapply quiet_inv; try done. split; [done|]. destruct Hp as [_ Hin].
    split_and!; [intros i; apply merge_bits_spec|intros i; apply merge_bits_keeps|].
    intros b Hb. destruct (Ht b Hb) as (e & [He _]). apply merge_bits_sets; [by apply Hin|by eapply lookup_lt_Some].
  - destruct a; try done; simpl in Hs; injection Hs as <-; [by apply rename_inv|by eapply return_inv].
  - destruct a; try done; simpl in Hs; injection Hs as <-; [by eapply sync_dir_inv|by eapply return_inv].
  - destruct a; try done; simpl in Hs; injection Hs as <-. by eapply return_inv.
Qed.

Lemma call_step_inv s c p a s' :
  Inv s → calls s !! c = Some p → honest_answer p a →
  call_step segment entries bss cap s c p a = Some s' → Inv s'.
Proof.
  intros HI Hc Hh Hs. unfold call_step in Hs.
  destruct (fetch_step _ _ _ _ _ _ _ _) as [s1|] eqn:H1; [injection Hs as <-; by eapply fetch_step_inv|].
  destruct (warm_step _ _ _ _ _ _ _ _) as [s1|] eqn:H2; [injection Hs as <-; by eapply warm_step_inv|].
  by eapply commit_step_inv.
Qed.

(** ** The environment *)

(** The store answers with the object's bytes, or less, or an error. *)
Definition honest (s : State) (a : Action) : Prop :=
  match a with
  | Run c answer => ∀ p, calls s !! c = Some p → honest_answer p answer
  | _ => True
  end.

(** An eviction starts between calls, no call starts inside it, and its first
    unlink succeeds. *)
Definition idle (s : State) : Prop := map_Forall (λ _ p, working p = false) (calls s).
Definition calm (s : State) (a : Action) : Prop :=
  match a with
  | Arrive _ _ => evicting s = false
  | Evict removed => evicting s = true ∨ (idle s ∧ removed = true)
  | _ => True
  end.

Inductive reachable (s : State) : State → Prop :=
  | reach_refl : reachable s s
  | reach_step s1 a s2 :
      reachable s s1 → exec segment entries bss cap s1 a = Some s2 → honest s1 a → calm s1 a →
      reachable s s2.

(** A volume just opened on a cache whose set bits stand for durable bodies; an
    empty cache is one. *)
Record opened (s : State) : Prop := {
  op_dirs : ∀ d, d ∈ latest (dir s) :: pending (dir s) → sound_dir (inodes s) d;
  op_files : ∀ d ino, d ∈ latest (dir s) :: pending (dir s) → d_body d = Some ino → is_Some (inodes s !! ino);
  op_calls : calls s = ∅;
  op_evicting : evicting s = false
}.

Lemma opened_inv s : opened s → Inv s.
Proof.
  intros [H1 H2 H3 H4]. split; try done; [|by rewrite H4]. intros c p. by rewrite H3, lookup_empty.
Qed.

Lemma check_target_wants a : is_ok (check_target entries a) = true → ∃ e, wants a e.
Proof.
  unfold check_target. destruct (entries !! a) as [e|] eqn:He; [|done].
  destruct (stores_body e) eqn:Hs; [|done]. intros _. by exists e.
Qed.

Lemma arrive_inv s c job :
  Inv s → calls s !! c = None → evicting s = false → Inv (goto c (arrive entries job) s).
Proof.
  intros HI Hc He. split; try apply HI; simpl; [|by rewrite He].
  intros c' p Hp. destruct (decide (c' = c)) as [->|Hne].
  - rewrite lookup_insert_eq in Hp. injection Hp as <-. unfold arrive. destruct job as [a|pop]; [|done].
    destruct (check_target entries a) eqn:Ht; [|done].
    split_and!; [|done|done]. intros b [= <-]. apply check_target_wants. by rewrite Ht.
  - rewrite lookup_insert_ne in Hp by done. by apply HI.
Qed.

(** Removing a name keeps a directory sound when the bits go first. *)
Lemma evict_inv s removed : Inv s → calm s (Evict removed) → Inv (evict_step removed s).
Proof.
  intros HI Hcalm. unfold evict_step. destruct (evicting s) eqn:He.
  - destruct (inv_evicting _ HI He) as [Hgone Hdone].
    assert (∀ c p, calls s !! c = Some p → targets p ∧ phase_ok (inodes s) (latest (dir s)) p ∧
              (holds_lock p = true → lock s = Some c)) as Hcalls by apply HI.
    destruct removed; [|by split; [apply HI..|done]]. split; simpl; [| | |done].
    + intros d [->|Hd]%elem_of_cons; [|by apply HI]. intros i e _ Hi. unfold bits_of in Hi. simpl in Hi.
      by rewrite Hgone in Hi.
    + intros d ino [->|Hd]%elem_of_cons; [done|by apply HI].
    + intros c p Hc. destruct (Hcalls c p Hc) as (Ht & _ & Hl). specialize (Hdone c p Hc).
      by destruct p.
  - destruct Hcalm as [?|[Hidle ->]]; [congruence|]. split; simpl.
    + intros d [->|Hd]%elem_of_cons; [by intros i e _ Hi|by apply HI].
    + intros d ino [->|Hd]%elem_of_cons; [intros Hb; apply (inv_files _ HI (latest (dir s))); [by left|done]|by apply HI].
    + intros c p Hc. specialize (Hidle c p Hc). simpl in Hidle.
      destruct (inv_calls _ HI c p Hc) as (Ht & _ & Hl). by destruct p.
    + intros _. split; [done|]. intros c p Hc. by apply (Hidle c p).
Qed.

(** A crash leaves one of the directory's states, each sound, and files that
    keep what is durable. *)
Lemma crash_inv s kept contents s' : Inv s → crash_step entries s kept contents = Some s' → Inv s'.
Proof.
  intros HI Hs. unfold crash_step in Hs. destruct (_ !! kept) as [d|] eqn:Hd; [|done].
  case_decide as Hset; [|done]. injection Hs as <-. apply list_elem_of_lookup_2 in Hd.
  split; simpl; [| |done|done].
  - intros ? ->%list_elem_of_singleton i e Hw Hi.
    destruct (inv_dirs _ HI d Hd i e Hw Hi) as (ino & n & Hb & Hn & Hdur).
    destruct (Forall2_lookup_l _ _ _ _ _ Hset Hn) as (data & Hdata & Hsettled).
    exists ino, (mkInode data data). split_and!; [done|by rewrite list_lookup_fmap, Hdata|by eapply settled_durable].
  - intros ? ino ->%list_elem_of_singleton Hb. destruct (inv_files _ HI d ino Hd Hb) as [n Hn].
    destruct (Forall2_lookup_l _ _ _ _ _ Hset Hn) as (data & Hdata & _). rewrite list_lookup_fmap, Hdata. by eexists.
Qed.

Lemma exec_inv s a s' :
  Inv s → exec segment entries bss cap s a = Some s' → honest s a → calm s a → Inv s'.
Proof.
  intros HI Hs Hh Hcalm. destruct a as [c job|c answer|removed|kept contents]; simpl in Hs.
  - destruct (calls s !! c) eqn:Hc; [done|]. injection Hs as <-. by apply arrive_inv.
  - destruct (calls s !! c) as [p|] eqn:Hc; [|done]. eapply call_step_inv; [done..| |done]. by apply Hh.
  - injection Hs as <-. by apply evict_inv.
  - by eapply crash_inv.
Qed.

Lemma fetch_reachable_inv s0 s : opened s0 → reachable s0 s → Inv s.
Proof. intros Ho. induction 1; [by apply opened_inv|]. by eapply exec_inv. Qed.

(** ** Reading behind a set bit *)

(** [.body] holds the entry's stored bytes, and they verify. *)
Definition readable (s : State) (e : SegmentEntry) : Prop :=
  ∃ ino n, body_file s = Some ino ∧ inodes s !! ino = Some n ∧
    let body := bytes_in (i_data n) (e_stored_offset e, e_stored_offset e + e_stored_length e) in
    body = stored_bytes bss obj e ∧ verify_body_hash e body = Ok ().

Lemma holds_bytes i d e :
  wants i e → holds_entry bss obj d e →
  bytes_in d (e_stored_offset e, e_stored_offset e + e_stored_length e) = stored_bytes bss obj e.
Proof.
  intros Hw Hd. destruct (wants_fits entries bss i e Hfits Hw) as (Ho & Hl & Hu & Hb).
  apply list_eq. intros k. unfold stored_bytes.
  destruct (decide (k < Z.to_nat (e_stored_length e))%nat) as [Hk|Hk].
  - rewrite !lookup_bytes_in by lia. destruct (Hd (Z.to_nat (e_stored_offset e) + k)%nat) as (x & Hx & Hdx); [lia|].
    rewrite Hdx, <- Hx. f_equal. lia.
  - rewrite !lookup_ge_None_2; [done|unfold bytes_in; rewrite length_take; simpl; lia..].
Qed.

Lemma inv_readable s i e :
  Inv s → wants i e → is_present (present_bytes s) i = true → readable s e.
Proof.
  intros HI Hw Hi. destruct (inv_dirs _ HI (latest (dir s)) (list_elem_of_here _ _) i e Hw Hi)
    as (ino & n & Hb & Hn & Hd). destruct (Hd e Hw) as (Hok & Hh & _).
  exists ino, n. split; [done|]. split; [done|]. cbv zeta. by rewrite (holds_bytes i).
Qed.

(** A fetch returns successfully from two places. *)
Lemma returns_ok s c p a s' x n :
  call_step segment entries bss cap s c p a = Some s' → calls s' !! c = Some (Done (Ok n)) →
  target p = Some x →
  (p = FetchFound x ∧ s' = return_from segment c None false (Ok 0) s) ∨
  (∃ t bits, p = Publishing t bits ∧
     s' = return_from segment c (t_lease t) true (Ok (t_bytes t)) (replace_shared bits s)).
Proof.
  intros Hs Hd Ht. unfold call_step in Hs.
  destruct p; try done; destruct a; simpl in Hs; try done; repeat case_match; try done;
    simplify_eq; try (by left); try (by right; eexists _, _);
    unfold return_from in Hd; simpl in Hd; rewrite lookup_insert_eq in Hd; try done.
  left. simpl in Ht. by simplify_eq.
Qed.

Lemma delivers s c p a s' x n e :
  Inv s → calls s !! c = Some p → call_step segment entries bss cap s c p a = Some s' → Inv s' →
  target p = Some x → calls s' !! c = Some (Done (Ok n)) → wants x e →
  is_present (present_bytes s') x = true ∧ readable s' e.
Proof.
  intros HI Hc Hs HI' Ht Hd Hw.
  destruct (inv_calls _ HI _ _ Hc) as (_ & Hp & _).
  assert (is_present (present_bytes s') x = true) as Hbit; [|split; [done|by eapply inv_readable]].
  destruct (returns_ok _ _ _ _ _ _ _ Hs Hd Ht) as [[-> ->]|(t & bits & -> & ->)]; [exact Hp|].
  destruct Hp as (_ & Hbits & Hlease). specialize (Hlease x Ht).
  assert (present_bytes (return_from segment c (t_lease t) true (Ok (t_bytes t)) (replace_shared bits s)) = bits)
    as ->; [|done].
  unfold return_from, present_bytes. destruct (t_lease t) as [[a' b']|]; simpl; by rewrite Hbits.
Qed.

(** ** Checked runs *)

Definition honest_b (s : State) (a : Action) : bool :=
  match a with
  | Run c answer =>
      match calls s !! c with
      | Some p => match requested entries bss p answer with
                  | Some (rs, re, Ok bs) => bool_decide (bs = bytes_in obj (rs, re))
                  | _ => true
                  end
      | None => true
      end
  | _ => true
  end.

#[local] Instance calm_dec s a : Decision (calm s a).
Proof. destruct a; simpl; unfold idle; apply _. Defined.

Fixpoint checked_run (s : State) (l : list Action) : option State :=
  match l with
  | [] => Some s
  | a :: l =>
      if honest_b s a && bool_decide (calm s a) then
        match exec segment entries bss cap s a with Some s => checked_run s l | None => None end
      else None
  end.

Lemma honest_b_spec s a : honest_b s a = true → honest s a.
Proof.
  destruct a as [|c answer| |]; simpl; try done. intros Hb p Hp rs re bs Hr.
  rewrite Hp, Hr in Hb. by apply bool_decide_eq_true in Hb.
Qed.

Lemma checked_run_reachable s0 s l s' : reachable s0 s → checked_run s l = Some s' → reachable s0 s'.
Proof.
  revert s. induction l as [|a l IH]; intros s Hr Hs; simpl in Hs; [congruence|].
  destruct (honest_b s a && bool_decide (calm s a)) eqn:Hok; [|done]. apply andb_true_iff in Hok as [H1 H2].
  destruct (exec segment entries bss cap s a) as [s1|] eqn:He; [|done]. eapply IH; [|done].
  eapply reach_step; [done..|by apply honest_b_spec|by apply bool_decide_eq_true in H2].
Qed.
End safety.

(** ** The property *)

(** C8: behind every set presence bit are the entry's bytes.  Take any
    interleaving of fetches and warm passes of a segment, with any operation of
    any of them failing, evictions between them, and crashes at any point, each
    leaving any directory state since its last sync and any bytes the files'
    syncs do not pin.  As long as the store's answers are an object's, true or
    cut short (the object itself may be corrupt), a set bit of an entry with a
    body means that [.body] exists and holds at the entry's offset the object's
    bytes, which verify under the entry's hash.  And a fetch that returns
    successfully has left its target's bit set. *)
Theorem presence_sound `{HB : Blake3} `{HL : Lz4Block} `{HC : !Lz4Codec} `{HT : Blake3Tree} `{HZ : ZstdBulk}
    segment entries bss cap obj s0 s :
  fits entries bss → opened entries bss obj s0 → reachable segment entries bss cap obj s0 s →
  (∀ i e, wants entries i e → is_present (present_bytes s) i = true → readable bss obj s e) ∧
  (∀ c p a s' x e n, calls s !! c = Some p → honest entries bss obj s (Run c a) →
     call_step segment entries bss cap s c p a = Some s' →
     target p = Some x → wants entries x e → calls s' !! c = Some (Done (Ok n)) →
     is_present (present_bytes s') x = true ∧ readable bss obj s' e).
Proof.
  intros Hfits Ho Hr. pose proof (fetch_reachable_inv _ _ _ _ _ Hfits _ _ Ho Hr) as HI.
  split; [by intros; eapply inv_readable|].
  intros c p a s' x e n Hc Hh Hs Ht Hw Hd. eapply delivers; try done.
  eapply (call_step_inv _ _ _ _ _ Hfits); [done..| |done]. by apply Hh.
Qed.

(** ** Runs *)

#[local] Existing Instance toy_blake3.
#[local] Existing Instance toy_tree.
#[local] Existing Instance rle_lz4.
#[local] Existing Instance rle_codec.
#[local] Existing Instance toy_zstd.

Definition sample_entry (body : list Z) (off : Z) : SegmentEntry :=
  mkSegmentEntry (blake3 body) 0 1 CodecNone Data off (blen body) None [] false None None.

(** Two entries behind a head of three bytes. *)
Definition two_entries : list SegmentEntry := [sample_entry [10; 11; 12; 13] 0; sample_entry [20; 21] 4].
Definition two_bodies : list Z := [7; 7; 7; 10; 11; 12; 13; 20; 21].

Definition empty_cache : State :=
  mkState [] (mkDirectory (mkCacheDir None None) []) false (Some [0]) [] 0 None ∅.

(** A demand fetch of an entry, answered truthfully throughout. *)
Definition fetch_run (c start : nat) (bytes : list Z) (new : bool) : list Action :=
  [Arrive c (FetchJob start); Run c Go; Run c Go; Run c (Served (Ok bytes)); Run c Go; Run c Go; Run c Go;
   Run c Go] ++ (if new then [Run c Go] else []) ++ [Run c Go; Run c Go; Run c Go].

(** Entry 0 alone (the cap is four bytes), up to the rename; a crash that keeps
    it; then entry 1, and a second read of entry 0. *)
Definition crash_run : list Action :=
  fetch_run 0 0 [10; 11; 12; 13] true ++ [Crash 0 [[10; 11; 12; 13]]] ++
  fetch_run 1 1 [20; 21] false ++ [Run 1 Go; Run 1 Go; Arrive 2 (FetchJob 0); Run 2 Go].

Definition after (s : State) (l : list Action) : State :=
  default s (exec_all 5 two_entries 3 4 s l).

Lemma two_entries_fit : fits two_entries 3.
Proof.
  split; [done|]. unfold two_entries, sample_entry, blen.
  repeat (apply Forall_cons; split; [simpl; lia|]). by apply Forall_nil.
Qed.

Lemma empty_cache_opened : opened two_entries 3 two_bodies empty_cache.
Proof.
  split; [|intros d ino|done|done].
  - intros d ->%list_elem_of_singleton i e _ Hi. by rewrite is_present_testbit in Hi.
  - by intros ->%list_elem_of_singleton.
Qed.

(** The bits of both entries, set on either side of a crash, are sound; and the
    fetch that finds entry 0 present delivers it. *)
Lemma presence_sound_witness :
  let s := after empty_cache crash_run in
  readable 3 two_bodies s (sample_entry [10; 11; 12; 13] 0) ∧
  readable 3 two_bodies s (sample_entry [20; 21] 4) ∧
  (∀ s', call_step 5 two_entries 3 4 s 2 (FetchFound 0) Go = Some s' →
     calls s' !! 2%nat = Some (Done (Ok 0)) → is_present (present_bytes s') 0 = true).
Proof.
  assert (∃ s, checked_run 5 two_entries 3 4 two_bodies empty_cache crash_run = Some s ∧
            exec_all 5 two_entries 3 4 empty_cache crash_run = Some s) as (s & Hr & Hs).
  { eexists. split; vm_compute; reflexivity. }
  unfold after. rewrite Hs. cbv zeta. cbn [default].
  assert (is_present (present_bytes s) 0 = true ∧ is_present (present_bytes s) 1 = true ∧
          calls s !! 2%nat = Some (FetchFound 0)) as (H0 & H1 & H2).
  { clear Hr. vm_compute in Hs. injection Hs as <-. split_and!; vm_compute; reflexivity. }
  pose proof (checked_run_reachable _ _ _ _ _ _ _ _ _ (reach_refl _ _ _ _ _ _) Hr) as Hreach. clear Hr Hs.
  destruct (presence_sound 5 two_entries 3 4 two_bodies empty_cache s two_entries_fit empty_cache_opened Hreach)
    as [Hbits Hdel].
  split; [apply (Hbits 0%nat); [by split|exact H0]|]. split; [apply (Hbits 1%nat); [by split|exact H1]|].
  intros s' Hstep Hdone.
  refine (proj1 (Hdel 2%nat (FetchFound 0) Go s' 0%nat (sample_entry [10; 11; 12; 13] 0) 0 H2 _ Hstep _ _ Hdone));
    [|reflexivity|by split].
  intros p Hp rs re bs Hreq. rewrite H2 in Hp. injection Hp as <-. done.
Defined.

(** A fetch of entry 0 up to its rename, an eviction's first unlink in between:
    [.present] (not there yet) goes, the commit installs it, [.body] goes. *)
Definition race_run : list Action :=
  removelast (fetch_run 0 0 [10; 11; 12; 13] true) ++ [Evict true; Run 0 Go; Run 0 Go; Run 0 Go; Evict true].

(** Without the calm [presence_sound] asks of evictions the promise fails, and
    for good.  After the race entry 0's bit has no body; a fetch of entry 0 would
    repair that, but a fetch of entry 1 that comes first creates [.body] anew and
    merges the stale bit.  From then on a fetch of entry 0 returns at once, with
    zeros where its body should be. *)
Theorem eviction_race_strands_bit :
  (let s := after empty_cache race_run in
   d_present (latest (dir s)) = Some [1] ∧ body_file s = None ∧ calls s !! 0%nat = Some (Done (Ok 0))) ∧
  (let s := after empty_cache
     (race_run ++ fetch_run 1 1 [20; 21] true ++ [Run 1 Go; Run 1 Go; Arrive 2 (FetchJob 0); Run 2 Go; Run 2 Go]) in
   calls s !! 1%nat = Some (Done (Ok 0)) ∧ calls s !! 2%nat = Some (Done (Ok 0)) ∧
   is_present (present_bytes s) 0 = true ∧
   (n ← body_file s; inodes s !! n) = Some (mkInode [0; 0; 0; 0; 20; 21] [0; 0; 0; 0; 20; 21])).
Proof. vm_compute. split_and!; reflexivity. Qed.

(** Two reads that need one segment's delta section share one [.delta.tmp].  The
    second opens it, truncating, between the first's sync and rename: the first
    returns over an empty [.delta], which every later call takes as there, and
    the second's rename finds no file. *)
Theorem delta_fetches_collide :
  let layout := mkLayout 0 0 0 3 in
  let start := mkDeltaState [] None None (<[0%nat := DeltaTop]> (<[1%nat := DeltaTop]> (<[2%nat := DeltaTop]> ∅))) in
  let got := Served (Ok [1; 2; 3]) in
  ∃ s s', delta_run layout [] start
            [(0%nat, Go); (1%nat, Go); (0%nat, got); (1%nat, got); (0%nat, Go); (0%nat, Go); (0%nat, Go);
             (1%nat, Go); (0%nat, Go); (2%nat, Go)] = Some s ∧
    dl_calls s !! 0%nat = Some (DeltaDone (Ok ())) ∧ dl_calls s !! 2%nat = Some (DeltaDone (Ok ())) ∧
    (n ← dl_file s; dl_inodes s !! n) = Some (mkInode [] [1; 2; 3]) ∧
    delta_run layout [] s [(1%nat, Go); (1%nat, Go); (1%nat, Go)] = Some s' ∧
    dl_calls s' !! 1%nat = Some (DeltaDone (Err OtherError)).
Proof. eexists _, _. split_and!; vm_compute; reflexivity. Qed.
