(* ===== verification/FetchLiveSpec.v ===== *)
(** * Demand fetch: leases and progress

    Whatever the store answers and whenever the host evicts or fails, the
    coalescer gives two calls at work on one segment disjoint ranges, and the
    calls never block each other for good. *)

From Stdlib Require Import ZArith Lia.
From stdpp Require Import base gmap list sorting.
From S2P Require Import Prelude Bytes Segment ChunkTree Codec SegmentCodec ExtentIndex Fetch FetchFacts FetchSpec.
Open Scope Z_scope.

Section live.
Context {HB : Blake3} {HL : Lz4Block} {HC : Lz4Codec} {HT : Blake3Tree} {HZ : ZstdBulk}.
Context (segment : Ulid) (entries : list SegmentEntry) (bss cap : Z).

(** ** The invariant *)

Definition lease_pair (f : InFlight) : nat * nat := (if_start f, if_end f).

Definition apart (x y : nat * nat) : Prop := (x.2 < y.1 ∨ y.2 < x.1)%nat.

Definition shape_ok (p : Phase) : Prop :=
  match p with
  | FetchClaim a b _ => (a ≤ b)%nat
  | WarmProbe batches | WarmOpen batches _ => batches ≠ []
  | WarmRun w => (0 < w_workers w)%nat
  | _ => True
  end.

Record Live (s : State) : Prop := {
  lv_lease : ∀ c p x, calls s !! c = Some p → lease_of p = Some x →
    (x.1 ≤ x.2)%nat ∧ x ∈ lease_pair <$> in_flight s;
  lv_owner : ∀ f, f ∈ in_flight s →
    if_segment f = segment ∧ ∃ c p, calls s !! c = Some p ∧ lease_of p = Some (lease_pair f);
  lv_apart : ∀ c c' p p' x y, c ≠ c' → calls s !! c = Some p → calls s !! c' = Some p' →
    lease_of p = Some x → lease_of p' = Some y → apart x y;
  lv_nodup : NoDup (lease_pair <$> in_flight s);
  lv_shape : ∀ c p, calls s !! c = Some p → shape_ok p;
  lv_lock : ∀ c, lock s = Some c → ∃ p, calls s !! c = Some p ∧ holds_lock p = true;
  lv_held : ∀ c p, calls s !! c = Some p → holds_lock p = true → lock s = Some c
}.

(** ** Preservation *)

(** The lock after a step of [c] that goes from [before] holding it to [after]. *)
Definition lock_moves (c : nat) (before after : bool) (s s1 : State) : Prop :=
  if after then lock s1 = Some c ∧ (before = true ∨ lock s = None)
  else lock s1 = if before then None else lock s.

Lemma lock_moves_live s s1 c p p' c' :
  Live s → calls s !! c = Some p → lock_moves c (holds_lock p) (holds_lock p') s s1 → c' ≠ c →
  lock s1 = Some c' ↔ lock s = Some c'.
Proof.
  intros HI Hc Hm Hne. pose proof (lv_held _ HI _ _ Hc) as Hh. unfold lock_moves in Hm.
  destruct (holds_lock p), (holds_lock p').
  - rewrite (Hh eq_refl). destruct Hm as [-> _]. done.
  - rewrite (Hh eq_refl), Hm. split; [done|congruence].
  - destruct Hm as [-> [?| ->]]; [done|]. split; [congruence|done].
  - by rewrite Hm.
Qed.

(** A step that keeps the call's lease. *)
Lemma live_step s s1 c p p' :
  Live s → calls s !! c = Some p → calls s1 = calls s → in_flight s1 = in_flight s →
  lease_of p' = lease_of p → shape_ok p' → lock_moves c (holds_lock p) (holds_lock p') s s1 →
  Live (goto c p' s1).
Proof.
  intros HI Hc Hcs Hf Hl Hsh Hm.
  assert (∀ k q, <[c := p']> (calls s) !! k = Some q →
            ∃ q', calls s !! k = Some q' ∧ lease_of q = lease_of q') as Hold.
  { intros k q Hq. destruct (decide (k = c)) as [->|].
    - rewrite lookup_insert_eq in Hq. injection Hq as <-. by exists p.
    - rewrite lookup_insert_ne in Hq by done. by exists q. }
  split; simpl; rewrite ?Hcs, ?Hf.
  - intros k q x Hq Hx. destruct (Hold _ _ Hq) as (q' & Hq' & He). apply (lv_lease _ HI k q'); [done|congruence].
  - intros f Hin. destruct (lv_owner _ HI f Hin) as (Hs & k & q & Hq & Hx). split; [done|].
    destruct (decide (k = c)) as [->|].
    + exists c, p'. rewrite lookup_insert_eq. split; [done|]. congruence.
    + exists k, q. by rewrite lookup_insert_ne.
  - intros k k' q q' x y Hne Hq Hq' Hx Hy.
    destruct (Hold _ _ Hq) as (r & Hr & He), (Hold _ _ Hq') as (r' & Hr' & He').
    eapply (lv_apart _ HI k k'); [done..|congruence|congruence].
  - apply HI.
  - intros k q Hq. destruct (decide (k = c)) as [->|].
    + rewrite lookup_insert_eq in Hq. by injection Hq as <-.
    + rewrite lookup_insert_ne in Hq by done. by apply (lv_shape _ HI k).
  - intros k Hk. destruct (decide (k = c)) as [->|Hne].
    + exists p'. rewrite lookup_insert_eq. split; [done|]. unfold lock_moves in Hm.
      destruct (holds_lock p'); [done|]. destruct (holds_lock p) eqn:Hp; [congruence|].
      rewrite Hm in Hk. destruct (lv_lock _ HI _ Hk) as (q & Hq & Hh). congruence.
    + apply (lock_moves_live _ _ _ _ _ _ HI Hc Hm Hne) in Hk. destruct (lv_lock _ HI _ Hk) as (q & Hq & Hh).
      exists q. by rewrite lookup_insert_ne.
  - intros k q Hq Hh. destruct (decide (k = c)) as [->|Hne].
    + rewrite lookup_insert_eq in Hq. injection Hq as <-. unfold lock_moves in Hm. rewrite Hh in Hm. tauto.
    + rewrite lookup_insert_ne in Hq by done. apply (lock_moves_live _ _ _ _ _ _ HI Hc Hm Hne).
      by apply (lv_held _ HI k q).
Qed.

Lemma elem_of_release_lease a b l f :
  f ∈ release_lease segment a b l → f ∈ l.
Proof.
  induction l as [|g l IH]; simpl; [done|]. case_decide; [by right|].
  intros [->|Hf]%elem_of_cons; [by left|right; auto].
Qed.

Lemma release_lease_gone a b l f :
  NoDup (lease_pair <$> l) → (a, b) ∈ lease_pair <$> l → (∀ g, g ∈ l → if_segment g = segment) →
  (f ∈ release_lease segment a b l ↔ f ∈ l ∧ lease_pair f ≠ (a, b)) ∧
  NoDup (lease_pair <$> release_lease segment a b l).
Proof.
  induction l as [|g l IH]; intros Hnd Hin Hseg; [by apply elem_of_nil in Hin|].
  rewrite fmap_cons in Hnd, Hin. apply NoDup_cons in Hnd as [Hg Hnd]. simpl. case_decide as Hd.
  - destruct Hd as (_ & Ha & Hb). assert (lease_pair g = (a, b)) as Hp by (unfold lease_pair; congruence).
    split; [|done]. rewrite elem_of_cons. split.
    + intros Hf. split; [by right|]. intros Hfp. apply Hg. rewrite Hp, <- Hfp. by apply list_elem_of_fmap_2.
    + intros [[->|Hf] Hne]; [done|done].
  - assert (lease_pair g ≠ (a, b)) as Hp.
    { intros [= Ha Hb]. apply Hd. split_and!; [apply Hseg; by left|done..]. }
    apply elem_of_cons in Hin as [Hin|Hin]; [congruence|].
    destruct (IH Hnd Hin ltac:(intros; apply Hseg; by right)) as [IH1 IH2]. split.
    + rewrite !elem_of_cons, IH1. naive_solver.
    + rewrite fmap_cons. apply NoDup_cons. split; [|done]. intros Hx. apply Hg.
      apply list_elem_of_fmap in Hx as (h & -> & Hh). apply list_elem_of_fmap_2. by eapply elem_of_release_lease.
Qed.

(** A call that returns. *)
Lemma live_return s s1 c p lease locked r :
  Live s → calls s !! c = Some p → calls s1 = calls s → in_flight s1 = in_flight s → lock s1 = lock s →
  lease = lease_of p → locked = holds_lock p → Live (return_from segment c lease locked r s1).
Proof.
  intros HI Hc Hcs Hf Hl -> ->.
  destruct (lease_of p) as [[a b]|] eqn:Hlease.
  2:{ unfold return_from. simpl. apply (live_step s _ c p); try done; try (by destruct (holds_lock p)). }
  destruct (lv_lease _ HI c p (a, b) Hc Hlease) as [Hab Hin].
  assert (∀ f, f ∈ release_lease segment a b (in_flight s) ↔ f ∈ in_flight s ∧ lease_pair f ≠ (a, b)) as Hrel.
  { intros f. apply (release_lease_gone a b _ f (lv_nodup _ HI) Hin). intros g Hg. by apply (lv_owner _ HI). }
  assert (lock_moves c (holds_lock p) false s (if holds_lock p then with_lock None s1 else s1)) as Hm.
  { unfold lock_moves. by destruct (holds_lock p). }
  set (s2 := if holds_lock p then with_lock None s1 else s1) in *.
  assert (calls s2 = calls s ∧ in_flight s2 = in_flight s) as [Hc2 Hf2] by (by subst s2; destruct (holds_lock p)).
  unfold return_from. fold s2. unfold drop_lease.
  assert (∀ k q x, <[c := Done r]> (calls s) !! k = Some q → lease_of q = Some x → k ≠ c ∧ calls s !! k = Some q) as Hold.
  { intros k q x Hq Hx. destruct (decide (k = c)) as [->|].
    - rewrite lookup_insert_eq in Hq. injection Hq as <-. done.
    - by rewrite lookup_insert_ne in Hq. }
  split; simpl; rewrite ?Hc2, ?Hf2.
  - intros k q x Hq Hx. destruct (Hold k q x Hq Hx) as [Hne Hk]. destruct (lv_lease _ HI k q x Hk Hx) as [Hle Hx'].
    split; [done|]. apply list_elem_of_fmap in Hx' as (f & -> & Hfin). apply list_elem_of_fmap_2, Hrel. split; [done|].
    intros He. rewrite He in Hx. destruct (lv_apart _ HI k c q p _ _ Hne Hk Hc Hx Hlease) as [?|?]; simpl in *; lia.
  - intros f [Hfin Hne]%Hrel. destruct (lv_owner _ HI f Hfin) as (Hs & k & q & Hq & Hx). split; [done|].
    exists k, q. rewrite lookup_insert_ne; [done|]. intros ->. congruence.
  - intros k k' q q' x y Hne Hq Hq' Hx Hy. destruct (Hold _ _ _ Hq Hx), (Hold _ _ _ Hq' Hy).
    by eapply (lv_apart _ HI k k').
  - apply (release_lease_gone a b _ (mkInFlight 0 0 0 0) (lv_nodup _ HI) Hin). intros g Hg. by apply (lv_owner _ HI).
  - intros k q Hq. destruct (decide (k = c)) as [->|].
    + rewrite lookup_insert_eq in Hq. by injection Hq as <-.
    + rewrite lookup_insert_ne in Hq by done. by apply (lv_shape _ HI k).
  - intros k Hk. destruct (decide (k = c)) as [->|Hne].
    + unfold lock_moves in Hm. rewrite Hm in Hk. destruct (holds_lock p) eqn:Hp; [done|].
      destruct (lv_lock _ HI _ Hk) as (q & Hq & Hh). congruence.
    + apply (lock_moves_live s s2 c p (Done r) k HI Hc Hm Hne) in Hk. destruct (lv_lock _ HI _ Hk) as (q & Hq & Hh).
      exists q. by rewrite lookup_insert_ne.
  - intros k q Hq Hh. destruct (decide (k = c)) as [->|Hne].
    + rewrite lookup_insert_eq in Hq. by injection Hq as <-.
    + rewrite lookup_insert_ne in Hq by done. apply (lock_moves_live s s2 c p (Done r) k HI Hc Hm Hne).
      by apply (lv_held _ HI k q).
Qed.

(** A claim nothing overlaps. *)
Lemma live_claim s c a b nx :
  Live s → calls s !! c = Some (FetchClaim a b nx) →
  list_find (overlaps segment a b) (in_flight s) = None →
  Live (goto c (FetchGet a b nx) (push_lease (mkInFlight segment a b (flags s)) s)).
Proof.
  intros HI Hc Hnone. pose proof (lv_shape _ HI _ _ Hc) as Hab. simpl in Hab.
  rewrite list_find_None, Forall_forall in Hnone.
  assert (∀ f, f ∈ in_flight s → apart (a, b) (lease_pair f)) as Hapart.
  { intros f Hf. pose proof (Hnone f Hf) as Hn. unfold overlaps in Hn.
    rewrite (proj1 (lv_owner _ HI f Hf)) in Hn. unfold apart, lease_pair. simpl. lia. }
  assert (∀ k q x, calls s !! k = Some q → lease_of q = Some x → apart (a, b) x) as Hcalls.
  { intros k q x Hq Hx. destruct (lv_lease _ HI k q x Hq Hx) as [_ Hin].
    apply list_elem_of_fmap in Hin as (f & -> & Hf). by apply Hapart. }
  split; simpl.
  - intros k q x Hq Hx. rewrite fmap_app, elem_of_app. destruct (decide (k = c)) as [->|].
    + rewrite lookup_insert_eq in Hq. injection Hq as <-. injection Hx as <-. split; [done|]. right. by left.
    + rewrite lookup_insert_ne in Hq by done. destruct (lv_lease _ HI k q x Hq Hx). by auto.
  - intros f [Hf| ->%list_elem_of_singleton]%elem_of_app.
    + destruct (lv_owner _ HI f Hf) as (Hs & k & q & Hq & Hx). split; [done|]. exists k, q.
      rewrite lookup_insert_ne; [done|]. intros ->. rewrite Hc in Hq. by injection Hq as <-.
    + split; [done|]. exists c, (FetchGet a b nx). by rewrite lookup_insert_eq.
  - intros k k' q q' x y Hne Hq Hq' Hx Hy.
    destruct (decide (k = c)) as [->|Hk], (decide (k' = c)) as [->|Hk']; try done;
      rewrite ?lookup_insert_eq, ?lookup_insert_ne in Hq by done;
      rewrite ?lookup_insert_eq, ?lookup_insert_ne in Hq' by done.
    + injection Hq as <-. injection Hx as <-. by eapply Hcalls.
    + injection Hq' as <-. injection Hy as <-. destruct (Hcalls _ _ _ Hq Hx); [by right|by left].
    + by eapply (lv_apart _ HI k k').
  - rewrite fmap_app. apply NoDup_app. split; [apply HI|]. split; [|apply NoDup_singleton].
    intros x Hx ->%list_elem_of_singleton. apply list_elem_of_fmap in Hx as (f & He & Hf).
    pose proof (Hapart f Hf) as Ha. rewrite <- He in Ha. unfold apart, lease_pair in Ha. simpl in Ha. lia.
  - intros k q Hq. destruct (decide (k = c)) as [->|].
    + rewrite lookup_insert_eq in Hq. by injection Hq as <-.
    + rewrite lookup_insert_ne in Hq by done. by apply (lv_shape _ HI k).
  - intros k Hk. destruct (lv_lock _ HI k Hk) as (q & Hq & Hh). exists q. rewrite lookup_insert_ne; [done|].
    intros ->. rewrite Hc in Hq. by injection Hq as <-.
  - intros k q Hq Hh. destruct (decide (k = c)) as [->|].
    + rewrite lookup_insert_eq in Hq. by injection Hq as <-.
    + rewrite lookup_insert_ne in Hq by done. by apply (lv_held _ HI k q).
Qed.

Ltac by_step HI Hc :=
  pose proof (lv_held _ HI _ _ Hc); simpl in *;
  first [ eapply (live_return _ _ _ _ _ _ _ HI Hc); done
        | eapply (live_step _ _ _ _ _ HI Hc); try done; unfold lock_moves; simpl; auto ].

Lemma open_body_frame s s1 ino :
  open_body s = (s1, ino) → calls s1 = calls s ∧ in_flight s1 = in_flight s ∧ lock s1 = lock s.
Proof. unfold open_body. destruct (body_file s); by intros [= <- _]. Qed.

Lemma fetch_step_live s c p a s' :
  Live s → calls s !! c = Some p → fetch_step segment entries bss cap s c p a = Some s' → Live s'.
Proof.
  intros HI Hc Hs. destruct p; try done; destruct a; try done; simpl in Hs.
  - destruct (is_present _ _); [injection Hs as <-; by_step HI Hc|].
    destruct (plan_fetch _ _ _ _) as [l nx] eqn:Hp. injection Hs as <-. by_step HI Hc.
    by eapply plan_fetch_last.
  - injection Hs as <-. by_step HI Hc.
  - destruct (body_file s); injection Hs as <-; by_step HI Hc.
  - destruct (lock s) eqn:Hl; [done|]. injection Hs as <-. by_step HI Hc.
  - destruct (body_file s); injection Hs as <-; by_step HI Hc.
  - injection Hs as <-. by_step HI Hc.
  - injection Hs as <-. by_step HI Hc.
  - destruct (list_find _ _) as [[? f]|] eqn:Hf; injection Hs as <-; [by_step HI Hc|by apply live_claim].
  - case_decide; [done|]. injection Hs as <-. by_step HI Hc.
  - destruct (accept_batch _ _ _ _ _ _ _ _); injection Hs as <-; by_step HI Hc.
  - injection Hs as <-. by_step HI Hc.
  - injection Hs as <-. by_step HI Hc.
  - destruct (open_body s) as [s1 ino] eqn:Ho. injection Hs as <-.
    destruct (open_body_frame _ _ _ Ho) as (?&?&?). by_step HI Hc.
  - injection Hs as <-. by_step HI Hc.
  - injection Hs as <-. by_step HI Hc.
  - injection Hs as <-. by_step HI Hc.
Qed.

Lemma run_step_live s c w a s' :
  Live s → calls s !! c = Some (WarmRun w) → run_step segment entries bss s c w a = Some s' → Live s'.
Proof.
  intros HI Hc Hs. pose proof (lv_shape _ HI _ _ Hc) as Hw. simpl in Hw.
  unfold run_step in Hs. repeat case_match; try done; simplify_eq; by_step HI Hc.
Qed.

Lemma warm_step_live s c p a s' :
  Live s → calls s !! c = Some p → warm_step segment entries bss cap s c p a = Some s' → Live s'.
Proof.
  intros HI Hc Hs. pose proof (lv_shape _ HI _ _ Hc) as Hw.
  destruct p; try done; [destruct a; try done; simpl in Hs..|by eapply run_step_live].
  - destruct (plan_warm_batches _ _ _ _); injection Hs as <-; by_step HI Hc.
  - injection Hs as <-. by_step HI Hc.
  - injection Hs as <-. by_step HI Hc.
  - injection Hs as <-. by_step HI Hc.
  - destruct (open_body s) as [s1 ino] eqn:Ho. injection Hs as <-.
    destruct (open_body_frame _ _ _ Ho) as (?&?&?). by_step HI Hc.
    simpl in Hw. destruct batches; [done|]. simpl. lia.
  - injection Hs as <-. by_step HI Hc.
Qed.

Lemma commit_step_live s c p a s' :
  Live s → calls s !! c = Some p → commit_step segment entries s c p a = Some s' → Live s'.
Proof.
  intros HI Hc Hs. destruct p; try done; destruct a; try done; simpl in Hs;
    try (destruct (lock s) eqn:Hl; [done|]); injection Hs as <-; try destruct (t_new t); by_step HI Hc.
Qed.

Lemma call_step_live s c p a s' :
  Live s → calls s !! c = Some p → call_step segment entries bss cap s c p a = Some s' → Live s'.
Proof.
  intros HI Hc Hs. unfold call_step in Hs.
  destruct (fetch_step _ _ _ _ _ _ _ _) eqn:H1; [injection Hs as <-; by eapply fetch_step_live|].
  destruct (warm_step _ _ _ _ _ _ _ _) eqn:H2; [injection Hs as <-; by eapply warm_step_live|].
  by eapply commit_step_live.
Qed.

Lemma arrive_live s c job : Live s → calls s !! c = None → Live (goto c (arrive entries job) s).
Proof.
  intros HI Hc.
  assert (lease_of (arrive entries job) = None ∧ holds_lock (arrive entries job) = false ∧
          shape_ok (arrive entries job)) as (Hl & Hh & Hsh).
  { unfold arrive. destruct job; [destruct (check_target _ _)|]; done. }
  split; simpl.
  - intros k q x Hq Hx. destruct (decide (k = c)) as [->|].
    + rewrite lookup_insert_eq in Hq. congruence.
    + rewrite lookup_insert_ne in Hq by done. by apply (lv_lease _ HI k q).
  - intros f Hf. destruct (lv_owner _ HI f Hf) as (Hs & k & q & Hq & Hx). split; [done|]. exists k, q.
    rewrite lookup_insert_ne; [done|congruence].
  - intros k k' q q' x y Hne Hq Hq' Hx Hy.
    destruct (decide (k = c)) as [->|]; [rewrite lookup_insert_eq in Hq; congruence|].
    destruct (decide (k' = c)) as [->|]; [rewrite lookup_insert_eq in Hq'; congruence|].
    rewrite lookup_insert_ne in Hq, Hq' by done. by eapply (lv_apart _ HI k k').
  - apply HI.
  - intros k q Hq. destruct (decide (k = c)) as [->|].
    + rewrite lookup_insert_eq in Hq. by injection Hq as <-.
    + rewrite lookup_insert_ne in Hq by done. by apply (lv_shape _ HI k).
  - intros k Hk. destruct (lv_lock _ HI k Hk) as (q & Hq & Hq'). exists q. rewrite lookup_insert_ne; [done|congruence].
  - intros k q Hq Hhq. destruct (decide (k = c)) as [->|].
    + rewrite lookup_insert_eq in Hq. congruence.
    + rewrite lookup_insert_ne in Hq by done. by apply (lv_held _ HI k q).
Qed.

Lemma exec_live s a s' : Live s → exec segment entries bss cap s a = Some s' → Live s'.
Proof.
  intros HI Hs. destruct a as [c job|c answer|removed|kept contents]; simpl in Hs.
  - destruct (calls s !! c) eqn:Hc; [done|]. injection Hs as <-. by apply arrive_live.
  - destruct (calls s !! c) as [p|] eqn:Hc; [|done]. by eapply call_step_live.
  - injection Hs as <-. destruct HI as [H1 H2 H3 H4 H5 H6 H7].
    unfold evict_step. by destruct (evicting s), removed; split.
  - unfold crash_step in Hs. destruct (_ !! _); [|done]. case_decide; [|done]. injection Hs as <-.
    split; simpl; try done.
    + intros f Hf. by apply elem_of_nil in Hf.
    + apply NoDup_nil_2.
Qed.

Lemma exec_all_live s l s' : Live s → exec_all segment entries bss cap s l = Some s' → Live s'.
Proof.
  revert s. induction l as [|a l IH]; intros s HI Hs; simpl in Hs; [congruence|].
  destruct (exec _ _ _ _ _ _) eqn:He; [|done]. eapply IH; [|done]. by eapply exec_live.
Qed.

(** ** Progress *)

Definition can_step (s : State) (c : nat) : Prop :=
  ∃ p a s', calls s !! c = Some p ∧ working p = true ∧ call_step segment entries bss cap s c p a = Some s'.

(** A call at work takes a step whatever the files answer, unless it is at the
    lock another call holds or at the flag of another's lease. *)
Lemma ready_or_waiting s c p :
  Live s → calls s !! c = Some p → working p = true →
  can_step s c ∨
  ((∃ t, p = Locking t) ∨ ∃ x, p = FetchDropLock x) ∧ lock s ≠ None ∨
  (∃ x flag, p = FetchWait x flag ∧ flag ∈ if_done <$> in_flight s).
Proof.
  intros HI Hc Hw.
  assert (∀ a, is_Some (call_step segment entries bss cap s c p a) → can_step s c) as Hgo.
  { intros a [s' Hs]. by exists p, a, s'. }
  pose proof (lv_shape _ HI _ _ Hc) as Hsh.
  destruct p as [x|x|x|x|x|x l nx|x fl|x l nx|x l bs|x l bs nw|x l bs nw ino|pop|bs|bs nw|w|t|t|t|t|t bits|t bits|t bits|];
    try done.
  - left. apply (Hgo Go). unfold call_step. simpl. destruct (is_present _ _); [done|]. by destruct (plan_fetch _ _ _ _).
  - left. apply (Hgo Go). unfold call_step. simpl. by destruct (body_file s).
  - destruct (lock s) eqn:Hl; [right; left; split; [right; by exists x|done]|].
    left. apply (Hgo Go). unfold call_step. simpl. by rewrite Hl.
  - left. apply (Hgo Go). unfold call_step. simpl. by destruct (body_file s).
  - left. by apply (Hgo Go).
  - left. apply (Hgo Go). unfold call_step. simpl. by destruct (list_find _ _) as [[]|].
  - destruct (decide (fl ∈ if_done <$> in_flight s)); [right; right; by exists x, fl|].
    left. apply (Hgo Go). unfold call_step. simpl. by rewrite decide_False.
  - left. by apply (Hgo (Served (Err NotFound))).
  - left. by apply (Hgo Go).
  - left. apply (Hgo Go). unfold call_step. simpl. by destruct (open_body s).
  - left. by apply (Hgo Go).
  - left. apply (Hgo Go). unfold call_step. simpl. by destruct (plan_warm_batches _ _ _ _).
  - left. by apply (Hgo Go).
  - left. apply (Hgo Go). unfold call_step. simpl. by destruct (open_body s).
  - left. simpl in Hsh. destruct (w_flying w) as [|[b [got|]] flying] eqn:Hf.
    + destruct (w_error w) eqn:He; [apply (Hgo Go); unfold call_step; simpl; unfold run_step; by rewrite Hf, He|].
      destruct (w_todo w) eqn:Ht.
      * apply (Hgo Go). unfold call_step. simpl. unfold run_step. rewrite Hf, He, Ht. by destruct (w_warmed w).
      * apply (Hgo Take). unfold call_step. simpl. unfold run_step. rewrite Hf, He, Ht. by rewrite decide_True.
    + apply (Hgo (WorkerWrote 0 None)). unfold call_step. simpl. unfold run_step. by rewrite Hf.
    + apply (Hgo (WorkerServed 0 (Err NotFound))). unfold call_step. simpl. unfold run_step. by rewrite Hf.
  - left. by apply (Hgo Go).
  - left. by apply (Hgo Go).
  - destruct (lock s) eqn:Hl; [right; left; split; [left; by exists t|done]|].
    left. apply (Hgo Go). unfold call_step. simpl. by rewrite Hl.
  - left. by apply (Hgo Go).
  - left. by apply (Hgo Go).
  - left. by apply (Hgo Go).
  - left. by apply (Hgo Go).
Qed.

Lemma holder_steps s c p : Live s → calls s !! c = Some p → holds_lock p = true → can_step s c.
Proof.
  intros HI Hc Hh. assert (working p = true) as Hw by (by destruct p).
  destruct (ready_or_waiting s c p HI Hc Hw) as [?|[[[[t ->]|[x ->]] _]|(x & fl & -> & _)]]; done.
Qed.

(** While a call is at work, some call can take a step. *)
Lemma progress s c p : Live s → calls s !! c = Some p → working p = true → ∃ k, can_step s k.
Proof.
  intros HI.
  assert (lock s ≠ None → ∃ k, can_step s k) as Hlocked.
  { intros Hl. destruct (lock s) as [k|] eqn:Hk; [|done]. destruct (lv_lock _ HI k Hk) as (q & Hq & Hh).
    exists k. by eapply holder_steps. }
  intros Hc Hw. destruct (ready_or_waiting s c p HI Hc Hw) as [?|[[_ ?]|(x & fl & -> & Hfl)]]; [by exists c|auto|].
  apply list_elem_of_fmap in Hfl as (f & -> & Hf). destruct (lv_owner _ HI f Hf) as (_ & k & q & Hq & Hlease).
  assert (working q = true) as Hwq by (by destruct q).
  destruct (ready_or_waiting s k q HI Hq Hwq) as [?|[[_ ?]|(y & fl' & -> & _)]]; [by exists k|auto|done].
Qed.

Lemma live_start s : calls s = ∅ → in_flight s = [] → lock s = None → Live s.
Proof.
  intros Hc Hf Hl. split; rewrite ?Hc, ?Hf, ?Hl; try done.
  - intros f Hin. by apply elem_of_nil in Hin.
  - apply NoDup_nil_2.
Qed.
End live.

(** ** The property *)

(** C40: the coalescer keeps concurrent calls apart and never blocks them for
    good.  After any sequence of arrivals, operations (failures included),
    evictions and crashes: two fetches that hold a lease, that is, are anywhere
    from their range-GET to their return, hold disjoint ranges of entries, so no
    entry is fetched twice at once; and while some call has not returned, some
    call can take a step, so neither the leases nor the [.present] lock
    deadlock. *)
Theorem fetches_apart_and_live `{HB : Blake3} `{HL : Lz4Block} `{HC : !Lz4Codec} `{HT : Blake3Tree} `{HZ : ZstdBulk}
    segment entries bss cap s0 l s :
  calls s0 = ∅ → in_flight s0 = [] → lock s0 = None →
  exec_all segment entries bss cap s0 l = Some s →
  (∀ c c' p p' a b a' b', c ≠ c' → calls s !! c = Some p → calls s !! c' = Some p' →
     lease_of p = Some (a, b) → lease_of p' = Some (a', b') → (b < a' ∨ b' < a)%nat) ∧
  (∀ c p, calls s !! c = Some p → working p = true →
     ∃ k q answer s', calls s !! k = Some q ∧ working q = true ∧
       call_step segment entries bss cap s k q answer = Some s').
Proof.
  intros Hc Hf Hl Hs. pose proof (exec_all_live _ _ _ _ _ _ _ (live_start segment _ Hc Hf Hl) Hs) as HI.
  split; [|intros c p Hcp Hw; by apply (progress _ _ _ _ _ _ _ HI Hcp)].
  intros c c' p p' a b a' b' Hne Hp Hp' Ha Hb. by apply (lv_apart _ _ HI _ _ _ _ _ _ Hne Hp Hp' Ha Hb).
Qed.

#[local] Existing Instance toy_blake3.
#[local] Existing Instance toy_tree.
#[local] Existing Instance rle_lz4.
#[local] Existing Instance rle_codec.
#[local] Existing Instance toy_zstd.

(** Two fetches at once: the second waits for the first's lease, then moves on. *)
Lemma fetches_apart_and_live_witness :
  let s := after empty_cache [Arrive 0 (FetchJob 0); Arrive 1 (FetchJob 0); Arrive 2 (FetchJob 1);
             Run 0 Go; Run 1 Go; Run 2 Go; Run 0 Go; Run 1 Go; Run 2 Go] in
  calls s !! 1%nat = Some (FetchWait 0 0) ∧ lease_of (FetchGet 0 0 4) = Some (0%nat, 0%nat) ∧
  ∃ k q answer s', calls s !! k = Some q ∧ working q = true ∧
    call_step 5 two_entries 3 4 s k q answer = Some s'.
Proof.
  set (l := [Arrive 0 (FetchJob 0); Arrive 1 (FetchJob 0); Arrive 2 (FetchJob 1);
             Run 0 Go; Run 1 Go; Run 2 Go; Run 0 Go; Run 1 Go; Run 2 Go]).
  assert (exec_all 5 two_entries 3 4 empty_cache l =
          Some (after empty_cache l)) as Hs by (vm_compute; reflexivity).
  assert (calls (after empty_cache l) !! 1%nat = Some (FetchWait 0 0)) as Hw by (vm_compute; reflexivity).
  cbv zeta. split; [exact Hw|]. split; [reflexivity|].
  exact (proj2 (fetches_apart_and_live 5 two_entries 3 4
           empty_cache l _ eq_refl eq_refl eq_refl Hs) 1%nat (FetchWait 0 0) Hw eq_refl).
Defined.
