(* ===== verification/FullWarm.v ===== *)
(** * The full warm plan (elide-fetch/src/full_warm.rs)

    Which entries of which segments a writable volume's start pulls from the
    bucket: those the LBA map still names, held in a cache file, and absent
    from the segment's presence bitset.  The pool of workers that carries the
    plan out calls [warm_segment] once a segment. *)

From Stdlib Require Import ZArith Lia.
From stdpp Require Import base gmap list sorting.
From S2P Require Import Prelude Bytes Segment LbaMap ExtentIndex Fetch FetchFacts.
Open Scope Z_scope.

(** A fork directory: the ULID its name parses to, and its [index/]: the ULIDs
    of the [.idx] names, when there is such a directory. *)
Record ForkDir := mkForkDir { fk_vol : option Ulid; fk_index : io (list Ulid) }.

(** The forks from the last to the first, the first to name a segment owning it;
    a fork is its place in [fork_dirs]. *)
Fixpoint owner_by_seg (forks : list (nat * ForkDir)) (owners : gmap Ulid (nat * Ulid))
    : io (gmap Ulid (nat * Ulid)) :=
  match forks with
  | [] => Ok owners
  | (k, fork) :: forks =>
      match fk_vol fork with
      | None => owner_by_seg forks owners
      | Some vol =>
          match fk_index fork with
          | Err NotFound => owner_by_seg forks owners
          | Err e => Err e
          | Ok segs =>
              owner_by_seg forks
                (foldl (λ m seg, match m !! seg with Some _ => m | None => <[seg := (k, vol)]> m end)
                   owners segs)
          end
      end
  end.

Record SegmentWork := mkSegmentWork { sw_owner : nat * Ulid; populated_entries : list nat }.

(** One extent of the index. *)
Definition add_extent (lm : LbaMap) (owners : gmap Ulid (nat * Ulid)) (m : gmap Ulid SegmentWork)
    (p : Hash * ExtentLocation) : gmap Ulid SegmentWork :=
  let '(h, loc) := p in
  if negb (is_referenced lm h) then m
  else
    match body_source loc with
    | Local => m
    | Cached i =>
        match inline_data loc, owners !! segment_id loc with
        | Some _, _ | None, None => m
        | None, Some owner =>
            let work := default (mkSegmentWork owner []) (m !! segment_id loc) in
            <[segment_id loc := mkSegmentWork (sw_owner work) (populated_entries work ++ [Z.to_nat i])]> m
        end
    end.

(** Sorted, without duplicates, without the entries already present; a segment
    with nothing left is dropped. *)
Definition retain_work (presence : Ulid → option (list Z)) (seg : Ulid) (w : SegmentWork)
    : option SegmentWork :=
  let l := dedup_nat (merge_sort Nat.le (populated_entries w)) in
  let l := match presence seg with
           | Some bits => filter (λ i, negb (sp_test bits (Z.of_nat i))) l
           | None => l
           end in
  match l with [] => None | _ => Some (mkSegmentWork (sw_owner w) l) end.

(** [extents] is the extent index in the order its iterator happens to take;
    [presence] are the bitsets behind the index's handles. *)
Definition plan_segments (fork_dirs : list ForkDir) (lm : LbaMap) (extents : list (Hash * ExtentLocation))
    (presence : Ulid → option (list Z)) : io (gmap Ulid SegmentWork) :=
  owners ← owner_by_seg (reverse (imap pair fork_dirs)) ∅;
  Ok (map_imap (retain_work presence) (foldl (add_extent lm owners) ∅ extents)).

(** ** The plan *)

(** The entry of [seg] an extent asks for. *)
Definition asks (lm : LbaMap) (seg : Ulid) (p : Hash * ExtentLocation) : option nat :=
  if is_referenced lm p.1 && bool_decide (segment_id p.2 = seg) then
    match body_source p.2, inline_data p.2 with Cached i, None => Some (Z.to_nat i) | _, _ => None end
  else None.

Lemma add_extents lm owners l m seg :
  foldl (add_extent lm owners) m l !! seg =
  match owners !! seg, omap (asks lm seg) l with
  | Some owner, (_ :: _) as idxs =>
      let w := default (mkSegmentWork owner []) (m !! seg) in
      Some (mkSegmentWork (sw_owner w) (populated_entries w ++ idxs))
  | _, _ => m !! seg
  end.
Proof.
  revert m. induction l as [|[h loc] l IH]; intros m; [simpl; by destruct (owners !! seg)|].
  cbn [foldl]. rewrite IH. clear IH. 
  change (omap (asks lm seg) ((h, loc) :: l)) with
    (match asks lm seg (h, loc) with Some y => y :: omap (asks lm seg) l | None => omap (asks lm seg) l end).
  assert (asks lm seg (h, loc) = if is_referenced lm h && bool_decide (segment_id loc = seg) then
    match body_source loc, inline_data loc with Cached i, None => Some (Z.to_nat i) | _, _ => None end
  else None) as -> by done.
  unfold add_extent. destruct (is_referenced lm h); simpl; [|done].
  destruct (body_source loc) as [|i]; [by case_bool_decide|].
  destruct (inline_data loc) as [d|]; [by case_bool_decide|].
  case_bool_decide as Hs.
  - subst seg. destruct (owners !! segment_id loc) as [owner|] eqn:Ho; [|done].
    rewrite lookup_insert_eq. simpl.
    destruct (omap (asks lm (segment_id loc)) l); simpl; [done|]. by rewrite <- app_assoc.
  - destruct (owners !! segment_id loc) as [owner|]; [|done].
    by rewrite !lookup_insert_ne.
Qed.

(** The entries a full warm fetches of a segment are exactly those some extent
    the LBA map names keeps in the segment's cache body, outside its inline
    section, and whose bit is clear; once each, in order; the segment's owner is
    a fork whose index has it. *)
Theorem warm_plan_exact fork_dirs lm extents presence plan :
  plan_segments fork_dirs lm extents presence = Ok plan →
  ∃ owners, owner_by_seg (reverse (imap pair fork_dirs)) ∅ = Ok owners ∧
  ∀ seg,
    let needed i := (∃ p, p ∈ extents ∧ asks lm seg p = Some i) ∧
      ∀ bits, presence seg = Some bits → sp_test bits (Z.of_nat i) = false in
    match plan !! seg with
    | Some w => owners !! seg = Some (sw_owner w) ∧ populated_entries w ≠ [] ∧
                StronglySorted Nat.lt (populated_entries w) ∧ ∀ i, i ∈ populated_entries w ↔ needed i
    | None => owners !! seg = None ∨ ∀ i, ¬ needed i
    end.
Proof.
  unfold plan_segments. intros (owners & Ho & [= <-])%io_bind_Ok. exists owners. split; [done|]. intros seg.
  set (needed i := (∃ p, p ∈ extents ∧ asks lm seg p = Some i) ∧
      ∀ bits, presence seg = Some bits → sp_test bits (Z.of_nat i) = false).
  rewrite map_lookup_imap, add_extents, lookup_empty. simpl.
  destruct (owners !! seg) as [owner|] eqn:Hs; simpl; [|by left].
  assert (∀ i, i ∈ omap (asks lm seg) extents ↔ ∃ p, p ∈ extents ∧ asks lm seg p = Some i) as Hin.
  { intros i. by rewrite list_elem_of_omap. }
  destruct (omap (asks lm seg) extents) as [|x idxs] eqn:Hidx; simpl.
  { right. intros i [Hi _]. apply Hin in Hi. by apply elem_of_nil in Hi. }
  set (kept := match presence seg with
     | Some bits => filter (λ i, negb (sp_test bits (Z.of_nat i))) (dedup_nat (merge_sort Nat.le (x :: idxs)))
     | None => dedup_nat (merge_sort Nat.le (x :: idxs)) end).
  assert (∀ i, i ∈ kept ↔ needed i) as Hkept.
  { intros i. unfold needed. rewrite <- Hin. subst kept. destruct (presence seg) as [bits|].
    - rewrite list_elem_of_filter, elem_of_dedup_nat, merge_sort_Permutation. split.
      + intros [Hb Hi]. split; [done|]. intros ? [= <-]. by destruct (sp_test _ _).
      + intros [Hi Hb]. split; [by rewrite (Hb bits eq_refl)|done].
    - rewrite elem_of_dedup_nat, merge_sort_Permutation. split; [by intros|tauto]. }
  assert (StronglySorted Nat.lt kept) as Hsorted.
  { assert (StronglySorted Nat.lt (dedup_nat (merge_sort Nat.le (x :: idxs)))) as Hd.
    { apply dedup_nat_sorted, StronglySorted_merge_sort; [intros ???; lia|intros a b; unfold Nat.le; lia]. }
    subst kept. destruct (presence seg); [|done]. by apply indices_filter_sorted. }
  unfold retain_work. simpl. fold kept. clearbody kept. destruct kept as [|k kept].
  - right. intros i Hi. apply Hkept in Hi. by apply elem_of_nil in Hi.
  - simpl. by split_and!.
Qed.
